(* ===== verification/_CoqProject ===== *)
-Q . S2P
Prelude.v
Bytes.v
Abi.v
Path.v
FdTable.v
Lock.v
Memory.v
Signal.v
Wakeup.v
Ofd.v
Pipe.v
PipeTable.v
Mqueue.v
Terminal.v
Pshared.v
Ipc.v
Spawn.v
Names.v
Backing.v
Socket.v
Process.v
Dri.v
Devices.v
Codec.v
Fork.v
Exec.v
Kernel.v
Accounts.v
ProcTable.v
Lifecycle.v
Sys.v
Descriptors.v
Releases.v
Syscalls.v
Answers.v
Image.v
Procfs.v
Devfs.v
Resolve.v
Paths.v
