(* ===== verification/Prelude.v ===== *)
(** * Verification of the Kandelo kernel

    Kandelo runs POSIX programs compiled to WebAssembly.  Its kernel
    ([crates/kernel], Rust) is one WebAssembly instance that serves the system
    calls of all processes, one at a time; the host (TypeScript) gives it files,
    time and sockets and runs the processes.  The kernel is a set of tables: per
    process (descriptors, open file descriptions, address space, signals) and
    machine wide (pipes, locks, descriptors in flight, wakeups).  The system call
    layer ([syscalls.rs]) combines operations of these tables with calls to the
    host.  This development models the tables, each with all its operations,
    and proves that each implements the abstract object POSIX programs rely on.

    ** Files

    - [Prelude]: results and the [?] operator, machine integers (saturating,
      checked, wrapping), vector operations, automation and list lemmas.
    - [Abi]: [Errno] and constants of [crates/shared/src/lib.rs].
    - [Path]: [path.rs].  Lexical pathname normalization.
    - [FdTable]: [fd.rs].  The descriptor table of a process: a vector of slots, a
      reserved set and a limit.
    - [Lock]: [lock.rs].  The advisory lock manager: record, description and
      [flock] locks in one sorted vector of records.
    - [Memory]: [memory.rs], and [sys_brk] and [sys_mremap] of [syscalls.rs].
    - [Signal]: [signal.rs].  Process and thread signal state.
    - [Wakeup]: [wakeup.rs].  Events the host drains to resume blocked calls.
    - [Ofd]: [ofd.rs].  Open file descriptions, their identities, references in
      flight, and reference counts of host handles.
    - [Pipe], [PipeTable]: [pipe.rs].  The pipe buffer with its two ends and the
      FIFO state; the table of pipes and the collector of descriptor messages.
      They use [Ofd] (references in flight) and [Wakeup] (readiness events).
    - [Bytes]: byte order and byte-string helpers the parsers and codecs share.
    - [Mqueue]: [mqueue.rs].  POSIX message queues and their descriptors.
    - [Terminal]: [terminal.rs], [pty.rs].  The line discipline and the
      pseudo-terminal pairs.
    - [Pshared]: [pshared.rs].  Mutexes, conditions and barriers shared by
      processes.
    - [Ipc]: [ipc.rs].  System V message queues, semaphores, shared memory.
    - [Spawn]: [spawn.rs].  The parser of the spawn request.
    - [Names]: [fifo.rs], [unix_socket.rs] and the functions of [syscalls.rs] that
      create, link, rename and unlink FIFOs.
    - [Backing]: [descriptor_backing.rs].  Shared state behind event, timer,
      signal, memory and procfs descriptors.
    - [Socket]: [socket.rs].  Address reservations, accept queues, the socket
      table.
    - [Process]: [process.rs].  One process: job control, threads, signal
      delivery, timers; it combines [FdTable], [Ofd], [Memory], [Signal] and
      [Socket].
    - [Dri]: [dri/].  Graphics buffers, the master claim.
    - [Codec], [Fork], [Exec]: [fork.rs].  The reader and writer, the fork image and
      the exec image of a process.
    - [Kernel]: the machine-wide tables as one record, and the functions of
      [pipe.rs] that take, transfer and release the resource behind a queued
      descriptor.
    - [Accounts]: who holds what: the counters of [Kernel] are the numbers of
      holders, over every way a descriptor can travel in messages.
    - [ProcTable]: [process_table.rs].  Creation, fork, removal, reaping, waiting.
    - [Lifecycle]: what a process holds, and that fork and the end of a process
      add and release exactly that.
    - [Devices]: [mouse.rs], [audio.rs] and the claims on single-owner devices.
    - [Sys]: the state of a system call, the host as a class, the monad of the
      calls; [Descriptors]: the descriptor calls of [syscalls.rs]; [Releases]: what
      each step of a close releases; [Syscalls]: the descriptor calls keep the accounts;
      [Answers]: what they answer;
      [Image]: the exits and exec.
    - [Procfs], [Devfs]: [procfs.rs], [devfs.rs] and the device paths of
      [syscalls.rs].  Paths, metadata, contents, links, listings, opening.
    - [Resolve]: pathname resolution through procfs, devfs, FIFOs and the host, and
      the permission checks; [Paths]: the calls on pathnames, [fstat], the working
      directory.

    ** How the model corresponds to the code

    A struct is a record with the same fields, an enum an inductive type, a
    method a function from the old state to its result and the new state, under
    the method's name.  A [static] cell is an explicit state argument.  [Result]
    is [result], with the [?] operator as [let?].  A panic is [None] where one can
    happen.  [u32], [u64] and [usize] values are integers whose wrap-around,
    saturation or check is written where the code can reach it, as in the release
    profile (no overflow checks, no [debug_assert]); the width of [usize] is a
    parameter (class [Usize], and the pointer width of [Memory]), and so is the
    number of slots a growing table can have before an infallible allocation
    panics (class [Heap]), where an untrusted index makes the table grow ([Fork]).
    Vectors updated by index are lists; ordered maps are
    finite maps, iterated in key order where the order is observable.  Whether an
    allocation ([try_reserve]) succeeds is an argument, and theorems hold for
    either answer.  What a method does outside its own table is returned as a list
    of effects in program order ([Pipe]) and given meaning by [PipeTable.run_effects].

    ** What is proved

    - Refinement: [FdTable] is a partial map with a lowest-free allocator and
      exclusive reservations; [Lock] is a map from file, owner and byte to a lock
      type, whatever splitting and coalescing the records go through; [Signal] is
      one FIFO of notifications per signal; the ring of a [Pipe] is a bounded byte
      queue; references in flight are a multiset; a message queue is one FIFO per
      priority.
    - Invariants over every run: two owners never hold conflicting locks; regions
      of an address space never overlap; endpoint counters equal the references
      outstanding; pipe slots are never shared, and are reclaimed only when closed;
      message queues live as long as a name or descriptor refers to them; a
      descriptor in a message keeps its resource alive, whatever happens to the
      message ([Accounts]); forks and ends of processes keep every shared counter
      equal to the number of holders ([Lifecycle]), and so does any session of
      descriptor calls ([Syscalls]), but for the pipe of a failed [pipe], and exit
      and exec ([Image]).
    - Exactness of single operations on every branch, errors included: [munmap],
      [mmap], [brk] and [mremap] per byte; removal of locks per owner; the message
      collector per queue; [F_SETFL] per bit.
    - Nothing lost: bytes through a pipe, events through the wakeup buffer,
      real-time signals, queued messages, lock waiters, references of dropped messages, the last
      close of a host handle.
    - Answers against specifications that do not use the code: descriptor calls and
      their errors ([Answers]), bytes through a pipe, lines and echo of a terminal,
      the lifetime of a message queue read off the calls made, semaphores, the
      child [waitpid] reports.
    - Pathnames: a resolution goes through searchable directories only, and without
      links means what its spelling says; the calls on pathnames ask the host for
      nothing the caller may not do, and succeed only when it granted it.
    - Round trips and composition: each procfs entry is found at its path, and
      reading a procfs or devfs directory to its end gives each entry once, all of
      them known; the fork and exec images rebuild the process
      they describe; reading any image refuses it, gives a process, or panics
      where the image names a slot there is no memory for ([Fork]); a
      fork adds exactly the child's references and a failed one none; reaping a
      process closes on the host exactly the handles nobody holds any more.
    - Termination: every loop that is not structural has fuel that is proved to be
      enough.  [Lock.coalesce] has one unit per record plus one, because each pass
      that changes the range absorbs a record for good; the doubling of
      [Lock.ensure_capacity] has one unit per record required, as the target grows
      by at least one each time;
      [Memory.find_gap] has one unit per region plus one; [PipeTable.mark_loop]
      has one per slot plus one, since a slot enters the work list once;
      [Signal] is drained in as many steps as there are queued notifications;
      [ProcTable.drain_deferred] has one unit per queued descriptor and deferred
      record plus one, since a round releases one and only moves others
      ([Lifecycle.drain_total]); [Exec.grow] doubles at most six times between its
      two limits; [ProcTable.next_free_pid] has one unit per process plus one.

    Some behaviours depart from POSIX or from a comment of the source; they are
    stated as closed examples at the end of the files.

    ** What is not modelled

    Of [syscalls.rs]: [open], the input and output calls, [poll] and [select], the
    socket, signal, timer and graphics calls, and the getters and setters of the
    process record.  The tables they work on are modelled ([Pipe], [Terminal],
    [Socket], [Signal], [Backing], [Dri]), the handlers are not.  Of
    [process_table.rs], [spawn_child], whose file actions run
    [open], and the legacy replacement for exec.  Left out altogether: the export
    surface ([wasm_api.rs]), which marshals bytes; the fork instrumentation, which
    rewrites third-party module representations; the build tools; the TypeScript
    host and the C glue. *)

From Stdlib Require Export List ZArith Lia.
From Stdlib Require Export Sorting.Sorted.
From stdpp Require Export base gmap sets numbers list.

Global Open Scope Z_scope.

(** ** Notations, results and automation *)

Declare Scope kandelo_scope.
Delimit Scope kandelo_scope with kandelo.
Global Open Scope kandelo_scope.

(** Byte strings ([Vec<u8>], [&[u8]]) are lists of integers in [0, 256). *)
Abbreviation bytes := (list Z).

(** Rust's [Result<A, E>]. *)
Inductive result (A E : Type) : Type :=
| Ok (a : A)
| Err (e : E).
Arguments Ok {A E} a.
Arguments Err {A E} e.

(** The [?] operator: return early on [Err]. *)
Notation "'let?' x ':=' c 'in' k" :=
  (match c with Ok x => k | Err e => Err e end)
  (at level 10, x pattern, c at level 100, k at level 200,
   format "'[v' 'let?'  x  ':='  c  'in' '/' k ']'") : kandelo_scope.

Definition is_ok {A E} (r : result A E) : bool :=
  match r with Ok _ => true | Err _ => false end.

(** [opt.ok_or(e)]. *)
Definition ok_or {A E} (o : option A) (e : E) : result A E :=
  match o with Some a => Ok a | None => Err e end.

(** Hint database of the development. *)
Create HintDb kandelo discriminated.

(** Case analysis on every [if] on a boolean and every boolean connective in
    sight, closing the branches that arithmetic refutes. *)
Ltac case_bool_step :=
  match goal with
  | H : context [ if ?b then _ else _ ] |- _ =>
      lazymatch type of b with bool => destruct b eqn:? end
  | |- context [ if ?b then _ else _ ] =>
      lazymatch type of b with bool => destruct b eqn:? end
  end.

Ltac bool_hyps :=
  repeat match goal with
  | H : _ && _ = true |- _ => apply andb_true_iff in H as [? ?]
  | H : _ || _ = false |- _ => apply orb_false_iff in H as [? ?]
  | H : negb _ = true |- _ => apply negb_true_iff in H
  | H : negb _ = false |- _ => apply negb_false_iff in H
  | H : bool_decide _ = true |- _ => apply bool_decide_eq_true in H
  | H : bool_decide _ = false |- _ => apply bool_decide_eq_false in H
  end.

Ltac cases_if := repeat (case_bool_step; bool_hyps; simplify_eq/=; try lia).

(** Case analysis on one integer comparison of the goal, as an inequality. *)
Ltac case_cmp :=
  match goal with
  | |- context [ Nat.leb ?a ?b ] => destruct (Nat.leb_spec a b)
  | |- context [ Nat.ltb ?a ?b ] => destruct (Nat.ltb_spec a b)
  | |- context [ Nat.eqb ?a ?b ] => destruct (Nat.eqb_spec a b)
  | |- context [ Z.leb ?a ?b ] => destruct (Z.leb_spec a b)
  | |- context [ Z.ltb ?a ?b ] => destruct (Z.ltb_spec a b)
  | |- context [ Z.eqb ?a ?b ] => destruct (Z.eqb_spec a b)
  end.

(** ** Machine integers

    Integers are [Z] with the Rust operations written out: [checked_add] is
    [None] on overflow, [saturating_add] clamps, plain [+] in the release
    profile wraps. *)

Definition u32_max : Z := 2 ^ 32 - 1.
Definition u64_max : Z := 2 ^ 64 - 1.
Definition i64_max : Z := 2 ^ 63 - 1.
Definition i64_min : Z := - 2 ^ 63.

(** [x as i32] for a non-negative or negative [x]: two's complement wrap. *)
Definition as_i32 (x : Z) : Z := (x + 2 ^ 31) mod 2 ^ 32 - 2 ^ 31.
Definition as_i64 (x : Z) : Z := (x + 2 ^ 63) mod 2 ^ 64 - 2 ^ 63.

(** [x as u32]. *)
Definition as_u32 (x : Z) : Z := x mod 2 ^ 32.

Lemma as_i32_u32 v : - 2 ^ 31 <= v < 2 ^ 31 -> as_i32 (as_u32 v) = v.
Proof.
  intros Hv. unfold as_i32, as_u32. rewrite Zplus_mod_idemp_l. rewrite Z.mod_small; lia.
Qed.

Definition i64_checked_add (a b : Z) : option Z :=
  if (i64_min <=? a + b) && (a + b <=? i64_max) then Some (a + b) else None.

(** [+=] and [-=] on [u32] in the release profile. *)
Definition u32_wrap (x : Z) : Z := x mod 2 ^ 32.

Definition u32_saturating_add (a b : Z) : Z := Z.min (a + b) u32_max.
Definition u32_saturating_sub (a b : Z) : Z := Z.max (a - b) 0.

(** [usize] is 32 bits wide in the wasm32 kernel and 64 bits wide in a wasm64
    build; the components that compute with addresses are generic in it. *)
Class Usize := {
  usize_bits : Z;
  usize_bits_range : 32 <= usize_bits <= 64;
}.

#[export] Instance wasm32_usize : Usize.
Proof. refine {| usize_bits := 32 |}. lia. Defined.

(** How many slots a growing table can have before the allocator refuses and the
    kernel panics.  The tables the kernel bounds itself fit. *)
Class Heap := {
  table_slots : Z;
  table_slots_ok : 65536 <= table_slots;
}.

#[export] Instance kernel_heap : Heap.
Proof. refine {| table_slots := 2 ^ 20 |}. lia. Defined.

Section usize.
Context `{Usize}.

Definition usize_max : Z := 2 ^ usize_bits - 1.

Definition usize_checked_add (a b : Z) : option Z :=
  if a + b <=? usize_max then Some (a + b) else None.

Definition usize_saturating_add (a b : Z) : Z := Z.min (a + b) usize_max.

Definition usize_wrapping_add (a b : Z) : Z := (a + b) mod 2 ^ usize_bits.

Lemma usize_max_ge : u32_max <= usize_max.
Proof.
  pose proof usize_bits_range. unfold u32_max, usize_max.
  pose proof (Z.pow_le_mono_r 2 32 usize_bits). lia.
Qed.

End usize.

Lemma as_i32_id x : - 2 ^ 31 <= x < 2 ^ 31 -> as_i32 x = x.
Proof. intros. unfold as_i32. rewrite Z.mod_small; lia. Qed.

Lemma as_i32_nat_id (i : nat) : Z.of_nat i < 2 ^ 31 -> as_i32 (Z.of_nat i) = Z.of_nat i.
Proof. intros. apply as_i32_id. lia. Qed.

(** ** Vectors

    [Vec<T>] and slices are lists; [partition_point] and the insertion index of
    [binary_search_by] are the position of the first element that fails the
    predicate, which is what the binary searches return on a slice that is
    partitioned by it. *)

Fixpoint partition_point {A} (p : A -> bool) (l : list A) : nat :=
  match l with
  | [] => 0
  | x :: l' => if p x then S (partition_point p l') else 0
  end.

(** [v.insert(i, x)]. *)
Definition vec_insert {A} (i : nat) (x : A) (l : list A) : list A :=
  take i l ++ x :: drop i l.

(** [v.remove(i)] / [v.drain(i..i+1)]. *)
Definition vec_remove {A} (i : nat) (l : list A) : list A :=
  take i l ++ drop (S i) l.

(** [v.push(x)]. *)
Definition vec_push {A} (l : list A) (x : A) : list A := l ++ [x].

(** [iter.find(p)]. *)
Definition find_first {A} (p : A -> bool) (l : list A) : option A := List.find p l.

(** [iter.position(p)]. *)
Fixpoint position {A} (p : A -> bool) (l : list A) : option nat :=
  match l with
  | [] => None
  | x :: l' => if p x then Some 0%nat else S <$> position p l'
  end.

(** *** Lemmas on vectors *)

Lemma vec_insert_perm {A} i (x : A) l : vec_insert i x l ≡ₚ x :: l.
Proof.
  unfold vec_insert. rewrite <- Permutation_middle.
  by rewrite take_drop.
Qed.

Lemma vec_insert_length {A} i (x : A) l : length (vec_insert i x l) = S (length l).
Proof. by rewrite vec_insert_perm. Qed.

Lemma elem_of_vec_insert {A} i (x y : A) l : y ∈ vec_insert i x l <-> y = x \/ y ∈ l.
Proof. rewrite vec_insert_perm. apply elem_of_cons. Qed.

Lemma partition_point_le {A} (p : A -> bool) l : (partition_point p l <= length l)%nat.
Proof. induction l as [|x l IH]; simpl; [lia|]. destruct (p x); lia. Qed.

Lemma partition_point_take {A} (p : A -> bool) l :
  Forall (fun x => p x = true) (take (partition_point p l) l).
Proof.
  induction l as [|x l IH]; simpl; [done|]. destruct (p x) eqn:E; simpl; [|done].
  by constructor.
Qed.

(** On a sorted vector and a predicate closed towards the front, the elements
    at and after the partition point all fail the predicate. *)
Lemma partition_point_drop {A} (R : A -> A -> Prop) (p : A -> bool) l :
  StronglySorted R l ->
  (forall x y, x ∈ l -> y ∈ l -> R x y -> p y = true -> p x = true) ->
  Forall (fun x => p x = false) (drop (partition_point p l) l).
Proof.
  induction 1 as [|x l Hl IH Hx]; intros Hp; simpl; [done|].
  destruct (p x) eqn:E; simpl.
  - apply IH. intros y z Hy Hz. apply Hp; by constructor.
  - constructor; [done|]. rewrite Forall_forall in *. intros y Hy.
    destruct (p y) eqn:Ey; [|done]. rewrite <- E. symmetry.
    apply (Hp x y); [by constructor|by constructor|by apply Hx|done].
Qed.

Lemma partition_insert_sorted {A} (R : A -> A -> Prop) `{!Transitive R} (p : A -> bool) x l :
  StronglySorted R l ->
  (forall y, y ∈ l -> p y = true -> R y x) -> (forall y, y ∈ l -> p y = false -> R x y) ->
  StronglySorted R (vec_insert (partition_point p l) x l).
Proof.
  induction 1 as [|y l Hl IH Hy]; intros Ht Hf; simpl.
  - by repeat constructor.
  - destruct (p y) eqn:E.
    + change (StronglySorted R (y :: vec_insert (partition_point p l) x l)).
      constructor; [apply IH; intros z Hz; [apply Ht|apply Hf]; by constructor|].
      rewrite Forall_forall in *. intros z Hz%elem_of_vec_insert.
      destruct Hz as [->|Hz]; [apply Ht; [by constructor|done]|by apply Hy].
    + assert (R x y) as Hxy by (apply Hf; [by constructor|done]).
      constructor; [by constructor|]. constructor; [done|].
      rewrite Forall_forall in *. intros z Hz. transitivity y; [done|by apply Hy].
Qed.

Lemma sorted_filter {A} (R : A -> A -> Prop) (p : A -> bool) l :
  StronglySorted R l -> StronglySorted R (List.filter p l).
Proof.
  induction 1 as [|x l Hl IH Hx]; simpl; [constructor|].
  destruct (p x); [|done]. constructor; [done|].
  rewrite Forall_forall in *. intros y Hy. apply Hx.
  apply list_elem_of_In. apply list_elem_of_In, filter_In in Hy. tauto.
Qed.

Lemma sorted_app {A} (R : A -> A -> Prop) l1 l2 :
  StronglySorted R (l1 ++ l2) -> StronglySorted R l1 /\ StronglySorted R l2.
Proof.
  induction l1 as [|x l1 IH]; simpl; intros H; [split; [constructor|done]|].
  inversion H as [|? ? Hl Hx]; subst. apply IH in Hl as [H1 H2].
  apply Forall_app in Hx as [Hx _]. split; [by constructor|done].
Qed.

Lemma elem_of_filter_bool {A} (p : A -> bool) l x :
  x ∈ List.filter p l <-> x ∈ l /\ p x = true.
Proof. rewrite !list_elem_of_In. apply filter_In. Qed.

Lemma filter_all {A} (p : A -> bool) l : Forall (fun x => p x = true) l -> List.filter p l = l.
Proof. induction 1 as [|x l Hx Hl IH]; simpl; [done|]. by rewrite Hx, IH. Qed.

Lemma filter_none {A} (p : A -> bool) l : Forall (fun x => p x = false) l -> List.filter p l = [].
Proof. induction 1 as [|x l Hx Hl IH]; simpl; [done|]. by rewrite Hx. Qed.

Lemma filter_and {A} (p q : A -> bool) l :
  List.filter p (List.filter q l) = List.filter (fun x => q x && p x) l.
Proof. induction l as [|x l IH]; simpl; [done|]. destruct (q x); simpl; by rewrite IH. Qed.

Lemma filter_ext_elem {A} (p q : A -> bool) l :
  (forall x, x ∈ l -> p x = q x) -> List.filter p l = List.filter q l.
Proof.
  induction l as [|x l IH]; simpl; intros H; [done|].
  rewrite (H x) by constructor. by rewrite IH by (intros; apply H; by constructor).
Qed.

Lemma filter_length_le {A} (p : A -> bool) l : (length (List.filter p l) <= length l)%nat.
Proof. induction l as [|x l IH]; simpl; [lia|]. destruct (p x); simpl; lia. Qed.

Lemma filter_length_split {A} (p : A -> bool) l :
  (length (List.filter p l) + length (List.filter (fun x => negb (p x)) l))%nat = length l.
Proof. induction l as [|x l IH]; simpl; [done|]. destruct (p x); simpl; lia. Qed.

Lemma existsb_elem {A} (p : A -> bool) l : existsb p l = true <-> exists x, x ∈ l /\ p x = true.
Proof. rewrite existsb_exists. by setoid_rewrite list_elem_of_In. Qed.

Lemma find_first_None {A} (p : A -> bool) l :
  find_first p l = None <-> forall x, x ∈ l -> p x = false.
Proof.
  split.
  - intros H x Hx. eapply List.find_none; [done|by apply list_elem_of_In].
  - intros H. destruct (find_first p l) eqn:E; [|done].
    apply find_some in E as [Hin Hp]. rewrite H in Hp; [done|by apply list_elem_of_In].
Qed.

Lemma find_first_Some {A} (p : A -> bool) l x :
  find_first p l = Some x -> x ∈ l /\ p x = true.
Proof. intros [H ?]%find_some. by rewrite list_elem_of_In. Qed.

Lemma filter_length_mono {A} (p q : A -> bool) l :
  (forall x, x ∈ l -> q x = true -> p x = true) ->
  (length (List.filter q l) <= length (List.filter p l))%nat.
Proof.
  induction l as [|x l IH]; simpl; intros H; [lia|].
  assert (forall y, y ∈ l -> q y = true -> p y = true) as Hl by (intros; apply H; [by constructor|done]).
  specialize (IH Hl). destruct (q x) eqn:E.
  - rewrite (H x) by (try done; constructor). simpl. lia.
  - destruct (p x); simpl; lia.
Qed.

Lemma filter_length_lt {A} (p q : A -> bool) l x :
  (forall x, x ∈ l -> q x = true -> p x = true) ->
  x ∈ l -> p x = true -> q x = false ->
  (length (List.filter q l) < length (List.filter p l))%nat.
Proof.
  intros H Hx Hp Hq. apply list_elem_of_split in Hx as (l1 & l2 & ->).
  rewrite !List.filter_app, !length_app. simpl. rewrite Hp, Hq. simpl.
  pose proof (filter_length_mono p q l1). pose proof (filter_length_mono p q l2).
  assert (length (List.filter q l1) <= length (List.filter p l1))%nat by (apply H0; set_solver).
  assert (length (List.filter q l2) <= length (List.filter p l2))%nat by (apply H1; set_solver).
  lia.
Qed.

Lemma position_spec {A} (p : A -> bool) l :
  match position p l with
  | Some i => exists l1 e l2, l = l1 ++ e :: l2 /\ p e = true /\ Forall (fun x => p x = false) l1 /\
      i = length l1
  | None => Forall (fun x => p x = false) l
  end.
Proof.
  induction l as [|x l IH]; simpl; [done|]. destruct (p x) eqn:E; simpl.
  - by exists [], x, l.
  - destruct (position p l); simpl; [|by constructor].
    destruct IH as (l1 & e & l2 & -> & ? & ? & ->). exists (x :: l1), e, l2. split_and!; try done. by constructor.
Qed.

Lemma vec_remove_app {A} (l1 : list A) e l2 : vec_remove (length l1) (l1 ++ e :: l2) = l1 ++ l2.
Proof.
  unfold vec_remove. rewrite take_app_length. f_equal.
  replace (S (length l1)) with (length (l1 ++ [e])) by (rewrite length_app; simpl; lia).
  change (e :: l2) with ([e] ++ l2). by rewrite app_assoc, drop_app_length.
Qed.
