(* ===== verification/Bytes.v ===== *)
(** * Bytes and slices

    Little-endian words as byte strings, sub-slices with their bounds checks (a
    slice or a copy out of range is a panic, [None]), and the lemmas the binary
    formats of the kernel share. *)

From S2P Require Import Prelude.

(** A byte. *)
Definition is_byte (b : Z) : Prop := 0 <= b < 256.

Definition is_u32 (v : Z) : Prop := 0 <= v <= u32_max.

(** [u32::to_le_bytes]. *)
Definition to_le_bytes (v : Z) : bytes :=
  [v mod 256; (v / 2 ^ 8) mod 256; (v / 2 ^ 16) mod 256; (v / 2 ^ 24) mod 256].

(** [u32::from_le_bytes]. *)
Definition from_le_bytes (b : bytes) : Z :=
  match b with
  | [b0; b1; b2; b3] => b0 + b1 * 2 ^ 8 + b2 * 2 ^ 16 + b3 * 2 ^ 24
  | _ => 0
  end.

(** [dst[off..off+src.len()].copy_from_slice(src)]. *)
Definition splice (off : nat) (src dst : bytes) : bytes :=
  take off dst ++ src ++ drop (off + length src) dst.

(** [&buf[lo..hi]]. *)
Definition slice (lo hi : nat) (buf : bytes) : option bytes :=
  if ((lo <=? hi) && (hi <=? length buf))%nat then Some (take (hi - lo) (drop lo buf)) else None.

(** [buf[lo..hi].copy_from_slice(src)]: panics when the range is out of bounds or
    the lengths differ. *)
Definition copy_slice (lo hi : nat) (src buf : bytes) : option bytes :=
  if ((lo <=? hi) && (hi <=? length buf) && (length src =? hi - lo))%nat then Some (splice lo src buf) else None.

(** ** Lemmas *)

Lemma le_bytes_roundtrip v :
  0 <= v <= u32_max ->
  v mod 256 + (v / 2 ^ 8) mod 256 * 2 ^ 8 + (v / 2 ^ 16) mod 256 * 2 ^ 16
    + (v / 2 ^ 24) mod 256 * 2 ^ 24 = v.
Proof.
  unfold u32_max. intros Hv. change (2 ^ 8) with 256. change (2 ^ 16) with (256 * 256).
  change (2 ^ 24) with (256 * 256 * 256). change (2 ^ 32 - 1) with 4294967295 in Hv.
  rewrite <- !Z.div_div by lia.
  pose proof (Z.div_mod v 256). pose proof (Z.div_mod (v / 256) 256).
  pose proof (Z.div_mod (v / 256 / 256) 256).
  assert (v / 256 / 256 / 256 < 256) by (repeat apply Z.div_lt_upper_bound; lia).
  assert (0 <= v / 256 / 256 / 256) by (repeat apply Z.div_pos; lia).
  rewrite (Z.mod_small (v / 256 / 256 / 256)) by lia. lia.
Qed.

Lemma length_splice off src dst :
  (off + length src <= length dst)%nat -> length (splice off src dst) = length dst.
Proof. intros. unfold splice. rewrite !length_app, length_take, length_drop. lia. Qed.

Lemma splice_lookup off src dst j :
  (off + length src <= length dst)%nat ->
  splice off src dst !! j =
  if ((off <=? j) && (j <? off + length src))%nat then src !! (j - off)%nat else dst !! j.
Proof.
  intros Hl. unfold splice. assert (length (take off dst) = off) as Ht by (rewrite length_take; lia).
  destruct (Nat.leb_spec off j); simpl; [|rewrite lookup_app_l, lookup_take_lt by lia; done].
  rewrite lookup_app_r, Ht by lia. destruct (Nat.ltb_spec j (off + length src)).
  - by rewrite lookup_app_l by lia.
  - rewrite lookup_app_r, lookup_drop by lia. f_equal. lia.
Qed.

Lemma length_to_le v : length (to_le_bytes v) = 4%nat.
Proof. done. Qed.

Lemma from_to_le v : is_u32 v -> from_le_bytes (to_le_bytes v) = v.
Proof. intros Hv. simpl. by apply le_bytes_roundtrip. Qed.

Lemma to_le_is_byte v : Forall is_byte (to_le_bytes v).
Proof. unfold to_le_bytes, is_byte. repeat constructor; apply Z.mod_pos_bound; lia. Qed.

Lemma from_le_is_u32 b : Forall is_byte b -> is_u32 (from_le_bytes b).
Proof.
  unfold is_u32, u32_max. intros H. destruct b as [|b0 [|b1 [|b2 [|b3 [|]]]]]; simpl; try lia.
  repeat match goal with H : Forall _ (_ :: _) |- _ => apply Forall_cons in H as [? H] end. unfold is_byte in *. lia.
Qed.

Lemma to_from_le b : length b = 4%nat -> Forall is_byte b -> to_le_bytes (from_le_bytes b) = b.
Proof.
  intros Hl H. destruct b as [|b0 [|b1 [|b2 [|b3 [|]]]]]; try done. clear Hl.
  repeat match goal with H : Forall _ (_ :: _) |- _ => apply Forall_cons in H as [? H] end. unfold is_byte in *.
  unfold to_le_bytes, from_le_bytes. change (2 ^ 8) with 256. change (2 ^ 16) with (256 * 256).
  change (2 ^ 24) with (256 * 256 * 256).
  set (v := b0 + b1 * 256 + b2 * (256 * 256) + b3 * (256 * 256 * 256)).
  assert (v = b0 + 256 * (b1 + 256 * (b2 + 256 * b3))) as -> by (subst v; ring).
  rewrite <- !Z.div_div by lia. rewrite (Z.add_comm b0), (Z.mul_comm 256).
  rewrite Z.div_add_l, (Z.div_small b0), Z.add_0_r by lia.
  rewrite Z.add_comm, Z.mod_add, (Z.mod_small b0) by lia.
  rewrite (Z.add_comm b1), (Z.mul_comm 256). rewrite Z.div_add_l, (Z.div_small b1), Z.add_0_r by lia.
  rewrite Z.add_comm, Z.mod_add, (Z.mod_small b1) by lia.
  rewrite (Z.add_comm b2), (Z.mul_comm 256). rewrite Z.div_add_l, (Z.div_small b2), Z.add_0_r by lia.
  rewrite Z.add_comm, Z.mod_add, (Z.mod_small b2), (Z.mod_small b3) by lia. done.
Qed.

Lemma slice_app pre mid post :
  slice (length pre) (length pre + length mid) (pre ++ mid ++ post) = Some mid.
Proof.
  unfold slice. rewrite !length_app. rewrite (proj2 (Nat.leb_le _ _)), (proj2 (Nat.leb_le _ _)) by lia. simpl.
  rewrite drop_app_length. f_equal. replace (_ + _ - _)%nat with (length mid) by lia. by rewrite take_app_length.
Qed.

Lemma copy_slice_app pre old post src :
  length src = length old ->
  copy_slice (length pre) (length pre + length old) src (pre ++ old ++ post) = Some (pre ++ src ++ post).
Proof.
  intros Hl. unfold copy_slice, splice. rewrite !length_app, Hl.
  rewrite (proj2 (Nat.leb_le _ _)), (proj2 (Nat.leb_le _ _)), (proj2 (Nat.eqb_eq _ _)) by lia. simpl.
  rewrite take_app_length. do 3 f_equal.
  replace (length pre + length old)%nat with (length (pre ++ old)) by apply length_app.
  by rewrite app_assoc, drop_app_length.
Qed.
