(* ===== verification/Abi.v ===== *)
(** * Shared ABI: error numbers and the flag and signal constants of
    [crates/shared/src/lib.rs] that the kernel components use. *)

From S2P Require Import Prelude.

(** ** Errno *)

Inductive Errno :=
| EPERM | ENOENT | ESRCH | EINTR | EIO | ENXIO
| E2BIG | EBADF | ECHILD | EAGAIN | ENOMEM | EACCES
| EFAULT | EBUSY | EEXIST | EXDEV | ENODEV | ENOTDIR
| EISDIR | EINVAL | ENFILE | EMFILE | ENOTTY | EFBIG
| ENOSPC | ESPIPE | EROFS | EMLINK | EPIPE | ERANGE
| EDEADLK | ENAMETOOLONG | ENOLCK | ENOSYS | ENOTEMPTY | ELOOP
| ENOMSG | EIDRM | ENODATA | EOVERFLOW | ENOTSOCK | EDESTADDRREQ
| EMSGSIZE | EPROTOTYPE | ENOPROTOOPT | EPROTONOSUPPORT | EOPNOTSUPP | EAFNOSUPPORT
| EADDRINUSE | EADDRNOTAVAIL | ENETUNREACH | ECONNABORTED | ECONNRESET | ECONNREFUSED
| EISCONN | ENOTCONN | ESHUTDOWN | ETIMEDOUT | EALREADY | EINPROGRESS.

#[export] Instance Errno_eq_dec : EqDecision Errno.
Proof. solve_decision. Defined.

(** The discriminants of the [#[repr(u32)]] enumeration. *)
Definition errno_code (e : Errno) : Z :=
  match e with
  | EPERM => 1 | ENOENT => 2 | ESRCH => 3 | EINTR => 4
  | EIO => 5 | ENXIO => 6 | E2BIG => 7 | EBADF => 9
  | ECHILD => 10 | EAGAIN => 11 | ENOMEM => 12 | EACCES => 13
  | EFAULT => 14 | EBUSY => 16 | EEXIST => 17 | EXDEV => 18
  | ENODEV => 19 | ENOTDIR => 20 | EISDIR => 21 | EINVAL => 22
  | ENFILE => 23 | EMFILE => 24 | ENOTTY => 25 | EFBIG => 27
  | ENOSPC => 28 | ESPIPE => 29 | EROFS => 30 | EMLINK => 31
  | EPIPE => 32 | ERANGE => 34 | EDEADLK => 35 | ENAMETOOLONG => 36
  | ENOLCK => 37 | ENOSYS => 38 | ENOTEMPTY => 39 | ELOOP => 40
  | ENOMSG => 42 | EIDRM => 43 | ENODATA => 61 | EOVERFLOW => 75
  | ENOTSOCK => 88 | EDESTADDRREQ => 89 | EMSGSIZE => 90 | EPROTOTYPE => 91
  | ENOPROTOOPT => 92 | EPROTONOSUPPORT => 93 | EOPNOTSUPP => 95 | EAFNOSUPPORT => 97
  | EADDRINUSE => 98 | EADDRNOTAVAIL => 99 | ENETUNREACH => 101 | ECONNABORTED => 103
  | ECONNRESET => 104 | ECONNREFUSED => 111 | EISCONN => 106 | ENOTCONN => 107
  | ESHUTDOWN => 108 | ETIMEDOUT => 110 | EALREADY => 114 | EINPROGRESS => 115
  end.

Definition from_u32 (val : Z) : option Errno :=
  match val with
  | 1 => Some EPERM | 2 => Some ENOENT | 3 => Some ESRCH
  | 4 => Some EINTR | 5 => Some EIO | 6 => Some ENXIO
  | 7 => Some E2BIG | 9 => Some EBADF | 10 => Some ECHILD
  | 11 => Some EAGAIN | 12 => Some ENOMEM | 13 => Some EACCES
  | 14 => Some EFAULT | 16 => Some EBUSY | 17 => Some EEXIST
  | 18 => Some EXDEV | 19 => Some ENODEV | 20 => Some ENOTDIR
  | 21 => Some EISDIR | 22 => Some EINVAL | 23 => Some ENFILE
  | 24 => Some EMFILE | 25 => Some ENOTTY | 27 => Some EFBIG
  | 28 => Some ENOSPC | 29 => Some ESPIPE | 30 => Some EROFS
  | 31 => Some EMLINK | 32 => Some EPIPE | 34 => Some ERANGE
  | 35 => Some EDEADLK | 36 => Some ENAMETOOLONG | 37 => Some ENOLCK
  | 38 => Some ENOSYS | 39 => Some ENOTEMPTY | 40 => Some ELOOP
  | 42 => Some ENOMSG | 43 => Some EIDRM | 61 => Some ENODATA
  | 75 => Some EOVERFLOW | 88 => Some ENOTSOCK | 89 => Some EDESTADDRREQ
  | 90 => Some EMSGSIZE | 91 => Some EPROTOTYPE | 92 => Some ENOPROTOOPT
  | 93 => Some EPROTONOSUPPORT | 95 => Some EOPNOTSUPP | 97 => Some EAFNOSUPPORT
  | 98 => Some EADDRINUSE | 99 => Some EADDRNOTAVAIL | 101 => Some ENETUNREACH
  | 103 => Some ECONNABORTED | 104 => Some ECONNRESET | 106 => Some EISCONN
  | 111 => Some ECONNREFUSED | 107 => Some ENOTCONN | 108 => Some ESHUTDOWN
  | 110 => Some ETIMEDOUT | 114 => Some EALREADY | 115 => Some EINPROGRESS
  | _ => None
  end.

(** Results of kernel operations carry an [Errno] on failure. *)
Abbreviation kresult A := (result A Errno).

(** ** Open flags ([flags]) *)

Definition O_RDONLY : Z := 0.
Definition O_WRONLY : Z := 1.
Definition O_RDWR : Z := 2.
Definition O_ACCMODE : Z := 3.
Definition O_APPEND : Z := 0x400.     (* 0o2000 *)
Definition O_NONBLOCK : Z := 0x800.   (* 0o4000 *)
Definition O_PATH : Z := 0x200000.    (* 0o10000000 *)

(** ** Memory mapping flags ([mmap]) *)

Definition MAP_FIXED : Z := 0x10.
Definition MAP_FAILED `{Usize} : Z := usize_max.

(** ** Signals ([signal]) *)

Definition SIGHUP : Z := 1.
Definition SIGINT : Z := 2.
Definition SIGQUIT : Z := 3.
Definition SIGILL : Z := 4.
Definition SIGTRAP : Z := 5.
Definition SIGABRT : Z := 6.
Definition SIGBUS : Z := 7.
Definition SIGFPE : Z := 8.
Definition SIGKILL : Z := 9.
Definition SIGUSR1 : Z := 10.
Definition SIGUSR2 : Z := 12.
Definition SIGPIPE : Z := 13.
Definition SIGALRM : Z := 14.
Definition SIGTERM : Z := 15.
Definition SIGCHLD : Z := 17.
Definition SIGCONT : Z := 18.
Definition SIGSTOP : Z := 19.
Definition SIGTSTP : Z := 20.
Definition SIGTTIN : Z := 21.
Definition SIGTTOU : Z := 22.
Definition SIGXCPU : Z := 24.
Definition SIGXFSZ : Z := 25.
Definition SIGWINCH : Z := 28.
Definition NSIG : Z := 65.
Definition SA_RESTART : Z := 0x10000000.

(** ** Properties *)

(** Decoding an error number inverts its encoding, and every decoded number is
    the code of the error it decodes to, so the two tables agree. *)
Lemma errno_from_u32_code e : from_u32 (errno_code e) = Some e.
Proof. by destruct e. Qed.

Lemma errno_code_from_u32 v e : from_u32 v = Some e -> errno_code e = v.
Proof.
  unfold from_u32. intros Hv.
  repeat (case_match; simplify_eq/=; try done).
Qed.
