(* ===== verification/Path.v ===== *)
(** * Lexical pathname handling ([crates/kernel/src/path.rs]).

    [make_absolute], [resolve_path] and [normalize_path] on byte strings, with
    the lexical specification [lexical] (the stack of names a path denotes) and
    the canonical printer [render] it is compared with. *)

From S2P Require Import Prelude.

(** ** Definitions *)

Definition SLASH : Z := 47.
Definition DOT : Z := 46.

(** [path.split(|&b| b == b'/')]: always at least one piece. *)
Fixpoint split_slash (path : bytes) : list bytes :=
  match path with
  | [] => [[]]
  | b :: path' =>
      if b =? SLASH then [] :: split_slash path'
      else match split_slash path' with
           | [] => [[b]]
           | c :: cs => (b :: c) :: cs
           end
  end.

Definition ends_with_slash (path : bytes) : bool :=
  bool_decide (last path = Some SLASH).

Definition starts_with_slash (path : bytes) : bool :=
  bool_decide (head path = Some SLASH).

(** The prefix [cwd] with exactly one separator appended when it lacks one. *)
Definition cwd_prefix (cwd : bytes) : bytes :=
  if ends_with_slash cwd then cwd else cwd ++ [SLASH].

Definition make_absolute (path cwd : bytes) : bytes :=
  match path with
  | [] => []
  | b :: _ => if b =? SLASH then path else cwd_prefix cwd ++ path
  end.

(** One iteration of the component loop of [normalize_path]. *)
Definition normalize_step (components : list bytes) (component : bytes) : list bytes :=
  if bool_decide (component = []) || bool_decide (component = [DOT]) then components
  else if bool_decide (component = [DOT; DOT]) then removelast components
  else vec_push components component.

Definition normalize_components (path : bytes) : list bytes :=
  foldl normalize_step [] (split_slash path).

Definition push_component (acc component : bytes) : bytes := acc ++ SLASH :: component.

Definition normalize_path (path : bytes) : bytes :=
  match normalize_components path with
  | [] => [SLASH]
  | components => foldl push_component [] components
  end.

Definition resolve_path (path cwd : bytes) : bytes :=
  if starts_with_slash path then normalize_path path
  else normalize_path (cwd_prefix cwd ++ path).

(** ** Specification *)

(** A directory-entry name that survives normalization. *)
Definition proper_name (c : bytes) : Prop :=
  c <> [] /\ c <> [DOT] /\ c <> [DOT; DOT] /\ SLASH ∉ c.

(** The canonical spelling of a component stack. *)
Definition render (components : list bytes) : bytes :=
  match components with
  | [] => [SLASH]
  | _ => concat (map (cons SLASH) components)
  end.

(** A path spells out the pieces between its separators. *)
Definition spell (pieces : list bytes) : bytes := tail (concat (map (cons SLASH) pieces)).

Definition spells (p : bytes) (pieces : list bytes) : Prop :=
  pieces <> [] /\ Forall (fun c => SLASH ∉ c) pieces /\ p = spell pieces.

(** What POSIX lets one cancel in the pieces of an absolute path: an empty piece
    or [.] anywhere, a name with the [..] that follows it, and a [..] at the
    root. *)
Inductive simplifies : list bytes -> list bytes -> Prop :=
| SimplEmpty l r : simplifies (l ++ [] :: r) (l ++ r)
| SimplDot l r : simplifies (l ++ [DOT] :: r) (l ++ r)
| SimplParent l name r : proper_name name -> simplifies (l ++ name :: [DOT; DOT] :: r) (l ++ r)
| SimplRoot r : simplifies ([DOT; DOT] :: r) r.

Definition canonical (p : bytes) : Prop :=
  exists cs, Forall proper_name cs /\ p = render cs.

(** ** Lemmas *)

Lemma split_slash_not_nil p : split_slash p <> [].
Proof. destruct p as [|b p]; simpl; [done|]. by repeat case_match. Qed.

Lemma split_slash_app_slash p q :
  split_slash (p ++ SLASH :: q) = split_slash p ++ split_slash q.
Proof.
  induction p as [|b p IH]; simpl; [done|].
  destruct (b =? SLASH); rewrite IH; [done|].
  pose proof (split_slash_not_nil p). by destruct (split_slash p).
Qed.

Lemma split_slash_no_slash c : SLASH ∉ c -> split_slash c = [c].
Proof.
  induction c as [|b c IH]; simpl; [done|].
  intros Hc. apply not_elem_of_cons in Hc as [Hb Hc].
  rewrite IH by done. by destruct (Z.eqb_spec b SLASH).
Qed.

Lemma split_slash_pieces p : Forall (fun c => SLASH ∉ c) (split_slash p).
Proof.
  induction p as [|b p IH]; simpl.
  - repeat constructor. set_solver.
  - destruct (Z.eqb_spec b SLASH).
    + constructor; [set_solver|done].
    + destruct (split_slash p); [constructor; [set_solver|done]|].
      apply Forall_cons in IH as [? ?]. constructor; [set_solver|done].
Qed.

Lemma push_components_concat acc cs :
  foldl push_component acc cs = acc ++ concat (map (cons SLASH) cs).
Proof.
  revert acc; induction cs as [|c cs IH]; intros acc; simpl.
  - by rewrite app_nil_r.
  - rewrite IH. unfold push_component. by rewrite <- !(assoc_L (++)).
Qed.

Lemma normalize_path_render p : normalize_path p = render (normalize_components p).
Proof.
  unfold normalize_path, render. destruct (normalize_components p); [done|].
  by rewrite push_components_concat.
Qed.

Lemma normalize_step_proper cs c :
  Forall proper_name cs -> SLASH ∉ c -> Forall proper_name (normalize_step cs c).
Proof.
  intros Hcs Hc. unfold normalize_step.
  repeat case_bool_decide; simpl; try done.
  - rewrite List.removelast_firstn_len. by apply Forall_take.
  - apply Forall_app; split; [done|]. repeat constructor; done.
Qed.

Lemma fold_normalize_proper pieces cs :
  Forall (fun c => SLASH ∉ c) pieces -> Forall proper_name cs ->
  Forall proper_name (foldl normalize_step cs pieces).
Proof.
  intros Hp. revert cs. induction Hp as [|c pieces Hc Hp IH]; intros cs Hcs; simpl; [done|].
  apply IH. by apply normalize_step_proper.
Qed.

Lemma normalize_components_proper p : Forall proper_name (normalize_components p).
Proof. apply fold_normalize_proper; [apply split_slash_pieces | constructor]. Qed.

Lemma normalize_step_name cs c : proper_name c -> normalize_step cs c = cs ++ [c].
Proof.
  intros (Hne & Hd & Hdd & _). unfold normalize_step.
  by rewrite !bool_decide_eq_false_2.
Qed.

Lemma fold_normalize_names acc cs :
  Forall proper_name cs -> foldl normalize_step acc cs = acc ++ cs.
Proof.
  intros H. revert acc. induction H as [|c cs Hc Hcs IH]; intros acc; simpl.
  - by rewrite app_nil_r.
  - rewrite normalize_step_name, IH by done. by rewrite <- (assoc_L (++)).
Qed.

Lemma split_slash_concat cs :
  Forall proper_name cs ->
  split_slash (concat (map (cons SLASH) cs)) = [] :: cs.
Proof.
  induction 1 as [|c cs Hc Hcs IH]; [done|].
  simpl. destruct cs as [|d cs].
  - simpl. rewrite app_nil_r. f_equal. apply split_slash_no_slash. apply Hc.
  - simpl in IH |- *. rewrite split_slash_app_slash, split_slash_no_slash by apply Hc.
    simplify_eq/=. by rewrite IH.
Qed.

Lemma normalize_components_render cs :
  Forall proper_name cs -> normalize_components (render cs) = cs.
Proof.
  intros H. unfold normalize_components, render.
  destruct cs as [|c cs]; [done|].
  rewrite split_slash_concat by done.
  exact (fold_normalize_names [] (c :: cs) H).
Qed.

Lemma normalize_components_app_slash p q :
  normalize_components (p ++ SLASH :: q) =
  foldl normalize_step (normalize_components p) (split_slash q).
Proof. unfold normalize_components. by rewrite split_slash_app_slash, foldl_app. Qed.

Lemma cwd_prefix_components cwd path :
  normalize_components (cwd_prefix cwd ++ path) =
  foldl normalize_step (normalize_components cwd) (split_slash path).
Proof.
  unfold cwd_prefix, ends_with_slash. case_bool_decide as Hl.
  - apply last_Some in Hl as [l ->]. rewrite <- (assoc_L (++)). simpl.
    rewrite normalize_components_app_slash. f_equal.
    by rewrite normalize_components_app_slash.
  - rewrite <- (assoc_L (++)). apply normalize_components_app_slash.
Qed.

Lemma starts_with_slash_app p q :
  p <> [] -> starts_with_slash (p ++ q) = starts_with_slash p.
Proof. by destruct p. Qed.

Lemma resolve_components_relative path cwd :
  starts_with_slash path = false ->
  resolve_path path cwd =
  render (foldl normalize_step (normalize_components cwd) (split_slash path)).
Proof.
  intros Hr. unfold resolve_path. rewrite Hr, normalize_path_render.
  by rewrite cwd_prefix_components.
Qed.

(** ** Properties *)

Lemma spell_cons c cs : spell (c :: cs) = c ++ concat (map (cons SLASH) cs).
Proof. done. Qed.

Lemma split_spell pieces :
  pieces <> [] -> Forall (fun c => SLASH ∉ c) pieces -> split_slash (spell pieces) = pieces.
Proof.
  intros Hne H. induction H as [|c cs Hc Hcs IH]; [done|]. rewrite spell_cons.
  destruct cs as [|d cs]; simpl; [by rewrite app_nil_r, split_slash_no_slash|].
  rewrite split_slash_app_slash, (split_slash_no_slash c Hc). simpl. f_equal. exact (IH ltac:(done)).
Qed.

Lemma spell_split p : spell (split_slash p) = p.
Proof.
  induction p as [|b p IH]; simpl; [done|]. pose proof (split_slash_not_nil p) as Hne.
  destruct (split_slash p) as [|c cs]; [done|]. rewrite spell_cons in IH.
  destruct (Z.eqb_spec b SLASH) as [->|]; rewrite spell_cons; simpl; by rewrite IH.
Qed.

(** Simplifying changes nothing the component loop computes. *)
Lemma simplifies_components pieces pieces' :
  simplifies pieces pieces' -> foldl normalize_step [] pieces = foldl normalize_step [] pieces'.
Proof.
  intros [l r|l r|l name r Hn|r]; rewrite ?foldl_app; simpl; [done|done| |done].
  rewrite (normalize_step_name _ name) by done. f_equal. unfold normalize_step. simpl.
  rewrite List.removelast_app by done. simpl. by rewrite app_nil_r.
Qed.

Lemma normalize_step_simplifies acc c r :
  Forall proper_name acc -> SLASH ∉ c -> rtc simplifies (acc ++ c :: r) (normalize_step acc c ++ r).
Proof.
  intros Hacc Hc. unfold normalize_step. case_bool_decide as E1; [subst c; apply rtc_once, SimplEmpty|].
  case_bool_decide as E2; [subst c; apply rtc_once, SimplDot|]. simpl. case_bool_decide as E3.
  - subst c. destruct acc as [|n acc _] using rev_ind; [apply rtc_once, SimplRoot|].
    rewrite List.removelast_app by done. simpl. rewrite app_nil_r, <- app_assoc. apply rtc_once, SimplParent.
    apply Forall_app in Hacc as [_ Hn]. by apply Forall_cons in Hn as [? _].
  - unfold vec_push. by rewrite <- app_assoc.
Qed.

Lemma fold_normalize_simplifies pieces acc :
  Forall proper_name acc -> Forall (fun c => SLASH ∉ c) pieces ->
  rtc simplifies (acc ++ pieces) (foldl normalize_step acc pieces).
Proof.
  intros Hacc Hp. revert acc Hacc. induction Hp as [|c pieces Hc Hp IH]; intros acc Hacc; simpl; [by rewrite app_nil_r|].
  etrans; [by apply normalize_step_simplifies|]. apply IH. by apply normalize_step_proper.
Qed.

(** C27: [normalize_path] resolves [.], [..] and repeated separators exactly.
    The pieces between the separators of a path simplify, by cancelling empty
    pieces, [.], a name with the [..] after it, and [..] at the root, to exactly
    one list of names, in whatever order they are cancelled, and
    [normalize_path] returns the canonical spelling of that list: absolute,
    without [.], [..], repeated or trailing separators. *)
Theorem normalize_path_canonical p :
  exists pieces names,
    spells p pieces /\ (forall pieces', spells p pieces' -> pieces' = pieces) /\
    rtc simplifies pieces names /\ Forall proper_name names /\
    (forall names', rtc simplifies pieces names' -> Forall proper_name names' -> names' = names) /\
    normalize_path p = render names.
Proof.
  exists (split_slash p), (normalize_components p). split_and!.
  - split_and!; [apply split_slash_not_nil|apply split_slash_pieces|by rewrite spell_split].
  - intros pieces' (Hne & Hs & ->). by rewrite split_spell.
  - apply (fold_normalize_simplifies (split_slash p) []); [done|apply split_slash_pieces].
  - apply normalize_components_proper.
  - intros names' Hr Hn. unfold normalize_components. pose proof (fold_normalize_names [] names' Hn) as E. simpl in E.
    rewrite <- E. clear E Hn. induction Hr as [|x y z Hs _ IH]; [done|]. by rewrite IH, (simplifies_components x y Hs).
  - apply normalize_path_render.
Qed.

(** [normalize_path] is a projection onto the canonical paths: a path is
    canonical exactly when normalization leaves it unchanged, so normalizing
    twice is normalizing once. *)
Theorem normalize_path_fixpoint p : canonical p <-> normalize_path p = p.
Proof.
  split.
  - intros (cs & Hcs & ->).
    by rewrite normalize_path_render, normalize_components_render.
  - intros <-. rewrite normalize_path_render.
    exists (normalize_components p). split; [apply normalize_components_proper|done].
Qed.

(** resolving a relative path [b] against a resolved directory is resolving
    the joined path [a/b] against the original working directory: changing
    directory to [a] and then naming [b] denotes the same file as naming
    [a/b]. *)
Theorem resolve_path_compose a b cwd :
  a <> [] -> starts_with_slash b = false ->
  resolve_path b (resolve_path a cwd) = resolve_path (a ++ SLASH :: b) cwd.
Proof.
  intros Ha Hb. rewrite (resolve_components_relative b) by done.
  unfold resolve_path. rewrite starts_with_slash_app by done.
  destruct (starts_with_slash a) eqn:Es.
  - rewrite !normalize_path_render, normalize_components_app_slash.
    by rewrite normalize_components_render by apply normalize_components_proper.
  - rewrite !normalize_path_render, !cwd_prefix_components.
    rewrite split_slash_app_slash, foldl_app.
    rewrite normalize_components_render; [done|].
    apply fold_normalize_proper; [apply split_slash_pieces|].
    apply normalize_components_proper.
Qed.

Lemma resolve_path_compose_witness :
  resolve_path [120] (resolve_path [97; SLASH; DOT; DOT] [SLASH; 98]) =
  [SLASH; 98; SLASH; 120].
Proof.
  rewrite (resolve_path_compose [97; SLASH; DOT; DOT] [120] [SLASH; 98]).
  - vm_compute. reflexivity.
  - discriminate.
  - vm_compute. reflexivity.
Defined.
