(* ===== verification/FdTable.v ===== *)
(** * Per-process file descriptor table ([crates/kernel/src/fd.rs]).

    The sparse slot vector with its reserved set and descriptor limit, every
    operation of [FdTable], the abstract descriptor map it implements, and the
    lowest-available-descriptor contract of POSIX. *)

From S2P Require Import Prelude Abi.

(** ** Data *)

(** [OpenFileDescRef] is an index into the process's OFD table. *)
Abbreviation OpenFileDescRef := nat.

Record FdEntry := mkFdEntry {
  ofd_ref : OpenFileDescRef;
  fd_flags : Z;
}.

Record FdTable := mkFdTable {
  entries : list (option FdEntry);
  reserved : gset nat;
  max_fds : nat;
}.

Definition DEFAULT_MAX : nat := 1024.

Definition set_entries (t : FdTable) (es : list (option FdEntry)) : FdTable :=
  mkFdTable es (reserved t) (max_fds t).

Definition set_reserved (t : FdTable) (r : gset nat) : FdTable :=
  mkFdTable (entries t) r (max_fds t).

(** ** Operations

    An operation returns the table it leaves behind and its [Result], because
    some of them fail after mutating the table. *)

Definition with_max (max : nat) : FdTable := mkFdTable [] ∅ max.

Definition new : FdTable := with_max DEFAULT_MAX.

(** [self.entries[i].is_none() && !self.reserved.contains(&i)]. *)
Definition slot_free (r : gset nat) (i : nat) (e : option FdEntry) : bool :=
  match e with None => bool_decide (i ∉ r) | Some _ => false end.

(** [for i in first..entries.len()]: the first free slot at or after [first],
    scanning the entries [es] that start at index [first]. *)
Fixpoint scan_free (r : gset nat) (es : list (option FdEntry)) (first : nat) : option nat :=
  match es with
  | [] => None
  | e :: es' => if slot_free r first e then Some first else scan_free r es' (S first)
  end.

(** [while entries.len() < n { entries.push(None) }]. *)
Definition extend_to (es : list (option FdEntry)) (n : nat) : list (option FdEntry) :=
  es ++ replicate (n - length es) None.

Definition alloc_at_min (t : FdTable) (o : OpenFileDescRef) (flags min_fd : Z) :
    FdTable * kresult Z :=
  let min := Z.to_nat (Z.max min_fd 0) in
  match scan_free (reserved t) (drop min (entries t)) min with
  | Some i =>
      if (max_fds t <=? i)%nat then (t, Err EMFILE)
      else (set_entries t (<[i := Some (mkFdEntry o flags)]> (entries t)), Ok (as_i32 (Z.of_nat i)))
  | None =>
      let next := Nat.max (length (entries t)) min in
      if (max_fds t <=? next)%nat then (t, Err EMFILE)
      else (set_entries t (vec_push (extend_to (entries t) next) (Some (mkFdEntry o flags))),
            Ok (as_i32 (Z.of_nat next)))
  end.

Definition alloc (t : FdTable) (o : OpenFileDescRef) (flags : Z) : FdTable * kresult Z :=
  alloc_at_min t o flags 0.

Definition preopen_stdio (t : FdTable) : FdTable :=
  foldl (fun t i => fst (alloc t i 0)) t (seq 0 3).

Definition reserve (t : FdTable) : FdTable * kresult Z :=
  match scan_free (reserved t) (entries t) 0 with
  | Some i =>
      if (max_fds t <=? i)%nat then (t, Err EMFILE)
      else (set_reserved t ({[i]} ∪ reserved t), Ok (as_i32 (Z.of_nat i)))
  | None =>
      let next := length (entries t) in
      if (max_fds t <=? next)%nat then (t, Err EMFILE)
      else (set_reserved (set_entries t (vec_push (entries t) None)) ({[next]} ∪ reserved t),
            Ok (as_i32 (Z.of_nat next)))
  end.

(** [usize::try_from(fd)]. *)
Definition fd_index (fd : Z) : option nat :=
  if fd <? 0 then None else Some (Z.to_nat fd).

Definition install_reserved (t : FdTable) (fd : Z) (o : OpenFileDescRef) (flags : Z) :
    FdTable * kresult unit :=
  match fd_index fd with
  | None => (t, Err EBADF)
  | Some idx =>
      match entries t !! idx with
      | None => (t, Err EBADF)
      | Some (Some _) => (t, Err EBADF)
      | Some None =>
          if bool_decide (idx ∈ reserved t) then
            (mkFdTable (<[idx := Some (mkFdEntry o flags)]> (entries t))
                       (reserved t ∖ {[idx]}) (max_fds t), Ok tt)
          else (t, Err EBADF)
      end
  end.

Definition release_reserved (t : FdTable) (fd : Z) : FdTable * bool :=
  match fd_index fd with
  | None => (t, false)
  | Some idx => (set_reserved t (reserved t ∖ {[idx]}), bool_decide (idx ∈ reserved t))
  end.

Definition free (t : FdTable) (fd : Z) : FdTable * kresult OpenFileDescRef :=
  match fd_index fd with
  | None => (t, Err EBADF)
  | Some idx =>
      match entries t !! idx with
      | None => (t, Err EBADF)
      | Some e =>
          (set_entries t (<[idx := None]> (entries t)), ok_or (ofd_ref <$> e) EBADF)
      end
  end.

Definition get (t : FdTable) (fd : Z) : kresult FdEntry :=
  match fd_index fd with
  | None => Err EBADF
  | Some idx =>
      match entries t !! idx with
      | None => Err EBADF
      | Some e => ok_or e EBADF
      end
  end.

(** A write through the reference [get_mut] returns. *)
Definition get_mut (t : FdTable) (fd : Z) (f : FdEntry -> FdEntry) : kresult FdTable :=
  match fd_index fd with
  | None => Err EBADF
  | Some idx =>
      match entries t !! idx with
      | Some (Some e) => Ok (set_entries t (<[idx := Some (f e)]> (entries t)))
      | _ => Err EBADF
      end
  end.

(** The descriptors in increasing order with their entries. *)
Definition iter (t : FdTable) : list (Z * FdEntry) :=
  omap (fun '(i, e) => (fun x => (as_i32 (Z.of_nat i), x)) <$> e)
       (zip (seq 0 (length (entries t))) (entries t)).

Definition from_raw (es : list (option FdEntry)) (max : nat) : FdTable := mkFdTable es ∅ max.

Definition set_max_fds (t : FdTable) (max : nat) : FdTable :=
  mkFdTable (entries t) (reserved t) max.

Definition set_at (t : FdTable) (fd : Z) (o : OpenFileDescRef) (flags : Z) :
    FdTable * kresult (option OpenFileDescRef) :=
  match fd_index fd with
  | None => (t, Err EBADF)
  | Some idx =>
      if (max_fds t <=? idx)%nat then (t, Err EBADF)
      else
        let t1 := set_entries t (extend_to (entries t) (S idx)) in
        if bool_decide (idx ∈ reserved t) then (t1, Err EBUSY)
        else (set_entries t1 (<[idx := Some (mkFdEntry o flags)]> (entries t1)),
              Ok (ofd_ref <$> (entries t1 !! idx ≫= id)))
  end.

(** [impl Clone for FdTable]: a fork does not inherit in-progress opens. *)
Definition clone (t : FdTable) : FdTable := mkFdTable (entries t) ∅ (max_fds t).

(** ** Specification *)

(** The abstract table: the open descriptors, the descriptors claimed by an
    in-progress open, and the limit. *)
Record FdSpec := mkFdSpec {
  open_fds : gmap nat FdEntry;
  pending_fds : gset nat;
  limit : nat;
}.

Definition open_map (es : list (option FdEntry)) : gmap nat FdEntry :=
  omap id (map_seq 0 es).

Definition abs (t : FdTable) : FdSpec :=
  mkFdSpec (open_map (entries t)) (reserved t) (max_fds t).

Definition available (s : FdSpec) (i : nat) : Prop :=
  open_fds s !! i = None /\ i ∉ pending_fds s.

(** [i] is the lowest available descriptor at or above [min] and below the
    limit. *)
Definition lowest (s : FdSpec) (min i : nat) : Prop :=
  (min <= i < limit s)%nat /\ available s i /\
  forall j, (min <= j < i)%nat -> ~ available s j.

Definition exhausted (s : FdSpec) (min : nat) : Prop :=
  forall j, (min <= j < limit s)%nat -> ~ available s j.

Definition spec_open (s : FdSpec) (i : nat) (e : FdEntry) : FdSpec :=
  mkFdSpec (<[i := e]> (open_fds s)) (pending_fds s) (limit s).

(** A reserved slot exists and holds no entry. *)
Definition fd_wf (t : FdTable) : Prop :=
  forall i, i ∈ reserved t -> entries t !! i = Some None.

(** The calls a process makes on its table, with their results. *)
Inductive fd_op :=
| OpAlloc (o : OpenFileDescRef) (flags min_fd : Z)
| OpReserve
| OpInstall (fd : Z) (o : OpenFileDescRef) (flags : Z)
| OpRelease (fd : Z)
| OpFree (fd : Z)
| OpSetAt (fd : Z) (o : OpenFileDescRef) (flags : Z)
| OpGet (fd : Z)
| OpSetMax (max : nat)
| OpClone.

Inductive fd_out :=
| OutFd (r : kresult Z)
| OutUnit (r : kresult unit)
| OutBool (b : bool)
| OutRef (r : kresult OpenFileDescRef)
| OutOld (r : kresult (option OpenFileDescRef))
| OutEntry (r : kresult FdEntry).

Definition fd_exec (t : FdTable) (op : fd_op) : FdTable * fd_out :=
  match op with
  | OpAlloc o flags min_fd => prod_map id OutFd (alloc_at_min t o flags min_fd)
  | OpReserve => prod_map id OutFd (reserve t)
  | OpInstall fd o flags => prod_map id OutUnit (install_reserved t fd o flags)
  | OpRelease fd => prod_map id OutBool (release_reserved t fd)
  | OpFree fd => prod_map id OutRef (free t fd)
  | OpSetAt fd o flags => prod_map id OutOld (set_at t fd o flags)
  | OpGet fd => (t, OutEntry (get t fd))
  | OpSetMax max => (set_max_fds t max, OutUnit (Ok tt))
  | OpClone => (clone t, OutUnit (Ok tt))
  end.

(** What each call promises on the abstract table, branch by branch. *)
Inductive spec_step (s : FdSpec) : fd_op -> fd_out -> FdSpec -> Prop :=
| SpecAlloc o flags min_fd i :
    lowest s (Z.to_nat (Z.max min_fd 0)) i ->
    spec_step s (OpAlloc o flags min_fd) (OutFd (Ok (Z.of_nat i)))
              (spec_open s i (mkFdEntry o flags))
| SpecAllocFull o flags min_fd :
    exhausted s (Z.to_nat (Z.max min_fd 0)) ->
    spec_step s (OpAlloc o flags min_fd) (OutFd (Err EMFILE)) s
| SpecReserve i :
    lowest s 0 i ->
    spec_step s OpReserve (OutFd (Ok (Z.of_nat i)))
              (mkFdSpec (open_fds s) ({[i]} ∪ pending_fds s) (limit s))
| SpecReserveFull :
    exhausted s 0 -> spec_step s OpReserve (OutFd (Err EMFILE)) s
| SpecInstall fd o flags i :
    fd_index fd = Some i -> i ∈ pending_fds s ->
    spec_step s (OpInstall fd o flags) (OutUnit (Ok tt))
              (mkFdSpec (<[i := mkFdEntry o flags]> (open_fds s)) (pending_fds s ∖ {[i]}) (limit s))
| SpecInstallBad fd o flags :
    (forall i, fd_index fd = Some i -> i ∉ pending_fds s) ->
    spec_step s (OpInstall fd o flags) (OutUnit (Err EBADF)) s
| SpecRelease fd i :
    fd_index fd = Some i ->
    spec_step s (OpRelease fd) (OutBool (bool_decide (i ∈ pending_fds s)))
              (mkFdSpec (open_fds s) (pending_fds s ∖ {[i]}) (limit s))
| SpecReleaseBad fd :
    fd_index fd = None -> spec_step s (OpRelease fd) (OutBool false) s
| SpecFree fd i e :
    fd_index fd = Some i -> open_fds s !! i = Some e ->
    spec_step s (OpFree fd) (OutRef (Ok (ofd_ref e)))
              (mkFdSpec (delete i (open_fds s)) (pending_fds s) (limit s))
| SpecFreeBad fd :
    (forall i, fd_index fd = Some i -> open_fds s !! i = None) ->
    spec_step s (OpFree fd) (OutRef (Err EBADF)) s
| SpecSetAt fd o flags i :
    fd_index fd = Some i -> (i < limit s)%nat -> i ∉ pending_fds s ->
    spec_step s (OpSetAt fd o flags) (OutOld (Ok (ofd_ref <$> open_fds s !! i)))
              (spec_open s i (mkFdEntry o flags))
| SpecSetAtBusy fd o flags i :
    fd_index fd = Some i -> (i < limit s)%nat -> i ∈ pending_fds s ->
    spec_step s (OpSetAt fd o flags) (OutOld (Err EBUSY)) s
| SpecSetAtBad fd o flags :
    (forall i, fd_index fd = Some i -> (limit s <= i)%nat) ->
    spec_step s (OpSetAt fd o flags) (OutOld (Err EBADF)) s
| SpecGet fd i e :
    fd_index fd = Some i -> open_fds s !! i = Some e ->
    spec_step s (OpGet fd) (OutEntry (Ok e)) s
| SpecGetBad fd :
    (forall i, fd_index fd = Some i -> open_fds s !! i = None) ->
    spec_step s (OpGet fd) (OutEntry (Err EBADF)) s
| SpecSetMax max :
    spec_step s (OpSetMax max) (OutUnit (Ok tt))
              (mkFdSpec (open_fds s) (pending_fds s) max)
| SpecClone :
    spec_step s OpClone (OutUnit (Ok tt)) (mkFdSpec (open_fds s) ∅ (limit s)).

(** The calls that end the reservation of slot [i]. *)
Definition settles (i : nat) (op : fd_op) : bool :=
  match op with
  | OpInstall fd _ _ | OpRelease fd => bool_decide (fd_index fd = Some i)
  | OpClone => true
  | _ => false
  end.

(** ** Lemmas *)

Lemma open_map_lookup es i : open_map es !! i = es !! i ≫= id.
Proof.
  unfold open_map. rewrite lookup_omap.
  destruct (es !! i) as [e|] eqn:E.
  - assert ((map_seq 0 es : gmap nat (option FdEntry)) !! i = Some e) as ->; [|done].
    apply lookup_map_seq_Some. rewrite Nat.sub_0_r. split; [lia|done].
  - assert ((map_seq 0 es : gmap nat (option FdEntry)) !! i = None) as ->; [|done].
    apply lookup_map_seq_None. apply lookup_ge_None in E. lia.
Qed.

Lemma open_map_insert es i e :
  (i < length es)%nat -> open_map (<[i := Some e]> es) = <[i := e]> (open_map es).
Proof.
  intros Hi. apply map_eq; intros j. rewrite !open_map_lookup.
  destruct (decide (i = j)) as [<-|Hne].
  - by rewrite list_lookup_insert_eq, lookup_insert_eq.
  - by rewrite list_lookup_insert_ne, lookup_insert_ne, open_map_lookup.
Qed.

Lemma open_map_clear es i : open_map (<[i := None]> es) = delete i (open_map es).
Proof.
  apply map_eq; intros j. rewrite !open_map_lookup.
  destruct (decide (i = j)) as [<-|Hne].
  - rewrite lookup_delete_eq. destruct (decide (i < length es)%nat).
    + by rewrite list_lookup_insert_eq.
    + rewrite list_insert_ge, lookup_ge_None_2 by lia; done.
  - by rewrite list_lookup_insert_ne, lookup_delete_ne, open_map_lookup.
Qed.

Lemma open_map_extend es n : open_map (extend_to es n) = open_map es.
Proof.
  apply map_eq; intros j. rewrite !open_map_lookup. unfold extend_to.
  destruct (decide (j < length es)%nat) as [Hj|Hj].
  - by rewrite lookup_app_l.
  - rewrite lookup_app_r, (lookup_ge_None_2 es) by lia.
    destruct (replicate _ _ !! _) eqn:E; [|done].
    by apply lookup_replicate in E as [-> _].
Qed.

Lemma open_map_push_None es : open_map (vec_push es None) = open_map es.
Proof.
  rewrite <- (open_map_extend es (S (length es))). unfold extend_to, vec_push.
  by replace (S (length es) - length es)%nat with 1%nat by lia.
Qed.

Lemma extend_to_length es n : length (extend_to es n) = Nat.max (length es) n.
Proof. unfold extend_to. rewrite length_app, length_replicate. lia. Qed.

Lemma extend_to_lookup es n i e : es !! i = Some e -> extend_to es n !! i = Some e.
Proof. intros H. unfold extend_to. by apply lookup_app_l_Some. Qed.

Lemma extend_to_lookup_ge es n i e :
  (length es <= i)%nat -> extend_to es n !! i = Some e -> e = None.
Proof.
  intros Hi H. unfold extend_to in H. rewrite lookup_app_r in H by done.
  by apply lookup_replicate in H as [-> ?].
Qed.

(** [scan_free] finds the first available slot of the scanned segment. *)
Lemma scan_free_Some r es first i :
  scan_free r es first = Some i ->
  (first <= i)%nat /\ es !! (i - first)%nat = Some None /\ i ∉ r /\
  forall j e, (first <= j < i)%nat -> es !! (j - first)%nat = Some e -> slot_free r j e = false.
Proof.
  revert first; induction es as [|e es IH]; intros first H; simplify_eq/=.
  destruct (slot_free r first e) eqn:E; simplify_eq/=.
  - rewrite Nat.sub_diag. unfold slot_free in E. destruct e; [done|]. bool_hyps.
    split_and!; [lia|done|done|]. intros; lia.
  - apply IH in H as (Hle & Hl & Hr & Hlow).
    replace (i - first)%nat with (S (i - S first)) by lia.
    split_and!; [lia|done|done|]. intros j e' Hj Hje.
    destruct (decide (j = first)) as [->|].
    + rewrite Nat.sub_diag in Hje. by simplify_eq/=.
    + apply Hlow; [lia|]. by replace (j - first)%nat with (S (j - S first)) in Hje by lia.
Qed.

Lemma scan_free_None r es first :
  scan_free r es first = None ->
  forall j e, (first <= j)%nat -> es !! (j - first)%nat = Some e -> slot_free r j e = false.
Proof.
  revert first; induction es as [|e es IH]; intros first H j e' Hj Hje; simplify_eq/=.
  destruct (slot_free r first e) eqn:E; simplify_eq/=.
  destruct (decide (j = first)) as [->|].
  - rewrite Nat.sub_diag in Hje. by simplify_eq/=.
  - apply (IH (S first)); [done|lia|].
    by replace (j - first)%nat with (S (j - S first)) in Hje by lia.
Qed.

(** A slot the scan rejects is not available. *)
Lemma slot_busy t i e :
  entries t !! i = Some e -> slot_free (reserved t) i e = false -> ~ available (abs t) i.
Proof.
  intros Hi Hs [Ho Hp]. simpl in *. rewrite open_map_lookup, Hi in Ho. simpl in Ho.
  destruct e; simplify_eq/=. by rewrite bool_decide_eq_true_2 in Hs.
Qed.

Lemma slot_available t i :
  fd_wf t -> i ∉ reserved t -> entries t !! i = Some None \/ (length (entries t) <= i)%nat ->
  available (abs t) i.
Proof.
  intros Hwf Hr Hi. split; simpl; [|done]. rewrite open_map_lookup.
  destruct Hi as [->|Hi]; [done|]. by rewrite lookup_ge_None_2.
Qed.

Lemma fd_wf_lt t i : fd_wf t -> i ∈ reserved t -> (i < length (entries t))%nat.
Proof. intros Hwf Hi. apply lookup_lt_is_Some. rewrite (Hwf i Hi). eauto. Qed.

Lemma fd_wf_not_reserved_ge t i :
  fd_wf t -> (length (entries t) <= i)%nat -> i ∉ reserved t.
Proof. intros Hwf Hi Hr. pose proof (fd_wf_lt t i Hwf Hr). lia. Qed.

(** Updating a slot that is not reserved, and growing the vector, keep the
    invariant. *)
Lemma fd_wf_insert t i e :
  fd_wf t -> i ∉ reserved t -> fd_wf (set_entries t (<[i := e]> (entries t))).
Proof.
  intros Hwf Hi j Hj. simpl in *. rewrite list_lookup_insert_ne by set_solver. by apply Hwf.
Qed.

Lemma fd_wf_extend t n : fd_wf t -> fd_wf (set_entries t (extend_to (entries t) n)).
Proof. intros Hwf i Hi. simpl in *. apply extend_to_lookup. by apply Hwf. Qed.

Lemma fd_wf_push t n e :
  fd_wf t -> fd_wf (set_entries t (vec_push (extend_to (entries t) n) e)).
Proof.
  intros Hwf i Hi. simpl in *. unfold vec_push.
  apply lookup_app_l_Some, extend_to_lookup. by apply Hwf.
Qed.

Lemma open_map_push es e :
  open_map (vec_push es (Some e)) = <[length es := e]> (open_map es).
Proof.
  unfold vec_push. apply map_eq; intros j. rewrite open_map_lookup.
  destruct (decide (length es = j)) as [<-|Hne].
  - rewrite lookup_insert_eq, lookup_app_r, Nat.sub_diag by lia. done.
  - rewrite lookup_insert_ne, open_map_lookup by done.
    destruct (decide (j < length es)%nat).
    + by rewrite lookup_app_l.
    + rewrite !lookup_ge_None_2; [done|lia|]. rewrite length_app. simpl. lia.
Qed.

Lemma scan_lowest t min i :
  fd_wf t -> scan_free (reserved t) (drop min (entries t)) min = Some i ->
  entries t !! i = Some None /\ i ∉ reserved t /\
  (min <= i)%nat /\ available (abs t) i /\
  (forall j, (min <= j < i)%nat -> ~ available (abs t) j).
Proof.
  intros Hwf Hs. apply scan_free_Some in Hs as (Hle & Hi & Hr & Hlow).
  rewrite lookup_drop in Hi. replace (min + (i - min))%nat with i in Hi by lia.
  split_and!; try done.
  - apply slot_available; auto.
  - intros j Hj. apply lookup_lt_Some in Hi.
    destruct (lookup_lt_is_Some_2 (entries t) j) as [e He]; [lia|].
    apply (slot_busy _ _ e He). apply Hlow; [done|].
    rewrite lookup_drop. by replace (min + (j - min))%nat with j by lia.
Qed.

Lemma scan_exhausted t min :
  scan_free (reserved t) (drop min (entries t)) min = None ->
  forall j, (min <= j < Nat.max (length (entries t)) min)%nat -> ~ available (abs t) j.
Proof.
  intros Hs j Hj.
  destruct (lookup_lt_is_Some_2 (entries t) j) as [e He]; [lia|].
  apply (slot_busy _ _ e He), (scan_free_None _ _ _ Hs); [lia|].
  rewrite lookup_drop. by replace (min + (j - min))%nat with j by lia.
Qed.

(** The slot both allocation paths choose: the first free one, or the first one
    past the vector. *)
Definition candidate (t : FdTable) (min : nat) : nat :=
  default (Nat.max (length (entries t)) min)
          (scan_free (reserved t) (drop min (entries t)) min).

Lemma candidate_ok t min :
  fd_wf t -> (candidate t min < max_fds t)%nat -> lowest (abs t) min (candidate t min).
Proof.
  unfold candidate. intros Hwf Hlt. unfold lowest.
  destruct (scan_free _ _ _) as [i|] eqn:E; simpl in *.
  - apply scan_lowest in E as (_ & _ & ? & ? & ?); [|done]. done.
  - split; [lia|]. split; [|by apply scan_exhausted].
    apply slot_available; [done| |lia]. apply fd_wf_not_reserved_ge; [done|lia].
Qed.

Lemma candidate_full t min :
  fd_wf t -> (max_fds t <= candidate t min)%nat -> exhausted (abs t) min.
Proof.
  unfold candidate, exhausted. intros Hwf Hle j Hj. simpl in Hj.
  destruct (scan_free _ _ _) as [i|] eqn:E; simpl in *.
  - apply scan_lowest in E as (_ & _ & _ & _ & Hlow); [|done]. apply Hlow. lia.
  - apply scan_exhausted with min; [done|lia].
Qed.

Lemma fd_index_Some fd i : fd_index fd = Some i -> fd = Z.of_nat i.
Proof. unfold fd_index. intros. case_match; simplify_eq/=. lia. Qed.

Lemma fd_index_of_nat i : fd_index (Z.of_nat i) = Some i.
Proof. unfold fd_index. destruct (Z.ltb_spec (Z.of_nat i) 0); [lia|]. by rewrite Nat2Z.id. Qed.

Lemma alloc_at_min_refines t o flags min_fd t' r :
  fd_wf t -> Z.of_nat (max_fds t) <= 2 ^ 31 -> alloc_at_min t o flags min_fd = (t', r) ->
  fd_wf t' /\ spec_step (abs t) (OpAlloc o flags min_fd) (OutFd r) (abs t').
Proof.
  intros Hwf Hmax. unfold alloc_at_min. set (min := Z.to_nat _).
  pose proof (candidate_ok t min Hwf) as Hok.
  pose proof (candidate_full t min Hwf) as Hfull. unfold candidate in *.
  destruct (scan_free _ _ _) as [i|] eqn:E; simpl in *;
    case_cmp; intros; simplify_eq/=.
  - split; [done|]. apply SpecAllocFull. auto.
  - apply scan_lowest in E as (Hi & Hr & _); [|done].
    split; [by apply fd_wf_insert|].
    rewrite as_i32_nat_id by lia. unfold abs at 2; simpl.
    rewrite open_map_insert by (by apply lookup_lt_Some in Hi).
    apply SpecAlloc. auto.
  - split; [done|]. apply SpecAllocFull. auto.
  - split; [by apply fd_wf_push|].
    rewrite as_i32_nat_id by lia. unfold abs at 2; simpl.
    rewrite open_map_push, open_map_extend, extend_to_length.
    rewrite Nat.max_assoc, Nat.max_id. apply SpecAlloc. auto.
Qed.

Lemma reserve_refines t t' r :
  fd_wf t -> Z.of_nat (max_fds t) <= 2 ^ 31 -> reserve t = (t', r) ->
  fd_wf t' /\ spec_step (abs t) OpReserve (OutFd r) (abs t').
Proof.
  intros Hwf Hmax. unfold reserve.
  pose proof (candidate_ok t 0 Hwf) as Hok.
  pose proof (candidate_full t 0 Hwf) as Hfull.
  unfold candidate in *. rewrite drop_0, Nat.max_0_r in *.
  destruct (scan_free _ _ _) as [i|] eqn:E; simpl in *;
    case_cmp; intros; simplify_eq/=.
  - split; [done|]. apply SpecReserveFull. auto.
  - assert (entries t !! i = Some None) as Hi.
    { apply (scan_lowest t 0); [done|]. by rewrite drop_0. }
    rewrite as_i32_nat_id by lia. split.
    + intros j Hj. simpl in *. apply elem_of_union in Hj as [->%elem_of_singleton|Hj]; auto.
    + by apply SpecReserve, Hok.
  - split; [done|]. apply SpecReserveFull. auto.
  - rewrite as_i32_nat_id by lia. split.
    + intros j Hj. simpl in *. unfold vec_push.
      apply elem_of_union in Hj as [->%elem_of_singleton|Hj].
      * rewrite lookup_app_r, Nat.sub_diag by lia. done.
      * apply lookup_app_l_Some. by apply Hwf.
    + unfold abs at 2; simpl. rewrite open_map_push_None. by apply SpecReserve, Hok.
Qed.

Lemma install_reserved_refines t fd o flags t' r :
  fd_wf t -> install_reserved t fd o flags = (t', r) ->
  fd_wf t' /\ spec_step (abs t) (OpInstall fd o flags) (OutUnit r) (abs t').
Proof.
  intros Hwf. unfold install_reserved.
  destruct (fd_index fd) as [i|] eqn:Ei.
  2:{ intros; simplify_eq/=. split; [done|]. apply SpecInstallBad. congruence. }
  destruct (decide (i ∈ reserved t)) as [Hr|Hr].
  - rewrite (Hwf i Hr), bool_decide_eq_true_2 by done. intros; simplify_eq/=. split.
    + intros j Hj. simpl in *. rewrite list_lookup_insert_ne by set_solver.
      apply Hwf. set_solver.
    + unfold abs at 2; simpl. rewrite open_map_insert by by apply fd_wf_lt.
      by apply SpecInstall.
  - intros Hx. assert (t' = t /\ r = Err EBADF) as [-> ->].
    { rewrite bool_decide_eq_false_2 in Hx by done. repeat case_match; by simplify_eq/=. }
    split; [done|]. apply SpecInstallBad. intros; by simplify_eq/=.
Qed.

Lemma release_reserved_refines t fd t' b :
  fd_wf t -> release_reserved t fd = (t', b) ->
  fd_wf t' /\ spec_step (abs t) (OpRelease fd) (OutBool b) (abs t').
Proof.
  intros Hwf. unfold release_reserved.
  destruct (fd_index fd) as [i|] eqn:Ei; intros; simplify_eq/=.
  - split; [|by apply SpecRelease]. intros j Hj. simpl in *. apply Hwf. set_solver.
  - split; [done|]. by apply SpecReleaseBad.
Qed.

Lemma free_refines t fd t' r :
  fd_wf t -> free t fd = (t', r) ->
  fd_wf t' /\ spec_step (abs t) (OpFree fd) (OutRef r) (abs t').
Proof.
  intros Hwf. unfold free.
  destruct (fd_index fd) as [i|] eqn:Ei.
  2:{ intros; simplify_eq/=. split; [done|]. apply SpecFreeBad. congruence. }
  destruct (entries t !! i) as [[e|]|] eqn:El; intros; simplify_eq/=.
  - split.
    + apply fd_wf_insert; [done|]. intros Hr. apply Hwf in Hr. simpl in Hr. congruence.
    + unfold abs at 2; simpl. rewrite open_map_clear. apply (SpecFree (abs t) fd i e); [done|].
      simpl. by rewrite open_map_lookup, El.
  - rewrite list_insert_id by done. replace (set_entries t (entries t)) with t by by destruct t.
    split; [done|]. apply SpecFreeBad. intros; simplify_eq/=. by rewrite open_map_lookup, El.
  - split; [done|]. apply SpecFreeBad. intros; simplify_eq/=. by rewrite open_map_lookup, El.
Qed.

Lemma set_at_refines t fd o flags t' r :
  fd_wf t -> set_at t fd o flags = (t', r) ->
  fd_wf t' /\ spec_step (abs t) (OpSetAt fd o flags) (OutOld r) (abs t').
Proof.
  intros Hwf. unfold set_at.
  destruct (fd_index fd) as [i|] eqn:Ei.
  2:{ intros; simplify_eq/=. split; [done|]. apply SpecSetAtBad. congruence. }
  case_cmp; [intros; simplify_eq/=; split; [done|]; apply SpecSetAtBad; intros; by simplify_eq/=|].
  assert (i < length (extend_to (entries t) (S i)))%nat as Hlen by (rewrite extend_to_length; lia).
  case_bool_decide as Hr; intros; simplify_eq/=.
  - split; [by apply fd_wf_extend|]. unfold abs at 2; simpl. rewrite open_map_extend.
    by apply (SpecSetAtBusy (abs t) _ _ _ i).
  - split.
    + by apply (fd_wf_insert (set_entries t (extend_to (entries t) (S i)))), Hr; apply fd_wf_extend.
    + unfold abs at 2; simpl. rewrite open_map_insert by done.
      rewrite <- open_map_lookup, open_map_extend. by apply (SpecSetAt (abs t) _ _ _ i).
Qed.

Lemma get_refines t fd : spec_step (abs t) (OpGet fd) (OutEntry (get t fd)) (abs t).
Proof.
  unfold get. destruct (fd_index fd) as [i|] eqn:Ei; [|apply SpecGetBad; congruence].
  destruct (entries t !! i) as [[e|]|] eqn:El; simpl.
  - apply (SpecGet _ _ i e); [done|]. simpl. by rewrite open_map_lookup, El.
  - apply SpecGetBad. intros; simplify_eq/=. by rewrite open_map_lookup, El.
  - apply SpecGetBad. intros; simplify_eq/=. by rewrite open_map_lookup, El.
Qed.

#[export] Hint Resolve alloc_at_min_refines reserve_refines install_reserved_refines
  release_reserved_refines free_refines set_at_refines get_refines : kandelo.

Lemma fd_exec_sound t op t' out :
  fd_wf t -> Z.of_nat (max_fds t) <= 2 ^ 31 -> fd_exec t op = (t', out) ->
  fd_wf t' /\ spec_step (abs t) op out (abs t').
Proof.
  intros Hwf Hmax. destruct op; simpl;
    repeat match goal with |- context [prod_map id ?f ?e] => destruct e eqn:?; simpl end;
    intros; simplify_eq/=; try (eauto with kandelo; fail).
  - split; [done|apply (SpecSetMax (abs t))].
  - split; [by intros i Hi|apply (SpecClone (abs t))].
Qed.

(** A step that does not settle slot [i] keeps it reserved. *)
Lemma spec_step_pending s op out s' i :
  spec_step s op out s' -> i ∈ pending_fds s -> settles i op = false -> i ∈ pending_fds s'.
Proof.
  intros Hs Hi Hop. destruct Hs; simpl in *; try done; bool_hyps; set_solver.
Qed.

Lemma fd_exec_max t op t' out :
  fd_exec t op = (t', out) ->
  max_fds t' = match op with OpSetMax m => m | _ => max_fds t end.
Proof.
  destruct op; simpl; unfold alloc_at_min, reserve, install_reserved, release_reserved, free, set_at;
    intros; repeat case_match; by simplify_eq/=.
Qed.

Definition max_ok (op : fd_op) : Prop :=
  match op with OpSetMax m => Z.of_nat m <= 2 ^ 31 | _ => True end.

Lemma fd_run_pending t ops i :
  fd_wf t -> Z.of_nat (max_fds t) <= 2 ^ 31 -> Forall max_ok ops ->
  i ∈ reserved t -> Forall (fun op => settles i op = false) ops ->
  let t' := foldl (fun t op => fst (fd_exec t op)) t ops in
  fd_wf t' /\ i ∈ reserved t' /\ Z.of_nat (max_fds t') <= 2 ^ 31.
Proof.
  revert t. induction ops as [|op ops IH]; intros t Hwf Hmax Hok Hi Hs; simpl; [done|].
  apply Forall_cons in Hok as [Hop Hok]. apply Forall_cons in Hs as [Hset Hs].
  destruct (fd_exec t op) as [t1 out] eqn:E. simpl.
  pose proof (fd_exec_max _ _ _ _ E) as Hm.
  destruct (fd_exec_sound t op t1 out) as [Hwf1 Hstep]; [done..|].
  apply IH; try done.
  - rewrite Hm. destruct op; simpl in *; done.
  - exact (spec_step_pending _ _ _ _ _ Hstep Hi Hset).
Qed.

Lemma reserve_Ok t t1 fd :
  Z.of_nat (max_fds t) <= 2 ^ 31 -> reserve t = (t1, Ok fd) ->
  exists i, fd = Z.of_nat i /\ i ∈ reserved t1 /\ max_fds t1 = max_fds t.
Proof.
  intros Hmax. unfold reserve.
  destruct (scan_free _ _ _) as [i|]; case_cmp; intros; simplify_eq/=;
    eexists; (split; [by apply as_i32_nat_id; lia|]); (split; [set_solver|done]).
Qed.

(** A reserved slot is invisible to lookup and refused by placement and by
    allocation, and installing into it publishes the entry. *)
Lemma reserved_slot_claimed t i o flags :
  fd_wf t -> Z.of_nat (max_fds t) <= 2 ^ 31 -> i ∈ reserved t ->
  get t (Z.of_nat i) = Err EBADF /\
  is_ok (snd (set_at t (Z.of_nat i) o flags)) = false /\
  (forall o' fl' m, snd (alloc_at_min t o' fl' m) <> Ok (Z.of_nat i)) /\
  install_reserved t (Z.of_nat i) o flags =
    (mkFdTable (<[i := Some (mkFdEntry o flags)]> (entries t)) (reserved t ∖ {[i]}) (max_fds t), Ok tt).
Proof.
  intros Hwf Hmax Hi. pose proof (Hwf i Hi) as Hslot.
  unfold get, set_at, install_reserved. rewrite fd_index_of_nat, Hslot.
  rewrite !bool_decide_eq_true_2 by done. split_and!; [done|by case_cmp| |done].
  intros o' fl' m Ha. destruct (alloc_at_min t o' fl' m) as [t' r] eqn:E. simpl in Ha. subst r.
  apply alloc_at_min_refines in E as [_ Hs]; [|done..].
  inversion Hs; simplify_eq/=. by match goal with H : lowest _ _ _ |- _ => apply H end.
Qed.

(** ** Properties *)

(** C2: the descriptor table refines the abstract map of open descriptors: on
    every operation and every branch (including [EMFILE], [EBADF] and [EBUSY])
    the concrete result and next table are the ones the abstract specification
    allows, so allocation and reservation return the lowest descriptor that is
    neither open nor reserved, fail exactly when none is left below the limit,
    and no operation disturbs another descriptor; the invariant that a reserved
    slot is empty is preserved. *)
Theorem fd_table_refines t op t' out :
  fd_wf t -> Z.of_nat (max_fds t) <= 2 ^ 31 -> fd_exec t op = (t', out) ->
  fd_wf t' /\ spec_step (abs t) op out (abs t').
Proof. apply fd_exec_sound. Qed.

Lemma fd_table_refines_witness :
  spec_step (abs (preopen_stdio new)) (OpAlloc 7 0 5) (OutFd (Ok 5))
            (abs (fst (fd_exec (preopen_stdio new) (OpAlloc 7 0 5)))).
Proof.
  apply (fd_table_refines (preopen_stdio new) (OpAlloc 7 0 5)).
  - intros i Hi. vm_compute in Hi. set_solver.
  - vm_compute. discriminate.
  - vm_compute. reflexivity.
Defined.

(** a descriptor number handed out by [reserve] stays claimed through any
    sequence of other operations (allocations, closes, dup2-style placement,
    limit changes): it is never visible to lookup, never handed out again and
    never overwritten, and [install_reserved] then succeeds and publishes
    exactly the entry it was given. *)
Theorem fd_reservation_safe t t1 fd ops o flags :
  fd_wf t -> Z.of_nat (max_fds t) <= 2 ^ 31 -> Forall max_ok ops ->
  reserve t = (t1, Ok fd) ->
  (forall i, fd_index fd = Some i -> Forall (fun op => settles i op = false) ops) ->
  let t2 := foldl (fun t op => fst (fd_exec t op)) t1 ops in
  get t2 fd = Err EBADF /\
  is_ok (snd (set_at t2 fd o flags)) = false /\
  (forall o' fl' m, snd (alloc_at_min t2 o' fl' m) <> Ok fd) /\
  snd (install_reserved t2 fd o flags) = Ok tt /\
  get (fst (install_reserved t2 fd o flags)) fd = Ok (mkFdEntry o flags).
Proof.
  intros Hwf Hmax Hok Hres Hset t2.
  destruct (reserve_Ok t t1 fd Hmax Hres) as (i & -> & Hi & Hm).
  apply reserve_refines in Hres as [Hwf1 _]; [|done..].
  destruct (fd_run_pending t1 ops i) as (Hwf2 & Hi2 & Hmax2);
    [done|by rewrite Hm|done|done|apply Hset, fd_index_of_nat|].
  destruct (reserved_slot_claimed t2 i o flags) as (Hg & Hsa & Hal & ->); [done..|].
  split_and!; try done. simpl. unfold get. rewrite fd_index_of_nat. simpl.
  by rewrite list_lookup_insert_eq by by apply fd_wf_lt.
Qed.

Lemma fd_reservation_safe_witness :
  let t := preopen_stdio new in
  let t2 := fst (fd_exec (fst (reserve t)) (OpAlloc 8 0 0)) in
  get t2 3 = Err EBADF /\ get (fst (install_reserved t2 3 9 1)) 3 = Ok (mkFdEntry 9 1).
Proof.
  destruct (fd_reservation_safe (preopen_stdio new) (fst (reserve (preopen_stdio new))) 3
              [OpAlloc 8 0 0] 9 1) as (H1 & _ & _ & _ & H2).
  - intros i Hi. vm_compute in Hi. set_solver.
  - vm_compute. discriminate.
  - repeat constructor.
  - vm_compute. reflexivity.
  - intros i _. repeat constructor.
  - split; [exact H1|exact H2].
Defined.
