(* ===== verification/Lock.v ===== *)
(** * Advisory file locks ([crates/kernel/src/lock.rs]).

    The machine-wide [AdvisoryLockManager]: range normalization, conflict
    selection, atomic replacement with splitting and coalescing, and the owner
    removal paths, over a vector of records kept sorted by file, range, owner
    and type. *)

From S2P Require Import Prelude Abi.

(** ** Data *)

Definition MAX_ADVISORY_LOCK_RECORDS : nat := 4096.

Abbreviation OfdId := Z.

Inductive KernelFileKind := KMemFd | KSyntheticRegular | KProcFsRegular.

Inductive FileId :=
| FHost (dev ino : Z)
| FKernel (kind : KernelFileKind) (object_id : Z).

Inductive LockOwner :=
| OwnerProcess (pid : Z)
| OwnerOfd (id : OfdId)
| OwnerFlock (id : OfdId).

Inductive AdvisoryLockType := Read | Write.

Inductive LockRangeEnd := Offset (v : Z) | Eof.

Record LockRange := mkRange { start : Z; end_ : LockRangeEnd }.

Record LockRecord := mkRecord {
  file : FileId;
  owner : LockOwner;
  lock_type : AdvisoryLockType;
  range : LockRange;
}.

#[export] Instance KernelFileKind_eq_dec : EqDecision KernelFileKind.
Proof. solve_decision. Defined.
#[export] Instance FileId_eq_dec : EqDecision FileId.
Proof. solve_decision. Defined.
#[export] Instance LockOwner_eq_dec : EqDecision LockOwner.
Proof. solve_decision. Defined.
#[export] Instance AdvisoryLockType_eq_dec : EqDecision AdvisoryLockType.
Proof. solve_decision. Defined.
#[export] Instance LockRangeEnd_eq_dec : EqDecision LockRangeEnd.
Proof. solve_decision. Defined.
#[export] Instance LockRange_eq_dec : EqDecision LockRange.
Proof. solve_decision. Defined.
#[export] Instance LockRecord_eq_dec : EqDecision LockRecord.
Proof. solve_decision. Defined.

(** ** The derived orders

    [#[derive(Ord)]] compares the variant first and then the fields left to
    right: the lexicographic order on the discriminant followed by the
    fields. *)

Fixpoint lex (a b : list Z) : comparison :=
  match a, b with
  | [], [] => Eq
  | [], _ => Lt
  | _, [] => Gt
  | x :: a', y :: b' =>
      match x ?= y with Eq => lex a' b' | c => c end
  end.

Definition kind_key (k : KernelFileKind) : Z :=
  match k with KMemFd => 0 | KSyntheticRegular => 1 | KProcFsRegular => 2 end.

Definition file_key (f : FileId) : list Z :=
  match f with
  | FHost dev ino => [0; dev; ino]
  | FKernel kind object_id => [1; kind_key kind; object_id]
  end.

Definition owner_key (o : LockOwner) : list Z :=
  match o with
  | OwnerProcess pid => [0; pid]
  | OwnerOfd id => [1; id]
  | OwnerFlock id => [2; id]
  end.

Definition type_key (t : AdvisoryLockType) : list Z :=
  match t with Read => [0] | Write => [1] end.

Definition end_key (e : LockRangeEnd) : list Z :=
  match e with Offset v => [0; v] | Eof => [1; 0] end.

Definition range_key (r : LockRange) : list Z := start r :: end_key (end_ r).

Definition file_cmp (a b : FileId) : comparison := lex (file_key a) (file_key b).
Definition owner_cmp (a b : LockOwner) : comparison := lex (owner_key a) (owner_key b).
Definition type_cmp (a b : AdvisoryLockType) : comparison := lex (type_key a) (type_key b).
Definition end_cmp (a b : LockRangeEnd) : comparison := lex (end_key a) (end_key b).
Definition range_cmp (a b : LockRange) : comparison := lex (range_key a) (range_key b).

Definition is_lt (c : comparison) : bool := match c with Lt => true | _ => false end.
Definition is_eq (c : comparison) : bool := match c with Eq => true | _ => false end.

(** [Ordering::then_with]. *)
Definition then_with (c d : comparison) : comparison := match c with Eq => d | _ => c end.

Definition record_cmp (left right : LockRecord) : comparison :=
  then_with (then_with (then_with (file_cmp (file left) (file right))
                                  (range_cmp (range left) (range right)))
                       (owner_cmp (owner left) (owner right)))
            (type_cmp (lock_type left) (lock_type right)).

(** ** Owners and ranges *)

Definition is_flock (o : LockOwner) : bool :=
  match o with OwnerFlock _ => true | _ => false end.

Definition conflicts_in_namespace (self other : LockOwner) : bool :=
  Bool.eqb (is_flock self) (is_flock other).

Definition normalize (start len : Z) : kresult LockRange :=
  if start <? 0 then Err EINVAL
  else if len =? 0 then Ok (mkRange start Eof)
  else if 0 <? len then
    let? e := ok_or (i64_checked_add start len) EOVERFLOW in
    Ok (mkRange start (Offset e))
  else
    let? normalized_start := ok_or (i64_checked_add start len) EOVERFLOW in
    if normalized_start <? 0 then Err EINVAL
    else Ok (mkRange normalized_start (Offset start)).

Definition end_after (self : LockRange) (s : Z) : bool :=
  match end_ self with Offset e => s <? e | Eof => true end.

Definition start_before_end (s : Z) (e : LockRangeEnd) : bool :=
  match e with Offset v => s <? v | Eof => true end.

Definition overlaps (self other : LockRange) : bool :=
  end_after self (start other) && start_before_end (start self) (end_ other).

Definition touches_or_overlaps (self other : LockRange) : bool :=
  let self_before_or_at_other_end :=
    match end_ other with Offset e => start self <=? e | Eof => true end in
  let other_before_or_at_self_end :=
    match end_ self with Offset e => start other <=? e | Eof => true end in
  self_before_or_at_other_end && other_before_or_at_self_end.

(** [a.max(b)] of the derived order: the second argument on a tie. *)
Definition end_max (a b : LockRangeEnd) : LockRangeEnd :=
  match end_cmp a b with Gt => a | _ => b end.

Definition union (self other : LockRange) : LockRange :=
  mkRange (Z.min (start self) (start other)) (end_max (end_ self) (end_ other)).

Definition len (self : LockRange) : Z :=
  match end_ self with Offset e => e - start self | Eof => 0 end.

(** ** The manager *)

Record LockMutation := mkMutation { changed : bool; may_unblock : bool }.

Definition no_mutation : LockMutation := mkMutation false false.

(** [capacity] is the capacity of the record vector. *)
Record AdvisoryLockManager := mkManager {
  records : list LockRecord;
  capacity : nat;
}.

Definition new : AdvisoryLockManager := mkManager [] 0.

Definition set_records (m : AdvisoryLockManager) (rs : list LockRecord) : AdvisoryLockManager :=
  mkManager rs (capacity m).

Definition file_bounds (rs : list LockRecord) (f : FileId) : nat * nat :=
  let s := partition_point (fun r => is_lt (file_cmp (file r) f)) rs in
  (s, (partition_point (fun r => bool_decide (file r = f)) (drop s rs) + s)%nat).

(** [&self.records[start..end]] for the bounds of one file. *)
Definition file_slice (rs : list LockRecord) (f : FileId) : list LockRecord :=
  let '(s, e) := file_bounds rs f in take (e - s) (drop s rs).

(** The blocking condition of one stored record against a request. *)
Definition blocks (o : LockOwner) (t : AdvisoryLockType) (req : LockRange) (r : LockRecord) : bool :=
  bool_decide (owner r <> o) && conflicts_in_namespace (owner r) o
  && overlaps (range r) req
  && (bool_decide (lock_type r = Write) || bool_decide (t = Write)).

Definition get_blocking_lock (m : AdvisoryLockManager) (f : FileId) (o : LockOwner)
    (t : AdvisoryLockType) (req : LockRange) : option LockRecord :=
  find_first (blocks o t req) (file_slice (records m) f).

Definition flock_type (m : AdvisoryLockManager) (f : FileId) (id : OfdId) : option AdvisoryLockType :=
  lock_type <$> find_first (fun r => bool_decide (owner r = OwnerFlock id)) (file_slice (records m) f).

Definition insert_record (rs : list LockRecord) (r : LockRecord) : list LockRecord :=
  vec_insert (partition_point (fun e => is_lt (record_cmp e r)) rs) r rs.

(** [while target < required { target = target.saturating_mul(2).min(MAX) }]. *)
Fixpoint grow_target (fuel target required : nat) : nat :=
  match fuel with
  | O => target
  | S fuel' =>
      if (target <? required)%nat
      then grow_target fuel' (Nat.min (target * 2) MAX_ADVISORY_LOCK_RECORDS) required
      else target
  end.

(** [for read in start..end]: compact the slots that are kept towards [write],
    returning the vector and the final write index. *)
Fixpoint compact_loop (remove : LockRecord -> bool) (n read write : nat) (rs : list LockRecord) :
    list LockRecord * nat :=
  match n with
  | O => (rs, write)
  | S n' =>
      match rs !! read with
      | None => (rs, write)
      | Some r =>
          if remove r then compact_loop remove n' (S read) write rs
          else compact_loop remove n' (S read) (S write)
                 (if (write =? read)%nat then rs else <[write := r]> rs)
      end
  end.

(** The compaction followed by [self.records.drain(write..end)]. *)
Definition compact (remove : LockRecord -> bool) (s e : nat) (rs : list LockRecord) :
    list LockRecord * nat :=
  let '(rs', write) := compact_loop remove (e - s) s s rs in
  (take write rs' ++ drop e rs', write).

(** ** [set_lock] *)

(** The locals of the splitting loop. *)
Record SplitState := mkSplit {
  left_fragment : option LockRecord;
  right_fragment : option LockRecord;
  merged_request : LockRange;
  type_changed : bool;
}.

Definition with_range (r : LockRecord) (rg : LockRange) : LockRecord :=
  mkRecord (file r) (owner r) (lock_type r) rg.

Definition left_of (r : LockRecord) (req : LockRange) : LockRecord :=
  with_range r (mkRange (start (range r)) (Offset (start req))).

Definition right_of (r : LockRecord) (right_start : Z) : LockRecord :=
  with_range r (mkRange right_start (end_ (range r))).

Definition split_left (lt : option AdvisoryLockType) (req : LockRange) (r : LockRecord)
    (st : SplitState) : SplitState :=
  if start (range r) <? start req then
    let fragment := left_of r req in
    if bool_decide (lt = Some (lock_type r)) then
      mkSplit (left_fragment st) (right_fragment st)
              (union (merged_request st) (range fragment)) (type_changed st)
    else mkSplit (Some fragment) (right_fragment st) (merged_request st) (type_changed st)
  else st.

(** [requested.end < record.range.end] implies that the requested end is an
    offset, so the source's [unreachable!] arm is the [Eof] arm here. *)
Definition split_right (lt : option AdvisoryLockType) (req : LockRange) (r : LockRecord)
    (st : SplitState) : SplitState :=
  if is_lt (end_cmp (end_ req) (end_ (range r))) then
    match end_ req with
    | Eof => st
    | Offset right_start =>
        let fragment := right_of r right_start in
        if bool_decide (lt = Some (lock_type r)) then
          mkSplit (left_fragment st) (right_fragment st)
                  (union (merged_request st) (range fragment)) (type_changed st)
        else mkSplit (left_fragment st) (Some fragment) (merged_request st) (type_changed st)
    end
  else st.

Definition split_step (o : LockOwner) (lt : option AdvisoryLockType) (req : LockRange)
    (st : SplitState) (r : LockRecord) : SplitState :=
  if bool_decide (owner r <> o) || negb (overlaps (range r) req) then st
  else
    let st := split_right lt req r (split_left lt req r st) in
    match lt with
    | Some t => mkSplit (left_fragment st) (right_fragment st) (merged_request st)
                        (type_changed st || bool_decide (lock_type r <> t))
    | None => st
    end.

Definition split_slice (o : LockOwner) (lt : option AdvisoryLockType) (req : LockRange)
    (slice : list LockRecord) : SplitState :=
  foldl (split_step o lt req) (mkSplit None None req false) slice.

(** One pass of the coalescing loop. *)
Definition coalesce_step (o : LockOwner) (t : AdvisoryLockType) (merged : LockRange)
    (r : LockRecord) : LockRange :=
  if bool_decide (owner r = o) && bool_decide (lock_type r = t)
     && touches_or_overlaps (range r) merged
  then union merged (range r) else merged.

Definition coalesce_pass (o : LockOwner) (t : AdvisoryLockType) (slice : list LockRecord)
    (merged : LockRange) : LockRange :=
  foldl (coalesce_step o t) merged slice.

(** [loop { .. if merged_request == before { break } }]; a pass that changes the
    request absorbs another record, so one more pass than records is enough. *)
Fixpoint coalesce (fuel : nat) (o : LockOwner) (t : AdvisoryLockType)
    (slice : list LockRecord) (merged : LockRange) : LockRange :=
  match fuel with
  | O => merged
  | S fuel' =>
      let after := coalesce_pass o t slice merged in
      if bool_decide (after = merged) then after else coalesce fuel' o t slice after
  end.

Definition coalesced (o : LockOwner) (lt : option AdvisoryLockType)
    (slice : list LockRecord) (merged : LockRange) : LockRange :=
  match lt with
  | Some t => coalesce (S (length slice)) o t slice merged
  | None => merged
  end.

Definition should_remove (o : LockOwner) (lt : option AdvisoryLockType) (req merged : LockRange)
    (r : LockRecord) : bool :=
  if bool_decide (owner r <> o) then false
  else if overlaps (range r) req then true
  else match lt with
       | Some t => bool_decide (lock_type r = t) && touches_or_overlaps (range r) merged
       | None => false
       end.

Definition count {A} (p : A -> bool) (l : list A) : nat := length (List.filter p l).

Definition opt_count {A} (x : option A) : nat := match x with Some _ => 1 | None => 0 end.

Definition insert_opt (rs : list LockRecord) (r : option LockRecord) : list LockRecord :=
  match r with Some r => insert_record rs r | None => rs end.

Section allocator.

(** Whether the allocator grants a vector of the given capacity. *)
Variable alloc_ok : nat -> bool.

Definition ensure_capacity (m : AdvisoryLockManager) (required : nat) :
    kresult AdvisoryLockManager :=
  if (required <=? capacity m)%nat then Ok m
  else if (MAX_ADVISORY_LOCK_RECORDS <? required)%nat then Err ENOLCK
  else
    let target := grow_target required (Nat.max (capacity m) 4) required in
    if alloc_ok target then Ok (mkManager (records m) target) else Err ENOLCK.

Definition set_lock (m : AdvisoryLockManager) (f : FileId) (o : LockOwner)
    (lt : option AdvisoryLockType) (req : LockRange) : AdvisoryLockManager * kresult LockMutation :=
  let '(file_start, file_end) := file_bounds (records m) f in
  let slice := take (file_end - file_start) (drop file_start (records m)) in
  if match lt with Some t => existsb (blocks o t req) slice | None => false end
  then (m, Err EAGAIN)
  else
    let st := split_slice o lt req slice in
    let merged := coalesced o lt slice (merged_request st) in
    let remove := should_remove o lt req merged in
    let removed_count := count remove slice in
    let piece_count := (opt_count (left_fragment st) + opt_count lt
                        + opt_count (right_fragment st))%nat in
    if (removed_count =? 0)%nat && bool_decide (lt = None) then (m, Ok no_mutation)
    else
      let replacement := (fun t => mkRecord f o t merged) <$> lt in
      if (removed_count =? 1)%nat && (piece_count =? 1)%nat
         && bool_decide (left_fragment st = None) && bool_decide (right_fragment st = None)
         && match replacement with
            | Some n => bool_decide (find_first remove slice = Some n)
            | None => false
            end
      then (m, Ok no_mutation)
      else
        let final_len := (length (records m) - removed_count + piece_count)%nat in
        if (MAX_ADVISORY_LOCK_RECORDS <? final_len)%nat then (m, Err ENOLCK)
        else match ensure_capacity m final_len with
             | Err e => (m, Err e)
             | Ok m1 =>
                 let '(rs, _) := compact remove file_start file_end (records m1) in
                 let rs := insert_opt rs (left_fragment st) in
                 let rs := insert_opt rs replacement in
                 let rs := insert_opt rs (right_fragment st) in
                 (set_records m1 rs,
                  Ok (mkMutation true
                        ((bool_decide (lt = None) && negb (removed_count =? 0)%nat)
                         || type_changed st)))
             end.

End allocator.

(** ** Removal *)

Definition remove_file_owner (m : AdvisoryLockManager) (f : FileId) (o : LockOwner) :
    AdvisoryLockManager * LockMutation :=
  let '(s, e) := file_bounds (records m) f in
  let '(rs, write) := compact (fun r => bool_decide (owner r = o)) s e (records m) in
  let removed := (e - write)%nat in
  (set_records m rs, mkMutation (negb (removed =? 0)%nat) (negb (removed =? 0)%nat)).

Definition remove_process_file (m : AdvisoryLockManager) (pid : Z) (f : FileId) :=
  remove_file_owner m f (OwnerProcess pid).

(** [self.records.retain(keep)] with the mutation flags the callers build. *)
Definition retain (m : AdvisoryLockManager) (keep : LockRecord -> bool) :
    AdvisoryLockManager * LockMutation :=
  let rs := List.filter keep (records m) in
  let ch := negb (length rs =? length (records m))%nat in
  (set_records m rs, mkMutation ch ch).

Definition remove_owner (m : AdvisoryLockManager) (o : LockOwner) :=
  retain m (fun r => bool_decide (owner r <> o)).

Definition remove_process (m : AdvisoryLockManager) (pid : Z) := remove_owner m (OwnerProcess pid).

Definition owned_by_ofd (id : OfdId) (o : LockOwner) : bool :=
  match o with OwnerOfd i | OwnerFlock i => i =? id | OwnerProcess _ => false end.

Definition remove_ofd (m : AdvisoryLockManager) (id : OfdId) :=
  retain m (fun r => negb (owned_by_ofd id (owner r))).

(** ** Lemmas: the record order *)

Lemma lex_refl a : lex a a = Eq.
Proof. induction a as [|x a IH]; simpl; [done|]. by rewrite Z.compare_refl. Qed.

Lemma lex_eq a b : lex a b = Eq -> a = b.
Proof.
  revert b; induction a as [|x a IH]; intros [|y b]; simpl; try done.
  destruct (x ?= y) eqn:E; try done. apply Z.compare_eq in E as ->. intros H.
  by rewrite (IH b H).
Qed.

Lemma lex_antisym a b : lex b a = CompOpp (lex a b).
Proof.
  revert b; induction a as [|x a IH]; intros [|y b]; simpl; try done.
  rewrite (Z.compare_antisym x y). destruct (x ?= y); simpl; done.
Qed.

Lemma lex_le_trans a b c : lex a b <> Gt -> lex b c <> Gt -> lex a c <> Gt.
Proof.
  revert b c; induction a as [|x a IH]; intros [|y b] [|z c]; simpl; try done.
  destruct (Z.compare_spec x y), (Z.compare_spec y z), (Z.compare_spec x z); subst;
    try done; try lia. apply IH.
Qed.

Lemma lex_app a b c d :
  length a = length b -> lex (a ++ c) (b ++ d) = then_with (lex a b) (lex c d).
Proof.
  revert b; induction a as [|x a IH]; intros [|y b] H; simplify_eq/=; [done|].
  destruct (x ?= y); simpl; auto.
Qed.

Definition record_key (r : LockRecord) : list Z :=
  file_key (file r) ++ range_key (range r) ++ owner_key (owner r) ++ type_key (lock_type r).

Lemma file_key_inj a b : file_key a = file_key b -> a = b.
Proof. destruct a as [|[]], b as [|[]]; simpl; intros; by simplify_eq/=. Qed.

Lemma owner_key_inj a b : owner_key a = owner_key b -> a = b.
Proof. destruct a, b; simpl; intros; by simplify_eq/=. Qed.

Lemma range_key_inj a b : range_key a = range_key b -> a = b.
Proof. destruct a as [? []], b as [? []]; simpl; intros; by simplify_eq/=. Qed.

Lemma file_key_length a : length (file_key a) = 3%nat.
Proof. by destruct a. Qed.
Lemma owner_key_length a : length (owner_key a) = 2%nat.
Proof. by destruct a. Qed.
Lemma range_key_length a : length (range_key a) = 3%nat.
Proof. by destruct a as [? []]. Qed.

Lemma record_cmp_lex a b : record_cmp a b = lex (record_key a) (record_key b).
Proof.
  unfold record_cmp, record_key.
  rewrite !lex_app; rewrite ?file_key_length, ?range_key_length, ?owner_key_length; try done.
  unfold file_cmp, range_cmp, owner_cmp, type_cmp.
  by destruct (lex (file_key _) _), (lex (range_key _) _), (lex (owner_key _) _).
Qed.

Definition record_le (a b : LockRecord) : Prop := record_cmp a b <> Gt.

#[export] Instance record_le_trans : Transitive record_le.
Proof. intros a b c. unfold record_le. rewrite !record_cmp_lex. apply lex_le_trans. Qed.

Lemma record_le_total a b : is_lt (record_cmp a b) = false -> record_le b a.
Proof.
  unfold record_le. rewrite !record_cmp_lex, (lex_antisym (record_key a)).
  by destruct (lex (record_key a) _).
Qed.

Lemma record_lt_le a b : is_lt (record_cmp a b) = true -> record_le a b.
Proof. unfold record_le. by destruct (record_cmp a b). Qed.

Lemma record_le_file a b : record_le a b -> file_cmp (file a) (file b) <> Gt.
Proof. unfold record_le, record_cmp. by destruct (file_cmp _ _). Qed.

Lemma file_cmp_eq a b : file_cmp a b = Eq <-> a = b.
Proof.
  split; [by intros H%lex_eq%file_key_inj|]. intros ->. apply lex_refl.
Qed.

Lemma insert_record_sorted rs r :
  StronglySorted record_le rs -> StronglySorted record_le (insert_record rs r).
Proof.
  intros H. apply partition_insert_sorted; [apply _|done|..]; intros y _ Hy.
  - by apply record_lt_le.
  - by apply record_le_total.
Qed.

Lemma elem_of_insert_opt rs r x : x ∈ insert_opt rs r <-> r = Some x \/ x ∈ rs.
Proof.
  destruct r as [r|]; simpl; [|naive_solver].
  unfold insert_record. rewrite elem_of_vec_insert. naive_solver.
Qed.

Lemma insert_opt_length rs r : length (insert_opt rs r) = (length rs + opt_count r)%nat.
Proof. destruct r; simpl; [unfold insert_record; rewrite vec_insert_length|]; lia. Qed.

(** ** Lemmas: the records of one file *)

(** The bounds split the vector into a part before, the records of the file,
    and a part after. *)
Lemma file_bounds_split rs f s e :
  StronglySorted record_le rs -> file_bounds rs f = (s, e) ->
  (s <= e <= length rs)%nat /\
  Forall (fun r => file r <> f) (take s rs) /\
  Forall (fun r => file r = f) (take (e - s) (drop s rs)) /\
  Forall (fun r => file r <> f) (drop e rs).
Proof.
  intros Hs. unfold file_bounds. intros [= <- <-].
  set (lt := fun r => is_lt (file_cmp (file r) f)).
  set (eq := fun r => bool_decide (file r = f)).
  set (i := partition_point lt rs). set (j := partition_point eq (drop i rs)).
  pose proof (partition_point_le lt rs) as Hi. fold i in Hi.
  pose proof (partition_point_le eq (drop i rs)) as Hj. rewrite length_drop in Hj. fold j in Hj.
  assert (StronglySorted record_le (drop i rs)) as Hd.
  { rewrite <- (take_drop i rs) in Hs. by apply sorted_app in Hs as [_ Hs]. }
  assert (Forall (fun r => lt r = false) (drop i rs)) as Hge.
  { apply (partition_point_drop record_le); [done|]. intros x y _ _ Hxy. unfold lt.
    apply record_le_file in Hxy. unfold file_cmp in *.
    pose proof (lex_le_trans (file_key f) (file_key (file x)) (file_key (file y))) as Ht.
    rewrite (lex_antisym (file_key (file x)) (file_key f)) in Ht.
    rewrite (lex_antisym (file_key (file y)) (file_key f)) in Ht.
    destruct (lex (file_key (file x)) (file_key f)), (lex (file_key (file y)) (file_key f));
      simpl in *; try done; by specialize (Ht ltac:(done) Hxy). }
  split; [lia|]. split_and!.
  - eapply Forall_impl; [apply partition_point_take|]. intros r. unfold lt, is_lt. simpl.
    intros Hr Heq. rewrite (proj2 (file_cmp_eq (file r) f) Heq) in Hr. done.
  - replace (j + i - i)%nat with j by lia.
    eapply Forall_impl; [apply partition_point_take|]. intros r. unfold eq. simpl.
    by intros ?%bool_decide_eq_true.
  - rewrite Nat.add_comm, <- drop_drop.
    eapply Forall_impl; [eapply (partition_point_drop record_le eq); [done|]|].
    + intros x y Hx Hy Hxy%record_le_file. unfold eq. intros Hye%bool_decide_eq_true.
      apply bool_decide_eq_true. rewrite Hye in Hxy.
      rewrite Forall_forall in Hge. specialize (Hge x Hx). unfold lt in Hge.
      apply file_cmp_eq. by destruct (file_cmp (file x) f).
    + intros r. unfold eq. simpl. by intros ?%bool_decide_eq_false.
Qed.

Definition of_file (f : FileId) (r : LockRecord) : bool := bool_decide (file r = f).

Lemma file_bounds_filter rs f s e :
  StronglySorted record_le rs -> file_bounds rs f = (s, e) ->
  take (e - s) (drop s rs) = List.filter (of_file f) rs.
Proof.
  intros Hs Hb. destruct (file_bounds_split rs f s e Hs Hb) as (Hle & H1 & H2 & H3).
  rewrite <- (take_drop s rs) at 2. rewrite <- (take_drop (e - s) (drop s rs)) at 2.
  rewrite drop_drop, !List.filter_app. replace (s + (e - s))%nat with e by lia.
  rewrite (filter_none _ (take s rs)), (filter_none _ (drop e rs)), app_nil_r.
  - symmetry. apply filter_all. eapply Forall_impl; [done|].
    intros r Hr. by apply bool_decide_eq_true.
  - eapply Forall_impl; [done|]. intros r Hr. by apply bool_decide_eq_false.
  - eapply Forall_impl; [done|]. intros r Hr. by apply bool_decide_eq_false.
Qed.

(** The in-place compaction removes exactly the selected records. *)
Lemma compact_loop_spec p pre g mid post :
  exists g', length g' = (length g + count p mid)%nat /\
  compact_loop p (length mid) (length (pre ++ g)) (length pre) (pre ++ g ++ mid ++ post) =
  (pre ++ List.filter (fun r => negb (p r)) mid ++ g' ++ post,
   length (pre ++ List.filter (fun r => negb (p r)) mid)).
Proof.
  revert pre g. induction mid as [|r mid IH]; intros pre g; simpl.
  { exists g. unfold count. simpl. split; [lia|]. by rewrite app_nil_r. }
  assert ((pre ++ g ++ r :: mid ++ post) !! length (pre ++ g) = Some r) as ->.
  { rewrite (assoc_L (++)). by apply list_lookup_middle. }
  unfold count in *. simpl. destruct (p r); simpl.
  - destruct (IH pre (g ++ [r])) as (g' & Hg & Heq). rewrite length_app in Hg. simpl in Hg.
    exists g'. split; [lia|]. rewrite <- Heq. f_equal.
    + rewrite !length_app. simpl. lia.
    + by rewrite <- !(assoc_L (++)).
  - rewrite length_app.
    assert (exists h, length h = length g /\
      (if (length pre =? length pre + length g)%nat then pre ++ g ++ r :: mid ++ post
       else <[length pre := r]> (pre ++ g ++ r :: mid ++ post)) = (pre ++ [r]) ++ h ++ mid ++ post)
      as (h & Hh & ->).
    { destruct g as [|x g]; simpl.
      - exists []. rewrite Nat.add_0_r, Nat.eqb_refl. split; [done|]. by rewrite <- (assoc_L (++)).
      - exists (g ++ [r]). rewrite length_app. simpl. split; [lia|].
        rewrite (proj2 (Nat.eqb_neq _ _)) by lia.
        rewrite insert_app_r_alt, Nat.sub_diag by lia. simpl. by rewrite <- !(assoc_L (++)). }
    destruct (IH (pre ++ [r]) h) as (g' & Hg & Heq). rewrite !length_app in Heq. simpl in Heq.
    exists g'. split; [lia|]. rewrite Hh in Heq.
    replace (S (length pre + length g)) with (length pre + 1 + length g)%nat by lia.
    replace (S (length pre)) with (length pre + 1)%nat by lia. rewrite Heq.
    rewrite !length_app. simpl. f_equal; [by rewrite <- !(assoc_L (++))|lia].
Qed.

Lemma compact_spec p f rs s e :
  StronglySorted record_le rs -> file_bounds rs f = (s, e) ->
  compact p s e rs =
  (List.filter (fun r => negb (of_file f r && p r)) rs,
   (e - count p (List.filter (of_file f) rs))%nat).
Proof.
  intros Hs Hb. pose proof (file_bounds_filter rs f s e Hs Hb) as Hslice.
  destruct (file_bounds_split rs f s e Hs Hb) as (Hle & H1 & H2 & H3).
  assert (rs = take s rs ++ [] ++ List.filter (of_file f) rs ++ drop e rs) as Hrs.
  { rewrite <- Hslice. simpl. rewrite <- (take_drop s rs) at 1.
    rewrite <- (take_drop (e - s) (drop s rs)) at 1.
    rewrite drop_drop. by replace (s + (e - s))%nat with e by lia. }
  assert (length (List.filter (of_file f) rs) = (e - s)%nat) as Hlen.
  { rewrite <- Hslice, length_take, length_drop. lia. }
  assert (length (take s rs) = s) as Hlt by (rewrite length_take; lia).
  unfold compact.
  destruct (compact_loop_spec p (take s rs) [] (List.filter (of_file f) rs) (drop e rs))
    as (g' & Hg & Heq).
  rewrite app_nil_r, Hlt, Hlen, <- Hrs in Heq. rewrite Heq. clear Heq.
  set (mid := List.filter (of_file f) rs) in *.
  pose proof (filter_length_split p mid) as Hsplit. unfold count in *. simpl in Hg.
  rewrite length_app, Hlt. f_equal; [|lia].
  rewrite (assoc_L (++)), take_app_length' by (rewrite length_app; lia).
  rewrite (assoc_L (++) _ g'), drop_app_length' by (rewrite !length_app; lia).
  rewrite Hrs at 3. simpl. rewrite !List.filter_app, <- (assoc_L (++)).
  rewrite (filter_all _ (take s rs)), (filter_all _ (drop e rs)).
  - f_equal. f_equal. unfold mid. rewrite !filter_and. apply filter_ext_elem.
    intros x _. by destruct (of_file f x), (p x).
  - eapply Forall_impl; [done|]. intros r Hr. unfold of_file. simpl.
    by rewrite bool_decide_eq_false_2.
  - eapply Forall_impl; [done|]. intros r Hr. unfold of_file. simpl.
    by rewrite bool_decide_eq_false_2.
Qed.

(** ** Specification: bytes held *)

(** Offset [off] lies in a range. *)
Definition covers (r : LockRange) (off : Z) : bool :=
  (start r <=? off) && start_before_end off (end_ r).

(** The lock [o] holds on byte [off] of [f]. *)
Definition lock_at (rs : list LockRecord) (f : FileId) (o : LockOwner) (off : Z) :
    option AdvisoryLockType :=
  lock_type <$>
  find_first (fun r => bool_decide (file r = f) && bool_decide (owner r = o) && covers (range r) off) rs.

(** A normalized non-empty range of file offsets. *)
Definition valid_range (r : LockRange) : Prop :=
  0 <= start r <= i64_max /\
  match end_ r with Offset e => start r < e <= i64_max | Eof => True end.

(** Two records of one file: an owner's ranges are disjoint and coalesced, and
    owners of one namespace share a byte only when both locks are read locks. *)
Definition compat (a b : LockRecord) : Prop :=
  file a = file b ->
  (owner a = owner b ->
     overlaps (range a) (range b) = false /\
     (lock_type a = lock_type b -> touches_or_overlaps (range a) (range b) = false)) /\
  (owner a <> owner b -> conflicts_in_namespace (owner a) (owner b) = true ->
     overlaps (range a) (range b) = true -> lock_type a = Read /\ lock_type b = Read).

Record records_wf (rs : list LockRecord) : Prop := {
  wf_sorted : StronglySorted record_le rs;
  wf_nodup : NoDup rs;
  wf_valid : forall r, r ∈ rs -> valid_range (range r);
  wf_compat : forall a b, a ∈ rs -> b ∈ rs -> a <> b -> compat a b;
}.

Definition lock_wf (m : AdvisoryLockManager) : Prop :=
  records_wf (records m) /\
  (length (records m) <= capacity m <= MAX_ADVISORY_LOCK_RECORDS)%nat.

(** The request of [o] for [t] on [req] meets a conflicting byte. *)
Definition conflict (rs : list LockRecord) (f : FileId) (o : LockOwner) (t : AdvisoryLockType)
    (req : LockRange) : Prop :=
  exists o' off t', o' <> o /\ conflicts_in_namespace o' o = true /\ 0 <= off <= i64_max /\
    covers req off = true /\ lock_at rs f o' off = Some t' /\ (t' = Write \/ t = Write).

(** ** Lemmas: range arithmetic

    Ends are mapped to integers with end-of-file above every offset, which
    turns the range operations into linear arithmetic. *)

Definition eof_pos : Z := 2 ^ 64.
Arguments eof_pos : simpl never.

Definition ez (e : LockRangeEnd) : Z := match e with Offset v => v | Eof => eof_pos end.

Definition valid_end (e : LockRangeEnd) : Prop :=
  match e with Offset v => v <= i64_max | Eof => True end.

Lemma i64_max_lt : i64_max < eof_pos.
Proof. unfold i64_max, eof_pos. lia. Qed.

Lemma valid_range_spec r :
  valid_range r <-> 0 <= start r <= i64_max /\ start r < ez (end_ r) /\ valid_end (end_ r).
Proof.
  unfold valid_range, valid_end, ez. pose proof i64_max_lt. destruct (end_ r); split; intros; lia.
Qed.

Lemma covers_spec r off :
  0 <= off <= i64_max -> covers r off = true <-> start r <= off < ez (end_ r).
Proof.
  intros Hoff. pose proof i64_max_lt. unfold covers, start_before_end, ez.
  rewrite andb_true_iff. destruct (end_ r); lia.
Qed.

Lemma overlaps_spec a b :
  valid_range a -> valid_range b ->
  overlaps a b = true <-> start b < ez (end_ a) /\ start a < ez (end_ b).
Proof.
  intros Ha Hb. pose proof i64_max_lt. destruct Ha as [Ha _], Hb as [Hb _].
  unfold overlaps, end_after, start_before_end, ez. rewrite andb_true_iff.
  destruct (end_ a), (end_ b); lia.
Qed.

Lemma touches_spec a b :
  valid_range a -> valid_range b ->
  touches_or_overlaps a b = true <-> start a <= ez (end_ b) /\ start b <= ez (end_ a).
Proof.
  intros Ha Hb. pose proof i64_max_lt. destruct Ha as [Ha _], Hb as [Hb _].
  unfold touches_or_overlaps, ez. rewrite andb_true_iff.
  destruct (end_ a), (end_ b); lia.
Qed.

Lemma end_cmp_spec a b :
  valid_end a -> valid_end b -> end_cmp a b = (ez a ?= ez b).
Proof.
  pose proof i64_max_lt. unfold end_cmp, valid_end, ez.
  destruct a as [v|], b as [w|]; intros Ha Hb.
  - simpl. by destruct (v ?= w).
  - change (Lt = (v ?= eof_pos)). destruct (Z.compare_spec v eof_pos); [lia|done|lia].
  - change (Gt = (eof_pos ?= w)). destruct (Z.compare_spec eof_pos w); [lia|lia|done].
  - by rewrite Z.compare_refl.
Qed.

Lemma end_max_spec a b :
  valid_end a -> valid_end b -> ez (end_max a b) = Z.max (ez a) (ez b) /\ valid_end (end_max a b).
Proof.
  intros Ha Hb. unfold end_max. rewrite end_cmp_spec by done.
  destruct (Z.compare_spec (ez a) (ez b)); split; try done; lia.
Qed.

Lemma ez_inj a b : valid_end a -> valid_end b -> ez a = ez b -> a = b.
Proof.
  pose proof i64_max_lt. unfold valid_end, ez. destruct a, b; intros; try done; try lia.
  by subst.
Qed.

Lemma union_spec a b :
  valid_range a -> valid_range b ->
  valid_range (union a b) /\
  start (union a b) = Z.min (start a) (start b) /\
  ez (end_ (union a b)) = Z.max (ez (end_ a)) (ez (end_ b)).
Proof.
  rewrite !valid_range_spec. intros (? & ? & Ha) (? & ? & Hb).
  destruct (end_max_spec _ _ Ha Hb) as [E V].
  unfold union; simpl. rewrite E. repeat split; try lia; done.
Qed.

Lemma range_eq a b :
  valid_range a -> valid_range b -> start a = start b -> ez (end_ a) = ez (end_ b) -> a = b.
Proof.
  rewrite !valid_range_spec. destruct a as [s e], b as [s' e']; simpl.
  intros (_ & _ & Ha) (_ & _ & Hb) -> He. by rewrite (ez_inj _ _ Ha Hb He).
Qed.

Lemma overlaps_sym a b : overlaps a b = overlaps b a.
Proof.
  unfold overlaps, end_after, start_before_end. destruct (end_ a), (end_ b); simpl;
    rewrite ?andb_true_r; try done; apply andb_comm.
Qed.

Lemma touches_sym a b : touches_or_overlaps a b = touches_or_overlaps b a.
Proof. unfold touches_or_overlaps. apply andb_comm. Qed.

Lemma namespace_sym a b : conflicts_in_namespace a b = conflicts_in_namespace b a.
Proof. unfold conflicts_in_namespace. by destruct (is_flock a), (is_flock b). Qed.

Lemma compat_sym a b : compat a b -> compat b a.
Proof.
  intros H Hf. destruct (H (eq_sym Hf)) as [H1 H2]. split.
  - intros Ho. destruct (H1 (eq_sym Ho)) as [H3 H4].
    rewrite overlaps_sym, touches_sym. split; [done|]. intros Ht. by apply H4.
  - intros Ho Hn Hov. rewrite overlaps_sym in Hov. rewrite namespace_sym in Hn.
    destruct (H2 (not_eq_sym Ho) Hn Hov). done.
Qed.

(** Overlapping is sharing a byte. *)
Lemma overlaps_witness a b :
  valid_range a -> valid_range b -> overlaps a b = true ->
  exists off, 0 <= off <= i64_max /\ covers a off = true /\ covers b off = true.
Proof.
  intros Ha Hb Hov. apply overlaps_spec in Hov; [|done..].
  rewrite valid_range_spec in Ha, Hb. exists (Z.max (start a) (start b)).
  assert (0 <= Z.max (start a) (start b) <= i64_max) as Hoff by lia.
  split; [done|]. rewrite !covers_spec by done. lia.
Qed.

Lemma overlaps_covers a b off :
  valid_range a -> valid_range b -> 0 <= off <= i64_max ->
  covers a off = true -> covers b off = true -> overlaps a b = true.
Proof.
  intros Ha Hb Hoff. rewrite !covers_spec, overlaps_spec by done. lia.
Qed.

(** ** Lemmas: coalescing *)

(** [a] lies inside [b]. *)
Definition within (a b : LockRange) : bool :=
  (start b <=? start a) && (ez (end_ a) <=? ez (end_ b)).

Lemma within_spec a b : within a b = true <-> start b <= start a /\ ez (end_ a) <= ez (end_ b).
Proof. unfold within. rewrite andb_true_iff. lia. Qed.

Lemma within_trans a b c : within a b = true -> within b c = true -> within a c = true.
Proof. rewrite !within_spec. lia. Qed.

Lemma within_refl a : within a a = true.
Proof. rewrite within_spec. lia. Qed.

Lemma within_antisym a b :
  valid_range a -> valid_range b -> within a b = true -> within b a = true -> a = b.
Proof. rewrite !within_spec. intros. apply range_eq; [done|done|lia|lia]. Qed.

Lemma within_covers a b off :
  0 <= off <= i64_max -> within a b = true -> covers a off = true -> covers b off = true.
Proof. intros Hoff. rewrite within_spec, !covers_spec by done. lia. Qed.

(** ** Lemmas: the loops *)

(** A loop whose body answers the next state, or [None] to leave: it ends in
    [y] when started in [x]. *)
Inductive runs_to {A} (body : A -> option A) : A -> A -> Prop :=
| runs_stop x : body x = None -> runs_to body x x
| runs_step x y z : body x = Some y -> runs_to body y z -> runs_to body x z.

(** The coalescing loop of [set_lock] and the growing loop of [ensure_capacity],
    without fuel. *)
Definition coalesce_body (o : LockOwner) (t : AdvisoryLockType) (slice : list LockRecord)
    (before : LockRange) : option LockRange :=
  let merged := coalesce_pass o t slice before in
  if bool_decide (merged = before) then None else Some merged.

Definition grow_body (required target : nat) : option nat :=
  if (target <? required)%nat then Some (Nat.min (target * 2) MAX_ADVISORY_LOCK_RECORDS) else None.

Section coalescing.

Variables (o : LockOwner) (t : AdvisoryLockType) (slice : list LockRecord).
Hypothesis slice_valid : forall r, r ∈ slice -> valid_range (range r).

Definition own_t (r : LockRecord) : bool :=
  bool_decide (owner r = o) && bool_decide (lock_type r = t).

(** Every byte of [M] is requested or already held by the owner with type
    [t]. *)
Definition sound (req M : LockRange) : Prop :=
  forall off, 0 <= off <= i64_max -> covers M off = true ->
    covers req off = true \/
    exists r, r ∈ slice /\ own_t r = true /\ covers (range r) off = true.

Lemma sound_union req M R :
  valid_range M -> valid_range R -> touches_or_overlaps R M = true ->
  sound req M -> sound req R -> sound req (union M R).
Proof.
  intros HM HR Ht SM SR off Hoff Hc.
  destruct (union_spec M R HM HR) as (_ & Hs & He).
  apply touches_spec in Ht; [|done..]. rewrite covers_spec, Hs, He in Hc by done.
  destruct (covers M off) eqn:EM; [by apply SM|]. apply SR; [done|].
  rewrite covers_spec by done.
  assert (~ (start M <= off < ez (end_ M))); [|lia].
  intros H. apply (covers_spec M off Hoff) in H. congruence.
Qed.

Lemma sound_record req r :
  r ∈ slice -> own_t r = true -> sound req (range r).
Proof. intros Hr Ho off _ Hc. right. eauto. Qed.

Lemma coalesce_step_ok req M r :
  r ∈ slice -> valid_range M ->
  valid_range (coalesce_step o t M r) /\ within M (coalesce_step o t M r) = true /\
  (sound req M -> sound req (coalesce_step o t M r)).
Proof.
  intros Hr HM. unfold coalesce_step. destruct (_ && _) eqn:E.
  - bool_hyps. destruct (union_spec M (range r)) as (Hv & Hs & He); [done|by apply slice_valid|].
    split_and!; [done|rewrite within_spec; lia|]. intros Hsd.
    apply sound_union; [done|by apply slice_valid|done|done|].
    apply sound_record; [done|]. unfold own_t. by rewrite !bool_decide_eq_true_2.
  - split_and!; [done|apply within_refl|done].
Qed.

Lemma coalesce_fold_ok req l M :
  (forall r, r ∈ l -> r ∈ slice) -> valid_range M ->
  valid_range (foldl (coalesce_step o t) M l) /\
  within M (foldl (coalesce_step o t) M l) = true /\
  (sound req M -> sound req (foldl (coalesce_step o t) M l)).
Proof.
  revert M. induction l as [|r l IH]; intros M Hl HM; simpl.
  { split_and!; [done|apply within_refl|done]. }
  destruct (coalesce_step_ok req M r) as (H1 & H2 & H3); [apply Hl; by constructor|done|].
  destruct (IH (coalesce_step o t M r)) as (H4 & H5 & H6); [intros; apply Hl; by constructor|done|].
  split_and!; [done|by eapply within_trans|auto].
Qed.

(** A pass that changes the request absorbs a record that was outside it. *)
Lemma coalesce_fold_absorbs l M :
  (forall r, r ∈ l -> r ∈ slice) -> valid_range M ->
  foldl (coalesce_step o t) M l <> M ->
  exists r, r ∈ l /\ own_t r = true /\ within (range r) M = false /\
            within (range r) (foldl (coalesce_step o t) M l) = true.
Proof.
  revert M. induction l as [|r l IH]; intros M Hl HM Hne; simpl in *; [done|].
  assert (r ∈ slice) as Hr by (apply Hl; constructor).
  assert (forall r, r ∈ l -> r ∈ slice) as Hl' by (intros; apply Hl; by constructor).
  destruct (coalesce_step_ok M M r) as (H1 & H2 & _); [done..|].
  destruct (decide (coalesce_step o t M r = M)) as [Heq|Hst].
  - rewrite Heq in *. destruct (IH M) as (r' & ? & ? & ? & ?); [done..|].
    exists r'. split_and!; try done. by constructor.
  - exists r. destruct (coalesce_fold_ok M l (coalesce_step o t M r)) as (_ & H5 & _); [done..|].
    unfold coalesce_step in Hst, H5 |- *. destruct (_ && _) eqn:E; [|done]. bool_hyps.
    destruct (union_spec M (range r)) as (Hv & Hs & He); [done|by apply slice_valid|].
    split_and!; [constructor|unfold own_t; by rewrite !bool_decide_eq_true_2| |].
    + destruct (within (range r) M) eqn:W; [|done]. exfalso. apply Hst.
      apply within_spec in W. apply range_eq; [done|done|lia|lia].
    + eapply within_trans; [|exact H5]. rewrite within_spec. lia.
Qed.

(** At a fixed point every touching record of the owner and type is inside. *)
Lemma coalesce_fixed_within l M r :
  (forall r, r ∈ l -> r ∈ slice) -> valid_range M -> foldl (coalesce_step o t) M l = M ->
  r ∈ l -> own_t r = true -> touches_or_overlaps (range r) M = true ->
  within (range r) M = true.
Proof.
  revert M. induction l as [|x l IH]; intros M Hl HM Hfix Hr Ho Ht; [set_solver|].
  simpl in Hfix. assert (x ∈ slice) as Hx by (apply Hl; constructor).
  assert (forall r, r ∈ l -> r ∈ slice) as Hl' by (intros; apply Hl; by constructor).
  destruct (coalesce_step_ok M M x) as (H1 & H2 & _); [done..|].
  destruct (coalesce_fold_ok M l (coalesce_step o t M x)) as (H3 & H4 & _); [done..|].
  rewrite Hfix in H4. assert (coalesce_step o t M x = M) as Hst by by apply within_antisym.
  rewrite Hst in Hfix. apply elem_of_cons in Hr as [->|Hr]; [|by apply IH].
  unfold coalesce_step in Hst. unfold own_t in Ho. rewrite Ho, Ht in Hst. simpl in Hst.
  destruct (union_spec M (range x)) as (_ & Hs & He); [done|by apply slice_valid|].
  rewrite Hst in Hs, He. rewrite within_spec. lia.
Qed.

Definition outside (M : LockRange) (r : LockRecord) : bool := own_t r && negb (within (range r) M).

(** A pass that changes the request leaves fewer records outside. *)
Lemma coalesce_decreases M :
  valid_range M -> coalesce_pass o t slice M <> M ->
  (count (outside (coalesce_pass o t slice M)) slice < count (outside M) slice)%nat.
Proof.
  intros HM Hfix. destruct (coalesce_fold_ok M slice M) as (H1 & H2 & _); [done..|].
  destruct (coalesce_fold_absorbs slice M) as (r & Hr & Ho & Hout & Hin); [done..|].
  fold (coalesce_pass o t slice M) in *.
  apply (filter_length_lt _ _ _ r); unfold outside; [|done|by rewrite Ho, Hout|by rewrite Ho, Hin].
  intros x _ Hx. bool_hyps. apply andb_true_iff. split; [done|]. apply negb_true_iff.
  destruct (within (range x) M) eqn:W; [|done].
  by rewrite (within_trans _ _ _ W H2) in *.
Qed.

(** The loop ends, in the range [coalesce] computes. *)
Lemma coalesce_runs fuel M :
  valid_range M -> (count (outside M) slice < fuel)%nat ->
  runs_to (coalesce_body o t slice) M (coalesce fuel o t slice M).
Proof.
  revert M. induction fuel as [|fuel IH]; intros M HM Hf; [lia|]. cbn [coalesce].
  destruct (decide (coalesce_pass o t slice M = M)) as [Hfix|Hfix].
  - rewrite bool_decide_true, Hfix by done. apply runs_stop. unfold coalesce_body. by rewrite bool_decide_true.
  - rewrite bool_decide_false by done. apply (runs_step _ _ (coalesce_pass o t slice M)).
    { unfold coalesce_body. by rewrite bool_decide_false. }
    destruct (coalesce_fold_ok M slice M) as (H1 & _); [done..|].
    pose proof (coalesce_decreases M HM Hfix). apply IH; [done|lia].
Qed.

(** Enough fuel reaches the fixed point of the loop. *)
Lemma coalesce_fixpoint fuel M :
  valid_range M -> (count (outside M) slice < fuel)%nat ->
  valid_range (coalesce fuel o t slice M) /\
  within M (coalesce fuel o t slice M) = true /\
  (forall req, sound req M -> sound req (coalesce fuel o t slice M)) /\
  coalesce_pass o t slice (coalesce fuel o t slice M) = coalesce fuel o t slice M.
Proof.
  revert M. induction fuel as [|fuel IH]; intros M HM Hf; [lia|]. simpl.
  destruct (coalesce_fold_ok M slice M) as (H1 & H2 & _); [done..|].
  fold (coalesce_pass o t slice M) in H1, H2.
  case_bool_decide as Hfix.
  - rewrite Hfix. split_and!; [done|apply within_refl|done|exact Hfix].
  - pose proof (coalesce_decreases M HM Hfix).
    destruct (IH (coalesce_pass o t slice M)) as (H3 & H4 & H5 & H6); [done|lia|].
    split_and!; [done|by eapply within_trans| |done].
    intros req Hs. apply H5. by apply coalesce_fold_ok.
Qed.

End coalescing.

(** ** Lemmas: splitting *)

Section splitting.

Variables (o : LockOwner) (lt : option AdvisoryLockType) (req : LockRange).
Variable slice : list LockRecord.
Hypothesis slice_valid : forall r, r ∈ slice -> valid_range (range r).
Hypothesis req_valid : valid_range req.

(** A record of the owner that the request cuts on the left or on the right
    and whose remainder keeps its own type. *)
Definition left_src (r : LockRecord) : Prop :=
  owner r = o /\ overlaps (range r) req = true /\ start (range r) < start req /\
  lt <> Some (lock_type r).

Definition right_src (r : LockRecord) : Prop :=
  owner r = o /\ overlaps (range r) req = true /\ ez (end_ req) < ez (end_ (range r)) /\
  lt <> Some (lock_type r).

(** What the splitting loop has computed after the records [l]. *)
Record split_ok (l : list LockRecord) (st : SplitState) : Prop := {
  so_left : forall x, left_fragment st = Some x ->
    exists r, r ∈ l /\ left_src r /\ x = left_of r req;
  so_left_some : forall r, r ∈ l -> left_src r -> left_fragment st <> None;
  so_right : forall x, right_fragment st = Some x ->
    exists r s, r ∈ l /\ right_src r /\ end_ req = Offset s /\ x = right_of r s;
  so_right_some : forall r, r ∈ l -> right_src r -> right_fragment st <> None;
  so_valid : valid_range (merged_request st);
  so_within : within req (merged_request st) = true;
  so_sound : forall t, lt = Some t -> sound o t slice req (merged_request st);
  so_changed : type_changed st = true <->
    exists t r, lt = Some t /\ r ∈ l /\ owner r = o /\ overlaps (range r) req = true /\ lock_type r <> t;
}.

Lemma split_ok_nil : split_ok [] (mkSplit None None req false).
Proof.
  split; simpl; try done.
  - intros r Hr. set_solver.
  - intros r Hr. set_solver.
  - apply within_refl.
  - intros t _ off _ Hc. by left.
  - split; [done|]. intros (t & r & _ & Hr & _). set_solver.
Qed.

(** Merging a fragment of a same-type record keeps the merged request sound. *)
Lemma merge_fragment t r M R :
  r ∈ slice -> own_t o t r = true -> valid_range M -> within req M = true -> sound o t slice req M ->
  valid_range R -> within R (range r) = true -> touches_or_overlaps R req = true ->
  valid_range (union M R) /\ within req (union M R) = true /\ sound o t slice req (union M R).
Proof.
  intros Hr Ho HM HreqM HsM HR HRr Ht.
  destruct (union_spec M R HM HR) as (Hv & Hs & He).
  apply touches_spec in Ht; [|done..]. apply within_spec in HreqM.
  split_and!; [done|rewrite within_spec; lia|].
  apply sound_union; [done|done| |done|].
  - apply touches_spec; [done..|]. lia.
  - intros off Hoff Hc. right. exists r. split_and!; [done..|]. by eapply within_covers.
Qed.

Lemma end_lt_spec r :
  r ∈ slice -> is_lt (end_cmp (end_ req) (end_ (range r))) = true <-> ez (end_ req) < ez (end_ (range r)).
Proof.
  intros Hr. pose proof (slice_valid r Hr) as Hv.
  rewrite valid_range_spec in Hv. pose proof req_valid as Hq. rewrite valid_range_spec in Hq.
  rewrite end_cmp_spec by tauto. destruct (Z.compare_spec (ez (end_ req)) (ez (end_ (range r))));
    simpl; split; try done; lia.
Qed.

(** The two fragments of a cut record are valid, lie inside it and touch the
    request. *)
Lemma left_of_ok r :
  r ∈ slice -> start (range r) < start req ->
  overlaps (range r) req = true ->
  valid_range (range (left_of r req)) /\ within (range (left_of r req)) (range r) = true /\
  touches_or_overlaps (range (left_of r req)) req = true.
Proof.
  intros Hr Hlt Hov. pose proof (slice_valid r Hr) as Hv.
  apply overlaps_spec in Hov; [|done..].
  assert (valid_range (range (left_of r req))) as Hvl.
  { apply valid_range_spec. rewrite valid_range_spec in Hv.
    pose proof req_valid as Hq. rewrite valid_range_spec in Hq. simpl. lia. }
  split_and!; [done| |].
  - rewrite within_spec. simpl. lia.
  - apply touches_spec; [done..|]. simpl. rewrite valid_range_spec in Hv.
    pose proof req_valid as Hq. rewrite valid_range_spec in Hq. lia.
Qed.

Lemma right_of_ok r s :
  r ∈ slice -> end_ req = Offset s -> ez (end_ req) < ez (end_ (range r)) ->
  overlaps (range r) req = true ->
  valid_range (range (right_of r s)) /\ within (range (right_of r s)) (range r) = true /\
  touches_or_overlaps (range (right_of r s)) req = true.
Proof.
  intros Hr Hs Hlt Hov. pose proof (slice_valid r Hr) as Hv.
  apply overlaps_spec in Hov; [|done..]. rewrite Hs in *. simpl in *.
  assert (valid_range (range (right_of r s))) as Hvl.
  { apply valid_range_spec. rewrite valid_range_spec in Hv.
    pose proof req_valid as Hq. rewrite valid_range_spec, Hs in Hq. simpl in *.
    destruct Hv as (? & ? & ?). split_and!; try done; lia. }
  split_and!; [done| |].
  - rewrite within_spec. simpl. lia.
  - apply touches_spec; [done..|]. simpl. rewrite Hs. simpl. rewrite valid_range_spec in Hv.
    pose proof req_valid as Hq. rewrite valid_range_spec, Hs in Hq. simpl in *. lia.
Qed.

Lemma end_lt_offset r :
  r ∈ slice -> ez (end_ req) < ez (end_ (range r)) -> exists s, end_ req = Offset s.
Proof.
  intros Hr. pose proof (slice_valid r Hr) as Hv. rewrite valid_range_spec in Hv.
  pose proof i64_max_lt. destruct (end_ req); [eauto|]. simpl.
  intros Hlt. exfalso. destruct Hv as (_ & _ & Hv). unfold valid_end, ez in *.
  destruct (end_ (range r)); lia.
Qed.

Lemma split_step_skip l st r :
  (owner r <> o \/ overlaps (range r) req = false) -> split_ok l st -> split_ok (l ++ [r]) st.
Proof.
  intros Hskip [H1 H2 H3 H4 H5 H6 H7 H8].
  assert (forall x, x ∈ l ++ [r] -> owner x = o -> overlaps (range x) req = true -> x ∈ l) as Hin.
  { intros x Hx Ho Hov. apply elem_of_app in Hx as [Hx|Hx]; [done|].
    apply list_elem_of_singleton in Hx as ->. destruct Hskip; congruence. }
  split; try done.
  - intros x Hx. destruct (H1 x Hx) as (r' & ? & ? & ?). exists r'. set_solver.
  - intros r' Hr' Hs. apply (H2 r'); [|done]. apply Hin; [done|apply Hs..].
  - intros x Hx. destruct (H3 x Hx) as (r' & s & ? & ? & ? & ?). exists r', s. set_solver.
  - intros r' Hr' Hs. apply (H4 r'); [|done]. apply Hin; [done|apply Hs..].
  - rewrite H8. split; intros (t & r' & ? & ? & ? & ? & ?); exists t, r'; split_and!; try done.
    + set_solver.
    + by apply Hin.
Qed.

Lemma split_left_ok t r M :
  r ∈ slice -> owner r = o -> lt = Some t -> lock_type r = t ->
  start (range r) < start req -> overlaps (range r) req = true ->
  valid_range M -> within req M = true -> sound o t slice req M ->
  let M' := union M (range (left_of r req)) in
  valid_range M' /\ within req M' = true /\ sound o t slice req M'.
Proof.
  intros Hr Ho -> Ht Hlt Hov HM HreqM HsM.
  destruct (left_of_ok r) as (? & ? & ?); [done..|].
  apply (merge_fragment t r); try done. unfold own_t. by rewrite !bool_decide_eq_true_2.
Qed.

Lemma split_right_ok t r s M :
  r ∈ slice -> owner r = o -> lt = Some t -> lock_type r = t ->
  end_ req = Offset s -> ez (end_ req) < ez (end_ (range r)) -> overlaps (range r) req = true ->
  valid_range M -> within req M = true -> sound o t slice req M ->
  let M' := union M (range (right_of r s)) in
  valid_range M' /\ within req M' = true /\ sound o t slice req M'.
Proof.
  intros Hr Ho -> Ht Hs Hlt Hov HM HreqM HsM.
  destruct (right_of_ok r s) as (? & ? & ?); [done..|].
  apply (merge_fragment t r); try done. unfold own_t. by rewrite !bool_decide_eq_true_2.
Qed.

(** The left half of one iteration on a record the request overlaps: only the
    left fragment and the merged request move. *)
Lemma split_left_step r st :
  r ∈ slice -> owner r = o -> overlaps (range r) req = true ->
  valid_range (merged_request st) -> within req (merged_request st) = true ->
  (forall t, lt = Some t -> sound o t slice req (merged_request st)) ->
  let st' := split_left lt req r st in
  right_fragment st' = right_fragment st /\ type_changed st' = type_changed st /\
  valid_range (merged_request st') /\ within req (merged_request st') = true /\
  (forall t, lt = Some t -> sound o t slice req (merged_request st')) /\
  ((left_src r /\ left_fragment st' = Some (left_of r req)) \/
   (~ left_src r /\ left_fragment st' = left_fragment st)).
Proof.
  intros Hr Ho Hov HM HreqM HsM. unfold split_left.
  destruct (Z.ltb_spec (start (range r)) (start req)) as [Hlt|Hge]; simpl.
  2:{ split_and!; try done. right. split; [|done]. intros (_ & _ & ? & _). lia. }
  case_bool_decide as Ht; simpl.
  - destruct (split_left_ok (lock_type r) r (merged_request st)) as (? & ? & ?);
      [by auto..|]. split_and!; try done.
    + intros t Hlt'. by simplify_eq.
    + right. split; [|done]. by intros (_ & _ & _ & ?).
  - split_and!; try done. by left.
Qed.

Lemma split_right_step r st :
  r ∈ slice -> owner r = o -> overlaps (range r) req = true ->
  valid_range (merged_request st) -> within req (merged_request st) = true ->
  (forall t, lt = Some t -> sound o t slice req (merged_request st)) ->
  let st' := split_right lt req r st in
  left_fragment st' = left_fragment st /\ type_changed st' = type_changed st /\
  valid_range (merged_request st') /\ within req (merged_request st') = true /\
  (forall t, lt = Some t -> sound o t slice req (merged_request st')) /\
  ((right_src r /\ exists s, end_ req = Offset s /\ right_fragment st' = Some (right_of r s)) \/
   (~ right_src r /\ right_fragment st' = right_fragment st)).
Proof.
  intros Hr Ho Hov HM HreqM HsM. unfold split_right.
  destruct (is_lt _) eqn:El.
  2:{ split_and!; try done. right. split; [|done]. intros (_ & _ & Hlt & _).
      apply (end_lt_spec r Hr) in Hlt. congruence. }
  apply (end_lt_spec r Hr) in El. destruct (end_lt_offset r Hr El) as [s Hs].
  rewrite Hs. case_bool_decide as Ht; simpl.
  - destruct (split_right_ok (lock_type r) r s (merged_request st)) as (? & ? & ?);
      [by auto..|]. split_and!; try done.
    + intros t Hlt'. by simplify_eq.
    + right. split; [|done]. by intros (_ & _ & _ & ?).
  - split_and!; try done. left. split; [done|]. by exists s.
Qed.

Lemma split_step_ok l st r :
  r ∈ slice -> split_ok l st -> split_ok (l ++ [r]) (split_step o lt req st r).
Proof.
  intros Hr Hok. unfold split_step. destruct (_ || _) eqn:E.
  { apply split_step_skip; [|done]. apply orb_true_iff in E as [E|E].
    - left. by apply bool_decide_eq_true in E.
    - right. by apply negb_true_iff in E. }
  apply orb_false_iff in E as [Eo Eov]. apply bool_decide_eq_false, dec_stable in Eo.
  apply negb_false_iff in Eov. destruct Hok as [H1 H2 H3 H4 H5 H6 H7 H8].
  destruct (split_left_step r st) as (L1 & L2 & L3 & L4 & L5 & L6); [done..|].
  set (st1 := split_left lt req r st) in *.
  destruct (split_right_step r st1) as (R1 & R2 & R3 & R4 & R5 & R6); [done..|].
  set (st2 := split_right lt req r st1) in *.
  assert (forall P : LockRecord -> Prop, (exists x, x ∈ l /\ P x) -> exists x, x ∈ l ++ [r] /\ P x) as Hex.
  { intros P (x & Hx & HP). exists x. set_solver. }
  assert (r ∈ l ++ [r]) as Hrl by set_solver.
  assert (split_ok (l ++ [r]) (mkSplit (left_fragment st2) (right_fragment st2) (merged_request st2)
     (match lt with Some t => type_changed st2 || bool_decide (lock_type r <> t) | None => type_changed st2 end)))
    as Hfin; [|by destruct lt, st2].
  split; simpl; try done.
  - intros x Hx. rewrite R1 in Hx. destruct L6 as [[Hs Hl]|[Hs Hl]].
    + exists r. rewrite Hl in Hx. by simplify_eq.
    + rewrite Hl in Hx. destruct (H1 x Hx) as (r' & ? & ? & ?). exists r'. set_solver.
  - intros r' Hr' Hs'. rewrite R1. destruct L6 as [[Hs ->]|[Hs ->]]; [done|].
    apply elem_of_app in Hr' as [Hr'|Hr']; [by apply (H2 r')|].
    apply list_elem_of_singleton in Hr' as ->. done.
  - intros x Hx. destruct R6 as [(Hs & s & He & Hl)|[Hs Hl]].
    + exists r, s. rewrite Hl in Hx. by simplify_eq.
    + rewrite Hl, L1 in Hx. destruct (H3 x Hx) as (r' & s & ? & ? & ? & ?). exists r', s. set_solver.
  - intros r' Hr' Hs'. destruct R6 as [(Hs & s & He & Hl)|[Hs Hl]]; rewrite Hl; [done|].
    rewrite L1. apply elem_of_app in Hr' as [Hr'|Hr']; [by apply (H4 r')|].
    apply list_elem_of_singleton in Hr' as ->. done.
  - rewrite R2, L2. split.
    + destruct lt as [t|]; [|rewrite H8; intros (? & ? & ? & _); done].
      rewrite orb_true_iff, H8, bool_decide_eq_true.
      intros [(t' & r' & ? & ? & ? & ? & ?)|?]; [exists t', r'|exists t, r]; set_solver.
    + intros (t & r' & Hlt & Hr' & ? & ? & ?). rewrite Hlt, orb_true_iff, H8, bool_decide_eq_true.
      apply elem_of_app in Hr' as [Hr'|Hr']; [left; by exists t, r'|].
      apply list_elem_of_singleton in Hr' as ->. by right.
Qed.

Lemma split_slice_ok l :
  (forall r, r ∈ l -> r ∈ slice) -> split_ok l (split_slice o lt req l).
Proof.
  unfold split_slice. induction l as [|r l IH] using rev_ind; intros Hl; [apply split_ok_nil|].
  rewrite foldl_app. simpl. apply split_step_ok; [apply Hl; set_solver|].
  apply IH. intros; apply Hl; set_solver.
Qed.

End splitting.

(** ** Lemmas: the record invariant *)

Lemma valid_overlaps_self r : valid_range r -> overlaps r r = true.
Proof. intros H. apply overlaps_spec; [done..|]. rewrite valid_range_spec in H. lia. Qed.

Lemma overlaps_touches a b :
  valid_range a -> valid_range b -> overlaps a b = true -> touches_or_overlaps a b = true.
Proof. intros Ha Hb. rewrite overlaps_spec, touches_spec by done. lia. Qed.

(** Shrinking a record keeps it compatible. *)
Lemma compat_within p r k :
  valid_range (range p) -> valid_range (range r) -> valid_range (range k) ->
  within (range p) (range r) = true ->
  file p = file r -> owner p = owner r -> lock_type p = lock_type r ->
  compat r k -> compat p k.
Proof.
  intros Hp Hr Hk Hw Hf Ho Ht Hc Hpk. rewrite Hf in Hpk. destruct (Hc Hpk) as [H1 H2].
  apply within_spec in Hw.
  assert (overlaps (range p) (range k) = true -> overlaps (range r) (range k) = true) as Hmono.
  { rewrite !overlaps_spec by done. lia. }
  rewrite Ho, Ht. split.
  - intros Hok. destruct (H1 Hok) as [H3 H4]. split.
    + destruct (overlaps (range p) (range k)); [|done]. rewrite Hmono in H3; done.
    + intros Htk. specialize (H4 Htk). apply not_true_iff_false. apply not_true_iff_false in H4.
      contradict H4. rewrite touches_spec in * by done. lia.
  - intros Hok Hn Hov. by apply H2, Hmono.
Qed.

(** Two records of one owner that overlap, or share a byte, are the same
    record. *)
Lemma wf_overlap_eq rs a b :
  records_wf rs -> a ∈ rs -> b ∈ rs -> file a = file b -> owner a = owner b ->
  overlaps (range a) (range b) = true -> a = b.
Proof.
  intros Hwf Ha Hb Hf Ho Hov. destruct (decide (a = b)) as [|Hne]; [done|].
  destruct (wf_compat rs Hwf a b Ha Hb Hne Hf) as [H1 _]. destruct (H1 Ho). congruence.
Qed.

Lemma wf_same_owner rs a b off :
  records_wf rs -> a ∈ rs -> b ∈ rs -> file a = file b -> owner a = owner b ->
  0 <= off <= i64_max -> covers (range a) off = true -> covers (range b) off = true -> a = b.
Proof.
  intros Hwf Ha Hb Hf Ho Hoff Hca Hcb. apply (wf_overlap_eq rs); try done.
  apply (overlaps_covers _ _ off); try done; by eapply wf_valid.
Qed.

Lemma should_remove_true o lt req M r :
  should_remove o lt req M r = true <->
  owner r = o /\
  (overlaps (range r) req = true \/
   exists t, lt = Some t /\ lock_type r = t /\ touches_or_overlaps (range r) M = true).
Proof.
  unfold should_remove. case_bool_decide as Ho; [naive_solver|].
  destruct (overlaps (range r) req); [naive_solver|].
  destruct lt as [t|]; [rewrite andb_true_iff, bool_decide_eq_true|]; naive_solver.
Qed.

Lemma records_wf_nil : records_wf [].
Proof.
  split; [constructor|constructor| |].
  - intros r Hr. by apply not_elem_of_nil in Hr.
  - intros a b Ha. by apply not_elem_of_nil in Ha.
Qed.

Lemma records_wf_filter q rs : records_wf rs -> records_wf (List.filter q rs).
Proof.
  intros [H1 H2 H3 H4]. split.
  - by apply sorted_filter.
  - apply NoDup_ListNoDup, List.NoDup_filter. by apply NoDup_ListNoDup.
  - intros r [Hr _]%elem_of_filter_bool. by apply H3.
  - intros a b [Ha _]%elem_of_filter_bool [Hb _]%elem_of_filter_bool. by apply H4.
Qed.

Lemma records_wf_insert rs p :
  records_wf rs -> valid_range (range p) -> (forall k, k ∈ rs -> compat p k) ->
  records_wf (insert_record rs p).
Proof.
  intros [H1 H2 H3 H4] Hv Hc.
  assert (p ∉ rs) as Hp.
  { intros Hp. destruct (Hc p Hp eq_refl) as [Hself _]. destruct (Hself eq_refl) as [Hov _].
    by rewrite valid_overlaps_self in Hov. }
  split.
  - by apply insert_record_sorted.
  - unfold insert_record. rewrite vec_insert_perm. by constructor.
  - intros r. unfold insert_record. rewrite elem_of_vec_insert. intros [->|Hr]; auto.
  - intros a b. unfold insert_record. rewrite !elem_of_vec_insert.
    intros [->|Ha] [->|Hb] Hne; [done| | |]; auto using compat_sym.
Qed.

Lemma records_wf_insert_opt rs po :
  records_wf rs ->
  (forall p, po = Some p -> valid_range (range p) /\ forall k, k ∈ rs -> compat p k) ->
  records_wf (insert_opt rs po).
Proof.
  intros Hwf Hp. destruct po as [p|]; simpl; [|done].
  destruct (Hp p eq_refl). by apply records_wf_insert.
Qed.

(** What [lock_at] reads off a well-formed record vector. *)
Lemma lock_at_Some rs f o off t :
  records_wf rs -> 0 <= off <= i64_max ->
  lock_at rs f o off = Some t <->
  exists r, r ∈ rs /\ file r = f /\ owner r = o /\ covers (range r) off = true /\ lock_type r = t.
Proof.
  intros Hwf Hoff. unfold lock_at. split.
  - intros (r & Hr & Ht)%fmap_Some. apply find_first_Some in Hr as [Hr Hp].
    bool_hyps. exists r. done.
  - intros (r & Hr & Hf & Ho & Hc & Ht).
    destruct (find_first _ rs) as [r'|] eqn:E.
    + apply find_first_Some in E as [Hr' Hp]. bool_hyps.
      rewrite (wf_same_owner rs r' r off); try done; try congruence. by rewrite <- Ht.
    + rewrite find_first_None in E. specialize (E r Hr). simpl in E.
      by rewrite !bool_decide_eq_true_2, Hc in E.
Qed.

Lemma lock_at_ext rs f o off (x : option AdvisoryLockType) :
  (forall t, lock_at rs f o off = Some t <-> x = Some t) -> lock_at rs f o off = x.
Proof.
  intros H. destruct (lock_at rs f o off) as [t|], x as [t'|]; try done.
  - symmetry. by apply H.
  - symmetry. by apply (H t).
  - by apply (H t').
Qed.

Lemma conflict_blocks rs f o t req :
  records_wf rs -> valid_range req ->
  conflict rs f o t req <-> exists r, r ∈ List.filter (of_file f) rs /\ blocks o t req r = true.
Proof.
  intros Hwf Hreq. unfold conflict, blocks. split.
  - intros (o' & off & t' & Ho & Hn & Hoff & Hc & Hl & Ht).
    apply lock_at_Some in Hl as (r & Hr & Hf & Hor & Hcr & Htr); [|done..].
    exists r. rewrite elem_of_filter_bool. unfold of_file. subst.
    rewrite !bool_decide_eq_true_2, Hn by done. split; [done|]. simpl.
    rewrite (overlaps_covers (range r) req off) by (done || by eapply wf_valid). simpl.
    apply orb_true_iff. rewrite !bool_decide_eq_true. done.
  - intros (r & Hr & Hb). apply elem_of_filter_bool in Hr as [Hr Hf]. bool_hyps.
    unfold of_file in Hf. bool_hyps.
    destruct (overlaps_witness (range r) req) as (off & Hoff & Hc1 & Hc2);
      [by eapply wf_valid|done|done|].
    exists (owner r), off, (lock_type r). split_and!; try done; try lia.
    + apply lock_at_Some; [done..|]. by exists r.
    + match goal with H : _ || _ = true |- _ => apply orb_true_iff in H end.
      by rewrite !bool_decide_eq_true in *.
Qed.

(** ** Lemmas: the replacement computed by [set_lock] *)

Section replacing.

Variables (rs : list LockRecord) (f : FileId) (o : LockOwner).
Variables (lt : option AdvisoryLockType) (req : LockRange).
Hypothesis Hwf : records_wf rs.
Hypothesis Hreq : valid_range req.

Let slice := List.filter (of_file f) rs.

Hypothesis Hfree : forall t r, lt = Some t -> r ∈ slice -> blocks o t req r = false.

Let st := split_slice o lt req slice.
Let M := coalesced o lt slice (merged_request st).
Let rm := should_remove o lt req M.
Let kept := List.filter (fun r => negb (of_file f r && rm r)) rs.
Let repl := (fun t => mkRecord f o t M) <$> lt.

Lemma slice_elem r : r ∈ slice <-> r ∈ rs /\ file r = f.
Proof. unfold slice. rewrite elem_of_filter_bool. unfold of_file. by rewrite bool_decide_eq_true. Qed.

Lemma slice_ranges r : r ∈ slice -> valid_range (range r).
Proof. intros [Hr _]%slice_elem. by eapply wf_valid. Qed.

Lemma st_ok : split_ok o lt req slice slice st.
Proof. apply split_slice_ok; [apply slice_ranges|done|done]. Qed.

(** The merged range: valid, containing the request, made only of requested
    bytes and bytes already held with the requested type, and closed under
    touching records of that type. *)
Lemma merged_ok :
  valid_range M /\ within req M = true /\
  forall t, lt = Some t ->
    sound o t slice req M /\
    forall r, r ∈ slice -> own_t o t r = true -> touches_or_overlaps (range r) M = true ->
              within (range r) M = true.
Proof.
  pose proof st_ok as [_ _ _ _ Hv Hw Hs _]. unfold M, coalesced.
  destruct lt as [t|]; [|done].
  destruct (coalesce_fixpoint o t slice slice_ranges (S (length slice)) (merged_request st))
    as (H1 & H2 & H3 & H4); [done|pose proof (filter_length_le (outside o t (merged_request st)) slice);
    unfold count; lia|].
  split_and!; [done|by eapply within_trans|]. intros t' [= <-]. split; [by apply H3, Hs|].
  intros r Hr Ho Ht. by apply (coalesce_fixed_within o t slice slice_ranges slice).
Qed.

Lemma kept_elem k : k ∈ kept <-> k ∈ rs /\ (file k = f -> rm k = false).
Proof.
  unfold kept. rewrite elem_of_filter_bool. unfold of_file.
  case_bool_decide; simpl; [rewrite negb_true_iff|]; naive_solver.
Qed.

(** A kept record of the owner misses the request, and misses the merged range
    when it has the requested type. *)
Lemma kept_own k :
  k ∈ kept -> file k = f -> owner k = o ->
  overlaps (range k) req = false /\
  forall t, lt = Some t -> lock_type k = t -> touches_or_overlaps (range k) M = false.
Proof.
  intros [Hk Hrm]%kept_elem Hf Ho. specialize (Hrm Hf). unfold rm, should_remove in Hrm.
  rewrite bool_decide_eq_false_2 in Hrm by (intros H; by apply H).
  destruct (overlaps (range k) req); [done|]. split; [done|]. intros t Hlt Ht.
  rewrite Hlt, bool_decide_eq_true_2 in Hrm by done. done.
Qed.

(** The record a fragment was cut from. *)
Definition cut_from (p r : LockRecord) : Prop :=
  r ∈ slice /\ owner r = o /\ overlaps (range r) req = true /\ lt <> Some (lock_type r) /\
  file p = f /\ owner p = o /\ lock_type p = lock_type r /\
  valid_range (range p) /\ within (range p) (range r) = true /\ overlaps (range p) req = false.

Lemma left_cut p :
  left_fragment st = Some p ->
  exists r, cut_from p r /\ end_ (range p) = Offset (start req).
Proof.
  intros Hp. pose proof st_ok as [Hl _ _ _ _ _ _ _].
  destruct (Hl p Hp) as (r & Hr & (Ho & Hov & Hlt & Ht) & ->). exists r.
  pose proof Hr as Hr'. apply slice_elem in Hr' as [_ Hf].
  destruct (left_of_ok req slice slice_ranges Hreq r) as (Hv & Hw & _); [done..|].
  split; [|done]. split_and!; try done. apply not_true_iff_false.
  rewrite overlaps_spec by done. simpl. lia.
Qed.

Lemma right_cut p :
  right_fragment st = Some p ->
  exists r s, cut_from p r /\ end_ req = Offset s /\ start (range p) = s.
Proof.
  intros Hp. pose proof st_ok as [_ _ Hl _ _ _ _ _].
  destruct (Hl p Hp) as (r & s & Hr & (Ho & Hov & Hlt & Ht) & Hs & ->). exists r, s.
  pose proof Hr as Hr'. apply slice_elem in Hr' as [_ Hf].
  destruct (right_of_ok req slice slice_ranges Hreq r s) as (Hv & Hw & _); [done..|].
  split; [|done]. split_and!; try done. apply not_true_iff_false.
  rewrite overlaps_spec by done. simpl. rewrite Hs. simpl. lia.
Qed.

(** A fragment is compatible with every kept record. *)
Lemma cut_compat_kept p r k : cut_from p r -> k ∈ kept -> compat p k.
Proof.
  intros (Hr & Ho & Hov & Hlt & Hpf & Hpo & Hpt & Hpv & Hpw & _) Hk.
  pose proof Hr as [Hrs Hrf]%slice_elem. pose proof Hk as [Hks _]%kept_elem.
  apply (compat_within p r k); try done; try congruence; try by eapply wf_valid.
  apply (wf_compat rs Hwf); [done..|]. intros ->.
  by destruct (kept_own k Hk Hrf Ho) as [? _]; congruence.
Qed.

Lemma repl_Some q : repl = Some q -> exists t, lt = Some t /\ q = mkRecord f o t M.
Proof. intros (t & Ht & Hq)%fmap_Some. by exists t. Qed.

(** A fragment is compatible with the replacement: its record has another
    type, so the merged range does not reach it. *)
Lemma cut_compat_repl p r q : cut_from p r -> repl = Some q -> compat p q.
Proof.
  intros (Hr & Ho & Hov & Hlt & Hpf & Hpo & Hpt & Hpv & Hpw & Hpn) Hq _.
  destruct (repl_Some q Hq) as (t & Elt & ->). simpl in *.
  destruct merged_ok as (HvM & HwM & HM). destruct (HM t Elt) as [Hs _].
  assert (lock_type p <> t) as Hne by congruence. split.
  - intros _. split; [|congruence]. apply not_true_iff_false. intros Hc.
    destruct (overlaps_witness (range p) M) as (off & Hoff & Hcp & HcM); [done..|].
    destruct (Hs off Hoff HcM) as [Hcr|(r' & Hr' & Ho' & Hcr')].
    + rewrite (overlaps_covers (range p) req off) in Hpn; done.
    + unfold own_t in Ho'. bool_hyps. apply slice_elem in Hr' as [Hr' Hf'], Hr as [Hr Hf].
      assert (r' = r) as -> by (apply (wf_same_owner rs r' r off); try done; try congruence;
                                 by eapply within_covers). congruence.
  - congruence.
Qed.

(** The replacement is compatible with every kept record. *)
Lemma repl_compat_kept q k : repl = Some q -> k ∈ kept -> compat q k.
Proof.
  intros Hq Hk Hfk. destruct (repl_Some q Hq) as (t & Elt & ->). simpl in *.
  pose proof Hk as [Hks _]%kept_elem.
  assert (valid_range (range k)) as Hvk by by eapply wf_valid.
  destruct merged_ok as (HvM & HwM & HM). destruct (HM t Elt) as [Hs _].
  split.
  - intros Hok. destruct (kept_own k Hk) as [Hn1 Hn2]; [done..|].
    split; [|intros ->; rewrite touches_sym; by eapply Hn2].
    apply not_true_iff_false. intros Hc.
    destruct (overlaps_witness M (range k)) as (off & Hoff & HcM & Hck); [done..|].
    destruct (Hs off Hoff HcM) as [Hcr|(r & Hr & Ho & Hcr)].
    + by rewrite (overlaps_covers (range k) req off) in Hn1.
    + unfold own_t in Ho. bool_hyps. apply slice_elem in Hr as [Hr Hf].
      assert (r = k) as -> by (apply (wf_same_owner rs r k off); try done; congruence).
      assert (touches_or_overlaps (range k) M = true) as Ht.
      { apply overlaps_touches; [done..|]. by rewrite overlaps_sym. }
      rewrite (Hn2 t Elt) in Ht; done.
  - intros Hok Hn Hc.
    destruct (overlaps_witness M (range k)) as (off & Hoff & HcM & Hck); [done..|].
    destruct (Hs off Hoff HcM) as [Hcr|(r & Hr & Ho & Hcr)].
    + assert (blocks o t req k = false) as Hb by (apply Hfree; [done|apply slice_elem; done]).
      unfold blocks in Hb. rewrite bool_decide_eq_true_2 in Hb by congruence.
      rewrite namespace_sym, Hn, (overlaps_covers (range k) req off) in Hb by done. simpl in Hb.
      bool_hyps. destruct t, (lock_type k); naive_solver.
    + unfold own_t in Ho. bool_hyps. apply slice_elem in Hr as [Hr Hf].
      destruct (wf_compat rs Hwf r k) as [_ Hx]; [done..|congruence|congruence|].
      destruct Hx as [H1 H2]; [congruence|congruence| |split; congruence].
      apply (overlaps_covers _ _ off); try done. by eapply wf_valid.
Qed.

Lemma left_right_compat p q :
  left_fragment st = Some p -> right_fragment st = Some q -> compat q p.
Proof.
  intros (r & Hcut & He)%left_cut (r' & s & Hcut' & Hs & Hst)%right_cut _.
  destruct Hcut as (_ & _ & _ & _ & _ & Hpo & _ & Hpv & _).
  destruct Hcut' as (_ & _ & _ & _ & _ & Hqo & _ & Hqv & _).
  pose proof Hreq as Hq. rewrite valid_range_spec, Hs in Hq. simpl in Hq.
  assert (touches_or_overlaps (range q) (range p) = false) as Hn.
  { apply not_true_iff_false. rewrite touches_spec by done. rewrite He. simpl. lia. }
  split; [|congruence]. intros _. split; [|done]. apply not_true_iff_false. intros Hc.
  by rewrite overlaps_touches in Hn.
Qed.

Definition replaced : list LockRecord :=
  insert_opt (insert_opt (insert_opt kept (left_fragment st)) repl) (right_fragment st).

Lemma replaced_elem x :
  x ∈ replaced <-> right_fragment st = Some x \/ repl = Some x \/ left_fragment st = Some x \/ x ∈ kept.
Proof. unfold replaced. rewrite !elem_of_insert_opt. tauto. Qed.

Lemma replaced_wf : records_wf replaced.
Proof.
  assert (forall p, left_fragment st = Some p ->
            valid_range (range p) /\ forall k, k ∈ kept -> compat p k) as Hleft.
  { intros p (r & Hcut & _)%left_cut. split; [apply Hcut|]. intros k. by apply (cut_compat_kept p r). }
  unfold replaced. apply records_wf_insert_opt;
    [apply records_wf_insert_opt; [apply records_wf_insert_opt; [by apply records_wf_filter|done]|]|].
  - intros q Hq. split.
    { destruct (repl_Some q Hq) as (t & _ & ->). apply merged_ok. }
    intros k [Hk|Hk]%elem_of_insert_opt; [|by apply repl_compat_kept].
    apply left_cut in Hk as (r & Hcut & _). apply compat_sym. by apply (cut_compat_repl k r q).
  - intros p Hp. pose proof Hp as (r & s & Hcut & _)%right_cut. split; [apply Hcut|].
    intros k [Hk|[Hk|Hk]%elem_of_insert_opt]%elem_of_insert_opt.
    + by apply (cut_compat_repl p r k).
    + by apply left_right_compat.
    + by apply (cut_compat_kept p r).
Qed.

(** A kept record never holds a requested byte, and neither does a fragment. *)
Lemma replaced_in_req x off :
  0 <= off <= i64_max -> x ∈ replaced -> file x = f -> owner x = o ->
  covers req off = true -> covers (range x) off = true -> repl = Some x.
Proof.
  intros Hoff Hx Hf Ho Hc Hcx.
  assert (overlaps (range x) req = false -> repl = Some x) as Hno.
  { intros Hn. rewrite (overlaps_covers (range x) req off) in Hn; try done.
    by apply (wf_valid replaced replaced_wf). }
  apply replaced_elem in Hx as [Hx|[Hx|[Hx|Hx]]]; [|done| |]; apply Hno.
  - apply right_cut in Hx as (r & s & Hcut & _). apply Hcut.
  - apply left_cut in Hx as (r & Hcut & _). apply Hcut.
  - by apply kept_own.
Qed.

(** A byte the owner held outside the request is still held. *)
Lemma replaced_keeps r off :
  0 <= off <= i64_max -> r ∈ rs -> file r = f -> owner r = o ->
  covers req off = false -> covers (range r) off = true ->
  exists x, x ∈ replaced /\ file x = f /\ owner x = o /\ covers (range x) off = true /\
            lock_type x = lock_type r.
Proof.
  intros Hoff Hr Hf Ho Hc Hcr. assert (r ∈ slice) as Hrs by by apply slice_elem.
  pose proof st_ok as [Hl Hls Hrt Hrts _ _ _ _]. destruct merged_ok as (HvM & HwM & HM).
  assert (forall t, lt = Some t -> lock_type r = t -> touches_or_overlaps (range r) M = true ->
    exists x, x ∈ replaced /\ file x = f /\ owner x = o /\ covers (range x) off = true /\
              lock_type x = lock_type r) as Hmerge.
  { intros t Elt Ht Htch. exists (mkRecord f o t M). split_and!; try done; [|simpl].
    - apply replaced_elem. right; left. unfold repl. by rewrite Elt.
    - destruct (HM t Elt) as [_ Hcl]. eapply within_covers; [done| |done]. apply Hcl; [done| |done].
      unfold own_t. by rewrite !bool_decide_eq_true_2. }
  destruct (rm r) eqn:Erm.
  2:{ exists r. split_and!; try done. apply replaced_elem. do 3 right. by apply kept_elem. }
  apply should_remove_true in Erm as [_ [Eov|(t & Elt & Ht & Htch)]].
  - destruct (decide (lt = Some (lock_type r))) as [Elt|Elt].
    { apply (Hmerge (lock_type r)); [done|done|]. pose proof (slice_ranges r Hrs).
      apply touches_spec; [done..|]. apply overlaps_spec in Eov; [|done..].
      apply within_spec in HwM. lia. }
    apply not_true_iff_false in Hc. rewrite covers_spec in Hc, Hcr by done.
    destruct (decide (off < start req)) as [Hlo|Hhi].
    + assert (left_src o lt req r) as Hs by (repeat split; try done; lia).
      destruct (left_fragment st) as [p|] eqn:Ep; [|by destruct (Hls r Hrs Hs)].
      destruct (Hl p eq_refl) as (r' & Hr' & (Ho' & Hov' & Hlt' & _) & Hp).
      apply slice_elem in Hr' as [Hr' Hf'].
      assert (r' = r) as ->.
      { apply (wf_overlap_eq rs); try done; try congruence.
        pose proof (wf_valid rs Hwf r' Hr'). pose proof (wf_valid rs Hwf r Hr).
        rewrite overlaps_spec in Hov', Eov |- * by done. lia. }
      exists p. split_and!; try (by rewrite Hp); [apply replaced_elem; by do 2 right; left|].
      rewrite covers_spec, Hp by done. simpl. lia.
    + assert (right_src o lt req r) as Hs by (repeat split; try done; lia).
      destruct (right_fragment st) as [p|] eqn:Ep; [|by destruct (Hrts r Hrs Hs)].
      destruct (Hrt p eq_refl) as (r' & s & Hr' & (Ho' & Hov' & Hlt' & _) & Hs' & Hp).
      apply slice_elem in Hr' as [Hr' Hf'].
      assert (r' = r) as ->.
      { apply (wf_overlap_eq rs); try done; try congruence.
        pose proof (wf_valid rs Hwf r' Hr'). pose proof (wf_valid rs Hwf r Hr).
        rewrite overlaps_spec in Hov', Eov |- * by done. lia. }
      exists p. split_and!; try (by rewrite Hp); [apply replaced_elem; by left|].
      rewrite Hs' in Hc. simpl in Hc. rewrite covers_spec, Hp by done. simpl. lia.
  - by apply (Hmerge t).
Qed.

(** A byte the owner holds afterwards outside the request was held before. *)
Lemma replaced_adds_nothing x off :
  0 <= off <= i64_max -> x ∈ replaced -> file x = f -> owner x = o ->
  covers req off = false -> covers (range x) off = true ->
  exists r, r ∈ rs /\ file r = f /\ owner r = o /\ covers (range r) off = true /\
            lock_type r = lock_type x.
Proof.
  intros Hoff Hx Hf Ho Hc Hcx.
  assert (forall r, cut_from x r -> exists r, r ∈ rs /\ file r = f /\ owner r = o /\
     covers (range r) off = true /\ lock_type r = lock_type x) as Hcutcase.
  { intros r (Hr & Hor & _ & _ & _ & _ & Ht & _ & Hw & _). apply slice_elem in Hr as [Hr Hfr].
    exists r. split_and!; try done. by eapply within_covers. }
  apply replaced_elem in Hx as [Hx|[Hx|[Hx|Hx]]].
  - apply right_cut in Hx as (r & s & Hcut & _). by apply (Hcutcase r).
  - destruct (repl_Some x Hx) as (t & Elt & ->). simpl in *.
    destruct merged_ok as (HvM & HwM & HM). destruct (HM t Elt) as [Hs _].
    destruct (Hs off Hoff Hcx) as [?|(r & Hr & Hot & Hcr)]; [congruence|].
    unfold own_t in Hot. bool_hyps. apply slice_elem in Hr as [Hr Hfr]. by exists r.
  - apply left_cut in Hx as (r & Hcut & _). by apply (Hcutcase r).
  - apply kept_elem in Hx as [Hx _]. by exists x.
Qed.

(** Byte by byte, the replacement sets the requested bytes of the owner and
    changes nothing else. *)
Lemma replaced_lock_at f' o' off :
  0 <= off <= i64_max ->
  lock_at replaced f' o' off =
  if bool_decide (f' = f) && bool_decide (o' = o) && covers req off then lt
  else lock_at rs f' o' off.
Proof.
  intros Hoff. apply lock_at_ext. intros t. rewrite lock_at_Some by (done || apply replaced_wf).
  destruct (bool_decide (f' = f) && bool_decide (o' = o)) eqn:Efo; simpl.
  - bool_hyps. subst f' o'. destruct (covers req off) eqn:Ec.
    + split.
      * intros (x & Hx & Hf & Ho & Hcx & <-).
        destruct (repl_Some x) as (t & Elt & ->); [by apply (replaced_in_req x off)|done].
      * intros Elt. exists (mkRecord f o t M). split_and!; try done; simpl.
        -- apply replaced_elem. right; left. unfold repl. by rewrite Elt.
        -- destruct merged_ok as (_ & HwM & _). by eapply within_covers.
    + rewrite lock_at_Some by done. split.
      * intros (x & Hx & Hf & Ho & Hcx & <-).
        destruct (replaced_adds_nothing x off) as (r & ? & ? & ? & ? & ?); [done..|]. by exists r.
      * intros (r & Hr & Hf & Ho & Hcr & <-).
        destruct (replaced_keeps r off) as (x & ? & ? & ? & ? & ?); [done..|]. by exists x.
  - rewrite lock_at_Some by done.
    assert (forall x, file x = f' -> owner x = o' -> x ∈ replaced <-> x ∈ rs) as Hsame.
    { intros x <- <-. apply andb_false_iff in Efo. rewrite !bool_decide_eq_false in Efo.
      rewrite replaced_elem, kept_elem. split.
      - intros [(r & s & Hcut & _)%right_cut|[(t' & _ & ->)%repl_Some|[(r & Hcut & _)%left_cut|[? _]]]].
        + destruct Hcut as (_ & _ & _ & _ & ? & ? & _). tauto.
        + simpl in Efo. tauto.
        + destruct Hcut as (_ & _ & _ & _ & ? & ? & _). tauto.
        + done.
      - intros Hx. do 3 right. split; [done|]. intros Hf.
        unfold rm, should_remove. rewrite bool_decide_eq_true_2; [done|tauto]. }
    split; intros (x & Hx & Hf & Ho & Hcx & Ht); exists x; split_and!; try done; by apply Hsame.
Qed.

Lemma replaced_length :
  length replaced =
  (length rs - count rm slice + (opt_count (left_fragment st) + opt_count lt
                                 + opt_count (right_fragment st)))%nat.
Proof.
  unfold replaced. rewrite !insert_opt_length.
  assert (opt_count repl = opt_count lt) as -> by (unfold repl; by destruct lt).
  pose proof (filter_length_split (fun r => of_file f r && rm r) rs) as Hsp.
  unfold kept, count, slice. rewrite filter_and. lia.
Qed.

End replacing.

(** ** Lemmas: [set_lock] *)

Lemma grow_target_ok fuel target required :
  (required <= MAX_ADVISORY_LOCK_RECORDS)%nat -> (0 < target <= MAX_ADVISORY_LOCK_RECORDS)%nat ->
  (required <= target + fuel)%nat ->
  (required <= grow_target fuel target required <= MAX_ADVISORY_LOCK_RECORDS)%nat.
Proof.
  revert target. induction fuel as [|fuel IH]; intros target Hr Ht Hf; simpl; [lia|].
  case_cmp; [|lia]. apply IH; [done|lia|lia].
Qed.

Lemma grow_target_runs fuel target required :
  (required <= MAX_ADVISORY_LOCK_RECORDS)%nat -> (0 < target <= MAX_ADVISORY_LOCK_RECORDS)%nat ->
  (required <= target + fuel)%nat ->
  runs_to (grow_body required) target (grow_target fuel target required).
Proof.
  revert target. induction fuel as [|fuel IH]; intros target Hr Ht Hf; cbn [grow_target].
  - apply runs_stop. unfold grow_body. by rewrite (proj2 (Nat.ltb_ge _ _)) by lia.
  - destruct (Nat.ltb_spec target required) as [Hlt|Hge].
    + apply (runs_step _ _ (Nat.min (target * 2) MAX_ADVISORY_LOCK_RECORDS)); [|apply IH; lia].
      unfold grow_body. by rewrite (proj2 (Nat.ltb_lt _ _)).
    + apply runs_stop. unfold grow_body. by rewrite (proj2 (Nat.ltb_ge _ _)).
Qed.

Lemma ensure_capacity_ok alloc_ok m required :
  (capacity m <= MAX_ADVISORY_LOCK_RECORDS)%nat -> (required <= MAX_ADVISORY_LOCK_RECORDS)%nat ->
  match ensure_capacity alloc_ok m required with
  | Ok m1 => records m1 = records m /\ (required <= capacity m1 <= MAX_ADVISORY_LOCK_RECORDS)%nat
  | Err e => e = ENOLCK /\ exists n, alloc_ok n = false
  end.
Proof.
  intros Hcap Hreq. unfold ensure_capacity.
  case_cmp; [done|]. case_cmp; [lia|].
  destruct (alloc_ok _) eqn:E; simpl; [|by eauto].
  split; [done|]. apply grow_target_ok; [done| |lia].
  unfold MAX_ADVISORY_LOCK_RECORDS in *. lia.
Qed.

(** The records after a committed request, its removal test and its result. *)
Definition new_records (rs : list LockRecord) (f : FileId) (o : LockOwner)
    (lt : option AdvisoryLockType) (req : LockRange) : list LockRecord :=
  replaced rs f o lt req.

Definition split_of (rs : list LockRecord) (f : FileId) (o : LockOwner)
    (lt : option AdvisoryLockType) (req : LockRange) : SplitState :=
  split_slice o lt req (List.filter (of_file f) rs).

Definition merged_of (rs : list LockRecord) (f : FileId) (o : LockOwner)
    (lt : option AdvisoryLockType) (req : LockRange) : LockRange :=
  coalesced o lt (List.filter (of_file f) rs) (merged_request (split_of rs f o lt req)).

Definition unblocked (rs : list LockRecord) (f : FileId) (o : LockOwner)
    (lt : option AdvisoryLockType) (req : LockRange) : Prop :=
  forall t r, lt = Some t -> r ∈ List.filter (of_file f) rs -> blocks o t req r = false.

(** The possible outcomes of [set_lock]. *)
Inductive set_lock_outcome (alloc_ok : nat -> bool) (m : AdvisoryLockManager) (f : FileId)
    (o : LockOwner) (lt : option AdvisoryLockType) (req : LockRange) :
    AdvisoryLockManager * kresult LockMutation -> Prop :=
| OutBlocked t r :
    lt = Some t -> r ∈ List.filter (of_file f) (records m) -> blocks o t req r = true ->
    set_lock_outcome alloc_ok m f o lt req (m, Err EAGAIN)
| OutNothing :
    lt = None ->
    (forall r, r ∈ List.filter (of_file f) (records m) ->
       should_remove o lt req (merged_of (records m) f o lt req) r = false) ->
    set_lock_outcome alloc_ok m f o lt req (m, Ok no_mutation)
| OutSame t :
    lt = Some t -> unblocked (records m) f o lt req ->
    mkRecord f o t (merged_of (records m) f o lt req) ∈ records m ->
    set_lock_outcome alloc_ok m f o lt req (m, Ok no_mutation)
| OutFull :
    unblocked (records m) f o lt req ->
    (MAX_ADVISORY_LOCK_RECORDS < length (new_records (records m) f o lt req))%nat \/
      (exists n, alloc_ok n = false) ->
    set_lock_outcome alloc_ok m f o lt req (m, Err ENOLCK)
| OutCommit cap b :
    unblocked (records m) f o lt req ->
    (length (new_records (records m) f o lt req) <= cap <= MAX_ADVISORY_LOCK_RECORDS)%nat ->
    (b = false -> lt <> None /\ type_changed (split_of (records m) f o lt req) = false) ->
    set_lock_outcome alloc_ok m f o lt req
      (mkManager (new_records (records m) f o lt req) cap, Ok (mkMutation true b)).

Lemma set_lock_cases alloc_ok m f o lt req :
  lock_wf m -> valid_range req ->
  set_lock_outcome alloc_ok m f o lt req (set_lock alloc_ok m f o lt req).
Proof.
  intros [Hwf Hcap] Hreq. unfold set_lock.
  destruct (file_bounds (records m) f) as [s e] eqn:Eb.
  pose proof (wf_sorted _ Hwf) as Hsort.
  rewrite (file_bounds_filter _ _ _ _ Hsort Eb).
  set (slice := List.filter (of_file f) (records m)).
  set (st := split_slice o lt req slice).
  set (M := coalesced o lt slice (merged_request st)).
  set (rm := should_remove o lt req M).
  destruct (match lt with Some t => existsb (blocks o t req) slice | None => false end) eqn:Ebl.
  { destruct lt as [t|]; [|done]. apply existsb_elem in Ebl as (r & Hr & Hb).
    by apply (OutBlocked _ _ _ _ _ _ t r). }
  assert (unblocked (records m) f o lt req) as Hfree.
  { intros t r -> Hr. apply not_true_iff_false. intros Hb. apply not_true_iff_false in Ebl.
    apply Ebl, existsb_elem. by exists r. }
  pose proof (replaced_length (records m) f o lt req Hfree) as Hlen.
  fold slice in Hlen. fold st in Hlen. fold M in Hlen. fold rm in Hlen.
  destruct (_ && bool_decide (lt = None)) eqn:E0.
  { bool_hyps. apply OutNothing; [done|]. intros r Hr. change (rm r = false).
    apply not_true_iff_false. intros Hrm.
    assert (r ∈ List.filter rm slice) as Hin by by apply elem_of_filter_bool.
    match goal with H : (_ =? _)%nat = true |- _ => apply Nat.eqb_eq, length_zero_iff_nil in H; rewrite H in Hin end.
    by apply not_elem_of_nil in Hin. }
  destruct (_ && match _ with Some _ => _ | None => _ end) eqn:E1.
  { bool_hyps. destruct lt as [t|] eqn:Elt; [|done]. simpl in *. bool_hyps.
    apply (OutSame _ _ _ _ _ _ t); [done|done|].
    match goal with H : find_first _ _ = _ |- _ => apply find_first_Some in H as [Hin _] end.
    by apply elem_of_filter_bool in Hin as [Hin _]. }
  case_cmp; [apply OutFull; [done|]; left; unfold new_records; by rewrite Hlen|].
  rewrite <- Hlen in *.
  pose proof (ensure_capacity_ok alloc_ok m (length (replaced (records m) f o lt req))) as Hec.
  destruct (ensure_capacity _ _ _) as [m1|e'].
  2:{ destruct Hec as [-> Hal]; [lia|done|]. apply OutFull; [done|by right]. }
  destruct Hec as [Hr1 Hc1]; [lia|done|].
  rewrite Hr1, (compact_spec rm f (records m) s e Hsort Eb). unfold set_records.
  apply (OutCommit alloc_ok m f o lt req (capacity m1)); [done|done|].
  intros Hb. apply orb_false_iff in Hb as [Hb1 Hb2]. split; [|done].
  intros ->. rewrite bool_decide_eq_true_2 in Hb1, E0 by done. simpl in Hb1.
  destruct (_ =? 0)%nat; done.
Qed.

Lemma unblocked_no_conflict rs f o lt req :
  records_wf rs -> valid_range req -> unblocked rs f o lt req ->
  forall t, lt = Some t -> ~ conflict rs f o t req.
Proof.
  intros Hwf Hreq Hfree t Hlt Hc. apply conflict_blocks in Hc as (r & Hr & Hb); [|done..].
  rewrite (Hfree t r) in Hb; done.
Qed.

(** The effect on bytes of the outcomes that change nothing. *)
Lemma outcome_nothing_lock_at rs f o req M :
  records_wf rs -> valid_range req ->
  (forall r, r ∈ List.filter (of_file f) rs -> should_remove o None req M r = false) ->
  forall off, 0 <= off <= i64_max -> covers req off = true -> lock_at rs f o off = None.
Proof.
  intros Hwf Hreq Hnone off Hoff Hc. apply lock_at_ext. intros t. split; [|done].
  intros (r & Hr & Hf & Ho & Hcr & _)%lock_at_Some; [|done..].
  assert (should_remove o None req M r = true) as Hrm.
  { apply should_remove_true. split; [done|]. left. apply (overlaps_covers _ _ off); try done.
    by eapply wf_valid. }
  rewrite Hnone in Hrm; [done|]. apply elem_of_filter_bool. split; [done|].
  by apply bool_decide_eq_true.
Qed.

Lemma outcome_same_lock_at rs f o t req :
  records_wf rs -> valid_range req -> unblocked rs f o (Some t) req ->
  mkRecord f o t (merged_of rs f o (Some t) req) ∈ rs ->
  forall off, 0 <= off <= i64_max -> covers req off = true -> lock_at rs f o off = Some t.
Proof.
  intros Hwf Hreq Hfree Hin off Hoff Hc. apply lock_at_Some; [done..|].
  destruct (merged_ok rs f o (Some t) req Hwf Hreq Hfree) as (_ & Hw & _).
  exists (mkRecord f o t (merged_of rs f o (Some t) req)). simpl. split_and!; try done.
  by apply (within_covers req).
Qed.

(** A committed request changes no held byte when it reports that it cannot
    unblock a waiter. *)
Lemma unchanged_types rs f o t req off t0 :
  records_wf rs -> valid_range req ->
  type_changed (split_of rs f o (Some t) req) = false ->
  0 <= off <= i64_max -> covers req off = true -> lock_at rs f o off = Some t0 -> t0 = t.
Proof.
  intros Hwf Hreq Htc Hoff Hc (r & Hr & Hf & Ho & Hcr & <-)%lock_at_Some; [|done..].
  pose proof (st_ok rs f o (Some t) req Hwf Hreq) as [_ _ _ _ _ _ _ Hch].
  destruct (decide (lock_type r = t)) as [|Hne]; [done|].
  unfold split_of in Htc. rewrite (proj2 Hch) in Htc; [done|].
  exists t, r. split_and!; try done.
  - apply elem_of_filter_bool. split; [done|]. by apply bool_decide_eq_true.
  - apply (overlaps_covers _ _ off); try done. by eapply wf_valid.
Qed.

(** What a request does to each byte. *)
Definition lock_effect (rs rs' : list LockRecord) (f : FileId) (o : LockOwner)
    (lt : option AdvisoryLockType) (req : LockRange) : Prop :=
  forall f' o' off, 0 <= off <= i64_max ->
    lock_at rs' f' o' off =
    if bool_decide (f' = f) && bool_decide (o' = o) && covers req off then lt
    else lock_at rs f' o' off.

Lemma lock_effect_same rs f o lt req :
  (forall off, 0 <= off <= i64_max -> covers req off = true -> lock_at rs f o off = lt) ->
  lock_effect rs rs f o lt req.
Proof.
  intros H f' o' off Hoff. destruct (_ && _) eqn:E; [|done]. bool_hyps. subst. by apply H.
Qed.

Lemma lock_effect_commit rs f o lt req :
  records_wf rs -> valid_range req -> unblocked rs f o lt req ->
  lock_effect rs (new_records rs f o lt req) f o lt req.
Proof. intros Hwf Hreq Hfree f' o' off Hoff. by apply replaced_lock_at. Qed.

Lemma new_records_wf rs f o lt req :
  records_wf rs -> valid_range req -> unblocked rs f o lt req ->
  records_wf (new_records rs f o lt req).
Proof. intros. by apply replaced_wf. Qed.

#[export] Hint Resolve new_records_wf lock_effect_commit unblocked_no_conflict records_wf_filter
  records_wf_nil : kandelo.

(** Bytes that keep their type keep every waiter blocked. *)
Lemma conflict_mono rs rs' f o t req :
  (forall o' off t', 0 <= off <= i64_max -> lock_at rs f o' off = Some t' ->
                     lock_at rs' f o' off = Some t') ->
  conflict rs f o t req -> conflict rs' f o t req.
Proof.
  intros H (o' & off & t' & ? & ? & Hoff & ? & Hl & ?).
  exists o', off, t'. split_and!; try done; try lia. by apply H.
Qed.

(** ** Lemmas: removal *)

Lemma lock_at_filter q rs f o off :
  records_wf rs -> 0 <= off <= i64_max ->
  (forall r, r ∈ rs -> file r = f -> owner r = o -> q r = true) ->
  lock_at (List.filter q rs) f o off = lock_at rs f o off.
Proof.
  intros Hwf Hoff Hq. apply lock_at_ext. intros t.
  rewrite !lock_at_Some by eauto with kandelo.
  split; intros (r & Hr & Hf & Ho & ?); exists r; rewrite elem_of_filter_bool in *; naive_solver.
Qed.

Lemma lock_at_filtered_out q rs f o off :
  records_wf rs -> 0 <= off <= i64_max ->
  (forall r, r ∈ rs -> file r = f -> owner r = o -> q r = false) ->
  lock_at (List.filter q rs) f o off = None.
Proof.
  intros Hwf Hoff Hq. apply lock_at_ext. intros t. split; [|done].
  intros (r & Hr & Hf & Ho & _)%lock_at_Some; [|by eauto with kandelo..].
  apply elem_of_filter_bool in Hr as [Hr Hqr]. rewrite Hq in Hqr; done.
Qed.

Lemma filter_same_length {A} (q : A -> bool) l :
  length (List.filter q l) = length l -> List.filter q l = l.
Proof.
  intros H. apply filter_all, Forall_forall. intros x Hx.
  destruct (q x) eqn:E; [done|].
  pose proof (filter_length_lt (fun _ => true) q l x) as Hlt.
  rewrite (filter_all (fun _ => true)) in Hlt by (apply Forall_forall; done).
  specialize (Hlt ltac:(done) Hx eq_refl E). lia.
Qed.

(** Dropping the records that fail [q]: the invariant is kept, and the reported
    flags say whether anything was dropped. *)
Lemma retain_spec m q m' mu :
  lock_wf m -> retain m q = (m', mu) ->
  lock_wf m' /\ records m' = List.filter q (records m) /\
  changed mu = may_unblock mu /\ (may_unblock mu = false -> m' = m).
Proof.
  intros [Hwf Hcap]. unfold retain. intros [= <- <-]. simpl.
  pose proof (filter_length_le q (records m)).
  split_and!; [split; simpl; [by apply records_wf_filter|lia]|done|done|].
  intros Hb. apply negb_false_iff, Nat.eqb_eq in Hb. unfold set_records.
  rewrite filter_same_length by done. by destruct m.
Qed.

Lemma remove_file_owner_retain m f o :
  lock_wf m ->
  remove_file_owner m f o = retain m (fun r => negb (of_file f r && bool_decide (owner r = o))).
Proof.
  intros [Hwf Hcap]. unfold remove_file_owner, retain.
  destruct (file_bounds (records m) f) as [s e] eqn:Eb.
  pose proof (wf_sorted _ Hwf) as Hsort.
  rewrite (compact_spec _ f (records m) s e Hsort Eb).
  destruct (file_bounds_split _ _ _ _ Hsort Eb) as (Hle & _).
  pose proof (file_bounds_filter _ _ _ _ Hsort Eb) as Hsl.
  assert (count (fun r => bool_decide (owner r = o)) (List.filter (of_file f) (records m)) <= e)%nat.
  { unfold count. etrans; [apply filter_length_le|]. rewrite <- Hsl, length_take. lia. }
  pose proof (filter_length_split (fun r => of_file f r && bool_decide (owner r = o)) (records m)) as Hsp.
  unfold count in *. rewrite filter_and in *.
  assert (forall a b : nat, a = b -> negb (a =? 0)%nat = negb (b =? 0)%nat) as Hn by (by intros ? ? ->).
  set (n := length (List.filter (fun r => of_file f r && bool_decide (owner r = o)) (records m))) in *.
  replace (e - (e - n))%nat with n by lia.
  destruct (Nat.eqb_spec n 0), (Nat.eqb_spec (length (List.filter (fun r =>
    negb (of_file f r && bool_decide (owner r = o))) (records m))) (length (records m))); try done; lia.
Qed.

(** ** Machine steps *)

(** The calls that change the lock state, with an arbitrary allocator. *)
Inductive lock_step : AdvisoryLockManager -> AdvisoryLockManager -> Prop :=
| StepSet alloc_ok m f o lt start len req :
    i64_min <= start <= i64_max -> i64_min <= len <= i64_max -> normalize start len = Ok req ->
    lock_step m (fst (set_lock alloc_ok m f o lt req))
| StepFileOwner m f o : lock_step m (fst (remove_file_owner m f o))
| StepOwner m o : lock_step m (fst (remove_owner m o))
| StepOfd m id : lock_step m (fst (remove_ofd m id)).

Lemma normalize_valid s l req :
  i64_min <= s <= i64_max -> i64_min <= l <= i64_max -> normalize s l = Ok req -> valid_range req.
Proof.
  unfold normalize, i64_checked_add, i64_min, i64_max, valid_range. intros Hs Hl.
  repeat (case_cmp; simpl; try done); intros; simplify_eq/=; unfold i64_max; lia.
Qed.

Lemma set_lock_wf alloc_ok m f o lt req :
  lock_wf m -> valid_range req -> lock_wf (fst (set_lock alloc_ok m f o lt req)).
Proof.
  intros Hm Hreq. pose proof Hm as [Hwf _].
  destruct (set_lock_cases alloc_ok m f o lt req Hm Hreq); simpl; try done.
  split; simpl; [by apply new_records_wf|done].
Qed.

Lemma retain_wf m q : lock_wf m -> lock_wf (fst (retain m q)).
Proof. intros Hm. destruct (retain m q) eqn:E. by apply retain_spec in E as [? _]. Qed.

Lemma remove_file_owner_wf m f o : lock_wf m -> lock_wf (fst (remove_file_owner m f o)).
Proof. intros Hm. rewrite remove_file_owner_retain by done. by apply retain_wf. Qed.

#[export] Hint Resolve set_lock_wf retain_wf remove_file_owner_wf : kandelo.

Lemma new_wf : lock_wf new.
Proof. split; [apply records_wf_nil|]. unfold MAX_ADVISORY_LOCK_RECORDS. simpl. lia. Qed.

Lemma lock_step_wf m m' : lock_step m m' -> lock_wf m -> lock_wf m'.
Proof.
  intros [] Hm; unfold remove_owner, remove_ofd; eauto using normalize_valid with kandelo.
Qed.

Lemma new_records_length rs f o lt req :
  unblocked rs f o lt req -> (length (new_records rs f o lt req) <= length rs + 3)%nat.
Proof.
  intros Hfree. unfold new_records. rewrite replaced_length by done.
  destruct (left_fragment _), lt, (right_fragment _); simpl; lia.
Qed.

Lemma whole_file_valid : valid_range (mkRange 0 Eof).
Proof. unfold valid_range, i64_max. simpl. lia. Qed.

Lemma flock_type_lock_at m f id x :
  lock_wf m -> (forall off, 0 <= off <= i64_max -> lock_at (records m) f (OwnerFlock id) off = x) ->
  flock_type m f id = x.
Proof.
  intros [Hwf _] Hall. unfold flock_type, file_slice.
  destruct (file_bounds (records m) f) as [s e] eqn:Eb.
  rewrite (file_bounds_filter _ _ _ _ (wf_sorted _ Hwf) Eb).
  destruct (find_first _ _) as [r|] eqn:E; simpl.
  - apply find_first_Some in E as [Hr Ho]. apply elem_of_filter_bool in Hr as [Hr Hf].
    unfold of_file in Hf. bool_hyps. pose proof (wf_valid _ Hwf r Hr) as Hv.
    rewrite valid_range_spec in Hv. rewrite <- (Hall (start (range r))) by lia.
    symmetry. apply lock_at_Some; [done|lia|]. exists r. split_and!; try done.
    apply covers_spec; lia.
  - rewrite find_first_None in E. rewrite <- (Hall 0) by (unfold i64_max; lia). symmetry.
    apply lock_at_ext. intros t. split; [|done].
    intros (r & Hr & Hf & Ho & _)%lock_at_Some; [|done|unfold i64_max; lia].
    specialize (E r). rewrite bool_decide_eq_true_2 in E by done.
    discriminate E. apply elem_of_filter_bool. split; [done|]. by apply bool_decide_eq_true.
Qed.

Definition range2 : LockRange := mkRange 10 (Offset 20).
Definition file1 : FileId := FHost 1 7.

(** Two read locks of process 1 and one write lock of process 2 on one file. *)
Definition sample : AdvisoryLockManager :=
  let m := fst (set_lock (fun _ => true) new file1 (OwnerProcess 1) (Some Read) (mkRange 0 (Offset 10))) in
  let m := fst (set_lock (fun _ => true) m file1 (OwnerProcess 2) (Some Write) (mkRange 40 Eof)) in
  fst (set_lock (fun _ => true) m file1 (OwnerProcess 1) (Some Read) (mkRange 20 (Offset 30))).

Lemma range2_valid : valid_range range2.
Proof. unfold valid_range, i64_max. simpl. lia. Qed.

Lemma sample_wf : lock_wf sample.
Proof.
  unfold sample. repeat apply set_lock_wf; try apply new_wf; unfold valid_range, i64_max; simpl; lia.
Qed.

(** ** Properties *)

(** C1: [set_lock] is atomic and has exactly its byte-level meaning. On success
    no other owner conflicted, every byte of the requested range that the owner
    names gets the requested lock (or none, for an unlock), and every other
    byte of every file and owner keeps the lock it had, whatever splitting,
    replacing and coalescing the record vector went through; a conflict is
    reported as [EAGAIN] exactly when a byte of the range is held by another
    owner of the namespace with a write lock on either side, and every error
    leaves the manager unchanged; the record invariant is preserved. *)
Theorem set_lock_correct alloc_ok m f o lt req :
  lock_wf m -> valid_range req ->
  let '(m', r) := set_lock alloc_ok m f o lt req in
  lock_wf m' /\
  match r with
  | Ok _ => (forall t, lt = Some t -> ~ conflict (records m) f o t req) /\
            lock_effect (records m) (records m') f o lt req
  | Err EAGAIN => m' = m /\ exists t, lt = Some t /\ conflict (records m) f o t req
  | Err ENOLCK => m' = m /\ forall t, lt = Some t -> ~ conflict (records m) f o t req
  | Err _ => False
  end.
Proof.
  intros Hm Hreq. pose proof (set_lock_wf alloc_ok m f o lt req Hm Hreq) as Hwf'.
  pose proof Hm as [Hwf _].
  destruct (set_lock_cases alloc_ok m f o lt req Hm Hreq) as [t r -> Hr Hb| -> Hn|t -> Hf Hin|Hf _|cap b Hf _ _];
    (split; [done|]); simpl.
  - split; [done|]. exists t. split; [done|]. apply conflict_blocks; [done..|]. by exists r.
  - split; [done|]. apply lock_effect_same. by eapply outcome_nothing_lock_at.
  - split; [by eauto with kandelo|]. apply lock_effect_same. by apply outcome_same_lock_at.
  - split; [done|]. by eauto with kandelo.
  - split; [by eauto with kandelo|]. by apply lock_effect_commit.
Qed.

Lemma set_lock_correct_witness :
  lock_wf sample /\
  lock_effect (records sample)
    (records (fst (set_lock (fun _ => true) sample file1 (OwnerProcess 1) (Some Read) range2)))
    file1 (OwnerProcess 1) (Some Read) range2.
Proof.
  split; [apply sample_wf|].
  pose proof (set_lock_correct (fun _ => true) sample file1 (OwnerProcess 1) (Some Read) range2
                sample_wf range2_valid) as H.
  destruct (set_lock _ _ _ _ _ _) as [m' r] eqn:E in H. rewrite E.
  assert (r = Ok (mkMutation true false)) as -> by (vm_compute in E; congruence).
  apply H.
Defined.

(** no lost wakeups. When a successful [set_lock] or any of the removal
    paths reports that nothing can be unblocked, every request that conflicted
    before still conflicts afterwards, so a parked [F_SETLKW] waiter that is not
    retried could not have succeeded. *)
Theorem lock_no_lost_wakeup m m' mu :
  lock_wf m -> may_unblock mu = false ->
  (exists alloc_ok f o lt req, valid_range req /\ set_lock alloc_ok m f o lt req = (m', Ok mu)) \/
  (exists f o, remove_file_owner m f o = (m', mu)) \/
  (exists o, remove_owner m o = (m', mu)) \/ (exists id, remove_ofd m id = (m', mu)) ->
  forall f o t req, valid_range req -> conflict (records m) f o t req -> conflict (records m') f o t req.
Proof.
  intros Hm Hmu Hstep f o t req Hreq Hc.
  assert (forall q, retain m q = (m', mu) -> conflict (records m') f o t req) as Hret.
  { intros q (_ & _ & _ & Heq)%retain_spec; [|done]. by rewrite Heq. }
  destruct Hstep as [(al & f0 & o0 & lt & req0 & Hv0 & Hset)|[(f0 & o0 & Hx)|[[o0 Hx]|[id Hx]]]].
  2:{ rewrite remove_file_owner_retain in Hx by done. by eapply Hret. }
  2,3: by eapply Hret.
  pose proof Hm as [Hwf _].
  pose proof (set_lock_cases al m f0 o0 lt req0 Hm Hv0) as Hout. rewrite Hset in Hout.
  inversion Hout as [|? ? Heq|? ? ? ? Heq| |cap b Hf _ Hb Heq]; simplify_eq/=; [done..|].
  destruct (Hb eq_refl) as [Hlt Htc]. destruct lt as [t0|]; [|done].
  eapply conflict_mono; [|exact Hc]. intros o' off t' Hoff Hl.
  rewrite (lock_effect_commit (records m) f0 o0 (Some t0) req0) by done.
  destruct (_ && _) eqn:E; [|done]. bool_hyps. subst.
  f_equal. symmetry. by apply (unchanged_types (records m) f0 o0 t0 req0 off).
Qed.

Lemma lock_no_lost_wakeup_witness :
  conflict (records sample) file1 (OwnerProcess 3) Write (mkRange 0 Eof) /\
  conflict (records (fst (set_lock (fun _ => true) sample file1 (OwnerProcess 1) (Some Read) range2)))
           file1 (OwnerProcess 3) Write (mkRange 0 Eof).
Proof.
  assert (conflict (records sample) file1 (OwnerProcess 3) Write (mkRange 0 Eof)) as Hc.
  { exists (OwnerProcess 1), 5, Read. vm_compute. repeat split; try discriminate; tauto. }
  split; [exact Hc|].
  apply (lock_no_lost_wakeup sample _ (mkMutation true false) sample_wf eq_refl).
  - left. exists (fun _ => true), file1, (OwnerProcess 1), (Some Read), range2.
    split; [apply range2_valid|]. vm_compute. reflexivity.
  - unfold valid_range, i64_max. simpl. lia.
  - exact Hc.
Defined.

(** C21: mutual exclusion in every reachable machine state: whatever sequence of
    set, unlock, close, exit and last-reference operations ran, two different
    owners of one lock namespace hold the same byte of a file only with read
    locks, and the record vector stays within its fixed bound. *)
Theorem lock_exclusion m f o1 o2 off t1 t2 :
  rtc lock_step new m -> o1 <> o2 -> conflicts_in_namespace o1 o2 = true ->
  0 <= off <= i64_max ->
  lock_at (records m) f o1 off = Some t1 -> lock_at (records m) f o2 off = Some t2 ->
  t1 = Read /\ t2 = Read /\ (length (records m) <= MAX_ADVISORY_LOCK_RECORDS)%nat.
Proof.
  intros Hreach Hne Hns Hoff H1 H2.
  assert (lock_wf m) as [Hwf Hcap].
  { revert Hreach. generalize new_wf. generalize new. intros m0 Hm0 Hr.
    induction Hr; eauto using lock_step_wf. }
  apply lock_at_Some in H1 as (r1 & Hr1 & Hf1 & Ho1 & Hc1 & <-); [|done..].
  apply lock_at_Some in H2 as (r2 & Hr2 & Hf2 & Ho2 & Hc2 & <-); [|done..].
  destruct (wf_compat _ Hwf r1 r2) as [_ Hx]; [done|done|congruence|congruence|].
  destruct Hx as [? ?]; [congruence|congruence| |split_and!; [done|done|lia]].
  apply (overlaps_covers _ _ off); try done; by eapply wf_valid.
Qed.

Lemma lock_exclusion_witness :
  exists m, rtc lock_step new m /\
    lock_at (records m) file1 (OwnerProcess 1) 15 = Some Read /\
    lock_at (records m) file1 (OwnerOfd 4) 15 = Some Read /\
    (length (records m) <= MAX_ADVISORY_LOCK_RECORDS)%nat.
Proof.
  set (m1 := fst (set_lock (fun _ => true) new file1 (OwnerProcess 1) (Some Read) range2)).
  set (m2 := fst (set_lock (fun _ => true) m1 file1 (OwnerOfd 4) (Some Read) (mkRange 0 Eof))).
  exists m2.
  assert (rtc lock_step new m2) as Hr.
  { apply (rtc_l _ _ m1); [|apply (rtc_l _ _ m2); [|apply rtc_refl]].
    - apply (StepSet (fun _ => true) new file1 (OwnerProcess 1) (Some Read) 10 10 range2);
        unfold i64_min, i64_max; [lia|lia|vm_compute; reflexivity].
    - apply (StepSet (fun _ => true) m1 file1 (OwnerOfd 4) (Some Read) 0 0 (mkRange 0 Eof));
        unfold i64_min, i64_max; [lia|lia|vm_compute; reflexivity]. }
  split; [exact Hr|]. split; [vm_compute; reflexivity|]. split; [vm_compute; reflexivity|].
  apply (lock_exclusion m2 file1 (OwnerProcess 1) (OwnerOfd 4) 15 Read Read Hr).
  - discriminate.
  - reflexivity.
  - unfold i64_max. lia.
  - vm_compute. reflexivity.
  - vm_compute. reflexivity.
Defined.

(** [F_GETLK] and [F_SETLK] agree: [get_blocking_lock] answers [None] exactly
    when a request of that owner, type and range meets no conflicting byte, and
    otherwise returns a stored record of that file held by another owner that
    overlaps the request. *)
Theorem get_blocking_lock_spec m f o t req :
  lock_wf m -> valid_range req ->
  match get_blocking_lock m f o t req with
  | None => ~ conflict (records m) f o t req
  | Some r => conflict (records m) f o t req /\ r ∈ records m /\ file r = f /\ owner r <> o /\
              overlaps (range r) req = true /\ (lock_type r = Write \/ t = Write)
  end.
Proof.
  intros [Hwf _] Hreq. unfold get_blocking_lock, file_slice.
  destruct (file_bounds (records m) f) as [s e] eqn:Eb.
  rewrite (file_bounds_filter _ _ _ _ (wf_sorted _ Hwf) Eb).
  destruct (find_first _ _) as [r|] eqn:E.
  - apply find_first_Some in E as [Hr Hb]. split; [apply conflict_blocks; [done..|]; by exists r|].
    apply elem_of_filter_bool in Hr as [Hr Hf]. unfold of_file, blocks in *. bool_hyps.
    rewrite orb_true_iff, !bool_decide_eq_true in *. done.
  - rewrite find_first_None in E. intros (r & Hr & Hb)%conflict_blocks; [|done..].
    rewrite E in Hb; done.
Qed.

Lemma get_blocking_lock_spec_witness :
  get_blocking_lock sample file1 (OwnerProcess 3) Read range2 = None /\
  ~ conflict (records sample) file1 (OwnerProcess 3) Read range2.
Proof.
  assert (get_blocking_lock sample file1 (OwnerProcess 3) Read range2 = None) as E
    by (vm_compute; reflexivity).
  split; [exact E|].
  pose proof (get_blocking_lock_spec sample file1 (OwnerProcess 3) Read range2 sample_wf range2_valid) as H.
  rewrite E in H. exact H.
Defined.

(** releasing an owner (process exit), one owner on one file (close), or an
    open file description (last reference) clears exactly the bytes of that
    owner, file, or description, and leaves every other held byte in place. *)
Theorem lock_removal_exact m f o id f' o' off :
  lock_wf m -> 0 <= off <= i64_max ->
  lock_at (records (fst (remove_owner m o))) f' o' off =
    (if bool_decide (o' = o) then None else lock_at (records m) f' o' off) /\
  lock_at (records (fst (remove_file_owner m f o))) f' o' off =
    (if bool_decide (f' = f) && bool_decide (o' = o) then None else lock_at (records m) f' o' off) /\
  lock_at (records (fst (remove_ofd m id))) f' o' off =
    (if owned_by_ofd id o' then None else lock_at (records m) f' o' off).
Proof.
  intros Hm Hoff. pose proof Hm as [Hwf _]. rewrite remove_file_owner_retain by done.
  unfold remove_owner, remove_ofd, retain. simpl. split_and!.
  - case_bool_decide as Ho; [apply lock_at_filtered_out|apply lock_at_filter]; try done;
      intros r _ _ Hr; [apply bool_decide_eq_false|apply bool_decide_eq_true]; congruence.
  - destruct (_ && _) eqn:E; [apply lock_at_filtered_out|apply lock_at_filter]; try done;
      intros r _ Hf Ho; unfold of_file; rewrite Hf, Ho, E; done.
  - destruct (owned_by_ofd id o') eqn:E; [apply lock_at_filtered_out|apply lock_at_filter]; try done;
      intros r _ _ Ho; rewrite Ho, E; done.
Qed.

Lemma lock_removal_exact_witness :
  lock_at (records (fst (remove_owner sample (OwnerProcess 1)))) file1 (OwnerProcess 2) 50 = Some Write.
Proof.
  destruct (lock_removal_exact sample file1 (OwnerProcess 1) 0 file1 (OwnerProcess 2) 50 sample_wf)
    as [H _]; [unfold i64_max; lia|].
  rewrite H. vm_compute. reflexivity.
Defined.

(** [LockRange::normalize] computes the byte range POSIX gives to a start
    and a length (forward, to end of file, or backward from the start) and
    rejects exactly the negative and overflowing requests; every normalized
    range is valid and survives the round trip through [l_start]/[l_len]. *)
Theorem normalize_spec s l :
  i64_min <= s <= i64_max -> i64_min <= l <= i64_max ->
  match normalize s l with
  | Ok r => 0 <= s /\ valid_range r /\ normalize (start r) (len r) = Ok r /\
            forall off, 0 <= off <= i64_max ->
              covers r off = true <->
              (0 < l /\ s <= off < s + l) \/ (l = 0 /\ s <= off) \/ (l < 0 /\ s + l <= off < s)
  | Err EINVAL => s < 0 \/ (l < 0 /\ s + l < 0)
  | Err EOVERFLOW => 0 <= s /\ 0 < l /\ i64_max < s + l
  | Err _ => False
  end.
Proof.
  intros Hs Hl. destruct (normalize s l) as [r|e] eqn:E.
  - pose proof (normalize_valid s l r Hs Hl E) as Hv. split_and!; [|done| |].
    + revert E. unfold normalize. by case_cmp.
    + revert Hv. destruct r as [rs [re|]]; unfold valid_range; simpl; intros [H1 H2].
      * unfold normalize, len, i64_checked_add. simpl.
        repeat (case_cmp; simpl; try lia; try (unfold i64_min in *; lia)).
        do 3 f_equal. lia.
      * unfold normalize. simpl. by case_cmp; [lia|].
    + intros off Hoff. rewrite covers_spec by done. pose proof i64_max_lt.
      revert E. unfold normalize, i64_checked_add.
      repeat (case_cmp; simpl; try done); intros; simplify_eq/=; lia.
  - revert E. unfold normalize, i64_checked_add.
    repeat (case_cmp; simpl; try done); intros; simplify_eq/=; try lia; unfold i64_min in *; lia.
Qed.

Lemma normalize_spec_witness :
  normalize 100 (-30) = Ok (mkRange 70 (Offset 100)) /\ valid_range (mkRange 70 (Offset 100)).
Proof.
  assert (normalize 100 (-30) = Ok (mkRange 70 (Offset 100))) as E by (vm_compute; reflexivity).
  split; [exact E|].
  pose proof (normalize_spec 100 (-30)) as H. rewrite E in H.
  apply H; unfold i64_min, i64_max; lia.
Defined.

(** C26: [set_lock] makes progress.  Its two loops end, whatever the request, from
    any state the operations reach ([lock_wf]):
    started on the range merged while splitting, the coalescing loop without any
    fuel leaves with the very range [set_lock] goes on with, and started on the
    present capacity the growing loop leaves with the capacity [ensure_capacity]
    asks for, which is enough and within the limit.  And there is no spurious
    failure: with memory available and room for the at most three pieces of a
    request, every request that meets no conflict succeeds. *)
Theorem set_lock_progress alloc_ok m f o lt req :
  lock_wf m -> valid_range req ->
  (let slice := file_slice (records m) f in
   let start := merged_request (split_slice o lt req slice) in
   forall t, lt = Some t -> runs_to (coalesce_body o t slice) start (coalesced o lt slice start)) /\
  (forall required, (capacity m < required <= MAX_ADVISORY_LOCK_RECORDS)%nat ->
   exists target, runs_to (grow_body required) (Nat.max (capacity m) 4) target /\
     (required <= target <= MAX_ADVISORY_LOCK_RECORDS)%nat /\
     ensure_capacity alloc_ok m required = if alloc_ok target then Ok (mkManager (records m) target) else Err ENOLCK) /\
  ((forall n, alloc_ok n = true) -> (length (records m) + 3 <= MAX_ADVISORY_LOCK_RECORDS)%nat ->
   (forall t, lt = Some t -> ~ conflict (records m) f o t req) ->
   exists mu m', set_lock alloc_ok m f o lt req = (m', Ok mu)).
Proof.
  intros Hm Hreq. pose proof Hm as [Hwf Hcap]. split_and!.
  - assert (file_slice (records m) f = List.filter (of_file f) (records m)) as ->.
    { unfold file_slice. destruct (file_bounds (records m) f) as [s e] eqn:Eb.
      by rewrite (file_bounds_filter _ _ _ _ (wf_sorted _ Hwf) Eb). }
    cbv zeta. intros t ->. unfold coalesced.
    pose proof (slice_ranges (records m) f Hwf) as Hv.
    pose proof (st_ok (records m) f o (Some t) req Hwf Hreq) as [_ _ _ _ Hst _ _ _].
    apply coalesce_runs; [done|done|]. unfold count. pose proof (filter_length_le (outside o t (merged_request
      (split_slice o (Some t) req (List.filter (of_file f) (records m))))) (List.filter (of_file f) (records m))). lia.
  - intros required Hr. exists (grow_target required (Nat.max (capacity m) 4) required).
    assert (0 < Nat.max (capacity m) 4 <= MAX_ADVISORY_LOCK_RECORDS)%nat as Hmax by (unfold MAX_ADVISORY_LOCK_RECORDS in *; lia).
    split_and!; [apply grow_target_runs; lia|apply grow_target_ok; lia|apply grow_target_ok; lia|].
    unfold ensure_capacity. by rewrite (proj2 (Nat.leb_gt _ _)), (proj2 (Nat.ltb_ge _ _)) by lia.
  - intros Hal Hlen Hnc.
    destruct (set_lock_cases alloc_ok m f o lt req Hm Hreq) as [t r Hlt Hr Hb|?|?|Hf Hbad|?]; eauto.
    + destruct (Hnc t Hlt). apply conflict_blocks; [done..|]. by exists r.
    + pose proof (new_records_length (records m) f o lt req Hf).
      destruct Hbad as [?|[n Hn]]; [lia|]. rewrite Hal in Hn. done.
Qed.

(** Two locks bridged by a request that starts where one ends: the loop needs a
    pass that changes the range and one that does not. *)
Definition two_locks : AdvisoryLockManager :=
  (set_lock (fun _ => true) (set_lock (fun _ => true) new file1 (OwnerProcess 1) (Some Read) (mkRange 0 (Offset 10))).1
     file1 (OwnerProcess 1) (Some Read) (mkRange 20 (Offset 30))).1.

Lemma two_locks_wf : lock_wf two_locks.
Proof. unfold two_locks. repeat apply set_lock_wf; try (by apply new_wf); unfold valid_range, i64_max; simpl; lia. Qed.

Lemma set_lock_progress_witness :
  let slice := file_slice (records two_locks) file1 in
  runs_to (coalesce_body (OwnerProcess 1) Read slice) (mkRange 10 (Offset 20)) (mkRange 0 (Offset 30)) /\
  exists mu m', set_lock (fun _ => true) two_locks file1 (OwnerProcess 1) (Some Read) (mkRange 10 (Offset 20)) = (m', Ok mu).
Proof.
  assert (valid_range (mkRange 10 (Offset 20))) as Hv by (unfold valid_range, i64_max; simpl; lia).
  destruct (set_lock_progress (fun _ => true) two_locks file1 (OwnerProcess 1) (Some Read) _ two_locks_wf Hv) as (Hc & _ & Hp).
  split; [exact (Hc Read eq_refl)|]. apply Hp.
  - reflexivity.
  - vm_compute. lia.
  - intros t [= <-]. pose proof (get_blocking_lock_spec two_locks file1 (OwnerProcess 1) Read _ two_locks_wf Hv) as Hb.
    assert (get_blocking_lock two_locks file1 (OwnerProcess 1) Read (mkRange 10 (Offset 20)) = None) as E by (vm_compute; reflexivity).
    rewrite E in Hb. exact Hb.
Defined.

(** [flock] round trip: after a successful whole-file [flock] request of an
    open file description, [flock_type] reports exactly the requested mode
    ([None] after an unlock), whatever the description held before. *)
Theorem flock_type_after_set alloc_ok m f id lt m' mu :
  lock_wf m ->
  set_lock alloc_ok m f (OwnerFlock id) lt (mkRange 0 Eof) = (m', Ok mu) ->
  flock_type m' f id = lt.
Proof.
  intros Hm Hset. pose proof Hm as [Hwf _].
  pose proof (set_lock_wf alloc_ok m f (OwnerFlock id) lt _ Hm whole_file_valid) as Hwf'.
  pose proof (set_lock_cases alloc_ok m f (OwnerFlock id) lt _ Hm whole_file_valid) as Hout.
  rewrite Hset in Hout, Hwf'. apply flock_type_lock_at; [done|]. intros off Hoff.
  assert (covers (mkRange 0 Eof) off = true) as Hc by (apply covers_spec; simpl; pose proof i64_max_lt; lia).
  inversion Hout as [|Hlt Hn|t Hlt Hf Hin| |cap b Hf]; simplify_eq/=.
  - exact (outcome_nothing_lock_at _ _ _ _ _ Hwf whole_file_valid Hn off Hoff Hc).
  - exact (outcome_same_lock_at _ _ _ _ _ Hwf whole_file_valid Hf Hin off Hoff Hc).
  - rewrite (lock_effect_commit _ _ _ _ _ Hwf whole_file_valid Hf) by done.
    by rewrite !bool_decide_eq_true_2, Hc.
Qed.

Lemma flock_type_after_set_witness :
  flock_type (fst (set_lock (fun _ => true) sample file1 (OwnerFlock 3) (Some Write) (mkRange 0 Eof)))
             file1 3 = Some Write.
Proof.
  apply (flock_type_after_set (fun _ => true) sample file1 3 (Some Write) _ (mkMutation true false) sample_wf).
  vm_compute. reflexivity.
Defined.
