(* ===== verification/Memory.v ===== *)
(** * Process address space ([crates/kernel/src/memory.rs])

    [MemoryManager] with every operation of the source, and the memory system
    calls that are built on it alone ([sys_brk], [sys_mremap]).  Addresses are
    [usize] values: the file is generic in their width ([Usize]), writes out
    [checked_add], [saturating_add] and the wrap-around of plain [+] in the
    release profile, and page rounding is [v & !0xFFFF] ([Z.ldiff]).  The two
    index cursors of [find_gap] are the suffixes of the two sorted vectors that
    remain to be scanned; the loop has fuel for one pass over both.

    The theorems: the layout invariant of a compact process is preserved by any
    sequence of memory operations; the first-fit search returns the lowest free
    range and fails exactly when there is none, and equals a scan of the
    combined sorted list; [mmap] and [munmap] are exact on every byte; [brk]
    moves exactly when its limits and the free space above it allow; a moved or
    resized mapping stays isolated. *)

From stdpp Require Import sorting.
From S2P Require Import Prelude Abi.

(** ** Data *)

Record MappedRegion := mkMapped {
  m_addr : Z;
  m_len : Z;
  m_prot : Z;
  m_flags : Z;
}.

Record ReservedRegion := mkReserved {
  r_addr : Z;
  r_len : Z;
}.

Record MemoryLayoutMetadata := mkLayout {
  lm_initial_brk : Z;
  lm_max_addr : Z;
  lm_brk_limit : Z;
  lm_mmap_base : Z;
  lm_reserved_until : Z;
}.

Record MemoryManager := mkMM {
  mappings : list MappedRegion;
  reserved_regions : list ReservedRegion;
  program_break : Z;
  max_addr : Z;
  mmap_base : Z;
  reserved_until : Z;
  brk_limit : Z;
  data_limit : Z;
  initial_brk : Z;
}.

Definition with_mappings (mm : MemoryManager) (ms : list MappedRegion) : MemoryManager :=
  mkMM ms (reserved_regions mm) (program_break mm) (max_addr mm) (mmap_base mm)
    (reserved_until mm) (brk_limit mm) (data_limit mm) (initial_brk mm).

Definition with_reserved (mm : MemoryManager) (rs : list ReservedRegion) : MemoryManager :=
  mkMM (mappings mm) rs (program_break mm) (max_addr mm) (mmap_base mm)
    (reserved_until mm) (brk_limit mm) (data_limit mm) (initial_brk mm).

Definition with_break (mm : MemoryManager) (brk : Z) : MemoryManager :=
  mkMM (mappings mm) (reserved_regions mm) brk (max_addr mm) (mmap_base mm)
    (reserved_until mm) (brk_limit mm) (data_limit mm) (initial_brk mm).

Definition MMAP_BASE : Z := 0x04000000.
Definition INITIAL_BRK : Z := 0x01000000.
Definition DEFAULT_MAX_ADDR : Z := 0x40000000.

(** [v & !0xFFFF]: round down to a 64 KiB Wasm page. *)
Definition page_down (v : Z) : Z := Z.ldiff v 0xFFFF.

Definition new : MemoryManager :=
  mkMM [] [] INITIAL_BRK DEFAULT_MAX_ADDR MMAP_BASE 0 DEFAULT_MAX_ADDR u64_max INITIAL_BRK.

(** [sort_by_key(|mapping| mapping.addr)], a stable sort. *)
Fixpoint insert_by_addr (m : MappedRegion) (l : list MappedRegion) : list MappedRegion :=
  match l with
  | [] => [m]
  | x :: l' => if m_addr m <=? m_addr x then m :: x :: l' else x :: insert_by_addr m l'
  end.

Definition sort_by_addr (l : list MappedRegion) : list MappedRegion :=
  foldr insert_by_addr [] l.

Definition set_mappings (mm : MemoryManager) (ms : list MappedRegion) : MemoryManager :=
  with_mappings mm (sort_by_addr ms).

Definition set_data_limit (mm : MemoryManager) (limit : Z) : MemoryManager :=
  mkMM (mappings mm) (reserved_regions mm) (program_break mm) (max_addr mm) (mmap_base mm)
    (reserved_until mm) (brk_limit mm) limit (initial_brk mm).

Definition set_max_addr (mm : MemoryManager) (addr : Z) : MemoryManager :=
  if addr <? max_addr mm then
    mkMM (mappings mm) (reserved_regions mm) (program_break mm) addr (mmap_base mm)
      (reserved_until mm) (brk_limit mm) (data_limit mm) (initial_brk mm)
  else mm.

Definition set_brk_limit (mm : MemoryManager) (addr : Z) : MemoryManager :=
  if addr <? brk_limit mm then
    mkMM (mappings mm) (reserved_regions mm) (program_break mm) (max_addr mm) (mmap_base mm)
      (reserved_until mm) addr (data_limit mm) (initial_brk mm)
  else mm.

Definition layout_metadata (mm : MemoryManager) : MemoryLayoutMetadata :=
  mkLayout (initial_brk mm) (max_addr mm) (brk_limit mm) (mmap_base mm) (reserved_until mm).

Definition set_layout_metadata (mm : MemoryManager) (md : MemoryLayoutMetadata) : MemoryManager :=
  mkMM (mappings mm) (reserved_regions mm) (program_break mm) (lm_max_addr md) (lm_mmap_base md)
    (lm_reserved_until md) (lm_brk_limit md) (data_limit mm) (lm_initial_brk md).

Definition get_brk (mm : MemoryManager) : Z := program_break mm.

Section memory.
Context `{Usize}.

Definition align_page_up (addr : Z) : Z := page_down (usize_saturating_add addr 0xFFFF).

(** [match len.checked_add(0xFFFF) { Some(v) => v & !0xFFFF, None => .. }] *)
Definition page_align_len (len : Z) : option Z := page_down <$> usize_checked_add len 0xFFFF.

Definition set_brk_base (mm : MemoryManager) (addr : Z) : MemoryManager :=
  mkMM (mappings mm) (reserved_regions mm) addr (max_addr mm)
    (if mmap_base mm <? addr then align_page_up addr else mmap_base mm)
    (reserved_until mm) (brk_limit mm) (data_limit mm) addr.

Definition set_mmap_base (mm : MemoryManager) (addr : Z) : MemoryManager :=
  mkMM (mappings mm) (reserved_regions mm) (program_break mm) (max_addr mm)
    (Z.max (align_page_up addr) (initial_brk mm))
    (Z.max (reserved_until mm) (initial_brk mm)) (brk_limit mm) (data_limit mm) (initial_brk mm).

(** ** Overlap tests *)

Definition m_end (m : MappedRegion) : Z := usize_saturating_add (m_addr m) (m_len m).
Definition r_end (r : ReservedRegion) : Z := usize_saturating_add (r_addr r) (r_len r).

Definition overlaps_host_control (mm : MemoryManager) (addr len : Z) : bool :=
  if mmap_base mm <=? brk_limit mm then false
  else match usize_checked_add addr len with
       | None => true
       | Some e => (addr <? mmap_base mm) && (brk_limit mm <? e)
       end.

Definition overlaps_reserved_prefix (mm : MemoryManager) (addr len : Z) : bool :=
  if reserved_until mm =? 0 then false
  else match usize_checked_add addr len with
       | None => true
       | Some e => (addr <? reserved_until mm) && (addr <? e)
       end.

Definition overlaps_mappings (mm : MemoryManager) (addr len : Z) : bool :=
  match usize_checked_add addr len with
  | None => true
  | Some e => existsb (fun m => (addr <? m_end m) && (m_addr m <? e)) (mappings mm)
  end.

Definition overlaps_reserved_regions (mm : MemoryManager) (addr len : Z) : bool :=
  match usize_checked_add addr len with
  | None => true
  | Some e => existsb (fun r => (addr <? r_end r) && (r_addr r <? e)) (reserved_regions mm)
  end.

Definition overlaps_host_reserved_region (mm : MemoryManager) (addr len : Z) : bool :=
  overlaps_reserved_regions mm addr len.

Definition overlaps_brk_heap (mm : MemoryManager) (addr len : Z) : bool :=
  if program_break mm <=? initial_brk mm then false
  else match usize_checked_add addr len with
       | None => true
       | Some e => (addr <? program_break mm) && (initial_brk mm <? e)
       end.

(** [m.addr + m.len] is a plain addition: it wraps in the release profile. *)
Definition is_mapped (mm : MemoryManager) (addr : Z) : bool :=
  existsb (fun m => (m_addr m <=? addr) && (addr <? usize_wrapping_add (m_addr m) (m_len m)))
    (mappings mm).

Definition can_grow_at (mm : MemoryManager) (addr len : Z) : bool :=
  match usize_checked_add addr len with
  | None => false
  | Some e =>
      if max_addr mm <? e then false
      else if overlaps_host_control mm addr len then false
      else if overlaps_reserved_prefix mm addr len then false
      else if overlaps_reserved_regions mm addr len then false
      else if negb (reserved_until mm =? 0) && overlaps_brk_heap mm addr len then false
      else negb (existsb (fun m => (addr <? m_end m) && (m_addr m <? e)) (mappings mm))
  end.

(** ** First-fit search *)

(** The head of the merged stream: start, length, and whether it is a mapping. *)
Definition next_region (ms : list MappedRegion) (rs : list ReservedRegion) : option (Z * Z * bool) :=
  match head ms, head rs with
  | Some m, Some r =>
      if m_addr m <=? r_addr r then Some (m_addr m, m_len m, true)
      else Some (r_addr r, r_len r, false)
  | Some m, None => Some (m_addr m, m_len m, true)
  | None, Some r => Some (r_addr r, r_len r, false)
  | None, None => None
  end.

(** How the scan leaves its loop: with an address, or at the end of both
    streams with the final cursor. *)
Inductive ScanOutcome :=
| ScanReturn (addr : Z)
| ScanBreak (cursor : Z)
| ScanOutOfFuel.

Fixpoint gap_loop (fuel : nat) (ms : list MappedRegion) (rs : list ReservedRegion)
    (cursor needed : Z) : ScanOutcome :=
  match fuel with
  | O => ScanOutOfFuel
  | S fuel =>
      match next_region ms rs with
      | None => ScanBreak cursor
      | Some (addr, len, is_mapping) =>
          let ms' := if is_mapping : bool then tail ms else ms in
          let rs' := if is_mapping : bool then rs else tail rs in
          let e := usize_saturating_add addr len in
          let advance := if cursor <? e then e else cursor in
          if addr <? cursor then gap_loop fuel ms' rs' advance needed
          else if needed <=? addr - cursor then ScanReturn cursor
          else gap_loop fuel ms' rs' advance needed
      end
  end.

Definition find_gap (mm : MemoryManager) (needed : Z) : option Z :=
  let fuel := S (length (mappings mm) + length (reserved_regions mm)) in
  let cursor := Z.max (mmap_base mm) (program_break mm) in
  match gap_loop fuel (mappings mm) (reserved_regions mm) cursor needed with
  | ScanReturn a => Some a
  | ScanBreak c => if usize_saturating_add c needed <=? max_addr mm then Some c else None
  | ScanOutOfFuel => None
  end.

(** ** Mapping and unmapping *)

Definition insert_mapping (mm : MemoryManager) (m : MappedRegion) : MemoryManager :=
  with_mappings mm
    (vec_insert (partition_point (fun x => m_addr x <? m_addr m) (mappings mm)) m (mappings mm)).

Definition insert_reserved (mm : MemoryManager) (r : ReservedRegion) : MemoryManager :=
  with_reserved mm
    (vec_insert (partition_point (fun x => r_addr x <? r_addr r) (reserved_regions mm)) r
       (reserved_regions mm)).

(** The conditions under which a [MAP_FIXED] request is refused. *)
Definition fixed_rejected (mm : MemoryManager) (hint aligned_len : Z) : bool :=
  (max_addr mm <? usize_saturating_add hint aligned_len)
  || overlaps_reserved_prefix mm hint aligned_len
  || overlaps_reserved_regions mm hint aligned_len
  || overlaps_host_control mm hint aligned_len
  || (negb (reserved_until mm =? 0) && overlaps_brk_heap mm hint aligned_len).

Definition fixed_retain (mm : MemoryManager) (hint e : Z) : MemoryManager :=
  with_mappings mm (List.filter (fun m => (m_end m <=? hint) || (e <=? m_addr m)) (mappings mm)).

(** The address a request without [MAP_FIXED] is placed at. *)
Definition place_hint (mm : MemoryManager) (hint aligned_len : Z) : option Z :=
  let rounded_hint := page_down hint in
  let hinted_addr :=
    if (Z.max (mmap_base mm) (program_break mm) <=? rounded_hint)
       && can_grow_at mm rounded_hint aligned_len
    then Some rounded_hint else None in
  match hinted_addr with
  | Some a => Some a
  | None => find_gap mm aligned_len
  end.

Definition mmap_anonymous (mm : MemoryManager) (hint len prot flags : Z) : Z * MemoryManager :=
  if len =? 0 then (MAP_FAILED, mm)
  else match page_align_len len with
  | None => (MAP_FAILED, mm)
  | Some aligned_len =>
      if negb (hint =? 0) && negb (Z.land flags MAP_FIXED =? 0) then
        if fixed_rejected mm hint aligned_len then (MAP_FAILED, mm)
        else
          let mm' := fixed_retain mm hint (usize_saturating_add hint aligned_len) in
          (hint, insert_mapping mm' (mkMapped hint aligned_len prot flags))
      else
        match place_hint mm hint aligned_len with
        | None => (MAP_FAILED, mm)
        | Some addr => (addr, insert_mapping mm (mkMapped addr aligned_len prot flags))
        end
  end.

(** What remains of one mapping when [addr, unmap_end) is unmapped, and whether
    it overlapped. *)
Definition unmap_one (addr unmap_end : Z) (m : MappedRegion) : list MappedRegion * bool :=
  if (m_end m <=? addr) || (unmap_end <=? m_addr m) then ([m], false)
  else
    ((if m_addr m <? addr
      then [mkMapped (m_addr m) (addr - m_addr m) (m_prot m) (m_flags m)] else [])
     ++ (if unmap_end <? m_end m
         then [mkMapped unmap_end (m_end m - unmap_end) (m_prot m) (m_flags m)] else []),
     true).

Fixpoint unmap_all (addr unmap_end : Z) (ms : list MappedRegion) : list MappedRegion * bool :=
  match ms with
  | [] => ([], false)
  | m :: ms' =>
      let '(l1, f1) := unmap_one addr unmap_end m in
      let '(l2, f2) := unmap_all addr unmap_end ms' in
      (l1 ++ l2, f1 || f2)
  end.

Definition munmap (mm : MemoryManager) (addr len : Z) : bool * MemoryManager :=
  if len =? 0 then (false, mm)
  else match page_align_len len with
  | None => (false, mm)
  | Some aligned_len =>
      let '(new_mappings, found) :=
        unmap_all addr (usize_saturating_add addr aligned_len) (mappings mm) in
      (found, with_mappings mm new_mappings)
  end.

(** ** Program break *)

Definition set_brk (mm : MemoryManager) (new_brk : Z) : Z * MemoryManager :=
  let brk := program_break mm in
  if new_brk =? 0 then (brk, mm)
  else if new_brk <? initial_brk mm then (brk, mm)
  else if max_addr mm <? new_brk then (brk, mm)
  else if brk_limit mm <? new_brk then (brk, mm)
  else if (brk <? new_brk) && overlaps_mappings mm brk (new_brk - brk) then (brk, mm)
  else if (brk <? new_brk) && overlaps_reserved_regions mm brk (new_brk - brk) then (brk, mm)
  else if (initial_brk mm <? new_brk) && (data_limit mm <? new_brk - initial_brk mm) then (brk, mm)
  else (new_brk, with_break mm new_brk).

(** ** Host reservations *)

Definition reserve_host_region (mm : MemoryManager) (len : Z) : Z * MemoryManager :=
  if len =? 0 then (MAP_FAILED, mm)
  else match page_align_len len with
  | None => (MAP_FAILED, mm)
  | Some aligned_len =>
      match find_gap mm aligned_len with
      | None => (MAP_FAILED, mm)
      | Some addr => (addr, insert_reserved mm (mkReserved addr aligned_len))
      end
  end.

Definition reserve_host_region_at (mm : MemoryManager) (addr len : Z) : Z * MemoryManager :=
  if (len =? 0) || negb (Z.land addr 0xFFFF =? 0) then (MAP_FAILED, mm)
  else match page_align_len len with
  | None => (MAP_FAILED, mm)
  | Some aligned_len =>
      match usize_checked_add addr aligned_len with
      | None => (MAP_FAILED, mm)
      | Some e =>
          if (max_addr mm <? e)
             || overlaps_reserved_prefix mm addr aligned_len
             || overlaps_host_control mm addr aligned_len
             || overlaps_mappings mm addr aligned_len
             || overlaps_reserved_regions mm addr aligned_len
             || (negb (reserved_until mm =? 0) && overlaps_brk_heap mm addr aligned_len)
          then (MAP_FAILED, mm)
          else (addr, insert_reserved mm (mkReserved addr aligned_len))
      end
  end.

(** ** Remapping *)

Fixpoint extend_first (addr old_len new_len : Z) (ms : list MappedRegion)
    : list MappedRegion * bool :=
  match ms with
  | [] => ([], false)
  | m :: ms' =>
      if (m_addr m =? addr) && (m_len m =? old_len)
      then (mkMapped (m_addr m) new_len (m_prot m) (m_flags m) :: ms', true)
      else let '(l, f) := extend_first addr old_len new_len ms' in (m :: l, f)
  end.

Definition extend_mapping (mm : MemoryManager) (addr old_len new_len : Z) : bool * MemoryManager :=
  let '(ms, f) := extend_first addr old_len new_len (mappings mm) in (f, with_mappings mm ms).

Definition sys_brk (mm : MemoryManager) (addr : Z) : Z * MemoryManager :=
  if addr =? 0 then (get_brk mm, mm) else set_brk mm addr.

Definition MREMAP_MAYMOVE : Z := 1.
Definition MAP_PRIVATE : Z := 2.
Definition MAP_ANONYMOUS : Z := 0x20.

Definition sys_mremap (mm : MemoryManager) (old_addr old_len new_len flags : Z)
    : kresult Z * MemoryManager :=
  if (old_len =? 0) || (new_len =? 0) then (Err EINVAL, mm)
  else if negb (Z.ldiff flags MREMAP_MAYMOVE =? 0) then (Err EINVAL, mm)
  else
    let aligned_old := page_down (usize_wrapping_add old_len 0xFFFF) in
    let aligned_new := page_down (usize_wrapping_add new_len 0xFFFF) in
    if aligned_new <=? aligned_old then
      if aligned_new <? aligned_old then
        let '(_, mm') := munmap mm (usize_wrapping_add old_addr aligned_new)
                           (aligned_old - aligned_new) in
        (Ok old_addr, mm')
      else (Ok old_addr, mm)
    else
      let extra := aligned_new - aligned_old in
      let grow_start := usize_wrapping_add old_addr aligned_old in
      if can_grow_at mm grow_start extra then
        let '(found, mm') := extend_mapping mm old_addr aligned_old aligned_new in
        if found : bool then (Ok old_addr, mm') else (Err EFAULT, mm')
      else if negb (Z.land flags MREMAP_MAYMOVE =? 0) then
        let '(new_addr, mm') :=
          mmap_anonymous mm 0 aligned_new 3 (Z.lor MAP_PRIVATE MAP_ANONYMOUS) in
        if new_addr =? MAP_FAILED then (Err ENOMEM, mm')
        else
          let '(_, mm'') := munmap mm' old_addr aligned_old in
          (Ok new_addr, mm'')
      else (Err ENOMEM, mm).

(** ** Page arithmetic *)

Lemma page_down_eq v : page_down v = 65536 * (v / 65536).
Proof.
  unfold page_down. change 0xFFFF with (Z.ones 16).
  rewrite Z.ldiff_ones_r, Z.shiftl_mul_pow2, Z.shiftr_div_pow2 by lia.
  change (2 ^ 16) with 65536. lia.
Qed.

Lemma page_down_bounds v : v - 65536 < page_down v <= v.
Proof. rewrite page_down_eq. pose proof (Z.mod_pos_bound v 65536). pose proof (Z.div_mod v 65536). lia. Qed.

Lemma page_align_len_Some len al :
  page_align_len len = Some al ->
  len <= al < len + 65536 /\ (65536 | al) /\ al <= usize_max.
Proof.
  unfold page_align_len, usize_checked_add.
  destruct (Z.leb_spec (len + 0xFFFF) usize_max); simpl; [|done]. intros [= <-].
  pose proof (page_down_bounds (len + 65535)). split; [lia|]. split; [|lia].
  rewrite page_down_eq. exists ((len + 65535) / 65536). lia.
Qed.

Lemma checked_add_Some a b e : usize_checked_add a b = Some e <-> e = a + b /\ a + b <= usize_max.
Proof.
  unfold usize_checked_add. case_cmp; split.
  - intros [= <-]. lia.
  - by intros [-> _].
  - done.
  - lia.
Qed.

(** ** Spans: the address ranges both kinds of region occupy *)

Definition mspan (m : MappedRegion) : Z * Z := (m_addr m, m_len m).
Definition rspan (r : ReservedRegion) : Z * Z := (r_addr r, r_len r).
Definition span_end (s : Z * Z) : Z := usize_saturating_add s.1 s.2.

Definition occupied (mm : MemoryManager) : list (Z * Z) :=
  (mspan <$> mappings mm) ++ (rspan <$> reserved_regions mm).

(** [len] bytes at [addr] avoid the span [s]. *)
Definition avoids (addr len : Z) (s : Z * Z) : Prop := span_end s <= addr \/ addr + len <= s.1.

Lemma span_overlap_false addr len s :
  (addr <? span_end s) && (s.1 <? addr + len) = false <-> avoids addr len s.
Proof. unfold avoids. rewrite andb_false_iff, Z.ltb_ge, Z.ltb_ge. intuition lia. Qed.

Lemma existsb_span_false {A} (f : A -> Z * Z) addr len (l : list A) :
  existsb (fun x => (addr <? span_end (f x)) && ((f x).1 <? addr + len)) l = false <->
  forall s, s ∈ f <$> l -> avoids addr len s.
Proof.
  setoid_rewrite <- span_overlap_false.
  split.
  - intros He s (x & -> & Hx)%list_elem_of_fmap.
    destruct ((addr <? _) && _) eqn:E; [|done].
    enough (false = true) by done. rewrite <- He. apply existsb_elem. by exists x.
  - intros Ha. apply not_true_is_false. intros (x & Hx & E)%existsb_elem.
    rewrite Ha in E; [done|]. apply list_elem_of_fmap. by exists x.
Qed.

Lemma overlaps_mappings_false mm addr len :
  overlaps_mappings mm addr len = false <->
  addr + len <= usize_max /\ forall s, s ∈ mspan <$> mappings mm -> avoids addr len s.
Proof.
  unfold overlaps_mappings, usize_checked_add. case_cmp.
  - rewrite (existsb_span_false mspan). by intuition.
  - split; [done|lia].
Qed.

Lemma overlaps_reserved_regions_false mm addr len :
  overlaps_reserved_regions mm addr len = false <->
  addr + len <= usize_max /\ forall s, s ∈ rspan <$> reserved_regions mm -> avoids addr len s.
Proof.
  unfold overlaps_reserved_regions, usize_checked_add. case_cmp.
  - rewrite (existsb_span_false rspan). by intuition.
  - split; [done|lia].
Qed.

(** ** The first-fit search *)

(** The reference: scan one list of spans in order. *)
Fixpoint scan_spans (l : list (Z * Z)) (cursor needed limit : Z) : option Z :=
  match l with
  | [] => if usize_saturating_add cursor needed <=? limit then Some cursor else None
  | s :: l' =>
      if (cursor <=? s.1) && (needed <=? s.1 - cursor) then Some cursor
      else scan_spans l' (Z.max cursor (span_end s)) needed limit
  end.

Definition addr_le (s t : Z * Z) : Prop := s.1 <= t.1.
#[local] Instance addr_le_dec s t : Decision (addr_le s t).
Proof. unfold addr_le. apply _. Defined.
#[local] Instance addr_le_trans : Transitive addr_le.
Proof. unfold addr_le. intros ???. lia. Qed.
#[local] Instance addr_le_total : Total addr_le.
Proof. unfold addr_le. intros ??. lia. Qed.

Definition merged (mm : MemoryManager) : list (Z * Z) :=
  list_merge addr_le (mspan <$> mappings mm) (rspan <$> reserved_regions mm).

Lemma gap_loop_scan fuel ms rs cursor needed limit :
  (length ms + length rs < fuel)%nat ->
  match gap_loop fuel ms rs cursor needed with
  | ScanReturn a => Some a
  | ScanBreak c => if usize_saturating_add c needed <=? limit then Some c else None
  | ScanOutOfFuel => None
  end = scan_spans (list_merge addr_le (mspan <$> ms) (rspan <$> rs)) cursor needed limit.
Proof.
  revert ms rs cursor. induction fuel as [|fuel IH]; intros ms rs cursor Hf; [lia|].
  assert (forall e, (if cursor <? e then e else cursor) = Z.max cursor e) as Hmax
    by (intros e; destruct (Z.ltb_spec cursor e); lia).
  destruct ms as [|m ms], rs as [|r rs]; simpl in *.
  - done.
  - rewrite !Hmax. repeat case_cmp; simpl; try lia; try done;
      rewrite IH by (simpl; lia); by destruct rs.
  - rewrite !Hmax. repeat case_cmp; simpl; try lia; try done;
      rewrite IH by (simpl; lia); by destruct ms.
  - unfold next_region; simpl. destruct (decide (addr_le (mspan m) (rspan r))) as [Hle|Hle];
      unfold addr_le in Hle; simpl in Hle; case_cmp; try lia; simpl; rewrite !Hmax;
      repeat case_cmp; simpl; try lia; try done; by rewrite IH by (simpl; lia).
Qed.

Lemma find_gap_scan mm needed :
  find_gap mm needed =
  scan_spans (merged mm) (Z.max (mmap_base mm) (program_break mm)) needed (max_addr mm).
Proof. unfold find_gap, merged. apply gap_loop_scan. lia. Qed.

Lemma scan_spans_sound l cursor needed limit a :
  StronglySorted addr_le l -> 0 < needed ->
  scan_spans l cursor needed limit = Some a ->
  cursor <= a /\ (forall s, s ∈ l -> avoids a needed s) /\
  (usize_saturating_add a needed <= limit \/ exists s, s ∈ l /\ a + needed <= s.1).
Proof.
  intros Hs Hn. revert cursor. induction Hs as [|s l Hl IH Hx]; intros cursor; simpl.
  - case_cmp; [|done]. intros [= <-]. set_solver by lia.
  - destruct ((cursor <=? s.1) && _) eqn:E.
    + intros [= <-]. bool_hyps. split; [lia|]. split; [|right; exists s; set_solver by lia].
      rewrite Forall_forall in Hx. intros t Ht. right.
      apply elem_of_cons in Ht as [->|Ht]; [lia|]. apply Hx in Ht. unfold addr_le in Ht. lia.
    + intros (Hc & Hav & Hlim)%IH. split; [lia|]. split.
      * intros t Ht. apply elem_of_cons in Ht as [->|Ht]; [left; lia|by apply Hav].
      * set_solver.
Qed.

Lemma scan_spans_lowest l cursor needed limit a :
  0 < needed -> cursor <= a -> usize_saturating_add a needed <= limit ->
  (forall s, s ∈ l -> avoids a needed s) ->
  exists b, scan_spans l cursor needed limit = Some b /\ b <= a.
Proof.
  intros Hn. revert cursor. induction l as [|s l IH]; intros cursor Hc Hlim Hav; simpl.
  - case_cmp; [eauto|]. unfold usize_saturating_add in *. lia.
  - destruct ((cursor <=? s.1) && _) eqn:E; [eauto|].
    apply IH; [|done|set_solver].
    apply andb_false_iff in E. rewrite !Z.leb_gt in E.
    destruct (Hav s) as [?|?]; [set_solver|lia|lia].
Qed.

(** ** The layout invariant *)

Definition before (s t : Z * Z) : Prop := s.1 + s.2 <= t.1 /\ 0 < s.2 /\ 0 < t.2.
#[local] Instance before_trans : Transitive before.
Proof. unfold before. intros ???. lia. Qed.

(** A region lies inside the address space, outside the host control pages
    between [brk_limit] and [mmap_base], and, in a compact process (one with a
    protected prefix), above the prefix and outside the brk heap. *)
Record span_ok (mm : MemoryManager) (s : Z * Z) : Prop := {
  so_pos : 0 <= s.1 /\ 0 < s.2;
  so_max : s.1 + s.2 <= max_addr mm;
  so_control : brk_limit mm < mmap_base mm -> s.1 + s.2 <= brk_limit mm \/ mmap_base mm <= s.1;
  so_prefix : reserved_until mm <> 0 -> reserved_until mm <= s.1;
  so_heap : reserved_until mm <> 0 -> initial_brk mm < program_break mm ->
    s.1 + s.2 <= initial_brk mm \/ program_break mm <= s.1;
}.

Record layout_ok (mm : MemoryManager) : Prop := {
  lo_base : 0 <= mmap_base mm;
  lo_brk : 0 <= initial_brk mm <= program_break mm;
  lo_brk_limit : program_break mm <= brk_limit mm /\ program_break mm <= max_addr mm;
  lo_max : max_addr mm < usize_max;
  lo_prefix : 0 <= reserved_until mm <= mmap_base mm;
  lo_data : 0 <= data_limit mm;
  lo_maps : StronglySorted before (mspan <$> mappings mm);
  lo_res : StronglySorted before (rspan <$> reserved_regions mm);
  lo_spans : forall s, s ∈ occupied mm -> span_ok mm s;
  lo_sep : forall s t, s ∈ mspan <$> mappings mm -> t ∈ rspan <$> reserved_regions mm ->
    s.1 + s.2 <= t.1 \/ t.1 + t.2 <= s.1;
}.

Lemma elem_of_occupied mm s :
  s ∈ occupied mm <-> s ∈ mspan <$> mappings mm \/ s ∈ rspan <$> reserved_regions mm.
Proof. apply elem_of_app. Qed.

Lemma occupied_end mm s : layout_ok mm -> s ∈ occupied mm -> span_end s = s.1 + s.2.
Proof.
  intros Hok Hs. pose proof (lo_max _ Hok). apply (lo_spans _ Hok) in Hs as [_ ? _ _ _].
  unfold span_end, usize_saturating_add. lia.
Qed.

Lemma avoids_disjoint mm a len s :
  layout_ok mm -> s ∈ occupied mm -> avoids a len s <-> s.1 + s.2 <= a \/ a + len <= s.1.
Proof. intros. unfold avoids. by rewrite (occupied_end mm). Qed.

(** The checks of the placement paths establish [span_ok]. *)
Lemma placement_span_ok mm a len :
  layout_ok mm -> 0 <= a -> 0 < len -> a + len <= max_addr mm ->
  overlaps_host_control mm a len = false ->
  overlaps_reserved_prefix mm a len = false ->
  negb (reserved_until mm =? 0) && overlaps_brk_heap mm a len = false ->
  span_ok mm (a, len).
Proof.
  intros Hok Ha Hl Hm Hc Hp Hh. pose proof (lo_max _ Hok).
  unfold overlaps_host_control, overlaps_reserved_prefix, overlaps_brk_heap in *.
  assert (usize_checked_add a len = Some (a + len)) as E by (apply checked_add_Some; lia).
  rewrite E in *. split; simpl; try lia.
  - intros ?. cases_if.
  - intros ?. cases_if.
  - intros ? ?. destruct (Z.eqb_spec (reserved_until mm) 0); simpl in *; [lia|].
    cases_if.
Qed.

Lemma fmap_vec_insert {A B} (f : A -> B) i x l :
  f <$> vec_insert i x l = vec_insert i (f x) (f <$> l).
Proof. unfold vec_insert. by rewrite fmap_app, fmap_take, fmap_cons, fmap_drop. Qed.

Lemma partition_point_fmap {A B} (f : A -> B) (p : B -> bool) l :
  partition_point p (f <$> l) = partition_point (fun x => p (f x)) l.
Proof. induction l as [|x l IH]; csimpl; [done|]. destruct (p (f x)); congruence. Qed.

(** Inserting a free span at its partition point keeps a region vector sorted. *)
Lemma insert_span_sorted {A} (f : A -> Z * Z) x l :
  StronglySorted before (f <$> l) -> 0 < (f x).2 ->
  (forall s, s ∈ f <$> l -> 0 < s.2 /\ (s.1 + s.2 <= (f x).1 \/ (f x).1 + (f x).2 <= s.1)) ->
  StronglySorted before
    (f <$> vec_insert (partition_point (fun y => (f y).1 <? (f x).1) l) x l).
Proof.
  intros Hs Hx Hd. rewrite fmap_vec_insert.
  rewrite <- (partition_point_fmap f (fun s => s.1 <? (f x).1)).
  apply partition_insert_sorted; [apply _|done|..]; intros s Hin Hlt;
    apply Hd in Hin as [? ?]; unfold before; lia.
Qed.

Lemma insert_mapping_layout mm m :
  layout_ok mm -> span_ok mm (mspan m) ->
  (forall s, s ∈ occupied mm -> avoids (m_addr m) (m_len m) s) ->
  layout_ok (insert_mapping mm m).
Proof.
  intros Hok Hm Hav.
  assert (forall s, s ∈ occupied mm -> 0 < s.2 /\
    (s.1 + s.2 <= m_addr m \/ m_addr m + m_len m <= s.1)) as Hd.
  { intros s Hs. split; [by apply (lo_spans _ Hok)|]. apply (avoids_disjoint mm); auto. }
  pose proof Hok as [? ? ? ? ? ? Hms Hrs Hsp Hsep].
  unfold insert_mapping. split; simpl; auto.
  - apply (insert_span_sorted mspan); [done|apply Hm|].
    intros s Hs. apply Hd, elem_of_occupied. by left.
  - intros s Hs. apply elem_of_occupied in Hs; simpl in Hs.
    rewrite fmap_vec_insert, elem_of_vec_insert in Hs.
    destruct Hs as [[->|Hs]|Hs]; [by destruct Hm; split|..];
      (destruct (Hsp s); [apply elem_of_occupied; auto|by split]).
  - intros s t Hs Ht. rewrite fmap_vec_insert, elem_of_vec_insert in Hs.
    destruct Hs as [->|Hs]; [|auto].
    destruct (Hd t); [apply elem_of_occupied; auto|]. simpl. lia.
Qed.

Lemma insert_reserved_layout mm r :
  layout_ok mm -> span_ok mm (rspan r) ->
  (forall s, s ∈ occupied mm -> avoids (r_addr r) (r_len r) s) ->
  layout_ok (insert_reserved mm r).
Proof.
  intros Hok Hm Hav.
  assert (forall s, s ∈ occupied mm -> 0 < s.2 /\
    (s.1 + s.2 <= r_addr r \/ r_addr r + r_len r <= s.1)) as Hd.
  { intros s Hs. split; [by apply (lo_spans _ Hok)|]. apply (avoids_disjoint mm); auto. }
  pose proof Hok as [? ? ? ? ? ? Hms Hrs Hsp Hsep].
  unfold insert_reserved. split; simpl; auto.
  - apply (insert_span_sorted rspan); [done|apply Hm|].
    intros s Hs. apply Hd, elem_of_occupied. by right.
  - intros s Hs. apply elem_of_occupied in Hs; simpl in Hs.
    rewrite fmap_vec_insert, elem_of_vec_insert in Hs.
    destruct Hs as [Hs|[->|Hs]]; [|by destruct Hm; split|];
      (destruct (Hsp s); [apply elem_of_occupied; auto|by split]).
  - intros s t Hs Ht. rewrite fmap_vec_insert, elem_of_vec_insert in Ht.
    destruct Ht as [->|Ht]; [|auto].
    destruct (Hd s); [apply elem_of_occupied; auto|]. simpl. lia.
Qed.

(** *** Placement *)

Lemma sorted_before_addr l : StronglySorted before l -> Sorted addr_le l.
Proof.
  intros Hs. apply StronglySorted_Sorted. induction Hs as [|s l Hl IH Hx]; [constructor|].
  constructor; [done|]. eapply Forall_impl; [done|]. unfold before, addr_le. simpl. lia.
Qed.

Lemma merged_sorted mm : layout_ok mm -> StronglySorted addr_le (merged mm).
Proof.
  intros Hok. apply Sorted_StronglySorted; [unfold Relations_1.Transitive; intros ???; apply addr_le_trans|].
  apply Sorted_list_merge; [apply _|apply sorted_before_addr, Hok..].
Qed.

Lemma elem_of_merged mm s : s ∈ merged mm <-> s ∈ occupied mm.
Proof. unfold merged. by rewrite merge_Permutation. Qed.

Lemma find_gap_sound mm needed a :
  layout_ok mm -> 0 < needed -> find_gap mm needed = Some a ->
  Z.max (mmap_base mm) (program_break mm) <= a /\ span_ok mm (a, needed) /\
  forall s, s ∈ occupied mm -> avoids a needed s.
Proof.
  intros Hok Hn. rewrite find_gap_scan.
  intros (Hc & Hav & Hl)%scan_spans_sound; [|by apply merged_sorted|done].
  setoid_rewrite elem_of_merged in Hav. split; [done|]. split; [|done].
  pose proof Hok as [? ? ? ? ? ? _ _ Hsp _].
  split; simpl; try lia. destruct Hl as [Hl|(s & Hs%elem_of_merged & Hl)].
  - unfold usize_saturating_add in Hl. lia.
  - apply Hsp in Hs as [? ? _ _ _]. lia.
Qed.

Lemma find_gap_lowest mm needed a :
  0 < needed -> Z.max (mmap_base mm) (program_break mm) <= a -> a + needed <= max_addr mm ->
  (forall s, s ∈ occupied mm -> avoids a needed s) ->
  exists b, find_gap mm needed = Some b /\ b <= a.
Proof.
  intros Hn Hc Hm Hav. rewrite find_gap_scan. apply scan_spans_lowest; try done.
  - unfold usize_saturating_add. lia.
  - intros s Hs%elem_of_merged. auto.
Qed.

Lemma can_grow_at_sound mm a len :
  layout_ok mm -> 0 <= a -> 0 < len -> can_grow_at mm a len = true ->
  span_ok mm (a, len) /\ forall s, s ∈ occupied mm -> avoids a len s.
Proof.
  intros Hok Ha Hl. unfold can_grow_at.
  destruct (usize_checked_add a len) as [e|] eqn:E; [|done].
  apply checked_add_Some in E as [-> E]. intros Hc. cases_if.
  rewrite (existsb_span_false mspan) in Hc.
  assert (overlaps_reserved_regions mm a len = false) as Hr by done.
  apply overlaps_reserved_regions_false in Hr as [_ Hr].
  split; [apply placement_span_ok; auto; lia|].
  intros s [Hs|Hs]%elem_of_occupied; auto.
Qed.

(** *** Removing and trimming mappings *)

(** Replacing the mappings by sorted sub-ranges of them keeps the layout. *)
Lemma with_mappings_layout mm ms :
  layout_ok mm -> StronglySorted before (mspan <$> ms) ->
  (forall s, s ∈ mspan <$> ms -> 0 < s.2 /\
     exists t, t ∈ mspan <$> mappings mm /\ t.1 <= s.1 /\ s.1 + s.2 <= t.1 + t.2) ->
  layout_ok (with_mappings mm ms).
Proof.
  intros Hok Hs Hsub. pose proof Hok as [? ? ? ? ? ? Hms Hrs Hsp Hsep].
  split; simpl; auto.
  - intros s [Hin|Hin]%elem_of_occupied; simpl in Hin.
    + apply Hsub in Hin as (Hpos & t & Ht & ? & ?).
      destruct (Hsp t) as [? ? Hc Hp Hh]; [apply elem_of_occupied; auto|].
      split; simpl; try lia.
    + destruct (Hsp s); [apply elem_of_occupied; auto|by split].
  - intros s t Hs' Ht. apply Hsub in Hs' as (Hpos & u & Hu & ? & ?).
    destruct (Hsep u t); auto; lia.
Qed.

Lemma fixed_retain_layout mm hint e : layout_ok mm -> layout_ok (fixed_retain mm hint e).
Proof.
  intros Hok. apply with_mappings_layout; [done|..].
  - pose proof (lo_maps _ Hok) as Hs. induction (mappings mm) as [|m ms IH]; csimpl; [constructor|].
    inversion Hs as [|? ? Hs' Hx]; subst. specialize (IH Hs').
    case_bool_step; csimpl; [|done]. constructor; [done|].
    rewrite Forall_forall in *. intros s (m' & -> & Hm'%elem_of_filter_bool)%list_elem_of_fmap.
    apply Hx, list_elem_of_fmap_2, Hm'.
  - intros s (m & -> & [Hm _]%elem_of_filter_bool)%list_elem_of_fmap.
    assert (mspan m ∈ mspan <$> mappings mm) as Hin by by apply list_elem_of_fmap_2.
    split; [|exists (mspan m); split; [done|lia]].
    apply (lo_spans _ Hok). apply elem_of_occupied. by left.
Qed.

(** A byte of a region vector, with the protection and flags it is mapped with. *)
Definition mapped_byte (ms : list MappedRegion) (x p f : Z) : Prop :=
  exists m, m ∈ ms /\ m_addr m <= x < m_addr m + m_len m /\ m_prot m = p /\ m_flags m = f.

Lemma mapped_byte_nil x p f : mapped_byte [] x p f <-> False.
Proof. unfold mapped_byte. set_solver. Qed.

Lemma mapped_byte_cons m ms x p f :
  mapped_byte (m :: ms) x p f <->
  (m_addr m <= x < m_addr m + m_len m /\ m_prot m = p /\ m_flags m = f) \/ mapped_byte ms x p f.
Proof. unfold mapped_byte. setoid_rewrite elem_of_cons. naive_solver. Qed.

Lemma mapped_byte_app ms1 ms2 x p f :
  mapped_byte (ms1 ++ ms2) x p f <-> mapped_byte ms1 x p f \/ mapped_byte ms2 x p f.
Proof. unfold mapped_byte. setoid_rewrite elem_of_app. naive_solver. Qed.

Lemma mapped_byte_insert mm m x p f :
  mapped_byte (mappings (insert_mapping mm m)) x p f <->
  mapped_byte (mappings mm) x p f \/
  m_addr m <= x < m_addr m + m_len m /\ m_prot m = p /\ m_flags m = f.
Proof. unfold mapped_byte. simpl. setoid_rewrite elem_of_vec_insert. naive_solver. Qed.

Definition end_exact (m : MappedRegion) : Prop := m_end m = m_addr m + m_len m /\ 0 < m_len m.

Lemma mappings_end_exact mm m : layout_ok mm -> m ∈ mappings mm -> end_exact m.
Proof.
  intros Hok Hm. assert (mspan m ∈ occupied mm) as Hin.
  { apply elem_of_occupied. left. by apply list_elem_of_fmap_2. }
  split; [exact (occupied_end mm _ Hok Hin)|]. by apply (lo_spans _ Hok) in Hin as [[_ ?] _ _ _ _].
Qed.

Lemma unmap_one_byte addr e m x p f :
  end_exact m -> addr <= e ->
  mapped_byte (unmap_one addr e m).1 x p f <-> mapped_byte [m] x p f /\ ~ (addr <= x < e).
Proof.
  intros [He Hp] Hle. unfold unmap_one. rewrite He.
  repeat case_cmp; simpl; rewrite ?mapped_byte_cons, ?mapped_byte_nil; simpl; intuition lia.
Qed.

Lemma unmap_one_spans addr e m s :
  end_exact m -> addr <= e -> s ∈ mspan <$> (unmap_one addr e m).1 ->
  0 < s.2 /\ m_addr m <= s.1 /\ s.1 + s.2 <= m_addr m + m_len m.
Proof.
  intros [He Hp] Hle. unfold unmap_one. rewrite He.
  repeat case_cmp; csimpl; rewrite ?elem_of_cons, ?elem_of_nil;
    intuition (subst; simpl; lia).
Qed.

Lemma unmap_one_sorted addr e m :
  end_exact m -> addr <= e -> StronglySorted before (mspan <$> (unmap_one addr e m).1).
Proof.
  intros [He Hp] Hle. unfold unmap_one. rewrite He. unfold before.
  repeat case_cmp; csimpl; repeat constructor; simpl; lia.
Qed.

Lemma unmap_all_app addr e m ms :
  unmap_all addr e (m :: ms) =
  ((unmap_one addr e m).1 ++ (unmap_all addr e ms).1,
   (unmap_one addr e m).2 || (unmap_all addr e ms).2).
Proof. simpl. by destruct (unmap_one addr e m), (unmap_all addr e ms). Qed.

Lemma unmap_all_byte addr e ms x p f :
  Forall end_exact ms -> addr <= e ->
  mapped_byte (unmap_all addr e ms).1 x p f <-> mapped_byte ms x p f /\ ~ (addr <= x < e).
Proof.
  intros Hms Hle. induction Hms as [|m ms Hm Hms IH]; [simpl; rewrite mapped_byte_nil; tauto|].
  rewrite unmap_all_app; simpl. rewrite mapped_byte_app, IH, unmap_one_byte by done.
  rewrite !mapped_byte_cons, mapped_byte_nil. tauto.
Qed.

Lemma unmap_all_found addr e ms :
  (unmap_all addr e ms).2 = true <-> exists m, m ∈ ms /\ addr < m_end m /\ m_addr m < e.
Proof.
  induction ms as [|m ms IH]; [set_solver|].
  rewrite unmap_all_app; simpl. rewrite orb_true_iff, IH. setoid_rewrite elem_of_cons.
  assert ((unmap_one addr e m).2 = true <-> addr < m_end m /\ m_addr m < e) as ->.
  { unfold unmap_one. repeat case_cmp; simpl; intuition (try done; lia). }
  naive_solver.
Qed.

Lemma unmap_all_spans addr e ms s :
  Forall end_exact ms -> addr <= e -> s ∈ mspan <$> (unmap_all addr e ms).1 ->
  0 < s.2 /\ exists t, t ∈ mspan <$> ms /\ t.1 <= s.1 /\ s.1 + s.2 <= t.1 + t.2.
Proof.
  intros Hms Hle. induction Hms as [|m ms Hm Hms IH]; [set_solver|].
  rewrite unmap_all_app. csimpl. rewrite fmap_app, elem_of_app. intros [Hs|Hs].
  - apply unmap_one_spans in Hs as (? & ? & ?); [|done..]. split; [done|].
    exists (mspan m). split; [by constructor|done].
  - apply IH in Hs as (? & t & Ht & ?). split; [done|]. exists t. split; [by constructor|done].
Qed.

Lemma unmap_all_sorted addr e ms :
  Forall end_exact ms -> addr <= e -> StronglySorted before (mspan <$> ms) ->
  StronglySorted before (mspan <$> (unmap_all addr e ms).1).
Proof.
  intros Hms Hle. induction Hms as [|m ms Hm Hms IH]; [done|].
  rewrite unmap_all_app. csimpl. intros Hs. inversion Hs as [|? ? Hs' Hx]; subst.
  rewrite fmap_app. apply StronglySorted_app. split_and!; [|by apply unmap_one_sorted|by apply IH].
  intros s t Hs1 Ht. apply unmap_one_spans in Hs1 as (? & ? & ?); [|done..].
  apply unmap_all_spans in Ht as (? & u & Hu & ? & ?); [|done..].
  rewrite Forall_forall in Hx. apply Hx in Hu. unfold before in *. simpl in *. lia.
Qed.

Lemma mappings_all_exact mm : layout_ok mm -> Forall end_exact (mappings mm).
Proof. intros Hok. apply Forall_forall. intros m. by apply mappings_end_exact. Qed.

Lemma sat_add_ge a b : 0 <= a <= usize_max -> 0 <= b -> a <= usize_saturating_add a b.
Proof. unfold usize_saturating_add. lia. Qed.

Lemma munmap_layout mm addr len :
  layout_ok mm -> 0 <= addr <= usize_max -> 0 <= len -> layout_ok (munmap mm addr len).2.
Proof.
  intros Hok Ha Hl. unfold munmap. case_cmp; [done|].
  destruct (page_align_len len) as [al|] eqn:E; [|done]. apply page_align_len_Some in E.
  pose proof (mappings_all_exact _ Hok) as Hex.
  assert (addr <= usize_saturating_add addr al) as Hle by (apply sat_add_ge; lia).
  pose proof (unmap_all_sorted _ _ _ Hex Hle (lo_maps _ Hok)) as Hs.
  pose proof (fun s => unmap_all_spans _ _ _ s Hex Hle) as Hsub.
  destruct (unmap_all _ _ _) as [ms found]; simpl in *.
  by apply with_mappings_layout.
Qed.

(** *** Every operation preserves the layout *)

Lemma span_ok_with_mappings mm ms s : span_ok mm s -> span_ok (with_mappings mm ms) s.
Proof. intros []. by split. Qed.

(** A free range at which a request without [MAP_FIXED] may be placed. *)
Definition fits (mm : MemoryManager) (len a : Z) : Prop :=
  Z.max (mmap_base mm) (program_break mm) <= a /\ a + len <= max_addr mm /\
  forall s, s ∈ occupied mm -> s.1 + s.2 <= a \/ a + len <= s.1.

Lemma fits_avoids mm len a :
  layout_ok mm -> fits mm len a -> forall s, s ∈ occupied mm -> avoids a len s.
Proof. intros Hok (_ & _ & Hf) s Hs. apply (avoids_disjoint mm); auto. Qed.

Lemma fits_span_ok mm len a : layout_ok mm -> 0 < len -> fits mm len a -> span_ok mm (a, len).
Proof. intros [] Hl (? & ? & _). split; simpl; lia. Qed.

Lemma find_gap_fits mm len a :
  layout_ok mm -> 0 < len -> find_gap mm len = Some a -> fits mm len a.
Proof.
  intros Hok Hl (Ha & Hs & Hav)%find_gap_sound; [|done..]. split; [done|]. split; [apply Hs|].
  intros s Hin. apply (avoids_disjoint mm); auto.
Qed.

Lemma find_gap_least mm len a :
  layout_ok mm -> 0 < len -> fits mm len a -> exists b, find_gap mm len = Some b /\ b <= a.
Proof.
  intros Hok Hl Hf. pose proof (fits_avoids _ _ _ Hok Hf). destruct Hf as (? & ? & _).
  by apply find_gap_lowest.
Qed.

Lemma find_gap_none mm len :
  layout_ok mm -> 0 < len -> find_gap mm len = None -> forall a, ~ fits mm len a.
Proof. intros Hok Hl Hn a Hf. apply find_gap_least in Hf as (b & Hb & _); [congruence|done..]. Qed.

(** At or above the automatic area [can_grow_at] decides [fits]. *)
Lemma can_grow_at_fits mm len a :
  layout_ok mm -> 0 < len -> Z.max (mmap_base mm) (program_break mm) <= a ->
  can_grow_at mm a len = true <-> fits mm len a.
Proof.
  intros Hok Hl Ha. pose proof Hok as [? ? ? ? ? ? _ _ _ _]. split.
  - intros [Hs Hav]%can_grow_at_sound; [|done|lia|done]. split; [done|]. split; [apply Hs|].
    intros s Hin. apply (avoids_disjoint mm); auto.
  - intros Hf. pose proof (fits_avoids _ _ _ Hok Hf) as Hav. destruct Hf as (_ & Hm & _).
    assert (usize_checked_add a len = Some (a + len)) as E by (apply checked_add_Some; lia).
    assert (overlaps_reserved_regions mm a len = false) as Er.
    { apply overlaps_reserved_regions_false. split; [lia|]. intros. apply Hav, elem_of_occupied. auto. }
    assert (existsb (fun m => (a <? m_end m) && (m_addr m <? a + len)) (mappings mm) = false) as Em.
    { apply (existsb_span_false mspan). intros. apply Hav, elem_of_occupied. auto. }
    unfold can_grow_at, overlaps_host_control, overlaps_reserved_prefix, overlaps_brk_heap.
    rewrite E, Er, Em. repeat case_cmp; simpl; lia || done.
Qed.

Lemma place_hint_fits mm hint len a :
  layout_ok mm -> 0 < len -> place_hint mm hint len = Some a -> fits mm len a.
Proof.
  intros Hok Hl. unfold place_hint. case_bool_step; [|by apply find_gap_fits].
  intros [= <-]. bool_hyps. by apply can_grow_at_fits; [| |lia|].
Qed.

Lemma insert_mapping_fits mm a len prot flags :
  layout_ok mm -> 0 < len -> fits mm len a ->
  layout_ok (insert_mapping mm (mkMapped a len prot flags)).
Proof.
  intros Hok Hl Hf. apply insert_mapping_layout; [done|by apply fits_span_ok|].
  by apply fits_avoids.
Qed.

(** An accepted [MAP_FIXED] request, after the overlapping mappings are dropped. *)
Lemma fixed_accepted mm hint len :
  layout_ok mm -> 0 < hint -> 0 < len -> fixed_rejected mm hint len = false ->
  let e := usize_saturating_add hint len in
  e = hint + len /\ span_ok mm (hint, len) /\
  forall s, s ∈ occupied (fixed_retain mm hint e) -> avoids hint len s.
Proof.
  intros Hok Hh Hl Hr. unfold fixed_rejected in Hr. bool_hyps.
  assert (overlaps_reserved_regions mm hint len = false) as Hres by done.
  apply overlaps_reserved_regions_false in Hres as [Hmax Hres].
  assert (usize_saturating_add hint len = hint + len) as He by (unfold usize_saturating_add; lia).
  rewrite He in *. split; [done|]. split; [apply placement_span_ok; try done; lia|].
  intros s [Hs|Hs]%elem_of_occupied; simpl in Hs; [|auto].
  apply list_elem_of_fmap in Hs as (m & -> & [_ Hm]%elem_of_filter_bool).
  apply orb_true_iff in Hm. rewrite !Z.leb_le in Hm. unfold avoids. simpl.
  change (span_end (mspan m)) with (m_end m). lia.
Qed.

Lemma mmap_layout mm hint len prot flags :
  layout_ok mm -> 0 <= hint <= usize_max -> 0 <= len ->
  layout_ok (mmap_anonymous mm hint len prot flags).2.
Proof.
  intros Hok Hh Hl. unfold mmap_anonymous. case_cmp; [done|].
  destruct (page_align_len len) as [al|] eqn:E; [|done]. apply page_align_len_Some in E as [? _].
  destruct (negb (hint =? 0) && _) eqn:Ef.
  - destruct (fixed_rejected mm hint al) eqn:Er; [done|]. simpl. bool_hyps.
    destruct (fixed_accepted mm hint al) as (-> & Hs & Hav); [done|lia|lia|done|].
    apply insert_mapping_layout; [by apply fixed_retain_layout|by apply span_ok_with_mappings|done].
  - destruct (place_hint mm hint al) as [a|] eqn:Ep; [|done]. simpl.
    apply insert_mapping_fits; [done|lia|]. by eapply place_hint_fits; [|lia|].
Qed.

(** When [set_brk] moves the break. *)
Definition brk_allowed (mm : MemoryManager) (nb : Z) : Prop :=
  nb <> 0 /\ initial_brk mm <= nb <= max_addr mm /\ nb <= brk_limit mm /\
  nb - initial_brk mm <= data_limit mm /\
  (program_break mm < nb -> forall s, s ∈ occupied mm ->
     s.1 + s.2 <= program_break mm \/ nb <= s.1).

Lemma brk_range_free mm nb :
  layout_ok mm -> program_break mm < nb <= max_addr mm ->
  overlaps_mappings mm (program_break mm) (nb - program_break mm) = false /\
  overlaps_reserved_regions mm (program_break mm) (nb - program_break mm) = false <->
  forall s, s ∈ occupied mm -> s.1 + s.2 <= program_break mm \/ nb <= s.1.
Proof.
  intros Hok Hnb. pose proof (lo_max _ Hok).
  rewrite overlaps_mappings_false, overlaps_reserved_regions_false.
  assert (forall s, s ∈ occupied mm ->
    avoids (program_break mm) (nb - program_break mm) s <->
    s.1 + s.2 <= program_break mm \/ nb <= s.1) as Hd.
  { intros s Hs. rewrite (avoids_disjoint mm) by done. lia. }
  split.
  - intros [[_ Hm] [_ Hr]] s Hs. apply Hd; [done|].
    apply elem_of_occupied in Hs as [Hs|Hs]; auto.
  - intros Ha. split; (split; [lia|]); intros s Hs;
      (assert (s ∈ occupied mm) by (apply elem_of_occupied; auto)); apply Hd; auto.
Qed.

Lemma set_brk_cases mm nb :
  layout_ok mm ->
  brk_allowed mm nb /\ set_brk mm nb = (nb, with_break mm nb) \/
  ~ brk_allowed mm nb /\ set_brk mm nb = (program_break mm, mm).
Proof.
  intros Hok. pose proof (lo_data _ Hok). pose proof (brk_range_free mm nb Hok) as Hf.
  unfold set_brk, brk_allowed.
  destruct (Z.eqb_spec nb 0); [right; split; [|done]; lia|].
  destruct (Z.ltb_spec nb (initial_brk mm)); [right; split; [|done]; lia|].
  destruct (Z.ltb_spec (max_addr mm) nb); [right; split; [|done]; lia|].
  destruct (Z.ltb_spec (brk_limit mm) nb); [right; split; [|done]; lia|].
  destruct (Z.ltb_spec (program_break mm) nb) as [Hlt|Hge]; simpl.
  - rewrite <- Hf by lia.
    destruct (overlaps_mappings _ _ _); [right; split; [naive_solver|done]|].
    destruct (overlaps_reserved_regions _ _ _); [right; split; [naive_solver|done]|].
    repeat case_cmp; simpl; first [right; split; [lia|done] | left; split; [|done]].
    all: repeat split; try lia; auto.
  - repeat case_cmp; simpl; first [right; split; [lia|done] | left; split; [|done]].
    all: repeat split; try lia.
Qed.

Lemma set_brk_layout mm nb : layout_ok mm -> layout_ok (set_brk mm nb).2.
Proof.
  intros Hok. destruct (set_brk_cases mm nb Hok) as [[Ha ->]|[_ ->]]; [|done].
  destruct Ha as (? & ? & ? & ? & Hfree). pose proof Hok as [? ? ? ? ? ? Hms Hrs Hsp Hsep].
  split; simpl; auto; try lia. intros s Hs. specialize (Hsp s Hs).
  destruct Hsp as [? ? ? ? Hh]. split; simpl; auto. intros Hru Hlt. specialize (Hh Hru).
  destruct (Z.ltb_spec (program_break mm) nb) as [Hgt|Hle]; [|lia].
  destruct (Hfree Hgt s Hs); lia.
Qed.

Lemma reserve_layout mm len : layout_ok mm -> 0 <= len -> layout_ok (reserve_host_region mm len).2.
Proof.
  intros Hok Hl. unfold reserve_host_region. case_cmp; [done|].
  destruct (page_align_len len) as [al|] eqn:E; [|done]. apply page_align_len_Some in E as [? _].
  destruct (find_gap mm al) as [a|] eqn:Eg; [|done]. simpl.
  apply find_gap_fits in Eg; [|done|lia].
  apply insert_reserved_layout; [done|apply fits_span_ok; [done|simpl; lia|done]|by apply fits_avoids].
Qed.

Lemma reserve_at_layout mm addr len :
  layout_ok mm -> 0 <= addr -> 0 <= len -> layout_ok (reserve_host_region_at mm addr len).2.
Proof.
  intros Hok Ha Hl. unfold reserve_host_region_at. case_bool_step; [done|]. bool_hyps.
  destruct (page_align_len len) as [al|] eqn:E; [|done]. apply page_align_len_Some in E as [? _].
  destruct (usize_checked_add addr al) as [e|] eqn:Ee; [|done].
  apply checked_add_Some in Ee as [-> Ee]. case_bool_step; [done|]. bool_hyps.
  assert (overlaps_mappings mm addr al = false) as [_ Hm]%overlaps_mappings_false by done.
  assert (overlaps_reserved_regions mm addr al = false) as [_ Hr]%overlaps_reserved_regions_false by done.
  apply insert_reserved_layout; [done|apply placement_span_ok; simpl; try done; lia|].
  intros s [Hs|Hs]%elem_of_occupied; auto.
Qed.

(** *** Remapping *)

Lemma extend_first_spec addr ol nl ms :
  if (extend_first addr ol nl ms).2 then
    exists l1 m l2, ms = l1 ++ m :: l2 /\ m_addr m = addr /\ m_len m = ol /\
      (extend_first addr ol nl ms).1 = l1 ++ mkMapped (m_addr m) nl (m_prot m) (m_flags m) :: l2
  else (extend_first addr ol nl ms).1 = ms /\
       forall m, m ∈ ms -> ~ (m_addr m = addr /\ m_len m = ol).
Proof.
  induction ms as [|m ms IH]; simpl; [set_solver|].
  destruct ((m_addr m =? addr) && (m_len m =? ol)) eqn:E; simpl.
  - bool_hyps. exists [], m, ms. simpl. split_and!; try done; lia.
  - destruct (extend_first addr ol nl ms) as [l f]; simpl in *. destruct f.
    + destruct IH as (l1 & m' & l2 & -> & ? & ? & ->). exists (m :: l1), m', l2. done.
    + destruct IH as [-> IH]. split; [done|]. intros m' [->|Hm']%elem_of_cons; [|auto].
      apply andb_false_iff in E. rewrite !Z.eqb_neq in E. tauto.
Qed.

(** Growing a mapping into free space right above it. *)
Lemma extend_layout mm l1 m l2 nl :
  layout_ok mm -> mappings mm = l1 ++ m :: l2 -> m_len m < nl ->
  span_ok mm (m_addr m + m_len m, nl - m_len m) ->
  (forall s, s ∈ occupied mm -> avoids (m_addr m + m_len m) (nl - m_len m) s) ->
  layout_ok (with_mappings mm (l1 ++ mkMapped (m_addr m) nl (m_prot m) (m_flags m) :: l2)).
Proof.
  intros Hok Hms Hlt Hnew Hav.
  assert (forall s, s ∈ occupied mm -> 0 < s.2 /\
    (s.1 + s.2 <= m_addr m + m_len m \/ m_addr m + nl <= s.1)) as Hd.
  { intros s Hs. split; [by apply (lo_spans _ Hok)|].
    apply Hav in Hs as Hs'. rewrite (avoids_disjoint mm) in Hs' by done. lia. }
  assert (forall s, s ∈ mspan <$> l1 ++ m :: l2 -> s ∈ occupied mm) as Hocc.
  { intros s Hs. apply elem_of_occupied. left. by rewrite Hms. }
  pose proof Hok as [? ? ? ? ? ? Hs Hrs Hsp Hsep]. rewrite Hms in Hs, Hsep.
  rewrite fmap_app in Hs, Hsep, Hocc. csimpl in *.
  apply StronglySorted_app in Hs as (Hcross & Hs1 & Hs2).
  inversion Hs2 as [|? ? Hs2' Hx]; subst. rewrite Forall_forall in Hx.
  destruct (Hsp (mspan m)) as [Hp Hm Hc Hpr Hh]; [apply Hocc; set_solver|]. simpl in *.
  split; simpl; auto; rewrite ?fmap_app; csimpl.
  - apply StronglySorted_app. split_and!; [|done|].
    + intros s t Hs1' [->|Ht]%elem_of_cons; [|apply Hcross; [done|set_solver]].
      destruct (Hcross s (mspan m)); [done|set_solver|]. unfold before in *. simpl in *. lia.
    + constructor; [done|]. apply Forall_forall. intros t Ht. specialize (Hx t Ht).
      destruct (Hd t); [apply Hocc; set_solver|]. unfold before in *. simpl in *. lia.
  - intros s Hs. unfold occupied in Hs. simpl in Hs. rewrite fmap_app in Hs. csimpl in Hs.
    rewrite !elem_of_app, elem_of_cons in Hs.
    destruct Hs as [[Hs|[->|Hs]]|Hs].
    1,3: apply span_ok_with_mappings, Hsp, Hocc; set_solver.
    2: apply span_ok_with_mappings, Hsp, elem_of_occupied; auto.
    destruct Hnew. split; simpl in *; lia.
  - intros s t Hs Ht. rewrite elem_of_app, elem_of_cons in Hs.
    destruct Hs as [Hs|[->|Hs]]; [apply Hsep; set_solver| |apply Hsep; set_solver].
    simpl. destruct (Hsep (mspan m) t) as [?|?]; [set_solver|done| |simpl in *; lia].
    destruct (Hd t); [apply elem_of_occupied; auto|]. simpl in *. lia.
Qed.

Lemma mapped_range mm m :
  layout_ok mm -> m ∈ mappings mm ->
  0 <= m_addr m /\ 0 < m_len m /\ m_addr m + m_len m <= max_addr mm.
Proof.
  intros Hok Hm. destruct (lo_spans _ Hok (mspan m)) as [? ? _ _ _]; [|simpl in *; lia].
  apply elem_of_occupied. left. by apply list_elem_of_fmap_2.
Qed.

Lemma wrapping_range a b : 0 <= usize_wrapping_add a b <= usize_max.
Proof.
  unfold usize_wrapping_add, usize_max.
  pose proof (Z.mod_pos_bound (a + b) (2 ^ usize_bits)). pose proof usize_bits_range.
  pose proof (Z.pow_pos_nonneg 2 usize_bits). lia.
Qed.

Lemma wrapping_id a b : 0 <= a + b <= usize_max -> usize_wrapping_add a b = a + b.
Proof. unfold usize_wrapping_add, usize_max. intros. apply Z.mod_small. lia. Qed.

Lemma page_down_nonneg v : 0 <= v -> 0 <= page_down v.
Proof. intros. rewrite page_down_eq. pose proof (Z.div_pos v 65536). lia. Qed.

Lemma extend_mapping_layout mm addr ol nl :
  layout_ok mm -> 0 <= ol < nl -> can_grow_at mm (usize_wrapping_add addr ol) (nl - ol) = true ->
  layout_ok (extend_mapping mm addr ol nl).2.
Proof.
  intros Hok Hl Hg. unfold extend_mapping. pose proof (extend_first_spec addr ol nl (mappings mm)) as He.
  destruct (extend_first _ _ _ _) as [ms f]; simpl in *. destruct f.
  - destruct He as (l1 & m & l2 & Hms & <- & <- & ->).
    destruct (mapped_range mm m Hok) as (? & ? & ?); [rewrite Hms; set_solver|].
    pose proof (lo_max _ Hok). rewrite wrapping_id in Hg by lia.
    apply can_grow_at_sound in Hg as [Hs Hav]; [|done|lia|lia].
    by apply extend_layout; [| |lia|..].
  - destruct He as [-> _]. by destruct mm.
Qed.

Lemma mremap_layout mm old_addr old_len new_len flags :
  layout_ok mm -> 0 <= old_addr <= usize_max -> layout_ok (sys_mremap mm old_addr old_len new_len flags).2.
Proof.
  intros Hok Ha. unfold sys_mremap. case_bool_step; [done|]. case_bool_step; [done|].
  pose proof (page_down_nonneg _ (proj1 (wrapping_range old_len 0xFFFF))) as Ho.
  pose proof (page_down_nonneg _ (proj1 (wrapping_range new_len 0xFFFF))) as Hn.
  set (ao := page_down (usize_wrapping_add old_len 0xFFFF)) in *.
  set (an := page_down (usize_wrapping_add new_len 0xFFFF)) in *.
  pose proof (wrapping_range old_addr an).
  destruct (Z.leb_spec an ao).
  - destruct (Z.ltb_spec an ao); [|done].
    pose proof (munmap_layout mm (usize_wrapping_add old_addr an) (ao - an) Hok) as Hm.
    destruct (munmap _ _ _). apply Hm; lia.
  - destruct (can_grow_at _ _ _) eqn:Eg.
    + pose proof (extend_mapping_layout mm old_addr ao an Hok) as He.
      destruct (extend_mapping _ _ _ _) as [[] ?]; simpl in *; apply He; lia || done.
    + case_bool_step; [|done].
      pose proof (mmap_layout mm 0 an 3 (Z.lor MAP_PRIVATE MAP_ANONYMOUS) Hok) as Hm.
      destruct (mmap_anonymous _ _ _ _ _) as [na mm']. simpl in Hm.
      assert (layout_ok mm') by (apply Hm; lia). case_bool_step; [done|].
      pose proof (munmap_layout mm' old_addr ao) as Hu. destruct (munmap _ _ _). apply Hu; auto; lia.
Qed.

(** ** Sequences of memory operations *)

(** What a process and its host can do to the address space once the program
    break has its base: the memory system calls, the reservations of host
    control regions, [setrlimit], and the host's three layout calls. *)
Inductive mem_op :=
| OpMmap (hint len prot flags : Z)
| OpMunmap (addr len : Z)
| OpBrk (addr : Z)
| OpMremap (old_addr old_len new_len flags : Z)
| OpReserve (len : Z)
| OpReserveAt (addr len : Z)
| OpSetDataLimit (limit : Z)
| OpSetMaxAddr (addr : Z)
| OpSetMmapBase (addr : Z)
| OpSetBrkLimit (addr : Z).

Definition mem_exec (mm : MemoryManager) (op : mem_op) : MemoryManager :=
  match op with
  | OpMmap hint len prot flags => (mmap_anonymous mm hint len prot flags).2
  | OpMunmap addr len => (munmap mm addr len).2
  | OpBrk addr => (sys_brk mm addr).2
  | OpMremap a ol nl flags => (sys_mremap mm a ol nl flags).2
  | OpReserve len => (reserve_host_region mm len).2
  | OpReserveAt addr len => (reserve_host_region_at mm addr len).2
  | OpSetDataLimit limit => set_data_limit mm limit
  | OpSetMaxAddr addr => set_max_addr mm addr
  | OpSetMmapBase addr => set_mmap_base mm addr
  | OpSetBrkLimit addr => set_brk_limit mm addr
  end.

(** The arguments are machine words. *)
Definition op_args (op : mem_op) : list Z :=
  match op with
  | OpMmap hint len prot flags => [hint; len]
  | OpMunmap addr len => [addr; len]
  | OpBrk addr => [addr]
  | OpMremap a ol nl _ => [a; ol; nl]
  | OpReserve len => [len]
  | OpReserveAt addr len => [addr; len]
  | OpSetDataLimit limit => []
  | OpSetMaxAddr addr | OpSetMmapBase addr | OpSetBrkLimit addr => [addr]
  end.

Definition op_ok (op : mem_op) : Prop :=
  Forall (fun v => 0 <= v <= usize_max) (op_args op) /\
  match op with OpSetDataLimit l => 0 <= l <= u64_max | _ => True end.

(** The least multiple of a 64 KiB Wasm page from [v] on. *)
Definition page_ceil (v : Z) : Z := 65536 * ((v + 65535) / 65536).

Lemma align_page_up_ceil v : 0 <= v -> v + 65535 <= usize_max -> align_page_up v = page_ceil v.
Proof.
  intros. unfold align_page_up, usize_saturating_add, page_ceil. rewrite page_down_eq.
  do 3 f_equal. lia.
Qed.

(** The three layout calls check nothing against what is already placed: a
    limit is asked for rightly when everything placed respects it. *)
Definition limit_fits (mm : MemoryManager) (op : mem_op) : Prop :=
  match op with
  | OpSetMaxAddr a => program_break mm <= a /\ forall s, s ∈ occupied mm -> s.1 + s.2 <= a
  | OpSetBrkLimit a =>
      program_break mm <= a /\
      forall s, s ∈ occupied mm -> s.1 + s.2 <= a \/ mmap_base mm <= s.1
  | OpSetMmapBase a =>
      a + 65535 <= usize_max /\ reserved_until mm <= Z.max (page_ceil a) (initial_brk mm) /\
      forall s, s ∈ occupied mm -> Z.max (page_ceil a) (program_break mm) <= s.1
  | _ => True
  end.

(** A run in which every limit is asked for rightly when it is asked for. *)
Fixpoint mem_run (mm : MemoryManager) (ops : list mem_op) : Prop :=
  match ops with
  | [] => True
  | op :: ops => op_ok op /\ limit_fits mm op /\ mem_run (mem_exec mm op) ops
  end.

(** The address limit, the break limit, the mmap base and the data limit, and
    what the history of calls makes of them: the first two only go down, the
    base is the last one asked for, rounded up and never below the break's. *)
Definition limits_of (mm : MemoryManager) : Z * Z * Z * Z :=
  (max_addr mm, brk_limit mm, mmap_base mm, data_limit mm).

Definition asked_limits (brk0 : Z) (l : Z * Z * Z * Z) (op : mem_op) : Z * Z * Z * Z :=
  let '(top, heap, base, data) := l in
  match op with
  | OpSetMaxAddr a => (Z.min top a, heap, base, data)
  | OpSetBrkLimit a => (top, Z.min heap a, base, data)
  | OpSetMmapBase a => (top, heap, Z.max (page_ceil a) brk0, data)
  | OpSetDataLimit limit => (top, heap, base, limit)
  | _ => l
  end.

Lemma set_max_addr_layout mm a :
  layout_ok mm -> limit_fits mm (OpSetMaxAddr a) -> layout_ok (set_max_addr mm a).
Proof.
  intros Hok [Hb Hs]. unfold set_max_addr. case_cmp; [|done].
  destruct Hok as [? ? ? ? ? ? ? ? Hsp ?]. split; simpl; auto; [lia..|].
  intros s Hin. destruct (Hsp s Hin). split; simpl; auto.
Qed.

Lemma set_brk_limit_layout mm a :
  layout_ok mm -> limit_fits mm (OpSetBrkLimit a) -> layout_ok (set_brk_limit mm a).
Proof.
  intros Hok [Hb Hs]. unfold set_brk_limit. case_cmp; [|done].
  destruct Hok as [? ? ? ? ? ? ? ? Hsp ?]. split; simpl; auto; [lia|].
  intros s Hin. destruct (Hsp s Hin). split; simpl; auto.
Qed.

Lemma set_mmap_base_layout mm a :
  layout_ok mm -> 0 <= a -> limit_fits mm (OpSetMmapBase a) -> layout_ok (set_mmap_base mm a).
Proof.
  intros Hok Ha (Hmax & Hres & Hs). unfold set_mmap_base. rewrite align_page_up_ceil by lia.
  destruct Hok as [? ? ? ? ? ? ? ? Hsp ?]. split; simpl; auto; [lia..|].
  intros s Hin. specialize (Hs s Hin). destruct (Hsp s Hin). split; simpl; auto; intros; lia.
Qed.

Lemma mem_exec_layout mm op :
  layout_ok mm -> op_ok op -> limit_fits mm op -> layout_ok (mem_exec mm op).
Proof.
  intros Hok [Hargs Hlim] Hfit. destruct op; cbn [mem_exec]; simpl op_args in Hargs;
    rewrite ?Forall_cons in Hargs.
  - apply mmap_layout; tauto || lia.
  - apply munmap_layout; tauto || lia.
  - unfold sys_brk. case_cmp; [done|]. by apply set_brk_layout.
  - apply mremap_layout; tauto.
  - apply reserve_layout; tauto || lia.
  - apply reserve_at_layout; tauto || lia.
  - destruct Hok as [? ? ? ? ? ? ? ? Hsp ?]. split; simpl in *; auto; [lia|].
    intros s Hs. destruct (Hsp s Hs). by split.
  - by apply set_max_addr_layout.
  - apply set_mmap_base_layout; tauto.
  - by apply set_brk_limit_layout.
Qed.

(** Nothing but the layout calls changes a limit. *)
Definition layout_words (mm : MemoryManager) : Z * Z * Z * Z * Z := (limits_of mm, initial_brk mm).

Lemma insert_mapping_words mm m : layout_words (insert_mapping mm m) = layout_words mm.
Proof. done. Qed.

Lemma mmap_words mm hint len prot flags :
  layout_words (mmap_anonymous mm hint len prot flags).2 = layout_words mm.
Proof.
  unfold mmap_anonymous. case_match; [done|]. case_match; [|done]. case_match; case_match; done.
Qed.

Lemma munmap_words mm addr len : layout_words (munmap mm addr len).2 = layout_words mm.
Proof. unfold munmap. case_match; [done|]. case_match; [|done]. by destruct (unmap_all _ _ _). Qed.

Lemma brk_words mm addr : layout_words (sys_brk mm addr).2 = layout_words mm.
Proof. unfold sys_brk, set_brk. repeat (case_match; try done). Qed.

Lemma reserve_words mm len : layout_words (reserve_host_region mm len).2 = layout_words mm.
Proof. unfold reserve_host_region. repeat (case_match; try done). Qed.

Lemma reserve_at_words mm addr len : layout_words (reserve_host_region_at mm addr len).2 = layout_words mm.
Proof. unfold reserve_host_region_at. repeat (case_match; try done). Qed.

Lemma mremap_words mm a ol nl flags : layout_words (sys_mremap mm a ol nl flags).2 = layout_words mm.
Proof.
  unfold sys_mremap, extend_mapping. repeat (case_match; try done); simplify_eq/=.
  all: try match goal with E : munmap ?m ?x ?l = (_, ?m') |- _ =>
         assert (layout_words m' = layout_words m) by (rewrite <- (munmap_words m x l), E; done) end.
  all: try match goal with E : mmap_anonymous ?m ?x ?l ?p ?f = (_, ?m') |- _ =>
         assert (layout_words m' = layout_words m) by (rewrite <- (mmap_words m x l p f), E; done) end.
  all: try congruence; match goal with E : extend_first _ _ _ _ = _ |- _ => done end.
Qed.

Lemma mem_exec_words mm op :
  op_ok op -> limit_fits mm op ->
  layout_words (mem_exec mm op) = (asked_limits (initial_brk mm) (limits_of mm) op, initial_brk mm).
Proof.
  intros [Hargs _] Hfit. destruct op; cbn [mem_exec asked_limits limits_of].
  - apply mmap_words.
  - apply munmap_words.
  - apply brk_words.
  - apply mremap_words.
  - apply reserve_words.
  - apply reserve_at_words.
  - done.
  - unfold set_max_addr, layout_words, limits_of. case_cmp; simpl; do 4 f_equal; lia.
  - simpl in Hargs. rewrite Forall_cons in Hargs. destruct Hargs as [? _], Hfit as [? _].
    unfold set_mmap_base, layout_words, limits_of. simpl. by rewrite align_page_up_ceil by lia.
  - unfold set_brk_limit, layout_words, limits_of. case_cmp; simpl; do 4 f_equal; lia.
Qed.

(** *** Byte-level effect of unmapping, used by [munmap] and [sys_mremap] *)

Lemma page_align_len_aligned len :
  (65536 | len) -> len + 0xFFFF <= usize_max -> page_align_len len = Some len.
Proof.
  intros [k ->] Hm. unfold page_align_len.
  assert (usize_checked_add (k * 65536) 0xFFFF = Some (k * 65536 + 0xFFFF)) as ->
    by (by apply checked_add_Some).
  simpl. f_equal. rewrite page_down_eq.
  replace (k * 65536 + 65535) with (65535 + k * 65536) by lia. rewrite Z.div_add by lia.
  change (65535 / 65536) with 0. lia.
Qed.

Lemma page_round_len len : 0 <= len -> len + 0xFFFF <= usize_max ->
  page_align_len len = Some (page_down (usize_wrapping_add len 0xFFFF)).
Proof.
  intros. unfold page_align_len. rewrite wrapping_id by lia.
  assert (usize_checked_add len 0xFFFF = Some (len + 0xFFFF)) as ->; [|done].
  by apply checked_add_Some.
Qed.

(** The bytes an unmap range covers do not depend on its end saturating. *)
Lemma unmap_range_sat mm addr al x p f :
  layout_ok mm -> mapped_byte (mappings mm) x p f ->
  addr <= x < addr + al <-> addr <= x < usize_saturating_add addr al.
Proof.
  intros Hok (m & Hm & ? & _). destruct (mapped_range mm m Hok Hm) as (? & ? & ?).
  pose proof (lo_max _ Hok). unfold usize_saturating_add. lia.
Qed.

Lemma munmap_bytes mm addr len al x p f :
  layout_ok mm -> 0 <= addr <= usize_max -> 0 < len -> page_align_len len = Some al ->
  mapped_byte (mappings (munmap mm addr len).2) x p f <->
  mapped_byte (mappings mm) x p f /\ ~ (addr <= x < addr + al).
Proof.
  intros Hok Ha Hl E. unfold munmap. destruct (Z.eqb_spec len 0) as [|_]; [lia|]. rewrite E.
  apply page_align_len_Some in E as [? _].
  pose proof (unmap_all_byte addr (usize_saturating_add addr al) (mappings mm) x p f) as Hb.
  destruct (unmap_all _ _ _) as [ms found]; simpl in *.
  rewrite Hb by (first [by apply mappings_all_exact|apply sat_add_ge; lia]).
  split; intros [Hm Hn]; (split; [done|]).
  - by rewrite (unmap_range_sat mm addr al x p f).
  - by rewrite <- (unmap_range_sat mm addr al x p f).
Qed.

Lemma place_hint_none mm hint len : place_hint mm hint len = None -> find_gap mm len = None.
Proof. unfold place_hint. by case_bool_step. Qed.

Lemma mapping_unique mm l1 m' l2 m :
  layout_ok mm -> mappings mm = l1 ++ m' :: l2 -> m ∈ mappings mm -> m_addr m = m_addr m' -> m = m'.
Proof.
  intros Hok Hms Hm Ha. pose proof (lo_maps _ Hok) as Hs. rewrite Hms in Hs, Hm.
  rewrite fmap_app in Hs. csimpl in Hs. apply StronglySorted_app in Hs as (Hc & _ & Hs).
  inversion Hs as [|? ? _ Hx]; subst. rewrite Forall_forall in Hx.
  rewrite elem_of_app, elem_of_cons in Hm. destruct Hm as [Hm|[->|Hm]]; [|done|].
  - destruct (Hc (mspan m) (mspan m')); [by apply list_elem_of_fmap_2|by constructor|]. simpl in *. lia.
  - destruct (Hx (mspan m)); [by apply list_elem_of_fmap_2|]. simpl in *. lia.
Qed.

Lemma extend_mapping_bytes mm m nl :
  layout_ok mm -> m ∈ mappings mm -> m_len m < nl ->
  exists mm', extend_mapping mm (m_addr m) (m_len m) nl = (true, mm') /\
  forall x p f, mapped_byte (mappings mm') x p f <->
    mapped_byte (mappings mm) x p f \/
    (m_addr m + m_len m <= x < m_addr m + nl /\ m_prot m = p /\ m_flags m = f).
Proof.
  intros Hok Hm Hlt. unfold extend_mapping.
  pose proof (extend_first_spec (m_addr m) (m_len m) nl (mappings mm)) as He.
  destruct (extend_first _ _ _ _) as [ms fd]; simpl in *. destruct fd.
  - destruct He as (l1 & m' & l2 & Hms & Ha & Hl & ->). eexists. split; [done|]. simpl.
    assert (m = m') as <- by (by eapply mapping_unique).
    intros x p f. rewrite Hms, !mapped_byte_app, !mapped_byte_cons. simpl.
    destruct (mapped_range mm m Hok Hm) as (? & ? & ?). intuition lia.
  - destruct He as [_ He]. destruct (He m Hm). done.
Qed.

(** Mapping a free range and unmapping an old mapping, as a move does. *)
Lemma move_bytes mm m a an :
  layout_ok mm -> m ∈ mappings mm -> (65536 | m_len m) -> m_len m + 0xFFFF <= usize_max ->
  m_len m < an -> fits mm an a ->
  let mm1 := insert_mapping mm (mkMapped a an 3 (Z.lor MAP_PRIVATE MAP_ANONYMOUS)) in
  forall x p f, mapped_byte (mappings (munmap mm1 (m_addr m) (m_len m)).2) x p f <->
    (mapped_byte (mappings mm) x p f /\ ~ (m_addr m <= x < m_addr m + m_len m)) \/
    (a <= x < a + an /\ 3 = p /\ Z.lor MAP_PRIVATE MAP_ANONYMOUS = f).
Proof.
  intros Hok Hm Hal Hmx Hlt Hf mm1 x p f. pose proof (lo_max _ Hok).
  destruct (mapped_range mm m Hok Hm) as (? & ? & ?).
  rewrite munmap_bytes;
    [|apply insert_mapping_fits; [done|lia|done]|lia|lia|by apply page_align_len_aligned].
  unfold mm1. rewrite mapped_byte_insert; simpl. destruct Hf as (_ & _ & Hf).
  destruct (Hf (mspan m)); [|simpl in *; intuition lia..].
  apply elem_of_occupied. left. by apply list_elem_of_fmap_2.
Qed.

(** Sorting at the fork boundary. *)
Definition maddr_le (m m' : MappedRegion) : Prop := m_addr m <= m_addr m'.

Lemma insert_by_addr_perm m l : insert_by_addr m l ≡ₚ m :: l.
Proof.
  induction l as [|x l IH]; simpl; [done|]. case_cmp; [done|]. rewrite IH. apply perm_swap.
Qed.

Lemma sort_by_addr_perm l : sort_by_addr l ≡ₚ l.
Proof. induction l as [|x l IH]; simpl; [done|]. by rewrite insert_by_addr_perm, IH. Qed.

Lemma insert_by_addr_sorted m l :
  StronglySorted maddr_le l -> StronglySorted maddr_le (insert_by_addr m l).
Proof.
  unfold maddr_le. induction 1 as [|x l Hl IH Hx]; simpl; [repeat constructor|].
  case_cmp.
  - constructor; [by constructor|]. constructor; [done|]. eapply Forall_impl; [done|].
    simpl. lia.
  - constructor; [done|]. rewrite Forall_forall in *. intros y. rewrite insert_by_addr_perm.
    intros [->|Hy]%elem_of_cons; [lia|by apply Hx].
Qed.

Lemma sort_by_addr_sorted l : StronglySorted maddr_le (sort_by_addr l).
Proof. induction l as [|x l IH]; simpl; [constructor|]. by apply insert_by_addr_sorted. Qed.

Lemma mappings_addr_sorted mm : layout_ok mm -> StronglySorted maddr_le (mappings mm).
Proof.
  intros Hok. pose proof (lo_maps _ Hok) as Hs. induction (mappings mm) as [|m l IH]; [constructor|].
  csimpl in Hs. inversion Hs as [|? ? Hs' Hx]; subst. constructor; [auto|].
  apply Forall_forall. intros m' Hm'. rewrite Forall_forall in Hx. destruct (Hx (mspan m')) as (? & ? & _);
    [by apply list_elem_of_fmap_2|]. unfold maddr_le. simpl in *. lia.
Qed.

(** ** Properties *)

(** C3: Layout isolation.  From a well-formed layout, take any sequence of
    memory system calls, host reservations, data-limit changes and the host's
    three layout calls (which check nothing themselves: each is assumed to be
    made while everything already placed respects the limit it asks for).  The
    layout stays well formed: mappings and reservations stay sorted, non-empty,
    pairwise disjoint and inside the address space, none of them enters the
    host control pages, the break stays within its limits, and in a compact
    process no region ever meets the protected prefix or the brk heap.  And the
    limits in force are the ones the history asked for: the address limit and
    the break limit are the least ever set, the mmap base the last one set,
    rounded up to a page and never below the break's base, and no other call
    moves them. *)
Theorem layout_isolation mm ops :
  layout_ok mm -> mem_run mm ops ->
  let mm' := fold_left mem_exec ops mm in
  layout_ok mm' /\ limits_of mm' = fold_left (asked_limits (initial_brk mm)) ops (limits_of mm).
Proof.
  revert mm. induction ops as [|op ops IH]; intros mm Hok; [done|].
  intros (Hop & Hfit & Hrun). pose proof (mem_exec_words mm op Hop Hfit) as Hw.
  assert (limits_of (mem_exec mm op) = asked_limits (initial_brk mm) (limits_of mm) op) as Hlim
    by exact (f_equal fst Hw).
  assert (initial_brk (mem_exec mm op) = initial_brk mm) as Hbrk by exact (f_equal snd Hw).
  cbn [fold_left]. rewrite <- Hlim, <- Hbrk.
  apply IH; [by apply mem_exec_layout|done].
Qed.

(** First fit.  [find_gap] returns an address exactly when some free range
    of the requested size exists at or above both the mmap base and the break
    and below the address limit; the address it returns is such a range, and
    the lowest one. *)
Theorem find_gap_first_fit mm needed :
  layout_ok mm -> 0 < needed ->
  match find_gap mm needed with
  | Some a => fits mm needed a /\ forall b, fits mm needed b -> a <= b
  | None => forall b, ~ fits mm needed b
  end.
Proof.
  intros Hok Hn. destruct (find_gap mm needed) as [a|] eqn:E.
  - split; [by apply find_gap_fits|]. intros b Hb.
    apply find_gap_least in Hb as (b' & Hb' & ?); [|done..]. congruence.
  - by apply find_gap_none.
Qed.

(** The merging search is the plain one.  Scanning the two sorted vectors
    as two streams returns what scanning one combined list does, the
    stable merge by start address (mappings before reservations at an equal
    start), on any state whatever. *)
Theorem find_gap_merge_equiv mm needed :
  find_gap mm needed =
  scan_spans (list_merge addr_le (mspan <$> mappings mm) (rspan <$> reserved_regions mm))
    (Z.max (mmap_base mm) (program_break mm)) needed (max_addr mm).
Proof. apply find_gap_scan. Qed.

(** [mmap] without [MAP_FIXED] never disturbs an existing mapping.  A zero
    or unrepresentable length fails; otherwise the request goes to the page of
    its hint if that range is free, to the lowest free range if not, and fails
    without effect exactly when there is none.  On success the bytes mapped are
    the old ones and the new range, with the requested protection and flags. *)
Theorem mmap_hint_correct mm hint len prot flags :
  layout_ok mm -> 0 < len -> hint = 0 \/ Z.land flags MAP_FIXED = 0 ->
  match page_align_len len with
  | None => mmap_anonymous mm hint len prot flags = (MAP_FAILED, mm)
  | Some al =>
      (mmap_anonymous mm hint len prot flags = (MAP_FAILED, mm) /\ forall b, ~ fits mm al b) \/
      exists a mm', mmap_anonymous mm hint len prot flags = (a, mm') /\ a <> MAP_FAILED /\
        fits mm al a /\
        (a = page_down hint \/ ~ fits mm al (page_down hint) /\ forall b, fits mm al b -> a <= b) /\
        (forall x p f, mapped_byte (mappings mm') x p f <->
           mapped_byte (mappings mm) x p f \/ (a <= x < a + al /\ prot = p /\ flags = f))
  end.
Proof.
  intros Hok Hl Hfl. unfold mmap_anonymous. destruct (Z.eqb_spec len 0) as [|_]; [lia|].
  destruct (page_align_len len) as [al|] eqn:E; [|done]. apply page_align_len_Some in E as [? _].
  assert (negb (hint =? 0) && negb (Z.land flags MAP_FIXED =? 0) = false) as -> by lia.
  destruct (place_hint mm hint al) as [a|] eqn:Ep.
  - right. eexists a, _. split; [done|].
    assert (fits mm al a) as Hf by (eapply place_hint_fits; [done|lia|done]).
    split; [|split; [done|]; split; [|intros; apply mapped_byte_insert]].
    { destruct Hf as (_ & ? & _). pose proof (lo_max _ Hok). unfold MAP_FAILED. lia. }
    unfold place_hint in Ep. destruct (Z.leb_spec (Z.max (mmap_base mm) (program_break mm)) (page_down hint)); simpl in Ep.
    + destruct (can_grow_at mm (page_down hint) al) eqn:Eg; [left; congruence|]. right.
      split; [rewrite <- can_grow_at_fits by (done || lia); by rewrite Eg|].
      intros b Hb. apply find_gap_least in Hb as (b' & ? & ?); [congruence|done|lia].
    + right. split; [intros (? & _); lia|].
      intros b Hb. apply find_gap_least in Hb as (b' & ? & ?); [congruence|done|lia].
  - left. split; [done|]. unfold place_hint in Ep. case_bool_step; [done|].
    apply find_gap_none; [done|lia|done].
Qed.

(** [mmap] with [MAP_FIXED] is either refused without effect, or maps
    exactly the requested range at the requested address: it never covers a
    reserved region, and every mapping that does not overlap the range is kept
    byte for byte. *)
Theorem mmap_fixed_correct mm hint len al prot flags :
  layout_ok mm -> 0 < hint -> 0 < len -> Z.land flags MAP_FIXED <> 0 ->
  page_align_len len = Some al ->
  mmap_anonymous mm hint len prot flags = (MAP_FAILED, mm) \/
  exists mm', mmap_anonymous mm hint len prot flags = (hint, mm') /\ hint <> MAP_FAILED /\
    hint + al <= max_addr mm /\
    (forall r, r ∈ reserved_regions mm -> r_addr r + r_len r <= hint \/ hint + al <= r_addr r) /\
    (forall x p f, mapped_byte (mappings mm') x p f <->
       (hint <= x < hint + al /\ prot = p /\ flags = f) \/
       exists m, m ∈ mappings mm /\ (m_addr m + m_len m <= hint \/ hint + al <= m_addr m) /\
         m_addr m <= x < m_addr m + m_len m /\ m_prot m = p /\ m_flags m = f).
Proof.
  intros Hok Hh Hl Hfl E. unfold mmap_anonymous. destruct (Z.eqb_spec len 0) as [|_]; [lia|].
  rewrite E. apply page_align_len_Some in E as [? _].
  assert (negb (hint =? 0) && negb (Z.land flags MAP_FIXED =? 0) = true) as -> by lia.
  destruct (fixed_rejected mm hint al) eqn:Er; [by left|right].
  destruct (fixed_accepted mm hint al) as (He & Hs & Hav); [done|lia|lia|done|].
  eexists. split; [done|]. destruct Hs as [_ Hm _ _ _]; simpl in Hm. pose proof (lo_max _ Hok).
  split; [unfold MAP_FAILED; lia|]. split; [done|]. split.
  - intros r Hr. assert (rspan r ∈ occupied mm) as Hr'.
    { apply elem_of_occupied. right. by apply list_elem_of_fmap_2. }
    apply (avoids_disjoint mm hint al (rspan r)); [done|done|]. apply Hav, elem_of_occupied.
    right. by apply list_elem_of_fmap_2.
  - intros x p f. rewrite mapped_byte_insert, He. unfold mapped_byte; simpl.
    setoid_rewrite elem_of_filter_bool. setoid_rewrite orb_true_iff. setoid_rewrite Z.leb_le.
    split.
    + intros [(m & [Hin ?] & Hb)|?]; [|by left]. right. exists m.
      destruct (mappings_end_exact mm m Hok Hin) as [Hme _]. rewrite Hme in *. auto.
    + intros [?|(m & Hin & ? & Hb)]; [by right|]. left. exists m.
      destruct (mappings_end_exact mm m Hok Hin) as [Hme _]. rewrite Hme. auto.
Qed.

(** [munmap] is exact.  After [munmap] of a range, the mapped bytes are
    exactly the previously mapped bytes outside the page-rounded range, each
    with the protection and flags it had; the call reports whether any mapped
    byte was inside; nothing else of the address space changes. *)
Theorem munmap_exact mm addr len al :
  layout_ok mm -> 0 <= addr <= usize_max -> 0 < len -> page_align_len len = Some al ->
  exists found mm', munmap mm addr len = (found, mm') /\
    mm' = with_mappings mm (mappings mm') /\
    (forall x p f, mapped_byte (mappings mm') x p f <->
       mapped_byte (mappings mm) x p f /\ ~ (addr <= x < addr + al)) /\
    (found = true <-> exists x p f, mapped_byte (mappings mm) x p f /\ addr <= x < addr + al).
Proof.
  intros Hok Ha Hl E. pose proof (fun x p f => munmap_bytes mm addr len al x p f Hok Ha Hl E) as Hb.
  unfold munmap in *. destruct (Z.eqb_spec len 0) as [|_]; [lia|]. rewrite E in *.
  apply page_align_len_Some in E as [? _].
  destruct (unmap_all _ _ _) as [ms found] eqn:Eu; simpl in *.
  eexists _, _. split; [done|]. split; [done|]. split; [done|].
  pose proof (unmap_all_found addr (usize_saturating_add addr al) (mappings mm)) as Hf.
    rewrite Eu in Hf. simpl in Hf. rewrite Hf. pose proof (lo_max _ Hok).
    unfold mapped_byte, usize_saturating_add. split.
    + intros (m & Hm & ? & ?). destruct (mapped_range mm m Hok Hm) as (? & ? & ?).
      destruct (mappings_end_exact mm m Hok Hm) as [? _].
      exists (Z.max addr (m_addr m)), (m_prot m), (m_flags m).
      split; [|lia]. exists m. split_and!; try done; lia.
    + intros (x & p & f & (m & Hm & ? & _) & ?). destruct (mapped_range mm m Hok Hm) as (? & ? & ?).
      destruct (mappings_end_exact mm m Hok Hm) as [? _]. exists m. split; [done|lia].
Qed.

(** C22: [brk] moves the break exactly when it may: the new break is at or above
    the initial one, within the address limit, the brk ceiling and the
    RLIMIT_DATA budget, and growing crosses no mapping and no reserved region.
    Otherwise the call returns the current break and changes nothing. *)
Theorem set_brk_correct mm nb :
  layout_ok mm ->
  (brk_allowed mm nb -> set_brk mm nb = (nb, with_break mm nb)) /\
  (~ brk_allowed mm nb -> set_brk mm nb = (program_break mm, mm)).
Proof. intros Hok. destruct (set_brk_cases mm nb Hok) as [[? ->]|[? ->]]; tauto. Qed.

(** [mremap] of a whole mapping either resizes it in place, moves it to a
    free range, or fails with ENOMEM and no effect.  Shrinking unmaps exactly
    the tail; growing in place adds exactly the bytes above it; moving maps the
    new range and unmaps the old one, and no other mapped byte changes.  It
    fails only when the range above is not free and either moving is not
    allowed or no free range is large enough. *)
Theorem mremap_correct mm m new_len flags :
  layout_ok mm -> m ∈ mappings mm -> (65536 | m_len m) -> m_len m + 0xFFFF <= usize_max ->
  0 < new_len -> new_len + 0x1FFFE <= usize_max -> Z.ldiff flags MREMAP_MAYMOVE = 0 ->
  let an := page_down (new_len + 0xFFFF) in
  let '(res, mm') := sys_mremap mm (m_addr m) (m_len m) new_len flags in
  layout_ok mm' /\
  match res with
  | Ok a =>
      (a = m_addr m /\ an <= m_len m /\ forall x p f, mapped_byte (mappings mm') x p f <->
         mapped_byte (mappings mm) x p f /\ ~ (m_addr m + an <= x < m_addr m + m_len m)) \/
      (a = m_addr m /\ m_len m < an /\ forall x p f, mapped_byte (mappings mm') x p f <->
         mapped_byte (mappings mm) x p f \/
         (m_addr m + m_len m <= x < m_addr m + an /\ m_prot m = p /\ m_flags m = f)) \/
      (m_len m < an /\ fits mm an a /\ forall x p f, mapped_byte (mappings mm') x p f <->
         (mapped_byte (mappings mm) x p f /\ ~ (m_addr m <= x < m_addr m + m_len m)) \/
         (a <= x < a + an /\ 3 = p /\ Z.lor MAP_PRIVATE MAP_ANONYMOUS = f))
  | Err e =>
      e = ENOMEM /\ mm' = mm /\ m_len m < an /\
      can_grow_at mm (m_addr m + m_len m) (an - m_len m) = false /\
      (Z.land flags MREMAP_MAYMOVE <> 0 -> forall b, ~ fits mm an b)
  end.
Proof.
  intros Hok Hm Hal Hmx Hn Hnx Hfl an.
  pose proof (mremap_layout mm (m_addr m) (m_len m) new_len flags Hok) as Hlay.
  destruct (mapped_range mm m Hok Hm) as (Hm1 & Hm2 & Hm3). pose proof (lo_max _ Hok) as Hmax.
  assert (page_align_len new_len = Some an) as Ean by (rewrite page_round_len by lia; by rewrite wrapping_id by lia).
  pose proof (page_align_len_Some _ _ Ean) as (Han & Hdiv & _).
  assert (page_down (usize_wrapping_add (m_len m) 0xFFFF) = m_len m) as Eao.
  { apply Some_inj. rewrite <- page_round_len by lia. by apply page_align_len_aligned. }
  destruct (sys_mremap mm (m_addr m) (m_len m) new_len flags) as [res mm'] eqn:E.
  split; [apply Hlay; lia|]. clear Hlay. unfold sys_mremap in E.
  rewrite Eao, (wrapping_id new_len) in E by lia. fold an in E.
  destruct (Z.eqb_spec (m_len m) 0); [lia|]. destruct (Z.eqb_spec new_len 0); [lia|].
  rewrite Hfl in E. simpl in E. destruct (Z.leb_spec an (m_len m)) as [Hle|Hgt].
  - destruct (Z.ltb_spec an (m_len m)) as [Hlt|]; [|simplify_eq; left; split_and!; try done; intuition lia].
    rewrite wrapping_id in E by lia.
    pose proof (munmap_bytes mm (m_addr m + an) (m_len m - an) (m_len m - an)) as Hb.
    destruct (munmap _ _ _) as [? mm1]; simpl in *. simplify_eq. left. split_and!; [done|done|].
    intros x p f. rewrite Hb; [|done|lia|lia|apply page_align_len_aligned; [by apply Z.divide_sub_r|lia]].
    by replace (m_addr m + an + (m_len m - an)) with (m_addr m + m_len m) by lia.
  - rewrite wrapping_id in E by lia. destruct (can_grow_at _ _ _) eqn:Eg.
    + destruct (extend_mapping_bytes mm m an) as (mm1 & Ee & Hb); [done..|].
      rewrite Ee in E. simplify_eq. right; left. done.
    + unfold mmap_anonymous in E. destruct (Z.eqb_spec an 0); [lia|].
      rewrite (page_align_len_aligned an) in E by (done || lia). simpl in E.
      destruct (place_hint mm 0 an) as [a|] eqn:Ep.
      * assert (fits mm an a) as Hf by (eapply place_hint_fits; [done|lia|done]).
        destruct (Z.eqb_spec (Z.land flags MREMAP_MAYMOVE) 0) as [E0|Hmv]; simpl in E; [simplify_eq; by split_and!|].
        assert ((a =? MAP_FAILED) = false) as Ha by (destruct Hf as (_ & ? & _); unfold MAP_FAILED; lia).
        rewrite Ha in E. pose proof (move_bytes mm m a an Hok Hm Hal Hmx Hgt Hf) as Hb.
        cbv zeta in Hb. destruct (munmap _ _ _) as [? mm1]; simplify_eq. right; right. by split_and!.
      * rewrite Z.eqb_refl in E. apply place_hint_none in Ep.
        case_bool_step; simplify_eq; split_and!; try done; intros _; by apply find_gap_none; [|lia|].
Qed.

(** Restoring mappings after fork does not depend on the order in which
    they were serialized: from any permutation of a well-formed parent's
    mappings, [set_mappings] rebuilds the parent's vector exactly. *)
Theorem set_mappings_restores mm child ms :
  layout_ok mm -> ms ≡ₚ mappings mm ->
  set_mappings child ms = with_mappings child (mappings mm).
Proof.
  intros Hok Hp. unfold set_mappings. f_equal.
  apply (StronglySorted_unique_strong maddr_le);
    [|apply sort_by_addr_sorted|by apply mappings_addr_sorted|by rewrite sort_by_addr_perm].
  intros m1 m2 Hm1 Hm2 ? ?. rewrite sort_by_addr_perm, Hp in Hm1.
  apply list_elem_of_split in Hm2 as (l1 & l2 & Hms).
  eapply mapping_unique; [done|done|done|]. unfold maddr_le in *. lia.
Qed.

End memory.

(** ** Concrete layouts *)

(** A compact process: control pages above the data, then heap and mappings. *)
Definition compact_mm : MemoryManager :=
  set_mmap_base (set_brk_base new 0x00200000) 0x00240000.

(** The same after one mapping, one reservation and some heap growth. *)
Definition busy_mm : MemoryManager :=
  fold_left mem_exec
    [OpMmap 0 0x30000 3 0x22; OpReserveAt 0x00300000 0x10000; OpBrk 0x00210000; OpMmap 0 0x10000 1 0x22]
    compact_mm.

Lemma busy_mm_eq :
  busy_mm = mkMM
    [mkMapped 0x240000 0x30000 3 0x22; mkMapped 0x270000 0x10000 1 0x22] [mkReserved 0x300000 0x10000]
    0x210000 0x40000000 0x240000 0x200000 0x40000000 u64_max 0x200000.
Proof. vm_compute. reflexivity. Qed.

Lemma compact_mm_eq :
  compact_mm = mkMM [] [] 0x200000 0x40000000 0x240000 0x200000 0x40000000 u64_max 0x200000.
Proof. vm_compute. reflexivity. Qed.

(** Decides [layout_ok] of a concrete state. *)
Ltac layout_concrete :=
  assert (usize_max = 4294967295) by reflexivity;
  split; simpl; unfold u64_max; try lia;
  [ repeat constructor; simpl; lia
  | repeat constructor; simpl; lia
  | intros s; unfold occupied; simpl; rewrite ?elem_of_cons, elem_of_nil; intros Hs;
    repeat destruct Hs as [->|Hs]; try done; split; simpl; lia
  | intros s t; rewrite ?elem_of_cons, ?elem_of_nil; intros Hs Ht;
    repeat destruct Hs as [->|Hs]; repeat destruct Ht as [->|Ht]; try done; simpl; lia ].

Lemma compact_mm_ok : layout_ok compact_mm.
Proof. rewrite compact_mm_eq. layout_concrete. Qed.

Lemma busy_mm_ok : layout_ok busy_mm.
Proof. rewrite busy_mm_eq. layout_concrete. Qed.

Definition a_history : list mem_op :=
  [OpSetBrkLimit 0x00230000; OpMmap 0 0x30000 3 0x22; OpReserve 100; OpBrk 0x00230000;
   OpMremap 0x240000 0x30000 0x40000 1; OpMunmap 0x250000 0x10000; OpMmap 0x260000 0x10000 3 0x32;
   OpReserveAt 0x00300000 0x10000; OpSetDataLimit 0x10000; OpSetMaxAddr 0x00800000;
   OpSetMmapBase 0x00238000].

(** Checks [limit_fits] of a concrete state. *)
Definition limit_fitsb (mm : MemoryManager) (op : mem_op) : bool :=
  match op with
  | OpSetMaxAddr a => (program_break mm <=? a) && forallb (fun s => s.1 + s.2 <=? a) (occupied mm)
  | OpSetBrkLimit a =>
      (program_break mm <=? a) &&
      forallb (fun s => (s.1 + s.2 <=? a) || (mmap_base mm <=? s.1)) (occupied mm)
  | OpSetMmapBase a =>
      (a + 65535 <=? usize_max) && (reserved_until mm <=? Z.max (page_ceil a) (initial_brk mm)) &&
      forallb (fun s => Z.max (page_ceil a) (program_break mm) <=? s.1) (occupied mm)
  | _ => true
  end.

Fixpoint limits_fitb (mm : MemoryManager) (ops : list mem_op) : bool :=
  match ops with
  | [] => true
  | op :: ops => limit_fitsb mm op && limits_fitb (mem_exec mm op) ops
  end.

Lemma limit_fitsb_true mm op : limit_fitsb mm op = true -> limit_fits mm op.
Proof.
  destruct op; simpl; rewrite ?andb_true_iff, ?Z.leb_le, ?forallb_forall; try done.
  - intros [? Hs]. split; [done|]. intros s Hin. apply list_elem_of_In in Hin.
    specialize (Hs s Hin). lia.
  - intros [[? ?] Hs]. split; [done|]. split; [done|]. intros s Hin. apply list_elem_of_In in Hin.
    specialize (Hs s Hin). lia.
  - intros [? Hs]. split; [done|]. intros s Hin. apply list_elem_of_In in Hin.
    specialize (Hs s Hin). apply orb_true_iff in Hs. rewrite !Z.leb_le in Hs. lia.
Qed.

Lemma mem_run_check mm ops : Forall op_ok ops -> limits_fitb mm ops = true -> mem_run mm ops.
Proof.
  intros Hops. revert mm. induction Hops as [|op ops Hop Hops IH]; intros mm; simpl; [done|].
  rewrite andb_true_iff. intros [Hf Hr]. split; [done|]. split; [by apply limit_fitsb_true|by apply IH].
Qed.

Lemma layout_isolation_witness :
  layout_ok compact_mm /\
  let mm' := fold_left mem_exec a_history compact_mm in
  layout_ok mm' /\ limits_of mm' = (0x00800000, 0x00230000, 0x00240000, 0x10000) /\
  length (occupied mm') = 4%nat.
Proof.
  split; [exact compact_mm_ok|].
  destruct (layout_isolation compact_mm a_history compact_mm_ok) as [Hok Hlim].
  - apply mem_run_check; [|vm_compute; reflexivity].
    assert (usize_max = 4294967295) by reflexivity.
    unfold a_history. repeat constructor; simpl; unfold u64_max; try lia.
  - split; [exact Hok|]. split; [etransitivity; [exact Hlim|vm_compute; reflexivity]|vm_compute; reflexivity].
Defined.

Lemma find_gap_first_fit_witness :
  layout_ok busy_mm /\ fits busy_mm 0x20000 0x280000 /\
  forall b, fits busy_mm 0x20000 b -> 0x280000 <= b.
Proof.
  split; [exact busy_mm_ok|].
  assert (find_gap busy_mm 0x20000 = Some 0x280000) as E by reflexivity.
  pose proof (find_gap_first_fit busy_mm 0x20000 busy_mm_ok) as Hf. rewrite E in Hf.
  apply Hf. lia.
Defined.

Lemma mmap_hint_correct_witness :
  exists a mm', mmap_anonymous busy_mm 0x250123 0x20001 3 0x22 = (a, mm') /\ a = 0x280000.
Proof.
  pose proof (mmap_hint_correct busy_mm 0x250123 0x20001 3 0x22 busy_mm_ok) as Hm.
  assert (page_align_len 0x20001 = Some 0x30000) as E by reflexivity. rewrite E in Hm.
  destruct Hm as [[Hf _]|(a & mm' & Hm & _)]; [lia|by right| |].
  - assert ((mmap_anonymous busy_mm 0x250123 0x20001 3 0x22).1 = 0x280000) as Ha by reflexivity.
    rewrite Hf in Ha. discriminate Ha.
  - exists a, mm'. split; [exact Hm|]. change a with (a, mm').1. rewrite <- Hm. reflexivity.
Defined.

Lemma mmap_fixed_correct_witness :
  exists mm', mmap_anonymous busy_mm 0x260000 0x10000 1 0x32 = (0x260000, mm').
Proof.
  destruct (mmap_fixed_correct busy_mm 0x260000 0x10000 0x10000 1 0x32 busy_mm_ok)
    as [Hf|(mm' & Hm & _)]; try lia; try reflexivity; [discriminate| |].
  - assert ((mmap_anonymous busy_mm 0x260000 0x10000 1 0x32).1 = 0x260000) as Ha by reflexivity.
    rewrite Hf in Ha. discriminate Ha.
  - exists mm'. exact Hm.
Defined.

Lemma munmap_exact_witness :
  exists mm', munmap busy_mm 0x250000 1 = (true, mm') /\
  (mapped_byte (mappings mm') 0x250000 3 0x22 -> False).
Proof.
  destruct (munmap_exact busy_mm 0x250000 1 0x10000 busy_mm_ok) as (found & mm' & Hm & _ & Hb & _).
  { assert (usize_max = 4294967295) by reflexivity. lia. } { lia. } { reflexivity. }
  exists mm'. split.
  - assert ((munmap busy_mm 0x250000 1).1 = true) as Hf by reflexivity. rewrite Hm in Hf.
    simpl in Hf. rewrite Hm, Hf. reflexivity.
  - intros Hx. apply Hb in Hx as [_ Hx]. apply Hx. lia.
Defined.

Lemma set_brk_correct_witness :
  brk_allowed busy_mm 0x230000 /\ set_brk busy_mm 0x230000 = (0x230000, with_break busy_mm 0x230000).
Proof.
  assert (brk_allowed busy_mm 0x230000) as Ha.
  { rewrite busy_mm_eq. unfold brk_allowed, occupied, u64_max; simpl. split_and!; try lia.
    intros _ s. rewrite !elem_of_cons, elem_of_nil. intros Hs.
    repeat destruct Hs as [->|Hs]; simpl; lia || done. }
  split; [exact Ha|]. exact (proj1 (set_brk_correct busy_mm 0x230000 busy_mm_ok) Ha).
Defined.

Lemma mremap_correct_witness :
  layout_ok (sys_mremap busy_mm 0x240000 0x30000 0x50000 MREMAP_MAYMOVE).2.
Proof.
  pose proof (mremap_correct busy_mm (mkMapped 0x240000 0x30000 3 0x22) 0x50000 MREMAP_MAYMOVE busy_mm_ok) as Hm.
  assert (usize_max = 4294967295) as E by reflexivity. rewrite E in Hm. simpl m_addr in Hm. simpl m_len in Hm.
  destruct (sys_mremap busy_mm 0x240000 0x30000 0x50000 MREMAP_MAYMOVE) as [res mm'].
  apply Hm; try lia; try reflexivity; [|by exists 3]. rewrite busy_mm_eq. by constructor.
Defined.

Lemma set_mappings_restores_witness :
  set_mappings new [mkMapped 0x270000 0x10000 1 0x22; mkMapped 0x240000 0x30000 3 0x22] =
  with_mappings new [mkMapped 0x240000 0x30000 3 0x22; mkMapped 0x270000 0x10000 1 0x22].
Proof.
  pose proof (set_mappings_restores busy_mm new
    [mkMapped 0x270000 0x10000 1 0x22; mkMapped 0x240000 0x30000 3 0x22] busy_mm_ok) as Hr.
  rewrite busy_mm_eq in Hr. apply Hr. apply perm_swap.
Defined.

(** ** Divergences *)

(** [sys_mremap] rounds lengths with a plain addition: a new length within 64 KiB
    of the top of the address space wraps to zero, so instead of failing the
    call frees the whole mapping and reports success. *)
Example mremap_length_wraps :
  sys_mremap busy_mm 0x240000 0x30000 0xFFFFFFFF 0 =
  (Ok 0x240000, (munmap busy_mm 0x240000 0x30000).2).
Proof. vm_compute. reflexivity. Qed.

(** [MAP_FIXED] inside a larger mapping forgets the whole mapping, not the
    requested range: the pages around it were never unmapped by the process, but
    the next request is placed on them. *)
Example map_fixed_forgets_neighbours :
  let mm1 := (mmap_anonymous new 0 0x40000 3 0x22).2 in
  let mm2 := (mmap_anonymous mm1 0x4010000 0x10000 3 0x32).2 in
  is_mapped mm1 0x4000000 = true /\ is_mapped mm2 0x4000000 = false /\
  (mmap_anonymous mm2 0 0x10000 3 0x22).1 = 0x4000000.
Proof. vm_compute. done. Qed.

(** With the break grown past the mmap base to an unaligned address, [mmap]
    returns an address that is not page aligned. *)
Example mmap_returns_unaligned :
  let mm1 := (sys_brk new 0x4000001).2 in
  (mmap_anonymous mm1 0 0x10000 3 0x22).1 = 0x4000001.
Proof. vm_compute. done. Qed.

(** When the address limit is lowered below an existing mapping, the search
    still returns gaps that end above the limit. *)
Example find_gap_above_limit :
  let mm1 := (mmap_anonymous new 0x30000000 0x10000 3 0x32).2 in
  let mm2 := set_max_addr mm1 0x10000000 in
  find_gap mm2 0x20000000 = Some 0x4000000 /\ 0x4000000 + 0x20000000 > max_addr mm2.
Proof. vm_compute. done. Qed.
