(* ===== verification/Signal.v ===== *)
(** * Signal state ([crates/kernel/src/signal.rs])

    The process-wide [SignalState] and the per-thread [PerThreadSignalState]
    with all their operations: raising (coalesced standard signals, queued
    real-time signals, timer notifications), blocking, consuming, dequeuing,
    dispositions, exec and fork reconstruction.  Bit sets are 64-bit integers
    handled with [Z.lor], [Z.land] and [Z.ldiff]; the queue is the list of its
    entries, front first; the actions array is a list of 65 elements.  The
    delivery of a dequeued signal to a process ([deliver_pending_signals] and
    process termination) acts on the whole process and is not modelled here.

    The specification is one FIFO of notifications per signal number
    ([queued]).  The theorems: the pending bit set and the queue never disagree
    and every operation refines its effect on the FIFOs; [dequeue] returns the
    oldest notification of the lowest unblocked pending signal and fails
    exactly when there is none; real-time notifications are neither lost,
    duplicated nor reordered over any run; standard signals coalesce;
    SIGKILL and SIGSTOP keep their default disposition; exec keeps what is
    pending and forgets the handlers. *)

From S2P Require Import Prelude Abi.

(** ** Constants and data *)

Definition SIGRTMIN : Z := 32.
Definition SIGRTMAX_PLUS1 : Z := 65.

Definition sig_bit (signum : Z) : Z :=
  if (signum =? 0) || (65 <=? signum) then 0 else Z.shiftl 1 (signum - 1).

Inductive SignalHandler :=
| Default
| Ignore
| Handler (f : Z).

#[export] Instance SignalHandler_eq_dec : EqDecision SignalHandler.
Proof. solve_decision. Defined.

Record SignalAction := mkAction {
  sa_handler : SignalHandler;
  sa_flags : Z;
  sa_mask : Z;
}.

Definition action_default : SignalAction := mkAction Default 0 0.

Inductive DefaultAction :=
| DTerminate
| DIgnore
| DCoreDump
| DStop
| DContinue.

#[export] Instance DefaultAction_eq_dec : EqDecision DefaultAction.
Proof. solve_decision. Defined.

Definition default_action (signum : Z) : DefaultAction :=
  if bool_decide (signum ∈ [SIGHUP; SIGINT; SIGQUIT; SIGILL; SIGTRAP; SIGABRT; SIGBUS; SIGFPE;
                            SIGKILL; SIGUSR1; SIGUSR2; SIGPIPE; SIGALRM; SIGTERM])
  then DTerminate
  else if bool_decide (signum ∈ [SIGCHLD; SIGWINCH]) then DIgnore
  else if signum =? SIGCONT then DContinue
  else if bool_decide (signum ∈ [SIGSTOP; SIGTSTP; SIGTTIN; SIGTTOU]) then DStop
  else DTerminate.

Definition should_discard_pending (signum : Z) (handler : SignalHandler) : bool :=
  match handler with
  | Ignore => true
  | Default => bool_decide (default_action signum = DIgnore)
  | Handler _ => false
  end.

Record RtSigEntry := mkEntry {
  e_signum : Z;
  e_value : Z;
  e_code : Z;
  e_timer : option Z;
}.

Record PendingSignalInfo := mkInfo {
  i_value : Z;
  i_code : Z;
  i_timer : option Z;
}.

Definition info_default : PendingSignalInfo := mkInfo 0 0 None.

Definition entry_info (e : RtSigEntry) : PendingSignalInfo :=
  mkInfo (e_value e) (e_code e) (e_timer e).

Definition is_sig (s : Z) (e : RtSigEntry) : bool := e_signum e =? s.

Definition is_timer (t : Z) (e : RtSigEntry) : bool := bool_decide (e_timer e = Some t).

(** ** Operations on a pending set and its queue *)

Definition consume_pending_info (pending : Z) (queue : list RtSigEntry) (signum : Z)
    : PendingSignalInfo * (Z * list RtSigEntry) :=
  if (signum =? 0) || (NSIG <=? signum) then (info_default, (pending, queue))
  else
    let '(info, queue') :=
      match position (is_sig signum) queue with
      | Some pos =>
          match queue !! pos with
          | Some entry => (entry_info entry, vec_remove pos queue)
          | None => (info_default, queue)
          end
      | None => (info_default, queue)
      end in
    let pending' := if existsb (is_sig signum) queue' then pending
                    else Z.ldiff pending (sig_bit signum) in
    (info, (pending', queue')).

Definition remove_timer_info (pending : Z) (queue : list RtSigEntry) (timer_id : Z)
    : bool * (Z * list RtSigEntry) :=
  match find_first (is_timer timer_id) queue with
  | None => (false, (pending, queue))
  | Some entry =>
      let signum := e_signum entry in
      let queue' := List.filter (fun e => negb (is_timer timer_id e)) queue in
      let pending' := if existsb (is_sig signum) queue' then pending
                      else Z.ldiff pending (sig_bit signum) in
      (true, (pending', queue'))
  end.

(** The queue part of [raise_internal], which both states share: a real-time
    signal is always queued; a standard one merges into its non-timer entry. *)
Definition mergeable (signum : Z) (e : RtSigEntry) : bool :=
  is_sig signum e && bool_decide (e_timer e = None).

Fixpoint merge_entry (signum si_value si_code : Z) (queue : list RtSigEntry)
    : option (list RtSigEntry) :=
  match queue with
  | [] => None
  | e :: queue' =>
      if mergeable signum e
      then Some ((if si_code =? 0 then e else mkEntry (e_signum e) si_value si_code (e_timer e)) :: queue')
      else cons e <$> merge_entry signum si_value si_code queue'
  end.

Definition enqueue (signum si_value si_code : Z) (queue : list RtSigEntry) : list RtSigEntry :=
  if SIGRTMIN <=? signum then vec_push queue (mkEntry signum si_value si_code None)
  else match merge_entry signum si_value si_code queue with
       | Some queue' => queue'
       | None => vec_push queue (mkEntry signum si_value si_code None)
       end.

(** The body of [raise_timer], shared by both states. *)
Definition enqueue_timer (pending : Z) (signum si_value timer_id : Z) (queue : list RtSigEntry)
    : Z * list RtSigEntry :=
  let queue1 :=
    if (signum <? SIGRTMIN) && negb (Z.land pending (sig_bit signum) =? 0)
       && negb (existsb (is_sig signum) queue)
    then vec_push queue (mkEntry signum 0 0 None) else queue in
  (Z.lor pending (sig_bit signum), vec_push queue1 (mkEntry signum si_value (-2) (Some timer_id))).

(** The body of [clear] and [clear_pending]. *)
Definition clear_queue (pending : Z) (signum : Z) (queue : list RtSigEntry) : Z * list RtSigEntry :=
  if (0 <? signum) && (signum <? NSIG)
  then (Z.ldiff pending (sig_bit signum), List.filter (fun e => negb (is_sig signum e)) queue)
  else (pending, queue).

(** [u64::trailing_zeros]. *)
Fixpoint pos_trailing_zeros (p : positive) : Z :=
  match p with xO p' => 1 + pos_trailing_zeros p' | _ => 0 end.

Definition trailing_zeros (x : Z) : Z :=
  match x with Zpos p => pos_trailing_zeros p | _ => 64 end.

(** ** Per-thread state *)

Record PerThreadSignalState := mkThread {
  pt_blocked : Z;
  pt_pending : Z;
  pt_queue : list RtSigEntry;
  pt_saved_mask : option Z;
}.

Definition pt_new : PerThreadSignalState := mkThread 0 0 [] None.

Definition pt_with (st : PerThreadSignalState) (pq : Z * list RtSigEntry) : PerThreadSignalState :=
  mkThread (pt_blocked st) pq.1 pq.2 (pt_saved_mask st).

Definition pt_raise_internal (st : PerThreadSignalState) (signum si_value si_code : Z)
    : bool * PerThreadSignalState :=
  if (signum =? 0) || (NSIG <=? signum) then (false, st)
  else (true, pt_with st (Z.lor (pt_pending st) (sig_bit signum),
                          enqueue signum si_value si_code (pt_queue st))).

Definition pt_raise (st : PerThreadSignalState) (signum : Z) := pt_raise_internal st signum 0 0.

Definition pt_raise_with_value (st : PerThreadSignalState) (signum si_value : Z) :=
  pt_raise_internal st signum si_value (-1).

Definition pt_raise_timer (st : PerThreadSignalState) (signum si_value timer_id : Z)
    : bool * PerThreadSignalState :=
  if (signum =? 0) || (NSIG <=? signum) then (false, st)
  else (true, pt_with st (enqueue_timer (pt_pending st) signum si_value timer_id (pt_queue st))).

Definition pt_consume_one_info (st : PerThreadSignalState) (signum : Z)
    : PendingSignalInfo * PerThreadSignalState :=
  let '(info, pq) := consume_pending_info (pt_pending st) (pt_queue st) signum in (info, pt_with st pq).

Definition pt_remove_timer_notification (st : PerThreadSignalState) (timer_id : Z)
    : bool * PerThreadSignalState :=
  let '(r, pq) := remove_timer_info (pt_pending st) (pt_queue st) timer_id in (r, pt_with st pq).

Definition pt_clear_pending (st : PerThreadSignalState) (signum : Z) : PerThreadSignalState :=
  pt_with st (clear_queue (pt_pending st) signum (pt_queue st)).

Definition pt_consume_one (st : PerThreadSignalState) (signum : Z)
    : option (Z * Z) * PerThreadSignalState :=
  if (signum =? 0) || (NSIG <=? signum) || (Z.land (pt_pending st) (sig_bit signum) =? 0)
  then (None, st)
  else let '(info, st') := pt_consume_one_info st signum in (Some (i_value info, i_code info), st').

Definition pt_is_pending (st : PerThreadSignalState) (signum : Z) : bool :=
  (0 <? signum) && (signum <? NSIG) && negb (Z.land (pt_pending st) (sig_bit signum) =? 0).

Definition pt_is_blocked (st : PerThreadSignalState) (signum : Z) : bool :=
  if NSIG <=? signum then false else negb (Z.land (pt_blocked st) (sig_bit signum) =? 0).

Definition pt_dequeue (st : PerThreadSignalState) : option (Z * Z * Z) * PerThreadSignalState :=
  let deliverable := Z.ldiff (pt_pending st) (pt_blocked st) in
  if deliverable =? 0 then (None, st)
  else
    let signum := trailing_zeros deliverable + 1 in
    if NSIG <=? signum then (None, st)
    else match pt_consume_one st signum with
         | (Some (si_value, si_code), st') => (Some (signum, si_value, si_code), st')
         | (None, st') => (None, st')
         end.

(** ** Process-wide state *)

Record SignalState := mkSignals {
  actions : list SignalAction;
  blocked : Z;
  pending : Z;
  rt_queue : list RtSigEntry;
}.

Definition new : SignalState := mkSignals (replicate 65 action_default) 0 0 [].

Definition with_queue (st : SignalState) (pq : Z * list RtSigEntry) : SignalState :=
  mkSignals (actions st) (blocked st) pq.1 pq.2.

Definition with_actions (st : SignalState) (a : list SignalAction) : SignalState :=
  mkSignals a (blocked st) (pending st) (rt_queue st).

(** [self.actions[signum as usize]], for an index below 65. *)
Definition action_at (st : SignalState) (signum : Z) : SignalAction :=
  nth (Z.to_nat signum) (actions st) action_default.

Definition get_handler (st : SignalState) (signum : Z) : SignalHandler :=
  if (signum =? 0) || (65 <=? signum) then Default else sa_handler (action_at st signum).

Definition clear_pending (st : SignalState) (signum : Z) : SignalState :=
  with_queue st (clear_queue (pending st) signum (rt_queue st)).

Definition set_action_at (st : SignalState) (signum : Z) (a : SignalAction) : SignalState :=
  with_actions st (<[Z.to_nat signum := a]> (actions st)).

Definition set_handler (st : SignalState) (signum : Z) (handler : SignalHandler)
    : result SignalHandler unit * SignalState :=
  if (signum =? 0) || (65 <=? signum) then (Err (), st)
  else if (signum =? SIGKILL) || (signum =? SIGSTOP) then (Err (), st)
  else
    let old := action_at st signum in
    let st1 := set_action_at st signum (mkAction handler (sa_flags old) (sa_mask old)) in
    (Ok (sa_handler old),
     if should_discard_pending signum handler then clear_pending st1 signum else st1).

Definition get_action (st : SignalState) (signum : Z) : SignalAction :=
  if (signum =? 0) || (65 <=? signum) then action_default else action_at st signum.

Definition set_action (st : SignalState) (signum : Z) (action : SignalAction)
    : result SignalAction unit * SignalState :=
  if (signum =? 0) || (65 <=? signum) then (Err (), st)
  else if (signum =? SIGKILL) || (signum =? SIGSTOP) then (Err (), st)
  else
    let old := action_at st signum in
    let st1 := set_action_at st signum action in
    (Ok old,
     if should_discard_pending signum (sa_handler action) then clear_pending st1 signum else st1).

Definition exec_action (a : SignalAction) : SignalAction :=
  mkAction (match sa_handler a with Ignore => Ignore | _ => Default end) 0 0.

(** [iter_mut().skip(1)]: entry 0 is left alone. *)
Definition reset_dispositions_for_exec (st : SignalState) : SignalState :=
  with_actions st (take 1 (actions st) ++ map exec_action (drop 1 (actions st))).

Definition raise_internal (st : SignalState) (signum si_value si_code : Z) : bool * SignalState :=
  if (signum =? 0) || (65 <=? signum) then (false, st)
  else if should_discard_pending signum (sa_handler (action_at st signum)) then (true, st)
  else (true, with_queue st (Z.lor (pending st) (sig_bit signum),
                             enqueue signum si_value si_code (rt_queue st))).

Definition raise (st : SignalState) (signum : Z) := raise_internal st signum 0 0.

Definition raise_with_value (st : SignalState) (signum si_value : Z) :=
  raise_internal st signum si_value (-1).

Definition raise_timer (st : SignalState) (signum si_value timer_id : Z) : bool * SignalState :=
  if (signum =? 0) || (NSIG <=? signum) then (false, st)
  else (true, with_queue st (enqueue_timer (pending st) signum si_value timer_id (rt_queue st))).

Definition clear (st : SignalState) (signum : Z) : SignalState :=
  with_queue st (clear_queue (pending st) signum (rt_queue st)).

Definition is_pending (st : SignalState) (signum : Z) : bool :=
  if 65 <=? signum then false else negb (Z.land (pending st) (sig_bit signum) =? 0).

Definition pending_mask (st : SignalState) : Z := pending st.

Definition pending_timer_ids (st : SignalState) (signum : Z) : list Z :=
  omap e_timer (List.filter (is_sig signum) (rt_queue st)).

Definition remove_timer_notification (st : SignalState) (timer_id : Z) : bool * SignalState :=
  let '(r, pq) := remove_timer_info (pending st) (rt_queue st) timer_id in (r, with_queue st pq).

Definition consume_one (st : SignalState) (signum : Z) : PendingSignalInfo * SignalState :=
  let '(info, pq) := consume_pending_info (pending st) (rt_queue st) signum in (info, with_queue st pq).

Definition is_blocked (st : SignalState) (signum : Z) : bool :=
  if 65 <=? signum then false else negb (Z.land (blocked st) (sig_bit signum) =? 0).

Definition deliverable (st : SignalState) : Z := Z.ldiff (pending st) (blocked st).

Definition peek_deliverable (st : SignalState) : option Z :=
  if deliverable st =? 0 then None
  else let signum := trailing_zeros (deliverable st) + 1 in
       if 65 <=? signum then None else Some signum.

Definition dequeue (st : SignalState) : option (Z * Z * Z) * SignalState :=
  let deliverable := Z.ldiff (pending st) (blocked st) in
  if deliverable =? 0 then (None, st)
  else
    let signum := trailing_zeros deliverable + 1 in
    let '(info, st') := consume_one st signum in
    (Some (signum, i_value info, i_code info), st').

Definition should_restart (st : SignalState) : bool :=
  if deliverable st =? 0 then false
  else let signum := trailing_zeros (deliverable st) + 1 in
       if 65 <=? signum then false
       else negb (Z.land (sa_flags (action_at st signum)) SA_RESTART =? 0).

Definition from_parts (handlers : list SignalHandler) (blocked : Z) : SignalState :=
  mkSignals (map (fun h => mkAction h 0 0) handlers) blocked 0 [].

Definition from_actions (actions : list SignalAction) (blocked : Z) : SignalState :=
  mkSignals actions blocked 0 [].

(** [1..SIGRTMAX_PLUS1] *)
Definition all_signals : list Z := map Z.of_nat (seq 1 (Z.to_nat (SIGRTMAX_PLUS1 - 1))).

Definition from_parts_with_pending (handlers : list SignalHandler) (blocked pending : Z) : SignalState :=
  mkSignals (map (fun h => mkAction h 0 0) handlers) blocked pending
    (map (fun sig => mkEntry sig 0 0 None)
       (List.filter (fun sig => negb (Z.land pending (sig_bit sig) =? 0)) all_signals)).

Definition handlers (st : SignalState) : list SignalHandler := map sa_handler (actions st).

(** ** Bits *)

Definition valid_sig (s : Z) : Prop := 1 <= s < 65.

Lemma sig_bit_testbit s i :
  valid_sig s -> 0 <= i -> Z.testbit (sig_bit s) i = bool_decide (i = s - 1).
Proof.
  intros Hs Hi. unfold sig_bit, valid_sig in *.
  destruct (Z.eqb_spec s 0); [lia|]. destruct (Z.leb_spec 65 s); [lia|]. simpl.
  rewrite Z.shiftl_1_l, Z.pow2_bits_eqb by lia.
  case_bool_decide; [subst; apply Z.eqb_refl|apply Z.eqb_neq; lia].
Qed.

(** [(mask & sig_bit(s)) != 0] tests bit [s - 1]. *)
Lemma land_sig_bit p s : valid_sig s -> negb (Z.land p (sig_bit s) =? 0) = Z.testbit p (s - 1).
Proof.
  intros Hs. assert (0 <= s - 1) by (unfold valid_sig in *; lia).
  destruct (Z.eqb_spec (Z.land p (sig_bit s)) 0) as [E|E]; simpl.
  - symmetry. assert (Z.testbit (Z.land p (sig_bit s)) (s - 1) = false) as Hb by (rewrite E; apply Z.bits_0).
    rewrite Z.land_spec, sig_bit_testbit in Hb by done.
    rewrite bool_decide_eq_true_2 in Hb by done. by rewrite andb_true_r in Hb.
  - symmetry. destruct (Z.testbit p (s - 1)) eqn:Ep; [done|]. destruct E.
    apply Z.bits_inj'. intros i Hi. rewrite Z.land_spec, Z.bits_0, sig_bit_testbit by done.
    case_bool_decide; [subst; by rewrite Ep|apply andb_false_r].
Qed.

Lemma lor_sig_bit p s s' :
  valid_sig s -> valid_sig s' ->
  Z.testbit (Z.lor p (sig_bit s)) (s' - 1) = Z.testbit p (s' - 1) || bool_decide (s' = s).
Proof.
  intros Hs Hs'. rewrite Z.lor_spec, sig_bit_testbit by (done || unfold valid_sig in *; lia).
  f_equal. apply bool_decide_ext. lia.
Qed.

Lemma ldiff_sig_bit p s s' :
  valid_sig s -> valid_sig s' ->
  Z.testbit (Z.ldiff p (sig_bit s)) (s' - 1) = Z.testbit p (s' - 1) && negb (bool_decide (s' = s)).
Proof.
  intros Hs Hs'. rewrite Z.ldiff_spec, sig_bit_testbit by (done || unfold valid_sig in *; lia).
  do 2 f_equal. apply bool_decide_ext. lia.
Qed.

Definition u64_range (x : Z) : Prop := 0 <= x < 2 ^ 64.

Lemma bits_u64_range x : 0 <= x -> (forall i, 64 <= i -> Z.testbit x i = false) -> u64_range x.
Proof.
  intros Hx Hb. split; [done|]. destruct (Z.eq_dec x 0) as [->|]; [done|].
  apply Z.log2_lt_pow2; [lia|]. destruct (Z.ltb_spec (Z.log2 x) 64); [done|].
  specialize (Hb (Z.log2 x)). rewrite Z.bit_log2 in Hb by lia. by apply Hb in H.
Qed.

Lemma u64_high_bits x i : u64_range x -> 64 <= i -> Z.testbit x i = false.
Proof.
  intros [H0 H1] Hi. destruct (Z.eq_dec x 0) as [->|]; [apply Z.bits_0|].
  apply Z.bits_above_log2; [done|]. apply Z.log2_lt_pow2; [lia|].
  eapply Z.lt_le_trans; [done|]. apply Z.pow_le_mono_r; lia.
Qed.

Lemma sig_bit_u64 s : valid_sig s -> u64_range (sig_bit s).
Proof.
  intros Hs. apply bits_u64_range.
  - unfold sig_bit. case_bool_step; [done|]. apply Z.shiftl_nonneg. lia.
  - intros i Hi. rewrite sig_bit_testbit by (done || lia). unfold valid_sig in Hs.
    apply bool_decide_eq_false_2. lia.
Qed.

Lemma lor_u64 x y : u64_range x -> u64_range y -> u64_range (Z.lor x y).
Proof.
  intros Hx Hy. apply bits_u64_range; [apply Z.lor_nonneg; split; [apply Hx|apply Hy]|].
  intros i Hi. by rewrite Z.lor_spec, !u64_high_bits.
Qed.

Lemma ldiff_u64 x y : u64_range x -> u64_range (Z.ldiff x y).
Proof.
  intros Hx. apply bits_u64_range; [apply Z.ldiff_nonneg; left; apply Hx|].
  intros i Hi. by rewrite Z.ldiff_spec, u64_high_bits.
Qed.

(** [trailing_zeros] finds the lowest set bit. *)
Lemma trailing_zeros_spec x :
  0 < x -> 0 <= trailing_zeros x /\ Z.testbit x (trailing_zeros x) = true /\
  forall i, 0 <= i < trailing_zeros x -> Z.testbit x i = false.
Proof.
  intros Hx. destruct x as [|p|]; [lia| |lia]. clear Hx. unfold trailing_zeros.
  induction p as [p IH|p IH|]; simpl pos_trailing_zeros; [split_and!; [done|done|lia]| |split_and!; [done|done|lia]].
  destruct IH as (H0 & H1 & H2). split; [lia|].
  change (Zpos p~0) with (2 * Zpos p). split.
  - replace (1 + pos_trailing_zeros p) with (Z.succ (pos_trailing_zeros p)) by lia.
    by rewrite Z.testbit_even_succ.
  - intros i Hi. destruct (Z.eq_dec i 0) as [->|]; [apply Z.testbit_even_0|].
    replace i with (Z.succ (i - 1)) by lia. rewrite Z.testbit_even_succ by lia. apply H2. lia.
Qed.

(** The lowest signal of a non-empty 64-bit set. *)
Lemma lowest_signal x :
  u64_range x -> x <> 0 ->
  let s := trailing_zeros x + 1 in
  valid_sig s /\ Z.testbit x (s - 1) = true /\
  forall s', valid_sig s' -> Z.testbit x (s' - 1) = true -> s <= s'.
Proof.
  intros Hr Hx s. destruct (trailing_zeros_spec x) as (H0 & H1 & H2); [unfold u64_range in Hr; lia|].
  subst s. replace (trailing_zeros x + 1 - 1) with (trailing_zeros x) by lia. split_and!; [|done|].
  - unfold valid_sig. destruct (Z.ltb_spec (trailing_zeros x) 64); [lia|].
    rewrite (u64_high_bits x) in H1 by done. done.
  - intros s' Hs' Hb. destruct (Z.leb_spec (trailing_zeros x + 1) s'); [done|].
    unfold valid_sig in Hs'. rewrite H2 in Hb by lia. done.
Qed.

(** ** The specification: one FIFO per signal *)

Definition queued (q : list RtSigEntry) (s : Z) : list PendingSignalInfo :=
  entry_info <$> List.filter (is_sig s) q.

(** The pending bits and the queue agree. *)
Record pq_ok (p : Z) (q : list RtSigEntry) : Prop := {
  pq_range : u64_range p;
  pq_entries : forall e, e ∈ q -> valid_sig (e_signum e);
  pq_agree : forall s, valid_sig s -> Z.testbit p (s - 1) = true <-> queued q s <> [];
}.

(** Merging a standard signal into its FIFO: the first notification that is not
    a timer's takes the new payload if it has one; otherwise one is appended. *)
Fixpoint coalesce (v c : Z) (l : list PendingSignalInfo) : list PendingSignalInfo :=
  match l with
  | [] => [mkInfo v c None]
  | i :: l' =>
      if bool_decide (i_timer i = None)
      then (if c =? 0 then i else mkInfo v c None) :: l'
      else i :: coalesce v c l'
  end.

Definition spec_raise (s v c : Z) (l : list PendingSignalInfo) : list PendingSignalInfo :=
  if SIGRTMIN <=? s then l ++ [mkInfo v c None] else coalesce v c l.

Lemma queued_app q1 q2 s : queued (q1 ++ q2) s = queued q1 s ++ queued q2 s.
Proof. unfold queued. by rewrite List.filter_app, fmap_app. Qed.

Lemma queued_cons e q s :
  queued (e :: q) s = (if is_sig s e then [entry_info e] else []) ++ queued q s.
Proof. unfold queued. simpl. by destruct (is_sig s e). Qed.

Lemma queued_nil_iff q s : queued q s = [] <-> existsb (is_sig s) q = false.
Proof.
  induction q as [|e q IH]; [done|]. rewrite queued_cons. simpl.
  destruct (is_sig s e); simpl; [done|done].
Qed.

Lemma queued_filter_other q s s' :
  queued (List.filter (fun e => negb (is_sig s e)) q) s' = if s' =? s then [] else queued q s'.
Proof.
  unfold queued. rewrite filter_and. unfold is_sig. destruct (Z.eqb_spec s' s) as [->|Hne].
  - rewrite filter_none; [done|]. apply Forall_forall. intros e _. by destruct (e_signum e =? s).
  - f_equal. apply filter_ext_elem. intros e _. destruct (Z.eqb_spec (e_signum e) s'); [|apply andb_false_r].
    subst. by destruct (Z.eqb_spec (e_signum e) s).
Qed.

Lemma merge_entry_queued s v c q :
  match merge_entry s v c q with
  | Some q' => (forall s', queued q' s' = if s' =? s then coalesce v c (queued q s) else queued q s') /\
               map e_signum q' = map e_signum q
  | None => coalesce v c (queued q s) = queued q s ++ [mkInfo v c None]
  end.
Proof.
  induction q as [|e q IH]; simpl; [done|]. unfold mergeable.
  destruct (is_sig s e) eqn:Es; simpl.
  - rewrite (queued_cons e q s), Es. simpl. case_bool_decide as Ht.
    + split; [|by destruct (c =? 0)]. intros s'. rewrite !queued_cons.
      unfold is_sig in *. apply Z.eqb_eq in Es. subst s.
      destruct (Z.eqb_spec s' (e_signum e)) as [->|Hne].
      * destruct (c =? 0); simpl; rewrite Z.eqb_refl; unfold entry_info; simpl; by rewrite ?Ht.
      * destruct (c =? 0); simpl; by destruct (Z.eqb_spec (e_signum e) s'); [congruence|].
    + destruct (merge_entry s v c q) as [q'|]; simpl; [|by rewrite IH].
      destruct IH as [IH IHm]. split; [|by rewrite IHm]. intros s'. rewrite !queued_cons, IH.
      destruct (Z.eqb_spec s' s) as [->|]; [by rewrite Es|done].
  - rewrite (queued_cons e q s), Es. simpl.
    destruct (merge_entry s v c q) as [q'|]; simpl; [|done].
    destruct IH as [IH IHm]. split; [|by rewrite IHm]. intros s'. rewrite !queued_cons, IH.
    destruct (Z.eqb_spec s' s) as [->|]; [by rewrite Es|done].
Qed.

Lemma queued_push q e s :
  queued (vec_push q e) s = queued q s ++ (if is_sig s e then [entry_info e] else []).
Proof. unfold vec_push. rewrite queued_app. f_equal. rewrite queued_cons. by rewrite app_nil_r. Qed.

Lemma enqueue_queued s v c q s' :
  queued (enqueue s v c q) s' = if s' =? s then spec_raise s v c (queued q s) else queued q s'.
Proof.
  unfold enqueue, spec_raise. pose proof (merge_entry_queued s v c q) as Hm.
  assert (queued (vec_push q (mkEntry s v c None)) s' =
    if s' =? s then queued q s ++ [mkInfo v c None] else queued q s') as Hpush.
  { rewrite queued_push. unfold is_sig; simpl.
    destruct (Z.eqb_spec s' s) as [->|]; [by rewrite Z.eqb_refl|].
    destruct (Z.eqb_spec s s'); [congruence|]. by rewrite app_nil_r. }
  destruct (SIGRTMIN <=? s); [done|]. destruct (merge_entry s v c q); [apply Hm|].
  by rewrite Hm.
Qed.

Lemma enqueue_entries s v c q e : e ∈ enqueue s v c q -> e_signum e = s \/ e_signum e ∈ map e_signum q.
Proof.
  assert (e ∈ vec_push q (mkEntry s v c None) -> e_signum e = s \/ e_signum e ∈ map e_signum q) as Hpush.
  { unfold vec_push. rewrite elem_of_app, list_elem_of_singleton.
    intros [?| ->]; [right; by apply list_elem_of_fmap_2|by left]. }
  unfold enqueue. pose proof (merge_entry_queued s v c q) as Hm.
  destruct (SIGRTMIN <=? s); [done|]. destruct (merge_entry s v c q) as [q'|]; [|done].
  destruct Hm as [_ Hm]. intros He. right. rewrite <- Hm. by apply list_elem_of_fmap_2.
Qed.

Lemma spec_raise_nonempty s v c l : spec_raise s v c l <> [].
Proof.
  unfold spec_raise. case_bool_step; [by destruct l|].
  destruct l as [|i l]; simpl; [done|]. by case_bool_decide.
Qed.

(** *** Each queue operation: its effect on the FIFOs, and agreement preserved *)

Lemma pq_ok_intro p q :
  u64_range p -> (forall e, e ∈ q -> valid_sig (e_signum e)) ->
  (forall s, valid_sig s -> Z.testbit p (s - 1) = true <-> queued q s <> []) -> pq_ok p q.
Proof. by constructor. Qed.

Lemma enqueue_ok p q s v c :
  pq_ok p q -> valid_sig s -> pq_ok (Z.lor p (sig_bit s)) (enqueue s v c q).
Proof.
  intros [Hr He Ha] Hs. apply pq_ok_intro; [by apply lor_u64, sig_bit_u64| |].
  - intros e Hin. apply enqueue_entries in Hin as [->|Hin]; [done|].
    apply list_elem_of_fmap in Hin as (e' & -> & ?). auto.
  - intros s' Hs'. rewrite lor_sig_bit, enqueue_queued by done.
    destruct (Z.eqb_spec s' s) as [->|Hne].
    + rewrite bool_decide_eq_true_2, orb_true_r by done. split; [intros _; apply spec_raise_nonempty|done].
    + rewrite bool_decide_eq_false_2, orb_false_r by done. by apply Ha.
Qed.

Lemma enqueue_timer_queued p q s v t s' :
  pq_ok p q -> valid_sig s ->
  queued (enqueue_timer p s v t q).2 s' =
  if s' =? s then queued q s ++ [mkInfo v (-2) (Some t)] else queued q s'.
Proof.
  intros [Hr He Ha] Hs. unfold enqueue_timer. rewrite land_sig_bit by done.
  assert ((s <? SIGRTMIN) && Z.testbit p (s - 1) && negb (existsb (is_sig s) q) = false) as ->.
  { destruct (Z.testbit p (s - 1)) eqn:E; [|by rewrite andb_false_r].
    apply Ha in E; [|done]. destruct (existsb (is_sig s) q) eqn:Ex; [by rewrite andb_false_r|].
    by apply queued_nil_iff in Ex. }
  simpl. rewrite queued_push. unfold is_sig; simpl.
  destruct (Z.eqb_spec s' s) as [->|]; [by rewrite Z.eqb_refl|].
  destruct (Z.eqb_spec s s'); [congruence|]. by rewrite app_nil_r.
Qed.

Lemma enqueue_timer_ok p q s v t :
  pq_ok p q -> valid_sig s ->
  pq_ok (enqueue_timer p s v t q).1 (enqueue_timer p s v t q).2.
Proof.
  intros Hok Hs. apply pq_ok_intro.
  - apply lor_u64; [apply Hok|by apply sig_bit_u64].
  - intros e. unfold enqueue_timer, vec_push. simpl. rewrite elem_of_app, list_elem_of_singleton.
    intros [Hin| ->]; [|done]. case_bool_step; [|by apply (pq_entries _ _ Hok)].
    apply elem_of_app in Hin as [Hin| ->%list_elem_of_singleton]; [by apply (pq_entries _ _ Hok)|done].
  - intros s' Hs'. rewrite enqueue_timer_queued by done. simpl. rewrite lor_sig_bit by done.
    destruct (Z.eqb_spec s' s) as [->|Hne].
    + rewrite bool_decide_eq_true_2, orb_true_r by done. split; [|done]. by destruct (queued q s).
    + rewrite bool_decide_eq_false_2, orb_false_r by done. by apply Hok.
Qed.

(** Clearing the bit of a signal that has just left the queue. *)
Lemma pq_ok_drop p q q' s :
  pq_ok p q -> valid_sig s -> (forall e, e ∈ q' -> e ∈ q) ->
  (forall s', s' <> s -> queued q' s' = queued q s') ->
  (queued q' s <> [] -> queued q s <> []) ->
  pq_ok (if existsb (is_sig s) q' then p else Z.ldiff p (sig_bit s)) q'.
Proof.
  intros [Hr He Ha] Hs Hsub Hoth Hself. apply pq_ok_intro.
  - case_bool_step; [done|]. by apply ldiff_u64.
  - auto.
  - intros s' Hs'. destruct (existsb (is_sig s) q') eqn:Ex.
    + destruct (Z.eq_dec s' s) as [->|Hne]; [|rewrite Hoth by done; by apply Ha].
      assert (queued q' s <> []) by (rewrite queued_nil_iff; by rewrite Ex).
      rewrite Ha by done. tauto.
    + rewrite ldiff_sig_bit by done. apply queued_nil_iff in Ex. case_bool_decide; simpl.
      * subst. rewrite andb_false_r. by rewrite Ex.
      * rewrite andb_true_r, Hoth by done. by apply Ha.
Qed.

Lemma consume_spec p q s :
  pq_ok p q -> valid_sig s ->
  let '(info, (p', q')) := consume_pending_info p q s in
  pq_ok p' q' /\ info = default info_default (head (queued q s)) /\
  (forall s', queued q' s' = if s' =? s then tail (queued q s) else queued q s') /\
  (forall e, e ∈ q' -> e ∈ q) /\
  (queued q s <> [] -> length q = S (length q')).
Proof.
  intros Hok Hs. unfold consume_pending_info.
  assert ((s =? 0) || (NSIG <=? s) = false) as -> by (unfold valid_sig, NSIG in *; lia).
  pose proof (position_spec (is_sig s) q) as Hp. destruct (position (is_sig s) q) as [i|].
  - destruct Hp as (l1 & e & l2 & -> & Hse & Hl1 & ->).
    rewrite list_lookup_middle by done. rewrite vec_remove_app.
    assert (queued (l1 ++ e :: l2) s = entry_info e :: queued l2 s) as Hq.
    { rewrite queued_app, queued_cons, Hse. unfold queued at 1. by rewrite filter_none. }
    assert (forall s', queued (l1 ++ l2) s' =
      if s' =? s then tail (queued (l1 ++ e :: l2) s) else queued (l1 ++ e :: l2) s') as Hq'.
    { intros s'. destruct (Z.eqb_spec s' s) as [->|Hne].
      - rewrite Hq, queued_app. unfold queued at 1. by rewrite filter_none.
      - rewrite !queued_app, queued_cons. unfold is_sig in *.
        destruct (Z.eqb_spec (e_signum e) s'); [lia|done]. }
    split_and!; [|by rewrite Hq|done|set_solver|rewrite !length_app; simpl; lia].
    apply (pq_ok_drop _ (l1 ++ e :: l2)); [done|done|set_solver|..].
    + intros s' Hne. rewrite Hq'. by destruct (Z.eqb_spec s' s).
    + by rewrite Hq.
  - assert (queued q s = []) as Hq by (unfold queued; by rewrite filter_none).
    split_and!; [|by rewrite Hq| |done|done].
    + by apply (pq_ok_drop _ q).
    + intros s'. destruct (Z.eqb_spec s' s) as [->|]; [by rewrite Hq|done].
Qed.

Lemma clear_ok p q s : pq_ok p q -> pq_ok (clear_queue p s q).1 (clear_queue p s q).2.
Proof.
  intros Hok. unfold clear_queue. case_bool_step; [|done]. simpl.
  assert (valid_sig s) as Hs by (unfold valid_sig, NSIG in *; lia).
  assert (queued (List.filter (fun e => negb (is_sig s e)) q) s = []) as Hq
    by (rewrite queued_filter_other; by rewrite Z.eqb_refl).
  pose proof (pq_ok_drop p q (List.filter (fun e => negb (is_sig s e)) q) s) as Hd.
  apply queued_nil_iff in Hq as Hx. rewrite Hx in Hd. apply Hd; try done.
  - intros e [? _]%elem_of_filter_bool. done.
  - intros s' Hne. rewrite queued_filter_other. by destruct (Z.eqb_spec s' s).
Qed.

Lemma clear_queued p q s s' :
  valid_sig s -> queued (clear_queue p s q).2 s' = if s' =? s then [] else queued q s'.
Proof.
  intros Hs. unfold clear_queue.
  assert ((0 <? s) && (s <? NSIG) = true) as -> by (unfold valid_sig, NSIG in *; lia).
  apply queued_filter_other.
Qed.

(** Every notification of a timer carries the signal the timer was created with. *)
Definition timers_ok (timer_sig : Z -> Z) (q : list RtSigEntry) : Prop :=
  forall e t, e ∈ q -> e_timer e = Some t -> e_signum e = timer_sig t.

Definition drop_timer (t : Z) (l : list PendingSignalInfo) : list PendingSignalInfo :=
  List.filter (fun i => negb (bool_decide (i_timer i = Some t))) l.

Lemma drop_timer_queued t q s :
  queued (List.filter (fun e => negb (is_timer t e)) q) s = drop_timer t (queued q s).
Proof.
  induction q as [|e q IH]; [done|]. rewrite queued_cons. unfold drop_timer in *.
  rewrite List.filter_app, <- IH. simpl.
  destruct (is_timer t e) eqn:Et; simpl; [|rewrite queued_cons];
    destruct (is_sig s e); simpl; unfold is_timer in Et; try done; simpl; by rewrite Et.
Qed.

Lemma remove_timer_spec ts p q t :
  pq_ok p q -> timers_ok ts q ->
  let '(found, (p', q')) := remove_timer_info p q t in
  pq_ok p' q' /\ (found = true <-> exists e, e ∈ q /\ e_timer e = Some t) /\
  (forall s, queued q' s = drop_timer t (queued q s)) /\ (forall e, e ∈ q' -> e ∈ q).
Proof.
  intros Hok Hts. unfold remove_timer_info.
  destruct (find_first (is_timer t) q) as [e0|] eqn:Ef.
  - apply find_first_Some in Ef as [Hin Ht]. unfold is_timer in Ht. bool_hyps.
    pose proof (pq_entries _ _ Hok e0 Hin) as Hs.
    set (q' := List.filter (fun e => negb (is_timer t e)) q).
    assert (forall e, e ∈ q' -> e ∈ q) as Hsub by (intros e [? _]%elem_of_filter_bool; done).
    split_and!; [|split; [eauto|done]|intros; apply drop_timer_queued|done].
    apply (pq_ok_drop p q); try done.
    + intros s' Hne. unfold queued, q'. rewrite filter_and. f_equal. apply filter_ext_elem.
      intros e He. unfold is_timer, is_sig. destruct (Z.eqb_spec (e_signum e) s'); [|apply andb_false_r].
      case_bool_decide as Het; [|done]. exfalso. apply Hne. subst s'.
      by rewrite (Hts e t), (Hts e0 t).
    + unfold q'. rewrite drop_timer_queued. by destruct (queued q (e_signum e0)).
  - rewrite find_first_None in Ef. split_and!; [done| | |done].
    + split; [done|]. intros (e & He & Ht). apply Ef in He. unfold is_timer in He.
      by rewrite bool_decide_eq_true_2 in He.
    + intros s. rewrite <- drop_timer_queued. f_equal. symmetry. apply filter_all, Forall_forall.
      intros e He. by rewrite Ef.
Qed.

(** *** The next signal to deliver *)

Definition is_masked (mask s : Z) : bool := Z.testbit mask (s - 1).

Definition nonempty {A} (l : list A) : bool := match l with [] => false | _ => true end.

(** The reference: the first signal number, counting up, that has a
    notification and is not masked. *)
Definition spec_next (mask : Z) (Q : Z -> list PendingSignalInfo) : option Z :=
  find_first (fun s => nonempty (Q s) && negb (is_masked mask s)) all_signals.

Lemma find_first_seq (p : Z -> bool) a n s :
  Z.of_nat a <= s < Z.of_nat (a + n) -> p s = true ->
  (forall s', Z.of_nat a <= s' < s -> p s' = false) ->
  find_first p (map Z.of_nat (seq a n)) = Some s.
Proof.
  unfold find_first. revert a. induction n as [|n IH]; intros a Hs Hp Hlt; [lia|]. simpl.
  destruct (Z.eq_dec (Z.of_nat a) s) as [<-|Hne]; [by rewrite Hp|].
  rewrite Hlt by lia. apply IH; [lia|done|]. intros s' Hs'. apply Hlt. lia.
Qed.

Lemma spec_next_Some mask Q s :
  valid_sig s -> Q s <> [] -> is_masked mask s = false ->
  (forall s', valid_sig s' -> Q s' <> [] -> is_masked mask s' = false -> s <= s') ->
  spec_next mask Q = Some s.
Proof.
  unfold valid_sig. intros Hs Hq Hm Hleast. apply find_first_seq.
  - change (Z.to_nat (SIGRTMAX_PLUS1 - 1)) with 64%nat. lia.
  - rewrite Hm. by destruct (Q s).
  - intros s' Hs'. destruct (Q s') eqn:Eq; [done|]. simpl.
    destruct (is_masked mask s') eqn:Em; [done|]. exfalso.
    assert (s <= s'); [|lia]. apply Hleast; [lia|by rewrite Eq|done].
Qed.

Lemma spec_next_None mask Q :
  (forall s, valid_sig s -> Q s <> [] -> is_masked mask s = true) -> spec_next mask Q = None.
Proof.
  intros Hq. apply find_first_None. intros s Hs. apply list_elem_of_fmap in Hs as (n & -> & Hn).
  apply list_elem_of_In, in_seq in Hn. change (Z.to_nat (SIGRTMAX_PLUS1 - 1)) with 64%nat in Hn.
  destruct (Q (Z.of_nat n)) eqn:E; [done|]. simpl. rewrite Hq; [done|unfold valid_sig; lia|by rewrite E].
Qed.

Lemma find_first_seq_inv (p : Z -> bool) a n s :
  find_first p (map Z.of_nat (seq a n)) = Some s ->
  Z.of_nat a <= s < Z.of_nat (a + n) /\ p s = true /\
  forall s', Z.of_nat a <= s' < s -> p s' = false.
Proof.
  unfold find_first. revert a. induction n as [|n IH]; intros a; simpl; [done|].
  destruct (p (Z.of_nat a)) eqn:E.
  - intros [= <-]. split_and!; [lia|lia|done|lia].
  - intros (? & ? & Hl)%IH. split_and!; [lia|lia|done|].
    intros s' Hs'. destruct (Z.eq_dec s' (Z.of_nat a)) as [->|]; [done|]. apply Hl. lia.
Qed.

Lemma spec_next_inv mask Q s :
  spec_next mask Q = Some s ->
  valid_sig s /\ Q s <> [] /\ is_masked mask s = false /\
  forall s', valid_sig s' -> Q s' <> [] -> is_masked mask s' = false -> s <= s'.
Proof.
  intros (Hr & Hp & Hl)%find_first_seq_inv.
  change (Z.to_nat (SIGRTMAX_PLUS1 - 1)) with 64%nat in Hr. bool_hyps.
  split_and!; [unfold valid_sig; lia|by destruct (Q s)|done|].
  intros s' Hs' Hq Hm. destruct (Z.leb_spec s s'); [done|].
  unfold valid_sig in Hs'. specialize (Hl s'). rewrite Hm in Hl.
  destruct (Q s'); [done|]. simpl in Hl. discriminate Hl. lia.
Qed.

Lemma spec_next_None_inv mask Q :
  spec_next mask Q = None -> forall s, valid_sig s -> Q s <> [] -> is_masked mask s = true.
Proof.
  intros Hn s Hs Hq. unfold spec_next in Hn. rewrite find_first_None in Hn.
  assert (s ∈ all_signals) as Hin.
  { apply list_elem_of_fmap. exists (Z.to_nat s). unfold valid_sig in Hs. split; [lia|].
    apply list_elem_of_In, in_seq. change (Z.to_nat (SIGRTMAX_PLUS1 - 1)) with 64%nat. lia. }
  apply Hn in Hin. destruct (Q s); [done|]. simpl in Hin. by destruct (is_masked mask s).
Qed.

(** The bit computation finds the signal the specification names. *)
Lemma deliverable_next p q mask :
  pq_ok p q ->
  if Z.ldiff p mask =? 0 then spec_next mask (queued q) = None
  else let s := trailing_zeros (Z.ldiff p mask) + 1 in
       spec_next mask (queued q) = Some s /\ valid_sig s /\ queued q s <> [] /\
       Z.testbit p (s - 1) = true /\ is_masked mask s = false.
Proof.
  intros [Hr _ Ha]. destruct (Z.eqb_spec (Z.ldiff p mask) 0) as [E|E].
  - apply spec_next_None. intros s Hs Hq. apply Ha in Hq; [|done].
    assert (Z.testbit (Z.ldiff p mask) (s - 1) = false) as Hb by (rewrite E; apply Z.bits_0).
    rewrite Z.ldiff_spec, Hq in Hb. unfold is_masked. by destruct (Z.testbit mask (s - 1)).
  - destruct (lowest_signal (Z.ldiff p mask)) as (Hs & Hb & Hl); [by apply ldiff_u64|done|].
    set (s := trailing_zeros (Z.ldiff p mask) + 1) in *. rewrite Z.ldiff_spec in Hb. bool_hyps.
    assert (queued q s <> []) by (by apply Ha). split_and!; try done.
    apply spec_next_Some; try done. intros s' Hs' Hq Hm. apply Hl; [done|].
    apply Ha in Hq; [|done]. unfold is_masked in Hm. by rewrite Z.ldiff_spec, Hq, Hm.
Qed.

(** ** The interface of a signal source

    Both states promise the same [dequeue]: it hands out the front of the FIFO
    that [spec_next] names and touches nothing else. *)

Definition dequeue_law {St} (mask : St -> Z) (pq : St -> Z * list RtSigEntry)
    (deq : St -> option (Z * Z * Z) * St) : Prop :=
  forall st, pq_ok (pq st).1 (pq st).2 ->
  match spec_next (mask st) (queued (pq st).2) with
  | None => deq st = (None, st)
  | Some s =>
      exists i l st', valid_sig s /\ queued (pq st).2 s = i :: l /\
        deq st = (Some (s, i_value i, i_code i), st') /\
        pq_ok (pq st').1 (pq st').2 /\ mask st' = mask st /\
        (forall s', queued (pq st').2 s' = if s' =? s then l else queued (pq st).2 s') /\
        (forall e, e ∈ (pq st').2 -> e ∈ (pq st).2) /\
        length (pq st).2 = S (length (pq st').2)
  end.

Class SignalSource (St : Type) := {
  src_mask : St -> Z;
  src_pq : St -> Z * list RtSigEntry;
  src_dequeue : St -> option (Z * Z * Z) * St;
  src_law : dequeue_law src_mask src_pq src_dequeue;
}.

Lemma dequeue_ok : dequeue_law blocked (fun st => (pending st, rt_queue st)) dequeue.
Proof.
  intros st Hok. pose proof (deliverable_next _ _ (blocked st) Hok) as Hn.
  unfold dequeue. simpl in *. destruct (Z.ldiff (pending st) (blocked st) =? 0); [by rewrite Hn|].
  set (s := trailing_zeros (Z.ldiff (pending st) (blocked st)) + 1) in *.
  destruct Hn as (-> & Hs & Hq & _ & _).
  pose proof (consume_spec _ _ _ Hok Hs) as Hc. unfold consume_one.
  destruct (consume_pending_info (pending st) (rt_queue st) s) as [info [p' q']].
  destruct Hc as (Hok' & -> & Hq' & Hsub & Hlen). simpl in *.
  destruct (queued (rt_queue st) s) as [|i l] eqn:Eq; [done|]. simpl in *.
  exists i, l. eexists. split_and!; try done. by apply Hlen.
Qed.

Lemma pt_dequeue_ok : dequeue_law pt_blocked (fun st => (pt_pending st, pt_queue st)) pt_dequeue.
Proof.
  intros st Hok. pose proof (deliverable_next _ _ (pt_blocked st) Hok) as Hn.
  unfold pt_dequeue. simpl in *. destruct (Z.ldiff (pt_pending st) (pt_blocked st) =? 0); [by rewrite Hn|].
  set (s := trailing_zeros (Z.ldiff (pt_pending st) (pt_blocked st)) + 1) in *.
  destruct Hn as (-> & Hs & Hq & Hb & _).
  pose proof (consume_spec _ _ _ Hok Hs) as Hc. unfold pt_consume_one, pt_consume_one_info.
  pose proof (land_sig_bit (pt_pending st) s Hs) as Hl. rewrite Hb in Hl. simpl in *.
  destruct (Z.land (pt_pending st) (sig_bit s) =? 0); [done|].
  assert ((NSIG <=? s) = false) as -> by (unfold valid_sig, NSIG in *; lia).
  destruct (s =? 0) eqn:E0; [unfold valid_sig in *; lia|]. simpl.
  destruct (consume_pending_info (pt_pending st) (pt_queue st) s) as [info [p' q']].
  destruct Hc as (Hok' & -> & Hq' & Hsub & Hlen). simpl in *.
  destruct (queued (pt_queue st) s) as [|i l] eqn:Eq; [done|]. simpl in *.
  exists i, l. eexists. split_and!; try done. by apply Hlen.
Qed.

#[export] Instance process_source : SignalSource SignalState :=
  {| src_law := dequeue_ok |}.
#[export] Instance thread_source : SignalSource PerThreadSignalState :=
  {| src_law := pt_dequeue_ok |}.

(** Call [deq] until it hands nothing out, at most [n] times. *)
Fixpoint calls {St D} (deq : St -> option D * St) (n : nat) (st : St) : list D * St :=
  match n with
  | O => ([], st)
  | S n =>
      match deq st with
      | (None, st') => ([], st')
      | (Some d, st') => let '(ds, st'') := calls deq n st' in (d :: ds, st'')
      end
  end.

Section source.
Context `{SignalSource St}.

#[local] Notation drain := (calls src_dequeue).

Definition payload (i : PendingSignalInfo) : Z * Z := (i_value i, i_code i).

(** The payloads delivered for one signal. *)
Definition delivered (ds : list (Z * Z * Z)) (s : Z) : list (Z * Z) :=
  map (fun d => (d.1.2, d.2)) (List.filter (fun d => d.1.1 =? s) ds).

Definition src_queued (st : St) (s : Z) : list PendingSignalInfo := queued (src_pq st).2 s.

Lemma delivered_cons d ds s :
  delivered (d :: ds) s = (if d.1.1 =? s then [(d.1.2, d.2)] else []) ++ delivered ds s.
Proof. unfold delivered. simpl. by destruct (d.1.1 =? s). Qed.

Lemma drain_ok n st : pq_ok (src_pq st).1 (src_pq st).2 ->
  pq_ok (src_pq (drain n st).2).1 (src_pq (drain n st).2).2.
Proof.
  revert st. induction n as [|n IH]; intros st Hok; simpl; [done|].
  pose proof (src_law st Hok) as Hl.
  destruct (spec_next _ _) as [s|]; [|by rewrite Hl].
  destruct Hl as (i & l & st1 & _ & _ & -> & Hok1 & _). specialize (IH st1 Hok1).
  by destruct (drain n st1).
Qed.

(** What draining delivers, signal by signal, and what it leaves. *)
Lemma drain_effect n st :
  pq_ok (src_pq st).1 (src_pq st).2 -> (length (src_pq st).2 <= n)%nat ->
  let '(ds, st') := drain n st in
  src_mask st' = src_mask st /\ spec_next (src_mask st') (src_queued st') = None /\
  (forall s, valid_sig s ->
     payload <$> src_queued st s = delivered ds s ++ (payload <$> src_queued st' s) /\
     (is_masked (src_mask st) s = true -> delivered ds s = [])) /\
  (forall d, d ∈ ds -> valid_sig d.1.1 /\ src_queued st d.1.1 <> [] /\ is_masked (src_mask st) d.1.1 = false) /\
  StronglySorted Z.le (map (fun d => d.1.1) ds).
Proof.
  revert st. induction n as [|n IH]; intros st Hok Hlen; simpl.
  - assert ((src_pq st).2 = []) as E by (destruct (src_pq st).2; simpl in *; [done|lia]).
    split_and!; try done; [|set_solver|constructor].
    apply spec_next_None. intros s _. unfold src_queued. by rewrite E.
  - pose proof (src_law st Hok) as Hl. change (queued (src_pq st).2) with (src_queued st) in Hl.
    destruct (spec_next (src_mask st) (src_queued st)) as [s|] eqn:En; [|].
    2: { rewrite Hl. split_and!; try done; [set_solver|constructor]. }
    apply spec_next_inv in En as (Hs & _ & Hm & Hleast).
    destruct Hl as (i & l & st1 & _ & Hq & -> & Hok1 & Hmask & Hq1 & _ & Hlen1).
    specialize (IH st1 Hok1 ltac:(lia)). destruct (drain n st1) as [ds st'].
    destruct IH as (Hm' & Hnone & Hdel & Hmem & Hsort). rewrite Hmask in *.
    assert (forall s', src_queued st1 s' <> [] -> src_queued st s' <> []) as Hmono.
    { intros s'. unfold src_queued in *. rewrite Hq1. destruct (Z.eqb_spec s' s) as [->|]; [by rewrite Hq|done]. }
    split_and!; [done|done| | |].
    + intros s' Hs'. rewrite delivered_cons. simpl. destruct (Hdel s' Hs') as [Hd Hb].
      unfold src_queued in *. rewrite Hq1 in Hd. rewrite (Z.eqb_sym s s').
      destruct (Z.eqb_spec s' s) as [->|Hne]; csimpl.
      * rewrite Hq. csimpl. split; [by rewrite Hd|]. by rewrite Hm.
      * done.
    + intros d [->|Hd]%elem_of_cons; simpl.
      * by rewrite Hq.
      * destruct (Hmem d Hd) as (? & ? & ?). auto.
    + constructor; [done|]. apply Forall_forall. intros s' (d & -> & Hd)%list_elem_of_fmap. simpl.
      destruct (Hmem d Hd) as (? & ? & ?). apply Hleast; auto.
Qed.

End source.

(** ** Sequences of operations on the process-wide state *)

Section runs.
(** The signal each timer was created with. *)
Variable timer_sig : Z -> Z.

Inductive sig_op :=
| SRaise (s v c : Z)
| STimer (t v : Z)
| SClear (s : Z)
| SConsume (s : Z)
| SRemoveTimer (t : Z)
| SDequeue
| SSetHandler (s : Z) (h : SignalHandler)
| SSetAction (s : Z) (a : SignalAction)
| SSetMask (mask : Z)
| SExec.

(** One operation: the new state and the notification it hands out, if any. *)
Definition sig_step (st : SignalState) (op : sig_op) : list (Z * Z * Z) * SignalState :=
  match op with
  | SRaise s v c => ([], (raise_internal st s v c).2)
  | STimer t v => ([], (raise_timer st (timer_sig t) v t).2)
  | SClear s => ([], clear st s)
  | SConsume s =>
      if is_pending st s
      then let '(i, st') := consume_one st s in ([(s, i_value i, i_code i)], st')
      else ([], st)
  | SRemoveTimer t => ([], (remove_timer_notification st t).2)
  | SDequeue =>
      match dequeue st with (Some d, st') => ([d], st') | (None, st') => ([], st') end
  | SSetHandler s h => ([], (set_handler st s h).2)
  | SSetAction s a => ([], (set_action st s a).2)
  | SSetMask m => ([], mkSignals (actions st) m (pending st) (rt_queue st))
  | SExec => ([], reset_dispositions_for_exec st)
  end.

(** The handler [raise] consults, and whether it throws the signal away. *)
Definition discards (st : SignalState) (s : Z) : bool :=
  should_discard_pending s (sa_handler (action_at st s)).

Definition immutable (s : Z) : bool := (s =? SIGKILL) || (s =? SIGSTOP).

(** The effect of one operation on the FIFO of signal [s]. *)
Definition spec_step (st : SignalState) (op : sig_op) (s : Z) (l : list PendingSignalInfo)
    : list PendingSignalInfo :=
  match op with
  | SRaise s0 v c => if (s =? s0) && negb (discards st s) then spec_raise s v c l else l
  | STimer t v => if s =? timer_sig t then l ++ [mkInfo v (-2) (Some t)] else l
  | SClear s0 => if s =? s0 then [] else l
  | SConsume s0 => if s =? s0 then tail l else l
  | SRemoveTimer t => drop_timer t l
  | SDequeue =>
      if bool_decide (spec_next (blocked st) (queued (rt_queue st)) = Some s) then tail l else l
  | SSetHandler s0 h =>
      if (s =? s0) && negb (immutable s) && should_discard_pending s h then [] else l
  | SSetAction s0 a =>
      if (s =? s0) && negb (immutable s) && should_discard_pending s (sa_handler a) then [] else l
  | SSetMask _ | SExec => l
  end.

Record state_ok (st : SignalState) : Prop := {
  st_pq : pq_ok (pending st) (rt_queue st);
  st_timers : timers_ok timer_sig (rt_queue st);
  st_len : length (actions st) = 65%nat;
  st_kill : sa_handler (action_at st SIGKILL) = Default;
  st_stop : sa_handler (action_at st SIGSTOP) = Default;
}.

Definition sig_op_ok (op : sig_op) : Prop :=
  match op with
  | SRaise s _ _ | SClear s | SConsume s | SSetHandler s _ | SSetAction s _ => valid_sig s
  | STimer t _ => valid_sig (timer_sig t)
  | _ => True
  end.

Lemma in_range_65 s : valid_sig s -> (s =? 0) || (65 <=? s) = false.
Proof. unfold valid_sig. lia. Qed.

Lemma with_queue_ok st p q :
  state_ok st -> pq_ok p q -> timers_ok timer_sig q -> state_ok (with_queue st (p, q)).
Proof. intros [] ? ?. by split. Qed.

Lemma timers_ok_sub q q' : timers_ok timer_sig q -> (forall e, e ∈ q' -> e ∈ q) -> timers_ok timer_sig q'.
Proof. intros Ht Hs e t He. by apply Ht, Hs. Qed.

Lemma enqueue_timers_ok s v c q : timers_ok timer_sig q -> timers_ok timer_sig (enqueue s v c q).
Proof.
  intros Ht e t.
  assert (e ∈ vec_push q (mkEntry s v c None) -> e_timer e = Some t -> e_signum e = timer_sig t) as Hp.
  { unfold vec_push. rewrite elem_of_app, list_elem_of_singleton. intros [?| ->]; [by apply Ht|done]. }
  unfold enqueue. case_bool_step; [done|].
  destruct (merge_entry s v c q) as [q'|] eqn:E; [|done]. clear Hp.
  revert q' E Ht. induction q as [|e0 q IH]; intros q' E Ht; simpl in E; [done|].
  destruct (mergeable s e0) eqn:Em.
  - unfold mergeable in Em. bool_hyps. simplify_eq.
    intros [->|He]%elem_of_cons; [|apply Ht; by constructor].
    destruct (c =? 0); simpl; congruence.
  - destruct (merge_entry s v c q) as [q1|]; simplify_eq/=.
    intros [->|He]%elem_of_cons; [apply Ht; by constructor|].
    apply (IH q1); [done| |done]. intros e1 t1 ?. apply Ht. by constructor.
Qed.

Lemma clear_step st s :
  state_ok st -> valid_sig s ->
  state_ok (clear st s) /\
  forall s', queued (rt_queue (clear st s)) s' = if s' =? s then [] else queued (rt_queue st) s'.
Proof.
  intros Hok Hs. unfold clear. pose proof (clear_ok _ _ s (st_pq _ Hok)) as Hc.
  pose proof (clear_queued (pending st) (rt_queue st) s) as Hq.
  assert (forall e, e ∈ (clear_queue (pending st) s (rt_queue st)).2 -> e ∈ rt_queue st) as Hsub.
  { unfold clear_queue. case_bool_step; simpl; [|done]. intros e [? _]%elem_of_filter_bool. done. }
  destruct (clear_queue _ _ _) as [p q]. simpl in *. split; [|auto].
  apply with_queue_ok; [done|done|]. eapply timers_ok_sub; [apply Hok|done].
Qed.

Lemma set_action_at_ok st s a :
  state_ok st -> valid_sig s -> immutable s = false -> state_ok (set_action_at st s a).
Proof.
  intros [? ? Hl Hk Hst] Hs Hi. unfold immutable, valid_sig in *. split; simpl; try done.
  - by rewrite length_insert.
  - unfold action_at in *. simpl. rewrite nth_lookup, list_lookup_insert_ne, <- nth_lookup; [done|].
    unfold SIGKILL, SIGSTOP in *. lia.
  - unfold action_at in *. simpl. rewrite nth_lookup, list_lookup_insert_ne, <- nth_lookup; [done|].
    unfold SIGKILL, SIGSTOP in *. lia.
Qed.

Lemma set_action_step st s a disc :
  state_ok st -> valid_sig s -> immutable s = false ->
  let st1 := set_action_at st s a in
  let st2 := if disc : bool then clear_pending st1 s else st1 in
  state_ok st2 /\
  forall s', queued (rt_queue st2) s' = if (s' =? s) && disc then [] else queued (rt_queue st) s'.
Proof.
  intros Hok Hs Hi st1 st2. assert (state_ok st1) as Hok1 by by apply set_action_at_ok.
  subst st2. destruct disc.
  - destruct (clear_step st1 s Hok1 Hs) as [? Hq]. split; [done|].
    intros s'. rewrite andb_true_r. apply Hq.
  - split; [done|]. intros s'. by rewrite andb_false_r.
Qed.

Lemma exec_action_at st s :
  length (actions st) = 65%nat -> valid_sig s ->
  action_at (reset_dispositions_for_exec st) s = exec_action (action_at st s).
Proof.
  intros Hl Hs. unfold action_at; simpl. destruct (actions st) as [|a l]; [done|].
  unfold valid_sig in Hs. replace (Z.to_nat s) with (S (Z.to_nat (s - 1))) by lia. simpl.
  rewrite <- (map_nth exec_action l action_default). done.
Qed.

Lemma exec_ok st : state_ok st -> state_ok (reset_dispositions_for_exec st).
Proof.
  intros [? ? Hl Hk Hst]. split; try done.
  - simpl. rewrite length_app, length_map, length_take, length_drop. lia.
  - rewrite exec_action_at by done. simpl. by rewrite Hk.
  - rewrite exec_action_at by done. simpl. by rewrite Hst.
Qed.

(** The notification an operation hands out. *)
Definition front (Q : Z -> list PendingSignalInfo) (s : Z) : list (Z * Z * Z) :=
  match Q s with i :: _ => [(s, i_value i, i_code i)] | [] => [] end.

Definition spec_out (st : SignalState) (op : sig_op) : list (Z * Z * Z) :=
  match op with
  | SConsume s => front (queued (rt_queue st)) s
  | SDequeue =>
      match spec_next (blocked st) (queued (rt_queue st)) with
      | Some s => front (queued (rt_queue st)) s
      | None => []
      end
  | _ => []
  end.

(** One operation refines its specification. *)
Definition step_refines (st : SignalState) (op : sig_op) : Prop :=
  state_ok (sig_step st op).2 /\ (sig_step st op).1 = spec_out st op /\
  forall s, valid_sig s ->
    queued (rt_queue (sig_step st op).2) s = spec_step st op s (queued (rt_queue st) s).

Lemma raise_refines st s0 v c : state_ok st -> valid_sig s0 -> step_refines st (SRaise s0 v c).
Proof.
  intros Hok Hop. unfold step_refines; simpl. unfold raise_internal.
  rewrite in_range_65 by done. fold (discards st s0). destruct (discards st s0) eqn:Ed; simpl.
  - split_and!; [done|done|]. intros s Hs. destruct (Z.eqb_spec s s0) as [->|]; [by rewrite Ed|done].
  - split_and!; [|done|].
    + apply with_queue_ok; [done|apply enqueue_ok; [apply Hok|done]|apply enqueue_timers_ok, Hok].
    + intros s Hs. rewrite enqueue_queued. destruct (Z.eqb_spec s s0) as [->|]; [by rewrite Ed|done].
Qed.

Lemma timer_refines st t v : state_ok st -> valid_sig (timer_sig t) -> step_refines st (STimer t v).
Proof.
  intros Hok Hop. pose proof (st_pq _ Hok) as Hpq. unfold step_refines; simpl. unfold raise_timer.
  assert ((timer_sig t =? 0) || (NSIG <=? timer_sig t) = false) as -> by (unfold valid_sig, NSIG in *; lia).
  pose proof (enqueue_timer_ok _ _ _ v t Hpq Hop) as Ho.
  pose proof (fun s => enqueue_timer_queued _ _ _ v t s Hpq Hop) as Hq.
  assert (timers_ok timer_sig (enqueue_timer (pending st) (timer_sig t) v t (rt_queue st)).2) as Ht.
  { unfold enqueue_timer, vec_push. simpl. intros e t'. rewrite elem_of_app, list_elem_of_singleton.
    intros [He| ->]; [|simpl; congruence]. case_bool_step; [|by apply Hok].
    apply elem_of_app in He as [He| ->%list_elem_of_singleton]; [by apply Hok|done]. }
  destruct (enqueue_timer _ _ _ _ _) as [p q]; simpl in *. split_and!; [by apply with_queue_ok|done|].
  intros s Hs. rewrite Hq. by destruct (Z.eqb_spec s (timer_sig t)) as [->|].
Qed.

Lemma is_pending_queued st s :
  state_ok st -> valid_sig s -> is_pending st s = nonempty (queued (rt_queue st) s).
Proof.
  intros Hok Hs. unfold is_pending. assert ((65 <=? s) = false) as -> by (unfold valid_sig in *; lia).
  rewrite land_sig_bit by done. pose proof (pq_agree _ _ (st_pq _ Hok) s Hs) as Ha.
  destruct (Z.testbit (pending st) (s - 1)), (queued (rt_queue st) s); simpl; naive_solver.
Qed.

Lemma consume_refines st s0 : state_ok st -> valid_sig s0 -> step_refines st (SConsume s0).
Proof.
  intros Hok Hop. unfold step_refines; simpl. rewrite is_pending_queued by done.
  pose proof (consume_spec _ _ _ (st_pq _ Hok) Hop) as Hc. unfold consume_one, front.
  destruct (consume_pending_info (pending st) (rt_queue st) s0) as [i [p q]].
  destruct Hc as (Hpq & -> & Hq & Hsub & _).
  destruct (queued (rt_queue st) s0) as [|i l] eqn:Eq; simpl in *.
  - split_and!; [done|done|]. intros s Hs. destruct (Z.eqb_spec s s0) as [->|]; [by rewrite Eq|done].
  - split_and!; [|done|].
    + apply with_queue_ok; [done|done|]. eapply timers_ok_sub; [apply Hok|done].
    + intros s Hs. rewrite Hq. destruct (Z.eqb_spec s s0) as [->|]; [by rewrite Eq|done].
Qed.

Lemma remove_timer_refines st t : state_ok st -> step_refines st (SRemoveTimer t).
Proof.
  intros Hok. unfold step_refines; simpl. unfold remove_timer_notification.
  pose proof (remove_timer_spec _ _ _ t (st_pq _ Hok) (st_timers _ Hok)) as Hr.
  destruct (remove_timer_info _ _ _) as [f [p q]]. destruct Hr as (Hpq & _ & Hq & Hsub). simpl.
  split_and!; [|done|auto]. apply with_queue_ok; [done|done|]. eapply timers_ok_sub; [apply Hok|done].
Qed.

Lemma dequeue_refines st : state_ok st -> step_refines st SDequeue.
Proof.
  intros Hok. unfold step_refines; simpl. pose proof (dequeue_ok st (st_pq _ Hok)) as Hd.
  assert (actions (dequeue st).2 = actions st) as Hact.
  { unfold dequeue, consume_one. case_bool_step; [done|]. by destruct (consume_pending_info _ _ _). }
  simpl in Hd. destruct (spec_next (blocked st) (queued (rt_queue st))) as [s0|].
  - destruct Hd as (i & l & st' & Hs0 & Hq & E & Hpq & _ & Hq' & Hsub & _). rewrite E in *. simpl in *.
    unfold front. rewrite Hq. split_and!; [|done|].
    + destruct Hok. unfold action_at in *. rewrite <- Hact in *. split; try done. by eapply timers_ok_sub.
    + intros s Hs. rewrite Hq'. destruct (Z.eqb_spec s s0) as [->|].
      * rewrite bool_decide_eq_true_2 by done. by rewrite Hq.
      * by rewrite bool_decide_eq_false_2 by congruence.
  - rewrite Hd. split_and!; [done|done|]. intros s Hs. by rewrite bool_decide_eq_false_2.
Qed.

Lemma handler_refines st s0 h : state_ok st -> valid_sig s0 -> step_refines st (SSetHandler s0 h).
Proof.
  intros Hok Hop. unfold step_refines; simpl. unfold set_handler. rewrite in_range_65 by done.
  fold (immutable s0). destruct (immutable s0) eqn:Ei; simpl.
  - split_and!; [done|done|]. intros s Hs. destruct (Z.eqb_spec s s0) as [->|]; [by rewrite Ei|done].
  - edestruct (set_action_step st s0) as [Ho Hq]; [done..|]. split_and!; [exact Ho|done|].
    intros s Hs. rewrite Hq. destruct (Z.eqb_spec s s0) as [->|]; [by rewrite Ei|done].
Qed.

Lemma action_refines st s0 a : state_ok st -> valid_sig s0 -> step_refines st (SSetAction s0 a).
Proof.
  intros Hok Hop. unfold step_refines; simpl. unfold set_action. rewrite in_range_65 by done.
  fold (immutable s0). destruct (immutable s0) eqn:Ei; simpl.
  - split_and!; [done|done|]. intros s Hs. destruct (Z.eqb_spec s s0) as [->|]; [by rewrite Ei|done].
  - edestruct (set_action_step st s0) as [Ho Hq]; [done..|]. split_and!; [exact Ho|done|].
    intros s Hs. rewrite Hq. destruct (Z.eqb_spec s s0) as [->|]; [by rewrite Ei|done].
Qed.

Lemma every_step_refines st op : state_ok st -> sig_op_ok op -> step_refines st op.
Proof.
  intros Hok Hop. destruct op as [s0 v c|t v|s0|s0|t| |s0 h|s0 a|m|]; simpl in Hop.
  - by apply raise_refines.
  - by apply timer_refines.
  - destruct (clear_step st s0 Hok Hop). split_and!; auto.
  - by apply consume_refines.
  - by apply remove_timer_refines.
  - by apply dequeue_refines.
  - by apply handler_refines.
  - by apply action_refines.
  - split_and!; try done. destruct Hok. by split.
  - split_and!; try done. by apply exec_ok.
Qed.

Fixpoint sig_run (st : SignalState) (ops : list sig_op) : list (Z * Z * Z) * SignalState :=
  match ops with
  | [] => ([], st)
  | op :: ops' =>
      let '(out, st1) := sig_step st op in
      let '(outs, st2) := sig_run st1 ops' in (out ++ outs, st2)
  end.

(** The notifications the operations queue for a signal that is not discarded. *)
Definition queued_by (s : Z) (op : sig_op) : list (Z * Z) :=
  match op with
  | SRaise s0 v c => if s =? s0 then [(v, c)] else []
  | STimer t v => if s =? timer_sig t then [(v, -2)] else []
  | _ => []
  end.

(** Operations that may throw notifications of [s] away. *)
Definition keeps (s : Z) (op : sig_op) : bool :=
  match op with
  | SClear s0 | SSetHandler s0 _ | SSetAction s0 _ => negb (s =? s0)
  | SRemoveTimer _ | SExec => false
  | _ => true
  end.

Lemma delivered_app ds1 ds2 s : delivered (ds1 ++ ds2) s = delivered ds1 s ++ delivered ds2 s.
Proof. unfold delivered. by rewrite List.filter_app, map_app. Qed.

Lemma delivered_front Q s s0 :
  delivered (front Q s0) s =
  if s =? s0 then match Q s with i :: _ => [payload i] | [] => [] end else [].
Proof.
  unfold front, delivered. rewrite (Z.eqb_sym s s0).
  destruct (Z.eqb_spec s0 s) as [->|Hne]; destruct (Q _) as [|i l]; simpl; rewrite ?Z.eqb_refl; try done.
  by destruct (Z.eqb_spec s0 s).
Qed.

Lemma set_action_at_other st s s0 a :
  valid_sig s -> valid_sig s0 -> s <> s0 -> action_at (set_action_at st s0 a) s = action_at st s.
Proof.
  unfold valid_sig. intros. unfold action_at; simpl.
  rewrite nth_lookup, list_lookup_insert_ne, <- nth_lookup by lia. done.
Qed.

Lemma step_action_at st op s :
  sig_op_ok op -> valid_sig s -> keeps s op = true -> action_at (sig_step st op).2 s = action_at st s.
Proof.
  intros Hop Hs Hk. destruct op as [s0 v c|t v|s0|s0|t| |s0 h|s0 a|m|]; simpl in *; try done.
  - unfold raise_internal. by repeat case_bool_step.
  - unfold raise_timer. by repeat case_bool_step.
  - unfold consume_one. case_bool_step; [|done]. by destruct (consume_pending_info _ _ _).
  - unfold dequeue, consume_one. case_bool_step; [done|]. by destruct (consume_pending_info _ _ _).
  - unfold set_handler. repeat case_bool_step; simpl; try done; by apply set_action_at_other; [| |lia].
  - unfold set_action. repeat case_bool_step; simpl; try done; by apply set_action_at_other; [| |lia].
Qed.

(** A step that keeps the notifications of a real-time signal moves them from
    the back to the front of its FIFO. *)
Lemma rt_step st op s :
  state_ok st -> sig_op_ok op -> valid_sig s -> SIGRTMIN <= s -> discards st s = false -> keeps s op = true ->
  let '(out, st') := sig_step st op in
  delivered out s ++ (payload <$> queued (rt_queue st') s) =
    (payload <$> queued (rt_queue st) s) ++ queued_by s op /\
  discards st' s = false.
Proof.
  intros Hok Hop Hs Hrt Hd Hk. destruct (every_step_refines st op Hok Hop) as (_ & Hout & Hq).
  specialize (Hq s Hs).
  pose proof (step_action_at st op s Hop Hs Hk) as Ha.
  destruct (sig_step st op) as [out st']; simpl in *. rewrite Hout, Hq.
  split; [|unfold discards in *; by rewrite Ha].
  destruct op as [s0 v c|t v|s0|s0|t| |s0 h|s0 a|m|]; simpl in *; rewrite ?app_nil_r; try done.
  - rewrite Hd. destruct (s =? s0); simpl; rewrite ?app_nil_r; [|done]. unfold spec_raise.
    destruct (Z.leb_spec SIGRTMIN s); [|lia]. by rewrite fmap_app.
  - destruct (s =? timer_sig t); simpl; rewrite ?app_nil_r; [|done]. by rewrite fmap_app.
  - by destruct (s =? s0).
  - rewrite delivered_front. by destruct (s =? s0), (queued (rt_queue st) s).
  - destruct (spec_next (blocked st) (queued (rt_queue st))) as [s0|]; simpl.
    + rewrite delivered_front. destruct (Z.eqb_spec s s0) as [->|Hne].
      * rewrite bool_decide_eq_true_2 by done. by destruct (queued (rt_queue st) s0).
      * by rewrite bool_decide_eq_false_2 by congruence.
    + by rewrite ?bool_decide_eq_false_2.
  - by destruct (Z.eqb_spec s s0).
  - by destruct (Z.eqb_spec s s0).
Qed.

(** Standard signals: notifications in a FIFO that are not a timer's. *)
Definition plain (l : list PendingSignalInfo) : nat :=
  length (List.filter (fun i => bool_decide (i_timer i = None)) l).

Lemma coalesce_plain v c l : plain (coalesce v c l) = Nat.max 1 (plain l).
Proof.
  unfold plain. induction l as [|i l IH]; simpl; [done|]. case_bool_decide as Ht; simpl.
  - destruct (c =? 0); simpl; [rewrite bool_decide_eq_true_2 by done|]; simpl; lia.
  - rewrite bool_decide_eq_false_2 by done. done.
Qed.

Lemma plain_app l1 l2 : plain (l1 ++ l2) = (plain l1 + plain l2)%nat.
Proof. unfold plain. by rewrite List.filter_app, length_app. Qed.

Lemma plain_tail l : (plain (tail l) <= plain l)%nat.
Proof. destruct l as [|i l]; simpl; [done|]. unfold plain. simpl. case_bool_step; simpl; lia. Qed.

Lemma plain_drop_timer t l : (plain (drop_timer t l) <= plain l)%nat.
Proof.
  unfold plain, drop_timer. rewrite filter_and. apply filter_length_mono. intros i _ Hi. bool_hyps.
  by apply bool_decide_eq_true_2.
Qed.

Lemma spec_step_plain st op s l :
  s < SIGRTMIN -> (plain l <= 1)%nat -> (plain (spec_step st op s l) <= 1)%nat.
Proof.
  intros Hs Hl. pose proof (plain_tail l).
  destruct op as [s0 v c|t v|s0|s0|t| |s0 h|s0 a|m|]; simpl; try case_bool_step; try done; try lia.
  - unfold spec_raise. destruct (Z.leb_spec SIGRTMIN s); [lia|]. rewrite coalesce_plain. lia.
  - rewrite plain_app. unfold plain at 2. simpl. lia.
  - unfold plain. simpl. lia.
  - pose proof (plain_drop_timer t l). lia.
  - unfold plain. simpl. lia.
  - unfold plain. simpl. lia.
Qed.

Lemma sig_run_ok st ops : state_ok st -> Forall sig_op_ok ops -> state_ok (sig_run st ops).2.
Proof.
  intros Hok Hops. revert st Hok. induction Hops as [|op ops Hop _ IH]; intros st Hok; simpl; [done|].
  destruct (every_step_refines st op Hok Hop) as [Hok' _]. destruct (sig_step st op) as [out st1].
  specialize (IH st1 Hok'). by destruct (sig_run st1 ops).
Qed.

(** ** Properties *)

(** C4: The signal state refines one FIFO of notifications per signal.  After
    any run of operations, the pending bits and the queue agree, and each
    further operation hands out and queues exactly what its specification
    says: raising appends to or merges into the FIFO of its signal unless the
    disposition discards it, [dequeue] takes the front of the FIFO of the lowest
    unblocked pending signal, consuming takes the front, clearing and ignoring
    empty the FIFO, deleting a timer removes its notifications, and no
    operation touches the FIFO of another signal. *)
Theorem signal_state_refines st ops op :
  state_ok st -> Forall sig_op_ok ops -> sig_op_ok op ->
  let st1 := (sig_run st ops).2 in
  let '(out, st2) := sig_step st1 op in
  state_ok st2 /\ out = spec_out st1 op /\
  (forall s, valid_sig s -> is_pending st2 s = nonempty (queued (rt_queue st2) s)) /\
  (forall s, valid_sig s ->
     queued (rt_queue st2) s = spec_step st1 op s (queued (rt_queue st1) s)).
Proof.
  intros Hok Hops Hop st1. assert (state_ok st1) as Hok1 by by apply sig_run_ok.
  destruct (every_step_refines st1 op Hok1 Hop) as (Hok2 & Hout & Hq).
  destruct (sig_step st1 op) as [out st2]. simpl in *. split_and!; try done.
  intros s Hs. by apply is_pending_queued.
Qed.

(** Real-time signals are never lost, duplicated or reordered.  Over any run
    in which the signal is not cleared, re-disposed or its timers deleted, the
    payloads handed out for it followed by those still queued are the payloads
    queued at the start followed by those raised, in order. *)
Theorem rt_signal_fifo st ops s :
  state_ok st -> Forall sig_op_ok ops -> valid_sig s -> SIGRTMIN <= s ->
  discards st s = false -> forallb (keeps s) ops = true ->
  let '(outs, st') := sig_run st ops in
  delivered outs s ++ (payload <$> queued (rt_queue st') s) =
  (payload <$> queued (rt_queue st) s) ++ concat (map (queued_by s) ops).
Proof.
  intros Hok Hops Hs Hrt. revert st Hok. induction Hops as [|op ops Hop Hops IH]; intros st Hok Hd Hk; simpl.
  - by rewrite app_nil_r.
  - simpl in Hk. apply andb_true_iff in Hk as [Hk1 Hk].
    pose proof (rt_step st op s Hok Hop Hs Hrt Hd Hk1) as Hstep.
    destruct (every_step_refines st op Hok Hop) as [Hok1 _].
    destruct (sig_step st op) as [out st1]. destruct Hstep as [Hstep Hd1]. simpl in Hok1.
    specialize (IH st1 Hok1 Hd1 Hk). destruct (sig_run st1 ops) as [outs st2].
    by rewrite delivered_app, <- app_assoc, IH, !app_assoc, Hstep.
Qed.

(** Standard signals coalesce.  Over any run, a signal below SIGRTMIN that
    starts with at most one queued notification besides its timers' never has
    more than one. *)
Theorem standard_signal_coalesces st ops s :
  state_ok st -> Forall sig_op_ok ops -> valid_sig s -> s < SIGRTMIN ->
  (plain (queued (rt_queue st) s) <= 1)%nat ->
  (plain (queued (rt_queue (sig_run st ops).2) s) <= 1)%nat.
Proof.
  intros Hok Hops Hs Hstd. revert st Hok. induction Hops as [|op ops Hop Hops IH]; intros st Hok Hp; simpl; [done|].
  destruct (every_step_refines st op Hok Hop) as (Hok1 & _ & Hq). specialize (Hq s Hs).
  destruct (sig_step st op) as [out st1]. simpl in *. specialize (IH st1 Hok1).
  destruct (sig_run st1 ops) as [outs st2]. apply IH. rewrite Hq. by apply spec_step_plain.
Qed.

(** SIGKILL and SIGSTOP cannot be caught, ignored or lost.  After any run,
    both keep the default disposition, attempts to change it fail without
    effect, and raising either one leaves it pending. *)
Theorem kill_stop_immutable st ops s :
  state_ok st -> Forall sig_op_ok ops -> s = SIGKILL \/ s = SIGSTOP ->
  let st1 := (sig_run st ops).2 in
  get_handler st1 s = Default /\
  (forall h, set_handler st1 s h = (Err (), st1)) /\
  (forall a, set_action st1 s a = (Err (), st1)) /\
  (forall v c, is_pending (raise_internal st1 s v c).2 s = true).
Proof.
  intros Hok Hops Hs st1. assert (state_ok st1) as Hok1 by by apply sig_run_ok.
  assert (valid_sig s) as Hv by (destruct Hs as [-> | ->]; done).
  assert (sa_handler (action_at st1 s) = Default) as Hdef by (destruct Hs as [-> | ->]; apply Hok1).
  split_and!.
  - unfold get_handler. by rewrite in_range_65.
  - intros h. unfold set_handler. rewrite in_range_65 by done. by destruct Hs as [-> | ->].
  - intros a. unfold set_action. rewrite in_range_65 by done. by destruct Hs as [-> | ->].
  - intros v c. destruct (raise_refines st1 s v c Hok1 Hv) as (Hok2 & _ & Hq).
    simpl in Hok2, Hq. rewrite is_pending_queued by done. rewrite Hq, Z.eqb_refl by done.
    unfold discards. rewrite Hdef. simpl.
    assert (bool_decide (default_action s = DIgnore) = false) as -> by (destruct Hs as [-> | ->]; reflexivity).
    simpl. pose proof (spec_raise_nonempty s v c (queued (rt_queue st1) s)).
    by destruct (spec_raise _ _ _ _).
Qed.

(** exec keeps what is pending and forgets the handlers.  Every caught
    disposition becomes the default, ignored ones stay ignored, flags and masks
    are cleared, and the mask, the pending set and every queued notification
    are untouched. *)
Theorem exec_resets_dispositions st s :
  state_ok st -> valid_sig s ->
  let st1 := reset_dispositions_for_exec st in
  state_ok st1 /\
  get_action st1 s =
    mkAction (if bool_decide (get_handler st s = Ignore) then Ignore else Default) 0 0 /\
  blocked st1 = blocked st /\ pending_mask st1 = pending_mask st /\ rt_queue st1 = rt_queue st /\
  peek_deliverable st1 = peek_deliverable st /\ should_restart st1 = false.
Proof.
  intros Hok Hs st1. assert (state_ok st1) as Hok1 by by apply exec_ok. split; [done|]. split.
  - unfold get_action, get_handler. rewrite in_range_65 by done. unfold st1.
    rewrite exec_action_at by (done || apply Hok). unfold exec_action. by destruct (sa_handler _).
  - do 4 (split; [done|]). unfold should_restart.
    pose proof (deliverable_next _ _ (blocked st1) (st_pq _ Hok1)) as Hn. unfold deliverable.
    destruct (Z.ldiff (pending st1) (blocked st1) =? 0); [done|]. destruct Hn as (_ & Hv & _).
    case_bool_step; [done|]. unfold st1 at 1. rewrite exec_action_at by (done || apply Hok). done.
Qed.

End runs.

(** What a drained state must have handed out: [ds], in the order delivered,
    from the notifications queued [before], with [after] left. *)
Definition delivered_exactly (mask : Z) (before after : Z -> list PendingSignalInfo) (ds : list (Z * Z * Z)) : Prop :=
  StronglySorted Z.le (map (fun d => d.1.1) ds) /\
  forall s, valid_sig s ->
    if is_masked mask s
    then delivered ds s = [] /\ payload <$> after s = payload <$> before s
    else delivered ds s = payload <$> before s /\ after s = [].

Lemma source_delivers_all {St} `{SignalSource St} (st : St) n :
  pq_ok (src_pq st).1 (src_pq st).2 -> (length (src_pq st).2 <= n)%nat ->
  let '(ds, st') := calls src_dequeue n st in
  delivered_exactly (src_mask st) (src_queued st) (src_queued st') ds /\ (src_dequeue st').1 = None.
Proof.
  intros Hok Hlen. pose proof (drain_effect n st Hok Hlen) as He.
  pose proof (drain_ok n st Hok) as Hok'.
  destruct (calls src_dequeue n st) as [ds st']. destruct He as (Hm & Hnone & Hdel & _ & Hsort). split.
  - split; [done|]. intros s Hs. destruct (Hdel s Hs) as [Hd Hb]. destruct (is_masked (src_mask st) s) eqn:Em.
    + rewrite Hb in Hd by done. simpl in Hd. split; [by apply Hb|done].
    + pose proof (spec_next_None_inv _ _ Hnone s Hs) as Hn. rewrite Hm, Em in Hn.
      destruct (src_queued st' s) as [|i l]; [|by discriminate Hn].
      by rewrite Hd, app_nil_r.
  - pose proof (src_law st' Hok') as Hl. change (queued (src_pq st').2) with (src_queued st') in Hl.
    rewrite Hnone in Hl. by rewrite Hl.
Qed.

(** C23: Repeated [dequeue] of a process's signals, and repeated [pt_dequeue] of
    a thread's, deliver exactly what is deliverable, in order: signal numbers
    never decrease, the payloads of each signal come out in the order they were
    queued, every unblocked signal is delivered completely and no blocked one
    is, and afterwards the next call hands nothing out.  As many calls as there
    are queued notifications are enough.  The pending bits are taken to be those
    of the queued notifications, as every operation keeps them ([pq_ok]). *)
Theorem drain_delivers_all (st : SignalState) (th : PerThreadSignalState) n :
  (pq_ok (pending st) (rt_queue st) -> (length (rt_queue st) <= n)%nat ->
   let '(ds, st') := calls dequeue n st in
   delivered_exactly (blocked st) (queued (rt_queue st)) (queued (rt_queue st')) ds /\ (dequeue st').1 = None) /\
  (pq_ok (pt_pending th) (pt_queue th) -> (length (pt_queue th) <= n)%nat ->
   let '(ds, th') := calls pt_dequeue n th in
   delivered_exactly (pt_blocked th) (queued (pt_queue th)) (queued (pt_queue th')) ds /\ (pt_dequeue th').1 = None).
Proof. split; [exact (source_delivers_all st n)|exact (source_delivers_all th n)]. Qed.

(** Looking ahead agrees with delivering: [peek_deliverable] names the
    signal [dequeue] returns next, and [should_restart] answers with the
    SA_RESTART flag of that signal's action. *)
Theorem peek_agrees_with_dequeue st :
  pq_ok (pending st) (rt_queue st) ->
  peek_deliverable st = (fun d => d.1.1) <$> (dequeue st).1 /\
  should_restart st =
    match peek_deliverable st with
    | Some s => negb (Z.land (sa_flags (get_action st s)) SA_RESTART =? 0)
    | None => false
    end.
Proof.
  intros Hok. pose proof (deliverable_next _ _ (blocked st) Hok) as Hn.
  unfold peek_deliverable, should_restart, dequeue, deliverable.
  destruct (Z.ldiff (pending st) (blocked st) =? 0); [done|]. destruct Hn as (_ & Hv & _).
  assert (forall s, valid_sig s -> (65 <=? s) = false) as Hle by (unfold valid_sig; lia).
  rewrite Hle by done. unfold get_action. rewrite in_range_65 by done.
  by destruct (consume_one _ _).
Qed.

Lemma queued_all_signals (p : Z -> bool) a n s :
  queued (map (fun sig => mkEntry sig 0 0 None) (List.filter p (map Z.of_nat (seq a n)))) s =
  if (Z.of_nat a <=? s) && (s <? Z.of_nat (a + n)) && p s then [info_default] else [].
Proof.
  revert a. induction n as [|n IH]; intros a.
  - simpl. unfold queued; simpl. destruct (Z.leb_spec (Z.of_nat a) s), (Z.ltb_spec s (Z.of_nat (a + 0))); simpl; done || lia.
  - cbn [seq map List.filter]. specialize (IH (S a)).
    replace (S a + n)%nat with (a + S n)%nat in IH by lia.
    destruct (Z.eqb_spec (Z.of_nat a) s) as [Ea|Hne].
    + destruct (Z.leb_spec (Z.of_nat (S a)) s); [lia|]. simpl in IH.
      destruct (Z.leb_spec (Z.of_nat a) s); [|lia]. destruct (Z.ltb_spec s (Z.of_nat (a + S n))); [|lia].
      rewrite Ea. simpl. destruct (p s); [|done]. cbn [map]. rewrite queued_cons, IH. unfold is_sig; simpl. by rewrite Z.eqb_refl.
    + assert ((Z.of_nat (S a) <=? s) = (Z.of_nat a <=? s)) as El
        by (destruct (Z.leb_spec (Z.of_nat (S a)) s), (Z.leb_spec (Z.of_nat a) s); try done; lia).
      rewrite El in IH.
      destruct (p (Z.of_nat a)); [|done]. cbn [map]. rewrite queued_cons, IH. unfold is_sig; simpl.
      by destruct (Z.eqb_spec (Z.of_nat a) s).
Qed.

Lemma elem_of_all_signals s : s ∈ all_signals <-> valid_sig s.
Proof.
  unfold all_signals, valid_sig. assert (Z.to_nat (SIGRTMAX_PLUS1 - 1) = 64%nat) as -> by reflexivity.
  split.
  - intros (n & -> & Hn)%list_elem_of_fmap. apply list_elem_of_In, in_seq in Hn. lia.
  - intros Hs. apply list_elem_of_fmap. exists (Z.to_nat s). split; [lia|].
    apply list_elem_of_In, in_seq. lia.
Qed.

Lemma queued_filter_signals (p : Z -> bool) s :
  valid_sig s ->
  queued (map (fun sig => mkEntry sig 0 0 None) (List.filter p all_signals)) s =
  if p s then [info_default] else [].
Proof.
  unfold valid_sig, all_signals. intros Hs.
  assert (Z.to_nat (SIGRTMAX_PLUS1 - 1) = 64%nat) as -> by reflexivity.
  rewrite queued_all_signals. assert (Z.of_nat (1 + 64) = 65) as -> by reflexivity.
  destruct (Z.leb_spec (Z.of_nat 1) s); [|lia]. destruct (Z.ltb_spec s 65); [|lia]. reflexivity.
Qed.

Lemma rebuilt_queue hs mask p :
  rt_queue (from_parts_with_pending hs mask p) =
  map (fun sig => mkEntry sig 0 0 None)
    (List.filter (fun sig => negb (Z.land p (sig_bit sig) =? 0)) all_signals).
Proof. reflexivity. Qed.

(** Rebuilding the state from serialized parts.  Handlers read back as
    they were given; after fork nothing is pending; after exec exactly the
    serialized pending signals are, each with one default notification, and
    the bits and the queue agree. *)
Theorem from_parts_rebuilds hs mask p :
  u64_range p ->
  handlers (from_parts hs mask) = hs /\
  pq_ok (pending (from_parts hs mask)) (rt_queue (from_parts hs mask)) /\
  (forall s, valid_sig s -> is_pending (from_parts hs mask) s = false) /\
  let st := from_parts_with_pending hs mask p in
  handlers st = hs /\ pq_ok (pending st) (rt_queue st) /\
  (forall s, valid_sig s ->
     queued (rt_queue st) s = if Z.testbit p (s - 1) then [info_default] else []).
Proof.
  intros Hp.
  assert (forall f, map sa_handler (map (fun h => mkAction h 0 0) f) = f) as Hh.
  { intros f. rewrite map_map. apply map_id. }
  assert (forall s, valid_sig s -> queued (rt_queue (from_parts_with_pending hs mask p)) s =
    if Z.testbit p (s - 1) then [info_default] else []) as Hq.
  { intros s Hs. rewrite rebuilt_queue.
    rewrite queued_filter_signals, land_sig_bit by exact Hs. reflexivity. }
  split; [apply Hh|]. split; [|split; [|cbv zeta; split; [apply Hh|split; [|exact Hq]]]].
  - clear Hq. apply pq_ok_intro; [by unfold u64_range|set_solver|]. intros s Hs. simpl. by rewrite Z.bits_0.
  - clear Hq. intros s Hs. unfold is_pending. by case_bool_step.
  - apply pq_ok_intro; [exact Hp| |].
    + rewrite rebuilt_queue. intros e He%list_elem_of_In. apply in_map_iff in He as (s & <- & [Hs _]%filter_In).
      by apply elem_of_all_signals, list_elem_of_In.
    + intros s Hs. rewrite Hq by done. cbn [pending from_parts_with_pending]. by destruct (Z.testbit p (s - 1)).
Qed.

(** ** Witnesses *)

Definition sample_timer (t : Z) : Z := 10 + t.

Lemma new_ok : state_ok sample_timer new.
Proof.
  split; try done; simpl.
  - apply pq_ok_intro; [done|set_solver|]. intros s Hs. by rewrite Z.bits_0.
  - intros e t He. set_solver.
Qed.

Definition sample_ops : list sig_op :=
  [SSetHandler SIGUSR1 (Handler 3); SRaise 34 1 (-1); SRaise SIGUSR1 0 0; SRaise 34 2 (-1);
   STimer 0 7; SRaise SIGTERM 0 0; SSetMask (sig_bit SIGTERM); SDequeue; SConsume 34; SDequeue].

Lemma sample_ops_ok : Forall (sig_op_ok sample_timer) sample_ops.
Proof.
  repeat (constructor; [unfold sample_timer; simpl; unfold valid_sig, SIGUSR1, SIGTERM; lia || done|]).
  constructor.
Qed.

Lemma signal_state_refines_witness :
  state_ok sample_timer new /\
  state_ok sample_timer (sig_step sample_timer (sig_run sample_timer new sample_ops).2 (SRaise SIGKILL 0 0)).2.
Proof.
  split; [exact new_ok|].
  pose proof (signal_state_refines sample_timer new sample_ops (SRaise SIGKILL 0 0) new_ok sample_ops_ok) as Hs.
  cbv zeta in Hs. destruct (sig_step _ _ _) as [out st2]. apply Hs. done.
Defined.

Lemma rt_signal_fifo_witness :
  delivered (sig_run sample_timer new sample_ops).1 34 = [(1, -1)] /\
  delivered (sig_run sample_timer new sample_ops).1 34 ++
  (payload <$> queued (rt_queue (sig_run sample_timer new sample_ops).2) 34) = [(1, -1); (2, -1)].
Proof.
  split; [reflexivity|].
  pose proof (rt_signal_fifo sample_timer new sample_ops 34 new_ok sample_ops_ok) as Hr.
  destruct (sig_run _ _ _) as [outs st']. apply Hr; [done|done|reflexivity|reflexivity].
Defined.

Lemma standard_signal_coalesces_witness :
  (plain (queued (rt_queue (sig_run sample_timer new sample_ops).2) SIGUSR1) <= 1)%nat.
Proof.
  apply (standard_signal_coalesces sample_timer new sample_ops SIGUSR1 new_ok sample_ops_ok); [done|done|].
  unfold plain, queued; simpl; lia.
Defined.

Lemma kill_stop_immutable_witness :
  get_handler (sig_run sample_timer new sample_ops).2 SIGKILL = Default.
Proof. apply (kill_stop_immutable sample_timer new sample_ops SIGKILL new_ok sample_ops_ok). by left. Defined.

Lemma exec_resets_dispositions_witness :
  get_action (reset_dispositions_for_exec new) SIGUSR1 = mkAction Default 0 0.
Proof. apply (exec_resets_dispositions sample_timer new SIGUSR1 new_ok). done. Defined.

(** A thread with two deliverable signals and a blocked one. *)
Definition sample_thread : PerThreadSignalState :=
  (pt_raise (pt_raise_with_value (pt_raise_with_value
     (mkThread (sig_bit SIGTERM) 0 [] None) 40 5).2 40 6).2 SIGUSR1).2.

Lemma raised_ok st s v c :
  valid_sig s -> pq_ok (pt_pending st) (pt_queue st) ->
  pq_ok (pt_pending (pt_raise_internal st s v c).2) (pt_queue (pt_raise_internal st s v c).2).
Proof.
  intros Hs Hok. unfold pt_raise_internal.
  assert ((s =? 0) || (NSIG <=? s) = false) as -> by (unfold valid_sig, NSIG in *; lia).
  by apply enqueue_ok.
Qed.

Lemma drain_delivers_all_witness :
  (calls pt_dequeue 3 sample_thread).1 = [(SIGUSR1, 0, 0); (40, 5, -1); (40, 6, -1)] /\
  (pt_dequeue (calls pt_dequeue 3 sample_thread).2).1 = None /\ (dequeue (calls dequeue 0 new).2).1 = None.
Proof.
  split; [reflexivity|]. destruct (drain_delivers_all new sample_thread 3) as [_ Ht].
  destruct (drain_delivers_all new sample_thread 0) as [Hp _]. split.
  - destruct (calls pt_dequeue 3 sample_thread) as [ds th']. apply Ht; [|simpl; lia].
    unfold sample_thread, pt_raise, pt_raise_with_value. do 3 (apply raised_ok; [done|]).
    apply pq_ok_intro; [done|set_solver|]. intros s Hs. simpl. by rewrite Z.bits_0.
  - destruct (calls dequeue 0 new) as [ds st']. apply Hp; [apply new_ok|simpl; lia].
Defined.

Lemma peek_agrees_with_dequeue_witness : peek_deliverable new = (fun d => d.1.1) <$> (dequeue new).1.
Proof. apply (peek_agrees_with_dequeue new). apply new_ok. Defined.

Lemma from_parts_rebuilds_witness :
  queued (rt_queue (from_parts_with_pending [Default; Ignore] 0 4)) 3 = [info_default].
Proof.
  destruct (from_parts_rebuilds [Default; Ignore] 0 4) as (_ & _ & _ & _ & _ & Hq); [done|].
  exact (Hq 3 ltac:(done)).
Defined.

(** ** Divergences *)

(** [sig_bit] accepts 64, although its comment says that numbers from 64 on have
    no bit. *)
Example sig_bit_accepts_64 : sig_bit 64 = 2 ^ 63.
Proof. reflexivity. Qed.

(** SIGURG (23) is not among the signals ignored by default: it terminates the
    process, where POSIX ignores it. *)
Example sigurg_terminates : default_action 23 = DTerminate.
Proof. reflexivity. Qed.
