(* ===== verification/Wakeup.v ===== *)
(** * Wakeup event buffer ([crates/kernel/src/wakeup.rs])

    The machine-wide buffer of readiness changes that the host drains after
    each system call, and the allocator of accept-queue tokens.  The [static]
    buffer is an explicit state; the host's output slice is a list of bytes of
    fixed length, written by index.  The [cfg(test)] thread-local buffer has the
    same behaviour and is not modelled.

    The theorems: over any interleaving of pushes and drains every event reaches
    the host exactly once and in order, whatever the drain sizes; the byte
    encoding decodes back; a drain never touches bytes after its last event; the
    accept tokens never repeat until the positive [i32] range is used up. *)

From S2P Require Import Prelude Bytes.

Definition WAKE_READABLE : Z := 1.
Definition WAKE_WRITABLE : Z := 2.
Definition WAKE_ACCEPT : Z := 4.
Definition WAKE_DATAGRAM_WRITABLE : Z := 8.
Definition WAKE_ADVISORY_LOCK : Z := 64.

Record WakeupEvent := mkWake {
  w_idx : Z;
  wake_type : Z;
}.

#[export] Instance WakeupEvent_eq_dec : EqDecision WakeupEvent.
Proof. solve_decision. Defined.

Record WakeupBuffer := mkBuffer {
  events : list WakeupEvent;
  next_accept_idx : Z;
}.

Definition WAKEUP_BUFFER : WakeupBuffer := mkBuffer [] 1.

Definition i32_max : Z := 2 ^ 31 - 1.

Definition alloc_accept_wake_idx (b : WakeupBuffer) : Z * WakeupBuffer :=
  let next := if next_accept_idx b =? 0 then 1 else next_accept_idx b in
  let idx := next in
  (idx, mkBuffer (events b) (if i32_max <=? idx then 1 else idx + 1)).

Definition push (b : WakeupBuffer) (idx wake : Z) : WakeupBuffer :=
  mkBuffer (vec_push (events b) (mkWake idx wake)) (next_accept_idx b).

Definition push_accept (b : WakeupBuffer) (accept_idx : Z) : WakeupBuffer :=
  push b accept_idx WAKE_ACCEPT.

Definition push_datagram_writable (b : WakeupBuffer) : WakeupBuffer :=
  push b 0 WAKE_DATAGRAM_WRITABLE.

Definition push_advisory_lock (b : WakeupBuffer) : WakeupBuffer :=
  push b 0 WAKE_ADVISORY_LOCK.

Definition bytes_per_event : nat := 5.

(** The loop body: the five bytes of event [i], stored by index. *)
Definition write_event (i : nat) (ev : WakeupEvent) (out : bytes) : bytes :=
  let offset := (i * bytes_per_event)%nat in
  let idx_bytes := to_le_bytes (w_idx ev) in
  let out := <[offset := nth 0 idx_bytes 0]> out in
  let out := <[(offset + 1)%nat := nth 1 idx_bytes 0]> out in
  let out := <[(offset + 2)%nat := nth 2 idx_bytes 0]> out in
  let out := <[(offset + 3)%nat := nth 3 idx_bytes 0]> out in
  <[(offset + 4)%nat := wake_type ev]> out.

(** [for i in i..i+n] over the events still to be written. *)
Fixpoint write_events (i : nat) (evs : list WakeupEvent) (out : bytes) : bytes :=
  match evs with
  | [] => out
  | ev :: evs' => write_events (S i) evs' (write_event i ev out)
  end.

Definition drain_events (evs : list WakeupEvent) (out : bytes) (max_events : nat)
    : nat * bytes * list WakeupEvent :=
  let count := Nat.min (length evs) max_events in
  let max_by_buf := (length out / bytes_per_event)%nat in
  let count := Nat.min count max_by_buf in
  (count, write_events 0 (take count evs) out, drop count evs).

Definition drain (b : WakeupBuffer) (out : bytes) (max_events : nat)
    : nat * bytes * WakeupBuffer :=
  let '(count, out', evs') := drain_events (events b) out max_events in
  (count, out', mkBuffer evs' (next_accept_idx b)).

(** ** Encoding *)

Definition encode_event (ev : WakeupEvent) : bytes := to_le_bytes (w_idx ev) ++ [wake_type ev].

(** How the host reads an event back. *)
Definition decode_event (b0 b1 b2 b3 b4 : Z) : WakeupEvent :=
  mkWake (b0 + b1 * 2 ^ 8 + b2 * 2 ^ 16 + b3 * 2 ^ 24) b4.

Fixpoint decode_events (n : nat) (bs : bytes) : list WakeupEvent :=
  match n, bs with
  | S n', b0 :: b1 :: b2 :: b3 :: b4 :: bs' => decode_event b0 b1 b2 b3 b4 :: decode_events n' bs'
  | _, _ => []
  end.

Definition event_ok (ev : WakeupEvent) : Prop := 0 <= w_idx ev <= u32_max.

Lemma decode_encode evs rest :
  Forall event_ok evs ->
  decode_events (length evs) (concat (map encode_event evs) ++ rest) = evs.
Proof.
  induction 1 as [|ev evs Hev Hevs IH]; [done|]. unfold decode_event; simpl. rewrite IH. f_equal.
  destruct ev as [i w]. unfold decode_event; simpl. f_equal. by apply le_bytes_roundtrip.
Qed.

Lemma length_encode evs : length (concat (map encode_event evs)) = (length evs * 5)%nat.
Proof. induction evs as [|ev evs IH]; simpl; lia. Qed.

(** One event fills exactly its five bytes. *)
Lemma write_event_spec i ev pre old post :
  length pre = (i * 5)%nat -> length old = 5%nat ->
  write_event i ev (pre ++ old ++ post) = pre ++ encode_event ev ++ post.
Proof.
  intros Hp Ho. do 6 (destruct old as [|? old]; try done). unfold write_event, bytes_per_event.
  rewrite <- Hp. unfold encode_event, to_le_bytes. simpl nth. simpl app.
  pose proof (fun x l => insert_app_r pre l 0 x) as H0. rewrite Nat.add_0_r in H0.
  by rewrite H0, !insert_app_r.
Qed.

Lemma write_events_spec i evs pre mid post :
  length pre = (i * 5)%nat -> length mid = (length evs * 5)%nat ->
  write_events i evs (pre ++ mid ++ post) = pre ++ concat (map encode_event evs) ++ post.
Proof.
  revert i pre mid. induction evs as [|ev evs IH]; intros i pre mid Hp Hm; simpl in *.
  - by destruct mid.
  - rewrite <- (take_drop 5 mid), <- (app_assoc (take 5 mid)).
    rewrite (write_event_spec i ev pre (take 5 mid) (drop 5 mid ++ post)); [|done|rewrite length_take; lia].
    rewrite (app_assoc pre). rewrite IH; [by rewrite <- !app_assoc| |rewrite length_drop; lia].
    rewrite length_app. simpl. lia.
Qed.

Lemma drain_events_spec evs out n :
  let count := Nat.min (Nat.min (length evs) n) (length out / 5) in
  drain_events evs out n =
  (count, concat (map encode_event (take count evs)) ++ drop (count * 5) out, drop count evs).
Proof.
  intros count. unfold drain_events, bytes_per_event. fold count. f_equal. f_equal.
  assert (count <= length evs)%nat by (unfold count; lia).
  assert (count * 5 <= length out)%nat.
  { assert (count <= length out / 5)%nat by (unfold count; lia).
    pose proof (Nat.Div0.mul_div_le (length out) 5). lia. }
  pose proof (write_events_spec 0 (take count evs) [] (take (count * 5) out) (drop (count * 5) out)) as Hw.
  simpl in Hw. rewrite take_drop in Hw. apply Hw; [done|]. rewrite !length_take. lia.
Qed.

(** ** Runs *)

Inductive wake_op :=
| WPush (idx wake : Z)
| WDrain (out : bytes) (max_events : nat)
| WAlloc.

(** One operation, and the events the host decodes from it. *)
Definition wake_step (b : WakeupBuffer) (op : wake_op) : list WakeupEvent * WakeupBuffer :=
  match op with
  | WPush idx wake => ([], push b idx wake)
  | WDrain out n => let '(count, out', b') := drain b out n in (decode_events count out', b')
  | WAlloc => ([], (alloc_accept_wake_idx b).2)
  end.

Fixpoint wake_run (b : WakeupBuffer) (ops : list wake_op) : list WakeupEvent * WakeupBuffer :=
  match ops with
  | [] => ([], b)
  | op :: ops' =>
      let '(o, b1) := wake_step b op in
      let '(os, b2) := wake_run b1 ops' in (o ++ os, b2)
  end.

Definition pushed (op : wake_op) : list WakeupEvent :=
  match op with WPush idx wake => [mkWake idx wake] | _ => [] end.

Lemma drain_step b out n :
  Forall event_ok (events b) ->
  let '(got, b') := wake_step b (WDrain out n) in
  got ++ events b' = events b /\ next_accept_idx b' = next_accept_idx b /\
  length got = Nat.min (Nat.min (length (events b)) n) (length out / 5).
Proof.
  intros Hok. unfold wake_step, drain. pose proof (drain_events_spec (events b) out n) as Hd.
  cbv zeta in Hd. rewrite Hd. set (count := Nat.min _ _). cbn [events next_accept_idx].
  assert (length (take count (events b)) = count) as Hl by (rewrite length_take; unfold count; lia).
  assert (decode_events count (concat (map encode_event (take count (events b))) ++ drop (count * 5) out) =
    take count (events b)) as ->.
  { rewrite <- Hl at 1. apply decode_encode. by apply Forall_take. }
  by rewrite take_drop.
Qed.

(** ** Properties *)

(** No wakeup is lost, duplicated or reordered.  Over any interleaving of
    pushes, token allocations and drains with buffers and limits of any size,
    the events the host has decoded followed by those still buffered are the
    events buffered at the start followed by those pushed, in order; and a drain
    with room for one event makes progress. *)
Theorem wakeup_fifo b ops :
  Forall event_ok (events b) -> Forall event_ok (concat (map pushed ops)) ->
  let '(got, b') := wake_run b ops in
  got ++ events b' = events b ++ concat (map pushed ops) /\
  (forall out n, events b' <> [] -> (1 <= n)%nat -> (5 <= length out)%nat ->
     (wake_step b' (WDrain out n)).1 <> []).
Proof.
  revert b. induction ops as [|op ops IH]; intros b Hb Hp; cbn [wake_run map concat].
  - rewrite app_nil_r. split; [done|]. intros out n Hne Hn Ho.
    pose proof (drain_step b out n Hb) as Hd. destruct (wake_step b (WDrain out n)) as [got b'].
    destruct Hd as (_ & _ & Hl). cbn [fst]. intros ->. cbn [length] in Hl.
    assert (1 <= length out / 5)%nat by (apply Nat.div_le_lower_bound; lia).
    destruct (events b); [done|]. cbn [length] in Hl. lia.
  - simpl in Hp. apply Forall_app in Hp as [Hp1 Hp2].
    assert (let '(o, b1) := wake_step b op in
      Forall event_ok (events b1) /\ o ++ events b1 = events b ++ pushed op) as Hs.
    { destruct op as [idx wake|out n|]; cbn [wake_step pushed].
      - split; [|done]. by apply Forall_app.
      - pose proof (drain_step b out n Hb) as Hd. unfold wake_step in Hd.
        destruct (drain b out n) as [[count out'] b1]. destruct Hd as (Hd & _ & _).
        rewrite app_nil_r. split; [|done]. rewrite <- Hd in Hb. by apply Forall_app in Hb as [_ ?].
      - simpl. by rewrite app_nil_r. }
    destruct (wake_step b op) as [o b1]. destruct Hs as [Hb1 Hs]. specialize (IH b1 Hb1 Hp2).
    destruct (wake_run b1 ops) as [os b2]. destruct IH as [IH Hprog]. split; [|done].
    by rewrite <- app_assoc, IH, !app_assoc, Hs.
Qed.

(** A drain writes only whole events: it returns how many, never more than
    asked for or than fit, leaves every byte of the host buffer after the last
    event alone, and what it wrote decodes to the oldest buffered events. *)
Theorem drain_writes_whole_events b out n :
  Forall event_ok (events b) ->
  let '(count, out', b') := drain b out n in
  (count <= n)%nat /\ (count * 5 <= length out)%nat /\ length out' = length out /\
  drop (count * 5) out' = drop (count * 5) out /\
  decode_events count out' = take count (events b) /\ events b' = drop count (events b).
Proof.
  intros Hok. unfold drain. pose proof (drain_events_spec (events b) out n) as Hd. cbv zeta in Hd.
  rewrite Hd. set (count := Nat.min _ _). cbn [events next_accept_idx].
  assert (length (take count (events b)) = count) as Hl by (rewrite length_take; unfold count; lia).
  assert (count * 5 <= length out)%nat as Hc.
  { assert (count <= length out / 5)%nat by (unfold count; lia).
    pose proof (Nat.Div0.mul_div_le (length out) 5). lia. }
  split_and!; [unfold count; lia|done| | | |done].
  - rewrite length_app, length_encode, length_drop, Hl. lia.
  - rewrite drop_app_length'; [done|]. by rewrite length_encode, Hl.
  - rewrite <- Hl at 1. apply decode_encode. by apply Forall_take.
Qed.

Fixpoint alloc_n (n : nat) (b : WakeupBuffer) : list Z * WakeupBuffer :=
  match n with
  | O => ([], b)
  | S n' => let '(i, b1) := alloc_accept_wake_idx b in
            let '(ids, b2) := alloc_n n' b1 in (i :: ids, b2)
  end.

Definition next_ok (b : WakeupBuffer) : Prop := 1 <= next_accept_idx b <= i32_max.

(** The token [k] allocations after [a]. *)
Definition token (a : Z) (k : nat) : Z := (a - 1 + Z.of_nat k) mod i32_max + 1.

Lemma alloc_token b :
  next_ok b -> let '(i, b') := alloc_accept_wake_idx b in
  i = next_accept_idx b /\ next_ok b' /\ forall k, token (next_accept_idx b') k = token (next_accept_idx b) (S k).
Proof.
  unfold next_ok, alloc_accept_wake_idx, token, i32_max. intros Hb.
  destruct (Z.eqb_spec (next_accept_idx b) 0); [lia|]. cbn [next_accept_idx].
  destruct (Z.leb_spec (2 ^ 31 - 1) (next_accept_idx b)); (split; [done|]; split; [lia|]); intros k.
  - f_equal. assert (next_accept_idx b = 2 ^ 31 - 1) as -> by lia.
    replace (2 ^ 31 - 1 - 1 + Z.of_nat (S k)) with (1 - 1 + Z.of_nat k + 1 * (2 ^ 31 - 1)) by lia.
    by rewrite Z_mod_plus_full.
  - f_equal. f_equal. lia.
Qed.

Lemma alloc_n_tokens n b :
  next_ok b -> let '(ids, b') := alloc_n n b in
  next_ok b' /\ ids = map (token (next_accept_idx b)) (seq 0 n).
Proof.
  revert b. induction n as [|n IH]; intros b Hb; cbn [alloc_n]; [done|].
  pose proof (alloc_token b Hb) as Ha. destruct (alloc_accept_wake_idx b) as [i b1].
  destruct Ha as (-> & Hb1 & Ht). specialize (IH b1 Hb1). destruct (alloc_n n b1) as [ids b2].
  destruct IH as [Hb2 ->]. split; [done|]. cbn [seq map]. rewrite <- seq_shift, map_map. f_equal.
  - unfold token, next_ok, i32_max in *. rewrite Z.mod_small by lia. lia.
  - by apply map_ext.
Qed.

(** Accept tokens are positive [i32] values that repeat only after the whole
    range has been used: any [2^31 - 1] consecutive allocations are distinct. *)
Theorem accept_tokens_distinct b n :
  next_ok b ->
  let '(ids, b') := alloc_n n b in
  next_ok b' /\ length ids = n /\ (forall i, i ∈ ids -> 1 <= i <= i32_max) /\
  (Z.of_nat n <= i32_max -> NoDup ids).
Proof.
  intros Hb. pose proof (alloc_n_tokens n b Hb) as Hgen.
  destruct (alloc_n n b) as [ids b']. destruct Hgen as [Hb' ->].
  split_and!; [done|by rewrite length_map, length_seq| |].
  - intros i (k & -> & _)%list_elem_of_fmap. unfold token, i32_max.
    pose proof (Z.mod_pos_bound (next_accept_idx b - 1 + Z.of_nat k) (2 ^ 31 - 1)). lia.
  - intros Hn. apply NoDup_fmap_2_strong; [|apply NoDup_ListNoDup, seq_NoDup].
    intros k1 k2 Hk1 Hk2 Heq. apply list_elem_of_In, in_seq in Hk1, Hk2. unfold token in Heq.
    set (a := next_accept_idx b - 1) in *.
    assert (Z.of_nat k1 mod i32_max = Z.of_nat k2 mod i32_max) as Hm.
    { replace (Z.of_nat k1) with (a + Z.of_nat k1 - a) by lia.
      replace (Z.of_nat k2) with (a + Z.of_nat k2 - a) by lia.
      rewrite Zminus_mod, (Zminus_mod (a + Z.of_nat k2)). f_equal. f_equal. lia. }
    rewrite !Z.mod_small in Hm by lia. lia.
Qed.

(** ** Witnesses *)

Definition sample_wake_ops : list wake_op :=
  [WPush 5 WAKE_READABLE; WPush 10 WAKE_WRITABLE; WDrain (replicate 7 0) 4; WAlloc;
   WPush 70000 WAKE_ACCEPT; WDrain (replicate 11 0) 1].

Lemma wakeup_fifo_witness :
  (wake_run WAKEUP_BUFFER sample_wake_ops).1 = [mkWake 5 1; mkWake 10 2] /\
  (wake_run WAKEUP_BUFFER sample_wake_ops).1 ++ events (wake_run WAKEUP_BUFFER sample_wake_ops).2 =
  [mkWake 5 1; mkWake 10 2; mkWake 70000 4].
Proof.
  split; [reflexivity|].
  pose proof (wakeup_fifo WAKEUP_BUFFER sample_wake_ops) as Hw.
  destruct (wake_run WAKEUP_BUFFER sample_wake_ops) as [got b']. apply Hw; [constructor|].
  repeat constructor; simpl; unfold u32_max; lia.
Defined.

Lemma drain_writes_whole_events_witness :
  decode_events 1 (drain (push WAKEUP_BUFFER 70000 4) (replicate 6 0) 3).1.2 = [mkWake 70000 4].
Proof.
  pose proof (drain_writes_whole_events (push WAKEUP_BUFFER 70000 4) (replicate 6 0) 3) as Hd.
  assert ((drain (push WAKEUP_BUFFER 70000 4) (replicate 6 0) 3).1.1 = 1%nat) as Hc by reflexivity.
  destruct (drain (push WAKEUP_BUFFER 70000 4) (replicate 6 0) 3) as [[count out'] b'].
  simpl in Hc. subst count. apply Hd. repeat constructor; simpl; unfold u32_max; lia.
Defined.

Lemma accept_tokens_distinct_witness :
  (alloc_n 3 (mkBuffer [] i32_max)).1 = [i32_max; 1; 2] /\ NoDup (alloc_n 3 (mkBuffer [] i32_max)).1.
Proof.
  split; [reflexivity|].
  pose proof (accept_tokens_distinct (mkBuffer [] i32_max) 3) as Ha.
  destruct (alloc_n 3 (mkBuffer [] i32_max)) as [ids b']. apply Ha; unfold next_ok, i32_max; simpl; lia.
Defined.
