(* ===== verification/Ofd.v ===== *)
(** * Open file descriptions ([crates/kernel/src/ofd.rs])

    The per-process table of open file descriptions, the machine-wide identity
    allocator, the reference counts of descriptors in flight in SCM_RIGHTS
    messages, and the cross-process reference counts of host file handles.  The
    [static] cells are explicit states ([last_ofd_id] is the atomic counter);
    the ordered map of host handles is a [gmap]; [u32] reference counts wrap as
    [+=] and [-=] do in the release profile; the allocator of the in-flight
    vector ([try_reserve]) is the argument [alloc_ok].  A panic of the identity
    allocator is [None].

    The theorems: a description lives exactly as long as its references, under
    the same identity and in a slot nothing else can take; identities are never
    reused; the in-flight vector is a multiset of identities; a host handle is
    closed by its last owner and by no other; F_SETFL changes two bits only. *)

From stdpp Require Import sorting.
From S2P Require Import Prelude Abi Lock.

(** ** Identities *)

(** [fetch_update(checked_add(1)).expect(..)]: the new identity and counter. *)
Definition allocate_ofd_id (last_ofd_id : Z) : option (Z * Z) :=
  if last_ofd_id + 1 <=? u64_max then Some (last_ofd_id + 1, last_ofd_id + 1) else None.

(** [assert_ne!(id, 0)], then [fetch_max]. *)
Definition observe_ofd_id (last_ofd_id id : Z) : option Z :=
  if id =? 0 then None else Some (Z.max last_ofd_id id).

(** ** References of descriptors in flight *)

(** [binary_search_by_key]: whether the key is present, and its index or the
    index where it belongs. *)
Definition search_ref (refs : list (Z * Z)) (id : Z) : bool * nat :=
  let i := partition_point (fun r => r.1 <? id) refs in
  (match refs !! i with Some r => r.1 =? id | None => false end, i).

Definition retain_in_flight_ofd (alloc_ok : bool) (refs : list (Z * Z)) (id : Z)
    : kresult unit * list (Z * Z) :=
  if id =? 0 then (Err EINVAL, refs)
  else
    let '(found, index) := search_ref refs id in
    if found : bool then
      match refs !! index with
      | Some (k, c) =>
          if c + 1 <=? u32_max then (Ok (), <[index := (k, c + 1)]> refs) else (Err EOVERFLOW, refs)
      | None => (Ok (), refs)
      end
    else if alloc_ok then (Ok (), vec_insert index (id, 1) refs)
    else (Err ENOMEM, refs).

Definition release_in_flight_ofd (refs : list (Z * Z)) (id : Z) : bool * list (Z * Z) :=
  let '(found, index) := search_ref refs id in
  if found : bool then
    match refs !! index with
    | Some (k, c) =>
        if 1 <? c then (false, <[index := (k, c - 1)]> refs) else (true, vec_remove index refs)
    | None => (false, refs)
    end
  else (false, refs).

Definition has_in_flight_ofd (refs : list (Z * Z)) (id : Z) : bool := (search_ref refs id).1.

(** ** References of host handles *)

Definition host_handle_fork_ref (refs : gmap Z Z) (h : Z) : gmap Z Z :=
  <[h := u32_wrap (default 1 (refs !! h) + 1)]> refs.

Definition host_handle_close_ref (refs : gmap Z Z) (h : Z) : bool * gmap Z Z :=
  match refs !! h with
  | Some count =>
      let count := u32_wrap (count - 1) in
      if count =? 0 then (true, delete h refs) else (false, <[h := count]> refs)
  | None => (true, refs)
  end.

(** ** Open file descriptions *)

Definition SETFL_MODIFIABLE : Z := Z.lor O_APPEND O_NONBLOCK.

Inductive FileType :=
| Regular | Directory | Pipe | CharDevice | Socket | EventFd
| Epoll | TimerFd | SignalFd | MemFd | PtyMaster | PtySlave.

#[export] Instance FileType_eq_dec : EqDecision FileType.
Proof. solve_decision. Defined.

Record CmdbufBinding := mkCmdbuf {
  cb_addr : Z;
  cb_len : Z;
  submit_seq : Z;
}.

Record GlState := mkGl {
  gl_initialized : bool;
  gl_context_id : option Z;
  gl_surface_id : option Z;
  gl_current : bool;
  gl_cmdbuf : option CmdbufBinding;
}.

Record PrimeBoState := mkPrime {
  pb_bo_id : Z;
  pb_cookie : Z;
}.

Record DriFdState := mkDriFd {
  dri_handles : gmap Z Z;
  next_handle : Z;
  dri_gl : option GlState;
}.

Definition dri_default : DriFdState := mkDriFd ∅ 1 None.

Record KmsFb := mkFb {
  fb_bo_id : Z;
  fb_width : Z;
  fb_height : Z;
  fb_pixel_format : Z;
  fb_stride : Z;
}.

Record PendingFlip := mkFlip {
  pf_crtc_id : Z;
  pf_fb_id : Z;
  pf_user_data : Z;
}.

Record KmsFdState := mkKms {
  holds_master : bool;
  kms_fbs : gmap Z KmsFb;
  next_fb_id : Z;
  pending_flips : list PendingFlip;
  event_ring : bytes;
}.

Inductive DriOfdState :=
| PrimeBo (p : PrimeBoState)
| RenderNode (d : DriFdState)
| Card (d : DriFdState) (k : KmsFdState).

Record OpenFileDesc := mkOfd {
  ofd_id : Z;
  file_id : option FileId;
  file_type : FileType;
  status_flags : Z;
  host_handle : Z;
  offset : Z;
  ref_count : Z;
  owner_pid : Z;
  path : bytes;
  dir_host_handle : Z;
  dir_synth_state : Z;
  dir_entry_offset : Z;
  dri_state : option DriOfdState;
}.

Definition set_ref_count (o : OpenFileDesc) (c : Z) : OpenFileDesc :=
  mkOfd (ofd_id o) (file_id o) (file_type o) (status_flags o) (host_handle o) (offset o) c
    (owner_pid o) (path o) (dir_host_handle o) (dir_synth_state o) (dir_entry_offset o) (dri_state o).

Definition with_flags (o : OpenFileDesc) (f : Z) : OpenFileDesc :=
  mkOfd (ofd_id o) (file_id o) (file_type o) f (host_handle o) (offset o) (ref_count o)
    (owner_pid o) (path o) (dir_host_handle o) (dir_synth_state o) (dir_entry_offset o) (dri_state o).

Definition with_dri (o : OpenFileDesc) (d : option DriOfdState) : OpenFileDesc :=
  mkOfd (ofd_id o) (file_id o) (file_type o) (status_flags o) (host_handle o) (offset o) (ref_count o)
    (owner_pid o) (path o) (dir_host_handle o) (dir_synth_state o) (dir_entry_offset o) d.

Definition is_path_only (o : OpenFileDesc) : bool := negb (Z.land (status_flags o) O_PATH =? 0).

Definition dri (o : OpenFileDesc) : option DriFdState :=
  match dri_state o with
  | Some (RenderNode d) | Some (Card d _) => Some d
  | Some (PrimeBo _) | None => None
  end.

(** The place [dri_mut] returns a mutable borrow of, updated by [f]. *)
Definition dri_mut (f : DriFdState -> DriFdState) (o : OpenFileDesc) : option OpenFileDesc :=
  match dri_state o with
  | Some (RenderNode d) => Some (with_dri o (Some (RenderNode (f d))))
  | Some (Card d k) => Some (with_dri o (Some (Card (f d) k)))
  | Some (PrimeBo _) | None => None
  end.

Definition prime_bo (o : OpenFileDesc) : option PrimeBoState :=
  match dri_state o with Some (PrimeBo p) => Some p | _ => None end.

Definition take_prime_bo (o : OpenFileDesc) : option PrimeBoState * OpenFileDesc :=
  match dri_state o with
  | Some (PrimeBo p) => (Some p, with_dri o None)
  | _ => (None, o)
  end.

Definition kms (o : OpenFileDesc) : option KmsFdState :=
  match dri_state o with Some (Card _ k) => Some k | _ => None end.

Definition kms_mut (f : KmsFdState -> KmsFdState) (o : OpenFileDesc) : option OpenFileDesc :=
  match dri_state o with
  | Some (Card d k) => Some (with_dri o (Some (Card d (f k))))
  | _ => None
  end.

(** ** The table *)

Record OfdTable := mkTable { entries : list (option OpenFileDesc) }.

Definition new : OfdTable := mkTable [].

(** [for i in 0..len { if entries[i].is_none() { .. } }]. *)
Fixpoint first_free {A} (l : list (option A)) : nat :=
  match l with
  | None :: _ => 0
  | Some _ :: l' => S (first_free l')
  | [] => 0
  end.

Definition insert (t : OfdTable) (o : OpenFileDesc) : nat * OfdTable :=
  let i := first_free (entries t) in
  if (i <? length (entries t))%nat
  then (i, mkTable (<[i := Some o]> (entries t)))
  else (length (entries t), mkTable (vec_push (entries t) (Some o))).

Definition create (last_ofd_id : Z) (t : OfdTable) (ft : FileType) (flags handle : Z) (p : bytes)
    : option (nat * OfdTable * Z) :=
  match allocate_ofd_id last_ofd_id with
  | None => None
  | Some (id, last) =>
      let o := mkOfd id None ft flags handle 0 1 0 p (-1) 0 0 None in
      Some (insert t o, last)
  end.

Definition create_transferred (last_ofd_id : Z) (t : OfdTable) (id : Z) (fid : option FileId)
    (ft : FileType) (flags handle off : Z) (p : bytes) : option (nat * OfdTable * Z) :=
  match observe_ofd_id last_ofd_id id with
  | None => None
  | Some last =>
      let o := mkOfd id fid ft flags handle off 1 0 p (-1) 0 0 None in
      Some (insert t o, last)
  end.

Definition get (t : OfdTable) (idx : nat) : option OpenFileDesc :=
  match entries t !! idx with Some slot => slot | None => None end.

(** The place [get_mut] returns a mutable borrow of, updated by [f]. *)
Definition get_mut (t : OfdTable) (idx : nat) (f : OpenFileDesc -> OpenFileDesc) : OfdTable :=
  match get t idx with
  | Some o => mkTable (<[idx := Some (f o)]> (entries t))
  | None => t
  end.

Definition inc_ref (t : OfdTable) (idx : nat) : OfdTable :=
  get_mut t idx (fun o => set_ref_count o (u32_wrap (ref_count o + 1))).

Definition dec_ref (t : OfdTable) (idx : nat) : bool * OfdTable :=
  match get t idx with
  | None => (false, t)
  | Some o =>
      let c := u32_wrap (ref_count o - 1) in
      if c =? 0 then (true, mkTable (<[idx := None]> (entries t)))
      else (false, mkTable (<[idx := Some (set_ref_count o c)]> (entries t)))
  end.

Fixpoint iter_from (i : nat) (l : list (option OpenFileDesc)) : list (nat * OpenFileDesc) :=
  match l with
  | [] => []
  | Some o :: l' => (i, o) :: iter_from (S i) l'
  | None :: l' => iter_from (S i) l'
  end.

Definition iter (t : OfdTable) : list (nat * OpenFileDesc) := iter_from 0 (entries t).

(** [iter_mut], with the update applied to every description. *)
Definition iter_mut (t : OfdTable) (f : nat -> OpenFileDesc -> OpenFileDesc) : OfdTable :=
  mkTable (imap (fun i slot => f i <$> slot) (entries t)).

Fixpoint observe_all (last_ofd_id : Z) (l : list (option OpenFileDesc)) : option Z :=
  match l with
  | [] => Some last_ofd_id
  | None :: l' => observe_all last_ofd_id l'
  | Some o :: l' =>
      match observe_ofd_id last_ofd_id (ofd_id o) with
      | Some last => observe_all last l'
      | None => None
      end
  end.

Definition from_raw (last_ofd_id : Z) (l : list (option OpenFileDesc)) : option (OfdTable * Z) :=
  match observe_all last_ofd_id l with
  | Some last => Some (mkTable l, last)
  | None => None
  end.

Definition set_status_flags (t : OfdTable) (idx : nat) (new_flags : Z) : OfdTable :=
  get_mut t idx (fun o =>
    let preserved := Z.ldiff (status_flags o) SETFL_MODIFIABLE in
    let updated := Z.land new_flags SETFL_MODIFIABLE in
    with_flags o (Z.lor preserved updated)).

(** ** In-flight references *)

Definition key_lt (a b : Z * Z) : Prop := a.1 < b.1.
#[local] Instance key_lt_trans : Transitive key_lt.
Proof. unfold key_lt. intros ???. lia. Qed.

(** Sorted by identity, each with a positive [u32] count. *)
Record in_flight_ok (refs : list (Z * Z)) : Prop := {
  if_sorted : StronglySorted key_lt refs;
  if_counts : Forall (fun r => 1 <= r.2 <= u32_max) refs;
}.

(** The multiset the vector stands for. *)
Definition refs_of (refs : list (Z * Z)) (id : Z) : Z :=
  match find_first (fun r => r.1 =? id) refs with Some r => r.2 | None => 0 end.

Lemma search_ref_split refs id :
  StronglySorted key_lt refs ->
  let '(found, i) := search_ref refs id in
  exists l1 l2, i = length l1 /\ Forall (fun r => r.1 < id) l1 /\ Forall (fun r => id < r.1) l2 /\
    if found : bool then exists c, refs = l1 ++ (id, c) :: l2 else refs = l1 ++ l2.
Proof.
  intros Hs. unfold search_ref. induction Hs as [|r refs Hs IH Hr]; simpl; [by exists [], []|].
  rewrite Forall_forall in Hr. destruct (Z.ltb_spec r.1 id) as [Hlt|Hge]; simpl.
  - destruct IH as (l1 & l2 & Hi & H1 & H2 & He). exists (r :: l1), l2. simpl.
    split_and!; [by rewrite Hi|by constructor|done|].
    destruct (refs !! partition_point (fun r0 => r0.1 <? id) refs) as [r'|]; [|by rewrite <- He].
    destruct (r'.1 =? id); [|by rewrite <- He]. destruct He as [c ->]. by exists c.
  - destruct (Z.eqb_spec r.1 id) as [<-|Hne].
    + exists [], refs. split_and!; [done|constructor| |by exists r.2; destruct r].
      apply Forall_forall. intros r' Hr'. by apply Hr.
    + exists [], (r :: refs). split_and!; [done|constructor| |done].
      apply Forall_forall. intros r' [->|Hr']%elem_of_cons; [lia|]. apply Hr in Hr'. unfold key_lt in Hr'. lia.
Qed.

Lemma refs_of_app l1 l2 id :
  refs_of (l1 ++ l2) id =
  if existsb (fun r => r.1 =? id) l1 then refs_of l1 id else refs_of l2 id.
Proof.
  unfold refs_of, find_first. induction l1 as [|r l1 IH]; simpl; [done|]. by destruct (r.1 =? id).
Qed.

Lemma refs_of_cons r l id : refs_of (r :: l) id = if r.1 =? id then r.2 else refs_of l id.
Proof. unfold refs_of, find_first; simpl. by destruct (r.1 =? id). Qed.

Lemma refs_of_absent l id : Forall (fun r => r.1 <> id) l -> refs_of l id = 0.
Proof.
  induction 1 as [|r l Hr Hl IH]; [done|]. rewrite refs_of_cons. by destruct (Z.eqb_spec r.1 id).
Qed.

Lemma existsb_absent (l : list (Z * Z)) id :
  Forall (fun r => r.1 <> id) l -> existsb (fun r => r.1 =? id) l = false.
Proof. induction 1 as [|r l Hr Hl IH]; simpl; [done|]. by destruct (Z.eqb_spec r.1 id). Qed.

Lemma sorted_middle l1 k c l2 :
  StronglySorted key_lt (l1 ++ (k, c) :: l2) <->
  StronglySorted key_lt l1 /\ StronglySorted key_lt l2 /\
  Forall (fun r => r.1 < k) l1 /\ Forall (fun r => k < r.1) l2 /\
  (forall a b, a ∈ l1 -> b ∈ l2 -> key_lt a b).
Proof.
  rewrite StronglySorted_app, StronglySorted_cons, !Forall_forall. unfold key_lt. split.
  - intros (Hc & H1 & H2 & H3). split_and!; try done.
    + intros r Hr. apply (Hc r (k, c)); [done|by constructor].
    + intros a b Ha Hb. apply Hc; [done|by constructor].
  - intros (H1 & H2 & H3 & H4 & Hc). split_and!; try done.
    intros a b Ha [->|Hb]%elem_of_cons; [by apply H3|by apply Hc].
Qed.

(** *** Each operation on the multiset *)

Lemma forall_ne_l l (id id' : Z) : Forall (fun r : Z * Z => r.1 < id) l -> id <= id' -> Forall (fun r => r.1 <> id') l.
Proof. intros Hl Hle. eapply Forall_impl; [done|]. simpl. lia. Qed.

Lemma forall_ne_r l (id id' : Z) : Forall (fun r : Z * Z => id < r.1) l -> id' <= id -> Forall (fun r => r.1 <> id') l.
Proof. intros Hl Hle. eapply Forall_impl; [done|]. simpl. lia. Qed.

Lemma refs_of_middle l1 id c l2 id' :
  Forall (fun r => r.1 < id) l1 ->
  refs_of (l1 ++ (id, c) :: l2) id' = if id' =? id then c else refs_of (l1 ++ l2) id'.
Proof.
  intros H1. rewrite !refs_of_app, refs_of_cons. simpl. rewrite (Z.eqb_sym id).
  destruct (Z.eqb_spec id' id) as [->|Hne]; [|done].
  rewrite existsb_absent; [done|]. eapply forall_ne_l; [done|lia].
Qed.

Lemma refs_of_gap l1 l2 id :
  Forall (fun r => r.1 < id) l1 -> Forall (fun r => id < r.1) l2 -> refs_of (l1 ++ l2) id = 0.
Proof.
  intros H1 H2. apply refs_of_absent. apply Forall_app. split.
  - eapply forall_ne_l; [done|lia].
  - eapply forall_ne_r; [done|lia].
Qed.

Lemma has_in_flight_spec refs id : in_flight_ok refs -> has_in_flight_ofd refs id = (0 <? refs_of refs id).
Proof.
  intros [Hs Hc]. unfold has_in_flight_ofd. pose proof (search_ref_split refs id Hs) as Hsr.
  destruct (search_ref refs id) as [found i]. destruct Hsr as (l1 & l2 & _ & H1 & H2 & He). simpl.
  destruct found.
  - destruct He as [c ->]. rewrite refs_of_middle, Z.eqb_refl by done.
    rewrite Forall_app, Forall_cons in Hc. simpl in Hc. symmetry. apply Z.ltb_lt. lia.
  - subst. by rewrite refs_of_gap.
Qed.

Lemma in_flight_middle l1 id c l2 c' :
  in_flight_ok (l1 ++ (id, c) :: l2) -> 1 <= c' <= u32_max -> in_flight_ok (l1 ++ (id, c') :: l2).
Proof.
  intros [Hs Hc] Hc'. rewrite Forall_app, Forall_cons in Hc. split.
  - apply sorted_middle. by apply sorted_middle in Hs.
  - rewrite Forall_app, Forall_cons. by destruct Hc as (? & _ & ?).
Qed.

Lemma in_flight_count l1 id c l2 : in_flight_ok (l1 ++ (id, c) :: l2) -> 1 <= c <= u32_max.
Proof. intros [_ Hc]. rewrite Forall_app, Forall_cons in Hc. apply Hc. Qed.

Lemma retain_ofd_spec alloc_ok refs id :
  in_flight_ok refs ->
  let '(r, refs') := retain_in_flight_ofd alloc_ok refs id in
  in_flight_ok refs' /\
  match r with
  | Ok _ => id <> 0 /\ forall id', refs_of refs' id' = refs_of refs id' + (if id' =? id then 1 else 0)
  | Err e => refs' = refs /\
      (e = EINVAL /\ id = 0 \/ e = EOVERFLOW /\ refs_of refs id = u32_max \/
       e = ENOMEM /\ alloc_ok = false /\ refs_of refs id = 0)
  end.
Proof.
  intros Hok. pose proof (search_ref_split refs id (if_sorted _ Hok)) as Hsr.
  unfold retain_in_flight_ofd. destruct (Z.eqb_spec id 0) as [->|Hne]; [auto|].
  destruct (search_ref refs id) as [found i]. destruct Hsr as (l1 & l2 & -> & H1 & H2 & He).
  destruct found; [destruct He as [c ->]|subst refs].
  - rewrite list_lookup_middle by done. pose proof (in_flight_count _ _ _ _ Hok).
    destruct (Z.leb_spec (c + 1) u32_max).
    + rewrite insert_app_r_alt, Nat.sub_diag by done. simpl.
      split; [by eapply in_flight_middle; [|lia]|]. split; [done|].
      intros id'. rewrite !refs_of_middle by done. destruct (id' =? id); lia.
    + split; [done|]. split; [done|]. right; left. rewrite refs_of_middle, Z.eqb_refl by done.
      split; [done|lia].
  - destruct alloc_ok; [|rewrite refs_of_gap by done; by auto 10].
    assert (vec_insert (length l1) (id, 1) (l1 ++ l2) = l1 ++ (id, 1) :: l2) as ->
      by (unfold vec_insert; by rewrite take_app_length, drop_app_length).
    destruct Hok as [Hs Hc]. apply StronglySorted_app in Hs as (Hx & Hs1 & Hs2). apply Forall_app in Hc as [Hc1 Hc2].
    split; [split; [by apply sorted_middle|]|split; [done|]].
    + rewrite Forall_app, Forall_cons; simpl; unfold u32_max; split_and!; (done || lia).
    + intros id'. rewrite refs_of_middle by done.
      destruct (Z.eqb_spec id' id) as [->|]; [by rewrite refs_of_gap|lia].
Qed.

Lemma release_spec refs id :
  in_flight_ok refs ->
  let '(last, refs') := release_in_flight_ofd refs id in
  in_flight_ok refs' /\ last = (refs_of refs id =? 1) /\
  forall id', refs_of refs' id' =
    refs_of refs id' - (if (id' =? id) && (0 <? refs_of refs id) then 1 else 0).
Proof.
  intros Hok. pose proof (search_ref_split refs id (if_sorted _ Hok)) as Hsr.
  unfold release_in_flight_ofd.
  destruct (search_ref refs id) as [found i]. destruct Hsr as (l1 & l2 & -> & H1 & H2 & He).
  destruct found; [destruct He as [c ->]|subst refs].
  - rewrite list_lookup_middle by done. pose proof (in_flight_count _ _ _ _ Hok) as Hc.
    assert (refs_of (l1 ++ (id, c) :: l2) id = c) as -> by (rewrite refs_of_middle, Z.eqb_refl; done).
    destruct (Z.ltb_spec 1 c).
    + rewrite insert_app_r_alt, Nat.sub_diag by done. simpl.
      split; [by eapply in_flight_middle; [|lia]|]. split; [lia|]. intros id'. rewrite !refs_of_middle by done.
      destruct (Z.eqb_spec id' id); simpl; [|lia]. destruct (Z.ltb_spec 0 c); lia.
    + assert (vec_remove (length l1) (l1 ++ (id, c) :: l2) = l1 ++ l2) as ->.
      { unfold vec_remove. rewrite take_app_length. f_equal.
        rewrite drop_app_ge by lia. by replace (S (length l1) - length l1)%nat with 1%nat by lia. }
      destruct Hok as [Hs Hc']. apply sorted_middle in Hs as (Hs1 & Hs2 & _ & _ & Hx).
      rewrite Forall_app, Forall_cons in Hc'. destruct Hc' as (? & _ & ?).
      split; [split; [apply StronglySorted_app; auto|by apply Forall_app]|]. split; [lia|].
      intros id'. rewrite refs_of_middle by done. destruct (Z.eqb_spec id' id) as [->|]; simpl; [|lia].
      rewrite refs_of_gap by done. destruct (Z.ltb_spec 0 c); lia.
  - rewrite refs_of_gap by done. split; [done|]. split; [done|]. intros id'. rewrite andb_false_r. lia.
Qed.

(** Descriptors in flight form a multiset of identities.  Retaining adds one
    reference to exactly that identity, or fails without effect: EINVAL for the
    reserved identity, EOVERFLOW only at the counter's limit, ENOMEM only when
    a new entry cannot be allocated.  Releasing removes exactly one reference
    and reports whether it was the last; the lookup sees an identity exactly
    while references to it remain; the vector stays sorted and free of zero
    counts. *)
Theorem in_flight_multiset alloc_ok refs id :
  in_flight_ok refs ->
  has_in_flight_ofd refs id = (0 <? refs_of refs id) /\
  (let '(r, refs') := retain_in_flight_ofd alloc_ok refs id in
   in_flight_ok refs' /\
   match r with
   | Ok _ => id <> 0 /\ forall id', refs_of refs' id' = refs_of refs id' + (if id' =? id then 1 else 0)
   | Err e => refs' = refs /\
       (e = EINVAL /\ id = 0 \/ e = EOVERFLOW /\ refs_of refs id = u32_max \/
        e = ENOMEM /\ alloc_ok = false /\ refs_of refs id = 0)
   end) /\
  (let '(last, refs') := release_in_flight_ofd refs id in
   in_flight_ok refs' /\ last = (refs_of refs id =? 1) /\
   forall id', refs_of refs' id' =
     refs_of refs id' - (if (id' =? id) && (0 <? refs_of refs id) then 1 else 0)).
Proof.
  intros Hok. split; [by apply has_in_flight_spec|].
  split; [by apply retain_ofd_spec|by apply release_spec].
Qed.

(** ** Host handles *)

Inductive handle_op := HFork (h : Z) | HClose (h : Z).

(** One operation; a close answers whether the host handle must be closed. *)
Definition handle_step (refs : gmap Z Z) (op : handle_op) : list (Z * bool) * gmap Z Z :=
  match op with
  | HFork h => ([], host_handle_fork_ref refs h)
  | HClose h => let '(b, refs') := host_handle_close_ref refs h in ([(h, b)], refs')
  end.

Fixpoint handle_run (refs : gmap Z Z) (ops : list handle_op) : list (Z * bool) * gmap Z Z :=
  match ops with
  | [] => ([], refs)
  | op :: ops' =>
      let '(o, r1) := handle_step refs op in
      let '(os, r2) := handle_run r1 ops' in (o ++ os, r2)
  end.

(** The specification: the number of processes that own each handle. *)
Definition owner_step (owners : Z -> Z) (op : handle_op) : list (Z * bool) * (Z -> Z) :=
  match op with
  | HFork h => ([], fun x => if x =? h then owners x + 1 else owners x)
  | HClose h => ([(h, owners h =? 1)], fun x => if x =? h then owners x - 1 else owners x)
  end.

Fixpoint owner_run (owners : Z -> Z) (ops : list handle_op) : list (Z * bool) * (Z -> Z) :=
  match ops with
  | [] => ([], owners)
  | op :: ops' =>
      let '(o, w1) := owner_step owners op in
      let '(os, w2) := owner_run w1 ops' in (o ++ os, w2)
  end.

(** Only a process that owns a handle forks or closes it, and fewer than [2^32]
    processes share one. *)
Fixpoint owners_ok (owners : Z -> Z) (ops : list handle_op) : Prop :=
  match ops with
  | [] => True
  | op :: ops' =>
      match op with HFork h => 1 <= owners h < u32_max | HClose h => 1 <= owners h end /\
      owners_ok (owner_step owners op).2 ops'
  end.

(** The table agrees with the owners of every handle that still has one. *)
Definition handles_agree (refs : gmap Z Z) (owners : Z -> Z) : Prop :=
  forall h, 0 <= owners h <= u32_max /\
    match refs !! h with
    | Some c => 1 <= c /\ c = owners h
    | None => owners h <= 1
    end.

Lemma handle_step_agree refs owners op :
  handles_agree refs owners ->
  match op with HFork h => 1 <= owners h < u32_max | HClose h => 1 <= owners h end ->
  (handle_step refs op).1 = (owner_step owners op).1 /\
  handles_agree (handle_step refs op).2 (owner_step owners op).2.
Proof.
  intros Ha Hop. destruct op as [h|h]; simpl.
  - split; [done|]. intros x. unfold host_handle_fork_ref. destruct (Ha h) as [Hh Hm].
    destruct (Z.eqb_spec x h) as [->|Hne]; [|rewrite lookup_insert_ne by done; apply Ha].
    rewrite lookup_insert_eq. unfold u32_wrap, u32_max in *.
    assert (default 1 (refs !! h) = owners h) as -> by (destruct (refs !! h); simpl; lia).
    rewrite Z.mod_small by lia. lia.
  - unfold host_handle_close_ref. destruct (Ha h) as [Hh Hm]. destruct (refs !! h) as [c|] eqn:E.
    + destruct Hm as [Hc ->]. unfold u32_wrap, u32_max in *. rewrite Z.mod_small by lia.
      destruct (Z.eqb_spec (owners h - 1) 0) as [E1|E1]; simpl.
      * split; [by replace (owners h =? 1) with true by lia|]. intros x.
        destruct (Z.eqb_spec x h) as [->|Hne]; [rewrite lookup_delete_eq; unfold u32_max; lia|].
        rewrite lookup_delete_ne by done. apply Ha.
      * split; [by replace (owners h =? 1) with false by lia|]. intros x.
        destruct (Z.eqb_spec x h) as [->|Hne]; [rewrite lookup_insert_eq; unfold u32_max; lia|].
        rewrite lookup_insert_ne by done. apply Ha.
    + simpl. split; [by replace (owners h =? 1) with true by lia|]. intros x.
      destruct (Z.eqb_spec x h) as [->|Hne]; [rewrite E; unfold u32_max in *; lia|apply Ha].
Qed.

(** A host handle is closed by its last owner and by no other.  Over any
    run of forks and closes by processes that own the handle, each close asks
    the host to close exactly when it is the last remaining reference, so a
    child can never invalidate a handle its parent still uses, and no handle
    leaks. *)
Theorem host_handle_last_owner_closes refs owners ops :
  handles_agree refs owners -> owners_ok owners ops ->
  (handle_run refs ops).1 = (owner_run owners ops).1 /\
  handles_agree (handle_run refs ops).2 (owner_run owners ops).2.
Proof.
  revert refs owners. induction ops as [|op ops IH]; intros refs owners Ha Hok; simpl; [done|].
  destruct Hok as [Hop Hok]. destruct (handle_step_agree refs owners op Ha Hop) as [Ho Ha1].
  destruct (handle_step refs op) as [o r1], (owner_step owners op) as [o' w1]. simpl in *. subst o'.
  destruct (IH r1 w1 Ha1 Hok) as [Hos Ha2].
  destruct (handle_run r1 ops), (owner_run w1 ops). simpl in *. by rewrite Hos.
Qed.

(** ** The table *)

Lemma first_free_spec {A} (l : list (option A)) :
  (first_free l <= length l)%nat /\
  (forall j, (j < first_free l)%nat -> exists o, l !! j = Some (Some o)) /\
  ((first_free l < length l)%nat -> l !! first_free l = Some None).
Proof.
  induction l as [|[o|] l (H1 & H2 & H3)]; simpl; [split_and!; [lia|lia|lia]| |split_and!; [lia|lia|done]].
  split_and!; [lia| |intros; apply H3; lia].
  intros [|j] Hj; [by exists o|]. apply H2. lia.
Qed.

Lemma insert_spec t o :
  let '(i, t') := insert t o in
  get t i = None /\ (forall j, (j < i)%nat -> get t j <> None) /\
  (forall j, get t' j = if (j =? i)%nat then Some o else get t j).
Proof.
  unfold insert. destruct (first_free_spec (entries t)) as (H1 & H2 & H3).
  destruct (Nat.ltb_spec (first_free (entries t)) (length (entries t))) as [Hlt|Hge]; unfold get; simpl.
  - split_and!; [by rewrite H3| |].
    + intros j Hj. destruct (H2 j Hj) as [o' ->]. done.
    + intros j. destruct (Nat.eqb_spec j (first_free (entries t))) as [->|Hne].
      * by rewrite list_lookup_insert_eq.
      * by rewrite list_lookup_insert_ne.
  - split_and!; [by rewrite lookup_ge_None_2| |].
    + intros j Hj. destruct (H2 j) as [o' ->]; [lia|done].
    + intros j. unfold vec_push. destruct (Nat.eqb_spec j (length (entries t))) as [->|Hne].
      * by rewrite list_lookup_middle.
      * destruct (Nat.ltb_spec j (length (entries t))).
        -- by rewrite lookup_app_l.
        -- rewrite !lookup_ge_None_2; [done|lia|rewrite length_app; simpl; lia].
Qed.

Lemma get_Some_lt t i o : get t i = Some o -> (i < length (entries t))%nat.
Proof.
  unfold get. destruct (entries t !! i) eqn:E; [|done]. intros _. by eapply lookup_lt_Some.
Qed.

Lemma get_update t i j slot :
  (i < length (entries t))%nat ->
  get (mkTable (<[i := slot]> (entries t))) j = if (j =? i)%nat then slot else get t j.
Proof.
  intros Hi. unfold get; simpl. destruct (Nat.eqb_spec j i) as [->|Hne].
  - by rewrite list_lookup_insert_eq.
  - by rewrite list_lookup_insert_ne.
Qed.

Lemma get_mut_spec t i f j :
  get (get_mut t i f) j = if (j =? i)%nat then f <$> get t i else get t j.
Proof.
  unfold get_mut. destruct (get t i) as [o|] eqn:E; [|destruct (Nat.eqb_spec j i) as [->|]; done].
  rewrite get_update by by eapply get_Some_lt. done.
Qed.

Lemma dec_ref_spec t i :
  let '(freed, t') := dec_ref t i in
  match get t i with
  | None => freed = false /\ t' = t
  | Some o =>
      freed = (u32_wrap (ref_count o - 1) =? 0) /\
      forall j, get t' j =
        if (j =? i)%nat
        then (if freed then None else Some (set_ref_count o (u32_wrap (ref_count o - 1))))
        else get t j
  end.
Proof.
  unfold dec_ref. destruct (get t i) as [o|] eqn:E; [|done]. pose proof (get_Some_lt _ _ _ E).
  destruct (u32_wrap (ref_count o - 1) =? 0); (split; [done|]); intros j; by rewrite get_update.
Qed.

(** *** Sequences of table operations *)

Inductive table_op :=
| TCreate (ft : FileType) (flags handle : Z) (p : bytes)
| TTransfer (id : Z) (fid : option FileId) (ft : FileType) (flags handle off : Z) (p : bytes)
| TInc (i : nat)
| TDec (i : nat)
| TSetFlags (i : nat) (flags : Z)
| TUpdate (i : nat) (o : OpenFileDesc -> OpenFileDesc).

(** The table, the identity counter, and the identities [create] handed out. *)
Definition table_step (s : OfdTable * Z) (op : table_op) : option (OfdTable * Z * list Z) :=
  let '(t, last) := s in
  match op with
  | TCreate ft flags handle p =>
      match create last t ft flags handle p with
      | Some (_, t', last') => Some (t', last', [last'])
      | None => None
      end
  | TTransfer id fid ft flags handle off p =>
      match create_transferred last t id fid ft flags handle off p with
      | Some (_, t', last') => Some (t', last', [])
      | None => None
      end
  | TInc i => Some (inc_ref t i, last, [])
  | TDec i => Some ((dec_ref t i).2, last, [])
  | TSetFlags i flags => Some (set_status_flags t i flags, last, [])
  | TUpdate i f => Some (get_mut t i f, last, [])
  end.

Fixpoint table_run (s : OfdTable * Z) (ops : list table_op) : option (OfdTable * Z * list Z) :=
  match ops with
  | [] => Some (s.1, s.2, [])
  | op :: ops' =>
      match table_step s op with
      | None => None
      | Some (t1, l1, ids1) =>
          match table_run (t1, l1) ops' with
          | None => None
          | Some (t2, l2, ids2) => Some (t2, l2, ids1 ++ ids2)
          end
      end
  end.

(** Updates through a mutable borrow keep the identity and the count. *)
Definition top_ok (op : table_op) : Prop :=
  match op with
  | TUpdate _ f => forall o, ofd_id (f o) = ofd_id o /\ ref_count (f o) = ref_count o
  | TTransfer id _ _ _ _ _ _ => 0 <= id <= u64_max
  | _ => True
  end.

(** How an operation changes the number of references to slot [i]. *)
Definition net (i : nat) (op : table_op) : Z :=
  match op with
  | TInc j => if (j =? i)%nat then 1 else 0
  | TDec j => if (j =? i)%nat then -1 else 0
  | _ => 0
  end.

(** The count starting from [c] stays positive and within [u32]. *)
Fixpoint balanced (i : nat) (c : Z) (ops : list table_op) : Prop :=
  match ops with
  | [] => True
  | op :: ops' => 1 <= c + net i op <= u32_max /\ balanced i (c + net i op) ops'
  end.

Lemma table_step_keeps t last op t' last' ids i o :
  top_ok op -> get t i = Some o -> 1 <= ref_count o + net i op <= u32_max ->
  table_step (t, last) op = Some (t', last', ids) ->
  exists o', get t' i = Some o' /\ ofd_id o' = ofd_id o /\ ref_count o' = ref_count o + net i op.
Proof.
  intros Hop Hg Hc Hs. unfold u32_max in Hc. destruct op as [ft flags handle p|id fid ft flags handle off p|j|j|j flags|j f]; simpl in *.
  - unfold create in Hs. destruct (allocate_ofd_id last) as [[id l]|]; [|done].
    pose proof (insert_spec t (mkOfd id None ft flags handle 0 1 0 p (-1) 0 0 None)) as Hi.
    destruct (insert _ _) as [k tk]. simplify_eq. destruct Hi as (Hn & _ & Hg'). exists o. rewrite Hg'.
    destruct (Nat.eqb_spec i k) as [->|]; [congruence|]. split_and!; [done|done|lia].
  - unfold create_transferred in Hs. destruct (observe_ofd_id last id) as [l|]; [|done].
    pose proof (insert_spec t (mkOfd id fid ft flags handle off 1 0 p (-1) 0 0 None)) as Hi.
    destruct (insert _ _) as [k tk]. simplify_eq. destruct Hi as (Hn & _ & Hg'). exists o. rewrite Hg'.
    destruct (Nat.eqb_spec i k) as [->|]; [congruence|]. split_and!; [done|done|lia].
  - simplify_eq. unfold inc_ref. rewrite get_mut_spec, (Nat.eqb_sym i j).
    destruct (Nat.eqb_spec j i) as [->|]; [|exists o; split_and!; [done|done|lia]].
    rewrite Hg. eexists. split_and!; [done|done|]. simpl. unfold u32_wrap. rewrite Z.mod_small; lia.
  - pose proof (dec_ref_spec t j) as Hd. destruct (dec_ref t j) as [freed tj]. simplify_eq. simpl in *.
    destruct (Nat.eqb_spec j i) as [->|Hne].
    + rewrite Hg in Hd. destruct Hd as [-> Hd]. rewrite Hd, Nat.eqb_refl.
      unfold u32_wrap. rewrite Z.mod_small by lia. destruct (Z.eqb_spec (ref_count o - 1) 0); [lia|].
      eexists. split_and!; [done|done|]. simpl. lia.
    + exists o. destruct (get t j); [|destruct Hd as [_ ->]; split_and!; [done|done|lia]].
      destruct Hd as [_ Hd]. rewrite Hd. destruct (Nat.eqb_spec i j); [congruence|]. split_and!; [done|done|lia].
  - simplify_eq. unfold set_status_flags. rewrite get_mut_spec.
    destruct (Nat.eqb_spec i j) as [->|]; [rewrite Hg; eexists|exists o]; split_and!; try done; simpl; lia.
  - simplify_eq. rewrite get_mut_spec.
    destruct (Nat.eqb_spec i j) as [->|]; [rewrite Hg; eexists|exists o]; split_and!; try done; try lia.
    + apply Hop.
    + rewrite (proj2 (Hop o)). lia.
Qed.

#[local] Arguments table_step : simpl never.

Lemma table_run_keeps ops t last t' last' ids i o :
  Forall top_ok ops -> get t i = Some o -> balanced i (ref_count o) ops ->
  table_run (t, last) ops = Some (t', last', ids) ->
  exists o', get t' i = Some o' /\ ofd_id o' = ofd_id o /\
    ref_count o' = ref_count o + foldr Z.add 0 (map (net i) ops).
Proof.
  intros Hops. revert t last o ids. induction Hops as [|op ops Hop Hops IH]; intros t last o ids Hg Hb Hr; simpl in *.
  - simplify_eq. exists o. split_and!; [done|done|lia].
  - destruct Hb as [Hc Hb]. destruct (table_step (t, last) op) as [[[t1 l1] ids1]|] eqn:Es; [|done].
    destruct (table_run (t1, l1) ops) as [[[t2 l2] ids2]|] eqn:Er; [|done]. simplify_eq.
    edestruct table_step_keeps as (o1 & Hg1 & Hid1 & Hc1); [done|done|done|done|].
    rewrite <- Hc1 in Hb. edestruct IH as (o2 & Hg2 & Hid2 & Hc2); [done|done|done|].
    exists o2. split_and!; [done|congruence|lia].
Qed.

(** A description lives exactly as long as its references.  Whatever else
    happens to the table (opens, transfers, other descriptors opened, duplicated
    and closed, flags and offsets updated), a description with references
    outstanding stays at its index with its identity, and its count is the
    initial one plus the references taken minus those dropped; dropping the last
    one frees exactly that slot, and dropping an earlier one never does. *)
Theorem ofd_lifetime t last i o ops t' last' ids :
  Forall top_ok ops -> get t i = Some o -> balanced i (ref_count o) ops ->
  table_run (t, last) ops = Some (t', last', ids) ->
  let c := ref_count o + foldr Z.add 0 (map (net i) ops) in
  (exists o', get t' i = Some o' /\ ofd_id o' = ofd_id o /\ ref_count o' = c) /\
  (1 <= c <= u32_max ->
   let '(freed, t'') := dec_ref t' i in
   freed = (c =? 1) /\ (get t'' i = None <-> c = 1) /\
   forall j, j <> i -> get t'' j = get t' j).
Proof.
  intros Hops Hg Hb Hr c. edestruct table_run_keeps as (o' & Hg' & Hid & Hc); [done..|].
  split; [by exists o'|]. intros Hcb. pose proof (dec_ref_spec t' i) as Hd.
  destruct (dec_ref t' i) as [freed t'']. rewrite Hg' in Hd. destruct Hd as [-> Hd].
  rewrite Hc in *. fold c in Hd |- *. unfold u32_max in Hcb. unfold u32_wrap in *.
  rewrite Z.mod_small in * by lia. split_and!; [lia| |].
  - rewrite Hd, Nat.eqb_refl. destruct (Z.eqb_spec (c - 1) 0); split; intros; (done || lia).
  - intros j Hj. rewrite Hd. by destruct (Nat.eqb_spec j i).
Qed.

(** *** Identities *)

(** Every live description has an identity the counter has passed. *)
Definition ids_ok (t : OfdTable) (last : Z) : Prop :=
  0 <= last <= u64_max /\ forall i o, get t i = Some o -> 1 <= ofd_id o <= last.

Lemma insert_ids t last o i t' :
  ids_ok t last -> 1 <= ofd_id o <= last -> insert t o = (i, t') -> ids_ok t' last.
Proof.
  intros [Hl Hids] Ho Hi. pose proof (insert_spec t o) as Hs. rewrite Hi in Hs. destruct Hs as (_ & _ & Hg).
  split; [done|]. intros j oj. rewrite Hg. destruct (j =? i)%nat; [intros [= <-]; exact Ho|apply Hids].
Qed.

Lemma ids_ok_mono t last last' : ids_ok t last -> last <= last' <= u64_max -> ids_ok t last'.
Proof. intros [? Hids] ?. split; [lia|]. intros i o Hg. apply Hids in Hg. lia. Qed.

Lemma get_mut_ids t last i f :
  (forall o, ofd_id (f o) = ofd_id o) -> ids_ok t last -> ids_ok (get_mut t i f) last.
Proof.
  intros Hf [Hl Hids]. split; [done|]. intros j o. rewrite get_mut_spec.
  destruct (Nat.eqb_spec j i) as [->|]; [|apply Hids].
  destruct (get t i) as [oi|] eqn:E; [|done]. simpl. intros [= <-]. rewrite Hf. by eapply Hids.
Qed.

Lemma table_step_ids t last op t' last' ids :
  top_ok op -> ids_ok t last -> table_step (t, last) op = Some (t', last', ids) ->
  ids_ok t' last' /\ last <= last' /\ (ids = [] \/ ids = [last'] /\ last < last').
Proof.
  intros Hop Hok Hs. destruct op as [ft flags handle p|id fid ft flags handle off p|j|j|j flags|j f];
    unfold table_step in Hs; simpl in Hop.
  - unfold create, allocate_ofd_id in Hs. destruct (Z.leb_spec (last + 1) u64_max); [|done].
    destruct (insert _ _) as [k tk] eqn:Ei. simplify_eq. pose proof (proj1 Hok).
    split_and!; [|lia|right; split; [done|lia]].
    eapply insert_ids in Ei; [exact Ei|eapply ids_ok_mono; [done|lia]|simpl; lia].
  - unfold create_transferred, observe_ofd_id in Hs. destruct (Z.eqb_spec id 0); [done|].
    destruct (insert _ _) as [k tk] eqn:Ei. simplify_eq. pose proof (proj1 Hok).
    split_and!; [|lia|by left].
    eapply insert_ids in Ei; [exact Ei|eapply ids_ok_mono; [done|lia]|simpl; lia].
  - simplify_eq. split_and!; [by apply get_mut_ids|lia|by left].
  - simplify_eq. split_and!; [|lia|by left]. pose proof (dec_ref_spec t j) as Hd.
    destruct (dec_ref t j) as [freed tj]; simpl in *.
    destruct (get t j) as [oj|] eqn:E; [|by destruct Hd as [_ ->]]. destruct Hd as [_ Hd].
    split; [apply Hok|]. intros i o. rewrite Hd. destruct (Nat.eqb_spec i j) as [->|]; [|apply Hok].
    destruct freed; [done|]. intros [= <-]. simpl. by apply (proj2 Hok j).
  - simplify_eq. split_and!; [by apply get_mut_ids|lia|by left].
  - simplify_eq. split_and!; [apply get_mut_ids; [apply Hop|done]|lia|by left].
Qed.

(** Identities are never reused.  Over any run, the identities given to new
    descriptions strictly increase and are greater than every identity alive or
    seen before, so a lock or a queued descriptor keyed by an identity can
    never name a later description. *)
Theorem ofd_identities_fresh t last ops t' last' ids :
  Forall top_ok ops -> ids_ok t last -> table_run (t, last) ops = Some (t', last', ids) ->
  ids_ok t' last' /\ StronglySorted Z.lt ids /\ Forall (fun id => last < id <= last') ids /\
  (forall i o id, get t i = Some o -> id ∈ ids -> ofd_id o < id).
Proof.
  intros Hops Hok0 Hr.
  enough (ids_ok t' last' /\ StronglySorted Z.lt ids /\ Forall (fun id => last < id <= last') ids /\ last <= last')
    as (H1 & H2 & H3 & _).
  { split_and!; try done. intros i o id Hg Hid. rewrite Forall_forall in H3. apply H3 in Hid.
    apply (proj2 Hok0) in Hg. lia. }
  revert t last ids Hok0 Hr. induction Hops as [|op ops Hop Hops IH]; intros t last ids Hok Hr; simpl in *.
  - simplify_eq. split_and!; [done|constructor|constructor|lia].
  - destruct (table_step (t, last) op) as [[[t1 l1] ids1]|] eqn:Es; [|done].
    destruct (table_run (t1, l1) ops) as [[[t2 l2] ids2]|] eqn:Er; [|done]. simplify_eq.
    edestruct table_step_ids as (Hok1 & Hle & Hids1); [done|done|done|].
    edestruct IH as (Hok2 & Hs2 & Hf2 & Hle2); [done|done|]. rewrite Forall_forall in Hf2.
    destruct Hids1 as [->|[-> Hlt]]; simpl; split_and!; try done; try lia.
    + apply Forall_forall. intros id Hid. apply Hf2 in Hid. lia.
    + constructor; [done|]. apply Forall_forall. intros id Hid. apply Hf2 in Hid. lia.
    + apply Forall_forall. intros id [->|Hid]%elem_of_cons; [lia|]. apply Hf2 in Hid. lia.
Qed.

(** F_SETFL changes the O_APPEND and O_NONBLOCK bits of one description to
    the requested ones and nothing else: not another bit (so never the access
    mode), not another field, not another description. *)
Theorem setfl_changes_two_bits t i flags j :
  match get (set_status_flags t i flags) j, get t j with
  | Some o', Some o =>
      o' = with_flags o (status_flags o') /\
      (j <> i -> o' = o) /\
      (j = i -> forall b, 0 <= b ->
         Z.testbit (status_flags o') b =
         if (b =? 10) || (b =? 11) then Z.testbit flags b else Z.testbit (status_flags o) b) /\
      Z.land (status_flags o') O_ACCMODE = Z.land (status_flags o) O_ACCMODE
  | None, None => True
  | _, _ => False
  end.
Proof.
  unfold set_status_flags. rewrite get_mut_spec.
  destruct (Nat.eqb_spec j i) as [->|Hne].
  2: { destruct (get t j) as [o|]; [|done]. split_and!; try done. by destruct o. }
  destruct (get t i) as [o|]; simpl; [|done].
  assert (forall b, 0 <= b -> Z.testbit (Z.lor (Z.ldiff (status_flags o) SETFL_MODIFIABLE)
      (Z.land flags SETFL_MODIFIABLE)) b =
    if (b =? 10) || (b =? 11) then Z.testbit flags b else Z.testbit (status_flags o) b) as Hb.
  { intros b Hb. rewrite Z.lor_spec, Z.ldiff_spec, Z.land_spec.
    assert (Z.testbit SETFL_MODIFIABLE b = (b =? 10) || (b =? 11)) as ->.
    { change SETFL_MODIFIABLE with (Z.lor (2 ^ 10) (2 ^ 11)).
      rewrite Z.lor_spec, !Z.pow2_bits_eqb by lia. by rewrite (Z.eqb_sym 10), (Z.eqb_sym 11). }
    destruct ((b =? 10) || (b =? 11)); simpl;
      rewrite ?andb_false_r, ?andb_true_r, ?orb_false_r; done. }
  split; [done|]. split; [done|]. split; [intros _; exact Hb|].
  apply Z.bits_inj'. intros b Hb0. rewrite !Z.land_spec, Hb by done.
    destruct (Z.leb_spec 2 b).
    + assert (Z.testbit O_ACCMODE b = false) as ->; [|by rewrite !andb_false_r].
      apply Z.bits_above_log2; [done|]. change (Z.log2 O_ACCMODE) with 1. lia.
    + by replace ((b =? 10) || (b =? 11)) with false by lia.
Qed.

Lemma elem_of_iter_from j o i l :
  (j, o) ∈ iter_from i l <-> (i <= j)%nat /\ l !! (j - i)%nat = Some (Some o).
Proof.
  revert i. induction l as [|[x|] l IH]; intros i; simpl.
  - split; [set_solver|]. intros [_ Hl]. by rewrite lookup_nil in Hl.
  - rewrite elem_of_cons, IH. destruct (Nat.eqb_spec j i) as [->|Hne].
    + rewrite Nat.sub_diag. simpl. split; [intros [?|[? _]]; [simplify_eq; done|lia]|intros [_ ?]; left; congruence].
    + split.
      * intros [?|[Hle Hl]]; [simplify_eq|]. split; [lia|]. by replace (j - i)%nat with (S (j - S i)) by lia.
      * intros [Hle Hl]. right. split; [lia|]. by replace (j - i)%nat with (S (j - S i)) in Hl by lia.
  - rewrite IH. destruct (Nat.eqb_spec j i) as [->|Hne].
    + rewrite Nat.sub_diag. simpl. split; [lia|intros [_ ?]; done].
    + split; intros [Hle Hl]; (split; [lia|]).
      * by replace (j - i)%nat with (S (j - S i)) by lia.
      * by replace (j - i)%nat with (S (j - S i)) in Hl by lia.
Qed.

(** Opening takes the lowest free index, gives the new description its one
    reference, and leaves every other index alone; duplicating and iterating
    see exactly the open descriptions. *)
Theorem create_takes_lowest_free last t ft flags handle p i t' last' :
  create last t ft flags handle p = Some (i, t', last') ->
  get t i = None /\ (forall j, (j < i)%nat -> get t j <> None) /\
  (exists o, get t' i = Some o /\ ref_count o = 1 /\ ofd_id o = last + 1 /\ status_flags o = flags /\
     path o = p /\ offset o = 0) /\
  (forall j, j <> i -> get t' j = get t j) /\
  (forall j o, (j, o) ∈ iter t' <-> get t' j = Some o).
Proof.
  unfold create, allocate_ofd_id. destruct (last + 1 <=? u64_max); [|done].
  pose proof (insert_spec t (mkOfd (last + 1) None ft flags handle 0 1 0 p (-1) 0 0 None)) as Hs.
  destruct (insert _ _) as [k tk]. intros [= <- <- <-]. destruct Hs as (H1 & H2 & H3).
  split_and!; try done.
  - eexists. rewrite H3, Nat.eqb_refl. done.
  - intros j Hj. rewrite H3. by destruct (Nat.eqb_spec j k).
  - intros j o. unfold iter. rewrite elem_of_iter_from, Nat.sub_0_r. unfold get.
    destruct (entries tk !! j) as [slot|]; split; intros Hj; (destruct Hj; congruence) || (split; [lia|congruence]) || done.
Qed.

(** ** Witnesses *)

Lemma in_flight_multiset_witness :
  in_flight_ok [(3, 1); (7, 2)] /\ has_in_flight_ofd [(3, 1); (7, 2)] 7 = true /\
  refs_of (release_in_flight_ofd [(3, 1); (7, 2)] 7).2 7 = 1.
Proof.
  assert (in_flight_ok [(3, 1); (7, 2)]) as Hok.
  { split; repeat constructor; unfold key_lt, u32_max; simpl; lia. }
  split; [exact Hok|]. destruct (in_flight_multiset true [(3, 1); (7, 2)] 7 Hok) as (Hh & _ & Hr).
  split; [exact Hh|]. destruct (release_in_flight_ofd [(3, 1); (7, 2)] 7) as [l refs'].
  destruct Hr as (_ & _ & Hr). exact (Hr 7).
Defined.

Lemma host_handle_last_owner_closes_witness :
  (handle_run ∅ [HFork 5; HFork 5; HClose 5; HClose 5; HClose 5]).1 =
  [(5, false); (5, false); (5, true)].
Proof.
  rewrite (proj1 (host_handle_last_owner_closes ∅ (fun _ => 1)
    [HFork 5; HFork 5; HClose 5; HClose 5; HClose 5] ltac:(intros h; rewrite lookup_empty; unfold u32_max; lia)
    ltac:(simpl; unfold u32_max; lia))).
  reflexivity.
Defined.

Definition sample_ofd (c : Z) : OpenFileDesc :=
  mkOfd 9 None Regular 0 4 0 c 0 [] (-1) 0 0 None.

Definition sample_table_ops : list table_op :=
  [TInc 1; TCreate Regular 0 5 []; TDec 1; TInc 0; TTransfer 20 None Pipe 0 6 0 []; TCreate Socket 2 7 []].

Lemma sample_table_ops_ok : Forall top_ok sample_table_ops.
Proof. repeat constructor; simpl; unfold u64_max; lia. Qed.

Lemma ofd_lifetime_witness :
  exists t' last' ids o', table_run (mkTable [None; Some (sample_ofd 1)], 9) sample_table_ops = Some (t', last', ids) /\
    get t' 1 = Some o' /\ ofd_id o' = 9 /\ ref_count o' = 1.
Proof.
  destruct (table_run (mkTable [None; Some (sample_ofd 1)], 9) sample_table_ops) as [[[t' last'] ids]|] eqn:E.
  2: { exfalso. vm_compute in E. discriminate E. }
  exists t', last', ids.
  destruct (ofd_lifetime (mkTable [None; Some (sample_ofd 1)]) 9 1 (sample_ofd 1) sample_table_ops t' last' ids
    sample_table_ops_ok) as [(o' & Ho) _]; [reflexivity|simpl; unfold u32_max; lia|exact E|].
  exists o'. split; [reflexivity|exact Ho].
Defined.

Lemma ofd_identities_fresh_witness :
  exists t' last', table_run (mkTable [None; Some (sample_ofd 1)], 9) sample_table_ops = Some (t', last', [10; 21]) /\
    ids_ok t' last'.
Proof.
  destruct (table_run (mkTable [None; Some (sample_ofd 1)], 9) sample_table_ops) as [[[t' last'] ids]|] eqn:E.
  2: { exfalso. vm_compute in E. discriminate E. }
  assert (ids = [10; 21]) as Hids by (vm_compute in E; congruence). subst ids.
  exists t', last'. split; [reflexivity|].
  refine (proj1 (ofd_identities_fresh (mkTable [None; Some (sample_ofd 1)]) 9 sample_table_ops t' last' [10; 21]
    sample_table_ops_ok _ E)).
  split; [unfold u64_max; lia|]. intros [|[|i]] o Ho; unfold get in Ho; simpl in Ho; simplify_eq; simpl; lia.
Defined.

Lemma create_takes_lowest_free_witness :
  exists i t' last', create 9 (mkTable [Some (sample_ofd 1); None]) Regular 2 4 [] = Some (i, t', last') /\
    get (mkTable [Some (sample_ofd 1); None]) i = None.
Proof.
  destruct (create 9 (mkTable [Some (sample_ofd 1); None]) Regular 2 4 []) as [[[i t'] last']|] eqn:E.
  2: { exfalso. vm_compute in E. discriminate E. }
  exists i, t', last'. split; [reflexivity|].
  apply (create_takes_lowest_free 9 (mkTable [Some (sample_ofd 1); None]) Regular 2 4 [] i t' last' E).
Defined.
