(* ===== verification/Pipe.v ===== *)
(** * Pipes: buffers, endpoints and FIFOs ([crates/kernel/src/pipe.rs])

    [PipeBuffer] with every operation: the ring buffer, the reference counts of
    its two ends (descriptors installed in processes and descriptors in flight in
    SCM_RIGHTS messages), orderly TCP close, and the named-FIFO state (names, path
    references, reader cohort, hangup, blocked opens).  The table of pipes and
    its garbage collector are in [PipeTable].

    Calls that act outside the buffer are returned as effects, in program order:
    wakeup events pushed to the machine-wide buffer ([EWake]) and queued
    descriptors dropped ([EDrop]).  [usize] positions are natural numbers: they
    are bounded by the capacity.  [u32] counters keep their width ([+=] wraps,
    [saturating_sub] stops at zero).  Memory copies between the ring and a slice
    are [splice].  [debug_assert] is absent from the release profile.

    The theorems: the ring buffer refines a bounded byte queue, on its own and
    over any run of reads and writes; the endpoint counts are the numbers of
    outstanding references of each kind, so a pipe is reclaimable only when
    nothing refers to it; opening a FIFO is a rendezvous. *)

From stdpp Require Import sorting.
From S2P Require Import Prelude Bytes Abi Lock Ofd Wakeup.

Definition DEFAULT_PIPE_CAPACITY : nat := Z.to_nat 65536.

Inductive FifoOpenSide := Reader | Writer.

#[export] Instance FifoOpenSide_eq_dec : EqDecision FifoOpenSide.
Proof. solve_decision. Defined.

Record FifoOpenWaiter := mkWaiter {
  fw_side : FifoOpenSide;
  fw_path : bytes;
  fw_status_flags : Z;
  fw_fd_flags : Z;
  fw_reserved_fd : Z;
  fw_ready : bool;
}.

Definition set_ready (w : FifoOpenWaiter) : FifoOpenWaiter :=
  mkWaiter (fw_side w) (fw_path w) (fw_status_flags w) (fw_fd_flags w) (fw_reserved_fd w) true.

Inductive InFlightPipeRefKind :=
| RefPath
| RefRead (fifo_read_only : bool)
| RefWrite
| RefReadWrite.

#[export] Instance InFlightPipeRefKind_eq_dec : EqDecision InFlightPipeRefKind.
Proof. solve_decision. Defined.

Record InFlightSocket := mkInFlightSocket {
  s_domain : Z;
  s_sock_type : Z;
  s_protocol : Z;
  s_state : Z;
  s_send_buf_idx : option nat;
  s_recv_buf_idx : option nat;
  s_global_pipes : bool;
  s_shut_rd : bool;
  s_shut_wr : bool;
  s_bind_addr : bytes;
  s_bind_port : Z;
  s_peer_addr : bytes;
  s_peer_port : Z;
}.

Record InFlightFd := mkInFlight {
  fd_ofd_id : Z;
  fd_file_id : option FileId;
  fd_file_type : FileType;
  fd_status_flags : Z;
  fd_host_handle : Z;
  fd_offset : Z;
  fd_path : bytes;
  fd_pipe_ref_kind : option InFlightPipeRefKind;
  fd_socket : option InFlightSocket;
  fd_owns_reference : bool;
}.

Definition in_flight_new (id : Z) (fid : option FileId) (ft : FileType) (flags handle off : Z)
    (p : bytes) : InFlightFd :=
  mkInFlight id fid ft flags handle off p None None false.

Record WasmStat := mkStat {
  st_dev : Z; st_ino : Z; st_mode : Z; st_nlink : Z; st_uid : Z; st_gid : Z; st_size : Z;
  st_atime_sec : Z; st_atime_nsec : Z; st_mtime_sec : Z; st_mtime_nsec : Z;
  st_ctime_sec : Z; st_ctime_nsec : Z; st_pad : Z;
}.

Definition set_nlink (v : Z) (s : WasmStat) : WasmStat :=
  mkStat (st_dev s) (st_ino s) (st_mode s) v (st_uid s) (st_gid s) (st_size s) (st_atime_sec s)
    (st_atime_nsec s) (st_mtime_sec s) (st_mtime_nsec s) (st_ctime_sec s) (st_ctime_nsec s) (st_pad s).

Definition set_ctime (sec nsec : Z) (s : WasmStat) : WasmStat :=
  mkStat (st_dev s) (st_ino s) (st_mode s) (st_nlink s) (st_uid s) (st_gid s) (st_size s) (st_atime_sec s)
    (st_atime_nsec s) (st_mtime_sec s) (st_mtime_nsec s) sec nsec (st_pad s).

(** Effects on the rest of the kernel. *)
Inductive effect :=
| EWake (idx wake : Z)
| EDrop (fds : list InFlightFd).

(** ** The buffer *)

Record PipeBuffer := mkPipe {
  p_buf : bytes;
  p_head : nat;
  p_tail : nat;
  p_blen : nat;
  p_read_count : Z;
  p_write_count : Z;
  p_in_flight_read_count : Z;
  p_in_flight_write_count : Z;
  p_orphaned_read : bool;
  p_pipe_idx : Z;
  p_is_fifo : bool;
  p_fifo_read_only_count : Z;
  p_fifo_writer_ever_opened : bool;
  p_fifo_read_hangup : bool;
  p_fifo_names : Z;
  p_fifo_path_refs : Z;
  p_fifo_metadata : option WasmStat;
  p_fifo_open_waiters : gmap Z FifoOpenWaiter;
  p_ancillary_fds : list (list InFlightFd);
}.

(** Field updates. *)

Definition set_buf (v : bytes) (p : PipeBuffer) : PipeBuffer :=
    mkPipe v (p_head p) (p_tail p) (p_blen p) (p_read_count p) (p_write_count p)
    (p_in_flight_read_count p) (p_in_flight_write_count p) (p_orphaned_read p) (p_pipe_idx p)
    (p_is_fifo p) (p_fifo_read_only_count p) (p_fifo_writer_ever_opened p) (p_fifo_read_hangup p)
    (p_fifo_names p) (p_fifo_path_refs p) (p_fifo_metadata p) (p_fifo_open_waiters p)
    (p_ancillary_fds p).

Definition set_head (v : nat) (p : PipeBuffer) : PipeBuffer :=
    mkPipe (p_buf p) v (p_tail p) (p_blen p) (p_read_count p) (p_write_count p)
    (p_in_flight_read_count p) (p_in_flight_write_count p) (p_orphaned_read p) (p_pipe_idx p)
    (p_is_fifo p) (p_fifo_read_only_count p) (p_fifo_writer_ever_opened p) (p_fifo_read_hangup p)
    (p_fifo_names p) (p_fifo_path_refs p) (p_fifo_metadata p) (p_fifo_open_waiters p)
    (p_ancillary_fds p).

Definition set_tail (v : nat) (p : PipeBuffer) : PipeBuffer :=
    mkPipe (p_buf p) (p_head p) v (p_blen p) (p_read_count p) (p_write_count p)
    (p_in_flight_read_count p) (p_in_flight_write_count p) (p_orphaned_read p) (p_pipe_idx p)
    (p_is_fifo p) (p_fifo_read_only_count p) (p_fifo_writer_ever_opened p) (p_fifo_read_hangup p)
    (p_fifo_names p) (p_fifo_path_refs p) (p_fifo_metadata p) (p_fifo_open_waiters p)
    (p_ancillary_fds p).

Definition set_blen (v : nat) (p : PipeBuffer) : PipeBuffer :=
    mkPipe (p_buf p) (p_head p) (p_tail p) v (p_read_count p) (p_write_count p)
    (p_in_flight_read_count p) (p_in_flight_write_count p) (p_orphaned_read p) (p_pipe_idx p)
    (p_is_fifo p) (p_fifo_read_only_count p) (p_fifo_writer_ever_opened p) (p_fifo_read_hangup p)
    (p_fifo_names p) (p_fifo_path_refs p) (p_fifo_metadata p) (p_fifo_open_waiters p)
    (p_ancillary_fds p).

Definition set_read_count (v : Z) (p : PipeBuffer) : PipeBuffer :=
    mkPipe (p_buf p) (p_head p) (p_tail p) (p_blen p) v (p_write_count p) (p_in_flight_read_count
    p) (p_in_flight_write_count p) (p_orphaned_read p) (p_pipe_idx p) (p_is_fifo p)
    (p_fifo_read_only_count p) (p_fifo_writer_ever_opened p) (p_fifo_read_hangup p) (p_fifo_names
    p) (p_fifo_path_refs p) (p_fifo_metadata p) (p_fifo_open_waiters p) (p_ancillary_fds p).

Definition set_write_count (v : Z) (p : PipeBuffer) : PipeBuffer :=
    mkPipe (p_buf p) (p_head p) (p_tail p) (p_blen p) (p_read_count p) v (p_in_flight_read_count p)
    (p_in_flight_write_count p) (p_orphaned_read p) (p_pipe_idx p) (p_is_fifo p)
    (p_fifo_read_only_count p) (p_fifo_writer_ever_opened p) (p_fifo_read_hangup p) (p_fifo_names
    p) (p_fifo_path_refs p) (p_fifo_metadata p) (p_fifo_open_waiters p) (p_ancillary_fds p).

Definition set_in_flight_read_count (v : Z) (p : PipeBuffer) : PipeBuffer :=
    mkPipe (p_buf p) (p_head p) (p_tail p) (p_blen p) (p_read_count p) (p_write_count p) v
    (p_in_flight_write_count p) (p_orphaned_read p) (p_pipe_idx p) (p_is_fifo p)
    (p_fifo_read_only_count p) (p_fifo_writer_ever_opened p) (p_fifo_read_hangup p) (p_fifo_names
    p) (p_fifo_path_refs p) (p_fifo_metadata p) (p_fifo_open_waiters p) (p_ancillary_fds p).

Definition set_in_flight_write_count (v : Z) (p : PipeBuffer) : PipeBuffer :=
    mkPipe (p_buf p) (p_head p) (p_tail p) (p_blen p) (p_read_count p) (p_write_count p)
    (p_in_flight_read_count p) v (p_orphaned_read p) (p_pipe_idx p) (p_is_fifo p)
    (p_fifo_read_only_count p) (p_fifo_writer_ever_opened p) (p_fifo_read_hangup p) (p_fifo_names
    p) (p_fifo_path_refs p) (p_fifo_metadata p) (p_fifo_open_waiters p) (p_ancillary_fds p).

Definition set_orphaned_read (v : bool) (p : PipeBuffer) : PipeBuffer :=
    mkPipe (p_buf p) (p_head p) (p_tail p) (p_blen p) (p_read_count p) (p_write_count p)
    (p_in_flight_read_count p) (p_in_flight_write_count p) v (p_pipe_idx p) (p_is_fifo p)
    (p_fifo_read_only_count p) (p_fifo_writer_ever_opened p) (p_fifo_read_hangup p) (p_fifo_names
    p) (p_fifo_path_refs p) (p_fifo_metadata p) (p_fifo_open_waiters p) (p_ancillary_fds p).

Definition set_pipe_idx (v : Z) (p : PipeBuffer) : PipeBuffer :=
    mkPipe (p_buf p) (p_head p) (p_tail p) (p_blen p) (p_read_count p) (p_write_count p)
    (p_in_flight_read_count p) (p_in_flight_write_count p) (p_orphaned_read p) v (p_is_fifo p)
    (p_fifo_read_only_count p) (p_fifo_writer_ever_opened p) (p_fifo_read_hangup p) (p_fifo_names
    p) (p_fifo_path_refs p) (p_fifo_metadata p) (p_fifo_open_waiters p) (p_ancillary_fds p).

Definition set_is_fifo (v : bool) (p : PipeBuffer) : PipeBuffer :=
    mkPipe (p_buf p) (p_head p) (p_tail p) (p_blen p) (p_read_count p) (p_write_count p)
    (p_in_flight_read_count p) (p_in_flight_write_count p) (p_orphaned_read p) (p_pipe_idx p) v
    (p_fifo_read_only_count p) (p_fifo_writer_ever_opened p) (p_fifo_read_hangup p) (p_fifo_names
    p) (p_fifo_path_refs p) (p_fifo_metadata p) (p_fifo_open_waiters p) (p_ancillary_fds p).

Definition set_fifo_read_only_count (v : Z) (p : PipeBuffer) : PipeBuffer :=
    mkPipe (p_buf p) (p_head p) (p_tail p) (p_blen p) (p_read_count p) (p_write_count p)
    (p_in_flight_read_count p) (p_in_flight_write_count p) (p_orphaned_read p) (p_pipe_idx p)
    (p_is_fifo p) v (p_fifo_writer_ever_opened p) (p_fifo_read_hangup p) (p_fifo_names p)
    (p_fifo_path_refs p) (p_fifo_metadata p) (p_fifo_open_waiters p) (p_ancillary_fds p).

Definition set_fifo_writer_ever_opened (v : bool) (p : PipeBuffer) : PipeBuffer :=
    mkPipe (p_buf p) (p_head p) (p_tail p) (p_blen p) (p_read_count p) (p_write_count p)
    (p_in_flight_read_count p) (p_in_flight_write_count p) (p_orphaned_read p) (p_pipe_idx p)
    (p_is_fifo p) (p_fifo_read_only_count p) v (p_fifo_read_hangup p) (p_fifo_names p)
    (p_fifo_path_refs p) (p_fifo_metadata p) (p_fifo_open_waiters p) (p_ancillary_fds p).

Definition set_fifo_read_hangup (v : bool) (p : PipeBuffer) : PipeBuffer :=
    mkPipe (p_buf p) (p_head p) (p_tail p) (p_blen p) (p_read_count p) (p_write_count p)
    (p_in_flight_read_count p) (p_in_flight_write_count p) (p_orphaned_read p) (p_pipe_idx p)
    (p_is_fifo p) (p_fifo_read_only_count p) (p_fifo_writer_ever_opened p) v (p_fifo_names p)
    (p_fifo_path_refs p) (p_fifo_metadata p) (p_fifo_open_waiters p) (p_ancillary_fds p).

Definition set_fifo_names (v : Z) (p : PipeBuffer) : PipeBuffer :=
    mkPipe (p_buf p) (p_head p) (p_tail p) (p_blen p) (p_read_count p) (p_write_count p)
    (p_in_flight_read_count p) (p_in_flight_write_count p) (p_orphaned_read p) (p_pipe_idx p)
    (p_is_fifo p) (p_fifo_read_only_count p) (p_fifo_writer_ever_opened p) (p_fifo_read_hangup p) v
    (p_fifo_path_refs p) (p_fifo_metadata p) (p_fifo_open_waiters p) (p_ancillary_fds p).

Definition set_fifo_path_refs (v : Z) (p : PipeBuffer) : PipeBuffer :=
    mkPipe (p_buf p) (p_head p) (p_tail p) (p_blen p) (p_read_count p) (p_write_count p)
    (p_in_flight_read_count p) (p_in_flight_write_count p) (p_orphaned_read p) (p_pipe_idx p)
    (p_is_fifo p) (p_fifo_read_only_count p) (p_fifo_writer_ever_opened p) (p_fifo_read_hangup p)
    (p_fifo_names p) v (p_fifo_metadata p) (p_fifo_open_waiters p) (p_ancillary_fds p).

Definition set_fifo_metadata (v : option WasmStat) (p : PipeBuffer) : PipeBuffer :=
    mkPipe (p_buf p) (p_head p) (p_tail p) (p_blen p) (p_read_count p) (p_write_count p)
    (p_in_flight_read_count p) (p_in_flight_write_count p) (p_orphaned_read p) (p_pipe_idx p)
    (p_is_fifo p) (p_fifo_read_only_count p) (p_fifo_writer_ever_opened p) (p_fifo_read_hangup p)
    (p_fifo_names p) (p_fifo_path_refs p) v (p_fifo_open_waiters p) (p_ancillary_fds p).

Definition set_fifo_open_waiters (v : gmap Z FifoOpenWaiter) (p : PipeBuffer) : PipeBuffer :=
    mkPipe (p_buf p) (p_head p) (p_tail p) (p_blen p) (p_read_count p) (p_write_count p)
    (p_in_flight_read_count p) (p_in_flight_write_count p) (p_orphaned_read p) (p_pipe_idx p)
    (p_is_fifo p) (p_fifo_read_only_count p) (p_fifo_writer_ever_opened p) (p_fifo_read_hangup p)
    (p_fifo_names p) (p_fifo_path_refs p) (p_fifo_metadata p) v (p_ancillary_fds p).

Definition set_ancillary_fds (v : list (list InFlightFd)) (p : PipeBuffer) : PipeBuffer :=
    mkPipe (p_buf p) (p_head p) (p_tail p) (p_blen p) (p_read_count p) (p_write_count p)
    (p_in_flight_read_count p) (p_in_flight_write_count p) (p_orphaned_read p) (p_pipe_idx p)
    (p_is_fifo p) (p_fifo_read_only_count p) (p_fifo_writer_ever_opened p) (p_fifo_read_hangup p)
    (p_fifo_names p) (p_fifo_path_refs p) (p_fifo_metadata p) (p_fifo_open_waiters p) v.

Definition pipe_new (capacity : nat) : PipeBuffer :=
  mkPipe (replicate capacity 0) 0 0 0 1 1 0 0 false 0 false 0 false false 0 0 None ∅ [].

Definition new_fifo (capacity : nat) (metadata : WasmStat) : PipeBuffer :=
  set_fifo_metadata (Some metadata) (set_fifo_names 1 (set_is_fifo true
    (set_write_count 0 (set_read_count 0 (pipe_new capacity))))).

(** An operation on a buffer: the new buffer and the effects, in order. *)
Abbreviation pipe_op := (PipeBuffer -> PipeBuffer * list effect).

Definition andthen (f g : pipe_op) : pipe_op := fun p =>
  let '(p1, e1) := f p in let '(p2, e2) := g p1 in (p2, e1 ++ e2).

(** An update without effects. *)
Definition pure_op (f : PipeBuffer -> PipeBuffer) : pipe_op := fun p => (f p, []).

Notation "f ▷ g" := (andthen f g) (at level 60, right associativity) : kandelo_scope.

(** [crate::wakeup::push(self.pipe_idx, ..)]. *)
Definition wake_op (wake : Z) : pipe_op := fun p => (p, [EWake (p_pipe_idx p) wake]).

(** *** FIFO names, path references and metadata *)

Definition has_fifo_names (p : PipeBuffer) : bool := 0 <? p_fifo_names p.

Definition add_fifo_name (p : PipeBuffer) : PipeBuffer :=
  set_fifo_metadata ((fun st => set_nlink (u32_saturating_add (st_nlink st) 1) st) <$> p_fifo_metadata p)
    (set_fifo_names (u32_saturating_add (p_fifo_names p) 1) p).

Definition remove_fifo_name (p : PipeBuffer) : PipeBuffer :=
  set_fifo_metadata ((fun st => set_nlink (u32_saturating_sub (st_nlink st) 1) st) <$> p_fifo_metadata p)
    (set_fifo_names (u32_saturating_sub (p_fifo_names p) 1) p).

Definition remove_fifo_name_at (sec nsec : Z) (p : PipeBuffer) : PipeBuffer :=
  let p := remove_fifo_name p in
  set_fifo_metadata (set_ctime sec nsec <$> p_fifo_metadata p) p.

Definition update_fifo_metadata (metadata : WasmStat) (p : PipeBuffer) : PipeBuffer :=
  set_fifo_metadata (Some metadata) p.

Definition fifo_name_count (p : PipeBuffer) : Z := p_fifo_names p.

Definition add_fifo_path_ref (p : PipeBuffer) : PipeBuffer :=
  set_fifo_path_refs (u32_saturating_add (p_fifo_path_refs p) 1) p.

Definition close_fifo_path_ref (p : PipeBuffer) : PipeBuffer :=
  set_fifo_path_refs (u32_saturating_sub (p_fifo_path_refs p) 1) p.

Definition reference_kind (p : PipeBuffer) (status_flags : Z) : option InFlightPipeRefKind :=
  if negb (Z.land status_flags O_PATH =? 0) then (if p_is_fifo p then Some RefPath else None)
  else
    let mode := Z.land status_flags O_ACCMODE in
    if mode =? O_RDONLY then Some (RefRead (p_is_fifo p))
    else if mode =? O_WRONLY then Some RefWrite
    else if mode =? O_RDWR then Some RefReadWrite
    else None.

(** *** Endpoints *)

Definition add_reader : pipe_op :=
  pure_op (fun p => set_read_count (u32_wrap (p_read_count p + 1)) (set_orphaned_read false p))
  ▷ wake_op WAKE_WRITABLE.

Definition add_writer : pipe_op :=
  pure_op (fun p => set_write_count (u32_wrap (p_write_count p + 1)) p) ▷ wake_op WAKE_READABLE.

(** [discard_unreceivable_ancillary]: the queued batches are dropped. *)
Definition discard_unreceivable_ancillary : pipe_op := fun p =>
  (set_ancillary_fds [] p, map EDrop (p_ancillary_fds p)).

Definition reset_ring (p : PipeBuffer) : PipeBuffer := set_blen 0 (set_tail 0 (set_head 0 p)).

Definition close_read_end : pipe_op :=
  (fun p =>
     let p := set_read_count (u32_saturating_sub (p_read_count p) 1) p in
     if p_read_count p =? 0
     then discard_unreceivable_ancillary (reset_ring (set_orphaned_read false p))
     else (p, []))
  ▷ wake_op WAKE_WRITABLE.

Definition close_read_end_orderly : pipe_op :=
  (fun p =>
     let p := set_read_count (u32_saturating_sub (p_read_count p) 1) p in
     if p_read_count p =? 0
     then discard_unreceivable_ancillary (set_orphaned_read (0 <? p_write_count p) (reset_ring p))
     else (p, []))
  ▷ wake_op WAKE_WRITABLE.

Definition is_ready_reader (w : FifoOpenWaiter) : bool := bool_decide (fw_side w = Reader) && fw_ready w.

Definition has_ready_fifo_reader_waiter (p : PipeBuffer) : bool :=
  existsb (fun kw => is_ready_reader kw.2) (map_to_list (p_fifo_open_waiters p)).

Definition close_write_end : pipe_op :=
  pure_op (fun p =>
    let p := set_write_count (u32_saturating_sub (p_write_count p) 1) p in
    if p_write_count p =? 0 then
      let p := set_orphaned_read false p in
      if p_is_fifo p && p_fifo_writer_ever_opened p && (0 <? p_fifo_read_only_count p)
      then set_fifo_read_hangup true p
      else if p_is_fifo p && negb (has_ready_fifo_reader_waiter p)
      then set_fifo_read_hangup false (set_fifo_writer_ever_opened false p)
      else p
    else p)
  ▷ wake_op WAKE_READABLE.

Definition inherit_fifo_read_only (p : PipeBuffer) : PipeBuffer :=
  set_fifo_read_only_count (u32_saturating_add (p_fifo_read_only_count p) 1) p.

(** The end of a reader cohort, shared by [close_fifo_read_only] and
    [cancel_fifo_open]. *)
Definition end_reader_cohort (p : PipeBuffer) : PipeBuffer :=
  if (p_fifo_read_only_count p =? 0) && negb (has_ready_fifo_reader_waiter p) then
    let p := set_fifo_read_hangup false p in
    if p_write_count p =? 0 then set_fifo_writer_ever_opened false p else p
  else p.

Definition close_fifo_read_only : pipe_op :=
  pure_op (fun p => set_fifo_read_only_count (u32_saturating_sub (p_fifo_read_only_count p) 1) p)
  ▷ close_read_end ▷ pure_op end_reader_cohort.

Definition add_reference (kind : InFlightPipeRefKind) : pipe_op :=
  match kind with
  | RefPath => pure_op add_fifo_path_ref
  | RefRead ro => if ro then add_reader ▷ pure_op inherit_fifo_read_only else add_reader
  | RefWrite => add_writer
  | RefReadWrite => add_reader ▷ add_writer
  end.

Definition close_reference (kind : InFlightPipeRefKind) : pipe_op :=
  match kind with
  | RefPath => pure_op close_fifo_path_ref
  | RefRead true => close_fifo_read_only
  | RefRead false => close_read_end
  | RefWrite => close_write_end
  | RefReadWrite => close_read_end ▷ close_write_end
  end.

Definition bump_in_flight_read (p : PipeBuffer) : PipeBuffer :=
  set_in_flight_read_count (u32_wrap (p_in_flight_read_count p + 1)) p.

Definition bump_in_flight_write (p : PipeBuffer) : PipeBuffer :=
  set_in_flight_write_count (u32_wrap (p_in_flight_write_count p + 1)) p.

Definition retain_in_flight_reference (kind : InFlightPipeRefKind) : pipe_op :=
  add_reference kind ▷
  pure_op (match kind with
           | RefPath => fun p => p
           | RefRead _ => bump_in_flight_read
           | RefWrite => bump_in_flight_write
           | RefReadWrite => fun p => bump_in_flight_write (bump_in_flight_read p)
           end).

Definition retain_in_flight_reader : pipe_op := add_reader ▷ pure_op bump_in_flight_read.
Definition retain_in_flight_writer : pipe_op := add_writer ▷ pure_op bump_in_flight_write.

Definition adopt_in_flight_reader (p : PipeBuffer) : PipeBuffer :=
  set_in_flight_read_count (u32_saturating_sub (p_in_flight_read_count p) 1) p.

Definition adopt_in_flight_writer (p : PipeBuffer) : PipeBuffer :=
  set_in_flight_write_count (u32_saturating_sub (p_in_flight_write_count p) 1) p.

Definition adopt_in_flight_reference (kind : InFlightPipeRefKind) (p : PipeBuffer) : PipeBuffer :=
  match kind with
  | RefPath => p
  | RefRead _ => adopt_in_flight_reader p
  | RefWrite => adopt_in_flight_writer p
  | RefReadWrite => adopt_in_flight_writer (adopt_in_flight_reader p)
  end.

Definition release_in_flight_reference (kind : InFlightPipeRefKind) : pipe_op :=
  pure_op (adopt_in_flight_reference kind) ▷ close_reference kind.

Definition release_in_flight_reader : pipe_op := pure_op adopt_in_flight_reader ▷ close_read_end.
Definition release_in_flight_reader_orderly : pipe_op :=
  pure_op adopt_in_flight_reader ▷ close_read_end_orderly.
Definition release_in_flight_writer : pipe_op := pure_op adopt_in_flight_writer ▷ close_write_end.

Definition has_external_reader (p : PipeBuffer) : bool := p_in_flight_read_count p <? p_read_count p.

Definition is_read_end_open (p : PipeBuffer) : bool := (0 <? p_read_count p) || p_orphaned_read p.
Definition has_readers (p : PipeBuffer) : bool := 0 <? p_read_count p.
Definition is_write_end_open (p : PipeBuffer) : bool := 0 <? p_write_count p.
Definition read_end_has_eof (p : PipeBuffer) : bool := negb (is_write_end_open p).
Definition read_end_has_hangup (p : PipeBuffer) : bool :=
  if p_is_fifo p then p_fifo_read_hangup p else negb (is_write_end_open p).

Definition is_fully_closed (p : PipeBuffer) : bool :=
  (p_read_count p =? 0) && (p_write_count p =? 0) && negb (p_orphaned_read p)
  && (negb (p_is_fifo p) || ((p_fifo_names p =? 0) && (p_fifo_path_refs p =? 0))).

(** *** Blocking FIFO opens *)

Definition add_fifo_endpoint_ref (side : FifoOpenSide) : pipe_op :=
  match side with Reader => add_reader | Writer => add_writer end.

Definition reserve_fifo_open (owner : Z) (side : FifoOpenSide) (path : bytes)
    (status_flags fd_flags reserved_fd : Z) (p : PipeBuffer) : bool * (PipeBuffer * list effect) :=
  match p_fifo_open_waiters p !! owner with
  | Some _ => (false, (p, []))
  | None =>
      let w := mkWaiter side path status_flags fd_flags reserved_fd false in
      (true, add_fifo_endpoint_ref side (set_fifo_open_waiters (<[owner := w]> (p_fifo_open_waiters p)) p))
  end.

(** [for waiter in values_mut() { if waiter.side == side { waiter.ready = true } }]. *)
Definition ready_side (side : FifoOpenSide) (p : PipeBuffer) : PipeBuffer :=
  set_fifo_open_waiters
    ((fun w => if bool_decide (fw_side w = side) then set_ready w else w) <$> p_fifo_open_waiters p) p.

Definition publish_fifo_open (side : FifoOpenSide) (p : PipeBuffer) : PipeBuffer :=
  match side with
  | Reader =>
      let p := set_fifo_read_only_count (u32_saturating_add (p_fifo_read_only_count p) 1) p in
      let p :=
        if 0 <? p_write_count p then set_fifo_read_hangup false (set_fifo_writer_ever_opened true p)
        else if p_fifo_writer_ever_opened p then set_fifo_read_hangup true p
        else p in
      ready_side Writer p
  | Writer => ready_side Reader (set_fifo_read_hangup false (set_fifo_writer_ever_opened true p))
  end.

Definition publish_fifo_read_write_open (p : PipeBuffer) : PipeBuffer :=
  set_fifo_open_waiters (set_ready <$> p_fifo_open_waiters p)
    (set_fifo_read_hangup false (set_fifo_writer_ever_opened true p)).

Definition take_ready_fifo_open (owner : Z) (p : PipeBuffer) : option FifoOpenWaiter * PipeBuffer :=
  match p_fifo_open_waiters p !! owner with
  | Some w =>
      if fw_ready w then (Some w, set_fifo_open_waiters (delete owner (p_fifo_open_waiters p)) p)
      else (None, p)
  | None => (None, p)
  end.

Definition has_fifo_open_waiter (owner : Z) (p : PipeBuffer) : bool :=
  match p_fifo_open_waiters p !! owner with Some _ => true | None => false end.

Definition cancel_fifo_open (owner : Z) (p : PipeBuffer)
    : option FifoOpenWaiter * (PipeBuffer * list effect) :=
  match p_fifo_open_waiters p !! owner with
  | None => (None, (p, []))
  | Some w =>
      let p := set_fifo_open_waiters (delete owner (p_fifo_open_waiters p)) p in
      (Some w,
       match fw_side w with
       | Reader => (close_read_end ▷ pure_op end_reader_cohort) p
       | Writer => close_write_end p
       end)
  end.

(** The keys of a [BTreeMap], in order. *)
Definition sorted_keys (m : gmap Z FifoOpenWaiter) : list Z :=
  merge_sort Z.le (map_to_list m).*1.

Fixpoint cancel_owners (owners : list Z) (p : PipeBuffer)
    : list FifoOpenWaiter * (PipeBuffer * list effect) :=
  match owners with
  | [] => ([], (p, []))
  | owner :: owners' =>
      let '(w, (p1, e1)) := cancel_fifo_open owner p in
      let '(ws, (p2, e2)) := cancel_owners owners' p1 in
      (match w with Some w => w :: ws | None => ws end, (p2, e1 ++ e2))
  end.

Definition cancel_fifo_opens_for_process (pid : Z) (p : PipeBuffer)
    : list FifoOpenWaiter * (PipeBuffer * list effect) :=
  cancel_owners
    (List.filter (fun owner => as_u32 (Z.shiftr owner 32) =? pid) (sorted_keys (p_fifo_open_waiters p))) p.

(** *** The ring *)

Definition capacity (p : PipeBuffer) : nat := length (p_buf p).
Definition available (p : PipeBuffer) : nat := p_blen p.
Definition free_space (p : PipeBuffer) : nat := capacity p - p_blen p.
Definition is_empty (p : PipeBuffer) : bool := (p_blen p =? 0)%nat.

Definition write (data : bytes) (p : PipeBuffer) : nat * (PipeBuffer * list effect) :=
  if p_read_count p =? 0 then ((if p_orphaned_read p then length data else 0)%nat, (p, []))
  else
    let cap := capacity p in
    let n := Nat.min (length data) (free_space p) in
    if (n =? 0)%nat then (0%nat, (p, []))
    else
      let first := (cap - p_tail p)%nat in
      let b :=
        if (n <=? first)%nat then splice (p_tail p) (take n data) (p_buf p)
        else splice 0 (take (n - first) (drop first data))
               (splice (p_tail p) (take first data) (p_buf p)) in
      let p' := set_blen (p_blen p + n) (set_tail ((p_tail p + n) mod cap) (set_buf b p)) in
      (n, wake_op WAKE_READABLE p').

(** The copy out of the ring that [peek] and [read] share. *)
Definition copy_out (p : PipeBuffer) (n : nat) (out : bytes) : bytes :=
  let first := (capacity p - p_head p)%nat in
  if (n <=? first)%nat then splice 0 (take n (drop (p_head p) (p_buf p))) out
  else splice first (take (n - first) (p_buf p))
         (splice 0 (take first (drop (p_head p) (p_buf p))) out).

Definition peek (out : bytes) (p : PipeBuffer) : nat * bytes :=
  let n := Nat.min (length out) (p_blen p) in
  if (n =? 0)%nat then (0%nat, out) else (n, copy_out p n out).

Definition read (out : bytes) (p : PipeBuffer) : nat * bytes * (PipeBuffer * list effect) :=
  let n := Nat.min (length out) (p_blen p) in
  if (n =? 0)%nat then (0%nat, out, (p, []))
  else
    let p' := set_blen (p_blen p - n) (set_head ((p_head p + n) mod capacity p) p) in
    (n, copy_out p n out, wake_op WAKE_WRITABLE p').

(** *** Queued descriptors *)

Definition push_ancillary (fds : list InFlightFd) (p : PipeBuffer) : PipeBuffer :=
  match fds with [] => p | _ => set_ancillary_fds (vec_push (p_ancillary_fds p) fds) p end.

Definition pop_ancillary (p : PipeBuffer) : option (list InFlightFd) * PipeBuffer :=
  match p_ancillary_fds p with
  | [] => (None, p)
  | fds :: rest => (Some fds, set_ancillary_fds rest p)
  end.

Definition has_ancillary (p : PipeBuffer) : bool :=
  match p_ancillary_fds p with [] => false | _ => true end.

(** ** The ring buffer refines a byte queue *)

(** The bytes waiting to be read, oldest first. *)
Definition contents (p : PipeBuffer) : bytes :=
  take (p_blen p) (drop (p_head p) (p_buf p) ++ take (p_head p) (p_buf p)).

Record ring_ok (p : PipeBuffer) : Prop := {
  rg_len : (p_blen p <= capacity p)%nat;
  rg_zero : capacity p = 0%nat -> p_head p = 0%nat /\ p_tail p = 0%nat;
  rg_head : capacity p <> 0%nat -> (p_head p < capacity p)%nat;
  rg_tail : capacity p <> 0%nat -> p_tail p = ((p_head p + p_blen p) mod capacity p)%nat;
}.

Lemma mod_wrap a k cap :
  (a < cap)%nat -> (k <= cap)%nat ->
  ((a + k) mod cap = if a + k <? cap then a + k else a + k - cap)%nat.
Proof.
  intros Ha Hk. destruct (Nat.ltb_spec (a + k) cap); [by apply Nat.mod_small|].
  replace (a + k)%nat with ((a + k - cap) + 1 * cap)%nat at 1 by lia.
  rewrite Nat.Div0.mod_add. apply Nat.mod_small. lia.
Qed.

Lemma length_contents p : ring_ok p -> length (contents p) = p_blen p.
Proof.
  intros [Hl Hz Hh _]. unfold contents, capacity in *.
  rewrite length_take, length_app, length_drop, length_take.
  destruct (decide (length (p_buf p) = 0%nat)) as [E|E]; [destruct (Hz E)|apply Hh in E]; lia.
Qed.

Lemma contents_lookup p i :
  ring_ok p -> (i < p_blen p)%nat -> contents p !! i = p_buf p !! ((p_head p + i) mod capacity p)%nat.
Proof.
  intros [Hl Hz Hh _] Hi. unfold contents, capacity in *. rewrite lookup_take_lt by done.
  assert (p_head p < length (p_buf p))%nat by (apply Hh; lia).
  rewrite mod_wrap by lia. destruct (Nat.ltb_spec (p_head p + i) (length (p_buf p))).
  - by rewrite lookup_app_l, lookup_drop by (rewrite length_drop; lia).
  - rewrite lookup_app_r, length_drop by (rewrite length_drop; lia).
    rewrite lookup_take_lt by lia. f_equal. lia.
Qed.

(** The ring after [n] bytes were stored at the tail. *)
Definition store (data : bytes) (p : PipeBuffer) (n : nat) : bytes :=
  let first := (capacity p - p_tail p)%nat in
  if (n <=? first)%nat then splice (p_tail p) (take n data) (p_buf p)
  else splice 0 (take (n - first) (drop first data)) (splice (p_tail p) (take first data) (p_buf p)).

Lemma store_lookup data p n k :
  (n <= length data)%nat -> (n <= capacity p)%nat -> (p_tail p < capacity p)%nat -> (k < capacity p)%nat ->
  length (store data p n) = capacity p /\
  store data p n !! ((p_tail p + k) mod capacity p)%nat =
  if (k <? n)%nat then data !! k else p_buf p !! ((p_tail p + k) mod capacity p)%nat.
Proof.
  intros Hd Hn Ht Hk. unfold store, capacity in *. rewrite mod_wrap by lia.
  destruct (Nat.leb_spec n (length (p_buf p) - p_tail p)) as [Hf|Hf].
  - assert (length (take n data) = n) as El by (rewrite length_take; lia).
    rewrite length_splice, splice_lookup, El by lia. split; [done|].
    destruct (Nat.ltb_spec (p_tail p + k) (length (p_buf p))), (Nat.leb_spec (p_tail p) (p_tail p + k)),
      (Nat.ltb_spec k n); try lia;
      repeat (case_cmp; simpl; try lia); try done; rewrite lookup_take_lt by lia; f_equal; lia.
  - set (first := (length (p_buf p) - p_tail p)%nat) in *.
    assert (length (take first data) = first) as E1 by (rewrite length_take; lia).
    assert (length (take (n - first) (drop first data)) = (n - first)%nat) as E2
      by (rewrite length_take, length_drop; lia).
    assert (length (splice (p_tail p) (take first data) (p_buf p)) = length (p_buf p)) as E3
      by (apply length_splice; lia).
    rewrite length_splice, !splice_lookup, E1, E2 by lia. split; [done|].
    destruct (Nat.ltb_spec (p_tail p + k) (length (p_buf p))) as [Hw|Hw].
    + rewrite andb_comm. destruct (Nat.ltb_spec (p_tail p + k) (0 + (n - first))); [lia|]. simpl.
      destruct (Nat.leb_spec (p_tail p) (p_tail p + k)); [|lia].
      destruct (Nat.ltb_spec (p_tail p + k) (p_tail p + first)); [|lia]. simpl.
      destruct (Nat.ltb_spec k n); [|lia]. rewrite lookup_take_lt by lia. f_equal. lia.
    + simpl. destruct (Nat.ltb_spec (p_tail p + k - length (p_buf p)) (n - first)), (Nat.ltb_spec k n); try lia.
      * rewrite lookup_take_lt, lookup_drop by lia. f_equal. lia.
      * destruct (Nat.leb_spec (p_tail p) (p_tail p + k - length (p_buf p))); simpl; [lia|done].
Qed.

Lemma write_unfold data p :
  p_read_count p <> 0 ->
  let n := Nat.min (length data) (free_space p) in
  write data p =
  if (n =? 0)%nat then (0%nat, (p, []))
  else (n, wake_op WAKE_READABLE
             (set_blen (p_blen p + n) (set_tail ((p_tail p + n) mod capacity p) (set_buf (store data p n) p)))).
Proof. intros Hr n. unfold write. by destruct (Z.eqb_spec (p_read_count p) 0). Qed.

Lemma write_ring data p :
  ring_ok p -> p_read_count p <> 0 ->
  let '(n, (p', _)) := write data p in
  n = Nat.min (length data) (free_space p) /\
  ring_ok p' /\ capacity p' = capacity p /\ contents p' = contents p ++ take n data.
Proof.
  intros Hok Hr. pose proof Hok as [Hl Hz Hh Ht]. pose proof (write_unfold data p Hr) as ->.
  set (n := Nat.min (length data) (free_space p)). unfold free_space in *.
  destruct (Nat.eqb_spec n 0) as [E|E]; [rewrite E, app_nil_r; by split_and!|].
  assert (capacity p <> 0%nat) as Hc by lia. specialize (Hh Hc). specialize (Ht Hc).
  assert (p_tail p < capacity p)%nat as Htl by (rewrite Ht; apply Nat.mod_upper_bound; lia).
  assert (n <= length data /\ p_blen p + n <= capacity p)%nat as [Hn1 Hn2] by lia.
  unfold wake_op; simpl. set (p' := set_blen _ _).
  assert (capacity p' = capacity p) as Hcap.
  { unfold p', capacity. simpl. by destruct (store_lookup data p n 0) as [-> _]; [lia..|]. }
  assert (ring_ok p') as Hok'.
  { split; rewrite ?Hcap; try lia; simpl; try done. intros _.
    rewrite Ht, Nat.Div0.add_mod_idemp_l. f_equal. lia. }
  split_and!; try done. apply list_eq_same_length with (n := (p_blen p + n)%nat).
  - rewrite length_app, length_contents, length_take by done. lia.
  - by rewrite length_contents.
  - intros i x y Hi. rewrite contents_lookup, Hcap by done. simpl.
    assert (forall k, (k < capacity p)%nat -> store data p n !! ((p_tail p + k) mod capacity p)%nat =
      if (k <? n)%nat then data !! k else p_buf p !! ((p_tail p + k) mod capacity p)%nat) as Hst
      by (intros k Hk; by apply store_lookup; lia).
    destruct (Nat.ltb_spec i (p_blen p)).
    + rewrite lookup_app_l, contents_lookup by (rewrite ?length_contents; done).
      specialize (Hst (i + (capacity p - p_blen p))%nat ltac:(lia)).
      assert (((p_tail p + (i + (capacity p - p_blen p))) mod capacity p = (p_head p + i) mod capacity p)%nat) as Em.
      { rewrite Ht, Nat.Div0.add_mod_idemp_l.
        replace (p_head p + p_blen p + (i + (capacity p - p_blen p)))%nat
          with (p_head p + i + 1 * capacity p)%nat by lia. apply Nat.Div0.mod_add. }
      rewrite Em in Hst. rewrite Hst. destruct (Nat.ltb_spec (i + (capacity p - p_blen p)) n); [lia|]. congruence.
    + rewrite lookup_app_r, length_contents by (rewrite ?length_contents; done).
      specialize (Hst (i - p_blen p)%nat ltac:(lia)).
      assert (((p_tail p + (i - p_blen p)) mod capacity p = (p_head p + i) mod capacity p)%nat) as Em.
      { rewrite Ht, Nat.Div0.add_mod_idemp_l. f_equal. lia. }
      rewrite Em in Hst. rewrite Hst. destruct (Nat.ltb_spec (i - p_blen p) n); [|lia].
      rewrite lookup_take_lt by lia. congruence.
Qed.

Lemma copy_out_spec p n out :
  ring_ok p -> (n <= p_blen p)%nat -> (n <= length out)%nat ->
  copy_out p n out = take n (contents p) ++ drop n out.
Proof.
  intros [Hl Hz Hh _] Hn Ho. unfold copy_out, contents, capacity in *.
  rewrite take_take. replace (n `min` p_blen p)%nat with n by lia.
  destruct (Nat.leb_spec n (length (p_buf p) - p_head p)) as [Hf|Hf].
  - unfold splice. rewrite take_0, length_take, length_drop. simpl.
    replace (Nat.min n (length (p_buf p) - p_head p)) with n by lia.
    by rewrite take_app_le by (rewrite length_drop; lia).
  - set (first := (length (p_buf p) - p_head p)%nat) in *.
    assert (length (drop (p_head p) (p_buf p)) = first) as E1 by (rewrite length_drop; lia).
    assert (take first (drop (p_head p) (p_buf p)) = drop (p_head p) (p_buf p)) as E2 by (apply take_ge; lia).
    rewrite E2. rewrite take_app_ge, E1 by lia. rewrite take_take.
    replace ((n - first) `min` p_head p)%nat with (n - first)%nat by lia.
    assert (length (take (n - first) (p_buf p)) = (n - first)%nat) as E3 by (rewrite length_take; lia).
    unfold splice. rewrite E1, E3. rewrite take_0. simpl.
    rewrite take_app_le, take_ge by lia. rewrite drop_app_ge, drop_drop, E1 by lia.
    rewrite <- app_assoc. do 2 f_equal. f_equal. lia.
Qed.

Lemma read_ring out p :
  ring_ok p ->
  let '(n, out', (p', _)) := read out p in
  n = Nat.min (length out) (p_blen p) /\ out' = take n (contents p) ++ drop n out /\
  ring_ok p' /\ capacity p' = capacity p /\ contents p' = drop n (contents p).
Proof.
  intros Hok. pose proof Hok as [Hl Hz Hh Ht]. unfold read.
  set (n := Nat.min (length out) (p_blen p)).
  destruct (Nat.eqb_spec n 0) as [E|E]; [rewrite E, drop_0; by split_and!|].
  assert (capacity p <> 0%nat) as Hc by lia. specialize (Hh Hc). specialize (Ht Hc).
  unfold wake_op. rewrite copy_out_spec by (done || lia). set (p' := set_blen _ _).
  assert (capacity p' = capacity p) as Hcap by done.
  assert (ring_ok p') as Hok'.
  { split; rewrite ?Hcap; simpl; try done; try lia.
    - intros _. apply Nat.mod_upper_bound. lia.
    - intros _. rewrite Ht, Nat.Div0.add_mod_idemp_l. f_equal. lia. }
  split_and!; try done. apply list_eq_same_length with (n := (p_blen p - n)%nat).
  - rewrite length_drop, length_contents by done. lia.
  - by rewrite length_contents.
  - intros i x y Hi. rewrite lookup_drop, !contents_lookup by (done || simpl; lia). rewrite Hcap. simpl.
    rewrite Nat.Div0.add_mod_idemp_l.
    replace (p_head p + n + i)%nat with (p_head p + (n + i))%nat by lia. congruence.
Qed.

(** The ring buffer is a bounded byte queue.  A write to a pipe with a
    reader appends exactly the first bytes that fit and returns how many; a
    read hands out exactly the oldest bytes, fills only the front of the
    caller's slice and removes them; a peek hands out the same and removes
    nothing; the invariant of the positions and the capacity are kept, and a
    wakeup for the other side is pushed exactly when bytes moved. *)
Theorem pipe_ring_refines p data out :
  ring_ok p ->
  (p_read_count p <> 0 ->
   let '(n, (p', e)) := write data p in
   n = Nat.min (length data) (capacity p - length (contents p)) /\
   ring_ok p' /\ capacity p' = capacity p /\ contents p' = contents p ++ take n data /\
   e = (if (n =? 0)%nat then [] else [EWake (p_pipe_idx p) WAKE_READABLE])) /\
  (let '(n, out', (p', e)) := read out p in
   n = Nat.min (length out) (length (contents p)) /\
   ring_ok p' /\ capacity p' = capacity p /\
   out' = take n (contents p) ++ drop n out /\ contents p' = drop n (contents p) /\
   e = (if (n =? 0)%nat then [] else [EWake (p_pipe_idx p) WAKE_WRITABLE])) /\
  peek out p = ((read out p).1.1, (read out p).1.2).
Proof.
  intros Hok. rewrite length_contents by done. split_and!.
  - intros Hr. pose proof (write_ring data p Hok Hr) as Hw. pose proof (write_unfold data p Hr) as Hu. simpl in Hu.
    destruct (write data p) as [n [p' e]]. destruct Hw as (Hn & ? & ? & ?). split_and!; try done.
    destruct (Nat.eqb_spec (Nat.min (length data) (free_space p)) 0) as [E|E];
      rewrite Hn; [rewrite E|apply Nat.eqb_neq in E; rewrite E]; unfold wake_op in Hu; by simplify_eq/=.
  - pose proof (read_ring out p Hok) as Hw. unfold read in *.
    destruct (Nat.eqb_spec (Nat.min (length out) (p_blen p)) 0) as [E|E].
    + destruct Hw as (_ & Ho & ? & ? & ?). split_and!; done.
    + destruct Hw as (_ & Ho & ? & ? & ?). split_and!; try done. by apply Nat.eqb_neq in E; rewrite E.
  - unfold peek, read. by case_bool_step.
Qed.

(** *** Byte streams *)

Inductive stream_op := SWrite (data : bytes) | SRead (out : bytes) | SPeek (out : bytes).

(** What the caller sees of one call: the count, and its slice afterwards. *)
Definition answer : Type := nat * bytes.

Definition stream_step (p : PipeBuffer) (op : stream_op) : answer * PipeBuffer :=
  match op with
  | SWrite data => let '(n, (p', _)) := write data p in ((n, []), p')
  | SRead out => let '(n, out', (p', _)) := read out p in ((n, out'), p')
  | SPeek out => (peek out p, p)
  end.

Fixpoint stream_run (p : PipeBuffer) (ops : list stream_op) : list answer * PipeBuffer :=
  match ops with
  | [] => ([], p)
  | op :: ops' =>
      let '(a, p1) := stream_step p op in
      let '(l, p2) := stream_run p1 ops' in (a :: l, p2)
  end.

(** The specification: a queue of at most [cap] bytes. *)
Definition queue_step (cap : nat) (q : bytes) (op : stream_op) : answer * bytes :=
  match op with
  | SWrite data =>
      let n := Nat.min (length data) (cap - length q) in ((n, []), q ++ take n data)
  | SRead out =>
      let n := Nat.min (length out) (length q) in ((n, take n q ++ drop n out), drop n q)
  | SPeek out =>
      let n := Nat.min (length out) (length q) in ((n, take n q ++ drop n out), q)
  end.

Fixpoint queue_run (cap : nat) (q : bytes) (ops : list stream_op) : list answer * bytes :=
  match ops with
  | [] => ([], q)
  | op :: ops' =>
      let '(a, q1) := queue_step cap q op in
      let '(l, q2) := queue_run cap q1 ops' in (a :: l, q2)
  end.

(** The bytes the answers say were taken from the writers, and the bytes they
    handed to the readers (a peek hands out a copy only). *)
Definition accepted (op : stream_op) (a : answer) : bytes :=
  match op with SWrite data => take a.1 data | _ => [] end.
Definition handed_out (op : stream_op) (a : answer) : bytes :=
  match op with SRead _ => take a.1 a.2 | _ => [] end.

(** The bytes of a whole run, by the answers its calls gave. *)
Definition over (f : stream_op -> answer -> bytes) (ops : list stream_op) (l : list answer) : bytes :=
  concat (zip_with f ops l).

Lemma stream_step_queue p op :
  ring_ok p -> p_read_count p <> 0 ->
  let '(a, p') := stream_step p op in
  ring_ok p' /\ p_read_count p' <> 0 /\ capacity p' = capacity p /\
  queue_step (capacity p) (contents p) op = (a, contents p').
Proof.
  intros Hok Hr. pose proof read_ring as Hrd. destruct op as [data|out|out]; simpl.
  - pose proof (write_ring data p Hok Hr) as Hw. pose proof (write_unfold data p Hr) as Hu. simpl in Hu.
    destruct (write data p) as [n [p' e]]. destruct Hw as (Hn & ? & ? & ->).
    split_and!; [done| |done|by rewrite length_contents, Hn].
    destruct (_ =? 0)%nat; unfold wake_op in Hu; by simplify_eq/=.
  - specialize (Hrd out p Hok).
    assert (p_read_count (read out p).2.1 = p_read_count p) as Hrc by (unfold read; by case_bool_step).
    destruct (read out p) as [[n out'] [p' e]]. destruct Hrd as (-> & -> & ? & ? & ->). simpl in Hrc.
    rewrite length_contents by done. split_and!; [done|by rewrite Hrc|done|done].
  - specialize (Hrd out p Hok). assert (peek out p = (read out p).1) as Hp by (unfold peek, read; by case_bool_step).
    rewrite Hp. destruct (read out p) as [[n out'] [p' e]]. destruct Hrd as (-> & -> & _).
    by rewrite length_contents.
Qed.

Lemma stream_run_queue p ops :
  ring_ok p -> p_read_count p <> 0 ->
  let '(l, p') := stream_run p ops in
  ring_ok p' /\ queue_run (capacity p) (contents p) ops = (l, contents p').
Proof.
  revert p. induction ops as [|op ops IH]; intros p Hok Hr; simpl; [done|].
  pose proof (stream_step_queue p op Hok Hr) as Hs. destruct (stream_step p op) as [a p1].
  destruct Hs as (Hok1 & Hr1 & Hc & ->). specialize (IH p1 Hok1 Hr1). rewrite Hc in IH.
  destruct (stream_run p1 ops) as [l p2]. destruct IH as [Hok2 ->]. done.
Qed.

(** A queue loses nothing: of the specification alone. *)
Lemma queue_conserves cap q ops :
  let '(l, q') := queue_run cap q ops in q ++ over accepted ops l = over handed_out ops l ++ q'.
Proof.
  revert q. induction ops as [|op ops IH]; intros q; simpl; [by rewrite app_nil_r|].
  assert (q ++ accepted op (queue_step cap q op).1 = handed_out op (queue_step cap q op).1 ++ (queue_step cap q op).2) as E.
  { destruct op as [data|out|out]; simpl; [done| |by rewrite app_nil_r].
    rewrite app_nil_r, take_app_le, take_take by (rewrite length_take; lia).
    by rewrite Nat.min_id, take_drop. }
  destruct (queue_step cap q op) as [a q1]. simpl in E. specialize (IH q1).
  destruct (queue_run cap q1 ops) as [l q']. unfold over in *. simpl.
  by rewrite app_assoc, E, <- app_assoc, IH, app_assoc.
Qed.

(** C19: A pipe that has a reader, and whose ring is well formed ([ring_ok]), is a
    reliable stream.  Over any run of writes,
    reads and peeks of any sizes, every call answers exactly as a byte queue of
    the pipe's capacity does: a write accepts the first bytes that fit, a read
    and a peek hand out the oldest bytes at the front of the caller's slice and
    leave the rest of it alone, and only the read removes them.  So the bytes the
    reads handed out followed by the bytes still buffered are the bytes buffered
    at the start followed by the bytes the writes accepted: nothing is lost,
    duplicated, invented or reordered, across any wrap-around of the ring.
    ([write] without a reader stores nothing.) *)
Theorem pipe_stream_reliable p ops :
  ring_ok p -> p_read_count p <> 0 ->
  let '(l, p') := stream_run p ops in
  ring_ok p' /\
  queue_run (capacity p) (contents p) ops = (l, contents p') /\
  over handed_out ops l ++ contents p' = contents p ++ over accepted ops l.
Proof.
  intros Hok Hr. pose proof (stream_run_queue p ops Hok Hr) as Hs.
  destruct (stream_run p ops) as [l p']. destruct Hs as [Hok' Hq]. split_and!; [done|done|].
  pose proof (queue_conserves (capacity p) (contents p) ops) as Hc. by rewrite Hq in Hc.
Qed.

(** ** Endpoint references *)

(** How many references of each kind are outstanding. *)
Definition tally : Type := InFlightPipeRefKind -> Z.

Definition bump (k : InFlightPipeRefKind) (d : Z) (t : tally) : tally :=
  fun x => if decide (x = k) then t x + d else t x.

Definition readers (t : tally) : Z := t (RefRead false) + t (RefRead true) + t RefReadWrite.
Definition writers (t : tally) : Z := t RefWrite + t RefReadWrite.

Inductive ref_op :=
| RAdd (k : InFlightPipeRefKind)      (* open, dup, fork *)
| RClose (k : InFlightPipeRefKind)    (* close, exit *)
| RRetain (k : InFlightPipeRefKind)   (* queued in a message *)
| RAdopt (k : InFlightPipeRefKind)    (* received *)
| RRelease (k : InFlightPipeRefKind). (* message discarded *)

Definition ref_step (op : ref_op) : pipe_op :=
  match op with
  | RAdd k => add_reference k
  | RClose k => close_reference k
  | RRetain k => retain_in_flight_reference k
  | RAdopt k => pure_op (adopt_in_flight_reference k)
  | RRelease k => release_in_flight_reference k
  end.

(** The references held by processes and by queued messages. *)
Definition tally_step (t : tally * tally) (op : ref_op) : tally * tally :=
  let '(ext, fly) := t in
  match op with
  | RAdd k => (bump k 1 ext, fly)
  | RClose k => (bump k (-1) ext, fly)
  | RRetain k => (ext, bump k 1 fly)
  | RAdopt k => (bump k 1 ext, bump k (-1) fly)
  | RRelease k => (ext, bump k (-1) fly)
  end.

(** Only outstanding references are closed, adopted or released. *)
Definition ref_op_ok (t : tally * tally) (op : ref_op) : Prop :=
  match op with
  | RClose k => 1 <= t.1 k
  | RAdopt k | RRelease k => 1 <= t.2 k
  | _ => True
  end.

Definition below_limit (t : tally * tally) : Prop :=
  readers t.1 + readers t.2 <= u32_max /\ writers t.1 + writers t.2 <= u32_max /\
  t.1 RefPath + t.2 RefPath <= u32_max.

Record accounted (p : PipeBuffer) (t : tally * tally) : Prop := {
  ac_nonneg : forall k, 0 <= t.1 k /\ 0 <= t.2 k;
  ac_limit : below_limit t;
  ac_read : p_read_count p = readers t.1 + readers t.2;
  ac_write : p_write_count p = writers t.1 + writers t.2;
  ac_fly_read : p_in_flight_read_count p = readers t.2;
  ac_fly_write : p_in_flight_write_count p = writers t.2;
  ac_path : p_fifo_path_refs p = t.1 RefPath + t.2 RefPath;
  ac_cohort : p_fifo_read_only_count p = t.1 (RefRead true) + t.2 (RefRead true);
}.

(** The six counters of a buffer. *)
Definition counters (p : PipeBuffer) : list Z :=
  [p_read_count p; p_write_count p; p_in_flight_read_count p; p_in_flight_write_count p;
   p_fifo_path_refs p; p_fifo_read_only_count p].

Lemma close_read_end_counters p :
  counters (close_read_end p).1 = <[0%nat := u32_saturating_sub (p_read_count p) 1]> (counters p).
Proof. unfold close_read_end, andthen; simpl. by case_bool_step. Qed.

Lemma close_write_end_counters p :
  counters (close_write_end p).1 = <[1%nat := u32_saturating_sub (p_write_count p) 1]> (counters p).
Proof. unfold close_write_end, andthen; simpl. by repeat case_bool_step. Qed.

Lemma end_reader_cohort_counters p : counters (end_reader_cohort p) = counters p.
Proof. unfold end_reader_cohort. by repeat case_bool_step. Qed.

Lemma close_fifo_read_only_counters p :
  counters (close_fifo_read_only p).1 =
  <[0%nat := u32_saturating_sub (p_read_count p) 1]>
    (<[5%nat := u32_saturating_sub (p_fifo_read_only_count p) 1]> (counters p)).
Proof.
  unfold close_fifo_read_only, andthen, pure_op. set (q := set_fifo_read_only_count _ _).
  pose proof (close_read_end_counters q) as Hc. destruct (close_read_end q) as [q1 e].
  simpl in Hc |- *. rewrite end_reader_cohort_counters. exact Hc.
Qed.

Lemma andthen_fst f g p : (andthen f g p).1 = (g (f p).1).1.
Proof. unfold andthen. destruct (f p) as [p1 e1]. simpl. by destruct (g p1). Qed.

Lemma close_reference_counters k p :
  counters (close_reference k p).1 =
  match k with
  | RefPath => <[4%nat := u32_saturating_sub (p_fifo_path_refs p) 1]> (counters p)
  | RefRead false => <[0%nat := u32_saturating_sub (p_read_count p) 1]> (counters p)
  | RefRead true =>
      <[0%nat := u32_saturating_sub (p_read_count p) 1]>
        (<[5%nat := u32_saturating_sub (p_fifo_read_only_count p) 1]> (counters p))
  | RefWrite => <[1%nat := u32_saturating_sub (p_write_count p) 1]> (counters p)
  | RefReadWrite =>
      <[1%nat := u32_saturating_sub (p_write_count p) 1]>
        (<[0%nat := u32_saturating_sub (p_read_count p) 1]> (counters p))
  end.
Proof.
  destruct k as [|[]| |]; simpl.
  - done.
  - apply close_fifo_read_only_counters.
  - apply close_read_end_counters.
  - apply close_write_end_counters.
  - rewrite andthen_fst, close_write_end_counters. pose proof (close_read_end_counters p) as Hc.
    pose proof (f_equal (fun l => nth 1 l 0) Hc) as Hw. simpl in Hw. by rewrite Hc, Hw.
Qed.

Lemma counters_accounted p t :
  (forall k, 0 <= t.1 k /\ 0 <= t.2 k) -> below_limit t ->
  counters p = [readers t.1 + readers t.2; writers t.1 + writers t.2; readers t.2; writers t.2;
                t.1 RefPath + t.2 RefPath; t.1 (RefRead true) + t.2 (RefRead true)] ->
  accounted p t.
Proof. unfold counters. intros ? ? Hc. simplify_eq. by split. Qed.

(** Evaluates tallies at concrete kinds. *)
Ltac eval_bump := unfold bump in *; repeat (case_decide; try congruence).

Ltac cons_eq := repeat (match goal with |- _ :: _ = _ :: _ => apply (f_equal2 cons); [lia|] end); try done.

Lemma add_reference_counters k p :
  counters (add_reference k p).1 =
  match k with
  | RefPath => <[4%nat := u32_saturating_add (p_fifo_path_refs p) 1]> (counters p)
  | RefRead false => <[0%nat := u32_wrap (p_read_count p + 1)]> (counters p)
  | RefRead true =>
      <[0%nat := u32_wrap (p_read_count p + 1)]>
        (<[5%nat := u32_saturating_add (p_fifo_read_only_count p) 1]> (counters p))
  | RefWrite => <[1%nat := u32_wrap (p_write_count p + 1)]> (counters p)
  | RefReadWrite =>
      <[1%nat := u32_wrap (p_write_count p + 1)]> (<[0%nat := u32_wrap (p_read_count p + 1)]> (counters p))
  end.
Proof. by destruct k as [|[]| |]. Qed.

Lemma retain_counters k p :
  counters (retain_in_flight_reference k p).1 =
  let c := counters (add_reference k p).1 in
  let r := <[2%nat := u32_wrap (p_in_flight_read_count p + 1)]> in
  let w := <[3%nat := u32_wrap (p_in_flight_write_count p + 1)]> in
  match k with RefPath => c | RefRead _ => r c | RefWrite => w c | RefReadWrite => w (r c) end.
Proof. by destruct k as [|[]| |]. Qed.

Lemma adopt_counters k p :
  counters (adopt_in_flight_reference k p) =
  let r := <[2%nat := u32_saturating_sub (p_in_flight_read_count p) 1]> in
  let w := <[3%nat := u32_saturating_sub (p_in_flight_write_count p) 1]> in
  match k with
  | RefPath => counters p | RefRead _ => r (counters p) | RefWrite => w (counters p)
  | RefReadWrite => w (r (counters p))
  end.
Proof. by destruct k as [|[]| |]. Qed.

Lemma accounted_counters p t :
  accounted p t ->
  counters p = [readers t.1 + readers t.2; writers t.1 + writers t.2; readers t.2; writers t.2;
                t.1 RefPath + t.2 RefPath; t.1 (RefRead true) + t.2 (RefRead true)].
Proof. intros []. unfold counters. congruence. Qed.

Lemma adopt_accounted p ext fly k :
  accounted p (ext, fly) -> 1 <= fly k ->
  counters (adopt_in_flight_reference k p) =
  [readers ext + readers fly; writers ext + writers fly; readers (bump k (-1) fly); writers (bump k (-1) fly);
   ext RefPath + fly RefPath; ext (RefRead true) + fly (RefRead true)].
Proof.
  intros Ha Hk. rewrite adopt_counters, (accounted_counters _ _ Ha).
  destruct Ha as [Hn _ Hr Hw Hfr Hfw _ _]. rewrite Hfr, Hfw.
  pose proof (Hn (RefRead true)) as N2. pose proof (Hn (RefRead false)) as N3.
  pose proof (Hn RefWrite) as N4. pose proof (Hn RefReadWrite) as N5. simpl in *.
  unfold u32_saturating_sub, readers, writers.
  destruct k as [|[]| |]; eval_bump; simpl; cons_eq.
Qed.

Lemma ref_step_accounted p t op :
  accounted p t -> ref_op_ok t op -> below_limit (tally_step t op) ->
  accounted (ref_step op p).1 (tally_step t op).
Proof.
  intros Ha Hop Hlim. destruct t as [ext fly]. pose proof Ha as [Hn _ Hr Hw Hfr Hfw Hp Hc].
  apply counters_accounted; [|done|].
  { intros k. destruct op as [x|x|x|x|x]; simpl in *; unfold bump; pose proof (Hn k) as Hk; simpl in Hk;
      repeat case_decide; subst; lia. }
  pose proof (accounted_counters _ _ Ha) as Hcs.
  pose proof (Hn RefPath) as N1. pose proof (Hn (RefRead true)) as N2. pose proof (Hn (RefRead false)) as N3.
  pose proof (Hn RefWrite) as N4. pose proof (Hn RefReadWrite) as N5. clear Hn. simpl in *.
  destruct op as [k|k|k|k|k]; cbn [ref_step tally_step fst snd] in *.
  - rewrite add_reference_counters, Hcs, Hr, Hw, Hp, Hc.
    unfold below_limit, readers, writers, u32_wrap, u32_saturating_add, u32_max in *.
    destruct k as [|[]| |]; eval_bump; simpl in *; rewrite ?Z.mod_small by lia; cons_eq.
  - rewrite close_reference_counters, Hcs, Hr, Hw, Hp, Hc.
    unfold below_limit, readers, writers, u32_saturating_sub in *.
    destruct k as [|[]| |]; eval_bump; simpl in *; cons_eq.
  - rewrite retain_counters, add_reference_counters, Hcs, Hr, Hw, Hp, Hc, Hfr, Hfw.
    unfold below_limit, readers, writers, u32_wrap, u32_saturating_add, u32_max in *.
    destruct k as [|[]| |]; eval_bump; simpl in *; rewrite ?Z.mod_small by lia; cons_eq.
  - simpl. rewrite (adopt_accounted p ext fly k) by done. unfold readers, writers.
    destruct k as [|[]| |]; eval_bump; simpl in *; cons_eq.
  - unfold release_in_flight_reference. rewrite andthen_fst. cbn [pure_op fst].
    pose proof (adopt_accounted p ext fly k Ha Hop) as Hq. rewrite close_reference_counters, Hq.
    unfold counters in Hq. injection Hq as E1 E2 E3 E4 E5 E6. rewrite E1, E2, E5, E6.
    unfold below_limit, readers, writers, u32_saturating_sub in *.
    destruct k as [|[]| |]; eval_bump; simpl in *; cons_eq.
Qed.

Fixpoint ref_run (p : PipeBuffer) (ops : list ref_op) : PipeBuffer :=
  match ops with [] => p | op :: ops' => ref_run (ref_step op p).1 ops' end.

Fixpoint ref_run_ok (t : tally * tally) (ops : list ref_op) : Prop :=
  match ops with
  | [] => True
  | op :: ops' => ref_op_ok t op /\ below_limit (tally_step t op) /\ ref_run_ok (tally_step t op) ops'
  end.

(** C24: Endpoint references are accounted for exactly.  Over any run of opens,
    closes, sends, receptions and discards in which each holder gives up a
    reference once, the counters of the pipe are the numbers of outstanding
    references: so the pipe is reclaimable only when no descriptor refers to it,
    a reader sees end of file exactly when no writer is left, and it counts as
    externally readable exactly when a process (not a queued message) holds a
    read end. *)
Theorem endpoint_accounting p t ops :
  accounted p t -> ref_run_ok t ops ->
  let p' := ref_run p ops in
  let t' := fold_left tally_step ops t in
  accounted p' t' /\
  (is_fully_closed p' = true ->
   readers t'.1 = 0 /\ readers t'.2 = 0 /\ writers t'.1 = 0 /\ writers t'.2 = 0 /\
   (p_is_fifo p' = true -> t'.1 RefPath = 0 /\ t'.2 RefPath = 0)) /\
  read_end_has_eof p' = (writers t'.1 + writers t'.2 =? 0) /\
  has_external_reader p' = (0 <? readers t'.1).
Proof.
  intros Ha Hok p' t'.
  assert (accounted p' t') as Ha'.
  { subst p' t'. revert p t Ha Hok. induction ops as [|op ops IH]; intros p t Ha Hok; simpl in *; [done|].
    destruct Hok as (H1 & H2 & H3). apply IH; [|done]. by apply ref_step_accounted. }
  clearbody p' t'. clear - Ha'. split; [done|]. destruct Ha' as [Hn _ Hr Hw Hfr Hfw Hp Hc].
  pose proof (Hn RefPath). pose proof (Hn (RefRead true)). pose proof (Hn (RefRead false)).
  pose proof (Hn RefWrite). pose proof (Hn RefReadWrite).
  unfold is_fully_closed, read_end_has_eof, is_write_end_open, has_external_reader.
  rewrite Hr, Hw, Hfr, Hp. unfold readers, writers. split_and!; [|lia..].
  intros Hf. bool_hyps. split_and!; try lia. intros Hfifo. rewrite Hfifo in *. simpl in *. lia.
Qed.

(** ** Opening a FIFO *)

Inductive fifo_op :=
| FReserve (owner : Z) (side : FifoOpenSide) (path : bytes) (status_flags fd_flags reserved_fd : Z)
| FPublish (side : FifoOpenSide)
| FPublishBoth
| FTake (owner : Z)
| FCancel (owner : Z)
| FRef (op : ref_op).

Definition fifo_step (p : PipeBuffer) (op : fifo_op) : PipeBuffer :=
  match op with
  | FReserve o side path sf ff rf => (reserve_fifo_open o side path sf ff rf p).2.1
  | FPublish side => publish_fifo_open side p
  | FPublishBoth => publish_fifo_read_write_open p
  | FTake o => (take_ready_fifo_open o p).2
  | FCancel o => (cancel_fifo_open o p).2.1
  | FRef op => (ref_step op p).1
  end.

(** The operations that let a blocked opener of [side] proceed: a completed open
    of the other side, or of both. *)
Definition unblocks (side : FifoOpenSide) (op : fifo_op) : bool :=
  match op with
  | FPublish s => negb (bool_decide (s = side))
  | FPublishBoth => true
  | _ => false
  end.

(** Operations of the opener itself. *)
Definition by_owner (owner : Z) (op : fifo_op) : bool :=
  match op with FTake o | FCancel o => o =? owner | _ => false end.

Lemma close_read_end_waiters p : p_fifo_open_waiters (close_read_end p).1 = p_fifo_open_waiters p.
Proof. unfold close_read_end, andthen; simpl. by case_bool_step. Qed.

Lemma close_write_end_waiters p : p_fifo_open_waiters (close_write_end p).1 = p_fifo_open_waiters p.
Proof. unfold close_write_end, andthen; simpl. by repeat case_bool_step. Qed.

Lemma end_reader_cohort_waiters p : p_fifo_open_waiters (end_reader_cohort p) = p_fifo_open_waiters p.
Proof. unfold end_reader_cohort. by repeat case_bool_step. Qed.

Lemma close_reference_waiters k p : p_fifo_open_waiters (close_reference k p).1 = p_fifo_open_waiters p.
Proof.
  destruct k as [|[]| |]; cbn [close_reference].
  - done.
  - unfold close_fifo_read_only. rewrite !andthen_fst. unfold pure_op; cbn [fst].
    by rewrite end_reader_cohort_waiters, close_read_end_waiters.
  - apply close_read_end_waiters.
  - apply close_write_end_waiters.
  - by rewrite andthen_fst, close_write_end_waiters, close_read_end_waiters.
Qed.

Lemma ref_step_waiters op p : p_fifo_open_waiters (ref_step op p).1 = p_fifo_open_waiters p.
Proof.
  destruct op as [k|k|k|k|k]; simpl.
  - by destruct k as [|[]| |].
  - apply close_reference_waiters.
  - by destruct k as [|[]| |].
  - by destruct k as [|[]| |].
  - unfold release_in_flight_reference. rewrite andthen_fst, close_reference_waiters. by destruct k as [|[]| |].
Qed.

Definition with_ready (w : FifoOpenWaiter) (r : bool) : FifoOpenWaiter :=
  mkWaiter (fw_side w) (fw_path w) (fw_status_flags w) (fw_fd_flags w) (fw_reserved_fd w) r.

Lemma fifo_step_waiter p op owner w :
  p_fifo_open_waiters p !! owner = Some w -> by_owner owner op = false ->
  p_fifo_open_waiters (fifo_step p op) !! owner =
  Some (with_ready w (fw_ready w || unblocks (fw_side w) op)).
Proof.
  intros Hw Hby. assert (with_ready w (fw_ready w) = w) as Hsame by by destruct w.
  destruct op as [o side path sf ff rf|side| |o|o|op]; simpl in *.
  - rewrite orb_false_r, Hsame. unfold reserve_fifo_open.
    destruct (p_fifo_open_waiters p !! o) eqn:Eo; simpl; [done|].
    destruct side; simpl; (rewrite lookup_insert_ne; [done|congruence]).
  - assert (p_fifo_open_waiters (publish_fifo_open side p) !! owner =
      Some (if bool_decide (fw_side w = match side with Reader => Writer | Writer => Reader end)
            then set_ready w else w)) as ->.
    { destruct side; simpl.
      - by repeat case_bool_step; simpl; rewrite lookup_fmap, Hw; simpl; repeat case_bool_decide.
      - by rewrite lookup_fmap, Hw; simpl. }
    f_equal. destruct side, (fw_side w) eqn:Es; simpl; rewrite ?orb_false_r, ?orb_true_r; try done;
      by rewrite <- Es.
  - rewrite lookup_fmap, Hw. simpl. by rewrite orb_true_r.
  - rewrite orb_false_r, Hsame. unfold take_ready_fifo_open.
    destruct (p_fifo_open_waiters p !! o) as [w'|]; [|done]. case_bool_step; [|done]. simpl.
    rewrite lookup_delete_ne; [done|lia].
  - rewrite orb_false_r, Hsame. unfold cancel_fifo_open.
    destruct (p_fifo_open_waiters p !! o) as [w'|]; [|done].
    assert (delete o (p_fifo_open_waiters p) !! owner = Some w) as Hd by (rewrite lookup_delete_ne; [done|lia]).
    destruct (fw_side w'); cbn [fst snd].
    + rewrite andthen_fst. unfold pure_op; cbn [fst]. by rewrite end_reader_cohort_waiters, close_read_end_waiters.
    + by rewrite close_write_end_waiters.
  - rewrite orb_false_r, Hsame. by rewrite ref_step_waiters.
Qed.

(** Opening a FIFO is a rendezvous.  A blocked open reserves its endpoint at
    once, so the other side already sees it; whatever other processes do in
    between, it completes exactly when a matching open of the other side (or of
    both) has been published since, and then yields the path, flags and
    descriptor it was reserved with. *)
Theorem fifo_open_rendezvous p owner side path sf ff rf ops p0 effs :
  reserve_fifo_open owner side path sf ff rf p = (true, (p0, effs)) ->
  forallb (fun op => negb (by_owner owner op)) ops = true ->
  let p' := fold_left fifo_step ops p0 in
  match side with
  | Reader => p_read_count p0 = u32_wrap (p_read_count p + 1)
  | Writer => p_write_count p0 = u32_wrap (p_write_count p + 1)
  end /\
  has_fifo_open_waiter owner p' = true /\
  (take_ready_fifo_open owner p').1 =
    if existsb (unblocks side) ops then Some (mkWaiter side path sf ff rf true) else None.
Proof.
  intros Hr Hby p'. unfold reserve_fifo_open in Hr.
  destruct (p_fifo_open_waiters p !! owner) eqn:Eo; [done|]. injection Hr as Hr.
  set (w := mkWaiter side path sf ff rf false) in *.
  assert (p_fifo_open_waiters p0 !! owner = Some w) as Hw0.
  { destruct side; simpl in Hr; unfold add_reader, add_writer, andthen, pure_op, wake_op in Hr; simplify_eq/=;
      by rewrite lookup_insert_eq. }
  assert (forall ops q w, forallb (fun op => negb (by_owner owner op)) ops = true ->
    p_fifo_open_waiters q !! owner = Some w ->
    p_fifo_open_waiters (fold_left fifo_step ops q) !! owner =
    Some (with_ready w (fw_ready w || existsb (unblocks (fw_side w)) ops))) as Hrun.
  { clear. induction ops as [|op ops IH]; intros q w Hby Hw; simpl in *.
    - rewrite orb_false_r. destruct w. done.
    - bool_hyps. rewrite (IH _ _ H0 (fifo_step_waiter q op owner w Hw H)). simpl. by rewrite orb_assoc. }
  specialize (Hrun ops p0 w Hby Hw0). fold p' in Hrun. simpl in Hrun. split_and!.
  - destruct side; simpl in Hr; unfold add_reader, add_writer, andthen, pure_op, wake_op in Hr; by simplify_eq/=.
  - unfold has_fifo_open_waiter. by rewrite Hrun.
  - unfold take_ready_fifo_open. rewrite Hrun. simpl. by destruct (existsb (unblocks side) ops).
Qed.

(** ** Witnesses *)

(** A ring of four bytes whose contents wrap around its end. *)
Definition wrapped_pipe : PipeBuffer :=
  set_tail 1 (set_head 3 (set_blen 2 (set_buf [20; 0; 0; 10] (pipe_new 4)))).

Lemma wrapped_pipe_ok : ring_ok wrapped_pipe.
Proof. split; unfold capacity; simpl; (done || lia). Qed.

Lemma pipe_ring_refines_witness :
  contents wrapped_pipe = [10; 20] /\
  (write [30; 40; 50] wrapped_pipe).1 = 2%nat /\
  contents (write [30; 40; 50] wrapped_pipe).2.1 = [10; 20; 30; 40].
Proof.
  split; [reflexivity|]. split; [reflexivity|].
  destruct (pipe_ring_refines wrapped_pipe [30; 40; 50] [0] wrapped_pipe_ok) as (Hw & _).
  specialize (Hw ltac:(simpl; lia)).
  assert ((write [30; 40; 50] wrapped_pipe).1 = 2%nat) as Hn by reflexivity.
  destruct (write [30; 40; 50] wrapped_pipe) as [n [p' e]]. simpl in Hn. subst n.
  destruct Hw as (_ & _ & _ & Hc & _). exact Hc.
Defined.

Definition some_stream : list stream_op :=
  [SWrite [30; 40; 50]; SPeek [0; 0]; SRead [0; 0; 0]; SWrite [60]; SRead [7; 7; 7; 7]].

Lemma pipe_stream_reliable_witness :
  (stream_run wrapped_pipe some_stream).1 =
    [(2%nat, []); (2%nat, [10; 20]); (3%nat, [10; 20; 30]); (1%nat, []); (2%nat, [40; 60; 7; 7])] /\
  over handed_out some_stream (stream_run wrapped_pipe some_stream).1 = [10; 20; 30; 40; 60] /\
  ring_ok (stream_run wrapped_pipe some_stream).2.
Proof.
  split; [reflexivity|]. split; [reflexivity|].
  pose proof (pipe_stream_reliable wrapped_pipe some_stream wrapped_pipe_ok ltac:(simpl; lia)) as Hs.
  destruct (stream_run wrapped_pipe some_stream) as [l p']. exact (proj1 Hs).
Defined.

(** A fresh pipe: one read end and one write end. *)
Definition fresh_tally : tally * tally :=
  (fun k => match k with RefRead false | RefWrite => 1 | _ => 0 end, fun _ => 0).

Lemma endpoint_accounting_witness :
  is_fully_closed (ref_run (pipe_new 4) [RRetain (RefRead false); RClose (RefRead false);
    RRelease (RefRead false); RClose RefWrite]) = true /\
  accounted (ref_run (pipe_new 4) [RRetain (RefRead false); RClose (RefRead false)])
    (fold_left tally_step [RRetain (RefRead false); RClose (RefRead false)] fresh_tally).
Proof.
  split; [reflexivity|].
  apply (endpoint_accounting (pipe_new 4) fresh_tally [RRetain (RefRead false); RClose (RefRead false)]).
  - apply counters_accounted; [intros [|[]| |]; simpl; lia|vm_compute; split_and!; discriminate|reflexivity].
  - vm_compute. repeat split; discriminate.
Defined.

Definition sample_fifo : PipeBuffer := new_fifo 4 (mkStat 1 1 4480 1 0 0 0 0 0 0 0 0 0 0).

Lemma fifo_open_rendezvous_witness :
  (take_ready_fifo_open 7 (fold_left fifo_step
     [FReserve 9 Reader [] 0 0 4; FPublish Reader; FPublish Writer]
     (reserve_fifo_open 7 Reader [47] 0 0 3 sample_fifo).2.1)).1 = Some (mkWaiter Reader [47] 0 0 3 true).
Proof.
  destruct (reserve_fifo_open 7 Reader [47] 0 0 3 sample_fifo) as [b [p0 effs]] eqn:E.
  assert (b = true) as -> by (vm_compute in E; congruence).
  apply (fifo_open_rendezvous sample_fifo 7 Reader [47] 0 0 3
    [FReserve 9 Reader [] 0 0 4; FPublish Reader; FPublish Writer] p0 effs E). reflexivity.
Defined.
