(* ===== verification/PipeTable.v ===== *)
(** * The table of pipes and its garbage collector ([crates/kernel/src/pipe.rs])

    [PipeTable]: slot allocation with a free list, adjacent pairs for the TCP
    bridge, reclamation, the per-process FIFO-open bookkeeping over all slots,
    and the mark-and-sweep collection of descriptor messages that no process
    can ever receive.  Also what dropping a queued descriptor does ([Drop for
    InFlightFd]): its in-flight reference is released and a record for its
    deferred cleanup is queued; the interpretation of the effects of [Pipe] as
    changes of the machine-wide wakeup buffer, in-flight references and
    deferred queue.  Acquiring a queued reference, and releasing the resource
    behind a deferred record, go through the descriptor-backing and pty tables
    and are not modelled; neither is the capacity of the deferred queue.

    The collector's worklist has fuel for one visit per slot.

    The theorems: slots are never shared, lost or handed out twice and the free
    list is exactly the set of empty slots; the collector empties exactly the
    queues no external reader can reach through queued sockets; a dropped
    message releases each descriptor it owns exactly once. *)

From stdpp Require Import sorting.
From S2P Require Import Prelude Abi Lock Ofd Wakeup Pipe.

Record PipeTable := mkPipes {
  pipes : list (option PipeBuffer);
  free_list : list nat;
}.

Definition table_new : PipeTable := mkPipes [] [].

Definition with_pipes (t : PipeTable) (ps : list (option PipeBuffer)) : PipeTable :=
  mkPipes ps (free_list t).

(** [i as u32]. *)
Definition idx_u32 (i : nat) : Z := as_u32 (Z.of_nat i).

(** ** Allocation *)

Definition table_alloc (t : PipeTable) (pipe : PipeBuffer) : nat * PipeTable :=
  match last (free_list t) with
  | Some i =>
      (i, mkPipes (<[i := Some (set_pipe_idx (idx_u32 i) pipe)]> (pipes t)) (removelast (free_list t)))
  | None =>
      let i := length (pipes t) in
      (i, mkPipes (vec_push (pipes t) (Some (set_pipe_idx (idx_u32 i) pipe))) (free_list t))
  end.

(** The first window of two consecutive indices in a sorted list. *)
Fixpoint adjacent_pair (l : list nat) : option (nat * nat) :=
  match l with
  | a :: (b :: _) as l' => if (b =? S a)%nat then Some (a, b) else adjacent_pair l'
  | _ => None
  end.

Definition free_pair (t : PipeTable) : option (nat * nat) :=
  if (2 <=? length (free_list t))%nat then adjacent_pair (merge_sort le (free_list t)) else None.

Definition alloc_pair (t : PipeTable) (first second : PipeBuffer) : nat * nat * PipeTable :=
  match free_pair t with
  | Some (a, b) =>
      (a, b,
       mkPipes
         (<[b := Some (set_pipe_idx (idx_u32 b) second)]>
            (<[a := Some (set_pipe_idx (idx_u32 a) first)]> (pipes t)))
         (List.filter (fun x => negb (x =? a)%nat && negb (x =? b)%nat) (free_list t)))
  | None =>
      let a := length (pipes t) in
      let b := S a in
      (a, b,
       with_pipes t (vec_push (vec_push (pipes t) (Some (set_pipe_idx (idx_u32 a) first)))
                       (Some (set_pipe_idx (idx_u32 b) second))))
  end.

Definition table_get (t : PipeTable) (idx : nat) : option PipeBuffer :=
  match pipes t !! idx with Some slot => slot | None => None end.

(** An operation applied through [get_mut]. *)
Definition table_update (t : PipeTable) (idx : nat) (f : pipe_op) : PipeTable * list effect :=
  match table_get t idx with
  | Some p => let '(p', e) := f p in (with_pipes t (<[idx := Some p']> (pipes t)), e)
  | None => (t, [])
  end.

Definition table_len (t : PipeTable) : nat := length (pipes t).

(** ** Collection *)

(** The receive pipe a queued descriptor would let its receiver read from. *)
Definition fd_edge (fd : InFlightFd) : option nat :=
  if bool_decide (fd_file_type fd = Socket) then
    match fd_socket fd with
    | Some socket => if s_global_pipes socket then s_recv_buf_idx socket else None
    | None => None
    end
  else None.

Definition edges (p : PipeBuffer) : list nat := omap fd_edge (concat (p_ancillary_fds p)).

Definition is_marked (reachable : list bool) (i : nat) : bool :=
  match reachable !! i with Some b => b | None => false end.

(** The body of the marking loop for one edge. *)
Definition mark_edge (s : list bool * list nat) (j : nat) : list bool * list nat :=
  let '(reachable, work) := s in
  if (j <? length reachable)%nat && negb (is_marked reachable j)
  then (<[j := true]> reachable, vec_push work j) else s.

Fixpoint mark_loop (fuel : nat) (t : PipeTable) (reachable : list bool) (work : list nat) : list bool :=
  match fuel, work with
  | S fuel, carrier_idx :: work =>
      match table_get t carrier_idx with
      | None => mark_loop fuel t reachable work
      | Some p =>
          let '(reachable, work) := fold_left mark_edge (edges p) (reachable, work) in
          mark_loop fuel t reachable work
      end
  | _, _ => reachable
  end.

Definition is_root (slot : option PipeBuffer) : bool :=
  match slot with Some p => has_external_reader p | None => false end.

(** [for (idx, pipe) in pipes.iter().enumerate()]: the roots, in order. *)
Fixpoint roots_from (i : nat) (ps : list (option PipeBuffer)) : list nat :=
  match ps with
  | [] => []
  | slot :: ps' => if is_root slot then i :: roots_from (S i) ps' else roots_from (S i) ps'
  end.

Definition reachable_set (t : PipeTable) : list bool :=
  mark_loop (S (length (pipes t))) t (map is_root (pipes t)) (roots_from 0 (pipes t)).

Definition sweep_slot (reachable : bool) (slot : option PipeBuffer) : option PipeBuffer :=
  if reachable then slot else set_ancillary_fds [] <$> slot.

Definition swept_batches (reachable : bool) (slot : option PipeBuffer) : list (list InFlightFd) :=
  match slot with
  | Some p => if reachable then [] else p_ancillary_fds p
  | None => []
  end.

Definition collect_unreachable_ancillary (t : PipeTable) : PipeTable * list effect :=
  let reachable := reachable_set t in
  (with_pipes t (imap (fun i slot => sweep_slot (is_marked reachable i) slot) (pipes t)),
   map EDrop (concat (imap (fun i slot => swept_batches (is_marked reachable i) slot) (pipes t)))).

(** ** Reclamation *)

Definition free_fully_closed_inner (t : PipeTable) (idx : nat) : PipeTable * list effect :=
  match table_get t idx with
  | Some p =>
      if is_fully_closed p
      then (mkPipes (<[idx := None]> (pipes t)) (vec_push (free_list t) idx), map EDrop (p_ancillary_fds p))
      else (t, [])
  | None => (t, [])
  end.

Definition table_op_seq (f g : PipeTable -> PipeTable * list effect) (t : PipeTable)
    : PipeTable * list effect :=
  let '(t1, e1) := f t in let '(t2, e2) := g t1 in (t2, e1 ++ e2).

Definition free_if_closed (idx : nat) : PipeTable -> PipeTable * list effect :=
  table_op_seq (fun t => free_fully_closed_inner t idx) collect_unreachable_ancillary.

Definition queue_retained_ancillary (t : PipeTable) (carrier_idx : nat) (fds : list InFlightFd)
    : bool * (PipeTable * list effect) :=
  match table_get t carrier_idx with
  | None => (false, (t, [EDrop fds]))
  | Some _ =>
      (true, table_op_seq (fun t => table_update t carrier_idx (pure_op (push_ancillary fds)))
               collect_unreachable_ancillary t)
  end.

Definition finish_ancillary_transition (t : PipeTable) : PipeTable * list effect :=
  collect_unreachable_ancillary t.

Definition discard_unclaimed (idx : nat) : PipeTable -> PipeTable * list effect :=
  table_op_seq (fun t => table_update t idx (close_read_end ▷ close_write_end)) (free_if_closed idx).

Definition table_remove_fifo_name (idx : nat) : PipeTable -> PipeTable * list effect :=
  table_op_seq (fun t => table_update t idx (pure_op remove_fifo_name)) (free_if_closed idx).

Definition table_remove_fifo_name_at (idx : nat) (sec nsec : Z) : PipeTable -> PipeTable * list effect :=
  table_op_seq (fun t => table_update t idx (pure_op (remove_fifo_name_at sec nsec))) (free_if_closed idx).

(** ** Blocking FIFO opens *)

Definition holds_fifo_open (owner : Z) (slot : option PipeBuffer) : bool :=
  match slot with Some p => p_is_fifo p && has_fifo_open_waiter owner p | None => false end.

Definition find_fifo_open (t : PipeTable) (owner : Z) : option nat :=
  position (holds_fifo_open owner) (pipes t).

Definition table_take_ready_fifo_open (t : PipeTable) (owner : Z)
    : option (nat * FifoOpenWaiter) * PipeTable :=
  match find_fifo_open t owner with
  | None => (None, t)
  | Some idx =>
      match table_get t idx with
      | None => (None, t)
      | Some p =>
          match take_ready_fifo_open owner p with
          | (Some w, p') => (Some (idx, w), with_pipes t (<[idx := Some p']> (pipes t)))
          | (None, _) => (None, t)
          end
      end
  end.

Definition table_cancel_fifo_open (t : PipeTable) (owner : Z)
    : option FifoOpenWaiter * (PipeTable * list effect) :=
  match find_fifo_open t owner with
  | None => (None, (t, []))
  | Some idx =>
      match table_get t idx with
      | None => (None, (t, []))
      | Some p =>
          match cancel_fifo_open owner p with
          | (Some w, (p', e)) =>
              let t1 := with_pipes t (<[idx := Some p']> (pipes t)) in
              let '(t2, e2) := free_if_closed idx t1 in (Some w, (t2, e ++ e2))
          | (None, _) => (None, (t, []))
          end
      end
  end.

(** [for idx in 0..self.pipes.len()]. *)
Fixpoint cancel_slots (idxs : list nat) (pid : Z) (t : PipeTable)
    : list FifoOpenWaiter * (PipeTable * list effect) :=
  match idxs with
  | [] => ([], (t, []))
  | idx :: idxs' =>
      let '(ws1, (t1, e1)) :=
        match table_get t idx with
        | Some p =>
            if p_is_fifo p then
              let '(ws, (p', e)) := cancel_fifo_opens_for_process pid p in
              (ws, (with_pipes t (<[idx := Some p']> (pipes t)), e))
            else ([], (t, []))
        | None => ([], (t, []))
        end in
      let '(t2, e2) := free_if_closed idx t1 in
      let '(ws3, (t3, e3)) := cancel_slots idxs' pid t2 in
      (ws1 ++ ws3, (t3, e1 ++ e2 ++ e3))
  end.

Definition table_cancel_fifo_opens_for_process (t : PipeTable) (pid : Z)
    : list FifoOpenWaiter * (PipeTable * list effect) :=
  cancel_slots (seq 0 (length (pipes t))) pid t.

(** ** Dropping queued descriptors *)

Record DeferredInFlightFdRelease := mkRelease {
  rel_ofd_id : Z;
  rel_file_type : FileType;
  rel_host_handle : Z;
  rel_pipe_ref_kind : option InFlightPipeRefKind;
  rel_socket_send_idx : option nat;
  rel_socket_recv_idx : option nat;
  rel_socket_domain : option Z;
  rel_socket_type : option Z;
  rel_socket_global_pipes : bool;
}.

Definition release_metadata (fd : InFlightFd) : DeferredInFlightFdRelease :=
  mkRelease (fd_ofd_id fd) (fd_file_type fd) (fd_host_handle fd) (fd_pipe_ref_kind fd)
    (fd_socket fd ≫= s_send_buf_idx) (fd_socket fd ≫= s_recv_buf_idx)
    (s_domain <$> fd_socket fd) (s_sock_type <$> fd_socket fd)
    (match fd_socket fd with Some s => s_global_pipes s | None => false end).

Record DeferredInFlightReleaseQueue := mkDeferred {
  dq_records : list DeferredInFlightFdRelease;
  dq_reserved : nat;
}.

Definition cancel_deferred_in_flight_release (q : DeferredInFlightReleaseQueue) :=
  mkDeferred (dq_records q) (dq_reserved q - 1).

Definition enqueue_deferred_in_flight_release (q : DeferredInFlightReleaseQueue)
    (r : DeferredInFlightFdRelease) : DeferredInFlightReleaseQueue :=
  mkDeferred (vec_push (dq_records q) r) (dq_reserved q - 1).

(** [records.pop()]: the most recent record first. *)
Definition pop_deferred_in_flight_release (q : DeferredInFlightReleaseQueue)
    : option DeferredInFlightFdRelease * DeferredInFlightReleaseQueue :=
  match last (dq_records q) with
  | Some r => (Some r, mkDeferred (removelast (dq_records q)) (dq_reserved q))
  | None => (None, q)
  end.

(** The machine-wide state the effects act on. *)
Record World := mkWorld {
  w_wakeups : WakeupBuffer;
  w_in_flight : list (Z * Z);
  w_deferred : DeferredInFlightReleaseQueue;
}.

(** [Drop for InFlightFd]. *)
Definition drop_in_flight_fd (w : World) (fd : InFlightFd) : World :=
  if fd_owns_reference fd then
    mkWorld (w_wakeups w) (release_in_flight_ofd (w_in_flight w) (fd_ofd_id fd)).2
      (enqueue_deferred_in_flight_release (w_deferred w) (release_metadata fd))
  else w.

Definition run_effect (w : World) (e : effect) : World :=
  match e with
  | EWake idx wake => mkWorld (push (w_wakeups w) idx wake) (w_in_flight w) (w_deferred w)
  | EDrop fds => fold_left drop_in_flight_fd fds w
  end.

Definition run_effects (w : World) (es : list effect) : World := fold_left run_effect es w.

(** ** The collector is exact *)

(** A slot whose queued messages some process can still receive: it has a reader
    outside the message queues, or a socket queued in such a slot receives
    from it. *)
Inductive receivable (t : PipeTable) : nat -> Prop :=
| receivable_root i p : table_get t i = Some p -> has_external_reader p = true -> receivable t i
| receivable_edge i p j :
    receivable t i -> table_get t i = Some p -> j ∈ edges p -> (j < length (pipes t))%nat -> receivable t j.

Definition unmarked (r : list bool) : nat := length (List.filter negb r).

Lemma is_marked_insert r j i :
  (j < length r)%nat -> is_marked (<[j := true]> r) i = is_marked r i || (i =? j)%nat.
Proof.
  intros Hj. unfold is_marked. destruct (Nat.eqb_spec i j) as [->|Hne].
  - rewrite list_lookup_insert_eq by done. by rewrite orb_true_r.
  - rewrite list_lookup_insert_ne by done. by rewrite orb_false_r.
Qed.

Lemma unmarked_insert r j :
  (j < length r)%nat -> is_marked r j = false -> unmarked r = S (unmarked (<[j := true]> r)).
Proof.
  unfold is_marked, unmarked. revert j. induction r as [|b r IH]; intros [|j] Hj Hm; simpl in *; try lia.
  - subst. done.
  - pose proof (IH j ltac:(lia) Hm). destruct b; simpl; lia.
Qed.

(** The marks after following a list of edges: the new ones are exactly the
    targets that are now queued. *)
Lemma mark_edges_spec js r w :
  let '(r', w') := fold_left mark_edge js (r, w) in
  exists fresh, w' = w ++ fresh /\ length r' = length r /\
    (forall i, is_marked r' i = true <-> is_marked r i = true \/ i ∈ fresh) /\
    (forall i, i ∈ fresh -> i ∈ js /\ (i < length r)%nat) /\
    (forall j, j ∈ js -> (j < length r)%nat -> is_marked r' j = true) /\
    (length w' + unmarked r' = length w + unmarked r)%nat.
Proof.
  revert r w. induction js as [|j js IH]; intros r w; simpl.
  - exists []. rewrite app_nil_r. set_solver.
  - destruct ((j <? length r)%nat && negb (is_marked r j)) eqn:E.
    + bool_hyps. apply Nat.ltb_lt in H. specialize (IH (<[j := true]> r) (vec_push w j)).
      destruct (fold_left mark_edge js _) as [r' w']. destruct IH as (fresh & -> & Hl & Hm & Hf & Hj & Hc).
      rewrite length_insert in *. exists (j :: fresh). unfold vec_push in *. split_and!.
      * by rewrite <- app_assoc.
      * done.
      * intros i. rewrite Hm, is_marked_insert by done. rewrite orb_true_iff, Nat.eqb_eq, elem_of_cons. tauto.
      * intros i [->|Hi]%elem_of_cons; [split; [by constructor|done]|]. destruct (Hf i Hi). split; [by constructor|done].
      * intros x [->|Hx]%elem_of_cons Hlt; [|by apply Hj]. apply Hm. left.
        rewrite is_marked_insert by done. by rewrite Nat.eqb_refl, orb_true_r.
      * rewrite Hc, (unmarked_insert r j) by done. rewrite length_app. simpl. lia.
    + specialize (IH r w). destruct (fold_left mark_edge js (r, w)) as [r' w'].
      destruct IH as (fresh & -> & Hl & Hm & Hf & Hj & Hc). exists fresh. split_and!; try done.
      * intros i Hi. destruct (Hf i Hi). split; [by constructor|done].
      * intros x [->|Hx]%elem_of_cons Hlt; [|by apply Hj]. apply Hm. left.
        apply andb_false_iff in E as [E|E]; [apply Nat.ltb_ge in E; lia|]. by apply negb_false_iff in E.
Qed.

(** The invariant of the marking loop. *)
Record marking (t : PipeTable) (r : list bool) (w : list nat) : Prop := {
  mk_len : length r = length (pipes t);
  mk_sound : forall i, is_marked r i = true -> receivable t i;
  mk_work : forall i, i ∈ w -> is_marked r i = true;
  mk_roots : forall i p, table_get t i = Some p -> has_external_reader p = true -> is_marked r i = true;
  mk_closed : forall i p j, is_marked r i = true -> i ∉ w -> table_get t i = Some p -> j ∈ edges p ->
    (j < length (pipes t))%nat -> is_marked r j = true;
}.

Lemma mark_step t r i w p :
  marking t r (i :: w) -> table_get t i = Some p ->
  let '(r', w') := fold_left mark_edge (edges p) (r, w) in
  marking t r' w' /\ (length w' + unmarked r' = length w + unmarked r)%nat.
Proof.
  intros [Hl Hs Hw Hr Hc] Hg. pose proof (mark_edges_spec (edges p) r w) as Hm.
  destruct (fold_left mark_edge (edges p) (r, w)) as [r' w'].
  destruct Hm as (fresh & -> & Hl' & Hm & Hf & Hj & Hcount). split; [|done]. split.
  - congruence.
  - intros x [Hx|Hx]%Hm; [by apply Hs|]. destruct (Hf x Hx) as [Hin Hlt].
    apply (receivable_edge t i p); [|done|done|by rewrite <- Hl]. apply Hs, Hw. by constructor.
  - intros x [Hx|Hx]%elem_of_app; apply Hm; [left; apply Hw; by constructor|by right].
  - intros x q Hx Hq. apply Hm. left. by eapply Hr.
  - intros x q j Hx Hnw Hq Hjq Hlt. rewrite elem_of_app in Hnw. apply Hm in Hx as [Hx|Hx]; [|tauto].
    destruct (Nat.eqb_spec x i) as [->|Hne].
    + rewrite Hg in Hq. simplify_eq. apply Hj; [done|lia].
    + apply Hm. left. eapply (Hc x q j); try done. intros [->|?]%elem_of_cons; tauto.
Qed.

Lemma mark_loop_ok fuel t r w :
  marking t r w -> (length w + unmarked r < fuel)%nat ->
  marking t (mark_loop fuel t r w) [].
Proof.
  revert r w. induction fuel as [|fuel IH]; intros r w Hm Hf; [lia|]. simpl.
  destruct w as [|i w]; [done|]. simpl in Hf. destruct (table_get t i) as [p|] eqn:Hg.
  - pose proof (mark_step t r i w p Hm Hg) as Hst. destruct (fold_left mark_edge (edges p) (r, w)) as [r' w'].
    destruct Hst as [Hm' Hc]. apply IH; [done|lia].
  - apply IH; [|lia]. destruct Hm as [Hl Hs Hw Hr Hc]. split; try done.
    + intros x Hx. apply Hw. by constructor.
    + intros x q j Hx Hnw Hq. apply (Hc x q j); try done. intros [->|?]%elem_of_cons; [congruence|done].
Qed.

Lemma elem_of_roots i k ps :
  i ∈ roots_from k ps <-> (k <= i)%nat /\ exists slot, ps !! (i - k)%nat = Some slot /\ is_root slot = true.
Proof.
  revert k. induction ps as [|s ps IH]; intros k; simpl.
  - split; [set_solver|]. intros (_ & slot & Hl & _). by rewrite lookup_nil in Hl.
  - assert ((i ∈ roots_from (S k) ps) <-> (k < i)%nat /\ exists slot, (s :: ps) !! (i - k)%nat = Some slot /\ is_root slot = true) as Hr.
    { rewrite IH. split; intros (Hle & slot & Hl & Hs); (split; [lia|]); exists slot; (split; [|done]).
      - by replace (i - k)%nat with (S (i - S k)) by lia.
      - by replace (i - k)%nat with (S (i - S k)) in Hl by lia. }
    destruct (is_root s) eqn:Es; rewrite ?elem_of_cons, Hr.
    + destruct (Nat.eqb_spec i k) as [->|Hne].
      * rewrite Nat.sub_diag. split; [intros _; split; [lia|by exists s]|by left].
      * split; [intros [?|[? ?]]; [lia|split; [lia|done]]|intros [? ?]; right; split; [lia|done]].
    + split; [intros [? ?]; split; [lia|done]|]. intros [Hle (slot & Hl & Hs)]. split; [|by exists slot].
      destruct (Nat.eqb_spec i k) as [->|Hne]; [|lia]. rewrite Nat.sub_diag in Hl. simplify_eq/=. congruence.
Qed.

Lemma length_roots k ps : (length (roots_from k ps) + unmarked (map is_root ps) = length ps)%nat.
Proof.
  revert k. induction ps as [|s ps IH]; intros k; simpl; [done|]. specialize (IH (S k)).
  unfold unmarked in *. destruct (is_root s); simpl; lia.
Qed.

Lemma is_marked_roots ps i : is_marked (map is_root ps) i = match ps !! i with Some s => is_root s | None => false end.
Proof. unfold is_marked. change (map is_root ps) with (is_root <$> ps). rewrite list_lookup_fmap. by destruct (ps !! i). Qed.

Lemma reachable_set_marking t : marking t (reachable_set t) [].
Proof.
  unfold reachable_set. apply mark_loop_ok; [|rewrite (length_roots 0); lia].
  assert (forall i, is_marked (map is_root (pipes t)) i = true -> exists p, table_get t i = Some p /\ has_external_reader p = true) as Hroot.
  { intros i. rewrite is_marked_roots. unfold table_get. destruct (pipes t !! i) as [[p|]|]; simpl; [|done..]. by exists p. }
  split.
  - by rewrite length_map.
  - intros i Hi. destruct (Hroot i Hi) as (p & Hg & He). by eapply receivable_root.
  - intros i Hi. rewrite is_marked_roots. apply elem_of_roots in Hi as (_ & slot & Hl & Hs).
    rewrite Nat.sub_0_r in Hl. by rewrite Hl.
  - intros i p Hg He. rewrite is_marked_roots. unfold table_get in Hg. destruct (pipes t !! i); [|done]. by subst.
  - intros i p j Hi Hn. destruct Hn. apply elem_of_roots. rewrite Nat.sub_0_r, is_marked_roots in *.
    split; [lia|]. destruct (pipes t !! i) as [slot|]; [|done]. by exists slot.
Qed.

Lemma reachable_set_exact t i : is_marked (reachable_set t) i = true <-> receivable t i.
Proof.
  pose proof (reachable_set_marking t) as [Hl Hs _ Hr Hc]. split; [apply Hs|].
  induction 1 as [i p Hg He|i p j _ IH Hg Hj Hlt]; [by eapply Hr|]. eapply Hc; [done|set_solver|done|done|done].
Qed.

Lemma collect_get t i :
  table_get (collect_unreachable_ancillary t).1 i =
  (if is_marked (reachable_set t) i then table_get t i else set_ancillary_fds [] <$> table_get t i).
Proof.
  unfold collect_unreachable_ancillary, table_get; simpl. rewrite list_lookup_imap.
  destruct (pipes t !! i) as [slot|]; simpl; [|by case_bool_step]. unfold sweep_slot. by case_bool_step.
Qed.

(** C20: The collector is exact.  It terminates, changes nothing but message
    queues, keeps the queue of every slot some process can still receive from,
    directly or through any chain of sockets queued in receivable slots, empties
    every other queue, and drops exactly the batches it removed. *)
Theorem collector_exact t :
  let '(t', effs) := collect_unreachable_ancillary t in
  free_list t' = free_list t /\ length (pipes t') = length (pipes t) /\
  (forall i, receivable t i -> table_get t' i = table_get t i) /\
  (forall i, ~ receivable t i -> table_get t' i = set_ancillary_fds [] <$> table_get t i) /\
  (forall fds, EDrop fds ∈ effs <->
     exists i p, table_get t i = Some p /\ fds ∈ p_ancillary_fds p /\ ~ receivable t i).
Proof.
  pose proof (collect_get t) as Hg. destruct (collect_unreachable_ancillary t) as [t' effs] eqn:E.
  unfold collect_unreachable_ancillary in E. simplify_eq/=. split_and!.
  - done.
  - by rewrite length_imap.
  - intros i Hi%reachable_set_exact. by rewrite Hg, Hi.
  - intros i Hi. rewrite Hg. destruct (is_marked (reachable_set t) i) eqn:Em; [|done].
    by apply reachable_set_exact in Em.
  - intros fds. rewrite list_elem_of_fmap. split.
    + intros (fds' & [= <-] & Hin). apply list_elem_of_In, in_concat in Hin as (bs & Hbs & Hin).
      apply list_elem_of_In, elem_of_lookup_imap in Hbs as (i & slot & -> & Hl).
      apply list_elem_of_In in Hin. unfold swept_batches in Hin. destruct slot as [p|]; [|set_solver].
      destruct (is_marked (reachable_set t) i) eqn:Em; [set_solver|]. exists i, p. split_and!; [|done|].
      * unfold table_get. by rewrite Hl.
      * intros Hr%reachable_set_exact. congruence.
    + intros (i & p & Hp & Hin & Hn). exists fds. split; [done|].
      apply list_elem_of_In, in_concat. exists (p_ancillary_fds p). split; [|by apply list_elem_of_In].
      apply list_elem_of_In, elem_of_lookup_imap. unfold table_get in Hp.
      destruct (pipes t !! i) as [slot|] eqn:El; [|done]. subst slot. exists i, (Some p). split; [|done].
      simpl. destruct (is_marked (reachable_set t) i) eqn:Em; [|done]. by apply reachable_set_exact in Em.
Qed.

(** ** Slots *)

Record slots_ok (t : PipeTable) : Prop := {
  sl_nodup : NoDup (free_list t);
  sl_free : forall i, i ∈ free_list t <-> pipes t !! i = Some None;
  sl_idx : forall i p, table_get t i = Some p -> p_pipe_idx p = idx_u32 i;
}.

Lemma table_get_None t i : pipes t !! i = Some None \/ pipes t !! i = None <-> table_get t i = None.
Proof. unfold table_get. destruct (pipes t !! i) as [[|]|]; naive_solver. Qed.

Lemma table_get_Some t i p : table_get t i = Some p <-> pipes t !! i = Some (Some p).
Proof. unfold table_get. destruct (pipes t !! i) as [[|]|]; naive_solver. Qed.

Lemma table_get_insert ps fl i slot j :
  (i < length ps)%nat ->
  table_get (mkPipes (<[i := slot]> ps) fl) j = if (j =? i)%nat then slot else table_get (mkPipes ps fl) j.
Proof.
  intros Hi. unfold table_get; simpl. destruct (Nat.eqb_spec j i) as [->|Hne].
  - by rewrite list_lookup_insert_eq.
  - by rewrite list_lookup_insert_ne.
Qed.

(** Filling a free slot. *)
Lemma fill_slot ps fl fl' i p :
  slots_ok (mkPipes ps fl) -> i ∈ fl -> NoDup fl' -> (forall j, j ∈ fl' <-> j ∈ fl /\ j <> i) ->
  p_pipe_idx p = idx_u32 i -> slots_ok (mkPipes (<[i := Some p]> ps) fl').
Proof.
  intros [Hn Hf Hidx] Hi Hn' Hfl Hp. simpl in *. apply Hf in Hi as Hl. apply lookup_lt_Some in Hl.
  split; simpl; [done| |].
  - intros j. rewrite Hfl, Hf. destruct (Nat.eqb_spec j i) as [->|Hne].
    + rewrite list_lookup_insert_eq by done. naive_solver.
    + rewrite list_lookup_insert_ne by done. naive_solver.
  - intros j q. rewrite table_get_insert by done. destruct (Nat.eqb_spec j i) as [->|]; [by intros [= <-]|apply Hidx].
Qed.

(** Appending a slot. *)
Lemma push_slot ps fl p :
  slots_ok (mkPipes ps fl) -> p_pipe_idx p = idx_u32 (length ps) ->
  slots_ok (mkPipes (vec_push ps (Some p)) fl).
Proof.
  intros [Hn Hf Hidx] Hp. simpl in *. unfold vec_push. split; simpl; [done| |].
  - intros j. rewrite Hf. destruct (Nat.ltb_spec j (length ps)).
    + by rewrite lookup_app_l.
    + rewrite (lookup_ge_None_2 ps) by done. destruct (Nat.eqb_spec j (length ps)) as [->|].
      * rewrite list_lookup_middle by done. naive_solver.
      * by rewrite lookup_ge_None_2 by (rewrite length_app; simpl; lia).
  - intros j q Hq. apply table_get_Some in Hq. simpl in Hq. apply lookup_app_Some in Hq as [Hq|[Hge Hq]].
    + apply Hidx. by apply table_get_Some.
    + apply list_lookup_singleton_Some in Hq as [E [= <-]]. by replace j with (length ps) by lia.
Qed.

Lemma push_get ps fl slot j :
  table_get (mkPipes (vec_push ps slot) fl) j =
  if (j =? length ps)%nat then slot else table_get (mkPipes ps fl) j.
Proof.
  unfold table_get, vec_push; simpl. destruct (Nat.eqb_spec j (length ps)) as [->|Hne].
  - by rewrite list_lookup_middle.
  - destruct (Nat.ltb_spec j (length ps)); [by rewrite lookup_app_l|].
    by rewrite !lookup_ge_None_2 by (rewrite ?length_app; simpl; lia).
Qed.

Lemma alloc_spec t p :
  slots_ok t ->
  let '(i, t') := table_alloc t p in
  slots_ok t' /\ table_get t i = None /\
  (forall j, table_get t' j = if (j =? i)%nat then Some (set_pipe_idx (idx_u32 i) p) else table_get t j).
Proof.
  intros Hok. unfold table_alloc. destruct t as [ps fl]. destruct (last fl) as [i|] eqn:El; simpl in *.
  - rewrite El. apply last_Some in El as [l ->]. pose proof Hok as [Hn Hf _]. simpl in *.
    apply NoDup_app in Hn as (Hn & Hx & _).
    assert (ps !! i = Some None) as Hi by (apply Hf; set_solver).
    assert (i < length ps)%nat by by eapply lookup_lt_Some. split_and!.
    + eapply fill_slot; [done|set_solver| | |done]; rewrite removelast_last; [done|]. set_solver.
    + unfold table_get. simpl. by rewrite Hi.
    + intros j. by rewrite table_get_insert.
  - rewrite El. split_and!.
    + by apply push_slot.
    + apply table_get_None. right. simpl. by apply lookup_ge_None_2.
    + intros j. by rewrite push_get.
Qed.

Lemma adjacent_pair_spec l a b : adjacent_pair l = Some (a, b) -> a ∈ l /\ b ∈ l /\ b = S a.
Proof.
  induction l as [|x [|y l] IH]; simpl; [done..|]. destruct (Nat.eqb_spec y (S x)).
  - intros [= <- <-]. set_solver.
  - intros H%IH. set_solver.
Qed.

Lemma alloc_pair_spec t p q :
  slots_ok t ->
  let '(a, b, t') := alloc_pair t p q in
  slots_ok t' /\ b = S a /\ table_get t a = None /\ table_get t b = None /\
  (forall j, table_get t' j =
     if (j =? b)%nat then Some (set_pipe_idx (idx_u32 b) q)
     else if (j =? a)%nat then Some (set_pipe_idx (idx_u32 a) p) else table_get t j).
Proof.
  intros Hok. unfold alloc_pair. destruct t as [ps fl]. destruct (free_pair (mkPipes ps fl)) as [[a b]|] eqn:Ef.
  - unfold free_pair in Ef. simpl in Ef. case_bool_step; [|done].
    apply adjacent_pair_spec in Ef as (Ha & Hb & ->). rewrite merge_sort_Permutation in Ha, Hb.
    pose proof Hok as [Hn Hf _]. simpl in *.
    apply Hf in Ha as Hpa. apply Hf in Hb as Hpb.
    assert (a < length ps)%nat by by eapply lookup_lt_Some. assert (S a < length ps)%nat by by eapply lookup_lt_Some.
    split_and!; [|done|by unfold table_get; simpl; rewrite Hpa|by unfold table_get; simpl; rewrite Hpb|].
    + eapply (fill_slot _ (List.filter (fun x => negb (x =? a)%nat) fl)).
      * eapply fill_slot; [done|done|by apply NoDup_ListNoDup, List.NoDup_filter, NoDup_ListNoDup| |done].
        intros j. rewrite elem_of_filter_bool, negb_true_iff, Nat.eqb_neq. done.
      * rewrite elem_of_filter_bool, negb_true_iff, Nat.eqb_neq. split; [done|lia].
      * by apply NoDup_ListNoDup, List.NoDup_filter, NoDup_ListNoDup.
      * intros j. rewrite !elem_of_filter_bool, andb_true_iff, !negb_true_iff, !Nat.eqb_neq. tauto.
      * done.
    + intros j. rewrite table_get_insert by by rewrite length_insert.
      destruct (j =? S a)%nat; [done|]. by rewrite table_get_insert.
  - unfold with_pipes; simpl. split_and!; [|done| | |].
    + apply push_slot; [by apply push_slot|]. simpl. unfold vec_push. rewrite length_app. simpl. by rewrite Nat.add_1_r.
    + apply table_get_None. right. simpl. by apply lookup_ge_None_2.
    + apply table_get_None. right. simpl. apply lookup_ge_None_2. lia.
    + intros j. rewrite push_get. unfold vec_push at 1. rewrite length_app. simpl. rewrite Nat.add_1_r.
      destruct (j =? S (length ps))%nat; [done|]. by rewrite push_get.
Qed.

Lemma collect_slots t : slots_ok t -> slots_ok (collect_unreachable_ancillary t).1.
Proof.
  intros [Hn Hf Hidx]. split; [done| |].
  - intros i. simpl. rewrite Hf, list_lookup_imap. destruct (pipes t !! i) as [[p|]|]; simpl; unfold sweep_slot;
      [case_bool_step; naive_solver|case_bool_step; naive_solver|naive_solver].
  - intros i p. rewrite collect_get. case_bool_step; [apply Hidx|].
    destruct (table_get t i) as [q|] eqn:E; [|done]. intros [= <-]. exact (Hidx i q E).
Qed.

Lemma update_slot t i p p' :
  slots_ok t -> table_get t i = Some p -> p_pipe_idx p' = p_pipe_idx p ->
  slots_ok (with_pipes t (<[i := Some p']> (pipes t))).
Proof.
  intros [Hn Hf Hidx] Hg Hp. apply table_get_Some in Hg as Hl. pose proof (lookup_lt_Some _ _ _ Hl).
  split; [done| |].
  - intros j. simpl. rewrite Hf. destruct (Nat.eqb_spec j i) as [->|Hne].
    + rewrite list_lookup_insert_eq by done. rewrite Hl. naive_solver.
    + by rewrite list_lookup_insert_ne.
  - intros j q. unfold with_pipes. rewrite table_get_insert by done.
    destruct (Nat.eqb_spec j i) as [->|]; [|destruct t; apply Hidx]. intros [= <-]. rewrite Hp. by apply Hidx.
Qed.

Lemma free_inner_spec t idx :
  slots_ok t ->
  let '(t', effs) := free_fully_closed_inner t idx in
  slots_ok t' /\
  (forall j, table_get t' j =
     match table_get t j with
     | Some p => if (j =? idx)%nat && is_fully_closed p then None else Some p
     | None => None
     end).
Proof.
  intros Hok. unfold free_fully_closed_inner. destruct (table_get t idx) as [p|] eqn:Eg.
  2: { split; [done|]. intros j. destruct (table_get t j) as [q|] eqn:Ej; [|done].
       destruct (Nat.eqb_spec j idx) as [->|]; [congruence|done]. }
  destruct (is_fully_closed p) eqn:Ec.
  2: { split; [done|]. intros j. destruct (table_get t j) as [q|] eqn:Ej; [|done].
       destruct (Nat.eqb_spec j idx) as [->|]; [|done]. simplify_eq. by rewrite Ec. }
  pose proof Hok as [Hn Hf Hidx]. apply table_get_Some in Eg as Hl. pose proof (lookup_lt_Some _ _ _ Hl).
  assert (idx ∉ free_list t) as Hni by (rewrite Hf, Hl; naive_solver). split; [split|].
  - simpl. unfold vec_push. apply NoDup_app. split; [done|]. split; [set_solver|apply NoDup_singleton].
  - intros j. simpl. unfold vec_push. rewrite elem_of_app, Hf, list_elem_of_singleton.
    destruct (Nat.eqb_spec j idx) as [->|Hne].
    + rewrite list_lookup_insert_eq by done. naive_solver.
    + rewrite list_lookup_insert_ne by done. naive_solver.
  - intros j q. rewrite table_get_insert by done. destruct (j =? idx)%nat; [done|]. destruct t; apply Hidx.
  - intros j. rewrite table_get_insert by done. destruct (Nat.eqb_spec j idx) as [->|]; simpl.
    + by rewrite Eg, Ec.
    + destruct t as [ps fl]. simpl. by destruct (table_get _ j).
Qed.

(** The table after [free_if_closed]. *)
Lemma free_if_closed_spec t idx :
  slots_ok t ->
  let '(t', effs) := free_if_closed idx t in
  slots_ok t' /\
  forall j, is_Some (table_get t' j) <->
    exists p, table_get t j = Some p /\ (j = idx -> is_fully_closed p = false).
Proof.
  intros Hok. unfold free_if_closed, table_op_seq. pose proof (free_inner_spec t idx Hok) as Hf.
  destruct (free_fully_closed_inner t idx) as [t1 e1]. destruct Hf as [Hok1 Hg1].
  pose proof (collect_slots t1 Hok1) as Hok2. pose proof (collect_get t1) as Hg2.
  destruct (collect_unreachable_ancillary t1) as [t2 e2]. simpl in *. split; [done|].
  intros j. rewrite Hg2. assert (is_Some (if is_marked (reachable_set t1) j then table_get t1 j
    else set_ancillary_fds [] <$> table_get t1 j) <-> is_Some (table_get t1 j)) as ->.
  { case_bool_step; [done|]. by rewrite fmap_is_Some. }
  rewrite Hg1. destruct (table_get t j) as [p|]; [|split; [by intros [? [=]]|by intros (? & [=] & _)]].
  destruct (Nat.eqb_spec j idx) as [->|Hne]; simpl.
  - destruct (is_fully_closed p) eqn:Ec; split; [by intros [? [=]]| |by exists p|by eexists].
    intros (q & [= <-] & Hq). specialize (Hq eq_refl). congruence.
  - split; [by exists p|by eexists].
Qed.

(** ** Every operation keeps the slots consistent *)

(** The operations reached through [get_mut]. *)
Inductive slot_op :=
| OpRef (op : ref_op)
| OpCloseOrderly
| OpReleaseOrderly
| OpReserve (owner : Z) (side : FifoOpenSide) (path : bytes) (status_flags fd_flags reserved_fd : Z)
| OpPublish (side : FifoOpenSide)
| OpPublishReadWrite
| OpWrite (data : bytes)
| OpRead (out : bytes)
| OpPopAncillary
| OpAddName
| OpMetadata (st : WasmStat).

Definition slot_step (op : slot_op) : pipe_op :=
  match op with
  | OpRef op => ref_step op
  | OpCloseOrderly => close_read_end_orderly
  | OpReleaseOrderly => release_in_flight_reader_orderly
  | OpReserve owner side path sf ff rf => fun p => (reserve_fifo_open owner side path sf ff rf p).2
  | OpPublish side => pure_op (publish_fifo_open side)
  | OpPublishReadWrite => pure_op publish_fifo_read_write_open
  | OpWrite data => fun p => (write data p).2
  | OpRead out => fun p => (read out p).2
  | OpPopAncillary => pure_op (fun p => (pop_ancillary p).2)
  | OpAddName => pure_op add_fifo_name
  | OpMetadata st => pure_op (update_fifo_metadata st)
  end.

Inductive table_act :=
| ActAlloc (p : PipeBuffer)
| ActAllocPair (p q : PipeBuffer)
| ActSlot (idx : nat) (op : slot_op)
| ActFree (idx : nat)
| ActQueue (idx : nat) (fds : list InFlightFd)
| ActFinish
| ActDiscard (idx : nat)
| ActRemoveName (idx : nat)
| ActRemoveNameAt (idx : nat) (sec nsec : Z)
| ActTakeReady (owner : Z)
| ActCancelOpen (owner : Z)
| ActCancelProcess (pid : Z).

Definition table_act_step (t : PipeTable) (act : table_act) : PipeTable :=
  match act with
  | ActAlloc p => (table_alloc t p).2
  | ActAllocPair p q => (alloc_pair t p q).2
  | ActSlot idx op => (table_update t idx (slot_step op)).1
  | ActFree idx => (free_if_closed idx t).1
  | ActQueue idx fds => (queue_retained_ancillary t idx fds).2.1
  | ActFinish => (finish_ancillary_transition t).1
  | ActDiscard idx => (discard_unclaimed idx t).1
  | ActRemoveName idx => (table_remove_fifo_name idx t).1
  | ActRemoveNameAt idx sec nsec => (table_remove_fifo_name_at idx sec nsec t).1
  | ActTakeReady owner => (table_take_ready_fifo_open t owner).2
  | ActCancelOpen owner => (table_cancel_fifo_open t owner).2.1
  | ActCancelProcess pid => (table_cancel_fifo_opens_for_process t pid).2.1
  end.

(** What a buffer is in the table: its slot number and its names. *)
Definition frame (p : PipeBuffer) : Z * bool * Z := (p_pipe_idx p, p_is_fifo p, p_fifo_names p).

(** Operations that leave that, or only the slot number, alone. *)
Definition keeps_frame (f : pipe_op) : Prop := forall p, frame (f p).1 = frame p.
Definition keeps_idx (f : pipe_op) : Prop := forall p, p_pipe_idx (f p).1 = p_pipe_idx p.

Create HintDb keeps.

Lemma frame_idx p q : frame p = frame q -> p_pipe_idx p = p_pipe_idx q.
Proof. unfold frame. congruence. Qed.

Lemma keeps_frame_idx f : keeps_frame f -> keeps_idx f.
Proof. intros Hf p. apply frame_idx, Hf. Qed.

Lemma keeps_andthen f g : keeps_frame f -> keeps_frame g -> keeps_frame (f ▷ g).
Proof.
  intros Hf Hg p. unfold andthen. specialize (Hf p). destruct (f p) as [p1 e1].
  specialize (Hg p1). destruct (g p1) as [p2 e2]. simpl in *. congruence.
Qed.

Lemma keeps_pure f : (forall p, frame (f p) = frame p) -> keeps_frame (pure_op f).
Proof. done. Qed.

Lemma keeps_wake w : keeps_frame (wake_op w).
Proof. done. Qed.

#[local] Hint Resolve keeps_andthen keeps_pure keeps_wake : keeps.

Lemma keeps_close_read_end : keeps_frame close_read_end.
Proof. apply keeps_andthen; [|apply keeps_wake]. intros p. cbv beta zeta. by case_bool_step. Qed.

Lemma keeps_close_read_end_orderly : keeps_frame close_read_end_orderly.
Proof. apply keeps_andthen; [|apply keeps_wake]. intros p. cbv beta zeta. by case_bool_step. Qed.

Lemma keeps_close_write_end : keeps_frame close_write_end.
Proof. apply keeps_andthen; [|apply keeps_wake]. intros p. simpl. by repeat case_bool_step. Qed.

Lemma keeps_cohort p : frame (end_reader_cohort p) = frame p.
Proof. unfold end_reader_cohort. by repeat case_bool_step. Qed.

Lemma keeps_adopt k p : frame (adopt_in_flight_reference k p) = frame p.
Proof. by destruct k. Qed.

#[local] Hint Resolve keeps_close_read_end keeps_close_read_end_orderly keeps_close_write_end keeps_cohort keeps_adopt : keeps.

Lemma keeps_add_reference k : keeps_frame (add_reference k).
Proof. destruct k as [|[]| |]; unfold add_reference, add_reader, add_writer; auto with keeps. Qed.

Lemma keeps_close_reference k : keeps_frame (close_reference k).
Proof. destruct k as [|[]| |]; unfold close_reference, close_fifo_read_only; auto with keeps. Qed.

#[local] Hint Resolve keeps_add_reference keeps_close_reference : keeps.

Lemma keeps_ref_step op : keeps_frame (ref_step op).
Proof.
  destruct op as [k|k|k|k|k]; unfold ref_step, retain_in_flight_reference, release_in_flight_reference;
    auto with keeps. apply keeps_andthen; [auto with keeps|]. by destruct k.
Qed.

Lemma keeps_cancel owner p : frame (cancel_fifo_open owner p).2.1 = frame p.
Proof.
  unfold cancel_fifo_open. destruct (p_fifo_open_waiters p !! owner) as [w|]; [|done]. simpl.
  destruct (fw_side w).
  - assert (keeps_frame (close_read_end ▷ pure_op end_reader_cohort)) as Hk by auto with keeps. by rewrite Hk.
  - by rewrite keeps_close_write_end.
Qed.

Lemma keeps_cancel_owners owners p : frame (cancel_owners owners p).2.1 = frame p.
Proof.
  revert p. induction owners as [|o os IH]; intros p; simpl; [done|]. pose proof (keeps_cancel o p) as Hc.
  destruct (cancel_fifo_open o p) as [w [p1 e1]]. specialize (IH p1).
  destruct (cancel_owners os p1) as [ws [p2 e2]]. simpl in *. congruence.
Qed.

(** Every operation through [get_mut] but the one that adds a name. *)
Lemma keeps_slot_frame op : op <> OpAddName -> keeps_frame (slot_step op).
Proof.
  destruct op; unfold slot_step, release_in_flight_reader_orderly; intros Hop; auto with keeps.
  - apply keeps_ref_step.
  - intros p. unfold reserve_fifo_open. destruct (p_fifo_open_waiters p !! owner); [done|]. by destruct side.
  - apply keeps_pure. intros p. destruct side; [|done]. simpl. by repeat case_bool_step.
  - intros p. unfold write. by repeat case_bool_step.
  - intros p. unfold read. by repeat case_bool_step.
  - apply keeps_pure. intros p. unfold pop_ancillary. by destruct (p_ancillary_fds p).
  - done.
Qed.

Lemma keeps_slot_step op : keeps_idx (slot_step op).
Proof. destruct op; try (apply keeps_frame_idx, keeps_slot_frame; discriminate). done. Qed.

(** A table operation that keeps the slots consistent. *)
Definition keeps_slots (f : PipeTable -> PipeTable * list effect) : Prop :=
  forall t, slots_ok t -> slots_ok (f t).1.

Lemma seq_slots f g : keeps_slots f -> keeps_slots g -> keeps_slots (table_op_seq f g).
Proof.
  intros Hf Hg t Hok. unfold table_op_seq. specialize (Hf t Hok). destruct (f t) as [t1 e1].
  specialize (Hg t1 Hf). by destruct (g t1) as [t2 e2].
Qed.

Lemma update_slots idx f : keeps_idx f -> keeps_slots (fun t => table_update t idx f).
Proof.
  intros Hf t Hok. unfold table_update. destruct (table_get t idx) as [p|] eqn:E; [|done].
  specialize (Hf p). destruct (f p) as [p' e]. by eapply update_slot.
Qed.

Lemma free_slots idx : keeps_slots (free_if_closed idx).
Proof.
  intros t Hok. pose proof (free_if_closed_spec t idx Hok) as Hs. destruct (free_if_closed idx t). by destruct Hs.
Qed.

Lemma cancel_slots_ok idxs pid t : slots_ok t -> slots_ok (cancel_slots idxs pid t).2.1.
Proof.
  revert t. induction idxs as [|idx idxs IH]; intros t Hok; simpl; [done|].
  set (step := match table_get t idx with Some p => _ | None => _ end).
  assert (slots_ok step.2.1) as Hok1.
  { subst step. destruct (table_get t idx) as [p|] eqn:E; [|done]. case_bool_step; [|done].
    pose proof (keeps_cancel_owners (List.filter (fun owner => as_u32 (Z.shiftr owner 32) =? pid)
      (sorted_keys (p_fifo_open_waiters p))) p) as Hk. unfold cancel_fifo_opens_for_process.
    destruct (cancel_owners _ p) as [ws [p' e]]. eapply update_slot; [done..|]. by apply frame_idx. }
  destruct step as [ws1 [t1 e1]]. pose proof (free_slots idx t1 Hok1) as Hok2.
  destruct (free_if_closed idx t1) as [t2 e2]. specialize (IH t2 Hok2).
  by destruct (cancel_slots idxs pid t2) as [ws3 [t3 e3]].
Qed.

Lemma take_ready_slots owner t : slots_ok t -> slots_ok (table_take_ready_fifo_open t owner).2.
Proof.
  intros Hok. unfold table_take_ready_fifo_open. destruct (find_fifo_open t owner) as [idx|]; [|done].
  destruct (table_get t idx) as [p|] eqn:E; [|done]. unfold take_ready_fifo_open.
  destruct (p_fifo_open_waiters p !! owner) as [w|]; [|done]. destruct (fw_ready w); [|done].
  by eapply update_slot.
Qed.

Lemma cancel_open_slots owner t : slots_ok t -> slots_ok (table_cancel_fifo_open t owner).2.1.
Proof.
  intros Hok. unfold table_cancel_fifo_open. destruct (find_fifo_open t owner) as [idx|]; [|done].
  destruct (table_get t idx) as [p|] eqn:E; [|done]. pose proof (keeps_cancel owner p) as Hk.
  destruct (cancel_fifo_open owner p) as [[w|] [p' e]]; [|done].
  pose proof (free_slots idx (with_pipes t (<[idx:=Some p']> (pipes t)))) as Hf.
  destruct (free_if_closed idx _) as [t2 e2]. apply Hf. eapply update_slot; [done..|]. by apply frame_idx.
Qed.

Lemma table_act_slots act t : slots_ok t -> slots_ok (table_act_step t act).
Proof.
  intros Hok. destruct act; simpl.
  - pose proof (alloc_spec t p Hok) as Hs. destruct (table_alloc t p). by destruct Hs.
  - pose proof (alloc_pair_spec t p q Hok) as Hs. destruct (alloc_pair t p q) as [[]]. by destruct Hs.
  - by apply (update_slots idx); [apply keeps_slot_step|].
  - by apply free_slots.
  - unfold queue_retained_ancillary. destruct (table_get t idx); [|done]. apply seq_slots; [|exact collect_slots|done].
    apply update_slots, keeps_frame_idx, keeps_pure. intros q. by destruct fds.
  - by apply collect_slots.
  - apply seq_slots; [|apply free_slots|done]. apply update_slots, keeps_frame_idx. auto with keeps.
  - apply seq_slots; [|apply free_slots|done]. by apply update_slots.
  - apply seq_slots; [|apply free_slots|done]. by apply update_slots.
  - by apply take_ready_slots.
  - by apply cancel_open_slots.
  - by apply cancel_slots_ok.
Qed.

Lemma table_acts_slots acts t : slots_ok t -> slots_ok (fold_left table_act_step acts t).
Proof. revert t. induction acts as [|a acts IH]; intros t Hok; simpl; [done|]. by apply IH, table_act_slots. Qed.

Lemma table_new_slots : slots_ok table_new.
Proof.
  split; [apply NoDup_nil_2| |]; intros i; destruct i; simpl; [set_solver..| |]; done.
Qed.

(** Slot lifecycle.  After any sequence of operations on the table, the free
    list holds every empty slot exactly once and every live buffer carries its
    own slot number; then [alloc] hands out a slot nobody holds, [alloc_pair] two
    neighbouring ones, both leave every other buffer untouched, and
    [free_if_closed] empties its slot exactly when the buffer is fully closed and
    never empties another. *)
Theorem slot_lifecycle acts :
  let t := fold_left table_act_step acts table_new in
  NoDup (free_list t) /\
  (forall i, i ∈ free_list t <-> pipes t !! i = Some None) /\
  (forall i p, table_get t i = Some p -> p_pipe_idx p = idx_u32 i) /\
  (forall p, let '(i, t') := table_alloc t p in
     table_get t i = None /\
     forall j, table_get t' j = if (j =? i)%nat then Some (set_pipe_idx (idx_u32 i) p) else table_get t j) /\
  (forall p q, let '(a, b, t') := alloc_pair t p q in
     b = S a /\ table_get t a = None /\ table_get t b = None /\
     forall j, table_get t' j =
       if (j =? b)%nat then Some (set_pipe_idx (idx_u32 b) q)
       else if (j =? a)%nat then Some (set_pipe_idx (idx_u32 a) p) else table_get t j) /\
  (forall idx j, is_Some (table_get (free_if_closed idx t).1 j) <->
     exists p, table_get t j = Some p /\ (j = idx -> is_fully_closed p = false)).
Proof.
  intros t. assert (slots_ok t) as Hok by apply table_acts_slots, table_new_slots.
  pose proof Hok as [Hn Hf Hi]. split_and!; try done.
  - intros p. pose proof (alloc_spec t p Hok) as Hs. destruct (table_alloc t p). tauto.
  - intros p q. pose proof (alloc_pair_spec t p q Hok) as Hs. destruct (alloc_pair t p q) as [[]]. tauto.
  - intros idx. pose proof (free_if_closed_spec t idx Hok) as Hs. destruct (free_if_closed idx t). tauto.
Qed.

(** ** Dropped messages release what they own *)

Definition effect_fds (e : effect) : list InFlightFd :=
  match e with EWake _ _ => [] | EDrop fds => fds end.

(** The descriptors that own a reference among those a list of effects drops. *)
Definition owned_drops (es : list effect) : list InFlightFd :=
  List.filter fd_owns_reference (concat (map effect_fds es)).

(** How many of them refer to one open file description. *)
Definition owned_refs (id : Z) (fds : list InFlightFd) : Z :=
  Z.of_nat (length (List.filter (fun fd => fd_ofd_id fd =? id) fds)).

Record released (w : World) (fds : list InFlightFd) (w' : World) : Prop := {
  rl_ok : in_flight_ok (w_in_flight w');
  rl_refs : forall id, refs_of (w_in_flight w') id = refs_of (w_in_flight w) id - owned_refs id fds;
  rl_records : dq_records (w_deferred w') = dq_records (w_deferred w) ++ map release_metadata fds;
  rl_reserved : dq_reserved (w_deferred w') = (dq_reserved (w_deferred w) - length fds)%nat;
}.

Lemma owned_refs_app id a b : owned_refs id (a ++ b) = owned_refs id a + owned_refs id b.
Proof. unfold owned_refs. rewrite List.filter_app, length_app. lia. Qed.

Lemma owned_refs_single id fd : owned_refs id [fd] = if fd_ofd_id fd =? id then 1 else 0.
Proof. unfold owned_refs. cbn [List.filter]. by case_bool_step. Qed.

Lemma owned_refs_nonneg id a : 0 <= owned_refs id a.
Proof. unfold owned_refs. lia. Qed.

Lemma released_trans w a w1 b w2 : released w a w1 -> released w1 b w2 -> released w (a ++ b) w2.
Proof.
  intros [H1 H2 H3 H4] [G1 G2 G3 G4]. split; [done| | |].
  - intros id. rewrite G2, H2, owned_refs_app. lia.
  - by rewrite G3, H3, map_app, app_assoc.
  - rewrite G4, H4, length_app. lia.
Qed.

Lemma released_nil w w' :
  in_flight_ok (w_in_flight w) -> w_in_flight w' = w_in_flight w -> w_deferred w' = w_deferred w -> released w [] w'.
Proof.
  intros Hok H1 H2. split; rewrite ?H1, ?H2; [done| |by rewrite app_nil_r|simpl; lia].
  intros id. unfold owned_refs. simpl. lia.
Qed.

Lemma drop_released w fd :
  in_flight_ok (w_in_flight w) ->
  (fd_owns_reference fd = true -> 0 < refs_of (w_in_flight w) (fd_ofd_id fd)) ->
  released w (List.filter fd_owns_reference [fd]) (drop_in_flight_fd w fd).
Proof.
  intros Hok Hpos. unfold drop_in_flight_fd. cbn [List.filter].
  destruct (fd_owns_reference fd); [|by apply released_nil]. specialize (Hpos eq_refl).
  pose proof (release_spec (w_in_flight w) (fd_ofd_id fd) Hok) as Hr.
  destruct (release_in_flight_ofd (w_in_flight w) (fd_ofd_id fd)) as [l refs']. destruct Hr as (Hok' & _ & Hrefs).
  split; [done| |done|done]. intros id. cbn [w_in_flight snd]. rewrite Hrefs, owned_refs_single.
  destruct (Z.eqb_spec id (fd_ofd_id fd)) as [->|Hne]; [rewrite Z.eqb_refl|];
    [|rewrite (proj2 (Z.eqb_neq (fd_ofd_id fd) id)) by congruence]; cbn [andb]; [|lia]. by rewrite (proj2 (Z.ltb_lt 0 _)) by done.
Qed.

Lemma drops_released fds w :
  in_flight_ok (w_in_flight w) ->
  (forall id, owned_refs id (List.filter fd_owns_reference fds) <= refs_of (w_in_flight w) id) ->
  released w (List.filter fd_owns_reference fds) (fold_left drop_in_flight_fd fds w).
Proof.
  revert w. induction fds as [|fd fds IH]; intros w Hok Hc; [by apply released_nil|].
  change (fd :: fds) with ([fd] ++ fds) in *. rewrite List.filter_app in *. rewrite fold_left_app.
  assert (released w (List.filter fd_owns_reference [fd]) (drop_in_flight_fd w fd)) as Hd.
  { apply drop_released; [done|]. intros Ho. specialize (Hc (fd_ofd_id fd)). rewrite owned_refs_app in Hc.
    cbn [List.filter] in Hc. rewrite Ho, owned_refs_single, Z.eqb_refl in Hc.
    pose proof (owned_refs_nonneg (fd_ofd_id fd) (List.filter fd_owns_reference fds)). lia. }
  eapply released_trans; [exact Hd|]. destruct Hd as [Hok1 Hr1 _ _]. apply IH; [done|].
  intros id. rewrite Hr1. specialize (Hc id). rewrite owned_refs_app in Hc. lia.
Qed.

Lemma run_effects_released es w :
  in_flight_ok (w_in_flight w) ->
  (forall id, owned_refs id (owned_drops es) <= refs_of (w_in_flight w) id) ->
  released w (owned_drops es) (run_effects w es).
Proof.
  unfold run_effects, owned_drops. revert w. induction es as [|e es IH]; intros w Hok Hc; [by apply released_nil|].
  simpl in *. rewrite List.filter_app in *.
  assert (released w (List.filter fd_owns_reference (effect_fds e)) (run_effect w e)) as Hd.
  { destruct e as [idx wake|fds]; [by apply released_nil|]. apply drops_released; [done|].
    intros id. specialize (Hc id). rewrite owned_refs_app in Hc. cbn [effect_fds] in *.
    pose proof (owned_refs_nonneg id (List.filter fd_owns_reference (concat (map effect_fds es)))). lia. }
  eapply released_trans; [exact Hd|]. destruct Hd as [Hok1 Hr1 _ _]. apply IH; [done|].
  intros id. rewrite Hr1. specialize (Hc id). rewrite owned_refs_app in Hc. lia.
Qed.

(** Collected messages release what they own, once.  When the in-flight
    references cover the queued descriptors, collection keeps the reference
    table well formed, lowers the count of every open file description by the
    number of owning descriptors it dropped, and queues one cleanup record per
    such descriptor, in order, each paid from the reserved capacity. *)
Theorem collection_releases_owned t w :
  let effs := (collect_unreachable_ancillary t).2 in
  in_flight_ok (w_in_flight w) ->
  (forall id, owned_refs id (owned_drops effs) <= refs_of (w_in_flight w) id) ->
  let w' := run_effects w effs in
  in_flight_ok (w_in_flight w') /\
  (forall id, refs_of (w_in_flight w') id = refs_of (w_in_flight w) id - owned_refs id (owned_drops effs)) /\
  dq_records (w_deferred w') = dq_records (w_deferred w) ++ map release_metadata (owned_drops effs) /\
  dq_reserved (w_deferred w') = (dq_reserved (w_deferred w) - length (owned_drops effs))%nat /\
  w_wakeups w' = w_wakeups w.
Proof.
  intros effs Hok Hc w'.
  destruct (run_effects_released effs w Hok Hc) as [H1 H2 H3 H4]. split_and!; try done.
  subst w' effs. clear. unfold collect_unreachable_ancillary. cbn [snd].
  unfold run_effects. generalize (concat (imap (λ i slot, swept_batches (is_marked (reachable_set t) i) slot) (pipes t))).
  intros l. revert w. induction l as [|fds l IH]; intros w; simpl; [done|]. rewrite IH. clear.
  revert w. induction fds as [|fd fds IH]; intros w; simpl; [done|]. rewrite IH.
  unfold drop_in_flight_fd. by case_bool_step.
Qed.

(** A socket queued in its own, otherwise unreferenced receive pipe: the cycle
    [SCM_RIGHTS] collection exists for. *)
Definition cyclic_fd : InFlightFd :=
  mkInFlight 7 None Socket 2 0 0 [] None
    (Some (mkInFlightSocket 0 0 0 2 None (Some 0%nat) true false false [] 0 [] 0)) true.

Definition cyclic_table : PipeTable :=
  mkPipes [Some (set_ancillary_fds [[cyclic_fd]] (set_in_flight_read_count 1 (pipe_new 4)))] [].

Definition cyclic_world : World := mkWorld WAKEUP_BUFFER [(7, 1)] (mkDeferred [] 1).

Lemma collection_releases_owned_witness :
  refs_of (w_in_flight (run_effects cyclic_world (collect_unreachable_ancillary cyclic_table).2)) 7 = 0 /\
  dq_records (w_deferred (run_effects cyclic_world (collect_unreachable_ancillary cyclic_table).2)) =
    [release_metadata cyclic_fd].
Proof.
  destruct (collection_releases_owned cyclic_table cyclic_world) as (_ & Hr & Hd & _).
  - split; repeat constructor; vm_compute; discriminate.
  - intros id. replace (owned_drops _) with [cyclic_fd] by (vm_compute; reflexivity).
    rewrite owned_refs_single. cbn [fd_ofd_id cyclic_fd]. unfold refs_of. simpl. case_bool_step; simpl; lia.
  - split; [rewrite Hr; reflexivity|rewrite Hd; reflexivity].
Defined.
