(* ===== verification/Mqueue.v ===== *)
(** * POSIX message queues ([crates/kernel/src/mqueue.rs])

    [MqueueTable]: named queues, the descriptors that refer to them by name, and
    the one notification handed to the host after a send.  Names are byte
    strings; both ordered maps are finite maps, since no operation depends on
    their order; [u32] counters wrap on [+=] as in the release profile.  A
    blocking operation on a full or empty queue returns EAGAIN for the host to
    retry, as a non-blocking one does.

    The theorems: a queue is one FIFO per priority and a receive takes the oldest
    message of the highest one, with every error and the one-shot notification
    pinned down; messages are neither lost, duplicated nor reordered over any run
    that keeps the queue; and, unless a name is created again while the unlinked
    queue of that name is still open, a queue lives exactly as long as its name or
    a descriptor refers to it.  The excluded case is evaluated at the end. *)

From stdpp Require Import sorting.
From S2P Require Import Prelude Abi.

Definition O_CREAT : Z := 0x40.
Definition O_EXCL : Z := 0x80.
Definition O_LARGEFILE : Z := 0x8000.

Definition SIGEV_SIGNAL : Z := 0.
Definition SIGEV_NONE : Z := 1.
Definition DEFAULT_MAXMSG : Z := 10.
Definition DEFAULT_MSGSIZE : Z := 8192.
Definition MQD_BASE : Z := 0x40000000.

Record MqMessage := mkMsg { msg_data : bytes; msg_priority : Z }.

Record MqNotification := mkNotif { n_pid : Z; n_signo : Z }.

Record MqQueue := mkQueue {
  q_name : bytes;
  q_maxmsg : Z;
  q_msgsize : Z;
  q_messages : list MqMessage;
  q_unlinked : bool;
  q_open_count : Z;
  q_notification : option MqNotification;
  q_mode : Z;
}.

Record MqDescriptor := mkDesc {
  d_queue_name : bytes;
  d_access_mode : Z;
  d_nonblock : bool;
}.

Record MqAttr := mkAttr { a_flags : Z; a_maxmsg : Z; a_msgsize : Z; a_curmsgs : Z }.

Record MqueueTable := mkMq {
  queues : gmap bytes MqQueue;
  descriptors : gmap Z MqDescriptor;
  next_mqd : Z;
  pending_notification : option MqNotification;
}.

Definition set_messages (ms : list MqMessage) (q : MqQueue) : MqQueue :=
  mkQueue (q_name q) (q_maxmsg q) (q_msgsize q) ms (q_unlinked q) (q_open_count q) (q_notification q) (q_mode q).
Definition set_unlinked (q : MqQueue) : MqQueue :=
  mkQueue (q_name q) (q_maxmsg q) (q_msgsize q) (q_messages q) true (q_open_count q) (q_notification q) (q_mode q).
Definition set_open_count (c : Z) (q : MqQueue) : MqQueue :=
  mkQueue (q_name q) (q_maxmsg q) (q_msgsize q) (q_messages q) (q_unlinked q) c (q_notification q) (q_mode q).
Definition set_notification (n : option MqNotification) (q : MqQueue) : MqQueue :=
  mkQueue (q_name q) (q_maxmsg q) (q_msgsize q) (q_messages q) (q_unlinked q) (q_open_count q) n (q_mode q).

Definition with_queues (t : MqueueTable) (qs : gmap bytes MqQueue) : MqueueTable :=
  mkMq qs (descriptors t) (next_mqd t) (pending_notification t).
Definition with_descriptors (t : MqueueTable) (ds : gmap Z MqDescriptor) : MqueueTable :=
  mkMq (queues t) ds (next_mqd t) (pending_notification t).

Definition mq_new : MqueueTable := mkMq ∅ ∅ MQD_BASE None.

Definition set_pending_notification (t : MqueueTable) (n : MqNotification) : MqueueTable :=
  mkMq (queues t) (descriptors t) (next_mqd t) (Some n).

Definition take_pending_notification (t : MqueueTable) : option MqNotification * MqueueTable :=
  (pending_notification t, mkMq (queues t) (descriptors t) (next_mqd t) None).

Definition is_mqd (t : MqueueTable) (fd : Z) : bool := bool_decide (is_Some (descriptors t !! fd)).

Definition is_nonblock (t : MqueueTable) (mqd : Z) : option bool := d_nonblock <$> descriptors t !! mqd.

Definition flag_set (flags bit : Z) : bool := negb (Z.land flags bit =? 0).

(** [queues.get(name).map(|q| !q.unlinked).unwrap_or(false)]. *)
Definition linked (t : MqueueTable) (name : bytes) : bool :=
  match queues t !! name with Some q => negb (q_unlinked q) | None => false end.

(** The tail of [mq_open]: a new descriptor for the queue. *)
Definition new_descriptor (t : MqueueTable) (name : bytes) (access_mode : Z) (nonblock : bool)
    : kresult Z * MqueueTable :=
  let mqd := next_mqd t in
  (Ok mqd,
   mkMq (queues t) (<[mqd := mkDesc name access_mode nonblock]> (descriptors t)) (u32_wrap (mqd + 1))
     (pending_notification t)).

Definition mq_open (t : MqueueTable) (name : bytes) (flags mode attr_maxmsg attr_msgsize : Z) (has_attr : bool)
    : kresult Z * MqueueTable :=
  let flags := Z.ldiff flags O_LARGEFILE in
  let access_mode := Z.land flags O_ACCMODE in
  let creating := flag_set flags O_CREAT in
  let exclusive := flag_set flags O_EXCL in
  let nonblock := flag_set flags O_NONBLOCK in
  if (length name =? 0)%nat || (255 <? length name)%nat then (Err EINVAL, t)
  else
    let exists_ := linked t name in
    if creating && exclusive && exists_ then (Err EEXIST, t)
    else if negb creating && negb exists_ then (Err ENOENT, t)
    else if exists_ then
      new_descriptor
        (with_queues t (alter (fun q => set_open_count (u32_wrap (q_open_count q + 1)) q) name (queues t)))
        name access_mode nonblock
    else
      let maxmsg := if has_attr then attr_maxmsg else DEFAULT_MAXMSG in
      let msgsize := if has_attr then attr_msgsize else DEFAULT_MSGSIZE in
      if (maxmsg =? 0) || (msgsize =? 0) then (Err EINVAL, t)
      else
        new_descriptor
          (with_queues t (<[name := mkQueue name maxmsg msgsize [] false 1 None mode]> (queues t)))
          name access_mode nonblock.

Definition mq_close (t : MqueueTable) (mqd : Z) : kresult unit * MqueueTable :=
  match descriptors t !! mqd with
  | None => (Err EBADF, t)
  | Some desc =>
      let t := with_descriptors t (delete mqd (descriptors t)) in
      match queues t !! d_queue_name desc with
      | None => (Ok (), t)
      | Some q =>
          let q := set_open_count (u32_saturating_sub (q_open_count q) 1) q in
          if (q_open_count q =? 0) && q_unlinked q
          then (Ok (), with_queues t (delete (d_queue_name desc) (queues t)))
          else (Ok (), with_queues t (<[d_queue_name desc := q]> (queues t)))
      end
  end.

Definition mq_unlink (t : MqueueTable) (name : bytes) : kresult unit * MqueueTable :=
  match queues t !! name with
  | None => (Err ENOENT, t)
  | Some q =>
      if q_unlinked q then (Err ENOENT, t)
      else if q_open_count q =? 0 then (Ok (), with_queues t (delete name (queues t)))
      else (Ok (), with_queues t (<[name := set_unlinked q]> (queues t)))
  end.

(** [position(|m| priority > m.priority)], then [insert] or [push]. *)
Definition insert_message (msg : MqMessage) (ms : list MqMessage) : list MqMessage :=
  match position (fun m => msg_priority m <? msg_priority msg) ms with
  | Some i => vec_insert i msg ms
  | None => vec_push ms msg
  end.

Definition mq_send (t : MqueueTable) (mqd : Z) (data : bytes) (priority : Z)
    : kresult (option MqNotification) * MqueueTable :=
  match descriptors t !! mqd with
  | None => (Err EBADF, t)
  | Some desc =>
      if d_access_mode desc =? O_RDONLY then (Err EBADF, t)
      else
        match queues t !! d_queue_name desc with
        | None => (Err EBADF, t)
        | Some q =>
            if q_msgsize q <? Z.of_nat (length data) then (Err EMSGSIZE, t)
            else if q_maxmsg q <=? Z.of_nat (length (q_messages q)) then (Err EAGAIN, t)
            else
              let was_empty := (length (q_messages q) =? 0)%nat in
              let q1 := set_messages (insert_message (mkMsg data priority) (q_messages q)) q in
              let notification := if was_empty then q_notification q1 else None in
              let q2 := if was_empty then set_notification None q1 else q1 in
              (Ok notification, with_queues t (<[d_queue_name desc := q2]> (queues t)))
        end
  end.

Definition mq_receive (t : MqueueTable) (mqd buf_size : Z) : kresult MqMessage * MqueueTable :=
  match descriptors t !! mqd with
  | None => (Err EBADF, t)
  | Some desc =>
      if d_access_mode desc =? O_WRONLY then (Err EBADF, t)
      else
        match queues t !! d_queue_name desc with
        | None => (Err EBADF, t)
        | Some q =>
            if buf_size <? q_msgsize q then (Err EMSGSIZE, t)
            else
              match q_messages q with
              | [] => (Err EAGAIN, t)
              | msg :: rest => (Ok msg, with_queues t (<[d_queue_name desc := set_messages rest q]> (queues t)))
              end
        end
  end.

Definition mq_notify (t : MqueueTable) (mqd pid : Z) (sigev_notify : option Z) (signo : Z)
    : kresult unit * MqueueTable :=
  match descriptors t !! mqd with
  | None => (Err EBADF, t)
  | Some desc =>
      match queues t !! d_queue_name desc with
      | None => (Err EBADF, t)
      | Some q =>
          let register n :=
            match q_notification q with
            | Some _ => (Err EBUSY, t)
            | None => (Ok (), with_queues t (<[d_queue_name desc := set_notification (Some n) q]> (queues t)))
            end in
          match sigev_notify with
          | None => (Ok (), with_queues t (<[d_queue_name desc := set_notification None q]> (queues t)))
          | Some k =>
              if k =? SIGEV_NONE then register (mkNotif pid 0)
              else if k =? SIGEV_SIGNAL then register (mkNotif pid signo)
              else (Err EINVAL, t)
          end
      end
  end.

Definition mq_getsetattr (t : MqueueTable) (mqd : Z) (new_flags : option Z) : kresult MqAttr * MqueueTable :=
  match descriptors t !! mqd with
  | None => (Err EBADF, t)
  | Some desc =>
      match queues t !! d_queue_name desc with
      | None => (Err EBADF, t)
      | Some q =>
          let result := mkAttr (if d_nonblock desc then O_NONBLOCK else 0) (q_maxmsg q) (q_msgsize q)
                          (as_u32 (Z.of_nat (length (q_messages q)))) in
          (Ok result,
           match new_flags with
           | Some flags =>
               with_descriptors t (<[mqd := mkDesc (d_queue_name desc) (d_access_mode desc)
                                              (flag_set flags O_NONBLOCK)]> (descriptors t))
           | None => t
           end)
      end
  end.

Definition drop_notification (pid : Z) (q : MqQueue) : MqQueue :=
  match q_notification q with
  | Some n => if n_pid n =? pid then set_notification None q else q
  | None => q
  end.

Definition cleanup_process (t : MqueueTable) (pid : Z) : MqueueTable :=
  with_queues t (drop_notification pid <$> queues t).

(** ** A queue is one FIFO per priority *)

(** The messages of one priority, oldest first. *)
Definition at_priority (p : Z) (ms : list MqMessage) : list MqMessage :=
  List.filter (fun m => msg_priority m =? p) ms.

Definition higher_first (a b : MqMessage) : Prop := msg_priority b <= msg_priority a.

#[local] Instance higher_first_trans : Transitive higher_first.
Proof. unfold higher_first. intros ???. lia. Qed.

Record queue_ok (q : MqQueue) : Prop := {
  qk_sorted : StronglySorted higher_first (q_messages q);
  qk_count : Z.of_nat (length (q_messages q)) <= q_maxmsg q;
  qk_sizes : Forall (fun m => Z.of_nat (length (msg_data m)) <= q_msgsize q) (q_messages q);
}.

Lemma insert_message_perm m ms : insert_message m ms ≡ₚ m :: ms.
Proof.
  unfold insert_message. destruct (position _ ms) as [i|]; [apply vec_insert_perm|].
  unfold vec_push. by rewrite Permutation_app_comm.
Qed.

(** The position of the new message: after everything of its own or a higher
    priority. *)
Lemma insert_message_split m ms :
  StronglySorted higher_first ms ->
  exists l1 l2, ms = l1 ++ l2 /\ insert_message m ms = l1 ++ m :: l2 /\
    Forall (fun x => msg_priority m <= msg_priority x) l1 /\ Forall (fun x => msg_priority x < msg_priority m) l2.
Proof.
  intros Hs. unfold insert_message. pose proof (position_spec (fun x => msg_priority x <? msg_priority m) ms) as Hp.
  destruct (position _ ms) as [i|].
  - destruct Hp as (l1 & e & l2 & -> & He & Hl1 & ->). apply Z.ltb_lt in He.
    exists l1, (e :: l2). split_and!; [done| | |].
    + unfold vec_insert. by rewrite take_app_length, drop_app_length.
    + eapply Forall_impl; [exact Hl1|]. intros x Hx. by apply Z.ltb_ge in Hx.
    + apply sorted_app in Hs as [_ [_ Hs]%StronglySorted_inv]. constructor; [done|].
      eapply Forall_impl; [exact Hs|]. unfold higher_first. intros x Hx. lia.
  - exists ms, []. rewrite app_nil_r. split_and!; [done|done| |constructor].
    eapply Forall_impl; [exact Hp|]. intros x Hx. by apply Z.ltb_ge in Hx.
Qed.

Lemma insert_message_sorted m ms :
  StronglySorted higher_first ms -> StronglySorted higher_first (insert_message m ms).
Proof.
  intros Hs. destruct (insert_message_split m ms Hs) as (l1 & l2 & -> & -> & H1 & H2).
  apply sorted_app in Hs as [Hs1 Hs2]. apply StronglySorted_app_2; [|done|].
  2: { constructor; [done|]. eapply Forall_impl; [exact H2|]. unfold higher_first. intros. lia. }
  rewrite Forall_forall in H1, H2. intros x y Hx [->|Hy]%elem_of_cons; unfold higher_first; [by apply H1|].
  specialize (H1 x Hx). specialize (H2 y Hy). lia.
Qed.

Lemma insert_message_fifo m ms p :
  StronglySorted higher_first ms ->
  at_priority p (insert_message m ms) = at_priority p ms ++ (if msg_priority m =? p then [m] else []).
Proof.
  intros Hs. destruct (insert_message_split m ms Hs) as (l1 & l2 & -> & -> & H1 & H2).
  unfold at_priority. rewrite !List.filter_app. cbn [List.filter].
  destruct (Z.eqb_spec (msg_priority m) p) as [<-|Hne]; [|by rewrite app_nil_r].
  rewrite (filter_none _ l2); [by rewrite app_nil_r|].
  eapply Forall_impl; [exact H2|]. intros x Hx. cbv beta in Hx |- *. apply Z.eqb_neq. lia.
Qed.

(** ** Sending and receiving *)

(** The queue an open descriptor refers to. *)
Definition queue_of (t : MqueueTable) (mqd : Z) : option (MqDescriptor * MqQueue) :=
  match descriptors t !! mqd with
  | Some desc => match queues t !! d_queue_name desc with Some q => Some (desc, q) | None => None end
  | None => None
  end.

(** Every queue of the table is well formed. *)
Definition mq_ok (t : MqueueTable) : Prop := forall n q, queues t !! n = Some q -> queue_ok q.

(** When [mq_send] and [mq_receive] refuse, and why. *)
Definition send_error (t : MqueueTable) (mqd : Z) (data : bytes) : option Errno :=
  match queue_of t mqd with
  | None => Some EBADF
  | Some (desc, q) =>
      if d_access_mode desc =? O_RDONLY then Some EBADF
      else if q_msgsize q <? Z.of_nat (length data) then Some EMSGSIZE
      else if q_maxmsg q <=? Z.of_nat (length (q_messages q)) then Some EAGAIN
      else None
  end.

Definition receive_error (t : MqueueTable) (mqd buf_size : Z) : option Errno :=
  match queue_of t mqd with
  | None => Some EBADF
  | Some (desc, q) =>
      if d_access_mode desc =? O_WRONLY then Some EBADF
      else if buf_size <? q_msgsize q then Some EMSGSIZE
      else if (length (q_messages q) =? 0)%nat then Some EAGAIN
      else None
  end.

(** The other queues, the descriptors and the pending notification are those of [t]. *)
Record only_queue (n : bytes) (t t' : MqueueTable) : Prop := {
  oq_others : forall n', n' <> n -> queues t' !! n' = queues t !! n';
  oq_descs : descriptors t' = descriptors t;
  oq_next : next_mqd t' = next_mqd t;
  oq_pending : pending_notification t' = pending_notification t;
}.

Lemma insert_queue_only n q t : only_queue n t (with_queues t (<[n := q]> (queues t))).
Proof. split; try done. intros n' Hne. simpl. by rewrite lookup_insert_ne. Qed.

Lemma send_cases t mqd data prio :
  mq_ok t ->
  match send_error t mqd data with
  | Some e => mq_send t mqd data prio = (Err e, t)
  | None => exists desc q q' t',
      queue_of t mqd = Some (desc, q) /\
      mq_send t mqd data prio = (Ok (if (length (q_messages q) =? 0)%nat then q_notification q else None), t') /\
      queues t' !! d_queue_name desc = Some q' /\ only_queue (d_queue_name desc) t t' /\ queue_ok q' /\
      q_messages q' = insert_message (mkMsg data prio) (q_messages q) /\
      q_notification q' = (if (length (q_messages q) =? 0)%nat then None else q_notification q) /\
      q_open_count q' = q_open_count q /\ q_unlinked q' = q_unlinked q
  end.
Proof.
  intros Hok. unfold send_error, queue_of, mq_send. destruct (descriptors t !! mqd) as [desc|]; [|done].
  destruct (queues t !! d_queue_name desc) as [q|] eqn:Eq; [|by case_bool_step].
  destruct (d_access_mode desc =? O_RDONLY); [done|]. destruct (Z.ltb_spec (q_msgsize q) (Z.of_nat (length data))); [done|].
  destruct (Z.leb_spec (q_maxmsg q) (Z.of_nat (length (q_messages q)))); [done|].
  destruct (Hok _ _ Eq) as [Hs Hc Hz].
  assert (queue_ok (set_messages (insert_message (mkMsg data prio) (q_messages q)) q)) as Hq.
  { split; simpl; [by apply insert_message_sorted|rewrite insert_message_perm; simpl; lia|].
    rewrite insert_message_perm. by constructor. }
  eexists desc, q, _, _. split; [done|]. split; [done|]. simpl. rewrite lookup_insert_eq.
  split; [done|]. split; [apply insert_queue_only|]. destruct (length (q_messages q) =? 0)%nat; [|done].
  split; [|done]. destruct Hq. by split.
Qed.

Lemma receive_cases t mqd size :
  mq_ok t ->
  match receive_error t mqd size with
  | Some e => mq_receive t mqd size = (Err e, t)
  | None => exists desc q q' t' m,
      queue_of t mqd = Some (desc, q) /\ mq_receive t mqd size = (Ok m, t') /\
      queues t' !! d_queue_name desc = Some q' /\ only_queue (d_queue_name desc) t t' /\ queue_ok q' /\
      q_messages q = m :: q_messages q' /\
      q_notification q' = q_notification q /\ q_open_count q' = q_open_count q /\ q_unlinked q' = q_unlinked q
  end.
Proof.
  intros Hok. unfold receive_error, queue_of, mq_receive. destruct (descriptors t !! mqd) as [desc|]; [|done].
  destruct (queues t !! d_queue_name desc) as [q|] eqn:Eq; [|by case_bool_step].
  destruct (d_access_mode desc =? O_WRONLY); [done|]. destruct (size <? q_msgsize q); [done|].
  destruct (Hok _ _ Eq) as [Hs Hc Hz]. destruct (q_messages q) as [|m rest] eqn:Em; simpl; [done|].
  eexists desc, q, _, _, m. split; [done|]. split; [done|]. simpl. rewrite lookup_insert_eq.
  split; [done|]. split; [apply insert_queue_only|].
  apply StronglySorted_inv in Hs as [Hs _]. apply Forall_cons in Hz as [_ Hz]. simpl in Hc.
  split; [|done]. split; simpl; [done|lia|done].
Qed.

Lemma queue_of_after t t' mqd desc q q' :
  queue_of t mqd = Some (desc, q) -> only_queue (d_queue_name desc) t t' ->
  queues t' !! d_queue_name desc = Some q' -> queue_of t' mqd = Some (desc, q').
Proof.
  unfold queue_of. intros Hq [_ Hd _ _] Hq'. rewrite Hd. destruct (descriptors t !! mqd) as [d|]; [|done].
  destruct (queues t !! d_queue_name d); [|done]. simplify_eq. by rewrite Hq'.
Qed.

Lemma queue_of_sorted t mqd desc q :
  mq_ok t -> queue_of t mqd = Some (desc, q) -> StronglySorted higher_first (q_messages q).
Proof.
  unfold queue_of. intros Hok Hq. destruct (descriptors t !! mqd) as [d|]; [|done].
  destruct (queues t !! d_queue_name d) as [q'|] eqn:E; [|done]. simplify_eq. by destruct (Hok _ _ E).
Qed.

(** Sending and receiving on every branch.  A send is refused, without effect,
    exactly for a bad or read-only descriptor (EBADF), an oversized message
    (EMSGSIZE) or a full queue (EAGAIN); otherwise the message goes to the end of
    the FIFO of its priority, no other priority and no other queue changes, the
    bounds hold, and the registered notification fires exactly when the queue was
    empty, once.  A receive is refused exactly for a bad or write-only descriptor,
    a short buffer or an empty queue; otherwise it takes the oldest message among
    those of the highest priority, and nothing else changes. *)
Theorem mq_send_receive_exact t mqd data prio size :
  mq_ok t ->
  (match send_error t mqd data with
   | Some e => mq_send t mqd data prio = (Err e, t)
   | None => exists desc q q' t',
       queue_of t mqd = Some (desc, q) /\ queue_of t' mqd = Some (desc, q') /\
       mq_send t mqd data prio = (Ok (if (length (q_messages q) =? 0)%nat then q_notification q else None), t') /\
       only_queue (d_queue_name desc) t t' /\ queue_ok q' /\
       (forall p, at_priority p (q_messages q') =
          at_priority p (q_messages q) ++ (if prio =? p then [mkMsg data prio] else [])) /\
       q_notification q' = (if (length (q_messages q) =? 0)%nat then None else q_notification q)
   end) /\
  (match receive_error t mqd size with
   | Some e => mq_receive t mqd size = (Err e, t)
   | None => exists desc q q' t' m,
       queue_of t mqd = Some (desc, q) /\ queue_of t' mqd = Some (desc, q') /\
       mq_receive t mqd size = (Ok m, t') /\
       only_queue (d_queue_name desc) t t' /\ queue_ok q' /\
       (forall m', m' ∈ q_messages q -> msg_priority m' <= msg_priority m) /\
       (forall p, at_priority p (q_messages q) =
          (if msg_priority m =? p then [m] else []) ++ at_priority p (q_messages q')) /\
       q_notification q' = q_notification q
   end).
Proof.
  intros Hok. split.
  - pose proof (send_cases t mqd data prio Hok) as Hc. destruct (send_error t mqd data); [done|].
    destruct Hc as (desc & q & q' & t' & Hq & Hs & Hq' & Ho & Hk & Hm & Hn & _). exists desc, q, q', t'.
    split_and!; try done; [by eapply queue_of_after|]. intros p. rewrite Hm. apply (insert_message_fifo (mkMsg data prio)).
    by eapply queue_of_sorted.
  - pose proof (receive_cases t mqd size Hok) as Hc. destruct (receive_error t mqd size); [done|].
    destruct Hc as (desc & q & q' & t' & m & Hq & Hs & Hq' & Ho & Hk & Hm & Hn & _). exists desc, q, q', t', m.
    pose proof (queue_of_sorted _ _ _ _ Hok Hq) as Hsort. rewrite Hm in Hsort.
    apply StronglySorted_inv in Hsort as [_ Hmax]. rewrite Forall_forall in Hmax.
    split_and!; try done; [by eapply queue_of_after| |].
    + intros m'. rewrite Hm. intros [->|Hin]%elem_of_cons; [done|]. by apply Hmax.
    + intros p. rewrite Hm. unfold at_priority. simpl. by case_bool_step.
Qed.

(** ** Runs *)

Inductive mq_op :=
| OpOpen (name : bytes) (flags mode maxmsg msgsize : Z) (has_attr : bool)
| OpClose (mqd : Z)
| OpUnlink (name : bytes)
| OpSend (mqd : Z) (data : bytes) (priority : Z)
| OpReceive (mqd buf_size : Z)
| OpNotify (mqd pid : Z) (sigev_notify : option Z) (signo : Z)
| OpSetAttr (mqd : Z) (new_flags : option Z)
| OpExit (pid : Z)
| OpSetPending (n : MqNotification)
| OpTakePending.

Definition mq_step (t : MqueueTable) (op : mq_op) : MqueueTable :=
  match op with
  | OpOpen name flags mode maxmsg msgsize has_attr => (mq_open t name flags mode maxmsg msgsize has_attr).2
  | OpClose mqd => (mq_close t mqd).2
  | OpUnlink name => (mq_unlink t name).2
  | OpSend mqd data priority => (mq_send t mqd data priority).2
  | OpReceive mqd size => (mq_receive t mqd size).2
  | OpNotify mqd pid k signo => (mq_notify t mqd pid k signo).2
  | OpSetAttr mqd fl => (mq_getsetattr t mqd fl).2
  | OpExit pid => cleanup_process t pid
  | OpSetPending n => set_pending_notification t n
  | OpTakePending => (take_pending_notification t).2
  end.

(** The queue a message operation used. *)
Definition on_queue (t : MqueueTable) (mqd : Z) (n : bytes) : bool :=
  match queue_of t mqd with Some (desc, _) => bool_decide (d_queue_name desc = n) | None => false end.

(** The messages an operation put into and took out of the queue named [n]. *)
Definition sent_to (n : bytes) (t : MqueueTable) (op : mq_op) : list MqMessage :=
  match op with
  | OpSend mqd data priority =>
      match mq_send t mqd data priority with
      | (Ok _, _) => if on_queue t mqd n then [mkMsg data priority] else []
      | _ => []
      end
  | _ => []
  end.

Definition received_from (n : bytes) (t : MqueueTable) (op : mq_op) : list MqMessage :=
  match op with
  | OpReceive mqd size =>
      match mq_receive t mqd size with
      | (Ok m, _) => if on_queue t mqd n then [m] else []
      | _ => []
      end
  | _ => []
  end.

Fixpoint mq_run (n : bytes) (t : MqueueTable) (ops : list mq_op)
    : list MqMessage * list MqMessage * MqueueTable :=
  match ops with
  | [] => ([], [], t)
  | op :: ops' =>
      let '(s, r, t') := mq_run n (mq_step t op) ops' in
      (sent_to n t op ++ s, received_from n t op ++ r, t')
  end.

Definition messages (t : MqueueTable) (n : bytes) : list MqMessage :=
  match queues t !! n with Some q => q_messages q | None => [] end.

(** An open that creates a queue in the place of an unlinked one. *)
Definition replaces (t : MqueueTable) (op : mq_op) (n : bytes) : bool :=
  match op with
  | OpOpen name flags _ _ _ _ =>
      bool_decide (name = n) && flag_set (Z.ldiff flags O_LARGEFILE) O_CREAT &&
      match queues t !! n with Some q => q_unlinked q | None => false end
  | _ => false
  end.

(** A run that neither destroys nor replaces the queue named [n]. *)
Fixpoint keeps_queue (n : bytes) (t : MqueueTable) (ops : list mq_op) : Prop :=
  match ops with
  | [] => True
  | op :: ops' => replaces t op n = false /\ is_Some (queues (mq_step t op) !! n) /\ keeps_queue n (mq_step t op) ops'
  end.

(** A queue changed in nothing the FIFO depends on. *)
Lemma same_messages_ok q q' :
  queue_ok q -> q_messages q' = q_messages q -> q_maxmsg q' = q_maxmsg q -> q_msgsize q' = q_msgsize q -> queue_ok q'.
Proof. intros [H1 H2 H3] Hm Hx Hz. split; by rewrite ?Hm, ?Hx, ?Hz. Qed.

Lemma insert_ok t n q : mq_ok t -> queue_ok q -> forall ds nx pn, mq_ok (mkMq (<[n := q]> (queues t)) ds nx pn).
Proof.
  intros Hok Hq ds nx pn n' q'. simpl. rewrite lookup_insert_Some. intros [[<- <-]|[_ Hl]]; [done|by eapply Hok].
Qed.

Lemma delete_ok t n : mq_ok t -> forall ds nx pn, mq_ok (mkMq (delete n (queues t)) ds nx pn).
Proof. intros Hok ds nx pn n' q'. simpl. rewrite lookup_delete_Some. intros [_ Hl]. by eapply Hok. Qed.

Lemma drop_notification_same pid q :
  q_messages (drop_notification pid q) = q_messages q /\ q_maxmsg (drop_notification pid q) = q_maxmsg q /\
  q_msgsize (drop_notification pid q) = q_msgsize q /\ q_open_count (drop_notification pid q) = q_open_count q /\
  q_unlinked (drop_notification pid q) = q_unlinked q.
Proof. unfold drop_notification. destruct (q_notification q); [|done]. by case_bool_step. Qed.

(** One step: well-formedness, and the FIFO of one priority of a kept queue. *)
Lemma mq_open_ok t name flags mode a b h : 0 <= a -> 0 <= b -> mq_ok t -> mq_ok (mq_open t name flags mode a b h).2.
Proof.
  intros Ha Hb Hok. unfold mq_open, linked. repeat (case_bool_step; try done); simpl.
  - intros n q. simpl. rewrite lookup_alter_Some. intros [(<- & q0 & Hl & ->)|[_ Hl]]; [|by eapply Hok].
    eapply same_messages_ok; [by eapply Hok| | |]; done.
  - apply insert_ok; [done|]. split; simpl; [constructor|lia|constructor].
  - apply insert_ok; [done|]. split; simpl; [constructor|unfold DEFAULT_MAXMSG; lia|constructor].
Qed.

Lemma only_queue_ok t t' n q' : mq_ok t -> only_queue n t t' -> queues t' !! n = Some q' -> queue_ok q' -> mq_ok t'.
Proof.
  intros Hok [Ho _ _ _] Hl Hq n' q0 Hl'. destruct (decide (n' = n)) as [->|Hne]; [by simplify_eq|].
  rewrite Ho in Hl' by done. by eapply Hok.
Qed.

(** The attributes come from the host as unsigned values. *)
Definition op_ok (op : mq_op) : Prop :=
  match op with OpOpen _ _ _ a b _ => 0 <= a /\ 0 <= b | _ => True end.

Lemma mq_step_ok t op : op_ok op -> mq_ok t -> mq_ok (mq_step t op).
Proof.
  intros Hop Hok. destruct op; simpl in *; try done.
  - destruct Hop. by apply mq_open_ok.
  - unfold mq_close. destruct (descriptors t !! mqd) as [d|]; [|done]. simpl.
    destruct (queues t !! d_queue_name d) as [q|] eqn:E; [|done].
    case_bool_step; simpl; [by apply delete_ok|]. apply insert_ok; [done|]. by eapply same_messages_ok; [by eapply Hok|..].
  - unfold mq_unlink. destruct (queues t !! name) as [q|] eqn:E; [|done]. case_bool_step; [done|].
    case_bool_step; simpl; [by apply delete_ok|]. apply insert_ok; [done|]. by eapply same_messages_ok; [by eapply Hok|..].
  - pose proof (send_cases t mqd data priority Hok) as Hc. destruct (send_error t mqd data); [by rewrite Hc|].
    destruct Hc as (d & q & q' & t' & _ & -> & Hq' & Ho & Hk & _). simpl. by eapply only_queue_ok.
  - pose proof (receive_cases t mqd buf_size Hok) as Hc. destruct (receive_error t mqd buf_size); [by rewrite Hc|].
    destruct Hc as (d & q & q' & t' & m & _ & -> & Hq' & Ho & Hk & _). simpl. by eapply only_queue_ok.
  - unfold mq_notify. destruct (descriptors t !! mqd) as [d|]; [|done].
    destruct (queues t !! d_queue_name d) as [q|] eqn:E; [|done].
    assert (forall n, mq_ok (with_queues t (<[d_queue_name d := set_notification n q]> (queues t)))) as Hn.
    { intros n. apply insert_ok; [done|]. by eapply same_messages_ok; [by eapply Hok|..]. }
    destruct sigev_notify as [k|]; [|apply Hn]. repeat case_bool_step; try done; destruct (q_notification q); try done; apply Hn.
  - unfold mq_getsetattr. destruct (descriptors t !! mqd) as [d|]; [|done].
    destruct (queues t !! d_queue_name d); [|done]. by destruct new_flags.
  - intros n q. simpl. rewrite lookup_fmap, fmap_Some. intros (q0 & Hl & ->).
    pose proof (drop_notification_same pid q0). eapply same_messages_ok; [by eapply Hok| | |]; tauto.
Qed.

(** *** Messages are reliable *)

Lemma messages_Some t n q : queues t !! n = Some q -> messages t n = q_messages q.
Proof. unfold messages. by intros ->. Qed.

Lemma messages_insert t n n' q : forall ds nx pn,
  messages (mkMq (<[n := q]> (queues t)) ds nx pn) n' = if bool_decide (n' = n) then q_messages q else messages t n'.
Proof.
  intros. unfold messages. simpl. case_bool_decide as E; [subst; by rewrite lookup_insert_eq|].
  by rewrite lookup_insert_ne by done.
Qed.

Lemma open_messages t n name flags mode a b h :
  replaces t (OpOpen name flags mode a b h) n = false -> is_Some (queues t !! n) ->
  messages (mq_open t name flags mode a b h).2 n = messages t n.
Proof.
  simpl. intros Hr [q Hq]. unfold mq_open. set (fl := Z.ldiff flags O_LARGEFILE) in *.
  destruct (_ || _); [done|]. destruct (_ && linked t name); [done|].
  destruct (negb _ && negb (linked t name)) eqn:Ecr; [done|].
  destruct (linked t name) eqn:El.
  - unfold messages. simpl. destruct (decide (name = n)) as [->|Hne]; [|by rewrite lookup_alter_ne].
    rewrite lookup_alter_eq. by destruct (queues t !! n).
  - assert (forall q', messages (new_descriptor (with_queues t (<[name := q']> (queues t))) name (Z.land fl O_ACCMODE)
      (flag_set fl O_NONBLOCK)).2 n = messages t n) as Hm.
    { intros q'. unfold new_descriptor, with_queues. cbn [snd queues]. rewrite messages_insert. destruct (bool_decide (n = name)) eqn:E; [|done]. apply bool_decide_eq_true in E as <-.
      unfold linked in El. rewrite Hq in Hr, El. rewrite andb_true_r in Ecr. apply negb_false_iff in El, Ecr.
      rewrite El, Ecr in Hr. by rewrite bool_decide_true in Hr. }
    destruct h; case_bool_step; [done|apply Hm|done|apply Hm].
Qed.

Lemma close_messages t n mqd :
  is_Some (queues (mq_close t mqd).2 !! n) -> messages (mq_close t mqd).2 n = messages t n.
Proof.
  unfold mq_close. destruct (descriptors t !! mqd) as [d|]; [|done]. simpl.
  destruct (queues t !! d_queue_name d) as [q|] eqn:E; [|done]. case_bool_step; simpl.
  - intros Hs. unfold messages. simpl. destruct (decide (n = d_queue_name d)) as [->|].
    + rewrite lookup_delete_eq in Hs. by destruct Hs.
    + by rewrite lookup_delete_ne.
  - intros _. unfold with_queues. cbn [queues with_descriptors]. rewrite messages_insert. case_bool_decide; [subst|done]. by rewrite (messages_Some _ _ _ E).
Qed.

Lemma unlink_messages t n name :
  is_Some (queues (mq_unlink t name).2 !! n) -> messages (mq_unlink t name).2 n = messages t n.
Proof.
  unfold mq_unlink. destruct (queues t !! name) as [q|] eqn:E; [|done]. case_bool_step; [done|]. case_bool_step; simpl.
  - intros Hs. unfold messages. simpl. destruct (decide (n = name)) as [->|].
    + rewrite lookup_delete_eq in Hs. by destruct Hs.
    + by rewrite lookup_delete_ne.
  - intros _. unfold with_queues. cbn [queues with_descriptors]. rewrite messages_insert. case_bool_decide; [subst|done]. by rewrite (messages_Some _ _ _ E).
Qed.

Lemma notify_messages t n mqd pid k signo : messages (mq_notify t mqd pid k signo).2 n = messages t n.
Proof.
  unfold mq_notify. destruct (descriptors t !! mqd) as [d|]; [|done].
  destruct (queues t !! d_queue_name d) as [q|] eqn:E; [|done].
  assert (forall nt, messages (with_queues t (<[d_queue_name d := set_notification nt q]> (queues t))) n = messages t n) as Hn.
  { intros nt. unfold with_queues. rewrite messages_insert. case_bool_decide; [subst|done]. by rewrite (messages_Some _ _ _ E). }
  destruct k as [k|]; [|apply Hn]. repeat case_bool_step; try done; destruct (q_notification q); try done; apply Hn.
Qed.

Lemma only_queue_messages t t' n m : only_queue n t t' -> m <> n -> messages t' m = messages t m.
Proof. intros [Ho _ _ _] Hne. unfold messages. by rewrite Ho. Qed.

Lemma on_queue_spec t mqd n desc q : queue_of t mqd = Some (desc, q) -> on_queue t mqd n = bool_decide (d_queue_name desc = n).
Proof. unfold on_queue. by intros ->. Qed.

Lemma queue_of_messages t mqd desc q : queue_of t mqd = Some (desc, q) -> messages t (d_queue_name desc) = q_messages q.
Proof.
  unfold queue_of, messages. destruct (descriptors t !! mqd) as [d|]; [|done].
  destruct (queues t !! d_queue_name d) eqn:E; [|done]. intros. simplify_eq. by rewrite E.
Qed.

Lemma mq_step_fifo n t op p :
  mq_ok t -> replaces t op n = false -> is_Some (queues t !! n) -> is_Some (queues (mq_step t op) !! n) ->
  at_priority p (received_from n t op) ++ at_priority p (messages (mq_step t op) n) =
  at_priority p (messages t n) ++ at_priority p (sent_to n t op).
Proof.
  intros Hok Hr Hs Hs'.
  assert (sent_to n t op = [] -> received_from n t op = [] -> messages (mq_step t op) n = messages t n ->
    at_priority p (received_from n t op) ++ at_priority p (messages (mq_step t op) n) =
    at_priority p (messages t n) ++ at_priority p (sent_to n t op)) as Hsame.
  { intros -> -> ->. by rewrite app_nil_r. }
  destruct op; try (apply Hsame; [done|done|]); clear Hsame.
  - by apply open_messages.
  - by apply close_messages.
  - by apply unlink_messages.
  - simpl in *. pose proof (send_cases t mqd data priority Hok) as Hc. destruct (send_error t mqd data).
    { rewrite Hc. simpl. by rewrite app_nil_r. }
    destruct Hc as (desc & q & q' & t' & Hq & -> & Hq' & Ho & _ & Hm & _). cbn [snd].
    rewrite (on_queue_spec _ _ _ _ _ Hq). case_bool_decide as En.
    + subst n. rewrite (messages_Some _ _ _ Hq'), (queue_of_messages _ _ _ _ Hq), Hm.
      rewrite insert_message_fifo by by eapply queue_of_sorted. done.
    + rewrite (only_queue_messages _ _ _ _ Ho) by done. by rewrite app_nil_r.
  - simpl in *. pose proof (receive_cases t mqd buf_size Hok) as Hc. destruct (receive_error t mqd buf_size).
    { rewrite Hc. simpl. by rewrite app_nil_r. }
    destruct Hc as (desc & q & q' & t' & m & Hq & -> & Hq' & Ho & _ & Hm & _). cbn [snd].
    rewrite (on_queue_spec _ _ _ _ _ Hq), app_nil_r. case_bool_decide as En.
    + subst n. rewrite (messages_Some _ _ _ Hq'), (queue_of_messages _ _ _ _ Hq), Hm.
      unfold at_priority. simpl. by case_bool_step.
    + by rewrite (only_queue_messages _ _ _ _ Ho).
  - by apply notify_messages.
  - simpl. unfold mq_getsetattr. destruct (descriptors t !! mqd) as [d|]; [|done].
    destruct (queues t !! d_queue_name d); [|done]. by destruct new_flags.
  - unfold messages. simpl. rewrite lookup_fmap. destruct (queues t !! n) as [q|]; [|done]. simpl.
    by destruct (drop_notification_same pid q).
  - done.
  - done.
Qed.

(** A queue is reliable.  Over any run of opens, closes, unlinks, sends,
    receives, notifications, attribute changes and process exits that keeps a
    queue, for every priority the messages received followed by those still
    queued are the messages queued at the start followed by those sent, in
    order: nothing is lost, duplicated, invented or reordered within a
    priority. *)
Theorem mq_reliable n t ops p :
  mq_ok t -> Forall op_ok ops -> is_Some (queues t !! n) -> keeps_queue n t ops ->
  let '(sent, received, t') := mq_run n t ops in
  mq_ok t' /\
  at_priority p received ++ at_priority p (messages t' n) = at_priority p (messages t n) ++ at_priority p sent.
Proof.
  intros Hok Hops. revert t Hok. induction Hops as [|op ops Hop _ IH]; intros t Hok Hs Hk; simpl in *.
  - split; [done|]. by rewrite app_nil_r.
  - destruct Hk as (Hr & Hs' & Hk). pose proof (mq_step_fifo n t op p Hok Hr Hs Hs') as Hf.
    specialize (IH (mq_step t op) (mq_step_ok t op Hop Hok) Hs' Hk).
    destruct (mq_run n (mq_step t op) ops) as [[s r] t']. destruct IH as [Hok' IH]. split; [done|].
    unfold at_priority in *. rewrite !List.filter_app, <- app_assoc, IH, app_assoc, Hf. by rewrite <- app_assoc.
Qed.

(** *** Queues live as long as something refers to them *)

(** The number of open descriptors of a queue. *)
Definition refs (n : bytes) (ds : gmap Z MqDescriptor) : Z :=
  Z.of_nat (size (filter (fun kd => d_queue_name kd.2 = n) ds)).

Record mq_refs (t : MqueueTable) : Prop := {
  mr_count : forall n q, queues t !! n = Some q -> q_open_count q = refs n (descriptors t);
  mr_queue : forall d desc, descriptors t !! d = Some desc -> is_Some (queues t !! d_queue_name desc);
  mr_unlinked : forall n q, queues t !! n = Some q -> q_unlinked q = true -> 0 < q_open_count q;
  mr_range : forall d, is_Some (descriptors t !! d) -> MQD_BASE <= d < next_mqd t;
  mr_next : MQD_BASE <= next_mqd t <= u32_max;
}.

Lemma refs_insert n d desc ds :
  ds !! d = None -> refs n (<[d := desc]> ds) = refs n ds + (if bool_decide (d_queue_name desc = n) then 1 else 0).
Proof.
  intros Hd. unfold refs. rewrite map_filter_insert. simpl. case_bool_decide as E; case_decide; try done.
  - rewrite map_size_insert_None; [lia|]. rewrite map_lookup_filter, Hd. done.
  - rewrite delete_id by done. lia.
Qed.

Lemma refs_delete n d desc ds :
  ds !! d = Some desc -> refs n (delete d ds) = refs n ds - (if bool_decide (d_queue_name desc = n) then 1 else 0).
Proof.
  intros Hd. rewrite <- (insert_delete_id ds d desc Hd) at 2. rewrite refs_insert by apply lookup_delete_eq. lia.
Qed.

Lemma refs_update n d desc desc' ds :
  ds !! d = Some desc -> d_queue_name desc' = d_queue_name desc -> refs n (<[d := desc']> ds) = refs n ds.
Proof.
  intros Hd Hn. rewrite <- insert_delete_eq, refs_insert by apply lookup_delete_eq. rewrite (refs_delete n d desc) by done.
  rewrite Hn. lia.
Qed.

Lemma size_bounded {A} (m : gmap Z A) a b :
  (forall d, is_Some (m !! d) -> a <= d < b) -> a <= b -> Z.of_nat (size m) <= b - a.
Proof.
  intros Hm Hab. rewrite <- size_dom.
  assert (dom m ⊆ (list_to_set (seqZ a (b - a)) : gset Z)) as Hsub.
  { intros d Hd%elem_of_dom. apply elem_of_list_to_set, elem_of_seqZ. specialize (Hm d Hd). lia. }
  apply subseteq_size in Hsub. rewrite size_list_to_set in Hsub by apply NoDup_seqZ. rewrite length_seqZ in Hsub. lia.
Qed.

Lemma refs_bounded n t : mq_refs t -> refs n (descriptors t) <= next_mqd t - MQD_BASE.
Proof.
  intros [_ _ _ Hr Hn]. apply size_bounded; [|lia]. intros d [desc Hd]. apply Hr.
  apply map_lookup_filter_Some in Hd as [Hd _]. by eexists.
Qed.

Lemma refs_pos n ds d desc : ds !! d = Some desc -> d_queue_name desc = n -> 0 < refs n ds.
Proof.
  intros Hd Hn. unfold refs. destruct (size _) eqn:E; [|lia].
  apply map_size_empty_inv in E. assert (filter (fun kd => d_queue_name kd.2 = n) ds !! d = Some desc) as Hf
    by by apply map_lookup_filter_Some. rewrite E in Hf. by rewrite lookup_empty in Hf.
Qed.

Lemma refs_holder n ds : 0 < refs n ds -> exists d desc, ds !! d = Some desc /\ d_queue_name desc = n.
Proof.
  unfold refs. intros Hs. destruct (map_choose (filter (fun kd => d_queue_name kd.2 = n) ds)) as (d & desc & Hd).
  - intros E. rewrite E, map_size_empty in Hs. lia.
  - apply map_lookup_filter_Some in Hd as [Hd Hn]. eauto.
Qed.

(** A step that changes no count, link or descriptor name. *)
Lemma refs_same t t' :
  mq_refs t -> descriptors t' = descriptors t -> next_mqd t' = next_mqd t ->
  (forall n, (fun q => (q_open_count q, q_unlinked q)) <$> queues t' !! n = (fun q => (q_open_count q, q_unlinked q)) <$> queues t !! n) ->
  mq_refs t'.
Proof.
  intros [H1 H2 H3 H4 H5] Hd Hn Hq. split; rewrite ?Hd, ?Hn; try done.
  - intros n q' Hl. specialize (Hq n). rewrite Hl in Hq. destruct (queues t !! n) as [q|] eqn:E; simplify_eq/=.
    rewrite H. by apply H1.
  - intros d desc Hl. destruct (H2 d desc Hl) as [q Hl']. specialize (Hq (d_queue_name desc)). rewrite Hl' in Hq.
    by destruct (queues t' !! d_queue_name desc).
  - intros n q' Hl Hu. specialize (Hq n). rewrite Hl in Hq. destruct (queues t !! n) as [q|] eqn:E; simplify_eq/=.
    rewrite H. apply (H3 n q E). congruence.
Qed.

Lemma only_queue_refs t t' n q q' :
  mq_refs t -> only_queue n t t' -> queues t !! n = Some q -> queues t' !! n = Some q' ->
  q_open_count q' = q_open_count q -> q_unlinked q' = q_unlinked q -> mq_refs t'.
Proof.
  intros Hr [Ho Hd Hn _] Hq Hq' Hc Hu. apply (refs_same t); try done. intros m.
  destruct (decide (m = n)) as [->|Hne]; [by rewrite Hq, Hq'; simpl; rewrite Hc, Hu|by rewrite Ho].
Qed.

(** A new descriptor for a queue that counts it. *)
Lemma new_descriptor_refs t qs name q mode nb :
  mq_refs t -> next_mqd t < u32_max -> qs !! name = Some q -> q_open_count q = refs name (descriptors t) + 1 ->
  q_unlinked q = false -> (forall m, m <> name -> qs !! m = queues t !! m) ->
  mq_refs (new_descriptor (with_queues t qs) name mode nb).2.
Proof.
  intros Hr Hlt Hq Hc Hu Ho. pose proof Hr as [H1 H2 H3 H4 H5]. unfold new_descriptor. simpl.
  assert (descriptors t !! next_mqd t = None) as Hnew.
  { destruct (descriptors t !! next_mqd t) eqn:E; [|done]. assert (is_Some (descriptors t !! next_mqd t)) as Hs by by eexists.
    specialize (H4 _ Hs). lia. }
  assert (u32_wrap (next_mqd t + 1) = next_mqd t + 1) as Hw.
  { unfold u32_wrap, u32_max, MQD_BASE in *. apply Z.mod_small. lia. }
  split; simpl; rewrite ?Hw.
  - intros n q' Hl. rewrite refs_insert by done. simpl. case_bool_decide as E; [subst n; by simplify_eq|].
    rewrite Z.add_0_r. apply H1. by rewrite <- Ho by congruence.
  - intros d desc. rewrite lookup_insert_Some. intros [[<- <-]|[_ Hl]]; [by eexists|].
    destruct (decide (d_queue_name desc = name)) as [->|Hne]; [by eexists|]. rewrite Ho by done. by eapply H2.
  - intros n q' Hl Hu'. destruct (decide (n = name)) as [->|Hne]; [congruence|]. rewrite Ho in Hl by done. by eapply H3.
  - intros d. rewrite lookup_insert_is_Some. intros [<-|[_ Hs]]; [lia|]. specialize (H4 d Hs). lia.
  - lia.
Qed.

Lemma open_refs t name flags mode a b h :
  mq_refs t -> next_mqd t < u32_max -> (forall n, replaces t (OpOpen name flags mode a b h) n = false) ->
  mq_refs (mq_open t name flags mode a b h).2.
Proof.
  intros Hr Hlt Hrep. specialize (Hrep name). simpl in Hrep. rewrite bool_decide_true in Hrep by done. simpl in Hrep.
  unfold mq_open. set (fl := Z.ldiff flags O_LARGEFILE) in *. destruct (_ || _); [done|].
  destruct (_ && linked t name); [done|]. destruct (negb _ && negb (linked t name)) eqn:Ecr; [done|].
  pose proof (refs_bounded name t Hr) as Hb. unfold linked in *. destruct (queues t !! name) as [q|] eqn:Eq.
  - destruct (q_unlinked q) eqn:Eu; cbn [negb] in *; [destruct (flag_set fl O_CREAT); done|].
    eapply new_descriptor_refs; [done|done|by rewrite lookup_alter_eq, Eq| |done|intros m Hm; by rewrite lookup_alter_ne].
    simpl. rewrite (mr_count t Hr name q Eq). unfold u32_wrap. apply Z.mod_small. unfold refs, u32_max, MQD_BASE in *. lia.
  - assert (refs name (descriptors t) = 0) as Hz.
    { unfold refs. rewrite map_empty_filter_2; [done|]. intros d desc Hd Hn. simpl in Hn.
      destruct (mr_queue t Hr d desc Hd) as [q' Hq']. congruence. }
    destruct h; case_bool_step; try done; (eapply new_descriptor_refs; [done|done|by rewrite lookup_insert_eq| |done|
      intros m Hm; by rewrite lookup_insert_ne]); simpl; lia.
Qed.

Lemma close_refs t mqd : mq_refs t -> mq_refs (mq_close t mqd).2.
Proof.
  intros Hr. pose proof Hr as [H1 H2 H3 H4 H5]. unfold mq_close. destruct (descriptors t !! mqd) as [d|] eqn:Ed; [|done].
  destruct (H2 mqd d Ed) as [q Hq]. simpl. rewrite Hq. pose proof (H1 _ _ Hq) as Hc.
  pose proof (refs_pos _ _ mqd d Ed eq_refl) as Hpos. unfold u32_saturating_sub.
  assert (forall n, refs n (delete mqd (descriptors t)) =
    refs n (descriptors t) - (if bool_decide (d_queue_name d = n) then 1 else 0)) as Hdel by (intros; by apply refs_delete).
  assert (forall d', is_Some (delete mqd (descriptors t) !! d') -> MQD_BASE <= d' < next_mqd t) as Hrange.
  { intros d' [x Hx]. apply lookup_delete_Some in Hx as [_ Hx]. apply H4. by eexists. }
  destruct ((_ =? 0) && _) eqn:E; simpl; split; simpl; try done.
  - intros n q'. rewrite lookup_delete_Some. intros [Hne Hl]. rewrite Hdel, bool_decide_false by done. rewrite (H1 n q' Hl). lia.
  - intros d' desc [Hne Hl]%lookup_delete_Some. destruct (decide (d_queue_name desc = d_queue_name d)) as [E'|Hn].
    + bool_hyps. assert (0 < refs (d_queue_name d) (delete mqd (descriptors t))) as Hp.
      { apply (refs_pos _ _ d' desc); [|done]. by rewrite lookup_delete_ne. }
      rewrite Hdel, bool_decide_true in Hp by done. lia.
    + rewrite lookup_delete_ne by done. by eapply H2.
  - intros n q' [_ Hl]%lookup_delete_Some Hu. by eapply H3.
  - intros n q'. rewrite lookup_insert_Some. intros [[<- <-]|[Hne Hl]]; simpl; rewrite Hdel.
    + rewrite bool_decide_true by done. lia.
    + rewrite bool_decide_false by done. rewrite (H1 n q' Hl). lia.
  - intros d' desc [Hne Hl]%lookup_delete_Some. rewrite lookup_insert_is_Some.
    destruct (decide (d_queue_name d = d_queue_name desc)); [by left|right]. split; [done|]. by eapply H2.
  - intros n q'. rewrite lookup_insert_Some. intros [[<- <-]|[Hne Hl]] Hu; simpl in *; [|by eapply H3].
    rewrite Hu, andb_true_r in E. lia.
Qed.

Lemma unlink_refs t name : mq_refs t -> mq_refs (mq_unlink t name).2.
Proof.
  intros Hr. pose proof Hr as [H1 H2 H3 H4 H5]. unfold mq_unlink. destruct (queues t !! name) as [q|] eqn:E; [|done].
  destruct (q_unlinked q) eqn:Eu; [done|]. pose proof (H1 _ _ E) as Hc.
  destruct (Z.eqb_spec (q_open_count q) 0) as [Hz|Hz]; simpl; split; simpl; try done.
  - intros n q' [_ Hl]%lookup_delete_Some. by apply H1.
  - intros d desc Hl. destruct (decide (d_queue_name desc = name)) as [E'|Hn]; [|rewrite lookup_delete_ne by done; by eapply H2].
    pose proof (refs_pos _ _ d desc Hl E'). lia.
  - intros n q' [_ Hl]%lookup_delete_Some. by apply (H3 n).
  - intros n q'. rewrite lookup_insert_Some. intros [[<- <-]|[Hne Hl]]; simpl; [done|by apply H1].
  - intros d desc Hl. rewrite lookup_insert_is_Some. destruct (decide (name = d_queue_name desc)); [by left|right].
    split; [done|]. by eapply H2.
  - intros n q'. rewrite lookup_insert_Some. intros [[<- <-]|[Hne Hl]] Hu; simpl in *; [|by eapply H3].
    unfold refs in Hc. lia.
Qed.

Lemma notify_refs t mqd pid k signo : mq_refs t -> mq_refs (mq_notify t mqd pid k signo).2.
Proof.
  intros Hr. unfold mq_notify. destruct (descriptors t !! mqd) as [d|]; [|done].
  destruct (queues t !! d_queue_name d) as [q|] eqn:E; [|done].
  assert (forall n, mq_refs (with_queues t (<[d_queue_name d := set_notification n q]> (queues t)))) as Hn.
  { intros n. eapply only_queue_refs; [done|apply insert_queue_only|done|simpl; by rewrite lookup_insert_eq|done|done]. }
  destruct k as [k|]; [|apply Hn]. repeat case_bool_step; try done; destruct (q_notification q); try done; apply Hn.
Qed.

Lemma setattr_refs t mqd fl : mq_refs t -> mq_refs (mq_getsetattr t mqd fl).2.
Proof.
  intros Hr. unfold mq_getsetattr. destruct (descriptors t !! mqd) as [d|] eqn:Ed; [|done].
  destruct (queues t !! d_queue_name d) as [q|] eqn:Eq; [|done]. destruct fl as [fl|]; [|done]. simpl.
  destruct Hr as [H1 H2 H3 H4 H5]. split; simpl; try done.
  - intros n q' Hl. rewrite (refs_update n mqd d) by done. by apply H1.
  - intros d' desc. rewrite lookup_insert_Some. intros [[<- <-]|[_ Hl]]; [by eexists|by eapply H2].
  - intros d'. rewrite lookup_insert_is_Some. intros [<-|[_ Hs]]; apply H4; [by eexists|done].
Qed.

Lemma queue_of_lookup t mqd desc q : queue_of t mqd = Some (desc, q) -> queues t !! d_queue_name desc = Some q.
Proof.
  unfold queue_of. destruct (descriptors t !! mqd) as [d|]; [|done].
  destruct (queues t !! d_queue_name d) eqn:E; [|done]. intros. by simplify_eq.
Qed.

Lemma mq_step_refs t op :
  mq_ok t -> mq_refs t -> next_mqd t < u32_max -> (forall n, replaces t op n = false) -> mq_refs (mq_step t op).
Proof.
  intros Hok Hr Hlt Hrep. destruct op; simpl.
  - by apply open_refs.
  - by apply close_refs.
  - by apply unlink_refs.
  - pose proof (send_cases t mqd data priority Hok) as Hc. destruct (send_error t mqd data); [by rewrite Hc|].
    destruct Hc as (d & q & q' & t' & Hq & -> & Hq' & Ho & _ & _ & _ & Hco & Hu). simpl.
    eapply only_queue_refs; [done|done|by eapply queue_of_lookup|done|done|done].
  - pose proof (receive_cases t mqd buf_size Hok) as Hc. destruct (receive_error t mqd buf_size); [by rewrite Hc|].
    destruct Hc as (d & q & q' & t' & m & Hq & -> & Hq' & Ho & _ & _ & _ & Hco & Hu). simpl.
    eapply only_queue_refs; [done|done|by eapply queue_of_lookup|done|done|done].
  - by apply notify_refs.
  - by apply setattr_refs.
  - apply (refs_same t); try done. intros n. simpl. rewrite lookup_fmap. destruct (queues t !! n) as [q|]; [|done]. simpl.
    destruct (drop_notification_same pid q) as (_ & _ & _ & -> & ->). done.
  - by apply (refs_same t).
  - by apply (refs_same t).
Qed.

Lemma mq_new_refs : mq_refs mq_new.
Proof.
  split; cbn [mq_new queues descriptors next_mqd].
  - intros n q Hl. by rewrite lookup_empty in Hl.
  - intros d desc Hl. by rewrite lookup_empty in Hl.
  - intros n q Hl. by rewrite lookup_empty in Hl.
  - intros d [? Hl]. by rewrite lookup_empty in Hl.
  - unfold MQD_BASE, u32_max. lia.
Qed.

Lemma mq_new_ok : mq_ok mq_new.
Proof. intros n q Hl. cbn [mq_new queues] in Hl. by rewrite lookup_empty in Hl. Qed.

(** *** The history of names and descriptors

    What a caller knows from the calls made and their answers: the names opened
    and not unlinked since, and the name each open descriptor was opened on. *)

Record History := mkHistory { h_linked : gset bytes; h_open : gmap Z bytes }.

Definition note (h : History) (t : MqueueTable) (op : mq_op) : History :=
  match op with
  | OpOpen name flags mode maxmsg msgsize has_attr =>
      match (mq_open t name flags mode maxmsg msgsize has_attr).1 with
      | Ok mqd => mkHistory ({[name]} ∪ h_linked h) (<[mqd := name]> (h_open h))
      | Err _ => h
      end
  | OpClose mqd => mkHistory (h_linked h) (delete mqd (h_open h))
  | OpUnlink name => mkHistory (h_linked h ∖ {[name]}) (h_open h)
  | _ => h
  end.

Fixpoint history (h : History) (t : MqueueTable) (ops : list mq_op) : History * MqueueTable :=
  match ops with
  | [] => (h, t)
  | op :: ops' => history (note h t op) (mq_step t op) ops'
  end.

(** The open descriptors of a name. *)
Definition holders (h : History) (n : bytes) : Z := Z.of_nat (size (filter (fun kd => kd.2 = n) (h_open h))).

(** No name is created again while descriptors of an unlinked queue of that name
    are open. *)
Definition tidy (h : History) (op : mq_op) : Prop :=
  match op with
  | OpOpen name flags _ _ _ _ => flag_set flags O_CREAT = true -> name ∈ h_linked h \/ holders h name = 0
  | _ => True
  end.

Fixpoint tidy_run (h : History) (t : MqueueTable) (ops : list mq_op) : Prop :=
  match ops with
  | [] => True
  | op :: ops' => tidy h op /\ tidy_run (note h t op) (mq_step t op) ops'
  end.

(** Why an open is refused, by the history. *)
Definition open_error (h : History) (name : bytes) (flags maxmsg msgsize : Z) (has_attr : bool) : option Errno :=
  if (length name =? 0)%nat || (255 <? length name)%nat then Some EINVAL
  else if bool_decide (name ∈ h_linked h) then
    if flag_set flags O_CREAT && flag_set flags O_EXCL then Some EEXIST else None
  else if negb (flag_set flags O_CREAT) then Some ENOENT
  else if has_attr && ((maxmsg =? 0) || (msgsize =? 0)) then Some EINVAL
  else None.

Record tracked (h : History) (t : MqueueTable) : Prop := {
  tr_open : h_open h = d_queue_name <$> descriptors t;
  tr_linked : forall n, linked t n = bool_decide (n ∈ h_linked h);
}.

Lemma tracked_holders h t n : tracked h t -> holders h n = refs n (descriptors t).
Proof. intros [Ho _]. unfold holders, refs. by rewrite Ho, map_filter_fmap, map_size_fmap. Qed.

Lemma flag_largefile flags bit : Z.land O_LARGEFILE bit = 0 -> flag_set (Z.ldiff flags O_LARGEFILE) bit = flag_set flags bit.
Proof.
  intros Hb. unfold flag_set. do 2 f_equal. apply Z.bits_inj'. intros i _.
  apply (f_equal (fun z => Z.testbit z i)) in Hb. rewrite Z.land_spec, Z.bits_0 in Hb.
  rewrite !Z.land_spec, Z.ldiff_spec. destruct (Z.testbit flags i), (Z.testbit O_LARGEFILE i), (Z.testbit bit i); done.
Qed.

(** What [mq_open] answers, and the links and descriptors it leaves. *)
Lemma open_cases h t name flags mode a b has :
  tracked h t ->
  match open_error h name flags a b has with
  | Some e => mq_open t name flags mode a b has = (Err e, t)
  | None => exists t', mq_open t name flags mode a b has = (Ok (next_mqd t), t') /\
      tracked (mkHistory ({[name]} ∪ h_linked h) (<[next_mqd t := name]> (h_open h))) t' /\
      next_mqd t' = u32_wrap (next_mqd t + 1)
  end.
Proof.
  intros [Ho Hl]. unfold open_error, mq_open. rewrite !flag_largefile by done. cbv zeta. rewrite Hl.
  destruct (_ || (255 <? _)%nat); [done|]. case_bool_decide as Hin.
  - rewrite andb_false_r, andb_true_r. destruct (flag_set flags O_CREAT && _); [done|]. eexists. split; [done|]. split; [|done].
    split; simpl; [by rewrite fmap_insert, Ho|]. intros n. unfold linked. simpl.
    destruct (decide (name = n)) as [->|Hne].
    + rewrite lookup_alter_eq, bool_decide_true by set_solver. specialize (Hl n). unfold linked in Hl.
      rewrite (bool_decide_true _ Hin) in Hl. by destruct (queues t !! n).
    + rewrite lookup_alter_ne by done. fold (linked t n). rewrite Hl. apply bool_decide_ext. set_solver.
  - rewrite andb_false_r, andb_true_r. destruct (flag_set flags O_CREAT); [|done]. cbn [negb].
    assert (forall q, q_unlinked q = false ->
      tracked (mkHistory ({[name]} ∪ h_linked h) (<[next_mqd t := name]> (h_open h)))
        (new_descriptor (with_queues t (<[name := q]> (queues t))) name
           (Z.land (Z.ldiff flags O_LARGEFILE) O_ACCMODE) (flag_set flags O_NONBLOCK)).2) as Hnew.
    { intros q Hu. split; simpl; [by rewrite fmap_insert, Ho|]. intros n. unfold linked. simpl.
      destruct (decide (name = n)) as [->|Hne].
      - rewrite lookup_insert_eq, Hu, bool_decide_true by set_solver. done.
      - rewrite lookup_insert_ne by done. fold (linked t n). rewrite Hl. apply bool_decide_ext. set_solver. }
    destruct has; cbn [andb].
    + destruct ((a =? 0) || (b =? 0)); [done|]. eexists. split; [done|]. split; [by apply Hnew|done].
    + eexists. split; [done|]. split; [by apply Hnew|done].
Qed.

Lemma unlink_tracked h t name : tracked h t -> tracked (mkHistory (h_linked h ∖ {[name]}) (h_open h)) (mq_unlink t name).2.
Proof.
  intros [Ho Hl]. split; simpl.
  - unfold mq_unlink. destruct (queues t !! name) as [q|]; [|done]. by repeat case_bool_step.
  - intros n. unfold mq_unlink. destruct (decide (n = name)) as [->|Hne].
    + rewrite bool_decide_false by set_solver. unfold linked. destruct (queues t !! name) as [q|] eqn:E; [|by simpl; rewrite E].
      destruct (q_unlinked q) eqn:Eu; [simpl; by rewrite E, Eu|].
      case_bool_step; simpl; [by rewrite lookup_delete_eq|by rewrite lookup_insert_eq].
    + rewrite (bool_decide_ext _ (n ∈ h_linked h)) by set_solver. rewrite <- Hl. unfold linked.
      destruct (queues t !! name) as [q|]; [|done]. destruct (q_unlinked q); [done|].
      case_bool_step; simpl; [by rewrite lookup_delete_ne|by rewrite lookup_insert_ne].
Qed.

Lemma close_tracked h t mqd : tracked h t -> tracked (mkHistory (h_linked h) (delete mqd (h_open h))) (mq_close t mqd).2.
Proof.
  intros [Ho Hl]. unfold mq_close. destruct (descriptors t !! mqd) as [d|] eqn:Ed.
  2: { split; simpl; [|done]. rewrite delete_id; [done|]. by rewrite Ho, lookup_fmap, Ed. }
  assert (delete mqd (h_open h) = d_queue_name <$> delete mqd (descriptors t)) as Hd by by rewrite fmap_delete, Ho.
  simpl. destruct (queues t !! d_queue_name d) as [q|] eqn:Eq; [|by split].
  case_bool_step; split; simpl; try done; intros n; rewrite <- Hl; unfold linked; simpl;
    (destruct (decide (d_queue_name d = n)) as [<-|Hne]; rewrite ?Eq;
     [rewrite ?lookup_delete_eq, ?lookup_insert_eq|by rewrite ?lookup_delete_ne, ?lookup_insert_ne by done]); [|done].
  bool_hyps. destruct (q_unlinked q); [done|lia].
Qed.

(** A step that changes no link and no descriptor's name. *)
Lemma tracked_same h t t' :
  tracked h t -> (d_queue_name <$> descriptors t' = d_queue_name <$> descriptors t) ->
  (forall n, q_unlinked <$> queues t' !! n = q_unlinked <$> queues t !! n) -> tracked h t'.
Proof.
  intros [Ho Hl] Hd Hq. split; [congruence|]. intros n. rewrite <- Hl. unfold linked. specialize (Hq n).
  destruct (queues t' !! n), (queues t !! n); simplify_eq/=; congruence.
Qed.

Lemma only_queue_tracked h t t' n q q' :
  tracked h t -> only_queue n t t' -> queues t !! n = Some q -> queues t' !! n = Some q' ->
  q_unlinked q' = q_unlinked q -> tracked h t'.
Proof.
  intros Ht [Ho Hd _ _] Hq Hq' Hu. apply (tracked_same h t); [done|by rewrite Hd|]. intros m.
  destruct (decide (m = n)) as [->|Hne]; [rewrite Hq, Hq'; simpl; congruence|by rewrite Ho].
Qed.

Lemma notify_tracked h t mqd pid k signo : tracked h t -> tracked h (mq_notify t mqd pid k signo).2.
Proof.
  intros Ht. unfold mq_notify. destruct (descriptors t !! mqd) as [d|]; [|done].
  destruct (queues t !! d_queue_name d) as [q|] eqn:E; [|done].
  assert (forall n, tracked h (with_queues t (<[d_queue_name d := set_notification n q]> (queues t)))) as Hn.
  { intros n. eapply only_queue_tracked; [done|apply insert_queue_only|done|simpl; by rewrite lookup_insert_eq|done]. }
  destruct k as [k|]; [|apply Hn]. repeat case_bool_step; try done; destruct (q_notification q); try done; apply Hn.
Qed.

Lemma setattr_tracked h t mqd fl : tracked h t -> tracked h (mq_getsetattr t mqd fl).2.
Proof.
  intros Ht. unfold mq_getsetattr. destruct (descriptors t !! mqd) as [d|] eqn:Ed; [|done].
  destruct (queues t !! d_queue_name d) as [q|]; [|done]. destruct fl as [fl|]; [|done].
  apply (tracked_same h t); [done| |done]. simpl. rewrite fmap_insert. apply insert_id. by rewrite lookup_fmap, Ed.
Qed.

Lemma mq_step_tracked h t op : mq_ok t -> tracked h t -> tracked (note h t op) (mq_step t op).
Proof.
  intros Hok Ht. destruct op; simpl.
  - pose proof (open_cases h t name flags mode maxmsg msgsize has_attr Ht) as Hc.
    destruct (open_error _ _ _ _ _ _); [by rewrite Hc|]. by destruct Hc as (t' & -> & Ht' & _).
  - by apply close_tracked.
  - by apply unlink_tracked.
  - pose proof (send_cases t mqd data priority Hok) as Hc. destruct (send_error t mqd data); [by rewrite Hc|].
    destruct Hc as (d & q & q' & t' & Hq & -> & Hq' & Ho & _ & _ & _ & _ & Hu). simpl.
    eapply only_queue_tracked; [done|done|by eapply queue_of_lookup|done|done].
  - pose proof (receive_cases t mqd buf_size Hok) as Hc. destruct (receive_error t mqd buf_size); [by rewrite Hc|].
    destruct Hc as (d & q & q' & t' & m & Hq & -> & Hq' & Ho & _ & _ & _ & _ & Hu). simpl.
    eapply only_queue_tracked; [done|done|by eapply queue_of_lookup|done|done].
  - by apply notify_tracked.
  - by apply setattr_tracked.
  - apply (tracked_same h t); try done. intros n. simpl. rewrite lookup_fmap. destruct (queues t !! n) as [q|]; [|done]. simpl.
    by destruct (drop_notification_same pid q) as (_ & _ & _ & _ & ->).
  - by apply (tracked_same h t).
  - by apply (tracked_same h t).
Qed.

(** A tidy operation replaces no queue, so it keeps the counts right. *)
Lemma tidy_step_refs h t op :
  mq_ok t -> mq_refs t -> tracked h t -> next_mqd t < u32_max -> tidy h op -> mq_refs (mq_step t op).
Proof.
  intros Hok Hr Ht Hlt Htidy. apply mq_step_refs; [done|done|done|]. intros n. destruct op; try done. cbn [replaces tidy] in *.
  rewrite flag_largefile by done. case_bool_decide as E; [subst n|done].
  destruct (flag_set flags O_CREAT); [|done]. specialize (Htidy eq_refl). simpl.
  destruct (queues t !! name) as [q|] eqn:Eq; [|done]. destruct (q_unlinked q) eqn:Eu; [|done]. exfalso.
  pose proof (mr_unlinked t Hr name q Eq Eu) as Hc. rewrite (mr_count t Hr name q Eq), <- (tracked_holders h t name Ht) in Hc.
  destruct Htidy as [Hin|]; [|lia]. pose proof (tr_linked h t Ht name) as Hl. unfold linked in Hl.
  by rewrite Eq, Eu, (bool_decide_true _ Hin) in Hl.
Qed.

(** One more descriptor number is used at most. *)
Lemma mq_step_next h t op : mq_ok t -> tracked h t -> MQD_BASE <= next_mqd t < u32_max -> next_mqd (mq_step t op) <= next_mqd t + 1.
Proof.
  intros Hok Ht Hlt. destruct op; simpl; try lia.
  - pose proof (open_cases h t name flags mode maxmsg msgsize has_attr Ht) as Hc.
    destruct (open_error _ _ _ _ _ _); [rewrite Hc; simpl; lia|]. destruct Hc as (t' & -> & _ & Hn). simpl. rewrite Hn.
    unfold u32_wrap, u32_max, MQD_BASE in *. rewrite Z.mod_small; lia.
  - unfold mq_close. destruct (descriptors t !! mqd) as [d|]; [|simpl; lia]. simpl.
    destruct (queues t !! d_queue_name d); [|simpl; lia]. case_bool_step; simpl; lia.
  - unfold mq_unlink. destruct (queues t !! name); [|simpl; lia]. repeat (case_bool_step; simpl; try lia).
  - pose proof (send_cases t mqd data priority Hok) as Hc. destruct (send_error t mqd data); [rewrite Hc; simpl; lia|].
    destruct Hc as (d & q & q' & t' & Hq & -> & Hq' & [_ _ Hn _] & _). simpl. lia.
  - pose proof (receive_cases t mqd buf_size Hok) as Hc. destruct (receive_error t mqd buf_size); [rewrite Hc; simpl; lia|].
    destruct Hc as (d & q & q' & t' & m & Hq & -> & Hq' & [_ _ Hn _] & _). simpl. lia.
  - unfold mq_notify. destruct (descriptors t !! mqd) as [d|]; [|simpl; lia]. destruct (queues t !! d_queue_name d) as [q|]; [|simpl; lia].
    destruct sigev_notify; [|simpl; lia]. repeat (case_bool_step; try (simpl; lia)); destruct (q_notification q); simpl; lia.
  - unfold mq_getsetattr. destruct (descriptors t !! mqd) as [d|]; [|simpl; lia]. destruct (queues t !! d_queue_name d); [|simpl; lia].
    destruct new_flags; simpl; lia.
Qed.

Lemma history_sound ops : forall h t,
  Forall op_ok ops -> tidy_run h t ops -> next_mqd t + Z.of_nat (length ops) <= u32_max ->
  mq_ok t -> mq_refs t -> tracked h t ->
  let '(h', t') := history h t ops in mq_refs t' /\ tracked h' t'.
Proof.
  induction ops as [|op ops IH]; intros h t Hops Htidy Hlen Hok Hr Ht; simpl in *; [done|].
  apply Forall_cons in Hops as [Hop Hops]. destruct Htidy as [Htidy Hrest]. pose proof (mr_next t Hr) as Hn.
  pose proof (mq_step_next h t op Hok Ht ltac:(lia)) as Hnext.
  apply IH; [done|done|lia|by apply mq_step_ok|apply (tidy_step_refs h); try done; lia|by apply mq_step_tracked].
Qed.

Definition no_history : History := mkHistory ∅ ∅.

Lemma mq_new_tracked : tracked no_history mq_new.
Proof. split; [cbn [mq_new descriptors no_history h_open]; by rewrite fmap_empty|]. intros n. unfold linked. cbn [mq_new queues]. by rewrite lookup_empty. Qed.

(** C25: A queue lives exactly as long as its name or a descriptor refers to it.
    Over any run of the table's operations (limits are never negative), the calls made and their answers tell
    which names are linked (opened and not unlinked since) and which descriptors
    are open on which name; as long as no name is created again while an unlinked
    queue of that name is still open (the code overwrites it then), and fewer
    descriptors are made than there are numbers, a queue of a name exists exactly
    while the name is linked or a descriptor of it is open, its open count is the
    number of those descriptors, an unlink succeeds exactly on a linked name and
    a close exactly on an open descriptor, and an open is refused exactly for a
    bad name, a linked name when it must be new, a name not linked when it may
    not be created, or limits of zero for a new queue, and otherwise returns a
    descriptor not in use. *)
Theorem mq_queue_lifetime ops :
  Forall op_ok ops -> tidy_run no_history mq_new ops -> MQD_BASE + Z.of_nat (length ops) <= u32_max ->
  let '(h, t) := history no_history mq_new ops in
  (forall n, is_Some (queues t !! n) <-> n ∈ h_linked h \/ exists mqd, h_open h !! mqd = Some n) /\
  (forall n q, queues t !! n = Some q -> q_open_count q = holders h n) /\
  (forall n, (mq_unlink t n).1 = if bool_decide (n ∈ h_linked h) then Ok () else Err ENOENT) /\
  (forall mqd, (mq_close t mqd).1 = if bool_decide (is_Some (h_open h !! mqd)) then Ok () else Err EBADF) /\
  (forall name flags mode a b has,
     match open_error h name flags a b has, (mq_open t name flags mode a b has).1 with
     | Some e, Err e' => e' = e
     | None, Ok mqd => h_open h !! mqd = None
     | _, _ => False
     end).
Proof.
  intros Hops Htidy Hlen.
  pose proof (history_sound ops no_history mq_new Hops Htidy Hlen mq_new_ok mq_new_refs mq_new_tracked) as Hs.
  destruct (history no_history mq_new ops) as [h t]. destruct Hs as [Hr Ht].
  pose proof Hr as [H1 H2 H3 H4 H5]. pose proof Ht as [Ho Hl].
  assert (forall d, h_open h !! d = d_queue_name <$> descriptors t !! d) as Hd by (intros d; by rewrite Ho, lookup_fmap).
  split_and!.
  - intros n. specialize (Hl n). split.
    + intros [q Hq]. unfold linked in Hl. rewrite Hq in Hl. destruct (q_unlinked q) eqn:Eu; [right|].
      * pose proof (H3 n q Hq Eu) as Hc. rewrite (H1 n q Hq) in Hc. by apply refs_holder in Hc as (d & desc & Hdesc & <-);
          exists d; rewrite Hd, Hdesc.
      * symmetry in Hl. apply bool_decide_eq_true in Hl. by left.
    + intros [Hin|(d & Hin)].
      * rewrite (bool_decide_true _ Hin) in Hl. unfold linked in Hl. destruct (queues t !! n); [by eexists|done].
      * rewrite Hd in Hin. apply fmap_Some in Hin as (desc & Hdesc & ->). by eapply H2.
  - intros n q Hq. rewrite (tracked_holders h t n Ht). by apply H1.
  - intros n. rewrite <- Hl. unfold mq_unlink, linked. destruct (queues t !! n) as [q|]; [|done].
    destruct (q_unlinked q); [done|]. by case_bool_step.
  - intros d. rewrite Hd. unfold mq_close. destruct (descriptors t !! d) as [desc|]; simpl; [|done].
    destruct (queues t !! _); [|done]. by case_bool_step.
  - intros name flags mode a b has. pose proof (open_cases h t name flags mode a b has Ht) as Hc.
    destruct (open_error _ _ _ _ _ _); [by rewrite Hc|]. destruct Hc as (t' & -> & _). simpl. rewrite Hd.
    destruct (descriptors t !! next_mqd t) eqn:E; [|done]. specialize (H4 (next_mqd t) ltac:(by eexists)). lia.
Qed.

(** ** Witnesses *)

Definition sample_name : bytes := [47; 113].
Definition sample_mqd : Z := MQD_BASE.

(** Create, three sends at two priorities, a second descriptor. *)
Definition sample_mq_ops : list mq_op :=
  [OpOpen sample_name 0x42 0 3 8 true; OpSend sample_mqd [1] 1; OpSend sample_mqd [2] 5; OpSend sample_mqd [3] 5;
   OpOpen sample_name 2 0 0 0 false; OpUnlink sample_name].

Definition sample_mq : MqueueTable := fold_left mq_step sample_mq_ops mq_new.

Lemma sample_mq_ops_ok : Forall op_ok sample_mq_ops.
Proof. repeat constructor; simpl; lia. Qed.

Lemma mq_run_ok ops t : Forall op_ok ops -> mq_ok t -> mq_ok (fold_left mq_step ops t).
Proof. intros Hops. revert t. induction Hops as [|op ops Hop _ IH]; intros t Hok; simpl; [done|]. by apply IH, mq_step_ok. Qed.

Lemma sample_mq_ok : mq_ok sample_mq.
Proof. apply mq_run_ok; [apply sample_mq_ops_ok|apply mq_new_ok]. Qed.

Lemma mq_send_receive_exact_witness :
  mq_send sample_mq sample_mqd [4] 9 = (Err EAGAIN, sample_mq) /\
  exists m t', mq_receive sample_mq sample_mqd 8 = (Ok m, t') /\ msg_priority m = 5 /\ msg_data m = [2].
Proof.
  destruct (mq_send_receive_exact sample_mq sample_mqd [4] 9 8 sample_mq_ok) as [Hs Hr].
  replace (send_error sample_mq sample_mqd [4]) with (Some EAGAIN) in Hs by (vm_compute; reflexivity).
  replace (receive_error sample_mq sample_mqd 8) with (@None Errno) in Hr by (vm_compute; reflexivity).
  split; [exact Hs|]. destruct Hr as (desc & q & q' & t' & m & _ & _ & Hr & _). exists m, t'. split; [exact Hr|].
  vm_compute in Hr. injection Hr as <- _. split; reflexivity.
Defined.

Definition sample_exchange : list mq_op :=
  [OpReceive sample_mqd 8; OpSend sample_mqd [5] 5; OpReceive (sample_mqd + 1) 8; OpReceive sample_mqd 8].

Lemma mq_reliable_witness :
  let '(sent, received, t') := mq_run sample_name sample_mq sample_exchange in
  at_priority 5 received ++ at_priority 5 (messages t' sample_name) = [mkMsg [2] 5; mkMsg [3] 5] ++ at_priority 5 sent.
Proof.
  assert (Forall op_ok sample_exchange) as Hops by repeat constructor.
  assert (is_Some (queues sample_mq !! sample_name)) as Hs by (vm_compute; eexists; reflexivity).
  assert (keeps_queue sample_name sample_mq sample_exchange) as Hk.
  { unfold sample_exchange. cbn [keeps_queue].
    do 4 (split; [vm_compute; reflexivity|split; [vm_compute; eexists; reflexivity|]]). exact I. }
  pose proof (mq_reliable sample_name sample_mq sample_exchange 5 sample_mq_ok Hops Hs Hk) as H.
  destruct (mq_run sample_name sample_mq sample_exchange) as [[s r] t']. destruct H as [_ H]. exact H.
Defined.

(** The name unlinked while two descriptors of it are open. *)
Lemma mq_queue_lifetime_witness :
  let '(h, t) := history no_history mq_new sample_mq_ops in
  sample_name ∉ h_linked h /\ is_Some (queues t !! sample_name) /\ (mq_unlink t sample_name).1 = Err ENOENT /\
  holders h sample_name = 2.
Proof.
  assert (tidy_run no_history mq_new sample_mq_ops) as Hrun.
  { split; [intros _; right; vm_compute; reflexivity|]. do 3 (split; [exact I|]).
    split; [intros E; vm_compute in E; discriminate|]. split; [exact I|exact I]. }
  pose proof (mq_queue_lifetime sample_mq_ops sample_mq_ops_ok Hrun ltac:(vm_compute; discriminate)) as H.
  assert ((history no_history mq_new sample_mq_ops).1 = mkHistory ∅ (<[sample_mqd := sample_name]> {[sample_mqd + 1 := sample_name]})) as E
    by (vm_compute; reflexivity).
  destruct (history no_history mq_new sample_mq_ops) as [h t]. cbn [fst] in E. subst h.
  destruct H as (Hex & _ & Hu & _). split; [apply not_elem_of_empty|]. split; [|split].
  - apply Hex. right. exists sample_mqd. vm_compute. reflexivity.
  - rewrite Hu. vm_compute. reflexivity.
  - vm_compute. reflexivity.
Defined.

(** ** Divergences *)

(** Creating a name again while its unlinked queue is open overwrites that queue:
    the message waiting in it is lost, the old descriptor sends into the new
    queue, and closing the old descriptor and unlinking destroys the new queue
    under its open descriptor. *)
Example mq_recreate_replaces_open_queue :
  let t1 := fold_left mq_step
    [OpOpen sample_name 0x42 0 3 8 true; OpSend sample_mqd [1] 1; OpUnlink sample_name;
     OpOpen sample_name 0x42 0 3 8 true] mq_new in
  let t2 := fold_left mq_step [OpClose sample_mqd; OpUnlink sample_name] t1 in
  (mq_receive t1 sample_mqd 8).1 = Err EAGAIN /\
  (mq_receive (mq_step t1 (OpSend sample_mqd [2] 1)) (sample_mqd + 1) 8).1 = Ok (mkMsg [2] 1) /\
  is_mqd t2 (sample_mqd + 1) = true /\ (mq_send t2 (sample_mqd + 1) [3] 1).1 = Err EBADF.
Proof. vm_compute. done. Qed.
