(* ===== verification/Terminal.v ===== *)
(** * Terminals ([crates/kernel/src/terminal.rs], [crates/kernel/src/pty.rs])

    The attributes of a terminal with their 60-byte [struct termios] encoding,
    the line discipline (input mapping, signal characters, erase, kill, end of
    file, echo), and pseudo-terminal pairs: the two data paths between master and
    slave and the table of 64 pairs.  Bytes are integers, attribute words are
    [u32] integers tested with [Z.land]; the [static] table is an explicit
    state.

    The theorems: the [termios] encoding round-trips; in canonical mode the
    discipline delivers and echoes exactly what a reference editor reads off the
    keystrokes from right to left, the meaning of each keystroke given by the bits
    of the attributes; a whole session on a pair, in canonical and in raw mode,
    answers call by call as a specification with two queues does, signal
    characters flushing exactly what [NOFLSH] allows. *)

From S2P Require Import Prelude Bytes Abi.

(** ** Attributes *)

Definition ECHO : Z := 0x8.   (* 0o0010 *)
Definition ECHOE : Z := 0x10.   (* 0o0020 *)
Definition ECHOK : Z := 0x20.   (* 0o0040 *)
Definition ECHONL : Z := 0x40.   (* 0o0100 *)
Definition ICANON : Z := 0x2.   (* 0o0002 *)
Definition ISIG : Z := 0x1.   (* 0o0001 *)
Definition IEXTEN : Z := 0x8000.   (* 0o100000 *)
Definition NOFLSH : Z := 0x80.   (* 0o0200 *)
Definition ICRNL : Z := 0x100.   (* 0o0400 *)
Definition INLCR : Z := 0x40.   (* 0o0100 *)
Definition IGNCR : Z := 0x80.   (* 0o0200 *)
Definition IXON : Z := 0x400.   (* 0o2000 *)
Definition IXANY : Z := 0x800.   (* 0o4000 *)
Definition IMAXBEL : Z := 0x2000.   (* 0o20000 *)
Definition OPOST : Z := 0x1.   (* 0o0001 *)
Definition ONLCR : Z := 0x4.   (* 0o0004 *)
Definition CS8 : Z := 0x30.   (* 0o0060 *)
Definition CREAD : Z := 0x80.   (* 0o0200 *)
Definition HUPCL : Z := 0x400.   (* 0o2000 *)

Definition VINTR : nat := 0.
Definition VQUIT : nat := 1.
Definition VERASE : nat := 2.
Definition VKILL : nat := 3.
Definition VEOF : nat := 4.
Definition VTIME : nat := 5.
Definition VMIN : nat := 6.
Definition VSTART : nat := 8.
Definition VSTOP : nat := 9.
Definition VSUSP : nat := 10.
Definition VEOL : nat := 11.
Definition NCCS : nat := 32.
Definition TERMIOS_SIZE : nat := 60.

(** [B38400], the default speed. *)
Definition B38400 : Z := 15.

Record WinSize := mkWinSize { ws_row : Z; ws_col : Z; ws_xpixel : Z; ws_ypixel : Z }.

Record TerminalState := mkTerm {
  c_iflag : Z;
  c_oflag : Z;
  c_cflag : Z;
  c_lflag : Z;
  c_line : Z;
  c_cc : bytes;
  c_ispeed : Z;
  c_ospeed : Z;
  winsize : WinSize;
  foreground_pgid : Z;
  session_id : Z;
  line_buffer : bytes;
  cooked_buffer : bytes;
}.

Definition set_input (line cooked : bytes) (t : TerminalState) : TerminalState :=
  mkTerm (c_iflag t) (c_oflag t) (c_cflag t) (c_lflag t) (c_line t) (c_cc t) (c_ispeed t) (c_ospeed t)
    (winsize t) (foreground_pgid t) (session_id t) line cooked.

Definition default_cc : bytes :=
  <[VTIME := 0]> (<[VMIN := 1]> (<[VSUSP := 0x1A]> (<[VSTOP := 0x13]> (<[VSTART := 0x11]> (<[VEOF := 0x04]>
    (<[VKILL := 0x15]> (<[VERASE := 0x7F]> (<[VQUIT := 0x1C]> (<[VINTR := 0x03]> (replicate NCCS 0)))))))))).

Definition term_new : TerminalState :=
  mkTerm (Z.lor (Z.lor (Z.lor ICRNL IXON) IXANY) IMAXBEL) (Z.lor OPOST ONLCR)
    (Z.lor (Z.lor (Z.lor CS8 CREAD) HUPCL) B38400)
    (Z.lor (Z.lor (Z.lor (Z.lor (Z.lor ECHO ECHOE) ECHOK) ICANON) ISIG) IEXTEN)
    0 default_cc B38400 B38400 (mkWinSize 24 80 0 0) 1 0 [] [].

(** [flags & bit != 0]. *)
Definition has (flags bit : Z) : bool := negb (Z.land flags bit =? 0).

Definition write_termios (t : TerminalState) (buf : bytes) : option bytes :=
  buf ← copy_slice 0 4 (to_le_bytes (c_iflag t)) buf;
  buf ← copy_slice 4 8 (to_le_bytes (c_oflag t)) buf;
  buf ← copy_slice 8 12 (to_le_bytes (c_cflag t)) buf;
  buf ← copy_slice 12 16 (to_le_bytes (c_lflag t)) buf;
  buf ← copy_slice 16 17 [c_line t] buf;
  buf ← copy_slice 17 49 (c_cc t) buf;
  buf ← copy_slice 49 52 [0; 0; 0] buf;
  buf ← copy_slice 52 56 (to_le_bytes (c_ispeed t)) buf;
  copy_slice 56 60 (to_le_bytes (c_ospeed t)) buf.

Definition read_termios (t : TerminalState) (buf : bytes) : option TerminalState :=
  iflag ← slice 0 4 buf;
  oflag ← slice 4 8 buf;
  cflag ← slice 8 12 buf;
  lflag ← slice 12 16 buf;
  line ← buf !! 16%nat;
  cc ← slice 17 49 buf;
  ispeed ← slice 52 56 buf;
  ospeed ← slice 56 60 buf;
  Some (mkTerm (from_le_bytes iflag) (from_le_bytes oflag) (from_le_bytes cflag) (from_le_bytes lflag) line cc
          (from_le_bytes ispeed) (from_le_bytes ospeed) (winsize t) (foreground_pgid t) (session_id t)
          (line_buffer t) (cooked_buffer t)).

(** ** The line discipline *)

Definition is_canonical (t : TerminalState) : bool := has (c_lflag t) ICANON.

Definition control_char_matches (t : TerminalState) (index : nat) (byte : Z) : bool :=
  let cc := nth index (c_cc t) 0 in negb (cc =? 0) && (cc =? byte).

Definition CR : Z := 13.
Definition NL : Z := 10.

(** The input mapping; [None] is the early return that discards a CR. *)
Definition map_input (t : TerminalState) (byte : Z) : option Z :=
  if has (c_iflag t) ICRNL && (byte =? CR) then Some NL
  else if has (c_iflag t) INLCR && (byte =? NL) then Some CR
  else if has (c_iflag t) IGNCR && (byte =? CR) then None
  else Some byte.

Definition signal_of (t : TerminalState) (byte : Z) : option Z :=
  if has (c_lflag t) ISIG then
    if control_char_matches t VINTR byte then Some SIGINT
    else if control_char_matches t VQUIT byte then Some SIGQUIT
    else if control_char_matches t VSUSP byte then Some SIGTSTP
    else None
  else None.

(** Backspace, space, backspace. *)
Definition rubout : bytes := [8; 32; 8].

Definition process_input_byte (t : TerminalState) (byte : Z) : bytes * option Z * TerminalState :=
  let do_echo := has (c_lflag t) ECHO in
  match map_input t byte with
  | None => ([], None, t)
  | Some byte =>
      match signal_of t byte with
      | Some signum =>
          let echo := if do_echo then [94; Z.lxor byte 0x40; NL] else [] in
          (echo, Some signum, if has (c_lflag t) NOFLSH then t else set_input [] [] t)
      | None =>
          if negb (has (c_lflag t) ICANON) then ([], None, t)
          else if control_char_matches t VERASE byte then
            if (length (line_buffer t) =? 0)%nat then ([], None, t)
            else (if do_echo && has (c_lflag t) ECHOE then rubout else [], None,
                  set_input (removelast (line_buffer t)) (cooked_buffer t) t)
          else if control_char_matches t VKILL byte then
            (if do_echo && has (c_lflag t) ECHOK then concat (replicate (length (line_buffer t)) rubout) else [], None,
             set_input [] (cooked_buffer t) t)
          else if control_char_matches t VEOF byte then
            ([], None, set_input [] (cooked_buffer t ++ line_buffer t) t)
          else if (byte =? NL) || control_char_matches t VEOL byte then
            (if do_echo || (has (c_lflag t) ECHONL && (byte =? NL)) then [byte] else [], None,
             set_input [] (cooked_buffer t ++ vec_push (line_buffer t) byte) t)
          else (if do_echo then [byte] else [], None,
                set_input (vec_push (line_buffer t) byte) (cooked_buffer t) t)
      end
  end.

(** [read_cooked]: the count, the caller's slice, the state. *)
Definition read_cooked (t : TerminalState) (buf : bytes) : nat * bytes * TerminalState :=
  let n := Nat.min (length buf) (length (cooked_buffer t)) in
  if (n =? 0)%nat then (0%nat, buf, t)
  else (n, splice 0 (take n (cooked_buffer t)) buf, set_input (line_buffer t) (drop n (cooked_buffer t)) t).

Definition has_cooked_data (t : TerminalState) : bool := negb (length (cooked_buffer t) =? 0)%nat.
Definition vmin (t : TerminalState) : Z := nth VMIN (c_cc t) 0.
Definition vtime (t : TerminalState) : Z := nth VTIME (c_cc t) 0.

(** ** Pseudo-terminal pairs *)

Definition MAX_PTYS : nat := 64.

Record PtyPair := mkPty {
  terminal : TerminalState;
  input_buf : bytes;
  output_buf : bytes;
  locked : bool;
  master_refs : Z;
  slave_refs : Z;
}.

Definition pty_new : PtyPair := mkPty term_new [] [] true 0 0.

Definition with_data (p : PtyPair) (t : TerminalState) (i o : bytes) : PtyPair :=
  mkPty t i o (locked p) (master_refs p) (slave_refs p).

(** Output processing of one byte. *)
Definition post (opost onlcr : bool) (b : Z) : bytes :=
  if opost && onlcr && (b =? NL) then [CR; NL] else [b].

Definition process_master_input (p : PtyPair) (byte : Z) : option Z * PtyPair :=
  let opost := has (c_oflag (terminal p)) OPOST in
  let onlcr := has (c_oflag (terminal p)) ONLCR in
  let '(echo, signal, t) := process_input_byte (terminal p) byte in
  let input := if bool_decide (is_Some signal) && negb (has (c_lflag t) NOFLSH) then [] else input_buf p in
  let output := output_buf p ++ flat_map (post opost onlcr) echo in
  match signal with
  | Some _ => (signal, with_data p t input output)
  | None =>
      if negb (is_canonical t)
      then (None, with_data p t (vec_push input byte)
                    (if has (c_lflag t) ECHO then output ++ post opost onlcr byte else output))
      else (None, with_data p t input output)
  end.

(** [for i in 0..n { buf[i] = queue.pop_front().unwrap() }]. *)
Definition pop_into (buf queue : bytes) : nat * bytes * bytes :=
  let n := Nat.min (length buf) (length queue) in (n, splice 0 (take n queue) buf, drop n queue).

Definition slave_read (p : PtyPair) (buf : bytes) : nat * bytes * PtyPair :=
  if is_canonical (terminal p) then
    let '(n, buf', t) := read_cooked (terminal p) buf in
    if (0 <? n)%nat then (n, buf', with_data p t (input_buf p) (output_buf p)) else (0%nat, buf', p)
  else
    let '(n, buf', q) := pop_into buf (input_buf p) in (n, buf', with_data p (terminal p) q (output_buf p)).

Definition slave_has_data (p : PtyPair) : bool :=
  if is_canonical (terminal p) then has_cooked_data (terminal p) else negb (length (input_buf p) =? 0)%nat.

Definition slave_write (p : PtyPair) (data : bytes) : nat * PtyPair :=
  let opost := has (c_oflag (terminal p)) OPOST in
  let onlcr := has (c_oflag (terminal p)) ONLCR in
  (length data, with_data p (terminal p) (input_buf p) (output_buf p ++ flat_map (post opost onlcr) data)).

Definition master_read (p : PtyPair) (buf : bytes) : nat * bytes * PtyPair :=
  let '(n, buf', q) := pop_into buf (output_buf p) in (n, buf', with_data p (terminal p) (input_buf p) q).

Definition master_has_data (p : PtyPair) : bool := negb (length (output_buf p) =? 0)%nat.
Definition is_alive (p : PtyPair) : bool := (0 <? master_refs p) || (0 <? slave_refs p).

(** The table: [MAX_PTYS] slots. *)
Definition PTY_TABLE : list (option PtyPair) := replicate MAX_PTYS None.

Definition alloc_pty (table : list (option PtyPair)) : option nat * list (option PtyPair) :=
  match position (fun slot => bool_decide (slot = None)) table with
  | Some i => (Some i, <[i := Some pty_new]> table)
  | None => (None, table)
  end.

Definition get_pty (table : list (option PtyPair)) (idx : nat) : option PtyPair :=
  if (MAX_PTYS <=? idx)%nat then None else table !! idx ≫= id.

Definition free_pty (table : list (option PtyPair)) (idx : nat) : list (option PtyPair) :=
  if (idx <? MAX_PTYS)%nat then <[idx := None]> table else table.

(** ** The [termios] encoding *)

(** Attribute words are [u32] and the control characters fill their array. *)
Record term_ok (t : TerminalState) : Prop := {
  tm_iflag : is_u32 (c_iflag t);
  tm_oflag : is_u32 (c_oflag t);
  tm_cflag : is_u32 (c_cflag t);
  tm_lflag : is_u32 (c_lflag t);
  tm_ispeed : is_u32 (c_ispeed t);
  tm_ospeed : is_u32 (c_ospeed t);
  tm_cc : length (c_cc t) = NCCS;
}.

(** The attributes of [a] on the terminal [t]. *)
Definition with_attributes (a t : TerminalState) : TerminalState :=
  mkTerm (c_iflag a) (c_oflag a) (c_cflag a) (c_lflag a) (c_line a) (c_cc a) (c_ispeed a) (c_ospeed a)
    (winsize t) (foreground_pgid t) (session_id t) (line_buffer t) (cooked_buffer t).

(** Replace the next [n] elements of a list by variables. *)
Ltac explode l n :=
  lazymatch n with
  | O => idtac
  | S ?m => let x := fresh "b" in destruct l as [|x l]; [simpl in *; lia|]; explode l m
  end.

Lemma le_bytes_cases v : exists a b c d, to_le_bytes v = [a; b; c; d].
Proof. by do 4 eexists. Qed.

Lemma termios_layout f1 f2 f3 f4 ln cc f5 f6 t t' buf :
  length f1 = 4%nat -> length f2 = 4%nat -> length f3 = 4%nat -> length f4 = 4%nat -> length cc = 32%nat ->
  length f5 = 4%nat -> length f6 = 4%nat -> (60 <= length buf)%nat ->
  to_le_bytes (c_iflag t) = f1 -> to_le_bytes (c_oflag t) = f2 -> to_le_bytes (c_cflag t) = f3 ->
  to_le_bytes (c_lflag t) = f4 -> c_line t = ln -> c_cc t = cc -> to_le_bytes (c_ispeed t) = f5 ->
  to_le_bytes (c_ospeed t) = f6 ->
  let image := f1 ++ f2 ++ f3 ++ f4 ++ ln :: cc ++ [0; 0; 0] ++ f5 ++ f6 in
  write_termios t buf = Some (image ++ drop 60 buf) /\
  read_termios t' (image ++ drop 60 buf) =
    Some (with_attributes (mkTerm (from_le_bytes f1) (from_le_bytes f2) (from_le_bytes f3) (from_le_bytes f4) ln cc
            (from_le_bytes f5) (from_le_bytes f6) (winsize t') 0 0 [] []) t').
Proof.
  intros H1 H2 H3 H4 Hc H5 H6 Hb E1 E2 E3 E4 E5 E6 E7 E8 image. unfold write_termios.
  rewrite E1, E2, E3, E4, E5, E6, E7, E8. subst image. clear -H1 H2 H3 H4 Hc H5 H6 Hb.
  destruct f1 as [|? [|? [|? [|? [|]]]]]; try done. destruct f2 as [|? [|? [|? [|? [|]]]]]; try done.
  destruct f3 as [|? [|? [|? [|? [|]]]]]; try done. destruct f4 as [|? [|? [|? [|? [|]]]]]; try done.
  destruct f5 as [|? [|? [|? [|? [|]]]]]; try done. destruct f6 as [|? [|? [|? [|? [|]]]]]; try done.
  clear H1 H2 H3 H4 H5 H6. explode cc 32%nat. destruct cc; [|simpl in Hc; lia]. explode buf 60%nat. clear Hb Hc.
  split; reflexivity.
Qed.

Lemma slice_short lo hi buf : (length buf < hi)%nat -> slice lo hi buf = None.
Proof. intros Hl. unfold slice. rewrite (proj2 (Nat.leb_gt hi (length buf))) by done. by rewrite andb_false_r. Qed.

Lemma copy_slice_length lo hi src buf buf' : copy_slice lo hi src buf = Some buf' -> length buf' = length buf.
Proof.
  unfold copy_slice. destruct (_ && _)%bool eqn:E; [|done]. rewrite !andb_true_iff, !Nat.leb_le, Nat.eqb_eq in E.
  intros [= <-]. apply length_splice. lia.
Qed.

Lemma copy_slice_short lo hi src buf : (length buf < hi)%nat -> copy_slice lo hi src buf = None.
Proof.
  intros Hl. unfold copy_slice. rewrite (proj2 (Nat.leb_gt hi (length buf))) by done. by rewrite andb_false_r.
Qed.

(** [tcgetattr] then [tcsetattr] is the identity.  Writing the attributes of a
    terminal into a 60-byte buffer and reading them back, into any terminal,
    restores every attribute and touches nothing else of either; the bytes after
    the structure are left alone; and a shorter buffer stops both (the bounds
    check panics), so no partial structure is ever accepted. *)
Theorem termios_roundtrip t t' buf :
  term_ok t ->
  ((60 <= length buf)%nat ->
   exists buf', write_termios t buf = Some buf' /\ length buf' = length buf /\ drop 60 buf' = drop 60 buf /\
     read_termios t' buf' = Some (with_attributes t t')) /\
  ((length buf < 60)%nat -> write_termios t buf = None /\ read_termios t' buf = None).
Proof.
  intros [Hi Ho Hc Hl His Hos Hcc]. split.
  - intros Hlen.
    destruct (termios_layout (to_le_bytes (c_iflag t)) (to_le_bytes (c_oflag t)) (to_le_bytes (c_cflag t))
      (to_le_bytes (c_lflag t)) (c_line t) (c_cc t) (to_le_bytes (c_ispeed t)) (to_le_bytes (c_ospeed t)) t t' buf)
      as [Hw Hr]; try done.
    eexists. split; [exact Hw|]. rewrite !from_to_le in Hr by done. split_and!.
    + rewrite !length_app. cbn [length]. rewrite !length_app, Hcc, length_drop. simpl. lia.
    + rewrite drop_app_ge; rewrite !length_app; cbn [length]; rewrite !length_app, Hcc; simpl; [|lia].
      by rewrite drop_drop.
    + rewrite Hr. by destruct t.
  - intros Hlen. split.
    + unfold write_termios. do 8 (match goal with |- context [copy_slice ?a ?b ?s ?x] =>
        let E := fresh in destruct (copy_slice a b s x) eqn:E; [|done]; apply copy_slice_length in E; simpl end).
      apply copy_slice_short. lia.
    + unfold read_termios. rewrite (slice_short 56 60) by done.
      do 7 (match goal with |- context [?x ≫= _] => destruct x; [|done]; simpl end). done.
Qed.

(** ** The reference editor *)

(** What a byte means to a canonical-mode terminal. *)
Inductive key :=
| KChar (b : Z)
| KErase
| KKill
| KEof
| KEol (b : Z)
| KSignal (c s : Z)
| KDiscard.

(** The attributes, by bit position. *)
Definition icrnl (t : TerminalState) : bool := Z.testbit (c_iflag t) 8.
Definition inlcr (t : TerminalState) : bool := Z.testbit (c_iflag t) 6.
Definition igncr (t : TerminalState) : bool := Z.testbit (c_iflag t) 7.
Definition opost_onlcr (t : TerminalState) : bool := Z.testbit (c_oflag t) 0 && Z.testbit (c_oflag t) 2.
Definition isig (t : TerminalState) : bool := Z.testbit (c_lflag t) 0.
Definition icanon (t : TerminalState) : bool := Z.testbit (c_lflag t) 1.
Definition echo_on (t : TerminalState) : bool := Z.testbit (c_lflag t) 3.
Definition echoe (t : TerminalState) : bool := Z.testbit (c_lflag t) 4.
Definition echok (t : TerminalState) : bool := Z.testbit (c_lflag t) 5.
Definition echonl (t : TerminalState) : bool := Z.testbit (c_lflag t) 6.
Definition noflsh (t : TerminalState) : bool := Z.testbit (c_lflag t) 7.

(** What a typed byte is taken for: [ICRNL] turns a carriage return into a
    newline, [IGNCR] drops it otherwise, [INLCR] turns a newline into a carriage
    return. *)
Definition taken_for (t : TerminalState) (b : Z) : option Z :=
  if b =? 13 then (if icrnl t then Some 10 else if igncr t then None else Some 13)
  else if b =? 10 then (if inlcr t then Some 13 else Some 10)
  else Some b.

(** The special characters, most important first: where [c_cc] keeps each and
    what it means.  A slot that holds NUL is disabled. *)
Definition specials (t : TerminalState) (c : Z) : list (nat * key) :=
  (if isig t then [(0%nat, KSignal c 2); (1%nat, KSignal c 3); (10%nat, KSignal c 20)] else []) ++
  [(2%nat, KErase); (3%nat, KKill); (4%nat, KEof); (11%nat, KEol c)].

Definition assigned (t : TerminalState) (c : Z) (special : nat * key) : bool :=
  negb (c =? 0) && bool_decide (c_cc t !! special.1 = Some c).

Definition classify (t : TerminalState) (b : Z) : key :=
  match taken_for t b with
  | None => KDiscard
  | Some c =>
      match List.filter (assigned t c) (specials t c) with
      | (_, k) :: _ => k
      | [] => if c =? 10 then KEol c else KChar c
      end
  end.

(** The characters that survive, read from the last keystroke back: each erase
    cancels the nearest earlier character still standing, a kill everything
    before it. *)
Fixpoint survivors (ks : list key) (erased : nat) : bytes :=
  match ks with
  | [] => []
  | KErase :: ks' => survivors ks' (S erased)
  | KKill :: _ => []
  | KChar b :: ks' => match erased with O => b :: survivors ks' 0 | S e => survivors ks' e end
  | _ :: ks' => survivors ks' erased
  end.

Definition edited (ks : list key) : bytes := rev (survivors (rev ks) 0).

(** Completed lines and the keystrokes of the current one.  [keep]: signal
    characters do not flush. *)
Definition editor_step (keep : bool) (s : bytes * list key) (k : key) : bytes * list key :=
  let '(done_, seg) := s in
  match k with
  | KEof => (done_ ++ edited seg, [])
  | KEol b => (done_ ++ edited seg ++ [b], [])
  | KSignal _ _ => if keep then s else ([], [])
  | KDiscard => s
  | _ => (done_, seg ++ [k])
  end.

(** What a keystroke shows, the current line reading [line]. *)
Definition echoed (t : TerminalState) (line : bytes) (k : key) : bytes :=
  match k with
  | KChar c => if echo_on t then [c] else []
  | KErase => if echo_on t && echoe t && negb (length line =? 0)%nat then [8; 32; 8] else []
  | KKill => if echo_on t && echok t then concat (replicate (length line) [8; 32; 8]) else []
  | KEof | KDiscard => []
  | KEol c => if echo_on t || (echonl t && (c =? 10)) then [c] else []
  | KSignal c _ => if echo_on t then [94; Z.lxor c 64; 10] else []
  end.

Definition raised (k : key) : option Z := match k with KSignal _ s => Some s | _ => None end.

Lemma survivors_erased ks n : survivors ks n = drop n (survivors ks 0).
Proof.
  revert n. induction ks as [|k ks IH]; intros n; simpl; [by rewrite drop_nil|].
  destruct k; try apply IH.
  - destruct n as [|n]; [done|apply IH].
  - rewrite (IH (S n)), (IH 1%nat), drop_drop. done.
  - by rewrite drop_nil.
Qed.

Lemma edited_snoc ks k :
  edited (ks ++ [k]) =
  match k with
  | KChar b => edited ks ++ [b]
  | KErase => removelast (edited ks)
  | KKill => []
  | _ => edited ks
  end.
Proof.
  unfold edited. rewrite rev_app_distr. destruct k; simpl; try done.
  rewrite survivors_erased. destruct (survivors (rev ks) 0) as [|b l]; [done|]. simpl.
  by rewrite drop_0, removelast_last.
Qed.

(** The attributes the discipline consults. *)
Definition same_attributes (t t' : TerminalState) : Prop :=
  c_iflag t' = c_iflag t /\ c_oflag t' = c_oflag t /\ c_lflag t' = c_lflag t /\ c_cc t' = c_cc t.

Lemma same_attributes_sym t t' : same_attributes t t' -> same_attributes t' t.
Proof. unfold same_attributes. intuition. Qed.

Lemma classify_same t t' b : same_attributes t t' -> classify t' b = classify t b.
Proof.
  intros (H1 & H2 & H3 & H4). unfold classify, taken_for, specials, assigned, icrnl, igncr, inlcr, isig. by rewrite H1, H3, H4.
Qed.

Lemma echoed_same t t' line k : same_attributes t t' -> echoed t' line k = echoed t line k.
Proof.
  intros (H1 & H2 & H3 & H4). unfold echoed, echo_on, echoe, echok, echonl. by rewrite H3.
Qed.

Lemma same_attributes_trans t1 t2 t3 : same_attributes t1 t2 -> same_attributes t2 t3 -> same_attributes t1 t3.
Proof. unfold same_attributes. intuition congruence. Qed.

(** The code's tests against the bits. *)
Lemma has_bit flags n : 0 <= n -> has flags (2 ^ n) = Z.testbit flags n.
Proof.
  intros Hn. unfold has. rewrite (Z.land_comm flags), Z.land_comm.
  destruct (Z.testbit flags n) eqn:E; destruct (Z.eqb_spec (Z.land flags (2 ^ n)) 0) as [Hz|Hz]; try done; exfalso.
  - apply (f_equal (fun z => Z.testbit z n)) in Hz. by rewrite Z.land_spec, E, Z.pow2_bits_true, Z.bits_0 in Hz.
  - apply Hz, Z.bits_inj'. intros i Hi. rewrite Z.land_spec, Z.bits_0, Z.pow2_bits_eqb by done.
    destruct (Z.eqb_spec n i) as [->|]; [by rewrite E|apply andb_false_r].
Qed.

Lemma matches_assigned t i c k : control_char_matches t i c = assigned t c (i, k).
Proof.
  unfold control_char_matches, assigned. cbn [fst]. rewrite nth_lookup. destruct (c_cc t !! i) as [v|]; simpl.
  - destruct (Z.eqb_spec v c) as [->|Hne]; [by rewrite bool_decide_true|].
    rewrite bool_decide_false by congruence. by rewrite !andb_false_r.
  - by rewrite andb_false_r.
Qed.

Lemma map_taken t b : map_input t b = taken_for t b.
Proof.
  unfold map_input, taken_for. change ICRNL with (2 ^ 8). change INLCR with (2 ^ 6). change IGNCR with (2 ^ 7).
  rewrite !has_bit by lia. fold (icrnl t) (inlcr t) (igncr t). unfold CR, NL.
  destruct (Z.eqb_spec b 13) as [->|Hcr]; [by destruct (icrnl t), (igncr t), (inlcr t)|].
  destruct (Z.eqb_spec b 10) as [->|]; by destruct (icrnl t), (igncr t), (inlcr t).
Qed.

(** The keystroke as the code decides it. *)
Lemma classify_cases t b :
  classify t b =
  match map_input t b with
  | None => KDiscard
  | Some c =>
      match signal_of t c with
      | Some s => KSignal c s
      | None =>
          if control_char_matches t VERASE c then KErase
          else if control_char_matches t VKILL c then KKill
          else if control_char_matches t VEOF c then KEof
          else if (c =? NL) || control_char_matches t VEOL c then KEol c
          else KChar c
      end
  end.
Proof.
  unfold classify. rewrite map_taken. destruct (taken_for t b) as [c|]; [|done].
  unfold specials, signal_of. change ISIG with (2 ^ 0). rewrite has_bit by lia. fold (isig t).
  rewrite (matches_assigned t VERASE c KErase), (matches_assigned t VKILL c KKill), (matches_assigned t VEOF c KEof),
    (matches_assigned t VEOL c (KEol c)), (matches_assigned t VINTR c (KSignal c 2)), (matches_assigned t VQUIT c (KSignal c 3)),
    (matches_assigned t VSUSP c (KSignal c 20)).
  unfold VERASE, VKILL, VEOF, VEOL, VINTR, VQUIT, VSUSP, NL.
  destruct (isig t); cbn [app List.filter];
    repeat match goal with |- context [assigned t c ?x] => destruct (assigned t c x); [reflexivity || idtac|] end;
    by destruct (c =? 10).
Qed.

(** One byte: the discipline and the reference editor agree. *)
Lemma input_step t b seg :
  icanon t = true -> line_buffer t = edited seg ->
  let '(echo, signal, t') := process_input_byte t b in
  let '(cooked, seg') := editor_step (noflsh t) (cooked_buffer t, seg) (classify t b) in
  same_attributes t t' /\ cooked_buffer t' = cooked /\ line_buffer t' = edited seg' /\
  signal = raised (classify t b) /\ echo = echoed t (edited seg) (classify t b).
Proof.
  intros Hc Hl. rewrite classify_cases. unfold process_input_byte, echoed.
  change ECHO with (2 ^ 3). change ECHOE with (2 ^ 4). change ECHOK with (2 ^ 5). change ECHONL with (2 ^ 6).
  change NOFLSH with (2 ^ 7). change ICANON with (2 ^ 1). rewrite !has_bit by lia.
  fold (echo_on t) (echoe t) (echok t) (echonl t) (noflsh t) (icanon t). rewrite Hc. cbn [negb].
  destruct (map_input t b) as [c|]; [|done]. destruct (signal_of t c) as [s|].
  { cbn [editor_step raised]. destruct (noflsh t); done. }
  destruct (control_char_matches t VERASE c).
  { rewrite <- Hl. destruct (Nat.eqb_spec (length (line_buffer t)) 0) as [E|E]; simpl; rewrite ?edited_snoc, <- ?Hl, ?andb_false_r, ?andb_true_r.
    - split_and!; try done. by destruct (line_buffer t).
    - done. }
  destruct (control_char_matches t VKILL c); [simpl; by rewrite edited_snoc, <- Hl|].
  destruct (control_char_matches t VEOF c); [simpl; by rewrite Hl|].
  destruct (_ || control_char_matches t VEOL c); simpl; [unfold vec_push; by rewrite Hl|]. rewrite edited_snoc. unfold vec_push. by rewrite Hl.
Qed.

(** A run of keystrokes: what each call returned, and the final terminal. *)
Fixpoint input_run (t : TerminalState) (bs : bytes) : list (bytes * option Z) * TerminalState :=
  match bs with
  | [] => ([], t)
  | b :: bs' =>
      let '(echo, signal, t1) := process_input_byte t b in
      let '(l, t2) := input_run t1 bs' in ((echo, signal) :: l, t2)
  end.

(** What the reference editor shows and raises for each keystroke. *)
Fixpoint editor_run (t : TerminalState) (s : bytes * list key) (ks : list key) : list (bytes * option Z) * (bytes * list key) :=
  match ks with
  | [] => ([], s)
  | k :: ks' =>
      let '(l, s') := editor_run t (editor_step (noflsh t) s k) ks' in ((echoed t (edited s.2) k, raised k) :: l, s')
  end.

Lemma editor_run_same t t' s ks : same_attributes t t' -> editor_run t' s ks = editor_run t s ks.
Proof.
  intros Hs. assert (noflsh t' = noflsh t) as E by (unfold noflsh; by rewrite (proj1 (proj2 (proj2 Hs)))).
  revert s. induction ks as [|k ks IH]; intros s; simpl; [done|]. by rewrite E, IH, (echoed_same t t') by done.
Qed.

Lemma input_run_spec bs t seg :
  icanon t = true -> line_buffer t = edited seg ->
  let '(answers, t') := input_run t bs in
  let '(answers', (cooked, seg')) := editor_run t (cooked_buffer t, seg) (map (classify t) bs) in
  same_attributes t t' /\ cooked_buffer t' = cooked /\ line_buffer t' = edited seg' /\ answers = answers'.
Proof.
  revert t seg. induction bs as [|b bs IH]; intros t seg Hc Hl; cbn [input_run map editor_run]; [done|].
  pose proof (input_step t b seg Hc Hl) as Hs. destruct (process_input_byte t b) as [[e sg] t1].
  destruct (editor_step _ _ (classify t b)) as [ck seg1]. destruct Hs as (Hsa & Hk & Hl1 & -> & ->).
  assert (icanon t1 = true) as Hc1 by (unfold icanon in *; by rewrite (proj1 (proj2 (proj2 Hsa)))).
  specialize (IH t1 seg1 Hc1 Hl1). rewrite (editor_run_same t), Hk in IH by done.
  destruct (input_run t1 bs) as [l t2]. rewrite (map_ext (classify t1) (classify t)) in IH by (intros; by apply classify_same).
  destruct (editor_run t (ck, seg1) _) as [l' [ck2 seg2]]. destruct IH as (Hsa2 & Hk2 & Hl2 & ->).
  split_and!; [by eapply same_attributes_trans|done|done|done].
Qed.

(** C31: The line discipline equals the reference editor.  In canonical mode, for
    any attributes and any bytes typed at the start of a line, each byte means
    what its attributes say (carriage return and newline mapped, then the first
    of the enabled special characters that [c_cc] assigns it, none of them NUL),
    and the completed input is exactly the reference editor's: each line as it
    reads with every erase and kill applied from right to left, ended by its
    newline or end-of-line character or, at an end-of-file character, by nothing;
    an interrupt, quit or suspend character raises its signal and discards the
    unread input unless NOFLSH is set; each byte echoes exactly what the echo
    attributes ask; and the attributes never change. *)
Theorem line_discipline_equiv t bs :
  icanon t = true -> line_buffer t = [] ->
  let '(answers, t') := input_run t bs in
  let '(answers', (cooked, seg)) := editor_run t (cooked_buffer t, []) (map (classify t) bs) in
  answers = answers' /\ cooked_buffer t' = cooked /\ line_buffer t' = edited seg /\ same_attributes t t'.
Proof.
  intros Hc Hl. pose proof (input_run_spec bs t [] Hc Hl) as H. destruct (input_run t bs) as [l t'].
  destruct (editor_run _ _ _) as [l' [ck seg]]. tauto.
Qed.

(** ** Sessions on a pair *)

Inductive pty_op :=
| PType (b : Z)               (* the master writes one byte *)
| PSlaveRead (buf : bytes)
| PSlaveWrite (data : bytes)
| PMasterRead (buf : bytes).

(** What a call returns: a signal to send, or a count and the caller's slice. *)
Inductive pty_answer :=
| ASignal (s : option Z)
| ABytes (n : nat) (buf : bytes)
| ACount (n : nat).

Definition pty_step (p : PtyPair) (op : pty_op) : pty_answer * PtyPair :=
  match op with
  | PType b => let '(s, p') := process_master_input p b in (ASignal s, p')
  | PSlaveRead buf => let '(n, buf', p') := slave_read p buf in (ABytes n buf', p')
  | PSlaveWrite data => let '(n, p') := slave_write p data in (ACount n, p')
  | PMasterRead buf => let '(n, buf', p') := master_read p buf in (ABytes n buf', p')
  end.

Fixpoint pty_run (p : PtyPair) (ops : list pty_op) : list pty_answer * PtyPair :=
  match ops with
  | [] => ([], p)
  | op :: ops' =>
      let '(a, p1) := pty_step p op in
      let '(l, p2) := pty_run p1 ops' in (a :: l, p2)
  end.

(** The specification of a session: the bytes ready for the slave, the keystrokes
    of the line being typed, and the bytes on their way to the master. *)
Record Session := mkSession { se_ready : bytes; se_line : list key; se_screen : bytes }.

(** Output processing: with OPOST and ONLCR, every newline is preceded by a carriage
    return. *)
Fixpoint shown (crnl : bool) (data : bytes) : bytes :=
  match data with
  | [] => []
  | b :: data' => if crnl && (b =? 10) then 13 :: 10 :: shown crnl data' else b :: shown crnl data'
  end.

(** The oldest bytes of a queue, into the caller's slice. *)
Definition hand_out (buf q : bytes) : pty_answer :=
  ABytes (Nat.min (length buf) (length q)) (take (length buf) q ++ drop (length q) buf).

(** What an operation prints. *)
Definition printed (t : TerminalState) (s : Session) (op : pty_op) : bytes :=
  match op with
  | PType b =>
      let k := classify t b in
      if icanon t || bool_decide (is_Some (raised k)) then shown (opost_onlcr t) (echoed t (edited (se_line s)) k)
      else if echo_on t then shown (opost_onlcr t) [b] else []
  | PSlaveWrite data => shown (opost_onlcr t) data
  | _ => []
  end.

(** In raw mode a byte is ready as it was typed, unless it raises a signal. *)
Definition session_step (t : TerminalState) (s : Session) (op : pty_op) : pty_answer * Session :=
  let screen := se_screen s ++ printed t s op in
  match op with
  | PType b =>
      let k := classify t b in
      (ASignal (raised k),
       if icanon t then
         let '(ready, line) := editor_step (noflsh t) (se_ready s, se_line s) k in mkSession ready line screen
       else
         match raised k with
         | Some _ => mkSession (if noflsh t then se_ready s else []) (se_line s) screen
         | None => mkSession (se_ready s ++ [b]) (se_line s) screen
         end)
  | PSlaveRead buf => (hand_out buf (se_ready s), mkSession (drop (length buf) (se_ready s)) (se_line s) screen)
  | PSlaveWrite data => (ACount (length data), mkSession (se_ready s) (se_line s) screen)
  | PMasterRead buf => (hand_out buf screen, mkSession (se_ready s) (se_line s) (drop (length buf) screen))
  end.

Fixpoint session_run (t : TerminalState) (s : Session) (ops : list pty_op) : list pty_answer * Session :=
  match ops with
  | [] => ([], s)
  | op :: ops' =>
      let '(a, s1) := session_step t s op in
      let '(l, s2) := session_run t s1 ops' in (a :: l, s2)
  end.

(** Everything printed in a session. *)
Fixpoint print_run (t : TerminalState) (s : Session) (ops : list pty_op) : bytes :=
  match ops with
  | [] => []
  | op :: ops' => printed t s op ++ print_run t (session_step t s op).2 ops'
  end.

(** The bytes the answers handed to the master. *)
Definition to_master (op : pty_op) (a : pty_answer) : bytes :=
  match op, a with PMasterRead _, ABytes n buf => take n buf | _, _ => [] end.

Lemma hand_out_splice (buf q : bytes) :
  splice 0 (take (Nat.min (length buf) (length q)) q) buf = take (length buf) q ++ drop (length q) buf.
Proof.
  unfold splice. rewrite take_0, length_take. simpl.
  destruct (Nat.le_gt_cases (length q) (length buf)).
  - rewrite !(take_ge q) by lia. do 2 f_equal. lia.
  - rewrite (Nat.min_l (length buf) (length q)) by lia. rewrite !drop_ge by lia. done.
Qed.

Lemma pop_into_hand buf q :
  let '(n, buf', q') := pop_into buf q in ABytes n buf' = hand_out buf q /\ q' = drop (length buf) q.
Proof.
  unfold pop_into, hand_out. rewrite hand_out_splice. split; [done|].
  destruct (Nat.le_gt_cases (length q) (length buf)); [|by rewrite Nat.min_l by lia].
  rewrite !drop_ge by lia. done.
Qed.

Lemma post_shown t data :
  flat_map (post (has (c_oflag t) OPOST) (has (c_oflag t) ONLCR)) data = shown (opost_onlcr t) data.
Proof.
  change OPOST with (2 ^ 0). change ONLCR with (2 ^ 2). rewrite !has_bit by lia.
  induction data as [|b data IH]; [done|]. cbn [flat_map shown]. rewrite IH. unfold post, opost_onlcr, NL.
  by destruct (_ && (b =? 10)).
Qed.

Lemma shown_app crnl d1 d2 : shown crnl (d1 ++ d2) = shown crnl d1 ++ shown crnl d2.
Proof. induction d1 as [|b d1 IH]; simpl; [done|]. rewrite IH. by destruct (crnl && _). Qed.

(** The pair [p] is the session [s], under the attributes of [t]. *)
Record in_session (t : TerminalState) (s : Session) (p : PtyPair) : Prop := {
  is_attrs : same_attributes t (terminal p);
  is_screen : output_buf p = se_screen s;
  is_ready : if icanon t then cooked_buffer (terminal p) = se_ready s /\ line_buffer (terminal p) = edited (se_line s)
             else input_buf p = se_ready s;
}.

Lemma canonical_bit t : is_canonical t = icanon t.
Proof. unfold is_canonical. change ICANON with (2 ^ 1). by rewrite has_bit. Qed.

Lemma attrs_bits t t' : same_attributes t t' ->
  icanon t' = icanon t /\ noflsh t' = noflsh t /\ opost_onlcr t' = opost_onlcr t /\ echo_on t' = echo_on t.
Proof. intros (H1 & H2 & H3 & H4). unfold icanon, noflsh, opost_onlcr, echo_on. by rewrite H2, H3. Qed.

(** The discipline in raw mode: signals only. *)
Lemma raw_input t line b :
  icanon t = false ->
  exists t', same_attributes t t' /\
    process_input_byte t b =
      (if bool_decide (is_Some (raised (classify t b))) then echoed t line (classify t b) else [], raised (classify t b), t').
Proof.
  intros Hc. rewrite classify_cases. unfold process_input_byte, echoed.
  change ECHO with (2 ^ 3). change ICANON with (2 ^ 1). rewrite !has_bit by lia. fold (echo_on t) (icanon t). rewrite Hc. cbn [negb].
  destruct (map_input t b) as [c|]; [|by exists t]. destruct (signal_of t c) as [g|].
  - eexists. split; [|reflexivity]. by destruct (has (c_lflag t) NOFLSH).
  - exists t. split; [done|]. repeat (case_match; try done).
Qed.

Lemma type_step t s p b :
  in_session t s p ->
  let '(a, s') := session_step t s (PType b) in
  let '(a', p') := pty_step p (PType b) in a' = a /\ in_session t s' p'.
Proof.
  intros [Ha Hs Hr]. destruct (attrs_bits t (terminal p) Ha) as (Ec & En & Eo & Ee).
  cbn [session_step pty_step printed]. unfold process_master_input.
  rewrite <- !(classify_same t (terminal p)), <- !(echoed_same t (terminal p)) by done. rewrite <- Ec, <- En, <- Ee, <- Eo in *.
  cbv zeta. destruct (icanon (terminal p)) eqn:Ei; cbn [orb].
  - destruct Hr as [Hr Hl]. pose proof (input_step (terminal p) b (se_line s) Ei Hl) as Hi.
    destruct (process_input_byte (terminal p) b) as [[e g] t1]. rewrite Hr in Hi.
    destruct (editor_step _ _ _) as [ready line]. destruct Hi as (Hsa & Hk & Hl' & -> & ->).
    pose proof (same_attributes_trans _ _ _ Ha Hsa) as Hsa'. destruct (attrs_bits _ _ Hsa') as (Ec1 & _).
    rewrite canonical_bit, Ec1, <- Ec. rewrite post_shown, Hs. cbn [negb].
    destruct (raised _); cbn [with_data]; (split; [done|]); split; cbn [terminal output_buf se_screen]; try done; by rewrite <- Ec.
  - destruct (raw_input (terminal p) (edited (se_line s)) b Ei) as (t1 & Hsa & ->).
    pose proof (same_attributes_trans _ _ _ Ha Hsa) as Hsa'. destruct (attrs_bits _ _ Hsa') as (Ec1 & En1 & _ & Ee1).
    rewrite canonical_bit, Ec1, <- Ec. change NOFLSH with (2 ^ 7). change ECHO with (2 ^ 3). rewrite !has_bit by lia.
    fold (noflsh t1) (echo_on t1). rewrite En1, Ee1, <- En, <- Ee. rewrite post_shown, Hs. cbn [negb].
    assert (opost_onlcr (terminal p) = has (c_oflag (terminal p)) OPOST && has (c_oflag (terminal p)) ONLCR) as Eop.
    { unfold opost_onlcr. change OPOST with (2 ^ 0). change ONLCR with (2 ^ 2). by rewrite !has_bit by lia. }
    destruct (raised (classify (terminal p) b)) as [g|].
    + rewrite !(bool_decide_true (is_Some (Some g))) by done. cbn [andb]. split; [done|].
      split; [done|done|]. rewrite <- Ec. cbn [with_data input_buf se_ready]. rewrite <- Hr. by destruct (noflsh _).
    + rewrite !(bool_decide_false (is_Some (@None Z))) by (by intros [? ?]). cbn [andb flat_map shown]. split; [done|].
      split; [done| |rewrite <- Ec; cbn [with_data input_buf se_ready]; by rewrite <- Hr].
      cbn [with_data output_buf se_screen]. unfold post. rewrite <- Eop, app_nil_r.
      destruct (echo_on (terminal p)); [|by rewrite app_nil_r]. unfold NL, CR. by destruct (_ && (b =? 10)).
Qed.

Lemma slave_read_step t s p buf :
  in_session t s p ->
  let '(a, s') := session_step t s (PSlaveRead buf) in
  let '(a', p') := pty_step p (PSlaveRead buf) in a' = a /\ in_session t s' p'.
Proof.
  intros [Ha Hs Hr]. destruct (attrs_bits t (terminal p) Ha) as (Ec & _).
  cbn [session_step pty_step printed]. cbv zeta. rewrite app_nil_r. unfold slave_read. rewrite canonical_bit, Ec.
  destruct (icanon t) eqn:Ei.
  - destruct Hr as [Hr Hl]. pose proof (pop_into_hand buf (cooked_buffer (terminal p))) as Hp. unfold pop_into in Hp.
    unfold read_cooked. rewrite Hr in *. set (n := Nat.min (length buf) (length (se_ready s))) in *. destruct Hp as [Hp Hd].
    destruct (Nat.eqb_spec n 0) as [E|E].
    + rewrite (proj2 (Nat.ltb_ge 0 0)) by lia. rewrite <- Hp, <- Hd, E, take_0, drop_0. split; [done|].
      split; [done|done|]. by rewrite Ei.
    + rewrite (proj2 (Nat.ltb_lt 0 n)) by lia. rewrite <- Hp, <- Hd. split; [done|]. split; [done|done|]. by rewrite Ei.
  - pose proof (pop_into_hand buf (input_buf p)) as Hp. destruct (pop_into buf (input_buf p)) as [[n buf'] q].
    destruct Hp as [-> ->]. rewrite Hr. split; [done|]. split; [done|done|]. by rewrite Ei.
Qed.

Lemma pty_step_session t s p op :
  in_session t s p ->
  let '(a, s') := session_step t s op in let '(a', p') := pty_step p op in a' = a /\ in_session t s' p'.
Proof.
  intros Hin. destruct op as [b|buf|data|buf]; [by apply type_step|by apply slave_read_step| |].
  - destruct Hin as [Ha Hs Hr]. destruct (attrs_bits t (terminal p) Ha) as (_ & _ & Eo & _).
    cbn [session_step pty_step printed]. unfold slave_write. rewrite post_shown, Hs, Eo. split; [done|]. by split.
  - destruct Hin as [Ha Hs Hr]. cbn [session_step pty_step printed]. cbv zeta. rewrite app_nil_r. unfold master_read.
    pose proof (pop_into_hand buf (output_buf p)) as Hp. destruct (pop_into buf (output_buf p)) as [[n buf'] q].
    destruct Hp as [-> ->]. rewrite Hs. split; [done|]. by split.
Qed.

Lemma pty_run_session t ops : forall s p,
  in_session t s p ->
  let '(l, s') := session_run t s ops in let '(l', p') := pty_run p ops in l' = l /\ in_session t s' p'.
Proof.
  induction ops as [|op ops IH]; intros s p Hin; cbn [session_run pty_run]; [done|].
  pose proof (pty_step_session t s p op Hin) as Hs.
  destruct (session_step t s op) as [a s1], (pty_step p op) as [a' p1]. destruct Hs as [-> Hin1].
  specialize (IH s1 p1 Hin1). destruct (session_run t s1 ops) as [l s2], (pty_run p1 ops) as [l' p2].
  by destruct IH as [-> ?].
Qed.

(** The screen loses nothing: of the specification alone. *)
Lemma screen_conserved t ops : forall s,
  let '(l, s') := session_run t s ops in
  concat (zip_with to_master ops l) ++ se_screen s' = se_screen s ++ print_run t s ops.
Proof.
  induction ops as [|op ops IH]; intros s; cbn [session_run print_run]; [simpl; by rewrite app_nil_r|].
  assert (to_master op (session_step t s op).1 ++ se_screen (session_step t s op).2 = se_screen s ++ printed t s op) as E.
  { destruct op as [b|buf|data|buf]; cbn [session_step fst snd to_master]; [|done..|].
    - destruct (icanon t); [by destruct (editor_step _ _ _)|by destruct (raised _)].
    - unfold hand_out, printed. rewrite app_nil_r. cbn [to_master se_screen].
      rewrite take_app_le, take_take by (rewrite length_take; lia). 
      destruct (Nat.le_gt_cases (length buf) (length (se_screen s))).
      + replace (_ `min` _ `min` _)%nat with (length buf) by lia. apply take_drop.
      + rewrite !take_ge, drop_ge by lia. apply app_nil_r. }
  specialize (IH (session_step t s op).2). destruct (session_step t s op) as [a s1]. cbn [fst snd] in *.
  destruct (session_run t s1 ops) as [l s2]. simpl. by rewrite <- app_assoc, IH, app_assoc, E, app_assoc.
Qed.

(** C32: A terminal session, in canonical and in raw mode, from the start of a
    line.  Over any interleaving of typed bytes, slave reads, slave writes and master reads of any
    sizes, every call answers (the signal to send, the counts, the caller's slice
    byte by byte) exactly as the specification does: the slave is handed, oldest
    first, the lines the reference editor completes, or in raw mode the bytes as
    they were typed, except what a signal character flushes; the master is handed,
    oldest first, what was echoed and written, every newline preceded by a
    carriage return where OPOST and ONLCR ask for it.  So what the master has read
    followed by what waits for it is the output that waited at the start followed
    by everything printed: nothing is lost, duplicated or reordered. *)
Theorem pty_session_reliable p ops :
  line_buffer (terminal p) = [] ->
  let t := terminal p in
  let start := mkSession (if icanon t then cooked_buffer t else input_buf p) [] (output_buf p) in
  let '(answers, p') := pty_run p ops in
  let '(expected, s') := session_run t start ops in
  answers = expected /\
  (if icanon t then cooked_buffer (terminal p') = se_ready s' /\ line_buffer (terminal p') = edited (se_line s')
   else input_buf p' = se_ready s') /\
  concat (zip_with to_master ops answers) ++ output_buf p' = output_buf p ++ print_run t start ops.
Proof.
  intros Hl t start. assert (in_session t start p) as Hin.
  { split; [done|done|]. unfold start. by destruct (icanon t). }
  pose proof (pty_run_session t ops start p Hin) as Hr. pose proof (screen_conserved t ops start) as Hc.
  destruct (session_run t start ops) as [l s'], (pty_run p ops) as [l' p']. destruct Hr as [-> [_ Hs Hr]].
  split_and!; [done|done|]. by rewrite Hs.
Qed.

(** Allocation takes the lowest free of the 64 slots with a fresh, locked pair, and
    fails exactly when all are in use; freeing makes a slot available again. *)
Theorem pty_table_exact table idx :
  length table = MAX_PTYS ->
  (match alloc_pty table with
   | (Some i, table') =>
       length table' = MAX_PTYS /\ get_pty table i = None /\ get_pty table' i = Some pty_new /\
       (forall j, (j < i)%nat -> is_Some (get_pty table j)) /\ (forall j, j <> i -> get_pty table' j = get_pty table j)
   | (None, table') => table' = table /\ forall j, (j < MAX_PTYS)%nat -> is_Some (get_pty table j)
   end) /\
  (get_pty (free_pty table idx) idx = None /\ forall j, j <> idx -> get_pty (free_pty table idx) j = get_pty table j).
Proof.
  intros Hl. unfold alloc_pty, get_pty, free_pty. split.
  - pose proof (position_spec (fun slot : option PtyPair => bool_decide (slot = None)) table) as Hp.
    destruct (position _ table) as [i|].
    + destruct Hp as (l1 & e & l2 & -> & He & Hf & ->). rewrite length_insert. apply bool_decide_eq_true in He as ->.
      rewrite length_app in Hl. simpl in Hl. rewrite (proj2 (Nat.leb_gt MAX_PTYS (length l1))) by lia.
      rewrite list_lookup_middle, list_lookup_insert_eq by (rewrite ?length_app; simpl; lia).
      split_and!; [by rewrite length_app|done|done| |].
      * intros j Hj. rewrite (proj2 (Nat.leb_gt MAX_PTYS j)) by lia. rewrite lookup_app_l by done.
        destruct (lookup_lt_is_Some_2 l1 j Hj) as [x Hx]. rewrite Hx. rewrite Forall_lookup in Hf.
        specialize (Hf j x Hx). apply bool_decide_eq_false in Hf. destruct x; [by eexists|done].
      * intros j Hj. by rewrite list_lookup_insert_ne by done.
    + split; [done|]. intros j Hj. rewrite (proj2 (Nat.leb_gt MAX_PTYS j)) by lia.
      destruct (lookup_lt_is_Some_2 table j) as [x Hx]; [lia|]. rewrite Hx. rewrite Forall_lookup in Hp.
      specialize (Hp j x Hx). apply bool_decide_eq_false in Hp. destruct x; [by eexists|done].
  - destruct (Nat.ltb_spec idx MAX_PTYS) as [Hi|Hi]; (split; [|intros j Hj]).
    + rewrite (proj2 (Nat.leb_gt MAX_PTYS idx)), list_lookup_insert_eq by lia. done.
    + by rewrite list_lookup_insert_ne by done.
    + by rewrite (proj2 (Nat.leb_le MAX_PTYS idx)).
    + done.
Qed.

(** ** Witnesses *)

Lemma term_new_ok : term_ok term_new.
Proof. split; [split; vm_compute; discriminate..|reflexivity]. Qed.

Lemma termios_roundtrip_witness :
  exists buf, write_termios term_new (replicate 64 7) = Some buf /\ drop 60 buf = [7; 7; 7; 7] /\
    read_termios (set_input [65] [66] term_new) buf = Some (set_input [65] [66] term_new).
Proof.
  destruct (termios_roundtrip term_new (set_input [65] [66] term_new) (replicate 64 7) term_new_ok) as [H _].
  destruct H as (buf & Hw & _ & Hd & Hr); [simpl; lia|]. exists buf. split; [exact Hw|]. split; [exact Hd|exact Hr].
Defined.

(** [ab<DEL>c<CR>], then [d<^D>]. *)
Definition sample_keys : bytes := [97; 98; 127; 99; 13; 100; 4].

Lemma line_discipline_equiv_witness :
  cooked_buffer (input_run term_new sample_keys).2 = [97; 99; 10; 100] /\
  (input_run term_new sample_keys).1 !! 2%nat = Some ([8; 32; 8], None).
Proof.
  pose proof (line_discipline_equiv term_new sample_keys eq_refl eq_refl) as H.
  destruct (input_run term_new sample_keys) as [l t']. vm_compute in H. destruct H as (H1 & H2 & _). rewrite H1.
  split; [exact H2|reflexivity].
Defined.

Definition sample_session : list pty_op :=
  [PType 97; PSlaveWrite [62; 10]; PType 98; PType 127; PMasterRead (replicate 3 0); PType 13; PSlaveRead (replicate 1 0);
   PMasterRead (replicate 9 0); PType 3].

Lemma pty_session_reliable_witness :
  (pty_run pty_new sample_session).1 =
    [ASignal None; ACount 2; ASignal None; ASignal None; ABytes 3 [97; 62; 13]; ASignal None; ABytes 1 [97];
     ABytes 7 [10; 98; 8; 32; 8; 13; 10; 0; 0]; ASignal (Some SIGINT)] /\
  cooked_buffer (terminal (pty_run pty_new sample_session).2) = [].
Proof.
  pose proof (pty_session_reliable pty_new sample_session eq_refl) as H.
  destruct (pty_run pty_new sample_session) as [l p'] eqn:E. cbv beta zeta in H.
  destruct (session_run _ _ sample_session) as [l' s'] eqn:Es. vm_compute in Es. injection Es as <- <-.
  destruct H as (-> & Hr & _). split; [reflexivity|]. change (icanon (terminal pty_new)) with true in Hr. exact (proj1 Hr).
Defined.

(** ** Divergences *)

(** The input mapping is applied to the byte the discipline looks at, but in raw
    mode the pair passes on the byte that was typed: a carriage return reaches
    the program as it is although ICRNL is set, and even where IGNCR
    discards it. *)
Definition raw_pair (iflag : Z) : PtyPair :=
  mkPty (mkTerm iflag 0 0 0 0 default_cc 0 0 (mkWinSize 0 0 0 0) 0 0 [] []) [] [] false 1 1.

Example raw_mode_ignores_input_mapping :
  input_buf (process_master_input (raw_pair ICRNL) CR).2 = [CR] /\
  input_buf (process_master_input (raw_pair IGNCR) CR).2 = [CR].
Proof. vm_compute. done. Qed.
