(* ===== verification/Pshared.v ===== *)
(** * Process-shared synchronization ([crates/kernel/src/pshared.rs])

    [PSharedTable]: mutexes, condition variables and barriers of
    [PTHREAD_PROCESS_SHARED] objects, keyed by the identifier written into the
    user's structure.  A call that would block returns EAGAIN and is retried by
    the host.  The ordered maps are finite maps; queues are lists, oldest
    first; counters keep their 32 bits.

    The theorems: what the callers observe is mutual exclusion (with the
    recursion depth of recursive mutexes) and a free mutex can always be taken;
    every wakeup of a condition variable is paid for by a signal or broadcast
    and none is lost while the waiters live; a barrier used in rounds releases
    nobody before its last arrival and names exactly one serial thread.  The
    uses the last two exclude are evaluated at the end. *)

From S2P Require Import Prelude Abi.

Definition MUTEX_TYPE_RECURSIVE : Z := 1.
Definition MUTEX_TYPE_ERRORCHECK : Z := 2.
Definition PTHREAD_BARRIER_SERIAL_THREAD : Z := -1.

Record PSharedMutex := mkMutex { mx_owner : Z; mx_recursive_count : Z; mx_mtype : Z }.
Record CondWaiter := mkCW { cw_pid : Z; cw_mutex_id : Z; cw_signaled : bool }.
Record PSharedCond := mkCond { cv_waiters : list CondWaiter }.
Record BarrierWaiter := mkBW { bw_pid : Z; bw_is_serial : bool; bw_released : bool }.
Record PSharedBarrier := mkBarrier { br_count : Z; br_waiters : list BarrierWaiter }.

Record PSharedTable := mkPS {
  mutexes : gmap Z PSharedMutex;
  conds : gmap Z PSharedCond;
  barriers : gmap Z PSharedBarrier;
  next_id : Z;
}.

Definition ps_new : PSharedTable := mkPS ∅ ∅ ∅ 1.

Definition with_mutexes (t : PSharedTable) m := mkPS m (conds t) (barriers t) (next_id t).
Definition with_conds (t : PSharedTable) c := mkPS (mutexes t) c (barriers t) (next_id t).
Definition with_barriers (t : PSharedTable) b := mkPS (mutexes t) (conds t) b (next_id t).

Definition alloc_id (t : PSharedTable) : Z * PSharedTable :=
  let id := next_id t in
  let next := u32_wrap (next_id t + 1) in
  (id, mkPS (mutexes t) (conds t) (barriers t) (if next =? 0 then 1 else next)).

(** ** Mutexes *)

Definition mutex_init (t : PSharedTable) (mtype : Z) : Z * PSharedTable :=
  let '(id, t) := alloc_id t in
  (id, with_mutexes t (<[id := mkMutex 0 0 (Z.land mtype 0xF)]> (mutexes t))).

Definition mutex_destroy (t : PSharedTable) (id : Z) : kresult unit * PSharedTable :=
  match mutexes t !! id with
  | None => (Err EINVAL, t)
  | Some m => if negb (mx_owner m =? 0) then (Err EBUSY, t) else (Ok (), with_mutexes t (delete id (mutexes t)))
  end.

Definition mutex_trylock (t : PSharedTable) (id pid : Z) : kresult unit * PSharedTable :=
  match mutexes t !! id with
  | None => (Err EINVAL, t)
  | Some m =>
      if mx_owner m =? 0 then (Ok (), with_mutexes t (<[id := mkMutex pid 0 (mx_mtype m)]> (mutexes t)))
      else if mx_owner m =? pid then
        if mx_mtype m =? MUTEX_TYPE_RECURSIVE then
          (Ok (), with_mutexes t (<[id := mkMutex (mx_owner m) (u32_saturating_add (mx_recursive_count m) 1) (mx_mtype m)]> (mutexes t)))
        else if mx_mtype m =? MUTEX_TYPE_ERRORCHECK then (Err EDEADLK, t)
        else (Err EBUSY, t)
      else (Err EBUSY, t)
  end.

Definition mutex_lock (t : PSharedTable) (id pid : Z) : kresult unit * PSharedTable :=
  match mutex_trylock t id pid with
  | (Err EBUSY, t') => (Err EAGAIN, t')
  | r => r
  end.

Definition mutex_unlock (t : PSharedTable) (id pid : Z) : kresult unit * PSharedTable :=
  match mutexes t !! id with
  | None => (Err EINVAL, t)
  | Some m =>
      if negb (mx_owner m =? pid) then (Err EPERM, t)
      else if (mx_mtype m =? MUTEX_TYPE_RECURSIVE) && (0 <? mx_recursive_count m)
      then (Ok (), with_mutexes t (<[id := mkMutex (mx_owner m) (mx_recursive_count m - 1) (mx_mtype m)]> (mutexes t)))
      else (Ok (), with_mutexes t (<[id := mkMutex 0 0 (mx_mtype m)]> (mutexes t)))
  end.

(** ** Condition variables *)

Definition cond_init (t : PSharedTable) : Z * PSharedTable :=
  let '(id, t) := alloc_id t in (id, with_conds t (<[id := mkCond []]> (conds t))).

Definition cond_destroy (t : PSharedTable) (id : Z) : kresult unit * PSharedTable :=
  match conds t !! id with
  | None => (Err EINVAL, t)
  | Some c =>
      match cv_waiters c with
      | [] => (Ok (), with_conds t (delete id (conds t)))
      | _ => (Err EBUSY, t)
      end
  end.

(** The mutex is released before the condition variable is looked up. *)
Definition cond_wait_begin (t : PSharedTable) (cond_id mutex_id pid : Z) : kresult unit * PSharedTable :=
  match mutexes t !! mutex_id with
  | None => (Err EINVAL, t)
  | Some m =>
      if negb (mx_owner m =? pid) then (Err EPERM, t)
      else
        let t := with_mutexes t (<[mutex_id := mkMutex 0 0 (mx_mtype m)]> (mutexes t)) in
        match conds t !! cond_id with
        | None => (Err EINVAL, t)
        | Some c =>
            (Ok (),
             if existsb (fun w => cw_pid w =? pid) (cv_waiters c) then t
             else with_conds t (<[cond_id := mkCond (vec_push (cv_waiters c) (mkCW pid mutex_id false))]> (conds t)))
        end
  end.

Definition cond_wait_check (t : PSharedTable) (cond_id mutex_id pid : Z) : kresult unit * PSharedTable :=
  match conds t !! cond_id with
  | None => (Err EINVAL, t)
  | Some c =>
      match position (fun w => cw_pid w =? pid) (cv_waiters c) with
      | None => (Err EINVAL, t)
      | Some idx =>
          match cv_waiters c !! idx with
          | None => (Err EINVAL, t)
          | Some w =>
              if negb (cw_mutex_id w =? mutex_id) then (Err EINVAL, t)
              else if negb (cw_signaled w) then (Err EAGAIN, t)
              else
                match mutexes t !! mutex_id with
                | None => (Err EINVAL, t)
                | Some m =>
                    if negb (mx_owner m =? 0) && negb (mx_owner m =? pid) then (Err EAGAIN, t)
                    else
                      (Ok (), with_conds (with_mutexes t (<[mutex_id := mkMutex pid 0 (mx_mtype m)]> (mutexes t)))
                                (<[cond_id := mkCond (vec_remove idx (cv_waiters c))]> (conds t)))
                end
          end
      end
  end.

Definition drop_waiters (pid : Z) (c : PSharedCond) : PSharedCond :=
  mkCond (List.filter (fun w => negb (cw_pid w =? pid)) (cv_waiters c)).

Definition cond_wait_abort (t : PSharedTable) (cond_id pid : Z) : PSharedTable :=
  with_conds t (alter (drop_waiters pid) cond_id (conds t)).

Definition mark (w : CondWaiter) : CondWaiter := mkCW (cw_pid w) (cw_mutex_id w) true.

(** [for w in waiters { if !w.signaled { w.signaled = true; return w.pid } }]. *)
Fixpoint signal_first (ws : list CondWaiter) : Z * list CondWaiter :=
  match ws with
  | [] => (0, [])
  | w :: ws' =>
      if cw_signaled w then let '(p, l) := signal_first ws' in (p, w :: l) else (cw_pid w, mark w :: ws')
  end.

Definition cond_signal (t : PSharedTable) (cond_id : Z) : kresult Z * PSharedTable :=
  match conds t !! cond_id with
  | None => (Err EINVAL, t)
  | Some c =>
      let '(pid, ws) := signal_first (cv_waiters c) in (Ok pid, with_conds t (<[cond_id := mkCond ws]> (conds t)))
  end.

Definition unsignaled (ws : list CondWaiter) : nat := length (List.filter (fun w => negb (cw_signaled w)) ws).

(** The count is a [u32] incremented once per waiter marked. *)
Definition cond_broadcast (t : PSharedTable) (cond_id : Z) : kresult Z * PSharedTable :=
  match conds t !! cond_id with
  | None => (Err EINVAL, t)
  | Some c =>
      (Ok (u32_wrap (Z.of_nat (unsignaled (cv_waiters c)))),
       with_conds t (<[cond_id := mkCond (map mark (cv_waiters c))]> (conds t)))
  end.

(** ** Barriers *)

Definition barrier_init (t : PSharedTable) (count : Z) : kresult Z * PSharedTable :=
  if count =? 0 then (Err EINVAL, t)
  else let '(id, t) := alloc_id t in (Ok id, with_barriers t (<[id := mkBarrier count []]> (barriers t))).

Definition barrier_destroy (t : PSharedTable) (id : Z) : kresult unit * PSharedTable :=
  match barriers t !! id with
  | None => (Err EINVAL, t)
  | Some b =>
      match br_waiters b with
      | [] => (Ok (), with_barriers t (delete id (barriers t)))
      | _ => (Err EBUSY, t)
      end
  end.

Definition release (w : BarrierWaiter) : BarrierWaiter := mkBW (bw_pid w) (bw_is_serial w) true.

Definition barrier_arrive (b : PSharedBarrier) (pid : Z) : kresult Z * PSharedBarrier :=
  match position (fun w => bw_pid w =? pid) (br_waiters b) with
  | Some idx =>
      match br_waiters b !! idx with
      | Some w =>
          if bw_released w
          then (Ok (if bw_is_serial w then PTHREAD_BARRIER_SERIAL_THREAD else 0),
                mkBarrier (br_count b) (vec_remove idx (br_waiters b)))
          else (Err EAGAIN, b)
      | None => (Err EAGAIN, b)
      end
  | None =>
      let ws := vec_push (br_waiters b) (mkBW pid false false) in
      if as_u32 (Z.of_nat (length ws)) =? br_count b then
        let last_idx := (length ws - 1)%nat in
        let ws := alter (fun w => mkBW (bw_pid w) true (bw_released w)) last_idx ws in
        (Ok PTHREAD_BARRIER_SERIAL_THREAD, mkBarrier (br_count b) (vec_remove last_idx (map release ws)))
      else (Err EAGAIN, mkBarrier (br_count b) ws)
  end.

Definition barrier_wait (t : PSharedTable) (id pid : Z) : kresult Z * PSharedTable :=
  match barriers t !! id with
  | None => (Err EINVAL, t)
  | Some b => let '(r, b') := barrier_arrive b pid in (r, with_barriers t (<[id := b']> (barriers t)))
  end.

(** ** Cleanup *)

Definition release_owned (pid : Z) (m : PSharedMutex) : PSharedMutex :=
  if mx_owner m =? pid then mkMutex 0 0 (mx_mtype m) else m.

Definition ps_cleanup_process (t : PSharedTable) (pid : Z) : PSharedTable :=
  mkPS (release_owned pid <$> mutexes t) (drop_waiters pid <$> conds t)
    ((fun b => mkBarrier (br_count b) (List.filter (fun w => negb (bw_pid w =? pid)) (br_waiters b))) <$> barriers t)
    (next_id t).

(** ** Runs *)

Inductive ps_op :=
| OMutexInit (mtype : Z)
| OMutexDestroy (id : Z)
| OTryLock (id pid : Z)
| OLock (id pid : Z)
| OUnlock (id pid : Z)
| OCondInit
| OCondDestroy (id : Z)
| OWait (cond_id mutex_id pid : Z)
| OCheck (cond_id mutex_id pid : Z)
| OAbort (cond_id pid : Z)
| OSignal (cond_id : Z)
| OBroadcast (cond_id : Z)
| OBarrierInit (count : Z)
| OBarrierDestroy (id : Z)
| OBarrierWait (id pid : Z)
| OExit (pid : Z).

Definition unit_result (r : kresult unit * PSharedTable) : kresult Z * PSharedTable :=
  (match r.1 with Ok _ => Ok 0 | Err e => Err e end, r.2).

Definition ps_step (t : PSharedTable) (op : ps_op) : kresult Z * PSharedTable :=
  match op with
  | OMutexInit mtype => let '(id, t') := mutex_init t mtype in (Ok id, t')
  | OMutexDestroy id => unit_result (mutex_destroy t id)
  | OTryLock id pid => unit_result (mutex_trylock t id pid)
  | OLock id pid => unit_result (mutex_lock t id pid)
  | OUnlock id pid => unit_result (mutex_unlock t id pid)
  | OCondInit => let '(id, t') := cond_init t in (Ok id, t')
  | OCondDestroy id => unit_result (cond_destroy t id)
  | OWait c m pid => unit_result (cond_wait_begin t c m pid)
  | OCheck c m pid => unit_result (cond_wait_check t c m pid)
  | OAbort c pid => (Ok 0, cond_wait_abort t c pid)
  | OSignal c => cond_signal t c
  | OBroadcast c => cond_broadcast t c
  | OBarrierInit n => barrier_init t n
  | OBarrierDestroy id => unit_result (barrier_destroy t id)
  | OBarrierWait id pid => barrier_wait t id pid
  | OExit pid => (Ok 0, ps_cleanup_process t pid)
  end.

(** *** What the callers of the mutexes observe *)

(** How many times each process holds each mutex, from the results alone.  A wait
    gives the mutex up for as long as it lasts; a wait on a condition variable
    that does not exist has given it up as well (see the end). *)
Definition holdings := Z -> Z -> Z.

Definition set_held (h : holdings) (id pid v : Z) : holdings :=
  fun i p => if (i =? id) && (p =? pid) then v else h i p.

Definition hold_step (h : holdings) (op : ps_op) (r : kresult Z) : holdings :=
  match op, r with
  | OMutexInit _, Ok id => fun i p => if i =? id then 0 else h i p
  | OTryLock id pid, Ok _ | OLock id pid, Ok _ => set_held h id pid (Z.min (h id pid + 1) (2 ^ 32))
  | OUnlock id pid, Ok _ => set_held h id pid (h id pid - 1)
  | OWait _ m pid, (Ok _ | Err EINVAL) => set_held h m pid 0
  | OCheck _ m pid, Ok _ => set_held h m pid 1
  | OExit pid, _ => fun i p => if p =? pid then 0 else h i p
  | _, _ => h
  end.

Fixpoint hold_run (t : PSharedTable) (h : holdings) (ops : list ps_op) : holdings * PSharedTable :=
  match ops with
  | [] => (h, t)
  | op :: ops' => let '(r, t') := ps_step t op in hold_run t' (hold_step h op r) ops'
  end.

(** Process numbers are not zero. *)
Definition ps_ok (op : ps_op) : Prop :=
  match op with
  | OTryLock _ pid | OLock _ pid | OUnlock _ pid | OWait _ _ pid | OCheck _ _ pid | OExit pid => pid <> 0
  | _ => True
  end.

Definition depth (m : PSharedMutex) (pid : Z) : Z :=
  if (mx_owner m =? pid) && negb (pid =? 0) then mx_recursive_count m + 1 else 0.

Definition held_by (t : PSharedTable) (id pid : Z) : Z :=
  match mutexes t !! id with Some m => depth m pid | None => 0 end.

Record mutex_ok (m : PSharedMutex) : Prop := {
  mo_count : 0 <= mx_recursive_count m <= u32_max;
  mo_plain : mx_mtype m <> MUTEX_TYPE_RECURSIVE -> mx_recursive_count m = 0;
}.

Definition mutexes_ok (t : PSharedTable) : Prop := forall id m, mutexes t !! id = Some m -> mutex_ok m.

Lemma held_insert t id m i p ms' :
  ms' = <[id := m]> (mutexes t) -> forall c b n,
  held_by (mkPS ms' c b n) i p = if i =? id then depth m p else held_by t i p.
Proof.
  intros -> c b n. unfold held_by. simpl. destruct (Z.eqb_spec i id) as [->|Hne]; [by rewrite lookup_insert_eq|].
  by rewrite lookup_insert_ne.
Qed.

Lemma mutexes_ok_insert t id m : mutexes_ok t -> mutex_ok m -> forall c b n, mutexes_ok (mkPS (<[id := m]> (mutexes t)) c b n).
Proof. intros Hok Hm c b n i m'. simpl. rewrite lookup_insert_Some. intros [[<- <-]|[_ Hl]]; [done|by eapply Hok]. Qed.

(** A step agrees with the observed holdings. *)
Definition agrees (h : holdings) (t : PSharedTable) : Prop := forall i p, h i p = held_by t i p.

(** Case analysis on the equalities of the goal. *)
Ltac zcases :=
  repeat match goal with |- context [?a =? ?b] => destruct (Z.eqb_spec a b); cbn [andb negb] in * end;
  subst; try done; try lia.

Lemma held_of h t id m : agrees h t -> mutexes t !! id = Some m -> forall p, h id p = depth m p.
Proof. intros Ha E p. rewrite Ha. unfold held_by. by rewrite E. Qed.

(** Replacing a mutex replaces one row of the holdings. *)
Lemma agrees_insert h h' t id m :
  agrees h t -> (forall p, h' id p = depth m p) -> (forall i p, i <> id -> h' i p = h i p) ->
  forall c b n, agrees h' (mkPS (<[id := m]> (mutexes t)) c b n).
Proof.
  intros Ha Hrow Ho c b n i p. rewrite (held_insert t id m i p _ eq_refl). destruct (Z.eqb_spec i id) as [->|Hne]; [apply Hrow|].
  rewrite Ho by done. apply Ha.
Qed.

Lemma trylock_step h t id pid :
  pid <> 0 -> agrees h t -> mutexes_ok t ->
  match mutex_trylock t id pid with
  | (Ok _, t') => agrees (set_held h id pid (Z.min (h id pid + 1) (2 ^ 32))) t' /\ mutexes_ok t' /\ forall p, p <> pid -> h id p = 0
  | (Err _, t') => t' = t
  end.
Proof.
  intros Hp Ha Hok. unfold mutex_trylock. destruct (mutexes t !! id) as [m|] eqn:E; [|done].
  pose proof (Hok _ _ E) as [Hc Hn]. pose proof (held_of h t id m Ha E) as Hh. unfold depth in Hh.
  destruct (Z.eqb_spec (mx_owner m) 0) as [E0|E0].
  - split_and!.
    + apply agrees_insert with h; [done| |]; intros; unfold set_held, depth; rewrite ?Hh; cbn [mx_owner mx_recursive_count]; zcases.
    + apply mutexes_ok_insert; [done|]. split; simpl; [unfold u32_max; lia|done].
    + intros p _. rewrite Hh. zcases.
  - destruct (Z.eqb_spec (mx_owner m) pid) as [Eo|Eo]; [|done].
    destruct (Z.eqb_spec (mx_mtype m) MUTEX_TYPE_RECURSIVE) as [Et|Et]; [|by case_bool_step]. split_and!.
    + apply agrees_insert with h; [done| |]; intros; unfold set_held, depth; rewrite ?Hh; cbn [mx_owner mx_recursive_count];
        unfold u32_saturating_add, u32_max in *; zcases.
    + apply mutexes_ok_insert; [done|]. split; simpl; [unfold u32_saturating_add, u32_max in *; lia|done].
    + intros p Hne. rewrite Hh. zcases.
Qed.

Lemma unlock_step h t id pid :
  pid <> 0 -> agrees h t -> mutexes_ok t ->
  match mutex_unlock t id pid with
  | (Ok _, t') => agrees (set_held h id pid (h id pid - 1)) t' /\ mutexes_ok t'
  | (Err _, t') => t' = t
  end.
Proof.
  intros Hp Ha Hok. unfold mutex_unlock. destruct (mutexes t !! id) as [m|] eqn:E; [|done].
  pose proof (Hok _ _ E) as [Hc Hn]. pose proof (held_of h t id m Ha E) as Hh. unfold depth in Hh.
  destruct (Z.eqb_spec (mx_owner m) pid) as [Eo|Eo]; cbn [negb]; [|done].
  destruct (Z.eqb_spec (mx_mtype m) MUTEX_TYPE_RECURSIVE) as [Et|Et]; cbn [andb];
    [destruct (Z.ltb_spec 0 (mx_recursive_count m))|]; (split; [|apply mutexes_ok_insert; [done|split; simpl; [unfold u32_max in *; lia|intros; try lia; by apply Hn]]]);
    (apply agrees_insert with h; [done| |]; intros; unfold set_held, depth; rewrite ?Hh; cbn [mx_owner mx_recursive_count]; zcases).
Qed.

Lemma wait_step h t c m pid :
  pid <> 0 -> agrees h t -> mutexes_ok t ->
  match cond_wait_begin t c m pid with
  | (Ok _, t') | (Err EINVAL, t') => agrees (set_held h m pid 0) t' /\ mutexes_ok t'
  | (Err _, t') => t' = t
  end.
Proof.
  intros Hp Ha Hok. unfold cond_wait_begin. destruct (mutexes t !! m) as [mx|] eqn:E.
  2: { split; [|done]. intros i p. unfold set_held. destruct (Z.eqb_spec i m) as [->|]; [|apply Ha].
       destruct (Z.eqb_spec p pid) as [->|]; [|apply Ha]. unfold held_by. by rewrite E. }
  pose proof (held_of h t m mx Ha E) as Hh. unfold depth in Hh.
  destruct (Z.eqb_spec (mx_owner mx) pid) as [Eo|Eo]; cbn [negb]; [|done]. cbn [with_mutexes conds].
  assert (forall cs, agrees (set_held h m pid 0) (mkPS (<[m:=mkMutex 0 0 (mx_mtype mx)]> (mutexes t)) cs (barriers t) (next_id t))) as Hag.
  { intros cs. apply agrees_insert with h; [done| |]; intros; unfold set_held, depth; rewrite ?Hh; cbn [mx_owner mx_recursive_count]; zcases. }
  assert (mutex_ok (mkMutex 0 0 (mx_mtype mx))) as Hm by (split; simpl; [unfold u32_max; lia|done]).
  destruct (conds t !! c); [case_bool_step|]; (split; [apply Hag|by apply mutexes_ok_insert]).
Qed.

Lemma check_step h t c m pid :
  pid <> 0 -> agrees h t -> mutexes_ok t ->
  match cond_wait_check t c m pid with
  | (Ok _, t') => agrees (set_held h m pid 1) t' /\ mutexes_ok t' /\ forall p, p <> pid -> h m p = 0
  | (Err _, t') => t' = t
  end.
Proof.
  intros Hp Ha Hok. unfold cond_wait_check. destruct (conds t !! c) as [cv|]; [|done].
  destruct (position _ _) as [idx|]; [|done]. destruct (cv_waiters cv !! idx) as [w|]; [|done].
  case_bool_step; [done|]. case_bool_step; [done|]. destruct (mutexes t !! m) as [mx|] eqn:E; [|done].
  pose proof (held_of h t m mx Ha E) as Hh. unfold depth in Hh.
  destruct (negb (mx_owner mx =? 0) && negb (mx_owner mx =? pid)) eqn:Eo; [done|].
  assert (mx_owner mx = 0 \/ mx_owner mx = pid) as Ho by lia. split_and!.
  - apply agrees_insert with h; [done| |]; intros; unfold set_held, depth; rewrite ?Hh; cbn [mx_owner mx_recursive_count]; zcases.
  - apply mutexes_ok_insert; [done|]. split; simpl; [unfold u32_max; lia|done].
  - intros p Hne. rewrite Hh. zcases.
Qed.

Lemma exit_step h t pid :
  pid <> 0 -> agrees h t -> mutexes_ok t ->
  agrees (fun i p => if p =? pid then 0 else h i p) (ps_cleanup_process t pid) /\ mutexes_ok (ps_cleanup_process t pid).
Proof.
  intros Hp Ha Hok. split.
  - intros i p. unfold held_by. simpl. rewrite lookup_fmap. specialize (Ha i p). unfold held_by in Ha.
    destruct (mutexes t !! i) as [m|]; simpl; [|zcases]. rewrite Ha. unfold release_owned, depth.
    destruct (Z.eqb_spec (mx_owner m) pid); cbn [mx_owner mx_recursive_count]; zcases.
  - intros i m'. simpl. rewrite lookup_fmap, fmap_Some. intros (m & Hl & ->). pose proof (Hok _ _ Hl) as [H1 H2].
    unfold release_owned. by case_bool_step; split; simpl.
Qed.

Lemma same_mutexes h t t' : mutexes t' = mutexes t -> agrees h t -> mutexes_ok t -> agrees h t' /\ mutexes_ok t'.
Proof.
  intros E Ha Hok. split; [|intros i m; rewrite E; apply Hok]. intros i p. rewrite Ha. unfold held_by. by rewrite E.
Qed.

Lemma hold_step_ok h t op :
  ps_ok op -> agrees h t -> mutexes_ok t ->
  let '(r, t') := ps_step t op in agrees (hold_step h op r) t' /\ mutexes_ok t'.
Proof.
  intros Hop Ha Hok. destruct op; cbn [ps_step ps_ok] in *; unfold unit_result.
  - simpl. split; [|apply (mutexes_ok_insert t); [done|split; simpl; [unfold u32_max; lia|done]]].
    apply (agrees_insert h _ t); [done| |]; intros; unfold depth; cbn [mx_owner mx_recursive_count]; zcases.
  - unfold mutex_destroy. destruct (mutexes t !! id) as [m|] eqn:E; [|done].
    destruct (Z.eqb_spec (mx_owner m) 0) as [E0|E0]; cbn [negb]; [|done]. simpl. split.
    + intros i p. rewrite Ha. unfold held_by. simpl. destruct (decide (i = id)) as [->|Hne].
      * rewrite E, lookup_delete_eq. unfold depth. zcases.
      * by rewrite lookup_delete_ne.
    + intros i m'. simpl. rewrite lookup_delete_Some. intros [_ Hl]. by eapply Hok.
  - pose proof (trylock_step h t id pid Hop Ha Hok) as Hs. destruct (mutex_trylock t id pid) as [[[]|e] t']; simpl; [tauto|by subst].
  - pose proof (trylock_step h t id pid Hop Ha Hok) as Hs. unfold mutex_lock.
    destruct (mutex_trylock t id pid) as [[[]|e] t']; simpl; [tauto|]. subst. by destruct e.
  - pose proof (unlock_step h t id pid Hop Ha Hok) as Hs. destruct (mutex_unlock t id pid) as [[[]|e] t']; simpl; [tauto|by subst].
  - by apply (same_mutexes h t).
  - unfold cond_destroy. destruct (conds t !! id) as [c|]; [|done]. destruct (cv_waiters c); [|done]. by apply (same_mutexes h t).
  - pose proof (wait_step h t cond_id mutex_id pid Hop Ha Hok) as Hs.
    destruct (cond_wait_begin t cond_id mutex_id pid) as [[[]|e] t']; simpl; [tauto|]. destruct e; (tauto || by subst).
  - pose proof (check_step h t cond_id mutex_id pid Hop Ha Hok) as Hs.
    destruct (cond_wait_check t cond_id mutex_id pid) as [[[]|e] t']; simpl; [tauto|by subst].
  - by apply (same_mutexes h t).
  - unfold cond_signal. destruct (conds t !! cond_id) as [c|]; [|done]. destruct (signal_first (cv_waiters c)).
    by apply (same_mutexes h t).
  - unfold cond_broadcast. destruct (conds t !! cond_id) as [c|]; [|done]. by apply (same_mutexes h t).
  - unfold barrier_init. case_bool_step; [done|]. by apply (same_mutexes h t).
  - unfold barrier_destroy. destruct (barriers t !! id) as [b|]; [|done]. destruct (br_waiters b); [|done]. by apply (same_mutexes h t).
  - unfold barrier_wait. destruct (barriers t !! id) as [b|]; [|done]. destruct (barrier_arrive b pid) as [r b'].
    by apply (same_mutexes h t).
  - by apply exit_step.
Qed.

Lemma hold_run_ok ops h t :
  Forall ps_ok ops -> agrees h t -> mutexes_ok t ->
  let '(h', t') := hold_run t h ops in agrees h' t' /\ mutexes_ok t'.
Proof.
  revert h t. induction ops as [|op ops IH]; intros h t Hrun Ha Hok; simpl in *; [done|]. apply Forall_cons in Hrun as [Hop Hrun].
  pose proof (hold_step_ok h t op Hop Ha Hok) as Hs. destruct (ps_step t op) as [r t1]. destruct Hs. by apply IH.
Qed.

(** C33: Process-shared mutexes exclude each other.  Counting only the results the
    callers see (locks, unlocks, waits and wakeups, exits), in every state any run
    reaches at most one process holds a mutex; the count is what the table says
    of every mutex that exists, the owner's recursion depth and zero for anyone
    else; a lock or a wakeup succeeds only while no other process holds the mutex;
    and a mutex that exists and nobody holds can be locked by anyone.  A wait
    gives the mutex up also when it is refused with EINVAL because the condition
    variable does not exist, and the count takes it so; the count stops at the
    largest depth a [u32] records.  (A process number is never 0, which the table
    uses for no owner.) *)
Theorem pshared_mutex_exclusive ops :
  Forall ps_ok ops ->
  let '(h, t) := hold_run ps_new (fun _ _ => 0) ops in
  (forall id p q, 0 < h id p -> 0 < h id q -> p = q) /\
  (forall id m p, mutexes t !! id = Some m -> p <> 0 ->
     h id p = if mx_owner m =? p then mx_recursive_count m + 1 else 0) /\
  (forall id pid, pid <> 0 -> (mutex_lock t id pid).1 = Ok () -> forall p, p <> pid -> h id p = 0) /\
  (forall c id pid, pid <> 0 -> (cond_wait_check t c id pid).1 = Ok () -> forall p, p <> pid -> h id p = 0) /\
  (forall id pid, pid <> 0 -> is_Some (mutexes t !! id) -> (forall p, h id p = 0) -> (mutex_lock t id pid).1 = Ok ()).
Proof.
  intros Hrun. assert (agrees (fun _ _ => 0) ps_new) as Ha by (intros i p; unfold held_by; simpl; by rewrite lookup_empty).
  assert (mutexes_ok ps_new) as Hok by (intros i m; simpl; by rewrite lookup_empty).
  pose proof (hold_run_ok ops _ _ Hrun Ha Hok) as Hr. destruct (hold_run ps_new _ ops) as [h t]. clear Ha Hok Hrun.
  destruct Hr as [Ha Hok]. split_and!.
  - intros id p q. rewrite !Ha. unfold held_by. destruct (mutexes t !! id) as [m|]; [|lia]. unfold depth. zcases.
  - intros id m p Hm Hp. rewrite (held_of h t id m Ha Hm). unfold depth. by rewrite (proj2 (Z.eqb_neq p 0) Hp), andb_true_r.
  - intros id pid Hp. unfold mutex_lock. pose proof (trylock_step h t id pid Hp Ha Hok) as Hs.
    destruct (mutex_trylock t id pid) as [[[]|e] t']; [tauto|by destruct e].
  - intros c id pid Hp. pose proof (check_step h t c id pid Hp Ha Hok) as Hs.
    destruct (cond_wait_check t c id pid) as [[[]|e] t']; [tauto|done].
  - intros id pid Hp [m Hm] Hfree. unfold mutex_lock, mutex_trylock. rewrite Hm.
    pose proof (Hok _ _ Hm) as [Hc _]. specialize (Hfree (mx_owner m)). rewrite (held_of h t id m Ha Hm) in Hfree.
    unfold depth in Hfree. rewrite Z.eqb_refl in Hfree. destruct (Z.eqb_spec (mx_owner m) 0); [done|]. simpl in Hfree. lia.
Qed.

(** *** Wakeups of a condition variable *)

Definition cond_at (t : PSharedTable) (c : Z) : list CondWaiter :=
  match conds t !! c with Some cv => cv_waiters cv | None => [] end.

(** Waiters that may wake but have not yet. *)
Definition signaled (ws : list CondWaiter) : Z := Z.of_nat (length (List.filter cw_signaled ws)).

Definition woken (c : Z) (op : ps_op) (r : kresult Z) : Z :=
  match op, r with OCheck c' _ _, Ok _ => if c' =? c then 1 else 0 | _, _ => 0 end.

(** The waiters a signal or broadcast reports to have woken. *)
Definition marked (c : Z) (op : ps_op) (r : kresult Z) : Z :=
  match op, r with
  | OSignal c', Ok pid => if (c' =? c) && negb (pid =? 0) then 1 else 0
  | OBroadcast c', Ok n => if c' =? c then n else 0
  | _, _ => 0
  end.

Fixpoint cond_run (c : Z) (t : PSharedTable) (ops : list ps_op) : Z * Z * PSharedTable :=
  match ops with
  | [] => (0, 0, t)
  | op :: ops' =>
      let '(r, t1) := ps_step t op in
      let '(w, m, t2) := cond_run c t1 ops' in
      (woken c op r + w, marked c op r + m, t2)
  end.

(** A step that neither destroys the condition variable nor removes a waiter. *)
Definition keeps_cond (c : Z) (t : PSharedTable) (op : ps_op) : Prop :=
  is_Some (conds (ps_step t op).2 !! c) /\ Z.of_nat (length (cond_at t c)) <= u32_max /\
  match op with
  | OCondInit => next_id t <> c
  | OAbort c' pid => c' = c -> forall w, w ∈ cond_at t c -> cw_pid w <> pid
  | OExit pid => forall w, w ∈ cond_at t c -> cw_pid w <> pid
  | OWait _ _ pid => pid <> 0
  | _ => True
  end.

Fixpoint keeps_cond_run (c : Z) (t : PSharedTable) (ops : list ps_op) : Prop :=
  match ops with [] => True | op :: ops' => keeps_cond c t op /\ keeps_cond_run c (ps_step t op).2 ops' end.

Lemma signaled_app a b : signaled (a ++ b) = signaled a + signaled b.
Proof. unfold signaled. rewrite List.filter_app, length_app. lia. Qed.

Lemma signaled_cons w ws : signaled (w :: ws) = (if cw_signaled w then 1 else 0) + signaled ws.
Proof. unfold signaled. cbn [List.filter]. destruct (cw_signaled w); cbn [length]; lia. Qed.

Lemma signal_first_spec ws :
  Forall (fun w => cw_pid w <> 0) ws ->
  let '(pid, ws') := signal_first ws in
  signaled ws' = signaled ws + (if pid =? 0 then 0 else 1) /\ Forall (fun w => cw_pid w <> 0) ws' /\
  (pid = 0 -> ws' = ws /\ forall w, w ∈ ws -> cw_signaled w = true) /\
  (pid <> 0 -> exists l1 w l2, ws = l1 ++ w :: l2 /\ ws' = l1 ++ mark w :: l2 /\ cw_pid w = pid /\
     cw_signaled w = false /\ Forall (fun x => cw_signaled x = true) l1).
Proof.
  induction 1 as [|w ws Hw Hws IH]; simpl; [split_and!; try done; set_solver|].
  destruct (cw_signaled w) eqn:E.
  - destruct (signal_first ws) as [pid ws']. destruct IH as (H1 & H2 & H3 & H4).
    rewrite !signaled_cons, E, H1. split_and!; [lia|by constructor| |].
    + intros Hz. destruct (H3 Hz) as [-> Hall]. split; [done|]. intros x [->|Hx]%elem_of_cons; auto.
    + intros Hz. destruct (H4 Hz) as (l1 & x & l2 & -> & -> & Hp & Hs & Hl). exists (w :: l1), x, l2. split_and!; try done.
      by constructor.
  - rewrite !signaled_cons, E. cbn [mark cw_signaled]. rewrite (proj2 (Z.eqb_neq (cw_pid w) 0)) by done.
    split_and!; [lia|by constructor|done|]. intros _. by exists [], w, ws.
Qed.

Lemma broadcast_signaled ws : signaled (map mark ws) = signaled ws + Z.of_nat (unsignaled ws).
Proof.
  induction ws as [|w ws IH]; [done|]. cbn [map]. rewrite !signaled_cons, IH. unfold unsignaled. cbn [List.filter mark cw_signaled].
  destruct (cw_signaled w); cbn [negb length]; lia.
Qed.

Lemma unsignaled_le ws : (unsignaled ws <= length ws)%nat.
Proof. unfold unsignaled. apply filter_length_le. Qed.

Lemma drop_waiters_id pid c : (forall w, w ∈ cv_waiters c -> cw_pid w <> pid) -> drop_waiters pid c = c.
Proof.
  intros Hw. destruct c as [ws]. unfold drop_waiters. f_equal. apply filter_all. apply Forall_forall. intros w Hin.
  specialize (Hw w Hin). apply negb_true_iff. by apply Z.eqb_neq.
Qed.

Definition pids_ok (t : PSharedTable) (c : Z) : Prop := Forall (fun w => cw_pid w <> 0) (cond_at t c).

Lemma cond_at_insert t c c' cv : forall m b n,
  cond_at (mkPS m (<[c' := cv]> (conds t)) b n) c = if c =? c' then cv_waiters cv else cond_at t c.
Proof.
  intros. unfold cond_at. simpl. destruct (Z.eqb_spec c c') as [->|]; [by rewrite lookup_insert_eq|by rewrite lookup_insert_ne].
Qed.

Lemma same_conds c t t' : conds t' = conds t -> cond_at t' c = cond_at t c.
Proof. intros E. unfold cond_at. by rewrite E. Qed.

Lemma cond_lookup t c cv : conds t !! c = Some cv -> cond_at t c = cv_waiters cv.
Proof. unfold cond_at. by intros ->. Qed.

(** The three operations that move a waiter. *)
Lemma wait_cond t c c' m pid :
  pid <> 0 -> pids_ok t c ->
  let '(r, t') := cond_wait_begin t c' m pid in
  signaled (cond_at t' c) = signaled (cond_at t c) /\ pids_ok t' c.
Proof.
  intros Hp Hok. unfold cond_wait_begin. destruct (mutexes t !! m) as [mx|]; [|done]. case_bool_step; [done|]. simpl.
  destruct (conds t !! c') as [cv|] eqn:E; [|done]. case_bool_step; [done|]. unfold pids_ok, with_conds, with_mutexes. cbn [conds].
  rewrite cond_at_insert. destruct (Z.eqb_spec c c') as [->|]; [|done]. unfold pids_ok in Hok. rewrite (cond_lookup _ _ _ E) in *. cbn [cv_waiters].
  unfold vec_push. rewrite signaled_app. split; [unfold signaled; simpl; lia|]. apply Forall_app. split; [done|]. by repeat constructor.
Qed.

Lemma check_cond t c c' m pid :
  pids_ok t c ->
  let '(r, t') := cond_wait_check t c' m pid in
  (match r with Ok _ => if c' =? c then 1 else 0 | Err _ => 0 end) + signaled (cond_at t' c) = signaled (cond_at t c) /\ pids_ok t' c.
Proof.
  intros Hok. unfold cond_wait_check. destruct (conds t !! c') as [cv|] eqn:E; [|done].
  pose proof (position_spec (fun w => cw_pid w =? pid) (cv_waiters cv)) as Hps. destruct (position _ _) as [idx|]; [|done].
  destruct Hps as (l1 & w & l2 & Hl & _ & _ & ->). rewrite Hl, list_lookup_middle by done. case_bool_step; [done|].
  destruct (cw_signaled w) eqn:Es; cbn [negb]; [|done]. destruct (mutexes t !! m) as [mx|]; [|done]. case_bool_step; [done|].
  unfold pids_ok, with_conds, with_mutexes. cbn [conds]. rewrite cond_at_insert, (Z.eqb_sym c' c).
  destruct (Z.eqb_spec c c') as [->|]; [|split; [lia|done]]. unfold pids_ok in Hok. rewrite (cond_lookup _ _ _ E) in *. cbn [cv_waiters].
  rewrite vec_remove_app. rewrite Hl in *. rewrite !signaled_app, signaled_cons, Es.
  split; [lia|]. apply Forall_app in Hok as [? [? ?]%Forall_cons]. by apply Forall_app.
Qed.

Lemma signal_cond t c c' :
  pids_ok t c ->
  let '(r, t') := cond_signal t c' in
  signaled (cond_at t' c) = signaled (cond_at t c) + marked c (OSignal c') r /\ pids_ok t' c.
Proof.
  intros Hok. unfold cond_signal. destruct (conds t !! c') as [cv|] eqn:E; simpl; [|split; [lia|done]].
  destruct (signal_first (cv_waiters cv)) as [pid ws] eqn:Es. unfold pids_ok. simpl. unfold with_conds. rewrite cond_at_insert, (Z.eqb_sym c' c).
  destruct (Z.eqb_spec c c') as [->|]; simpl; [|split; [lia|done]]. unfold pids_ok in Hok. rewrite (cond_lookup _ _ _ E) in *.
  pose proof (signal_first_spec _ Hok) as Hs. rewrite Es in Hs. destruct Hs as (-> & H2 & _). split; [|done].
  by destruct (pid =? 0).
Qed.

Lemma broadcast_cond t c c' :
  Z.of_nat (length (cond_at t c)) <= u32_max -> pids_ok t c ->
  let '(r, t') := cond_broadcast t c' in
  signaled (cond_at t' c) = signaled (cond_at t c) + marked c (OBroadcast c') r /\ pids_ok t' c.
Proof.
  intros Hlen Hok. unfold cond_broadcast. destruct (conds t !! c') as [cv|] eqn:E; simpl; [|split; [lia|done]].
  unfold pids_ok, with_conds. rewrite cond_at_insert, (Z.eqb_sym c' c). destruct (Z.eqb_spec c c') as [->|]; simpl; [|split; [lia|done]].
  unfold pids_ok in Hok. rewrite (cond_lookup _ _ _ E) in *. rewrite broadcast_signaled. pose proof (unsignaled_le (cv_waiters cv)).
  unfold u32_wrap, u32_max in *. rewrite Z.mod_small by lia. split; [done|]. apply Forall_map. done.
Qed.

Lemma cond_step c t op :
  keeps_cond c t op -> pids_ok t c ->
  let '(r, t') := ps_step t op in
  woken c op r + signaled (cond_at t' c) = signaled (cond_at t c) + marked c op r /\ pids_ok t' c.
Proof.
  intros (Hs & Hlen & Hk) Hok.
  assert (forall r t', woken c op r = 0 -> marked c op r = 0 -> cond_at t' c = cond_at t c ->
    woken c op r + signaled (cond_at t' c) = signaled (cond_at t c) + marked c op r /\ pids_ok t' c) as Hsame.
  { intros r t' -> -> E. unfold pids_ok. rewrite E. split; [lia|done]. }
  destruct op; cbn [ps_step] in *; unfold unit_result in *.
  - by apply Hsame.
  - apply Hsame; [done|done|]. unfold mutex_destroy. destruct (mutexes t !! id); [|done]. by case_bool_step.
  - apply Hsame; [done|done|]. unfold mutex_trylock. destruct (mutexes t !! id); [|done]. by repeat case_bool_step.
  - apply Hsame; [done|done|]. unfold mutex_lock, mutex_trylock. destruct (mutexes t !! id); [|done]. by repeat case_bool_step.
  - apply Hsame; [done|done|]. unfold mutex_unlock. destruct (mutexes t !! id); [|done]. by repeat case_bool_step.
  - unfold cond_init, alloc_id. apply Hsame; [done|done|]. unfold with_conds. cbn [conds].
    rewrite cond_at_insert. by rewrite (proj2 (Z.eqb_neq c (next_id t))) by congruence.
  - apply Hsame; [done|done|]. unfold cond_destroy in *. destruct (conds t !! id) as [cv|] eqn:E; [|done].
    destruct (cv_waiters cv) eqn:Ew; [|done]. simpl in *. unfold cond_at. simpl.
    destruct (decide (c = id)) as [->|Hne]; [rewrite lookup_delete_eq in Hs; by destruct Hs|by rewrite lookup_delete_ne].
  - pose proof (wait_cond t c cond_id mutex_id pid Hk Hok) as Hw. destruct (cond_wait_begin t cond_id mutex_id pid) as [r t'].
    simpl. destruct Hw. split; [lia|done].
  - pose proof (check_cond t c cond_id mutex_id pid Hok) as Hw. destruct (cond_wait_check t cond_id mutex_id pid) as [[[]|e] t'].
    + simpl. destruct Hw. split; [lia|done].
    + simpl. destruct Hw. split; [lia|done].
  - apply Hsame; [done|done|]. unfold cond_at in *. simpl. destruct (decide (cond_id = c)) as [->|Hne].
    + rewrite lookup_alter_eq. destruct (conds t !! c) as [cv|]; [|done]. cbn -[drop_waiters]. by rewrite drop_waiters_id by by apply Hk.
    + by rewrite lookup_alter_ne.
  - pose proof (signal_cond t c cond_id Hok) as Hw. destruct (cond_signal t cond_id) as [r t']. destruct Hw.
    split; [simpl in *; lia|done].
  - pose proof (broadcast_cond t c cond_id Hlen Hok) as Hw. destruct (cond_broadcast t cond_id) as [r t']. destruct Hw.
    split; [simpl in *; lia|done].
  - unfold barrier_init. case_bool_step; by apply Hsame.
  - apply Hsame; [done|done|]. unfold barrier_destroy. destruct (barriers t !! id) as [b|]; [|done]. by destruct (br_waiters b).
  - unfold barrier_wait. destruct (barriers t !! id) as [b|]; [|by apply Hsame]. destruct (barrier_arrive b pid) as [r b']. by apply Hsame.
  - apply Hsame; [done|done|]. unfold cond_at in *. cbn -[drop_waiters]. rewrite lookup_fmap. destruct (conds t !! c) as [cv|]; [|done]. cbn -[drop_waiters].
    by rewrite drop_waiters_id.
Qed.

(** Wakeups are neither lost nor invented.  Over any run that keeps a condition
    variable and in which no waiter is aborted or exits, the waits that
    completed plus the waiters still entitled to complete equal those entitled
    at the start plus the waiters the signals and broadcasts reported; and a
    signal entitles exactly the oldest waiter not yet entitled. *)
Theorem cond_wakeups_exact c t ops :
  pids_ok t c -> keeps_cond_run c t ops ->
  let '(w, m, t') := cond_run c t ops in
  w + signaled (cond_at t' c) = signaled (cond_at t c) + m /\
  (is_Some (conds t' !! c) ->
   let '(r, t'') := cond_signal t' c in
   (r = Ok 0 /\ cond_at t'' c = cond_at t' c /\ forall x, x ∈ cond_at t' c -> cw_signaled x = true) \/
   (exists l1 x l2, cond_at t' c = l1 ++ x :: l2 /\ cond_at t'' c = l1 ++ mark x :: l2 /\ r = Ok (cw_pid x) /\
      cw_signaled x = false /\ Forall (fun y => cw_signaled y = true) l1)).
Proof.
  intros Hok Hk.
  assert (let '(w, m, t') := cond_run c t ops in w + signaled (cond_at t' c) = signaled (cond_at t c) + m /\ pids_ok t' c) as Hr.
  { revert t Hok Hk. induction ops as [|op ops IH]; intros t Hok Hk; cbn [cond_run keeps_cond_run] in *; [split; [lia|done]|].
    destruct Hk as [Hk Hk']. pose proof (cond_step c t op Hk Hok) as Hs. destruct (ps_step t op) as [r t1].
    destruct Hs as [Hs Hok1]. specialize (IH t1 Hok1 Hk'). destruct (cond_run c t1 ops) as [[w m] t2]. destruct IH. split; [lia|done]. }
  destruct (cond_run c t ops) as [[w m] t']. destruct Hr as [Hr Hok']. split; [done|]. intros [cv Hc].
  unfold cond_signal, pids_ok in *. rewrite Hc, (cond_lookup _ _ _ Hc) in *. pose proof (signal_first_spec _ Hok') as Hs.
  destruct (signal_first (cv_waiters cv)) as [pid ws]. destruct Hs as (_ & _ & H0 & H1). unfold with_conds.
  rewrite cond_at_insert, Z.eqb_refl. cbn [cv_waiters]. destruct (decide (pid = 0)) as [->|Hne].
  - left. destruct (H0 eq_refl) as [-> Hall]. done.
  - right. destruct (H1 Hne) as (l1 & x & l2 & -> & -> & <- & Hs & Hl). by exists l1, x, l2.
Qed.

(** *** Barrier rounds *)

(** What the callers of one barrier have seen. *)
Record barrier_log := mkLog {
  lg_inside : gset Z;   (* called and not yet returned *)
  lg_arrived : Z;
  lg_returned : Z;
  lg_serial : Z;
}.

Definition log_step (l : barrier_log) (pid : Z) (r : kresult Z) : barrier_log :=
  let arrived := lg_arrived l + (if bool_decide (pid ∈ lg_inside l) then 0 else 1) in
  match r with
  | Ok v => mkLog (lg_inside l ∖ {[pid]}) arrived (lg_returned l + 1)
              (lg_serial l + (if v =? PTHREAD_BARRIER_SERIAL_THREAD then 1 else 0))
  | Err _ => mkLog (lg_inside l ∪ {[pid]}) arrived (lg_returned l) (lg_serial l)
  end.

(** Nobody enters the next round before everybody has left the last one. *)
Definition in_rounds (n : Z) (l : barrier_log) (pid : Z) : Prop :=
  pid ∈ lg_inside l \/ lg_returned l = n * (lg_arrived l / n).

Fixpoint barrier_run (b : PSharedBarrier) (l : barrier_log) (pids : list Z) : barrier_log * PSharedBarrier :=
  match pids with
  | [] => (l, b)
  | pid :: pids' => let '(r, b') := barrier_arrive b pid in barrier_run b' (log_step l pid r) pids'
  end.

Fixpoint rounds_ok (b : PSharedBarrier) (l : barrier_log) (pids : list Z) : Prop :=
  match pids with
  | [] => True
  | pid :: pids' =>
      in_rounds (br_count b) l pid /\
      let '(r, b') := barrier_arrive b pid in rounds_ok b' (log_step l pid r) pids'
  end.

(** The two phases of a round: gathering arrivals, then draining them. *)
Inductive phase (b : PSharedBarrier) (l : barrier_log) (k : Z) : Prop :=
| Gathering ps :
    br_waiters b = map (fun p => mkBW p false false) ps -> NoDup ps -> Z.of_nat (length ps) < br_count b ->
    lg_inside l = list_to_set ps -> lg_arrived l = br_count b * k + Z.of_nat (length ps) ->
    lg_returned l = br_count b * k -> lg_serial l = k -> phase b l k
| Draining ps :
    br_waiters b = map (fun p => mkBW p false true) ps -> NoDup ps -> ps <> [] -> Z.of_nat (length ps) < br_count b ->
    lg_inside l = list_to_set ps -> lg_arrived l = br_count b * k ->
    lg_returned l = br_count b * k - Z.of_nat (length ps) -> lg_serial l = k -> phase b l k.

Lemma position_pid s rl ps pid :
  match position (fun w => bw_pid w =? pid) (map (fun p => mkBW p s rl) ps) with
  | Some i => exists l1 l2, ps = l1 ++ pid :: l2 /\ i = length l1
  | None => pid ∉ ps
  end.
Proof.
  pose proof (position_spec (fun w => bw_pid w =? pid) (map (fun p => mkBW p s rl) ps)) as Hp.
  destruct (position _ _) as [i|].
  - destruct Hp as (l1 & e & l2 & Hl & He & _ & ->). apply map_eq_app in Hl as (p1 & p2 & -> & <- & Hl).
    destruct p2 as [|q p2]; [done|]. simpl in Hl. injection Hl as <- <-. apply Z.eqb_eq in He. simpl in He. subst q.
    exists p1, p2. split; [done|]. by rewrite length_map.
  - intros Hin. rewrite Forall_forall in Hp. specialize (Hp (mkBW pid s rl)). simpl in Hp. rewrite Z.eqb_refl in Hp.
    assert (true = false) by (apply Hp, list_elem_of_fmap; by exists pid). done.
Qed.

Lemma vec_remove_last {A} (l : list A) x : vec_remove (length (l ++ [x]) - 1) (l ++ [x]) = l.
Proof.
  rewrite length_app. simpl. replace (length l + 1 - 1)%nat with (length l) by lia. rewrite vec_remove_app. by rewrite app_nil_r.
Qed.

(** The last arrival removes itself again, whatever it marked. *)
Lemma last_arrival ws w f :
  vec_remove (length (ws ++ [w]) - 1) (map release (alter f (length (ws ++ [w]) - 1)%nat (ws ++ [w]))) = map release ws.
Proof.
  assert (alter f (length (ws ++ [w]) - 1)%nat (ws ++ [w]) = ws ++ [f w]) as ->.
  { rewrite length_app. simpl. replace (length ws + 1 - 1)%nat with (length ws + 0)%nat by lia. by rewrite alter_app_r. }
  rewrite map_app. simpl.
  replace (length (ws ++ [w]) - 1)%nat with (length (map release ws ++ [release (f w)]) - 1)%nat
    by (rewrite !length_app, length_map; simpl; lia). apply vec_remove_last.
Qed.

Lemma drained (l1 l2 : list Z) pid :
  NoDup (l1 ++ pid :: l2) -> (list_to_set (l1 ++ pid :: l2) : gset Z) ∖ {[pid]} = list_to_set (l1 ++ l2).
Proof. intros Hn. rewrite !list_to_set_app_L, list_to_set_cons. apply NoDup_app in Hn as (_ & Hx & [Hp _]%NoDup_cons). set_solver. Qed.

Lemma barrier_phase b l k pid :
  0 < br_count b <= u32_max -> phase b l k -> in_rounds (br_count b) l pid ->
  let '(r, b') := barrier_arrive b pid in br_count b' = br_count b /\ exists k', phase b' (log_step l pid r) k'.
Proof.
  intros Hn Hph Hin. unfold barrier_arrive. destruct Hph as [ps Hw Hnd Hlt Hi Ha Hr Hs|ps Hw Hnd Hne Hlt Hi Ha Hr Hs].
  - rewrite Hw. pose proof (position_pid false false ps pid) as Hp. destruct (position _ _) as [i|].
    + destruct Hp as (l1 & l2 & -> & ->). rewrite map_app. simpl.
      replace (length l1) with (length (map (fun p => mkBW p false false) l1)) by apply length_map.
      rewrite list_lookup_middle by done. split; [done|]. exists k. apply (Gathering _ _ _ (l1 ++ pid :: l2)); try done; simpl.
      * rewrite Hi. rewrite list_to_set_app_L, list_to_set_cons. set_solver.
      * rewrite Hi, bool_decide_true by (rewrite elem_of_list_to_set; set_solver). lia.
    + unfold vec_push. assert (length (map (fun p => mkBW p false false) ps ++ [mkBW pid false false]) = S (length ps)) as HL
        by (rewrite length_app, length_map; simpl; lia).
      destruct (Z.eqb_spec (as_u32 (Z.of_nat (length (map (fun p => mkBW p false false) ps ++ [mkBW pid false false])))) (br_count b)) as [E|E];
        rewrite HL in E; unfold as_u32, u32_max in *; rewrite Z.mod_small in E by lia; (split; [done|]).
      * exists (k + 1). rewrite last_arrival, map_map. destruct ps as [|p0 ps0] eqn:Eps.
        -- apply (Gathering _ _ _ []); simpl in *; try done; try apply NoDup_nil_2; try lia.
           ++ rewrite Hi. set_solver.
           ++ rewrite Hi, bool_decide_false by set_solver. lia.
        -- rewrite <- Eps in *. apply (Draining _ _ _ ps); simpl in *; try done; try lia.
           ++ by rewrite Eps.
           ++ rewrite Hi. apply set_eq. intros x. rewrite elem_of_difference, elem_of_list_to_set, elem_of_singleton. split; [tauto|].
              intros Hx. split; [done|]. by intros ->.
           ++ rewrite Hi, bool_decide_false by by rewrite elem_of_list_to_set. lia.
      * exists k. apply (Gathering _ _ _ (ps ++ [pid])); simpl; try done.
        -- by rewrite map_app.
        -- apply NoDup_app. split; [done|]. split; [set_solver|apply NoDup_singleton].
        -- rewrite length_app. simpl. lia.
        -- rewrite Hi, list_to_set_app_L. set_solver.
        -- rewrite Hi, bool_decide_false by by rewrite elem_of_list_to_set. rewrite length_app. simpl. lia.
  - assert (pid ∈ ps) as Hpid.
    { destruct Hin as [Hin|Hin]; [by rewrite Hi, elem_of_list_to_set in Hin|]. rewrite Ha in Hin.
      assert (br_count b * k / br_count b = k) as Hdiv by (rewrite Z.mul_comm; apply Z.div_mul; lia). rewrite Hdiv in Hin.
      destruct ps; [done|]. simpl in Hr. lia. }
    rewrite Hw. pose proof (position_pid false true ps pid) as Hp. destruct (position _ _) as [i|]; [|done].
    destruct Hp as (l1 & l2 & -> & ->). rewrite map_app. simpl.
    replace (length l1) with (length (map (fun p => mkBW p false true) l1)) by apply length_map.
    rewrite list_lookup_middle by done. simpl. split; [done|]. exists k. rewrite vec_remove_app. rewrite length_app in *. simpl in *.
    assert (list_to_set (l1 ++ pid :: l2) ∖ {[pid]} = (list_to_set (l1 ++ l2) : gset Z)) as Hd by by apply drained.
    assert (NoDup (l1 ++ l2)) as Hnd' by (apply NoDup_app in Hnd as (? & Hx & [? ?]%NoDup_cons); apply NoDup_app; set_solver).
    destruct (l1 ++ l2) as [|x rest] eqn:Erest.
    + apply app_eq_nil in Erest as [-> ->]. simpl in *.
      apply (Gathering _ _ _ []); simpl; try done; try apply NoDup_nil_2; try lia.
      * by rewrite Hi, Hd.
      * rewrite Hi, bool_decide_true by set_solver. lia.
    + rewrite <- Erest in *. apply (Draining _ _ _ (l1 ++ l2)); simpl; try done; rewrite ?length_app; try lia.
      * by rewrite map_app.
      * by rewrite Erest.
      * by rewrite Hi, Hd.
      * rewrite Hi, bool_decide_true by (rewrite elem_of_list_to_set; set_solver). lia.
Qed.

Lemma barrier_run_rounds count pids b l k :
  0 < count <= u32_max -> br_count b = count -> phase b l k -> rounds_ok b l pids ->
  let '(l', b') := barrier_run b l pids in
  lg_returned l' <= count * (lg_arrived l' / count) /\ lg_serial l' = lg_arrived l' / count /\
  lg_arrived l' - lg_returned l' = Z.of_nat (size (lg_inside l')).
Proof.
  intros Hn. revert b l k. induction pids as [|pid pids IH]; intros b l k Hc Hph Hrun; cbn [barrier_run rounds_ok] in *.
  - destruct Hph as [ps Hw Hnd Hlt Hi Ha Hr Hs|ps Hw Hnd Hne Hlt Hi Ha Hr Hs]; rewrite Hi, size_list_to_set by done; rewrite Hc in *.
    + assert (lg_arrived l / count = k) as -> by (rewrite Ha, Z.mul_comm, Z.div_add_l, Z.div_small by lia; lia). lia.
    + assert (lg_arrived l / count = k) as -> by (rewrite Ha, Z.mul_comm, Z.div_mul by lia; lia). lia.
  - destruct Hrun as [Hin Hrun]. pose proof (barrier_phase b l k pid) as Hb. rewrite Hc in *. specialize (Hb Hn Hph Hin).
    destruct (barrier_arrive b pid) as [r b']. destruct Hb as (Hc' & k' & Hph'). by eapply IH.
Qed.

(** A barrier synchronizes rounds.  When no process enters a round before all
    have left the previous one, then counting only what the callers see: the
    returns never exceed the complete groups of [count] arrivals, so nobody
    returns before the last arrival of its round, and exactly one call per
    complete round returns PTHREAD_BARRIER_SERIAL_THREAD. *)
Theorem barrier_rounds count pids :
  0 < count <= u32_max -> rounds_ok (mkBarrier count []) (mkLog ∅ 0 0 0) pids ->
  let '(l, b) := barrier_run (mkBarrier count []) (mkLog ∅ 0 0 0) pids in
  lg_returned l <= count * (lg_arrived l / count) /\ lg_serial l = lg_arrived l / count /\
  lg_arrived l - lg_returned l = Z.of_nat (size (lg_inside l)).
Proof.
  intros Hn Hrun. apply (barrier_run_rounds count pids _ _ 0); try done.
  apply (Gathering _ _ _ []); simpl; try done; try lia. apply NoDup_nil_2.
Qed.

(** ** Witnesses *)

(** Mutex 1 (recursive) and condition variable 2, used by processes 10 and 20. *)
Definition sample_ps_ops : list ps_op :=
  [OMutexInit 1; OCondInit; OLock 1 10; OLock 1 10; OUnlock 1 10; OLock 1 20; OWait 2 1 10; OLock 1 20; OSignal 2;
   OCheck 2 1 10; OUnlock 1 20; OCheck 2 1 10].

Lemma pshared_mutex_exclusive_witness :
  (hold_run ps_new (fun _ _ => 0) sample_ps_ops).1 1 10 = 1 /\
  forall q, 0 < (hold_run ps_new (fun _ _ => 0) sample_ps_ops).1 1 q -> 10 = q.
Proof.
  assert (Forall ps_ok sample_ps_ops) as Hrun by (repeat constructor; discriminate).
  pose proof (pshared_mutex_exclusive sample_ps_ops Hrun) as H.
  destruct (hold_run ps_new (fun _ _ => 0) sample_ps_ops) as [h t] eqn:E.
  assert (h 1 10 = 1) as H10 by (change h with (h, t).1; rewrite <- E; vm_compute; reflexivity).
  split; [exact H10|]. destruct H as (H & _). intros q Hq. apply (H 1 10 q); [|exact Hq]. rewrite H10. reflexivity.
Defined.

(** Two waiters, one signal, one of them wakes. *)
Definition waiting_table : PSharedTable :=
  mkPS {[1 := mkMutex 0 0 0]} {[2 := mkCond [mkCW 10 1 false; mkCW 20 1 false]]} ∅ 3.

Lemma cond_wakeups_exact_witness :
  let '(w, m, t') := cond_run 2 waiting_table [OSignal 2; OCheck 2 1 20; OCheck 2 1 10; OUnlock 1 10; OBroadcast 2] in
  w = 1 /\ m = 2 /\ signaled (cond_at t' 2) = 1.
Proof.
  assert (pids_ok waiting_table 2) as Hp by (vm_compute; repeat constructor; discriminate).
  assert (keeps_cond_run 2 waiting_table [OSignal 2; OCheck 2 1 20; OCheck 2 1 10; OUnlock 1 10; OBroadcast 2]) as Hk.
  { cbn [keeps_cond_run]. unfold keeps_cond.
    repeat match goal with |- _ /\ _ => split end; try exact I; vm_compute; try discriminate; eexists; reflexivity. }
  pose proof (cond_wakeups_exact 2 waiting_table _ Hp Hk) as H.
  destruct (cond_run 2 waiting_table _) as [[w m] t'] eqn:E. vm_compute in E. injection E as <- <- <-.
  destruct H as [H _]. split; [reflexivity|]. split; [reflexivity|]. vm_compute. reflexivity.
Defined.

Lemma barrier_rounds_witness :
  let '(l, b) := barrier_run (mkBarrier 2 []) (mkLog ∅ 0 0 0) [10; 10; 20; 10; 20; 10] in
  lg_arrived l = 4 /\ lg_returned l = 3 /\ lg_serial l = 2.
Proof.
  assert (rounds_ok (mkBarrier 2 []) (mkLog ∅ 0 0 0) [10; 10; 20; 10; 20; 10]) as Hr.
  { do 6 (cbn [rounds_ok]; split;
      [first [right; vm_compute; reflexivity|left; simpl; set_solver]|];
      match goal with |- context [barrier_arrive ?b ?p] => let y := eval vm_compute in (barrier_arrive b p) in
        change (barrier_arrive b p) with y end; cbv beta iota).
    exact I. }
  pose proof (barrier_rounds 2 [10; 10; 20; 10; 20; 10] ltac:(unfold u32_max; lia) Hr) as H.
  destruct (barrier_run _ _ _) as [l b] eqn:E. vm_compute in E. injection E as <- <-. destruct H as (_ & _ & _).
  split; [reflexivity|]. split; reflexivity.
Defined.

(** ** Divergences *)

(** A wait on a condition variable that does not exist returns EINVAL but has
    already released the mutex. *)
Example failed_wait_releases_mutex :
  let t := mkPS {[1 := mkMutex 10 0 0]} ∅ ∅ 2 in
  (cond_wait_begin t 7 1 10).1 = Err EINVAL /\ (mutex_unlock (cond_wait_begin t 7 1 10).2 1 10).1 = Err EPERM.
Proof. vm_compute. done. Qed.

(** A process that enters the next round before a released one has retried is
    counted together with it: with a barrier of two, process 20 passes two
    rounds while process 10 has arrived only once. *)
Example barrier_counts_released_waiters :
  let b1 := (barrier_arrive (mkBarrier 2 []) 10).2 in
  let '(r2, b2) := barrier_arrive b1 20 in
  r2 = Ok PTHREAD_BARRIER_SERIAL_THREAD /\ (barrier_arrive b2 20).1 = Ok PTHREAD_BARRIER_SERIAL_THREAD.
Proof. vm_compute. done. Qed.
