(* ===== verification/Ipc.v ===== *)
(** * System V IPC ([crates/kernel/src/ipc.rs])

    [IpcTable]: message queues, semaphore sets and shared memory segments under
    identifiers from one counter, with their permission bits.  The three ordered
    maps are finite maps, scanned in identifier order by the [get] calls.  The
    clock ([current_time_secs]) is the argument [now].  An index out of range, or
    a segment larger than an allocation can be, is a panic ([None]).  A call that
    would block returns EAGAIN for the host to retry.

    The theorems: a refused call changes nothing and an accepted one had the
    permission bits it needs; no call panics but the creation of an oversized
    segment; a key names at most one object of each kind and the [get] calls find
    it; a message queue is one FIFO per type with an exact byte account; [semop]
    is the all-or-nothing sequential execution of its operations; a segment is a
    byte array.  What departs from POSIX is evaluated at the end. *)

From stdpp Require Import sorting.
From S2P Require Import Prelude Bytes Abi.

(** Octal constants of the source in hexadecimal. *)
Definition IPC_CREAT : Z := 0x200.      (* 0o1000 *)
Definition IPC_EXCL : Z := 0x400.       (* 0o2000 *)
Definition IPC_NOWAIT : Z := 0x800.     (* 0o4000 *)
Definition IPC_PRIVATE : Z := 0.
Definition IPC_RMID : Z := 0.
Definition IPC_SET : Z := 1.
Definition IPC_STAT : Z := 2.
Definition IPC_R : Z := 0x100.          (* 0o400 *)
Definition IPC_W : Z := 0x80.           (* 0o200 *)
Definition IPC_PERM_MASK : Z := 0x1FF.  (* 0o777 *)
Definition SHM_RDONLY : Z := 0x1000.    (* 0o10000 *)
Definition MSG_NOERROR : Z := 0x1000.   (* 0o10000 *)
Definition MSG_EXCEPT : Z := 0x2000.    (* 0o20000 *)
Definition GETPID : Z := 11.
Definition GETVAL : Z := 12.
Definition GETALL : Z := 13.
Definition GETNCNT : Z := 14.
Definition GETZCNT : Z := 15.
Definition SETVAL : Z := 16.
Definition SETALL : Z := 17.
Definition MSGMAX : Z := 8192.
Definition MSGMNB : Z := 16384.
Definition SEMMSL : Z := 32.

(** [(flags & bit) != 0]. *)
Definition ipc_flag (flags bit : Z) : bool := negb (Z.land flags bit =? 0).

(** ** Permissions *)

Definition ipc_has_perm (uid gid owner_uid owner_gid mode perm : Z) : bool :=
  if (uid =? 0) || (perm =? 0) then true
  else
    let available :=
      if uid =? owner_uid then Z.land (Z.shiftr mode 6) 7
      else if gid =? owner_gid then Z.land (Z.shiftr mode 3) 7
      else Z.land mode 7 in
    let requested := Z.land (Z.shiftr perm 6) 7 in
    Z.land available requested =? requested.

Definition ipc_check_perm (uid gid owner_uid owner_gid mode perm : Z) : kresult unit :=
  if ipc_has_perm uid gid owner_uid owner_gid mode perm then Ok () else Err EACCES.

Definition ipc_check_owner (uid owner_uid creator_uid : Z) : kresult unit :=
  if (uid =? 0) || (uid =? owner_uid) || (uid =? creator_uid) then Ok () else Err EPERM.

(** ** Data *)

Record MsgEntry := mkMsgEntry { me_mtype : Z; me_data : bytes }.

Record MsgQueue := mkMsgQueue {
  mq_key : Z; mq_id : Z; mq_mode : Z; mq_uid : Z; mq_gid : Z; mq_cuid : Z; mq_cgid : Z;
  mq_qbytes : Z;
  mq_messages : list MsgEntry;
  mq_cbytes : Z;
  mq_lspid : Z; mq_lrpid : Z; mq_stime : Z; mq_rtime : Z; mq_ctime : Z; mq_seq : Z;
}.

Record MsgQueueInfo := mkMsgQueueInfo {
  mi_key : Z; mi_uid : Z; mi_gid : Z; mi_cuid : Z; mi_cgid : Z; mi_mode : Z; mi_seq : Z;
  mi_stime : Z; mi_rtime : Z; mi_ctime : Z; mi_cbytes : Z; mi_qnum : Z; mi_qbytes : Z; mi_lspid : Z; mi_lrpid : Z;
}.

Record MsgRcvResult := mkMsgRcv { mr_mtype : Z; mr_data : bytes }.

Record SemValue := mkSemValue { sv_val : Z; sv_pid : Z; sv_ncnt : Z; sv_zcnt : Z }.

Record SemSet := mkSemSet {
  ss_key : Z; ss_id : Z; ss_mode : Z; ss_uid : Z; ss_gid : Z; ss_cuid : Z; ss_cgid : Z;
  ss_nsems : Z;
  ss_values : list SemValue;
  ss_otime : Z; ss_ctime : Z; ss_seq : Z;
}.

Record SemSetInfo := mkSemSetInfo {
  si_key : Z; si_uid : Z; si_gid : Z; si_cuid : Z; si_cgid : Z; si_mode : Z; si_seq : Z;
  si_nsems : Z; si_otime : Z; si_ctime : Z;
}.

Record SemOp := mkSemOp { so_num : Z; so_op : Z; so_flg : Z }.

Record ShmSegment := mkShm {
  sg_key : Z; sg_id : Z; sg_mode : Z; sg_uid : Z; sg_gid : Z; sg_cuid : Z; sg_cgid : Z;
  sg_segsz : Z;
  sg_data : bytes;
  sg_cpid : Z; sg_lpid : Z; sg_nattch : Z; sg_atime : Z; sg_dtime : Z; sg_ctime : Z; sg_seq : Z;
}.

Record ShmSegInfo := mkShmInfo {
  hi_key : Z; hi_uid : Z; hi_gid : Z; hi_cuid : Z; hi_cgid : Z; hi_mode : Z; hi_seq : Z;
  hi_segsz : Z; hi_cpid : Z; hi_lpid : Z; hi_nattch : Z; hi_atime : Z; hi_dtime : Z; hi_ctime : Z;
}.

Inductive SemCtlResult :=
| SemOk
| SemVal (v : Z)
| SemStat (info : SemSetInfo)
| SemAll (vals : list Z).

Record IpcTable := mkIpc {
  msg_queues : gmap Z MsgQueue;
  sem_sets : gmap Z SemSet;
  shm_segments : gmap Z ShmSegment;
  ipc_next_id : Z;
}.

Definition with_msgs (t : IpcTable) m := mkIpc m (sem_sets t) (shm_segments t) (ipc_next_id t).
Definition with_sems (t : IpcTable) s := mkIpc (msg_queues t) s (shm_segments t) (ipc_next_id t).
Definition with_shms (t : IpcTable) s := mkIpc (msg_queues t) (sem_sets t) s (ipc_next_id t).

Definition ipc_new : IpcTable := mkIpc ∅ ∅ ∅ 0.

(** [next_id.wrapping_add(1) & 0x7FFF_FFFF]. *)
Definition ipc_alloc_id (t : IpcTable) : Z * IpcTable :=
  (ipc_next_id t,
   mkIpc (msg_queues t) (sem_sets t) (shm_segments t) (Z.land (as_i32 (ipc_next_id t + 1)) 0x7FFFFFFF)).

(** [map.values()]: in the order of the keys. *)
Definition key_le {A} (a b : Z * A) : Prop := a.1 <= b.1.
#[export] Instance key_le_dec {A} : RelDecision (@key_le A).
Proof. intros a b. unfold key_le. apply _. Defined.
Definition btree_values {A} (m : gmap Z A) : list A := (merge_sort key_le (map_to_list m)).*2.

(** The scan of the [get] calls: the object with the key, if any. *)
Definition find_key {A} (key_of : A -> Z) (m : gmap Z A) (key : Z) : option A :=
  if key =? IPC_PRIVATE then None else find_first (fun a => key_of a =? key) (btree_values m).

(** ** Message queues *)

Definition msgget (t : IpcTable) (key flags uid gid now : Z) : kresult Z * IpcTable :=
  let creating := ipc_flag flags IPC_CREAT in
  let exclusive := ipc_flag flags IPC_EXCL in
  let mode := Z.land flags 0x1FF in
  match find_key mq_key (msg_queues t) key with
  | Some q =>
      if creating && exclusive then (Err EEXIST, t)
      else
        match ipc_check_perm uid gid (mq_uid q) (mq_gid q) (mq_mode q) (Z.land flags IPC_PERM_MASK) with
        | Err e => (Err e, t)
        | Ok _ => (Ok (mq_id q), t)
        end
  | None =>
      if negb creating && negb (key =? IPC_PRIVATE) then (Err ENOENT, t)
      else
        let '(id, t) := ipc_alloc_id t in
        (Ok id, with_msgs t (<[id := mkMsgQueue key id mode uid gid uid gid MSGMNB [] 0 0 0 0 0 now id]> (msg_queues t)))
  end.

Definition msgsnd (t : IpcTable) (qid mtype : Z) (data : bytes) (flags pid uid gid now : Z) : kresult unit * IpcTable :=
  if mtype <=? 0 then (Err EINVAL, t)
  else
    match msg_queues t !! qid with
    | None => (Err EINVAL, t)
    | Some q =>
        match ipc_check_perm uid gid (mq_uid q) (mq_gid q) (mq_mode q) IPC_W with
        | Err e => (Err e, t)
        | Ok _ =>
            if MSGMAX <? Z.of_nat (length data) then (Err EINVAL, t)
            else if mq_qbytes q <? u32_wrap (mq_cbytes q + as_u32 (Z.of_nat (length data))) then (Err EAGAIN, t)
            else
              (Ok (), with_msgs t (<[qid :=
                 mkMsgQueue (mq_key q) (mq_id q) (mq_mode q) (mq_uid q) (mq_gid q) (mq_cuid q) (mq_cgid q) (mq_qbytes q)
                   (vec_push (mq_messages q) (mkMsgEntry mtype data))
                   (u32_wrap (mq_cbytes q + as_u32 (Z.of_nat (length data))))
                   (as_i32 pid) (mq_lrpid q) now (mq_rtime q) (mq_ctime q) (mq_seq q)]> (msg_queues t)))
        end
    end.

(** Which messages a receive may take; it takes the first of them. *)
Definition msg_selector (msgtype : Z) (except : bool) (m : MsgEntry) : bool :=
  if msgtype =? 0 then true
  else if 0 <? msgtype then
    if except then negb (me_mtype m =? msgtype) else me_mtype m =? msgtype
  else me_mtype m <=? as_i32 (- msgtype).

Definition msgrcv (t : IpcTable) (qid max_size msgtype flags pid uid gid now : Z) : kresult MsgRcvResult * IpcTable :=
  match msg_queues t !! qid with
  | None => (Err EINVAL, t)
  | Some q =>
      match ipc_check_perm uid gid (mq_uid q) (mq_gid q) (mq_mode q) IPC_R with
      | Err e => (Err e, t)
      | Ok _ =>
          let noerror := ipc_flag flags MSG_NOERROR in
          let except := ipc_flag flags MSG_EXCEPT in
          match position (msg_selector msgtype except) (mq_messages q) with
          | None => (Err (if ipc_flag flags IPC_NOWAIT then ENOMSG else EAGAIN), t)
          | Some idx =>
              match mq_messages q !! idx with
              | None => (Err EAGAIN, t)
              | Some msg =>
                  if (max_size <? Z.of_nat (length (me_data msg))) && negb noerror then (Err E2BIG, t)
                  else
                    let data := take (Z.to_nat max_size) (me_data msg) in
                    (Ok (mkMsgRcv (me_mtype msg) data),
                     with_msgs t (<[qid :=
                       mkMsgQueue (mq_key q) (mq_id q) (mq_mode q) (mq_uid q) (mq_gid q) (mq_cuid q) (mq_cgid q) (mq_qbytes q)
                         (vec_remove idx (mq_messages q))
                         (u32_saturating_sub (mq_cbytes q) (as_u32 (Z.of_nat (length data))))
                         (mq_lspid q) (as_i32 pid) (mq_stime q) now (mq_ctime q) (mq_seq q)]> (msg_queues t)))
              end
          end
      end
  end.

Definition msgctl (t : IpcTable) (qid cmd uid gid now : Z) : kresult (option MsgQueueInfo) * IpcTable :=
  match msg_queues t !! qid with
  | None => (Err EINVAL, t)
  | Some q =>
      if cmd =? IPC_STAT then
        match ipc_check_perm uid gid (mq_uid q) (mq_gid q) (mq_mode q) IPC_R with
        | Err e => (Err e, t)
        | Ok _ =>
            (Ok (Some (mkMsgQueueInfo (mq_key q) (mq_uid q) (mq_gid q) (mq_cuid q) (mq_cgid q) (mq_mode q) (mq_seq q)
                         (mq_stime q) (mq_rtime q) (mq_ctime q) (mq_cbytes q)
                         (as_u32 (Z.of_nat (length (mq_messages q)))) (mq_qbytes q) (mq_lspid q) (mq_lrpid q))), t)
        end
      else if cmd =? IPC_RMID then
        match ipc_check_owner uid (mq_uid q) (mq_cuid q) with
        | Err e => (Err e, t)
        | Ok _ => (Ok None, with_msgs t (delete qid (msg_queues t)))
        end
      else if cmd =? IPC_SET then
        match ipc_check_owner uid (mq_uid q) (mq_cuid q) with
        | Err e => (Err e, t)
        | Ok _ =>
            (Ok None, with_msgs t (<[qid :=
               mkMsgQueue (mq_key q) (mq_id q) (mq_mode q) (mq_uid q) (mq_gid q) (mq_cuid q) (mq_cgid q) (mq_qbytes q)
                 (mq_messages q) (mq_cbytes q) (mq_lspid q) (mq_lrpid q) (mq_stime q) (mq_rtime q) now (mq_seq q)]> (msg_queues t)))
        end
      else (Err EINVAL, t)
  end.

(** ** Semaphores *)

Definition semget (t : IpcTable) (key nsems flags uid gid now : Z) : kresult Z * IpcTable :=
  let creating := ipc_flag flags IPC_CREAT in
  let exclusive := ipc_flag flags IPC_EXCL in
  match find_key ss_key (sem_sets t) key with
  | Some s =>
      if creating && exclusive then (Err EEXIST, t)
      else
        match ipc_check_perm uid gid (ss_uid s) (ss_gid s) (ss_mode s) (Z.land flags IPC_PERM_MASK) with
        | Err e => (Err e, t)
        | Ok _ => (Ok (ss_id s), t)
        end
  | None =>
      if negb creating && negb (key =? IPC_PRIVATE) then (Err ENOENT, t)
      else if (nsems =? 0) || (SEMMSL <? nsems) then (Err EINVAL, t)
      else
        let '(id, t) := ipc_alloc_id t in
        (Ok id, with_sems t (<[id := mkSemSet key id (Z.land flags 0x1FF) uid gid uid gid nsems
                                       (replicate (Z.to_nat nsems) (mkSemValue 0 0 0 0)) 0 now id]> (sem_sets t)))
  end.

(** The permission a batch needs. *)
Fixpoint semop_perm (sops : list SemOp) : Z :=
  match sops with
  | [] => 0
  | op :: sops' => Z.lor (if so_op op =? 0 then IPC_R else IPC_W) (semop_perm sops')
  end.

(** The first pass. *)
Fixpoint semop_validate (s : SemSet) (sops : list SemOp) : option (kresult unit) :=
  match sops with
  | [] => Some (Ok ())
  | op :: sops' =>
      if ss_nsems s <=? so_num op then Some (Err EFBIG)
      else
        match ss_values s !! Z.to_nat (so_num op) with
        | None => None
        | Some sem =>
            if so_op op <? 0 then
              if sv_val sem + so_op op <? 0 then Some (Err EAGAIN) else semop_validate s sops'
            else if so_op op =? 0 then
              if negb (sv_val sem =? 0) then Some (Err EAGAIN) else semop_validate s sops'
            else semop_validate s sops'
        end
  end.

(** [x as u16]. *)
Definition as_u16 (x : Z) : Z := x mod 2 ^ 16.

(** The second pass. *)
Fixpoint semop_apply (pid : Z) (values : list SemValue) (sops : list SemOp) : option (list SemValue) :=
  match sops with
  | [] => Some values
  | op :: sops' =>
      match values !! Z.to_nat (so_num op) with
      | None => None
      | Some sem =>
          let val := if negb (so_op op =? 0) then as_u16 (sv_val sem + so_op op) else sv_val sem in
          semop_apply pid (<[Z.to_nat (so_num op) := mkSemValue val pid (sv_ncnt sem) (sv_zcnt sem)]> values) sops'
      end
  end.

Definition with_values (s : SemSet) (values : list SemValue) (otime ctime : Z) : SemSet :=
  mkSemSet (ss_key s) (ss_id s) (ss_mode s) (ss_uid s) (ss_gid s) (ss_cuid s) (ss_cgid s) (ss_nsems s)
    values otime ctime (ss_seq s).

Definition semop (t : IpcTable) (semid : Z) (sops : list SemOp) (pid uid gid now : Z) : option (kresult unit * IpcTable) :=
  match sem_sets t !! semid with
  | None => Some (Err EINVAL, t)
  | Some s =>
      match ipc_check_perm uid gid (ss_uid s) (ss_gid s) (ss_mode s) (semop_perm sops) with
      | Err e => Some (Err e, t)
      | Ok _ =>
          match semop_validate s sops with
          | None => None
          | Some (Err e) => Some (Err e, t)
          | Some (Ok _) =>
              match semop_apply pid (ss_values s) sops with
              | None => None
              | Some values => Some (Ok (), with_sems t (<[semid := with_values s values now (ss_ctime s)]> (sem_sets t)))
              end
          end
      end
  end.

(** The reads GETVAL, GETPID, GETNCNT and GETZCNT. *)
Definition sem_read (t : IpcTable) (s : SemSet) (semnum uid gid : Z) (field : SemValue -> Z)
    : option (kresult SemCtlResult * IpcTable) :=
  match ipc_check_perm uid gid (ss_uid s) (ss_gid s) (ss_mode s) IPC_R with
  | Err e => Some (Err e, t)
  | Ok _ =>
      if (semnum <? 0) || (ss_nsems s <=? as_u32 semnum) then Some (Err EINVAL, t)
      else
        match ss_values s !! Z.to_nat semnum with
        | None => None
        | Some sem => Some (Ok (SemVal (field sem)), t)
        end
  end.

Definition semctl (t : IpcTable) (semid semnum cmd arg uid gid now : Z) : option (kresult SemCtlResult * IpcTable) :=
  match sem_sets t !! semid with
  | None => Some (Err EINVAL, t)
  | Some s =>
      let check := ipc_check_perm uid gid (ss_uid s) (ss_gid s) (ss_mode s) in
      if cmd =? IPC_STAT then
        match check IPC_R with
        | Err e => Some (Err e, t)
        | Ok _ =>
            Some (Ok (SemStat (mkSemSetInfo (ss_key s) (ss_uid s) (ss_gid s) (ss_cuid s) (ss_cgid s) (ss_mode s) (ss_seq s)
                                 (ss_nsems s) (ss_otime s) (ss_ctime s))), t)
        end
      else if cmd =? IPC_RMID then
        match ipc_check_owner uid (ss_uid s) (ss_cuid s) with
        | Err e => Some (Err e, t)
        | Ok _ => Some (Ok SemOk, with_sems t (delete semid (sem_sets t)))
        end
      else if cmd =? IPC_SET then
        match ipc_check_owner uid (ss_uid s) (ss_cuid s) with
        | Err e => Some (Err e, t)
        | Ok _ => Some (Ok SemOk, with_sems t (<[semid := with_values s (ss_values s) (ss_otime s) now]> (sem_sets t)))
        end
      else if cmd =? GETVAL then sem_read t s semnum uid gid sv_val
      else if cmd =? SETVAL then
        match check IPC_W with
        | Err e => Some (Err e, t)
        | Ok _ =>
            if (semnum <? 0) || (ss_nsems s <=? as_u32 semnum) then Some (Err EINVAL, t)
            else if (arg <? 0) || (32767 <? arg) then Some (Err ERANGE, t)
            else
              match ss_values s !! Z.to_nat semnum with
              | None => None
              | Some sem =>
                  Some (Ok SemOk, with_sems t (<[semid :=
                    with_values s (<[Z.to_nat semnum := mkSemValue (as_u16 arg) (sv_pid sem) (sv_ncnt sem) (sv_zcnt sem)]> (ss_values s))
                      (ss_otime s) now]> (sem_sets t)))
              end
        end
      else if cmd =? GETALL then
        match check IPC_R with
        | Err e => Some (Err e, t)
        | Ok _ => Some (Ok (SemAll (sv_val <$> ss_values s)), t)
        end
      else if cmd =? SETALL then Some (Err EINVAL, t)
      else if cmd =? GETPID then sem_read t s semnum uid gid (fun v => as_i32 (sv_pid v))
      else if cmd =? GETNCNT then sem_read t s semnum uid gid (fun v => as_i32 (sv_ncnt v))
      else if cmd =? GETZCNT then sem_read t s semnum uid gid (fun v => as_i32 (sv_zcnt v))
      else Some (Err EINVAL, t)
  end.

(** [for (i, &v) in values.iter().enumerate() { s.values[i].val = v }]. *)
Fixpoint set_vals (vals : list Z) (values : list SemValue) : option (list SemValue) :=
  match vals, values with
  | [], _ => Some values
  | _, [] => None
  | v :: vals', sem :: values' =>
      match set_vals vals' values' with
      | None => None
      | Some l => Some (mkSemValue v (sv_pid sem) (sv_ncnt sem) (sv_zcnt sem) :: l)
      end
  end.

Definition semctl_set_all (t : IpcTable) (semid : Z) (vals : list Z) (uid gid now : Z) : option (kresult unit * IpcTable) :=
  match sem_sets t !! semid with
  | None => Some (Err EINVAL, t)
  | Some s =>
      match ipc_check_perm uid gid (ss_uid s) (ss_gid s) (ss_mode s) IPC_W with
      | Err e => Some (Err e, t)
      | Ok _ =>
          if negb (Z.of_nat (length vals) =? ss_nsems s) then Some (Err EINVAL, t)
          else
            match set_vals vals (ss_values s) with
            | None => None
            | Some l => Some (Ok (), with_sems t (<[semid := with_values s l (ss_otime s) now]> (sem_sets t)))
            end
      end
  end.

(** ** Shared memory *)

(** [isize::MAX], the largest allocation: [vec![0; size]] panics above it. *)
Definition isize_max `{Usize} : Z := usize_max / 2.

Definition shmget `{Usize} (t : IpcTable) (key size flags pid uid gid now : Z) : option (kresult Z * IpcTable) :=
  let creating := ipc_flag flags IPC_CREAT in
  let exclusive := ipc_flag flags IPC_EXCL in
  match find_key sg_key (shm_segments t) key with
  | Some seg =>
      if creating && exclusive then Some (Err EEXIST, t)
      else
        match ipc_check_perm uid gid (sg_uid seg) (sg_gid seg) (sg_mode seg) (Z.land flags IPC_PERM_MASK) with
        | Err e => Some (Err e, t)
        | Ok _ => Some (Ok (sg_id seg), t)
        end
  | None =>
      if negb creating && negb (key =? IPC_PRIVATE) then Some (Err ENOENT, t)
      else if size =? 0 then Some (Err EINVAL, t)
      else if isize_max <? size then None
      else
        let '(id, t) := ipc_alloc_id t in
        Some (Ok id, with_shms t (<[id := mkShm key id (Z.land flags 0x1FF) uid gid uid gid size (replicate (Z.to_nat size) 0)
                                            (as_i32 pid) 0 0 0 0 now id]> (shm_segments t)))
  end.

Definition shm_perm (flags : Z) : Z := if ipc_flag flags SHM_RDONLY then IPC_R else Z.lor IPC_R IPC_W.

Definition with_attach (g : ShmSegment) (lpid nattch atime dtime ctime : Z) (data : bytes) : ShmSegment :=
  mkShm (sg_key g) (sg_id g) (sg_mode g) (sg_uid g) (sg_gid g) (sg_cuid g) (sg_cgid g) (sg_segsz g) data
    (sg_cpid g) lpid nattch atime dtime ctime (sg_seq g).

Definition shmat (t : IpcTable) (shmid pid flags uid gid now : Z) : kresult Z * IpcTable :=
  match shm_segments t !! shmid with
  | None => (Err EINVAL, t)
  | Some seg =>
      match ipc_check_perm uid gid (sg_uid seg) (sg_gid seg) (sg_mode seg) (shm_perm flags) with
      | Err e => (Err e, t)
      | Ok _ =>
          (Ok (sg_segsz seg),
           with_shms t (<[shmid := with_attach seg (as_i32 pid) (u32_wrap (sg_nattch seg + 1)) now (sg_dtime seg)
                                     (sg_ctime seg) (sg_data seg)]> (shm_segments t)))
      end
  end.

(** The bytes read and the buffer after them. *)
Definition shm_read_chunk (t : IpcTable) (shmid offset : Z) (buf : bytes) : option (kresult Z * bytes) :=
  match shm_segments t !! shmid with
  | None => Some (Err EINVAL, buf)
  | Some seg =>
      let start := Z.to_nat offset in
      if (length (sg_data seg) <=? start)%nat then Some (Ok 0, buf)
      else
        let end_ := Nat.min (start + length buf) (length (sg_data seg)) in
        let len := (end_ - start)%nat in
        match slice start end_ (sg_data seg) with
        | None => None
        | Some chunk =>
            match copy_slice 0 len chunk buf with
            | None => None
            | Some buf' => Some (Ok (as_u32 (Z.of_nat len)), buf')
            end
        end
  end.

Definition shm_write_chunk (t : IpcTable) (shmid offset : Z) (data : bytes) : option (kresult Z * IpcTable) :=
  match shm_segments t !! shmid with
  | None => Some (Err EINVAL, t)
  | Some seg =>
      let start := Z.to_nat offset in
      if (length (sg_data seg) <=? start)%nat then Some (Ok 0, t)
      else
        let end_ := Nat.min (start + length data) (length (sg_data seg)) in
        let len := (end_ - start)%nat in
        match slice 0 len data with
        | None => None
        | Some chunk =>
            match copy_slice start end_ chunk (sg_data seg) with
            | None => None
            | Some d =>
                Some (Ok (as_u32 (Z.of_nat len)),
                      with_shms t (<[shmid := with_attach seg (sg_lpid seg) (sg_nattch seg) (sg_atime seg) (sg_dtime seg)
                                                (sg_ctime seg) d]> (shm_segments t)))
            end
        end
  end.

Definition shmdt (t : IpcTable) (shmid pid now : Z) : kresult unit * IpcTable :=
  match shm_segments t !! shmid with
  | None => (Err EINVAL, t)
  | Some seg =>
      (Ok (), with_shms t (<[shmid := with_attach seg (as_i32 pid) (u32_saturating_sub (sg_nattch seg) 1) (sg_atime seg) now
                                        (sg_ctime seg) (sg_data seg)]> (shm_segments t)))
  end.

Definition shmctl (t : IpcTable) (shmid cmd uid gid now : Z) : kresult (option ShmSegInfo) * IpcTable :=
  match shm_segments t !! shmid with
  | None => (Err EINVAL, t)
  | Some seg =>
      if cmd =? IPC_STAT then
        match ipc_check_perm uid gid (sg_uid seg) (sg_gid seg) (sg_mode seg) IPC_R with
        | Err e => (Err e, t)
        | Ok _ =>
            (Ok (Some (mkShmInfo (sg_key seg) (sg_uid seg) (sg_gid seg) (sg_cuid seg) (sg_cgid seg) (sg_mode seg) (sg_seq seg)
                         (sg_segsz seg) (sg_cpid seg) (sg_lpid seg) (sg_nattch seg) (sg_atime seg) (sg_dtime seg) (sg_ctime seg))), t)
        end
      else if cmd =? IPC_RMID then
        match ipc_check_owner uid (sg_uid seg) (sg_cuid seg) with
        | Err e => (Err e, t)
        | Ok _ => (Ok None, with_shms t (delete shmid (shm_segments t)))
        end
      else if cmd =? IPC_SET then
        match ipc_check_owner uid (sg_uid seg) (sg_cuid seg) with
        | Err e => (Err e, t)
        | Ok _ =>
            (Ok None, with_shms t (<[shmid := with_attach seg (sg_lpid seg) (sg_nattch seg) (sg_atime seg) (sg_dtime seg)
                                                now (sg_data seg)]> (shm_segments t)))
        end
      else (Err EINVAL, t)
  end.

(** ** Operations as one step function *)

(** Who calls, and when. *)
Record caller := mkCaller { c_pid : Z; c_uid : Z; c_gid : Z; c_now : Z }.

Inductive ipc_op :=
| OMsgget (c : caller) (key flags : Z)
| OMsgsnd (c : caller) (qid mtype : Z) (data : bytes) (flags : Z)
| OMsgrcv (c : caller) (qid max_size msgtype flags : Z)
| OMsgctl (c : caller) (qid cmd : Z)
| OSemget (c : caller) (key nsems flags : Z)
| OSemop (c : caller) (semid : Z) (sops : list SemOp)
| OSemctl (c : caller) (semid semnum cmd arg : Z)
| OSetAll (c : caller) (semid : Z) (vals : list Z)
| OShmget (c : caller) (key size flags : Z)
| OShmat (c : caller) (shmid flags : Z)
| OShmRead (shmid offset : Z) (buf : bytes)
| OShmWrite (shmid offset : Z) (data : bytes)
| OShmdt (c : caller) (shmid : Z)
| OShmctl (c : caller) (shmid cmd : Z).

Inductive ipc_val :=
| VUnit
| VInt (v : Z)
| VMsg (m : MsgRcvResult)
| VMsgInfo (i : option MsgQueueInfo)
| VSem (r : SemCtlResult)
| VBytes (n : Z) (buf : bytes)
| VShmInfo (i : option ShmSegInfo).

Definition rmap {A B} (f : A -> B) (r : kresult A) : kresult B := match r with Ok a => Ok (f a) | Err e => Err e end.

(** Tag the value of a result and keep the table. *)
Definition tag {A} (f : A -> ipc_val) (r : kresult A * IpcTable) : kresult ipc_val * IpcTable := (rmap f r.1, r.2).

Definition unit_val (_ : unit) : ipc_val := VUnit.

Section table.
Context `{Usize}.

Definition ipc_step (t : IpcTable) (op : ipc_op) : option (kresult ipc_val * IpcTable) :=
  match op with
  | OMsgget c key flags => Some (tag VInt (msgget t key flags (c_uid c) (c_gid c) (c_now c)))
  | OMsgsnd c qid mtype data flags =>
      Some (tag unit_val (msgsnd t qid mtype data flags (c_pid c) (c_uid c) (c_gid c) (c_now c)))
  | OMsgrcv c qid max ty flags => Some (tag VMsg (msgrcv t qid max ty flags (c_pid c) (c_uid c) (c_gid c) (c_now c)))
  | OMsgctl c qid cmd => Some (tag VMsgInfo (msgctl t qid cmd (c_uid c) (c_gid c) (c_now c)))
  | OSemget c key nsems flags => Some (tag VInt (semget t key nsems flags (c_uid c) (c_gid c) (c_now c)))
  | OSemop c semid sops => tag unit_val <$> semop t semid sops (c_pid c) (c_uid c) (c_gid c) (c_now c)
  | OSemctl c semid semnum cmd arg => tag VSem <$> semctl t semid semnum cmd arg (c_uid c) (c_gid c) (c_now c)
  | OSetAll c semid vals => tag unit_val <$> semctl_set_all t semid vals (c_uid c) (c_gid c) (c_now c)
  | OShmget c key size flags => tag VInt <$> shmget t key size flags (c_pid c) (c_uid c) (c_gid c) (c_now c)
  | OShmat c shmid flags => Some (tag VInt (shmat t shmid (c_pid c) flags (c_uid c) (c_gid c) (c_now c)))
  | OShmRead shmid off buf =>
      (fun r : kresult Z * bytes => (rmap (fun n => VBytes n r.2) r.1, t)) <$> shm_read_chunk t shmid off buf
  | OShmWrite shmid off data => tag VInt <$> shm_write_chunk t shmid off data
  | OShmdt c shmid => Some (tag unit_val (shmdt t shmid (c_pid c) (c_now c)))
  | OShmctl c shmid cmd => Some (tag VShmInfo (shmctl t shmid cmd (c_uid c) (c_gid c) (c_now c)))
  end.

(** The ranges the argument types give. *)
Definition op_typed (op : ipc_op) : Prop :=
  match op with
  | OSemget _ _ nsems _ => is_u32 nsems
  | OSemop _ _ sops => Forall (fun o => 0 <= so_num o < 2 ^ 16 /\ - 2 ^ 15 <= so_op o < 2 ^ 15) sops
  | OSemctl _ _ semnum _ _ => - 2 ^ 31 <= semnum < 2 ^ 31
  | OSetAll _ _ vals => Forall (fun v => 0 <= v < 2 ^ 16) vals
  | OShmget _ _ size _ => is_u32 size
  | OMsgrcv _ _ max_size _ _ => is_u32 max_size
  | _ => True
  end.

End table.

(** ** Well-formed tables *)

(** Every object lies under its own identifier, and no two share a key. *)
Record kind_ok {A} (key_of id_of : A -> Z) (ok : A -> Prop) (m : gmap Z A) : Prop := {
  ko_obj : forall id a, m !! id = Some a -> id_of a = id /\ ok a;
  ko_key : forall i j a b, m !! i = Some a -> m !! j = Some b -> key_of a = key_of b -> key_of a <> IPC_PRIVATE -> i = j;
}.

Fixpoint total_len (ms : list MsgEntry) : Z :=
  match ms with [] => 0 | m :: ms' => Z.of_nat (length (me_data m)) + total_len ms' end.

Record msgq_ok (q : MsgQueue) : Prop := {
  mo_limit : mq_qbytes q = MSGMNB;
  mo_bytes : total_len (mq_messages q) <= mq_cbytes q <= MSGMNB;
  mo_types : Forall (fun m => 0 < me_mtype m) (mq_messages q);
}.

Definition val_ok (v : SemValue) : Prop := 0 <= sv_val v < 2 ^ 16.

Record sems_ok (s : SemSet) : Prop := {
  so_size : ss_nsems s = Z.of_nat (length (ss_values s));
  so_nsems : 0 < ss_nsems s <= SEMMSL;
  so_vals : Forall val_ok (ss_values s);
}.

Definition shm_ok (g : ShmSegment) : Prop := sg_segsz g = Z.of_nat (length (sg_data g)) /\ 0 < sg_segsz g <= u32_max.

Record ipc_ok (t : IpcTable) : Prop := {
  io_msgs : kind_ok mq_key mq_id msgq_ok (msg_queues t);
  io_sems : kind_ok ss_key ss_id sems_ok (sem_sets t);
  io_shms : kind_ok sg_key sg_id shm_ok (shm_segments t);
  io_next : 0 <= ipc_next_id t < 2 ^ 31;
}.

(** *** Lookup by key *)

Lemma elem_of_btree_values {A} (m : gmap Z A) a : a ∈ btree_values m <-> exists id, m !! id = Some a.
Proof.
  unfold btree_values. rewrite list_elem_of_fmap. setoid_rewrite merge_sort_Permutation. split.
  - intros ([id b] & -> & Hin%elem_of_map_to_list). by exists id.
  - intros [id Hid]. exists (id, a). split; [done|]. by apply elem_of_map_to_list.
Qed.

Section kind.
Context {A : Type} (key_of id_of : A -> Z) (ok : A -> Prop).
Implicit Types m : gmap Z A.

Lemma find_key_Some m key a :
  kind_ok key_of id_of ok m ->
  find_key key_of m key = Some a <-> key <> IPC_PRIVATE /\ key_of a = key /\ m !! id_of a = Some a.
Proof.
  intros [Hobj Hkey]. unfold find_key. destruct (Z.eqb_spec key IPC_PRIVATE) as [->|Hne]; [naive_solver|]. split.
  - intros [[id Hid]%elem_of_btree_values Hk%Z.eqb_eq]%find_first_Some. pose proof (proj1 (Hobj _ _ Hid)) as <-. done.
  - intros (_ & Hk & Hid). destruct (find_first _ _) as [b|] eqn:E.
    + apply find_first_Some in E as [[j Hj]%elem_of_btree_values Hb%Z.eqb_eq]. rewrite <- Hb in Hk.
      assert (id_of a = j) by (eapply Hkey; try done; congruence). congruence.
    + rewrite find_first_None in E. specialize (E a). rewrite Z.eqb_neq in E. exfalso. apply E; [|done].
      apply elem_of_btree_values. eauto.
Qed.

Lemma find_key_None m key :
  find_key key_of m key = None <-> key = IPC_PRIVATE \/ forall id a, m !! id = Some a -> key_of a <> key.
Proof.
  unfold find_key. destruct (Z.eqb_spec key IPC_PRIVATE) as [->|Hne]; [by split; [left|]|].
  rewrite find_first_None. setoid_rewrite elem_of_btree_values. setoid_rewrite Z.eqb_neq. split.
  - intros Hx. right. intros id a Hid. apply Hx. by exists id.
  - intros [?|Hx] a [id Hid]; [done|]. by apply (Hx id).
Qed.

Lemma kind_ok_empty : kind_ok key_of id_of ok ∅.
Proof. split; [intros ?? Hl|intros ???? Hl]; by rewrite lookup_empty in Hl. Qed.

Lemma kind_ok_delete m id : kind_ok key_of id_of ok m -> kind_ok key_of id_of ok (delete id m).
Proof.
  intros [Hobj Hkey]. split; [intros i a Hi|intros i j a b Hi Hj].
  - apply lookup_delete_Some in Hi as [_ Hi]. eauto.
  - apply lookup_delete_Some in Hi as [_ Hi]. apply lookup_delete_Some in Hj as [_ Hj]. eauto.
Qed.

Lemma kind_ok_update m id a b :
  kind_ok key_of id_of ok m -> m !! id = Some a -> key_of b = key_of a -> id_of b = id_of a -> ok b ->
  kind_ok key_of id_of ok (<[id := b]> m).
Proof.
  intros [Hobj Hkey] Ha Hk Hid Hb. split.
  - intros i c [[<- <-]|[Hne Hc]]%lookup_insert_Some; [|eauto]. rewrite Hid. split; [|done]. by apply Hobj.
  - intros i j c d [[<- <-]|[Hne Hc]]%lookup_insert_Some [[<- <-]|[Hne' Hd]]%lookup_insert_Some; intros Heq Hp; [done| | |eauto].
    + eapply Hkey; [exact Ha|done| |]; congruence.
    + eapply Hkey; [done|exact Ha| |]; congruence.
Qed.

(** A new object may also replace an old one under the same identifier. *)
Lemma kind_ok_create m id b :
  kind_ok key_of id_of ok m -> find_key key_of m (key_of b) = None -> id_of b = id -> ok b ->
  kind_ok key_of id_of ok (<[id := b]> m).
Proof.
  intros [Hobj Hkey] Hf Hid Hb. apply find_key_None in Hf. split.
  - intros i c [[<- <-]|[Hne Hc]]%lookup_insert_Some; eauto.
  - intros i j c d [[<- <-]|[Hne Hc]]%lookup_insert_Some [[<- <-]|[Hne' Hd]]%lookup_insert_Some; intros Heq Hp; [done| | |eauto].
    + destruct Hf as [Hf|Hf]; [congruence|]. by destruct (Hf _ _ Hd).
    + destruct Hf as [Hf|Hf]; [congruence|]. by destruct (Hf _ _ Hc).
Qed.

End kind.

(** *** Every operation keeps the table well formed *)

Lemma ipc_ok_msgs t m : ipc_ok t -> kind_ok mq_key mq_id msgq_ok m -> ipc_ok (with_msgs t m).
Proof. by intros [? ? ? ?] ?. Qed.

Lemma ipc_ok_sems t m : ipc_ok t -> kind_ok ss_key ss_id sems_ok m -> ipc_ok (with_sems t m).
Proof. by intros [? ? ? ?] ?. Qed.

Lemma ipc_ok_shms t m : ipc_ok t -> kind_ok sg_key sg_id shm_ok m -> ipc_ok (with_shms t m).
Proof. by intros [? ? ? ?] ?. Qed.

#[local] Hint Resolve ipc_ok_msgs ipc_ok_sems ipc_ok_shms kind_ok_delete kind_ok_update kind_ok_create
  io_msgs io_sems io_shms : kandelo.

Lemma alloc_next t : ipc_next_id (ipc_alloc_id t).2 = (ipc_next_id t + 1) mod 2 ^ 31.
Proof.
  unfold ipc_alloc_id, as_i32. cbn [snd ipc_next_id]. change 0x7FFFFFFF with (Z.ones 31).
  rewrite Z.land_ones by lia. set (n := ipc_next_id t + 1). rewrite (Z.mod_eq (n + 2 ^ 31) (2 ^ 32)) by lia.
  set (q := (n + 2 ^ 31) / 2 ^ 32). replace (n + 2 ^ 31 - 2 ^ 32 * q - 2 ^ 31) with (n + (- 2 * q) * 2 ^ 31) by lia.
  by rewrite Z_mod_plus_full.
Qed.

Lemma ipc_ok_alloc t : ipc_ok t -> ipc_ok (ipc_alloc_id t).2.
Proof.
  intros [? ? ? ?]. split; try done. rewrite alloc_next. apply Z.mod_pos_bound. lia.
Qed.

(** Open every decision of an operation, refuted branches and errors apart. *)
Ltac open_op := repeat (case_match; simplify_eq/=; try done).

Lemma msgget_ok t key flags uid gid now : ipc_ok t -> ipc_ok (msgget t key flags uid gid now).2.
Proof.
  intros Hok. unfold msgget. destruct (find_key _ _ _) eqn:Ef; [by open_op|].
  case_bool_step; [done|]. change (ipc_ok (with_msgs (ipc_alloc_id t).2
    (<[ipc_next_id t := mkMsgQueue key (ipc_next_id t) (Z.land flags 0x1FF) uid gid uid gid MSGMNB [] 0 0 0 0 0 now (ipc_next_id t)]>
       (msg_queues t)))).
  apply ipc_ok_msgs; [by apply ipc_ok_alloc|]. apply kind_ok_create; [apply Hok|done|done|].
  split; simpl; [done| |constructor]. unfold MSGMNB. lia.
Qed.

Lemma total_len_app l1 l2 : total_len (l1 ++ l2) = total_len l1 + total_len l2.
Proof. induction l1 as [|m l1 IH]; cbn [total_len app]; lia. Qed.

Lemma total_len_nonneg ms : 0 <= total_len ms.
Proof. induction ms as [|m ms IH]; cbn [total_len]; lia. Qed.

(** The capacity test does not wrap. *)
Lemma msgq_room q (data : bytes) :
  msgq_ok q -> Z.of_nat (length data) <= MSGMAX ->
  u32_wrap (mq_cbytes q + as_u32 (Z.of_nat (length data))) = mq_cbytes q + Z.of_nat (length data).
Proof.
  intros [_ [H1 H2] _] Hd. pose proof (total_len_nonneg (mq_messages q)). unfold MSGMAX, MSGMNB, u32_wrap, as_u32 in *.
  rewrite (Z.mod_small (Z.of_nat _)), Z.mod_small by lia. done.
Qed.

Lemma msgsnd_ok t qid mtype data flags pid uid gid now :
  ipc_ok t -> ipc_ok (msgsnd t qid mtype data flags pid uid gid now).2.
Proof.
  intros Hok. unfold msgsnd. destruct (Z.leb_spec mtype 0) as [|Hty]; [done|].
  destruct (msg_queues t !! qid) as [q|] eqn:Eq; [|done]. destruct (ipc_check_perm _ _ _ _ _ _); [|done].
  destruct (ko_obj _ _ _ _ (io_msgs _ Hok) _ _ Eq) as [Hid Hq].
  destruct (Z.ltb_spec MSGMAX (Z.of_nat (length data))) as [|Hd]; [done|]. rewrite (msgq_room _ _ Hq Hd).
  destruct (Z.ltb_spec (mq_qbytes q) (mq_cbytes q + Z.of_nat (length data))) as [|Hroom]; [done|].
  apply ipc_ok_msgs; [done|]. eapply kind_ok_update; [apply Hok|done|done|done|].
  destruct Hq as [Hl Hb Ht]. unfold vec_push. split; cbn [mq_qbytes mq_messages mq_cbytes]; [done| |].
  - rewrite total_len_app. cbn [total_len me_data]. lia.
  - apply Forall_app. split; [done|]. by constructor.
Qed.

Lemma position_lookup {A} (p : A -> bool) l i x :
  position p l = Some i -> l !! i = Some x ->
  exists l1 l2, l = l1 ++ x :: l2 /\ i = length l1 /\ p x = true /\ Forall (fun y => p y = false) l1.
Proof.
  intros Hp Hx. pose proof (position_spec p l) as Hs. rewrite Hp in Hs. destruct Hs as (l1 & e & l2 & -> & He & Hl & ->).
  rewrite list_lookup_middle in Hx by done. simplify_eq. by exists l1, l2.
Qed.

(** A receive that succeeds takes the first message its selector accepts. *)
Definition received (q : MsgQueue) (l1 l2 : list MsgEntry) (cut : nat) (pid now : Z) : MsgQueue :=
  mkMsgQueue (mq_key q) (mq_id q) (mq_mode q) (mq_uid q) (mq_gid q) (mq_cuid q) (mq_cgid q) (mq_qbytes q)
    (l1 ++ l2) (mq_cbytes q - Z.of_nat cut) (mq_lspid q) (as_i32 pid) (mq_stime q) now (mq_ctime q) (mq_seq q).

Lemma msgrcv_inv t qid max ty flags pid uid gid now m t' :
  ipc_ok t -> is_u32 max -> msgrcv t qid max ty flags pid uid gid now = (Ok m, t') ->
  exists q l1 e l2,
    msg_queues t !! qid = Some q /\ mq_messages q = l1 ++ e :: l2 /\
    msg_selector ty (ipc_flag flags MSG_EXCEPT) e = true /\
    Forall (fun x => msg_selector ty (ipc_flag flags MSG_EXCEPT) x = false) l1 /\
    m = mkMsgRcv (me_mtype e) (take (Z.to_nat max) (me_data e)) /\
    (ipc_flag flags MSG_NOERROR = false -> mr_data m = me_data e) /\
    t' = with_msgs t (<[qid := received q l1 l2 (length (mr_data m)) pid now]> (msg_queues t)).
Proof.
  intros Hok Hmax. unfold msgrcv. destruct (msg_queues t !! qid) as [q|] eqn:Eq; [|done].
  destruct (ko_obj _ _ _ _ (io_msgs _ Hok) _ _ Eq) as [Hid [Hl Hb Ht]].
  destruct (ipc_check_perm _ _ _ _ _ _); [|done].
  destruct (position _ _) as [i|] eqn:Ep; [|done]. destruct (mq_messages q !! i) as [e|] eqn:Ei; [|done].
  destruct (position_lookup _ _ _ _ Ep Ei) as (l1 & l2 & Em & -> & He & Hf).
  case_bool_step; [done|]. intros [= <- <-]. exists q, l1, e, l2. split_and!; try done.
  - intros Hn. rewrite Hn, andb_true_r in *. simpl. apply take_ge. unfold is_u32 in *. lia.
  - rewrite Em, vec_remove_app. unfold received. simpl. do 3 f_equal. rewrite Em, total_len_app in Hb. cbn [total_len] in Hb.
    assert (length (take (Z.to_nat max) (me_data e)) <= length (me_data e))%nat by (rewrite length_take; lia).
    pose proof (total_len_nonneg l1). pose proof (total_len_nonneg l2). unfold MSGMNB, u32_saturating_sub, as_u32 in *.
    rewrite Z.mod_small by lia. lia.
Qed.

Lemma received_ok q l1 e l2 cut pid now :
  msgq_ok q -> mq_messages q = l1 ++ e :: l2 -> (cut <= length (me_data e))%nat -> msgq_ok (received q l1 l2 cut pid now).
Proof.
  intros [Hl Hb Ht] Em Hc. rewrite Em, total_len_app in Hb. cbn [total_len] in Hb. rewrite Em in Ht.
  split; cbn [received mq_qbytes mq_messages mq_cbytes]; [done|rewrite total_len_app; lia|].
  apply Forall_app in Ht as [? [_ ?]%Forall_cons]. by apply Forall_app.
Qed.

Lemma msgrcv_ok t qid max ty flags pid uid gid now :
  ipc_ok t -> is_u32 max -> ipc_ok (msgrcv t qid max ty flags pid uid gid now).2.
Proof.
  intros Hok Hmax. destruct (msgrcv _ _ _ _ _ _ _ _ _) as [[m|e] t'] eqn:E.
  - destruct (msgrcv_inv _ _ _ _ _ _ _ _ _ _ _ Hok Hmax E) as (q & l1 & e & l2 & Hq & Em & _ & _ & -> & _ & ->).
    destruct (ko_obj _ _ _ _ (io_msgs _ Hok) _ _ Hq) as [Hid Hqok].
    apply ipc_ok_msgs; [done|]. eapply kind_ok_update; [apply Hok|done|done|done|].
    eapply received_ok; [done|done|]. simpl. rewrite length_take. lia.
  - replace t' with t; [done|]. unfold msgrcv in E. open_op.
Qed.

Lemma msgctl_ok t qid cmd uid gid now : ipc_ok t -> ipc_ok (msgctl t qid cmd uid gid now).2.
Proof.
  intros Hok. unfold msgctl. destruct (msg_queues t !! qid) as [q|] eqn:Eq; [|done].
  destruct (ko_obj _ _ _ _ (io_msgs _ Hok) _ _ Eq) as [Hid [? ? ?]]. open_op; eauto with kandelo.
  apply ipc_ok_msgs; [done|]. by eapply kind_ok_update; [apply Hok|..].
Qed.

Lemma semget_ok t key nsems flags uid gid now : is_u32 nsems -> ipc_ok t -> ipc_ok (semget t key nsems flags uid gid now).2.
Proof.
  intros Hn Hok. unfold semget. destruct (find_key _ _ _) eqn:Ef; [by open_op|]. case_bool_step; [done|].
  case_bool_step; [done|]. bool_hyps. rewrite Z.eqb_neq in *. rewrite Z.ltb_ge in *. cbn -[ipc_alloc_id].
  apply (ipc_ok_sems (ipc_alloc_id t).2); [by apply ipc_ok_alloc|]. apply kind_ok_create; [apply Hok|done|done|]. unfold is_u32 in Hn.
  split; cbn [ss_nsems ss_values]; [rewrite length_replicate; lia|lia|]. apply Forall_replicate. unfold val_ok. simpl. lia.
Qed.

(** The batch names semaphores of the set. *)
Definition in_set (n : nat) (sops : list SemOp) : Prop := Forall (fun o => 0 <= so_num o < Z.of_nat n) sops.

Lemma as_u16_range x : 0 <= as_u16 x < 2 ^ 16.
Proof. apply Z.mod_pos_bound. lia. Qed.

Lemma semop_apply_total pid values sops :
  in_set (length values) sops -> Forall val_ok values ->
  exists values', semop_apply pid values sops = Some values' /\ length values' = length values /\ Forall val_ok values'.
Proof.
  unfold in_set. revert values. induction sops as [|op sops IH]; intros values Hin Hv; simpl; [by eexists|].
  apply Forall_cons in Hin as [Hop Hin].
  destruct (lookup_lt_is_Some_2 values (Z.to_nat (so_num op))) as [sem Hs]; [lia|]. rewrite Hs.
  set (sem' := mkSemValue _ _ _ _). destruct (IH (<[Z.to_nat (so_num op) := sem']> values)) as (v' & Hv' & Hl & Ho).
  - by rewrite length_insert.
  - apply Forall_insert; [done|]. unfold val_ok, sem'. simpl. case_bool_step; [apply as_u16_range|].
    by eapply Forall_lookup_1 in Hv.
  - exists v'. by rewrite Hl, length_insert.
Qed.

(** When the first pass accepts one operation. *)
Definition op_enabled (values : list SemValue) (o : SemOp) : Prop :=
  exists sem, values !! Z.to_nat (so_num o) = Some sem /\
    (so_op o < 0 -> 0 <= sv_val sem + so_op o) /\ (so_op o = 0 -> sv_val sem = 0).

Lemma semop_validate_Ok s sops :
  sems_ok s -> Forall (fun o => 0 <= so_num o) sops ->
  semop_validate s sops = Some (Ok ()) <-> in_set (length (ss_values s)) sops /\ Forall (op_enabled (ss_values s)) sops.
Proof.
  intros [Hsz _ _] H0. unfold in_set. induction sops as [|op sops IH]; simpl; [by split|].
  apply Forall_cons in H0 as [Hnum H0]. specialize (IH H0). rewrite !Forall_cons.
  destruct (Z.leb_spec (ss_nsems s) (so_num op)); [split; [done|lia]|].
  destruct (lookup_lt_is_Some_2 (ss_values s) (Z.to_nat (so_num op))) as [sem Hs]; [lia|]. rewrite Hs.
  destruct (Z.ltb_spec (so_op op) 0) as [Hneg|Hpos].
  - destruct (Z.ltb_spec (sv_val sem + so_op op) 0) as [Hbad|Hgood]; [|rewrite IH].
    + split; [done|]. intros [_ [(sem' & Hs' & He & _) _]]. simplify_eq. lia.
    + split; [|tauto]. intros [? ?]. split_and!; try done; try lia. exists sem. split_and!; [done|lia|lia].
  - destruct (Z.eqb_spec (so_op op) 0) as [Hz|Hnz]; [destruct (Z.eqb_spec (sv_val sem) 0) as [Hv|Hv]|]; simpl.
    + rewrite IH. split; [|tauto]. intros [? ?]. split_and!; try done; try lia. exists sem. split_and!; [done|lia|done].
    + split; [done|]. intros [_ [(sem' & Hs' & _ & He) _]]. simplify_eq. lia.
    + rewrite IH. split; [|tauto]. intros [? ?]. split_and!; try done; try lia. exists sem. split_and!; [done|lia|lia].
Qed.

Lemma semop_validate_total s sops :
  sems_ok s -> Forall (fun o => 0 <= so_num o) sops -> is_Some (semop_validate s sops).
Proof.
  intros [Hsz _ _] H0. induction sops as [|op sops IH]; simpl; [by eexists|]. apply Forall_cons in H0 as [Hnum H0].
  destruct (Z.leb_spec (ss_nsems s) (so_num op)); [by eexists|].
  destruct (lookup_lt_is_Some_2 (ss_values s) (Z.to_nat (so_num op))) as [sem Hs]; [lia|]. rewrite Hs.
  repeat case_match; eauto.
Qed.

(** What [semop] does, on every branch: it never panics. *)
Lemma semop_cases t semid sops pid uid gid now :
  ipc_ok t -> Forall (fun o => 0 <= so_num o) sops ->
  (exists e, semop t semid sops pid uid gid now = Some (Err e, t)) \/
  (exists s values, sem_sets t !! semid = Some s /\
     ipc_has_perm uid gid (ss_uid s) (ss_gid s) (ss_mode s) (semop_perm sops) = true /\
     in_set (length (ss_values s)) sops /\ Forall (op_enabled (ss_values s)) sops /\
     semop_apply pid (ss_values s) sops = Some values /\ length values = length (ss_values s) /\ Forall val_ok values /\
     semop t semid sops pid uid gid now =
       Some (Ok (), with_sems t (<[semid := with_values s values now (ss_ctime s)]> (sem_sets t)))).
Proof.
  intros Hok H0. unfold semop, ipc_check_perm. destruct (sem_sets t !! semid) as [s|] eqn:Es; [|eauto].
  destruct (ko_obj _ _ _ _ (io_sems _ Hok) _ _ Es) as [Hid Hs].
  destruct (ipc_has_perm _ _ _ _ _ _) eqn:Ep; [|eauto].
  destruct (semop_validate_total s sops Hs H0) as [[[]|e] Hv]; rewrite Hv; [right|eauto].
  apply semop_validate_Ok in Hv as [Hin Hen]; [|done|done].
  destruct (semop_apply_total pid (ss_values s) sops Hin (so_vals _ Hs)) as (values & Hap & Hl & Hvo).
  exists s, values. by rewrite Hap.
Qed.

Lemma with_values_ok s values ot ct :
  sems_ok s -> length values = length (ss_values s) -> Forall val_ok values -> sems_ok (with_values s values ot ct).
Proof. intros [H1 H2 H3] Hl Hv. split; simpl; [congruence|done|done]. Qed.

(** An outcome that is no panic, keeps the table well formed, and changes nothing
    when it is an error. *)
Definition safe_outcome {A} (t : IpcTable) (o : option (kresult A * IpcTable)) : Prop :=
  exists r t', o = Some (r, t') /\ ipc_ok t' /\ (is_ok r = false -> t' = t).

Lemma safe_err {A} t e : ipc_ok t -> safe_outcome (A := A) t (Some (Err e, t)).
Proof. intros. by exists (Err e), t. Qed.

Lemma safe_same {A} t (a : A) : ipc_ok t -> safe_outcome t (Some (Ok a, t)).
Proof. intros. by exists (Ok a), t. Qed.

Lemma safe_ok {A} t t' (a : A) : ipc_ok t' -> safe_outcome t (Some (Ok a, t')).
Proof. intros. by exists (Ok a), t'. Qed.

#[local] Hint Resolve safe_err safe_same safe_ok : kandelo.

Lemma semop_safe t semid sops pid uid gid now :
  ipc_ok t -> Forall (fun o => 0 <= so_num o) sops -> safe_outcome t (semop t semid sops pid uid gid now).
Proof.
  intros Hok H0. destruct (semop_cases t semid sops pid uid gid now Hok H0)
    as [[e ->]|(s & values & Es & _ & _ & _ & _ & Hl & Hv & ->)]; [by apply safe_err|].
  destruct (ko_obj _ _ _ _ (io_sems _ Hok) _ _ Es) as [Hid Hs].
  apply safe_ok, ipc_ok_sems; [done|]. eapply kind_ok_update; [apply Hok|done|done|done|]. by apply with_values_ok.
Qed.

Lemma semnum_in_set s semnum :
  sems_ok s -> - 2 ^ 31 <= semnum < 2 ^ 31 -> (semnum <? 0) || (ss_nsems s <=? as_u32 semnum) = false ->
  exists sem, ss_values s !! Z.to_nat semnum = Some sem.
Proof.
  intros [Hsz _ _] Hn Hb. bool_hyps. rewrite Z.ltb_ge, Z.leb_gt in *. unfold as_u32 in *.
  rewrite Z.mod_small in * by lia. apply lookup_lt_is_Some_2. lia.
Qed.

Lemma sem_read_safe t s semnum uid gid f :
  ipc_ok t -> sems_ok s -> - 2 ^ 31 <= semnum < 2 ^ 31 -> safe_outcome t (sem_read t s semnum uid gid f).
Proof.
  intros Hok Hs Hn. unfold sem_read. destruct (ipc_check_perm _ _ _ _ _ _); [|by apply safe_err].
  case_bool_step; [by apply safe_err|]. destruct (semnum_in_set s semnum) as [sem ->]; [done..|]. by apply safe_same.
Qed.

Lemma semctl_safe t semid semnum cmd arg uid gid now :
  ipc_ok t -> - 2 ^ 31 <= semnum < 2 ^ 31 -> safe_outcome t (semctl t semid semnum cmd arg uid gid now).
Proof.
  intros Hok Hn. unfold semctl. destruct (sem_sets t !! semid) as [s|] eqn:Es; [|by apply safe_err].
  destruct (ko_obj _ _ _ _ (io_sems _ Hok) _ _ Es) as [Hid Hs]. cbv zeta.
  assert (forall values ot ct, length values = length (ss_values s) -> Forall val_ok values ->
    ipc_ok (with_sems t (<[semid := with_values s values ot ct]> (sem_sets t)))) as Hup.
  { intros. apply ipc_ok_sems; [done|]. eapply kind_ok_update; [apply Hok|done|done|done|]. by apply with_values_ok. }
  pose proof (so_vals _ Hs) as Hvals.
  destruct (cmd =? IPC_STAT); [case_match; eauto with kandelo|].
  destruct (cmd =? IPC_RMID); [case_match; eauto with kandelo|].
  destruct (cmd =? IPC_SET); [case_match; eauto with kandelo|].
  destruct (cmd =? GETVAL); [by apply sem_read_safe|].
  destruct (cmd =? SETVAL).
  { case_match; [|eauto with kandelo]. destruct (_ || _) eqn:Eb; [eauto with kandelo|].
    destruct ((arg <? 0) || _); [eauto with kandelo|]. destruct (semnum_in_set s semnum) as [sem ->]; [done..|].
    apply safe_ok, Hup; [by rewrite length_insert|]. apply Forall_insert; [done|]. apply as_u16_range. }
  destruct (cmd =? GETALL); [case_match; eauto with kandelo|].
  repeat case_bool_step; eauto using sem_read_safe with kandelo.
Qed.

Lemma set_vals_total vals values :
  length vals = length values -> Forall (fun v => 0 <= v < 2 ^ 16) vals ->
  exists l, set_vals vals values = Some l /\ length l = length values /\ sv_val <$> l = vals /\ Forall val_ok l.
Proof.
  revert values. induction vals as [|v vals IH]; intros [|sem values] Hl Hv; try done; [by eexists|]. simpl in *.
  apply Forall_cons in Hv as [Hv Hvs]. destruct (IH values) as (l & -> & Hl' & <- & Ho); [lia|done|].
  eexists. split; [done|]. simpl. split_and!; [lia|done|by constructor].
Qed.

Lemma semctl_set_all_safe t semid vals uid gid now :
  ipc_ok t -> Forall (fun v => 0 <= v < 2 ^ 16) vals -> safe_outcome t (semctl_set_all t semid vals uid gid now).
Proof.
  intros Hok Hv. unfold semctl_set_all. destruct (sem_sets t !! semid) as [s|] eqn:Es; [|by apply safe_err].
  destruct (ko_obj _ _ _ _ (io_sems _ Hok) _ _ Es) as [Hid Hs]. case_match; [|by apply safe_err].
  destruct (Z.eqb_spec (Z.of_nat (length vals)) (ss_nsems s)) as [Hl|]; simpl; [|by apply safe_err].
  destruct (set_vals_total vals (ss_values s)) as (l & -> & Hll & _ & Ho); [pose proof (so_size _ Hs); lia|done|].
  apply safe_ok, ipc_ok_sems; [done|]. eapply kind_ok_update; [apply Hok|done|done|done|]. by apply with_values_ok.
Qed.

(** *** Shared memory *)

(** What a read returns: the bytes of the segment from the offset on, as many as
    the buffer and the segment have. *)
Lemma shm_read_chunk_eq t shmid offset buf seg :
  shm_segments t !! shmid = Some seg -> shm_ok seg ->
  let chunk := take (length buf) (drop (Z.to_nat offset) (sg_data seg)) in
  shm_read_chunk t shmid offset buf = Some (Ok (Z.of_nat (length chunk)), chunk ++ drop (length chunk) buf).
Proof.
  intros Hs [Hsz Hr] chunk. unfold shm_read_chunk. rewrite Hs. cbv zeta.
  destruct (Nat.leb_spec (length (sg_data seg)) (Z.to_nat offset)) as [Hout|Hin].
  { subst chunk. by rewrite (drop_ge (sg_data seg)), take_nil by lia. }
  set (start := Z.to_nat offset) in *. set (e := Nat.min _ _).
  assert (start <= e <= length (sg_data seg) /\ e - start <= length buf)%nat as [He1 He2] by (subst e; lia).
  unfold slice. rewrite (proj2 (Nat.leb_le start e)), (proj2 (Nat.leb_le e _)) by lia. simpl.
  assert (take (e - start) (drop start (sg_data seg)) = chunk) as ->.
  { subst chunk e. apply list_eq. intros i. rewrite !lookup_take. repeat case_decide; try done; rewrite lookup_drop.
    - lia.
    - symmetry. apply lookup_ge_None_2. lia. }
  assert (length chunk = e - start)%nat as Hc by (subst chunk e; rewrite length_take, length_drop; lia).
  unfold copy_slice. rewrite (proj2 (Nat.leb_le (e - start) _)), (proj2 (Nat.eqb_eq (length chunk) _)) by lia. simpl.
  rewrite <- Hc. unfold splice, as_u32, u32_max in *. simpl. rewrite Z.mod_small by lia. done.
Qed.

(** What a write stores: the data that fits, at the offset. *)
Lemma shm_write_chunk_eq t shmid offset data seg :
  shm_segments t !! shmid = Some seg -> shm_ok seg ->
  let chunk := take (length (sg_data seg) - Z.to_nat offset) data in
  shm_write_chunk t shmid offset data =
  Some (Ok (Z.of_nat (length chunk)),
        if (length (sg_data seg) <=? Z.to_nat offset)%nat then t
        else with_shms t (<[shmid := with_attach seg (sg_lpid seg) (sg_nattch seg) (sg_atime seg) (sg_dtime seg) (sg_ctime seg)
                                       (splice (Z.to_nat offset) chunk (sg_data seg))]> (shm_segments t))).
Proof.
  intros Hs [Hsz Hr] chunk. unfold shm_write_chunk. rewrite Hs. cbv zeta.
  destruct (Nat.leb_spec (length (sg_data seg)) (Z.to_nat offset)) as [Hout|Hin].
  { subst chunk. rewrite (proj2 (Nat.sub_0_le _ _)) by done. done. }
  set (start := Z.to_nat offset) in *. set (e := Nat.min _ _).
  assert (start <= e <= length (sg_data seg) /\ e - start <= length data)%nat as [He1 He2] by (subst e; lia).
  unfold slice. rewrite (proj2 (Nat.leb_le (e - start) _)) by lia. simpl. rewrite drop_0, Nat.sub_0_r.
  assert (take (e - start) data = chunk) as ->.
  { subst chunk e. apply list_eq. intros i. rewrite !lookup_take. repeat case_decide; try done.
    - lia.
    - symmetry. apply lookup_ge_None_2. lia. }
  assert (length chunk = e - start)%nat as Hc by (subst chunk e; rewrite length_take; lia).
  unfold copy_slice. rewrite (proj2 (Nat.leb_le start e)), (proj2 (Nat.leb_le e _)), (proj2 (Nat.eqb_eq (length chunk) _)) by lia. simpl.
  rewrite <- Hc. unfold as_u32, u32_max in *. rewrite Z.mod_small by lia. done.
Qed.

Lemma with_attach_ok seg lp na at_ dt ct data :
  shm_ok seg -> length data = length (sg_data seg) -> shm_ok (with_attach seg lp na at_ dt ct data).
Proof. intros [H1 H2] Hl. split; simpl; [congruence|done]. Qed.

Lemma shm_update_ok t shmid seg lp na at_ dt ct data :
  ipc_ok t -> shm_segments t !! shmid = Some seg -> length data = length (sg_data seg) ->
  ipc_ok (with_shms t (<[shmid := with_attach seg lp na at_ dt ct data]> (shm_segments t))).
Proof.
  intros Hok Hs Hl. destruct (ko_obj _ _ _ _ (io_shms _ Hok) _ _ Hs) as [Hid Hseg].
  apply ipc_ok_shms; [done|]. eapply kind_ok_update; [apply Hok|done|done|done|]. by apply with_attach_ok.
Qed.

#[local] Hint Resolve shm_update_ok : kandelo.

(** A segment is created with its size, unless the size is more than an
    allocation can have. *)
Lemma shmget_safe `{Usize} t key size flags pid uid gid now :
  ipc_ok t -> is_u32 size ->
  safe_outcome t (shmget t key size flags pid uid gid now) \/
  isize_max < size /\ shmget t key size flags pid uid gid now = None.
Proof.
  intros Hok Hsz. unfold shmget. destruct (find_key _ _ _) eqn:Ef; [left; repeat case_match; eauto with kandelo|].
  case_bool_step; [left; eauto with kandelo|]. destruct (Z.eqb_spec size 0); [left; eauto with kandelo|].
  destruct (Z.ltb_spec isize_max size); [by right|]. left. unfold is_u32 in Hsz. cbn -[ipc_alloc_id].
  apply safe_ok, (ipc_ok_shms (ipc_alloc_id t).2); [by apply ipc_ok_alloc|].
  apply kind_ok_create; [apply Hok|done|done|]. split; simpl; [rewrite length_replicate; lia|lia].
Qed.

Lemma shmctl_safe t shmid cmd uid gid now : ipc_ok t -> safe_outcome t (Some (shmctl t shmid cmd uid gid now)).
Proof.
  intros Hok. unfold shmctl. destruct (shm_segments t !! shmid) as [seg|] eqn:Es; [|eauto with kandelo].
  repeat case_match; eauto with kandelo.
Qed.

Lemma shm_write_safe t shmid offset data : ipc_ok t -> safe_outcome t (shm_write_chunk t shmid offset data).
Proof.
  intros Hok. destruct (shm_segments t !! shmid) as [seg|] eqn:Es; [|unfold shm_write_chunk; rewrite Es; eauto with kandelo].
  destruct (ko_obj _ _ _ _ (io_shms _ Hok) _ _ Es) as [Hid Hseg]. rewrite (shm_write_chunk_eq _ _ _ _ _ Es Hseg).
  destruct (Nat.leb_spec (length (sg_data seg)) (Z.to_nat offset)); [eauto with kandelo|].
  apply safe_ok, shm_update_ok; [done|done|]. apply length_splice. rewrite length_take. lia.
Qed.

(** *** Every step of the table *)

Lemma safe_tag {A} (f : A -> ipc_val) t o : safe_outcome t o -> safe_outcome t (tag f <$> o).
Proof. intros (r & t' & -> & Hok & He). exists (rmap f r), t'. split_and!; [done|done|]. intros. apply He. by destruct r. Qed.

Lemma safe_total {A} t (p : kresult A * IpcTable) :
  ipc_ok p.2 -> (is_ok p.1 = false -> p.2 = t) -> safe_outcome t (Some p).
Proof. destruct p as [r t']. intros. by exists r, t'. Qed.

(** An operation that reports an error has changed nothing. *)
Ltac error_unchanged := repeat (case_match; simplify_eq/=; try done).

Section steps.
Context `{Usize}.

(** The one panic: a segment that cannot be allocated. *)
Definition oversized (op : ipc_op) : Prop := match op with OShmget _ _ size _ => isize_max < size | _ => False end.

Lemma ipc_step_safe t op :
  ipc_ok t -> op_typed op -> safe_outcome t (ipc_step t op) \/ oversized op /\ ipc_step t op = None.
Proof.
  intros Hok Hty. destruct op; simpl in Hty |- *; unfold option_map.
  - left. apply (safe_tag VInt t (Some _)), safe_total; [by apply msgget_ok|]. unfold msgget. by error_unchanged.
  - left. apply (safe_tag unit_val t (Some _)), safe_total; [by apply msgsnd_ok|]. unfold msgsnd. by error_unchanged.
  - left. apply (safe_tag VMsg t (Some _)), safe_total; [by apply msgrcv_ok|]. unfold msgrcv. by error_unchanged.
  - left. apply (safe_tag VMsgInfo t (Some _)), safe_total; [by apply msgctl_ok|]. unfold msgctl. by error_unchanged.
  - left. apply (safe_tag VInt t (Some _)), safe_total; [by apply semget_ok|]. unfold semget. by error_unchanged.
  - left. apply safe_tag, semop_safe; [done|]. eapply Forall_impl; [done|]. intros o. simpl. lia.
  - left. by apply safe_tag, semctl_safe.
  - left. by apply safe_tag, semctl_set_all_safe.
  - destruct (shmget_safe t key size flags (c_pid c) (c_uid c) (c_gid c) (c_now c) Hok Hty) as [Hs|[Hs ->]]; [|by right].
    left. by apply safe_tag.
  - left. apply (safe_tag VInt t (Some _)). unfold shmat. repeat case_match; eauto with kandelo.
  - left. unfold shm_read_chunk. destruct (shm_segments t !! shmid) as [seg|] eqn:Es; [|eexists _, _; by split_and!].
    destruct (ko_obj _ _ _ _ (io_shms _ Hok) _ _ Es) as [Hid Hseg].
    pose proof (shm_read_chunk_eq t shmid offset buf seg Es Hseg) as Hr. unfold shm_read_chunk in Hr. rewrite Es in Hr.
    cbv zeta in Hr |- *. rewrite Hr. simpl. eexists _, _. by split_and!.
  - left. by apply safe_tag, shm_write_safe.
  - left. apply (safe_tag unit_val t (Some _)). unfold shmdt. repeat case_match; eauto with kandelo.
  - left. by apply (safe_tag VShmInfo t (Some _)), shmctl_safe.
Qed.

End steps.

(** ** Permissions by bit *)

(** The lowest of the three mode bits that apply to a caller. *)
Definition class_bit (uid gid owner_uid owner_gid : Z) : Z :=
  if uid =? owner_uid then 6 else if gid =? owner_gid then 3 else 0.

Definition may (c : caller) (owner_uid owner_gid mode bit : Z) : Prop :=
  c_uid c = 0 \/ Z.testbit mode (class_bit (c_uid c) (c_gid c) owner_uid owner_gid + bit) = true.

Definition may_read c owner_uid owner_gid mode : Prop := may c owner_uid owner_gid mode 2.
Definition may_write c owner_uid owner_gid mode : Prop := may c owner_uid owner_gid mode 1.

Lemma land_subset a r : Z.land a r = r <-> forall i, 0 <= i -> Z.testbit r i = true -> Z.testbit a i = true.
Proof.
  split.
  - intros E i Hi Hr. rewrite <- E, Z.land_spec in Hr. by apply andb_true_iff in Hr as [? _].
  - intros Hs. apply Z.bits_inj'. intros i Hi. rewrite Z.land_spec. specialize (Hs i Hi).
    destruct (Z.testbit r i); [by rewrite Hs|apply andb_false_r].
Qed.

Lemma testbit_low3 x b i : 0 <= b -> 0 <= i -> Z.testbit (Z.land (Z.shiftr x b) 7) i = (i <? 3) && Z.testbit x (b + i).
Proof.
  intros Hb Hi. change 7 with (Z.ones 3). rewrite Z.land_spec, Z.shiftr_spec, Z.testbit_ones_nonneg, andb_comm by lia.
  by rewrite Z.add_comm.
Qed.

Lemma has_perm_spec c ou og mode perm :
  ipc_has_perm (c_uid c) (c_gid c) ou og mode perm = true <->
  c_uid c = 0 \/ perm = 0 \/ (forall i, 0 <= i < 3 -> Z.testbit perm (6 + i) = true -> may c ou og mode i).
Proof.
  unfold ipc_has_perm, may, class_bit. destruct (Z.eqb_spec (c_uid c) 0) as [|Hu]; [by split; [left|]|].
  destruct (Z.eqb_spec perm 0) as [|Hp]; simpl; [by split; [right; left|]|].
  rewrite Z.eqb_eq. set (cb := if _ =? ou then 6 else _). assert (0 <= cb) as Hcb by (subst cb; repeat case_match; lia).
  assert ((if c_uid c =? ou then Z.land (Z.shiftr mode 6) 7
           else if c_gid c =? og then Z.land (Z.shiftr mode 3) 7 else Z.land mode 7) = Z.land (Z.shiftr mode cb) 7) as ->.
  { subst cb. by repeat case_match. }
  rewrite land_subset. split.
  - intros Hs. right. right. intros i Hi Hpi. right. specialize (Hs i). rewrite !testbit_low3 in Hs by lia.
    rewrite Hpi, (proj2 (Z.ltb_lt i 3)) in Hs by lia. simpl in Hs. apply Hs; [lia|done].
  - intros [?|[?|Hs]]; [done|done|]. intros i Hi. rewrite !testbit_low3 by lia. destruct (Z.ltb_spec i 3); simpl; [|done].
    intros Hpi. destruct (Hs i) as [?|?]; [lia|done|done|done].
Qed.

Lemma check_perm_bits c ou og mode perm u :
  ipc_check_perm (c_uid c) (c_gid c) ou og mode perm = Ok u -> forall i, 0 <= i < 3 -> Z.testbit perm (6 + i) = true -> may c ou og mode i.
Proof.
  unfold ipc_check_perm. case_bool_step; [|done]. intros _ i Hi Hp. apply has_perm_spec in Heqb as [?|[->|Hs]]; [by left| |eauto].
  by rewrite Z.bits_0 in Hp.
Qed.

Lemma check_read c ou og mode u : ipc_check_perm (c_uid c) (c_gid c) ou og mode IPC_R = Ok u -> may_read c ou og mode.
Proof. intros Hc. by apply (check_perm_bits _ _ _ _ _ _ Hc 2). Qed.

Lemma check_write c ou og mode u : ipc_check_perm (c_uid c) (c_gid c) ou og mode IPC_W = Ok u -> may_write c ou og mode.
Proof. intros Hc. by apply (check_perm_bits _ _ _ _ _ _ Hc 1). Qed.

Definition owns (c : caller) (owner_uid creator_uid : Z) : Prop :=
  c_uid c = 0 \/ c_uid c = owner_uid \/ c_uid c = creator_uid.

Lemma check_owner c ou cu u : ipc_check_owner (c_uid c) ou cu = Ok u -> owns c ou cu.
Proof.
  unfold ipc_check_owner, owns. case_bool_step; [|done]. intros _. rewrite !orb_true_iff, !Z.eqb_eq in Heqb. tauto.
Qed.

(** A control command reads, or is for owners. *)
Definition ctl_authority (c : caller) (ou og cu mode cmd : Z) : Prop :=
  if cmd =? IPC_STAT then may_read c ou og mode else owns c ou cu.

Definition sem_authority (c : caller) (s : SemSet) (cmd : Z) : Prop :=
  if (cmd =? IPC_RMID) || (cmd =? IPC_SET) then owns c (ss_uid s) (ss_cuid s)
  else if cmd =? SETVAL then may_write c (ss_uid s) (ss_gid s) (ss_mode s)
  else may_read c (ss_uid s) (ss_gid s) (ss_mode s).

(** The accesses a [get] call asks for on an existing object: the owner's bits of
    its flags. *)
Definition granted (c : caller) (owner_uid owner_gid mode flags : Z) : Prop :=
  forall i, 0 <= i < 3 -> Z.testbit flags (6 + i) = true -> may c owner_uid owner_gid mode i.

(** What the caller of a successful operation must have been allowed.  The chunk
    copies and [shmdt] act on an attachment, which [shmat] has authorized; a [get]
    call that creates an object needs nothing. *)
Definition authorized (t : IpcTable) (op : ipc_op) : Prop :=
  match op with
  | OMsgget c key flags =>
      forall id q, msg_queues t !! id = Some q -> mq_key q = key -> key <> IPC_PRIVATE ->
        granted c (mq_uid q) (mq_gid q) (mq_mode q) flags
  | OSemget c key _ flags =>
      forall id s, sem_sets t !! id = Some s -> ss_key s = key -> key <> IPC_PRIVATE ->
        granted c (ss_uid s) (ss_gid s) (ss_mode s) flags
  | OShmget c key _ flags =>
      forall id g, shm_segments t !! id = Some g -> sg_key g = key -> key <> IPC_PRIVATE ->
        granted c (sg_uid g) (sg_gid g) (sg_mode g) flags
  | OMsgsnd c qid _ _ _ => exists q, msg_queues t !! qid = Some q /\ may_write c (mq_uid q) (mq_gid q) (mq_mode q)
  | OMsgrcv c qid _ _ _ => exists q, msg_queues t !! qid = Some q /\ may_read c (mq_uid q) (mq_gid q) (mq_mode q)
  | OMsgctl c qid cmd =>
      exists q, msg_queues t !! qid = Some q /\ ctl_authority c (mq_uid q) (mq_gid q) (mq_cuid q) (mq_mode q) cmd
  | OSemop c semid sops =>
      exists s, sem_sets t !! semid = Some s /\
        (forall o, o ∈ sops -> so_op o = 0 -> may_read c (ss_uid s) (ss_gid s) (ss_mode s)) /\
        (forall o, o ∈ sops -> so_op o <> 0 -> may_write c (ss_uid s) (ss_gid s) (ss_mode s))
  | OSemctl c semid _ cmd _ => exists s, sem_sets t !! semid = Some s /\ sem_authority c s cmd
  | OSetAll c semid _ => exists s, sem_sets t !! semid = Some s /\ may_write c (ss_uid s) (ss_gid s) (ss_mode s)
  | OShmat c shmid flags =>
      exists g, shm_segments t !! shmid = Some g /\ may_read c (sg_uid g) (sg_gid g) (sg_mode g) /\
        (ipc_flag flags SHM_RDONLY = false -> may_write c (sg_uid g) (sg_gid g) (sg_mode g))
  | OShmctl c shmid cmd =>
      exists g, shm_segments t !! shmid = Some g /\ ctl_authority c (sg_uid g) (sg_gid g) (sg_cuid g) (sg_mode g) cmd
  | OShmRead _ _ _ | OShmWrite _ _ _ | OShmdt _ _ => True
  end.

Lemma check_granted c ou og mode flags u :
  ipc_check_perm (c_uid c) (c_gid c) ou og mode (Z.land flags IPC_PERM_MASK) = Ok u -> granted c ou og mode flags.
Proof.
  intros Hc i Hi Hb. apply (check_perm_bits _ _ _ _ _ _ Hc); [done|]. rewrite Z.land_spec, Hb. simpl.
  change IPC_PERM_MASK with (Z.ones 9). apply Z.ones_spec_low. lia.
Qed.

Lemma find_key_at {A} (key_of id_of : A -> Z) ok m key id a :
  kind_ok key_of id_of ok m -> m !! id = Some a -> key_of a = key -> key <> IPC_PRIVATE -> find_key key_of m key = Some a.
Proof.
  intros Hok Ha Hk Hp. apply (find_key_Some key_of id_of ok); [done|]. split_and!; [done|done|].
  by rewrite (proj1 (ko_obj _ _ _ _ Hok _ _ Ha)).
Qed.

Lemma semop_perm_bits o sops i :
  o ∈ sops -> Z.testbit (if so_op o =? 0 then IPC_R else IPC_W) i = true -> Z.testbit (semop_perm sops) i = true.
Proof.
  intros Hin Hb. induction Hin as [o sops|o o' sops Hin IH]; cbn [semop_perm]; rewrite Z.lor_spec; [by rewrite Hb|].
  rewrite IH by done. apply orb_true_r.
Qed.

Lemma sem_read_read t c s semnum f v t' :
  sem_read t s semnum (c_uid c) (c_gid c) f = Some (Ok v, t') -> may_read c (ss_uid s) (ss_gid s) (ss_mode s).
Proof. unfold sem_read. destruct (ipc_check_perm _ _ _ _ _ _) eqn:E; [|done]. intros _. by eapply check_read. Qed.

Lemma semctl_authorized t c semid semnum cmd arg v t' :
  semctl t semid semnum cmd arg (c_uid c) (c_gid c) (c_now c) = Some (Ok v, t') ->
  exists s, sem_sets t !! semid = Some s /\ sem_authority c s cmd.
Proof.
  unfold semctl, sem_authority. destruct (sem_sets t !! semid) as [s|]; [|done]. cbv zeta. intros E. exists s. split; [done|]. revert E.
  destruct (Z.eqb_spec cmd IPC_STAT) as [->|]; [simpl; case_match; [intros _; by eapply check_read|done]|].
  destruct (Z.eqb_spec cmd IPC_RMID) as [->|]; [simpl; case_match; [intros _; by eapply check_owner|done]|].
  destruct (Z.eqb_spec cmd IPC_SET) as [->|]; [simpl; case_match; [intros _; by eapply check_owner|done]|]. simpl.
  destruct (Z.eqb_spec cmd GETVAL) as [->|]; [simpl; apply sem_read_read|].
  destruct (Z.eqb_spec cmd SETVAL) as [->|]; [case_match; [intros _; by eapply check_write|done]|].
  destruct (cmd =? GETALL); [case_match; [intros _; by eapply check_read|done]|].
  repeat case_bool_step; first [done|apply sem_read_read].
Qed.

Section runs.
Context `{Usize}.

(** A run of the table; [None] when a step panics. *)
Fixpoint ipc_run (t : IpcTable) (ops : list ipc_op) : option IpcTable :=
  match ops with
  | [] => Some t
  | op :: ops' => match ipc_step t op with Some (_, t') => ipc_run t' ops' | None => None end
  end.

Lemma ipc_new_ok : ipc_ok ipc_new.
Proof. split; [apply kind_ok_empty..|]. simpl. lia. Qed.

Lemma ipc_step_ok t op r t' : ipc_ok t -> op_typed op -> ipc_step t op = Some (r, t') -> ipc_ok t'.
Proof. intros Hok Hty E. destruct (ipc_step_safe t op Hok Hty) as [(? & ? & E' & ? & _)|[_ E']]; by simplify_eq. Qed.

Lemma ipc_run_ok t ops t' : ipc_ok t -> Forall op_typed ops -> ipc_run t ops = Some t' -> ipc_ok t'.
Proof.
  intros Hok Hty. revert t Hok. induction Hty as [|op ops Hop Hty IH]; simpl; intros t Hok E; [by simplify_eq|].
  destruct (ipc_step t op) as [[r t1]|] eqn:Es; [|done]. eauto using ipc_step_ok.
Qed.

Lemma tag_Ok {A} (f : A -> ipc_val) o v t' : tag f <$> o = Some (Ok v, t') -> exists a, o = Some (Ok a, t') /\ v = f a.
Proof. unfold tag. destruct o as [[[a|e] t1]|]; intros E; simplify_eq/=; eauto. Qed.

Lemma ipc_step_authorized t op v t' :
  ipc_ok t -> op_typed op -> ipc_step t op = Some (Ok v, t') -> authorized t op.
Proof.
  intros Hok Hty. destruct op; simpl in Hty |- *; try done; intros E.
  - apply (tag_Ok VInt (Some _)) in E as (a & [= E] & _). intros id q Hq Hk Hp. unfold msgget in E.
    rewrite (find_key_at _ _ _ _ _ _ _ (io_msgs _ Hok) Hq Hk Hp) in E. case_bool_step; [done|].
    destruct (ipc_check_perm _ _ _ _ _ _) eqn:Ec; [|done]. by eapply check_granted.
  - apply (tag_Ok unit_val (Some _)) in E as (a & [= E] & _). unfold msgsnd in E.
    repeat (case_match; simplify_eq/=; try done). eexists. split; [done|]. by eapply check_write.
  - apply (tag_Ok VMsg (Some _)) in E as (a & [= E] & _). unfold msgrcv in E.
    destruct (msg_queues t !! qid) as [q|]; [|done]. exists q. split; [done|].
    destruct (ipc_check_perm _ _ _ _ _ _) eqn:Ec; [|done]. by eapply check_read.
  - apply (tag_Ok VMsgInfo (Some _)) in E as (a & [= E] & _). unfold msgctl, ctl_authority in *.
    repeat (case_match; simplify_eq/=; try done); eexists; (split; [done|]); eauto using check_read, check_owner.
  - apply (tag_Ok VInt (Some _)) in E as (a & [= E] & _). intros id q Hq Hk Hp. unfold semget in E.
    rewrite (find_key_at _ _ _ _ _ _ _ (io_sems _ Hok) Hq Hk Hp) in E. case_bool_step; [done|].
    destruct (ipc_check_perm _ _ _ _ _ _) eqn:Ec; [|done]. by eapply check_granted.
  - apply tag_Ok in E as (a & E & _). destruct (semop_cases t semid sops (c_pid c) (c_uid c) (c_gid c) (c_now c) Hok)
      as [[e Ee]|(s & values & Es & Hp & _)]; [eapply Forall_impl; [done|]; intros o; simpl; lia|congruence|].
    exists s. split; [done|]. assert (ipc_check_perm (c_uid c) (c_gid c) (ss_uid s) (ss_gid s) (ss_mode s) (semop_perm sops) = Ok ()) as Hc
      by (unfold ipc_check_perm; by rewrite Hp).
    split; intros o Ho Hop.
    + apply (check_perm_bits _ _ _ _ _ _ Hc 2); [done|]. apply (semop_perm_bits o); [done|]. by rewrite Hop.
    + apply (check_perm_bits _ _ _ _ _ _ Hc 1); [done|]. apply (semop_perm_bits o); [done|]. by destruct (Z.eqb_spec (so_op o) 0).
  - apply tag_Ok in E as (a & E & _). by eapply semctl_authorized.
  - apply tag_Ok in E as (a & E & _). unfold semctl_set_all in E. destruct (sem_sets t !! semid) as [s|]; [|done].
    exists s. split; [done|]. destruct (ipc_check_perm _ _ _ _ _ _) eqn:Ec; [|done]. by eapply check_write.
  - apply tag_Ok in E as (a & E & _). intros id q Hq Hk Hp. unfold shmget in E.
    rewrite (find_key_at _ _ _ _ _ _ _ (io_shms _ Hok) Hq Hk Hp) in E. case_bool_step; [done|].
    destruct (ipc_check_perm _ _ _ _ _ _) eqn:Ec; [|done]. by eapply check_granted.
  - apply (tag_Ok VInt (Some _)) in E as (a & [= E] & _). unfold shmat, shm_perm in E.
    destruct (shm_segments t !! shmid) as [g|]; [|done]. exists g. split; [done|].
    destruct (ipc_check_perm _ _ _ _ _ _) eqn:Ec; [|done]. case_bool_step.
    + split; [by eapply check_read|done].
    + split; [by apply (check_perm_bits _ _ _ _ _ _ Ec 2)|]. intros _. by apply (check_perm_bits _ _ _ _ _ _ Ec 1).
  - apply (tag_Ok VShmInfo (Some _)) in E as (a & [= E] & _). unfold shmctl, ctl_authority in *.
    repeat (case_match; simplify_eq/=; try done); eexists; (split; [done|]); eauto using check_read, check_owner.
Qed.

(** C30: in every table that calls of the right types can produce, a call either is
    refused and changes nothing, or succeeds and its caller had the mode bits of
    its class (owner, group, other) or the ownership that the operation requires
    (a [get] call on the key of an existing object needs the bits it asks for; the
    operations on an attached segment, [shmdt] and the copies in and out of it,
    require nothing more than the attachment); nothing panics but the creation of a segment larger than an allocation can be. *)
Theorem ipc_refused_or_authorized ops t op :
  Forall op_typed ops -> ipc_run ipc_new ops = Some t -> op_typed op ->
  (exists e, ipc_step t op = Some (Err e, t)) \/
  (exists v t', ipc_step t op = Some (Ok v, t') /\ authorized t op) \/
  (oversized op /\ ipc_step t op = None).
Proof.
  intros Hty Hrun Hop. pose proof (ipc_run_ok _ _ _ ipc_new_ok Hty Hrun) as Hok.
  destruct (ipc_step_safe t op Hok Hop) as [([v|e] & t' & E & _ & He)|]; [| |by right; right].
  - right. left. eauto using ipc_step_authorized.
  - left. exists e. by rewrite He in E.
Qed.

End runs.

Definition example_owner : caller := mkCaller 10 1000 100 7.
Definition example_other : caller := mkCaller 11 1001 100 8.

(** A queue of mode 0o640 (0x1A0) and a send by a group member, who may only read. *)
Lemma ipc_refused_or_authorized_witness :
  exists t, ipc_run ipc_new [OMsgget example_owner 5 (0x200 + 0x1A0)] = Some t /\
  ((exists e, ipc_step t (OMsgsnd example_other 0 1 [1] 0) = Some (Err e, t)) \/
   (exists v t', ipc_step t (OMsgsnd example_other 0 1 [1] 0) = Some (Ok v, t') /\ authorized t (OMsgsnd example_other 0 1 [1] 0)) \/
   (oversized (OMsgsnd example_other 0 1 [1] 0) /\ ipc_step t (OMsgsnd example_other 0 1 [1] 0) = None)).
Proof.
  eexists. split; [vm_compute; reflexivity|].
  eapply (ipc_refused_or_authorized [OMsgget example_owner 5 (0x200 + 0x1A0)]); [by repeat constructor|vm_compute; reflexivity|done].
Defined.

(** ** Keys and identifiers *)

(** What a [get] call on one kind of object must do: [r] its result, [t] and [t']
    the table before and after, [invalid] whether creation is refused. *)
Section get.
Context {A : Type} (key_of id_of uid_of gid_of mode_of : A -> Z) (objs : IpcTable -> gmap Z A).

Definition get_spec (t : IpcTable) (c : caller) (key flags : Z) (invalid : bool) (r : kresult Z) (t' : IpcTable) : Prop :=
  (exists a, key <> IPC_PRIVATE /\ objs t !! id_of a = Some a /\ key_of a = key /\ t' = t /\
     r = if ipc_flag flags IPC_CREAT && ipc_flag flags IPC_EXCL then Err EEXIST
         else if ipc_has_perm (c_uid c) (c_gid c) (uid_of a) (gid_of a) (mode_of a) (Z.land flags IPC_PERM_MASK)
         then Ok (id_of a) else Err EACCES) \/
  ((key = IPC_PRIVATE \/ forall id a, objs t !! id = Some a -> key_of a <> key) /\
   ((key <> IPC_PRIVATE /\ ipc_flag flags IPC_CREAT = false /\ r = Err ENOENT /\ t' = t) \/
    ((key = IPC_PRIVATE \/ ipc_flag flags IPC_CREAT = true) /\ invalid = true /\ r = Err EINVAL /\ t' = t) \/
    ((key = IPC_PRIVATE \/ ipc_flag flags IPC_CREAT = true) /\ invalid = false /\ r = Ok (ipc_next_id t) /\
     exists a, objs t' = <[ipc_next_id t := a]> (objs t) /\ key_of a = key /\ id_of a = ipc_next_id t /\
       uid_of a = c_uid c /\ gid_of a = c_gid c /\ mode_of a = Z.land flags IPC_PERM_MASK))).

Definition keys_unique (t : IpcTable) : Prop :=
  forall i j a b, objs t !! i = Some a -> objs t !! j = Some b -> key_of a = key_of b -> key_of a <> IPC_PRIVATE -> i = j.

End get.

Definition msg_get_spec := get_spec mq_key mq_id mq_uid mq_gid mq_mode msg_queues.
Definition sem_get_spec := get_spec ss_key ss_id ss_uid ss_gid ss_mode sem_sets.
Definition shm_get_spec := get_spec sg_key sg_id sg_uid sg_gid sg_mode shm_segments.

Lemma create_wanted flags key :
  negb (ipc_flag flags IPC_CREAT) && negb (key =? IPC_PRIVATE) = false ->
  key = IPC_PRIVATE \/ ipc_flag flags IPC_CREAT = true.
Proof. destruct (ipc_flag flags IPC_CREAT), (Z.eqb_spec key IPC_PRIVATE); naive_solver. Qed.

Lemma create_refused flags key :
  negb (ipc_flag flags IPC_CREAT) && negb (key =? IPC_PRIVATE) = true ->
  key <> IPC_PRIVATE /\ ipc_flag flags IPC_CREAT = false.
Proof. destruct (ipc_flag flags IPC_CREAT), (Z.eqb_spec key IPC_PRIVATE); naive_solver. Qed.

Lemma msgget_spec t c key flags :
  ipc_ok t -> let '(r, t') := msgget t key flags (c_uid c) (c_gid c) (c_now c) in msg_get_spec t c key flags false r t'.
Proof.
  intros Hok. unfold msgget, ipc_check_perm. destruct (find_key _ _ _) as [q|] eqn:Ef.
  - apply (find_key_Some _ mq_id msgq_ok) in Ef as (Hk & Hq & Hid); [|apply Hok].
    case_bool_step; [|case_bool_step]; left; exists q; split_and!; try done; by rewrite Heqb, ?Heqb0.
  - apply find_key_None in Ef. case_bool_step.
    + apply create_refused in Heqb as [? ?]. right. split; [done|]. by left.
    + apply create_wanted in Heqb. right. split; [done|]. right. right. split_and!; try done. by eexists.
Qed.

Lemma semget_spec t c key nsems flags :
  ipc_ok t -> let '(r, t') := semget t key nsems flags (c_uid c) (c_gid c) (c_now c) in
  sem_get_spec t c key flags ((nsems =? 0) || (SEMMSL <? nsems)) r t'.
Proof.
  intros Hok. unfold semget, ipc_check_perm. destruct (find_key _ _ _) as [s|] eqn:Ef.
  - apply (find_key_Some _ ss_id sems_ok) in Ef as (Hk & Hq & Hid); [|apply Hok].
    case_bool_step; [|case_bool_step]; left; exists s; split_and!; try done; by rewrite Heqb, ?Heqb0.
  - apply find_key_None in Ef. case_bool_step; [|case_bool_step].
    + apply create_refused in Heqb as [? ?]. right. split; [done|]. by left.
    + apply create_wanted in Heqb. right. split; [done|]. right. by left.
    + apply create_wanted in Heqb. right. split; [done|]. right. right. split_and!; try done. by eexists.
Qed.

Lemma shmget_spec `{Usize} t c key size flags :
  ipc_ok t ->
  match shmget t key size flags (c_pid c) (c_uid c) (c_gid c) (c_now c) with
  | Some (r, t') => shm_get_spec t c key flags (size =? 0) r t'
  | None => isize_max < size
  end.
Proof.
  intros Hok. unfold shmget, ipc_check_perm. destruct (find_key _ _ _) as [s|] eqn:Ef.
  - apply (find_key_Some _ sg_id shm_ok) in Ef as (Hk & Hq & Hid); [|apply Hok].
    case_bool_step; [|case_bool_step]; left; exists s; split_and!; try done; by rewrite Heqb, ?Heqb0.
  - apply find_key_None in Ef. case_bool_step; [|case_bool_step].
    + apply create_refused in Heqb as [? ?]. right. split; [done|]. by left.
    + apply create_wanted in Heqb. right. split; [done|]. right. by left.
    + destruct (Z.ltb_spec isize_max size); [done|].
      apply create_wanted in Heqb. right. split; [done|]. right. right. split_and!; try done. by eexists.
Qed.

(** *** Identifiers are fresh until the counter wraps *)

Definition ids (t : IpcTable) : gset Z := dom (msg_queues t) ∪ dom (sem_sets t) ∪ dom (shm_segments t).

Definition ids_below (t : IpcTable) : Prop := forall id, id ∈ ids t -> 0 <= id < ipc_next_id t.

(** A step that creates nothing, and one that creates one object. *)
Definition no_creation (t t' : IpcTable) : Prop := ids t' ⊆ ids t /\ ipc_next_id t' = ipc_next_id t.
Definition one_creation (t t' : IpcTable) : Prop :=
  ids t' = {[ipc_next_id t]} ∪ ids t /\ ipc_next_id t' = (ipc_next_id t + 1) mod 2 ^ 31.

Lemma no_creation_refl t : no_creation t t.
Proof. by split. Qed.

Lemma no_creation_msgs t m : dom m ⊆ dom (msg_queues t) -> no_creation t (with_msgs t m).
Proof. intros Hd. split; [|done]. unfold ids. simpl. set_solver. Qed.

Lemma no_creation_sems t m : dom m ⊆ dom (sem_sets t) -> no_creation t (with_sems t m).
Proof. intros Hd. split; [|done]. unfold ids. simpl. set_solver. Qed.

Lemma no_creation_shms t m : dom m ⊆ dom (shm_segments t) -> no_creation t (with_shms t m).
Proof. intros Hd. split; [|done]. unfold ids. simpl. set_solver. Qed.

Lemma dom_update {A} (m : gmap Z A) i a b : m !! i = Some a -> dom (<[i := b]> m) ⊆ dom m.
Proof. intros Hi. apply elem_of_dom_2 in Hi. set_solver. Qed.

Lemma dom_removed {A} (m : gmap Z A) i : dom (delete i m) ⊆ dom m.
Proof. set_solver. Qed.

#[local] Hint Resolve no_creation_refl no_creation_msgs no_creation_sems no_creation_shms dom_update dom_removed : kandelo.

Lemma one_creation_alloc t u :
  ids u = {[ipc_next_id t]} ∪ ids t -> ipc_next_id u = ipc_next_id (ipc_alloc_id t).2 -> one_creation t u.
Proof. intros Hi Hn. split; [done|]. rewrite Hn. apply alloc_next. Qed.

Ltac creation := right; apply one_creation_alloc; [unfold ids; simpl; set_solver|done].

Lemma ipc_step_ids `{Usize} t op r t' :
  ipc_step t op = Some (r, t') -> no_creation t t' \/ one_creation t t'.
Proof.
  destruct op; simpl; unfold tag; intros E; simplify_eq/=.
  - unfold msgget. destruct (find_key _ _ _); [left; repeat case_match; eauto with kandelo|].
    case_bool_step; [left; eauto with kandelo|]. simpl. creation.
  - left. unfold msgsnd. repeat case_match; eauto with kandelo.
  - left. unfold msgrcv. repeat case_match; eauto with kandelo.
  - left. unfold msgctl. repeat case_match; eauto with kandelo.
  - unfold semget. destruct (find_key _ _ _); [left; repeat case_match; eauto with kandelo|].
    repeat (case_bool_step; [left; eauto with kandelo|]). creation.
  - left. unfold semop in E. repeat (case_match; simplify_eq/=; eauto with kandelo).
  - left. unfold semctl, sem_read in E. repeat (case_match; simplify_eq/=; eauto with kandelo).
  - left. unfold semctl_set_all in E. repeat (case_match; simplify_eq/=; eauto with kandelo).
  - unfold shmget in E. destruct (find_key _ _ _); [left; repeat (case_match; simplify_eq/=; eauto with kandelo)|].
    destruct (negb _ && _); simplify_eq/=; [eauto with kandelo|]. destruct (size =? 0); simplify_eq/=; [eauto with kandelo|].
    destruct (isize_max <? size); simplify_eq/=. creation.
  - left. unfold shmat. repeat case_match; eauto with kandelo.
  - left. destruct (shm_read_chunk _ _ _ _); simplify_eq/=. eauto with kandelo.
  - left. unfold shm_write_chunk in E. repeat (case_match; simplify_eq/=; eauto with kandelo).
  - left. unfold shmdt. repeat case_match; eauto with kandelo.
  - left. unfold shmctl. repeat case_match; eauto with kandelo.
Qed.

Lemma ipc_run_ids `{Usize} t ops t' :
  ipc_run t ops = Some t' -> ids_below t -> 0 <= ipc_next_id t -> ipc_next_id t + Z.of_nat (length ops) < 2 ^ 31 -> ids_below t'.
Proof.
  revert t. induction ops as [|op ops IH]; simpl; intros t E Hb H0 Hl; [by simplify_eq|].
  destruct (ipc_step t op) as [[r t1]|] eqn:Es; [|done].
  destruct (ipc_step_ids _ _ _ _ Es) as [[Hs Hn]|[Hs Hn]].
  - apply (IH t1); [done| |lia|lia]. intros id Hid. rewrite Hn. by apply Hb, Hs.
  - rewrite Z.mod_small in Hn by lia. apply (IH t1); [done| |lia|lia]. intros id Hid. rewrite Hn.
    rewrite Hs in Hid. apply elem_of_union in Hid as [->%elem_of_singleton|Hid]; [lia|]. apply Hb in Hid. lia.
Qed.

(** in every table that calls of the right types can produce, a key names at
    most one object of each kind; [msgget], [semget] and [shmget] find that
    object (EEXIST for an exclusive creation, EACCES without the mode bits asked
    for), report ENOENT for an absent key without IPC_CREAT and EINVAL for a size
    they refuse, and otherwise create an object owned by the caller with the mode
    asked for, under an identifier that no object of the table has, as long as
    fewer than 2^31 calls were made. *)
Theorem ipc_get_correct `{Usize} ops t c :
  Forall op_typed ops -> ipc_run ipc_new ops = Some t ->
  (keys_unique mq_key msg_queues t /\ keys_unique ss_key sem_sets t /\ keys_unique sg_key shm_segments t) /\
  (Z.of_nat (length ops) < 2 ^ 31 -> ipc_next_id t ∉ ids t) /\
  (forall key flags, let '(r, t') := msgget t key flags (c_uid c) (c_gid c) (c_now c) in msg_get_spec t c key flags false r t') /\
  (forall key nsems flags, let '(r, t') := semget t key nsems flags (c_uid c) (c_gid c) (c_now c) in
     sem_get_spec t c key flags ((nsems =? 0) || (SEMMSL <? nsems)) r t') /\
  (forall key size flags,
     match shmget t key size flags (c_pid c) (c_uid c) (c_gid c) (c_now c) with
     | Some (r, t') => shm_get_spec t c key flags (size =? 0) r t'
     | None => isize_max < size
     end).
Proof.
  intros Hty Hrun. pose proof (ipc_run_ok _ _ _ ipc_new_ok Hty Hrun) as Hok.
  destruct Hok as [Hm Hs Hh Hn]. split_and!; [exact (ko_key _ _ _ _ Hm)|exact (ko_key _ _ _ _ Hs)|exact (ko_key _ _ _ _ Hh)| | | |].
  - intros Hl Hin. apply (ipc_run_ids _ _ _ Hrun) in Hin; [lia|by intros ??|done|simpl; lia].
  - intros. by apply msgget_spec.
  - intros. by apply semget_spec.
  - intros. by apply shmget_spec.
Qed.

Lemma ipc_get_correct_witness :
  exists t, ipc_run ipc_new [OMsgget example_owner 5 (0x200 + 0x1A0); OSemget example_owner 6 3 0x200] = Some t /\
  (Z.of_nat 2 < 2 ^ 31 -> ipc_next_id t ∉ ids t) /\ keys_unique mq_key msg_queues t.
Proof.
  eexists. split; [vm_compute; reflexivity|].
  match goal with |- context [ids ?t] =>
    destruct (ipc_get_correct [OMsgget example_owner 5 (0x200 + 0x1A0); OSemget example_owner 6 3 0x200] t example_owner) as (Hk & Hf & _) end.
  - repeat constructor; by vm_compute.
  - vm_compute. reflexivity.
  - split; [exact Hf|exact (proj1 Hk)].
Defined.

(** ** A message queue is one FIFO per type *)

Section fifo.
Context `{Usize} (qid : Z).

(** What passed through the queue: messages accepted, and results of receives
    with the flags they were made with. *)
Record traffic := mkTraffic { tr_sent : list MsgEntry; tr_received : list (Z * MsgRcvResult) }.

Definition observe (op : ipc_op) (r : kresult ipc_val) (tr : traffic) : traffic :=
  match op, r with
  | OMsgsnd _ q mtype data _, Ok _ =>
      if q =? qid then mkTraffic (tr_sent tr ++ [mkMsgEntry mtype data]) (tr_received tr) else tr
  | OMsgrcv _ q _ _ flags, Ok (VMsg m) =>
      if q =? qid then mkTraffic (tr_sent tr) (tr_received tr ++ [(flags, m)]) else tr
  | _, _ => tr
  end.

Fixpoint traffic_run (t : IpcTable) (ops : list ipc_op) (tr : traffic) : option (IpcTable * traffic) :=
  match ops with
  | [] => Some (t, tr)
  | op :: ops' =>
      match ipc_step t op with
      | Some (r, t') => traffic_run t' ops' (observe op r tr)
      | None => None
      end
  end.

(** The step neither removes the queue nor lets the counter reach it again. *)
Definition keeps_queue (t : IpcTable) (op : ipc_op) : Prop :=
  match op with
  | OMsgctl _ q cmd => q = qid -> cmd <> IPC_RMID
  | OMsgget _ _ _ => ipc_next_id t <> qid
  | _ => True
  end.

Fixpoint run_keeps (t : IpcTable) (ops : list ipc_op) : Prop :=
  match ops with
  | [] => True
  | op :: ops' => keeps_queue t op /\ match ipc_step t op with Some (_, t') => run_keeps t' ops' | None => True end
  end.

Definition of_type (ty : Z) (ms : list MsgEntry) : list MsgEntry := List.filter (fun m => me_mtype m =? ty) ms.

(** A receive returned the message, cut short only on request. *)
Definition delivers (fm : Z * MsgRcvResult) (m : MsgEntry) : Prop :=
  mr_mtype fm.2 = me_mtype m /\ mr_data fm.2 `prefix_of` me_data m /\
  (ipc_flag fm.1 MSG_NOERROR = false -> mr_data fm.2 = me_data m).

Definition result_bytes (l : list (Z * MsgRcvResult)) : Z :=
  foldr (fun fm acc => Z.of_nat (length (mr_data fm.2)) + acc) 0 l.

(** The queue [q0] became [q] while the traffic passed. *)
Definition queue_history (q0 q : MsgQueue) (tr : traffic) : Prop :=
  exists taken,
    Forall2 delivers (tr_received tr) taken /\
    (forall ty, of_type ty (mq_messages q0 ++ tr_sent tr) = of_type ty (taken ++ mq_messages q)) /\
    mq_cbytes q = mq_cbytes q0 + total_len (tr_sent tr) - result_bytes (tr_received tr).

Lemma of_type_app ty l1 l2 : of_type ty (l1 ++ l2) = of_type ty l1 ++ of_type ty l2.
Proof. apply List.filter_app. Qed.

Lemma result_bytes_app l1 l2 : result_bytes (l1 ++ l2) = result_bytes l1 + result_bytes l2.
Proof. induction l1 as [|x l1 IH]; simpl; [done|]. unfold result_bytes in *. simpl. lia. Qed.

Lemma history_send q0 q q' tr mtype data :
  queue_history q0 q tr -> mq_messages q' = mq_messages q ++ [mkMsgEntry mtype data] ->
  mq_cbytes q' = mq_cbytes q + Z.of_nat (length data) ->
  queue_history q0 q' (mkTraffic (tr_sent tr ++ [mkMsgEntry mtype data]) (tr_received tr)).
Proof.
  intros (taken & Hd & Hf & Hc) Hm Hb. exists taken. split_and!; cbn [tr_sent tr_received]; [done| |].
  - intros ty. specialize (Hf ty). rewrite Hm, !of_type_app in *. by rewrite !app_assoc, Hf.
  - rewrite total_len_app. cbn [total_len me_data]. lia.
Qed.

(** What a receive takes out of the middle of the queue is the oldest of its type. *)
Lemma of_type_take l1 e l2 p ty :
  p e = true -> Forall (fun x => p x = false) l1 -> (forall x, me_mtype x = me_mtype e -> p x = p e) ->
  of_type ty (l1 ++ e :: l2) = of_type ty ([e] ++ l1 ++ l2).
Proof.
  intros He Hl1 Hp. rewrite !of_type_app. cbn [of_type List.filter]. fold (of_type ty l2).
  destruct (Z.eqb_spec (me_mtype e) ty) as [Hty|]; simpl; [|done].
  replace (of_type ty l1) with (@nil MsgEntry); [done|]. symmetry. apply filter_none.
  eapply Forall_impl; [exact Hl1|]. simpl. intros x Hx. apply Z.eqb_neq. intros Hxt.
  rewrite (Hp x) in Hx by congruence. congruence.
Qed.

Lemma selector_by_type ty ex e x : me_mtype x = me_mtype e -> msg_selector ty ex x = msg_selector ty ex e.
Proof. unfold msg_selector. by intros ->. Qed.

Lemma history_receive q0 q l1 e l2 tr ty ex flags m pid now :
  queue_history q0 q tr -> mq_messages q = l1 ++ e :: l2 ->
  msg_selector ty ex e = true -> Forall (fun x => msg_selector ty ex x = false) l1 -> delivers (flags, m) e ->
  queue_history q0 (received q l1 l2 (length (mr_data m)) pid now) (mkTraffic (tr_sent tr) (tr_received tr ++ [(flags, m)])).
Proof.
  intros (taken & Hd & Hf & Hc) Em He Hl1 Hm. exists (taken ++ [e]). split_and!; cbn [tr_sent tr_received received mq_messages mq_cbytes].
  - apply Forall2_app; [done|]. by constructor.
  - intros ty'. rewrite Hf, Em, <- app_assoc, !(of_type_app _ taken). f_equal.
    eapply of_type_take; [exact He|done|]. intros x. apply selector_by_type.
  - rewrite result_bytes_app. unfold result_bytes at 2. simpl. lia.
Qed.

Definition is_msg_op (op : ipc_op) : bool :=
  match op with OMsgget _ _ _ | OMsgsnd _ _ _ _ _ | OMsgrcv _ _ _ _ _ | OMsgctl _ _ _ => true | _ => false end.

Lemma other_ops_keep_queues t op r t' :
  is_msg_op op = false -> ipc_step t op = Some (r, t') -> msg_queues t' = msg_queues t.
Proof.
  destruct op; try done; intros _; simpl; unfold tag; intros E; simplify_eq/=.
  - unfold semget. repeat (case_match; simplify_eq/=; try done).
  - unfold semop in E. repeat (case_match; simplify_eq/=; try done).
  - unfold semctl, sem_read in E. repeat (case_match; simplify_eq/=; try done).
  - unfold semctl_set_all in E. repeat (case_match; simplify_eq/=; try done).
  - unfold shmget in E. repeat (case_match; simplify_eq/=; try done).
  - unfold shmat. by repeat case_match.
  - by destruct (shm_read_chunk _ _ _ _); simplify_eq/=.
  - unfold shm_write_chunk in E. repeat (case_match; simplify_eq/=; try done).
  - unfold shmdt. by repeat case_match.
  - unfold shmctl. by repeat case_match.
Qed.

Lemma observe_other tr op r : is_msg_op op = false -> observe op r tr = tr.
Proof. by destruct op. Qed.

Lemma observe_err tr op e : observe op (Err e) tr = tr.
Proof. by destruct op. Qed.

Lemma history_msgs q0 q q' tr :
  queue_history q0 q tr -> mq_messages q' = mq_messages q -> mq_cbytes q' = mq_cbytes q -> queue_history q0 q' tr.
Proof. intros (taken & ? & ? & ?) Hm Hc. exists taken. by rewrite Hm, Hc. Qed.

Lemma history_step t op r t' q0 q tr :
  ipc_ok t -> op_typed op -> keeps_queue t op -> ipc_step t op = Some (r, t') ->
  msg_queues t !! qid = Some q -> queue_history q0 q tr ->
  exists q', msg_queues t' !! qid = Some q' /\ queue_history q0 q' (observe op r tr).
Proof.
  intros Hok Hty Hk E Hq Hh. destruct (is_msg_op op) eqn:Em.
  2: { rewrite (other_ops_keep_queues _ _ _ _ Em E), observe_other by done. eauto. }
  destruct r as [v|e].
  2: { rewrite observe_err. destruct (ipc_step_safe t op Hok Hty) as [(r' & t'' & E' & _ & He)|[_ E']]; [|congruence].
       simplify_eq. rewrite He by done. eauto. }
  destruct op; try done; cbn [ipc_step op_typed keeps_queue] in E, Hty, Hk; cbn [observe].
  - apply (tag_Ok VInt (Some _)) in E as (a & [= E] & ->). unfold msgget in E.
    repeat (case_match; simplify_eq/=; try done); eauto. rewrite lookup_insert_ne by done. eauto.
  - apply (tag_Ok unit_val (Some _)) in E as (a & [= E] & ->). unfold msgsnd in E.
    destruct (mtype <=? 0); [done|]. destruct (msg_queues t !! qid0) as [q1|] eqn:Eq1; [|done].
    destruct (ipc_check_perm _ _ _ _ _ _); [|done]. destruct (Z.ltb_spec MSGMAX (Z.of_nat (length data))) as [|Hd]; [done|].
    destruct (ko_obj _ _ _ _ (io_msgs _ Hok) _ _ Eq1) as [_ Hq1]. rewrite (msgq_room _ _ Hq1 Hd) in E.
    case_bool_step; [done|]. simplify_eq. cbn [with_msgs msg_queues]. destruct (Z.eqb_spec qid0 qid) as [->|Hne].
    + rewrite lookup_insert_eq. eexists. split; [done|]. simplify_eq. by eapply history_send.
    + rewrite lookup_insert_ne by done. eauto.
  - apply (tag_Ok VMsg (Some _)) in E as (m & [= E] & ->).
    destruct (msgrcv_inv _ _ _ _ _ _ _ _ _ _ _ Hok Hty E) as (q1 & l1 & e & l2 & Eq1 & Em1 & He & Hl1 & Hm & Hn & ->).
    cbn [with_msgs msg_queues]. destruct (Z.eqb_spec qid0 qid) as [->|Hne].
    + rewrite lookup_insert_eq. eexists. split; [done|]. simplify_eq. eapply history_receive; try done.
      split_and!; [done| |done]. simpl. apply prefix_take.
    + rewrite lookup_insert_ne by done. eauto.
  - apply (tag_Ok VMsgInfo (Some _)) in E as (a & [= E] & ->). unfold msgctl in E.
    destruct (msg_queues t !! qid0) as [q1|] eqn:Eq1; [|done].
    repeat (case_match; simplify_eq/=; try done); eauto; destruct (decide (qid0 = qid)) as [->|Hne].
    + rewrite Z.eqb_eq in *. naive_solver.
    + rewrite lookup_delete_ne by done. eauto.
    + rewrite lookup_insert_eq. eexists. split; [done|]. simplify_eq. by eapply history_msgs.
    + rewrite lookup_insert_ne by done. eauto.
Qed.

Lemma history_run t ops tr t' tr' q0 q :
  ipc_ok t -> Forall op_typed ops -> run_keeps t ops -> traffic_run t ops tr = Some (t', tr') ->
  msg_queues t !! qid = Some q -> queue_history q0 q tr ->
  exists q', msg_queues t' !! qid = Some q' /\ queue_history q0 q' tr'.
Proof.
  intros Hok Hty. revert t q tr Hok. induction Hty as [|op ops Hop Hty IH]; intros t q tr Hok Hk E Hq Hh; simpl in *; [simplify_eq; eauto|].
  destruct Hk as [Hk Hks]. destruct (ipc_step t op) as [[r t1]|] eqn:Es; [|done].
  destruct (history_step _ _ _ _ _ _ _ Hok Hop Hk Es Hq Hh) as (q' & Hq' & Hh'). eauto using ipc_step_ok.
Qed.

Lemma traffic_run_ok t ops tr t' tr' : ipc_ok t -> Forall op_typed ops -> traffic_run t ops tr = Some (t', tr') -> ipc_ok t'.
Proof.
  intros Hok Hty. revert t tr Hok. induction Hty as [|op ops Hop Hty IH]; simpl; intros t tr Hok E; [by simplify_eq|].
  destruct (ipc_step t op) as [[r t1]|] eqn:Es; [|done]. eauto using ipc_step_ok.
Qed.

End fifo.

(** C29: over any run of calls on the whole table during which a message queue is
    neither removed nor its identifier given out again, the messages received
    from it are, type by type, the messages sent to it in their order, each
    whole unless MSG_NOERROR allowed a prefix, and what remains queued is the
    rest; and the byte count that limits the queue is the bytes sent less the
    bytes handed to receivers. *)
Theorem msg_queue_fifo `{Usize} qid ops0 t ops t' tr q0 :
  Forall op_typed ops0 -> ipc_run ipc_new ops0 = Some t -> Forall op_typed ops -> run_keeps qid t ops ->
  msg_queues t !! qid = Some q0 -> traffic_run qid t ops (mkTraffic [] []) = Some (t', tr) ->
  exists q taken, msg_queues t' !! qid = Some q /\ Forall2 delivers (tr_received tr) taken /\
    (forall ty, of_type ty (mq_messages q0 ++ tr_sent tr) = of_type ty (taken ++ mq_messages q)) /\
    mq_cbytes q = mq_cbytes q0 + total_len (tr_sent tr) - result_bytes (tr_received tr) /\ mq_cbytes q <= MSGMNB.
Proof.
  intros Hty0 Hrun Hty Hk Hq E. pose proof (ipc_run_ok _ _ _ ipc_new_ok Hty0 Hrun) as Hok.
  destruct (history_run qid t ops (mkTraffic [] []) t' tr q0 q0) as (q & Hq' & taken & Hd & Hf & Hc); try done.
  { exists []. split_and!; [constructor|intros ty; by rewrite app_nil_r|simpl; lia]. }
  exists q, taken. split_and!; try done. pose proof (traffic_run_ok qid _ _ _ _ _ Hok Hty E) as Hok'.
  apply (ko_obj _ _ _ _ (io_msgs _ Hok')) in Hq' as [_ [_ Hb _]]. lia.
Qed.

Lemma msg_queue_fifo_witness :
  exists t t' tr q0,
    ipc_run ipc_new [OMsgget example_owner 5 (0x200 + 0x1A0)] = Some t /\
    traffic_run 0 t [OMsgsnd example_owner 0 1 [10; 11] 0; OMsgsnd example_owner 0 2 [20] 0; OMsgrcv example_other 0 100 2 0] (mkTraffic [] [])
      = Some (t', tr) /\
    exists q taken, msg_queues t' !! 0 = Some q /\ Forall2 delivers (tr_received tr) taken /\
      (forall ty, of_type ty (mq_messages q0 ++ tr_sent tr) = of_type ty (taken ++ mq_messages q)) /\
      mq_cbytes q = mq_cbytes q0 + total_len (tr_sent tr) - result_bytes (tr_received tr) /\ mq_cbytes q <= MSGMNB.
Proof.
  eexists _, _, _, _. split; [vm_compute; reflexivity|]. split; [vm_compute; reflexivity|].
  eapply (msg_queue_fifo 0 [OMsgget example_owner 5 (0x200 + 0x1A0)] _
            [OMsgsnd example_owner 0 1 [10; 11] 0; OMsgsnd example_owner 0 2 [20] 0; OMsgrcv example_other 0 100 2 0]).
  - by repeat constructor.
  - vm_compute. reflexivity.
  - repeat constructor; by vm_compute.
  - by repeat constructor.
  - vm_compute. reflexivity.
  - vm_compute. reflexivity.
Defined.

(** ** [semop] is sequential execution, all or nothing *)

(** The reference: the operations one after the other on the values, each seeing
    the ones before it; the first that cannot proceed refuses the batch. *)
Fixpoint sem_seq (nsems : Z) (vals : list Z) (sops : list SemOp) : kresult (list Z) :=
  match sops with
  | [] => Ok vals
  | op :: sops' =>
      if nsems <=? so_num op then Err EFBIG
      else
        match vals !! Z.to_nat (so_num op) with
        | None => Err EFBIG
        | Some v =>
            if (so_op op <? 0) && (v + so_op op <? 0) then Err EAGAIN
            else if (so_op op =? 0) && negb (v =? 0) then Err EAGAIN
            else sem_seq nsems (<[Z.to_nat (so_num op) := v + so_op op]> vals) sops'
        end
  end.

Definition num (o : SemOp) : nat := Z.to_nat (so_num o).

Lemma validate_seq s vals sops :
  sems_ok s -> length vals = length (ss_values s) -> Forall (fun o => 0 <= so_num o) sops -> NoDup (num <$> sops) ->
  (forall o, o ∈ sops -> vals !! num o = sv_val <$> (ss_values s !! num o)) ->
  semop_validate s sops = Some (match sem_seq (ss_nsems s) vals sops with Ok _ => Ok () | Err e => Err e end).
Proof.
  intros Hs. revert vals. induction sops as [|op sops IH]; intros vals Hl H0 Hnd Hv; cbn [semop_validate sem_seq]; [done|].
  apply Forall_cons in H0 as [Hn H0]. rewrite fmap_cons in Hnd. apply NoDup_cons in Hnd as [Hni Hnd].
  destruct (Z.leb_spec (ss_nsems s) (so_num op)); [done|]. pose proof (so_size _ Hs) as Hsz.
  destruct (lookup_lt_is_Some_2 (ss_values s) (num op)) as [sem Hsem]; [unfold num; lia|].
  pose proof (Hv op ltac:(constructor)) as Hvo. unfold num in Hvo, Hsem at 1. rewrite Hsem in Hvo |- *. simpl in Hvo. rewrite Hvo.
  assert (semop_validate s sops = Some (match sem_seq (ss_nsems s) (<[Z.to_nat (so_num op) := sv_val sem + so_op op]> vals) sops with
    Ok _ => Ok () | Err e => Err e end)) as Hrest.
  { apply IH; [by rewrite length_insert|done|done|]. intros o Ho. rewrite list_lookup_insert_ne; [apply Hv; by constructor|].
    intros Heq. apply Hni. apply list_elem_of_fmap. by exists o. }
  destruct (Z.ltb_spec (so_op op) 0); simpl.
  - rewrite (proj2 (Z.eqb_neq (so_op op) 0)) by lia. simpl. by case_bool_step.
  - destruct (so_op op =? 0); simpl; [|done]. by destruct (sv_val sem =? 0).
Qed.

Lemma apply_seq nsems pid values sops vals' :
  NoDup (num <$> sops) -> Forall val_ok values ->
  (forall o sem, o ∈ sops -> values !! num o = Some sem -> sv_val sem + so_op o < 2 ^ 16) ->
  sem_seq nsems (sv_val <$> values) sops = Ok vals' ->
  exists values', semop_apply pid values sops = Some values' /\ sv_val <$> values' = vals' /\
    forall i, sv_pid <$> (values' !! i) = if bool_decide (i ∈ num <$> sops) then const pid <$> (values !! i) else sv_pid <$> (values !! i).
Proof.
  revert values. induction sops as [|op sops IH]; intros values Hnd Hval Hov Hseq; cbn [semop_apply sem_seq] in *.
  { simplify_eq. exists values. by split_and!. }
  rewrite fmap_cons in Hnd. apply NoDup_cons in Hnd as [Hni Hnd].
  destruct (nsems <=? so_num op); [done|]. rewrite list_lookup_fmap in Hseq.
  destruct (values !! Z.to_nat (so_num op)) as [sem|] eqn:Esem; [simpl in Hseq|done].
  destruct ((so_op op <? 0) && (sv_val sem + so_op op <? 0)) eqn:Eneg; [done|].
  destruct ((so_op op =? 0) && _) eqn:Ez; [done|]. pose proof (Forall_lookup_1 _ _ _ _ Hval Esem) as Hsv. unfold val_ok in Hsv.
  assert (0 <= sv_val sem + so_op op < 2 ^ 16) as Hr.
  { split; [|by apply (Hov op); [constructor|]]. destruct (Z.ltb_spec (so_op op) 0); simpl in Eneg; lia. }
  set (val := if negb (so_op op =? 0) then _ else _). assert (val = sv_val sem + so_op op) as Hval'.
  { subst val. destruct (Z.eqb_spec (so_op op) 0); simpl; [lia|]. unfold as_u16. by apply Z.mod_small. }
  set (sem' := mkSemValue val pid _ _).
  destruct (IH (<[Z.to_nat (so_num op) := sem']> values)) as (values' & Hap & Hvs & Hp).
  - done.
  - apply Forall_insert; [done|]. unfold val_ok. simpl. lia.
  - intros o so Ho. rewrite list_lookup_insert_ne; [intros; by apply (Hov o); [constructor|]|].
    intros Heq. apply Hni, list_elem_of_fmap. by exists o.
  - rewrite <- Hseq. f_equal. rewrite list_fmap_insert. simpl. by rewrite Hval'.
  - exists values'. split_and!; [done|done|]. intros i. rewrite Hp, fmap_cons. clear Hp.
    destruct (decide (i = num op)) as [->|Hne].
    + rewrite (bool_decide_eq_false_2 (num op ∈ _)), bool_decide_eq_true_2 by (try done; by constructor).
      unfold num. rewrite list_lookup_insert_eq by (eapply lookup_lt_Some; done). by rewrite Esem.
    + rewrite list_lookup_insert_ne by (unfold num in Hne; done).
      by rewrite (bool_decide_ext (i ∈ num op :: (num <$> sops)) (i ∈ num <$> sops)) by set_solver.
Qed.

(** The caller may do every operation of a batch: alter the set, or read it to
    wait for zero. *)
Definition may_batch (c : caller) (s : SemSet) (sops : list SemOp) : bool :=
  (c_uid c =? 0) ||
  forallb (fun o => Z.testbit (ss_mode s)
    (class_bit (c_uid c) (c_gid c) (ss_uid s) (ss_gid s) + (if so_op o =? 0 then 2 else 1))) sops.

Lemma semop_perm_bits_inv sops i :
  0 <= i < 3 -> Z.testbit (semop_perm sops) (6 + i) = true -> exists o, o ∈ sops /\ i = if so_op o =? 0 then 2 else 1.
Proof.
  intros Hi. induction sops as [|o sops IH]; cbn [semop_perm]; [by rewrite Z.bits_0|].
  rewrite Z.lor_spec, orb_true_iff. intros [Hb|Hb]; [|destruct (IH Hb) as (o' & ? & ?); exists o'; split; [by constructor|done]].
  exists o. split; [constructor|]. revert Hb. destruct (decide (i = 0)) as [->|]; [by destruct (so_op o =? 0)|].
  destruct (decide (i = 1)) as [->|]; [by destruct (so_op o =? 0)|]. replace i with 2 by lia. by destruct (so_op o =? 0).
Qed.

Lemma may_batch_perm c s sops :
  ipc_has_perm (c_uid c) (c_gid c) (ss_uid s) (ss_gid s) (ss_mode s) (semop_perm sops) = may_batch c s sops.
Proof.
  apply eq_true_iff_eq. rewrite has_perm_spec. unfold may_batch, may. rewrite orb_true_iff, Z.eqb_eq, forallb_forall. split.
  - intros [?|[Hz|Hp]]; [by left| |].
    + right. intros o Ho%list_elem_of_In. exfalso. pose proof (semop_perm_bits o sops (if so_op o =? 0 then 8 else 7) Ho) as Hb.
      rewrite Hz, Z.bits_0 in Hb. by destruct (so_op o =? 0); specialize (Hb eq_refl).
    + destruct (decide (c_uid c = 0)) as [|Hu]; [by left|]. right. intros o Ho%list_elem_of_In.
      destruct (Hp (if so_op o =? 0 then 2 else 1)) as [?|Hb]; [by case_match| |done|exact Hb].
      apply (semop_perm_bits o); [done|]. by destruct (so_op o =? 0).
  - intros [?|Hb]; [by left|]. right. right. intros i Hi Hp. right.
    destruct (semop_perm_bits_inv sops i Hi Hp) as (o & Ho%list_elem_of_In & ->). by apply Hb.
Qed.

(** C28: In every table that calls of the right types can produce, [semop] is the
    sequential reference run all or nothing.  It answers
    EINVAL for a set that does not exist and EACCES for a caller without the mode
    bit of its class that an operation of the batch needs (read to wait for zero,
    alter otherwise), both with the table unchanged.  For any other batch that
    names each semaphore at most once and pushes none past the largest [u16], it
    returns the error of the first operation that cannot proceed, with the table
    unchanged, or sets exactly the values the reference computes, the caller's
    pid on the semaphores named and on no other. *)
Theorem semop_sequential `{Usize} ops t c semid sops :
  Forall op_typed ops -> ipc_run ipc_new ops = Some t -> op_typed (OSemop c semid sops) ->
  let result := semop t semid sops (c_pid c) (c_uid c) (c_gid c) (c_now c) in
  match sem_sets t !! semid with
  | None => result = Some (Err EINVAL, t)
  | Some s =>
      if negb (may_batch c s sops) then result = Some (Err EACCES, t)
      else
        NoDup (num <$> sops) ->
        (forall o sem, o ∈ sops -> ss_values s !! num o = Some sem -> sv_val sem + so_op o < 2 ^ 16) ->
        match sem_seq (ss_nsems s) (sv_val <$> ss_values s) sops with
        | Err e => result = Some (Err e, t)
        | Ok vals =>
            exists values,
              result = Some (Ok (), with_sems t (<[semid := with_values s values (c_now c) (ss_ctime s)]> (sem_sets t))) /\
              sv_val <$> values = vals /\
              forall i, sv_pid <$> (values !! i) =
                if bool_decide (i ∈ num <$> sops) then const (c_pid c) <$> (ss_values s !! i) else sv_pid <$> (ss_values s !! i)
        end
  end.
Proof.
  intros Hty Hrun Hsops result. pose proof (ipc_run_ok _ _ _ ipc_new_ok Hty Hrun) as Hok. unfold result, semop. clear result.
  destruct (sem_sets t !! semid) as [s|] eqn:Hs; [|done].
  unfold ipc_check_perm. rewrite may_batch_perm. destruct (may_batch c s sops); [|done]. intros Hnd Hov. cbn [negb].
  destruct (ko_obj _ _ _ _ (io_sems _ Hok) _ _ Hs) as [_ Hso].
  rewrite (validate_seq s (sv_val <$> ss_values s)); [|done|apply length_fmap| |done|].
  - destruct (sem_seq _ _ _) as [vals|e] eqn:Eseq; [|done].
    destruct (apply_seq _ (c_pid c) _ _ _ Hnd (so_vals _ Hso) Hov Eseq) as (values & Hap & Hv & Hpid).
    exists values. by rewrite Hap.
  - eapply Forall_impl; [exact Hsops|]. intros o. simpl. lia.
  - intros o _. apply list_lookup_fmap.
Qed.

Definition example_sops : list SemOp := [mkSemOp 1 3 0; mkSemOp 0 0 0].
Definition example_set : IpcTable :=
  match ipc_run ipc_new [OSemget example_owner 6 2 (0x200 + 0x1A0)] with Some t => t | None => ipc_new end.

(** The owner's batch is done; a group member, who may only read, is refused. *)
Lemma semop_sequential_witness :
  (exists values t', semop example_set 0 example_sops 10 1000 100 7 = Some (Ok (), t') /\
     (ss_values <$> sem_sets t' !! 0) = Some values /\ sv_val <$> values = [0; 3]) /\
  semop example_set 0 example_sops 11 1001 100 8 = Some (Err EACCES, example_set).
Proof.
  assert (ipc_run ipc_new [OSemget example_owner 6 2 (0x200 + 0x1A0)] = Some example_set) as Hrun by (vm_compute; reflexivity).
  set (old := mkSemSet 6 0 0x1A0 1000 100 1000 100 2 [mkSemValue 0 0 0 0; mkSemValue 0 0 0 0] 0 7 0).
  assert (sem_sets example_set !! 0 = Some old) as Hs by (vm_compute; reflexivity).
  assert (forall c, op_typed (OSemop c 0 example_sops)) as Hop by (intros c; repeat constructor; by vm_compute).
  assert (Forall op_typed [OSemget example_owner 6 2 (0x200 + 0x1A0)]) as Hty by (repeat constructor; by vm_compute).
  pose proof (semop_sequential _ example_set example_owner 0 example_sops Hty Hrun (Hop _)) as H1.
  pose proof (semop_sequential _ example_set example_other 0 example_sops Hty Hrun (Hop _)) as H2.
  cbv zeta in H1, H2. rewrite Hs in H1, H2. split; [|exact H2].
  assert (negb (may_batch example_owner old example_sops) = false) as E by (vm_compute; reflexivity). rewrite E in H1.
  destruct H1 as (values & E1 & Hv & _).
  - repeat constructor; vm_compute; set_solver.
  - intros o sem Ho. unfold example_sops in Ho. rewrite !elem_of_cons, elem_of_nil in Ho.
    destruct Ho as [->|[->|[]]]; simpl; intros [= <-]; done.
  - exists values, (with_sems example_set (<[0 := with_values old values 7 7]> (sem_sets example_set))).
    split; [exact E1|]. split; [|exact Hv]. cbn [with_sems sem_sets]. by rewrite lookup_insert_eq.
Defined.

(** ** A segment is a byte array *)

Section shm.
Context `{Usize} (shmid : Z).

(** The writes that went to the segment, oldest first. *)
Definition log_write (op : ipc_op) (r : kresult ipc_val) (log : list (Z * bytes)) : list (Z * bytes) :=
  match op, r with
  | OShmWrite id off data, Ok _ => if id =? shmid then log ++ [(off, data)] else log
  | _, _ => log
  end.

Fixpoint write_run (t : IpcTable) (ops : list ipc_op) (log : list (Z * bytes)) : option (IpcTable * list (Z * bytes)) :=
  match ops with
  | [] => Some (t, log)
  | op :: ops' =>
      match ipc_step t op with
      | Some (r, t') => write_run t' ops' (log_write op r log)
      | None => None
      end
  end.

Definition keeps_segment (t : IpcTable) (op : ipc_op) : Prop :=
  match op with
  | OShmctl _ id cmd => id = shmid -> cmd <> IPC_RMID
  | OShmget _ _ _ _ => ipc_next_id t <> shmid
  | OShmWrite _ off _ => 0 <= off
  | _ => True
  end.

Fixpoint segment_kept (t : IpcTable) (ops : list ipc_op) : Prop :=
  match ops with
  | [] => True
  | op :: ops' => keeps_segment t op /\ match ipc_step t op with Some (_, t') => segment_kept t' ops' | None => True end
  end.

(** One write seen from position [i]. *)
Definition covers (w : Z * bytes) (i : nat) : bool := (w.1 <=? Z.of_nat i) && (Z.of_nat i <? w.1 + Z.of_nat (length w.2)).

(** The byte at [i] after the writes: the last one that covers it wins. *)
Definition byte_at (init : option Z) (log : list (Z * bytes)) (i : nat) : option Z :=
  foldl (fun b w => if covers w i then w.2 !! (i - Z.to_nat w.1)%nat else b) init log.

Definition segment_history (g0 g : ShmSegment) (log : list (Z * bytes)) : Prop :=
  sg_segsz g = sg_segsz g0 /\ length (sg_data g) = length (sg_data g0) /\
  forall i, (i < length (sg_data g0))%nat -> sg_data g !! i = byte_at (sg_data g0 !! i) log i.

Definition is_shm_op (op : ipc_op) : bool :=
  match op with
  | OShmget _ _ _ _ | OShmat _ _ _ | OShmRead _ _ _ | OShmWrite _ _ _ | OShmdt _ _ | OShmctl _ _ _ => true
  | _ => false
  end.

Lemma other_ops_keep_segments t op r t' :
  is_shm_op op = false -> ipc_step t op = Some (r, t') -> shm_segments t' = shm_segments t.
Proof.
  destruct op; try done; intros _; simpl; unfold tag; intros E; simplify_eq/=.
  - unfold msgget. repeat (case_match; simplify_eq/=; try done).
  - unfold msgsnd. repeat (case_match; simplify_eq/=; try done).
  - unfold msgrcv. repeat (case_match; simplify_eq/=; try done).
  - unfold msgctl. repeat (case_match; simplify_eq/=; try done).
  - unfold semget. repeat (case_match; simplify_eq/=; try done).
  - unfold semop in E. repeat (case_match; simplify_eq/=; try done).
  - unfold semctl, sem_read in E. repeat (case_match; simplify_eq/=; try done).
  - unfold semctl_set_all in E. repeat (case_match; simplify_eq/=; try done).
Qed.

Lemma log_write_other log op r : is_shm_op op = false -> log_write op r log = log.
Proof. by destruct op. Qed.

Lemma log_write_err log op e : log_write op (Err e) log = log.
Proof. by destruct op. Qed.

Lemma byte_at_snoc init log w i :
  byte_at init (log ++ [w]) i = if covers w i then w.2 !! (i - Z.to_nat w.1)%nat else byte_at init log i.
Proof. unfold byte_at. by rewrite foldl_app. Qed.

Lemma history_attach g0 g log lp na at_ dt ct :
  segment_history g0 g log -> segment_history g0 (with_attach g lp na at_ dt ct (sg_data g)) log.
Proof. done. Qed.

(** A write past the end leaves every byte of the segment as it is; one inside
    sets the bytes it covers. *)
Lemma history_write g0 g log off data :
  segment_history g0 g log -> 0 <= off ->
  let start := Z.to_nat off in
  let chunk := take (length (sg_data g) - start) data in
  let data' := if (length (sg_data g) <=? start)%nat then sg_data g else splice start chunk (sg_data g) in
  length data' = length (sg_data g) /\
  forall i, (i < length (sg_data g0))%nat -> data' !! i = byte_at (sg_data g0 !! i) (log ++ [(off, data)]) i.
Proof.
  intros (Hz & Hl & Hb) Ho start chunk data'. subst data'.
  assert (start + length chunk <= length (sg_data g) \/ length (sg_data g) <= start)%nat as Hroom
    by (subst chunk; rewrite length_take; lia).
  split; [case_cmp; [done|]; apply length_splice; lia|]. intros i Hi. rewrite byte_at_snoc. unfold covers. cbn [fst snd].
  destruct (Nat.leb_spec (length (sg_data g)) start) as [Hout|Hin].
  - rewrite (proj2 (Z.leb_gt off (Z.of_nat i))) by lia. simpl. by apply Hb.
  - rewrite splice_lookup by lia. destruct (Z.leb_spec off (Z.of_nat i)) as [H1|H1]; simpl.
    + rewrite (proj2 (Nat.leb_le start i)) by lia. simpl.
      assert ((i <? start + length chunk)%nat = (Z.of_nat i <? off + Z.of_nat (length data))) as ->.
      { subst chunk. rewrite length_take. destruct (Nat.ltb_spec i (start + Nat.min (length (sg_data g) - start) (length data)));
          destruct (Z.ltb_spec (Z.of_nat i) (off + Z.of_nat (length data))); try done; lia. }
      case_bool_step; [|by apply Hb]. subst chunk. rewrite lookup_take_lt by lia. done.
    + rewrite (proj2 (Nat.leb_gt start i)) by lia. simpl. by apply Hb.
Qed.

Lemma segment_step t op r t' g0 g log :
  ipc_ok t -> op_typed op -> keeps_segment t op -> ipc_step t op = Some (r, t') ->
  shm_segments t !! shmid = Some g -> segment_history g0 g log ->
  exists g', shm_segments t' !! shmid = Some g' /\ segment_history g0 g' (log_write op r log).
Proof.
  intros Hok Hty Hk E Hg Hh. destruct (is_shm_op op) eqn:Em.
  2: { rewrite (other_ops_keep_segments _ _ _ _ Em E), log_write_other by done. eauto. }
  destruct r as [v|e].
  2: { rewrite log_write_err. destruct (ipc_step_safe t op Hok Hty) as [(r' & t'' & E' & _ & He)|[_ E']]; [|congruence].
       simplify_eq. rewrite He by done. eauto. }
  destruct op; try done; cbn [ipc_step op_typed keeps_segment] in E, Hty, Hk; cbn [log_write].
  - apply tag_Ok in E as (a & E & ->). unfold shmget in E.
    repeat (case_match; simplify_eq/=; try done); eauto. rewrite lookup_insert_ne by done. eauto.
  - apply (tag_Ok VInt (Some _)) in E as (a & [= E] & ->). unfold shmat in E.
    repeat (case_match; simplify_eq/=; try done); eauto. destruct (decide (shmid0 = shmid)) as [->|Hne];
      [rewrite lookup_insert_eq; simplify_eq; eauto|rewrite lookup_insert_ne by done; eauto].
  - destruct (shm_read_chunk _ _ _ _) as [[? ?]|]; simplify_eq/=. eauto.
  - apply tag_Ok in E as (a & E & ->). destruct (shm_segments t !! shmid0) as [g1|] eqn:Eg1; [|by unfold shm_write_chunk in E; rewrite Eg1 in E].
    destruct (ko_obj _ _ _ _ (io_shms _ Hok) _ _ Eg1) as [_ Hg1]. rewrite (shm_write_chunk_eq _ _ _ _ _ Eg1 Hg1) in E. simplify_eq.
    destruct (Z.eqb_spec shmid0 shmid) as [->|Hne].
    + simplify_eq. destruct (history_write g0 g log offset data Hh Hk) as [Hl Hb]. destruct Hh as (Hz & Hlen & _). cbv zeta in Hl, Hb.
      destruct (length (sg_data g) <=? Z.to_nat offset)%nat.
      * exists g. split; [done|]. split_and!; [done|done|]. exact Hb.
      * cbn [with_shms shm_segments]. rewrite lookup_insert_eq. eexists. split; [done|]. split_and!; simpl; [done|congruence|exact Hb].
    + case_bool_step; [eauto|]. cbn [with_shms shm_segments]. rewrite lookup_insert_ne by done. eauto.
  - apply (tag_Ok unit_val (Some _)) in E as (a & [= E] & ->). unfold shmdt in E.
    repeat (case_match; simplify_eq/=; try done); eauto. destruct (decide (shmid0 = shmid)) as [->|Hne];
      [rewrite lookup_insert_eq; simplify_eq; eauto|rewrite lookup_insert_ne by done; eauto].
  - apply (tag_Ok VShmInfo (Some _)) in E as (a & [= E] & ->). unfold shmctl in E.
    destruct (shm_segments t !! shmid0) as [g1|] eqn:Eg1; [|done].
    repeat (case_match; simplify_eq/=; try done); eauto; destruct (decide (shmid0 = shmid)) as [->|Hne].
    + rewrite Z.eqb_eq in *. naive_solver.
    + rewrite lookup_delete_ne by done. eauto.
    + rewrite lookup_insert_eq. simplify_eq. eauto.
    + rewrite lookup_insert_ne by done. eauto.
Qed.

Lemma segment_run t ops log t' log' g0 g :
  ipc_ok t -> Forall op_typed ops -> segment_kept t ops -> write_run t ops log = Some (t', log') ->
  shm_segments t !! shmid = Some g -> segment_history g0 g log ->
  ipc_ok t' /\ exists g', shm_segments t' !! shmid = Some g' /\ segment_history g0 g' log'.
Proof.
  intros Hok Hty. revert t g log Hok. induction Hty as [|op ops Hop Hty IH]; intros t g log Hok Hk E Hg Hh; simpl in *; [simplify_eq; eauto|].
  destruct Hk as [Hk Hks]. destruct (ipc_step t op) as [[r t1]|] eqn:Es; [|done].
  destruct (segment_step _ _ _ _ _ _ _ Hok Hop Hk Es Hg Hh) as (g' & Hg' & Hh'). eauto using ipc_step_ok.
Qed.

End shm.

(** over any run of calls on the whole table during which a segment is neither
    removed nor its identifier given out again, it keeps its size, and a read at
    any offset returns as many bytes as the buffer and the segment have there,
    each the byte of the last write that covered its position (or the byte it
    had), leaving the rest of the buffer alone; writes past the end store
    nothing beyond the segment. *)
Theorem shm_reads_last_write `{Usize} shmid ops0 t ops t' log g0 offset buf :
  Forall op_typed ops0 -> ipc_run ipc_new ops0 = Some t -> Forall op_typed ops -> segment_kept shmid t ops ->
  shm_segments t !! shmid = Some g0 -> write_run shmid t ops [] = Some (t', log) -> 0 <= offset ->
  exists chunk, shm_read_chunk t' shmid offset buf = Some (Ok (Z.of_nat (length chunk)), chunk ++ drop (length chunk) buf) /\
    length chunk = Nat.min (length buf) (Z.to_nat (sg_segsz g0) - Z.to_nat offset) /\
    forall k, (k < length chunk)%nat -> chunk !! k = byte_at (sg_data g0 !! (Z.to_nat offset + k)%nat) log (Z.to_nat offset + k).
Proof.
  intros Hty0 Hrun Hty Hk Hg E Ho. pose proof (ipc_run_ok _ _ _ ipc_new_ok Hty0 Hrun) as Hok.
  destruct (ko_obj _ _ _ _ (io_shms _ Hok) _ _ Hg) as [_ [Hsz0 _]].
  destruct (segment_run shmid t ops [] t' log g0 g0) as (Hok' & g & Hg' & Hz & Hl & Hb); try done.
  destruct (ko_obj _ _ _ _ (io_shms _ Hok') _ _ Hg') as [_ Hgo].
  eexists. split; [by apply shm_read_chunk_eq|]. rewrite length_take, length_drop. split; [lia|].
  intros k Hk'. rewrite lookup_take_lt, lookup_drop by lia. apply Hb. lia.
Qed.

Lemma shm_reads_last_write_witness :
  exists t t' log g0,
    ipc_run ipc_new [OShmget example_owner 7 4 (0x200 + 0x180)] = Some t /\ shm_segments t !! 0 = Some g0 /\
    write_run 0 t [OShmWrite 0 1 [8; 9; 10; 11]; OShmWrite 0 2 [5]] [] = Some (t', log) /\
    exists chunk, shm_read_chunk t' 0 1 [1; 1; 1; 1] = Some (Ok (Z.of_nat (length chunk)), chunk ++ drop (length chunk) [1; 1; 1; 1]) /\
      length chunk = Nat.min 4 (Z.to_nat (sg_segsz g0) - Z.to_nat 1) /\
      forall k, (k < length chunk)%nat -> chunk !! k = byte_at (sg_data g0 !! (Z.to_nat 1 + k)%nat) log (Z.to_nat 1 + k).
Proof.
  eexists _, _, _, _. split; [vm_compute; reflexivity|]. split; [vm_compute; reflexivity|]. split; [vm_compute; reflexivity|].
  eapply (shm_reads_last_write 0 [OShmget example_owner 7 4 (0x200 + 0x180)] _ [OShmWrite 0 1 [8; 9; 10; 11]; OShmWrite 0 2 [5]]
            _ _ _ 1 [1; 1; 1; 1]).
  - repeat constructor; by vm_compute.
  - vm_compute. reflexivity.
  - by repeat constructor.
  - repeat constructor; by vm_compute.
  - vm_compute. reflexivity.
  - vm_compute. reflexivity.
  - done.
Defined.

(** ** Departures from POSIX *)

(** A receive that truncates a message gives back only the bytes it returned:
    after two of them the empty queue refuses a message that fits. *)
Example truncation_leaks_bytes :
  let big := replicate 8192 0 in
  let trunc := OMsgrcv example_owner 0 0 0 0x1000 in
  match ipc_run ipc_new [OMsgget example_owner 5 (0x200 + 0x1A0); OMsgsnd example_owner 0 1 big 0; trunc;
                         OMsgsnd example_owner 0 1 big 0; trunc] with
  | Some t => (mq_messages <$> msg_queues t !! 0) = Some [] /\
              (fst <$> ipc_step t (OMsgsnd example_owner 0 1 [1] 0)) = Some (Err EAGAIN)
  | None => False
  end.
Proof. vm_compute. done. Qed.

(** A negative type takes the first message of a type up to its absolute value,
    not the message of the lowest type. *)
Example negative_type_takes_first :
  match ipc_run ipc_new [OMsgget example_owner 5 (0x200 + 0x1A0); OMsgsnd example_owner 0 3 [30] 0; OMsgsnd example_owner 0 1 [10] 0] with
  | Some t => (fst <$> ipc_step t (OMsgrcv example_owner 0 10 (-3) 0)) = Some (Ok (VMsg (mkMsgRcv 3 [30])))
  | None => False
  end.
Proof. vm_compute. done. Qed.

(** Two decrements of one semaphore are validated against the same value: the
    batch succeeds on a semaphore of value 1 and leaves 65535. *)
Example semop_repeated_semaphore_wraps :
  match ipc_run ipc_new [OSemget example_owner 6 1 (0x200 + 0x180); OSemctl example_owner 0 0 16 1;
                         OSemop example_owner 0 [mkSemOp 0 (-1) 0x800; mkSemOp 0 (-1) 0x800]] with
  | Some t => (fun s => sv_val <$> ss_values s) <$> sem_sets t !! 0 = Some [65535]
  | None => False
  end.
Proof. vm_compute. done. Qed.

(** Increments are not limited: three of 32767 wrap the value around. *)
Example semop_increment_wraps :
  let inc := OSemop example_owner 0 [mkSemOp 0 32767 0] in
  match ipc_run ipc_new [OSemget example_owner 6 1 (0x200 + 0x180); inc; inc; inc] with
  | Some t => (fun s => sv_val <$> ss_values s) <$> sem_sets t !! 0 = Some [32765]
  | None => False
  end.
Proof. vm_compute. done. Qed.

(** A segment removed while attached is gone at once. *)
Example shm_removed_while_attached :
  match ipc_run ipc_new [OShmget example_owner 7 4 (0x200 + 0x180); OShmat example_owner 0 0; OShmctl example_owner 0 0] with
  | Some t => (fst <$> ipc_step t (OShmRead 0 0 [1])) = Some (Err EINVAL)
  | None => False
  end.
Proof. vm_compute. done. Qed.

(** A request for four gigabytes panics instead of failing with ENOMEM. *)
Example oversized_segment_panics :
  ipc_step (H := wasm32_usize) ipc_new (OShmget example_owner 0 0xFFFFFFFF 0x380) = None.
Proof. vm_compute. done. Qed.
