(* ===== verification/Spawn.v ===== *)
(** * The spawn request parser ([crates/kernel/src/spawn.rs])

    [parse_blob] decodes the request of [posix_spawn] (attributes, arguments,
    environment, file actions) from bytes a process controls.  A sub-slice out of
    range is EINVAL.  Offsets and counts are natural numbers; the counts are
    capped before they are multiplied, so the code's checked arithmetic never
    fails.

    The theorems: the parser accepts exactly the byte strings of the wire
    format, stated as a relation, with the request they carry, and refuses every
    other one with EINVAL; and a request laid out with its strings one after
    the other decodes to itself. *)

From S2P Require Import Prelude Bytes Abi.

Definition SETPGROUP : Z := 0x02.
Definition SETSIGDEF : Z := 0x04.
Definition SETSIGMASK : Z := 0x08.
Definition SETSID : Z := 0x80.

Record SpawnAttrs := mkAttrs { at_flags : Z; at_pgrp : Z; at_sigdef : Z; at_sigmask : Z }.

Definition attrs_empty : SpawnAttrs := mkAttrs 0 0 0 0.

Inductive FileAction :=
| FOpen (fd : Z) (path : bytes) (oflag mode : Z)
| FClose (fd : Z)
| FDup2 (srcfd fd : Z)
| FChdir (path : bytes)
| FFchdir (fd : Z).

Definition FDOP_OPEN : Z := 0.
Definition FDOP_CLOSE : Z := 1.
Definition FDOP_DUP2 : Z := 2.
Definition FDOP_CHDIR : Z := 3.
Definition FDOP_FCHDIR : Z := 4.

Definition HEADER_LEN : nat := 40.
Definition ACTION_RECORD_LEN : nat := 28.

Record ParsedBlob := mkBlob {
  pb_argv : list bytes;
  pb_envp : list bytes;
  pb_file_actions : list FileAction;
  pb_attrs : SpawnAttrs;
}.

(** ** Reading *)

Definition read_u32 (b : bytes) (off : nat) : kresult Z :=
  let? s := ok_or (slice off (off + 4) b) EINVAL in
  Ok (from_le_bytes s).

Definition read_i32 (b : bytes) (off : nat) : kresult Z :=
  let? v := read_u32 b off in
  Ok (as_i32 v).

(** [u64::from_le_bytes]. *)
Definition from_le_bytes64 (b : bytes) : Z := from_le_bytes (take 4 b) + 2 ^ 32 * from_le_bytes (drop 4 b).

Definition read_u64 (b : bytes) (off : nat) : kresult Z :=
  let? s := ok_or (slice off (off + 8) b) EINVAL in
  Ok (from_le_bytes64 s).

(** The raw bytes less one trailing NUL. *)
Definition trim_nul (raw : bytes) : bytes :=
  if bool_decide (last raw = Some 0) then take (length raw - 1) raw else raw.

Definition read_string (strings : bytes) (off len : Z) : kresult bytes :=
  let off := Z.to_nat off in
  let len := Z.to_nat len in
  let? raw := ok_or (slice off (off + len) strings) EINVAL in
  Ok (trim_nul raw).

(** [for i in i0..i0+k { out.push(f(i)?) }]. *)
Fixpoint for_range {A} (f : nat -> kresult A) (i k : nat) : kresult (list A) :=
  match k with
  | O => Ok []
  | S k' =>
      let? a := f i in
      let? l := for_range f (S i) k' in
      Ok (a :: l)
  end.

(** The bytes up to the first NUL, or all. *)
Definition to_nul (tail : bytes) : bytes :=
  match position (fun b => b =? 0) tail with Some e => take e tail | None => tail end.

Fixpoint decode_strings_by_offset (offsets : list Z) (strings : bytes) : kresult (list bytes) :=
  match offsets with
  | [] => Ok []
  | off :: offsets' =>
      if (length strings <? Z.to_nat off)%nat then Err EINVAL
      else
        let? l := decode_strings_by_offset offsets' strings in
        Ok (to_nul (drop (Z.to_nat off) strings) :: l)
  end.

Definition decode_action (actions_bytes strings : bytes) (i : nat) : kresult FileAction :=
  let base := (i * ACTION_RECORD_LEN)%nat in
  let? op := read_u32 actions_bytes base in
  let? fd := read_i32 actions_bytes (base + 4) in
  let? newfd := read_i32 actions_bytes (base + 8) in
  let? path_off := read_u32 actions_bytes (base + 12) in
  let? path_len := read_u32 actions_bytes (base + 16) in
  let? oflag := read_i32 actions_bytes (base + 20) in
  let? mode := read_u32 actions_bytes (base + 24) in
  if op =? FDOP_OPEN then
    let? path := read_string strings path_off path_len in
    Ok (FOpen fd path oflag mode)
  else if op =? FDOP_CLOSE then Ok (FClose fd)
  else if op =? FDOP_DUP2 then Ok (FDup2 fd newfd)
  else if op =? FDOP_CHDIR then
    let? path := read_string strings path_off path_len in
    Ok (FChdir path)
  else if op =? FDOP_FCHDIR then Ok (FFchdir fd)
  else Err EINVAL.

Definition MAX_ARGV : Z := 4096.
Definition MAX_ENVP : Z := 4096.
Definition MAX_ACTIONS : Z := 1024.

(** [read_u32(table, i * 4)] for every entry. *)
Definition read_table (table : bytes) (n : nat) : kresult (list Z) := for_range (fun i => read_u32 table (i * 4)) 0 n.

Definition parse_blob (b : bytes) : kresult ParsedBlob :=
  if (length b <? HEADER_LEN)%nat then Err EINVAL
  else
    let? argc := read_u32 b 0 in
    let? envc := read_u32 b 4 in
    let? n_actions := read_u32 b 8 in
    let? attr_flags := read_u32 b 12 in
    let? pgrp := read_i32 b 16 in
    let? sigdef := read_u64 b 24 in
    let? sigmask := read_u64 b 32 in
    if (MAX_ARGV <? argc) || (MAX_ENVP <? envc) || (MAX_ACTIONS <? n_actions) then Err EINVAL
    else
      let argc := Z.to_nat argc in
      let envc := Z.to_nat envc in
      let n_actions := Z.to_nat n_actions in
      let cursor := HEADER_LEN in
      let argv_offsets_end := (cursor + argc * 4)%nat in
      let? argv_offsets_bytes := ok_or (slice cursor argv_offsets_end b) EINVAL in
      let? argv_offsets := read_table argv_offsets_bytes argc in
      let envp_offsets_end := (argv_offsets_end + envc * 4)%nat in
      let? envp_offsets_bytes := ok_or (slice argv_offsets_end envp_offsets_end b) EINVAL in
      let? envp_offsets := read_table envp_offsets_bytes envc in
      let actions_end := (envp_offsets_end + n_actions * ACTION_RECORD_LEN)%nat in
      let? actions_bytes := ok_or (slice envp_offsets_end actions_end b) EINVAL in
      let? strings := ok_or (slice actions_end (length b) b) EINVAL in
      let? argv := decode_strings_by_offset argv_offsets strings in
      let? envp := decode_strings_by_offset envp_offsets strings in
      let? file_actions := for_range (decode_action actions_bytes strings) 0 n_actions in
      Ok (mkBlob argv envp file_actions (mkAttrs attr_flags pgrp sigdef sigmask)).

(** ** The wire format *)

(** Words, little endian, one after the other. *)
Definition le_words (ws : list Z) : bytes := concat (to_le_bytes <$> ws).

(** The string at an offset: it runs to a NUL or to the end of the region. *)
Definition c_string (strings : bytes) (off : Z) (s : bytes) : Prop :=
  exists pre post, strings = pre ++ s ++ post /\ length pre = Z.to_nat off /\ 0 ∉ s /\ (post = [] \/ exists q, post = 0 :: q).

(** The path at an offset with a length, which may count one trailing NUL. *)
Definition path_at (strings : bytes) (off len : Z) (path : bytes) : Prop :=
  exists pre raw post, strings = pre ++ raw ++ post /\ length pre = Z.to_nat off /\ length raw = Z.to_nat len /\
    (raw = path ++ [0] \/ raw = path /\ last path <> Some 0).

(** An action record as seven words. *)
Record action_rec := mkRec {
  ar_op : Z; ar_fd : Z; ar_newfd : Z; ar_path_off : Z; ar_path_len : Z; ar_oflag : Z; ar_mode : Z;
}.
Definition rec_words (r : action_rec) : list Z :=
  [ar_op r; ar_fd r; ar_newfd r; ar_path_off r; ar_path_len r; ar_oflag r; ar_mode r].

Definition action_wire (strings : bytes) (r : action_rec) (a : FileAction) : Prop :=
  match a with
  | FOpen fd path oflag mode =>
      ar_op r = FDOP_OPEN /\ fd = as_i32 (ar_fd r) /\ oflag = as_i32 (ar_oflag r) /\ mode = ar_mode r /\
      path_at strings (ar_path_off r) (ar_path_len r) path
  | FClose fd => ar_op r = FDOP_CLOSE /\ fd = as_i32 (ar_fd r)
  | FDup2 srcfd fd => ar_op r = FDOP_DUP2 /\ srcfd = as_i32 (ar_fd r) /\ fd = as_i32 (ar_newfd r)
  | FChdir path => ar_op r = FDOP_CHDIR /\ path_at strings (ar_path_off r) (ar_path_len r) path
  | FFchdir fd => ar_op r = FDOP_FCHDIR /\ fd = as_i32 (ar_fd r)
  end.

(** The header, the two offset tables, the records and the strings. *)
Definition header_words (argc envc n flags pgrp pad : Z) (sigdef sigmask : Z) : list Z :=
  [argc; envc; n; flags; as_u32 pgrp; pad; sigdef mod 2 ^ 32; sigdef / 2 ^ 32; sigmask mod 2 ^ 32; sigmask / 2 ^ 32].

Definition wire (b : bytes) (p : ParsedBlob) : Prop :=
  exists pad argv_offs envp_offs recs strings,
    let a := pb_attrs p in
    b = le_words (header_words (Z.of_nat (length argv_offs)) (Z.of_nat (length envp_offs)) (Z.of_nat (length recs))
                    (at_flags a) (at_pgrp a) pad (at_sigdef a) (at_sigmask a)
                  ++ argv_offs ++ envp_offs ++ concat (rec_words <$> recs)) ++ strings /\
    Z.of_nat (length argv_offs) <= MAX_ARGV /\ Z.of_nat (length envp_offs) <= MAX_ENVP /\ Z.of_nat (length recs) <= MAX_ACTIONS /\
    is_u32 (at_flags a) /\ - 2 ^ 31 <= at_pgrp a < 2 ^ 31 /\ is_u32 pad /\
    0 <= at_sigdef a < 2 ^ 64 /\ 0 <= at_sigmask a < 2 ^ 64 /\
    Forall is_u32 argv_offs /\ Forall is_u32 envp_offs /\ Forall (fun r => Forall is_u32 (rec_words r)) recs /\
    Forall2 (c_string strings) argv_offs (pb_argv p) /\ Forall2 (c_string strings) envp_offs (pb_envp p) /\
    Forall2 (action_wire strings) recs (pb_file_actions p).

(** *** Words *)

Lemma le_words_app a b : le_words (a ++ b) = le_words a ++ le_words b.
Proof. unfold le_words. by rewrite fmap_app, concat_app. Qed.

Lemma length_le_words ws : length (le_words ws) = (length ws * 4)%nat.
Proof. induction ws as [|w ws IH]; [done|]. change (le_words (w :: ws)) with (to_le_bytes w ++ le_words ws). rewrite length_app, IH. simpl. lia. Qed.

Lemma words_of (bs : bytes) n : length bs = (n * 4)%nat -> Forall is_byte bs -> exists ws, length ws = n /\ Forall is_u32 ws /\ bs = le_words ws.
Proof.
  revert bs. induction n as [|n IH]; intros bs Hl Hb.
  { exists []. destruct bs; [by split_and!|done]. }
  rewrite <- (take_drop 4 bs) in Hb. apply Forall_app in Hb as [Hb1 Hb2].
  destruct (IH (drop 4 bs)) as (ws & Hn & Hu & Hd); [rewrite length_drop; lia|done|].
  exists (from_le_bytes (take 4 bs) :: ws). split_and!.
  - simpl. lia.
  - constructor; [by apply from_le_is_u32|done].
  - change (le_words (from_le_bytes (take 4 bs) :: ws)) with (to_le_bytes (from_le_bytes (take 4 bs)) ++ le_words ws).
    rewrite to_from_le, <- Hd, take_drop; [done| |done]. rewrite length_take. lia.
Qed.

Lemma read_word ws rest k w : ws !! k = Some w -> Forall is_u32 ws -> read_u32 (le_words ws ++ rest) (k * 4) = Ok w.
Proof.
  intros Hk Hu. pose proof (Forall_lookup_1 _ _ _ _ Hu Hk) as Hw. apply list_elem_of_split_length in Hk as (l1 & l2 & -> & ->).
  rewrite le_words_app. change (le_words (w :: l2)) with (to_le_bytes w ++ le_words l2). rewrite <- !app_assoc.
  unfold read_u32. rewrite <- (length_le_words l1), <- (length_to_le w), slice_app. cbn [ok_or]. by rewrite from_to_le.
Qed.

Lemma for_range_Ok {A B} (f : nat -> kresult A) (g : B -> kresult A) (l : list B) i out :
  (forall j x, l !! j = Some x -> f (i + j)%nat = g x) ->
  for_range f i (length l) = Ok out <-> Forall2 (fun x a => g x = Ok a) l out.
Proof.
  revert i out. induction l as [|x l IH]; intros i out Hf; simpl.
  { split; [intros; simplify_eq; constructor|]. intros H. by inversion H. }
  pose proof (Hf 0%nat x eq_refl) as H0. rewrite Nat.add_0_r in H0. rewrite H0.
  assert (forall out, for_range f (S i) (length l) = Ok out <-> Forall2 (fun x a => g x = Ok a) l out) as IH'.
  { intros. apply IH. intros j y Hj. rewrite <- (Hf (S j) y Hj). f_equal. lia. }
  split.
  - destruct (g x) as [a|] eqn:Eg; [|done]. destruct (for_range _ _ _) as [out'|] eqn:Er; [|done]. intros; simplify_eq.
    constructor; [done|]. by apply IH'.
  - intros H. inversion H as [|? a ? out' Ha Hl]; subst. rewrite Ha. apply IH' in Hl. by rewrite Hl.
Qed.

Lemma for_range_EINVAL {A} (f : nat -> kresult A) i k :
  (forall j e, f j = Err e -> e = EINVAL) -> forall e, for_range f i k = Err e -> e = EINVAL.
Proof.
  intros Hf. revert i. induction k as [|k IH]; simpl; intros i e; [done|].
  destruct (f i) eqn:E; [|intros; simplify_eq; eauto]. destruct (for_range _ _ _) eqn:Er; [done|]. intros; simplify_eq. eauto.
Qed.

Lemma read_table_words ws : Forall is_u32 ws -> read_table (le_words ws) (length ws) = Ok ws.
Proof.
  intros Hu. unfold read_table. apply (for_range_Ok _ (fun w => Ok w)).
  - intros j w Hj. simpl. rewrite <- (app_nil_r (le_words ws)). by apply read_word.
  - clear. induction ws; by constructor.
Qed.

(** *** Strings *)

Lemma to_nul_spec tail s : to_nul tail = s <-> exists post, tail = s ++ post /\ 0 ∉ s /\ (post = [] \/ exists q, post = 0 :: q).
Proof.
  unfold to_nul. pose proof (position_spec (fun b => b =? 0) tail) as Hp. destruct (position _ tail) as [e|].
  - destruct Hp as (l1 & z & l2 & -> & Hz%Z.eqb_eq & Hl1 & ->). subst z. rewrite take_app_length.
    assert (0 ∉ l1) as Hn by (intros Hin; rewrite Forall_forall in Hl1; by specialize (Hl1 0 Hin)). split.
    + intros <-. exists (0 :: l2). split_and!; [done|done|]. right. by exists l2.
    + intros (post & Heq & Hs & [->|[q ->]]).
      * rewrite app_nil_r in Heq. subst s. destruct Hs. set_solver.
      * assert (length l1 = length s) as Hlen.
        { destruct (Nat.lt_trichotomy (length l1) (length s)) as [Hlt|[|Hlt]]; [exfalso|done|exfalso].
          - apply Hs. apply list_elem_of_lookup. exists (length l1). rewrite <- (lookup_app_l s (0 :: q)), <- Heq by done.
            by apply list_lookup_middle.
          - apply Hn. apply list_elem_of_lookup. exists (length s). rewrite <- (lookup_app_l l1 (0 :: l2)), Heq by done.
            by apply list_lookup_middle. }
        by apply app_inj_1 in Heq as [? _].
  - assert (0 ∉ tail) as Hn by (intros Hin; rewrite Forall_forall in Hp; by specialize (Hp 0 Hin)). split.
    + intros <-. exists []. rewrite app_nil_r. by split_and!; [|done|left].
    + intros (post & -> & Hs & [->|[q ->]]); [by rewrite app_nil_r|]. destruct Hn. set_solver.
Qed.

Lemma c_string_iff strings off s :
  c_string strings off s <-> (Z.to_nat off <= length strings)%nat /\ to_nul (drop (Z.to_nat off) strings) = s.
Proof.
  rewrite to_nul_spec. split.
  - intros (pre & post & -> & <- & Hn & Hp). rewrite drop_app_length, length_app. split; [lia|]. by exists post.
  - intros (Hl & post & Hd & Hn & Hp). exists (take (Z.to_nat off) strings), post. rewrite <- Hd, take_drop, length_take.
    split_and!; [done|lia|done|done].
Qed.

Lemma decode_strings_Ok offs strings out :
  decode_strings_by_offset offs strings = Ok out <-> Forall2 (c_string strings) offs out.
Proof.
  revert out. induction offs as [|off offs IH]; intros out; simpl.
  { split; [intros; simplify_eq; constructor|]. intros H. by inversion H. }
  destruct (Nat.ltb_spec (length strings) (Z.to_nat off)) as [Hbad|Hok].
  - split; [done|]. intros H. inversion H as [|? s ? ? Hs]; subst. apply c_string_iff in Hs as [? _]. lia.
  - split.
    + destruct (decode_strings_by_offset offs strings) as [l|]; [|done]. intros; simplify_eq. constructor; [by apply c_string_iff|].
      by apply IH.
    + intros H. inversion H as [|? s ? l Hs Hl]; subst. apply c_string_iff in Hs as [_ <-]. apply IH in Hl. by rewrite Hl.
Qed.

Lemma decode_strings_EINVAL offs strings e : decode_strings_by_offset offs strings = Err e -> e = EINVAL.
Proof.
  revert e. induction offs as [|off offs IH]; simpl; intros e; [done|]. case_bool_step; [intros; by simplify_eq|].
  destruct (decode_strings_by_offset _ _); [done|]. intros; simplify_eq. eauto.
Qed.

Lemma trim_nul_spec raw path : trim_nul raw = path <-> raw = path ++ [0] \/ raw = path /\ last path <> Some 0.
Proof.
  unfold trim_nul. case_bool_decide as Hl.
  - apply last_Some in Hl as [l ->]. rewrite length_app. simpl.
    replace (length l + 1 - 1)%nat with (length l) by lia. rewrite take_app_length. split; [by intros ->; left|].
    intros [H%app_inj_tail|[<- Hn]]; [naive_solver|]. by rewrite last_snoc in Hn.
  - split; [intros <-; by right|]. intros [->|[-> _]]; [|done]. by rewrite last_snoc in Hl.
Qed.

Lemma read_string_Ok strings off len path : read_string strings off len = Ok path <-> path_at strings off len path.
Proof.
  unfold read_string, path_at, slice. split.
  - destruct (_ && _)%nat eqn:Eb; [|done]. cbn [ok_or]. intros [= Ht]. apply trim_nul_spec in Ht.
    apply andb_true_iff in Eb as [H1%Nat.leb_le H2%Nat.leb_le].
    set (o := Z.to_nat off) in *. set (n := Z.to_nat len) in *. replace (o + n - o)%nat with n in Ht by lia.
    exists (take o strings), (take n (drop o strings)), (drop n (drop o strings)).
    rewrite !take_drop, !length_take, length_drop. split_and!; [done|lia|lia|done].
  - intros (pre & raw & post & -> & Ho & Hn & Hp). rewrite <- Ho, <- Hn. pose proof (slice_app pre raw post) as Hs. unfold slice in Hs.
    rewrite Hs. cbn [ok_or]. f_equal. by apply trim_nul_spec.
Qed.

Lemma read_string_EINVAL strings off len e : read_string strings off len = Err e -> e = EINVAL.
Proof. unfold read_string. destruct (slice _ _ _); simpl; intros; by simplify_eq. Qed.

(** *** Action records *)

(** The action a record stands for. *)
Definition action_of (strings : bytes) (r : action_rec) : kresult FileAction :=
  if ar_op r =? FDOP_OPEN then
    let? path := read_string strings (ar_path_off r) (ar_path_len r) in
    Ok (FOpen (as_i32 (ar_fd r)) path (as_i32 (ar_oflag r)) (ar_mode r))
  else if ar_op r =? FDOP_CLOSE then Ok (FClose (as_i32 (ar_fd r)))
  else if ar_op r =? FDOP_DUP2 then Ok (FDup2 (as_i32 (ar_fd r)) (as_i32 (ar_newfd r)))
  else if ar_op r =? FDOP_CHDIR then
    let? path := read_string strings (ar_path_off r) (ar_path_len r) in
    Ok (FChdir path)
  else if ar_op r =? FDOP_FCHDIR then Ok (FFchdir (as_i32 (ar_fd r)))
  else Err EINVAL.

Lemma action_of_Ok strings r a : action_of strings r = Ok a <-> action_wire strings r a.
Proof.
  unfold action_of, action_wire. pose proof (read_string_Ok strings (ar_path_off r) (ar_path_len r)) as Hp.
  destruct (Z.eqb_spec (ar_op r) FDOP_OPEN) as [->|]; [|destruct (Z.eqb_spec (ar_op r) FDOP_CLOSE) as [->|];
    [|destruct (Z.eqb_spec (ar_op r) FDOP_DUP2) as [->|]; [|destruct (Z.eqb_spec (ar_op r) FDOP_CHDIR) as [->|];
    [|destruct (Z.eqb_spec (ar_op r) FDOP_FCHDIR) as [->|]]]]]; try (destruct a; split; intros; by destruct_and?; simplify_eq).
  - destruct (read_string _ _ _) as [path|]; destruct a; split; intros; destruct_and?; simplify_eq; try done.
    + split_and!; try done. by apply Hp.
    + match goal with H : path_at _ _ _ _ |- _ => apply Hp in H end. by simplify_eq.
    + match goal with H : path_at _ _ _ _ |- _ => apply Hp in H end. by simplify_eq.
  - destruct (read_string _ _ _) as [path|]; destruct a; split; intros; destruct_and?; simplify_eq; try done.
    + split_and!; try done. by apply Hp.
    + match goal with H : path_at _ _ _ _ |- _ => apply Hp in H end. by simplify_eq.
    + match goal with H : path_at _ _ _ _ |- _ => apply Hp in H end. by simplify_eq.
Qed.

Lemma action_of_EINVAL strings r e : action_of strings r = Err e -> e = EINVAL.
Proof.
  unfold action_of. repeat case_bool_step; try (intros; by simplify_eq);
    destruct (read_string _ _ _) eqn:E; try done; intros; simplify_eq; by eapply read_string_EINVAL.
Qed.

Lemma concat_rec_lookup recs i r j w :
  recs !! i = Some r -> rec_words r !! j = Some w -> concat (rec_words <$> recs) !! (i * 7 + j)%nat = Some w.
Proof.
  intros Hi Hj. apply lookup_lt_Some in Hj as Hlt. change (length (rec_words r)) with 7%nat in Hlt.
  revert i Hi. induction recs as [|r' recs IH]; intros [|i] Hi; try done; rewrite fmap_cons; cbn [concat].
  - simplify_eq/=. do 7 (destruct j as [|j]; [done|]). lia.
  - rewrite lookup_app_r by (change (length (rec_words r')) with 7%nat; lia).
    replace (S i * 7 + j - length (rec_words r'))%nat with (i * 7 + j)%nat by (change (length (rec_words r')) with 7%nat; lia).
    by apply IH.
Qed.

Lemma concat_recs_u32 recs : Forall (fun r => Forall is_u32 (rec_words r)) recs <-> Forall is_u32 (concat (rec_words <$> recs)).
Proof. induction recs as [|r recs IH]; [by split|]. rewrite fmap_cons, Forall_cons. cbn [concat]. by rewrite Forall_app, IH. Qed.

Lemma length_concat_recs recs : length (concat (rec_words <$> recs)) = (length recs * 7)%nat.
Proof. induction recs as [|r recs IH]; [done|]. rewrite fmap_cons. cbn [concat]. rewrite length_app, IH. simpl. lia. Qed.

Lemma recs_of (ws : list Z) n : length ws = (n * 7)%nat -> exists recs, length recs = n /\ ws = concat (rec_words <$> recs).
Proof.
  revert ws. induction n as [|n IH]; intros ws Hl; [exists []; by destruct ws|].
  destruct ws as [|w0 [|w1 [|w2 [|w3 [|w4 [|w5 [|w6 ws]]]]]]]; try (simpl in Hl; lia).
  destruct (IH ws) as (recs & Hn & ->); [simpl in Hl; lia|]. exists (mkRec w0 w1 w2 w3 w4 w5 w6 :: recs). split; [simpl; lia|done].
Qed.

(** Field [j] of record [i] is word [7i + j]. *)
Lemma read_field recs i r j w off :
  Forall (fun r => Forall is_u32 (rec_words r)) recs -> recs !! i = Some r -> rec_words r !! j = Some w ->
  off = ((i * 7 + j) * 4)%nat -> read_u32 (le_words (concat (rec_words <$> recs))) off = Ok w.
Proof.
  intros Hu Hi Hj ->. rewrite <- (app_nil_r (le_words _)). apply read_word; [by eapply concat_rec_lookup|by apply concat_recs_u32].
Qed.

Lemma decode_action_rec recs strings i r :
  Forall (fun r => Forall is_u32 (rec_words r)) recs -> recs !! i = Some r ->
  decode_action (le_words (concat (rec_words <$> recs))) strings i = action_of strings r.
Proof.
  intros Hu Hi. unfold decode_action, read_i32, ACTION_RECORD_LEN.
  rewrite (read_field recs i r 0 (ar_op r)), (read_field recs i r 1 (ar_fd r)), (read_field recs i r 2 (ar_newfd r)),
    (read_field recs i r 3 (ar_path_off r)), (read_field recs i r 4 (ar_path_len r)), (read_field recs i r 5 (ar_oflag r)),
    (read_field recs i r 6 (ar_mode r)) by (try done; lia).
  done.
Qed.

Lemma decode_actions_Ok recs strings out :
  Forall (fun r => Forall is_u32 (rec_words r)) recs ->
  for_range (decode_action (le_words (concat (rec_words <$> recs))) strings) 0 (length recs) = Ok out <->
  Forall2 (action_wire strings) recs out.
Proof.
  intros Hu. rewrite (for_range_Ok _ (action_of strings)).
  - split; intros Hf; (eapply Forall2_impl; [exact Hf|]); intros r a; apply action_of_Ok.
  - intros j r Hj. by apply decode_action_rec.
Qed.

(** *** The layout of a request *)

Definition layout (h ao eo : list Z) (recs : list action_rec) (strings : bytes) : bytes :=
  le_words (h ++ ao ++ eo ++ concat (rec_words <$> recs)) ++ strings.

Lemma layout_slices h ao eo recs strings :
  length h = 10%nat ->
  let b := layout h ao eo recs strings in
  let e1 := (40 + length ao * 4)%nat in
  let e2 := (e1 + length eo * 4)%nat in
  let e3 := (e2 + length recs * 28)%nat in
  slice 40 e1 b = Some (le_words ao) /\ slice e1 e2 b = Some (le_words eo) /\
  slice e2 e3 b = Some (le_words (concat (rec_words <$> recs))) /\ slice e3 (length b) b = Some strings.
Proof.
  intros Hh b e1 e2 e3. subst b. unfold layout. rewrite !le_words_app, <- !app_assoc.
  set (H := le_words h). set (A := le_words ao). set (E := le_words eo). set (R := le_words (concat _)).
  assert (length H = 40 /\ length A = length ao * 4 /\ length E = length eo * 4 /\ length R = length recs * 28)%nat as (HH & HA & HE & HR).
  { subst H A E R. rewrite !length_le_words, length_concat_recs. split_and!; lia. }
  split_and!.
  - replace e1 with (length H + length A)%nat by lia. rewrite <- HH. apply slice_app.
  - replace e1 with (length (H ++ A)) by (rewrite length_app; lia).
    replace e2 with (length (H ++ A) + length E)%nat by (rewrite length_app; lia). rewrite (app_assoc H A). apply slice_app.
  - replace e2 with (length ((H ++ A) ++ E)) by (rewrite !length_app; lia).
    replace e3 with (length ((H ++ A) ++ E) + length R)%nat by (rewrite !length_app; lia).
    rewrite (app_assoc H A), (app_assoc _ E). apply slice_app.
  - replace e3 with (length (((H ++ A) ++ E) ++ R)) by (rewrite !length_app; lia).
    rewrite (app_assoc H A), (app_assoc _ E), (app_assoc _ R).
    pose proof (slice_app (((H ++ A) ++ E) ++ R) strings []) as Hs. rewrite app_nil_r in Hs.
    rewrite (length_app (((H ++ A) ++ E) ++ R) strings). exact Hs.
Qed.

Lemma read_u64_words b off w w' :
  read_u32 b off = Ok w -> read_u32 b (off + 4) = Ok w' -> read_u64 b off = Ok (w + 2 ^ 32 * w').
Proof.
  unfold read_u32, read_u64, slice. intros H1 H2.
  destruct ((off <=? off + 4) && _)%nat eqn:E1; [|done]. destruct ((off + 4 <=? off + 4 + 4) && _)%nat eqn:E2; [|done].
  apply andb_true_iff in E2 as [_ E2%Nat.leb_le]. rewrite (proj2 (Nat.leb_le off (off + 8))), (proj2 (Nat.leb_le (off + 8) _)) by lia.
  cbn [ok_or andb] in *. simplify_eq. f_equal. unfold from_le_bytes64. replace (off + 8 - off)%nat with 8%nat by lia.
  replace (off + 4 + 4 - (off + 4))%nat with 4%nat by lia. replace (off + 4 - off)%nat with 4%nat by lia.
  rewrite take_take, <- (drop_drop b 4 off), (take_drop_commute (drop off b) 4 4). done.
Qed.

(** What the parser does with a header of ten words and the tables it counts. *)
Lemma parse_layout h0 h1 h2 fl pg pad d0 d1 m0 m1 ao eo recs strings :
  let h := [h0; h1; h2; fl; pg; pad; d0; d1; m0; m1] in
  Forall is_u32 h -> Forall is_u32 ao -> Forall is_u32 eo -> Forall (fun r => Forall is_u32 (rec_words r)) recs ->
  h0 = Z.of_nat (length ao) -> h1 = Z.of_nat (length eo) -> h2 = Z.of_nat (length recs) ->
  parse_blob (layout h ao eo recs strings) =
  if (MAX_ARGV <? h0) || (MAX_ENVP <? h1) || (MAX_ACTIONS <? h2) then Err EINVAL
  else
    let? argv := decode_strings_by_offset ao strings in
    let? envp := decode_strings_by_offset eo strings in
    let? fas := for_range (decode_action (le_words (concat (rec_words <$> recs))) strings) 0 (length recs) in
    Ok (mkBlob argv envp fas (mkAttrs fl (as_i32 pg) (d0 + 2 ^ 32 * d1) (m0 + 2 ^ 32 * m1))).
Proof.
  intros h Hh Ha He Hr H0 H1 H2. unfold parse_blob. set (b := layout _ _ _ _ _).
  assert (length b = 40 + (length ao * 4 + length eo * 4 + length recs * 28) + length strings)%nat as Hlen.
  { subst b. unfold layout. rewrite length_app, length_le_words, !length_app, length_concat_recs. simpl. lia. }
  assert (forall k off w, h !! k = Some w -> off = (k * 4)%nat -> read_u32 b off = Ok w) as Hrd.
  { intros k off w Hk ->. subst b. unfold layout. apply read_word.
    - apply lookup_app_l_Some. done.
    - rewrite !Forall_app. split_and!; [done..|]. by apply concat_recs_u32. }
  assert (forall k off w w', h !! k = Some w -> h !! S k = Some w' -> off = (k * 4)%nat -> read_u64 b off = Ok (w + 2 ^ 32 * w')) as Hrd64.
  { intros k off w w' Hk Hk' ->. apply read_u64_words; [by eapply Hrd|]. eapply Hrd; [exact Hk'|]. lia. }
  rewrite (proj2 (Nat.ltb_ge _ _)) by (unfold HEADER_LEN; lia). unfold read_i32.
  rewrite (Hrd 0 0 h0 eq_refl eq_refl)%nat, (Hrd 1 4 h1 eq_refl eq_refl)%nat, (Hrd 2 8 h2 eq_refl eq_refl)%nat,
    (Hrd 3 12 fl eq_refl eq_refl)%nat, (Hrd 4 16 pg eq_refl eq_refl)%nat.
  rewrite (Hrd64 6 24 d0 d1 eq_refl eq_refl eq_refl)%nat, (Hrd64 8 32 m0 m1 eq_refl eq_refl eq_refl)%nat. case_bool_step; [done|].
  destruct (layout_slices h ao eo recs strings eq_refl) as (S1 & S2 & S3 & S4). fold b in S1, S2, S3, S4.
  unfold HEADER_LEN, ACTION_RECORD_LEN. rewrite H0, H1, H2, !Nat2Z.id, S1. cbn [ok_or].
  rewrite (read_table_words ao), S2 by done. cbn [ok_or]. rewrite (read_table_words eo), S3 by done. cbn [ok_or].
  rewrite S4. done.
Qed.

Lemma slice_Some_le lo hi (b s : bytes) : slice lo hi b = Some s -> (lo <= hi <= length b)%nat.
Proof. unfold slice. destruct (_ && _)%nat eqn:E; [|done]. apply andb_true_iff in E as [?%Nat.leb_le ?%Nat.leb_le]. lia. Qed.

(** The counts of an accepted request fit its bytes. *)
Lemma parse_counts b argc envc n p :
  parse_blob b = Ok p -> read_u32 b 0 = Ok argc -> read_u32 b 4 = Ok envc -> read_u32 b 8 = Ok n ->
  (40 + Z.to_nat argc * 4 + Z.to_nat envc * 4 + Z.to_nat n * 28 <= length b)%nat.
Proof.
  unfold parse_blob. intros E H0 H1 H2. rewrite H0, H1, H2 in E. destruct (length b <? HEADER_LEN)%nat; [done|].
  destruct (read_u32 b 12); [|done]. destruct (read_i32 b 16); [|done]. destruct (read_u64 b 24); [|done].
  destruct (read_u64 b 32); [|done]. destruct (_ || _); [done|]. cbv zeta in E.
  destruct (slice HEADER_LEN _ b); [|done]. cbn [ok_or] in E. destruct (read_table _ _); [|done].
  destruct (slice _ _ b); [|done]. cbn [ok_or] in E. destruct (read_table _ _); [|done].
  destruct (slice _ _ b); [|done]. cbn [ok_or] in E.
  destruct (slice _ (length b) b) eqn:E4; [|done]. apply slice_Some_le in E4. unfold HEADER_LEN, ACTION_RECORD_LEN in E4. lia.
Qed.

Lemma split_words (b : bytes) n :
  (n * 4 <= length b)%nat -> Forall is_byte b -> exists ws rest, b = le_words ws ++ rest /\ length ws = n /\ Forall is_u32 ws /\ Forall is_byte rest.
Proof.
  intros Hl Hb. rewrite <- (take_drop (n * 4) b) in Hb. apply Forall_app in Hb as [H1 H2].
  destruct (words_of (take (n * 4) b) n) as (ws & Hn & Hu & Hw); [rewrite length_take; lia|done|].
  exists ws, (drop (n * 4) b). by rewrite <- Hw, take_drop.
Qed.

Lemma accepted_layout b p :
  Forall is_byte b -> parse_blob b = Ok p ->
  exists h0 h1 h2 fl pg pad d0 d1 m0 m1 ao eo recs strings,
    let h := [h0; h1; h2; fl; pg; pad; d0; d1; m0; m1] in
    b = layout h ao eo recs strings /\ Forall is_u32 h /\ Forall is_u32 ao /\ Forall is_u32 eo /\
    Forall (fun r => Forall is_u32 (rec_words r)) recs /\
    h0 = Z.of_nat (length ao) /\ h1 = Z.of_nat (length eo) /\ h2 = Z.of_nat (length recs).
Proof.
  intros Hb E. assert (10 * 4 <= length b)%nat as H40.
  { unfold parse_blob, HEADER_LEN in E. destruct (Nat.ltb_spec (length b) 40); [done|lia]. }
  destruct (split_words b 10 H40 Hb) as (h & rest & -> & Hh & Hu & Hr).
  destruct h as [|h0 [|h1 [|h2 [|fl [|pg [|pad [|d0 [|d1 [|m0 [|m1 [|]]]]]]]]]]]; try done.
  set (h := [h0; h1; h2; fl; pg; pad; d0; d1; m0; m1]) in *.
  pose proof (parse_counts _ h0 h1 h2 _ E (read_word h _ 0 h0 eq_refl Hu) (read_word h _ 1 h1 eq_refl Hu) (read_word h _ 2 h2 eq_refl Hu)) as Hc.
  rewrite length_app, length_le_words, Hh in Hc.
  destruct (split_words rest (Z.to_nat h0)) as (ao & r1 & -> & Ha & Hua & Hr1); [lia|done|]. rewrite length_app, length_le_words in Hc.
  destruct (split_words r1 (Z.to_nat h1)) as (eo & r2 & -> & He & Hue & Hr2); [lia|done|]. rewrite length_app, length_le_words in Hc.
  destruct (split_words r2 (Z.to_nat h2 * 7)) as (rw & strings & -> & Hrw & Hur & _); [lia|done|].
  destruct (recs_of rw _ Hrw) as (recs & Hn & ->).
  apply Forall_cons in Hu as Hu'. destruct Hu' as [Hu0 Hu']. apply Forall_cons in Hu' as [Hu1 Hu']. apply Forall_cons in Hu' as [Hu2 _].
  exists h0, h1, h2, fl, pg, pad, d0, d1, m0, m1, ao, eo, recs, strings. unfold is_u32 in Hu0, Hu1, Hu2.
  split_and!; try done; [|by apply concat_recs_u32|lia..]. unfold layout. by rewrite !le_words_app, <- !app_assoc.
Qed.

Lemma u64_words v : 0 <= v < 2 ^ 64 -> is_u32 (v mod 2 ^ 32) /\ is_u32 (v / 2 ^ 32) /\ v mod 2 ^ 32 + 2 ^ 32 * (v / 2 ^ 32) = v.
Proof.
  intros Hv. pose proof (Z.mod_pos_bound v (2 ^ 32) ltac:(lia)). pose proof (Z.div_mod v (2 ^ 32) ltac:(lia)).
  assert (v / 2 ^ 32 < 2 ^ 32) by (apply Z.div_lt_upper_bound; lia). pose proof (Z.div_pos v (2 ^ 32) ltac:(lia) ltac:(lia)).
  unfold is_u32, u32_max. lia.
Qed.

Lemma as_u32_i32 v : is_u32 v -> as_u32 (as_i32 v) = v /\ - 2 ^ 31 <= as_i32 v < 2 ^ 31.
Proof.
  unfold is_u32, u32_max, as_u32, as_i32. intros Hv. pose proof (Z.mod_pos_bound (v + 2 ^ 31) (2 ^ 32) ltac:(lia)).
  split; [|lia]. rewrite Zminus_mod_idemp_l. rewrite Z.mod_small; lia.
Qed.

Lemma as_u32_is_u32 v : is_u32 (as_u32 v).
Proof. unfold is_u32, u32_max, as_u32. pose proof (Z.mod_pos_bound v (2 ^ 32) ltac:(lia)). lia. Qed.

Lemma caps_ok a e n :
  a <= MAX_ARGV -> e <= MAX_ENVP -> n <= MAX_ACTIONS -> (MAX_ARGV <? a) || (MAX_ENVP <? e) || (MAX_ACTIONS <? n) = false.
Proof. intros. rewrite !orb_false_iff, !Z.ltb_ge. done. Qed.

Lemma wire_accepted b p : wire b p -> parse_blob b = Ok p.
Proof.
  intros (pad & ao & eo & recs & strings & -> & Ha & He & Hn & Hfl & Hpg & Hpad & Hsd & Hsm & Hua & Hue & Hur & Hav & Hev & Hac).
  destruct (u64_words _ Hsd) as (Hd0 & Hd1 & Hd). destruct (u64_words _ Hsm) as (Hm0 & Hm1 & Hm).
  unfold header_words. fold (layout [Z.of_nat (length ao); Z.of_nat (length eo); Z.of_nat (length recs); at_flags (pb_attrs p);
    as_u32 (at_pgrp (pb_attrs p)); pad; at_sigdef (pb_attrs p) mod 2 ^ 32; at_sigdef (pb_attrs p) / 2 ^ 32;
    at_sigmask (pb_attrs p) mod 2 ^ 32; at_sigmask (pb_attrs p) / 2 ^ 32] ao eo recs strings).
  unfold MAX_ARGV, MAX_ENVP, MAX_ACTIONS in Ha, He, Hn.
  rewrite parse_layout, caps_ok; try done.
  - apply decode_strings_Ok in Hav. apply decode_strings_Ok in Hev. apply decode_actions_Ok in Hac; [|done].
    rewrite Hav, Hev, Hac, Hd, Hm, as_i32_u32 by done. by destruct p as [? ? ? []].
  - unfold is_u32, u32_max in *. repeat (apply Forall_cons; split); try done; try lia. apply as_u32_is_u32.
Qed.

Lemma accepted_wire b p : Forall is_byte b -> parse_blob b = Ok p -> wire b p.
Proof.
  intros Hb E. destruct (accepted_layout b p Hb E) as (h0 & h1 & h2 & fl & pg & pad & d0 & d1 & m0 & m1 & ao & eo & recs & strings & -> & Hu & Ha & He & Hr & H0 & H1 & H2).
  rewrite parse_layout in E by done. destruct (_ || _ || _) eqn:Ecap; [done|]. rewrite !orb_false_iff, !Z.ltb_ge in Ecap.
  destruct Ecap as [[Hc0 Hc1] Hc2].
  destruct (decode_strings_by_offset ao strings) as [argv|] eqn:Eav; [|done]. destruct (decode_strings_by_offset eo strings) as [envp|] eqn:Eev; [|done].
  destruct (for_range _ _ _) as [fas|] eqn:Efa; [|done]. simplify_eq.
  apply decode_strings_Ok in Eav. apply decode_strings_Ok in Eev. apply decode_actions_Ok in Efa; [|done].
  repeat match goal with Hu : Forall is_u32 (_ :: _) |- _ => apply Forall_cons in Hu as [? Hu] end.
  destruct (as_u32_i32 pg) as [Hpg Hpr]; [done|].
  assert (forall x y, is_u32 x -> is_u32 y -> (x + 2 ^ 32 * y) mod 2 ^ 32 = x /\ (x + 2 ^ 32 * y) / 2 ^ 32 = y /\ 0 <= x + 2 ^ 32 * y < 2 ^ 64) as Hw.
  { unfold is_u32, u32_max. intros x y Hx Hy. rewrite (Z.add_comm x), (Z.mul_comm (2 ^ 32)).
    rewrite Z.div_add_l, Z.div_small, Z.add_0_r, Z.add_comm, Z_mod_plus_full, Z.mod_small by lia. split_and!; lia. }
  destruct (Hw d0 d1) as (Hd0 & Hd1 & Hd); [done..|]. destruct (Hw m0 m1) as (Hm0 & Hm1 & Hm); [done..|].
  exists pad, ao, eo, recs, strings. cbn [pb_attrs at_flags at_pgrp at_sigdef at_sigmask pb_argv pb_envp pb_file_actions].
  split_and!; try done; try lia. unfold header_words. by rewrite Hpg, Hd0, Hd1, Hm0, Hm1.
Qed.

Lemma read_u32_EINVAL b off e : read_u32 b off = Err e -> e = EINVAL.
Proof. unfold read_u32. destruct (slice _ _ _); simpl; intros; by simplify_eq. Qed.

Lemma read_i32_EINVAL b off e : read_i32 b off = Err e -> e = EINVAL.
Proof. unfold read_i32. destruct (read_u32 b off) eqn:E; [done|]. intros; simplify_eq. by eapply read_u32_EINVAL. Qed.

Lemma read_u64_EINVAL b off e : read_u64 b off = Err e -> e = EINVAL.
Proof. unfold read_u64. destruct (slice _ _ _); simpl; intros; by simplify_eq. Qed.

Lemma decode_action_EINVAL ab strings i e : decode_action ab strings i = Err e -> e = EINVAL.
Proof.
  unfold decode_action.
  repeat (case_match; simplify_eq/=; try done; try (intros; simplify_eq; by eauto using read_u32_EINVAL, read_i32_EINVAL, read_string_EINVAL)).
Qed.

Lemma parse_EINVAL b e : parse_blob b = Err e -> e = EINVAL.
Proof.
  unfold parse_blob, read_table. intros E.
  assert (forall lo hi e', ok_or (slice lo hi b) EINVAL = Err e' -> e' = EINVAL) as Hs by (intros ??? H; destruct (slice _ _ b); simpl in H; by simplify_eq).
  assert (forall t n e', for_range (fun i => read_u32 t (i * 4)) 0 n = Err e' -> e' = EINVAL) as Ht
    by (intros t n e'; apply for_range_EINVAL; eauto using read_u32_EINVAL).
  repeat (case_match; simplify_eq; try done; eauto 2 using read_u32_EINVAL, read_i32_EINVAL, read_u64_EINVAL, decode_strings_EINVAL).
  eapply for_range_EINVAL; [|done]. eauto using decode_action_EINVAL.
Qed.

(** for any bytes a process hands over, the parser returns a request exactly
    when they are that request in the wire format (a header whose counts are
    within the caps, two offset tables, the action records and the strings
    they point into, all inside the buffer), and EINVAL in every other case. *)
Theorem parse_blob_exact b :
  Forall is_byte b ->
  (forall p, parse_blob b = Ok p <-> wire b p) /\ (forall e, parse_blob b = Err e -> e = EINVAL) /\
  ((exists p, wire b p) \/ parse_blob b = Err EINVAL).
Proof.
  intros Hb. assert (forall p, parse_blob b = Ok p <-> wire b p) as Hw by (split; [by apply accepted_wire|apply wire_accepted]).
  split_and!; [done|apply parse_EINVAL|]. destruct (parse_blob b) as [p|e] eqn:E.
  - left. exists p. by apply Hw.
  - right. by rewrite (parse_EINVAL b e E).
Qed.

(** ** A request laid out by the library decodes to itself *)

(** The strings one after the other, each with its NUL, and their offsets. *)
Definition region (ss : list bytes) : bytes := concat ((fun s => s ++ [0]) <$> ss).

Fixpoint place (off : nat) (ss : list bytes) : list Z :=
  match ss with [] => [] | s :: ss' => Z.of_nat off :: place (off + length s + 1) ss' end.

Definition action_path (a : FileAction) : list bytes :=
  match a with FOpen _ path _ _ | FChdir path => [path] | _ => [] end.

(** The record of an action whose path lies at the offset. *)
Definition rec_of (off : nat) (a : FileAction) : action_rec :=
  let o := Z.of_nat off in
  match a with
  | FOpen fd path oflag mode => mkRec FDOP_OPEN (as_u32 fd) 0 o (Z.of_nat (length path) + 1) (as_u32 oflag) mode
  | FClose fd => mkRec FDOP_CLOSE (as_u32 fd) 0 0 0 0 0
  | FDup2 srcfd fd => mkRec FDOP_DUP2 (as_u32 srcfd) (as_u32 fd) 0 0 0 0
  | FChdir path => mkRec FDOP_CHDIR 0 0 o (Z.of_nat (length path) + 1) 0 0
  | FFchdir fd => mkRec FDOP_FCHDIR (as_u32 fd) 0 0 0 0 0
  end.

Fixpoint place_actions (off : nat) (actions : list FileAction) : list action_rec :=
  match actions with
  | [] => []
  | a :: actions' => rec_of off a :: place_actions (off + length (region (action_path a))) actions'
  end.

Definition encode (p : ParsedBlob) : bytes :=
  let a := pb_attrs p in
  let argv := pb_argv p in
  let envp := pb_envp p in
  let actions := pb_file_actions p in
  let ao := place 0 argv in
  let eo := place (length (region argv)) envp in
  let recs := place_actions (length (region (argv ++ envp))) actions in
  layout (header_words (Z.of_nat (length ao)) (Z.of_nat (length eo)) (Z.of_nat (length recs)) (at_flags a) (at_pgrp a) 0
            (at_sigdef a) (at_sigmask a)) ao eo recs
    (region (argv ++ envp ++ concat (action_path <$> actions))).

(** Fields in the range of their types, strings without NUL, counts within the
    caps and strings that fit 32-bit offsets. *)
Definition action_ok (a : FileAction) : Prop :=
  match a with
  | FOpen fd _ oflag mode => - 2 ^ 31 <= fd < 2 ^ 31 /\ - 2 ^ 31 <= oflag < 2 ^ 31 /\ is_u32 mode
  | FClose fd | FFchdir fd => - 2 ^ 31 <= fd < 2 ^ 31
  | FDup2 srcfd fd => - 2 ^ 31 <= srcfd < 2 ^ 31 /\ - 2 ^ 31 <= fd < 2 ^ 31
  | FChdir _ => True
  end.

Record request_ok (p : ParsedBlob) : Prop := {
  rq_argv : Forall (fun s => 0 ∉ s) (pb_argv p);
  rq_envp : Forall (fun s => 0 ∉ s) (pb_envp p);
  rq_actions : Forall action_ok (pb_file_actions p);
  rq_counts : Z.of_nat (length (pb_argv p)) <= MAX_ARGV /\ Z.of_nat (length (pb_envp p)) <= MAX_ENVP /\
              Z.of_nat (length (pb_file_actions p)) <= MAX_ACTIONS;
  rq_size : Z.of_nat (length (region (pb_argv p ++ pb_envp p ++ concat (action_path <$> pb_file_actions p)))) <= u32_max;
  rq_flags : is_u32 (at_flags (pb_attrs p));
  rq_pgrp : - 2 ^ 31 <= at_pgrp (pb_attrs p) < 2 ^ 31;
  rq_masks : 0 <= at_sigdef (pb_attrs p) < 2 ^ 64 /\ 0 <= at_sigmask (pb_attrs p) < 2 ^ 64;
}.

Lemma region_app a b : region (a ++ b) = region a ++ region b.
Proof. unfold region. by rewrite fmap_app, concat_app. Qed.

Lemma region_cons s ss : region (s :: ss) = s ++ 0 :: region ss.
Proof. unfold region. rewrite fmap_cons. cbn [concat]. by rewrite <- app_assoc. Qed.

Lemma length_region_cons s ss : length (region (s :: ss)) = (length s + 1 + length (region ss))%nat.
Proof. rewrite region_cons, length_app. simpl. lia. Qed.

Lemma length_place off ss : length (place off ss) = length ss.
Proof. revert off. induction ss as [|s ss IH]; intros off; simpl; [done|]. by rewrite IH. Qed.

Lemma place_c_strings pre ss post :
  Forall (fun s => 0 ∉ s) ss -> Forall2 (c_string (pre ++ region ss ++ post)) (place (length pre) ss) ss.
Proof.
  intros Hn. revert pre. induction Hn as [|s ss Hs Hn IH]; intros pre; cbn [place]; [constructor|].
  rewrite region_cons. constructor.
  - exists pre, (0 :: region ss ++ post). rewrite <- app_assoc. split_and!; [done|lia|done|eauto].
  - specialize (IH (pre ++ s ++ [0])). rewrite !length_app in IH. simpl in IH.
    replace (length pre + length s + 1)%nat with (length pre + (length s + 1))%nat by lia.
    replace (pre ++ (s ++ 0 :: region ss) ++ post) with ((pre ++ s ++ [0]) ++ region ss ++ post); [done|].
    by rewrite <- !app_assoc.
Qed.

Lemma place_u32 off ss : Z.of_nat (off + length (region ss)) <= u32_max -> Forall is_u32 (place off ss).
Proof.
  revert off. induction ss as [|s ss IH]; intros off Hl; cbn [place]; [constructor|]. rewrite length_region_cons in Hl.
  constructor; [unfold is_u32; lia|]. apply IH. lia.
Qed.

Lemma length_place_actions off l : length (place_actions off l) = length l.
Proof. revert off. induction l as [|a l IH]; intros off; simpl; [done|]. by rewrite IH. Qed.

Lemma rec_of_wire pre a post :
  action_ok a -> action_wire (pre ++ region (action_path a) ++ post) (rec_of (length pre) a) a.
Proof.
  assert (forall path, path_at (pre ++ (path ++ 0 :: region []) ++ post) (Z.of_nat (length pre)) (Z.of_nat (length path) + 1) path) as Hp.
  { intros path. exists pre, (path ++ [0]), post. split_and!; [done|lia|rewrite length_app; simpl; lia|by left]. }
  destruct a; cbn [action_ok action_path rec_of action_wire ar_op ar_fd ar_newfd ar_path_off ar_path_len ar_oflag ar_mode];
    rewrite ?region_cons; intros; destruct_and?; rewrite ?as_i32_u32 by lia; auto.
Qed.

Lemma place_actions_wire pre l post :
  Forall action_ok l ->
  Forall2 (action_wire (pre ++ region (concat (action_path <$> l)) ++ post)) (place_actions (length pre) l) l.
Proof.
  intros Hl. revert pre. induction Hl as [|a l Ha Hl IH]; intros pre; cbn [place_actions]; [constructor|].
  rewrite fmap_cons. cbn [concat]. rewrite region_app, <- app_assoc. constructor; [by apply rec_of_wire|].
  specialize (IH (pre ++ region (action_path a))). rewrite length_app, <- app_assoc in IH. exact IH.
Qed.

Lemma place_actions_u32 off l :
  Forall action_ok l -> Z.of_nat (off + length (region (concat (action_path <$> l)))) <= u32_max ->
  Forall (fun r => Forall is_u32 (rec_words r)) (place_actions off l).
Proof.
  intros Hl. revert off. induction Hl as [|a l Ha Hl IH]; intros off Hs; cbn [place_actions]; [constructor|].
  rewrite fmap_cons in Hs. cbn [concat] in Hs. rewrite region_app, length_app in Hs. constructor; [|apply IH; lia].
  assert (is_u32 0) as H0 by (unfold is_u32, u32_max; lia).
  destruct a; cbn [rec_of rec_words ar_op ar_fd ar_newfd ar_path_off ar_path_len ar_oflag ar_mode action_ok action_path] in *;
    rewrite ?length_region_cons in Hs; repeat (apply Forall_cons; split); try apply Forall_nil; try apply as_u32_is_u32; try done;
    unfold is_u32, u32_max, FDOP_OPEN, FDOP_CLOSE, FDOP_DUP2, FDOP_CHDIR, FDOP_FCHDIR in *; try done; cbn [ar_path_off ar_path_len ar_mode]; lia.
Qed.

(** C34: encoding a request (its strings stored one after the other, each with its
    terminator) and parsing the bytes gives the request back: every argument,
    environment string, file action and attribute. *)
Theorem spawn_roundtrip p : request_ok p -> parse_blob (encode p) = Ok p.
Proof.
  intros [Hav Hev Hac (Hca & Hce & Hcn) Hsz Hfl Hpg [Hsd Hsm]]. apply wire_accepted.
  set (argv := pb_argv p) in *. set (envp := pb_envp p) in *. set (acts := pb_file_actions p) in *.
  assert (region (argv ++ envp ++ concat (action_path <$> acts)) = region argv ++ region envp ++ region (concat (action_path <$> acts))) as Hreg
    by by rewrite !region_app.
  rewrite Hreg in Hsz. rewrite !length_app in Hsz.
  exists 0, (place 0 argv), (place (length (region argv)) envp), (place_actions (length (region (argv ++ envp))) acts),
    (region (argv ++ envp ++ concat (action_path <$> acts))).
  cbv zeta. rewrite !length_place, !length_place_actions. rewrite Hreg. split_and!; try done; try (unfold is_u32, u32_max in *; lia).
  - unfold encode, layout. fold argv envp acts. by rewrite !length_place, !length_place_actions, Hreg.
  - apply place_u32. simpl. lia.
  - apply place_u32. lia.
  - apply place_actions_u32; [done|]. rewrite region_app, length_app. lia.
  - exact (place_c_strings [] argv _ Hav).
  - exact (place_c_strings (region argv) envp _ Hev).
  - pose proof (place_actions_wire (region (argv ++ envp)) acts [] Hac) as Hw.
    rewrite app_nil_r, region_app, <- app_assoc in Hw. rewrite region_app. exact Hw.
Qed.

Definition example_request : ParsedBlob :=
  mkBlob [[108; 115]; []] [[65; 61; 49]] [FOpen 1 [47; 111] 577 438; FDup2 1 2; FClose (-1); FChdir [47]] (mkAttrs 2 (-7) 0 (2 ^ 63)).

Lemma parse_blob_exact_witness :
  Forall is_byte (encode example_request) /\ wire (encode example_request) example_request.
Proof.
  assert (Forall is_byte (encode example_request)) as Hb.
  { assert (forallb (fun b => (0 <=? b) && (b <? 256)) (encode example_request) = true) as H by (vm_compute; reflexivity).
    rewrite forallb_forall in H. apply List.Forall_forall. intros x Hx. specialize (H x Hx).
    apply andb_true_iff in H as [H1%Z.leb_le H2%Z.ltb_lt]. split; [exact H1|exact H2]. }
  split; [exact Hb|]. apply (proj1 (parse_blob_exact _ Hb)). vm_compute. reflexivity.
Defined.

Lemma spawn_roundtrip_witness : request_ok example_request /\ parse_blob (encode example_request) = Ok example_request.
Proof.
  assert (request_ok example_request) as Hr.
  { constructor.
    - unfold example_request. cbn [pb_argv]. repeat (apply Forall_cons; split); [set_solver..|apply Forall_nil; exact I].
    - unfold example_request. cbn [pb_envp]. repeat (apply Forall_cons; split); [set_solver..|apply Forall_nil; exact I].
    - unfold example_request. cbn [pb_file_actions]. repeat (apply Forall_cons; split); cbn [action_ok]; try (unfold is_u32, u32_max; lia).
      apply Forall_nil. exact I.
    - vm_compute. split; [|split]; intros H; discriminate H.
    - vm_compute. intros H; discriminate H.
    - vm_compute. split; intros H; discriminate H.
    - cbn [pb_attrs example_request at_pgrp]. lia.
    - cbn [pb_attrs example_request at_sigdef at_sigmask]. lia. }
  split; [exact Hr|]. apply spawn_roundtrip. exact Hr.
Defined.
