(* ===== verification/Names.v ===== *)
(** * Names of FIFOs and Unix sockets ([crates/kernel/src/fifo.rs], [unix_socket.rs])

    [FifoTable] maps canonical paths to slots of the pipe table;
    [UnixSocketRegistry] maps paths to the sockets bound there.  Both are ordered
    maps keyed by byte strings: finite maps, iterated in lexicographic order
    where the order is observable.  Also the functions of [syscalls.rs] that
    change FIFO names: creation, unlink, hard link and rename over the registry
    and [PipeTable]; whether the host's file system accepts its part is an
    argument.

    The theorems: renaming moves exactly the names at and below the old path and
    returns every buffer that lost its name; over any history of creation,
    linking, unlinking, renaming and pipe traffic the name count of every buffer
    is the number of paths registered for it, so a path always leads to a live
    FIFO; a lookup in the socket registry only returns sockets that are still
    open, and finds one as long as an inheritor of the binding is open, provided
    a name that was renamed is not bound again.  The excluded case is evaluated
    at the end. *)

From stdpp Require Import sorting.
From S2P Require Import Prelude Abi Lock Ofd Wakeup Pipe PipeTable.

(** Byte strings in the order of [Vec<u8>]. *)
Fixpoint bytes_leb (a b : bytes) : bool :=
  match a, b with
  | [], _ => true
  | _ :: _, [] => false
  | x :: a', y :: b' => (x <? y) || ((x =? y) && bytes_leb a' b')
  end.

Definition entry_le {A} (a b : bytes * A) : Prop := bytes_leb a.1 b.1 = true.
#[export] Instance entry_le_dec {A} : RelDecision (@entry_le A).
Proof. intros a b. unfold entry_le. apply _. Defined.

(** [map.iter()]. *)
Definition btree_entries {A} (m : gmap bytes A) : list (bytes * A) := merge_sort entry_le (map_to_list m).

Lemma elem_of_btree_entries {A} (m : gmap bytes A) k a : (k, a) ∈ btree_entries m <-> m !! k = Some a.
Proof. unfold btree_entries. rewrite merge_sort_Permutation. apply elem_of_map_to_list. Qed.

Lemma NoDup_btree_entries {A} (m : gmap bytes A) : NoDup (btree_entries m).*1.
Proof. unfold btree_entries. rewrite merge_sort_Permutation. apply NoDup_fst_map_to_list. Qed.

(** ** The FIFO registry *)

Abbreviation FifoTable := (gmap bytes nat).

Definition fifo_new : FifoTable := ∅.

Definition fifo_register (r : FifoTable) (path : bytes) (pipe_idx : nat) : bool * FifoTable :=
  match r !! path with
  | Some _ => (false, r)
  | None => (true, <[path := pipe_idx]> r)
  end.

Definition fifo_lookup (r : FifoTable) (path : bytes) : option nat := r !! path.

Definition path_for_pipe (r : FifoTable) (pipe_idx : nat) : option bytes :=
  fst <$> find_first (fun e => (e.2 =? pipe_idx)%nat) (btree_entries r).

Definition fifo_remove (r : FifoTable) (path : bytes) : option nat * FifoTable := (r !! path, delete path r).

Definition SLASH : Z := 47.

(** [path.starts_with(oldpath)]. *)
Fixpoint starts_with (path prefix : bytes) {struct prefix} : bool :=
  match prefix, path with
  | [], _ => true
  | _ :: _, [] => false
  | x :: prefix', y :: path' => (x =? y) && starts_with path' prefix'
  end.

Definition rebase_path (path oldpath newpath : bytes) : option bytes :=
  let rebase suffix := Some (newpath ++ suffix) in
  if bool_decide (path = oldpath) then rebase []
  else if starts_with path oldpath && bool_decide (path !! length oldpath = Some SLASH)
  then rebase (drop (length oldpath) path)
  else None.

(** The names to move: old name, new name, buffer. *)
Definition moving_names (r : FifoTable) (oldpath newpath : bytes) : list (bytes * bytes * nat) :=
  omap (fun e : bytes * nat => (fun new_name => (e.1, new_name, e.2)) <$> rebase_path e.1 oldpath newpath) (btree_entries r).

(** [for (_, new_name, pipe_idx) in moving]. *)
Fixpoint insert_moved (moving : list (bytes * bytes * nat)) (r : FifoTable) : list nat * FifoTable :=
  match moving with
  | [] => ([], r)
  | (_, new_name, pipe_idx) :: moving' =>
      let '(replaced, r1) := fifo_remove r new_name in
      let '(l, r2) := insert_moved moving' (<[new_name := pipe_idx]> r1) in
      (match replaced with Some i => i :: l | None => l end, r2)
  end.

Definition fifo_rename_path (r : FifoTable) (oldpath newpath : bytes) : list nat * FifoTable :=
  if bool_decide (oldpath = newpath) then ([], r)
  else
    let moving := moving_names r oldpath newpath in
    match moving with
    | [] => let '(removed, r') := fifo_remove r newpath in (match removed with Some i => [i] | None => [] end, r')
    | _ => insert_moved moving (fold_left (fun r m => delete m.1.1 r) moving r)
    end.

(** ** FIFO names over the pipe table *)

Record FifoWorld := mkFifoWorld { names : FifoTable; fifo_pipes : PipeTable }.

(** What a system call does to the host's file system. *)
Inductive HostCall :=
| HostOpen (path : bytes) (flags mode : Z)
| HostChown (path : bytes) (uid gid : Z)
| HostClose (handle : Z)
| HostStat (path : bytes)
| HostUnlink (path : bytes).

Definition S_IFMT : Z := 61440.
Definition S_IFDIR : Z := 16384.
Definition S_IFIFO : Z := 4096.
Definition O_CREAT_EXCL_WRONLY : Z := Z.lor (Z.lor 64 128) O_WRONLY.

(** [st_mode = S_IFIFO | (st_mode & 0o7777); st_size = 0]. *)
Definition as_fifo_stat (s : WasmStat) : WasmStat :=
  mkStat (st_dev s) (st_ino s) (Z.lor S_IFIFO (Z.land (st_mode s) 4095)) (st_nlink s) (st_uid s) (st_gid s) 0 (st_atime_sec s)
    (st_atime_nsec s) (st_mtime_sec s) (st_mtime_nsec s) (st_ctime_sec s) (st_ctime_nsec s) (st_pad s).

(** The end of [make_fifo], when the marker file exists. *)
Definition publish_fifo (w : FifoWorld) (path : bytes) (metadata : WasmStat) : kresult unit * (FifoWorld * list effect) :=
  let '(pipe_idx, pt) := table_alloc (fifo_pipes w) (new_fifo DEFAULT_PIPE_CAPACITY metadata) in
  match fifo_register (names w) path pipe_idx with
  | (true, r) => (Ok (), (mkFifoWorld r pt, []))
  | (false, r) => let '(pt', e) := table_remove_fifo_name pipe_idx pt in (Err EEXIST, (mkFifoWorld r pt', e))
  end.

(** The caller: what [make_fifo] reads of the process. *)
Record FifoCreator := mkFifoCreator { fc_umask : Z; fc_euid : Z; fc_egid : Z }.

(** What is answered to [make_fifo]: whether the path exists, the checks of the
    name space and of the parent directory, and the host's calls. *)
Record MakeAnswers := mkMakeAnswers {
  an_exists : bool; an_mutable : kresult unit; an_parent : kresult unit;
  an_open : kresult Z; an_chown : kresult unit; an_close : kresult unit; an_stat : kresult WasmStat;
}.

Definition make_fifo (w : FifoWorld) (proc : FifoCreator) (path : bytes) (mode : Z) (an : MakeAnswers)
    : kresult unit * (FifoWorld * list effect) * list HostCall :=
  let fail e calls := (Err e, (w, []), calls) in
  if an_exists an then fail EEXIST []
  else
    match an_mutable an, an_parent an with
    | Err e, _ | Ok _, Err e => fail e []
    | Ok _, Ok _ =>
        let opened := [HostOpen path O_CREAT_EXCL_WRONLY (Z.ldiff mode (fc_umask proc))] in
        match an_open an with
        | Err e => fail e opened
        | Ok handle =>
            let owned := opened ++ [HostChown path (fc_euid proc) (fc_egid proc); HostClose handle] in
            match an_chown an with
            | Err e => fail e (owned ++ [HostUnlink path])
            | Ok _ =>
                match an_close an with
                | Err e => fail e (owned ++ [HostUnlink path])
                | Ok _ =>
                    match an_stat an with
                    | Err e => fail e (owned ++ [HostStat path; HostUnlink path])
                    | Ok metadata =>
                        match publish_fifo w path (as_fifo_stat metadata) with
                        | (Ok _, we) => (Ok (), we, owned ++ [HostStat path])
                        | (Err e, we) => (Err e, we, owned ++ [HostStat path; HostUnlink path])
                        end
                    end
                end
            end
        end
    end.

(** [unlink_host_entry], over what the host answers to [unlink] and [stat]. *)
Definition unlink_host_entry (unlinked : kresult unit) (st : kresult WasmStat) : kresult unit :=
  match unlinked with
  | Err EPERM =>
      match st with
      | Ok s => if Z.land (st_mode s) S_IFMT =? S_IFDIR then Err EISDIR else Err EPERM
      | Err _ => Err EPERM
      end
  | other => other
  end.

(** [fifo_path_stat_raw]: the host's metadata with the buffer's link count, kept in
    the buffer. *)
Definition fifo_path_stat_raw (w : FifoWorld) (path : bytes) (st : kresult WasmStat) : kresult (option WasmStat) * FifoWorld :=
  match fifo_lookup (names w) path with
  | None => (Ok None, w)
  | Some pipe_idx =>
      match st with
      | Err e => (Err e, w)
      | Ok s =>
          match table_get (fifo_pipes w) pipe_idx with
          | None => (Err EIO, w)
          | Some p =>
              let s' := set_nlink (fifo_name_count p) (as_fifo_stat s) in
              (Ok (Some s'), mkFifoWorld (names w) (table_update (fifo_pipes w) pipe_idx (pure_op (update_fifo_metadata s'))).1)
          end
      end
  end.

(** [realtime_timestamp]. *)
Definition realtime_timestamp (clock : kresult (Z * Z)) : kresult (Z * Z) :=
  let? t := clock in
  if (0 <=? t.1) && (t.1 <=? u64_max) then if (0 <=? t.2) && (t.2 <=? u32_max) then Ok t else Err EINVAL else Err EINVAL.

(** What the host answers while a FIFO name is removed. *)
Record UnlinkAnswers := mkUnlinkAnswers {
  ua_lstat : kresult WasmStat; ua_clock : kresult (Z * Z); ua_unlink : kresult unit; ua_stat : kresult WasmStat;
}.

Definition unlink_fifo_marker (w : FifoWorld) (path : bytes) (an : UnlinkAnswers)
    : option (kresult unit * (FifoWorld * list effect)) :=
  match fifo_lookup (names w) path with
  | None => None
  | Some pipe_idx =>
      let '(st, w1) := fifo_path_stat_raw w path (ua_lstat an) in
      Some
        (match (let? found := st in
                let? _ := ok_or found EIO in
                let? t := realtime_timestamp (ua_clock an) in
                let? _ := unlink_host_entry (ua_unlink an) (ua_stat an) in
                Ok t) with
         | Err e => (Err e, (w1, []))
         | Ok (ctime_sec, ctime_nsec) =>
             let '(removed, r) := fifo_remove (names w1) path in
             if negb (bool_decide (removed = Some pipe_idx)) then (Err EIO, (mkFifoWorld r (fifo_pipes w1), []))
             else
               let '(pt, e) := table_remove_fifo_name_at pipe_idx ctime_sec ctime_nsec (fifo_pipes w1) in
               (Ok (), (mkFifoWorld r pt, e))
         end)
  end.

(** [refresh_displaced_fifo_before_rename]. *)
Definition refresh_displaced_fifo_before_rename (w : FifoWorld) (oldpath newpath : bytes) (lstat : kresult WasmStat) (clock : kresult (Z * Z))
    : kresult (option (Z * Z)) * FifoWorld :=
  let old_pipe := fifo_lookup (names w) oldpath in
  let new_pipe := fifo_lookup (names w) newpath in
  if bool_decide (is_Some new_pipe) && negb (bool_decide (new_pipe = old_pipe)) then
    let '(st, w1) := fifo_path_stat_raw w newpath lstat in
    (let? found := st in
     let? _ := ok_or found EIO in
     let? t := realtime_timestamp clock in
     Ok (Some t), w1)
  else (Ok None, w).

(** [for pipe_idx in replaced]. *)
Fixpoint drop_replaced (replaced : list nat) (displaced_ctime : option (Z * Z)) (pt : PipeTable) : PipeTable * list effect :=
  match replaced with
  | [] => (pt, [])
  | pipe_idx :: replaced' =>
      let '(pt1, e1) :=
        match displaced_ctime with
        | Some (sec, nsec) => table_remove_fifo_name_at pipe_idx sec nsec pt
        | None => table_remove_fifo_name pipe_idx pt
        end in
      let '(pt2, e2) := drop_replaced replaced' displaced_ctime pt1 in
      (pt2, e1 ++ e2)
  end.

Definition rekey_fifo_names_after_rename (w : FifoWorld) (oldpath newpath : bytes) (displaced_ctime : option (Z * Z))
    : FifoWorld * list effect :=
  let old_pipe := fifo_lookup (names w) oldpath in
  let new_pipe := fifo_lookup (names w) newpath in
  if bool_decide (is_Some old_pipe) && bool_decide (old_pipe = new_pipe) then (w, [])
  else
    let '(replaced, r) := fifo_rename_path (names w) oldpath newpath in
    let '(pt, e) := drop_replaced replaced displaced_ctime (fifo_pipes w) in
    (mkFifoWorld r pt, e).

Definition register_fifo_hardlink (w : FifoWorld) (oldpath newpath : bytes)
    : kresult unit * (FifoWorld * list effect) * list HostCall :=
  match fifo_lookup (names w) oldpath with
  | None => (Ok (), (w, []), [])
  | Some pipe_idx =>
      match fifo_register (names w) newpath pipe_idx with
      | (false, r) => (Err EIO, (mkFifoWorld r (fifo_pipes w), []), [HostUnlink newpath])
      | (true, r) =>
          match table_get (fifo_pipes w) pipe_idx with
          | None => (Err EIO, (mkFifoWorld (fifo_remove r newpath).2 (fifo_pipes w), []), [HostUnlink newpath])
          | Some _ =>
              let '(pt, e) := table_update (fifo_pipes w) pipe_idx (pure_op add_fifo_name) in
              (Ok (), (mkFifoWorld r pt, e), [])
          end
      end
  end.

(** ** The Unix socket registry *)

Record UnixSocketEntry := mkSockEntry { us_pid : Z; us_sock_idx : nat; us_owners : list (Z * nat) }.

Abbreviation UnixSocketRegistry := (gmap bytes UnixSocketEntry).

Definition unix_new : UnixSocketRegistry := ∅.

Definition unix_register (r : UnixSocketRegistry) (path : bytes) (pid : Z) (sock_idx : nat) : bool * UnixSocketRegistry :=
  match r !! path with
  | Some _ => (false, r)
  | None => (true, <[path := mkSockEntry pid sock_idx [(pid, sock_idx)]]> r)
  end.

Definition has_owner (o : Z * nat) (e : UnixSocketEntry) : bool := bool_decide (o ∈ us_owners e).

Definition add_owner (r : UnixSocketRegistry) (path : bytes) (pid : Z) (sock_idx : nat) : bool * UnixSocketRegistry :=
  match r !! path with
  | None => (false, r)
  | Some e =>
      (true,
       if has_owner (pid, sock_idx) e then r
       else <[path := mkSockEntry (us_pid e) (us_sock_idx e) (vec_push (us_owners e) (pid, sock_idx))]> r)
  end.

(** The entry without some owners; [None] when an abstract name lost its last one. *)
Definition is_abstract (path : bytes) : bool := bool_decide (head path = Some 0).

Definition retarget (e : UnixSocketEntry) (owners : list (Z * nat)) (gone : bool) : UnixSocketEntry :=
  match owners with
  | (pid, idx) :: _ => if gone then mkSockEntry pid idx owners else mkSockEntry (us_pid e) (us_sock_idx e) owners
  | [] => mkSockEntry (us_pid e) (us_sock_idx e) []
  end.

Definition owner_path (r : UnixSocketRegistry) (path : bytes) (o : Z * nat) : option bytes :=
  match r !! path with
  | Some _ => Some path
  | None => fst <$> find_first (fun e => has_owner o e.2) (btree_entries r)
  end.

Definition unix_remove_owner (r : UnixSocketRegistry) (path : bytes) (pid : Z) (sock_idx : nat) : bool * UnixSocketRegistry :=
  match owner_path r path (pid, sock_idx) with
  | None => (false, r)
  | Some resolved_path =>
      match r !! resolved_path with
      | None => (false, r)
      | Some e =>
          let owners := List.filter (fun o => negb (bool_decide (o = (pid, sock_idx)))) (us_owners e) in
          let e' := retarget e owners ((us_pid e =? pid) && (us_sock_idx e =? sock_idx)%nat) in
          if (length owners =? length (us_owners e))%nat then (false, <[resolved_path := mkSockEntry (us_pid e) (us_sock_idx e) owners]> r)
          else
            match owners with
            | [] => (true, if is_abstract resolved_path then delete resolved_path r else <[resolved_path := e']> r)
            | _ => (true, <[resolved_path := e']> r)
            end
      end
  end.

Definition unix_rename_path (r : UnixSocketRegistry) (oldpath newpath : bytes) : bool * UnixSocketRegistry :=
  let old_entry := r !! oldpath in
  let r := delete oldpath r in
  let replaced := bool_decide (is_Some (r !! newpath)) in
  let r := delete newpath r in
  match old_entry with
  | Some e => (true, <[newpath := e]> r)
  | None => (replaced, r)
  end.

Definition unix_lookup (r : UnixSocketRegistry) (path : bytes) : option UnixSocketEntry :=
  match r !! path with
  | Some e => match us_owners e with [] => None | _ => Some e end
  | None => None
  end.

Definition unregister (r : UnixSocketRegistry) (path : bytes) : bool * UnixSocketRegistry :=
  (bool_decide (is_Some (r !! path)), delete path r).

(** The closure of [retain] in [cleanup_process]. *)
Definition cleanup_entry (pid : Z) (path : bytes) (e : UnixSocketEntry) : option UnixSocketEntry :=
  let owners := List.filter (fun o : Z * nat => negb (o.1 =? pid)) (us_owners e) in
  match owners with
  | [] => if is_abstract path then None else Some (mkSockEntry (us_pid e) (us_sock_idx e) [])
  | _ => Some (retarget e owners (us_pid e =? pid))
  end.

Definition unix_cleanup_process (r : UnixSocketRegistry) (pid : Z) : UnixSocketRegistry := map_imap (cleanup_entry pid) r.

Definition unix_contains (r : UnixSocketRegistry) (path : bytes) : bool := bool_decide (is_Some (r !! path)).

(** ** Renaming FIFO names *)

Lemma starts_with_spec path prefix : starts_with path prefix = true <-> exists k, path = prefix ++ k.
Proof.
  revert path. induction prefix as [|x prefix IH]; intros path; simpl; [split; eauto|].
  destruct path as [|y path].
  - split; [done|]. intros [k Hk]. done.
  - rewrite andb_true_iff, Z.eqb_eq, IH. split.
    + intros [-> [k ->]]. eauto.
    + intros [k Hk]. simplify_eq. eauto.
Qed.

(** [q] stands to [newpath] as [path] stands to [oldpath]: the same, or below it. *)
Lemma rebase_spec path oldpath newpath q :
  rebase_path path oldpath newpath = Some q <->
  exists suffix, path = oldpath ++ suffix /\ q = newpath ++ suffix /\ (suffix = [] \/ head suffix = Some SLASH).
Proof.
  unfold rebase_path. case_bool_decide as Heq.
  - subst. split.
    + intros [= <-]. exists []. rewrite !app_nil_r. auto.
    + intros (s & Hs & -> & _). rewrite <- (app_nil_r oldpath) in Hs at 1. by apply app_inv_head in Hs as <-.
  - destruct (starts_with path oldpath) eqn:Es; simpl.
    + apply starts_with_spec in Es as [k ->]. rewrite lookup_app_r, Nat.sub_diag, drop_app_length by done.
      assert (k !! 0%nat = head k) as Hk by by destruct k. rewrite Hk. case_bool_decide as Hh.
      * split; [intros [= <-]; eauto|]. intros (s & Hs%app_inv_head & -> & _). by subst.
      * split; [done|]. intros (s & Hs%app_inv_head & -> & [->|Hs']); subst; [by rewrite app_nil_r in Heq|done].
    + split; [done|]. intros (s & -> & _). assert (starts_with (oldpath ++ s) oldpath = true) by (apply starts_with_spec; eauto). congruence.
Qed.

Lemma rebase_inverse path oldpath newpath q :
  rebase_path path oldpath newpath = Some q <-> rebase_path q newpath oldpath = Some path.
Proof. rewrite !rebase_spec. split; intros (s & ? & ? & ?); eauto. Qed.

Lemma elem_of_moving r o n p q i :
  (p, q, i) ∈ moving_names r o n <-> r !! p = Some i /\ rebase_path p o n = Some q.
Proof.
  unfold moving_names. rewrite list_elem_of_omap. split.
  - intros ([k a] & Hin%elem_of_btree_entries & Hf). simpl in Hf. destruct (rebase_path k o n) eqn:E; simplify_eq/=. done.
  - intros [Hl Hr]. exists (p, i). split; [by apply elem_of_btree_entries|]. simpl. by rewrite Hr.
Qed.

(** How many names lead to a buffer, and how often it occurs in a list. *)
Definition name_count (r : FifoTable) (idx : nat) : Z := Z.of_nat (size (filter (fun e : bytes * nat => e.2 = idx) r)).
Definition occurrences (idx : nat) (l : list nat) : Z := Z.of_nat (length (List.filter (fun i => (i =? idx)%nat) l)).

Definition one_if (idx i : nat) : Z := if (i =? idx)%nat then 1 else 0.

Lemma occurrences_cons idx i l : occurrences idx (i :: l) = one_if idx i + occurrences idx l.
Proof. unfold occurrences, one_if. cbn [List.filter]. case_bool_step; simpl; lia. Qed.

Lemma name_count_insert r p i idx : r !! p = None -> name_count (<[p := i]> r) idx = one_if idx i + name_count r idx.
Proof.
  intros Hp. unfold name_count, one_if. destruct (Nat.eqb_spec i idx) as [->|Hne].
  - rewrite map_filter_insert_True by done. rewrite map_size_insert_None; [lia|]. apply map_lookup_filter_None. by left.
  - rewrite map_filter_insert_False by done. rewrite delete_id by done. lia.
Qed.

Lemma name_count_delete r p idx :
  name_count r idx = name_count (delete p r) idx + match r !! p with Some i => one_if idx i | None => 0 end.
Proof.
  destruct (r !! p) as [i|] eqn:E; [|rewrite delete_id by done; lia].
  rewrite <- (insert_id r p i) at 1 by done. rewrite <- insert_delete_eq, name_count_insert by apply lookup_delete_eq. lia.
Qed.

Lemma name_count_pos r p i : r !! p = Some i -> 0 < name_count r i.
Proof.
  intros Hp. rewrite (name_count_delete r p i), Hp. unfold one_if, name_count. rewrite Nat.eqb_refl. lia.
Qed.

Abbreviation move := (bytes * bytes * nat)%type.
Definition old_of (m : move) : bytes := m.1.1.
Definition new_of (m : move) : bytes := m.1.2.
Definition pipe_of (m : move) : nat := m.2.

(** Taking the moving names out. *)
Lemma delete_moving_lookup (ms : list move) (r : FifoTable) q :
  fold_left (fun r (m : move) => delete m.1.1 r) ms r !! q = if bool_decide (q ∈ (old_of <$> ms)) then None else r !! q.
Proof.
  revert r. induction ms as [|[[p n] i] ms IH]; intros r; simpl; [done|]. rewrite IH.
  case_bool_decide as H1; case_bool_decide as H2; try done.
  - by destruct H2; right.
  - apply elem_of_cons in H2 as [->|H2]; [apply lookup_delete_eq|done].
  - rewrite lookup_delete_ne; [done|]. intros ->. apply H2. by left.
Qed.

Lemma delete_moving_count (ms : list move) (r : FifoTable) idx :
  NoDup (old_of <$> ms) -> (forall p q i, (p, q, i) ∈ ms -> r !! p = Some i) ->
  name_count r idx = name_count (fold_left (fun r (m : move) => delete m.1.1 r) ms r) idx + occurrences idx (pipe_of <$> ms).
Proof.
  revert r. induction ms as [|[[p n] i] ms IH]; intros r Hn Hin; [simpl; unfold occurrences; simpl; lia|].
  rewrite fmap_cons in Hn. rewrite fmap_cons. cbn [fold_left fst snd pipe_of]. apply NoDup_cons in Hn as [Hni Hn]. rewrite (name_count_delete r p), (Hin p n i) by by left.
  rewrite (IH (delete p r)), occurrences_cons; [lia|done|]. intros p' q' i' Hm. rewrite lookup_delete_ne; [by eapply Hin; right|].
  intros ->. apply Hni. apply list_elem_of_fmap. by exists (p', q', i').
Qed.

(** Putting them back under their new names. *)
Lemma insert_moved_lookup ms r q :
  NoDup (new_of <$> ms) ->
  (insert_moved ms r).2 !! q = match find_first (fun m => bool_decide (new_of m = q)) ms with Some m => Some (pipe_of m) | None => r !! q end.
Proof.
  revert r. induction ms as [|[[p n] i] ms IH]; intros r Hn; [done|].
  rewrite fmap_cons in Hn. apply NoDup_cons in Hn as [Hni Hn].
  unfold find_first. cbn [insert_moved find fifo_remove fst snd].
  specialize (IH (<[n := i]> (delete n r)) Hn). destruct (insert_moved ms (<[n:=i]> (delete n r))) as [l r2].
  cbn [snd] in IH |- *. rewrite IH. change (new_of (p, n, i)) with n.
  case_bool_decide as Hq.
  - subst q. destruct (find_first _ ms) as [m|] eqn:E; [|by rewrite lookup_insert_eq]. exfalso. apply find_first_Some in E as [Hm Hq%bool_decide_eq_true].
    apply Hni. apply list_elem_of_fmap. by exists m.
  - change (List.find _ ms) with (find_first (fun m => bool_decide (new_of m = q)) ms). destruct (find_first _ ms); [done|].
    by rewrite lookup_insert_ne, lookup_delete_ne.
Qed.

Lemma insert_moved_count ms r idx :
  name_count (insert_moved ms r).2 idx + occurrences idx (insert_moved ms r).1 = name_count r idx + occurrences idx (pipe_of <$> ms).
Proof.
  revert r. induction ms as [|[[p n] i] ms IH]; intros r; [done|]. cbn [insert_moved fifo_remove].
  specialize (IH (<[n := i]> (delete n r))). destruct (insert_moved ms (<[n:=i]> (delete n r))) as [l r2]. cbn [fst snd] in IH |- *.
  rewrite name_count_insert in IH by apply lookup_delete_eq. rewrite (name_count_delete r n idx), fmap_cons, (occurrences_cons idx (pipe_of _)).
  change (pipe_of (p, n, i)) with i.
  destruct (r !! n) as [j|]; rewrite ?occurrences_cons; lia.
Qed.

Lemma NoDup_fmap_by {A B C} (f : A -> B) (g : A -> C) l :
  NoDup (f <$> l) -> (forall x y, x ∈ l -> y ∈ l -> g x = g y -> f x = f y) -> NoDup (g <$> l).
Proof.
  induction l as [|x l IH]; intros Hn Hg; [constructor|]. rewrite fmap_cons in Hn. rewrite fmap_cons. apply NoDup_cons in Hn as [Hx Hn].
  apply NoDup_cons. split.
  - intros (y & Hy & Hin)%list_elem_of_fmap. apply Hx, list_elem_of_fmap. exists y. split; [|done]. by apply Hg; [left|right|].
  - apply IH; [done|]. intros y z Hy Hz. by apply Hg; right.
Qed.

Lemma moving_old_nodup r o n : NoDup (old_of <$> moving_names r o n).
Proof.
  unfold moving_names. pose proof (NoDup_btree_entries r) as Hn. induction (btree_entries r) as [|[k a] l IH]; [constructor|].
  rewrite fmap_cons in Hn. apply NoDup_cons in Hn as [Hk Hn]. cbn [omap list_omap fst snd].
  destruct (rebase_path k o n) as [q|]; [|by apply IH]. cbn [fmap option_fmap option_map]. rewrite fmap_cons. apply NoDup_cons.
  split; [|by apply IH]. intros ([[p' q'] i'] & Hp & Hin)%list_elem_of_fmap. apply Hk. apply list_elem_of_fmap.
  apply list_elem_of_omap in Hin as ([k' a'] & Hin & Hf). exists (k', a'). split; [|done]. cbn [fst snd] in *.
  destruct (rebase_path k' o n); simplify_eq/=. done.
Qed.

Lemma moving_new_nodup r o n : NoDup (new_of <$> moving_names r o n).
Proof.
  eapply (NoDup_fmap_by old_of); [apply moving_old_nodup|]. intros [[p q] i] [[p' q'] i'] [_ H1]%elem_of_moving [_ H2]%elem_of_moving Hq.
  unfold new_of, old_of in *. simpl in *. subst q'. apply rebase_inverse in H1. apply rebase_inverse in H2. congruence.
Qed.

(** Where a name of the registry goes. *)
Definition renamed (r : FifoTable) (oldpath newpath q : bytes) : option nat :=
  match rebase_path q newpath oldpath ≫= (fun p => r !! p) with
  | Some i => Some i
  | None =>
      if bool_decide (is_Some (rebase_path q oldpath newpath)) then None
      else if bool_decide (q = newpath) && bool_decide (moving_names r oldpath newpath = []) then None
      else r !! q
  end.

Lemma find_moved r o n q :
  find_first (fun m => bool_decide (new_of m = q)) (moving_names r o n) =
  match rebase_path q n o with
  | Some p => (fun i => (p, q, i)) <$> r !! p
  | None => None
  end.
Proof.
  destruct (find_first _ _) as [[[p q'] i]|] eqn:E.
  - apply find_first_Some in E as [[Hp Hr]%elem_of_moving Hq%bool_decide_eq_true]. unfold new_of in Hq. simpl in Hq. subst q'.
    apply rebase_inverse in Hr. by rewrite Hr, Hp.
  - rewrite find_first_None in E. destruct (rebase_path q n o) as [p|] eqn:Er; [|done]. destruct (r !! p) as [i|] eqn:Ep; [|done].
    apply rebase_inverse in Er. specialize (E (p, q, i)). rewrite elem_of_moving in E. specialize (E (conj Ep Er)).
    by apply bool_decide_eq_false in E.
Qed.

Lemma deleted_moved r o n q :
  fold_left (fun r (m : move) => delete m.1.1 r) (moving_names r o n) r !! q =
  if bool_decide (is_Some (rebase_path q o n)) then None else r !! q.
Proof.
  rewrite delete_moving_lookup. case_bool_decide as H1; case_bool_decide as H2; try done.
  - exfalso. apply H2. apply list_elem_of_fmap in H1 as ([[p q'] i] & -> & [_ Hr]%elem_of_moving). by exists q'.
  - destruct (r !! q) as [i|] eqn:E; [|done]. exfalso. apply H1. destruct H2 as [q' Hq']. apply list_elem_of_fmap.
    exists (q, q', i). split; [done|]. by apply elem_of_moving.
Qed.

Lemma rename_spec r oldpath newpath :
  oldpath <> newpath ->
  (forall q, (fifo_rename_path r oldpath newpath).2 !! q = renamed r oldpath newpath q) /\
  (forall idx, name_count r idx =
     name_count (fifo_rename_path r oldpath newpath).2 idx + occurrences idx (fifo_rename_path r oldpath newpath).1).
Proof.
  intros Hne. unfold fifo_rename_path, renamed. rewrite bool_decide_eq_false_2 by done. cbv zeta.
  pose proof (find_moved r oldpath newpath) as Hf. pose proof (deleted_moved r oldpath newpath) as Hd.
  pose proof (moving_new_nodup r oldpath newpath) as Hn. pose proof (moving_old_nodup r oldpath newpath) as Ho.
  destruct (moving_names r oldpath newpath) as [|m ms] eqn:Em; cbn [fifo_remove].
  - split; intros q.
    + specialize (Hf q). specialize (Hd q). cbn [fold_left] in Hd. rewrite (bool_decide_eq_true_2 ([] = [])), andb_true_r by done.
      destruct (rebase_path q newpath oldpath) as [p|]; simpl in Hf |- *.
      * destruct (r !! p) eqn:Ep; simpl in Hf; [done|]. case_bool_decide; [|case_bool_decide]; subst.
        -- destruct (decide (q = newpath)) as [->|]; [apply lookup_delete_eq|]. by rewrite lookup_delete_ne.
        -- apply lookup_delete_eq.
        -- by rewrite lookup_delete_ne.
      * case_bool_decide; [|case_bool_decide]; subst.
        -- destruct (decide (q = newpath)) as [->|]; [apply lookup_delete_eq|]. by rewrite lookup_delete_ne.
        -- apply lookup_delete_eq.
        -- by rewrite lookup_delete_ne.
    + cbn [fst snd]. rewrite (name_count_delete r newpath q). destruct (r !! newpath); cbn [fst snd];
        rewrite ?occurrences_cons; unfold occurrences; simpl; lia.
  - rewrite <- Em in *. split; intros q.
    + rewrite insert_moved_lookup, Hf, Hd by done. rewrite (bool_decide_eq_false_2 (moving_names r oldpath newpath = [])) by congruence.
      rewrite andb_false_r. destruct (rebase_path q newpath oldpath) as [p|]; simpl; [|done]. by destruct (r !! p).
    + rewrite (delete_moving_count (moving_names r oldpath newpath) r q Ho).
      * symmetry. apply insert_moved_count.
      * intros p q' i Hin. by apply elem_of_moving in Hin as [? _].
Qed.

(** renaming a path in the FIFO registry moves exactly the names at and below
    it to the corresponding new names, leaves every other name alone but the
    ones replaced, and returns every buffer whose name was replaced, as often
    as it lost one: for each buffer, the names before are the names after and
    the replaced ones. *)
Theorem fifo_rename_exact r oldpath newpath :
  oldpath <> newpath ->
  (forall q, (fifo_rename_path r oldpath newpath).2 !! q = renamed r oldpath newpath q) /\
  (forall idx, name_count r idx =
     name_count (fifo_rename_path r oldpath newpath).2 idx + occurrences idx (fifo_rename_path r oldpath newpath).1).
Proof. apply rename_spec. Qed.

Lemma fifo_rename_exact_witness :
  let r : FifoTable := {[ [47; 97; 47; 120] := 3%nat; [47; 98; 47; 120] := 4%nat ]} in
  [47; 97] <> [47; 98] /\
  (forall q, (fifo_rename_path r [47; 97] [47; 98]).2 !! q = renamed r [47; 97] [47; 98] q) /\
  (fifo_rename_path r [47; 97] [47; 98]).1 = [4%nat].
Proof.
  intros r. assert ([47; 97] <> [47; 98]) as Hne by discriminate. split; [exact Hne|].
  split; [exact (proj1 (fifo_rename_exact r [47; 97] [47; 98] Hne))|vm_compute; reflexivity].
Defined.

(** ** Every name leads to a live FIFO *)

(** The names a slot of the pipe table counts. *)
Definition counted (slot : option PipeBuffer) : Z :=
  match slot with Some p => if p_is_fifo p then p_fifo_names p else 0 | None => 0 end.

Definition names_at (t : PipeTable) (i : nat) : Z := counted (table_get t i).

Lemma frame_counted p q : frame p = frame q -> counted (Some p) = counted (Some q).
Proof. unfold frame, counted. intros [= _ -> ->]. done. Qed.

(** Table operations that leave all name counts alone. *)
Definition keeps_names (f : PipeTable -> PipeTable * list effect) : Prop :=
  forall t, slots_ok t -> slots_ok (f t).1 /\ forall i, names_at (f t).1 i = names_at t i.

Lemma names_seq f g : keeps_names f -> keeps_names g -> keeps_names (table_op_seq f g).
Proof.
  intros Hf Hg t Hok. unfold table_op_seq. destruct (Hf t Hok) as [Hok1 Hn1]. destruct (f t) as [t1 e1]. simpl in *.
  destruct (Hg t1 Hok1) as [Hok2 Hn2]. destruct (g t1) as [t2 e2]. simpl in *. split; [done|]. intros i. by rewrite Hn2.
Qed.

Lemma names_collect : keeps_names collect_unreachable_ancillary.
Proof.
  intros t Hok. split; [by apply collect_slots|]. intros i. unfold names_at. rewrite collect_get. case_bool_step; [done|].
  by destruct (table_get t i).
Qed.

Lemma names_free_inner idx : keeps_names (fun t => free_fully_closed_inner t idx).
Proof.
  intros t Hok. pose proof (free_inner_spec t idx Hok) as Hs. destruct (free_fully_closed_inner t idx) as [t' e]. simpl.
  destruct Hs as [Hok' Hg]. split; [done|]. intros i. unfold names_at. rewrite Hg. destruct (table_get t i) as [p|]; [|done].
  destruct ((i =? idx)%nat && is_fully_closed p) eqn:E; [|done]. apply andb_true_iff in E as [_ E]. unfold is_fully_closed in E. simpl.
  destruct (p_is_fifo p); [|done]. simpl in E. bool_hyps. by rewrite Z.eqb_eq in *.
Qed.

Lemma names_free idx : keeps_names (free_if_closed idx).
Proof. apply names_seq; [apply names_free_inner|apply names_collect]. Qed.

(** One slot updated: its count changes as the update says, the others not. *)
Lemma update_names t idx p p' :
  slots_ok t -> table_get t idx = Some p -> p_pipe_idx p' = p_pipe_idx p ->
  let t' := with_pipes t (<[idx := Some p']> (pipes t)) in
  slots_ok t' /\ forall i, names_at t' i = if (i =? idx)%nat then counted (Some p') else names_at t i.
Proof.
  intros Hok Hg Hp t'. split; [by eapply update_slot|]. intros i. subst t'. unfold names_at, with_pipes.
  rewrite table_get_insert by (apply table_get_Some in Hg; by eapply lookup_lt_Some). destruct t. by destruct (i =? idx)%nat.
Qed.

Lemma update_frame_names t idx p p' :
  slots_ok t -> table_get t idx = Some p -> frame p' = frame p ->
  let t' := with_pipes t (<[idx := Some p']> (pipes t)) in
  slots_ok t' /\ forall i, names_at t' i = names_at t i.
Proof.
  intros Hok Hg Hf t'. destruct (update_names t idx p p' Hok Hg (frame_idx _ _ Hf)) as [Hok' Hn]. split; [done|].
  intros i. rewrite Hn. destruct (Nat.eqb_spec i idx) as [->|]; [|done]. rewrite (frame_counted _ _ Hf). unfold names_at. by rewrite Hg.
Qed.

Lemma names_update idx f : keeps_frame f -> keeps_names (fun t => table_update t idx f).
Proof.
  intros Hf t Hok. unfold table_update. destruct (table_get t idx) as [p|] eqn:E; [|done].
  specialize (Hf p). destruct (f p) as [p' e]. by eapply update_frame_names.
Qed.

Lemma names_cancel_slots idxs pid t :
  slots_ok t -> slots_ok (cancel_slots idxs pid t).2.1 /\ forall i, names_at (cancel_slots idxs pid t).2.1 i = names_at t i.
Proof.
  revert t. induction idxs as [|idx idxs IH]; intros t Hok; simpl; [done|].
  set (step := match table_get t idx with Some p => _ | None => _ end).
  assert (slots_ok step.2.1 /\ forall i, names_at step.2.1 i = names_at t i) as [Hok1 Hn1].
  { subst step. destruct (table_get t idx) as [p|] eqn:E; [|done]. case_bool_step; [|done].
    pose proof (keeps_cancel_owners (List.filter (fun owner => as_u32 (Z.shiftr owner 32) =? pid)
      (sorted_keys (p_fifo_open_waiters p))) p) as Hk. unfold cancel_fifo_opens_for_process.
    destruct (cancel_owners _ p) as [ws [p' e]]. by eapply update_frame_names. }
  destruct step as [ws1 [t1 e1]]. destruct (names_free idx t1 Hok1) as [Hok2 Hn2].
  destruct (free_if_closed idx t1) as [t2 e2]. destruct (IH t2 Hok2) as [Hok3 Hn3].
  destruct (cancel_slots idxs pid t2) as [ws3 [t3 e3]]. simpl in *. split; [done|]. intros i. by rewrite Hn3, Hn2, Hn1.
Qed.

(** Allocation of a buffer. *)
Lemma names_alloc t p :
  slots_ok t -> let '(i, t') := table_alloc t p in
  slots_ok t' /\ names_at t i = 0 /\ table_get t i = None /\
  forall j, names_at t' j = if (j =? i)%nat then counted (Some p) else names_at t j.
Proof.
  intros Hok. pose proof (alloc_spec t p Hok) as Hs. destruct (table_alloc t p) as [i t']. destruct Hs as (Hok' & Hi & Hg).
  unfold names_at. rewrite Hi. split_and!; try done. intros j. rewrite Hg. by destruct (j =? i)%nat.
Qed.

(** Removing one name of a buffer. *)
Lemma names_remove_with f idx t :
  (forall p, p_pipe_idx (f p) = p_pipe_idx p /\ p_is_fifo (f p) = p_is_fifo p /\ p_fifo_names (f p) = u32_saturating_sub (p_fifo_names p) 1) ->
  slots_ok t -> 0 < names_at t idx ->
  let t' := (table_op_seq (fun t => table_update t idx (pure_op f)) (free_if_closed idx) t).1 in
  slots_ok t' /\ forall i, names_at t' i = names_at t i - one_if i idx.
Proof.
  intros Hf Hok Hpos t'. subst t'. unfold table_op_seq, table_update. destruct (table_get t idx) as [p|] eqn:E.
  2: { unfold names_at in Hpos. by rewrite E in Hpos. }
  destruct (Hf p) as (Hi & Hfi & Hn). unfold pure_op.
  destruct (update_names t idx p (f p) Hok E Hi) as [Hok1 Hn1]. set (t1 := with_pipes t _) in *.
  destruct (names_free idx t1 Hok1) as [Hok2 Hn2]. destruct (free_if_closed idx t1) as [t2 e2]. simpl in *. split; [done|].
  intros i. rewrite Hn2, Hn1. unfold one_if. rewrite Nat.eqb_sym. destruct (Nat.eqb_spec idx i) as [<-|]; [|lia].
  unfold names_at in *. rewrite E in *. simpl in *. rewrite Hfi, Hn. destruct (p_is_fifo p); [|lia]. unfold u32_saturating_sub. lia.
Qed.

Lemma names_remove idx t :
  slots_ok t -> 0 < names_at t idx ->
  slots_ok (table_remove_fifo_name idx t).1 /\ forall i, names_at (table_remove_fifo_name idx t).1 i = names_at t i - one_if i idx.
Proof. by apply names_remove_with. Qed.

Lemma names_remove_at idx sec nsec t :
  slots_ok t -> 0 < names_at t idx ->
  slots_ok (table_remove_fifo_name_at idx sec nsec t).1 /\
  forall i, names_at (table_remove_fifo_name_at idx sec nsec t).1 i = names_at t i - one_if i idx.
Proof. by apply names_remove_with. Qed.

Lemma occurrences_nonneg idx l : 0 <= occurrences idx l.
Proof. unfold occurrences. lia. Qed.

Lemma names_drop_replaced l ct t :
  slots_ok t -> (forall i, occurrences i l <= names_at t i) ->
  slots_ok (drop_replaced l ct t).1 /\ forall i, names_at (drop_replaced l ct t).1 i = names_at t i - occurrences i l.
Proof.
  revert t. induction l as [|idx l IH]; intros t Hok Hocc.
  { split; [done|]. intros i. unfold occurrences. simpl. lia. }
  cbn [drop_replaced]. set (s := match ct with Some _ => _ | None => _ end).
  assert (0 < names_at t idx) as Hpos.
  { specialize (Hocc idx). rewrite occurrences_cons in Hocc. pose proof (occurrences_nonneg idx l). unfold one_if in Hocc. rewrite Nat.eqb_refl in Hocc. lia. }
  assert (slots_ok s.1 /\ forall i, names_at s.1 i = names_at t i - one_if i idx) as [Hok1 Hn1].
  { subst s. destruct ct as [[sec nsec]|]; [by apply names_remove_at|by apply names_remove]. }
  destruct s as [t1 e1]. simpl in Hok1, Hn1. destruct (IH t1 Hok1) as [Hok2 Hn2].
  { intros i. rewrite Hn1. specialize (Hocc i). rewrite occurrences_cons in Hocc. lia. }
  destruct (drop_replaced l ct t1) as [t2 e2]. simpl in *. split; [done|]. intros i. rewrite Hn2, Hn1, occurrences_cons. lia.
Qed.

(** *** Histories *)

Inductive name_op :=
| NMake (proc : FifoCreator) (path : bytes) (mode : Z) (an : MakeAnswers)
| NUnlink (path : bytes) (an : UnlinkAnswers)
| NStat (path : bytes) (st : kresult WasmStat)
| NDisplaced (oldpath newpath : bytes) (lstat : kresult WasmStat) (clock : kresult (Z * Z))
| NRename (oldpath newpath : bytes) (displaced_ctime : option (Z * Z))
| NLink (oldpath newpath : bytes)
| NPipe (act : table_act).

Definition name_step (w : FifoWorld) (op : name_op) : FifoWorld :=
  match op with
  | NMake proc path mode an => (make_fifo w proc path mode an).1.2.1
  | NUnlink path an => match unlink_fifo_marker w path an with Some r => r.2.1 | None => w end
  | NStat path st => (fifo_path_stat_raw w path st).2
  | NDisplaced o n lstat clock => (refresh_displaced_fifo_before_rename w o n lstat clock).2
  | NRename o n ct => (rekey_fifo_names_after_rename w o n ct).1
  | NLink o n => (register_fifo_hardlink w o n).1.2.1
  | NPipe act => mkFifoWorld (names w) (table_act_step (fifo_pipes w) act)
  end.

(** Pipe traffic that is none of the name operations above: plain pipes are
    created, ends are opened, used and closed, messages queued and collected. *)
Definition traffic_act (act : table_act) : Prop :=
  match act with
  | ActAlloc p => p_is_fifo p = false
  | ActAllocPair p q => p_is_fifo p = false /\ p_is_fifo q = false
  | ActSlot _ op => op <> OpAddName
  | ActRemoveName _ | ActRemoveNameAt _ _ _ => False
  | _ => True
  end.

Definition name_op_ok (op : name_op) : Prop := match op with NPipe act => traffic_act act | _ => True end.

Record names_ok (w : FifoWorld) (n : Z) : Prop := {
  no_slots : slots_ok (fifo_pipes w);
  no_count : forall i, name_count (names w) i = names_at (fifo_pipes w) i;
  no_bound : forall i, name_count (names w) i <= n;
}.

Lemma counted_plain p : p_is_fifo p = false -> counted (Some p) = 0.
Proof. simpl. by intros ->. Qed.

Lemma names_alloc_pair t p q :
  slots_ok t -> p_is_fifo p = false -> p_is_fifo q = false ->
  slots_ok (alloc_pair t p q).2 /\ forall i, names_at (alloc_pair t p q).2 i = names_at t i.
Proof.
  intros Hok Hp Hq. pose proof (alloc_pair_spec t p q Hok) as Hs. destruct (alloc_pair t p q) as [[a b] t'].
  destruct Hs as (Hok' & -> & Ha & Hb & Hg). split; [done|]. intros i. unfold names_at. cbn [snd]. rewrite Hg.
  destruct (Nat.eqb_spec i (S a)) as [->|]; [rewrite Hb; by apply (counted_plain q)|].
  destruct (Nat.eqb_spec i a) as [->|]; [rewrite Ha; by apply (counted_plain p)|done].
Qed.

Lemma names_take_ready owner t :
  slots_ok t -> slots_ok (table_take_ready_fifo_open t owner).2 /\ forall i, names_at (table_take_ready_fifo_open t owner).2 i = names_at t i.
Proof.
  intros Hok. unfold table_take_ready_fifo_open. destruct (find_fifo_open t owner) as [idx|]; [|done].
  destruct (table_get t idx) as [p|] eqn:E; [|done]. unfold take_ready_fifo_open.
  destruct (p_fifo_open_waiters p !! owner) as [w|]; [|done]. destruct (fw_ready w); [|done]. by eapply update_frame_names.
Qed.

Lemma names_cancel_open owner t :
  slots_ok t -> slots_ok (table_cancel_fifo_open t owner).2.1 /\ forall i, names_at (table_cancel_fifo_open t owner).2.1 i = names_at t i.
Proof.
  intros Hok. unfold table_cancel_fifo_open. destruct (find_fifo_open t owner) as [idx|]; [|done].
  destruct (table_get t idx) as [p|] eqn:E; [|done]. pose proof (keeps_cancel owner p) as Hk.
  destruct (cancel_fifo_open owner p) as [[w|] [p' e]]; [|done]. simpl in Hk.
  destruct (update_frame_names t idx p p' Hok E Hk) as [Hok1 Hn1]. set (t1 := with_pipes t _) in *.
  destruct (names_free idx t1 Hok1) as [Hok2 Hn2]. destruct (free_if_closed idx t1) as [t2 e2]. simpl in *.
  split; [done|]. intros i. by rewrite Hn2, Hn1.
Qed.

Lemma traffic_names t act :
  slots_ok t -> traffic_act act -> slots_ok (table_act_step t act) /\ forall i, names_at (table_act_step t act) i = names_at t i.
Proof.
  intros Hok Hact. destruct act; simpl in Hact |- *; try done.
  - pose proof (names_alloc t p Hok) as Hs. destruct (table_alloc t p) as [i t']. destruct Hs as (Hok' & H0 & _ & Hn).
    split; [done|]. intros j. cbn [snd]. rewrite Hn. destruct (Nat.eqb_spec j i) as [->|]; [|done]. by rewrite H0, counted_plain.
  - destruct Hact. by apply names_alloc_pair.
  - by apply (names_update idx); [apply keeps_slot_frame|].
  - by apply names_free.
  - unfold queue_retained_ancillary. destruct (table_get t idx); [|done]. apply names_seq; [|exact names_collect|done].
    apply names_update, keeps_pure. intros q. by destruct fds.
  - by apply names_collect.
  - apply names_seq; [|apply names_free|done]. apply names_update, keeps_andthen; [apply keeps_close_read_end|apply keeps_close_write_end].
  - by apply names_take_ready.
  - by apply names_cancel_open.
  - by apply names_cancel_slots.
Qed.

Lemma one_if_sym a b : one_if a b = one_if b a.
Proof. unfold one_if. by rewrite Nat.eqb_sym. Qed.

Lemma one_if_range a b : 0 <= one_if a b <= 1.
Proof. unfold one_if. case_bool_step; lia. Qed.

Lemma name_count_nonneg r i : 0 <= name_count r i.
Proof. unfold name_count. lia. Qed.

Lemma publish_names w n path md : names_ok w n -> names_ok (publish_fifo w path md).2.1 (n + 1).
Proof.
  intros [Hok Hc Hb]. unfold publish_fifo. pose proof (names_alloc (fifo_pipes w) (new_fifo DEFAULT_PIPE_CAPACITY md) Hok) as Ha.
  destruct (table_alloc (fifo_pipes w) _) as [i pt]. destruct Ha as (Hok1 & H0 & _ & Hn1).
  assert (forall j, names_at pt j = names_at (fifo_pipes w) j + one_if j i) as Hn2.
  { intros j. rewrite Hn1. unfold one_if. rewrite (Nat.eqb_sym i j). destruct (Nat.eqb_spec j i) as [->|]; [|lia]. by rewrite H0. }
  unfold fifo_register. destruct (names w !! path) eqn:Ep.
  - assert (0 < names_at pt i) as Hpos.
    { rewrite Hn2. unfold one_if. rewrite Nat.eqb_refl. lia. }
    destruct (names_remove i pt Hok1 Hpos) as [Hok2 Hn3]. destruct (table_remove_fifo_name i pt) as [pt2 e]. simpl in *.
    split; simpl; [done| |].
    + intros j. rewrite Hn3, Hn2, Hc. lia.
    + intros j. specialize (Hb j). lia.
  - split; simpl; [done| |]; intros j; rewrite name_count_insert by done.
    + rewrite Hn2, Hc, (one_if_sym j i). rewrite one_if_sym. lia.
    + pose proof (Hb j). pose proof (one_if_range j i). lia.
Qed.

Lemma names_ok_weaken w n : names_ok w n -> names_ok w (n + 1).
Proof. intros [Hok Hc Hb]. split; [done|done|]. intros i. specialize (Hb i). lia. Qed.

Lemma make_names w n proc path mode an : names_ok w n -> names_ok (make_fifo w proc path mode an).1.2.1 (n + 1).
Proof.
  intros Hw. pose proof (names_ok_weaken _ _ Hw) as Hw'. unfold make_fifo. destruct (an_exists an); [done|].
  destruct (an_mutable an), (an_parent an), (an_open an), (an_chown an), (an_close an); try done.
  destruct (an_stat an) as [md|]; [|done]. pose proof (publish_names w n path (as_fifo_stat md) Hw) as Hp.
  by destruct (publish_fifo _ _ _) as [[|] we].
Qed.

Lemma stat_names w n path st : names_ok w n -> names_ok (fifo_path_stat_raw w path st).2 n.
Proof.
  intros [Hok Hc Hb]. unfold fifo_path_stat_raw. destruct (fifo_lookup (names w) path) as [i|]; [|done].
  destruct st as [s|]; [|done]. destruct (table_get (fifo_pipes w) i) as [p|] eqn:E; [|done]. cbn [snd].
  set (f := pure_op (update_fifo_metadata _)). assert (keeps_frame f) as Hf by (by apply keeps_pure).
  destruct (names_update i f Hf (fifo_pipes w) Hok) as [Hok1 Hn1].
  split; simpl; [done|intros j; by rewrite Hn1|done].
Qed.

Lemma stat_keeps_names w path st : names (fifo_path_stat_raw w path st).2 = names w.
Proof. unfold fifo_path_stat_raw. by repeat case_match. Qed.

Lemma displaced_names w n o nw lstat clock : names_ok w n -> names_ok (refresh_displaced_fifo_before_rename w o nw lstat clock).2 n.
Proof.
  intros Hw. unfold refresh_displaced_fifo_before_rename. case_bool_step; [|done].
  pose proof (stat_names w n nw lstat Hw). by destruct (fifo_path_stat_raw w nw lstat).
Qed.

Lemma unlink_names w n path an :
  names_ok w n -> names_ok (match unlink_fifo_marker w path an with Some r => r.2.1 | None => w end) (n + 1).
Proof.
  intros Hw. unfold unlink_fifo_marker, fifo_lookup. destruct (names w !! path) as [i|] eqn:Ep; [|by apply names_ok_weaken].
  pose proof (stat_names w n path (ua_lstat an) Hw) as Hw1. pose proof (stat_keeps_names w path (ua_lstat an)) as Hk.
  destruct (fifo_path_stat_raw w path (ua_lstat an)) as [st w1]. simpl in Hw1, Hk. pose proof (names_ok_weaken _ _ Hw1) as Hw1'.
  destruct (let? _ := st in _) as [[sec nsec]|e]; [|done]. destruct Hw1 as [Hok Hc Hb]. rewrite <- Hk in Ep.
  cbn [fifo_remove]. rewrite Ep, bool_decide_eq_true_2 by done. cbn [negb].
  pose proof (name_count_pos _ _ _ Ep) as Hpos. rewrite Hc in Hpos.
  destruct (names_remove_at i sec nsec (fifo_pipes w1) Hok Hpos) as [Hok2 Hn]. destruct (table_remove_fifo_name_at _ _ _ _) as [pt e]. simpl in *.
  assert (forall j, name_count (delete path (names w1)) j = name_count (names w1) j - one_if j i) as Hd.
  { intros j. rewrite (name_count_delete (names w1) path j), Ep. lia. }
  split; simpl; [done| |]; intros j; rewrite Hd.
  - by rewrite Hn, Hc.
  - pose proof (Hb j). pose proof (one_if_range j i). lia.
Qed.

Lemma rename_names w n o nw ct : names_ok w n -> names_ok (rekey_fifo_names_after_rename w o nw ct).1 (n + 1).
Proof.
  intros [Hok Hc Hb]. assert (names_ok w (n + 1)) as Hw by (split; [done|done|intros i; specialize (Hb i); lia]).
  unfold rekey_fifo_names_after_rename. case_bool_step; [done|].
  assert (forall j, name_count (names w) j = name_count (fifo_rename_path (names w) o nw).2 j + occurrences j (fifo_rename_path (names w) o nw).1) as Hr.
  { destruct (decide (o = nw)) as [->|Hne]; [|by apply rename_spec].
    intros j. unfold fifo_rename_path. rewrite bool_decide_eq_true_2 by done. unfold occurrences. simpl. lia. }
  destruct (fifo_rename_path (names w) o nw) as [l r]. simpl in Hr.
  destruct (names_drop_replaced l ct (fifo_pipes w) Hok) as [Hok2 Hn].
  { intros j. rewrite <- Hc, Hr. pose proof (name_count_nonneg r j). lia. }
  destruct (drop_replaced l ct (fifo_pipes w)) as [pt e]. simpl in *. split; simpl; [done| |]; intros j.
  - rewrite Hn, <- Hc, Hr. lia.
  - pose proof (Hb j). rewrite Hr in H. pose proof (occurrences_nonneg j l). lia.
Qed.

Lemma link_names w n o nw : names_ok w n -> n < u32_max -> names_ok (register_fifo_hardlink w o nw).1.2.1 (n + 1).
Proof.
  intros [Hok Hc Hb] Hlt. assert (names_ok w (n + 1)) as Hw by (split; [done|done|intros i; specialize (Hb i); lia]).
  unfold register_fifo_hardlink, fifo_lookup, fifo_register. destruct (names w !! o) as [i|] eqn:Eo; [|done].
  destruct (names w !! nw) eqn:En; [by destruct w|]. pose proof (name_count_pos _ _ _ Eo) as Hpos. rewrite Hc in Hpos.
  destruct (table_get (fifo_pipes w) i) as [p|] eqn:E.
  2: { unfold names_at in Hpos. by rewrite E in Hpos. }
  unfold table_update. rewrite E. unfold pure_op.
  destruct (update_names (fifo_pipes w) i p (add_fifo_name p) Hok E eq_refl) as [Hok1 Hn1]. set (t1 := with_pipes _ _) in *.
  split; simpl; [done| |]; intros j; rewrite name_count_insert by done.
  - rewrite Hn1, Hc. unfold one_if. rewrite (Nat.eqb_sym j i). destruct (Nat.eqb_spec i j) as [<-|]; [|lia].
    pose proof (Hb i) as Hbi. rewrite Hc in Hbi. unfold names_at in *. rewrite E in *. simpl in *.
    destruct (p_is_fifo p); [|lia]. unfold u32_saturating_add. lia.
  - pose proof (Hb j). pose proof (one_if_range j i). lia.
Qed.

Lemma name_step_ok w n op : names_ok w n -> name_op_ok op -> n < u32_max -> names_ok (name_step w op) (n + 1).
Proof.
  intros Hw Hop Hn. destruct op; simpl in Hop |- *; auto using make_names, unlink_names, rename_names, link_names, names_ok_weaken, stat_names, displaced_names.
  destruct Hw as [Hok Hc Hb]. destruct (traffic_names (fifo_pipes w) act Hok Hop) as [Hok1 Hn1].
  split; simpl; [done|intros i; by rewrite Hn1|]. intros i. specialize (Hb i). lia.
Qed.

Lemma name_steps_ok ops w n :
  names_ok w n -> Forall name_op_ok ops -> n + Z.of_nat (length ops) <= u32_max ->
  names_ok (fold_left name_step ops w) (n + Z.of_nat (length ops)).
Proof.
  intros Hw Hops. revert w n Hw. induction Hops as [|op ops Hop Hops IH]; intros w n Hw Hl; simpl in *; [by rewrite Z.add_0_r|].
  replace (n + Z.of_nat (S (length ops))) with ((n + 1) + Z.of_nat (length ops)) by lia.
  apply IH; [|lia]. apply name_step_ok; [done|done|lia].
Qed.

(** after any history of FIFO creations, hard links, unlinks and renames, and
    any traffic on the pipe table in between, every buffer counts exactly the
    paths registered for it.  So every registered path leads to a live FIFO
    buffer, which no close reclaims while the path exists, and a buffer whose
    last name is gone counts none. *)
Theorem fifo_names_lead_to_live_buffers ops :
  Forall name_op_ok ops -> Z.of_nat (length ops) <= u32_max ->
  let w := fold_left name_step ops (mkFifoWorld fifo_new table_new) in
  (forall path i, fifo_lookup (names w) path = Some i ->
     exists p, table_get (fifo_pipes w) i = Some p /\ p_is_fifo p = true /\ p_fifo_names p = name_count (names w) i /\
       0 < p_fifo_names p /\ is_fully_closed p = false) /\
  (forall i p, table_get (fifo_pipes w) i = Some p -> p_is_fifo p = true ->
     (forall path, fifo_lookup (names w) path <> Some i) -> has_fifo_names p = false).
Proof.
  intros Hops Hl w. assert (names_ok w (0 + Z.of_nat (length ops))) as [Hok Hc _].
  { apply name_steps_ok; [|done|lia]. split; simpl; [apply table_new_slots| |]; intros i; unfold name_count, fifo_new; simpl; done. }
  split.
  - intros path i Hp. pose proof (name_count_pos _ _ _ Hp) as Hpos. pose proof (Hc i) as Hci. unfold names_at in Hci.
    destruct (table_get (fifo_pipes w) i) as [p|]; [|simpl in Hci; lia]. simpl in Hci. destruct (p_is_fifo p) eqn:Ef; [|lia].
    exists p. split_and!; [done|done|done|lia|]. unfold is_fully_closed. rewrite Ef. simpl.
    rewrite (proj2 (Z.eqb_neq (p_fifo_names p) 0)) by lia. simpl. by rewrite andb_false_r.
  - intros i p Hp Hf Hno. pose proof (Hc i) as Hci. unfold names_at in Hci. rewrite Hp in Hci. simpl in Hci. rewrite Hf in Hci.
    assert (name_count (names w) i = 0) as H0.
    { unfold name_count. rewrite (proj2 (map_empty (filter _ (names w)))); [done|]. intros path.
      apply map_lookup_filter_None. right. intros j Hj Hji. simpl in Hji. subst j. by apply (Hno path). }
    unfold has_fifo_names. apply Z.ltb_ge. lia.
Qed.

Definition example_stat : WasmStat := mkStat 0 0 0 1 0 0 0 0 0 0 0 0 0 0.

Definition example_names : list name_op :=
  [NMake (mkFifoCreator 18 0 0) [47; 97] 438 (mkMakeAnswers false (Ok ()) (Ok ()) (Ok 5) (Ok ()) (Ok ()) (Ok example_stat)); NLink [47; 97] [47; 98]; NPipe (ActFree 0);
   NUnlink [47; 97] (mkUnlinkAnswers (Ok example_stat) (Ok (1, 2)) (Ok ()) (Err EIO)); NRename [47; 98] [47; 99] None].

Lemma fifo_names_lead_to_live_buffers_witness :
  Forall name_op_ok example_names /\
  let w := fold_left name_step example_names (mkFifoWorld fifo_new table_new) in
  fifo_lookup (names w) [47; 99] = Some 0%nat /\
  exists p, table_get (fifo_pipes w) 0 = Some p /\ p_is_fifo p = true /\ p_fifo_names p = name_count (names w) 0 /\
    0 < p_fifo_names p /\ is_fully_closed p = false.
Proof.
  assert (Forall name_op_ok example_names) as Hops by (repeat constructor).
  split; [exact Hops|]. intros w. assert (fifo_lookup (names w) [47; 99] = Some 0%nat) as Hl by (vm_compute; reflexivity).
  split; [exact Hl|]. apply (proj1 (fifo_names_lead_to_live_buffers example_names Hops ltac:(vm_compute; discriminate)) [47; 99]). exact Hl.
Defined.

(** ** The socket registry implements a map from sockets to names *)

Abbreviation sock := (Z * nat)%type.

Inductive unix_op :=
| URegister (path : bytes) (o : sock)
| UInherit (path : bytes) (o : sock)
| UClose (path : bytes) (o : sock)
| URename (oldpath newpath : bytes)
| UUnlink (path : bytes)
| UExit (pid : Z).

Definition unix_step (r : UnixSocketRegistry) (op : unix_op) : UnixSocketRegistry :=
  match op with
  | URegister path o => (unix_register r path o.1 o.2).2
  | UInherit path o => (add_owner r path o.1 o.2).2
  | UClose path o => (unix_remove_owner r path o.1 o.2).2
  | URename o n => (unix_rename_path r o n).2
  | UUnlink path => (unregister r path).2
  | UExit pid => unix_cleanup_process r pid
  end.

(** The specification: where each open socket is bound.  Names without a bound
    socket matter only in that they are taken. *)
Abbreviation bindings := (gmap sock bytes).

Definition bind_step (taken : bytes -> bool) (b : bindings) (op : unix_op) : bindings :=
  match op with
  | URegister path o => if taken path then b else <[o := path]> b
  | UInherit path o => if taken path then <[o := path]> b else b
  | UClose _ o => delete o b
  | URename old new => omap (fun p => if bool_decide (p = old) then Some new else if bool_decide (p = new) then None else Some p) b
  | UUnlink path => omap (fun p => if bool_decide (p = path) then None else Some p) b
  | UExit pid => filter (fun e : sock * bytes => e.1.1 <> pid) b
  end.

(** A socket is bound once and inherited from a socket bound there; a close names the path of the binding, unless that
    name is free or the socket has lost its name. *)
Definition unix_ok (r : UnixSocketRegistry) (b : bindings) (op : unix_op) : Prop :=
  match op with
  | URegister _ o => b !! o = None
  | UInherit path o => (b !! o = None \/ b !! o = Some path) /\ exists parent, b !! parent = Some path
  | UClose path o => b !! o = None \/ b !! o = Some path \/ r !! path = None
  | _ => True
  end.

Fixpoint unix_run (r : UnixSocketRegistry) (b : bindings) (ops : list unix_op) : UnixSocketRegistry * bindings :=
  match ops with
  | [] => (r, b)
  | op :: ops' => unix_run (unix_step r op) (bind_step (unix_contains r) b op) ops'
  end.

Fixpoint unix_run_ok (r : UnixSocketRegistry) (b : bindings) (ops : list unix_op) : Prop :=
  match ops with
  | [] => True
  | op :: ops' => unix_ok r b op /\ unix_run_ok (unix_step r op) (bind_step (unix_contains r) b op) ops'
  end.

(** The entry at a path lists exactly the sockets bound there, and its target is
    one of them. *)
Definition owners_at (r : UnixSocketRegistry) (path : bytes) : list sock :=
  match r !! path with Some e => us_owners e | None => [] end.

Record unix_refines (r : UnixSocketRegistry) (b : bindings) : Prop := {
  ur_owners : forall path o, o ∈ owners_at r path <-> b !! o = Some path;
  ur_target : forall path e, r !! path = Some e -> us_owners e = [] \/ (us_pid e, us_sock_idx e) ∈ us_owners e;
}.

Lemma owners_at_insert r path e q : owners_at (<[path := e]> r) q = if bool_decide (q = path) then us_owners e else owners_at r q.
Proof. unfold owners_at. case_bool_decide as H; [subst; by rewrite lookup_insert_eq|by rewrite lookup_insert_ne]. Qed.

Lemma owners_at_delete r path q : owners_at (delete path r) q = if bool_decide (q = path) then [] else owners_at r q.
Proof. unfold owners_at. case_bool_decide as H; [subst; by rewrite lookup_delete_eq|by rewrite lookup_delete_ne]. Qed.

Lemma register_refines r b path o :
  unix_refines r b -> b !! o = None ->
  unix_refines (unix_register r path o.1 o.2).2 (bind_step (unix_contains r) b (URegister path o)).
Proof.
  intros [Ho Ht] Hb. unfold unix_register. cbn [bind_step]. unfold unix_contains. destruct (r !! path) as [e|] eqn:E; cbn [snd].
  { by rewrite bool_decide_eq_true_2 by by eexists. }
  rewrite bool_decide_eq_false_2 by by intros [? ?]. destruct o as [pid idx]. cbn [fst snd]. split.
  - intros q o'. rewrite owners_at_insert. case_bool_decide as Hq; simpl.
    + subst q. rewrite list_elem_of_singleton. destruct (decide (o' = (pid, idx))) as [->|Hne]; [by rewrite lookup_insert_eq|].
      rewrite lookup_insert_ne by done. split; [done|]. intros Hb'. apply Ho in Hb'. unfold owners_at in Hb'. rewrite E in Hb'. by apply not_elem_of_nil in Hb'.
    + rewrite Ho. destruct (decide (o' = (pid, idx))) as [->|Hne]; [rewrite Hb, lookup_insert_eq; naive_solver|by rewrite lookup_insert_ne].
  - intros q e. destruct (decide (q = path)) as [->|Hne]; [rewrite lookup_insert_eq; intros [= <-]; right; by left|].
    rewrite lookup_insert_ne by done. apply Ht.
Qed.

Lemma inherit_refines r b path o :
  unix_refines r b -> b !! o = None \/ b !! o = Some path -> (exists parent, b !! parent = Some path) ->
  unix_refines (add_owner r path o.1 o.2).2 (bind_step (unix_contains r) b (UInherit path o)).
Proof.
  intros [Ho Ht] Hb [par Hpar]. unfold add_owner. cbn [bind_step]. unfold unix_contains. destruct (r !! path) as [e|] eqn:E; cbn [snd].
  2: { by rewrite bool_decide_eq_false_2 by by intros [? ?]. }
  rewrite bool_decide_eq_true_2 by by eexists. rewrite <- surjective_pairing. unfold has_owner.
  assert (owners_at r path = us_owners e) as Hoe by (unfold owners_at; by rewrite E). case_bool_decide as Hin.
  - rewrite insert_id; [done|]. apply Ho. by rewrite Hoe.
  - split.
    + intros q o'. rewrite owners_at_insert. unfold vec_push. case_bool_decide as Hq; simpl.
      * subst q. rewrite elem_of_app, list_elem_of_singleton, <- Hoe, Ho.
        destruct (decide (o' = o)) as [->|Hne]; [rewrite lookup_insert_eq; naive_solver|rewrite lookup_insert_ne by done; naive_solver].
      * rewrite Ho. destruct (decide (o' = o)) as [->|Hne]; [rewrite lookup_insert_eq; naive_solver|by rewrite lookup_insert_ne].
    + intros q e'. destruct (decide (q = path)) as [->|Hne].
      * rewrite lookup_insert_eq. intros [= <-]. simpl. unfold vec_push. right.
        apply elem_of_app. left. destruct (Ht path e E) as [Hnil|]; [|done]. apply Ho in Hpar. rewrite Hoe, Hnil in Hpar.
        by apply not_elem_of_nil in Hpar.
      * rewrite lookup_insert_ne by done. apply Ht.
Qed.

(** Where [remove_owner] looks: at the path of the binding. *)
Lemma owner_path_bound r b path o :
  unix_refines r b -> b !! o = None \/ b !! o = Some path \/ r !! path = None ->
  match owner_path r path o with
  | Some q => exists e, r !! q = Some e /\ (b !! o = None \/ b !! o = Some q)
  | None => b !! o = None
  end.
Proof.
  intros [Ho Ht] Hb. unfold owner_path. destruct (r !! path) as [e|] eqn:E; [exists e; naive_solver|].
  destruct (find_first _ _) as [[q e]|] eqn:Ef; simpl.
  - apply find_first_Some in Ef as [Hq%elem_of_btree_entries Hin%bool_decide_eq_true]. exists e. split; [done|]. right.
    apply Ho. unfold owners_at. by rewrite Hq.
  - rewrite find_first_None in Ef. destruct (b !! o) as [q|] eqn:Eb; [|done]. apply Ho in Eb. unfold owners_at in Eb.
    destruct (r !! q) as [e|] eqn:Eq; [|by apply not_elem_of_nil in Eb]. specialize (Ef (q, e)).
    rewrite elem_of_btree_entries in Ef. specialize (Ef Eq). unfold has_owner in Ef. simpl in Ef. by apply bool_decide_eq_false in Ef.
Qed.

Lemma retarget_owners e owners gone : us_owners (retarget e owners gone) = owners.
Proof. unfold retarget. destruct owners as [|[p i] l]; [done|]. by destruct gone. Qed.

Lemma retarget_target e owners gone :
  (gone = false -> us_owners e = [] \/ (us_pid e, us_sock_idx e) ∈ us_owners e -> owners <> [] -> (us_pid e, us_sock_idx e) ∈ owners) ->
  us_owners e = [] \/ (us_pid e, us_sock_idx e) ∈ us_owners e ->
  owners = [] \/ (us_pid (retarget e owners gone), us_sock_idx (retarget e owners gone)) ∈ owners.
Proof.
  intros Hk Ht. unfold retarget. destruct owners as [|[p i] l]; [by left|]. right. destruct gone; [by left|]. simpl. by apply Hk.
Qed.

(** A registry that differs at one path. *)
Lemma refines_at r r' b' q :
  (forall path, path <> q -> r' !! path = r !! path) ->
  (forall path o, path <> q -> o ∈ owners_at r path <-> b' !! o = Some path) ->
  (forall path e, r !! path = Some e -> us_owners e = [] \/ (us_pid e, us_sock_idx e) ∈ us_owners e) ->
  (forall o, o ∈ owners_at r' q <-> b' !! o = Some q) ->
  (forall e, r' !! q = Some e -> us_owners e = [] \/ (us_pid e, us_sock_idx e) ∈ us_owners e) ->
  unix_refines r' b'.
Proof.
  intros Hsame Ho Ht Hq Htq. split.
  - intros path o. destruct (decide (path = q)) as [->|Hne]; [done|]. unfold owners_at. rewrite Hsame by done. by apply Ho.
  - intros path e. destruct (decide (path = q)) as [->|Hne]; [apply Htq|]. rewrite Hsame by done. apply Ht.
Qed.

Lemma filter_owner (o : sock) (l : list sock) x : x ∈ List.filter (fun o' => negb (bool_decide (o' = o))) l <-> x ∈ l /\ x <> o.
Proof. rewrite elem_of_filter_bool, negb_true_iff, bool_decide_eq_false. done. Qed.

Lemma close_refines r b path o :
  unix_refines r b -> unix_ok r b (UClose path o) ->
  unix_refines (unix_remove_owner r path o.1 o.2).2 (delete o b).
Proof.
  intros Hr Hb. pose proof (owner_path_bound r b path o Hr Hb) as Hp. destruct o as [pid idx]. unfold unix_remove_owner. cbn [fst snd].
  destruct Hr as [Ho Ht]. destruct (owner_path r path (pid, idx)) as [q|]; [|by rewrite delete_id].
  destruct Hp as (e & He & Hq). rewrite He. set (owners := List.filter _ _). cbv zeta.
  set (e' := retarget e owners _).
  assert (forall path' o', path' <> q -> o' ∈ owners_at r path' <-> delete (pid, idx) b !! o' = Some path') as Hother.
  { intros path' o' Hne. rewrite Ho. destruct (decide (o' = (pid, idx))) as [->|Hno]; [rewrite lookup_delete_eq; naive_solver|].
    by rewrite lookup_delete_ne. }
  assert (forall o', o' ∈ owners <-> delete (pid, idx) b !! o' = Some q) as Hown.
  { intros o'. subst owners. rewrite filter_owner. assert (us_owners e = owners_at r q) as -> by (unfold owners_at; by rewrite He).
    rewrite Ho. destruct (decide (o' = (pid, idx))) as [->|Hno]; [rewrite lookup_delete_eq; naive_solver|]. rewrite lookup_delete_ne by done. naive_solver. }
  assert (owners = [] \/ (us_pid e', us_sock_idx e') ∈ owners) as Htgt.
  { subst e'. apply retarget_target; [|by apply (Ht q)]. intros Hg [Hnil|Hin] Hne.
    - destruct Hne. subst owners. by rewrite Hnil.
    - subst owners. apply filter_owner. split; [done|]. intros Heq. simplify_eq. by rewrite Z.eqb_refl, Nat.eqb_refl in Hg. }
  assert (forall e'', us_owners e'' = owners -> owners = [] \/ (us_pid e'', us_sock_idx e'') ∈ owners ->
    unix_refines (<[q := e'']> r) (delete (pid, idx) b)) as Hput.
  { intros e'' Heo Het. apply (refines_at r _ _ q); [intros; by rewrite lookup_insert_ne|done|done| |].
    - intros o'. rewrite owners_at_insert, bool_decide_eq_true_2, Heo by done. apply Hown.
    - intros e3. rewrite lookup_insert_eq. intros [= <-]. by rewrite Heo. }
  destruct (Nat.eqb_spec (length owners) (length (us_owners e))) as [Hlen|Hlen]; cbn [snd].
  - apply Hput; [done|]. simpl. destruct (Ht q e He) as [Hnil|Hin]; [left; apply length_zero_iff_nil; by rewrite Hlen, Hnil|]. right.
    subst owners. apply filter_owner. split; [done|]. intros Heq. assert ((pid, idx) ∈ us_owners e) as Hx by by rewrite <- Heq.
    apply (filter_length_lt (fun _ => true) (fun o' => negb (bool_decide (o' = (pid, idx)))) (us_owners e)) in Hx; [|done|done|by rewrite bool_decide_eq_true_2].
    rewrite (filter_all (fun _ => true)) in Hx by (apply Forall_true; done). lia.
  - destruct owners as [|o1 l] eqn:Eow.
    + destruct (is_abstract q); cbn [snd]; [|apply Hput; [by subst e'|by left]].
      apply (refines_at r _ _ q); [intros; by rewrite lookup_delete_ne|done|done| |].
      * intros o'. rewrite owners_at_delete, bool_decide_eq_true_2 by done. apply Hown.
      * intros e3. by rewrite lookup_delete_eq.
    + apply Hput; [subst e'; apply retarget_owners|done].
Qed.

Lemma rename_refines r b o n :
  unix_refines r b -> unix_refines (unix_rename_path r o n).2 (bind_step (unix_contains r) b (URename o n)).
Proof.
  intros [Ho Ht]. unfold unix_rename_path. cbn [bind_step].
  assert (forall x path, omap (fun p => if bool_decide (p = o) then Some n else if bool_decide (p = n) then None else Some p) b !! x = Some path <->
    (b !! x = Some o /\ path = n) \/ (b !! x = Some path /\ path <> o /\ path <> n)) as Hb.
  { intros x path. rewrite lookup_omap. destruct (b !! x) as [p|]; simpl; [|naive_solver].
    repeat case_bool_decide; naive_solver. }
  set (r' := (match r !! o with Some e => _ | None => _ end).2).
  assert (forall path, owners_at r' path = if bool_decide (path = n) then owners_at r o
                                      else if bool_decide (path = o) then [] else owners_at r path) as Hr.
  { intros path. subst r'. unfold owners_at at 2. destruct (r !! o) as [e|]; cbn [snd].
    - rewrite owners_at_insert, !owners_at_delete. by repeat case_bool_decide.
    - rewrite !owners_at_delete. by repeat case_bool_decide. }
  split.
  - intros path x. rewrite Hb, Hr. clear - Ho. case_bool_decide as H1; [subst; rewrite Ho; intuition congruence|].
    case_bool_decide as H2; [subst; rewrite elem_of_nil; intuition congruence|]. rewrite Ho. intuition congruence.
  - intros path e'. subst r'. destruct (r !! o) as [e|] eqn:E; cbn [snd].
    + destruct (decide (path = n)) as [->|]; [rewrite lookup_insert_eq; intros [= <-]; by apply (Ht o)|].
      rewrite lookup_insert_ne by done. intros [_ [_ H]%lookup_delete_Some]%lookup_delete_Some. by apply (Ht path).
    + intros [_ [_ H]%lookup_delete_Some]%lookup_delete_Some. by apply (Ht path).
Qed.

Lemma unlink_refines r b path :
  unix_refines r b -> unix_refines (delete path r) (omap (fun p => if bool_decide (p = path) then None else Some p) b).
Proof.
  intros [Ho Ht]. split.
  - intros q x. rewrite owners_at_delete, lookup_omap. specialize (Ho q x). case_bool_decide as Hq.
    + subst. rewrite elem_of_nil. destruct (b !! x) as [p|]; simpl; [|done]. by case_bool_decide; split; intros; simplify_eq.
    + rewrite Ho. destruct (b !! x) as [p|]; simpl; [|done]. case_bool_decide; [subst; split; intros; by simplify_eq|done].
  - intros q e [_ H]%lookup_delete_Some. by apply (Ht q).
Qed.

Lemma filter_pid (pid : Z) (l : list sock) x : x ∈ List.filter (fun o : sock => negb (o.1 =? pid)) l <-> x ∈ l /\ x.1 <> pid.
Proof. rewrite elem_of_filter_bool, negb_true_iff, Z.eqb_neq. done. Qed.

Lemma cleanup_entry_owners pid path e :
  match cleanup_entry pid path e with Some e' => us_owners e' | None => [] end =
  List.filter (fun o : sock => negb (o.1 =? pid)) (us_owners e).
Proof.
  unfold cleanup_entry. destruct (List.filter _ _) as [|o l] eqn:E; [by destruct (is_abstract path)|]. apply retarget_owners.
Qed.

Lemma exit_refines r b pid :
  unix_refines r b -> unix_refines (unix_cleanup_process r pid) (filter (fun e : sock * bytes => e.1.1 <> pid) b).
Proof.
  intros [Ho Ht]. assert (forall path, owners_at (unix_cleanup_process r pid) path = List.filter (fun o : sock => negb (o.1 =? pid)) (owners_at r path)) as Hr.
  { intros path. unfold owners_at, unix_cleanup_process. rewrite map_lookup_imap. destruct (r !! path) as [e|]; simpl; [|done].
    apply cleanup_entry_owners. }
  split.
  - intros path x. rewrite Hr, filter_pid, Ho, map_lookup_filter_Some. done.
  - intros path e' He'. pose proof (Hr path) as Hrp. unfold owners_at in Hrp at 1. rewrite He' in Hrp.
    unfold unix_cleanup_process in He'. rewrite map_lookup_imap in He'. unfold owners_at in Hrp.
    destruct (r !! path) as [e|] eqn:E; [|done]. simpl in He'. unfold cleanup_entry in He'. rewrite Hrp.
    destruct (List.filter _ (us_owners e)) as [|o l] eqn:Ef; [by left|]. rewrite <- Ef in *. simplify_eq.
    apply retarget_target; [|by apply (Ht path)]. intros Hg [Hnil|Hin] Hne; [by rewrite Hnil in Hne|].
    apply filter_pid. split; [done|]. simpl. by apply Z.eqb_neq.
Qed.

Lemma unix_step_refines r b op :
  unix_refines r b -> unix_ok r b op -> unix_refines (unix_step r op) (bind_step (unix_contains r) b op).
Proof.
  intros Hr Hok. destruct op.
  - by apply register_refines.
  - destruct Hok. by apply inherit_refines.
  - by apply close_refines with (path := path).
  - by apply rename_refines.
  - by apply unlink_refines.
  - by apply exit_refines.
Qed.

Lemma unix_run_refines ops r b :
  unix_refines r b -> unix_run_ok r b ops -> unix_refines (unix_run r b ops).1 (unix_run r b ops).2.
Proof.
  revert r b. induction ops as [|op ops IH]; intros r b Hr Hok; simpl; [done|]. destruct Hok as [Hop Hok].
  apply IH; [|done]. by apply unix_step_refines.
Qed.

(** The socket registry implements a map from open bound sockets to names:
    over any history of binds, inheritance, closes, renames, unlinks and process
    exits (a socket is bound once, and a close gives the name of its binding
    unless that name is free), a lookup of a path returns a socket exactly when
    some open socket is bound there, and the socket it returns is open and
    bound there. *)
Theorem unix_registry_refines ops :
  unix_run_ok unix_new ∅ ops ->
  let '(r, b) := unix_run unix_new ∅ ops in
  (forall path, is_Some (unix_lookup r path) <-> exists o, b !! o = Some path) /\
  (forall path e, unix_lookup r path = Some e -> b !! (us_pid e, us_sock_idx e) = Some path) /\
  (forall path o, b !! o = Some path -> unix_contains r path = true).
Proof.
  intros Hok. assert (unix_refines unix_new ∅) as H0.
  { split; [|done]. intros path o. unfold owners_at, unix_new. rewrite !lookup_empty, elem_of_nil. done. }
  pose proof (unix_run_refines ops _ _ H0 Hok) as [Ho Ht]. destruct (unix_run unix_new ∅ ops) as [r b]. simpl in Ho, Ht.
  assert (forall path e, unix_lookup r path = Some e <-> r !! path = Some e /\ us_owners e <> []) as Hl.
  { intros path e. unfold unix_lookup. destruct (r !! path) as [e1|]; [|naive_solver]. destruct (us_owners e1) eqn:Eo; split; intros; destruct_and?; simplify_eq; try done.
    split; [done|]. by rewrite Eo. }
  split_and!.
  - intros path. split.
    + intros [e [He Hne]%Hl]. destruct (us_owners e) as [|o l] eqn:Eo; [done|]. exists o. apply Ho. unfold owners_at. rewrite He, Eo. by left.
    + intros [o Hb]. apply Ho in Hb. unfold owners_at in Hb. destruct (r !! path) as [e|] eqn:E; [|by apply not_elem_of_nil in Hb].
      exists e. apply Hl. split; [done|]. intros Hn. rewrite Hn in Hb. by apply not_elem_of_nil in Hb.
  - intros path e [He Hne]%Hl. apply Ho. unfold owners_at. rewrite He. by destruct (Ht path e He).
  - intros path o Hb. apply Ho in Hb. unfold owners_at in Hb. unfold unix_contains. apply bool_decide_eq_true_2.
    destruct (r !! path); [by eexists|by apply not_elem_of_nil in Hb].
Qed.

(** A parent binds, its child inherits, the name is renamed, the parent closes. *)
Definition example_unix : list unix_op :=
  [URegister [47; 97] (1, 0%nat); UInherit [47; 97] (2, 0%nat); URename [47; 97] [47; 98]; UClose [47; 97] (1, 0%nat)].

Lemma unix_registry_refines_witness :
  let '(r, b) := unix_run unix_new ∅ example_unix in
  unix_lookup r [47; 98] = Some (mkSockEntry 2 0 [(2, 0%nat)]) /\ b !! (2, 0%nat) = Some [47; 98].
Proof.
  assert (unix_run_ok unix_new ∅ example_unix) as Hok.
  { split; [vm_compute; reflexivity|]. split; [split; [left; vm_compute; reflexivity|exists (1, 0%nat); vm_compute; reflexivity]|].
    split; [exact I|]. split; [right; right; vm_compute; reflexivity|exact I]. }
  pose proof (unix_registry_refines example_unix Hok) as Hth. destruct (unix_run unix_new ∅ example_unix) as [r b] eqn:E.
  assert (unix_lookup r [47; 98] = Some (mkSockEntry 2 0 [(2, 0%nat)])) as Hl.
  { change r with (r, b).1. rewrite <- E. vm_compute. reflexivity. }
  split; [exact Hl|]. exact (proj1 (proj2 Hth) [47; 98] _ Hl).
Defined.

(** ** Departures *)

(** When a renamed name is bound again, closing the first socket looks at the
    wrong entry and its own stays: a lookup returns a closed socket. *)
Example rename_rebind_leaks_owner :
  let r := (unix_run unix_new ∅ [URegister [47; 97] (1, 0%nat); URename [47; 97] [47; 98]; URegister [47; 97] (2, 0%nat);
                                 UClose [47; 97] (1, 0%nat)]).1 in
  unix_lookup r [47; 98] = Some (mkSockEntry 1 0 [(1, 0%nat)]).
Proof. vm_compute. done. Qed.

(** A child that inherits a socket whose name was renamed is not recorded: the
    name goes when the parent closes. *)
Example inherit_after_rename_lost :
  let r := (unix_run unix_new ∅ [URegister [47; 97] (1, 0%nat); URename [47; 97] [47; 98]; UInherit [47; 97] (2, 0%nat);
                                 UClose [47; 97] (1, 0%nat)]).1 in
  unix_lookup r [47; 98] = None.
Proof. vm_compute. done. Qed.

(** Renaming a directory moves the FIFO names below it and not the socket names. *)
Example directory_rename_moves_fifos_only :
  (fifo_rename_path {[ [47; 97; 47; 120] := 3%nat ]} [47; 97] [47; 98]).2 !! [47; 98; 47; 120] = Some 3%nat /\
  unix_lookup (unix_run unix_new ∅ [URegister [47; 97; 47; 120] (1, 0%nat); URename [47; 97] [47; 98]]).1 [47; 98; 47; 120] = None.
Proof. vm_compute. done. Qed.
