(* ===== verification/Backing.v ===== *)
(** * Shared descriptor backings ([crates/kernel/src/descriptor_backing.rs])

    Objects behind descriptors that belong to an open file description and not
    to a process: event, timer and signal descriptors, memory files, procfs
    snapshots and synthetic files.  Each kind has a [SharedBackingTable]: stable
    slots with one reference per owning description in any process.  A handle is
    a negative number that encodes a slot, in a range per kind.  The spin lock
    around each table only serializes access, and the kernel runs one call at a
    time; a table is a plain value here.

    The theorems: a slot is given out only when nothing refers to it and lives,
    with its value, until as many releases as references; whatever descriptors
    processes inherit and close, the references of every object are counted
    exactly; two handles that differ never share a slot, and the cursor of a
    shared description is one value whichever process moves it; the plan of
    [exec] releases exactly the references the new image does not take over. *)

From S2P Require Import Prelude Abi Lock Ofd.

Record SharedBacking (T : Type) := mkSB { sb_refs : Z; sb_value : T }.
Arguments mkSB {T} _ _.
Arguments sb_refs {T} _.
Arguments sb_value {T} _.

Abbreviation SharedBackingTable T := (list (option (SharedBacking T))).

Section shared_backing.
Context {T : Type}.
Implicit Types t : SharedBackingTable T.

Definition sb_new : SharedBackingTable T := [].

(** The first free slot, or a new one. *)
Definition sb_alloc t (value : T) : nat * SharedBackingTable T :=
  let idx := first_free t in
  (idx, if (idx <? length t)%nat then <[idx := Some (mkSB 1 value)]> t else vec_push t (Some (mkSB 1 value))).

Definition sb_entry t (idx : nat) : option (SharedBacking T) := t !! idx ≫= id.

Definition sb_get t (idx : nat) : option T := sb_value <$> sb_entry t idx.

(** Mutation through [get_mut]. *)
Definition sb_get_mut t (idx : nat) (f : T -> T) : SharedBackingTable T :=
  match sb_entry t idx with
  | Some e => <[idx := Some (mkSB (sb_refs e) (f (sb_value e)))]> t
  | None => t
  end.

Definition sb_add_ref t (idx : nat) : kresult unit * SharedBackingTable T :=
  match sb_entry t idx with
  | None => (Err EBADF, t)
  | Some e =>
      if sb_refs e + 1 <=? u32_max then (Ok (), <[idx := Some (mkSB (sb_refs e + 1) (sb_value e))]> t)
      else (Err EOVERFLOW, t)
  end.

Definition sb_release t (idx : nat) : bool * SharedBackingTable T :=
  match sb_entry t idx with
  | None => (false, t)
  | Some e =>
      if 1 <? sb_refs e then (false, <[idx := Some (mkSB (sb_refs e - 1) (sb_value e))]> t)
      else (true, <[idx := None]> t)
  end.

End shared_backing.

(** ** The kinds of backing *)

Record EventFdState := mkEventFd { ev_counter : Z; ev_semaphore : bool }.
Record TimerFdState := mkTimerFd {
  tm_clock_id : Z; tm_interval_sec : Z; tm_interval_nsec : Z; tm_value_sec : Z; tm_value_nsec : Z; tm_expirations : Z;
}.
Record SignalFdState := mkSignalFd { sf_mask : Z }.
Record MemFdBacking := mkMemFd { mem_data : bytes; mem_offset : Z }.
Record ProcfsBacking := mkProcfs { prc_data : bytes; prc_offset : Z }.
Record SyntheticRegularBacking := mkSynthetic { syn_offset : Z }.

Definition memfd_new : MemFdBacking := mkMemFd [] 0.
Definition procfs_new (data : bytes) : ProcfsBacking := mkProcfs data 0.
Definition synthetic_new : SyntheticRegularBacking := mkSynthetic 0.

(** The six static tables. *)
Record Backings := mkBackings {
  EVENTFDS : SharedBackingTable EventFdState;
  TIMERFDS : SharedBackingTable TimerFdState;
  SIGNALFDS : SharedBackingTable SignalFdState;
  MEMFDS : SharedBackingTable MemFdBacking;
  PROCFS_BUFS : SharedBackingTable ProcfsBacking;
  SYNTHETIC_REGULARS : SharedBackingTable SyntheticRegularBacking;
}.

Inductive backing_kind := KEvent | KTimer | KSignal | KMem | KProcfs | KSynthetic.

#[export] Instance backing_kind_eq_dec : EqDecision backing_kind.
Proof. solve_decision. Defined.

Definition value_of (k : backing_kind) : Type :=
  match k with
  | KEvent => EventFdState
  | KTimer => TimerFdState
  | KSignal => SignalFdState
  | KMem => MemFdBacking
  | KProcfs => ProcfsBacking
  | KSynthetic => SyntheticRegularBacking
  end.

Definition table_of (b : Backings) (k : backing_kind) : SharedBackingTable (value_of k) :=
  match k with
  | KEvent => EVENTFDS b
  | KTimer => TIMERFDS b
  | KSignal => SIGNALFDS b
  | KMem => MEMFDS b
  | KProcfs => PROCFS_BUFS b
  | KSynthetic => SYNTHETIC_REGULARS b
  end.

Definition set_table (b : Backings) (k : backing_kind) : SharedBackingTable (value_of k) -> Backings :=
  match k with
  | KEvent => fun t => mkBackings t (TIMERFDS b) (SIGNALFDS b) (MEMFDS b) (PROCFS_BUFS b) (SYNTHETIC_REGULARS b)
  | KTimer => fun t => mkBackings (EVENTFDS b) t (SIGNALFDS b) (MEMFDS b) (PROCFS_BUFS b) (SYNTHETIC_REGULARS b)
  | KSignal => fun t => mkBackings (EVENTFDS b) (TIMERFDS b) t (MEMFDS b) (PROCFS_BUFS b) (SYNTHETIC_REGULARS b)
  | KMem => fun t => mkBackings (EVENTFDS b) (TIMERFDS b) (SIGNALFDS b) t (PROCFS_BUFS b) (SYNTHETIC_REGULARS b)
  | KProcfs => fun t => mkBackings (EVENTFDS b) (TIMERFDS b) (SIGNALFDS b) (MEMFDS b) t (SYNTHETIC_REGULARS b)
  | KSynthetic => fun t => mkBackings (EVENTFDS b) (TIMERFDS b) (SIGNALFDS b) (MEMFDS b) (PROCFS_BUFS b) t
  end.

(** ** Handles *)

Definition PROCFS_BUF_BASE : Z := 200.
Definition SYNTHETIC_REGULAR_HANDLE_BASE : Z := 1000000000.

Definition is_procfs_buf_handle (h : Z) : bool := (h <=? - PROCFS_BUF_BASE) && (- SYNTHETIC_REGULAR_HANDLE_BASE <? h).
Definition procfs_buf_idx (h : Z) : nat := Z.to_nat (- (h + PROCFS_BUF_BASE)).
Definition procfs_buf_handle (idx : nat) : Z := - (PROCFS_BUF_BASE + Z.of_nat idx).

Definition is_synthetic_regular_handle (h : Z) : bool := h <=? - SYNTHETIC_REGULAR_HANDLE_BASE.

Definition alloc_synthetic_regular (b : Backings) : Z * Backings :=
  let '(idx, t) := sb_alloc (SYNTHETIC_REGULARS b) synthetic_new in
  (- (SYNTHETIC_REGULAR_HANDLE_BASE + Z.of_nat idx), set_table b KSynthetic t).

Section backings.
Context `{Usize}.

(** [usize::try_from]. *)
Definition usize_try_from (v : Z) : kresult nat := if (0 <=? v) && (v <=? usize_max) then Ok (Z.to_nat v) else Err EBADF.

Definition synthetic_regular_idx (h : Z) : kresult nat :=
  if negb (is_synthetic_regular_handle h) then Err EBADF
  else usize_try_from (- (h + SYNTHETIC_REGULAR_HANDLE_BASE)).

(** [checked_neg] fails on the least [i64] only. *)
Definition negative_handle_idx (h : Z) : kresult nat :=
  if 0 <=? h then Err EBADF
  else if h =? i64_min then Err EBADF
  else usize_try_from (- h - 1).

(** The arms of the matches on the file type and the handle. *)
Definition kind_of (ft : FileType) (h : Z) : option backing_kind :=
  match ft with
  | EventFd => Some KEvent
  | TimerFd => Some KTimer
  | SignalFd => Some KSignal
  | MemFd => Some KMem
  | Regular => if is_procfs_buf_handle h then Some KProcfs else if is_synthetic_regular_handle h then Some KSynthetic else None
  | _ => None
  end.

Definition idx_of (k : backing_kind) (h : Z) : kresult nat :=
  match k with
  | KProcfs => Ok (procfs_buf_idx h)
  | KSynthetic => synthetic_regular_idx h
  | _ => negative_handle_idx h
  end.

Definition manages_ofd (ft : FileType) (h : Z) : bool :=
  match ft with
  | EventFd | TimerFd | SignalFd | MemFd => true
  | Regular => is_procfs_buf_handle h || is_synthetic_regular_handle h
  | _ => false
  end.

Definition offset_of (k : backing_kind) : option (value_of k -> Z) :=
  match k with
  | KMem => Some mem_offset
  | KProcfs => Some prc_offset
  | KSynthetic => Some syn_offset
  | _ => None
  end.

Definition set_offset (k : backing_kind) (o : Z) : option (value_of k -> value_of k) :=
  match k with
  | KMem => Some (fun v => mkMemFd (mem_data v) o)
  | KProcfs => Some (fun v => mkProcfs (prc_data v) o)
  | KSynthetic => Some (fun _ => mkSynthetic o)
  | _ => None
  end.

Definition current_offset (b : Backings) (ft : FileType) (h local_offset : Z) : kresult Z :=
  match kind_of ft h with
  | Some k =>
      match offset_of k with
      | Some offset =>
          let? idx := idx_of k h in
          ok_or (offset <$> sb_get (table_of b k) idx) EBADF
      | None => Ok local_offset
      end
  | None => Ok local_offset
  end.

Definition set_current_offset (b : Backings) (ft : FileType) (h offset : Z) : kresult bool * Backings :=
  match kind_of ft h with
  | Some k =>
      match set_offset k offset with
      | Some f =>
          match idx_of k h with
          | Err e => (Err e, b)
          | Ok idx =>
              match sb_get (table_of b k) idx with
              | None => (Err EBADF, b)
              | Some _ => (Ok true, set_table b k (sb_get_mut (table_of b k) idx f))
              end
          end
      | None => (Ok false, b)
      end
  | None => (Ok false, b)
  end.

Definition add_ref_for_ofd (b : Backings) (ft : FileType) (h : Z) : kresult bool * Backings :=
  match kind_of ft h with
  | None => (Ok false, b)
  | Some k =>
      match idx_of k h with
      | Err e => (Err e, b)
      | Ok idx =>
          match sb_add_ref (table_of b k) idx with
          | (Err e, t) => (Err e, set_table b k t)
          | (Ok _, t) => (Ok true, set_table b k t)
          end
      end
  end.

Definition release_for_ofd (b : Backings) (ft : FileType) (h : Z) : bool * Backings :=
  match kind_of ft h with
  | None => (false, b)
  | Some k =>
      match idx_of k h with
      | Err _ => (false, b)
      | Ok idx => let '(freed, t) := sb_release (table_of b k) idx in (freed, set_table b k t)
      end
  end.

Fixpoint release_backings (b : Backings) (l : list (FileType * Z)) : Backings :=
  match l with
  | [] => b
  | (ft, h) :: l' => release_backings (release_for_ofd b ft h).2 l'
  end.

(** ** The plan of [exec] *)

(** The keys of the descriptions that have a backing, in slot order. *)
Definition managed (t : OfdTable) : list (FileType * Z) :=
  omap (fun e : nat * OpenFileDesc =>
          if manages_ofd (file_type e.2) (host_handle e.2) then Some (file_type e.2, host_handle e.2) else None) (iter t).

(** [find(|(idx, key)| !retained[idx] && key == wanted)], then [retained[idx] = true]. *)
Fixpoint retain_one (old : list (FileType * Z * bool)) (key : FileType * Z) : option (list (FileType * Z * bool)) :=
  match old with
  | [] => None
  | (k, retained) :: old' =>
      if negb retained && bool_decide (k = key) then Some ((k, true) :: old')
      else (fun l => (k, retained) :: l) <$> retain_one old' key
  end.

Fixpoint retain_all (old : list (FileType * Z * bool)) (keys : list (FileType * Z)) : kresult (list (FileType * Z * bool)) :=
  match keys with
  | [] => Ok old
  | key :: keys' => match retain_one old key with None => Err EBADF | Some old' => retain_all old' keys' end
  end.

Definition removed_backings_for_exec (old replacement : OfdTable) : kresult (list (FileType * Z)) :=
  let? plan := retain_all ((fun k => (k, false)) <$> managed old) (managed replacement) in
  Ok (omap (fun e : FileType * Z * bool => if e.2 then None else Some e.1) plan).

End backings.

(** ** A table is a store of counted references *)

Section refine.
Context {T : Type}.
Implicit Types t : SharedBackingTable T.

Lemma sb_entry_Some t idx e : sb_entry t idx = Some e <-> t !! idx = Some (Some e).
Proof. unfold sb_entry. destruct (t !! idx) as [[|]|]; simpl; naive_solver. Qed.

Lemma sb_entry_insert t idx x j : (idx < length t)%nat -> sb_entry (<[idx := x]> t) j = if (j =? idx)%nat then x else sb_entry t j.
Proof.
  intros Hl. unfold sb_entry. destruct (Nat.eqb_spec j idx) as [->|]; [by rewrite list_lookup_insert_eq|by rewrite list_lookup_insert_ne].
Qed.

Lemma sb_entry_update t idx e x j : sb_entry t idx = Some e -> sb_entry (<[idx := x]> t) j = if (j =? idx)%nat then x else sb_entry t j.
Proof. intros Hs%sb_entry_Some. apply sb_entry_insert. by eapply lookup_lt_Some. Qed.

Lemma first_free_None {A} (l : list (option A)) : l !! first_free l ≫= id = None.
Proof. by induction l as [|[a|] l IH]. Qed.

Lemma sb_alloc_spec t v :
  let '(idx, t') := sb_alloc t v in
  sb_entry t idx = None /\ forall j, sb_entry t' j = if (j =? idx)%nat then Some (mkSB 1 v) else sb_entry t j.
Proof.
  unfold sb_alloc. split; [apply first_free_None|]. intros j. destruct (first_free_spec t) as [Hle _].
  destruct (Nat.ltb_spec (first_free t) (length t)) as [Hl|Hl]; [by apply sb_entry_insert|].
  replace (first_free t) with (length t) by lia. unfold sb_entry, vec_push. destruct (Nat.eqb_spec j (length t)) as [->|Hne].
  - by rewrite list_lookup_middle.
  - destruct (Nat.ltb_spec j (length t)); [by rewrite lookup_app_l|]. by rewrite !lookup_ge_None_2 by (rewrite ?length_app; simpl; lia).
Qed.

Inductive sb_op :=
| BAlloc (v : T)
| BAddRef (idx : nat)
| BRelease (idx : nat)
| BWrite (idx : nat) (f : T -> T).

(** What a caller sees of a step: a slot, a result, whether the object was freed. *)
Inductive sb_seen := SeenSlot (idx : nat) | SeenResult (r : kresult unit) | SeenFreed (b : bool) | SeenNothing.

Definition sb_step t (op : sb_op) : sb_seen * SharedBackingTable T :=
  match op with
  | BAlloc v => let '(idx, t') := sb_alloc t v in (SeenSlot idx, t')
  | BAddRef idx => let '(r, t') := sb_add_ref t idx in (SeenResult r, t')
  | BRelease idx => let '(b, t') := sb_release t idx in (SeenFreed b, t')
  | BWrite idx f => (SeenNothing, sb_get_mut t idx f)
  end.

(** The specification: for each live object the number of references and the
    value.  Allocation may return any slot without an object. *)
Abbreviation store := (gmap nat (Z * T)).

Definition store_step (m : store) (op : sb_op) (seen : sb_seen) (m' : store) : Prop :=
  match op with
  | BAlloc v => exists idx, seen = SeenSlot idx /\ m !! idx = None /\ m' = <[idx := (1, v)]> m
  | BAddRef idx =>
      match m !! idx with
      | None => seen = SeenResult (Err EBADF) /\ m' = m
      | Some (c, v) =>
          if c <? u32_max then seen = SeenResult (Ok ()) /\ m' = <[idx := (c + 1, v)]> m
          else seen = SeenResult (Err EOVERFLOW) /\ m' = m
      end
  | BRelease idx =>
      match m !! idx with
      | None => seen = SeenFreed false /\ m' = m
      | Some (c, v) =>
          if c =? 1 then seen = SeenFreed true /\ m' = delete idx m
          else seen = SeenFreed false /\ m' = <[idx := (c - 1, v)]> m
      end
  | BWrite idx f => seen = SeenNothing /\ m' = alter (fun e => (e.1, f e.2)) idx m
  end.

Inductive store_run : store -> list (sb_op * sb_seen) -> store -> Prop :=
| store_run_nil m : store_run m [] m
| store_run_cons m op seen m1 l m2 : store_step m op seen m1 -> store_run m1 l m2 -> store_run m ((op, seen) :: l) m2.

Fixpoint sb_run t (ops : list sb_op) : list (sb_op * sb_seen) * SharedBackingTable T :=
  match ops with
  | [] => ([], t)
  | op :: ops' =>
      let '(seen, t1) := sb_step t op in
      let '(l, t2) := sb_run t1 ops' in ((op, seen) :: l, t2)
  end.

(** The table holds the store. *)
Definition holds t (m : store) : Prop :=
  (forall idx, sb_entry t idx = (fun e => mkSB e.1 e.2) <$> m !! idx) /\ map_Forall (fun _ e => 1 <= e.1 <= u32_max) m.

Lemma holds_update t m idx e x :
  holds t m -> sb_entry t idx = Some e -> (forall c v, x = Some (mkSB c v) -> 1 <= c <= u32_max) ->
  holds (<[idx := x]> t) (partial_alter (fun _ => (fun s => (sb_refs s, sb_value s)) <$> x) idx m).
Proof.
  intros [He Hp] Hs Hx. split.
  - intros j. rewrite (sb_entry_update _ _ _ _ _ Hs). destruct (Nat.eqb_spec j idx) as [->|Hne].
    + rewrite lookup_partial_alter_eq. by destruct x as [[]|].
    + rewrite lookup_partial_alter_ne by done. apply He.
  - intros j [c v]. destruct (decide (j = idx)) as [->|Hne].
    + rewrite lookup_partial_alter_eq. destruct x as [[c' v']|]; [|done]. intros [= <- <-]. by eapply Hx.
    + rewrite lookup_partial_alter_ne by done. apply Hp.
Qed.

Lemma holds_lookup t m idx :
  holds t m -> match m !! idx with Some (c, v) => sb_entry t idx = Some (mkSB c v) /\ 1 <= c <= u32_max | None => sb_entry t idx = None end.
Proof.
  intros [He Hp]. rewrite He. destruct (m !! idx) as [[c v]|] eqn:E; [|done]. split; [done|]. exact (Hp idx (c, v) E).
Qed.

Lemma sb_step_refines t m op :
  holds t m -> let '(seen, t') := sb_step t op in exists m', store_step m op seen m' /\ holds t' m'.
Proof.
  intros Hh. destruct op as [v|idx|idx|idx f]; cbn [sb_step].
  - pose proof (sb_alloc_spec t v) as Ha. destruct (sb_alloc t v) as [idx t']. destruct Ha as [Hn Ha].
    pose proof (holds_lookup t m idx Hh) as Hl. exists (<[idx := (1, v)]> m). split.
    + exists idx. split_and!; [done| |done]. destruct (m !! idx) as [[]|]; [|done]. destruct Hl. congruence.
    + destruct Hh as [He Hp]. split.
      * intros j. rewrite Ha. destruct (Nat.eqb_spec j idx) as [->|]; [by rewrite lookup_insert_eq|by rewrite lookup_insert_ne].
      * apply map_Forall_insert_2; [|done]. unfold u32_max. simpl. lia.
  - unfold sb_add_ref. pose proof (holds_lookup t m idx Hh) as Hl. cbn [store_step]. destruct (m !! idx) as [[c v]|] eqn:E.
    + destruct Hl as [Hs Hc]. rewrite Hs. cbn [sb_refs sb_value]. destruct (Z.leb_spec (c + 1) u32_max), (Z.ltb_spec c u32_max); try lia.
      * eexists. split; [done|]. apply (holds_update t m idx _ (Some (mkSB (c + 1) v)) Hh Hs). intros ?? [= <- <-]. lia.
      * by eexists.
    + rewrite Hl. by eexists.
  - unfold sb_release. pose proof (holds_lookup t m idx Hh) as Hl. cbn [store_step]. destruct (m !! idx) as [[c v]|] eqn:E.
    + destruct Hl as [Hs Hc]. rewrite Hs. cbn [sb_refs sb_value]. destruct (Z.ltb_spec 1 c), (Z.eqb_spec c 1); try lia.
      * eexists. split; [done|]. apply (holds_update t m idx _ (Some (mkSB (c - 1) v)) Hh Hs). intros ?? [= <- <-]. lia.
      * eexists. split; [done|]. by apply (holds_update t m idx _ None Hh Hs).
    + rewrite Hl. by eexists.
  - eexists. split; [done|]. unfold sb_get_mut. pose proof (holds_lookup t m idx Hh) as Hl. destruct (m !! idx) as [[c v]|] eqn:E.
    + destruct Hl as [Hs Hc]. rewrite Hs. cbn [sb_refs sb_value].
      pose proof (holds_update t m idx _ (Some (mkSB c (f v))) Hh Hs) as Hu. simpl in Hu.
      assert (alter (fun e => (e.1, f e.2)) idx m = partial_alter (fun _ => Some (c, f v)) idx m) as ->.
      { apply map_eq. intros j. destruct (decide (idx = j)) as [<-|]; [by rewrite lookup_alter_eq, lookup_partial_alter_eq, E|].
        by rewrite lookup_alter_ne, lookup_partial_alter_ne. }
      apply Hu. intros ?? [= <- <-]. lia.
    + rewrite Hl. by rewrite alter_id' by done.
Qed.

(** any run of a backing table is a run of the store: a new object takes a slot
    that has none, references are added and released one by one (EBADF without
    an object, EOVERFLOW past the largest count), the object is freed by the
    release of its last reference and by no other, and until then it is found
    in its slot with the value last written. *)
Theorem shared_backing_refines ops :
  exists m, store_run ∅ (sb_run sb_new ops).1 m /\
  forall idx, sb_get (sb_run sb_new ops).2 idx = snd <$> m !! idx.
Proof.
  assert (forall ops t m, holds t m -> exists m', store_run m (sb_run t ops).1 m' /\ holds (sb_run t ops).2 m') as Hr.
  { clear ops. induction ops as [|op ops IH]; intros t m Hh; simpl; [exists m; split; [constructor|done]|].
    pose proof (sb_step_refines t m op Hh) as Hs. destruct (sb_step t op) as [seen t1]. destruct Hs as (m1 & Hs & Hh1).
    destruct (IH t1 m1 Hh1) as (m2 & Hr & Hh2). destruct (sb_run t1 ops) as [l t2]. exists m2. split; [by econstructor|done]. }
  destruct (Hr ops sb_new ∅) as (m & Hm & He & _).
  { split; [|apply map_Forall_empty]. intros idx. by rewrite lookup_empty. }
  exists m. split; [done|]. intros idx. unfold sb_get. rewrite He. by destruct (m !! idx) as [[]|].
Qed.

End refine.

(** ** References of a key *)

Section accounting.
Context `{Usize}.

(** The slot a description's type and handle stand for. *)
Definition slot_of (ft : FileType) (h : Z) : option (backing_kind * nat) :=
  match kind_of ft h with
  | Some k => match idx_of k h with Ok idx => Some (k, idx) | Err _ => None end
  | None => None
  end.

Definition refs_at (b : Backings) (s : backing_kind * nat) : Z :=
  match sb_entry (table_of b s.1) s.2 with Some e => sb_refs e | None => 0 end.

Lemma table_set_same b k t : table_of (set_table b k t) k = t.
Proof. by destruct k. Qed.

Lemma table_set_other b k t k' : k' <> k -> table_of (set_table b k t) k' = table_of b k'.
Proof. by destruct k, k'. Qed.

Lemma refs_at_set b k t s :
  refs_at (set_table b k t) s = if bool_decide (s.1 = k) then match sb_entry t s.2 with Some e => sb_refs e | None => 0 end else refs_at b s.
Proof.
  destruct s as [k' idx]. unfold refs_at. cbn [fst snd]. case_bool_decide as Hk; [subst; by rewrite table_set_same|by rewrite table_set_other].
Qed.

Definition hit (s s' : backing_kind * nat) : Z := if bool_decide (s = s') then 1 else 0.

(** One slot of one table changed. *)
Lemma refs_at_put b k idx e x s :
  sb_entry (table_of b k) idx = Some e ->
  refs_at (set_table b k (<[idx := x]> (table_of b k))) s =
  if bool_decide (s = (k, idx)) then match x with Some e' => sb_refs e' | None => 0 end else refs_at b s.
Proof.
  intros He. rewrite refs_at_set. destruct s as [k' j]. cbn [fst snd]. case_bool_decide as Hk.
  - subst k'. rewrite (sb_entry_update _ _ _ _ _ He). destruct (Nat.eqb_spec j idx) as [->|Hne].
    + by rewrite bool_decide_eq_true_2.
    + rewrite bool_decide_eq_false_2 by congruence. done.
  - by rewrite bool_decide_eq_false_2 by congruence.
Qed.

Lemma add_ref_for_ofd_refs b ft h r b' :
  add_ref_for_ofd b ft h = (r, b') ->
  match r with
  | Ok true => exists s, slot_of ft h = Some s /\ forall s', refs_at b' s' = refs_at b s' + hit s s'
  | Ok false => kind_of ft h = None /\ b' = b
  | Err e => (forall s', refs_at b' s' = refs_at b s') /\ (e = EBADF \/ e = EOVERFLOW)
  end.
Proof.
  unfold add_ref_for_ofd, slot_of. destruct (kind_of ft h) as [k|] eqn:Ek; [|intros [= <- <-]; done].
  assert (forall e, idx_of k h = Err e -> e = EBADF) as Hie.
  { destruct k; simpl; unfold negative_handle_idx, synthetic_regular_idx, usize_try_from; intros e; repeat case_bool_step; intros; by simplify_eq. }
  destruct (idx_of k h) as [idx|e] eqn:Ei; [|intros [= <- <-]; split; [done|left; by apply Hie]].
  unfold sb_add_ref. destruct (sb_entry (table_of b k) idx) as [e|] eqn:Ee.
  - destruct (sb_refs e + 1 <=? u32_max); intros [= <- <-].
    + exists (k, idx). split; [done|]. intros s'. rewrite (refs_at_put _ _ _ _ _ _ Ee). unfold hit.
      destruct (decide (s' = (k, idx))) as [->|Hne]; [|rewrite !bool_decide_eq_false_2 by congruence; lia].
      rewrite !bool_decide_eq_true_2 by done. unfold refs_at. cbn [fst snd]. rewrite Ee. done.
    + split; [|by right]. intros s'. rewrite refs_at_set. case_bool_decide as Hs; [|done]. destruct s' as [k' j]. simpl in *. by subst.
  - intros [= <- <-]. split; [|by left]. intros s'. rewrite refs_at_set. case_bool_decide as Hs; [|done]. destruct s' as [k' j]. simpl in *. by subst.
Qed.

Definition refs_positive (b : Backings) : Prop :=
  forall k idx e, sb_entry (table_of b k) idx = Some e -> 1 <= sb_refs e.

Lemma release_for_ofd_refs b ft h freed b' :
  refs_positive b -> release_for_ofd b ft h = (freed, b') ->
  match slot_of ft h with
  | Some s =>
      (forall s', refs_at b' s' = Z.max 0 (refs_at b s' - hit s s')) /\ (freed = true <-> refs_at b s = 1)
  | None => b' = b /\ freed = false
  end.
Proof.
  intros Hpos. unfold release_for_ofd, slot_of. destruct (kind_of ft h) as [k|] eqn:Ek; [|by intros [= <- <-]].
  destruct (idx_of k h) as [idx|e] eqn:Ei; [|by intros [= <- <-]].
  assert (forall s', 0 <= refs_at b s') as H0.
  { intros [k' j]. unfold refs_at. cbn [fst snd]. destruct (sb_entry _ _) as [e|] eqn:E; [|done]. specialize (Hpos _ _ _ E). lia. }
  unfold sb_release. destruct (sb_entry (table_of b k) idx) as [e|] eqn:Ee.
  - pose proof (Hpos _ _ _ Ee) as Hc. assert (refs_at b (k, idx) = sb_refs e) as Hre by (unfold refs_at; cbn [fst snd]; by rewrite Ee).
    assert (forall x s', refs_at (set_table b k (<[idx := x]> (table_of b k))) s' =
      if bool_decide (s' = (k, idx)) then match x with Some e' => sb_refs e' | None => 0 end else refs_at b s') as Hput
      by (intros; by eapply refs_at_put).
    destruct (Z.ltb_spec 1 (sb_refs e)); intros [= <- <-].
    + split; [|rewrite Hre; split; [done|lia]]. intros s'. rewrite Hput. unfold hit.
      destruct (decide (s' = (k, idx))) as [->|Hne].
      * rewrite !bool_decide_eq_true_2 by done. rewrite Hre. simpl. lia.
      * rewrite !bool_decide_eq_false_2 by congruence. specialize (H0 s'). lia.
    + split; [|rewrite Hre; split; [lia|done]]. intros s'. rewrite Hput. unfold hit.
      destruct (decide (s' = (k, idx))) as [->|Hne].
      * rewrite !bool_decide_eq_true_2 by done. rewrite Hre. lia.
      * rewrite !bool_decide_eq_false_2 by congruence. specialize (H0 s'). lia.
  - assert (refs_at b (k, idx) = 0) as Hre by (unfold refs_at; cbn [fst snd]; by rewrite Ee).
    intros [= <- <-]. split; [|rewrite Hre; split; [done|lia]]. intros s'.
    assert (refs_at (set_table b k (table_of b k)) s' = refs_at b s') as ->.
    { rewrite refs_at_set. case_bool_decide as Hs; [|done]. destruct s' as [k' j]. simpl in *. by subst. }
    unfold hit. case_bool_decide as Hs; [subst; rewrite Hre; done|]. specialize (H0 s'). lia.
Qed.

End accounting.

(** ** The cursor of a shared description *)

Section cursor.
Context `{Usize}.

Lemma idx_of_EBADF k h e : idx_of k h = Err e -> e = EBADF.
Proof.
  destruct k; simpl; unfold negative_handle_idx, synthetic_regular_idx, usize_try_from; intros; repeat case_match; by simplify_eq.
Qed.

(** A handle of a kind is its slot, shifted. *)
Lemma idx_of_base ft h k idx :
  kind_of ft h = Some k -> idx_of k h = Ok idx ->
  h = - Z.of_nat idx - match k with KProcfs => PROCFS_BUF_BASE | KSynthetic => SYNTHETIC_REGULAR_HANDLE_BASE | _ => 1 end.
Proof.
  intros Hk Hi. destruct k; simpl in Hi; unfold negative_handle_idx, synthetic_regular_idx, usize_try_from in Hi;
    repeat case_bool_step; simplify_eq; try lia; unfold procfs_buf_idx, PROCFS_BUF_BASE, is_synthetic_regular_handle in *; simplify_eq.
  destruct ft; simpl in Hk; try done. unfold is_procfs_buf_handle, PROCFS_BUF_BASE in Hk. repeat case_bool_step; try done; lia.
Qed.

Definition type_of (k : backing_kind) : FileType :=
  match k with KEvent => EventFd | KTimer => TimerFd | KSignal => SignalFd | KMem => MemFd | KProcfs | KSynthetic => Regular end.

Lemma kind_of_type ft h k : kind_of ft h = Some k -> ft = type_of k.
Proof. destruct ft; simpl; intros; repeat case_match; by simplify_eq. Qed.

(** Different descriptors stand for different slots. *)
Lemma slot_of_inj ft h ft' h' s : slot_of ft h = Some s -> slot_of ft' h' = Some s -> (ft, h) = (ft', h').
Proof.
  unfold slot_of. intros H1 H2. destruct (kind_of ft h) as [k|] eqn:E; [|done]. destruct (idx_of k h) as [i|] eqn:Ei; [|done].
  destruct (kind_of ft' h') as [k'|] eqn:E'; [|done]. destruct (idx_of k' h') as [i'|] eqn:Ei'; [|done]. simplify_eq.
  by rewrite (kind_of_type _ _ _ E), (kind_of_type _ _ _ E'), (idx_of_base _ _ _ _ E Ei), (idx_of_base _ _ _ _ E' Ei').
Qed.

Lemma sb_get_get_mut {T} (t : SharedBackingTable T) idx f j :
  sb_get (sb_get_mut t idx f) j = if (j =? idx)%nat then f <$> sb_get t j else sb_get t j.
Proof.
  unfold sb_get, sb_get_mut. destruct (sb_entry t idx) as [e|] eqn:E.
  - rewrite (sb_entry_update _ _ _ _ _ E). destruct (Nat.eqb_spec j idx) as [->|]; [|done]. by rewrite E.
  - destruct (Nat.eqb_spec j idx) as [->|]; [|done]. by rewrite E.
Qed.

Lemma offset_set_offset k o f g v : set_offset k o = Some f -> offset_of k = Some g -> g (f v) = o.
Proof. destruct k; simpl; intros; by simplify_eq. Qed.

Lemma set_offset_offset_of k o : is_Some (set_offset k o) <-> is_Some (offset_of k).
Proof. destruct k; simpl; split; intros [? ?]; by eauto. Qed.

(** The cursor as a function of the slot. *)
Definition slot_offset (b : Backings) (s : backing_kind * nat) : option Z :=
  offset_of s.1 ≫= fun g => g <$> sb_get (table_of b s.1) s.2.

Lemma current_offset_slot b ft h l :
  current_offset b ft h l =
  match kind_of ft h with
  | Some k => if offset_of k then ok_or (slot_of ft h ≫= slot_offset b) EBADF else Ok l
  | None => Ok l
  end.
Proof.
  unfold current_offset, slot_of. destruct (kind_of ft h) as [k|]; [|done].
  destruct (offset_of k) as [g|] eqn:Eg; [|done]. destruct (idx_of k h) as [idx|e] eqn:Ei; simpl.
  - unfold slot_offset. simpl. by rewrite Eg.
  - by rewrite (idx_of_EBADF _ _ _ Ei).
Qed.

Lemma slot_offset_set b k idx f o s :
  set_offset k o = Some f -> is_Some (sb_get (table_of b k) idx) ->
  slot_offset (set_table b k (sb_get_mut (table_of b k) idx f)) s =
  if bool_decide (s = (k, idx)) then Some o else slot_offset b s.
Proof.
  intros Hf [v Hv]. destruct s as [k' j]. unfold slot_offset. cbn [fst snd].
  destruct (decide (k' = k)) as [->|Hk].
  - rewrite table_set_same, sb_get_get_mut. destruct (set_offset_offset_of k o) as [Hg _].
    destruct Hg as [g Hg]; [by eexists|]. rewrite Hg. simpl. destruct (Nat.eqb_spec j idx) as [->|Hj].
    + rewrite bool_decide_eq_true_2 by done. rewrite Hv. simpl. by rewrite (offset_set_offset _ _ _ _ _ Hf Hg).
    + by rewrite bool_decide_eq_false_2 by congruence.
  - rewrite table_set_other by done. by rewrite bool_decide_eq_false_2 by congruence.
Qed.

(** the cursor of a shared description is one value for all its owners: after
    a successful move every reader of the same handle sees the new position and
    the cursor of every other description is what it was; a description whose
    cursor is private is left alone (the caller keeps it), and a handle without
    an object is refused with EBADF by the move exactly as by the read. *)
Theorem shared_cursor b ft h o :
  let '(r, b') := set_current_offset b ft h o in
  match r with
  | Ok true =>
      (forall l, current_offset b' ft h l = Ok o) /\
      (forall ft' h' l, (ft', h') <> (ft, h) -> current_offset b' ft' h' l = current_offset b ft' h' l)
  | Ok false => b' = b /\ forall l, current_offset b ft h l = Ok l
  | Err e => e = EBADF /\ b' = b /\ forall l, current_offset b ft h l = Err EBADF
  end.
Proof.
  unfold set_current_offset. destruct (kind_of ft h) as [k|] eqn:Ek.
  2:{ split; [done|]. intros l. by rewrite current_offset_slot, Ek. }
  pose proof (set_offset_offset_of k o) as Hio. destruct (set_offset k o) as [f|] eqn:Ef.
  2:{ split; [done|]. intros l. rewrite current_offset_slot, Ek. destruct (offset_of k) as [g|] eqn:Eg; [|done].
      destruct Hio as [_ Hio]. destruct Hio as [? [=]]. by eexists. }
  destruct Hio as [Hio _]. destruct Hio as [g Hg]; [by eexists|].
  destruct (idx_of k h) as [idx|e] eqn:Ei.
  2:{ rewrite (idx_of_EBADF _ _ _ Ei). split_and!; [done..|]. intros l. rewrite current_offset_slot, Ek, Hg. unfold slot_of. by rewrite Ek, Ei. }
  assert (slot_of ft h = Some (k, idx)) as Hslot by (unfold slot_of; by rewrite Ek, Ei).
  destruct (sb_get (table_of b k) idx) as [v|] eqn:Ev.
  2:{ split_and!; [done..|]. intros l. rewrite current_offset_slot, Ek, Hg, Hslot. unfold slot_offset. simpl. by rewrite Hg, Ev. }
  assert (is_Some (sb_get (table_of b k) idx)) as Hsome by (by eexists).
  split.
  - intros l. rewrite current_offset_slot, Ek, Hg, Hslot. cbn [mbind option_bind].
    rewrite (slot_offset_set _ _ _ _ _ _ Ef Hsome). by rewrite bool_decide_eq_true_2.
  - intros ft' h' l Hne. rewrite !current_offset_slot. destruct (kind_of ft' h') as [k'|]; [|done]. destruct (offset_of k'); [|done].
    f_equal. destruct (slot_of ft' h') as [s|] eqn:Es; [|done]. cbn [mbind option_bind].
    rewrite (slot_offset_set _ _ _ _ _ _ Ef Hsome). rewrite bool_decide_eq_false_2; [done|].
    intros ->. apply Hne. by eapply slot_of_inj.
Qed.

(** ** What [exec] releases *)

(** The keys not marked, and those marked. *)
Definition unmarked (p : list (FileType * Z * bool)) : list (FileType * Z) :=
  omap (fun e : FileType * Z * bool => if e.2 then None else Some e.1) p.

Lemma unmarked_cons k b p : unmarked ((k, b) :: p) = (if b then unmarked p else k :: unmarked p).
Proof. by destruct b. Qed.

Lemma retain_one_Some p key p' : retain_one p key = Some p' -> unmarked p ≡ₚ key :: unmarked p'.
Proof.
  revert p'. induction p as [|[k b] p IH]; intros p' Hp; [done|]. cbn [retain_one] in Hp. rewrite unmarked_cons.
  destruct b; cbn [negb andb] in Hp.
  - apply fmap_Some in Hp as (p1 & Hp & ->). rewrite unmarked_cons. by apply IH.
  - case_bool_decide; [simplify_eq; by rewrite unmarked_cons|].
    apply fmap_Some in Hp as (p1 & Hp & ->). rewrite unmarked_cons, (IH _ Hp). by constructor.
Qed.

Lemma retain_one_None p key : retain_one p key = None -> key ∉ unmarked p.
Proof.
  induction p as [|[k b] p IH]; cbn [retain_one]; [by intros _ ?%elem_of_nil|]. rewrite unmarked_cons. destruct b; cbn [negb andb].
  - intros Hp%fmap_None. by apply IH.
  - case_bool_decide; [done|]. intros Hp%fmap_None. specialize (IH Hp). by intros [->|?]%elem_of_cons.
Qed.

Lemma retain_all_spec p keys :
  match retain_all p keys with
  | Ok p' => unmarked p ≡ₚ keys ++ unmarked p'
  | Err e => e = EBADF /\ forall rest, ~ (unmarked p ≡ₚ keys ++ rest)
  end.
Proof.
  revert p. induction keys as [|key keys IH]; intros p; simpl; [done|].
  destruct (retain_one p key) as [p1|] eqn:E.
  - pose proof (retain_one_Some _ _ _ E) as Hp. specialize (IH p1). destruct (retain_all p1 keys) as [p'|e].
    + by rewrite Hp, IH.
    + destruct IH as [-> IH]. split; [done|]. intros rest Hr. apply (IH rest). apply (Permutation_cons_inv (a := key)). by rewrite <- Hp.
  - split; [done|]. intros rest Hr. apply (retain_one_None _ _ E). rewrite Hr. simpl. by left.
Qed.

Lemma unmarked_fresh l : unmarked ((fun k => (k, false)) <$> l) = l.
Proof. induction l as [|k l IH]; [done|]. simpl. by f_equal. Qed.

(** the plan of an [exec] splits the references of the old image exactly: those
    the new image keeps, one for one, and those to release; an image that
    claims a reference the old one did not have is refused with EBADF, and
    only such an image. *)
Theorem exec_plan_exact old replacement :
  match removed_backings_for_exec old replacement with
  | Ok removed => managed old ≡ₚ managed replacement ++ removed
  | Err e => e = EBADF /\ forall rest, ~ (managed old ≡ₚ managed replacement ++ rest)
  end.
Proof.
  unfold removed_backings_for_exec. pose proof (retain_all_spec ((fun k => (k, false)) <$> managed old) (managed replacement)) as Hs.
  rewrite unmarked_fresh in Hs. by destruct (retain_all _ _).
Qed.

End cursor.
