(* ===== verification/Socket.v ===== *)
(** * Sockets ([crates/kernel/src/socket.rs])

    The address tables of the four Internet protocols, the per-process table of
    sockets, the accept queues that listeners share across processes, and the
    reference counts of host connections.

    A binding table is a vector of bindings, each with the sockets that own it:
    a socket inherited by [fork] is a second owner of its parent's binding.  The
    four tables have the same code up to the address length and the
    [SO_REUSEADDR] flag; they are instances of one class, as the source has them
    implement the trait [HasBindingOwners].

    The theorems: the tables implement, for every protocol, the map from sockets
    to the address each is bound to, where a socket is refused exactly the
    addresses that conflict with another socket's; an accept queue hands out the
    connections pushed on it in order, once each, for as long as a listener refers
    to it, and the last release closes exactly those left; the options of a
    socket are a map. *)

From S2P Require Import Prelude Abi Lock Ofd Wakeup Pipe PipeTable.

(** ** Host connections *)

Definition host_net_handle_fork_ref (refs : gmap Z Z) (h : Z) : gmap Z Z :=
  <[h := u32_wrap (default 1 (refs !! h) + 1)]> refs.

Definition host_net_handle_close_ref (refs : gmap Z Z) (h : Z) : bool * gmap Z Z :=
  match refs !! h with
  | Some count =>
      let count := u32_wrap (count - 1) in
      if count =? 0 then (true, delete h refs) else (false, <[h := count]> refs)
  | None => (true, refs)
  end.

(** ** Owners of a binding *)

Record BindingOwner := mkOwner { bo_pid : Z; bo_sock_idx : nat }.

#[export] Instance BindingOwner_eq_dec : EqDecision BindingOwner.
Proof. solve_decision. Defined.

#[export] Instance BindingOwner_countable : Countable BindingOwner.
Proof.
  apply (inj_countable' (fun o => (bo_pid o, bo_sock_idx o)) (fun p => mkOwner p.1 p.2)). by intros [].
Defined.

Class HasBindingOwners (T : Type) := {
  owners : T -> list BindingOwner;
  with_owners : T -> list BindingOwner -> T;
}.

Section binding_owners.
Context `{HasBindingOwners T}.

Definition is_owner (pid : Z) (sock_idx : nat) (o : BindingOwner) : bool := (bo_pid o =? pid) && (bo_sock_idx o =? sock_idx)%nat.

Definition retain_owners (p : BindingOwner -> bool) (b : T) : T := with_owners b (List.filter p (owners b)).

Definition has_owners (b : T) : bool := match owners b with [] => false | _ => true end.

Definition remove_binding_owner (bindings : list T) (pid : Z) (sock_idx : nat) : list T :=
  List.filter has_owners (retain_owners (fun o => negb (bo_pid o =? pid) || negb (bo_sock_idx o =? sock_idx)%nat) <$> bindings).

Definition cleanup_binding_owner_pid (bindings : list T) (pid : Z) : list T :=
  List.filter has_owners (retain_owners (fun o => negb (bo_pid o =? pid)) <$> bindings).

Definition inherit_one (parent child : BindingOwner) (b : T) : T :=
  if bool_decide (parent ∈ owners b) && negb (bool_decide (child ∈ owners b)) then with_owners b (vec_push (owners b) child) else b.

Definition inherit_binding_owner (bindings : list T) (parent child : BindingOwner) : list T := inherit_one parent child <$> bindings.

Definition caller_owns_binding (b : T) (pid : Z) (sock_idx : nat) : bool := existsb (is_owner pid sock_idx) (owners b).

End binding_owners.

(** ** The four tables *)

Record UdpBinding := mkUdp { ub_owners : list BindingOwner; ub_addr : bytes; ub_port : Z; ub_reuse_addr : bool }.
Record Udp6Binding := mkUdp6 { ub6_owners : list BindingOwner; ub6_addr : bytes; ub6_port : Z; ub6_reuse_addr : bool }.
Record TcpBinding := mkTcp { tb_owners : list BindingOwner; tb_addr : bytes; tb_port : Z }.
Record Tcp6Binding := mkTcp6 { tb6_owners : list BindingOwner; tb6_addr : bytes; tb6_port : Z }.

#[export] Instance UdpBinding_owners : HasBindingOwners UdpBinding :=
  {| owners := ub_owners; with_owners b l := mkUdp l (ub_addr b) (ub_port b) (ub_reuse_addr b) |}.
#[export] Instance Udp6Binding_owners : HasBindingOwners Udp6Binding :=
  {| owners := ub6_owners; with_owners b l := mkUdp6 l (ub6_addr b) (ub6_port b) (ub6_reuse_addr b) |}.
#[export] Instance TcpBinding_owners : HasBindingOwners TcpBinding :=
  {| owners := tb_owners; with_owners b l := mkTcp l (tb_addr b) (tb_port b) |}.
#[export] Instance Tcp6Binding_owners : HasBindingOwners Tcp6Binding :=
  {| owners := tb6_owners; with_owners b l := mkTcp6 l (tb6_addr b) (tb6_port b) |}.

Definition ANY4 : bytes := [0; 0; 0; 0].
Definition ANY6 : bytes := replicate 16 0.

Definition udp_addr_conflicts (a b : bytes) : bool := bool_decide (a = ANY4) || bool_decide (b = ANY4) || bool_decide (a = b).
Definition udp_addr_matches (bound dst : bytes) : bool := bool_decide (bound = ANY4) || bool_decide (bound = dst).
Definition udp6_addr_conflicts (a b : bytes) : bool := bool_decide (a = ANY6) || bool_decide (b = ANY6) || bool_decide (a = b).
Definition udp6_addr_matches (bound dst : bytes) : bool := bool_decide (bound = ANY6) || bool_decide (bound = dst).
Definition tcp_addr_conflicts (a b : bytes) : bool := bool_decide (a = ANY4) || bool_decide (b = ANY4) || bool_decide (a = b).
Definition tcp6_addr_conflicts (a b : bytes) : bool := bool_decide (a = ANY6) || bool_decide (b = ANY6) || bool_decide (a = b).

(** The loop with [continue] and an early [return false]. *)
Fixpoint udp_can_bind (t : list UdpBinding) (pid : Z) (sock_idx : nat) (addr : bytes) (port : Z) (reuse_addr : bool) : bool :=
  match t with
  | [] => true
  | b :: t' =>
      if caller_owns_binding b pid sock_idx && (length (owners b) =? 1)%nat then udp_can_bind t' pid sock_idx addr port reuse_addr
      else if (ub_port b =? port) && udp_addr_conflicts (ub_addr b) addr && negb (ub_reuse_addr b && reuse_addr) then false
      else udp_can_bind t' pid sock_idx addr port reuse_addr
  end.

Definition udp_register (t : list UdpBinding) (pid : Z) (sock_idx : nat) (addr : bytes) (port : Z) (reuse_addr : bool)
    : kresult unit * list UdpBinding :=
  if port =? 0 then (Err EINVAL, t)
  else if existsb (fun b => bool_decide (ub_addr b = addr) && (ub_port b =? port) && eqb (ub_reuse_addr b) reuse_addr
                            && existsb (is_owner pid sock_idx) (ub_owners b)) t then (Ok (), t)
  else if negb (udp_can_bind t pid sock_idx addr port reuse_addr) then (Err EADDRINUSE, t)
  else (Ok (), vec_push (remove_binding_owner t pid sock_idx) (mkUdp [mkOwner pid sock_idx] addr port reuse_addr)).

Definition udp_unregister (t : list UdpBinding) := remove_binding_owner t.
Definition udp_cleanup_process (t : list UdpBinding) := cleanup_binding_owner_pid t.

Record UdpEndpoint := mkUdpEndpoint { ue_pid : Z; ue_sock_idx : nat; ue_addr : bytes; ue_port : Z; ue_reuse_addr : bool }.

Definition udp_lookup (t : list UdpBinding) (dst_addr : bytes) (dst_port : Z) : list UdpEndpoint :=
  List.flat_map (fun b => (fun o => mkUdpEndpoint (bo_pid o) (bo_sock_idx o) (ub_addr b) (ub_port b) (ub_reuse_addr b)) <$> ub_owners b)
    (List.filter (fun b => (ub_port b =? dst_port) && udp_addr_matches (ub_addr b) dst_addr) t).

Definition udp6_can_bind (t : list Udp6Binding) (pid : Z) (sock_idx : nat) (addr : bytes) (port : Z) (reuse_addr : bool) : bool :=
  forallb (fun b => (caller_owns_binding b pid sock_idx && (length (owners b) =? 1)%nat) || negb (ub6_port b =? port)
                    || negb (udp6_addr_conflicts (ub6_addr b) addr) || (ub6_reuse_addr b && reuse_addr)) t.

Definition udp6_register (t : list Udp6Binding) (pid : Z) (sock_idx : nat) (addr : bytes) (port : Z) (reuse_addr : bool)
    : kresult unit * list Udp6Binding :=
  if port =? 0 then (Err EINVAL, t)
  else if existsb (fun b => bool_decide (ub6_addr b = addr) && (ub6_port b =? port) && eqb (ub6_reuse_addr b) reuse_addr
                            && existsb (is_owner pid sock_idx) (ub6_owners b)) t then (Ok (), t)
  else if negb (udp6_can_bind t pid sock_idx addr port reuse_addr) then (Err EADDRINUSE, t)
  else (Ok (), vec_push (remove_binding_owner t pid sock_idx) (mkUdp6 [mkOwner pid sock_idx] addr port reuse_addr)).

Definition udp6_unregister (t : list Udp6Binding) := remove_binding_owner t.
Definition udp6_cleanup_process (t : list Udp6Binding) := cleanup_binding_owner_pid t.

Record Udp6Endpoint := mkUdp6Endpoint { ue6_pid : Z; ue6_sock_idx : nat; ue6_addr : bytes; ue6_port : Z; ue6_reuse_addr : bool }.

Definition udp6_lookup (t : list Udp6Binding) (dst_addr : bytes) (dst_port : Z) : list Udp6Endpoint :=
  List.flat_map (fun b => (fun o => mkUdp6Endpoint (bo_pid o) (bo_sock_idx o) (ub6_addr b) (ub6_port b) (ub6_reuse_addr b)) <$> ub6_owners b)
    (List.filter (fun b => (ub6_port b =? dst_port) && udp6_addr_matches (ub6_addr b) dst_addr) t).

Fixpoint tcp_can_bind (t : list TcpBinding) (pid : Z) (sock_idx : nat) (addr : bytes) (port : Z) : bool :=
  match t with
  | [] => true
  | b :: t' =>
      if caller_owns_binding b pid sock_idx && (length (owners b) =? 1)%nat then tcp_can_bind t' pid sock_idx addr port
      else if (tb_port b =? port) && tcp_addr_conflicts (tb_addr b) addr then false
      else tcp_can_bind t' pid sock_idx addr port
  end.

Definition tcp_register (t : list TcpBinding) (pid : Z) (sock_idx : nat) (addr : bytes) (port : Z) : kresult unit * list TcpBinding :=
  if port =? 0 then (Err EINVAL, t)
  else if existsb (fun b => bool_decide (tb_addr b = addr) && (tb_port b =? port) && existsb (is_owner pid sock_idx) (tb_owners b)) t
  then (Ok (), t)
  else if negb (tcp_can_bind t pid sock_idx addr port) then (Err EADDRINUSE, t)
  else (Ok (), vec_push (remove_binding_owner t pid sock_idx) (mkTcp [mkOwner pid sock_idx] addr port)).

Definition tcp_unregister (t : list TcpBinding) := remove_binding_owner t.
Definition tcp_cleanup_process (t : list TcpBinding) := cleanup_binding_owner_pid t.

Definition tcp6_can_bind (t : list Tcp6Binding) (pid : Z) (sock_idx : nat) (addr : bytes) (port : Z) : bool :=
  forallb (fun b => (caller_owns_binding b pid sock_idx && (length (owners b) =? 1)%nat) || negb (tb6_port b =? port)
                    || negb (tcp6_addr_conflicts (tb6_addr b) addr)) t.

Definition tcp6_register (t : list Tcp6Binding) (pid : Z) (sock_idx : nat) (addr : bytes) (port : Z) : kresult unit * list Tcp6Binding :=
  if port =? 0 then (Err EINVAL, t)
  else if existsb (fun b => bool_decide (tb6_addr b = addr) && (tb6_port b =? port) && existsb (is_owner pid sock_idx) (tb6_owners b)) t
  then (Ok (), t)
  else if negb (tcp6_can_bind t pid sock_idx addr port) then (Err EADDRINUSE, t)
  else (Ok (), vec_push (remove_binding_owner t pid sock_idx) (mkTcp6 [mkOwner pid sock_idx] addr port)).

Definition tcp6_unregister (t : list Tcp6Binding) := remove_binding_owner t.
Definition tcp6_cleanup_process (t : list Tcp6Binding) := cleanup_binding_owner_pid t.

(** The four static tables. *)
Record InetTables := mkInet {
  UDP_ENDPOINTS : list UdpBinding; UDP6_ENDPOINTS : list Udp6Binding; TCP_BINDINGS : list TcpBinding; TCP6_BINDINGS : list Tcp6Binding;
}.

Definition inherit_inet_binding_owners (n : InetTables) (parent_pid child_pid : Z) (sock_idx : nat) : InetTables :=
  let parent := mkOwner parent_pid sock_idx in
  let child := mkOwner child_pid sock_idx in
  mkInet (inherit_binding_owner (UDP_ENDPOINTS n) parent child) (inherit_binding_owner (UDP6_ENDPOINTS n) parent child)
    (inherit_binding_owner (TCP_BINDINGS n) parent child) (inherit_binding_owner (TCP6_BINDINGS n) parent child).

(** ** Sockets *)

Inductive SocketDomain := Unix | Inet | Inet6.
Inductive SocketType := Stream | Dgram.
Inductive SocketState := Unbound | Bound | Listening | Connecting | Connected | Closed.

Record Datagram := mkDatagram {
  dg_data : bytes; dg_src_addr : bytes; dg_src_addr6 : bytes; dg_dst_addr : bytes; dg_dst_addr6 : bytes; dg_src_port : Z;
  dg_src_sock_idx : option nat; dg_ipv6_tclass : Z; dg_src_pid : Z; dg_src_uid : Z; dg_src_gid : Z; dg_ancillary_fds : list InFlightFd;
}.

Record Ipv4MulticastMembership := mkMembership {
  mm_group : bytes; mm_interface_addr : bytes; mm_any_source : bool; mm_blocked_sources : list bytes; mm_included_sources : list bytes;
}.

Record SocketInfo := mkSocket {
  sk_domain : SocketDomain;
  sk_type : SocketType;
  sk_protocol : Z;
  sk_state : SocketState;
  sk_peer_idx : option nat;
  sk_recv_buf_idx : option nat;
  sk_send_buf_idx : option nat;
  sk_shut_rd : bool;
  sk_shut_wr : bool;
  sk_host_net_handle : option Z;
  sk_options : list (Z * Z * Z);
  sk_linger_onoff : Z;
  sk_linger_seconds : Z;
  sk_bind_device : option bytes;
  sk_tcp_congestion : bytes;
  sk_bind_addr : bytes;
  sk_bind_addr6 : bytes;
  sk_bind_port : Z;
  sk_peer_addr : bytes;
  sk_peer_addr6 : bytes;
  sk_peer_port : Z;
  sk_listen_backlog : list nat;
  sk_shared_backlog_idx : option nat;
  sk_accept_wake_idx : option Z;
  sk_dgram_queue : list Datagram;
  sk_ipv4_multicast_memberships : list Ipv4MulticastMembership;
  sk_netlink_queue : list bytes;
  sk_global_pipes : bool;
  sk_oob_byte : option Z;
  sk_recv_timeout_us : Z;
  sk_send_timeout_us : Z;
  sk_bind_path : option bytes;
  sk_connect_error : Z;
}.

(** The bytes of ["cubic"]. *)
Definition CUBIC : bytes := [99; 117; 98; 105; 99].

Definition socket_new (domain : SocketDomain) (sock_type : SocketType) (protocol : Z) : SocketInfo :=
  mkSocket domain sock_type protocol Unbound None None None false false None [] 0 0 None CUBIC ANY4 ANY6 0 ANY4 ANY6 0
    [] None None [] [] [] true None 0 0 None 0.

Definition with_options (s : SocketInfo) (l : list (Z * Z * Z)) : SocketInfo :=
  mkSocket (sk_domain s) (sk_type s) (sk_protocol s) (sk_state s) (sk_peer_idx s) (sk_recv_buf_idx s) (sk_send_buf_idx s)
    (sk_shut_rd s) (sk_shut_wr s) (sk_host_net_handle s) l (sk_linger_onoff s) (sk_linger_seconds s) (sk_bind_device s)
    (sk_tcp_congestion s) (sk_bind_addr s) (sk_bind_addr6 s) (sk_bind_port s) (sk_peer_addr s) (sk_peer_addr6 s) (sk_peer_port s)
    (sk_listen_backlog s) (sk_shared_backlog_idx s) (sk_accept_wake_idx s) (sk_dgram_queue s) (sk_ipv4_multicast_memberships s)
    (sk_netlink_queue s) (sk_global_pipes s) (sk_oob_byte s) (sk_recv_timeout_us s) (sk_send_timeout_us s) (sk_bind_path s)
    (sk_connect_error s).

Definition is_option (level optname : Z) (opt : Z * Z * Z) : bool := (opt.1.1 =? level) && (opt.1.2 =? optname).

(** The loop over the stored options, with its early [return], then the push. *)
Fixpoint put_option (l : list (Z * Z * Z)) (level optname value : Z) : list (Z * Z * Z) :=
  match l with
  | [] => [(level, optname, value)]
  | opt :: l' => if is_option level optname opt then (opt.1, value) :: l' else opt :: put_option l' level optname value
  end.

Definition set_option (s : SocketInfo) (level optname value : Z) : SocketInfo :=
  with_options s (put_option (sk_options s) level optname value).

Definition get_option (s : SocketInfo) (level optname : Z) : option Z :=
  snd <$> find_first (is_option level optname) (sk_options s).

(** [impl Clone for SocketInfo]: what the child of a fork or spawn receives. *)
Definition socket_clone (s : SocketInfo) : SocketInfo :=
  mkSocket (sk_domain s) (sk_type s) (sk_protocol s) (sk_state s) (sk_peer_idx s) (sk_recv_buf_idx s) (sk_send_buf_idx s)
    (sk_shut_rd s) (sk_shut_wr s) (sk_host_net_handle s) (sk_options s) (sk_linger_onoff s) (sk_linger_seconds s) (sk_bind_device s)
    (sk_tcp_congestion s) (sk_bind_addr s) (sk_bind_addr6 s) (sk_bind_port s) (sk_peer_addr s) (sk_peer_addr6 s) (sk_peer_port s)
    [] (sk_shared_backlog_idx s) (sk_accept_wake_idx s) [] (sk_ipv4_multicast_memberships s)
    [] (sk_global_pipes s) None (sk_recv_timeout_us s) (sk_send_timeout_us s) (sk_bind_path s)
    0.

Abbreviation SocketTable := (list (option SocketInfo)).

Definition socket_table_new : SocketTable := [].

Definition socket_alloc (t : SocketTable) (info : SocketInfo) : nat * SocketTable :=
  let i := first_free t in
  (i, if (i <? length t)%nat then <[i := Some info]> t else vec_push t (Some info)).

Definition socket_free (t : SocketTable) (idx : nat) : SocketTable := if (idx <? length t)%nat then <[idx := None]> t else t.

Definition socket_get (t : SocketTable) (idx : nat) : option SocketInfo := t !! idx ≫= id.

Definition socket_get_mut (t : SocketTable) (idx : nat) (f : SocketInfo -> SocketInfo) : SocketTable :=
  match socket_get t idx with Some s => <[idx := Some (f s)]> t | None => t end.

Definition socket_len (t : SocketTable) : nat := length t.

(** [while len <= idx { push(None) }], then the store. *)
Definition socket_insert_at (t : SocketTable) (idx : nat) (info : SocketInfo) : SocketTable :=
  <[idx := Some info]> (t ++ replicate (S idx - length t) None).

(** ** Accept queues shared by listeners *)

Record PendingConnection := mkPending {
  pc_peer_addr : bytes; pc_peer_addr6 : bytes; pc_peer_is_ipv6 : bool; pc_peer_port : Z; pc_peer_pid : Z; pc_peer_sock_idx : option nat;
  pc_recv_pipe_idx : nat; pc_send_pipe_idx : nat;
}.

Record SharedBacklog := mkBacklog { bl_queue : list PendingConnection; bl_ref_count : Z; bl_in_use : bool }.

Abbreviation SharedBacklogTable := (list SharedBacklog).

Definition backlog_table_new : SharedBacklogTable := [].

(** The index of the first entry not in use, or the length. *)
Fixpoint first_unused (t : SharedBacklogTable) : nat :=
  match t with
  | [] => 0
  | e :: t' => if bl_in_use e then S (first_unused t') else 0
  end.

Definition backlog_alloc (t : SharedBacklogTable) : nat * SharedBacklogTable :=
  let i := first_unused t in
  (i, if (i <? length t)%nat then <[i := mkBacklog [] 1 true]> t else vec_push t (mkBacklog [] 1 true)).

Definition backlog_add_ref (t : SharedBacklogTable) (idx : nat) : SharedBacklogTable :=
  match t !! idx with
  | Some e => if bl_in_use e then <[idx := mkBacklog (bl_queue e) (u32_saturating_add (bl_ref_count e) 1) true]> t else t
  | None => t
  end.

(** The two ends of one abandoned connection. *)
Definition abandon (pc : PendingConnection) : PipeTable -> PipeTable * list effect :=
  table_op_seq (fun t => table_update t (pc_recv_pipe_idx pc) close_read_end)
    (table_op_seq (free_if_closed (pc_recv_pipe_idx pc))
      (table_op_seq (fun t => table_update t (pc_send_pipe_idx pc) close_write_end) (free_if_closed (pc_send_pipe_idx pc)))).

Fixpoint abandon_all (l : list PendingConnection) (pt : PipeTable) : PipeTable * list effect :=
  match l with
  | [] => (pt, [])
  | pc :: l' => table_op_seq (abandon pc) (abandon_all l') pt
  end.

Definition backlog_dec_ref (t : SharedBacklogTable) (pt : PipeTable) (idx : nat) : SharedBacklogTable * (PipeTable * list effect) :=
  match t !! idx with
  | None => (t, (pt, []))
  | Some e =>
      if negb (bl_in_use e) then (t, (pt, []))
      else
        let c := u32_saturating_sub (bl_ref_count e) 1 in
        if c =? 0 then (<[idx := mkBacklog [] c false]> t, abandon_all (bl_queue e) pt)
        else (<[idx := mkBacklog (bl_queue e) c true]> t, (pt, []))
  end.

Definition backlog_push (t : SharedBacklogTable) (idx : nat) (pc : PendingConnection) : bool * SharedBacklogTable :=
  match t !! idx with
  | Some e => if bl_in_use e then (true, <[idx := mkBacklog (vec_push (bl_queue e) pc) (bl_ref_count e) true]> t) else (false, t)
  | None => (false, t)
  end.

Definition backlog_pop (t : SharedBacklogTable) (idx : nat) : option PendingConnection * SharedBacklogTable :=
  match t !! idx with
  | None => (None, t)
  | Some e =>
      match bl_in_use e, bl_queue e with
      | true, pc :: q => (Some pc, <[idx := mkBacklog q (bl_ref_count e) true]> t)
      | _, _ => (None, t)
      end
  end.

Definition backlog_len (t : SharedBacklogTable) (idx : nat) : nat :=
  match t !! idx with Some e => if bl_in_use e then length (bl_queue e) else 0%nat | None => 0%nat end.

(** ** The address tables are maps from sockets to reservations *)

Record reservation := mkRes { r_addr : bytes; r_port : Z; r_reuse : bool }.

#[export] Instance reservation_eq_dec : EqDecision reservation.
Proof. solve_decision. Defined.

(** Two reservations that may not be held by two sockets that did not inherit one
    from the other. *)
Definition clash (any : bytes) (a b : reservation) : bool :=
  (r_port a =? r_port b) && (bool_decide (r_addr a = any) || bool_decide (r_addr b = any) || bool_decide (r_addr a = r_addr b))
  && negb (r_reuse a && r_reuse b).

(** What the four kinds of binding have in common. *)
Class InetBinding (T : Type) `{HasBindingOwners T} := {
  key_of : T -> reservation;
  any_addr : bytes;
  owners_with : forall b l, owners (with_owners b l) = l;
  key_with : forall b l, key_of (with_owners b l) = key_of b;
}.

#[export] Instance UdpBinding_inet : InetBinding UdpBinding.
Proof. by refine {| key_of b := mkRes (ub_addr b) (ub_port b) (ub_reuse_addr b); any_addr := ANY4 |}. Defined.
#[export] Instance Udp6Binding_inet : InetBinding Udp6Binding.
Proof. by refine {| key_of b := mkRes (ub6_addr b) (ub6_port b) (ub6_reuse_addr b); any_addr := ANY6 |}. Defined.
#[export] Instance TcpBinding_inet : InetBinding TcpBinding.
Proof. by refine {| key_of b := mkRes (tb_addr b) (tb_port b) false; any_addr := ANY4 |}. Defined.
#[export] Instance Tcp6Binding_inet : InetBinding Tcp6Binding.
Proof. by refine {| key_of b := mkRes (tb6_addr b) (tb6_port b) false; any_addr := ANY6 |}. Defined.

(** The specification: where each socket is bound. *)
Abbreviation bound := (gmap BindingOwner reservation).

Definition taken_by_other (any : bytes) (m : bound) (o : BindingOwner) (k : reservation) : Prop :=
  map_Exists (fun o' k' => o' <> o /\ clash any k' k = true) m.

#[export] Instance taken_by_other_dec any m o k : Decision (taken_by_other any m o k).
Proof. unfold taken_by_other. apply _. Defined.

Definition bind_register (any : bytes) (m : bound) (o : BindingOwner) (k : reservation) : kresult unit * bound :=
  if r_port k =? 0 then (Err EINVAL, m)
  else if decide (m !! o = Some k) then (Ok (), m)
  else if decide (taken_by_other any m o k) then (Err EADDRINUSE, m)
  else (Ok (), <[o := k]> m).

Section generic.
Context {T} `{InetBinding T}.
Implicit Types (t : list T) (m : bound) (o : BindingOwner).

Definition reservations (b : T) : list (BindingOwner * reservation) := (fun o => (o, key_of b)) <$> owners b.
Definition flat t : list (BindingOwner * reservation) := concat (reservations <$> t).

(** The table holds the map. *)
Record table_holds t m : Prop := {
  th_nodup : NoDup (flat t).*1;
  th_elem : forall o k, (o, k) ∈ flat t <-> m !! o = Some k;
  th_owned : Forall (fun b => owners b <> []) t;
}.

Lemma flat_cons b t : flat (b :: t) = reservations b ++ flat t.
Proof. done. Qed.

Lemma flat_app t1 t2 : flat (t1 ++ t2) = flat t1 ++ flat t2.
Proof. unfold flat. by rewrite fmap_app, concat_app. Qed.

Lemma elem_of_reservations o k b : (o, k) ∈ reservations b <-> o ∈ owners b /\ key_of b = k.
Proof. unfold reservations. rewrite list_elem_of_fmap. split; [intros (o' & [= -> ->] & Ho); done|intros [Ho <-]; by exists o]. Qed.

Lemma elem_of_flat o k t : (o, k) ∈ flat t <-> exists b, b ∈ t /\ o ∈ owners b /\ key_of b = k.
Proof.
  induction t as [|b t IH].
  - split; [by intros ?%elem_of_nil|]. by intros (? & ?%elem_of_nil & _).
  - rewrite flat_cons, elem_of_app, IH, elem_of_reservations. split.
    + intros [[Ho Hk]|(b' & Hb & Ho & Hk)]; [exists b; by split_and!; [left|..]|exists b'; by split_and!; [right|..]].
    + intros (b' & [->|Hb]%elem_of_cons & Ho & <-); [by left|right; by exists b'].
Qed.

Lemma reservations_retain (p : BindingOwner -> bool) b :
  reservations (retain_owners p b) = List.filter (fun e => p e.1) (reservations b).
Proof.
  unfold reservations, retain_owners. rewrite owners_with, key_with.
  induction (owners b) as [|o l IH]; [done|]. simpl. destruct (p o); [simpl; f_equal|]; exact IH.
Qed.

(** Dropping owners and the bindings left without any. *)
Lemma flat_retain (p : BindingOwner -> bool) t :
  flat (List.filter has_owners (retain_owners p <$> t)) = List.filter (fun e => p e.1) (flat t).
Proof.
  induction t as [|b t IH]; [done|]. rewrite flat_cons, List.filter_app, <- IH, <- reservations_retain. cbn [fmap list_fmap List.filter].
  unfold has_owners at 1. destruct (owners (retain_owners p b)) eqn:E; [|done]. unfold reservations. by rewrite E.
Qed.

Lemma retain_owned (p : BindingOwner -> bool) t : Forall (fun b => owners b <> []) (List.filter has_owners (retain_owners p <$> t)).
Proof.
  apply Forall_forall. intros b Hb%list_elem_of_In%filter_In. destruct Hb as [_ Hb]. intros E. unfold has_owners in Hb. by rewrite E in Hb.
Qed.

Lemma nodup_filter_fst (p : BindingOwner * reservation -> bool) l : NoDup l.*1 -> NoDup (List.filter p l).*1.
Proof.
  induction l as [|e l IH]; [done|]. rewrite fmap_cons. intros [Hn Hd]%NoDup_cons. simpl. destruct (p e); [|by apply IH].
  rewrite fmap_cons. constructor; [|by apply IH]. intros (e' & He & Hin%list_elem_of_In%filter_In)%list_elem_of_fmap.
  apply Hn. rewrite He. apply list_elem_of_fmap_2, list_elem_of_In. tauto.
Qed.

Lemma holds_retain (p : BindingOwner -> bool) t m m' :
  table_holds t m -> (forall o, m' !! o = if p o then m !! o else None) -> table_holds (List.filter has_owners (retain_owners p <$> t)) m'.
Proof.
  intros [Hd He Ho] Hm. split; [rewrite flat_retain; by apply nodup_filter_fst| |apply retain_owned].
  intros o k. rewrite flat_retain, Hm, list_elem_of_In, filter_In, <- list_elem_of_In, He. simpl. destruct (p o); naive_solver.
Qed.

Lemma holds_remove t m pid idx : table_holds t m -> table_holds (remove_binding_owner t pid idx) (delete (mkOwner pid idx) m).
Proof.
  intros Ht. eapply holds_retain; [done|]. intros [pid' idx']. simpl.
  destruct (Z.eqb_spec pid' pid) as [->|]; [destruct (Nat.eqb_spec idx' idx) as [->|]|]; simpl;
    [by rewrite lookup_delete_eq|rewrite lookup_delete_ne; congruence..].
Qed.

Lemma holds_cleanup t m pid :
  table_holds t m -> table_holds (cleanup_binding_owner_pid t pid) (filter (fun e : BindingOwner * reservation => bo_pid e.1 <> pid) m).
Proof.
  intros Ht. eapply holds_retain; [done|]. intros o. destruct (Z.eqb_spec (bo_pid o) pid) as [E|E]; simpl.
  - apply map_lookup_filter_None. right. by intros k _ Hk.
  - destruct (m !! o) as [k|] eqn:Eo; [by apply map_lookup_filter_Some|]. apply map_lookup_filter_None. by left.
Qed.

Lemma holds_push t m b o : table_holds t m -> m !! o = None -> owners b = [o] -> table_holds (vec_push t b) (<[o := key_of b]> m).
Proof.
  intros [Hd He Ho] Hm Hb. assert (reservations b = [(o, key_of b)]) as Hr by (unfold reservations; by rewrite Hb).
  assert (flat (vec_push t b) = flat t ++ [(o, key_of b)]) as Hf by (unfold vec_push; rewrite flat_app; unfold flat at 2; simpl; by rewrite Hr).
  split; rewrite ?Hf.
  - rewrite fmap_app. apply NoDup_app. split_and!; [done| |by apply NoDup_singleton].
    intros o' ([o1 k1] & -> & Hin%He)%list_elem_of_fmap [E|?%elem_of_nil]%elem_of_cons; [|done]. simpl in E. congruence.
  - intros o' k. rewrite elem_of_app, list_elem_of_singleton, He. destruct (decide (o' = o)) as [->|Hne].
    + rewrite lookup_insert_eq, Hm. naive_solver.
    + rewrite lookup_insert_ne by done. naive_solver.
  - apply Forall_app. split; [done|]. constructor; [by rewrite Hb|done].
Qed.

(** A fresh socket inherits its parent's reservation. *)
Lemma holds_inherit t m parent child :
  table_holds t m -> m !! child = None ->
  table_holds (inherit_binding_owner t parent child) (match m !! parent with Some k => <[child := k]> m | None => m end).
Proof.
  intros [Hd He Ho] Hc. set (f := inherit_one parent child).
  assert (forall o, o ∈ (flat t).*1 -> o <> child) as Hfresh.
  { intros o ([o1 k1] & -> & Hin%He)%list_elem_of_fmap E. simpl in E. congruence. }
  assert (flat (f <$> t) ≡ₚ match m !! parent with Some k => (child, k) :: flat t | None => flat t end) as Hp.
  2:{ split; change (inherit_binding_owner t parent child) with (f <$> t).
      - destruct (m !! parent) as [k|]; rewrite Hp; [|done]. rewrite fmap_cons. constructor; [|done]. intros Hin. by apply (Hfresh child).
      - intros o k. rewrite Hp. destruct (m !! parent) as [kp|]; [|apply He]. rewrite elem_of_cons, He.
        destruct (decide (o = child)) as [->|Hne]; [rewrite lookup_insert_eq, Hc|rewrite lookup_insert_ne by done]; naive_solver.
      - apply Forall_fmap. eapply Forall_impl; [exact Ho|]. intros b Hb. change (owners (f b) <> []). unfold f, inherit_one. case_bool_step; [|done].
        rewrite owners_with. by destruct (owners b). }
  assert (match m !! parent with Some k => (parent, k) ∈ flat t | None => forall k, (parent, k) ∉ flat t end) as Hpar.
  { destruct (m !! parent) as [k|] eqn:E; [by apply He|]. intros k Hk%He. congruence. }
  clear He Ho Hc. generalize dependent (m !! parent). intros mk Hpar. revert mk Hpar. induction t as [|b t IH]; intros mk Hpar.
  { destruct mk; [by apply elem_of_nil in Hpar|done]. }
  rewrite fmap_cons, !flat_cons in *. rewrite fmap_app in Hd. apply NoDup_app in Hd as (Hd1 & Hd2 & Hd3).
  assert (forall o, o ∈ owners b -> o <> child) as Hfb.
  { intros o Hin. apply Hfresh. rewrite fmap_app. apply elem_of_app. left. apply list_elem_of_fmap. exists (o, key_of b). split; [done|]. by apply elem_of_reservations. }
  assert (child ∉ owners b) as Hcb by (intros Hin; by apply (Hfb child)).
  specialize (IH Hd3 ltac:(intros o Hin; apply Hfresh; rewrite fmap_app; apply elem_of_app; by right)).
  destruct (decide (parent ∈ owners b)) as [Hin|Hnin].
  - assert ((parent, key_of b) ∈ reservations b) as Hr by (by apply elem_of_reservations).
    assert (forall k, (parent, k) ∉ flat t) as Hnot.
    { intros k Hk. apply (Hd2 parent); [by apply (list_elem_of_fmap_2 fst _ (parent, key_of b))|by apply (list_elem_of_fmap_2 fst _ (parent, k))]. }
    assert (mk = Some (key_of b)) as ->.
    { destruct mk as [k|]; [|destruct (Hpar (key_of b)); apply elem_of_app; by left]. apply elem_of_app in Hpar as [Hk|Hk]; [|by destruct (Hnot k)].
      by apply elem_of_reservations in Hk as [_ ->]. }
    unfold f at 1, inherit_one. rewrite bool_decide_eq_true_2, bool_decide_eq_false_2 by done. simpl.
    rewrite (IH None Hnot). unfold reservations. rewrite owners_with, key_with. unfold vec_push. rewrite fmap_app. simpl.
    rewrite <- app_assoc. simpl. by rewrite <- Permutation_middle.
  - unfold f at 1, inherit_one. rewrite bool_decide_eq_false_2 by done. simpl.
    rewrite (IH mk). { destruct mk as [k|]; [by rewrite Permutation_middle|done]. }
    destruct mk as [k|]; [|intros k Hk; apply (Hpar k), elem_of_app; by right].
    apply elem_of_app in Hpar as [Hk|Hk]; [|done]. by apply elem_of_reservations in Hk as [? _].
Qed.

Definition generic_can_bind t o k : bool :=
  forallb (fun b => (bool_decide (o ∈ owners b) && (length (owners b) =? 1)%nat) || negb (clash any_addr (key_of b) k)) t.

Definition generic_register t o k (b : T) : kresult unit * list T :=
  if r_port k =? 0 then (Err EINVAL, t)
  else if existsb (fun b => bool_decide (key_of b = k) && bool_decide (o ∈ owners b)) t then (Ok (), t)
  else if negb (generic_can_bind t o k) then (Err EADDRINUSE, t)
  else (Ok (), vec_push (remove_binding_owner t (bo_pid o) (bo_sock_idx o)) b).

Lemma owners_nodup t m b : table_holds t m -> b ∈ t -> NoDup (owners b).
Proof.
  intros [Hd _ _]. clear m. induction t as [|b' t IH]; intros Hb; [by apply elem_of_nil in Hb|]. rewrite flat_cons, fmap_app in Hd.
  apply NoDup_app in Hd as (Hd1 & _ & Hd2). apply elem_of_cons in Hb as [->|Hb]; [|by apply IH].
  unfold reservations in Hd1. rewrite <- list_fmap_compose in Hd1. by rewrite list_fmap_id in Hd1.
Qed.

Lemma generic_can_bind_spec t m o k : table_holds t m -> generic_can_bind t o k = true <-> ~ taken_by_other any_addr m o k.
Proof.
  intros Ht. pose proof Ht as [Hd He Ho]. unfold generic_can_bind. rewrite forallb_forall. split.
  - intros Hall (o' & k' & Hm & Hne & Hc). apply He, elem_of_flat in Hm as (b & Hb & Hin & <-).
    specialize (Hall b (proj1 (list_elem_of_In _ _) Hb)). rewrite Hc, orb_false_r in Hall. apply andb_true_iff in Hall as [Ho' Hl].
    apply bool_decide_eq_true in Ho'. apply Nat.eqb_eq in Hl. destruct (owners b) as [|x [|]]; try done.
    apply list_elem_of_singleton in Ho', Hin. congruence.
  - intros Hnot b Hb%list_elem_of_In. destruct (clash any_addr (key_of b) k) eqn:Hc; [|by rewrite orb_true_r]. rewrite orb_false_r.
    assert (forall o', o' ∈ owners b -> o' = o) as Hall.
    { intros o' Hin. destruct (decide (o' = o)) as [|Hne]; [done|]. exfalso. apply Hnot. exists o', (key_of b). split; [|done].
      apply He, elem_of_flat. by exists b. }
    pose proof (owners_nodup t m b Ht Hb) as Hnd. rewrite Forall_forall in Ho. specialize (Ho b Hb).
    destruct (owners b) as [|x [|y l]]; [done| |].
    + rewrite bool_decide_eq_true_2; [done|]. rewrite (Hall x); [|by left]. by left.
    + exfalso. apply NoDup_cons in Hnd as [Hx _]. apply Hx. rewrite (Hall x), (Hall y); [by left|right; by left|by left].
Qed.

Lemma generic_register_holds t m o k b :
  table_holds t m -> owners b = [o] -> key_of b = k ->
  (generic_register t o k b).1 = (bind_register any_addr m o k).1 /\
  table_holds (generic_register t o k b).2 (bind_register any_addr m o k).2.
Proof.
  intros Ht Hb Hk. pose proof Ht as [Hd He Ho]. unfold generic_register, bind_register. destruct (r_port k =? 0); [done|].
  assert (existsb (fun b => bool_decide (key_of b = k) && bool_decide (o ∈ owners b)) t = bool_decide (m !! o = Some k)) as ->.
  { apply eq_bool_prop_intro. rewrite !Is_true_true, existsb_exists, bool_decide_eq_true, <- He, elem_of_flat.
    split; intros (b' & Hin & Hx); exists b'; split; try (by apply list_elem_of_In).
    - apply andb_true_iff in Hx. rewrite !bool_decide_eq_true in Hx. tauto.
    - destruct Hx. by rewrite !bool_decide_eq_true_2. }
  case_bool_decide as E1; [by rewrite decide_True|]. rewrite decide_False by done.
  pose proof (generic_can_bind_spec t m o k Ht) as Hc. destruct (generic_can_bind t o k); simpl.
  - rewrite decide_False by (by apply Hc). split; [done|]. subst k. rewrite <- insert_delete_eq. destruct o as [pid idx].
    apply holds_push; [by apply holds_remove|apply lookup_delete_eq|done].
  - rewrite decide_True; [done|]. destruct (decide (taken_by_other any_addr m o k)) as [|Hn]; [done|]. apply Hc in Hn. done.
Qed.

End generic.

Lemma is_owner_spec pid idx l : existsb (is_owner pid idx) l = bool_decide (mkOwner pid idx ∈ l).
Proof.
  apply eq_bool_prop_intro. rewrite !Is_true_true, existsb_exists, bool_decide_eq_true, list_elem_of_In. unfold is_owner. split.
  - intros ([p i] & Hin & [E1%Z.eqb_eq E2%Nat.eqb_eq]%andb_true_iff). simpl in *. by subst.
  - intros Hin. exists (mkOwner pid idx). split; [done|]. simpl. by rewrite Z.eqb_refl, Nat.eqb_refl.
Qed.

Lemma reservation_eqb a p r a' p' r' :
  bool_decide (mkRes a p r = mkRes a' p' r') = bool_decide (a = a') && (p =? p') && eqb r r'.
Proof.
  apply eq_bool_prop_intro. rewrite !Is_true_true, bool_decide_eq_true, !andb_true_iff, bool_decide_eq_true, Z.eqb_eq, eqb_true_iff.
  naive_solver.
Qed.

Lemma existsb_ext_eq {A} (f g : A -> bool) l : (forall x, f x = g x) -> existsb f l = existsb g l.
Proof. intros Hfg. induction l as [|x l IH]; simpl; [done|]. by rewrite Hfg, IH. Qed.

Lemma forallb_ext_eq {A} (f g : A -> bool) l : (forall x, f x = g x) -> forallb f l = forallb g l.
Proof. intros Hfg. induction l as [|x l IH]; simpl; [done|]. by rewrite Hfg, IH. Qed.

(** Each protocol's code is the common code. *)
Lemma udp_register_generic t pid idx a p r :
  udp_register t pid idx a p r = generic_register t (mkOwner pid idx) (mkRes a p r) (mkUdp [mkOwner pid idx] a p r).
Proof.
  unfold udp_register, generic_register. cbn [r_port bo_pid bo_sock_idx]. destruct (p =? 0); [done|].
  erewrite existsb_ext_eq by (intros x; rewrite is_owner_spec, <- reservation_eqb; reflexivity).
  assert (udp_can_bind t pid idx a p r = generic_can_bind t (mkOwner pid idx) (mkRes a p r)) as ->; [|done].
  induction t as [|b t IH]; [done|]. cbn [udp_can_bind generic_can_bind forallb]. fold (generic_can_bind t (mkOwner pid idx) (mkRes a p r)).
  rewrite IH. unfold caller_owns_binding, clash, udp_addr_conflicts. rewrite is_owner_spec. cbn [r_port r_addr r_reuse key_of UdpBinding_inet any_addr].
  destruct (bool_decide (mkOwner pid idx ∈ owners b) && _); [done|]. simpl. by destruct (_ && _ && _).
Qed.

Lemma udp6_register_generic t pid idx a p r :
  udp6_register t pid idx a p r = generic_register t (mkOwner pid idx) (mkRes a p r) (mkUdp6 [mkOwner pid idx] a p r).
Proof.
  unfold udp6_register, generic_register. cbn [r_port bo_pid bo_sock_idx]. destruct (p =? 0); [done|].
  erewrite existsb_ext_eq by (intros x; rewrite is_owner_spec, <- reservation_eqb; reflexivity).
  assert (udp6_can_bind t pid idx a p r = generic_can_bind t (mkOwner pid idx) (mkRes a p r)) as ->; [|done].
  apply forallb_ext_eq. intros b. unfold caller_owns_binding, clash, udp6_addr_conflicts. rewrite is_owner_spec.
  cbn [r_port r_addr r_reuse key_of Udp6Binding_inet any_addr]. by rewrite negb_andb, negb_involutive, negb_andb, !orb_assoc.
Qed.

Lemma tcp_register_generic t pid idx a p :
  tcp_register t pid idx a p = generic_register t (mkOwner pid idx) (mkRes a p false) (mkTcp [mkOwner pid idx] a p).
Proof.
  unfold tcp_register, generic_register. cbn [r_port bo_pid bo_sock_idx]. destruct (p =? 0); [done|].
  erewrite existsb_ext_eq by (intros x; rewrite is_owner_spec, <- (andb_true_r (bool_decide _ && _)); change true with (eqb false false);
    rewrite <- reservation_eqb; reflexivity).
  assert (tcp_can_bind t pid idx a p = generic_can_bind t (mkOwner pid idx) (mkRes a p false)) as ->; [|done].
  induction t as [|b t IH]; [done|]. cbn [tcp_can_bind generic_can_bind forallb]. fold (generic_can_bind t (mkOwner pid idx) (mkRes a p false)).
  rewrite IH. unfold caller_owns_binding, clash, tcp_addr_conflicts. rewrite is_owner_spec. cbn [r_port r_addr r_reuse key_of TcpBinding_inet any_addr].
  destruct (bool_decide (mkOwner pid idx ∈ owners b) && _); [done|]. simpl. rewrite andb_true_r. by destruct (_ && _).
Qed.

Lemma tcp6_register_generic t pid idx a p :
  tcp6_register t pid idx a p = generic_register t (mkOwner pid idx) (mkRes a p false) (mkTcp6 [mkOwner pid idx] a p).
Proof.
  unfold tcp6_register, generic_register. cbn [r_port bo_pid bo_sock_idx]. destruct (p =? 0); [done|].
  erewrite existsb_ext_eq by (intros x; rewrite is_owner_spec, <- (andb_true_r (bool_decide _ && _)); change true with (eqb false false);
    rewrite <- reservation_eqb; reflexivity).
  assert (tcp6_can_bind t pid idx a p = generic_can_bind t (mkOwner pid idx) (mkRes a p false)) as ->; [|done].
  apply forallb_ext_eq. intros b. unfold caller_owns_binding, clash, tcp6_addr_conflicts. rewrite is_owner_spec.
  cbn [r_port r_addr r_reuse key_of Tcp6Binding_inet any_addr andb negb]. by rewrite andb_true_r, negb_andb, !orb_assoc.
Qed.

(** *** Histories *)

Inductive proto := PUdp | PUdp6 | PTcp | PTcp6.

#[export] Instance proto_eq_dec : EqDecision proto.
Proof. solve_decision. Defined.

Inductive inet_op :=
| IRegister (p : proto) (pid : Z) (sock_idx : nat) (addr : bytes) (port : Z) (reuse_addr : bool)
| IUnregister (p : proto) (pid : Z) (sock_idx : nat)
| ICleanup (p : proto) (pid : Z)
| IInherit (parent_pid child_pid : Z) (sock_idx : nat).

Definition with_udp (n : InetTables) t := mkInet t (UDP6_ENDPOINTS n) (TCP_BINDINGS n) (TCP6_BINDINGS n).
Definition with_udp6 (n : InetTables) t := mkInet (UDP_ENDPOINTS n) t (TCP_BINDINGS n) (TCP6_BINDINGS n).
Definition with_tcp (n : InetTables) t := mkInet (UDP_ENDPOINTS n) (UDP6_ENDPOINTS n) t (TCP6_BINDINGS n).
Definition with_tcp6 (n : InetTables) t := mkInet (UDP_ENDPOINTS n) (UDP6_ENDPOINTS n) (TCP_BINDINGS n) t.

Definition inet_step (n : InetTables) (op : inet_op) : kresult unit * InetTables :=
  match op with
  | IRegister PUdp pid i a p r => let '(res, t) := udp_register (UDP_ENDPOINTS n) pid i a p r in (res, with_udp n t)
  | IRegister PUdp6 pid i a p r => let '(res, t) := udp6_register (UDP6_ENDPOINTS n) pid i a p r in (res, with_udp6 n t)
  | IRegister PTcp pid i a p _ => let '(res, t) := tcp_register (TCP_BINDINGS n) pid i a p in (res, with_tcp n t)
  | IRegister PTcp6 pid i a p _ => let '(res, t) := tcp6_register (TCP6_BINDINGS n) pid i a p in (res, with_tcp6 n t)
  | IUnregister PUdp pid i => (Ok (), with_udp n (udp_unregister (UDP_ENDPOINTS n) pid i))
  | IUnregister PUdp6 pid i => (Ok (), with_udp6 n (udp6_unregister (UDP6_ENDPOINTS n) pid i))
  | IUnregister PTcp pid i => (Ok (), with_tcp n (tcp_unregister (TCP_BINDINGS n) pid i))
  | IUnregister PTcp6 pid i => (Ok (), with_tcp6 n (tcp6_unregister (TCP6_BINDINGS n) pid i))
  | ICleanup PUdp pid => (Ok (), with_udp n (udp_cleanup_process (UDP_ENDPOINTS n) pid))
  | ICleanup PUdp6 pid => (Ok (), with_udp6 n (udp6_cleanup_process (UDP6_ENDPOINTS n) pid))
  | ICleanup PTcp pid => (Ok (), with_tcp n (tcp_cleanup_process (TCP_BINDINGS n) pid))
  | ICleanup PTcp6 pid => (Ok (), with_tcp6 n (tcp6_cleanup_process (TCP6_BINDINGS n) pid))
  | IInherit parent child i => (Ok (), inherit_inet_binding_owners n parent child i)
  end.

(** The specification of a step: one map per protocol. *)
Definition any_of (p : proto) : bytes := match p with PUdp | PTcp => ANY4 | PUdp6 | PTcp6 => ANY6 end.
Definition has_reuse (p : proto) : bool := match p with PUdp | PUdp6 => true | _ => false end.

Definition bind_put (f : proto -> bound) (p : proto) (m : bound) : proto -> bound := fun q => if decide (q = p) then m else f q.

Definition bound_step (f : proto -> bound) (op : inet_op) : kresult unit * (proto -> bound) :=
  match op with
  | IRegister p pid i a port r =>
      let '(res, m) := bind_register (any_of p) (f p) (mkOwner pid i) (mkRes a port (has_reuse p && r)) in (res, bind_put f p m)
  | IUnregister p pid i => (Ok (), bind_put f p (delete (mkOwner pid i) (f p)))
  | ICleanup p pid => (Ok (), bind_put f p (filter (fun e : BindingOwner * reservation => bo_pid e.1 <> pid) (f p)))
  | IInherit parent child i =>
      (Ok (), fun p => match f p !! mkOwner parent i with Some k => <[mkOwner child i := k]> (f p) | None => f p end)
  end.

Fixpoint inet_run (n : InetTables) (ops : list inet_op) : list (kresult unit) * InetTables :=
  match ops with
  | [] => ([], n)
  | op :: ops' => let '(r, n1) := inet_step n op in let '(rs, n2) := inet_run n1 ops' in (r :: rs, n2)
  end.

Fixpoint bound_run (f : proto -> bound) (ops : list inet_op) : list (kresult unit) * (proto -> bound) :=
  match ops with
  | [] => ([], f)
  | op :: ops' => let '(r, f1) := bound_step f op in let '(rs, f2) := bound_run f1 ops' in (r :: rs, f2)
  end.

(** A child process is new: it has no bound socket when it inherits. *)
Fixpoint inherits_fresh (f : proto -> bound) (ops : list inet_op) : Prop :=
  match ops with
  | [] => True
  | op :: ops' =>
      match op with IInherit _ child i => forall p, f p !! mkOwner child i = None | _ => True end /\ inherits_fresh (bound_step f op).2 ops'
  end.

Record inet_holds (n : InetTables) (f : proto -> bound) : Prop := {
  ih_udp : table_holds (UDP_ENDPOINTS n) (f PUdp);
  ih_udp6 : table_holds (UDP6_ENDPOINTS n) (f PUdp6);
  ih_tcp : table_holds (TCP_BINDINGS n) (f PTcp);
  ih_tcp6 : table_holds (TCP6_BINDINGS n) (f PTcp6);
}.

Lemma inet_step_holds n f op :
  inet_holds n f -> match op with IInherit _ child i => forall p, f p !! mkOwner child i = None | _ => True end ->
  (inet_step n op).1 = (bound_step f op).1 /\ inet_holds (inet_step n op).2 (bound_step f op).2.
Proof.
  intros [H1 H2 H3 H4] Hop. destruct op as [p pid i a port r|p pid i|p pid|parent child i].
  - destruct p; cbn [inet_step bound_step any_of has_reuse andb].
    + rewrite udp_register_generic. destruct (generic_register_holds _ _ (mkOwner pid i) (mkRes a port r) (mkUdp [mkOwner pid i] a port r) H1) as [Hr Ht]; [done..|].
      destruct (generic_register _ _ _ _), (bind_register _ _ _ _); simpl in *. by split_and!.
    + rewrite udp6_register_generic. destruct (generic_register_holds _ _ (mkOwner pid i) (mkRes a port r) (mkUdp6 [mkOwner pid i] a port r) H2) as [Hr Ht]; [done..|].
      destruct (generic_register _ _ _ _), (bind_register _ _ _ _); simpl in *. by split_and!.
    + rewrite tcp_register_generic. destruct (generic_register_holds _ _ (mkOwner pid i) (mkRes a port false) (mkTcp [mkOwner pid i] a port) H3) as [Hr Ht]; [done..|].
      destruct (generic_register _ _ _ _), (bind_register _ _ _ _); simpl in *. by split_and!.
    + rewrite tcp6_register_generic. destruct (generic_register_holds _ _ (mkOwner pid i) (mkRes a port false) (mkTcp6 [mkOwner pid i] a port) H4) as [Hr Ht]; [done..|].
      destruct (generic_register _ _ _ _), (bind_register _ _ _ _); simpl in *. by split_and!.
  - split; [by destruct p|]. destruct p; split; simpl; try done; by apply holds_remove.
  - split; [by destruct p|]. destruct p; split; simpl; try done; by apply holds_cleanup.
  - split; [done|]. split; simpl; by apply holds_inherit.
Qed.

Definition inet_new : InetTables := mkInet [] [] [] [].

Lemma table_holds_new {T} `{InetBinding T} : table_holds (T := T) [] ∅.
Proof.
  split; [constructor| |done]. intros o k. rewrite lookup_empty. split; [by intros ?%elem_of_nil|done].
Qed.

(** The endpoints a datagram reaches. *)
Definition reached (any : bytes) (m : bound) (addr : bytes) (port : Z) (o : BindingOwner) (k : reservation) : Prop :=
  m !! o = Some k /\ r_port k = port /\ (r_addr k = any \/ r_addr k = addr).

Lemma elem_of_udp_lookup t m addr port e :
  table_holds t m ->
  e ∈ udp_lookup t addr port <-> reached ANY4 m addr port (mkOwner (ue_pid e) (ue_sock_idx e)) (mkRes (ue_addr e) (ue_port e) (ue_reuse_addr e)).
Proof.
  intros [_ He _]. unfold reached. rewrite <- He, elem_of_flat, list_elem_of_In. unfold udp_lookup. rewrite in_flat_map. split.
  - intros (b & [Hb [Hp%Z.eqb_eq Ha]%andb_true_iff]%filter_In & (o & -> & Ho)%list_elem_of_In%list_elem_of_fmap).
    split; [exists b; split_and!; [by apply list_elem_of_In|by destruct o|done]|]. simpl. split; [done|]. unfold udp_addr_matches in Ha.
    apply orb_true_iff in Ha. rewrite !bool_decide_eq_true in Ha. done.
  - intros ((b & Hb & Ho & [= Ea Ep Er]) & Hp & Ha). exists b. split.
    + apply filter_In. split; [by apply list_elem_of_In|]. rewrite Ep, Ea. apply andb_true_iff. split; [by apply Z.eqb_eq|].
      unfold udp_addr_matches. apply orb_true_iff. by rewrite !bool_decide_eq_true.
    + apply list_elem_of_In, list_elem_of_fmap. exists (mkOwner (ue_pid e) (ue_sock_idx e)). split; [|done]. rewrite Ea, Ep, Er. by destruct e.
Qed.

Lemma elem_of_udp6_lookup t m addr port e :
  table_holds t m ->
  e ∈ udp6_lookup t addr port <-> reached ANY6 m addr port (mkOwner (ue6_pid e) (ue6_sock_idx e)) (mkRes (ue6_addr e) (ue6_port e) (ue6_reuse_addr e)).
Proof.
  intros [_ He _]. unfold reached. rewrite <- He, elem_of_flat, list_elem_of_In. unfold udp6_lookup. rewrite in_flat_map. split.
  - intros (b & [Hb [Hp%Z.eqb_eq Ha]%andb_true_iff]%filter_In & (o & -> & Ho)%list_elem_of_In%list_elem_of_fmap).
    split; [exists b; split_and!; [by apply list_elem_of_In|by destruct o|done]|]. simpl. split; [done|]. unfold udp6_addr_matches in Ha.
    apply orb_true_iff in Ha. rewrite !bool_decide_eq_true in Ha. done.
  - intros ((b & Hb & Ho & [= Ea Ep Er]) & Hp & Ha). exists b. split.
    + apply filter_In. split; [by apply list_elem_of_In|]. rewrite Ep, Ea. apply andb_true_iff. split; [by apply Z.eqb_eq|].
      unfold udp6_addr_matches. apply orb_true_iff. by rewrite !bool_decide_eq_true.
    + apply list_elem_of_In, list_elem_of_fmap. exists (mkOwner (ue6_pid e) (ue6_sock_idx e)). split; [|done]. rewrite Ea, Ep, Er. by destruct e.
Qed.

(** C35: the four address tables implement one map per protocol from sockets to the
    address and port each is bound to, over any history of binds, closes,
    process exits and forks.  A bind answers EINVAL for port 0, EADDRINUSE
    exactly when a different socket holds a conflicting reservation, and else
    moves the socket there; a child shares its parent's reservation and keeps
    it when the parent closes; a datagram is delivered to exactly the sockets
    bound to its destination. *)
Theorem inet_bindings_refine ops :
  inherits_fresh (fun _ => ∅) ops ->
  (inet_run inet_new ops).1 = (bound_run (fun _ => ∅) ops).1 /\
  (forall addr port e, e ∈ udp_lookup (UDP_ENDPOINTS (inet_run inet_new ops).2) addr port <->
     reached ANY4 ((bound_run (fun _ => ∅) ops).2 PUdp) addr port (mkOwner (ue_pid e) (ue_sock_idx e)) (mkRes (ue_addr e) (ue_port e) (ue_reuse_addr e))) /\
  (forall addr port e, e ∈ udp6_lookup (UDP6_ENDPOINTS (inet_run inet_new ops).2) addr port <->
     reached ANY6 ((bound_run (fun _ => ∅) ops).2 PUdp6) addr port (mkOwner (ue6_pid e) (ue6_sock_idx e)) (mkRes (ue6_addr e) (ue6_port e) (ue6_reuse_addr e))).
Proof.
  assert (forall ops n f, inet_holds n f -> inherits_fresh f ops ->
    (inet_run n ops).1 = (bound_run f ops).1 /\ inet_holds (inet_run n ops).2 (bound_run f ops).2) as Hr.
  { clear ops. induction ops as [|op ops IH]; intros n f Hn Hok; [done|]. cbn [inet_run bound_run inherits_fresh] in *. destruct Hok as [Hop Hok].
    destruct (inet_step_holds n f op Hn Hop) as [He Hs]. destruct (inet_step n op) as [r n1], (bound_step f op) as [r' f1]. simpl in He, Hs, Hok. subst r'.
    destruct (IH n1 f1 Hs Hok) as [He2 Hs2]. destruct (inet_run n1 ops), (bound_run f1 ops). simpl in *. by subst. }
  intros Hok. destruct (Hr ops inet_new (fun _ => ∅)) as [He [H1 H2 _ _]]; [split; apply table_holds_new|done|].
  split_and!; [done|intros; by apply elem_of_udp_lookup|intros; by apply elem_of_udp6_lookup].
Qed.

Definition example_inet : list inet_op :=
  [IRegister PUdp 1 0 ANY4 53 false; IInherit 1 2 0; IUnregister PUdp 1 0; IRegister PUdp 3 0 [127; 0; 0; 1] 53 true; ICleanup PUdp 2;
   IRegister PUdp 3 0 [127; 0; 0; 1] 53 true].

Lemma inet_bindings_refine_witness :
  inherits_fresh (fun _ => ∅) example_inet /\
  (inet_run inet_new example_inet).1 = [Ok (); Ok (); Ok (); Err EADDRINUSE; Ok (); Ok ()] /\
  (mkUdpEndpoint 3 0 [127; 0; 0; 1] 53 true) ∈ udp_lookup (UDP_ENDPOINTS (inet_run inet_new example_inet).2) [127; 0; 0; 1] 53.
Proof.
  assert (inherits_fresh (fun _ => ∅) example_inet) as Hok by (cbn [inherits_fresh example_inet]; split_and!; try exact I; intros []; vm_compute; reflexivity).
  split; [exact Hok|]. destruct (inet_bindings_refine example_inet Hok) as (He & H4 & _). split; [vm_compute; reflexivity|].
  apply H4. split; [vm_compute; reflexivity|]. split; [reflexivity|right; reflexivity].
Defined.

(** ** Options *)

Lemma get_put_option l level optname v level' optname' :
  snd <$> find_first (is_option level' optname') (put_option l level optname v) =
  if (level =? level') && (optname =? optname') then Some v else snd <$> find_first (is_option level' optname') l.
Proof.
  induction l as [|[[a b] c] l IH]; cbn [put_option].
  - unfold find_first, is_option. simpl. by destruct (_ && _).
  - destruct (is_option level optname (a, b, c)) eqn:E; unfold find_first in *; simpl in *.
    + unfold is_option in *. simpl in *. apply andb_true_iff in E as [->%Z.eqb_eq ->%Z.eqb_eq]. by destruct (_ && _).
    + destruct (is_option level' optname' (a, b, c)) eqn:E'; [|exact IH]. simpl. destruct (_ && _) eqn:E2; [|done].
      unfold is_option in *. simpl in *. apply andb_true_iff in E2 as [->%Z.eqb_eq ->%Z.eqb_eq]. congruence.
Qed.

(** The last of the settings of one option. *)
Fixpoint last_set (sets : list (Z * Z * Z)) (level optname : Z) : option Z :=
  match sets with
  | [] => None
  | s :: sets' =>
      match last_set sets' level optname with
      | Some v => Some v
      | None => if (s.1.1 =? level) && (s.1.2 =? optname) then Some s.2 else None
      end
  end.

(** The options of a socket are a map: after any settings, an option reads as the
    last value set, or as before if it was not set; the copy a child receives
    reads the same. *)
Lemma socket_options_last_set sets s level optname :
  let s' := fold_left (fun s o => set_option s o.1.1 o.1.2 o.2) sets s in
  get_option s' level optname = (match last_set sets level optname with Some v => Some v | None => get_option s level optname end) /\
  get_option (socket_clone s') level optname = get_option s' level optname.
Proof.
  intros s'. split; [|done]. subst s'. revert s. induction sets as [|o sets IH]; intros s; [done|]. cbn [fold_left last_set]. rewrite IH.
  destruct (last_set sets level optname); [done|]. unfold get_option, set_option. cbn [sk_options with_options]. rewrite get_put_option.
  by destruct (_ && _).
Qed.

(** ** Accept queues are queues with a count of listeners *)

Inductive listen_op :=
| LAlloc
| LAddRef (idx : nat)
| LDecRef (idx : nat)
| LPush (idx : nat) (pc : PendingConnection)
| LPop (idx : nat).

Inductive listen_seen := LSlot (idx : nat) | LPushed (b : bool) | LPopped (pc : option PendingConnection) | LNothing.

Record listen_world := mkListen { lw_backlogs : SharedBacklogTable; lw_pipes : PipeTable }.

Definition listen_step (w : listen_world) (op : listen_op) : listen_seen * listen_world :=
  match op with
  | LAlloc => let '(i, t) := backlog_alloc (lw_backlogs w) in (LSlot i, mkListen t (lw_pipes w))
  | LAddRef idx => (LNothing, mkListen (backlog_add_ref (lw_backlogs w) idx) (lw_pipes w))
  | LDecRef idx => let '(t, (pt, _)) := backlog_dec_ref (lw_backlogs w) (lw_pipes w) idx in (LNothing, mkListen t pt)
  | LPush idx pc => let '(b, t) := backlog_push (lw_backlogs w) idx pc in (LPushed b, mkListen t (lw_pipes w))
  | LPop idx => let '(r, t) := backlog_pop (lw_backlogs w) idx in (LPopped r, mkListen t (lw_pipes w))
  end.

(** The specification: the live queues, each with the number of listeners. *)
Abbreviation queues := (gmap nat (Z * list PendingConnection)).

Definition queue_step (m : queues) (pt : PipeTable) (op : listen_op) (seen : listen_seen) (m' : queues) (pt' : PipeTable) : Prop :=
  match op with
  | LAlloc => exists idx, m !! idx = None /\ seen = LSlot idx /\ m' = <[idx := (1, [])]> m /\ pt' = pt
  | LAddRef idx => seen = LNothing /\ pt' = pt /\ m' = match m !! idx with Some (c, q) => <[idx := (c + 1, q)]> m | None => m end
  | LDecRef idx =>
      seen = LNothing /\
      match m !! idx with
      | None => m' = m /\ pt' = pt
      | Some (c, q) => if c =? 1 then m' = delete idx m /\ pt' = (abandon_all q pt).1 else m' = <[idx := (c - 1, q)]> m /\ pt' = pt
      end
  | LPush idx pc =>
      pt' = pt /\ match m !! idx with None => seen = LPushed false /\ m' = m | Some (c, q) => seen = LPushed true /\ m' = <[idx := (c, q ++ [pc])]> m end
  | LPop idx =>
      pt' = pt /\
      match m !! idx with
      | Some (c, pc :: q) => seen = LPopped (Some pc) /\ m' = <[idx := (c, q)]> m
      | _ => seen = LPopped None /\ m' = m
      end
  end.

Inductive queue_run : queues -> PipeTable -> list (listen_op * listen_seen) -> queues -> PipeTable -> Prop :=
| queue_run_nil m pt : queue_run m pt [] m pt
| queue_run_cons m pt op seen m1 pt1 l m2 pt2 :
    queue_step m pt op seen m1 pt1 -> queue_run m1 pt1 l m2 pt2 -> queue_run m pt ((op, seen) :: l) m2 pt2.

Fixpoint listen_run (w : listen_world) (ops : list listen_op) : list (listen_op * listen_seen) * listen_world :=
  match ops with
  | [] => ([], w)
  | op :: ops' => let '(s, w1) := listen_step w op in let '(l, w2) := listen_run w1 ops' in ((op, s) :: l, w2)
  end.

Definition live_entry (t : SharedBacklogTable) (idx : nat) : option (Z * list PendingConnection) :=
  match t !! idx with Some e => if bl_in_use e then Some (bl_ref_count e, bl_queue e) else None | None => None end.

Record queues_held (t : SharedBacklogTable) (m : queues) (n : Z) : Prop := {
  qh_entries : forall idx, live_entry t idx = m !! idx;
  qh_counts : map_Forall (fun _ e => 1 <= e.1 <= n) m;
}.

Lemma first_unused_le t : (first_unused t <= length t)%nat.
Proof. induction t as [|e t IH]; simpl; [lia|]. destruct (bl_in_use e); lia. Qed.

Lemma first_unused_None t : live_entry t (first_unused t) = None.
Proof. induction t as [|e t IH]; [done|]. simpl. destruct (bl_in_use e) eqn:E; [exact IH|]. unfold live_entry. simpl. by rewrite E. Qed.

Lemma live_entry_insert t idx e j :
  (idx < length t)%nat ->
  live_entry (<[idx := e]> t) j = if (j =? idx)%nat then (if bl_in_use e then Some (bl_ref_count e, bl_queue e) else None) else live_entry t j.
Proof.
  intros Hl. unfold live_entry. destruct (Nat.eqb_spec j idx) as [->|]; [by rewrite list_lookup_insert_eq|by rewrite list_lookup_insert_ne].
Qed.

Lemma live_entry_lt t idx x : live_entry t idx = Some x -> exists e, t !! idx = Some e /\ bl_in_use e = true /\ x = (bl_ref_count e, bl_queue e) /\ (idx < length t)%nat.
Proof.
  unfold live_entry. destruct (t !! idx) as [e|] eqn:E; [|done]. destruct (bl_in_use e) eqn:Eu; [|done]. intros [= <-].
  exists e. split_and!; try done. by eapply lookup_lt_Some.
Qed.

Lemma held_weaken t m n : queues_held t m n -> queues_held t m (n + 1).
Proof. intros [He Hc]. split; [done|]. eapply map_Forall_impl; [exact Hc|]. intros i [c q]. simpl. lia. Qed.

(** One live entry rewritten, to [None] when the slot is freed. *)
Lemma held_update t m n idx x e :
  queues_held t m n -> live_entry t idx = Some x -> (bl_in_use e = true -> 1 <= bl_ref_count e <= n + 1) ->
  queues_held (<[idx := e]> t) (if bl_in_use e then <[idx := (bl_ref_count e, bl_queue e)]> m else delete idx m) (n + 1).
Proof.
  intros Hh Hx Hb. destruct (held_weaken _ _ _ Hh) as [He Hc]. apply live_entry_lt in Hx as (e0 & _ & _ & _ & Hl). split.
  - intros j. rewrite live_entry_insert by done. destruct (Nat.eqb_spec j idx) as [->|Hne]; destruct (bl_in_use e).
    + by rewrite lookup_insert_eq.
    + by rewrite lookup_delete_eq.
    + by rewrite lookup_insert_ne.
    + by rewrite lookup_delete_ne.
  - destruct (bl_in_use e); [|by apply map_Forall_delete]. apply map_Forall_insert_2; [by apply Hb|done].
Qed.

Lemma held_alloc t m n :
  queues_held t m n -> 0 <= n -> let '(i, t') := backlog_alloc t in m !! i = None /\ queues_held t' (<[i := (1, [])]> m) (n + 1).
Proof.
  intros Hh Hn. destruct (held_weaken _ _ _ Hh) as [He Hc]. unfold backlog_alloc. pose proof (first_unused_le t) as Hle.
  pose proof (first_unused_None t) as Hf. rewrite He in Hf. split; [done|]. split.
  - intros j. destruct (Nat.ltb_spec (first_unused t) (length t)) as [Hl|Hl].
    + rewrite live_entry_insert by done. destruct (Nat.eqb_spec j (first_unused t)) as [->|]; [by rewrite lookup_insert_eq|by rewrite lookup_insert_ne].
    + replace (first_unused t) with (length t) in * by lia. unfold live_entry, vec_push. destruct (Nat.eqb_spec j (length t)) as [->|Hne].
      * rewrite list_lookup_middle by done. by rewrite lookup_insert_eq.
      * rewrite lookup_insert_ne by done. rewrite <- He. unfold live_entry. destruct (Nat.ltb_spec j (length t)); [by rewrite lookup_app_l|].
        by rewrite !lookup_ge_None_2 by (rewrite ?length_app; simpl; lia).
  - apply map_Forall_insert_2; [simpl; lia|done].
Qed.

Lemma listen_step_refines w m n op :
  queues_held (lw_backlogs w) m n -> 0 <= n < u32_max ->
  exists m', queue_step m (lw_pipes w) op (listen_step w op).1 m' (lw_pipes (listen_step w op).2) /\
    queues_held (lw_backlogs (listen_step w op).2) m' (n + 1).
Proof.
  intros Hh Hn. pose proof (held_weaken _ _ _ Hh) as Hw. destruct w as [t pt]. cbn [lw_backlogs lw_pipes] in *.
  assert (forall idx, match m !! idx with Some (c, q) => live_entry t idx = Some (c, q) /\ t !! idx = Some (mkBacklog q c true) /\ 1 <= c <= n
    | None => t !! idx = None \/ exists e, t !! idx = Some e /\ bl_in_use e = false end) as Hlook.
  { intros idx. destruct Hh as [He Hc]. rewrite <- He. destruct (live_entry t idx) as [[c q]|] eqn:E.
    - pose proof E as E'. apply live_entry_lt in E' as ([q0 c0 u0] & Ht & Hu & [= -> ->] & _). simpl in Hu. subst u0.
      split_and!; [done|done|..]; rewrite He in E; by destruct (Hc idx _ E).
    - unfold live_entry in E. destruct (t !! idx) as [e|]; [|by left]. right. exists e. split; [done|]. by destruct (bl_in_use e). }
  destruct op as [|idx|idx|idx pc|idx]; cbn [listen_step lw_backlogs lw_pipes queue_step].
  - pose proof (held_alloc t m n Hh ltac:(lia)) as Ha. destruct (backlog_alloc t) as [i t']. destruct Ha as [Hi Ha]. simpl. eexists. split; [|exact Ha]. by exists i.
  - specialize (Hlook idx). eexists. split; [split_and!; reflexivity|]. cbn [lw_backlogs snd]. unfold backlog_add_ref. destruct (m !! idx) as [[c q]|].
    + destruct Hlook as (Hl & -> & Hc). cbn [bl_in_use bl_queue bl_ref_count]. unfold u32_saturating_add. rewrite Z.min_l by lia.
      apply (held_update t m n idx (c, q) (mkBacklog q (c + 1) true) Hh Hl). simpl. lia.
    + by destruct Hlook as [->|(e & -> & ->)].
  - specialize (Hlook idx). unfold backlog_dec_ref. destruct (m !! idx) as [[c q]|].
    + destruct Hlook as (Hl & -> & Hc). cbn [bl_in_use bl_queue bl_ref_count negb]. unfold u32_saturating_sub.
      destruct (Z.eqb_spec c 1) as [->|Hne].
      * change (Z.max (1 - 1) 0 =? 0) with true. destruct (abandon_all q pt) as [pt' e]. simpl. eexists. split; [by split_and!|].
        by apply (held_update t m n idx (1, q) (mkBacklog [] 0 false) Hh Hl).
      * replace (Z.max (c - 1) 0) with (c - 1) by lia. rewrite (proj2 (Z.eqb_neq (c - 1) 0)) by lia. simpl. eexists. split; [by split_and!|].
        apply (held_update t m n idx (c, q) (mkBacklog q (c - 1) true) Hh Hl). simpl. lia.
    + destruct Hlook as [->|(e & -> & ->)]; simpl; by eexists.
  - specialize (Hlook idx). unfold backlog_push. destruct (m !! idx) as [[c q]|].
    + destruct Hlook as (Hl & -> & Hc). simpl. eexists. split; [by split_and!|].
      apply (held_update t m n idx (c, q) (mkBacklog (q ++ [pc]) c true) Hh Hl). simpl. lia.
    + destruct Hlook as [->|(e & -> & ->)]; simpl; by eexists.
  - specialize (Hlook idx). unfold backlog_pop. destruct (m !! idx) as [[c q]|].
    + destruct Hlook as (Hl & -> & Hc). cbn [bl_in_use bl_queue bl_ref_count]. destruct q as [|pc q]; simpl; eexists; (split; [by split_and!|]); [done|].
      apply (held_update t m n idx (c, pc :: q) (mkBacklog q c true) Hh Hl). simpl. lia.
    + destruct Hlook as [->|(e & -> & ->)]; simpl; by eexists.
Qed.

(** the accept queues implement queues with a count of listeners.  Over any
    history of [listen], inheritance, connection, [accept] and close, a queue
    is found under its index until as many releases as references, a connection
    pushed on a live queue is handed out once and in order of arrival, a push on
    a freed queue is refused, and the last release closes both server ends of
    exactly the connections still queued, in order. *)
Theorem accept_queues_refine pt ops :
  Z.of_nat (length ops) <= u32_max ->
  exists m pt', queue_run ∅ pt (listen_run (mkListen backlog_table_new pt) ops).1 m pt' /\
    lw_pipes (listen_run (mkListen backlog_table_new pt) ops).2 = pt' /\
    forall idx, backlog_len (lw_backlogs (listen_run (mkListen backlog_table_new pt) ops).2) idx =
      match m !! idx with Some (_, q) => length q | None => 0%nat end.
Proof.
  assert (forall ops w m n, queues_held (lw_backlogs w) m n -> 0 <= n -> n + Z.of_nat (length ops) <= u32_max ->
    exists m' pt' k, queue_run m (lw_pipes w) (listen_run w ops).1 m' pt' /\ lw_pipes (listen_run w ops).2 = pt' /\
      queues_held (lw_backlogs (listen_run w ops).2) m' k) as Hr.
  { clear ops. induction ops as [|op ops IH]; intros w m n Hh Hn Hl; cbn [listen_run length] in *.
    - exists m, (lw_pipes w), n. split_and!; [constructor|done|done].
    - destruct (listen_step_refines w m n op Hh ltac:(lia)) as (m1 & Hs & Hh1). destruct (listen_step w op) as [s w1]. simpl in Hs, Hh1.
      destruct (IH w1 m1 (n + 1) Hh1) as (m2 & pt2 & k & Hrun & Hp & Hh2); [lia..|].
      destruct (listen_run w1 ops) as [l w2]. simpl in *. exists m2, pt2, k. split_and!; [by econstructor|done|done]. }
  intros Hl. destruct (Hr ops (mkListen backlog_table_new pt) ∅ 0) as (m & pt' & k & Hrun & Hp & [He Hc]); [|lia..|].
  { split; [done|apply map_Forall_empty]. }
  exists m, pt'. split_and!; [done|done|]. intros idx. rewrite <- He. unfold backlog_len, live_entry.
  destruct (_ !! idx) as [e|]; [|done]. by destruct (bl_in_use e).
Qed.

Definition example_pc (n : nat) : PendingConnection := mkPending ANY4 ANY6 false 80 1 None n (S n).

Lemma accept_queues_refine_witness :
  exists m pt', queue_run ∅ table_new
    [(LAlloc, LSlot 0); (LAddRef 0, LNothing); (LPush 0 (example_pc 0), LPushed true); (LPush 0 (example_pc 2), LPushed true);
     (LDecRef 0, LNothing); (LPop 0, LPopped (Some (example_pc 0))); (LPush 0 (example_pc 4), LPushed true)] m pt' /\
    match m !! 0%nat with Some (_, q) => length q | None => 0%nat end = 2%nat.
Proof.
  destruct (accept_queues_refine table_new
    [LAlloc; LAddRef 0; LPush 0 (example_pc 0); LPush 0 (example_pc 2); LDecRef 0; LPop 0; LPush 0 (example_pc 4)])
    as (m & pt' & Hrun & _ & Hlen); [vm_compute; discriminate|].
  exists m, pt'. split; [exact Hrun|]. rewrite <- Hlen. vm_compute. reflexivity.
Defined.

(** ** The socket table *)

Lemma socket_get_insert t idx x j : (idx < length t)%nat -> socket_get (<[idx := x]> t) j = if (j =? idx)%nat then x else socket_get t j.
Proof.
  intros Hl. unfold socket_get. destruct (Nat.eqb_spec j idx) as [->|]; [by rewrite list_lookup_insert_eq|by rewrite list_lookup_insert_ne].
Qed.

Lemma socket_get_pad t k j : socket_get (t ++ replicate k None) j = socket_get t j.
Proof.
  unfold socket_get. destruct (Nat.ltb_spec j (length t)); [by rewrite lookup_app_l|]. rewrite lookup_app_r by lia.
  rewrite (lookup_ge_None_2 t j) by done. destruct (replicate k None !! _) as [x|] eqn:E; [|done]. by apply lookup_replicate in E as [-> _].
Qed.

(** A socket is found in the slot it was given until it is freed, and no other slot
    changes. *)
Lemma socket_table_slots t info idx j :
  (socket_get t (socket_alloc t info).1 = None /\
   socket_get (socket_alloc t info).2 j = if (j =? (socket_alloc t info).1)%nat then Some info else socket_get t j) /\
  socket_get (socket_free t idx) j = (if (j =? idx)%nat then None else socket_get t j) /\
  socket_get (socket_insert_at t idx info) j = (if (j =? idx)%nat then Some info else socket_get t j).
Proof.
  split_and!.
  - unfold socket_get. simpl. clear. by induction t as [|[a|] t IH].
  - unfold socket_alloc. cbn [fst snd]. destruct (first_free_spec t) as [Hle _].
    destruct (Nat.ltb_spec (first_free t) (length t)) as [Hl|Hl]; [by apply socket_get_insert|].
    replace (first_free t) with (length t) by lia. unfold vec_push.
    rewrite <- (list_insert_id (t ++ [Some info]) (length t) (Some info)) by (by rewrite list_lookup_middle).
    rewrite socket_get_insert by (rewrite length_app; simpl; lia). destruct (Nat.eqb_spec j (length t)) as [|Hne]; [done|].
    unfold socket_get. destruct (Nat.ltb_spec j (length t)); [by rewrite lookup_app_l|].
    by rewrite !lookup_ge_None_2 by (rewrite ?length_app; simpl; lia).
  - unfold socket_free. destruct (Nat.ltb_spec idx (length t)) as [Hl|Hl]; [by apply socket_get_insert|].
    destruct (Nat.eqb_spec j idx) as [->|]; [|done]. unfold socket_get. by rewrite lookup_ge_None_2.
  - unfold socket_insert_at. rewrite socket_get_insert by (rewrite length_app, length_replicate; lia). by rewrite socket_get_pad.
Qed.

(** Host connections are counted as host file handles are, so that a connection is
    closed by its last owner ([host_handle_last_owner_closes]). *)
Lemma host_net_refs_as_handle_refs refs h :
  host_net_handle_fork_ref refs h = host_handle_fork_ref refs h /\ host_net_handle_close_ref refs h = host_handle_close_ref refs h.
Proof. done. Qed.
