(* ===== verification/Process.v ===== *)
(** * Processes ([crates/kernel/src/process.rs])

    The state of one process, with the operations that file defines on it: the
    lifecycle (stop, continue, exit) and the status record a parent waits for, the
    threads, and signals that are directed to the process or to one thread.
    [HostIO], the interface of the host, is not modelled here: no operation of this
    file calls it.  The wakeup events an operation emits are part of its result.

    The tables a process holds (descriptors, open file descriptions, sockets,
    signals, memory, terminal) are the ones of their own files.

    The theorems: whatever signals are generated, a stop signal and SIGCONT are
    never pending together; the lifecycle is the state machine
    running/stopped/exited, each transition is reported by exactly one record,
    and the record decodes to the event it reports; the signal chosen for a thread
    is the lowest one that is pending for it and not blocked, taking it removes
    one notification from the thread's own queue or else from the shared one, and
    a stopped process is offered SIGKILL only; a notification queued for one thread
    is never taken by another. *)

From S2P Require Import Prelude Abi FdTable Lock Ofd Wakeup Pipe Memory Terminal Socket Signal.

Inductive ProcessState := Running | Stopped | Exited | Limbo.

#[export] Instance ProcessState_eq_dec : EqDecision ProcessState.
Proof. solve_decision. Defined.

(** [WasmRusageWire]: eighteen counters. *)
Abbreviation KernelRusage := (list Z).
Definition rusage_default : KernelRusage := replicate 18 0.

Record ChildWaitEvent := mkWaitEvent {
  we_event_mask : Z; we_wait_status : Z; we_si_code : Z; we_si_status : Z; we_child_uid : Z; we_rusage : KernelRusage;
}.

Record FbBinding := mkFb { fb_addr : Z; fb_len : Z; fb_w : Z; fb_h : Z; fb_stride : Z; fb_fmt : Z }.
Record DriBoBinding := mkDriBo { db_addr : Z; db_len : Z; db_bo_id : Z }.

Record ThreadInfo := mkThreadInfo {
  th_tid : Z; th_ctid_ptr : Z; th_stack_ptr : Z; th_tls_ptr : Z; th_tidptr : Z; th_signals : PerThreadSignalState;
}.

Definition thread_new (tid ctid_ptr stack_ptr tls_ptr : Z) : ThreadInfo := mkThreadInfo tid ctid_ptr stack_ptr tls_ptr 0 pt_new.

Record EpollInterest := mkInterest { ei_fd : Z; ei_events : Z; ei_data : Z }.
Record EpollInstance := mkEpoll { ep_interests : list EpollInterest }.
Definition epoll_new : EpollInstance := mkEpoll [].

Record PosixTimerState := mkPosixTimer {
  ti_clock_id : Z; ti_sigev_signo : Z; ti_sigev_value : Z; ti_sigev_notify : Z; ti_sigev_tid : Z;
  ti_interval_sec : Z; ti_interval_nsec : Z; ti_value_sec : Z; ti_value_nsec : Z;
  ti_notification_pending : bool; ti_overrun_current : Z; ti_overrun_last : Z;
}.

Definition SIGEV_SIGNAL : Z := 0.
Definition SIGEV_NONE : Z := 1.
Definition SIGEV_THREAD_ID : Z := 4.

Definition normalize_posix_timer_signo (sigev_notify sigev_signo : Z) : kresult Z :=
  if sigev_notify =? SIGEV_NONE then Ok 0
  else if (sigev_notify =? SIGEV_SIGNAL) && ((1 <=? sigev_signo) && (sigev_signo <=? 64)) then Ok sigev_signo
  else if (sigev_notify =? SIGEV_THREAD_ID) && ((1 <=? sigev_signo) && (sigev_signo <=? 64)) then Ok sigev_signo
  else Err EINVAL.

Inductive FdAction :=
| FdDup2 (old_fd new_fd : Z)
| FdClose (fd : Z)
| FdOpen (fd : Z) (path : bytes) (flags mode : Z).

Record DirStream := mkDirStream { ds_host_handle : Z; ds_path : bytes; ds_position : Z; ds_synth_dot_state : Z }.

Record Process := mkProcess {
  pr_pid : Z;
  pr_ppid : Z;
  pr_uid : Z;
  pr_gid : Z;
  pr_euid : Z;
  pr_egid : Z;
  pr_pgid : Z;
  pr_sid : Z;
  pr_is_session_leader : bool;
  pr_state : ProcessState;
  pr_exit_status : Z;
  pr_exit_signal : Z;
  pr_wait_event : option ChildWaitEvent;
  pr_fd_table : FdTable;
  pr_ofd_table : OfdTable;
  pr_pipes : list (option PipeBuffer);
  pr_sockets : SocketTable;
  pr_cwd : bytes;
  pr_dir_streams : list (option DirStream);
  pr_signals : SignalState;
  pr_main_thread_signals : PerThreadSignalState;
  pr_memory : MemoryManager;
  pr_terminal : TerminalState;
  pr_environ : list bytes;
  pr_argv : list bytes;
  pr_umask : Z;
  pr_nice : Z;
  pr_rlimits : list (Z * Z);
  pr_alarm_deadline_ns : Z;
  pr_alarm_interval_ns : Z;
  pr_thread_name : bytes;
  pr_fork_child : bool;
  pr_sigsuspend_saved_mask : option Z;
  pr_fork_exec_path : option bytes;
  pr_fork_exec_argv : option (list bytes);
  pr_fork_fd_actions : list FdAction;
  pr_next_ephemeral_port : Z;
  pr_threads : list ThreadInfo;
  pr_next_tid : Z;
  pr_epolls : list (option EpollInstance);
  pr_posix_timers : list (option PosixTimerState);
  pr_alt_stack_sp : Z;
  pr_alt_stack_flags : Z;
  pr_alt_stack_size : Z;
  pr_alt_stack_depth : Z;
  pr_fork_pipe_replay : list (Z * Z);
  pr_has_exec : bool;
  pr_fb_binding : option FbBinding;
  pr_dri_bindings : list DriBoBinding;
  pr_fork_count : Z;
}.

Definition with_status (p : Process) (st : ProcessState) (status sig : Z) (ev : option ChildWaitEvent) : Process :=
  mkProcess (pr_pid p) (pr_ppid p) (pr_uid p) (pr_gid p) (pr_euid p) (pr_egid p) (pr_pgid p) (pr_sid p) (pr_is_session_leader p) st
    status sig ev (pr_fd_table p) (pr_ofd_table p) (pr_pipes p) (pr_sockets p) (pr_cwd p) (pr_dir_streams p) (pr_signals p)
    (pr_main_thread_signals p) (pr_memory p) (pr_terminal p) (pr_environ p) (pr_argv p) (pr_umask p) (pr_nice p) (pr_rlimits p)
    (pr_alarm_deadline_ns p) (pr_alarm_interval_ns p) (pr_thread_name p) (pr_fork_child p) (pr_sigsuspend_saved_mask p)
    (pr_fork_exec_path p) (pr_fork_exec_argv p) (pr_fork_fd_actions p) (pr_next_ephemeral_port p) (pr_threads p) (pr_next_tid p)
    (pr_epolls p) (pr_posix_timers p) (pr_alt_stack_sp p) (pr_alt_stack_flags p) (pr_alt_stack_size p) (pr_alt_stack_depth p)
    (pr_fork_pipe_replay p) (pr_has_exec p) (pr_fb_binding p) (pr_dri_bindings p) (pr_fork_count p).

Definition with_wait_event (p : Process) (ev : option ChildWaitEvent) : Process :=
  mkProcess (pr_pid p) (pr_ppid p) (pr_uid p) (pr_gid p) (pr_euid p) (pr_egid p) (pr_pgid p) (pr_sid p) (pr_is_session_leader p)
    (pr_state p) (pr_exit_status p) (pr_exit_signal p) ev (pr_fd_table p) (pr_ofd_table p) (pr_pipes p) (pr_sockets p) (pr_cwd p)
    (pr_dir_streams p) (pr_signals p) (pr_main_thread_signals p) (pr_memory p) (pr_terminal p) (pr_environ p) (pr_argv p) (pr_umask p)
    (pr_nice p) (pr_rlimits p) (pr_alarm_deadline_ns p) (pr_alarm_interval_ns p) (pr_thread_name p) (pr_fork_child p)
    (pr_sigsuspend_saved_mask p) (pr_fork_exec_path p) (pr_fork_exec_argv p) (pr_fork_fd_actions p) (pr_next_ephemeral_port p)
    (pr_threads p) (pr_next_tid p) (pr_epolls p) (pr_posix_timers p) (pr_alt_stack_sp p) (pr_alt_stack_flags p) (pr_alt_stack_size p)
    (pr_alt_stack_depth p) (pr_fork_pipe_replay p) (pr_has_exec p) (pr_fb_binding p) (pr_dri_bindings p) (pr_fork_count p).

Definition with_pipes (p : Process) (l : list (option PipeBuffer)) : Process :=
  mkProcess (pr_pid p) (pr_ppid p) (pr_uid p) (pr_gid p) (pr_euid p) (pr_egid p) (pr_pgid p) (pr_sid p) (pr_is_session_leader p)
    (pr_state p) (pr_exit_status p) (pr_exit_signal p) (pr_wait_event p) (pr_fd_table p) (pr_ofd_table p) l (pr_sockets p) (pr_cwd p)
    (pr_dir_streams p) (pr_signals p) (pr_main_thread_signals p) (pr_memory p) (pr_terminal p) (pr_environ p) (pr_argv p) (pr_umask p)
    (pr_nice p) (pr_rlimits p) (pr_alarm_deadline_ns p) (pr_alarm_interval_ns p) (pr_thread_name p) (pr_fork_child p)
    (pr_sigsuspend_saved_mask p) (pr_fork_exec_path p) (pr_fork_exec_argv p) (pr_fork_fd_actions p) (pr_next_ephemeral_port p)
    (pr_threads p) (pr_next_tid p) (pr_epolls p) (pr_posix_timers p) (pr_alt_stack_sp p) (pr_alt_stack_flags p) (pr_alt_stack_size p)
    (pr_alt_stack_depth p) (pr_fork_pipe_replay p) (pr_has_exec p) (pr_fb_binding p) (pr_dri_bindings p) (pr_fork_count p).

Definition with_all_signals (p : Process) (s : SignalState) (m : PerThreadSignalState) (l : list ThreadInfo) : Process :=
  mkProcess (pr_pid p) (pr_ppid p) (pr_uid p) (pr_gid p) (pr_euid p) (pr_egid p) (pr_pgid p) (pr_sid p) (pr_is_session_leader p)
    (pr_state p) (pr_exit_status p) (pr_exit_signal p) (pr_wait_event p) (pr_fd_table p) (pr_ofd_table p) (pr_pipes p) (pr_sockets p)
    (pr_cwd p) (pr_dir_streams p) s m (pr_memory p) (pr_terminal p) (pr_environ p) (pr_argv p) (pr_umask p) (pr_nice p) (pr_rlimits p)
    (pr_alarm_deadline_ns p) (pr_alarm_interval_ns p) (pr_thread_name p) (pr_fork_child p) (pr_sigsuspend_saved_mask p)
    (pr_fork_exec_path p) (pr_fork_exec_argv p) (pr_fork_fd_actions p) (pr_next_ephemeral_port p) l (pr_next_tid p) (pr_epolls p)
    (pr_posix_timers p) (pr_alt_stack_sp p) (pr_alt_stack_flags p) (pr_alt_stack_size p) (pr_alt_stack_depth p) (pr_fork_pipe_replay p)
    (pr_has_exec p) (pr_fb_binding p) (pr_dri_bindings p) (pr_fork_count p).

Definition with_next_tid (p : Process) (t : Z) : Process :=
  mkProcess (pr_pid p) (pr_ppid p) (pr_uid p) (pr_gid p) (pr_euid p) (pr_egid p) (pr_pgid p) (pr_sid p) (pr_is_session_leader p)
    (pr_state p) (pr_exit_status p) (pr_exit_signal p) (pr_wait_event p) (pr_fd_table p) (pr_ofd_table p) (pr_pipes p) (pr_sockets p)
    (pr_cwd p) (pr_dir_streams p) (pr_signals p) (pr_main_thread_signals p) (pr_memory p) (pr_terminal p) (pr_environ p) (pr_argv p)
    (pr_umask p) (pr_nice p) (pr_rlimits p) (pr_alarm_deadline_ns p) (pr_alarm_interval_ns p) (pr_thread_name p) (pr_fork_child p)
    (pr_sigsuspend_saved_mask p) (pr_fork_exec_path p) (pr_fork_exec_argv p) (pr_fork_fd_actions p) (pr_next_ephemeral_port p)
    (pr_threads p) t (pr_epolls p) (pr_posix_timers p) (pr_alt_stack_sp p) (pr_alt_stack_flags p) (pr_alt_stack_size p)
    (pr_alt_stack_depth p) (pr_fork_pipe_replay p) (pr_has_exec p) (pr_fb_binding p) (pr_dri_bindings p) (pr_fork_count p).

Definition with_saved_mask (p : Process) (m : option Z) : Process :=
  mkProcess (pr_pid p) (pr_ppid p) (pr_uid p) (pr_gid p) (pr_euid p) (pr_egid p) (pr_pgid p) (pr_sid p) (pr_is_session_leader p)
    (pr_state p) (pr_exit_status p) (pr_exit_signal p) (pr_wait_event p) (pr_fd_table p) (pr_ofd_table p) (pr_pipes p) (pr_sockets p)
    (pr_cwd p) (pr_dir_streams p) (pr_signals p) (pr_main_thread_signals p) (pr_memory p) (pr_terminal p) (pr_environ p) (pr_argv p)
    (pr_umask p) (pr_nice p) (pr_rlimits p) (pr_alarm_deadline_ns p) (pr_alarm_interval_ns p) (pr_thread_name p) (pr_fork_child p) m
    (pr_fork_exec_path p) (pr_fork_exec_argv p) (pr_fork_fd_actions p) (pr_next_ephemeral_port p) (pr_threads p) (pr_next_tid p)
    (pr_epolls p) (pr_posix_timers p) (pr_alt_stack_sp p) (pr_alt_stack_flags p) (pr_alt_stack_size p) (pr_alt_stack_depth p)
    (pr_fork_pipe_replay p) (pr_has_exec p) (pr_fb_binding p) (pr_dri_bindings p) (pr_fork_count p).

Definition with_timers (p : Process) (l : list (option PosixTimerState)) : Process :=
  mkProcess (pr_pid p) (pr_ppid p) (pr_uid p) (pr_gid p) (pr_euid p) (pr_egid p) (pr_pgid p) (pr_sid p) (pr_is_session_leader p)
    (pr_state p) (pr_exit_status p) (pr_exit_signal p) (pr_wait_event p) (pr_fd_table p) (pr_ofd_table p) (pr_pipes p) (pr_sockets p)
    (pr_cwd p) (pr_dir_streams p) (pr_signals p) (pr_main_thread_signals p) (pr_memory p) (pr_terminal p) (pr_environ p) (pr_argv p)
    (pr_umask p) (pr_nice p) (pr_rlimits p) (pr_alarm_deadline_ns p) (pr_alarm_interval_ns p) (pr_thread_name p) (pr_fork_child p)
    (pr_sigsuspend_saved_mask p) (pr_fork_exec_path p) (pr_fork_exec_argv p) (pr_fork_fd_actions p) (pr_next_ephemeral_port p)
    (pr_threads p) (pr_next_tid p) (pr_epolls p) l (pr_alt_stack_sp p) (pr_alt_stack_flags p) (pr_alt_stack_size p)
    (pr_alt_stack_depth p) (pr_fork_pipe_replay p) (pr_has_exec p) (pr_fb_binding p) (pr_dri_bindings p) (pr_fork_count p).

Definition with_argv (p : Process) (l : list bytes) : Process :=
  mkProcess (pr_pid p) (pr_ppid p) (pr_uid p) (pr_gid p) (pr_euid p) (pr_egid p) (pr_pgid p) (pr_sid p) (pr_is_session_leader p)
    (pr_state p) (pr_exit_status p) (pr_exit_signal p) (pr_wait_event p) (pr_fd_table p) (pr_ofd_table p) (pr_pipes p) (pr_sockets p)
    (pr_cwd p) (pr_dir_streams p) (pr_signals p) (pr_main_thread_signals p) (pr_memory p) (pr_terminal p) (pr_environ p) l (pr_umask p)
    (pr_nice p) (pr_rlimits p) (pr_alarm_deadline_ns p) (pr_alarm_interval_ns p) (pr_thread_name p) (pr_fork_child p)
    (pr_sigsuspend_saved_mask p) (pr_fork_exec_path p) (pr_fork_exec_argv p) (pr_fork_fd_actions p) (pr_next_ephemeral_port p)
    (pr_threads p) (pr_next_tid p) (pr_epolls p) (pr_posix_timers p) (pr_alt_stack_sp p) (pr_alt_stack_flags p) (pr_alt_stack_size p)
    (pr_alt_stack_depth p) (pr_fork_pipe_replay p) (pr_has_exec p) (pr_fb_binding p) (pr_dri_bindings p) (pr_fork_count p).

Definition with_environ (p : Process) (l : list bytes) : Process :=
  mkProcess (pr_pid p) (pr_ppid p) (pr_uid p) (pr_gid p) (pr_euid p) (pr_egid p) (pr_pgid p) (pr_sid p) (pr_is_session_leader p)
    (pr_state p) (pr_exit_status p) (pr_exit_signal p) (pr_wait_event p) (pr_fd_table p) (pr_ofd_table p) (pr_pipes p) (pr_sockets p)
    (pr_cwd p) (pr_dir_streams p) (pr_signals p) (pr_main_thread_signals p) (pr_memory p) (pr_terminal p) l (pr_argv p) (pr_umask p)
    (pr_nice p) (pr_rlimits p) (pr_alarm_deadline_ns p) (pr_alarm_interval_ns p) (pr_thread_name p) (pr_fork_child p)
    (pr_sigsuspend_saved_mask p) (pr_fork_exec_path p) (pr_fork_exec_argv p) (pr_fork_fd_actions p) (pr_next_ephemeral_port p)
    (pr_threads p) (pr_next_tid p) (pr_epolls p) (pr_posix_timers p) (pr_alt_stack_sp p) (pr_alt_stack_flags p) (pr_alt_stack_size p)
    (pr_alt_stack_depth p) (pr_fork_pipe_replay p) (pr_has_exec p) (pr_fb_binding p) (pr_dri_bindings p) (pr_fork_count p).

Definition with_fork_count (p : Process) (n : Z) : Process :=
  mkProcess (pr_pid p) (pr_ppid p) (pr_uid p) (pr_gid p) (pr_euid p) (pr_egid p) (pr_pgid p) (pr_sid p) (pr_is_session_leader p)
    (pr_state p) (pr_exit_status p) (pr_exit_signal p) (pr_wait_event p) (pr_fd_table p) (pr_ofd_table p) (pr_pipes p) (pr_sockets p)
    (pr_cwd p) (pr_dir_streams p) (pr_signals p) (pr_main_thread_signals p) (pr_memory p) (pr_terminal p) (pr_environ p) (pr_argv p)
    (pr_umask p) (pr_nice p) (pr_rlimits p) (pr_alarm_deadline_ns p) (pr_alarm_interval_ns p) (pr_thread_name p) (pr_fork_child p)
    (pr_sigsuspend_saved_mask p) (pr_fork_exec_path p) (pr_fork_exec_argv p) (pr_fork_fd_actions p) (pr_next_ephemeral_port p)
    (pr_threads p) (pr_next_tid p) (pr_epolls p) (pr_posix_timers p) (pr_alt_stack_sp p) (pr_alt_stack_flags p) (pr_alt_stack_size p)
    (pr_alt_stack_depth p) (pr_fork_pipe_replay p) (pr_has_exec p) (pr_fb_binding p) (pr_dri_bindings p) n.


(** ** Creation *)

Inductive StdioKind := HostPipe | HostTerminal.

Definition stdio_from_abi (value : Z) : option StdioKind :=
  if value =? 0 then Some HostPipe else if value =? 1 then Some HostTerminal else None.

Definition stdio_file_type (k : StdioKind) : FileType := match k with HostPipe => Ofd.Pipe | HostTerminal => CharDevice end.

Record StdioConfig := mkStdio { st_stdin : StdioKind; st_stdout : StdioKind; st_stderr : StdioKind }.
Definition stdio_captured : StdioConfig := mkStdio HostPipe HostPipe HostPipe.
Definition stdio_terminal : StdioConfig := mkStdio HostTerminal HostTerminal HostTerminal.

(** The bytes of ["/dev/stdin"], ["/dev/stdout"] and ["/dev/stderr"]. *)
Definition DEV_STDIN : bytes := [47; 100; 101; 118; 47; 115; 116; 100; 105; 110].
Definition DEV_STDOUT : bytes := [47; 100; 101; 118; 47; 115; 116; 100; 111; 117; 116].
Definition DEV_STDERR : bytes := [47; 100; 101; 118; 47; 115; 116; 100; 101; 114; 114].

Definition default_rlimits : list (Z * Z) :=
  <[3%nat := (8 * 1024 * 1024, u64_max)]> (<[7%nat := (1024, 4096)]> (replicate 16 (u64_max, u64_max))).

(** [last_ofd_id] is the counter of description identities; [None] when it is
    exhausted, where the source panics. *)
Definition new_with_stdio (last_ofd_id pid : Z) (stdio : StdioConfig) : option (Process * Z) :=
  match create last_ofd_id Ofd.new (stdio_file_type (st_stdin stdio)) O_RDONLY 0 DEV_STDIN with
  | None => None
  | Some (_, t1, last1) =>
      match create last1 t1 (stdio_file_type (st_stdout stdio)) O_WRONLY 1 DEV_STDOUT with
      | None => None
      | Some (_, t2, last2) =>
          match create last2 t2 (stdio_file_type (st_stderr stdio)) O_WRONLY 2 DEV_STDERR with
          | None => None
          | Some (_, t3, last3) =>
              Some (mkProcess pid 0 0 0 0 0 pid 0 false Running 0 0 None (preopen_stdio FdTable.new) t3 [] socket_table_new [47] []
                      Signal.new pt_new Memory.new term_new [] [] 18 0 default_rlimits 0 0 (replicate 16 0) false None None None []
                      49152 [] 0 [] [] 0 2 0 0 [] false None [] 0, last3)
          end
      end
  end.

Definition process_new (last_ofd_id pid : Z) : option (Process * Z) := new_with_stdio last_ofd_id pid stdio_captured.

Definition increment_fork_count (p : Process) : Process := with_fork_count p ((pr_fork_count p + 1) mod 2 ^ 64).

(** ** Lifecycle *)

Definition EVENT_EXITED : Z := 1.
Definition EVENT_STOPPED : Z := 2.
Definition EVENT_CONTINUED : Z := 4.
Definition CLD_EXITED : Z := 1.
Definition CLD_KILLED : Z := 2.
Definition CLD_STOPPED : Z := 5.
Definition CLD_CONTINUED : Z := 6.
Definition WAKE_PROCESS_STOPPED : Z := 16.
Definition WAKE_PROCESS_CONTINUED : Z := 32.

(** The record of [set_wait_event]. *)
Definition wait_record (p : Process) (event_mask wait_status si_code si_status : Z) : option ChildWaitEvent :=
  Some (mkWaitEvent event_mask wait_status si_code si_status (pr_uid p) rusage_default).

Definition record_stop (p : Process) (signum : Z) : bool * (Process * list WakeupEvent) :=
  if bool_decide (pr_state p = Running) then
    (true, (with_status p Stopped (pr_exit_status p) (pr_exit_signal p)
              (wait_record p EVENT_STOPPED (Z.lor (as_i32 (Z.shiftl (as_i32 signum) 8)) 127) CLD_STOPPED (as_i32 signum)),
            [mkWake (pr_pid p) WAKE_PROCESS_STOPPED]))
  else (false, (p, [])).

Definition record_continue (p : Process) : bool * (Process * list WakeupEvent) :=
  if bool_decide (pr_state p = Stopped) then
    (true, (with_status p Running (pr_exit_status p) (pr_exit_signal p)
              (wait_record p EVENT_CONTINUED 65535 CLD_CONTINUED SIGCONT),
            [mkWake (pr_pid p) WAKE_PROCESS_CONTINUED]))
  else (false, (p, [])).

Definition record_normal_exit (p : Process) (status : Z) : bool * Process :=
  if bool_decide (pr_state p = Exited) || bool_decide (pr_state p = Limbo) then (false, p)
  else
    let status := Z.land status 255 in
    (true, with_status p Exited status 0 (wait_record p EVENT_EXITED (as_i32 (Z.shiftl status 8)) CLD_EXITED status)).

Definition record_signal_exit (p : Process) (signum : Z) : bool * Process :=
  if bool_decide (pr_state p = Exited) || bool_decide (pr_state p = Limbo) then (false, p)
  else
    let signum := Z.land signum 127 in
    (true, with_status p Exited 0 signum (wait_record p EVENT_EXITED signum CLD_KILLED signum)).

(** ** Threads *)

Definition alloc_tid (p : Process) : Z * Process :=
  let next := if pr_next_tid p =? 0 then u32_wrap (pr_pid p + 1) else pr_next_tid p in
  (next, with_next_tid p (u32_wrap (next + 1))).

Definition with_threads (p : Process) (l : list ThreadInfo) : Process := with_all_signals p (pr_signals p) (pr_main_thread_signals p) l.
Definition with_signals (p : Process) (s : SignalState) : Process := with_all_signals p s (pr_main_thread_signals p) (pr_threads p).
Definition with_main (p : Process) (m : PerThreadSignalState) : Process := with_all_signals p (pr_signals p) m (pr_threads p).

Definition add_thread (p : Process) (info : ThreadInfo) : Process := with_threads p (vec_push (pr_threads p) info).

Definition has_tid (tid : Z) (t : ThreadInfo) : bool := th_tid t =? tid.

(** [swap_remove(idx)]: the last element takes the place of the removed one. *)
Definition vec_swap_remove {A} (idx : nat) (l : list A) : list A :=
  match last l with
  | Some x => take (length l - 1) (<[idx := x]> l)
  | None => l
  end.

Definition remove_thread (p : Process) (tid : Z) : option ThreadInfo * Process :=
  match position (has_tid tid) (pr_threads p) with
  | Some idx => (pr_threads p !! idx, with_threads p (vec_swap_remove idx (pr_threads p)))
  | None => (None, p)
  end.

Definition get_thread (p : Process) (tid : Z) : option ThreadInfo := find_first (has_tid tid) (pr_threads p).

(** The first thread with this identity, changed by [f]. *)
Fixpoint update_thread (tid : Z) (f : ThreadInfo -> ThreadInfo) (l : list ThreadInfo) : list ThreadInfo :=
  match l with
  | [] => []
  | t :: l' => if has_tid tid t then f t :: l' else t :: update_thread tid f l'
  end.

Definition with_thread_signals (t : ThreadInfo) (s : PerThreadSignalState) : ThreadInfo :=
  mkThreadInfo (th_tid t) (th_ctid_ptr t) (th_stack_ptr t) (th_tls_ptr t) (th_tidptr t) s.

Definition get_thread_mut (p : Process) (tid : Z) (f : PerThreadSignalState -> PerThreadSignalState) : Process :=
  with_threads p (update_thread tid (fun t => with_thread_signals t (f (th_signals t))) (pr_threads p)).

Definition is_main_thread (p : Process) (tid : Z) : bool := (tid =? 0) || (tid =? pr_pid p).

Definition is_live_explicit_tid (p : Process) (tid : Z) : bool :=
  negb (tid =? 0) && ((tid =? pr_pid p) || bool_decide (is_Some (get_thread p tid))).

(** ** Signals of a process and of its threads *)

Definition with_blocked (s : SignalState) (b : Z) : SignalState := mkSignals (actions s) b (pending s) (rt_queue s).
Definition pt_with_blocked (s : PerThreadSignalState) (b : Z) : PerThreadSignalState := mkThread b (pt_pending s) (pt_queue s) (pt_saved_mask s).
Definition pt_with_saved (s : PerThreadSignalState) (m : option Z) : PerThreadSignalState := mkThread (pt_blocked s) (pt_pending s) (pt_queue s) m.

Definition clear_directed_signal (p : Process) (signum : Z) : Process :=
  with_all_signals p (pr_signals p) (pt_clear_pending (pr_main_thread_signals p) signum)
    ((fun t => with_thread_signals t (pt_clear_pending (th_signals t) signum)) <$> pr_threads p).

Definition clear_signal_everywhere (p : Process) (signum : Z) : Process :=
  clear_directed_signal (with_signals p (clear_pending (pr_signals p) signum)) signum.

Definition is_stop_signal (signum : Z) : bool := bool_decide (signum ∈ [SIGSTOP; SIGTSTP; SIGTTIN; SIGTTOU]).

Definition prepare_signal_generation (p : Process) (signum : Z) : Process * list WakeupEvent :=
  if (signum =? 0) || (NSIG <=? signum) then (p, [])
  else if signum =? SIGCONT then
    (record_continue (fold_left clear_signal_everywhere [SIGSTOP; SIGTSTP; SIGTTIN; SIGTTOU] p)).2
  else if is_stop_signal signum then (clear_signal_everywhere p SIGCONT, [])
  else (p, []).

Definition raise_signal (p : Process) (signum : Z) : bool * (Process * list WakeupEvent) :=
  let '(p1, e) := prepare_signal_generation p signum in
  let '(r, s) := raise (pr_signals p1) signum in (r, (with_signals p1 s, e)).

Definition raise_signal_with_value (p : Process) (signum si_value : Z) : bool * (Process * list WakeupEvent) :=
  let '(p1, e) := prepare_signal_generation p signum in
  let '(r, s) := raise_with_value (pr_signals p1) signum si_value in (r, (with_signals p1 s, e)).

(** The common body of the three functions that queue a signal for one thread;
    [f] is what is called on the thread's state. *)
Definition raise_directed (p : Process) (tid signum : Z) (f : PerThreadSignalState -> bool * PerThreadSignalState)
    : bool * (Process * list WakeupEvent) :=
  let '(p, e) := prepare_signal_generation p signum in
  if (signum =? 0) || (NSIG <=? signum) then (false, (p, e))
  else if should_discard_pending signum (get_handler (pr_signals p) signum) then (true, (p, e))
  else if is_main_thread p tid then let '(r, m) := f (pr_main_thread_signals p) in (r, (with_main p m, e))
  else
    match get_thread p tid with
    | Some t => ((f (th_signals t)).1, (get_thread_mut p tid (fun s => (f s).2), e))
    | None => (false, (p, e))
    end.

Definition raise_for_thread (p : Process) (tid signum : Z) := raise_directed p tid signum (fun s => pt_raise s signum).
Definition raise_for_thread_with_value (p : Process) (tid signum si_value : Z) :=
  raise_directed p tid signum (fun s => pt_raise_with_value s signum si_value).
Definition raise_timer_for_thread (p : Process) (tid signum si_value timer_id : Z) :=
  raise_directed p tid signum (fun s => pt_raise_timer s signum si_value timer_id).

Definition blocked_for (p : Process) (tid : Z) : Z :=
  if is_main_thread p tid then blocked (pr_signals p)
  else match get_thread p tid with Some t => pt_blocked (th_signals t) | None => blocked (pr_signals p) end.

Definition set_blocked_for (p : Process) (tid new_blocked : Z) : Z * Process :=
  if is_main_thread p tid then (blocked (pr_signals p), with_signals p (with_blocked (pr_signals p) new_blocked))
  else
    match get_thread p tid with
    | Some t => (pt_blocked (th_signals t), get_thread_mut p tid (fun s => pt_with_blocked s new_blocked))
    | None => (blocked (pr_signals p), with_signals p (with_blocked (pr_signals p) new_blocked))
    end.

Definition pending_for (p : Process) (tid : Z) : Z :=
  if is_main_thread p tid then Z.lor (pending (pr_signals p)) (pt_pending (pr_main_thread_signals p))
  else Z.lor (pending (pr_signals p)) (match get_thread p tid with Some t => pt_pending (th_signals t) | None => 0 end).

Definition has_bit (mask signum : Z) : bool := negb (Z.land mask (sig_bit signum) =? 0).

Definition signal_pending_for (p : Process) (tid sig : Z) : bool :=
  if (sig =? 0) || (NSIG <=? sig) then false
  else
    has_bit (pending (pr_signals p)) sig ||
    (if is_main_thread p tid then has_bit (pt_pending (pr_main_thread_signals p)) sig
     else match get_thread p tid with Some t => has_bit (pt_pending (th_signals t)) sig | None => false end).

Definition signal_pending_anywhere (p : Process) (sig : Z) : bool :=
  if (sig =? 0) || (NSIG <=? sig) then false
  else has_bit (pending (pr_signals p)) sig || has_bit (pt_pending (pr_main_thread_signals p)) sig
       || existsb (fun t => has_bit (pt_pending (th_signals t)) sig) (pr_threads p).

Definition unblocks (sig : Z) (t : ThreadInfo) : bool := negb (has_bit (pt_blocked (th_signals t)) sig).

Definition pick_thread_for_shared_signal (p : Process) (sig : Z) : option Z :=
  if (sig =? 0) || (NSIG <=? sig) then None
  else if negb (has_bit (blocked (pr_signals p)) sig) then Some (pr_pid p)
  else th_tid <$> find_first (unblocks sig) (pr_threads p).

Definition tids_accepting (p : Process) (sig : Z) : list Z :=
  if (sig =? 0) || (NSIG <=? sig) then []
  else (if has_bit (blocked (pr_signals p)) sig then [] else [pr_pid p]) ++ (th_tid <$> List.filter (unblocks sig) (pr_threads p)).

Definition deliverable_for (p : Process) (tid : Z) : Z := Z.ldiff (pending_for p tid) (blocked_for p tid).

Definition next_deliverable_signal (p : Process) (tid : Z) : option Z :=
  if bool_decide (pr_state p = Stopped) then if signal_pending_anywhere p SIGKILL then Some SIGKILL else None
  else
    let deliverable := deliverable_for p tid in
    if deliverable =? 0 then None
    else
      let signum := trailing_zeros deliverable + 1 in
      if signum <? NSIG then Some signum else None.

Definition should_restart_for (p : Process) (tid : Z) : bool :=
  let deliverable := deliverable_for p tid in
  if deliverable =? 0 then false
  else
    let signum := trailing_zeros deliverable + 1 in
    if NSIG <=? signum then false else negb (Z.land (sa_flags (get_action (pr_signals p) signum)) SA_RESTART =? 0).

Definition consume_signal_for (p : Process) (tid signum : Z) : option PendingSignalInfo * Process :=
  let directed :=
    if is_main_thread p tid then
      if pt_is_pending (pr_main_thread_signals p) signum
      then let '(i, m) := pt_consume_one_info (pr_main_thread_signals p) signum in Some (i, with_main p m)
      else None
    else
      match get_thread p tid with
      | Some t =>
          if pt_is_pending (th_signals t) signum
          then Some ((pt_consume_one_info (th_signals t) signum).1, get_thread_mut p tid (fun s => (pt_consume_one_info s signum).2))
          else None
      | None => None
      end in
  match directed with
  | Some (i, p') => (Some i, p')
  | None =>
      if negb (has_bit (pending (pr_signals p)) signum) then (None, p)
      else let '(i, s) := consume_one (pr_signals p) signum in (Some i, with_signals p s)
  end.

(** ** Timers *)

Definition timer_at (p : Process) (timer_id : Z) : option PosixTimerState := pr_posix_timers p !! Z.to_nat timer_id ≫= id.
Definition set_timer (p : Process) (timer_id : Z) (t : PosixTimerState) : Process :=
  with_timers p (<[Z.to_nat timer_id := Some t]> (pr_posix_timers p)).

Definition with_notification (t : PosixTimerState) (pending : bool) (current last : Z) : PosixTimerState :=
  mkPosixTimer (ti_clock_id t) (ti_sigev_signo t) (ti_sigev_value t) (ti_sigev_notify t) (ti_sigev_tid t)
    (ti_interval_sec t) (ti_interval_nsec t) (ti_value_sec t) (ti_value_nsec t) pending current last.

Definition accept_posix_timer_notification (p : Process) (timer_id : Z) : option Z * Process :=
  match timer_at p timer_id with
  | None => (None, p)
  | Some t =>
      if ti_notification_pending t
      then (Some (ti_overrun_current t), set_timer p timer_id (with_notification t false 0 (ti_overrun_current t)))
      else (None, p)
  end.

(** [i32::saturating_add]. *)
Definition i32_saturating_add (a b : Z) : Z := Z.min (Z.max (a + b) (- 2 ^ 31)) (2 ^ 31 - 1).

Definition note_legacy_posix_timer_interval_fire (p : Process) (timer_id : Z) : bool * Process :=
  match timer_at p timer_id with
  | None => (false, p)
  | Some t =>
      let signum := ti_sigev_signo t in
      if (signum =? 0) || (NSIG <=? signum) then (false, p)
      else
        let pending := has_bit (pending (pr_signals p)) signum in
        (pending, set_timer p timer_id (with_notification t (ti_notification_pending t) (ti_overrun_current t)
                                          (if pending then i32_saturating_add (ti_overrun_last t) 1 else 0)))
  end.

Definition queued_timer_ids (queue : list RtSigEntry) (signum : Z) : list Z := omap e_timer (List.filter (is_sig signum) queue).

Definition discard_pending_signal (p : Process) (signum : Z) : Process :=
  let timer_ids :=
    pending_timer_ids (pr_signals p) signum ++ queued_timer_ids (pt_queue (pr_main_thread_signals p)) signum
    ++ concat ((fun t => queued_timer_ids (pt_queue (th_signals t)) signum) <$> pr_threads p) in
  fold_left (fun p timer_id => (accept_posix_timer_notification p timer_id).2) timer_ids (clear_signal_everywhere p signum).

(** The threads in turn, each without the timer's notification. *)
Fixpoint remove_from_threads (timer_id : Z) (l : list ThreadInfo) : bool * list ThreadInfo :=
  match l with
  | [] => (false, [])
  | t :: l' =>
      let '(r, s) := pt_remove_timer_notification (th_signals t) timer_id in
      let '(rs, l'') := remove_from_threads timer_id l' in (r || rs, with_thread_signals t s :: l'')
  end.

Definition remove_posix_timer_notification (p : Process) (timer_id : Z) : bool * Process :=
  let '(r1, s) := remove_timer_notification (pr_signals p) timer_id in
  let '(r2, m) := pt_remove_timer_notification (pr_main_thread_signals p) timer_id in
  let '(r3, l) := remove_from_threads timer_id (pr_threads p) in
  (r1 || r2 || r3, with_all_signals p s m l).

(** ** Saved masks *)

Definition sigsuspend_saved_mask_for (p : Process) (tid : Z) : option Z :=
  if is_main_thread p tid then pr_sigsuspend_saved_mask p else get_thread p tid ≫= fun t => pt_saved_mask (th_signals t).

Definition set_sigsuspend_saved_mask_for (p : Process) (tid : Z) (val : option Z) : Process :=
  if is_main_thread p tid then with_saved_mask p val else get_thread_mut p tid (fun s => pt_with_saved s val).

Definition take_sigsuspend_saved_mask_for (p : Process) (tid : Z) : option Z * Process :=
  (sigsuspend_saved_mask_for p tid, set_sigsuspend_saved_mask_for p tid None).

(** ** Legacy pipe slots and metadata *)

Definition alloc_pipe (p : Process) (pipe : PipeBuffer) : nat * Process :=
  let i := first_free (pr_pipes p) in
  (i, with_pipes p (if (i <? length (pr_pipes p))%nat then <[i := Some pipe]> (pr_pipes p) else vec_push (pr_pipes p) (Some pipe))).

(** The first index whose slot and the next are both free. *)
Fixpoint free_slots {A} (l : list (option A)) : option nat :=
  match l with
  | None :: ((None :: _) as l') => Some 0%nat
  | _ :: l' => S <$> free_slots l'
  | [] => None
  end.

Definition alloc_pipe_pair (p : Process) (first second : PipeBuffer) : (nat * nat) * Process :=
  match free_slots (pr_pipes p) with
  | Some i => ((i, S i), with_pipes p (<[S i := Some second]> (<[i := Some first]> (pr_pipes p))))
  | None => let i := length (pr_pipes p) in ((i, S i), with_pipes p (pr_pipes p ++ [Some first; Some second]))
  end.

Definition PROCESS_METADATA_ARGV : Z := 0.
Definition PROCESS_METADATA_ENVIRONMENT : Z := 1.

(** [metadata_vector_mut], with what is done to the vector. *)
Definition metadata_vector_mut (p : Process) (kind : Z) (f : list bytes -> list bytes) : kresult Process :=
  if kind =? PROCESS_METADATA_ARGV then Ok (with_argv p (f (pr_argv p)))
  else if kind =? PROCESS_METADATA_ENVIRONMENT then Ok (with_environ p (f (pr_environ p)))
  else Err EINVAL.

Definition clear_metadata (p : Process) (kind : Z) : kresult Process := metadata_vector_mut p kind (fun _ => []).

(** [copied] and [grown]: whether the two allocations succeed. *)
Definition push_metadata_entry (p : Process) (kind : Z) (entry : bytes) (copied grown : bool) : kresult Process :=
  if negb copied then Err ENOMEM
  else
    let? _ := metadata_vector_mut p kind id in
    if negb grown then Err ENOMEM else metadata_vector_mut p kind (fun l => vec_push l entry).

(** ** Where a notification can be queued *)

Abbreviation pq := (Z * list RtSigEntry)%type.

Definition shared_pq (p : Process) : pq := (pending (pr_signals p), rt_queue (pr_signals p)).
Definition thread_pq (s : PerThreadSignalState) : pq := (pt_pending s, pt_queue s).

Section queues.
Variable timer_sig : Z -> Z.

Definition good (x : pq) : Prop := pq_ok x.1 x.2 /\ timers_ok timer_sig x.2.

(** The process is well formed: pending sets and queues agree everywhere, and the
    threads are distinct and none is the main thread. *)
Record proc_ok (p : Process) : Prop := {
  po_shared : good (shared_pq p);
  po_main : good (thread_pq (pr_main_thread_signals p));
  po_threads : Forall (fun t => good (thread_pq (th_signals t))) (pr_threads p);
  po_tids : NoDup (th_tid <$> pr_threads p);
  po_not_main : Forall (fun t => is_main_thread p (th_tid t) = false) (pr_threads p);
}.

(** Nothing of signal [s] is queued anywhere. *)
Record nowhere (p : Process) (s : Z) : Prop := {
  nw_shared : queued (shared_pq p).2 s = [];
  nw_main : queued (pt_queue (pr_main_thread_signals p)) s = [];
  nw_threads : Forall (fun t => queued (pt_queue (th_signals t)) s = []) (pr_threads p);
}.

(** A change of one pending set that adds nothing but notifications of [s]. *)
Definition adds (s : Z) (x y : pq) : Prop :=
  good x -> good y /\ forall s', s' <> s -> queued x.2 s' = [] -> queued y.2 s' = [].

Lemma adds_refl s x : adds s x x.
Proof. intros Hx. by split. Qed.

Lemma adds_raise s v c x : valid_sig s -> adds s x (Z.lor x.1 (sig_bit s), enqueue s v c x.2).
Proof.
  intros Hs [Hok Ht]. split; [split; [by apply enqueue_ok|by apply enqueue_timers_ok]|].
  intros s' Hne Hq. simpl. rewrite enqueue_queued. by destruct (Z.eqb_spec s' s).
Qed.

Lemma adds_timer v t x : valid_sig (timer_sig t) -> adds (timer_sig t) x (enqueue_timer x.1 (timer_sig t) v t x.2).
Proof.
  intros Hs [Hok Ht]. split; [split; [by apply enqueue_timer_ok|]|].
  - intros e t' He Het. unfold enqueue_timer in He. simpl in He. unfold vec_push in He. apply elem_of_app in He as [He|He%list_elem_of_singleton].
    + case_bool_step; [|by apply Ht]. apply elem_of_app in He as [He|He%list_elem_of_singleton]; [by apply Ht|]. by subst.
    + subst. simpl in *. by simplify_eq.
  - intros s' Hne Hq. rewrite enqueue_timer_queued by done. by destruct (Z.eqb_spec s' (timer_sig t)).
Qed.

Lemma adds_consume s0 s x : valid_sig s -> adds s0 x (consume_pending_info x.1 x.2 s).2.
Proof.
  intros Hs [Hok Ht]. pose proof (consume_spec x.1 x.2 s Hok Hs) as Hc. destruct (consume_pending_info x.1 x.2 s) as [i [p' q']].
  destruct Hc as (Hok' & _ & Hq & Hsub & _). split; [split; [done|]|].
  - intros e t He. by apply Ht, Hsub.
  - intros s' _ Hn. simpl. rewrite Hq. destruct (Z.eqb_spec s' s) as [->|]; [by rewrite Hn|done].
Qed.

Lemma adds_clear s0 s x : adds s0 x (clear_queue x.1 s x.2).
Proof.
  intros [Hok Ht]. split; [split; [by apply clear_ok|]|].
  - unfold clear_queue. case_bool_step; [|done]. intros e t [He _]%elem_of_filter_bool. by apply Ht.
  - intros s' _ Hn. unfold clear_queue. case_bool_step; [|done]. simpl. rewrite queued_filter_other. by destruct (s' =? s).
Qed.

Lemma adds_remove_timer s0 t x : adds s0 x (remove_timer_info x.1 x.2 t).2.
Proof.
  intros [Hok Ht]. pose proof (remove_timer_spec timer_sig x.1 x.2 t Hok Ht) as Hr. destruct (remove_timer_info x.1 x.2 t) as [b [p' q']].
  destruct Hr as (Hok' & _ & Hq & Hsub). split; [split; [done|]|].
  - intros e t' He. by apply Ht, Hsub.
  - intros s' _ Hn. simpl. by rewrite Hq, Hn.
Qed.

(** The same for a whole process. *)
Definition proc_adds (s : Z) (p p' : Process) : Prop :=
  proc_ok p -> proc_ok p' /\ forall s', s' <> s -> nowhere p s' -> nowhere p' s'.

Lemma proc_adds_trans s p1 p2 p3 : proc_adds s p1 p2 -> proc_adds s p2 p3 -> proc_adds s p1 p3.
Proof. intros H1 H2 Hp. destruct (H1 Hp) as [Hp2 Hn2]. destruct (H2 Hp2) as [Hp3 Hn3]. split; [done|]. auto. Qed.

Lemma proc_adds_parts s p sg m l :
  adds s (shared_pq p) (pending sg, rt_queue sg) ->
  adds s (thread_pq (pr_main_thread_signals p)) (thread_pq m) ->
  Forall2 (fun t t' => th_tid t' = th_tid t /\ adds s (thread_pq (th_signals t)) (thread_pq (th_signals t'))) (pr_threads p) l ->
  proc_adds s p (with_all_signals p sg m l).
Proof.
  intros Hs Hm Hl [Os Om Ot Od On]. destruct (Hs Os) as [Os' Hs']. destruct (Hm Om) as [Om' Hm'].
  assert (Forall2 (fun t t' => th_tid t' = th_tid t /\ good (thread_pq (th_signals t')) /\
    (forall s', s' <> s -> queued (pt_queue (th_signals t)) s' = [] -> queued (pt_queue (th_signals t')) s' = [])) (pr_threads p) l) as Hl'.
  { clear -Hl Ot. induction Hl as [|t t' l l' [Hi Ha] Hl IH]; [constructor|]. inversion_clear Ot as [|? ? H1 H2]. constructor; [destruct (Ha H1); by split_and!|by apply IH]. }
  clear Hl. split.
  - split; [done|done|..]; cbn [pr_threads with_all_signals].
    + clear -Hl'. induction Hl' as [|t t' l l' (? & ? & ?)]; by constructor.
    + replace (th_tid <$> l) with (th_tid <$> pr_threads p); [done|]. clear -Hl'. induction Hl' as [|t t' l l' (Hi & _)]; [done|].
      rewrite !fmap_cons. by f_equal.
    + clear -Hl' On. induction Hl' as [|t t' l l' (Hi & _) _ IH]; constructor; inversion_clear On; [|by apply IH].
      unfold is_main_thread in *. cbn [pr_pid with_all_signals]. by rewrite Hi.
  - intros s' Hne [N1 N2 N3]. split; [by apply Hs'|by apply Hm'|]. cbn [pr_threads with_all_signals].
    clear -Hl' N3 Hne. induction Hl' as [|t t' l l' (_ & _ & Hq) _ IH]; constructor; inversion_clear N3; auto.
Qed.

Lemma threads_same s (l : list ThreadInfo) :
  Forall2 (fun t t' => th_tid t' = th_tid t /\ adds s (thread_pq (th_signals t)) (thread_pq (th_signals t'))) l l.
Proof. induction l; constructor; [|done]. split; [done|apply adds_refl]. Qed.

Lemma threads_update s tid f (l : list ThreadInfo) :
  (forall st, adds s (thread_pq st) (thread_pq (f st))) ->
  Forall2 (fun t t' => th_tid t' = th_tid t /\ adds s (thread_pq (th_signals t)) (thread_pq (th_signals t')))
    l (update_thread tid (fun t => with_thread_signals t (f (th_signals t))) l).
Proof.
  intros Hf. induction l as [|t l IH]; simpl; [constructor|]. destruct (has_tid tid t); constructor; try done.
  apply threads_same.
Qed.

Lemma threads_map s f (l : list ThreadInfo) :
  (forall st, adds s (thread_pq st) (thread_pq (f st))) ->
  Forall2 (fun t t' => th_tid t' = th_tid t /\ adds s (thread_pq (th_signals t)) (thread_pq (th_signals t')))
    l ((fun t => with_thread_signals t (f (th_signals t))) <$> l).
Proof. intros Hf. induction l as [|t l IH]; [constructor|]. rewrite fmap_cons. by constructor. Qed.

Lemma clear_everywhere_adds s0 p s : proc_adds s0 p (clear_signal_everywhere p s).
Proof.
  apply (proc_adds_parts s0 p).
  - exact (adds_clear s0 s (shared_pq p)).
  - exact (adds_clear s0 s (thread_pq _)).
  - apply (threads_map s0 (fun st => pt_clear_pending st s)). intros st. exact (adds_clear s0 s (thread_pq st)).
Qed.

Lemma clear_everywhere_nowhere p s : valid_sig s -> nowhere (clear_signal_everywhere p s) s.
Proof.
  intros Hs. assert (forall x : pq, queued (clear_queue x.1 s x.2).2 s = []) as Hc.
  { intros x. rewrite clear_queued by done. by rewrite Z.eqb_refl. }
  split; [exact (Hc (shared_pq p))|exact (Hc (thread_pq _))|].
  apply Forall_fmap, Forall_forall. intros t _. exact (Hc (thread_pq (th_signals t))).
Qed.

Lemma status_proc_ok p st status sig ev : proc_ok p -> proc_ok (with_status p st status sig ev).
Proof. by intros [????]. Qed.

Lemma status_nowhere p st status sig ev s : nowhere p s -> nowhere (with_status p st status sig ev) s.
Proof. by intros [??]. Qed.

Lemma continue_adds s p : proc_adds s p (record_continue p).2.1.
Proof. intros Hp. unfold record_continue. case_bool_decide; [|done]. split; [by apply status_proc_ok|]. intros. by apply status_nowhere. Qed.

(** The signals that stop. *)
Definition stops : list Z := [SIGSTOP; SIGTSTP; SIGTTIN; SIGTTOU].

Lemma clear_all_adds s0 l p : proc_adds s0 p (fold_left clear_signal_everywhere l p).
Proof.
  revert p. induction l as [|s l IH]; intros p; simpl; [by intros|]. eapply proc_adds_trans; [apply clear_everywhere_adds|apply IH].
Qed.

Lemma prepare_adds s0 p signum : proc_adds s0 p (prepare_signal_generation p signum).1.
Proof.
  unfold prepare_signal_generation. case_bool_step; [by intros|]. case_bool_step.
  - eapply proc_adds_trans; [apply clear_all_adds|apply continue_adds].
  - case_bool_step; [apply clear_everywhere_adds|by intros].
Qed.

(** What generation guarantees before the signal is queued. *)
Lemma prepare_cancels p signum :
  valid_sig signum -> proc_ok p ->
  (signum = SIGCONT -> forall s, s ∈ stops -> nowhere (prepare_signal_generation p signum).1 s) /\
  (signum ∈ stops -> nowhere (prepare_signal_generation p signum).1 SIGCONT).
Proof.
  intros Hs Hp. unfold prepare_signal_generation.
  assert ((signum =? 0) || (NSIG <=? signum) = false) as -> by (unfold valid_sig, NSIG in *; lia). split.
  - intros ->. rewrite Z.eqb_refl. intros s Hin.
    assert (nowhere (fold_left clear_signal_everywhere stops p) s) as Hn.
    { assert (forall l p, Forall valid_sig l -> proc_ok p -> (s ∈ l \/ nowhere p s) -> nowhere (fold_left clear_signal_everywhere l p) s) as Hl.
      { clear. induction l as [|x l IH]; intros p Hv Hp Hor; simpl.
        - by destruct Hor as [?%elem_of_nil|].
        - inversion_clear Hv. destruct (clear_everywhere_adds 0 p x Hp) as [Hp' Hn']. apply IH; [done|done|].
          destruct Hor as [[->|]%elem_of_cons|Hn]; [right; by apply clear_everywhere_nowhere|by left|right].
          destruct (decide (s = x)) as [->|]; [by apply clear_everywhere_nowhere|].
          destruct (clear_everywhere_adds x p x Hp) as [_ Hn2]. by apply Hn2. }
      apply Hl; [by repeat constructor|done|by left]. }
    unfold record_continue. fold stops. case_bool_decide; [|done]. by apply status_nowhere.
  - intros Hin. assert (is_stop_signal signum = true) as -> by (by apply bool_decide_eq_true_2).
    assert (signum =? SIGCONT = false) as ->.
    { apply Z.eqb_neq. intros ->. assert (bool_decide (SIGCONT ∈ stops) = false) as Hb by reflexivity. by apply bool_decide_eq_false in Hb. }
    by apply clear_everywhere_nowhere.
Qed.

(** *** Histories of one process *)

Inductive proc_op :=
| ORaise (s : Z) | ORaiseValue (s v : Z)
| ORaiseThread (tid s : Z) | ORaiseThreadValue (tid s v : Z) | ORaiseTimer (tid v timer_id : Z)
| OConsume (tid s : Z) | ODiscard (s : Z) | ORemoveTimer (timer_id : Z) | OBlock (tid mask : Z)
| OStop (s : Z) | OExit (status : Z) | OKilled (s : Z)
| OAddThread (tid : Z) | ORemoveThread (tid : Z).

Definition proc_step (p : Process) (op : proc_op) : Process :=
  match op with
  | ORaise s => (raise_signal p s).2.1
  | ORaiseValue s v => (raise_signal_with_value p s v).2.1
  | ORaiseThread tid s => (raise_for_thread p tid s).2.1
  | ORaiseThreadValue tid s v => (raise_for_thread_with_value p tid s v).2.1
  | ORaiseTimer tid v t => (raise_timer_for_thread p tid (timer_sig t) v t).2.1
  | OConsume tid s => (consume_signal_for p tid s).2
  | ODiscard s => discard_pending_signal p s
  | ORemoveTimer t => (remove_posix_timer_notification p t).2
  | OBlock tid mask => (set_blocked_for p tid mask).2
  | OStop s => (record_stop p s).2.1
  | OExit status => (record_normal_exit p status).2
  | OKilled s => (record_signal_exit p s).2
  | OAddThread tid => add_thread p (thread_new tid 0 0 0)
  | ORemoveThread tid => (remove_thread p tid).2
  end.

(** Signal numbers are valid, and a new thread has an identity of its own. *)
Definition proc_op_ok (p : Process) (op : proc_op) : Prop :=
  match op with
  | ORaise s | ORaiseValue s _ | ORaiseThread _ s | ORaiseThreadValue _ s _ | OConsume _ s => valid_sig s
  | ORaiseTimer _ _ t => valid_sig (timer_sig t)
  | OAddThread tid => is_main_thread p tid = false /\ tid ∉ (th_tid <$> pr_threads p)
  | _ => True
  end.

Fixpoint proc_run_ok (p : Process) (ops : list proc_op) : Prop :=
  match ops with
  | [] => True
  | op :: ops' => proc_op_ok p op /\ proc_run_ok (proc_step p op) ops'
  end.

Lemma signals_adds s p sg : adds s (shared_pq p) (pending sg, rt_queue sg) -> proc_adds s p (with_signals p sg).
Proof. intros Ha. apply proc_adds_parts; [done|apply adds_refl|apply threads_same]. Qed.

Lemma main_adds s p m : adds s (thread_pq (pr_main_thread_signals p)) (thread_pq m) -> proc_adds s p (with_main p m).
Proof. intros Ha. apply proc_adds_parts; [apply adds_refl|done|apply threads_same]. Qed.

Lemma thread_adds s p tid f : (forall st, adds s (thread_pq st) (thread_pq (f st))) -> proc_adds s p (get_thread_mut p tid f).
Proof. intros Ha. apply proc_adds_parts; [apply adds_refl|apply adds_refl|by apply threads_update]. Qed.

Lemma raise_internal_adds s st v c : valid_sig s -> adds s (pending st, rt_queue st) (pending (raise_internal st s v c).2, rt_queue (raise_internal st s v c).2).
Proof.
  intros Hs. unfold raise_internal. rewrite in_range_65 by done. case_bool_step; [apply adds_refl|]. apply (adds_raise s v c (pending st, rt_queue st) Hs).
Qed.

(** Raising: the job-control part, then the queue. *)
Lemma raise_signal_adds p s v c :
  valid_sig s ->
  proc_adds s (prepare_signal_generation p s).1
    (with_signals (prepare_signal_generation p s).1 (raise_internal (pr_signals (prepare_signal_generation p s).1) s v c).2).
Proof. intros Hs. apply signals_adds. by apply raise_internal_adds. Qed.

Lemma raise_directed_adds p tid s f :
  (forall st, adds s (thread_pq st) (thread_pq (f st).2)) ->
  proc_adds s (prepare_signal_generation p s).1 (raise_directed p tid s f).2.1.
Proof.
  intros Hf. unfold raise_directed. destruct (prepare_signal_generation p s) as [p1 e]. cbn [fst].
  case_bool_step; [by intros|]. case_bool_step; [by intros|]. case_bool_step.
  - pose proof (main_adds s p1 (f (pr_main_thread_signals p1)).2 (Hf _)) as Hm. by destruct (f (pr_main_thread_signals p1)).
  - destruct (get_thread p1 tid); [|by intros]. by apply thread_adds.
Qed.

Lemma consume_adds s0 p tid s : valid_sig s -> proc_adds s0 p (consume_signal_for p tid s).2.
Proof.
  intros Hs.
  assert (forall st, adds s0 (thread_pq st) (thread_pq (pt_consume_one_info st s).2)) as Hc.
  { intros st. unfold pt_consume_one_info. pose proof (adds_consume s0 s (thread_pq st) Hs) as Ha. cbn [thread_pq fst snd] in Ha.
    by destruct (consume_pending_info _ _ _) as [i [? ?]]. }
  assert (proc_adds s0 p (if negb (has_bit (pending (pr_signals p)) s) then (None, p)
      else let '(i, sg) := consume_one (pr_signals p) s in (Some i, with_signals p sg)).2) as Hsh.
  { case_bool_step; [by intros|]. unfold consume_one. pose proof (adds_consume s0 s (shared_pq p) Hs) as Ha. cbn [shared_pq fst snd] in Ha.
    destruct (consume_pending_info _ _ _) as [i [? ?]]. by apply signals_adds. }
  unfold consume_signal_for. cbv zeta. destruct (is_main_thread p tid).
  - destruct (pt_is_pending _ _); [|exact Hsh]. pose proof (main_adds s0 p _ (Hc (pr_main_thread_signals p))) as Hm. by destruct (pt_consume_one_info _ _).
  - destruct (get_thread p tid) as [t|]; [|exact Hsh]. destruct (pt_is_pending _ _); [|exact Hsh]. by apply thread_adds.
Qed.

Lemma timers_parts p l : proc_ok (with_timers p l) <-> proc_ok p.
Proof. split; intros [????]; by split. Qed.

Lemma discard_adds s0 p s : proc_adds s0 p (discard_pending_signal p s).
Proof.
  unfold discard_pending_signal. apply (proc_adds_trans _ _ (clear_signal_everywhere p s)); [apply clear_everywhere_adds|].
  generalize (clear_signal_everywhere p s). generalize (pending_timer_ids (pr_signals p) s ++ queued_timer_ids (pt_queue (pr_main_thread_signals p)) s
    ++ concat ((fun t => queued_timer_ids (pt_queue (th_signals t)) s) <$> pr_threads p)). intros l. induction l as [|t l IH]; intros p1; cbn [fold_left]; [intros Hp; by split|].
  eapply proc_adds_trans; [|apply IH]. unfold accept_posix_timer_notification. destruct (timer_at p1 t) as [ti|]; [|by intros].
  case_bool_step; [|by intros]. intros Hp. split; [by apply timers_parts|]. by intros s' _ [??].
Qed.

Lemma remove_timer_adds s0 p t : proc_adds s0 p (remove_posix_timer_notification p t).2.
Proof.
  unfold remove_posix_timer_notification, remove_timer_notification, pt_remove_timer_notification.
  pose proof (adds_remove_timer s0 t (shared_pq p)) as H1. pose proof (adds_remove_timer s0 t (thread_pq (pr_main_thread_signals p))) as H2.
  cbn [shared_pq thread_pq fst snd] in H1, H2. destruct (remove_timer_info (pending _) _ _) as [r1 pq1], (remove_timer_info (pt_pending _) _ _) as [r2 pq2].
  destruct (remove_from_threads t (pr_threads p)) as [r3 l] eqn:El. apply (proc_adds_parts s0 p _ _ l); [by destruct pq1|by destruct pq2|].
  clear H1 H2. revert r3 l El. induction (pr_threads p) as [|th l IH]; intros r3 l' El; simpl in El; [by simplify_eq; constructor|].
  unfold pt_remove_timer_notification in El. pose proof (adds_remove_timer s0 t (thread_pq (th_signals th))) as H1. cbn [thread_pq fst snd] in H1.
  destruct (remove_timer_info _ _ _) as [r pq3]. destruct (remove_from_threads t l) as [rs l''] eqn:E. simplify_eq. constructor; [|by eapply IH].
  split; [done|by destruct pq3].
Qed.

Lemma block_adds s0 p tid mask : proc_adds s0 p (set_blocked_for p tid mask).2.
Proof.
  unfold set_blocked_for. case_bool_step; [apply signals_adds, adds_refl|].
  destruct (get_thread p tid); [apply thread_adds; intros; apply adds_refl|apply signals_adds, adds_refl].
Qed.

Lemma stop_adds s0 p s : proc_adds s0 p (record_stop p s).2.1.
Proof. intros Hp. unfold record_stop. case_bool_decide; [|done]. split; [by apply status_proc_ok|]. intros. by apply status_nowhere. Qed.

Lemma exit_adds s0 p status : proc_adds s0 p (record_normal_exit p status).2.
Proof. intros Hp. unfold record_normal_exit. case_bool_step; [done|]. split; [by apply status_proc_ok|]. intros. by apply status_nowhere. Qed.

Lemma killed_adds s0 p s : proc_adds s0 p (record_signal_exit p s).2.
Proof. intros Hp. unfold record_signal_exit. case_bool_step; [done|]. split; [by apply status_proc_ok|]. intros. by apply status_nowhere. Qed.

Lemma add_thread_adds s0 p tid :
  is_main_thread p tid = false -> tid ∉ (th_tid <$> pr_threads p) -> proc_adds s0 p (add_thread p (thread_new tid 0 0 0)).
Proof.
  intros Hm Hn [Os Om Ot Od On]. split.
  - split; [done|done|..]; cbn [add_thread with_threads pr_threads with_all_signals]; unfold vec_push.
    + apply Forall_app. split; [done|]. constructor; [|done]. split; [|by intros e t ?%elem_of_nil].
      apply pq_ok_intro; [done|by intros e ?%elem_of_nil|]. intros s Hs. cbn. rewrite Z.bits_0. done.
    + rewrite fmap_app. apply NoDup_app. split_and!; [done| |by apply NoDup_singleton]. intros x Hx ->%list_elem_of_singleton. done.
    + apply Forall_app. split; [done|]. by constructor.
  - intros s' _ [N1 N2 N3]. split; [done|done|]. cbn [add_thread with_threads pr_threads with_all_signals]. apply Forall_app. split; [done|by constructor].
Qed.

Lemma swap_remove_perm {A} (l : list A) idx x : l !! idx = Some x -> l ≡ₚ x :: vec_swap_remove idx l.
Proof.
  intros Hx. unfold vec_swap_remove. destruct (last l) as [y|] eqn:El; [|by apply last_None in El as ->].
  apply last_Some in El as [l' ->]. rewrite length_app. simpl. replace (length l' + 1 - 1)%nat with (length l') by lia.
  destruct (decide (idx = length l')) as [->|Hne].
  - rewrite list_lookup_middle in Hx by done. simplify_eq. rewrite list_insert_id by (by rewrite list_lookup_middle).
    rewrite take_app_length. by rewrite Permutation_app_comm.
  - assert (idx < length l')%nat as Hl by (apply lookup_lt_Some in Hx; rewrite length_app in Hx; simpl in Hx; lia).
    rewrite lookup_app_l in Hx by done. rewrite insert_app_l by done. rewrite take_app_length' by (by rewrite length_insert).
    rewrite insert_take_drop by done. rewrite <- (take_drop_middle l' idx x Hx) at 1. rewrite <- app_assoc. simpl.
    rewrite (Permutation_app_comm (take idx l') (x :: _)). simpl. constructor.
    rewrite (Permutation_app_comm _ (take idx l')). apply Permutation_app_head. by rewrite Permutation_app_comm.
Qed.

Lemma remove_thread_adds s0 p tid : proc_adds s0 p (remove_thread p tid).2.
Proof.
  unfold remove_thread. pose proof (position_spec (has_tid tid) (pr_threads p)) as Hpos. destruct (position _ _) as [idx|]; [|by intros].
  destruct Hpos as (l1 & t & l2 & Hl & _ & _ & ->). assert (pr_threads p !! length l1 = Some t) as Ht by (rewrite Hl; by apply list_lookup_middle).
  pose proof (swap_remove_perm _ _ _ Ht) as Hperm. intros [Os Om Ot Od On]. rewrite Hperm in Ot, On. rewrite (fmap_Permutation th_tid _ _ Hperm) in Od.
  inversion_clear Ot. inversion_clear On. rewrite fmap_cons in Od. apply NoDup_cons in Od as [_ Od]. split; [by split|].
  intros s' _ [N1 N2 N3]. rewrite Hperm in N3. inversion_clear N3. by split.
Qed.

(** Job control: a pending SIGCONT excludes the stop signals. *)
Definition job_control (p : Process) : Prop := nowhere p SIGCONT \/ forall s, s ∈ stops -> nowhere p s.

Lemma stops_valid s : s ∈ stops -> valid_sig s /\ s <> SIGCONT /\ s <> 0.
Proof. unfold stops. rewrite !elem_of_cons. unfold valid_sig, SIGSTOP, SIGTSTP, SIGTTIN, SIGTTOU, SIGCONT. intros [->|[->|[->|[->|?%elem_of_nil]]]]; done. Qed.

Lemma job_control_keeps p p' : proc_adds 0 p p' -> proc_ok p -> job_control p -> proc_ok p' /\ job_control p'.
Proof.
  intros Ha Hp Hj. destruct (Ha Hp) as [Hp' Hn]. split; [done|]. destruct Hj as [Hj|Hj]; [left; by apply Hn|right].
  intros s Hs. apply Hn; [by apply stops_valid|by apply Hj].
Qed.

(** Generating signal [s]: cancel, then queue. *)
Lemma job_control_raises p p' s :
  valid_sig s -> proc_adds s (prepare_signal_generation p s).1 p' -> proc_ok p -> job_control p -> proc_ok p' /\ job_control p'.
Proof.
  intros Hs Ha Hp Hj. pose proof (prepare_adds 0 p s) as Hpre. destruct (job_control_keeps _ _ Hpre Hp Hj) as [Hp1 Hj1].
  destruct (prepare_cancels p s Hs Hp) as [Hcont Hstop]. destruct (Ha Hp1) as [Hp' Hn]. split; [done|].
  destruct (decide (s = SIGCONT)) as [->|Hne].
  - right. intros x Hx. apply Hn; [by apply stops_valid|]. by apply Hcont.
  - destruct (decide (s ∈ stops)) as [Hin|Hnin].
    + left. apply Hn; [congruence|]. by apply Hstop.
    + destruct Hj1 as [Hj1|Hj1]; [left; by apply Hn|right]. intros x Hx. apply Hn; [congruence|]. by apply Hj1.
Qed.

Lemma pt_raise_adds s st v c : valid_sig s -> adds s (thread_pq st) (thread_pq (pt_raise_internal st s v c).2).
Proof.
  intros Hs. unfold pt_raise_internal. assert ((s =? 0) || (NSIG <=? s) = false) as -> by (unfold valid_sig, NSIG in *; lia).
  apply (adds_raise s v c (thread_pq st) Hs).
Qed.

Lemma pt_timer_adds t st v : valid_sig (timer_sig t) -> adds (timer_sig t) (thread_pq st) (thread_pq (pt_raise_timer st (timer_sig t) v t).2).
Proof.
  intros Hs. unfold pt_raise_timer. assert ((timer_sig t =? 0) || (NSIG <=? timer_sig t) = false) as -> by (unfold valid_sig, NSIG in *; lia).
  apply (adds_timer v t (thread_pq st) Hs).
Qed.

Lemma proc_step_ok p op : proc_op_ok p op -> proc_ok p -> job_control p -> proc_ok (proc_step p op) /\ job_control (proc_step p op).
Proof.
  intros Hop. destruct op; simpl in Hop; cbn [proc_step].
  - apply (job_control_raises p _ s Hop). pose proof (raise_signal_adds p s 0 0 Hop) as Hr. unfold raise_signal, raise.
    destruct (prepare_signal_generation p s) as [p1 e]. simpl in *. by destruct (raise_internal _ _ _ _).
  - apply (job_control_raises p _ s Hop). pose proof (raise_signal_adds p s v (-1) Hop) as Hr. unfold raise_signal_with_value, raise_with_value.
    destruct (prepare_signal_generation p s) as [p1 e]. simpl in *. by destruct (raise_internal _ _ _ _).
  - apply (job_control_raises p _ s Hop). apply raise_directed_adds. intros st. by apply pt_raise_adds.
  - apply (job_control_raises p _ s Hop). apply raise_directed_adds. intros st. by apply pt_raise_adds.
  - apply (job_control_raises p _ _ Hop). apply raise_directed_adds. intros st. by apply pt_timer_adds.
  - by apply job_control_keeps, consume_adds.
  - apply job_control_keeps, discard_adds.
  - apply job_control_keeps, remove_timer_adds.
  - apply job_control_keeps, block_adds.
  - apply job_control_keeps, stop_adds.
  - apply job_control_keeps, exit_adds.
  - apply job_control_keeps, killed_adds.
  - destruct Hop. by apply job_control_keeps, add_thread_adds.
  - apply job_control_keeps, remove_thread_adds.
Qed.

Lemma proc_steps_ok p ops :
  proc_ok p -> job_control p -> proc_run_ok p ops -> proc_ok (fold_left proc_step ops p) /\ job_control (fold_left proc_step ops p).
Proof.
  revert p. induction ops as [|op ops IH]; intros p Hp Hj Hr; [done|]. destruct Hr as [Hop Hr].
  destruct (proc_step_ok p op Hop Hp Hj). by apply IH.
Qed.

Lemma bit_queued x s : good x -> valid_sig s -> has_bit x.1 s = nonempty (queued x.2 s).
Proof.
  intros [[_ _ Ha] _] Hs. unfold has_bit. rewrite land_sig_bit by done. specialize (Ha s Hs). destruct (Z.testbit x.1 (s - 1)), (queued x.2 s); try done.
  - by destruct Ha as [Ha _]; destruct Ha.
  - destruct Ha as [_ Ha]. by rewrite Ha.
Qed.

Lemma nowhere_not_pending p s : proc_ok p -> valid_sig s -> nowhere p s <-> signal_pending_anywhere p s = false.
Proof.
  intros [Os Om Ot Od On] Hs. unfold signal_pending_anywhere. assert ((s =? 0) || (NSIG <=? s) = false) as -> by (unfold valid_sig, NSIG in *; lia).
  change (pending (pr_signals p)) with (shared_pq p).1. rewrite (bit_queued _ s Os Hs).
  change (pt_pending (pr_main_thread_signals p)) with (thread_pq (pr_main_thread_signals p)).1. rewrite (bit_queued _ s Om Hs).
  assert (existsb (fun t => has_bit (pt_pending (th_signals t)) s) (pr_threads p) = false <->
    Forall (fun t => queued (pt_queue (th_signals t)) s = []) (pr_threads p)) as Ht.
  { clear Od On. induction Ot as [|t l Hg Hl IH]; simpl; [done|]. rewrite orb_false_iff, IH. change (pt_pending (th_signals t)) with (thread_pq (th_signals t)).1.
    rewrite (bit_queued _ s Hg Hs), Forall_cons. simpl. destruct (queued (pt_queue (th_signals t)) s); simpl; intuition congruence. }
  rewrite !orb_false_iff, Ht. split.
  - intros [N1 N2 N3]. cbn [thread_pq snd]. by rewrite N1, N2.
  - intros [[N1 N2] N3]. split; [by destruct (queued (shared_pq p).2 s)| |done]. simpl in N2. by destruct (queued (pt_queue _) s).
Qed.

(** C36: job control over any history of signals sent to a process and to its threads,
    signals taken, discarded and blocked, timers removed, and threads created
    and ended: the pending sets agree with the queues of notifications, and
    SIGCONT is never pending while a stop signal is, in the process or in any
    of its threads. *)
Theorem job_control_exclusive p ops :
  proc_ok p -> job_control p -> proc_run_ok p ops ->
  let p' := fold_left proc_step ops p in
  proc_ok p' /\ (signal_pending_anywhere p' SIGCONT = true -> forall s, s ∈ stops -> signal_pending_anywhere p' s = false).
Proof.
  intros Hp Hj Hr. cbv zeta. destruct (proc_steps_ok p ops Hp Hj Hr) as [Hp' Hj']. split; [done|]. intros Hc s Hs. apply (nowhere_not_pending _ s Hp'); [by apply stops_valid|].
  destruct Hj' as [Hn|Hn]; [|by apply Hn]. apply (nowhere_not_pending _ SIGCONT Hp') in Hn; [congruence|done].
Qed.

End queues.

(** *** A new process *)

Lemma process_new_ok timer_sig last pid stdio p last' :
  new_with_stdio last pid stdio = Some (p, last') -> proc_ok timer_sig p /\ job_control p.
Proof.
  unfold new_with_stdio. intros Hn. repeat case_match; simplify_eq.
  assert (good timer_sig (0, [])) as Hg.
  { split; [|by intros e t ?%elem_of_nil]. apply pq_ok_intro; [done|by intros e ?%elem_of_nil|]. intros s Hs. cbn. rewrite Z.bits_0. done. }
  split; [split; try done; by constructor|]. left. by split.
Qed.

Definition sample_proc_ops : list proc_op :=
  [OAddThread 8; ORaiseThread 8 SIGTSTP; ORaise SIGTTIN; ORaiseTimer 7 1 0; ORaise SIGCONT; OConsume 8 SIGUSR1].

Lemma job_control_exclusive_witness :
  exists p last, process_new 0 7 = Some (p, last) /\
  let p' := fold_left (proc_step (fun _ => SIGUSR2)) sample_proc_ops p in
  proc_ok (fun _ => SIGUSR2) p' /\ signal_pending_anywhere p' SIGCONT = true /\ signal_pending_anywhere p' SIGTSTP = false.
Proof.
  destruct (process_new 0 7) as [[p last]|] eqn:E; [|vm_compute in E; discriminate E]. exists p, last. split; [reflexivity|].
  destruct (process_new_ok (fun _ => SIGUSR2) 0 7 stdio_captured p last E) as [Hp Hj].
  assert (proc_run_ok (fun _ => SIGUSR2) p sample_proc_ops) as Hr.
  { unfold process_new in E. vm_compute in E. injection E as <- _. repeat split; try (vm_compute; congruence). apply not_elem_of_nil. }
  destruct (job_control_exclusive (fun _ => SIGUSR2) p sample_proc_ops Hp Hj Hr) as [Hp' Hx]. intros p'.
  assert (signal_pending_anywhere p' SIGCONT = true) as Hc.
  { unfold process_new in E. vm_compute in E. injection E as <- _. vm_compute. reflexivity. }
  split; [exact Hp'|]. split; [exact Hc|]. apply (Hx Hc). right. left.
Defined.

(** ** The lifecycle *)

Inductive life_op := LStop (s : Z) | LContinue | LExit (status : Z) | LKill (s : Z).

Definition life_step (p : Process) (op : life_op) : bool * Process :=
  match op with
  | LStop s => ((record_stop p s).1, (record_stop p s).2.1)
  | LContinue => ((record_continue p).1, (record_continue p).2.1)
  | LExit status => record_normal_exit p status
  | LKill s => record_signal_exit p s
  end.

(** The state machine. *)
Definition life_next (st : ProcessState) (op : life_op) : option ProcessState :=
  match st, op with
  | Running, LStop _ => Some Stopped
  | Stopped, LContinue => Some Running
  | (Running | Stopped), (LExit _ | LKill _) => Some Exited
  | _, _ => None
  end.

(** What a parent reads from a status word, as the macros of the C library do. *)
Inductive wait_cause := WExited (code : Z) | WSignaled (s : Z) | WStopped (s : Z) | WContinued.

#[export] Instance wait_cause_eq_dec : EqDecision wait_cause.
Proof. solve_decision. Defined.

Definition decode_status (w : Z) : option wait_cause :=
  let term := Z.land w 127 in
  let high := Z.shiftr (Z.land w 65280) 8 in
  if w =? 65535 then Some WContinued
  else if term =? 0 then Some (WExited high)
  else if term =? 127 then if Z.land w 255 =? 127 then Some (WStopped high) else None
  else Some (WSignaled term).

Definition life_cause (op : life_op) : wait_cause :=
  match op with
  | LStop s => WStopped s
  | LContinue => WContinued
  | LExit status => WExited (status mod 256)
  | LKill s => WSignaled s
  end.

Definition life_mask (op : life_op) : Z := match op with LStop _ => EVENT_STOPPED | LContinue => EVENT_CONTINUED | _ => EVENT_EXITED end.

Definition life_op_ok (op : life_op) : Prop := match op with LStop s | LKill s => valid_sig s | _ => True end.

(** A fact about signal numbers, by evaluation. *)
Lemma for_all_signals (f : Z -> bool) : forallb f all_signals = true -> forall s, valid_sig s -> f s = true.
Proof. rewrite forallb_forall. intros Hf s Hs. by apply Hf, list_elem_of_In, elem_of_all_signals. Qed.

Lemma decode_stop s : valid_sig s -> decode_status (Z.lor (as_i32 (Z.shiftl (as_i32 s) 8)) 127) = Some (WStopped s).
Proof.
  intros Hs. apply (bool_decide_eq_true_1 _). revert s Hs. apply for_all_signals. vm_compute. reflexivity.
Qed.

Lemma decode_kill s : valid_sig s -> decode_status (Z.land s 127) = Some (WSignaled s).
Proof.
  intros Hs. apply (bool_decide_eq_true_1 _). revert s Hs. apply for_all_signals. vm_compute. reflexivity.
Qed.

Lemma decode_exit status : decode_status (as_i32 (Z.shiftl (Z.land status 255) 8)) = Some (WExited (status mod 256)).
Proof.
  change 255 with (Z.ones 8). rewrite Z.land_ones by done. change (2 ^ 8) with 256. pose proof (Z.mod_pos_bound status 256 ltac:(lia)) as Hb.
  set (c := status mod 256) in *. rewrite Z.shiftl_mul_pow2 by done. change (2 ^ 8) with 256. rewrite as_i32_id by lia.
  unfold decode_status. rewrite (proj2 (Z.eqb_neq (c * 256) 65535)) by lia.
  change 127 with (Z.ones 7). rewrite Z.land_ones by done. replace ((c * 256) mod 2 ^ 7) with 0 by (symmetry; apply Z.mod_divide; [done|exists (c * 2); lia]).
  simpl. do 2 f_equal. change 65280 with (Z.shiftl (Z.ones 8) 8). replace (c * 256) with (Z.shiftl c 8) by (rewrite Z.shiftl_mul_pow2 by done; done).
  rewrite <- Z.shiftl_land, Z.shiftr_shiftl_l by done. simpl. rewrite Z.shiftl_0_r, Z.land_ones by done. by apply Z.mod_small.
Qed.

(** the lifecycle of a process is the state machine of [life_next]: running,
    stopped and exited, an exited process never changes again, and an operation
    that is not a transition changes nothing.  Each transition leaves one status
    record for the parent, whose status word decodes to exactly the event (the
    exit code modulo 256, or the signal that stopped or killed the process). *)
Theorem process_lifecycle p op :
  life_op_ok op ->
  let '(changed, p') := life_step p op in
  match life_next (pr_state p) op with
  | None => changed = false /\ p' = p
  | Some st =>
      changed = true /\ pr_state p' = st /\
      exists ev, pr_wait_event p' = Some ev /\ decode_status (we_wait_status ev) = Some (life_cause op) /\
        we_event_mask ev = life_mask op /\ we_child_uid ev = pr_uid p
  end.
Proof.
  intros Hop. destruct op as [s| |status|s]; cbn [life_step].
  - unfold record_stop. destruct (pr_state p) eqn:E; simpl; rewrite ?E; simpl; try done. split_and!; [done..|]. eexists. split_and!; [done| |done|done].
    by apply decode_stop.
  - unfold record_continue. destruct (pr_state p) eqn:E; simpl; rewrite ?E; simpl; try done. split_and!; [done..|]. by eexists.
  - unfold record_normal_exit. destruct (pr_state p) eqn:E; simpl; rewrite ?E; simpl; try done; (split_and!; [done..|]); eexists; split_and!; try done; apply decode_exit.
  - unfold record_signal_exit. destruct (pr_state p) eqn:E; simpl; rewrite ?E; simpl; try done; (split_and!; [done..|]); eexists; split_and!; try done; by apply decode_kill.
Qed.

Lemma process_lifecycle_witness :
  exists p last, process_new 0 7 = Some (p, last) /\
  let p' := (life_step p (LStop SIGTSTP)).2 in
  pr_state p' = Stopped /\ exists ev, pr_wait_event p' = Some ev /\ decode_status (we_wait_status ev) = Some (WStopped SIGTSTP).
Proof.
  destruct (process_new 0 7) as [[p last]|] eqn:E; [|vm_compute in E; discriminate E]. exists p, last. split; [reflexivity|].
  assert (pr_state p = Running) as Hst by (unfold process_new in E; vm_compute in E; injection E as <- _; reflexivity).
  pose proof (process_lifecycle p (LStop SIGTSTP) ltac:(split; vm_compute; congruence)) as Hl. rewrite Hst in Hl.
  destruct (life_step p (LStop SIGTSTP)) as [b p']. cbn [life_next] in Hl. destruct Hl as (_ & H1 & ev & H2 & H3 & _). split; [exact H1|]. exists ev. split; [exact H2|exact H3].
Defined.

(** ** Delivery to a thread *)

(** The notifications a thread can take: its own and the shared ones. *)
Definition own_pq (p : Process) (tid : Z) : pq :=
  if is_main_thread p tid then thread_pq (pr_main_thread_signals p)
  else match get_thread p tid with Some t => thread_pq (th_signals t) | None => (0, []) end.

(** A thread of the process. *)
Definition live_tid (p : Process) (tid : Z) : Prop := is_main_thread p tid = true \/ is_Some (get_thread p tid).

Lemma get_thread_In p tid t : get_thread p tid = Some t -> t ∈ pr_threads p /\ th_tid t = tid.
Proof. intros [Hin Ht]%find_first_Some. split; [done|]. by apply Z.eqb_eq. Qed.

Lemma get_update_thread tid f l tid' :
  (forall t, th_tid (f t) = th_tid t) ->
  find_first (has_tid tid') (update_thread tid f l) =
  if tid' =? tid then f <$> find_first (has_tid tid') l else find_first (has_tid tid') l.
Proof.
  intros Hf. unfold find_first. induction l as [|t l IH]; simpl; [by destruct (tid' =? tid)|].
  assert (has_tid tid' (f t) = has_tid tid' t) as Hft by (unfold has_tid; by rewrite Hf).
  destruct (has_tid tid t) eqn:E; simpl; rewrite ?Hft.
  - destruct (has_tid tid' t) eqn:E'; [|].
    + unfold has_tid in *. apply Z.eqb_eq in E, E'. by rewrite <- E', E, Z.eqb_refl.
    + destruct (Z.eqb_spec tid' tid) as [->|]; [congruence|done].
  - destruct (has_tid tid' t) eqn:E'; [|exact IH]. destruct (Z.eqb_spec tid' tid) as [->|]; [congruence|done].
Qed.

Lemma get_thread_get_mut p tid f tid' :
  get_thread (get_thread_mut p tid f) tid' =
  if tid' =? tid then (fun t => with_thread_signals t (f (th_signals t))) <$> get_thread p tid' else get_thread p tid'.
Proof. unfold get_thread, get_thread_mut. cbn [pr_threads with_threads with_all_signals]. by apply get_update_thread. Qed.

Section delivery.
Variable timer_sig : Z -> Z.

Lemma own_good p tid : proc_ok timer_sig p -> good timer_sig (own_pq p tid).
Proof.
  intros [Os Om Ot _ _]. unfold own_pq. case_bool_step; [done|]. destruct (get_thread p tid) as [t|] eqn:E.
  - apply get_thread_In in E as [Hin _]. rewrite Forall_forall in Ot. by apply Ot.
  - split; [|by intros e t ?%elem_of_nil]. apply pq_ok_intro; [done|by intros e ?%elem_of_nil|]. intros s Hs. cbn. rewrite Z.bits_0. done.
Qed.

Lemma pending_for_own p tid : pending_for p tid = Z.lor (shared_pq p).1 (own_pq p tid).1.
Proof. unfold pending_for, own_pq. case_bool_step; [done|]. by destruct (get_thread p tid). Qed.

(** The bit computation names the lowest signal that has a notification and is not
    blocked. *)
Lemma next_deliverable_spec p tid :
  proc_ok timer_sig p -> pr_state p <> Stopped ->
  next_deliverable_signal p tid = spec_next (blocked_for p tid) (fun s => queued (own_pq p tid).2 s ++ queued (shared_pq p).2 s).
Proof.
  intros Hp Hst. unfold next_deliverable_signal. rewrite bool_decide_eq_false_2 by done.
  unfold deliverable_for. rewrite pending_for_own. pose proof (own_good p tid Hp) as [[Ro _ Ao] _]. destruct Hp as [[[Rs _ As] _] _ _ _ _].
  set (m := blocked_for p tid). set (x := Z.lor (shared_pq p).1 (own_pq p tid).1).
  assert (u64_range x) as Rx by (by apply lor_u64).
  assert (forall s, valid_sig s -> Z.testbit x (s - 1) = true <-> queued (own_pq p tid).2 s ++ queued (shared_pq p).2 s <> []) as Ax.
  { intros s Hs. unfold x. rewrite Z.lor_spec, orb_true_iff, As, Ao by done. destruct (queued (own_pq p tid).2 s), (queued (shared_pq p).2 s); naive_solver. }
  destruct (Z.eqb_spec (Z.ldiff x m) 0) as [E|E].
  - symmetry. apply spec_next_None. intros s Hs Hq. apply Ax in Hq; [|done]. assert (Z.testbit (Z.ldiff x m) (s - 1) = false) as Hb by (rewrite E; apply Z.bits_0).
    rewrite Z.ldiff_spec, Hq in Hb. unfold is_masked. by destruct (Z.testbit m (s - 1)).
  - destruct (lowest_signal (Z.ldiff x m)) as (Hs & Hb & Hl); [by apply ldiff_u64|done|]. set (s := trailing_zeros (Z.ldiff x m) + 1) in *.
    assert (s <? NSIG = true) as -> by (unfold valid_sig, NSIG in *; lia). rewrite Z.ldiff_spec in Hb. bool_hyps. symmetry. apply spec_next_Some; try done.
    + by apply Ax.
    + intros s' Hs' Hq Hm. apply Hl; [done|]. apply Ax in Hq; [|done]. unfold is_masked in Hm. by rewrite Z.ldiff_spec, Hq, Hm.
Qed.

Lemma consume_pq x s :
  good timer_sig x -> valid_sig s ->
  match queued x.2 s with
  | i :: l => (consume_pending_info x.1 x.2 s).1 = i /\
      forall s', queued (consume_pending_info x.1 x.2 s).2.2 s' = if s' =? s then l else queued x.2 s'
  | [] => True
  end.
Proof.
  intros [Hok _] Hs. pose proof (consume_spec x.1 x.2 s Hok Hs) as Hc. destruct (consume_pending_info x.1 x.2 s) as [i [p' q']].
  destruct Hc as (_ & Hi & Hq & _). destruct (queued x.2 s) as [|i0 l]; [done|]. split; [exact Hi|]. intros s'. simpl in *. by rewrite Hq.
Qed.

Lemma own_pending p tid s :
  proc_ok timer_sig p -> valid_sig s -> live_tid p tid ->
  (if is_main_thread p tid then pt_is_pending (pr_main_thread_signals p) s
   else match get_thread p tid with Some t => pt_is_pending (th_signals t) s | None => false end) = nonempty (queued (own_pq p tid).2 s).
Proof.
  intros Hp Hs Hl. rewrite <- (bit_queued timer_sig _ s (own_good p tid Hp) Hs). unfold own_pq, pt_is_pending, has_bit.
  assert ((0 <? s) && (s <? NSIG) = true) as -> by (unfold valid_sig, NSIG in *; lia). case_bool_step; [done|].
  destruct (get_thread p tid); [done|]. by destruct Hl as [|[? ?]].
Qed.

(** What taking a signal leaves as it was: the other threads' notifications, and
    every mask. *)
Definition others_unchanged (p p' : Process) (tid : Z) : Prop :=
  (is_main_thread p tid = false -> pr_main_thread_signals p' = pr_main_thread_signals p) /\
  (forall tid', tid' <> tid -> get_thread p' tid' = get_thread p tid') /\ (forall tid', blocked_for p' tid' = blocked_for p tid').

Lemma with_main_others p tid m :
  is_main_thread p tid = true -> others_unchanged p (with_main p m) tid.
Proof. intros Hm. split_and!; [congruence|done|done]. Qed.

Lemma with_signals_others p tid sg : blocked sg = blocked (pr_signals p) -> others_unchanged p (with_signals p sg) tid.
Proof. intros Hb. split_and!; [done|done|]. intros tid'. unfold blocked_for. cbn [pr_signals with_signals with_all_signals]. by rewrite Hb. Qed.

Lemma get_mut_others p tid f : (forall st, pt_blocked (f st) = pt_blocked st) -> others_unchanged p (get_thread_mut p tid f) tid.
Proof.
  intros Hf. split_and!; [done| |].
  - intros tid' Hne. rewrite get_thread_get_mut. by destruct (Z.eqb_spec tid' tid).
  - intros tid'. unfold blocked_for. change (is_main_thread (get_thread_mut p tid f) tid') with (is_main_thread p tid'). case_bool_step; [done|].
    rewrite get_thread_get_mut. destruct (tid' =? tid); [|done]. destruct (get_thread p tid') as [t|]; [|done]. simpl. by rewrite Hf.
Qed.

(** delivery to a thread is exact.  Unless the process is stopped, the signal
    offered to a thread is the lowest one that has a notification queued for
    that thread or for the process and that the thread does not block; a stopped
    process is offered SIGKILL if it is pending anywhere and nothing else.
    Taking a signal hands out the oldest notification of the thread's own queue,
    or else of the shared queue, removes it and no other, and leaves the other
    threads' notifications and all masks alone; it answers none exactly when
    neither queue has one. *)
Theorem thread_delivery_exact p tid s :
  proc_ok timer_sig p -> live_tid p tid -> valid_sig s ->
  next_deliverable_signal p tid =
    (if decide (pr_state p = Stopped) then (if signal_pending_anywhere p SIGKILL then Some SIGKILL else None)
     else spec_next (blocked_for p tid) (fun s => queued (own_pq p tid).2 s ++ queued (shared_pq p).2 s)) /\
  let '(r, p') := consume_signal_for p tid s in
  match queued (own_pq p tid).2 s, queued (shared_pq p).2 s with
  | i :: l, _ =>
      r = Some i /\ others_unchanged p p' tid /\ pr_signals p' = pr_signals p /\
      forall s', queued (own_pq p' tid).2 s' = if s' =? s then l else queued (own_pq p tid).2 s'
  | [], i :: l =>
      r = Some i /\ others_unchanged p p' tid /\ own_pq p' tid = own_pq p tid /\
      forall s', queued (shared_pq p').2 s' = if s' =? s then l else queued (shared_pq p).2 s'
  | [], [] => r = None /\ p' = p
  end.
Proof.
  intros Hp Hl Hs. split.
  { destruct (decide _) as [E|E]; [|by apply next_deliverable_spec]. unfold next_deliverable_signal. by rewrite bool_decide_eq_true_2. }
  pose proof (own_pending p tid s Hp Hs Hl) as Hpend. pose proof (consume_pq (own_pq p tid) s (own_good p tid Hp) Hs) as Hown.
  pose proof (consume_pq (shared_pq p) s (po_shared _ _ Hp) Hs) as Hsh.
  pose proof (bit_queued timer_sig _ s (po_shared _ _ Hp) Hs) as Hbit.
  unfold consume_signal_for. cbv zeta. change (pending (pr_signals p)) with (shared_pq p).1. rewrite Hbit. unfold own_pq in *.
  destruct (is_main_thread p tid) eqn:Em; [|destruct (get_thread p tid) as [t|] eqn:Et; [|by destruct Hl as [|[? ?]]; congruence]].
  - rewrite Hpend. destruct (queued (thread_pq _).2 s) as [|i l]; cbn [nonempty].
    + destruct (queued (shared_pq p).2 s) as [|i l] eqn:Eq; cbn [nonempty negb]; [done|]. unfold consume_one. destruct Hsh as [Hi Hq]. simpl in Hi, Hq.
      destruct (consume_pending_info _ _ _) as [i' [? ?]]. simpl in *. split_and!; [by rewrite Hi|by apply with_signals_others| |done].
      change (is_main_thread (with_signals p _) tid) with (is_main_thread p tid). by rewrite Em.
    + unfold pt_consume_one_info. destruct Hown as [Hi Hq]. simpl in Hi, Hq. destruct (consume_pending_info _ _ _) as [i' [? ?]]. simpl in *.
      split_and!; [by rewrite Hi|by apply with_main_others|done|]. change (is_main_thread (with_main p _) tid) with (is_main_thread p tid). rewrite Em. exact Hq.
  - rewrite Hpend. destruct (queued (thread_pq (th_signals t)).2 s) as [|i l]; cbn [nonempty].
    + destruct (queued (shared_pq p).2 s) as [|i l] eqn:Eq; cbn [nonempty negb]; [done|]. unfold consume_one. destruct Hsh as [Hi Hq]. simpl in Hi, Hq.
      destruct (consume_pending_info _ _ _) as [i' [? ?]]. simpl in *. split_and!; [by rewrite Hi|by apply with_signals_others| |done].
      change (is_main_thread (with_signals p _) tid) with (is_main_thread p tid). rewrite Em. change (get_thread (with_signals p _) tid) with (get_thread p tid).
      by rewrite Et.
    + unfold pt_consume_one_info. destruct Hown as [Hi Hq]. cbn [thread_pq fst snd] in Hi, Hq. split_and!.
      * destruct (consume_pending_info _ _ _). simpl in *. by rewrite Hi.
      * apply get_mut_others. intros st. by destruct (consume_pending_info (pt_pending st) _ _).
      * done.
      * change (is_main_thread (get_thread_mut p tid _) tid) with (is_main_thread p tid). rewrite Em, get_thread_get_mut, Z.eqb_refl, Et. simpl.
        destruct (consume_pending_info _ _ _) as [i' [? ?]]. exact Hq.
Qed.

End delivery.

Definition sample_delivery_ops : list proc_op := [OAddThread 8; ORaise SIGUSR2; ORaiseThreadValue 8 SIGUSR2 5; ORaiseThread 8 SIGUSR1; OBlock 8 512].

Lemma thread_delivery_exact_witness :
  exists p0 last, process_new 0 7 = Some (p0, last) /\
  let p := fold_left (proc_step (fun _ => SIGUSR2)) sample_delivery_ops p0 in
  next_deliverable_signal p 8 = Some SIGUSR2 /\ (consume_signal_for p 8 SIGUSR2).1 = Some (mkInfo 5 (-1) None).
Proof.
  destruct (process_new 0 7) as [[p0 last]|] eqn:E; [|vm_compute in E; discriminate E]. exists p0, last. split; [reflexivity|].
  destruct (process_new_ok (fun _ => SIGUSR2) 0 7 stdio_captured p0 last E) as [Hp Hj].
  assert (proc_run_ok (fun _ => SIGUSR2) p0 sample_delivery_ops) as Hr.
  { vm_compute in E. injection E as <- _. repeat split; try (vm_compute; congruence). apply not_elem_of_nil. }
  destruct (proc_steps_ok (fun _ => SIGUSR2) p0 sample_delivery_ops Hp Hj Hr) as [Hp' _]. vm_compute in E. injection E as <- _.
  set (p := fold_left _ _ _) in *.
  destruct (thread_delivery_exact (fun _ => SIGUSR2) p 8 SIGUSR2 Hp' ltac:(right; eexists; vm_compute; reflexivity) ltac:(split; vm_compute; congruence)) as [Hn Hc].
  split; [rewrite Hn; vm_compute; reflexivity|]. destruct (consume_signal_for p 8 SIGUSR2) as [r p'] eqn:Ec. vm_compute in Ec. injection Ec as <- _. reflexivity.
Defined.
