(* ===== verification/Dri.v ===== *)
(** * Graphics buffer registry and display master ([crates/kernel/src/dri])

    The registry of buffer objects that every process shares ([bo.rs]), the
    singleton display master ([master.rs]) and the frame statistics ([mod.rs]).
    The [static] cells are explicit states; the ordered map is a [gmap];
    identifiers, cookies and counts keep their widths.

    The theorems: a buffer lives as long as its references, its identifier is
    never given to another buffer, the host is told to destroy it exactly once,
    and no two live buffers share a prime cookie; the display has one
    master at a time, who alone can give it up. *)

From S2P Require Import Prelude Abi.

(** ** Buffer objects ([bo.rs]) *)

Record GbmBo := mkBo {
  bo_id : Z;
  bo_stride : Z;
  bo_size : Z;
  bo_refcount : Z;
  bo_prime_cookie : option Z;
}.

Record BoRegistry := mkReg {
  reg_next_id : Z;
  reg_next_cookie : Z;
  reg_map : gmap Z GbmBo;
}.

Definition registry_new : BoRegistry := mkReg 1 1 ∅.

Definition u32_checked_mul (a b : Z) : option Z := if a * b <=? u32_max then Some (a * b) else None.
Definition u32_checked_add (a b : Z) : option Z := if a + b <=? u32_max then Some (a + b) else None.
Definition u64_checked_mul (a b : Z) : option Z := if a * b <=? u64_max then Some (a * b) else None.

(** Every failing step returns before the registry changes. *)
Definition try_alloc (r : BoRegistry) (width height bpp : Z) : option (GbmBo * BoRegistry) :=
  let id := reg_next_id r in
  bits_per_row ← u32_checked_mul width bpp;
  bits ← u32_checked_add bits_per_row 7;
  bytes ← u32_checked_add (bits / 8) 3;
  let stride := Z.ldiff bytes 3 in
  size ← u64_checked_mul stride height;
  next ← u32_checked_add (reg_next_id r) 1;
  let bo := mkBo id stride size 1 None in
  Some (bo, mkReg next (reg_next_cookie r) (<[id := bo]> (reg_map r))).

Definition reg_get (r : BoRegistry) (id : Z) : option GbmBo := reg_map r !! id.

Definition with_refcount (b : GbmBo) (c : Z) : GbmBo := mkBo (bo_id b) (bo_stride b) (bo_size b) c (bo_prime_cookie b).
Definition with_cookie (b : GbmBo) (c : Z) : GbmBo := mkBo (bo_id b) (bo_stride b) (bo_size b) (bo_refcount b) (Some c).
Definition set_bo (r : BoRegistry) (id : Z) (b : GbmBo) : BoRegistry :=
  mkReg (reg_next_id r) (reg_next_cookie r) (<[id := b]> (reg_map r)).

Definition incref (r : BoRegistry) (id : Z) : option Z * BoRegistry :=
  match reg_map r !! id with
  | None => (None, r)
  | Some bo =>
      match u32_checked_add (bo_refcount bo) 1 with
      | Some c => (Some c, set_bo r id (with_refcount bo c))
      | None => (None, r)
      end
  end.

Definition decref (r : BoRegistry) (id : Z) : option Z * BoRegistry :=
  match reg_map r !! id with
  | None => (None, r)
  | Some bo =>
      let rc := u32_saturating_sub (bo_refcount bo) 1 in
      (Some rc,
       if rc =? 0 then mkReg (reg_next_id r) (reg_next_cookie r) (delete id (reg_map r))
       else set_bo r id (with_refcount bo rc))
  end.

Definition ensure_prime_cookie (r : BoRegistry) (id : Z) : option Z * BoRegistry :=
  match reg_map r !! id with
  | None => (None, r)
  | Some bo =>
      match bo_prime_cookie bo with
      | Some c => (Some c, r)
      | None =>
          let c := reg_next_cookie r in
          (Some c, mkReg (reg_next_id r) ((reg_next_cookie r + 1) mod 2 ^ 64) (<[id := with_cookie bo c]> (reg_map r)))
      end
  end.

(** ** Display master ([master.rs]) *)

Record MasterHolder := mkHolder { mh_pid : Z; mh_ofd_idx : nat }.

#[export] Instance MasterHolder_eq_dec : EqDecision MasterHolder.
Proof. solve_decision. Defined.

Definition try_set_master (m : option MasterHolder) (pid : Z) (ofd_idx : nat) : kresult unit * option MasterHolder :=
  match m with
  | Some h => if (mh_pid h =? pid) && (mh_ofd_idx h =? ofd_idx)%nat then (Ok (), m) else (Err EBUSY, m)
  | None => (Ok (), Some (mkHolder pid ofd_idx))
  end.

Definition drop_master (m : option MasterHolder) (pid : Z) (ofd_idx : nat) : bool * option MasterHolder :=
  match m with
  | Some h => if (mh_pid h =? pid) && (mh_ofd_idx h =? ofd_idx)%nat then (true, None) else (false, m)
  | None => (false, m)
  end.

(** The first component is whether the host is told ([kms_drop_master]). *)
Definition release_if_held (m : option MasterHolder) (holds_master : bool) (pid : Z) (ofd_idx : nat) : bool * option MasterHolder :=
  if holds_master then drop_master m pid ofd_idx else (false, m).

(** ** Frame statistics ([mod.rs]) *)

Record DriStats := mkStats { VBLANK_SEQ : Z; CRTC1_COMMITS : Z; CRTC1_LAST_FLIP_US : Z; CRTC1_LAST_FRAME_US : Z }.

Definition vblank_tick (s : DriStats) : Z * DriStats :=
  let n := (VBLANK_SEQ s + 1) mod 2 ^ 32 in
  (n, mkStats n (CRTC1_COMMITS s) (CRTC1_LAST_FLIP_US s) (CRTC1_LAST_FRAME_US s)).

Definition record_kms_commit (s : DriStats) (crtc_id now_us : Z) : DriStats :=
  if negb (crtc_id =? 1) then s
  else
    let prev := CRTC1_LAST_FLIP_US s in
    mkStats (VBLANK_SEQ s) ((CRTC1_COMMITS s + 1) mod 2 ^ 64) now_us
      (if negb (prev =? 0) && (prev <? now_us) then now_us - prev else CRTC1_LAST_FRAME_US s).

Definition kms_commit_count (s : DriStats) (crtc_id : Z) : Z := if negb (crtc_id =? 1) then 0 else CRTC1_COMMITS s.
Definition kms_last_frame_us (s : DriStats) (crtc_id : Z) : Z := if negb (crtc_id =? 1) then 0 else CRTC1_LAST_FRAME_US s.

(** ** Buffer lifetime *)

Inductive bo_op :=
| BAlloc (width height bpp : Z)
| BIncref (id : Z)
| BDecref (id : Z)
| BCookie (id : Z).

Inductive bo_seen := SAlloc (id : option Z) | SCount (id : Z) (c : option Z) | SDrop (id : Z) (c : option Z) | SCookie (c : option Z).

Definition bo_step (r : BoRegistry) (op : bo_op) : bo_seen * BoRegistry :=
  match op with
  | BAlloc w h b => match try_alloc r w h b with Some (bo, r') => (SAlloc (Some (bo_id bo)), r') | None => (SAlloc None, r) end
  | BIncref id => let '(c, r') := incref r id in (SCount id c, r')
  | BDecref id => let '(c, r') := decref r id in (SDrop id c, r')
  | BCookie id => let '(c, r') := ensure_prime_cookie r id in (SCookie c, r')
  end.

Fixpoint bo_run (r : BoRegistry) (ops : list bo_op) : list bo_seen * BoRegistry :=
  match ops with
  | [] => ([], r)
  | op :: ops' => let '(s, r1) := bo_step r op in let '(l, r2) := bo_run r1 ops' in (s :: l, r2)
  end.

(** The allocations of an identifier, the references taken on it and the
    destructions reported for it, in a run. *)
Definition allocs (id : Z) (l : list bo_seen) : nat :=
  length (List.filter (fun s => match s with SAlloc (Some i) => i =? id | _ => false end) l).
Definition destroys (id : Z) (l : list bo_seen) : nat :=
  length (List.filter (fun s => match s with SDrop i (Some 0) => i =? id | _ => false end) l).

Record reg_ok (r : BoRegistry) : Prop := {
  ro_live : forall id b, reg_map r !! id = Some b ->
    bo_id b = id /\ 1 <= id < reg_next_id r /\ 1 <= bo_refcount b <= u32_max;
  ro_next : 1 <= reg_next_id r;
}.

Lemma registry_new_ok : reg_ok registry_new.
Proof. split; simpl; [|lia]. intros id b. by rewrite lookup_empty. Qed.

Lemma try_alloc_spec r w h b :
  match try_alloc r w h b with
  | Some (bo, r') => bo_id bo = reg_next_id r /\ bo_refcount bo = 1 /\ bo_prime_cookie bo = None /\
      r' = mkReg (reg_next_id r + 1) (reg_next_cookie r) (<[reg_next_id r := bo]> (reg_map r))
  | None => True
  end.
Proof.
  unfold try_alloc, u32_checked_mul, u32_checked_add, u64_checked_mul.
  repeat (case_match; simplify_eq/=; try done; simplify_option_eq). all: try done.
  all: repeat match goal with H : (if ?b then _ else _) = Some _ |- _ => destruct b eqn:?; simplify_eq/= end; done.
Qed.

Lemma bo_step_ok r op : reg_ok r -> reg_ok (bo_step r op).2.
Proof.
  intros [Hl Hn]. destruct op as [w h b|id|id|id]; simpl.
  - pose proof (try_alloc_spec r w h b) as Ha. destruct (try_alloc r w h b) as [[bo r']|]; [|by split].
    destruct Ha as (Hid & Hc & _ & ->). split; simpl; [|lia].
    intros i x. rewrite lookup_insert_Some. unfold u32_max. intros [[<- <-]|[? Hx]]; [lia|].
    apply Hl in Hx. unfold u32_max in *. lia.
  - unfold incref, u32_checked_add. destruct (reg_map r !! id) as [bo|] eqn:E; [|by split].
    pose proof (Hl _ _ E). destruct (Z.leb_spec (bo_refcount bo + 1) u32_max); [|by split]. split; simpl; [|lia].
    intros i x. rewrite lookup_insert_Some. intros [[<- <-]|[? Hx]]; [simpl; lia|by apply Hl].
  - unfold decref, u32_saturating_sub. destruct (reg_map r !! id) as [bo|] eqn:E; [|by split].
    pose proof (Hl _ _ E). cbn [fst snd]. destruct (Z.eqb_spec (Z.max (bo_refcount bo - 1) 0) 0); split; simpl; try lia.
    + intros i x. rewrite lookup_delete_Some. intros [_ Hx]. by apply Hl.
    + intros i x. rewrite lookup_insert_Some. intros [[<- <-]|[? Hx]]; [simpl; lia|by apply Hl].
  - unfold ensure_prime_cookie. destruct (reg_map r !! id) as [bo|] eqn:E; [|by split].
    pose proof (Hl _ _ E). destruct (bo_prime_cookie bo); [by split|]. split; simpl; [|lia].
    intros i x. rewrite lookup_insert_Some. intros [[<- <-]|[? Hx]]; [simpl; lia|by apply Hl].
Qed.

(** The identifiers not given out yet, the live ones and the destroyed ones. *)
Definition was_allocated (r : BoRegistry) (id : Z) : nat := if bool_decide (1 <= id < reg_next_id r) then 1 else 0.
Definition live (r : BoRegistry) (id : Z) : nat := match reg_map r !! id with Some _ => 1 | None => 0 end.

Lemma live_insert r n c id bo i :
  live (mkReg n c (<[id := bo]> (reg_map r))) i = if bool_decide (i = id) then 1%nat else live r i.
Proof. unfold live. simpl. case_bool_decide; subst; [by rewrite lookup_insert_eq|by rewrite lookup_insert_ne]. Qed.

Lemma live_set r id bo i : is_Some (reg_map r !! id) -> live (set_bo r id bo) i = live r i.
Proof.
  intros [x Hx]. unfold set_bo. rewrite live_insert. case_bool_decide; [|done]. subst. unfold live. by rewrite Hx.
Qed.

(** One step moves an identifier forward through: not given out, live, destroyed. *)
Lemma bo_step_counts r op i :
  reg_ok r ->
  was_allocated (bo_step r op).2 i = (was_allocated r i + allocs i [(bo_step r op).1])%nat /\
  (live r i + allocs i [(bo_step r op).1] = live (bo_step r op).2 i + destroys i [(bo_step r op).1])%nat.
Proof.
  intros [Hl Hn]. unfold allocs, destroys. destruct op as [w h b|id|id|id]; simpl.
  - pose proof (try_alloc_spec r w h b) as Ha. destruct (try_alloc r w h b) as [[bo r']|]; simpl; [|lia].
    destruct Ha as (Hid & _ & _ & ->). rewrite Hid, live_insert. unfold was_allocated. simpl.
    destruct (Z.eqb_spec (reg_next_id r) i) as [<-|Hne].
    + rewrite (bool_decide_eq_true_2 (reg_next_id r = _)), bool_decide_eq_true_2, bool_decide_eq_false_2 by lia. simpl.
      split; [done|]. unfold live. destruct (reg_map r !! reg_next_id r) eqn:E; [|done]. apply Hl in E. lia.
    + rewrite (bool_decide_eq_false_2 (i = _)) by done. simpl. split; [|lia].
      repeat case_bool_decide; lia.
  - unfold incref. destruct (reg_map r !! id) eqn:E; simpl; [|lia]. destruct (u32_checked_add _ _); simpl; [|lia].
    rewrite live_set by by rewrite E. unfold was_allocated. simpl. lia.
  - unfold decref. destruct (reg_map r !! id) as [bo|] eqn:E; simpl; [|lia].
    destruct (Z.eqb_spec (u32_saturating_sub (bo_refcount bo) 1) 0) as [->|Hc]; simpl.
    + unfold was_allocated, live. simpl. destruct (Z.eqb_spec id i) as [->|?].
      * rewrite E, lookup_delete_eq. simpl. split; [|done]. case_bool_decide; lia.
      * rewrite lookup_delete_ne by done. simpl. split; [|lia]. case_bool_decide; lia.
    + rewrite live_set by by rewrite E. unfold was_allocated. simpl. destruct (u32_saturating_sub _ _); simpl; [done|lia|lia].
  - unfold ensure_prime_cookie. destruct (reg_map r !! id) as [bo|] eqn:E; simpl; [|lia].
    destruct (bo_prime_cookie bo); simpl; [lia|]. rewrite live_insert. unfold was_allocated. simpl.
    destruct (decide (i = id)) as [->|?]; [rewrite (bool_decide_eq_true_2 (id = id)) by done|rewrite (bool_decide_eq_false_2 (i = id)) by done; lia].
    unfold live. rewrite E. simpl. lia.
Qed.

Lemma bo_run_ok r ops : reg_ok r -> reg_ok (bo_run r ops).2.
Proof.
  revert r. induction ops as [|op ops IH]; simpl; intros r Hr; [done|].
  pose proof (bo_step_ok r op Hr) as H1. destruct (bo_step r op) as [s r1]. simpl in H1.
  specialize (IH r1 H1). by destruct (bo_run r1 ops).
Qed.

Lemma seen_cons (p : bo_seen -> bool) s l : length (List.filter p (s :: l)) = (length (List.filter p [s]) + length (List.filter p l))%nat.
Proof. simpl. by destruct (p s). Qed.

Lemma bo_run_counts r ops i :
  reg_ok r ->
  was_allocated (bo_run r ops).2 i = (was_allocated r i + allocs i (bo_run r ops).1)%nat /\
  (live r i + allocs i (bo_run r ops).1 = live (bo_run r ops).2 i + destroys i (bo_run r ops).1)%nat.
Proof.
  revert r. induction ops as [|op ops IH]; intros r Hr; [unfold allocs, destroys; simpl; lia|].
  pose proof (bo_step_ok r op Hr) as H1. pose proof (bo_step_counts r op i Hr) as Hc. cbn [bo_run].
  destruct (bo_step r op) as [s r1]. cbn [fst snd] in *. specialize (IH r1 H1).
  destruct (bo_run r1 ops) as [l r2]. cbn [fst snd] in *. unfold allocs, destroys in *.
  rewrite (seen_cons _ s l), (seen_cons (fun x => match x with SDrop _ _ => _ | _ => _ end) s l). lia.
Qed.

(** References taken and dropped on an identifier, of those that found it. *)
Definition taken (id : Z) (l : list bo_seen) : nat :=
  length (List.filter (fun s => match s with SCount i (Some _) => i =? id | _ => false end) l).
Definition dropped (id : Z) (l : list bo_seen) : nat :=
  length (List.filter (fun s => match s with SDrop i (Some _) => i =? id | _ => false end) l).

Definition count_of (r : BoRegistry) (id : Z) : Z := match reg_map r !! id with Some b => bo_refcount b | None => 0 end.

Lemma count_of_insert r n c id bo i :
  count_of (mkReg n c (<[id := bo]> (reg_map r))) i = if bool_decide (i = id) then bo_refcount bo else count_of r i.
Proof. unfold count_of. simpl. case_bool_decide; subst; [by rewrite lookup_insert_eq|by rewrite lookup_insert_ne]. Qed.

Lemma bo_step_count_of r op i :
  reg_ok r ->
  count_of (bo_step r op).2 i + Z.of_nat (dropped i [(bo_step r op).1]) =
  count_of r i + Z.of_nat (allocs i [(bo_step r op).1]) + Z.of_nat (taken i [(bo_step r op).1]).
Proof.
  intros [Hl Hn]. unfold allocs, taken, dropped. destruct op as [w h b|id|id|id]; simpl.
  - pose proof (try_alloc_spec r w h b) as Ha. destruct (try_alloc r w h b) as [[bo r']|]; simpl; [|lia].
    destruct Ha as (Hid & Hc & _ & ->). rewrite Hid, count_of_insert, Hc.
    destruct (Z.eqb_spec (reg_next_id r) i) as [<-|Hne]; [|rewrite bool_decide_eq_false_2 by done; simpl; lia].
    rewrite bool_decide_eq_true_2 by done. unfold count_of. destruct (reg_map r !! reg_next_id r) eqn:E; simpl; [|lia].
    apply Hl in E. lia.
  - unfold incref, u32_checked_add. destruct (reg_map r !! id) as [bo|] eqn:E; simpl; [|lia].
    destruct (Z.leb_spec (bo_refcount bo + 1) u32_max); simpl; [|lia]. unfold set_bo. rewrite count_of_insert.
    destruct (Z.eqb_spec id i) as [<-|?]; [|rewrite bool_decide_eq_false_2 by done; simpl; lia].
    rewrite bool_decide_eq_true_2 by done. unfold count_of. rewrite E. simpl. lia.
  - unfold decref, u32_saturating_sub. destruct (reg_map r !! id) as [bo|] eqn:E; simpl; [|lia].
    pose proof (Hl _ _ E). destruct (Z.eqb_spec (Z.max (bo_refcount bo - 1) 0) 0); simpl.
    + unfold count_of. simpl. destruct (Z.eqb_spec id i) as [<-|?]; simpl.
      * rewrite lookup_delete_eq, E. lia.
      * rewrite lookup_delete_ne by done. lia.
    + unfold set_bo. rewrite count_of_insert. destruct (Z.eqb_spec id i) as [<-|?]; simpl.
      * rewrite bool_decide_eq_true_2 by done. unfold count_of. rewrite E. simpl. lia.
      * rewrite bool_decide_eq_false_2 by done. lia.
  - unfold ensure_prime_cookie. destruct (reg_map r !! id) as [bo|] eqn:E; simpl; [|lia].
    destruct (bo_prime_cookie bo); simpl; [lia|]. rewrite count_of_insert. case_bool_decide; subst; [|lia].
    unfold count_of. rewrite E. simpl. lia.
Qed.

Lemma bo_run_count_of r ops i :
  reg_ok r ->
  count_of (bo_run r ops).2 i + Z.of_nat (dropped i (bo_run r ops).1) =
  count_of r i + Z.of_nat (allocs i (bo_run r ops).1) + Z.of_nat (taken i (bo_run r ops).1).
Proof.
  revert r. induction ops as [|op ops IH]; intros r Hr; [unfold allocs, taken, dropped; simpl; lia|].
  pose proof (bo_step_ok r op Hr) as H1. pose proof (bo_step_count_of r op i Hr) as Hc. cbn [bo_run].
  destruct (bo_step r op) as [s r1]. cbn [fst snd] in *. specialize (IH r1 H1).
  destruct (bo_run r1 ops) as [l r2]. cbn [fst snd] in *. unfold allocs, taken, dropped in *.
  rewrite (seen_cons _ s l), (seen_cons (fun x => match x with SCount _ _ => _ | _ => _ end) s l),
    (seen_cons (fun x => match x with SDrop _ _ => _ | _ => _ end) s l). lia.
Qed.

(** Cookies come from a counter that does not wrap within [n] more steps. *)
Record cookies_ok (r : BoRegistry) (n : Z) : Prop := {
  ck_room : 1 <= reg_next_cookie r /\ reg_next_cookie r + n < 2 ^ 64;
  ck_below : forall id b c, reg_map r !! id = Some b -> bo_prime_cookie b = Some c -> 1 <= c < reg_next_cookie r;
  ck_unique : forall i j b b' c, reg_map r !! i = Some b -> reg_map r !! j = Some b' ->
    bo_prime_cookie b = Some c -> bo_prime_cookie b' = Some c -> i = j;
}.

(** Buffers that keep their cookie, or have none, keep the invariant. *)
Lemma cookies_ok_sub r r' n :
  cookies_ok r n -> 0 <= n -> reg_next_cookie r' = reg_next_cookie r ->
  (forall id b c, reg_map r' !! id = Some b -> bo_prime_cookie b = Some c ->
     exists b0, reg_map r !! id = Some b0 /\ bo_prime_cookie b0 = Some c) ->
  cookies_ok r' n.
Proof.
  intros [Hr Hb Hu] Hn Hc Hsub. split; [lia| |].
  - intros id b c H1 H2. destruct (Hsub _ _ _ H1 H2) as (b0 & ? & ?). rewrite Hc. by eapply Hb.
  - intros i j b b' c H1 H2 H3 H4. destruct (Hsub _ _ _ H1 H3) as (b0 & ? & ?), (Hsub _ _ _ H2 H4) as (b1 & ? & ?). by eapply Hu.
Qed.

Lemma bo_step_cookies r op n : 0 <= n -> cookies_ok r (n + 1) -> cookies_ok (bo_step r op).2 n.
Proof.
  intros Hn Hok. assert (cookies_ok r n) as Hok' by (destruct Hok as [? ? ?]; split; try done; lia).
  destruct op as [w h b|id|id|id]; simpl.
  - pose proof (try_alloc_spec r w h b) as Ha. destruct (try_alloc r w h b) as [[bo r']|]; [|done].
    destruct Ha as (_ & _ & Hcc & ->). apply (cookies_ok_sub r); try done. simpl.
    intros i x c. rewrite lookup_insert_Some. intros [[<- <-]|[? ?]] ?; [congruence|eauto].
  - unfold incref. destruct (reg_map r !! id) as [bo|] eqn:E; [|done]. destruct (u32_checked_add _ _); [|done].
    apply (cookies_ok_sub r); try done. simpl. intros i x c. rewrite lookup_insert_Some. intros [[<- <-]|[? ?]] ?; eauto.
  - unfold decref. destruct (reg_map r !! id) as [bo|] eqn:E; [|done]. cbn [snd]. case_bool_step;
      apply (cookies_ok_sub r); try done; simpl; intros i x c.
    + rewrite lookup_delete_Some. intros [_ ?] ?; eauto.
    + rewrite lookup_insert_Some. intros [[<- <-]|[? ?]] ?; eauto.
  - unfold ensure_prime_cookie. destruct (reg_map r !! id) as [bo|] eqn:E; [|done].
    destruct (bo_prime_cookie bo) eqn:Ec; [done|]. destruct Hok as [Hr Hb Hu]. split; simpl; rewrite ?(Z.mod_small (reg_next_cookie r + 1)) by lia.
    + lia.
    + intros i x c. rewrite lookup_insert_Some. intros [[<- <-]|[? Hx]] Hc; simpl in *; [simplify_eq; lia|].
      specialize (Hb _ _ _ Hx Hc). lia.
    + intros i j x y c. rewrite !lookup_insert_Some. intros [[<- <-]|[? Hx]] [[<- <-]|[? Hy]] H1 H2; simpl in *; try done; simplify_eq.
      * specialize (Hb _ _ _ Hy H2). lia.
      * specialize (Hb _ _ _ Hx H1). lia.
      * by eapply Hu.
Qed.

Lemma bo_run_cookies r ops n :
  0 <= n -> cookies_ok r (n + Z.of_nat (length ops)) -> cookies_ok (bo_run r ops).2 n.
Proof.
  revert r. induction ops as [|op ops IH]; intros r Hn Hr; [simpl in *; by rewrite Z.add_0_r in Hr|].
  cbn [bo_run length] in *. pose proof (bo_step_cookies r op (n + Z.of_nat (length ops))) as Hs.
  destruct (bo_step r op) as [s r1]. cbn [snd] in Hs. specialize (IH r1 Hn).
  destruct (bo_run r1 ops). apply IH, Hs; [lia|]. by replace (_ + _ + 1) with (n + Z.of_nat (S (length ops))) by lia.
Qed.

(** In every run of the buffer registry that starts empty, an identifier is
    given to at most one buffer; the host is told to destroy a buffer at most once, and it
    has been told exactly when the buffer was allocated and is no longer
    registered; a registered buffer holds one reference for its creation plus
    those taken minus those dropped, at least one; and (as long as fewer than
    2^64 - 1 operations ran) two registered buffers never share a prime cookie. *)
Theorem bo_lifetime ops :
  Z.of_nat (length ops) < 2 ^ 64 - 1 ->
  let '(l, r) := bo_run registry_new ops in
  forall id,
  (allocs id l <= 1)%nat /\ (destroys id l <= allocs id l)%nat /\
  (reg_get r id = None <-> destroys id l = allocs id l) /\
  (forall b, reg_get r id = Some b ->
     bo_refcount b = 1 + Z.of_nat (taken id l) - Z.of_nat (dropped id l) /\ 1 <= bo_refcount b) /\
  (forall b id' b' c, reg_get r id = Some b -> reg_get r id' = Some b' ->
     bo_prime_cookie b = Some c -> bo_prime_cookie b' = Some c -> id = id').
Proof.
  intros Hlen. pose proof registry_new_ok as H0. pose proof (bo_run_ok _ ops H0) as Hok.
  assert (cookies_ok registry_new (0 + Z.of_nat (length ops))) as Hck.
  { split; simpl; [lia| |]; intros *; by rewrite lookup_empty. }
  pose proof (bo_run_cookies registry_new ops 0 ltac:(lia) Hck) as [_ _ Hu].
  pose proof (fun i => bo_run_counts registry_new ops i H0) as Hc.
  pose proof (fun i => bo_run_count_of registry_new ops i H0) as Hr.
  destruct (bo_run registry_new ops) as [l r]. cbn [fst snd] in *. intros id.
  specialize (Hc id) as [Ha Hb]. specialize (Hr id). unfold was_allocated, live, count_of, reg_get in *.
  cbn [registry_new reg_map reg_next_id] in *. rewrite lookup_empty in *. rewrite (bool_decide_eq_false_2 (1 <= id < 1)) in Ha by lia.
  assert (allocs id l <= 1)%nat by (rewrite <- (Nat.add_0_l (allocs id l)), <- Ha; case_bool_decide; lia).
  destruct (reg_map r !! id) as [b|] eqn:E.
  - split_and!; try lia; [split; [done|lia]|intros b' [= <-]; apply Hok in E; lia|].
    intros b1 id' b' c [= <-] ? ? ?. by eapply Hu.
  - split_and!; try lia; done.
Qed.

Definition example_bo_ops : list bo_op := [BAlloc 640 480 32; BAlloc 10 1 8; BIncref 1; BCookie 2; BCookie 1; BDecref 1; BDecref 2; BDecref 2; BAlloc 1 1 1].

Lemma bo_lifetime_witness :
  Z.of_nat (length example_bo_ops) < 2 ^ 64 - 1 /\
  let '(l, r) := bo_run registry_new example_bo_ops in
  reg_get r 2 = None /\ destroys 2 l = 1%nat /\ (bo_refcount <$> reg_get r 1) = Some 1 /\ (bo_size <$> reg_get r 1) = Some 1228800.
Proof.
  assert (Z.of_nat (length example_bo_ops) < 2 ^ 64 - 1) as H by (vm_compute; done). split; [done|].
  pose proof (bo_lifetime example_bo_ops H) as Hl. destruct (bo_run registry_new example_bo_ops) as [l r] eqn:E.
  vm_compute in E. injection E as <- <-. split; [by apply (Hl 2)|]. split_and!; done.
Defined.

(** ** Display master *)

Inductive master_op := MSet (h : MasterHolder) | MDrop (h : MasterHolder) | MClose (holds : bool) (h : MasterHolder).

Definition master_step (m : option MasterHolder) (op : master_op) : bool * option MasterHolder :=
  match op with
  | MSet h => let '(e, m') := try_set_master m (mh_pid h) (mh_ofd_idx h) in (match e with Ok _ => true | Err _ => false end, m')
  | MDrop h => drop_master m (mh_pid h) (mh_ofd_idx h)
  | MClose b h => release_if_held m b (mh_pid h) (mh_ofd_idx h)
  end.

(** Only the holder can give the display up, a claim by another description is
    refused while there is one, and the master changes hands only through the
    empty state. *)
Lemma master_exclusive m op h :
  m = Some h ->
  ((master_step m op).2 = Some h \/ (master_step m op).2 = None) /\
  ((master_step m op).2 = None <-> op = MDrop h \/ op = MClose true h) /\
  (forall h', op = MSet h' -> ((master_step m op).1 = true <-> h' = h)).
Proof.
  intros ->. destruct h as [p o].
  assert (forall p' o', (p =? p') && (o =? o')%nat = bool_decide (mkHolder p' o' = mkHolder p o)) as Heq.
  { intros. destruct (Z.eqb_spec p p'), (Nat.eqb_spec o o'); simpl; case_bool_decide; naive_solver. }
  destruct op as [[p' o']|[p' o']|[] [p' o']]; cbn [master_step release_if_held drop_master try_set_master mh_pid mh_ofd_idx];
    rewrite ?Heq; repeat case_bool_decide; simpl; split_and!; intros; naive_solver.
Qed.
