(* ===== verification/Devices.v ===== *)
(** * Single-owner devices ([crates/kernel/src/mouse.rs], [audio.rs])

    [/dev/input/mice] is a bounded queue of mouse packets that the host fills and
    the owner reads; [/dev/dsp] is a bounded ring of samples that the owner writes
    and the host drains; [/dev/fb0] has an owner only (its memory is mapped into
    the process).  Each has at most one owning process, claimed when it is opened
    and released with its last descriptor ([acquire_*_or_busy], [maybe_release_*]
    of [syscalls.rs]).  The ioctls of the sound device are [handle_dsp_ioctl].

    Theorems: the mouse queue is the list of the newest packets, each whole, as
    long as readers take whole packets; the sound ring keeps the newest whole
    frames and never grows over its capacity when writes are whole frames within
    the capacity.  The loops that make room run on fuel, one unit per byte, which
    is enough. *)

From S2P Require Import Prelude Bytes Abi.

(** ** Mouse *)

Definition PACKET_LEN : nat := 3.
Definition MAX_PACKETS : nat := Z.to_nat 4096.
Definition MAX_QUEUED_BYTES : Z := 4096 * Z.of_nat PACKET_LEN.

(** [clamp(i8::MIN, i8::MAX)]. *)
Definition clamp_i8 (v : Z) : Z := Z.max (-128) (Z.min v 127).

(** [v as u8] of an [i8]. *)
Definition i8_as_u8 (v : Z) : Z := v mod 256.

Definition packet (dx dy buttons : Z) : bytes :=
  let dx_i8 := clamp_i8 dx in
  let dy_i8 := clamp_i8 dy in
  let b0 := Z.lor 0x08 (Z.land buttons 0x07) in
  let b0 := if dx_i8 <? 0 then Z.lor b0 0x10 else b0 in
  let b0 := if dy_i8 <? 0 then Z.lor b0 0x20 else b0 in
  [b0; i8_as_u8 dx_i8; i8_as_u8 dy_i8].

(** [while q.len() + PACKET_LEN > MAX_QUEUED_BYTES]; [None] when the fuel runs
    out. *)
Fixpoint drop_oldest (fuel : nat) (q : bytes) : option bytes :=
  match fuel with
  | O => None
  | S fuel' => if MAX_QUEUED_BYTES <? Z.of_nat (length q + PACKET_LEN) then drop_oldest fuel' (drop PACKET_LEN q) else Some q
  end.

Definition inject_event (dx dy buttons : Z) (q : bytes) : option bytes :=
  q ← drop_oldest (S (length q)) q; Some (q ++ packet dx dy buttons).

(** [n] is the length of the caller's buffer. *)
Definition read_into (n : nat) (q : bytes) : bytes * bytes := (take n q, drop n q).

Definition has_data (q : bytes) : bool := negb (bool_decide (q = [])).

(** ** Sound *)

Record Dsp := mkDsp { SAMPLE_RATE : Z; CHANNELS : Z; RING : bytes }.

Definition dsp_new : Dsp := mkDsp 11025 2 [].
Definition with_ring (d : Dsp) (r : bytes) : Dsp := mkDsp (SAMPLE_RATE d) (CHANNELS d) r.

Definition frame_bytes (d : Dsp) : nat := 2 * Nat.max (Z.to_nat (CHANNELS d)) 1.

Definition MAX_RING_BYTES : Z := 256 * 1024.
Definition AFMT_S16_LE : Z := 0x10.

(** [while r.len() + data.len() > MAX_QUEUED_BYTES]. *)
Fixpoint drop_frames (fuel frame len : nat) (r : bytes) : option bytes :=
  match fuel with
  | O => None
  | S fuel' =>
      if MAX_RING_BYTES <? Z.of_nat (length r + len) then
        let n := Nat.min frame (length r) in
        if (n =? 0)%nat then Some r else drop_frames fuel' frame len (drop n r)
      else Some r
  end.

Definition write_pcm (data : bytes) (d : Dsp) : option Dsp :=
  r ← drop_frames (S (length (RING d))) (frame_bytes d) (length data) (RING d); Some (with_ring d (r ++ data)).

(** [want] is the length of the host's buffer. *)
Definition drain_into (want : nat) (d : Dsp) : bytes * Dsp :=
  let n := Nat.min want (length (RING d)) in
  let n := (n / frame_bytes d * frame_bytes d)%nat in
  (take n (RING d), with_ring d (drop n (RING d))).

Definition pending_bytes (d : Dsp) : nat := length (RING d).
Definition dsp_reset (d : Dsp) : Dsp := with_ring d [].

Definition set_sample_rate (hz : Z) (d : Dsp) : Z * Dsp :=
  let clamped := Z.max 4000 (Z.min hz 192000) in (clamped, mkDsp clamped (CHANNELS d) (RING d)).

Definition set_channels (n : Z) (d : Dsp) : Z * Dsp :=
  let n := if n =? 1 then 1 else 2 in (n, mkDsp (SAMPLE_RATE d) n (RING d)).

Definition set_format (fmt : Z) : bool := fmt =? AFMT_S16_LE.
Definition current_config (d : Dsp) : Z * Z := (SAMPLE_RATE d, CHANNELS d).

(** *** Its ioctls *)

Definition SNDCTL_DSP_RESET : Z := 0x00005000.
Definition SNDCTL_DSP_SYNC : Z := 0x00005001.
Definition SNDCTL_DSP_SPEED : Z := 0xc0045002.
Definition SNDCTL_DSP_STEREO : Z := 0xc0045003.
Definition SNDCTL_DSP_SETFMT : Z := 0xc0045005.
Definition SNDCTL_DSP_CHANNELS : Z := 0xc0045006.
Definition SNDCTL_DSP_GETFMTS : Z := 0x8004500b.
Definition SNDCTL_DSP_SETFRAGMENT : Z := 0xc004500a.

(** [i32::from_le_bytes]. *)
Definition dsp_arg (buf : bytes) : Z := as_i32 (from_le_bytes (take 4 buf)).

Definition handle_dsp_ioctl (request : Z) (buf : bytes) (d : Dsp) : result unit Errno * bytes * Dsp :=
  let set v d := (Ok tt, splice 0 (to_le_bytes v) buf, d) in
  let bad := (Err EINVAL, buf, d) in
  let short := (length buf <? 4)%nat in
  if request =? SNDCTL_DSP_RESET then (Ok tt, buf, dsp_reset d)
  else if request =? SNDCTL_DSP_SYNC then (Ok tt, buf, d)
  else if request =? SNDCTL_DSP_SPEED then
    if short then bad else let '(actual, d) := set_sample_rate (Z.max (dsp_arg buf) 0) d in set actual d
  else if request =? SNDCTL_DSP_STEREO then
    if short then bad
    else let '(actual, d) := set_channels (if dsp_arg buf =? 0 then 1 else 2) d in set (if actual =? 2 then 1 else 0) d
  else if request =? SNDCTL_DSP_CHANNELS then
    if short then bad else let '(actual, d) := set_channels (Z.max (dsp_arg buf) 0) d in set actual d
  else if request =? SNDCTL_DSP_SETFMT then
    if short then bad
    else let req := from_le_bytes (take 4 buf) in if negb (set_format req) then bad else set req d
  else if request =? SNDCTL_DSP_GETFMTS then if short then bad else set AFMT_S16_LE d
  else if request =? SNDCTL_DSP_SETFRAGMENT then (Ok tt, buf, d)
  else (Err ENOTTY, buf, d).

(** ** Ownership *)

Inductive VirtualDevice :=
| DevNull | DevZero | Urandom | Full | Fb0 | Mice | DspDev | DriRenderD128 | DriCard0.

#[export] Instance virtual_device_eq_dec : EqDecision VirtualDevice.
Proof. solve_decision. Defined.

Definition vd_host_handle (d : VirtualDevice) : Z :=
  match d with
  | DevNull => -1 | DevZero => -2 | Urandom => -3 | Full => -4 | Fb0 => -5 | Mice => -6 | DspDev => -7 | DriRenderD128 => -8 | DriCard0 => -9
  end.

Definition from_host_handle (h : Z) : option VirtualDevice :=
  if h =? -1 then Some DevNull else if h =? -2 then Some DevZero else if h =? -3 then Some Urandom else if h =? -4 then Some Full
  else if h =? -5 then Some Fb0 else if h =? -6 then Some Mice else if h =? -7 then Some DspDev else if h =? -8 then Some DriRenderD128
  else if h =? -9 then Some DriCard0 else None.

Definition vd_ino (d : VirtualDevice) : Z := - vd_host_handle d.

(** [FB0_OWNER], [MICE_OWNER] and the mouse queue, [DSP_OWNER] and the sound
    device. *)
Record Devices := mkDevices { FB0_OWNER : Z; MICE_OWNER : Z; dv_mouse : bytes; DSP_OWNER : Z; dv_dsp : Dsp }.

Definition devices_new : Devices := mkDevices (-1) (-1) [] (-1) dsp_new.

(** [compare_exchange(-1, pid)]. *)
Definition acquire (owner pid : Z) : result unit Errno * Z :=
  if negb (owner =? -1) && negb (owner =? as_i32 pid) then (Err EBUSY, owner)
  else (Ok tt, if owner =? -1 then as_i32 pid else owner).

Definition acquire_fb0_or_busy (pid : Z) (d : Devices) : result unit Errno * Devices :=
  let '(r, o) := acquire (FB0_OWNER d) pid in (r, mkDevices o (MICE_OWNER d) (dv_mouse d) (DSP_OWNER d) (dv_dsp d)).
Definition acquire_mice_or_busy (pid : Z) (d : Devices) : result unit Errno * Devices :=
  let '(r, o) := acquire (MICE_OWNER d) pid in (r, mkDevices (FB0_OWNER d) o (dv_mouse d) (DSP_OWNER d) (dv_dsp d)).
Definition acquire_dsp_or_busy (pid : Z) (d : Devices) : result unit Errno * Devices :=
  let '(r, o) := acquire (DSP_OWNER d) pid in (r, mkDevices (FB0_OWNER d) (MICE_OWNER d) (dv_mouse d) o (dv_dsp d)).

Definition maybe_release_fb0 (pid : Z) (d : Devices) : Devices :=
  if FB0_OWNER d =? as_i32 pid then mkDevices (-1) (MICE_OWNER d) (dv_mouse d) (DSP_OWNER d) (dv_dsp d) else d.
Definition maybe_release_mice (pid : Z) (d : Devices) : Devices :=
  if MICE_OWNER d =? as_i32 pid then mkDevices (FB0_OWNER d) (-1) [] (DSP_OWNER d) (dv_dsp d) else d.
Definition maybe_release_dsp (pid : Z) (d : Devices) : Devices :=
  if DSP_OWNER d =? as_i32 pid then mkDevices (FB0_OWNER d) (MICE_OWNER d) (dv_mouse d) (-1) (dsp_reset (dv_dsp d)) else d.

(** ** The mouse queue holds the newest packets *)

Inductive MouseOp := Inject (dx dy buttons : Z) | ReadPackets (n : nat).

(** What the operations answer and leave, run by the code. *)
Fixpoint run_mouse (ops : list MouseOp) (q : bytes) : option (bytes * bytes) :=
  match ops with
  | [] => Some ([], q)
  | Inject dx dy b :: ops' => q ← inject_event dx dy b q; run_mouse ops' q
  | ReadPackets n :: ops' =>
      let '(out, q) := read_into (n * PACKET_LEN) q in
      '(outs, q) ← run_mouse ops' q; Some (out ++ outs, q)
  end.

(** The same over a list of packets, the newest [MAX_PACKETS] of those not read. *)
Definition newest {A} (n : nat) (l : list A) : list A := drop (length l - n) l.

Fixpoint spec_mouse (ops : list MouseOp) (ps : list bytes) : list bytes * list bytes :=
  match ops with
  | [] => ([], ps)
  | Inject dx dy b :: ops' => spec_mouse ops' (newest MAX_PACKETS (ps ++ [packet dx dy b]))
  | ReadPackets n :: ops' => let '(outs, ps') := spec_mouse ops' (drop n ps) in (take n ps ++ outs, ps')
  end.

Definition packets_ok (ps : list bytes) : Prop := (length ps <= MAX_PACKETS)%nat /\ Forall (fun p => length p = PACKET_LEN) ps.

Lemma max_packets : Z.of_nat MAX_PACKETS = 4096.
Proof. unfold MAX_PACKETS. lia. Qed.

Lemma concat_blocks (n : nat) (ps : list bytes) k :
  Forall (fun p => length p = n) ps -> drop (k * n) (concat ps) = concat (drop k ps) /\ take (k * n) (concat ps) = concat (take k ps).
Proof.
  intros Hp. revert k. induction Hp as [|p ps Hp _ IH]; intros k; [cbn [concat]; by rewrite !drop_nil, !take_nil|]. destruct k as [|k]; [done|].
  destruct (IH k) as [H1 H2]. cbn [concat Nat.mul drop take]. rewrite drop_app, take_app, Hp.
  replace (n + k * n - n)%nat with (k * n)%nat by lia. rewrite H1, H2, drop_ge, take_ge by lia. done.
Qed.

Lemma length_blocks (n : nat) (ps : list bytes) : Forall (fun p => length p = n) ps -> length (concat ps) = (length ps * n)%nat.
Proof. induction 1 as [|p ps Hp _ IH]; [done|]. cbn [concat length]. rewrite length_app, IH, Hp. lia. Qed.

Lemma drop_oldest_room fuel q : Z.of_nat (length q + PACKET_LEN) <= MAX_QUEUED_BYTES -> drop_oldest (S fuel) q = Some q.
Proof. intros Hq. cbn [drop_oldest]. by rewrite (proj2 (Z.ltb_ge _ _)) by lia. Qed.

(** One event: with [MAX_PACKETS] packets in the queue the oldest one goes. *)
Lemma inject_refines dx dy b ps :
  packets_ok ps ->
  inject_event dx dy b (concat ps) = Some (concat (newest MAX_PACKETS (ps ++ [packet dx dy b]))) /\
  packets_ok (newest MAX_PACKETS (ps ++ [packet dx dy b])).
Proof.
  intros [Hl Hp]. pose proof max_packets as Hm. pose proof (length_blocks _ _ Hp) as Hc. unfold PACKET_LEN in Hc. split.
  - unfold inject_event, newest. rewrite length_app. cbn [length]. destruct (decide (length ps = MAX_PACKETS)) as [He|Hn].
    + destruct ps as [|p ps]; [cbn in He; lia|]. assert (exists f, length (concat (p :: ps)) = S f) as [f Ef].
      { destruct (length (concat (p :: ps))) as [|f]; [cbn [length] in *; lia|by exists f]. }
      cbn [drop_oldest]. rewrite (proj2 (Z.ltb_lt _ _)) by (unfold MAX_QUEUED_BYTES, PACKET_LEN; lia).
      destruct (concat_blocks _ _ 1 Hp) as [Hd _]. rewrite Nat.mul_1_l in Hd. rewrite Hd, Ef. cbn [drop]. rewrite !drop_0.
      apply Forall_cons in Hp as [Hp1 Hp]. pose proof (length_blocks _ _ Hp) as Hc'. rewrite drop_oldest_room by (unfold MAX_QUEUED_BYTES, PACKET_LEN in *; cbn [length] in *; lia).
      cbn [mbind option_bind length] in *. replace (S (length ps) + 1 - MAX_PACKETS)%nat with 1%nat by lia. cbn [app drop]. rewrite drop_0, concat_app. cbn [concat]. by rewrite app_nil_r.
    + rewrite drop_oldest_room by (unfold MAX_QUEUED_BYTES, PACKET_LEN; lia). cbn [mbind option_bind].
      replace (length ps + 1 - MAX_PACKETS)%nat with 0%nat by lia. rewrite drop_0, concat_app. cbn [concat]. by rewrite app_nil_r.
  - unfold newest. split; [rewrite length_drop, length_app; cbn [length]; lia|]. apply Forall_drop, Forall_app. split; [done|]. by apply Forall_singleton.
Qed.

(** The mouse queue is the list of the newest 4096 events not yet read, each a
    whole packet.  For every sequence of injected events and reads of whole
    packets, the bytes the reads return and the bytes left are exactly those
    packets in the order of the events, so an overflow loses the oldest events
    only and never tears one; the room-making loop always ends. *)
Theorem mouse_keeps_newest_packets ops ps :
  packets_ok ps ->
  let '(outs, ps') := spec_mouse ops ps in
  run_mouse ops (concat ps) = Some (concat outs, concat ps') /\ packets_ok ps'.
Proof.
  revert ps. induction ops as [|[dx dy b|n] ops IH]; intros ps Hps; cbn [spec_mouse run_mouse]; [done|..].
  - destruct (inject_refines dx dy b ps Hps) as [-> H']. cbn [mbind option_bind]. by apply IH.
  - unfold read_into. destruct (concat_blocks PACKET_LEN ps n) as [-> ->]; [apply Hps|].
    assert (packets_ok (drop n ps)) as Hd by (destruct Hps; split; [rewrite length_drop; lia|by apply Forall_drop]). specialize (IH _ Hd).
    destruct (spec_mouse ops (drop n ps)) as [outs ps']. destruct IH as [-> H']. cbn [mbind option_bind]. by rewrite concat_app.
Qed.

Lemma mouse_keeps_newest_packets_witness :
  packets_ok [] /\ run_mouse [Inject 5 (-7) 1; Inject 500 (-500) 2; ReadPackets 1] [] = Some ([0x29; 5; 249], [0x2a; 127; 128]).
Proof.
  split; [split; [cbn; lia|constructor]|].
  exact (proj1 (mouse_keeps_newest_packets [Inject 5 (-7) 1; Inject 500 (-500) 2; ReadPackets 1] [] ltac:(split; [cbn; lia|constructor]))).
Defined.

(** What a reader decodes: the movement, clamped, with its sign repeated in the
    first byte, and the buttons. *)
Definition as_i8 (b : Z) : Z := (b + 128) mod 256 - 128.

Lemma packet_decodes dx dy buttons :
  exists b0 b1 b2, packet dx dy buttons = [b0; b1; b2] /\ as_i8 b1 = clamp_i8 dx /\ as_i8 b2 = clamp_i8 dy /\
    Z.testbit b0 4 = (dx <? 0) /\ Z.testbit b0 5 = (dy <? 0) /\ Z.land b0 7 = Z.land buttons 7 /\ Z.testbit b0 3 = true.
Proof.
  unfold packet. do 3 eexists. split; [done|]. assert (forall v, as_i8 (i8_as_u8 (clamp_i8 v)) = clamp_i8 v) as Hd.
  { intros v. unfold as_i8, i8_as_u8. assert (-128 <= clamp_i8 v <= 127) by (unfold clamp_i8; lia). rewrite Zplus_mod_idemp_l, Z.mod_small; lia. }
  assert (forall v, (clamp_i8 v <? 0) = (v <? 0)) as Hs by (intros v; unfold clamp_i8; destruct (Z.ltb_spec v 0); [apply Z.ltb_lt|apply Z.ltb_ge]; lia).
  rewrite !Hd, !Hs. split_and!; try done.
  - destruct (dx <? 0), (dy <? 0); rewrite ?Z.lor_spec, ?Z.land_spec; cbn; by rewrite ?andb_false_r.
  - destruct (dx <? 0), (dy <? 0); rewrite ?Z.lor_spec, ?Z.land_spec; cbn; by rewrite ?andb_false_r.
  - destruct (dx <? 0), (dy <? 0); rewrite ?Z.land_lor_distr_l, <- ?Z.land_assoc; cbn; by rewrite ?Z.lor_0_r.
  - destruct (dx <? 0), (dy <? 0); rewrite ?Z.lor_spec; done.
Qed.

(** ** The sound ring holds the newest whole frames *)

Inductive DspOp := WriteFrames (fs : list bytes) | DrainBytes (want : nat) | DspReset.

Fixpoint run_dsp (ops : list DspOp) (d : Dsp) : option (bytes * Dsp) :=
  match ops with
  | [] => Some ([], d)
  | WriteFrames fs :: ops' => d ← write_pcm (concat fs) d; run_dsp ops' d
  | DrainBytes want :: ops' => let '(out, d) := drain_into want d in '(outs, d) ← run_dsp ops' d; Some (out ++ outs, d)
  | DspReset :: ops' => run_dsp ops' (dsp_reset d)
  end.

(** The same over a list of frames of [frame] bytes. *)
Definition max_frames (frame : nat) : nat := Z.to_nat (MAX_RING_BYTES / Z.of_nat frame).

Fixpoint spec_dsp (frame : nat) (ops : list DspOp) (fs : list bytes) : list bytes * list bytes :=
  match ops with
  | [] => ([], fs)
  | WriteFrames gs :: ops' => spec_dsp frame ops' (newest (max_frames frame) (fs ++ gs))
  | DrainBytes want :: ops' =>
      let '(outs, fs') := spec_dsp frame ops' (drop (want / frame) fs) in (take (want / frame) fs ++ outs, fs')
  | DspReset :: ops' => spec_dsp frame ops' []
  end.

Definition frames_ok (frame : nat) (fs : list bytes) : Prop := (length fs <= max_frames frame)%nat /\ Forall (fun f => length f = frame) fs.
Definition dsp_op_ok (frame : nat) (op : DspOp) : Prop := match op with WriteFrames fs => frames_ok frame fs | _ => True end.

Definition stereo_or_mono (d : Dsp) : Prop := CHANNELS d = 1 \/ CHANNELS d = 2.

Lemma frame_cases d : stereo_or_mono d -> (frame_bytes d = 2%nat \/ frame_bytes d = 4%nat) /\ Z.of_nat (max_frames (frame_bytes d) * frame_bytes d) = MAX_RING_BYTES.
Proof.
  unfold frame_bytes, max_frames, MAX_RING_BYTES. intros [-> | ->].
  - change (2 * Nat.max (Z.to_nat 1) 1)%nat with 2%nat. split; [by left|]. rewrite Nat2Z.inj_mul, Z2Nat.id; [done|]. by apply Z.div_pos.
  - change (2 * Nat.max (Z.to_nat 2) 1)%nat with 4%nat. split; [by right|]. rewrite Nat2Z.inj_mul, Z2Nat.id; [done|]. by apply Z.div_pos.
Qed.

(** Room for the data: as many oldest frames go as needed. *)
Lemma drop_frames_spec frame n fs fuel :
  (frame = 2 \/ frame = 4)%nat -> Z.of_nat (max_frames frame * frame) = MAX_RING_BYTES ->
  (n <= max_frames frame)%nat -> Forall (fun f => length f = frame) fs -> (length fs < fuel)%nat ->
  drop_frames fuel frame (n * frame) (concat fs) = Some (concat (drop (length fs + n - max_frames frame) fs)).
Proof.
  intros Hframe Hmax Hn Hfs. revert fuel. induction Hfs as [|f fs Hf Hfs IH]; intros [|fuel] Hfuel; [cbn in Hfuel; lia| |cbn in Hfuel; lia|]; cbn [drop_frames].
  - cbn [concat length Nat.add]. rewrite (proj2 (Z.ltb_ge _ _)) by nia. by rewrite drop_nil.
  - pose proof (length_blocks frame (f :: fs) ltac:(by constructor)) as Hl. rewrite Hl. cbn [length] in *.
    destruct (decide (S (length fs) + n <= max_frames frame)%nat) as [Hle|Hgt].
    + rewrite (proj2 (Z.ltb_ge _ _)) by nia. replace (S (length fs) + n - max_frames frame)%nat with 0%nat by lia. done.
    + rewrite (proj2 (Z.ltb_lt _ _)) by nia. replace (frame `min` (S (length fs) * frame))%nat with frame by lia. destruct (Nat.eqb_spec frame 0); [lia|].
      cbn [concat]. rewrite drop_app_length' by done. rewrite IH by lia. replace (S (length fs) + n - max_frames frame)%nat with (S (length fs + n - max_frames frame)) by lia. done.
Qed.

Lemma write_refines d fs gs :
  stereo_or_mono d -> RING d = concat fs -> Forall (fun f => length f = frame_bytes d) fs -> frames_ok (frame_bytes d) gs ->
  write_pcm (concat gs) d = Some (with_ring d (concat (newest (max_frames (frame_bytes d)) (fs ++ gs)))) /\
  frames_ok (frame_bytes d) (newest (max_frames (frame_bytes d)) (fs ++ gs)).
Proof.
  intros Hd Hr Hfs [Hn Hgs]. destruct (frame_cases d Hd) as [Hframe Hmax]. unfold write_pcm. rewrite Hr. split.
  - rewrite (length_blocks _ gs Hgs), drop_frames_spec; [|done..|rewrite (length_blocks _ fs Hfs); destruct Hframe as [-> | ->]; lia].
    cbn [mbind option_bind]. unfold newest. rewrite length_app, drop_app, concat_app. replace (_ - length fs)%nat with 0%nat by lia. done.
  - unfold newest. split; [rewrite length_drop; lia|]. apply Forall_drop, Forall_app. done.
Qed.

Lemma drain_refines d fs want :
  stereo_or_mono d -> RING d = concat fs -> Forall (fun f => length f = frame_bytes d) fs ->
  drain_into want d = (concat (take (want / frame_bytes d) fs), with_ring d (concat (drop (want / frame_bytes d) fs))).
Proof.
  intros Hd Hr Hfs. destruct (frame_cases d Hd) as [Hframe _]. unfold drain_into. rewrite Hr, (length_blocks _ fs Hfs).
  assert ((want `min` (length fs * frame_bytes d)) / frame_bytes d = (want / frame_bytes d) `min` length fs)%nat as ->.
  { destruct (Nat.min_spec want (length fs * frame_bytes d)) as [[Hlt ->]|[Hge ->]].
    - rewrite Nat.min_l; [done|]. apply Nat.lt_le_incl, Nat.Div0.div_lt_upper_bound. lia.
    - rewrite Nat.div_mul by lia. rewrite Nat.min_r; [done|]. apply Nat.div_le_lower_bound; lia. }
  destruct (concat_blocks _ _ ((want / frame_bytes d) `min` length fs) Hfs) as [-> ->].
  destruct (Nat.min_spec (want / frame_bytes d) (length fs)) as [[_ ->]|[Hge ->]]; [done|]. by rewrite !take_ge, !drop_ge by lia.
Qed.

(** The sound ring holds the newest frames not yet drained, each whole.  For
    every sequence of writes of whole frames that fit the ring, drains into buffers
    of any size and resets, the bytes the host gets and the bytes left are exactly
    those frames in the order they were written, and never more than the ring's
    capacity; the room-making loop always ends. *)
Theorem dsp_keeps_newest_frames ops d fs :
  stereo_or_mono d -> RING d = concat fs -> frames_ok (frame_bytes d) fs -> Forall (dsp_op_ok (frame_bytes d)) ops ->
  let '(outs, fs') := spec_dsp (frame_bytes d) ops fs in
  run_dsp ops d = Some (concat outs, with_ring d (concat fs')) /\ frames_ok (frame_bytes d) fs' /\
  Z.of_nat (pending_bytes (with_ring d (concat fs'))) <= MAX_RING_BYTES.
Proof.
  intros Hd Hr Hfs Hops. revert d fs Hd Hr Hfs Hops. induction ops as [|[gs|want|] ops IH]; intros d fs Hd Hr Hfs Hops; cbn [spec_dsp run_dsp].
  - split; [destruct d; cbn in *; by subst|]. split; [done|]. destruct (frame_cases d Hd) as [_ Hmax], Hfs as [Hl Hfs].
    unfold pending_bytes. cbn [with_ring RING]. rewrite (length_blocks _ _ Hfs), <- Hmax. apply inj_le, Nat.mul_le_mono_r, Hl.
  - apply Forall_cons in Hops as [Hop Hops]. destruct (write_refines d fs gs Hd Hr (proj2 Hfs) Hop) as [-> H']. cbn [mbind option_bind].
    exact (IH (with_ring d _) _ Hd eq_refl H' Hops).
  - apply Forall_cons in Hops as [_ Hops]. rewrite (drain_refines d fs want Hd Hr (proj2 Hfs)).
    assert (frames_ok (frame_bytes d) (drop (want / frame_bytes d) fs)) as H' by (destruct Hfs; split; [rewrite length_drop; lia|by apply Forall_drop]).
    specialize (IH (with_ring d (concat (drop (want / frame_bytes d) fs))) _ Hd eq_refl H' Hops). change (frame_bytes (with_ring d _)) with (frame_bytes d) in IH.
    destruct (spec_dsp (frame_bytes d) ops _) as [outs fs']. destruct IH as (-> & H1 & H2). cbn [mbind option_bind]. by rewrite concat_app.
  - apply Forall_cons in Hops as [_ Hops]. apply (IH (dsp_reset d) []); [done|done|split; [cbn; lia|constructor]|done].
Qed.

Lemma max_frames_stereo : (2 <= max_frames (frame_bytes dsp_new))%nat.
Proof. apply Nat2Z.inj_le. unfold max_frames. rewrite Z2Nat.id; done. Qed.

Lemma dsp_keeps_newest_frames_witness :
  stereo_or_mono dsp_new /\
  exists d, run_dsp [WriteFrames [[1; 2; 3; 4]; [5; 6; 7; 8]]; DrainBytes 7] dsp_new = Some ([1; 2; 3; 4], d) /\ RING d = [5; 6; 7; 8].
Proof.
  split; [by right|]. exists (with_ring dsp_new [5; 6; 7; 8]). split; [|reflexivity].
  refine (proj1 (dsp_keeps_newest_frames [WriteFrames [[1; 2; 3; 4]; [5; 6; 7; 8]]; DrainBytes 7] dsp_new [] (or_intror eq_refl) eq_refl _ _)).
  - split; [apply Nat.le_0_l|constructor].
  - constructor; [split; [exact max_frames_stereo|by repeat constructor]|by repeat constructor].
Defined.

(** ** Ownership *)

(** A device has one owner, who keeps it until it is released. *)
Lemma acquire_exclusive owner pid :
  0 <= pid < 2 ^ 31 ->
  acquire owner pid = if decide (owner = -1 \/ owner = pid) then (Ok tt, pid) else (Err EBUSY, owner).
Proof.
  intros Hp. unfold acquire. rewrite as_i32_id by lia. destruct (Z.eqb_spec owner (-1)), (Z.eqb_spec owner pid); cbn; case_decide; intuition congruence.
Qed.

(** ** Behaviour worth knowing *)

(** A read of a single byte leaves the queue in the middle of a packet; the next
    overflow then drops three bytes across two packets, not the oldest packet. *)
Example overflow_tears_packet_after_short_read :
  let q := concat (replicate MAX_PACKETS [8; 1; 2]) in
  match inject_event 0 0 0 (read_into 1 q).2 with Some q' => take 3 q' = [1; 2; 8] | None => False end.
Proof. vm_compute. done. Qed.

(** One write longer than the ring is queued whole, over the capacity. *)
Example long_write_exceeds_ring :
  match write_pcm (replicate (Z.to_nat 262148) 0) dsp_new with Some d => Z.of_nat (pending_bytes d) =? MAX_RING_BYTES + 4 | None => false end = true.
Proof. vm_compute. reflexivity. Qed.
