(* ===== verification/Codec.v ===== *)
(** * The binary writer and reader of process state ([crates/kernel/src/fork.rs])

    [Writer] fills a caller's buffer from the front and fails with ENOMEM when a
    field does not fit; [Reader] consumes a buffer and fails with EINVAL when a
    field is missing.  A serializer is a function on [Writer] states; a
    deserializer is a function on the reader's position and on the two global
    tables it changes as it goes (the buffer-object registry and the identity
    counter), which keep their changes when a later field is refused.

    The logic of the file relates the two sides: [codec n w m g a] says that the
    writer [w] produces some image of at least [n] bytes (and fails with ENOMEM
    exactly when the buffer is too short for it), from which the reader [m]
    recovers [a], consuming all of it and nothing behind it, with the effect
    [g] on the global tables.  Its rules follow the code field by field. *)

From S2P Require Import Prelude Bytes Abi Dri.

(** ** Writer *)

Record Writer := mkW { w_buf : bytes; w_pos : nat }.

Definition W := Writer -> kresult Writer.

Definition w_remaining (w : Writer) : nat := length (w_buf w) - w_pos w.

Definition write_bytes (data : bytes) : W := fun w =>
  if (w_remaining w <? length data)%nat then Err ENOMEM
  else Ok (mkW (splice (w_pos w) data (w_buf w)) (w_pos w + length data)).

(** [to_le_bytes] of the other widths. *)
Definition to_le_bytes16 (v : Z) : bytes := [v mod 256; (v / 2 ^ 8) mod 256].
Definition to_le_bytes64 (v : Z) : bytes := to_le_bytes (v mod 2 ^ 32) ++ to_le_bytes (v / 2 ^ 32).

Definition write_u8 (v : Z) : W := write_bytes [v].
Definition write_u16 (v : Z) : W := write_bytes (to_le_bytes16 v).
Definition write_u32 (v : Z) : W := write_bytes (to_le_bytes v).
Definition write_i32 (v : Z) : W := write_bytes (to_le_bytes (as_u32 v)).
Definition write_u64 (v : Z) : W := write_bytes (to_le_bytes64 v).
Definition write_i64 (v : Z) : W := write_bytes (to_le_bytes64 (v mod 2 ^ 64)).

Definition patch_u32 (off : nat) (v : Z) (w : Writer) : Writer := mkW (splice off (to_le_bytes v) (w_buf w)) (w_pos w).

(** [a?; b], the loop over a sequence, [Ok(())] and an early [return Err(e)]. *)
Definition w_seq (a b : W) : W := fun w => let? w' := a w in b w'.
Definition w_skip : W := fun w => Ok w.
Definition w_fail (e : Errno) : W := fun _ => Err e.

Notation "a ;> b" := (w_seq a b) (at level 95, right associativity, format "a  ;>  '//' b") : kandelo_scope.

Fixpoint w_for {A} (l : list A) (f : A -> W) : W :=
  match l with
  | [] => w_skip
  | x :: l' => f x ;> w_for l' f
  end.

(** ** Reader *)

(** The global tables a deserializer changes. *)
Record globals := mkGlobals { g_registry : BoRegistry; g_last_ofd_id : Z }.

Record Reader := mkR { r_buf : bytes; r_pos : nat; r_globals : globals }.

Inductive outcome (A : Type) := Ret (a : A) | Refused (e : Errno) | Panic.
Arguments Ret {A} a.
Arguments Refused {A} e.
Arguments Panic {A}.

Definition R (A : Type) := Reader -> outcome A * Reader.

Definition r_remaining (r : Reader) : nat := length (r_buf r) - r_pos r.

Definition r_ret {A} (a : A) : R A := fun r => (Ret a, r).
Definition r_fail {A} (e : Errno) : R A := fun r => (Refused e, r).
Definition r_panic {A} : R A := fun r => (Panic, r).

Definition r_bind {A B} (m : R A) (k : A -> R B) : R B := fun r =>
  match m r with
  | (Ret a, r') => k a r'
  | (Refused e, r') => (Refused e, r')
  | (Panic, r') => (Panic, r')
  end.

Notation "'let!' x ':=' m 'in' k" := (r_bind m (fun x => k))
  (at level 10, x pattern, m at level 100, k at level 200, format "'[v' 'let!'  x  ':='  m  'in' '/' k ']'") : kandelo_scope.

Definition read_bytes (len : nat) : R bytes := fun r =>
  if (r_remaining r <? len)%nat then (Refused EINVAL, r)
  else (Ret (take len (drop (r_pos r) (r_buf r))), mkR (r_buf r) (r_pos r + len) (r_globals r)).

Definition read_bounded_bytes (len max : nat) : R bytes := if (max <? len)%nat then r_fail EINVAL else read_bytes len.

Definition from_le_bytes16 (b : bytes) : Z := match b with [b0; b1] => b0 + b1 * 2 ^ 8 | _ => 0 end.
Definition from_le_bytes_u64 (b : bytes) : Z := from_le_bytes (take 4 b) + 2 ^ 32 * from_le_bytes (drop 4 b).

Definition read_u8 : R Z := let! b := read_bytes 1 in r_ret (nth 0 b 0).
Definition read_u16 : R Z := let! b := read_bytes 2 in r_ret (from_le_bytes16 b).
Definition read_u32 : R Z := let! b := read_bytes 4 in r_ret (from_le_bytes b).
Definition read_i32 : R Z := let! b := read_bytes 4 in r_ret (as_i32 (from_le_bytes b)).
Definition read_u64 : R Z := let! b := read_bytes 8 in r_ret (from_le_bytes_u64 b).
Definition read_i64 : R Z := let! b := read_bytes 8 in r_ret (as_i64 (from_le_bytes_u64 b)).

(** [read_u32()? as usize], an index or a length. *)
Definition read_usize : R nat := let! v := read_u32 in r_ret (Z.to_nat v).

(** [.unwrap_or(d)]: the position stays where a failed read left it. *)
Definition unwrap_or {A} (m : R A) (d : A) : R A := fun r =>
  match m r with
  | (Refused _, r') => (Ret d, r')
  | x => x
  end.

(** [if cond { return Err(EINVAL) }]. *)
Definition r_guard (ok : bool) : R unit := if ok then r_ret tt else r_fail EINVAL.

(** [if r.remaining() < n { return Err(EINVAL) }]. *)
Definition r_need (n : nat) : R unit := fun r => if (r_remaining r <? n)%nat then (Refused EINVAL, r) else (Ret tt, r).

(** [if r.remaining() >= n { m } else { d }]. *)
Definition r_if_remaining {A} (n : nat) (m : R A) (d : A) : R A := fun r =>
  if (n <=? r_remaining r)%nat then m r else (Ret d, r).

(** [for _ in 0..n { acc = body(acc)? }]. *)
Fixpoint r_fold {A} (n : nat) (body : A -> R A) (acc : A) : R A :=
  match n with
  | O => r_ret acc
  | S n' => let! acc' := body acc in r_fold n' body acc'
  end.

(** [for _ in 0..n { v.push(m()?) }] on an empty vector. *)
Definition r_vec {A} (n : nat) (m : R A) : R (list A) := r_fold n (fun acc => let! x := m in r_ret (vec_push acc x)) [].

Definition r_global {A} (f : globals -> A * globals) : R A := fun r =>
  let '(a, g) := f (r_globals r) in (Ret a, mkR (r_buf r) (r_pos r) g).

Definition write_bounded_len (len max : nat) : W :=
  if (max <? len)%nat || (u32_max <? Z.of_nat len) then w_fail EINVAL else write_u32 (Z.of_nat len).

Definition read_bounded_count (max : nat) : R nat :=
  let! count := read_usize in
  let! _ := r_guard (count <=? max)%nat in
  r_ret count.

(** ** Relating the two sides *)

(** [w] writes [out], or fails with ENOMEM when it does not fit. *)
Definition emits (w : W) (out : bytes) : Prop :=
  forall buf pos, (pos <= length buf)%nat ->
  w (mkW buf pos) =
    if (pos + length out <=? length buf)%nat then Ok (mkW (splice pos out buf) (pos + length out)) else Err ENOMEM.

(** [m] recovers [a] from [out], and changes the global tables by [g]. *)
Definition reads {A} (m : R A) (out : bytes) (g : globals -> globals) (a : A) : Prop :=
  forall pre post s,
  m (mkR (pre ++ out ++ post) (length pre) s) = (Ret a, mkR (pre ++ out ++ post) (length pre + length out) (g s)).

Definition codec {A} (n : nat) (w : W) (m : R A) (g : globals -> globals) (a : A) : Prop :=
  exists out, (n <= length out)%nat /\ emits w out /\ reads m out g a.

(** Without an effect on the global tables. *)
Abbreviation pure_codec n w m a := (codec n w m id a).

(** *** Writing *)

Lemma splice_splice pos a b buf :
  (pos + length a + length b <= length buf)%nat ->
  splice (pos + length a) b (splice pos a buf) = splice pos (a ++ b) buf.
Proof.
  intros Hl. apply list_eq. intros j.
  rewrite !splice_lookup by (rewrite ?length_splice, ?length_app; lia). rewrite length_app.
  repeat case_cmp; simpl; try lia; rewrite ?lookup_app_r, ?lookup_app_l by lia; try done; f_equal; lia.
Qed.

Lemma splice_nil pos buf : splice pos [] buf = buf.
Proof. unfold splice. simpl. by rewrite Nat.add_0_r, take_drop. Qed.

Lemma emits_bytes data : emits (write_bytes data) data.
Proof. intros buf pos Hp. unfold write_bytes, w_remaining. simpl. repeat case_cmp; try done; lia. Qed.

Lemma emits_seq a b oa ob : emits a oa -> emits b ob -> emits (a ;> b) (oa ++ ob).
Proof.
  intros Ha Hb buf pos Hp. unfold w_seq. rewrite (Ha _ _ Hp), length_app. destruct (Nat.leb_spec (pos + length oa) (length buf)).
  - rewrite Hb by (rewrite length_splice; lia). rewrite length_splice by lia.
    rewrite Nat.add_assoc. case_cmp; [|done]. by rewrite splice_splice by lia.
  - rewrite (proj2 (Nat.leb_gt _ _)) by lia. done.
Qed.

Lemma emits_skip : emits w_skip [].
Proof. intros buf pos Hp. unfold w_skip. simpl. rewrite Nat.add_0_r, splice_nil, (proj2 (Nat.leb_le _ _)) by lia. done. Qed.

(** *** Reading *)

Lemma reads_bytes data len : len = length data -> reads (read_bytes len) data id data.
Proof.
  intros -> pre post s. unfold read_bytes, r_remaining. simpl. rewrite !length_app. case_cmp; [lia|].
  by rewrite drop_app_length, take_app_length.
Qed.

Lemma reads_bind {A B} (m : R A) (k : A -> R B) o1 o2 g1 g2 a b :
  reads m o1 g1 a -> reads (k a) o2 g2 b -> reads (r_bind m k) (o1 ++ o2) (g2 ∘ g1) b.
Proof.
  intros H1 H2 pre post s. unfold r_bind. rewrite <- (app_assoc o1), H1. specialize (H2 (pre ++ o1) post (g1 s)).
  rewrite length_app, <- app_assoc in H2. rewrite H2, length_app. simpl. by rewrite Nat.add_assoc.
Qed.

Lemma reads_ret {A} (a : A) : reads (r_ret a) [] id a.
Proof. intros pre post s. unfold r_ret. simpl. by rewrite Nat.add_0_r. Qed.

(** *** Both *)

Lemma codec_seq {A B} n1 n2 w1 w2 (m : R A) (k : A -> R B) g1 g2 a b :
  codec n1 w1 m g1 a -> codec n2 w2 (k a) g2 b -> codec (n1 + n2) (w1 ;> w2) (r_bind m k) (g2 ∘ g1) b.
Proof.
  intros (o1 & Hn1 & He1 & Hr1) (o2 & Hn2 & He2 & Hr2). exists (o1 ++ o2).
  rewrite length_app. split; [lia|]. split; [by apply emits_seq|by eapply reads_bind].
Qed.

Lemma codec_weaken {A} n n' w (m : R A) g g' a :
  codec n w m g a -> (n' <= n)%nat -> (forall s, g s = g' s) -> codec n' w m g' a.
Proof.
  intros (o & Hn & He & Hr) Hle Hg. exists o. split; [lia|]. split; [done|].
  intros pre post s. by rewrite <- Hg.
Qed.

(** The last field: the reader goes on with computations that read nothing. *)
Lemma codec_last {A B} n w (m : R A) (k : A -> R B) g a b :
  codec n w m g a -> (forall r, k a r = (Ret b, r)) -> codec n w (r_bind m k) g b.
Proof.
  intros (o & Hn & He & Hr) Hk. exists o. split; [done|]. split; [done|].
  intros pre post s. unfold r_bind. rewrite Hr. apply Hk.
Qed.

(** Reading nothing before a field: guards, [let]s, computations. *)
Lemma codec_pre {A B} n w (m : R A) (k : A -> R B) g a b :
  (forall r, m r = (Ret a, r)) -> codec n w (k a) g b -> codec n w (r_bind m k) g b.
Proof.
  intros Hm (o & Hn & He & Hr). exists o. split; [done|]. split; [done|].
  intros pre post s. unfold r_bind. rewrite Hm. apply Hr.
Qed.

Lemma codec_guard {B} n w b (k : unit -> R B) g v :
  b = true -> codec n w (k tt) g v -> codec n w (r_bind (r_guard b) k) g v.
Proof. intros ->. by apply codec_pre. Qed.

Lemma codec_need {B} n n' w (k : unit -> R B) g v :
  codec n w (k tt) g v -> (n' <= n)%nat -> codec n w (r_bind (r_need n') k) g v.
Proof.
  intros (o & Hn & He & Hr) Hle. exists o. split; [done|]. split; [done|].
  intros pre post s. unfold r_bind, r_need, r_remaining. simpl. rewrite !length_app. case_cmp; [lia|]. apply Hr.
Qed.

Lemma codec_if_remaining {A} n n' w (m : R A) d g a :
  codec n w m g a -> (n' <= n)%nat -> codec n w (r_if_remaining n' m d) g a.
Proof.
  intros (o & Hn & He & Hr) Hle. exists o. split; [done|]. split; [done|].
  intros pre post s. unfold r_if_remaining, r_remaining. simpl. rewrite !length_app. case_cmp; [|lia]. apply Hr.
Qed.

Lemma codec_unwrap {A} n w (m : R A) d g a : codec n w m g a -> codec n w (unwrap_or m d) g a.
Proof.
  intros (o & Hn & He & Hr). exists o. split; [done|]. split; [done|]. intros pre post s. unfold unwrap_or. by rewrite Hr.
Qed.

Lemma codec_skip {A} (a : A) : pure_codec 0 w_skip (r_ret a) a.
Proof. exists []. split; [simpl; lia|]. split; [apply emits_skip|apply reads_ret]. Qed.

Lemma codec_global {A B} n w (f : globals -> A * globals) (k : A -> R B) g g' a b :
  (forall s, f s = (a, g' s)) -> codec n w (k a) g b -> codec n w (r_bind (r_global f) k) (g ∘ g') b.
Proof.
  intros Hf (o & Hn & He & Hr). exists o. split; [done|]. split; [done|].
  intros pre post s. unfold r_bind, r_global. simpl. rewrite Hf. by rewrite Hr.
Qed.

(** Loops. *)
Fixpoint effects {A} (ge : A -> globals -> globals) (l : list A) (s : globals) : globals :=
  match l with [] => s | x :: l' => effects ge l' (ge x s) end.

Lemma codec_fold {A B} n (l : list A) (f : A -> W) (body : B -> R B) (ge : A -> globals -> globals) (step : B -> A -> B) acc :
  (forall x b, x ∈ l -> codec n (f x) (body b) (ge x) (step b x)) ->
  codec (n * length l) (w_for l f) (r_fold (length l) body acc) (effects ge l) (fold_left step l acc).
Proof.
  revert acc. induction l as [|x l IH]; intros acc Hl; simpl.
  - rewrite Nat.mul_0_r. apply (codec_weaken 0 0 _ _ id); [apply codec_skip|lia|done].
  - eapply codec_weaken; [eapply codec_seq; [apply Hl; constructor|apply IH; intros; apply Hl; by constructor]|lia|done].
Qed.

Lemma effects_id {A} (l : list A) s : effects (fun _ => id) l s = s.
Proof. revert s. induction l; simpl; done. Qed.

Lemma fold_push {A B} (v : A -> B) l acc : fold_left (fun b x => vec_push b (v x)) l acc = acc ++ (v <$> l).
Proof.
  revert acc. induction l as [|x l IH]; intros acc; simpl; [by rewrite app_nil_r|].
  rewrite IH. unfold vec_push. by rewrite <- app_assoc.
Qed.

Lemma codec_vec {A B} n (l : list A) (f : A -> W) (m : R B) (v : A -> B) :
  (forall x, x ∈ l -> pure_codec n (f x) m (v x)) ->
  pure_codec (n * length l) (w_for l f) (r_vec (length l) m) (v <$> l).
Proof.
  intros Hl. unfold r_vec. pose proof (fold_push v l []) as Hp. simpl in Hp. rewrite <- Hp.
  eapply codec_weaken; [apply (codec_fold n) with (ge := fun _ => id)|lia|apply effects_id].
  intros x b Hx. eapply codec_last; [by apply Hl|done].
Qed.

(** *** Fields *)

Definition is_u16 (v : Z) : Prop := 0 <= v < 2 ^ 16.
Definition is_i32 (v : Z) : Prop := - 2 ^ 31 <= v < 2 ^ 31.
Definition is_u64 (v : Z) : Prop := 0 <= v < 2 ^ 64.
Definition is_i64 (v : Z) : Prop := - 2 ^ 63 <= v < 2 ^ 63.

Lemma from_to_le16 v : is_u16 v -> from_le_bytes16 (to_le_bytes16 v) = v.
Proof.
  unfold is_u16. intros Hv. simpl. change (2 ^ 8) with 256. rewrite (Z.mod_small (v / 256)).
  - pose proof (Z.div_mod v 256). lia.
  - split; [apply Z.div_pos; lia|]. apply Z.div_lt_upper_bound; lia.
Qed.

Lemma from_to_le64 v : is_u64 v -> from_le_bytes_u64 (to_le_bytes64 v) = v.
Proof.
  unfold is_u64. intros Hv. unfold from_le_bytes_u64, to_le_bytes64.
  rewrite take_app_length', drop_app_length' by done.
  rewrite !from_to_le; unfold is_u32, u32_max.
  - pose proof (Z.div_mod v (2 ^ 32)). lia.
  - pose proof (Z.div_lt_upper_bound v (2 ^ 32) (2 ^ 32)). pose proof (Z.div_pos v (2 ^ 32)). lia.
  - pose proof (Z.mod_pos_bound v (2 ^ 32)). lia.
Qed.

Lemma as_u32_id v : is_u32 v -> as_u32 v = v.
Proof. unfold is_u32, u32_max, as_u32. intros. rewrite Z.mod_small; lia. Qed.

Lemma as_u32_range v : is_u32 (as_u32 v).
Proof. unfold is_u32, u32_max, as_u32. pose proof (Z.mod_pos_bound v (2 ^ 32)). lia. Qed.

Lemma as_i64_mod v : is_i64 v -> as_i64 (v mod 2 ^ 64) = v.
Proof. unfold is_i64, as_i64. intros Hv. rewrite Zplus_mod_idemp_l. rewrite Z.mod_small; lia. Qed.

Lemma codec_raw {A} data n (k : bytes -> R A) a :
  length data = n -> (forall r, k data r = (Ret a, r)) ->
  pure_codec n (write_bytes data) (let! b := read_bytes n in k b) a.
Proof.
  intros <- Hk. eapply codec_last; [|done]. exists data. split; [lia|].
  split; [apply emits_bytes|by apply reads_bytes].
Qed.

Lemma codec_bytes data n : length data = n -> pure_codec n (write_bytes data) (read_bytes n) data.
Proof. intros <-. exists data. split; [lia|]. split; [apply emits_bytes|by apply reads_bytes]. Qed.

Lemma codec_bounded data n max :
  length data = n -> (n <= max)%nat -> pure_codec n (write_bytes data) (read_bounded_bytes n max) data.
Proof. intros Hn Hm. unfold read_bounded_bytes. case_cmp; [lia|]. by apply codec_bytes. Qed.

Lemma codec_u8 v : pure_codec 1 (write_u8 v) read_u8 v.
Proof. by apply codec_raw. Qed.

Lemma codec_u16 v : is_u16 v -> pure_codec 2 (write_u16 v) read_u16 v.
Proof. intros Hv. apply codec_raw; [done|]. intros r. by rewrite from_to_le16. Qed.

Lemma codec_u32 v : is_u32 v -> pure_codec 4 (write_u32 v) read_u32 v.
Proof. intros Hv. apply codec_raw; [done|]. intros r. by rewrite from_to_le. Qed.

Lemma codec_i32 v : is_i32 v -> pure_codec 4 (write_i32 v) read_i32 v.
Proof.
  intros Hv. apply codec_raw; [done|]. intros r. rewrite from_to_le by apply as_u32_range. by rewrite as_i32_u32.
Qed.

Lemma codec_u64 v : is_u64 v -> pure_codec 8 (write_u64 v) read_u64 v.
Proof. intros Hv. apply codec_raw; [done|]. intros r. by rewrite from_to_le64. Qed.

Lemma codec_i64 v : is_i64 v -> pure_codec 8 (write_i64 v) read_i64 v.
Proof.
  intros Hv. apply codec_raw; [done|]. intros r. rewrite from_to_le64 by (unfold is_u64; apply Z.mod_pos_bound; lia).
  by rewrite as_i64_mod.
Qed.

(** An index or a length: [v as u32] on one side, [as usize] on the other. *)
Definition nat_u32 (i : nat) : Prop := Z.of_nat i <= u32_max.

Lemma codec_usize i : nat_u32 i -> pure_codec 4 (write_u32 (as_u32 (Z.of_nat i))) read_usize i.
Proof.
  intros Hi. unfold nat_u32 in Hi. assert (is_u32 (Z.of_nat i)) as Hu by (unfold is_u32; lia).
  rewrite as_u32_id by done. eapply codec_last; [by apply codec_u32|]. intros r. by rewrite Nat2Z.id.
Qed.

Lemma codec_bounded_count len max :
  (len <= max)%nat -> nat_u32 max -> pure_codec 4 (write_bounded_len len max) (read_bounded_count max) len.
Proof.
  unfold nat_u32. intros Hl Hm. unfold write_bounded_len. case_cmp; [lia|]. case_cmp; [lia|]. simpl.
  unfold read_bounded_count. rewrite <- (as_u32_id (Z.of_nat len)) by (unfold is_u32; lia).
  eapply codec_last; [apply codec_usize; unfold nat_u32; lia|]. intros r.
  unfold r_guard, r_bind. case_cmp; [done|lia].
Qed.

(** A length and that many bytes. *)
Definition write_sized (data : bytes) : W := write_u32 (as_u32 (Z.of_nat (length data))) ;> write_bytes data.
Definition read_sized (max : nat) : R bytes := let! len := read_usize in read_bounded_bytes len max.

Lemma codec_sized data max :
  (length data <= max)%nat -> nat_u32 max -> pure_codec 4 (write_sized data) (read_sized max) data.
Proof.
  unfold nat_u32. intros Hl Hm. eapply codec_weaken; [eapply codec_seq|..].
  - apply codec_usize. unfold nat_u32. lia.
  - by apply codec_bounded.
  - lia.
  - done.
Qed.

(** *** Walking through a section *)

Lemma codec_conv {A} n n' w (m : R A) g g' a a' :
  codec n w m g a -> (n' <= n)%nat -> (forall s, g s = g' s) -> a = a' -> codec n' w m g' a'.
Proof. intros H1 H2 H3 <-. by eapply codec_weaken. Qed.

Lemma codec_skip_l {A} n w (m : R A) g a : codec n w m g a -> codec n (w_skip ;> w) m g a.
Proof.
  intros (o & Hn & He & Hr). exists o. split; [done|]. split; [|done]. apply (emits_seq _ _ []); [apply emits_skip|done].
Qed.

Lemma codec_ext {A} n w w' (m : R A) g a : (forall x, w x = w' x) -> codec n w' m g a -> codec n w m g a.
Proof. intros Hw (o & Hn & He & Hr). exists o. split; [done|]. split; [|done]. intros buf pos Hp. rewrite Hw. by apply He. Qed.

Lemma w_for_ext {A} (l : list A) (f g : A -> W) w : (forall x w, f x w = g x w) -> w_for l f w = w_for l g w.
Proof.
  intros Hfg. revert w. induction l as [|x l IH]; intros w; [done|]. cbn [w_for]. unfold w_seq. rewrite Hfg.
  by destruct (g x w).
Qed.

(** [for x in l { if let Some(y) = h(x) { f(y) } }]. *)
Lemma w_for_omap {A B} (l : list A) (h : A -> option B) (f : B -> W) w :
  w_for l (fun x => match h x with Some y => f y | None => w_skip end) w = w_for (omap h l) f w.
Proof.
  revert w. induction l as [|x l IH]; intros w; [done|]. cbn [w_for]. unfold w_seq at 1. cbn [omap list_omap].
  destruct (h x); cbn [w_for]; [|apply IH]. unfold w_seq. destruct (f b w); [apply IH|done].
Qed.

Lemma codec_opt {A} n w (m : R A) g a b : codec n w m g a -> a = b -> codec n w m g b.
Proof. by intros ? ->. Qed.

Lemma b2u_range (b : bool) : is_u32 (if b then 1 else 0).
Proof. unfold is_u32, u32_max. destruct b; lia. Qed.

Lemma is_u32_u16 v : is_u16 v -> is_u32 v.
Proof. unfold is_u16, is_u32, u32_max. lia. Qed.

Create HintDb codec discriminated.
#[export] Hint Constants Opaque : codec.
#[export] Hint Resolve codec_u8 codec_u16 codec_u32 codec_i32 codec_u64 codec_i64 codec_usize codec_bytes codec_bounded
  codec_unwrap codec_skip as_u32_range b2u_range is_u32_u16 : codec.

(** One field: a guard, a check of what remains, the next field, the last one. *)
Ltac codec_step :=
  cbv beta;
  lazymatch goal with
  | |- codec _ (w_skip ;> _) _ _ _ => apply codec_skip_l
  | |- codec _ _ (r_bind (r_guard _) _) _ _ => eapply codec_guard
  | |- codec _ _ (r_bind (r_need _) _) _ _ => eapply codec_need
  | |- codec _ (_ ;> _) (r_bind _ _) _ _ => eapply codec_seq; [solve [eauto with codec]|]
  | |- codec _ _ (r_bind _ _) _ _ => eapply codec_last; [solve [eauto with codec]|intros; reflexivity]
  | |- codec _ _ _ _ _ => solve [eauto with codec]
  end.

(** ** What the two sides cannot do *)

(** A reader that is refused was refused with EINVAL, it never panics, and the
    bytes it reads from stay as they are. *)
Definition einval {A} (m : R A) : Prop :=
  forall r, match (m r).1 with Ret _ => True | Refused e => e = EINVAL | Panic => False end /\ r_buf (m r).2 = r_buf r.

Lemma einval_bind {A B} (m : R A) (k : A -> R B) : einval m -> (forall a, einval (k a)) -> einval (r_bind m k).
Proof.
  intros Hm Hk r. unfold r_bind. destruct (Hm r) as [Ho <-]. destruct (m r) as [[a|e|] r']; [apply Hk|done|done].
Qed.

Lemma einval_ret {A} (a : A) : einval (r_ret a).
Proof. done. Qed.

Lemma einval_fail {A} : einval (r_fail (A := A) EINVAL).
Proof. done. Qed.

Lemma einval_bytes n : einval (read_bytes n).
Proof. intros r. unfold read_bytes. by case_bool_step. Qed.

Lemma einval_guard b : einval (r_guard b).
Proof. by destruct b. Qed.

Lemma einval_need n : einval (r_need n).
Proof. intros r. unfold r_need. by case_bool_step. Qed.

Lemma einval_if_remaining {A} n (m : R A) d : einval m -> einval (r_if_remaining n m d).
Proof. intros Hm r. unfold r_if_remaining. case_bool_step; [apply Hm|done]. Qed.

Lemma einval_unwrap {A} (m : R A) d : einval m -> einval (unwrap_or m d).
Proof. intros Hm r. unfold unwrap_or. destruct (Hm r). by destruct (m r) as [[]]. Qed.

Lemma einval_fold {A} n (body : A -> R A) acc : (forall a, einval (body a)) -> einval (r_fold n body acc).
Proof. intros Hb. revert acc. induction n as [|n IH]; intros acc; simpl; [done|]. by apply einval_bind. Qed.

Lemma einval_global {A} (f : globals -> A * globals) : einval (r_global f).
Proof. intros r. unfold r_global. by destruct (f _). Qed.

Lemma einval_bounded n max : einval (read_bounded_bytes n max).
Proof. unfold read_bounded_bytes. case_bool_step; [done|apply einval_bytes]. Qed.

Create HintDb einval.
#[export] Hint Resolve einval_ret einval_fail einval_bytes einval_guard einval_need einval_global einval_bounded : einval.

(** Walk through a reader. *)
Ltac solve_einval :=
  repeat first
    [ progress intros
    | solve [auto with einval]
    | apply einval_bind
    | apply einval_if_remaining
    | apply einval_unwrap
    | apply einval_fold
    | match goal with
      | |- einval (if ?b then _ else _) => destruct b
      | |- einval (match ?x with _ => _ end) => destruct x
      end ].

Lemma einval_u8 : einval read_u8.
Proof. unfold read_u8. solve_einval. Qed.
Lemma einval_u16 : einval read_u16.
Proof. unfold read_u16. solve_einval. Qed.
Lemma einval_u32 : einval read_u32.
Proof. unfold read_u32. solve_einval. Qed.
Lemma einval_i32 : einval read_i32.
Proof. unfold read_i32. solve_einval. Qed.
Lemma einval_u64 : einval read_u64.
Proof. unfold read_u64. solve_einval. Qed.
Lemma einval_i64 : einval read_i64.
Proof. unfold read_i64. solve_einval. Qed.
#[export] Hint Resolve einval_u8 einval_u16 einval_u32 einval_i32 einval_u64 einval_i64 : einval.

Lemma einval_usize : einval read_usize.
Proof. unfold read_usize. solve_einval. Qed.
#[export] Hint Resolve einval_usize : einval.

Lemma einval_count max : einval (read_bounded_count max).
Proof. unfold read_bounded_count. solve_einval. Qed.

Lemma einval_sized max : einval (read_sized max).
Proof. unfold read_sized. solve_einval. Qed.

Lemma einval_vec {A} n (m : R A) : einval m -> einval (r_vec n m).
Proof. intros Hm. unfold r_vec. solve_einval. Qed.
#[export] Hint Resolve einval_count einval_sized einval_vec : einval.
