(* ===== verification/Fork.v ===== *)
(** * Process state across fork ([crates/kernel/src/fork.rs])

    The image of a process that fork hands to its child: one writer and one
    reader per section of the format, composed by [serialize_fork_state] and
    [deserialize_fork_state] in the order of the code.  [as u32] casts truncate
    as they do in the source; the reserved values (0xFFFFFFFF for an absent
    index, 0 for an absent path) are written out; the readers take references
    on buffer objects as they go.

    The theorems: the image of a process that fits the format is read back as
    its fork child, whatever bytes follow it, and the child is what POSIX says
    it is (descriptors without FD_CLOFORK, descriptions with one reference per
    inherited descriptor, no pending signals, one thread, an equal address
    space); a buffer that is too small is refused with ENOMEM; and any byte string
    at all is accepted, refused with EINVAL, or names a slot the allocator has no
    room for (class [Heap]): the readers grow a table up to whatever index the bytes
    name. *)

From stdpp Require Import sorting.
From S2P Require Import Prelude Bytes Abi FdTable Lock Ofd Wakeup Memory Terminal Socket Signal Process Dri Codec.

Definition FORK_MAGIC : Z := 0x464F524B.
Definition FORK_VERSION : Z := 12.
Definition MAX_FDS : Z := 65536.
Definition MAX_OFDS : Z := 65536.
Definition MAX_ENV_VARS : Z := 65536.
Definition MAX_ARGV : Z := 65536.
Definition MAX_PATH_LEN : nat := Z.to_nat 1048576.
Definition MAX_STRING_LEN : nat := Z.to_nat 1048576.
Definition MAX_SOCKET_SLOTS : nat := Z.to_nat 65536.
Definition MAX_SOCKET_OPTIONS : nat := Z.to_nat 4096.
Definition MAX_SOCKET_STRING_LEN : nat := 256.
Definition MAX_IPV4_MULTICAST_MEMBERSHIPS : nat := Z.to_nat 4096.
Definition MAX_IPV4_MULTICAST_SOURCES : nat := Z.to_nat 4096.
Definition MAX_DIRECTED_SIGNAL_QUEUE : Z := 65536.
Definition FD_CLOEXEC : Z := 1.
Definition FD_CLOFORK : Z := 2.
Definition U32_MAX : Z := 0xFFFFFFFF.

(** [b as u32]. *)
Definition b2u (b : bool) : Z := if b then 1 else 0.

(** [x.map(|v| v as u32).unwrap_or(0xFFFFFFFF)] and its inverse. *)
Definition opt_idx (o : option nat) : Z := match o with Some v => as_u32 (Z.of_nat v) | None => U32_MAX end.
Definition idx_opt (v : Z) : option nat := if v =? U32_MAX then None else Some (Z.to_nat v).

(** [while v.len() <= i { v.push(None) }], which needs room for [i + 1] slots;
    after it, [v[i] = Some(x)]. *)
Definition r_grow `{Heap} (i : nat) : R unit := fun r => if Z.of_nat i <? table_slots then (Ret tt, r) else (Panic, r).

Definition put_at {A} (l : list (option A)) (i : nat) (x : A) : list (option A) :=
  <[i := Some x]> (l ++ replicate (S i - length l) None).

(** ** Directed signals *)

Definition timer_code (t : option Z) : Z := match t with Some id => as_i32 id | None => -1 end.

Definition write_sig_entry (e : RtSigEntry) : W :=
  write_u32 (e_signum e) ;> write_i32 (e_value e) ;> write_i32 (e_code e) ;> write_i32 (timer_code (e_timer e)).

Definition write_directed_signal_state (st : PerThreadSignalState) : W :=
  let count := Z.of_nat (length (pt_queue st)) in
  write_u64 (pt_pending st) ;>
  (if (u32_max <? count) || (MAX_DIRECTED_SIGNAL_QUEUE <? count) then w_fail E2BIG else w_skip) ;>
  write_u32 count ;>
  w_for (pt_queue st) write_sig_entry.

Definition read_sig_entry (pending : Z) : R RtSigEntry :=
  let! signum := read_u32 in
  let! _ := r_guard (negb ((signum =? 0) || (NSIG <=? signum) || (Z.land pending (sig_bit signum) =? 0))) in
  let! si_value := read_i32 in
  let! si_code := read_i32 in
  let! id := read_i32 in
  let! timer_id := (if id =? -1 then r_ret None else if 0 <=? id then r_ret (Some id) else r_fail EINVAL) in
  r_ret (mkEntry signum si_value si_code timer_id).

Definition read_directed_signal_state : R PerThreadSignalState :=
  let! pending := read_u64 in
  let! count := read_u32 in
  let! _ := r_guard (count <=? MAX_DIRECTED_SIGNAL_QUEUE) in
  let! queue := r_vec (Z.to_nat count) (read_sig_entry pending) in
  r_ret (mkThread 0 pending queue None).

(** ** Socket fields added after the first layout *)

Definition write_ipv4_source_list (sources : list bytes) : W :=
  write_bounded_len (length sources) MAX_IPV4_MULTICAST_SOURCES ;> w_for sources write_bytes.

Definition read_ipv4_addr : R bytes := read_bytes 4.

Definition read_ipv4_source_list : R (list bytes) :=
  let! count := read_bounded_count MAX_IPV4_MULTICAST_SOURCES in
  let! _ := r_need (count * 4) in
  r_vec count read_ipv4_addr.

Definition write_membership (m : Ipv4MulticastMembership) : W :=
  write_bytes (mm_group m) ;> write_bytes (mm_interface_addr m) ;> write_u32 (b2u (mm_any_source m)) ;>
  write_ipv4_source_list (mm_blocked_sources m) ;> write_ipv4_source_list (mm_included_sources m).

Definition read_membership : R Ipv4MulticastMembership :=
  let! group := read_ipv4_addr in
  let! interface_addr := read_ipv4_addr in
  let! tag := read_u32 in
  let! any_source := (if tag =? 0 then r_ret false else if tag =? 1 then r_ret true else r_fail EINVAL) in
  let! blocked_sources := read_ipv4_source_list in
  let! included_sources := read_ipv4_source_list in
  r_ret (mkMembership group interface_addr any_source blocked_sources included_sources).

Definition write_bind_device (d : option bytes) : W :=
  match d with
  | Some device => write_bounded_len (length device) MAX_SOCKET_STRING_LEN ;> write_bytes device
  | None => write_u32 u32_max
  end.

Definition write_durable_socket_state (s : SocketInfo) : W :=
  write_bytes (sk_bind_addr6 s) ;> write_bytes (sk_peer_addr6 s) ;>
  write_i32 (sk_linger_onoff s) ;> write_i32 (sk_linger_seconds s) ;>
  write_u64 (sk_recv_timeout_us s) ;> write_u64 (sk_send_timeout_us s) ;>
  write_bind_device (sk_bind_device s) ;>
  write_bounded_len (length (sk_tcp_congestion s)) MAX_SOCKET_STRING_LEN ;> write_bytes (sk_tcp_congestion s) ;>
  write_bounded_len (length (sk_ipv4_multicast_memberships s)) MAX_IPV4_MULTICAST_MEMBERSHIPS ;>
  w_for (sk_ipv4_multicast_memberships s) write_membership.

Definition read_bind_device : R (option bytes) :=
  let! len := read_u32 in
  if len =? u32_max then r_ret None
  else let! d := read_bounded_bytes (Z.to_nat len) MAX_SOCKET_STRING_LEN in r_ret (Some d).

(** The fields [read_durable_socket_state] assigns. *)
Definition with_durable (s : SocketInfo) (bind6 peer6 : bytes) (onoff secs rt st : Z) (dev : option bytes) (cong : bytes)
    (ms : list Ipv4MulticastMembership) : SocketInfo :=
  mkSocket (sk_domain s) (sk_type s) (sk_protocol s) (sk_state s) (sk_peer_idx s) (sk_recv_buf_idx s) (sk_send_buf_idx s)
    (sk_shut_rd s) (sk_shut_wr s) (sk_host_net_handle s) (sk_options s) onoff secs dev
    cong (sk_bind_addr s) bind6 (sk_bind_port s) (sk_peer_addr s) peer6 (sk_peer_port s)
    (sk_listen_backlog s) (sk_shared_backlog_idx s) (sk_accept_wake_idx s) (sk_dgram_queue s) ms
    (sk_netlink_queue s) (sk_global_pipes s) (sk_oob_byte s) rt st (sk_bind_path s)
    (sk_connect_error s).

Definition read_durable_socket_state (s : SocketInfo) : R SocketInfo :=
  let! bind6 := read_bytes 16 in
  let! peer6 := read_bytes 16 in
  let! onoff := read_i32 in
  let! secs := read_i32 in
  let! rt := read_u64 in
  let! st := read_u64 in
  let! dev := read_bind_device in
  let! clen := read_bounded_count MAX_SOCKET_STRING_LEN in
  let! cong := read_bounded_bytes clen MAX_SOCKET_STRING_LEN in
  let! count := read_bounded_count MAX_IPV4_MULTICAST_MEMBERSHIPS in
  let! _ := r_need (count * 20) in
  let! ms := r_vec count read_membership in
  r_ret (with_durable s bind6 peer6 onoff secs rt st dev cong ms).

(** ** File types and identities *)

Definition file_type_to_u32 (ft : FileType) : Z :=
  match ft with
  | Regular => 0 | Directory => 1 | Ofd.Pipe => 2 | CharDevice => 3 | Ofd.Socket => 4 | EventFd => 5
  | Epoll => 6 | TimerFd => 7 | SignalFd => 8 | MemFd => 9 | PtyMaster => 10 | PtySlave => 11
  end.

Definition u32_to_file_type (v : Z) : R FileType :=
  match v with
  | 0 => r_ret Regular | 1 => r_ret Directory | 2 => r_ret Ofd.Pipe | 3 => r_ret CharDevice | 4 => r_ret Ofd.Socket
  | 5 => r_ret EventFd | 6 => r_ret Epoll | 7 => r_ret TimerFd | 8 => r_ret SignalFd | 9 => r_ret MemFd
  | 10 => r_ret PtyMaster | 11 => r_ret PtySlave
  | _ => r_fail EINVAL
  end.

Definition FILE_ID_NONE : Z := 0.
Definition FILE_ID_HOST : Z := 1.
Definition FILE_ID_KERNEL_MEMFD : Z := 2.
Definition FILE_ID_KERNEL_SYNTHETIC_REGULAR : Z := 3.
Definition FILE_ID_KERNEL_PROCFS_REGULAR : Z := 4.

Definition write_file_id (f : option FileId) : W :=
  match f with
  | None => write_u8 FILE_ID_NONE
  | Some (FHost dev ino) => write_u8 FILE_ID_HOST ;> write_u64 dev ;> write_u64 ino
  | Some (FKernel KMemFd object_id) => write_u8 FILE_ID_KERNEL_MEMFD ;> write_u64 object_id
  | Some (FKernel KSyntheticRegular object_id) => write_u8 FILE_ID_KERNEL_SYNTHETIC_REGULAR ;> write_u64 object_id
  | Some (FKernel KProcFsRegular object_id) => write_u8 FILE_ID_KERNEL_PROCFS_REGULAR ;> write_u64 object_id
  end.

Definition read_file_id : R (option FileId) :=
  let! tag := read_u8 in
  if tag =? FILE_ID_NONE then r_ret None
  else if tag =? FILE_ID_HOST then
    let! dev := read_u64 in let! ino := read_u64 in r_ret (Some (FHost dev ino))
  else if tag =? FILE_ID_KERNEL_MEMFD then let! id := read_u64 in r_ret (Some (FKernel KMemFd id))
  else if tag =? FILE_ID_KERNEL_SYNTHETIC_REGULAR then let! id := read_u64 in r_ret (Some (FKernel KSyntheticRegular id))
  else if tag =? FILE_ID_KERNEL_PROCFS_REGULAR then let! id := read_u64 in r_ret (Some (FKernel KProcFsRegular id))
  else r_fail EINVAL.

(** ** Graphics state of a description *)

Definition DRI_TAG_NONE : Z := 0.
Definition DRI_TAG_RENDER_NODE : Z := 1.
Definition DRI_TAG_CARD : Z := 2.
Definition DRI_TAG_PRIME_BO : Z := 3.

(** The order of a [BTreeMap] iteration. *)
Definition by_key {A} (a b : Z * A) : Prop := a.1 <= b.1.
#[export] Instance by_key_dec {A} : RelDecision (@by_key A).
Proof. intros a b. unfold by_key. apply _. Defined.
Definition btree_iter {A} (m : gmap Z A) : list (Z * A) := merge_sort by_key (map_to_list m).

Definition write_handle (h : Z * Z) : W := write_u32 h.1 ;> write_u32 h.2.

Definition write_dri_fd_state (d : DriFdState) : W :=
  write_u32 (as_u32 (Z.of_nat (size (dri_handles d)))) ;>
  w_for (btree_iter (dri_handles d)) write_handle ;>
  write_u32 (next_handle d).

Definition write_kms_fb (f : Z * KmsFb) : W :=
  write_u32 f.1 ;> write_u32 (fb_bo_id f.2) ;> write_u32 (fb_width f.2) ;> write_u32 (fb_height f.2) ;>
  write_u32 (fb_pixel_format f.2) ;> write_u32 (Ofd.fb_stride f.2).

Definition write_flip (f : PendingFlip) : W := write_u32 (pf_crtc_id f) ;> write_u32 (pf_fb_id f) ;> write_u64 (pf_user_data f).

Definition write_kms_fd_state (k : KmsFdState) (preserve_master : bool) : W :=
  write_u8 (if preserve_master && holds_master k then 1 else 0) ;>
  write_u32 (as_u32 (Z.of_nat (size (kms_fbs k)))) ;>
  w_for (btree_iter (kms_fbs k)) write_kms_fb ;>
  write_u32 (next_fb_id k) ;>
  write_u32 (as_u32 (Z.of_nat (length (pending_flips k)))) ;>
  w_for (pending_flips k) write_flip.

Definition write_dri_state (st : option DriOfdState) (preserve_master : bool) : W :=
  match st with
  | None => write_u8 DRI_TAG_NONE
  | Some (RenderNode d) => write_u8 DRI_TAG_RENDER_NODE ;> write_dri_fd_state d
  | Some (Card d k) => write_u8 DRI_TAG_CARD ;> write_dri_fd_state d ;> write_kms_fd_state k preserve_master
  | Some (PrimeBo p) => write_u8 DRI_TAG_PRIME_BO ;> write_u32 (pb_bo_id p) ;> write_u64 (pb_cookie p)
  end.

(** [with_registry(|reg| { reg.incref(bo_id); })]. *)
Definition g_incref (bo : Z) (g : globals) : globals := mkGlobals (incref (g_registry g) bo).2 (g_last_ofd_id g).
Definition r_incref (bo : Z) : R unit := r_global (fun g => (tt, g_incref bo g)).

Definition read_handle (handles : gmap Z Z) : R (gmap Z Z) :=
  let! handle := read_u32 in
  let! bo := read_u32 in
  let! _ := r_incref bo in
  r_ret (<[handle := bo]> handles).

Definition read_dri_fd_state : R DriFdState :=
  let! handle_count := read_usize in
  let! _ := r_guard (Z.of_nat handle_count <=? 65536) in
  let! handles := r_fold handle_count read_handle ∅ in
  let! next_handle := read_u32 in
  r_ret (mkDriFd handles next_handle None).

Definition read_kms_fb (fbs : gmap Z KmsFb) : R (gmap Z KmsFb) :=
  let! fb_id := read_u32 in
  let! bo := read_u32 in
  let! width := read_u32 in
  let! height := read_u32 in
  let! pixel_format := read_u32 in
  let! stride := read_u32 in
  let! _ := r_incref bo in
  r_ret (<[fb_id := Ofd.mkFb bo width height pixel_format stride]> fbs).

Definition read_flip : R PendingFlip :=
  let! crtc_id := read_u32 in
  let! fb_id := read_u32 in
  let! user_data := read_u64 in
  r_ret (mkFlip crtc_id fb_id user_data).

Definition read_kms_fd_state : R KmsFdState :=
  let! master := read_u8 in
  let! fb_count := read_usize in
  let! _ := r_guard (Z.of_nat fb_count <=? 65536) in
  let! fbs := r_fold fb_count read_kms_fb ∅ in
  let! next_fb := read_u32 in
  let! pending_count := read_usize in
  let! _ := r_guard (Z.of_nat pending_count <=? 65536) in
  let! flips := r_vec pending_count read_flip in
  r_ret (mkKms (negb (master =? 0)) fbs next_fb flips []).

Definition read_dri_state : R (option DriOfdState) :=
  let! tag := read_u8 in
  if tag =? DRI_TAG_NONE then r_ret None
  else if tag =? DRI_TAG_RENDER_NODE then let! d := read_dri_fd_state in r_ret (Some (RenderNode d))
  else if tag =? DRI_TAG_CARD then
    let! d := read_dri_fd_state in
    let! k := read_kms_fd_state in
    r_ret (Some (Card d k))
  else if tag =? DRI_TAG_PRIME_BO then
    let! bo := read_u32 in
    let! cookie := read_u64 in
    let! _ := r_incref bo in
    r_ret (Some (PrimeBo (mkPrime bo cookie)))
  else r_fail EINVAL.

(** ** Signal dispositions *)

(** [2 + ptr] wraps in the release profile. *)
Definition handler_to_u32 (h : SignalHandler) : Z :=
  match h with Default => 0 | Ignore => 1 | Handler ptr => u32_wrap (2 + ptr) end.

Definition u32_to_handler (v : Z) : SignalHandler :=
  if v =? 0 then Default else if v =? 1 then Ignore else Handler (v - 2).

(** ** Writing the sections *)

Definition write_header (magic : Z) : W := write_u32 magic ;> write_u32 FORK_VERSION ;> write_u32 0.

Definition write_fork_scalars (p : Process) : W :=
  write_u32 (pr_pid p) ;> write_u32 (pr_uid p) ;> write_u32 (pr_gid p) ;> write_u32 (pr_euid p) ;> write_u32 (pr_egid p) ;>
  write_u32 (pr_pgid p) ;> write_u32 (pr_sid p) ;> write_u32 (pr_umask p) ;> write_u32 (as_u32 (pr_nice p)) ;>
  write_u32 (b2u (pr_is_session_leader p)).

Definition is_non_default (a : SignalAction) : bool :=
  negb (bool_decide (sa_handler a = Default)) || negb (sa_flags a =? 0) || negb (sa_mask a =? 0).

Definition write_action (s : SignalState) (i : Z) : W :=
  let a := get_action s i in
  if is_non_default a then
    write_u32 i ;> write_u32 (handler_to_u32 (sa_handler a)) ;> write_u32 (sa_flags a) ;> write_u64 (sa_mask a)
  else w_skip.

(** The signals [1..65] whose action is written. *)
Definition non_defaults (s : SignalState) : list Z := List.filter (fun i => is_non_default (get_action s i)) all_signals.

Definition write_fork_signals (s : SignalState) : W :=
  write_u64 (blocked s) ;>
  write_u32 (Z.of_nat (length (non_defaults s))) ;>
  w_for all_signals (write_action s).

Definition keeps_fd (flag : Z) (x : Z * FdEntry) : bool := Z.land (fd_flags x.2) flag =? 0.

(** [*refs.entry(entry.ofd_ref.0).or_insert(0) += 1] over the entries. *)
Definition count_refs (fds : list (Z * FdEntry)) : gmap nat Z :=
  fold_left (fun m x => <[ofd_ref x.2 := u32_wrap (default 0 (m !! ofd_ref x.2) + 1)]> m) fds ∅.

Definition write_fd_entry (x : Z * FdEntry) : W :=
  write_u32 (as_u32 x.1) ;> write_u32 (as_u32 (Z.of_nat (ofd_ref x.2))) ;> write_u32 (fd_flags x.2).

Definition write_fd_table (max : nat) (fds : list (Z * FdEntry)) : W :=
  write_u32 (as_u32 (Z.of_nat max)) ;> write_u32 (as_u32 (Z.of_nat (length fds))) ;> w_for fds write_fd_entry.

(** [refs[index]], the reference count of a description that is kept. *)
Definition write_ofd (refs : gmap nat Z) (preserve_master : bool) (x : nat * OpenFileDesc) : W :=
  let o := x.2 in
  write_u32 (as_u32 (Z.of_nat x.1)) ;> write_u64 (ofd_id o) ;> write_file_id (file_id o) ;>
  write_u32 (file_type_to_u32 (file_type o)) ;> write_u32 (status_flags o) ;> write_i64 (host_handle o) ;> write_i64 (offset o) ;>
  write_u32 (default 0 (refs !! x.1)) ;>
  write_sized (path o) ;>
  write_dri_state (dri_state o) preserve_master.

Definition kept_ofds (t : OfdTable) (refs : gmap nat Z) : list (nat * OpenFileDesc) :=
  List.filter (fun x => bool_decide (is_Some (refs !! x.1))) (Ofd.iter t).

Definition write_ofd_table (t : OfdTable) (refs : gmap nat Z) (preserve_master : bool) : W :=
  write_u32 (as_u32 (Z.of_nat (length (kept_ofds t refs)))) ;> w_for (kept_ofds t refs) (write_ofd refs preserve_master).

Definition write_strings (l : list bytes) : W := write_u32 (as_u32 (Z.of_nat (length l))) ;> w_for l write_sized.

Definition write_rlimit (x : Z * Z) : W := write_u64 x.1 ;> write_u64 x.2.

Definition write_terminal (t : TerminalState) : W :=
  write_u32 (c_iflag t) ;> write_u32 (c_oflag t) ;> write_u32 (c_cflag t) ;> write_u32 (c_lflag t) ;> write_bytes (c_cc t) ;>
  write_u16 (ws_row (winsize t)) ;> write_u16 (ws_col (winsize t)) ;> write_u16 (ws_xpixel (winsize t)) ;>
  write_u16 (ws_ypixel (winsize t)) ;> write_u8 (c_line t) ;> write_u32 (c_ispeed t) ;> write_u32 (c_ospeed t) ;>
  write_i32 (session_id t).

Definition write_layout (m : MemoryManager) : W :=
  let l := layout_metadata m in
  write_u32 (as_u32 (get_brk m)) ;> write_u32 (as_u32 (lm_initial_brk l)) ;> write_u32 (as_u32 (lm_max_addr l)) ;>
  write_u32 (as_u32 (lm_brk_limit l)) ;> write_u32 (as_u32 (lm_mmap_base l)) ;> write_u32 (as_u32 (lm_reserved_until l)).

Definition write_mapping (m : MappedRegion) : W :=
  write_u32 (as_u32 (m_addr m)) ;> write_u32 (as_u32 (m_len m)) ;> write_u32 (m_prot m) ;> write_u32 (m_flags m).

Definition write_mappings (m : MemoryManager) : W :=
  write_u32 (as_u32 (Z.of_nat (length (mappings m)))) ;> w_for (mappings m) write_mapping.

Definition write_exec_path (o : option bytes) : W := match o with Some path => write_sized path | None => write_u32 0 end.
Definition write_exec_argv (o : option (list bytes)) : W := match o with Some argv => write_strings argv | None => write_u32 0 end.

Definition write_fd_action (a : FdAction) : W :=
  match a with
  | FdDup2 old_fd new_fd => write_u32 0 ;> write_u32 (as_u32 old_fd) ;> write_u32 (as_u32 new_fd)
  | FdClose fd => write_u32 1 ;> write_u32 (as_u32 fd) ;> write_u32 0
  | FdOpen fd _ _ _ => write_u32 2 ;> write_u32 (as_u32 fd) ;> write_u32 0
  end.

Definition write_fd_actions (l : list FdAction) : W := write_u32 (as_u32 (Z.of_nat (length l))) ;> w_for l write_fd_action.

Definition domain_code (d : SocketDomain) : Z := match d with Unix => 0 | Inet => 1 | Inet6 => 2 end.
Definition type_code (t : SocketType) : Z := match t with Stream => 0 | Dgram => 1 end.
Definition state_code (s : SocketState) : Z :=
  match s with Unbound => 0 | Bound => 1 | Listening => 2 | Connected => 3 | Closed => 4 | Connecting => 4 end.

Definition write_socket_option (o : Z * Z * Z) : W := write_u32 o.1.1 ;> write_u32 o.1.2 ;> write_u32 o.2.

Definition write_bind_path (o : option bytes) : W :=
  match o with
  | Some p => write_bounded_len (length p) MAX_PATH_LEN ;> write_bytes p
  | None => write_u32 U32_MAX
  end.

Definition write_socket (idx : nat) (s : SocketInfo) : W :=
  write_u32 (as_u32 (Z.of_nat idx)) ;> write_u32 (domain_code (sk_domain s)) ;> write_u32 (type_code (sk_type s)) ;>
  write_u32 (sk_protocol s) ;> write_u32 (state_code (sk_state s)) ;>
  write_u32 (opt_idx (sk_peer_idx s)) ;> write_u32 (opt_idx (sk_recv_buf_idx s)) ;> write_u32 (opt_idx (sk_send_buf_idx s)) ;>
  write_u32 (b2u (sk_shut_rd s)) ;> write_u32 (b2u (sk_shut_wr s)) ;>
  write_u32 (match sk_host_net_handle s with Some v => as_u32 v | None => U32_MAX end) ;>
  (if (MAX_SOCKET_OPTIONS <? length (sk_options s))%nat then w_fail EINVAL else w_skip) ;>
  write_u32 (as_u32 (Z.of_nat (length (sk_options s)))) ;> w_for (sk_options s) write_socket_option ;>
  write_bytes (sk_bind_addr s) ;> write_u32 (sk_bind_port s) ;> write_bytes (sk_peer_addr s) ;> write_u32 (sk_peer_port s) ;>
  write_u32 0 ;>
  write_u32 (b2u (sk_global_pipes s)) ;>
  write_u32 (opt_idx (sk_shared_backlog_idx s)) ;>
  write_bind_path (sk_bind_path s) ;>
  write_u32 (default U32_MAX (sk_accept_wake_idx s)) ;>
  write_durable_socket_state s.

Definition write_sockets (t : SocketTable) : W :=
  let idxs := seq 0 (socket_len t) in
  (if (MAX_SOCKET_SLOTS <? socket_len t)%nat then w_fail EINVAL else w_skip) ;>
  write_u32 (as_u32 (Z.of_nat (socket_len t))) ;>
  write_u32 (Z.of_nat (length (List.filter (fun i => bool_decide (is_Some (socket_get t i))) idxs))) ;>
  w_for idxs (fun i => match socket_get t i with Some s => write_socket i s | None => w_skip end).

(** The descriptors fork passes on. *)
Definition fork_fds (p : Process) : list (Z * FdEntry) := List.filter (keeps_fd FD_CLOFORK) (FdTable.iter (pr_fd_table p)).

(** Everything after the header. *)
Definition write_fork_body (p : Process) : W :=
  let fds := fork_fds p in
  write_fork_scalars p ;>
  write_fork_signals (pr_signals p) ;>
  write_fd_table (max_fds (pr_fd_table p)) fds ;>
  write_ofd_table (pr_ofd_table p) (count_refs fds) false ;>
  write_strings (pr_environ p) ;>
  write_strings (pr_argv p) ;>
  write_sized (pr_cwd p) ;>
  w_for (pr_rlimits p) write_rlimit ;>
  write_terminal (pr_terminal p) ;>
  write_layout (pr_memory p) ;>
  write_mappings (pr_memory p) ;>
  write_exec_path (pr_fork_exec_path p) ;>
  write_exec_argv (pr_fork_exec_argv p) ;>
  write_fd_actions (pr_fork_fd_actions p) ;>
  write_sockets (pr_sockets p).

(** [Writer::new(buf)], the body, the patched total, [Ok(w.pos)]; the result
    carries the buffer as it is left. *)
Definition run_writer (body : W) (buf : bytes) : kresult (nat * bytes) :=
  let? w := body (mkW buf 0) in
  let w := patch_u32 8 (as_u32 (Z.of_nat (w_pos w))) w in
  Ok (w_pos w, w_buf w).

Definition serialize_fork_state (p : Process) (buf : bytes) : kresult (nat * bytes) :=
  run_writer (write_header FORK_MAGIC ;> write_fork_body p) buf.

(** ** Reading the sections *)

Definition read_header (magic : Z) : R unit :=
  let! m := read_u32 in
  let! _ := r_guard (m =? magic) in
  let! version := read_u32 in
  let! _ := r_guard (version =? FORK_VERSION) in
  let! _ := read_u32 in
  r_ret tt.

Record scalars := mkScalars {
  sc_ppid : Z; sc_uid : Z; sc_gid : Z; sc_euid : Z; sc_egid : Z; sc_pgid : Z; sc_sid : Z; sc_umask : Z; sc_nice : Z; sc_leader : bool;
}.

Definition read_fork_scalars : R scalars :=
  let! ppid := read_u32 in let! uid := read_u32 in let! gid := read_u32 in let! euid := read_u32 in let! egid := read_u32 in
  let! pgid := read_u32 in let! sid := read_u32 in let! umask := read_u32 in let! nice := read_u32 in let! leader := read_u32 in
  r_ret (mkScalars ppid uid gid euid egid pgid sid umask (as_i32 nice) (negb (leader =? 0))).

Definition read_action (actions : list SignalAction) : R (list SignalAction) :=
  let! signum := read_u32 in
  let! handler := read_u32 in
  let! flags := read_u32 in
  let! mask := read_u64 in
  r_ret (if signum <? 65 then <[Z.to_nat signum := mkAction (u32_to_handler handler) flags mask]> actions else actions).

Definition read_fork_signals : R SignalState :=
  let! blocked := read_u64 in
  let! handler_count := read_u32 in
  let! _ := r_guard (handler_count <=? 64) in
  let! actions := r_fold (Z.to_nat handler_count) read_action (replicate 65 action_default) in
  r_ret (from_actions actions blocked).

(** [skip] is the flag whose descriptors are passed over (FD_CLOFORK for fork, none for exec). *)
Definition read_fd_entry `{Heap} (skip : Z) (l : list (option FdEntry)) : R (list (option FdEntry)) :=
  let! fd_num := read_usize in
  let! ofd_index := read_usize in
  let! flags := read_u32 in
  if negb (Z.land flags skip =? 0) then r_ret l
  else let! _ := r_grow fd_num in r_ret (put_at l fd_num (mkFdEntry ofd_index flags)).

Definition read_fd_table `{Heap} (skip : Z) : R FdTable :=
  let! max := read_usize in
  let! fd_count := read_u32 in
  let! _ := r_guard (fd_count <=? MAX_FDS) in
  let! l := r_fold (Z.to_nat fd_count) (read_fd_entry skip) [] in
  r_ret (FdTable.from_raw l max).

Definition read_ofd `{Heap} (pid : Z) (l : list (option OpenFileDesc)) : R (list (option OpenFileDesc)) :=
  let! index := read_usize in
  let! id := read_u64 in
  let! _ := r_guard (negb (id =? 0)) in
  let! file := read_file_id in
  let! code := read_u32 in
  let! type := u32_to_file_type code in
  let! flags := read_u32 in
  let! handle := read_i64 in
  let! off := read_i64 in
  let! refs := read_u32 in
  let! path := read_sized MAX_PATH_LEN in
  let! _ := r_grow index in
  let! dri := read_dri_state in
  r_ret (put_at l index (mkOfd id file type flags handle off refs pid path (-1) 0 0 dri)).

(** [OfdTable::from_raw], which observes the identities and panics on a zero one. *)
Definition r_from_raw (l : list (option OpenFileDesc)) : R OfdTable := fun r =>
  match Ofd.from_raw (g_last_ofd_id (r_globals r)) l with
  | Some (t, last) => (Ret t, mkR (r_buf r) (r_pos r) (mkGlobals (g_registry (r_globals r)) last))
  | None => (Panic, r)
  end.

Definition read_ofd_table `{Heap} (pid : Z) : R OfdTable :=
  let! ofd_count := read_u32 in
  let! _ := r_guard (ofd_count <=? MAX_OFDS) in
  let! l := r_fold (Z.to_nat ofd_count) (read_ofd pid) [] in
  r_from_raw l.

Definition read_strings (max : Z) : R (list bytes) :=
  let! count := read_u32 in
  let! _ := r_guard (count <=? max) in
  r_vec (Z.to_nat count) (read_sized MAX_STRING_LEN).

Definition read_rlimit : R (Z * Z) := let! a := read_u64 in let! b := read_u64 in r_ret (a, b).

Definition read_terminal : R TerminalState :=
  let! iflag := read_u32 in let! oflag := read_u32 in let! cflag := read_u32 in let! lflag := read_u32 in
  let! cc := read_bytes NCCS in
  let! row := read_u16 in let! col := read_u16 in let! xpixel := read_u16 in let! ypixel := read_u16 in
  let! line := unwrap_or read_u8 0 in
  let! ispeed := unwrap_or read_u32 15 in
  let! ospeed := unwrap_or read_u32 15 in
  let! session := unwrap_or read_i32 0 in
  r_ret (mkTerm iflag oflag cflag lflag line cc ispeed ospeed (mkWinSize row col xpixel ypixel) 1 session [] []).

Definition read_mapping : R MappedRegion :=
  let! addr := read_u32 in let! len := read_u32 in let! prot := read_u32 in let! flags := read_u32 in
  r_ret (mkMapped addr len prot flags).

Definition read_exec_path : R (option bytes) :=
  r_if_remaining 4
    (let! path_len := read_usize in
     if (0 <? path_len)%nat then let! p := read_bounded_bytes path_len MAX_PATH_LEN in r_ret (Some p) else r_ret None)
    None.

Definition read_exec_argv : R (option (list bytes)) :=
  r_if_remaining 4
    (let! argc := read_usize in
     if (0 <? argc)%nat then
       let! _ := r_guard (Z.of_nat argc <=? MAX_ARGV) in
       let! args := r_vec argc (read_sized MAX_STRING_LEN) in
       r_ret (Some args)
     else r_ret None)
    None.

(** Actions of another type are skipped. *)
Definition read_fd_action (l : list FdAction) : R (list FdAction) :=
  let! type := read_u32 in
  let! fd1 := read_u32 in
  let! fd2 := read_u32 in
  r_ret (if type =? 0 then vec_push l (FdDup2 (as_i32 fd1) (as_i32 fd2))
         else if type =? 1 then vec_push l (FdClose (as_i32 fd1)) else l).

Definition read_fd_actions : R (list FdAction) :=
  r_if_remaining 4 (let! action_count := read_usize in r_fold action_count read_fd_action []) [].

Definition read_domain : R SocketDomain :=
  let! v := read_u32 in
  if v =? 0 then r_ret Unix else if v =? 1 then r_ret Inet else if v =? 2 then r_ret Inet6 else r_fail EINVAL.

Definition read_type : R SocketType :=
  let! v := read_u32 in
  if v =? 0 then r_ret Stream else if v =? 1 then r_ret Dgram else r_fail EINVAL.

Definition read_state : R SocketState :=
  let! v := read_u32 in
  if v =? 0 then r_ret Unbound else if v =? 1 then r_ret Bound else if v =? 2 then r_ret Listening
  else if v =? 3 then r_ret Connected else if v =? 4 then r_ret Closed else r_fail EINVAL.

Definition read_opt_idx : R (option nat) := let! v := read_u32 in r_ret (idx_opt v).

Definition read_flag : R bool := let! v := read_u32 in r_ret (negb (v =? 0)).

Definition read_socket_option : R (Z * Z * Z) :=
  let! level := read_u32 in let! optname := read_u32 in let! value := read_u32 in r_ret (level, optname, value).

Definition read_bind_path : R (option bytes) :=
  let! len := read_u32 in
  if negb (len =? U32_MAX) then let! p := read_bounded_bytes (Z.to_nat len) MAX_PATH_LEN in r_ret (Some p) else r_ret None.

(** [SocketInfo::new], then the assignments of the fields read so far. *)
Definition socket_of (domain : SocketDomain) (type : SocketType) (protocol : Z) (state : SocketState) (peer recv send : option nat)
    (shut_rd shut_wr : bool) (hnh : option Z) (options : list (Z * Z * Z)) (bind_addr : bytes) (bind_port : Z) (peer_addr : bytes)
    (peer_port : Z) (global_pipes : bool) (backlog : option nat) (bind_path : option bytes) (wake : option Z) : SocketInfo :=
  let n := socket_new domain type protocol in
  mkSocket domain type protocol state peer recv send shut_rd shut_wr hnh options (sk_linger_onoff n) (sk_linger_seconds n)
    (sk_bind_device n) (sk_tcp_congestion n) bind_addr (sk_bind_addr6 n) bind_port peer_addr (sk_peer_addr6 n) peer_port
    (sk_listen_backlog n) backlog wake (sk_dgram_queue n) (sk_ipv4_multicast_memberships n)
    (sk_netlink_queue n) global_pipes (sk_oob_byte n) (sk_recv_timeout_us n) (sk_send_timeout_us n) bind_path
    (sk_connect_error n).

Definition read_socket (total_slots : nat) (acc : gset nat * SocketTable) : R (gset nat * SocketTable) :=
  let '(seen, t) := acc in
  let! idx := read_usize in
  let! _ := r_guard (negb ((total_slots <=? idx)%nat || bool_decide (idx ∈ seen))) in
  let! domain := read_domain in
  let! type := read_type in
  let! protocol := read_u32 in
  let! state := read_state in
  let! peer := read_opt_idx in
  let! recv := read_opt_idx in
  let! send := read_opt_idx in
  let! shut_rd := read_flag in
  let! shut_wr := read_flag in
  let! hnh := read_u32 in
  let! opt_count := read_bounded_count MAX_SOCKET_OPTIONS in
  let! _ := r_need (opt_count * 12) in
  let! options := r_vec opt_count read_socket_option in
  let! bind_addr := read_bytes 4 in
  let! bind_port := read_u32 in
  let! peer_addr := read_bytes 4 in
  let! peer_port := read_u32 in
  let! bl_count := read_usize in
  let! _ := r_guard (bl_count <=? total_slots)%nat in
  let! _ := r_need (bl_count * 4) in
  let! _ := r_fold bl_count (fun _ => read_u32) 0 in
  let! global_pipes := read_flag in
  let! backlog := read_opt_idx in
  let! bind_path := read_bind_path in
  let! wake := read_u32 in
  let sock := socket_of domain type protocol state peer recv send shut_rd shut_wr
                (if hnh =? U32_MAX then None else Some (as_i32 hnh)) options bind_addr (bind_port mod 2 ^ 16) peer_addr
                (peer_port mod 2 ^ 16) global_pipes backlog bind_path (if wake =? U32_MAX then None else Some wake) in
  let! sock := read_durable_socket_state sock in
  r_ret ({[idx]} ∪ seen, socket_insert_at t idx sock).

Definition read_sockets : R SocketTable :=
  r_if_remaining 8
    (let! total_slots := read_usize in
     let! sock_count := read_usize in
     let! _ := r_guard (negb ((MAX_SOCKET_SLOTS <? total_slots)%nat || (total_slots <? sock_count)%nat)) in
     let! x := r_fold sock_count (read_socket total_slots) (∅, socket_table_new) in
     r_ret x.2)
    socket_table_new.

Section deserialize.
Context `{Usize} `{Heap}.

(** The address space of the child before its mappings. *)
Definition read_layout : R MemoryManager :=
  let! brk := read_u32 in
  let! initial := read_u32 in let! max := read_u32 in let! limit := read_u32 in let! base := read_u32 in let! until := read_u32 in
  r_ret (set_brk (set_layout_metadata Memory.new (mkLayout initial max limit base until)) brk).2.

Definition read_mappings (m : MemoryManager) : R MemoryManager :=
  r_if_remaining 4
    (let! mapping_count := read_usize in
     let! _ := r_guard (mapping_count <=? Z.to_nat 4096)%nat in
     let! l := r_vec mapping_count read_mapping in
     r_ret (set_mappings m l))
    m.

Definition read_fork_state (child_pid : Z) : R Process :=
  let! _ := read_header FORK_MAGIC in
  let! sc := read_fork_scalars in
  let! signals := read_fork_signals in
  let! fd_table := read_fd_table FD_CLOFORK in
  let! ofd_table := read_ofd_table child_pid in
  let! environ := read_strings MAX_ENV_VARS in
  let! argv := read_strings MAX_ARGV in
  let! cwd := read_sized MAX_PATH_LEN in
  let! rlimits := r_vec 16 read_rlimit in
  let! terminal := read_terminal in
  let! memory := read_layout in
  let! memory := read_mappings memory in
  let! exec_path := read_exec_path in
  let! exec_argv := read_exec_argv in
  let! fd_actions := read_fd_actions in
  let! sockets := read_sockets in
  r_ret (mkProcess child_pid (sc_ppid sc) (sc_uid sc) (sc_gid sc) (sc_euid sc) (sc_egid sc) (sc_pgid sc) (sc_sid sc) false Running 0 0
           None fd_table ofd_table [] sockets cwd [] signals pt_new memory terminal environ argv (sc_umask sc) (sc_nice sc) rlimits
           0 0 (replicate 16 0) true None exec_path exec_argv fd_actions 49152 [] 0 [] [] 0 2 0 0 [] false None [] 0).

Definition deserialize_fork_state (buf : bytes) (child_pid : Z) (g : globals) : outcome Process * globals :=
  let '(o, r) := read_fork_state child_pid (mkR buf 0 g) in (o, r_globals r).

End deserialize.

(** ** Every byte string is accepted or refused with EINVAL, memory permitting *)

Lemma einval_file_type v : einval (u32_to_file_type v).
Proof. unfold u32_to_file_type. solve_einval. Qed.

Lemma einval_file_id : einval read_file_id.
Proof. unfold read_file_id. solve_einval. Qed.

Lemma einval_incref b : einval (r_incref b).
Proof. apply einval_global. Qed.
#[export] Hint Resolve einval_file_type einval_file_id einval_incref : einval.

Lemma einval_dri_fd : einval read_dri_fd_state.
Proof. unfold read_dri_fd_state, read_handle. solve_einval. Qed.

Lemma einval_kms_fd : einval read_kms_fd_state.
Proof. unfold read_kms_fd_state, read_kms_fb, r_vec, read_flip. solve_einval. Qed.
#[export] Hint Resolve einval_dri_fd einval_kms_fd : einval.

Lemma einval_dri_state : einval read_dri_state.
Proof. unfold read_dri_state. solve_einval. Qed.

Lemma einval_ipv4_addr : einval read_ipv4_addr.
Proof. apply einval_bytes. Qed.
#[export] Hint Resolve einval_ipv4_addr : einval.

Lemma einval_source_list : einval read_ipv4_source_list.
Proof. unfold read_ipv4_source_list, r_vec, read_ipv4_addr. solve_einval. Qed.
#[export] Hint Resolve einval_dri_state einval_source_list : einval.

Lemma einval_durable s : einval (read_durable_socket_state s).
Proof. unfold read_durable_socket_state, read_bind_device, r_vec, read_membership, read_ipv4_addr. solve_einval. Qed.

Lemma einval_directed : einval read_directed_signal_state.
Proof. unfold read_directed_signal_state, r_vec, read_sig_entry. solve_einval. Qed.
#[export] Hint Resolve einval_durable einval_directed : einval.

Section memory_permitting.
Context `{Heap}.

(** A reader that ends with a result ends with one that satisfies [P], and it
    panics only for lack of room for the slots a [u32] can name. *)
Definition yields {A} (m : R A) (P : A -> Prop) : Prop :=
  forall r, Forall is_byte (r_buf r) ->
    match (m r).1 with Ret a => P a | Refused e => e = EINVAL | Panic => table_slots < 2 ^ 32 end /\ r_buf (m r).2 = r_buf r.

Lemma yields_bind {A B} (m : R A) (k : A -> R B) P Q :
  yields m P -> (forall a, P a -> yields (k a) Q) -> yields (r_bind m k) Q.
Proof.
  intros Hm Hk r Hb. unfold r_bind. destruct (Hm r Hb) as [Ho Eb]. rewrite <- Eb in *. destruct (m r) as [[a|e|] r']; [by apply Hk|done|done].
Qed.

Lemma einval_yields {A} (m : R A) : einval m -> yields m (fun _ => True).
Proof. intros Hm r _. destruct (Hm r). by destruct (m r).1. Qed.

Lemma yields_fold {A} n (body : A -> R A) acc (P : A -> Prop) :
  P acc -> (forall a, P a -> yields (body a) P) -> yields (r_fold n body acc) P.
Proof.
  intros Ha Hb. revert acc Ha. induction n as [|n IH]; intros acc Ha; cbn [r_fold]; [by intros r _|].
  eapply yields_bind; [by apply Hb|]. intros a Ha'. by apply IH.
Qed.

Definition ids_set (l : list (option OpenFileDesc)) : Prop := Forall (fun x => match x with Some o => ofd_id o <> 0 | None => True end) l.

Lemma put_at_Forall {A} (P : option A -> Prop) l i x : P None -> P (Some x) -> Forall P l -> Forall P (put_at l i x).
Proof. intros Hn Hx Hl. unfold put_at. apply Forall_insert; [|done]. apply Forall_app. split; [done|]. by apply Forall_replicate. Qed.

Lemma yields_guard b : yields (r_guard b) (fun _ => b = true).
Proof. by destruct b. Qed.

Lemma yields_ret {A} (a : A) (P : A -> Prop) : P a -> yields (r_ret a) P.
Proof. by intros Ha r _. Qed.

Lemma yields_usize : yields read_usize (fun i => Z.of_nat i < 2 ^ 32).
Proof.
  intros r Hb. unfold read_usize, read_u32, read_bytes, r_bind, r_ret. case_bool_step; [done|]. cbn [fst snd r_buf]. split; [|done].
  pose proof (from_le_is_u32 (take 4 (drop (r_pos r) (r_buf r))) ltac:(by apply Forall_take, Forall_drop)) as Hu.
  unfold is_u32, u32_max in Hu. lia.
Qed.

Lemma yields_grow i : Z.of_nat i < 2 ^ 32 -> yields (r_grow i) (fun _ => True).
Proof. intros Hi r _. unfold r_grow. destruct (Z.ltb_spec (Z.of_nat i) table_slots); simpl; (split; [done || lia|done]). Qed.

Lemma yields_ofd pid l : ids_set l -> yields (read_ofd pid l) ids_set.
Proof.
  intros Hl. unfold read_ofd. eapply yields_bind; [apply yields_usize|intros i Hi].
  eapply yields_bind; [apply einval_yields; auto with einval|intros ? _].
  eapply yields_bind; [apply yields_guard|intros ? Hid].
  do 8 (eapply yields_bind; [apply einval_yields; auto with einval|intros ? _]).
  eapply yields_bind; [by apply yields_grow|intros ? _].
  eapply yields_bind; [apply einval_yields; auto with einval|intros ? _].
  apply yields_ret. apply put_at_Forall; [done|simpl|done]. intros E. by rewrite E in Hid.
Qed.

Lemma observe_all_Some last l : ids_set l -> is_Some (observe_all last l).
Proof.
  intros Hl. revert last. induction Hl as [|[o|] l Ho Hl IH]; intros last; simpl; [done| |apply IH].
  unfold observe_ofd_id. destruct (Z.eqb_spec (ofd_id o) 0); [done|apply IH].
Qed.

Lemma yields_ofd_table pid : yields (read_ofd_table pid) (fun _ => True).
Proof.
  unfold read_ofd_table. do 2 (eapply yields_bind; [apply einval_yields; auto with einval|intros ? _]).
  eapply yields_bind; [apply (yields_fold _ _ _ ids_set); [constructor|apply yields_ofd]|intros l Hy r _].
  unfold r_from_raw, Ofd.from_raw. by destruct (observe_all_Some (g_last_ofd_id (r_globals r)) l Hy) as [x ->].
Qed.

Lemma einval_socket n acc : einval (read_socket n acc).
Proof. unfold read_socket, read_domain, read_type, read_state, read_opt_idx, read_flag, r_vec, read_socket_option, read_bind_path. solve_einval. Qed.
#[local] Hint Resolve einval_socket : einval.

Lemma einval_strings max : einval (read_strings max).
Proof. unfold read_strings, r_vec. solve_einval. Qed.

Lemma yields_fd_table skip : yields (read_fd_table skip) (fun _ => True).
Proof.
  unfold read_fd_table. do 3 (eapply yields_bind; [apply einval_yields; auto with einval|intros ? _]).
  eapply yields_bind; [apply (yields_fold _ _ _ (fun _ => True)); [done|intros l _]|intros ? _; by apply yields_ret].
  unfold read_fd_entry. eapply yields_bind; [apply yields_usize|intros i Hi].
  do 2 (eapply yields_bind; [apply einval_yields; auto with einval|intros ? _]). case_bool_step; [by apply yields_ret|].
  eapply yields_bind; [by apply yields_grow|intros ? _; by apply yields_ret].
Qed.

Lemma einval_terminal : einval read_terminal.
Proof. unfold read_terminal. solve_einval. Qed.

Lemma einval_header m : einval (read_header m).
Proof. unfold read_header. solve_einval. Qed.
End memory_permitting.
#[export] Hint Resolve einval_socket einval_strings einval_terminal einval_header : einval.

Lemma yields_fork_state `{Usize} `{Heap} pid : yields (read_fork_state pid) (fun _ => True).
Proof.
  unfold read_fork_state. eapply yields_bind; [apply einval_yields, einval_header|intros ? _].
  eapply yields_bind; [apply einval_yields; unfold read_fork_scalars; solve_einval|intros ? _].
  eapply yields_bind; [apply einval_yields; unfold read_fork_signals, read_action; solve_einval|intros ? _].
  eapply yields_bind; [apply yields_fd_table|intros ? _]. eapply yields_bind; [apply yields_ofd_table|intros ? _].
  apply einval_yields. unfold r_vec, read_rlimit, read_layout, read_mappings, read_mapping, read_exec_path, read_exec_argv,
    read_fd_actions, read_fd_action, read_sockets, r_vec. solve_einval.
Qed.

(** *** Memory decides only whether a reader is stopped *)

(** [m] does what [m'] does, or panics. *)
Definition stops {A} (m m' : R A) : Prop := forall r, m r = m' r \/ (m r).1 = Panic.

Lemma stops_refl {A} (m : R A) : stops m m.
Proof. by left. Qed.

Lemma stops_bind {A B} (m m' : R A) (k k' : A -> R B) : stops m m' -> (forall a, stops (k a) (k' a)) -> stops (r_bind m k) (r_bind m' k').
Proof.
  intros Hm Hk r. unfold r_bind. destruct (Hm r) as [->|Hp]; [|destruct (m r) as [[a|e|] r']; simpl in Hp; try done; by right].
  destruct (m' r) as [[a|e|] r']; [apply Hk|by left|by left].
Qed.

Lemma stops_fold {A} n (body body' : A -> R A) acc : (forall a, stops (body a) (body' a)) -> stops (r_fold n body acc) (r_fold n body' acc).
Proof. intros Hb. revert acc. induction n as [|n IH]; intros acc; cbn [r_fold]; [apply stops_refl|]. apply stops_bind; [apply Hb|apply IH]. Qed.

Section heaps.
Context `{Usize} (small large : Heap) (Hle : table_slots (Heap := small) <= table_slots (Heap := large)).

Lemma stops_grow i : stops (r_grow (H := small) i) (r_grow (H := large) i).
Proof.
  intros r. unfold r_grow. destruct (Z.ltb_spec (Z.of_nat i) (table_slots (Heap := small))); [|by right].
  rewrite (proj2 (Z.ltb_lt _ _)) by lia. by left.
Qed.

Ltac stops_tac :=
  repeat first [apply stops_refl | apply stops_grow | apply stops_bind; [|intros ?] | apply stops_fold; intros ? | case_bool_step].

Lemma stops_fork_state pid : stops (read_fork_state (H0 := small) pid) (read_fork_state (H0 := large) pid).
Proof.
  unfold read_fork_state. do 3 (apply stops_bind; [apply stops_refl|intros ?]).
  apply stops_bind; [unfold read_fd_table, read_fd_entry; stops_tac|intros ?].
  apply stops_bind; [unfold read_ofd_table, read_ofd; stops_tac|intros ?]. apply stops_refl.
Qed.

End heaps.

(** C38: Whatever bytes [buf] it is given, the fork deserializer builds a process, or
    fails with EINVAL and no other error, or panics because the bytes name a slot
    of a table that the allocator has no room for; it panics for no other reason
    (in particular not on a zero identity): where a table of [2 ^ 32] slots fits it
    never panics, and with more memory any call that did not panic gives the same
    result and leaves the same global tables. *)
Theorem fork_input_total `{Usize} (heap : Heap) buf pid g :
  Forall is_byte buf ->
  match (deserialize_fork_state (H0 := heap) buf pid g).1 with
  | Ret _ => True
  | Refused e => e = EINVAL
  | Panic => table_slots (Heap := heap) < 2 ^ 32
  end /\
  forall large : Heap, table_slots (Heap := heap) <= table_slots (Heap := large) ->
    deserialize_fork_state (H0 := heap) buf pid g = deserialize_fork_state (H0 := large) buf pid g \/
    (deserialize_fork_state (H0 := heap) buf pid g).1 = Panic.
Proof.
  unfold deserialize_fork_state. intros Hb. split.
  - pose proof (proj1 (yields_fork_state (H0 := heap) pid (mkR buf 0 g) Hb)) as He. by destruct (read_fork_state (H0 := heap) pid _) as [[] ?].
  - intros large Hle. destruct (stops_fork_state heap large Hle pid (mkR buf 0 g)) as [->|Hp]; [by left|right].
    by destruct (read_fork_state (H0 := heap) pid _) as [[] ?].
Qed.

(** ** What the format can carry *)

Record scalars_ok (p : Process) : Prop := {
  so_pid : is_u32 (pr_pid p); so_ppid : is_u32 (pr_ppid p); so_uid : is_u32 (pr_uid p); so_gid : is_u32 (pr_gid p);
  so_euid : is_u32 (pr_euid p); so_egid : is_u32 (pr_egid p); so_pgid : is_u32 (pr_pgid p); so_sid : is_u32 (pr_sid p);
  so_umask : is_u32 (pr_umask p); so_nice : is_i32 (pr_nice p);
}.

(** A function pointer must leave room for the two reserved codes. *)
Record action_ok (a : SignalAction) : Prop := {
  ao_handler : match sa_handler a with Handler ptr => 0 <= ptr < 2 ^ 32 - 2 | _ => True end;
  ao_flags : is_u32 (sa_flags a);
  ao_mask : is_u64 (sa_mask a);
}.

Definition signals_ok (s : SignalState) : Prop := is_u64 (blocked s) /\ forall i, valid_sig i -> action_ok (get_action s i).

Definition fd_entry_ok (e : FdEntry) : Prop := nat_u32 (ofd_ref e) /\ is_u32 (fd_flags e).

Record fds_ok (t : FdTable) : Prop := {
  fo_max : nat_u32 (max_fds t);
  fo_len : Z.of_nat (length (FdTable.entries t)) <= 65536;
  fo_entries : forall i e, FdTable.entries t !! i = Some (Some e) -> fd_entry_ok e;
}.

Definition file_id_ok (f : option FileId) : Prop :=
  match f with Some (FHost dev ino) => is_u64 dev /\ is_u64 ino | Some (FKernel _ id) => is_u64 id | None => True end.

Record fb_ok (id : Z) (f : KmsFb) : Prop := {
  fbo_id : is_u32 id; fbo_bo : is_u32 (fb_bo_id f); fbo_w : is_u32 (fb_width f); fbo_h : is_u32 (fb_height f);
  fbo_fmt : is_u32 (fb_pixel_format f); fbo_stride : is_u32 (Ofd.fb_stride f);
}.

Record flip_ok (f : PendingFlip) : Prop := { flo_crtc : is_u32 (pf_crtc_id f); flo_fb : is_u32 (pf_fb_id f); flo_data : is_u64 (pf_user_data f) }.

Record dri_fd_ok (d : DriFdState) : Prop := {
  dfo_size : Z.of_nat (size (dri_handles d)) <= 65536;
  dfo_handles : forall h b, dri_handles d !! h = Some b -> is_u32 h /\ is_u32 b;
  dfo_next : is_u32 (next_handle d);
}.

Record kms_fd_ok (k : KmsFdState) : Prop := {
  kfo_size : Z.of_nat (size (kms_fbs k)) <= 65536;
  kfo_fbs : forall i f, kms_fbs k !! i = Some f -> fb_ok i f;
  kfo_next : is_u32 (next_fb_id k);
  kfo_flips : Z.of_nat (length (pending_flips k)) <= 65536 /\ Forall flip_ok (pending_flips k);
}.

Definition dri_ok (d : option DriOfdState) : Prop :=
  match d with
  | None => True
  | Some (RenderNode d) => dri_fd_ok d
  | Some (Card d k) => dri_fd_ok d /\ kms_fd_ok k
  | Some (PrimeBo p) => is_u32 (pb_bo_id p) /\ is_u64 (pb_cookie p)
  end.

Record ofd_ok (o : OpenFileDesc) : Prop := {
  oo_id : 1 <= ofd_id o < 2 ^ 64;
  oo_file : file_id_ok (file_id o);
  oo_flags : is_u32 (status_flags o);
  oo_handle : is_i64 (host_handle o);
  oo_offset : is_i64 (offset o);
  oo_path : (length (path o) <= MAX_PATH_LEN)%nat;
  oo_dri : dri_ok (dri_state o);
}.

Record ofds_ok (t : OfdTable) : Prop := {
  ofo_len : Z.of_nat (length (entries t)) <= 65536;
  ofo_entries : forall i o, Ofd.get t i = Some o -> ofd_ok o;
}.

Definition strings_ok (l : list bytes) : Prop := Z.of_nat (length l) <= 65536 /\ Forall (fun s => (length s <= MAX_STRING_LEN)%nat) l.

Definition rlimits_ok (l : list (Z * Z)) : Prop := length l = 16%nat /\ Forall (fun x => is_u64 x.1 /\ is_u64 x.2) l.

Record term_fields_ok (t : TerminalState) : Prop := {
  to_iflag : is_u32 (c_iflag t); to_oflag : is_u32 (c_oflag t); to_cflag : is_u32 (c_cflag t); to_lflag : is_u32 (c_lflag t);
  to_cc : length (c_cc t) = NCCS; to_row : is_u16 (ws_row (winsize t)); to_col : is_u16 (ws_col (winsize t));
  to_xp : is_u16 (ws_xpixel (winsize t)); to_yp : is_u16 (ws_ypixel (winsize t)); to_ispeed : is_u32 (c_ispeed t);
  to_ospeed : is_u32 (c_ospeed t); to_session : is_i32 (session_id t);
}.

Definition mapping_fields_ok (m : MappedRegion) : Prop := is_u32 (m_addr m) /\ is_u32 (m_len m) /\ is_u32 (m_prot m) /\ is_u32 (m_flags m).

(** The break is where [brk] could have put it, and the mappings are in order. *)
Record memory_ok (m : MemoryManager) : Prop := {
  mo_brk : is_u32 (program_break m) /\ program_break m <> 0 /\ initial_brk m <= program_break m <= max_addr m /\ program_break m <= brk_limit m;
  mo_initial : is_u32 (initial_brk m); mo_max : is_u32 (max_addr m); mo_limit : is_u32 (brk_limit m);
  mo_base : is_u32 (mmap_base m); mo_until : is_u32 (reserved_until m);
  mo_count : (length (mappings m) <= Z.to_nat 4096)%nat;
  mo_fields : Forall mapping_fields_ok (mappings m);
  mo_sorted : sort_by_addr (mappings m) = mappings m;
}.

Definition fd_action_ok (a : FdAction) : Prop :=
  match a with FdDup2 x y => is_i32 x /\ is_i32 y | FdClose x => is_i32 x | FdOpen x _ _ _ => is_i32 x end.

Definition idx_ok (o : option nat) : Prop := match o with Some v => Z.of_nat v < U32_MAX | None => True end.
Definition source_list_ok (l : list bytes) : Prop := (length l <= MAX_IPV4_MULTICAST_SOURCES)%nat /\ Forall (fun a => length a = 4%nat) l.

Record membership_ok (m : Ipv4MulticastMembership) : Prop := {
  mbo_group : length (mm_group m) = 4%nat; mbo_if : length (mm_interface_addr m) = 4%nat;
  mbo_blocked : source_list_ok (mm_blocked_sources m); mbo_included : source_list_ok (mm_included_sources m);
}.

Record socket_ok (s : SocketInfo) : Prop := {
  sko_protocol : is_u32 (sk_protocol s);
  sko_peer : idx_ok (sk_peer_idx s); sko_recv : idx_ok (sk_recv_buf_idx s); sko_send : idx_ok (sk_send_buf_idx s);
  sko_backlog : idx_ok (sk_shared_backlog_idx s);
  sko_hnh : match sk_host_net_handle s with Some v => is_i32 v /\ v <> -1 | None => True end;
  sko_options : (length (sk_options s) <= MAX_SOCKET_OPTIONS)%nat /\
    Forall (fun o => is_u32 o.1.1 /\ is_u32 o.1.2 /\ is_u32 o.2) (sk_options s);
  sko_addr : length (sk_bind_addr s) = 4%nat /\ length (sk_peer_addr s) = 4%nat;
  sko_addr6 : length (sk_bind_addr6 s) = 16%nat /\ length (sk_peer_addr6 s) = 16%nat;
  sko_ports : is_u16 (sk_bind_port s) /\ is_u16 (sk_peer_port s);
  sko_path : match sk_bind_path s with Some p => (length p <= MAX_PATH_LEN)%nat | None => True end;
  sko_wake : match sk_accept_wake_idx s with Some v => 0 <= v < U32_MAX | None => True end;
  sko_linger : is_i32 (sk_linger_onoff s) /\ is_i32 (sk_linger_seconds s);
  sko_timeouts : is_u64 (sk_recv_timeout_us s) /\ is_u64 (sk_send_timeout_us s);
  sko_device : match sk_bind_device s with Some d => (length d <= MAX_SOCKET_STRING_LEN)%nat | None => True end;
  sko_congestion : (length (sk_tcp_congestion s) <= MAX_SOCKET_STRING_LEN)%nat;
  sko_memberships : (length (sk_ipv4_multicast_memberships s) <= MAX_IPV4_MULTICAST_MEMBERSHIPS)%nat /\
    Forall membership_ok (sk_ipv4_multicast_memberships s);
}.

Record sockets_ok (t : SocketTable) : Prop := {
  sto_len : (length t <= MAX_SOCKET_SLOTS)%nat;
  sto_sockets : forall i s, socket_get t i = Some s -> socket_ok s;
}.

(** A process whose state fits the format: integers at their declared widths,
    tables within the bounds of the reader, no use of a reserved code. *)
Record fork_encodable (p : Process) : Prop := {
  fe_scalars : scalars_ok p;
  fe_signals : signals_ok (pr_signals p);
  fe_fds : fds_ok (pr_fd_table p);
  fe_ofds : ofds_ok (pr_ofd_table p);
  fe_env : strings_ok (pr_environ p);
  fe_argv : strings_ok (pr_argv p);
  fe_cwd : (length (pr_cwd p) <= MAX_PATH_LEN)%nat;
  fe_rlimits : rlimits_ok (pr_rlimits p);
  fe_terminal : term_fields_ok (pr_terminal p);
  fe_memory : memory_ok (pr_memory p);
  fe_path : match pr_fork_exec_path p with Some s => (1 <= length s <= MAX_PATH_LEN)%nat | None => True end;
  fe_exec_argv : match pr_fork_exec_argv p with Some l => l <> [] /\ strings_ok l | None => True end;
  fe_actions : nat_u32 (length (pr_fork_fd_actions p)) /\ Forall fd_action_ok (pr_fork_fd_actions p);
  fe_sockets : sockets_ok (pr_sockets p);
}.

(** ** Section by section *)

Lemma nat_u32_path : nat_u32 MAX_PATH_LEN.
Proof. unfold nat_u32, MAX_PATH_LEN, u32_max. lia. Qed.
Lemma path_len_small n : (n <= MAX_PATH_LEN)%nat -> Z.of_nat n < U32_MAX.
Proof. unfold MAX_PATH_LEN, U32_MAX. lia. Qed.
Lemma nat_u32_string : nat_u32 MAX_STRING_LEN.
Proof. unfold nat_u32, MAX_STRING_LEN, u32_max. lia. Qed.
Lemma nat_u32_sources : nat_u32 MAX_IPV4_MULTICAST_SOURCES.
Proof. unfold nat_u32, MAX_IPV4_MULTICAST_SOURCES, u32_max. lia. Qed.
Lemma nat_u32_memberships : nat_u32 MAX_IPV4_MULTICAST_MEMBERSHIPS.
Proof. unfold nat_u32, MAX_IPV4_MULTICAST_MEMBERSHIPS, u32_max. lia. Qed.
Lemma nat_u32_socket_string : nat_u32 MAX_SOCKET_STRING_LEN.
Proof. unfold nat_u32, MAX_SOCKET_STRING_LEN, u32_max. lia. Qed.
Lemma nat_u32_options : nat_u32 MAX_SOCKET_OPTIONS.
Proof. unfold nat_u32, MAX_SOCKET_OPTIONS, u32_max. lia. Qed.
Lemma small_path n : (n <= 100)%nat -> (n <= MAX_PATH_LEN)%nat.
Proof. unfold MAX_PATH_LEN. lia. Qed.
Lemma small_string n : (n <= 100)%nat -> (n <= MAX_STRING_LEN)%nat.
Proof. unfold MAX_STRING_LEN. lia. Qed.
Lemma small_slots n : (n <= 100)%nat -> (n <= MAX_SOCKET_SLOTS)%nat.
Proof. unfold MAX_SOCKET_SLOTS. lia. Qed.
Lemma small_options n : (n <= 100)%nat -> (n <= MAX_SOCKET_OPTIONS)%nat.
Proof. unfold MAX_SOCKET_OPTIONS. lia. Qed.

Local Opaque MAX_PATH_LEN MAX_STRING_LEN MAX_SOCKET_OPTIONS MAX_IPV4_MULTICAST_SOURCES MAX_IPV4_MULTICAST_MEMBERSHIPS.

Lemma b2u_u32 b : is_u32 (b2u b).
Proof. apply b2u_range. Qed.

Lemma codec_path data : (length data <= MAX_PATH_LEN)%nat -> pure_codec 4 (write_sized data) (read_sized MAX_PATH_LEN) data.
Proof. intros Hd. apply codec_sized; [done|apply nat_u32_path]. Qed.
Lemma codec_string data : (length data <= MAX_STRING_LEN)%nat -> pure_codec 4 (write_sized data) (read_sized MAX_STRING_LEN) data.
Proof. intros Hd. apply codec_sized; [done|apply nat_u32_string]. Qed.
Lemma codec_count_path n :
  (n <= MAX_PATH_LEN)%nat -> pure_codec 4 (write_bounded_len n MAX_PATH_LEN) (read_bounded_count MAX_PATH_LEN) n.
Proof. intros Hd. apply codec_bounded_count; [done|apply nat_u32_path]. Qed.
Lemma codec_count_sources n :
  (n <= MAX_IPV4_MULTICAST_SOURCES)%nat ->
  pure_codec 4 (write_bounded_len n MAX_IPV4_MULTICAST_SOURCES) (read_bounded_count MAX_IPV4_MULTICAST_SOURCES) n.
Proof. intros Hd. apply codec_bounded_count; [done|apply nat_u32_sources]. Qed.
Lemma codec_count_memberships n :
  (n <= MAX_IPV4_MULTICAST_MEMBERSHIPS)%nat ->
  pure_codec 4 (write_bounded_len n MAX_IPV4_MULTICAST_MEMBERSHIPS) (read_bounded_count MAX_IPV4_MULTICAST_MEMBERSHIPS) n.
Proof. intros Hd. apply codec_bounded_count; [done|apply nat_u32_memberships]. Qed.
Lemma codec_count_string n :
  (n <= MAX_SOCKET_STRING_LEN)%nat ->
  pure_codec 4 (write_bounded_len n MAX_SOCKET_STRING_LEN) (read_bounded_count MAX_SOCKET_STRING_LEN) n.
Proof. intros Hd. apply codec_bounded_count; [done|apply nat_u32_socket_string]. Qed.
#[export] Hint Resolve codec_path codec_string codec_count_path codec_count_sources codec_count_memberships codec_count_string b2u_u32 : codec.


(** Small constants. *)
Lemma is_u32_small v : 0 <= v <= 65536 -> is_u32 v.
Proof. unfold is_u32, u32_max. lia. Qed.

Lemma nat_u32_small n : Z.of_nat n <= 65536 -> nat_u32 n.
Proof. unfold nat_u32, u32_max. lia. Qed.

(** A count and its elements, the count read as [u32]. *)
Lemma codec_count n : nat_u32 n -> pure_codec 4 (write_u32 (as_u32 (Z.of_nat n))) read_u32 (Z.of_nat n).
Proof.
  unfold nat_u32. intros Hn. assert (is_u32 (Z.of_nat n)) as Hu by (unfold is_u32; lia). rewrite as_u32_id by done.
  by apply codec_u32.
Qed.

Lemma codec_header : pure_codec 0 (write_header FORK_MAGIC) (read_header FORK_MAGIC) tt.
Proof.
  unfold write_header, read_header. assert (is_u32 FORK_MAGIC) by (unfold is_u32, u32_max, FORK_MAGIC; lia).
  assert (is_u32 FORK_VERSION) by (apply is_u32_small; unfold FORK_VERSION; lia). assert (is_u32 0) by (apply is_u32_small; lia).
  eapply codec_conv; [repeat codec_step|lia|done|done]; done.
Qed.

Lemma codec_fork_scalars p :
  scalars_ok p ->
  pure_codec 0 (write_fork_scalars p) read_fork_scalars
    (mkScalars (pr_pid p) (pr_uid p) (pr_gid p) (pr_euid p) (pr_egid p) (pr_pgid p) (pr_sid p) (pr_umask p) (pr_nice p)
       (pr_is_session_leader p)).
Proof.
  intros []. unfold write_fork_scalars, read_fork_scalars.
  eapply codec_conv; [repeat codec_step|lia|done|]. f_equal; [by apply as_i32_u32|by destruct (pr_is_session_leader p)].
Qed.

Lemma handler_roundtrip h :
  (match h with Handler ptr => 0 <= ptr < 2 ^ 32 - 2 | _ => True end) ->
  is_u32 (handler_to_u32 h) /\ u32_to_handler (handler_to_u32 h) = h.
Proof.
  unfold is_u32, u32_max, u32_to_handler. destruct h as [| |ptr]; simpl; intros Hp; try (split; [lia|done]).
  unfold u32_wrap. rewrite Z.mod_small by lia. split; [lia|]. repeat case_cmp; try lia. f_equal. lia.
Qed.


Definition child_signals (s : SignalState) : SignalState :=
  from_actions (fold_left (fun l i => <[Z.to_nat i := get_action s i]> l) (non_defaults s) (replicate 65 action_default)) (blocked s).

Lemma all_signals_valid i : i ∈ all_signals -> valid_sig i.
Proof.
  unfold all_signals, valid_sig. intros (n & -> & Hn)%list_elem_of_fmap. apply elem_of_seq in Hn.
  unfold SIGRTMAX_PLUS1 in Hn. lia.
Qed.

Lemma length_all_signals : length all_signals = 64%nat.
Proof. reflexivity. Qed.

Lemma all_signals_elem i : valid_sig i -> i ∈ all_signals.
Proof.
  unfold all_signals, valid_sig. intros Hi. apply list_elem_of_fmap. exists (Z.to_nat i). unfold SIGRTMAX_PLUS1. split; [lia|]. apply elem_of_seq. lia.
Qed.

Local Opaque all_signals.

Lemma non_defaults_valid s i : i ∈ non_defaults s -> valid_sig i.
Proof. unfold non_defaults. rewrite elem_of_filter_bool. intros [Hi _]. exact (all_signals_valid i Hi). Qed.

Lemma omap_filter {A} (p : A -> bool) l : omap (fun x => if p x then Some x else None) l = List.filter p l.
Proof. induction l as [|x l IH]; [done|]. cbn [omap list_omap List.filter]. by destruct (p x); rewrite <- IH. Qed.

Lemma write_actions_eq s w :
  w_for all_signals (write_action s) w =
  w_for (non_defaults s) (fun i => let a := get_action s i in
    write_u32 i ;> write_u32 (handler_to_u32 (sa_handler a)) ;> write_u32 (sa_flags a) ;> write_u64 (sa_mask a)) w.
Proof.
  unfold non_defaults. rewrite <- omap_filter, <- w_for_omap. apply w_for_ext. intros i w'. unfold write_action.
  by destruct (is_non_default (get_action s i)).
Qed.

Lemma codec_fork_signals s :
  signals_ok s -> pure_codec 0 (write_fork_signals s) read_fork_signals (child_signals s).
Proof.
  intros [Hb Ha]. unfold write_fork_signals, read_fork_signals.
  assert (length (non_defaults s) <= 64)%nat as Hlen.
  { unfold non_defaults. pose proof (filter_length_le (fun i => is_non_default (get_action s i)) all_signals) as Hf.
    rewrite length_all_signals in Hf. lia. }
  assert (is_u32 (Z.of_nat (length (non_defaults s)))) by (apply is_u32_small; lia).
  eapply codec_conv; [codec_step; codec_step; codec_step; [lia|]|lia| |].
  - eapply codec_last; [|intros; reflexivity]. eapply codec_ext; [apply write_actions_eq|]. rewrite Nat2Z.id.
    apply (codec_fold 0) with (ge := fun _ => id) (step := fun l i => <[Z.to_nat i := get_action s i]> l).
    intros i l Hi%non_defaults_valid. pose proof (Ha i Hi) as [Hh Hf Hm]. destruct (handler_roundtrip _ Hh) as [Hu Hr].
    assert (is_u32 i) by (unfold valid_sig in Hi; apply is_u32_small; lia).
    unfold read_action. eapply codec_conv; [repeat codec_step|lia|done|]. cbv beta.
    unfold valid_sig in Hi. rewrite (proj2 (Z.ltb_lt i 65)) by lia. rewrite Hr. by destruct (get_action s i).
  - intros g. apply effects_id.
  - done.
Qed.

(** Updates at the positions of a list, seen at one position. *)
Lemma fold_insert_lookup {A} (v : Z -> A) l acc n :
  Forall (fun i => 0 <= i) l -> (n < length acc)%nat ->
  fold_left (fun l i => <[Z.to_nat i := v i]> l) l acc !! n =
  if bool_decide (Z.of_nat n ∈ l) then Some (v (Z.of_nat n)) else acc !! n.
Proof.
  intros Hl. revert acc. induction Hl as [|i l Hi Hl IH]; intros acc Hn; cbn [fold_left].
  - by rewrite bool_decide_eq_false_2 by set_solver.
  - rewrite IH by by rewrite length_insert. destruct (decide (i = Z.of_nat n)) as [->|Hne].
    + rewrite (bool_decide_eq_true_2 (_ ∈ _ :: _)) by set_solver. case_bool_decide; [done|].
      by rewrite Nat2Z.id, list_lookup_insert_eq.
    + rewrite list_lookup_insert_ne by lia. repeat case_bool_decide; set_solver.
Qed.

(** The dispositions of the child are those of the parent; nothing is pending. *)
Lemma child_signals_spec s :
  (forall i, valid_sig i -> get_action (child_signals s) i = get_action s i) /\ blocked (child_signals s) = blocked s /\ pending (child_signals s) = 0 /\ rt_queue (child_signals s) = [].
Proof.
  split; [|done]. intros i Hi. unfold get_action at 1. unfold valid_sig in Hi.
  rewrite (proj2 (Z.eqb_neq i 0)), (proj2 (Z.leb_gt 65 i)) by lia. cbn [orb]. unfold action_at, child_signals.
  cbn [from_actions actions]. rewrite nth_lookup. rewrite fold_insert_lookup, Z2Nat.id by (rewrite ?length_replicate; lia || (apply Forall_forall; intros j Hj%non_defaults_valid; unfold valid_sig in Hj; lia)).
  case_bool_decide as Hin; [done|]. rewrite lookup_replicate_2 by lia. cbn [default].
  destruct (is_non_default (get_action s i)) eqn:E.
  - exfalso. apply Hin. unfold non_defaults. apply elem_of_filter_bool. split; [|done]. by apply all_signals_elem.
  - unfold is_non_default in E. bool_hyps. destruct (get_action s i) as [h f m]. cbn [sa_handler sa_flags sa_mask] in *.
    assert (f = 0) as -> by lia. assert (m = 0) as -> by lia. subst h. done.
Qed.

(** ** Tables with empty slots *)

(** The entry of a slot, if it is in range and occupied. *)
Definition slot {A} (l : list (option A)) (i : nat) : option A := match l !! i with Some x => x | None => None end.

(** The occupied slots with their indices. *)
Fixpoint slots_from {A} (i : nat) (l : list (option A)) : list (nat * A) :=
  match l with
  | [] => []
  | Some x :: l' => (i, x) :: slots_from (S i) l'
  | None :: l' => slots_from (S i) l'
  end.

Lemma elem_of_slots_from {A} (l : list (option A)) i j x :
  (j, x) ∈ slots_from i l <-> (i <= j)%nat /\ slot l (j - i) = Some x.
Proof.
  revert i. induction l as [|[y|] l IH]; intros i; cbn [slots_from].
  - split; [set_solver|]. intros [_ H]. done.
  - rewrite elem_of_cons, IH. destruct (decide (j = i)) as [->|Hne].
    + rewrite Nat.sub_diag. cbn. split; [intros [?|[? _]]; [split; [lia|congruence]|lia]|intros [_ ?]; left; congruence].
    + split.
      * intros [?|[Hle Hl]]; [congruence|]. split; [lia|]. by replace (j - i)%nat with (S (j - S i)) by lia.
      * intros [Hle Hl]. right. split; [lia|]. by replace (j - i)%nat with (S (j - S i)) in Hl by lia.
  - rewrite IH. destruct (decide (j = i)) as [->|Hne].
    + rewrite Nat.sub_diag. cbn. split; [lia|intros [_ ?]; done].
    + split; intros [Hle Hl]; (split; [lia|]).
      * by replace (j - i)%nat with (S (j - S i)) by lia.
      * by replace (j - i)%nat with (S (j - S i)) in Hl by lia.
Qed.

Lemma slots_from_NoDup {A} (l : list (option A)) i : NoDup (slots_from i l).*1.
Proof.
  revert i. induction l as [|[y|] l IH]; intros i; cbn [slots_from fmap list_fmap]; [constructor| |apply IH].
  constructor; [|apply IH]. intros ([j x] & Hj & Hin)%list_elem_of_fmap. cbn in Hj. subst.
  apply elem_of_slots_from in Hin as [? _]. lia.
Qed.

Lemma length_slots_from {A} (l : list (option A)) i : (length (slots_from i l) <= length l)%nat.
Proof. revert i. induction l as [|[y|] l IH]; intros i; cbn; [lia| |]; specialize (IH (S i)); lia. Qed.

Lemma slot_lt {A} (l : list (option A)) i x : slot l i = Some x -> (i < length l)%nat.
Proof. unfold slot. destruct (l !! i) eqn:E; [|done]. intros _. by apply lookup_lt_Some in E. Qed.

Lemma slot_put_at {A} (l : list (option A)) i j x : slot (put_at l i x) j = if decide (i = j) then Some x else slot l j.
Proof.
  unfold slot, put_at. destruct (decide (i = j)) as [->|Hne].
  - rewrite list_lookup_insert_eq; [done|]. rewrite length_app, length_replicate. lia.
  - rewrite list_lookup_insert_ne by done. destruct (decide (j < length l)%nat).
    + by rewrite lookup_app_l.
    + rewrite lookup_app_r, (lookup_ge_None_2 l) by lia. destruct (replicate _ _ !! _) eqn:E; [|done].
      by apply lookup_replicate in E as [-> _].
Qed.

Section put_all.
Context {A B : Type} (key : B -> nat) (val : B -> A).

Definition put_all (l : list B) (acc : list (option A)) : list (option A) :=
  fold_left (fun a x => put_at a (key x) (val x)) l acc.

Lemma put_all_absent l acc j : j ∉ key <$> l -> slot (put_all l acc) j = slot acc j.
Proof.
  revert acc. induction l as [|x l IH]; intros acc Hj; [done|]. cbn [put_all fold_left fmap list_fmap] in *.
  fold (put_all l (put_at acc (key x) (val x))). apply not_elem_of_cons in Hj as [? ?].
  rewrite IH, slot_put_at by done. by rewrite decide_False by done.
Qed.

Lemma put_all_present l acc x : NoDup (key <$> l) -> x ∈ l -> slot (put_all l acc) (key x) = Some (val x).
Proof.
  revert acc. induction l as [|y l IH]; intros acc Hd Hx; [set_solver|].
  cbn [put_all fold_left fmap list_fmap] in *. fold (put_all l (put_at acc (key y) (val y))).
  apply NoDup_cons in Hd as [Hy Hd]. apply elem_of_cons in Hx as [->|Hx]; [|by apply IH].
  rewrite put_all_absent, slot_put_at by done. by rewrite decide_True by done.
Qed.

End put_all.

Lemma NoDup_filter_fst {A} (p : nat * A -> bool) l : NoDup l.*1 -> NoDup (List.filter p l).*1.
Proof.
  induction l as [|x l IH]; intros Hd; [constructor|]. cbn [fmap list_fmap] in Hd. apply NoDup_cons in Hd as [Hi Hd].
  cbn [List.filter]. destruct (p x); [|by apply IH]. cbn [fmap list_fmap]. constructor; [|by apply IH].
  intros (y & Hy & [Hin _]%elem_of_filter_bool)%list_elem_of_fmap. apply Hi, list_elem_of_fmap. by exists y.
Qed.

(** The table rebuilt from the occupied slots that satisfy [p]. *)
Lemma put_slots {A B} (t : list (option B)) (p : nat * B -> bool) (v : nat * B -> A) j :
  slot (put_all fst v (List.filter p (slots_from 0 t)) []) j =
  match slot t j with Some x => if p (j, x) then Some (v (j, x)) else None | None => None end.
Proof.
  assert (forall x, (j, x) ∈ List.filter p (slots_from 0 t) <-> slot t j = Some x /\ p (j, x) = true) as He.
  { intros x. rewrite elem_of_filter_bool, elem_of_slots_from, Nat.sub_0_r. split; [tauto|]. intros []. split; [split; [lia|done]|done]. }
  assert (NoDup (List.filter p (slots_from 0 t)).*1) as Hnd by apply NoDup_filter_fst, slots_from_NoDup.
  assert (forall x, slot t j = Some x -> p (j, x) = true -> slot (put_all fst v (List.filter p (slots_from 0 t)) []) j = Some (v (j, x))) as Hin.
  { intros x Hx Hp. apply (put_all_present fst v _ _ (j, x)); [done|]. by apply He. }
  assert ((forall x, slot t j = Some x -> p (j, x) = false) -> slot (put_all fst v (List.filter p (slots_from 0 t)) []) j = None) as Hout.
  { intros Hx. rewrite put_all_absent; [done|]. intros ([i x] & Hi & Hy)%list_elem_of_fmap. cbn [fst] in Hi. subst i.
    apply He in Hy as [H1 H2]. rewrite (Hx _ H1) in H2. done. }
  destruct (slot t j) as [x|] eqn:E; [|by apply Hout]. destruct (p (j, x)) eqn:Ep; [by apply Hin|].
  apply Hout. intros y [= <-]. done.
Qed.

(** ** Descriptors *)

Definition tag_fd (x : nat * FdEntry) : Z * FdEntry := (as_i32 (Z.of_nat x.1), x.2).

Definition kept_fds (flag : Z) (t : FdTable) : list (nat * FdEntry) :=
  List.filter (fun x => Z.land (fd_flags x.2) flag =? 0) (slots_from 0 (FdTable.entries t)).

Lemma fd_iter_slots t : FdTable.iter t = tag_fd <$> slots_from 0 (FdTable.entries t).
Proof.
  unfold FdTable.iter. generalize 0%nat. induction (FdTable.entries t) as [|[e|] l IH]; intros i; [done| |].
  - cbn [length seq zip_with omap list_omap fmap option_fmap option_map slots_from list_fmap]. f_equal. apply IH.
  - cbn [length seq zip_with omap list_omap fmap option_fmap option_map slots_from list_fmap]. apply IH.
Qed.

Lemma filter_fmap_bool {A B} (f : A -> B) (p : B -> bool) l : List.filter p (f <$> l) = f <$> List.filter (fun x => p (f x)) l.
Proof. induction l as [|x l IH]; [done|]. cbn [fmap list_fmap List.filter]. destruct (p (f x)); [|done]. cbn. f_equal. apply IH. Qed.

Lemma kept_fds_eq flag t : List.filter (keeps_fd flag) (FdTable.iter t) = tag_fd <$> kept_fds flag t.
Proof. rewrite fd_iter_slots, filter_fmap_bool. done. Qed.

Lemma w_for_fmap {A B} (f : A -> B) (g : B -> W) l w : w_for (f <$> l) g w = w_for l (fun x => g (f x)) w.
Proof. revert w. induction l as [|x l IH]; intros w; [done|]. cbn [w_for fmap list_fmap]. unfold w_seq. destruct (g (f x) w); [apply IH|done]. Qed.

Lemma r_grow_ok `{Heap} i r : Z.of_nat i < 65536 -> r_grow i r = (Ret tt, r).
Proof. intros Hi. unfold r_grow. pose proof table_slots_ok. by rewrite (proj2 (Z.ltb_lt _ _)) by lia. Qed.

Lemma codec_fd_table `{Heap} skip max l :
  nat_u32 max -> Z.of_nat (length l) <= 65536 ->
  Forall (fun x => Z.of_nat x.1 < 65536 /\ fd_entry_ok x.2 /\ Z.land (fd_flags x.2) skip = 0) l ->
  pure_codec 0 (write_fd_table max (tag_fd <$> l)) (read_fd_table skip) (FdTable.from_raw (put_all fst snd l []) max).
Proof.
  intros Hm Hlen Hl. unfold write_fd_table, read_fd_table.
  assert (nat_u32 (length (tag_fd <$> l))) as Hn by (rewrite length_fmap; by apply nat_u32_small).
  eapply codec_conv; [codec_step; eapply codec_seq; [by apply codec_count|]; codec_step|lia| |reflexivity].
  - apply Z.leb_le. rewrite length_fmap. unfold MAX_FDS. lia.
  - eapply codec_last; [|intros; reflexivity]. eapply codec_ext; [apply w_for_fmap|]. rewrite Nat2Z.id, length_fmap.
    apply (codec_fold 0) with (ge := fun _ => id) (step := fun a x => put_at a x.1 x.2).
    intros [i [o f]] a Hx. rewrite Forall_forall in Hl. apply Hl in Hx as (Hi & [Ho Hf] & Hs). cbn [fst snd ofd_ref fd_flags] in *.
    unfold write_fd_entry, read_fd_entry, tag_fd. cbn [fst snd ofd_ref fd_flags].
    assert (as_u32 (as_i32 (Z.of_nat i)) = as_u32 (Z.of_nat i)) as -> by (rewrite as_i32_nat_id by lia; done).
    assert (nat_u32 i) by (apply nat_u32_small; lia).
    eapply codec_conv; [codec_step; codec_step; eapply codec_last; [by apply codec_u32|intros r; cbv beta; rewrite Hs; cbn [Z.eqb negb]]|lia|done|done].
    unfold r_bind. by rewrite r_grow_ok.
  - intros g. apply effects_id.
Qed.

Lemma kept_fds_ok flag t :
  fds_ok t ->
  Z.of_nat (length (kept_fds flag t)) <= 65536 /\
  Forall (fun x => Z.of_nat x.1 < 65536 /\ fd_entry_ok x.2 /\ Z.land (fd_flags x.2) flag = 0) (kept_fds flag t).
Proof.
  intros [Hm Hlen He]. unfold kept_fds. split.
  - pose proof (filter_length_le (fun x : nat * FdEntry => Z.land (fd_flags x.2) flag =? 0) (slots_from 0 (FdTable.entries t))).
    pose proof (length_slots_from (FdTable.entries t) 0). lia.
  - apply Forall_forall. intros [i e] [[_ Hs]%elem_of_slots_from Hf]%elem_of_filter_bool. rewrite Nat.sub_0_r in Hs.
    pose proof (slot_lt _ _ _ Hs). cbn [fst snd] in *. split_and!; [lia| |lia]. unfold slot in Hs.
    destruct (FdTable.entries t !! i) as [x|] eqn:E; [|done]. subst x. by eapply He.
Qed.

(** How many inherited descriptors refer to a description. *)
Definition refs_to (l : list (nat * FdEntry)) (i : nat) : Z := Z.of_nat (length (List.filter (fun x => (ofd_ref x.2 =? i)%nat) l)).

Lemma count_refs_fold l i (m : gmap nat Z) :
  Z.of_nat (length l) + default 0 (m !! i) < 2 ^ 32 -> 0 <= default 0 (m !! i) ->
  fold_left (fun m x => <[ofd_ref x.2 := u32_wrap (default 0 (m !! ofd_ref x.2) + 1)]> m) (tag_fd <$> l) m !! i =
  (if bool_decide (refs_to l i = 0) then m !! i else Some (default 0 (m !! i) + refs_to l i)).
Proof.
  revert m. induction l as [|[k e] l IH]; intros m Hlt H0; [done|]. cbn [fmap list_fmap fold_left]. cbn [length] in Hlt.
  destruct (Nat.eqb_spec (ofd_ref e) i) as [<-|Hne].
  - assert (u32_wrap (default 0 (m !! ofd_ref e) + 1) = default 0 (m !! ofd_ref e) + 1) as Hw by (unfold u32_wrap; rewrite Z.mod_small; lia).
    change (ofd_ref (tag_fd (k, e)).2) with (ofd_ref e). rewrite Hw. rewrite IH; rewrite lookup_insert_eq; cbn [default from_option id]; [|lia..].
    unfold refs_to. cbn [List.filter snd]. rewrite Nat.eqb_refl. cbn [length].
    repeat case_bool_decide; f_equal; lia.
  - change (ofd_ref (tag_fd (k, e)).2) with (ofd_ref e). rewrite IH; rewrite lookup_insert_ne by done; [|lia..].
    unfold refs_to. cbn [List.filter snd]. by rewrite (proj2 (Nat.eqb_neq _ _) Hne).
Qed.

Lemma count_refs_lookup l i :
  Z.of_nat (length l) <= 65536 ->
  count_refs (tag_fd <$> l) !! i = if bool_decide (refs_to l i = 0) then None else Some (refs_to l i).
Proof.
  intros Hl. unfold count_refs. rewrite count_refs_fold; rewrite lookup_empty; cbn [default from_option id]; [|lia..].
  case_bool_decide; [done|]. f_equal.
Qed.

(** ** Open file descriptions *)

(** Decide on the tag just read. *)
Ltac tag_step :=
  cbv beta;
  unfold FILE_ID_NONE, FILE_ID_HOST, FILE_ID_KERNEL_MEMFD, FILE_ID_KERNEL_SYNTHETIC_REGULAR, FILE_ID_KERNEL_PROCFS_REGULAR,
    DRI_TAG_NONE, DRI_TAG_RENDER_NODE, DRI_TAG_CARD, DRI_TAG_PRIME_BO;
  cbn [Z.eqb Pos.eqb].

Lemma codec_file_id f : file_id_ok f -> pure_codec 1 (write_file_id f) read_file_id f.
Proof.
  destruct f as [[dev ino|[] id]|]; cbn [file_id_ok write_file_id]; intros Hf; unfold read_file_id; [destruct Hf|..].
  1-4: eapply codec_conv; [codec_step; tag_step; repeat codec_step|lia|done|done].
  eapply codec_conv; [codec_step|lia|done|done].
Qed.

Lemma file_type_roundtrip ft : is_u32 (file_type_to_u32 ft) /\ forall r, u32_to_file_type (file_type_to_u32 ft) r = (Ret ft, r).
Proof. unfold is_u32, u32_max. split; [destruct ft; cbn; lia|by destruct ft]. Qed.

Lemma btree_iter_perm {A} (m : gmap Z A) : btree_iter m ≡ₚ map_to_list m.
Proof. apply merge_sort_Permutation. Qed.

Lemma length_btree_iter {A} (m : gmap Z A) : length (btree_iter m) = size m.
Proof. rewrite btree_iter_perm. apply length_map_to_list. Qed.

Lemma elem_of_btree_iter {A} (m : gmap Z A) i x : (i, x) ∈ btree_iter m <-> m !! i = Some x.
Proof. rewrite btree_iter_perm. apply elem_of_map_to_list. Qed.

Lemma btree_iter_rebuilds {A} (m : gmap Z A) : fold_left (fun a x => <[x.1 := x.2]> a) (btree_iter m) ∅ = m.
Proof.
  rewrite <- fold_left_rev_right. change (list_to_map (M := gmap Z A) (rev (btree_iter m)) = m).
  assert (rev (btree_iter m) ≡ₚ map_to_list m) as Hp by (etrans; [symmetry; apply Permutation_rev|apply btree_iter_perm]).
  rewrite <- (list_to_map_to_list m) at 2. apply list_to_map_proper; [|done]. rewrite Hp. apply NoDup_fst_map_to_list.
Qed.

Lemma effects_fmap {A B} (f : A -> B) (ge : B -> globals -> globals) l s : effects (fun x => ge (f x)) l s = effects ge (f <$> l) s.
Proof. revert s. induction l as [|x l IH]; intros s; cbn; [done|]. apply IH. Qed.

Lemma effects_app {A} (ge : A -> globals -> globals) l1 l2 s : effects ge (l1 ++ l2) s = effects ge l2 (effects ge l1 s).
Proof. revert s. induction l1 as [|x l IH]; intros s; cbn; [done|]. apply IH. Qed.

(** An increment in the middle of a reader. *)
Lemma codec_incref_last {A B} n w (m : R A) (k : A -> R B) g a bo b :
  codec n w m g a -> (forall r, k a r = (let! _ := r_incref bo in r_ret b) r) -> codec n w (r_bind m k) (g_incref bo ∘ g) b.
Proof.
  intros (o & Hn & He & Hr) Hk. exists o. split; [done|]. split; [done|].
  intros pre post s. unfold r_bind. rewrite Hr, Hk. done.
Qed.

Definition child_dri_fd (d : DriFdState) : DriFdState := mkDriFd (dri_handles d) (next_handle d) None.
Definition child_kms (keep_master : bool) (k : KmsFdState) : KmsFdState :=
  mkKms (keep_master && holds_master k) (kms_fbs k) (next_fb_id k) (pending_flips k) [].
Definition child_dri (keep_master : bool) (d : option DriOfdState) : option DriOfdState :=
  match d with
  | None => None
  | Some (RenderNode d) => Some (RenderNode (child_dri_fd d))
  | Some (Card d k) => Some (Card (child_dri_fd d) (child_kms keep_master k))
  | Some (PrimeBo p) => Some (PrimeBo p)
  end.

(** The buffer objects a description refers to, once per reference. *)
Definition handle_bos (d : DriFdState) : list Z := (btree_iter (dri_handles d)).*2.
Definition fb_bos (k : KmsFdState) : list Z := (fun x => fb_bo_id x.2) <$> btree_iter (kms_fbs k).
Definition bo_refs (d : option DriOfdState) : list Z :=
  match d with
  | None => []
  | Some (RenderNode d) => handle_bos d
  | Some (Card d k) => handle_bos d ++ fb_bos k
  | Some (PrimeBo p) => [pb_bo_id p]
  end.

Lemma codec_dri_fd d :
  dri_fd_ok d -> codec 0 (write_dri_fd_state d) read_dri_fd_state (effects g_incref (handle_bos d)) (child_dri_fd d).
Proof.
  intros [Hs Hh Hn]. unfold write_dri_fd_state, read_dri_fd_state.
  assert (nat_u32 (size (dri_handles d))) by by apply nat_u32_small.
  eapply codec_conv; [codec_step; codec_step; [by apply Z.leb_le|]; eapply codec_seq; [|codec_step]|lia| |].
  - rewrite <- length_btree_iter. apply (codec_fold 0) with (ge := fun x => g_incref x.2) (step := fun a x => <[x.1 := x.2]> a).
    intros [h b] a [Hu Hb]%elem_of_btree_iter%Hh. unfold write_handle, read_handle. cbn [fst snd].
    eapply codec_conv; [codec_step; eapply codec_incref_last; [by apply codec_u32|intros; reflexivity]|lia|done|done].
  - intros g. cbn. unfold handle_bos. by rewrite <- effects_fmap.
  - unfold child_dri_fd. by rewrite btree_iter_rebuilds.
Qed.

Lemma codec_kms_fd k keep :
  kms_fd_ok k -> codec 0 (write_kms_fd_state k keep) read_kms_fd_state (effects g_incref (fb_bos k)) (child_kms keep k).
Proof.
  intros [Hs Hh Hn [Hfl Hff]]. unfold write_kms_fd_state, read_kms_fd_state.
  assert (nat_u32 (size (kms_fbs k))) by by apply nat_u32_small. assert (nat_u32 (length (pending_flips k))) by by apply nat_u32_small.
  eapply codec_conv; [codec_step; codec_step; codec_step; [by apply Z.leb_le|]; eapply codec_seq;
    [|codec_step; codec_step; codec_step; [by apply Z.leb_le|]; eapply codec_last; [|intros; reflexivity]]|lia| |].
  - rewrite <- length_btree_iter. apply (codec_fold 0) with (ge := fun x => g_incref (fb_bo_id x.2)) (step := fun a x => <[x.1 := x.2]> a).
    intros [i f] a [? ? ? ? ? ?]%elem_of_btree_iter%Hh. unfold write_kms_fb, read_kms_fb. cbn [fst snd].
    eapply codec_conv; [do 5 codec_step; eapply codec_incref_last; [by apply codec_u32|intros; reflexivity]|lia|done|].
    cbv beta. by destruct f.
  - apply (codec_vec 0 _ _ _ id). intros f Hf. rewrite Forall_forall in Hff. apply Hff in Hf as [].
    unfold write_flip, read_flip. eapply codec_conv; [repeat codec_step|lia|done|]. by destruct f.
  - intros g. cbn. unfold fb_bos. by rewrite <- effects_fmap.
  - unfold child_kms. rewrite btree_iter_rebuilds, list_fmap_id. by destruct (keep && holds_master k).
Qed.

Lemma codec_dri d keep :
  dri_ok d -> codec 0 (write_dri_state d keep) read_dri_state (effects g_incref (bo_refs d)) (child_dri keep d).
Proof.
  destruct d as [[p|d|d k]|]; cbn [dri_ok write_dri_state bo_refs child_dri]; intros Hd; unfold read_dri_state.
  - destruct Hd as [Hb Hc]. eapply codec_conv; [codec_step; tag_step|lia| |].
    + codec_step. eapply codec_incref_last; [by apply codec_u64|intros; reflexivity].
    + done.
    + by destruct p.
  - eapply codec_conv; [codec_step; tag_step; eapply codec_last; [by apply codec_dri_fd|intros; reflexivity]|lia|done|done].
  - destruct Hd as [Hd Hk]. eapply codec_conv; [codec_step; tag_step; eapply codec_seq; [by apply codec_dri_fd|];
      eapply codec_last; [by apply codec_kms_fd|intros; reflexivity]|lia| |done].
    intros s. cbn. by rewrite effects_app.
  - eapply codec_conv; [eapply codec_last; [apply codec_u8|intros; reflexivity]|lia|done|done].
Qed.

Lemma codec_last_effect {A B} n w (m : R A) (k : A -> R B) g g2 a b :
  codec n w m g a -> (forall r, k a r = (Ret b, mkR (r_buf r) (r_pos r) (g2 (r_globals r)))) -> codec n w (r_bind m k) (g2 ∘ g) b.
Proof.
  intros (o & Hn & He & Hr) Hk. exists o. split; [done|]. split; [done|].
  intros pre post s. unfold r_bind. by rewrite Hr, Hk.
Qed.

(** The description the new process gets. *)
Definition child_ofd (pid refs : Z) (keep_master : bool) (o : OpenFileDesc) : OpenFileDesc :=
  mkOfd (ofd_id o) (file_id o) (file_type o) (status_flags o) (host_handle o) (offset o) refs pid (path o) (-1) 0 0
    (child_dri keep_master (dri_state o)).

Lemma codec_ofd `{Heap} refs keep pid i o acc :
  Z.of_nat i < 65536 -> is_u32 (default 0 (refs !! i)) -> ofd_ok o ->
  codec 0 (write_ofd refs keep (i, o)) (read_ofd pid acc) (effects g_incref (bo_refs (dri_state o)))
    (put_at acc i (child_ofd pid (default 0 (refs !! i)) keep o)).
Proof.
  intros Hi Hc [Hid Hf Hfl Hh Ho Hp Hd]. unfold write_ofd, read_ofd. cbn [fst snd].
  destruct (file_type_roundtrip (file_type o)) as [Hu Hft]. assert (is_u64 (ofd_id o)) by (unfold is_u64; lia).
  assert (nat_u32 i) by (apply nat_u32_small; lia).
  eapply codec_conv; [codec_step; codec_step; codec_step; [apply negb_true_iff, Z.eqb_neq; lia|]|lia| |].
  - eapply codec_seq; [by apply codec_file_id|]. codec_step. eapply codec_pre; [apply Hft|].
    do 5 codec_step. eapply codec_pre; [intros r; by apply r_grow_ok|]. eapply codec_last; [by apply codec_dri|intros; reflexivity].
  - done.
  - done.
Qed.

Lemma ofd_iter_slots t : Ofd.iter t = slots_from 0 (entries t).
Proof. unfold Ofd.iter. generalize 0%nat. induction (entries t) as [|[o|] l IH]; intros i; cbn; [done| |]; by rewrite IH. Qed.

(** [observe_ofd_id] over a table whose identities are not zero. *)
Definition g_observe (l : list (option OpenFileDesc)) (g : globals) : globals :=
  mkGlobals (g_registry g) (default (g_last_ofd_id g) (observe_all (g_last_ofd_id g) l)).

Lemma r_from_raw_ok l r : ids_set l -> r_from_raw l r = (Ret (mkTable l), mkR (r_buf r) (r_pos r) (g_observe l (r_globals r))).
Proof.
  intros Hl. unfold r_from_raw, Ofd.from_raw, g_observe. by destruct (observe_all_Some (g_last_ofd_id (r_globals r)) l Hl) as [x ->].
Qed.

(** The descriptions of the new process. *)
Definition child_ofds (pid : Z) (keep : bool) (t : OfdTable) (refs : gmap nat Z) : list (option OpenFileDesc) :=
  put_all fst (fun x => child_ofd pid (default 0 (refs !! x.1)) keep x.2) (kept_ofds t refs) [].

(** What reading them does to the global tables. *)
Definition ofd_effects (pid : Z) (keep : bool) (t : OfdTable) (refs : gmap nat Z) : globals -> globals :=
  g_observe (child_ofds pid keep t refs) ∘ effects g_incref (concat ((fun x => bo_refs (dri_state x.2)) <$> kept_ofds t refs)).

Lemma effects_concat {A} (f : A -> list Z) l s :
  effects (fun x => effects g_incref (f x)) l s = effects g_incref (concat (f <$> l)) s.
Proof. revert s. induction l as [|x l IH]; intros s; [done|]. cbn [effects fmap list_fmap concat]. rewrite effects_app. apply IH. Qed.

Lemma put_all_Forall {A B} (key : B -> nat) (val : B -> A) (P : option A -> Prop) l acc :
  P None -> Forall P acc -> Forall (fun x => P (Some (val x))) l -> Forall P (put_all key val l acc).
Proof.
  intros Hn Ha Hl. revert acc Ha. induction Hl as [|x l Hx Hl IH]; intros acc Ha; [done|]. cbn [put_all fold_left].
  apply IH. by apply put_at_Forall.
Qed.

Lemma kept_ofds_elem t refs i o : (i, o) ∈ kept_ofds t refs -> Ofd.get t i = Some o /\ is_Some (refs !! i).
Proof.
  unfold kept_ofds. rewrite ofd_iter_slots, elem_of_filter_bool, elem_of_slots_from, Nat.sub_0_r. intros [[_ H1] H2].
  split; [|by apply bool_decide_eq_true in H2]. unfold slot in H1. unfold Ofd.get. by destruct (entries t !! i).
Qed.

Lemma codec_ofd_table `{Heap} pid keep t refs :
  ofds_ok t -> (forall i c, refs !! i = Some c -> is_u32 c) ->
  codec 0 (write_ofd_table t refs keep) (read_ofd_table pid) (ofd_effects pid keep t refs) (mkTable (child_ofds pid keep t refs)).
Proof.
  intros [Hlen He] Hr. unfold write_ofd_table, read_ofd_table, ofd_effects.
  assert (Z.of_nat (length (kept_ofds t refs)) <= 65536) as Hk.
  { unfold kept_ofds. rewrite ofd_iter_slots. pose proof (length_slots_from (entries t) 0).
    pose proof (filter_length_le (fun x : nat * OpenFileDesc => bool_decide (is_Some (refs !! x.1))) (slots_from 0 (entries t))). lia. }
  assert (forall i o, (i, o) ∈ kept_ofds t refs -> Z.of_nat i < 65536 /\ is_u32 (default 0 (refs !! i)) /\ ofd_ok o) as Hin.
  { intros i o [Ho [c Hc]]%kept_ofds_elem. rewrite Hc. split_and!; [|by eapply Hr|by eapply He].
    unfold Ofd.get in Ho. destruct (entries t !! i) eqn:E; [|done]. apply lookup_lt_Some in E. lia. }
  eapply codec_conv; [eapply codec_seq; [apply codec_count; by apply nat_u32_small|]; codec_step; [by apply Z.leb_le|]|lia| |].
  - eapply codec_last_effect; [|intros r; apply r_from_raw_ok]; [rewrite Nat2Z.id|].
    + apply (codec_fold 0) with (ge := fun x => effects g_incref (bo_refs (dri_state x.2)))
        (step := fun a x => put_at a x.1 (child_ofd pid (default 0 (refs !! x.1)) keep x.2)).
      intros [i o] a (Hi & Hc & Ho)%Hin. by apply codec_ofd.
    + apply (put_all_Forall fst (fun x => child_ofd pid (default 0 (refs !! x.1)) keep x.2)); [done|constructor|].
      apply Forall_forall. intros [i o] (_ & _ & [])%Hin. cbn. lia.
  - intros s. cbn. by rewrite effects_concat.
  - done.
Qed.

(** ** Strings, limits, terminal, memory *)

Lemma codec_strings l max : max = 65536 -> strings_ok l -> pure_codec 4 (write_strings l) (read_strings max) l.
Proof.
  intros -> [Hlen Hl]. unfold write_strings, read_strings.
  eapply codec_conv; [eapply codec_seq; [apply codec_count; by apply nat_u32_small|]; codec_step; [by apply Z.leb_le|]|lia|done|].
  - rewrite Nat2Z.id. apply (codec_vec 0 _ _ _ id). intros s Hs. rewrite Forall_forall in Hl.
    eapply codec_weaken; [apply codec_string; by apply Hl|lia|done].
  - by rewrite list_fmap_id.
Qed.

Lemma codec_rlimits l : rlimits_ok l -> pure_codec 0 (w_for l write_rlimit) (r_vec 16 read_rlimit) l.
Proof.
  intros [Hlen Hl]. rewrite <- Hlen. eapply codec_conv; [apply (codec_vec 0 _ _ _ id)|lia|done|by rewrite list_fmap_id].
  intros [a b] Hx. rewrite Forall_forall in Hl. apply Hl in Hx as [Ha Hb]. cbn [fst snd] in *.
  unfold write_rlimit, read_rlimit. eapply codec_conv; [repeat codec_step|lia|done|done].
Qed.

(** The terminal keeps its settings; its input is not inherited. *)
Definition child_terminal (t : TerminalState) : TerminalState :=
  mkTerm (c_iflag t) (c_oflag t) (c_cflag t) (c_lflag t) (c_line t) (c_cc t) (c_ispeed t) (c_ospeed t) (winsize t) 1 (session_id t) [] [].

Lemma codec_terminal t : term_fields_ok t -> pure_codec 0 (write_terminal t) read_terminal (child_terminal t).
Proof.
  intros []. unfold write_terminal, read_terminal. eapply codec_conv; [repeat codec_step|lia|done|].
  unfold child_terminal. by destruct (winsize t).
Qed.

Section memory.
Context `{Usize}.

(** A fresh address space with the layout and the break of [m]. *)
Definition child_layout (m : MemoryManager) : MemoryManager :=
  with_break (set_layout_metadata Memory.new (layout_metadata m)) (program_break m).

Lemma set_brk_fresh m :
  memory_ok m ->
  (set_brk (set_layout_metadata Memory.new (layout_metadata m)) (program_break m)).2 = child_layout m.
Proof.
  intros [(Hu & H0 & [Hi Hm] & Hl) ? ? ? ? ? ? ? ?]. unfold set_brk.
  cbn [set_layout_metadata layout_metadata Memory.new program_break initial_brk max_addr brk_limit data_limit lm_initial_brk lm_max_addr lm_brk_limit].
  rewrite (proj2 (Z.eqb_neq _ _) H0). do 3 (case_cmp; [lia|]).
  assert (usize_checked_add INITIAL_BRK (program_break m - INITIAL_BRK) = Some (program_break m)) as Hc.
  { unfold usize_checked_add. pose proof usize_max_ge. unfold is_u32 in Hu. case_cmp; [f_equal; lia|lia]. }
  assert (overlaps_mappings (set_layout_metadata Memory.new (layout_metadata m)) INITIAL_BRK (program_break m - INITIAL_BRK) = false) as Ho
    by (unfold overlaps_mappings; by rewrite Hc).
  assert (overlaps_reserved_regions (set_layout_metadata Memory.new (layout_metadata m)) INITIAL_BRK (program_break m - INITIAL_BRK) = false) as Hr
    by (unfold overlaps_reserved_regions; by rewrite Hc).
  rewrite Ho, Hr, !andb_false_r. unfold is_u32, u32_max, u64_max in *.
  rewrite (proj2 (Z.ltb_ge (2 ^ 64 - 1) _)) by lia. by rewrite andb_false_r.
Qed.

Lemma codec_layout m : memory_ok m -> pure_codec 0 (write_layout m) read_layout (child_layout m).
Proof.
  intros Hm. pose proof (set_brk_fresh m Hm) as Hb. destruct Hm as [(? & ? & ? & ?) ? ? ? ? ? ? ? ?].
  unfold write_layout, read_layout, get_brk. eapply codec_conv; [repeat codec_step|lia|done|]. cbv beta.
  cbn [layout_metadata lm_initial_brk lm_max_addr lm_brk_limit lm_mmap_base lm_reserved_until]. rewrite !as_u32_id by done. apply Hb.
Qed.

Lemma codec_mappings m c :
  memory_ok m -> pure_codec 4 (write_mappings m) (read_mappings c) (with_mappings c (mappings m)).
Proof.
  intros []. unfold write_mappings, read_mappings. apply codec_if_remaining; [|lia].
  assert (nat_u32 (length (mappings m))) by (apply nat_u32_small; lia).
  eapply codec_conv; [codec_step; codec_step; [by apply Nat.leb_le|]; eapply codec_last; [|intros; reflexivity]|lia|done|].
  - apply (codec_vec 0 _ _ _ id). intros x Hx. pose proof (proj1 (Forall_forall _ _) mo_fields0 x Hx) as (? & ? & ? & ?).
    unfold write_mapping, read_mapping. eapply codec_conv; [repeat codec_step|lia|done|]. rewrite !as_u32_id by done. by destruct x.
  - rewrite list_fmap_id. unfold set_mappings. by rewrite mo_sorted0.
Qed.

End memory.

Lemma codec_exec_path o :
  (match o with Some s => (1 <= length s <= MAX_PATH_LEN)%nat | None => True end) ->
  pure_codec 4 (write_exec_path o) read_exec_path o.
Proof.
  intros Ho. unfold read_exec_path. apply codec_if_remaining; [|lia]. destruct o as [s|]; unfold write_exec_path.
  - assert (nat_u32 (length s)) by (pose proof nat_u32_path; unfold nat_u32 in *; lia).
    unfold write_sized. eapply codec_conv; [codec_step; cbv beta|lia|done|reflexivity].
    case_cmp; [|lia]. eapply codec_last; [apply codec_bounded; [done|lia]|intros; reflexivity].
  - eapply codec_conv; [eapply codec_last; [apply (codec_usize 0); unfold nat_u32, u32_max; lia|intros; reflexivity]|lia|done|done].
Qed.

Lemma codec_exec_argv o :
  (match o with Some l => l <> [] /\ strings_ok l | None => True end) ->
  pure_codec 4 (write_exec_argv o) read_exec_argv o.
Proof.
  intros Ho. unfold read_exec_argv. apply codec_if_remaining; [|lia]. destruct o as [l|]; unfold write_exec_argv.
  - destruct Ho as [Hne [Hlen Hl]]. assert (nat_u32 (length l)) by by apply nat_u32_small.
    unfold write_strings. eapply codec_conv; [codec_step; cbv beta|lia|done|].
    + destruct l as [|x l']; [done|]. set (l := x :: l') in *. assert (0 <? length l = true)%nat as -> by done.
      codec_step; [by apply Z.leb_le|]. eapply codec_last; [|intros; reflexivity].
      apply (codec_vec 0 _ _ _ id). intros s Hs. rewrite Forall_forall in Hl.
      eapply codec_weaken; [apply codec_string; by apply Hl|lia|done].
    + by rewrite list_fmap_id.
  - eapply codec_conv; [eapply codec_last; [apply (codec_usize 0); unfold nat_u32, u32_max; lia|intros; reflexivity]|lia|done|done].
Qed.

(** The actions the reader knows. *)
Definition child_action (a : FdAction) : option FdAction := match a with FdOpen _ _ _ _ => None | _ => Some a end.

Lemma codec_fd_actions l :
  nat_u32 (length l) -> Forall fd_action_ok l -> pure_codec 4 (write_fd_actions l) read_fd_actions (omap child_action l).
Proof.
  intros Hn Hl. unfold write_fd_actions, read_fd_actions. apply codec_if_remaining; [|lia].
  assert (forall acc, fold_left (fun a x => match child_action x with Some y => vec_push a y | None => a end) l acc = acc ++ omap child_action l) as Hf.
  { clear. induction l as [|x l IH]; intros acc; cbn [fold_left omap list_omap]; [by rewrite app_nil_r|].
    rewrite IH. destruct (child_action x); [|done]. unfold vec_push. by rewrite <- app_assoc. }
  eapply codec_conv; [codec_step; cbv beta|lia| |apply (Hf [])].
  - apply (codec_fold 0) with (ge := fun _ => id) (step := fun a x => match child_action x with Some y => vec_push a y | None => a end).
    intros x a Hx. rewrite Forall_forall in Hl. apply Hl in Hx.
    assert (is_u32 0) by (apply is_u32_small; lia). assert (is_u32 1) by (apply is_u32_small; lia). assert (is_u32 2) by (apply is_u32_small; lia).
    unfold read_fd_action. destruct x as [old new|fd|fd p f m]; cbn [write_fd_action fd_action_ok child_action] in *; [destruct Hx|..];
      (eapply codec_conv; [repeat codec_step|lia|done|]; cbv beta; cbn [Z.eqb]; rewrite ?as_i32_u32 by done; done).
  - intros g. apply effects_id.
Qed.

(** ** Sockets *)

Lemma codec_source_list l : source_list_ok l -> pure_codec 4 (write_ipv4_source_list l) read_ipv4_source_list l.
Proof.
  intros [Hlen Hl]. unfold write_ipv4_source_list, read_ipv4_source_list.
  eapply codec_conv; [codec_step; eapply codec_need| | |].
  - apply (codec_vec 4 _ _ _ id). intros a Ha. rewrite Forall_forall in Hl. apply codec_bytes. by apply Hl.
  - lia.
  - lia.
  - done.
  - by rewrite list_fmap_id.
Qed.

Lemma codec_membership m : membership_ok m -> pure_codec 20 (write_membership m) read_membership m.
Proof.
  intros [? ? Hb Hi]. unfold write_membership, read_membership, read_ipv4_addr. apply codec_source_list in Hb, Hi.
  eapply codec_conv; [codec_step; codec_step; codec_step; cbv beta| | |].
  - eapply (codec_pre _ _ _ _ _ (mm_any_source m)); [by destruct (mm_any_source m)|].
    eapply codec_seq; [done|]. eapply codec_last; [done|intros; reflexivity].
  - lia.
  - done.
  - by destruct m.
Qed.

Lemma codec_bind_device d :
  (match d with Some x => (length x <= MAX_SOCKET_STRING_LEN)%nat | None => True end) ->
  pure_codec 4 (write_bind_device d) read_bind_device d.
Proof.
  intros Hd. unfold read_bind_device. destruct d as [x|]; cbn [write_bind_device].
  - unfold write_bounded_len. assert (Z.of_nat (length x) <= 256) by (unfold MAX_SOCKET_STRING_LEN in Hd; lia).
    case_cmp; [lia|]. assert (is_u32 (Z.of_nat (length x))) by (apply is_u32_small; lia).
    rewrite (proj2 (Z.ltb_ge _ _)) by (unfold u32_max; lia). cbn [orb].
    eapply codec_conv; [codec_step; cbv beta| | |reflexivity]; [|lia|].
    2: { done. }
    rewrite (proj2 (Z.eqb_neq _ _)) by (unfold u32_max; lia).
    rewrite Nat2Z.id. eapply codec_last; [by apply codec_bounded|intros; reflexivity].
  - eapply codec_conv; [eapply codec_last; [apply codec_u32; unfold is_u32, u32_max; lia|intros; reflexivity]|lia|done|done].
Qed.

Lemma codec_durable s c :
  socket_ok s ->
  pure_codec 0 (write_durable_socket_state s) (read_durable_socket_state c)
    (with_durable c (sk_bind_addr6 s) (sk_peer_addr6 s) (sk_linger_onoff s) (sk_linger_seconds s) (sk_recv_timeout_us s)
       (sk_send_timeout_us s) (sk_bind_device s) (sk_tcp_congestion s) (sk_ipv4_multicast_memberships s)).
Proof.
  intros []. destruct sko_addr7, sko_linger0, sko_timeouts0, sko_memberships0 as [Hml Hmf].
  unfold write_durable_socket_state, read_durable_socket_state. apply codec_bind_device in sko_device0.
  eapply codec_conv; [do 6 codec_step; eapply codec_seq; [done|]; do 3 codec_step; eapply codec_need| | |].
  - eapply codec_last; [|intros; reflexivity]. apply (codec_vec 20 _ _ _ id). intros m Hm. apply codec_membership.
    by apply (proj1 (Forall_forall _ _) Hmf).
  - lia.
  - lia.
  - done.
  - by rewrite list_fmap_id.
Qed.

Lemma codec_bind_path d :
  (match d with Some x => (length x <= MAX_PATH_LEN)%nat | None => True end) ->
  pure_codec 4 (write_bind_path d) read_bind_path d.
Proof.
  intros Hd. unfold read_bind_path. destruct d as [x|]; cbn [write_bind_path].
  - pose proof (path_len_small _ Hd).
    assert (is_u32 (Z.of_nat (length x))) by (unfold is_u32, u32_max, U32_MAX in *; lia).
    unfold write_bounded_len. case_cmp; [lia|]. rewrite (proj2 (Z.ltb_ge _ _)) by (unfold is_u32 in *; lia). cbn [orb].
    eapply codec_conv; [codec_step; cbv beta| | |reflexivity]; [|lia|].
    2: { done. }
    rewrite (proj2 (Z.eqb_neq _ U32_MAX)) by lia. cbn [negb].
    rewrite Nat2Z.id. eapply codec_last; [by apply codec_bounded|intros; reflexivity].
  - eapply codec_conv; [eapply codec_last; [apply codec_u32; unfold is_u32, u32_max, U32_MAX; lia|intros; reflexivity]|lia|done|done].
Qed.

Lemma codec_opt_idx o : idx_ok o -> pure_codec 4 (write_u32 (opt_idx o)) read_opt_idx o.
Proof.
  intros Ho. unfold read_opt_idx. destruct o as [v|]; cbn [opt_idx idx_ok] in *.
  - eapply codec_conv; [codec_step|lia|done|]. cbv beta. rewrite as_u32_id by (unfold is_u32, u32_max, U32_MAX in *; lia).
    unfold idx_opt. rewrite (proj2 (Z.eqb_neq _ _)) by lia. by rewrite Nat2Z.id.
  - eapply codec_conv; [eapply codec_last; [apply codec_u32; unfold is_u32, u32_max, U32_MAX; lia|intros; reflexivity]|lia|done|done].
Qed.

Lemma codec_flag b : pure_codec 4 (write_u32 (b2u b)) read_flag b.
Proof. unfold read_flag. eapply codec_conv; [codec_step|lia|done|]. by destruct b. Qed.

(** A connection attempt does not cross a fork. *)
Definition child_state (s : SocketState) : SocketState := match s with Connecting => Closed | _ => s end.

Lemma codec_domain d : pure_codec 4 (write_u32 (domain_code d)) read_domain d.
Proof.
  unfold read_domain. assert (is_u32 (domain_code d)) by (apply is_u32_small; destruct d; cbn; lia).
  eapply codec_last; [by apply codec_u32|]. by destruct d.
Qed.

Lemma codec_type d : pure_codec 4 (write_u32 (type_code d)) read_type d.
Proof.
  unfold read_type. assert (is_u32 (type_code d)) by (apply is_u32_small; destruct d; cbn; lia).
  eapply codec_last; [by apply codec_u32|]. by destruct d.
Qed.

Lemma codec_state d : pure_codec 4 (write_u32 (state_code d)) read_state (child_state d).
Proof.
  unfold read_state. assert (is_u32 (state_code d)) by (apply is_u32_small; destruct d; cbn; lia).
  eapply codec_last; [by apply codec_u32|]. by destruct d.
Qed.

(** What the child gets of a socket: what [Clone] copies, with a pending
    connection attempt turned into a closed socket. *)
Definition child_socket (s : SocketInfo) : SocketInfo :=
  let c := socket_clone s in
  mkSocket (sk_domain c) (sk_type c) (sk_protocol c) (child_state (sk_state c)) (sk_peer_idx c) (sk_recv_buf_idx c) (sk_send_buf_idx c)
    (sk_shut_rd c) (sk_shut_wr c) (sk_host_net_handle c) (sk_options c) (sk_linger_onoff c) (sk_linger_seconds c) (sk_bind_device c)
    (sk_tcp_congestion c) (sk_bind_addr c) (sk_bind_addr6 c) (sk_bind_port c) (sk_peer_addr c) (sk_peer_addr6 c) (sk_peer_port c)
    (sk_listen_backlog c) (sk_shared_backlog_idx c) (sk_accept_wake_idx c) (sk_dgram_queue c) (sk_ipv4_multicast_memberships c)
    (sk_netlink_queue c) (sk_global_pipes c) (sk_oob_byte c) (sk_recv_timeout_us c) (sk_send_timeout_us c) (sk_bind_path c)
    (sk_connect_error c).

Lemma codec_options l :
  (length l <= MAX_SOCKET_OPTIONS)%nat -> Forall (fun o => is_u32 o.1.1 /\ is_u32 o.1.2 /\ is_u32 o.2) l ->
  pure_codec (12 * length l) (w_for l write_socket_option) (r_vec (length l) read_socket_option) l.
Proof.
  intros Hlen Hl. eapply codec_conv; [apply (codec_vec 12 _ _ _ id)|lia|done|by rewrite list_fmap_id].
  intros [[a b] c] Hx. rewrite Forall_forall in Hl. apply Hl in Hx as (? & ? & ?). cbn [fst snd] in *.
  unfold write_socket_option, read_socket_option. eapply codec_conv; [repeat codec_step|lia|done|done].
Qed.

Lemma codec_option_count n :
  (n <= MAX_SOCKET_OPTIONS)%nat -> pure_codec 4 (write_u32 (as_u32 (Z.of_nat n))) (read_bounded_count MAX_SOCKET_OPTIONS) n.
Proof.
  intros Hn. pose proof nat_u32_options as Ho. unfold nat_u32 in Ho. unfold read_bounded_count.
  eapply codec_last; [apply codec_usize; unfold nat_u32; lia|]. intros r. by rewrite (proj2 (Nat.leb_le _ _) Hn).
Qed.

Definition wake_ok (o : option Z) : Prop := match o with Some v => 0 <= v < U32_MAX | None => True end.

Lemma wake_roundtrip o : wake_ok o ->
  is_u32 (default U32_MAX o) /\ (if default U32_MAX o =? U32_MAX then None else Some (default U32_MAX o)) = o.
Proof.
  destruct o as [v|]; cbn [wake_ok default from_option id]; unfold is_u32, u32_max, U32_MAX; intros Hv; [|split; [lia|done]].
  split; [lia|]. by rewrite (proj2 (Z.eqb_neq _ _)) by lia.
Qed.

Definition net_code (o : option Z) : Z := match o with Some v => as_u32 v | None => U32_MAX end.

Lemma net_roundtrip o :
  (match o with Some v => is_i32 v /\ v <> -1 | None => True end) ->
  is_u32 (net_code o) /\ (if net_code o =? U32_MAX then None else Some (as_i32 (net_code o))) = o.
Proof.
  destruct o as [v|]; cbn [net_code]; [|intros _; split; [unfold is_u32, u32_max, U32_MAX; lia|done]].
  intros [Hv Hne]. split; [apply as_u32_range|]. rewrite as_i32_u32 by done.
  destruct (Z.eqb_spec (as_u32 v) U32_MAX) as [E|]; [|done]. exfalso. apply Hne.
  rewrite <- (as_i32_u32 v), E by done. done.
Qed.

Lemma port_mod v : is_u16 v -> v mod 2 ^ 16 = v.
Proof. intros Hv. unfold is_u16 in Hv. by rewrite Z.mod_small. Qed.

Lemma is_u32_zero : is_u32 0.
Proof. unfold is_u32, u32_max. lia. Qed.

(** A field of the socket section. *)
Ltac field H := eapply codec_seq; [eapply H|]; cbv beta.

Lemma codec_socket idx s total seen t :
  socket_ok s -> (idx < total)%nat -> nat_u32 total -> idx ∉ seen ->
  pure_codec 0 (write_socket idx s) (read_socket total (seen, t)) ({[idx]} ∪ seen, socket_insert_at t idx (child_socket s)).
Proof.
  intros Hok Hi Ht Hs. pose proof (codec_durable s) as Hdur. destruct Hok as [].
  destruct sko_addr0, sko_ports0 as [Hp1 Hp2], sko_options0 as [Hol Hof]. specialize (fun c => Hdur c ltac:(by constructor)).
  destruct (wake_roundtrip _ sko_wake0) as [Hw1 Hw2]. destruct (net_roundtrip _ sko_hnh0) as [Hn1 Hn2].
  pose proof is_u32_zero. pose proof (is_u32_u16 _ Hp1). pose proof (is_u32_u16 _ Hp2).
  unfold write_socket, read_socket. rewrite (proj2 (Nat.ltb_ge _ _) Hol). unfold net_code in *.
  eapply codec_conv.
  - field codec_usize; [unfold nat_u32 in *; lia|].
    codec_step; [apply negb_true_iff; rewrite bool_decide_eq_false_2 by done; rewrite (proj2 (Nat.leb_gt _ _)) by lia; done|].
    field codec_domain. field codec_type. field codec_u32; [done|]. field codec_state.
    do 3 (field codec_opt_idx; [done|]). do 2 field codec_flag. field codec_u32; [done|]. apply codec_skip_l.
    field codec_option_count; [done|]. eapply codec_need; [|shelve]. field codec_options; [done|done|].
    field codec_bytes; [done|]. field codec_u32; [done|]. field codec_bytes; [done|]. field codec_u32; [done|].
    field (codec_usize 0); [unfold nat_u32, u32_max; lia|]. codec_step; [apply Nat.leb_le; lia|].
    eapply codec_need; [|shelve]. eapply codec_pre; [intros; reflexivity|]. field codec_flag. field codec_opt_idx; [done|].
    field codec_bind_path; [done|]. field codec_u32; [done|]. eapply codec_last; [apply Hdur|intros; reflexivity].
  - lia.
  - done.
  - cbv beta. rewrite Hw2, Hn2, !port_mod by done. by destruct s.
  Unshelve. all: lia.
Qed.

Lemma codec_socket_loop total l seen t :
  nat_u32 total -> NoDup l.*1 -> Forall (fun x => (x.1 < total)%nat /\ socket_ok x.2 /\ x.1 ∉ seen) l ->
  exists seen', pure_codec 0 (w_for l (fun x => write_socket x.1 x.2)) (r_fold (length l) (read_socket total) (seen, t))
    (seen', put_all fst (fun x => child_socket x.2) l t).
Proof.
  intros Ht. revert seen t. induction l as [|[i s] l IH]; intros seen t Hd Hl.
  - exists seen. apply codec_skip.
  - cbn [fmap list_fmap] in Hd. apply NoDup_cons in Hd as [Hi Hd]. apply Forall_cons in Hl as [(Hlt & Hok & Hn) Hl]. cbn [fst snd] in *.
    destruct (IH ({[i]} ∪ seen) (socket_insert_at t i (child_socket s)) Hd) as [seen' Hc].
    { apply Forall_forall. intros y Hy. rewrite Forall_forall in Hl. pose proof (Hl _ Hy) as (? & ? & ?). split_and!; try done.
      apply not_elem_of_union. split; [|done]. rewrite elem_of_singleton. intros E. apply Hi, list_elem_of_fmap. by exists y. }
    exists seen'. cbn [w_for length r_fold]. eapply codec_weaken; [eapply codec_seq; [by apply codec_socket|exact Hc]|lia|done].
Qed.

Lemma omap_seq_slots {A} (t : list (option A)) (f : nat -> option A) i :
  (forall j, (j < length t)%nat -> f (i + j)%nat = slot t j) ->
  omap (fun k => (fun x => (k, x)) <$> f k) (seq i (length t)) = slots_from i t.
Proof.
  revert i. induction t as [|[x|] t IH]; intros i Hf; [done| |]; cbn [length seq omap list_omap slots_from];
    pose proof (Hf 0%nat ltac:(cbn; lia)) as H0; rewrite Nat.add_0_r in H0; rewrite H0; cbn.
  all: rewrite IH; [done|]; intros j Hj; replace (S i + j)%nat with (i + S j)%nat by lia; rewrite Hf by (cbn; lia); done.
Qed.

Lemma socket_get_slot t i : socket_get t i = slot t i.
Proof. unfold socket_get, slot. by destruct (t !! i) as [[]|]. Qed.

Lemma filter_is_some_length {A} (f : nat -> option A) l :
  length (List.filter (fun i => bool_decide (is_Some (f i))) l) = length (omap (fun k => (fun x => (k, x)) <$> f k) l).
Proof.
  induction l as [|i l IH]; [done|]. cbn [List.filter omap list_omap]. destruct (f i) eqn:E.
  - rewrite bool_decide_eq_true_2 by done. cbn. by rewrite IH.
  - rewrite bool_decide_eq_false_2 by by intros [? ?]. cbn. apply IH.
Qed.

(** The socket table of the child. *)
Definition child_sockets (t : SocketTable) : SocketTable := put_all fst (fun x => child_socket x.2) (slots_from 0 t) [].

Lemma socket_slots_small (t : SocketTable) : (length t <= MAX_SOCKET_SLOTS)%nat -> Z.of_nat (length t) <= 65536.
Proof. unfold MAX_SOCKET_SLOTS. lia. Qed.

Local Opaque MAX_SOCKET_SLOTS.

Lemma codec_sockets t : sockets_ok t -> pure_codec 8 (write_sockets t) read_sockets (child_sockets t).
Proof.
  intros [Hlen Hs]. unfold write_sockets, read_sockets, socket_len. apply codec_if_remaining; [|lia].
  rewrite (proj2 (Nat.ltb_ge _ _) Hlen). apply codec_skip_l. pose proof (socket_slots_small _ Hlen) as Hz.
  assert (omap (fun k => (fun x => (k, x)) <$> socket_get t k) (seq 0 (length t)) = slots_from 0 t) as Ho.
  { apply omap_seq_slots. intros j _. apply socket_get_slot. }
  rewrite filter_is_some_length, Ho. pose proof (length_slots_from t 0) as Hk.
  destruct (codec_socket_loop (length t) (slots_from 0 t) ∅ []) as [seen' Hc].
  { by apply nat_u32_small. }
  { apply slots_from_NoDup. }
  { apply Forall_forall. intros [i s] [_ Hx]%elem_of_slots_from. rewrite Nat.sub_0_r in Hx. cbn [fst snd].
    split_and!; [by eapply slot_lt|apply (Hs i); by rewrite socket_get_slot|set_solver]. }
  eapply codec_conv.
  - field codec_usize; [by apply nat_u32_small|]. rewrite <- (as_u32_id (Z.of_nat (length (slots_from 0 t)))) by (apply is_u32_small; lia).
    field codec_usize; [apply nat_u32_small; lia|].
    codec_step; [apply negb_true_iff, orb_false_iff; split; apply Nat.ltb_ge; lia|].
    eapply codec_last; [|intros; reflexivity]. eapply codec_ext; [|exact Hc]. intros w. rewrite <- Ho, <- w_for_omap.
    apply w_for_ext. intros i w'. by destruct (socket_get t i).
  - lia.
  - done.
  - done.
Qed.

(** ** The whole image *)

Definition header (magic total : Z) : bytes := to_le_bytes magic ++ to_le_bytes FORK_VERSION ++ to_le_bytes total.

Lemma emits_header magic : emits (write_header magic) (header magic 0).
Proof. unfold write_header, header. repeat apply emits_seq; apply emits_bytes. Qed.

Lemma reads_u32 v : is_u32 v -> reads read_u32 (to_le_bytes v) id v.
Proof.
  intros Hv. unfold read_u32. rewrite <- (app_nil_r (to_le_bytes v)).
  apply (reads_bind _ _ _ _ id id (to_le_bytes v)); [by apply reads_bytes|]. rewrite from_to_le by done. apply reads_ret.
Qed.

Lemma reads_pre {A B} (m : R A) (k : A -> R B) out g a b :
  (forall r, m r = (Ret a, r)) -> reads (k a) out g b -> reads (r_bind m k) out g b.
Proof. intros Hm Hk pre post s. unfold r_bind. rewrite Hm. apply Hk. Qed.

Lemma reads_header magic total : is_u32 magic -> is_u32 total -> reads (read_header magic) (header magic total) id tt.
Proof.
  intros Hm Ht. unfold read_header, header. assert (is_u32 FORK_VERSION) as Hv by (apply is_u32_small; unfold FORK_VERSION; lia).
  apply (reads_bind _ _ (to_le_bytes magic) (to_le_bytes FORK_VERSION ++ to_le_bytes total) id id magic); [by apply reads_u32|].
  apply (reads_pre _ _ _ _ tt); [by rewrite Z.eqb_refl|].
  apply (reads_bind _ _ (to_le_bytes FORK_VERSION) (to_le_bytes total) id id FORK_VERSION); [by apply reads_u32|].
  apply (reads_pre _ _ _ _ tt); [done|].
  rewrite <- (app_nil_r (to_le_bytes total)). apply (reads_bind _ _ (to_le_bytes total) [] id id total); [by apply reads_u32|apply reads_ret].
Qed.

(** The image in the buffer: the header with the patched total, the body, and
    the rest of the buffer as it was. *)
Lemma run_writer_spec magic body out buf :
  emits body out ->
  let n := (12 + length out)%nat in
  run_writer (write_header magic ;> body) buf =
  if (n <=? length buf)%nat then Ok (n, header magic (as_u32 (Z.of_nat n)) ++ out ++ drop n buf) else Err ENOMEM.
Proof.
  intros Hb n. unfold run_writer. pose proof (emits_seq _ _ _ _ (emits_header magic) Hb buf 0%nat ltac:(lia)) as He.
  rewrite He, length_app. change (length (header magic 0)) with 12%nat. change (0 + (12 + length out))%nat with n.
  destruct (Nat.leb_spec n (length buf)) as [Hle|]; [|done]. unfold patch_u32. cbn [w_pos w_buf]. do 2 f_equal.
Qed.

(** The fields of the child, as the reader builds them. *)
Definition fork_child `{Usize} (p : Process) (pid : Z) : Process :=
  let kept := kept_fds FD_CLOFORK (pr_fd_table p) in
  let refs := count_refs (tag_fd <$> kept) in
  mkProcess pid (pr_pid p) (pr_uid p) (pr_gid p) (pr_euid p) (pr_egid p) (pr_pgid p) (pr_sid p) false Running 0 0
    None (FdTable.from_raw (put_all fst snd kept []) (max_fds (pr_fd_table p)))
    (mkTable (child_ofds pid false (pr_ofd_table p) refs)) [] (child_sockets (pr_sockets p)) (pr_cwd p) [] (child_signals (pr_signals p))
    pt_new (with_mappings (child_layout (pr_memory p)) (mappings (pr_memory p))) (child_terminal (pr_terminal p)) (pr_environ p)
    (pr_argv p) (pr_umask p) (pr_nice p) (pr_rlimits p)
    0 0 (replicate 16 0) true None (pr_fork_exec_path p) (pr_fork_exec_argv p) (omap child_action (pr_fork_fd_actions p)) 49152 [] 0 [] []
    0 2 0 0 [] false None [] 0.

Definition fork_effects (p : Process) (pid : Z) : globals -> globals :=
  ofd_effects pid false (pr_ofd_table p) (count_refs (tag_fd <$> kept_fds FD_CLOFORK (pr_fd_table p))).

(** The reader after its header. *)
Lemma codec_fork_body `{Usize} `{Heap} p pid :
  fork_encodable p ->
  exists m : R Process, (forall r, read_fork_state pid r = (let! _ := read_header FORK_MAGIC in m) r) /\
  codec 0 (write_fork_body p) m (fork_effects p pid) (fork_child p pid).
Proof.
  intros []. unfold read_fork_state. eexists. split; [intros r; reflexivity|]. unfold write_fork_body, fork_fds. rewrite kept_fds_eq.
  destruct (kept_fds_ok FD_CLOFORK _ fe_fds0) as [Hk1 Hk2]. destruct fe_actions0 as [Ha1 Ha2].
  assert (forall i c, count_refs (tag_fd <$> kept_fds FD_CLOFORK (pr_fd_table p)) !! i = Some c -> is_u32 c) as Hrefs.
  { intros i c. rewrite count_refs_lookup by done. case_bool_decide; [done|]. intros [= <-]. apply is_u32_small. unfold refs_to.
    pose proof (filter_length_le (fun x : nat * FdEntry => (ofd_ref x.2 =? i)%nat) (kept_fds FD_CLOFORK (pr_fd_table p))). lia. }
  eapply codec_conv.
  - field codec_fork_scalars; [done|]. field codec_fork_signals; [done|].
    field codec_fd_table; [by destruct fe_fds0|done|done|]. field codec_ofd_table; [done|done|].
    field codec_strings; [done|done|]. field codec_strings; [done|done|]. field codec_path; [done|]. field codec_rlimits; [done|].
    field codec_terminal; [done|]. field codec_layout; [done|]. field codec_mappings; [done|]. field codec_exec_path; [done|].
    field codec_exec_argv; [done|]. field codec_fd_actions; [done|done|]. eapply codec_last; [by apply codec_sockets|intros; reflexivity].
  - lia.
  - done.
  - done.
Qed.

(** What POSIX asks of the child [c] of [p]. *)
Record fork_child_of (p : Process) (pid : Z) (c : Process) : Prop := {
  fc_ids : pr_pid c = pid /\ pr_ppid c = pr_pid p /\ pr_pgid c = pr_pgid p /\ pr_sid c = pr_sid p /\ pr_is_session_leader c = false;
  fc_creds : pr_uid c = pr_uid p /\ pr_gid c = pr_gid p /\ pr_euid c = pr_euid p /\ pr_egid c = pr_egid p /\
    pr_umask c = pr_umask p /\ pr_nice c = pr_nice p;
  fc_running : pr_state c = Running /\ pr_exit_status c = 0 /\ pr_exit_signal c = 0 /\ pr_wait_event c = None;
  (** Descriptors without FD_CLOFORK, at the same numbers. *)
  fc_fds : forall i, slot (FdTable.entries (pr_fd_table c)) i =
    match slot (FdTable.entries (pr_fd_table p)) i with
    | Some e => if Z.land (fd_flags e) FD_CLOFORK =? 0 then Some e else None
    | None => None
    end;
  fc_limits : max_fds (pr_fd_table c) = max_fds (pr_fd_table p) /\ reserved (pr_fd_table c) = ∅;
  (** Descriptions that an inherited descriptor refers to, one reference per
      descriptor. *)
  fc_ofds : forall i, Ofd.get (pr_ofd_table c) i =
    let n := refs_to (kept_fds FD_CLOFORK (pr_fd_table p)) i in
    match Ofd.get (pr_ofd_table p) i with
    | Some o => if n =? 0 then None else Some (child_ofd pid n false o)
    | None => None
    end;
  (** Dispositions and mask are inherited, pending signals are not. *)
  fc_signals : (forall s, valid_sig s -> get_action (pr_signals c) s = get_action (pr_signals p) s) /\
    blocked (pr_signals c) = blocked (pr_signals p) /\ pending (pr_signals c) = 0 /\ rt_queue (pr_signals c) = [] /\
    pr_main_thread_signals c = pt_new /\ pr_threads c = [];
  (** The same address space. *)
  fc_memory : mappings (pr_memory c) = mappings (pr_memory p) /\ program_break (pr_memory c) = program_break (pr_memory p) /\
    layout_metadata (pr_memory c) = layout_metadata (pr_memory p);
  fc_sockets : forall i, socket_get (pr_sockets c) i = child_socket <$> socket_get (pr_sockets p) i;
  fc_terminal : pr_terminal c = child_terminal (pr_terminal p);
  fc_image : pr_environ c = pr_environ p /\ pr_argv c = pr_argv p /\ pr_cwd c = pr_cwd p /\ pr_rlimits c = pr_rlimits p;
  fc_exec : pr_fork_exec_path c = pr_fork_exec_path p /\ pr_fork_exec_argv c = pr_fork_exec_argv p /\
    pr_fork_fd_actions c = omap child_action (pr_fork_fd_actions p);
  (** Alarms, timers and device bindings are not inherited. *)
  fc_cleared : pr_alarm_deadline_ns c = 0 /\ pr_posix_timers c = [] /\ pr_epolls c = [] /\ pr_dir_streams c = [] /\
    pr_fb_binding c = None /\ pr_dri_bindings c = [] /\ pr_fork_child c = true;
}.

Lemma get_slot t i : Ofd.get t i = slot (entries t) i.
Proof. unfold Ofd.get, slot. by destruct (entries t !! i). Qed.

Lemma fork_child_spec `{Usize} p pid : fork_encodable p -> fork_child_of p pid (fork_child p pid).
Proof.
  intros []. destruct (kept_fds_ok FD_CLOFORK _ fe_fds0) as [Hk1 _].
  split; try done.
  - intros i. cbn [fork_child pr_fd_table FdTable.from_raw FdTable.entries]. unfold kept_fds. apply put_slots.
  - intros i. cbn [fork_child pr_ofd_table]. rewrite !get_slot. cbn [entries]. unfold child_ofds, kept_ofds.
    rewrite ofd_iter_slots, put_slots. destruct (slot (entries (pr_ofd_table p)) i) as [o|]; [|done]. cbn [fst snd].
    rewrite count_refs_lookup by done. destruct (Z.eqb_spec (refs_to (kept_fds FD_CLOFORK (pr_fd_table p)) i) 0) as [->|Hne]; [done|].
    rewrite (bool_decide_eq_false_2 (_ = 0)) by done. done.
  - destruct (child_signals_spec (pr_signals p)) as (? & ? & ? & ?). done.
  - intros i. cbn [fork_child pr_sockets]. rewrite (socket_get_slot (pr_sockets p)), socket_get_slot. unfold child_sockets.
    rewrite <- (filter_all (fun _ => true) (slots_from 0 (pr_sockets p))) by by apply Forall_forall.
    rewrite put_slots. unfold slot. destruct (pr_sockets p !! i) as [[s|]|]; done.
Qed.

(** The image of [p], and what reading it gives. *)
Lemma fork_image `{Usize} `{Heap} p pid :
  fork_encodable p ->
  exists n image, length image = n /\
  (forall buf, serialize_fork_state p buf = (if (n <=? length buf)%nat then Ok (n, image ++ drop n buf) else Err ENOMEM)) /\
  forall post g, deserialize_fork_state (image ++ post) pid g = (Ret (fork_child p pid), fork_effects p pid g).
Proof.
  intros Hp. destruct (codec_fork_body p pid Hp) as (m & Hm & out & _ & He & Hr).
  set (total := as_u32 (Z.of_nat (12 + length out))).
  exists (12 + length out)%nat, (header FORK_MAGIC total ++ out). split; [by rewrite length_app|]. split.
  - intros buf. pose proof (run_writer_spec FORK_MAGIC _ _ buf He) as Hw. cbv zeta in Hw. unfold serialize_fork_state. rewrite Hw.
    case_cmp; [|done]. by rewrite <- app_assoc.
  - intros post g. unfold deserialize_fork_state. rewrite Hm.
    assert (is_u32 FORK_MAGIC) as Hmagic by (unfold is_u32, u32_max, FORK_MAGIC; lia).
    pose proof (reads_bind _ (fun _ => m) _ _ _ _ _ _ (reads_header FORK_MAGIC total Hmagic (as_u32_range _)) Hr [] post g) as Hb.
    cbn [app length] in Hb. by rewrite Hb.
Qed.

(** C37: A process whose state fits the format has an image of some size [n].  A
    buffer shorter than [n] is refused with ENOMEM; in any other the image is
    written at the front and the rest is left alone, and reading the image back,
    whatever follows it, gives a child of the process as fork requires (its own
    pid, the parent's pid as its parent, the descriptors without FD_CLOFORK,
    the descriptions they refer to with one reference per descriptor and the
    same identity, dispositions but no pending signals, one thread, the same
    address space, the sockets less their queues), takes one reference on every
    buffer object an inherited description refers to, and observes every
    inherited identity. *)
Theorem fork_roundtrip `{Usize} `{Heap} p pid :
  fork_encodable p ->
  exists n c, fork_child_of p pid c /\ forall buf,
    if (n <=? length buf)%nat then
      exists image, length image = n /\ serialize_fork_state p buf = Ok (n, image ++ drop n buf) /\
      forall post g, deserialize_fork_state (image ++ post) pid g = (Ret c, fork_effects p pid g)
    else serialize_fork_state p buf = Err ENOMEM.
Proof.
  intros Hp. destruct (fork_image p pid Hp) as (n & image & Hn & Hs & Hd). exists n, (fork_child p pid).
  split; [by apply fork_child_spec|]. intros buf. rewrite Hs. case_cmp; [|done]. by exists image.
Qed.

(** ** A concrete fork *)

Definition sample_ofd (id : Z) (refs : Z) (d : option DriOfdState) : OpenFileDesc :=
  mkOfd id (Some (FHost 1 9)) Regular 2 3 100 refs 7 [47; 97] (-1) 0 0 d.

Definition sample_socket : SocketInfo :=
  set_option (mkSocket Inet Stream 6 Connecting None (Some 4%nat) None false true (Some 3) [] 0 0 None CUBIC ANY4 ANY6 8080 ANY4 ANY6 0
    [2%nat] None (Some 1) [] [] [] true (Some 5) 0 0 None 111) 1 2 3.

Definition sample_parent : Process :=
  mkProcess 7 1 1000 1000 1000 1000 7 7 true Running 0 0 None
    (mkFdTable [Some (mkFdEntry 0 0); Some (mkFdEntry 1 FD_CLOFORK); None; Some (mkFdEntry 0 FD_CLOEXEC); Some (mkFdEntry 2 0)] {[2%nat]} 64)
    (mkTable [Some (sample_ofd 11 3 None); Some (sample_ofd 12 1 None);
              Some (sample_ofd 13 1 (Some (RenderNode (mkDriFd {[1 := 5; 2 := 6]} 3 None))))])
    [] [None; Some sample_socket] [47; 104] []
    (mkSignals (<[10%nat := mkAction (Handler 42) SA_RESTART 0]> (replicate 65 action_default)) 512 4 [mkEntry 3 0 0 None])
    pt_new (with_mappings Memory.new [mkMapped 0x10000000 0x10000 3 0x22]) term_new [[72; 61; 49]] [[47; 98]; []] 18 (-5) default_rlimits
    99 0 (replicate 16 0) false None (Some [47; 99]) (Some [[99]]) [FdDup2 3 1; FdOpen 5 [47] 0 0; FdClose 3] 49152 [] 0 [] []
    0 2 0 0 [] false None [] 0.

(** A property of every element of a concrete list. *)
Ltac each tac := repeat (apply Forall_cons_2; [tac|]); apply Forall_nil_2.

Lemma sample_signals_ok : signals_ok (pr_signals sample_parent).
Proof.
  split; [cbn; unfold is_u64; lia|]. intros i Hi. unfold get_action, action_at.
  assert (forall l, Forall action_ok l -> action_ok (nth (Z.to_nat i) l action_default)) as Hn.
  { assert (action_ok action_default) by (split; unfold is_u32, is_u64, u32_max; cbn; done || lia).
    intros l Hl. rewrite nth_lookup. destruct (l !! Z.to_nat i) eqn:E; [|done]. by eapply Forall_lookup_1. }
  unfold valid_sig in Hi. rewrite (proj2 (Z.eqb_neq i 0)), (proj2 (Z.leb_gt 65 i)) by lia. cbn [orb]. apply Hn. cbn [sample_parent pr_signals actions].
  apply Forall_insert; [apply Forall_replicate|]; split; unfold is_u32, is_u64, u32_max, SA_RESTART; cbn; done || lia.
Qed.

Lemma Forall_slots {A} (P : A -> Prop) (l : list (option A)) :
  Forall (fun x => match x with Some a => P a | None => True end) l -> forall i a, slot l i = Some a -> P a.
Proof.
  intros Hl i a. unfold slot. destruct (l !! i) as [x|] eqn:E; [|done]. intros ->. exact (Forall_lookup_1 _ _ _ _ Hl E).
Qed.

Lemma strings_small l : (length l <= 100)%nat -> Forall (fun s => length s <= 100)%nat l -> strings_ok l.
Proof. intros Hn Hl. split; [lia|]. eapply Forall_impl; [exact Hl|]. intros s Hs. by apply small_string. Qed.

Lemma sample_socket_ok : socket_ok sample_socket.
Proof.
  unfold sample_socket, set_option. cbn [put_option sk_options with_options].
  split; cbn; unfold is_u32, u32_max, is_u16, is_i32, is_u64, U32_MAX; try lia; try done.
  - split; [apply small_options; cbn; lia|]. each ltac:(cbn; lia).
  - unfold MAX_SOCKET_STRING_LEN. lia.
  - split; [lia|constructor].
Qed.

Lemma sample_parent_encodable : fork_encodable sample_parent.
Proof.
  assert (dri_fd_ok (mkDriFd {[1 := 5; 2 := 6]} 3 None)) as Hd.
  { split; [vm_compute; done| |cbn; unfold is_u32, u32_max; lia]. intros h b. cbn [dri_handles]. unfold is_u32, u32_max.
    rewrite lookup_insert_Some, lookup_singleton_Some. intros [[<- <-]|[_ [<- <-]]]; lia. }
  assert (forall id r d, 1 <= id <= 100 -> dri_ok d -> ofd_ok (sample_ofd id r d)) as Ho.
  { intros id r d Hid Hok. split; cbn; unfold is_u32, is_i64, u32_max; try lia; try done. apply small_path. lia. }
  split.
  - split; cbn; unfold is_u32, is_i32, u32_max; lia.
  - apply sample_signals_ok.
  - split; [cbn; unfold nat_u32, u32_max; lia|cbn; lia|]. intros i e He.
    assert (Forall (fun x => match x with Some a => fd_entry_ok a | None => True end) (FdTable.entries (pr_fd_table sample_parent))) as Hf.
    { cbn [sample_parent pr_fd_table FdTable.entries].
      repeat (apply Forall_cons_2; [first [exact I|split; cbn; unfold nat_u32, is_u32, u32_max, FD_CLOEXEC, FD_CLOFORK; lia]|]). apply Forall_nil_2. }
    apply (Forall_slots fd_entry_ok _ Hf i).
    unfold slot. by rewrite He.
  - split; [cbn; lia|]. intros i o. rewrite get_slot. apply Forall_slots.
    repeat (apply Forall_cons_2; [apply Ho; cbn; done || lia|]). apply Forall_nil_2.
  - apply strings_small; [cbn; lia|cbn; each ltac:(cbn; lia)].
  - apply strings_small; [cbn; lia|cbn; each ltac:(cbn; lia)].
  - apply small_path. cbn. lia.
  - split; [done|]. cbn [sample_parent pr_rlimits]. unfold default_rlimits. cbn [replicate list_insert].
    each ltac:(cbn; unfold is_u64, u64_max; lia).
  - split; cbn; unfold is_u32, is_u16, is_i32, u32_max; lia || done.
  - split; cbn; unfold is_u32, u32_max; try lia; try done. each ltac:(split_and!; cbn; unfold is_u32, u32_max; lia).
  - cbn [sample_parent pr_fork_exec_path length]. split; [lia|]. apply small_path. lia.
  - split; [done|]. apply strings_small; [cbn; lia|cbn; each ltac:(cbn; lia)].
  - split; [cbn; unfold nat_u32, u32_max; lia|]. each ltac:(cbn; unfold is_i32; lia).
  - split; [apply small_slots; cbn; lia|]. intros i s. rewrite socket_get_slot. apply Forall_slots.
    apply Forall_cons_2; [exact I|]. apply Forall_cons_2; [apply sample_socket_ok|apply Forall_nil_2].
Qed.

Lemma fork_roundtrip_witness :
  fork_encodable sample_parent /\
  exists c, fork_child_of sample_parent 8 c /\ pr_ppid c = 7 /\ Ofd.get (pr_ofd_table c) 1 = None /\
    (ref_count <$> Ofd.get (pr_ofd_table c) 0) = Some 2 /\ pending (pr_signals c) = 0.
Proof.
  pose proof sample_parent_encodable as He. split; [exact He|].
  destruct (fork_roundtrip sample_parent 8 He) as (n & c & Hc & _). exists c. split; [exact Hc|].
  destruct Hc as [(_ & Hp & _) _ _ _ _ Ho (_ & _ & Hs & _) _ _ _ _ _ _]. split; [exact Hp|]. rewrite !Ho. split; [vm_compute; done|].
  split; [vm_compute; done|exact Hs].
Defined.

(** ** Departures *)

(** The references taken while reading stay when a later field is refused,
    although no description exists that could drop them: a truncated image
    leaves buffer object 5 with one reference too many. *)
Definition two_buffers : globals :=
  mkGlobals (mkReg 7 1 {[5 := mkBo 5 64 64 1 None; 6 := mkBo 6 64 64 1 None]}) 20.

Example refused_image_leaks_references :
  match serialize_fork_state sample_parent (replicate 2000 0) with
  | Ok (n, b) =>
      let '(o, g) := deserialize_fork_state (take 400 b) 8 two_buffers in
      o = Refused EINVAL /\ (bo_refcount <$> reg_get (g_registry g) 5) = Some 2
  | Err _ => False
  end.
Proof. vm_compute. done. Qed.

(** An image cut off between two sections is accepted, although its header
    carries the full size: the child comes up without its sockets. *)
Example truncated_image_accepted :
  match serialize_fork_state sample_parent (replicate 2000 0) with
  | Ok (n, b) =>
      match (deserialize_fork_state (take (n - 177) b) 8 two_buffers).1 with
      | Ret c => pr_sockets c = [] /\ pr_ppid c = 7
      | _ => False
      end
  | Err _ => False
  end.
Proof. vm_compute. done. Qed.

(** The readers bound how many records an image has, not the slots they name:
    the first descriptor of the example, renumbered to 1048576, makes the reader
    grow the table until an allocator with room for no more panics; an index near
    the largest [u32] does so on any 32-bit target. *)
Definition wild_image : bytes :=
  match serialize_fork_state sample_parent (replicate 2000 0) with
  | Ok (n, b) => splice 92 [0; 0; 16; 0] (take n b)
  | Err _ => []
  end.

Example fork_index_unchecked : (deserialize_fork_state wild_image 8 two_buffers).1 = Panic.
Proof. vm_compute. done. Qed.

Lemma bytes_check (b : bytes) : forallb (fun x => (0 <=? x) && (x <? 256)) b = true -> Forall is_byte b.
Proof. intros Hb. apply Forall_forall. intros x Hx%list_elem_of_In. rewrite forallb_forall in Hb. specialize (Hb x Hx). unfold is_byte. lia. Qed.

Lemma fork_input_total_witness :
  length wild_image = 916%nat /\ table_slots (Heap := kernel_heap) < 2 ^ 32 /\
  (deserialize_fork_state (drop 1 wild_image) 8 two_buffers).1 = Refused EINVAL.
Proof.
  split; [vm_compute; reflexivity|]. split.
  - pose proof (fork_input_total kernel_heap wild_image 8 two_buffers ltac:(apply bytes_check; vm_compute; reflexivity)) as [H _].
    rewrite fork_index_unchecked in H. exact H.
  - pose proof (fork_input_total kernel_heap (drop 1 wild_image) 8 two_buffers ltac:(apply bytes_check; vm_compute; reflexivity)) as [H _].
    assert (match (deserialize_fork_state (drop 1 wild_image) 8 two_buffers).1 with Refused _ => true | _ => false end = true) as E
      by (vm_compute; reflexivity).
    destruct (deserialize_fork_state (drop 1 wild_image) 8 two_buffers).1 as [|e|]; [discriminate E|by rewrite H|discriminate E].
Defined.
