(* ===== verification/Exec.v ===== *)
(** * Process state across exec ([crates/kernel/src/fork.rs])

    The image that carries a process through a legacy exec: the same format as
    fork's with its own magic, the close-on-exec rule, ignored dispositions
    only, and the pending signals.  The growing-buffer loop retries with twice
    the space up to a bound; it is given one unit of fuel per size it can try.

    The theorems: the image of a process that fits the format is read back as
    the process after exec (same identity, descriptors without FD_CLOEXEC, the
    descriptions they refer to with one reference each, ignored dispositions,
    pending signals less those of timers); the growing
    buffer returns exactly that image or ENOMEM; any byte string is accepted,
    refused with EINVAL, or names a slot the allocator has no room for. *)

From S2P Require Import Prelude Bytes Abi FdTable Lock Ofd Wakeup Memory Terminal Socket Signal Process Dri Codec Fork.

Definition EXEC_MAGIC : Z := 0x45584543.
Definition INITIAL_EXEC_STATE_BUFFER_LEN : Z := 64 * 1024.
Definition MAX_EXEC_STATE_BUFFER_LEN : Z := 4 * 1024 * 1024.

(** ** Notifications of timers *)

Definition is_timer_entry (e : RtSigEntry) : bool := bool_decide (is_Some (e_timer e)).

Definition discard_legacy_exec_timer_notifications (st : PerThreadSignalState) : PerThreadSignalState :=
  let timer_signums := e_signum <$> List.filter is_timer_entry (pt_queue st) in
  let queue := List.filter (fun e => negb (is_timer_entry e)) (pt_queue st) in
  let pending := fold_left (fun p s => if existsb (is_sig s) queue then p else Z.ldiff p (sig_bit s)) timer_signums (pt_pending st) in
  mkThread (pt_blocked st) pending queue (pt_saved_mask st).

(** ** Writing *)

Definition write_exec_scalars (p : Process) : W :=
  write_u32 (pr_ppid p) ;> write_u32 (pr_uid p) ;> write_u32 (pr_gid p) ;> write_u32 (pr_euid p) ;> write_u32 (pr_egid p) ;>
  write_u32 (pr_pgid p) ;> write_u32 (pr_sid p) ;> write_u32 (b2u (pr_is_session_leader p)) ;> write_u32 (pr_umask p) ;>
  write_u32 (as_u32 (pr_nice p)).

(** [handlers.iter().enumerate()]. *)
Definition enumerate {A} (l : list A) : list (nat * A) := zip (seq 0 (length l)) l.

Definition is_ignored (x : nat * SignalHandler) : bool := (0 <? x.1)%nat && bool_decide (x.2 = Ignore).

Definition ignored (s : SignalState) : list (nat * SignalHandler) := List.filter is_ignored (enumerate (handlers s)).

Definition write_handler (x : nat * SignalHandler) : W :=
  if is_ignored x then write_u32 (as_u32 (Z.of_nat x.1)) ;> write_u32 (handler_to_u32 x.2) else w_skip.

Definition write_exec_signals (p : Process) : W :=
  write_u64 (blocked (pr_signals p)) ;>
  write_u32 (as_u32 (Z.of_nat (length (ignored (pr_signals p))))) ;>
  w_for (enumerate (handlers (pr_signals p))) write_handler ;>
  write_u64 (pending (pr_signals p)) ;>
  write_directed_signal_state (pr_main_thread_signals p).

Definition exec_fds (p : Process) : list (Z * FdEntry) := List.filter (keeps_fd FD_CLOEXEC) (FdTable.iter (pr_fd_table p)).

Definition write_exec_body (p : Process) : W :=
  let fds := exec_fds p in
  write_exec_scalars p ;>
  write_exec_signals p ;>
  write_fd_table (max_fds (pr_fd_table p)) fds ;>
  write_ofd_table (pr_ofd_table p) (count_refs fds) true ;>
  write_strings (pr_environ p) ;>
  write_strings (pr_argv p) ;>
  write_sized (pr_cwd p) ;>
  w_for (pr_rlimits p) write_rlimit ;>
  write_terminal (pr_terminal p) ;>
  write_u32 (as_u32 (get_brk (pr_memory p))).

Definition serialize_exec_state (p : Process) (buf : bytes) : kresult (nat * bytes) :=
  run_writer (write_header EXEC_MAGIC ;> write_exec_body p) buf.

(** The retry loop, which the process table also has for the fork image;
    [None] when the fuel runs out. *)
Fixpoint grow (fuel : nat) (serialize : bytes -> kresult (nat * bytes)) (max len : Z) : option (kresult bytes) :=
  match fuel with
  | O => None
  | S fuel' =>
      match serialize (replicate (Z.to_nat len) 0) with
      | Ok (written, buf) => Some (Ok (take written buf))
      | Err ENOMEM =>
          if len <? max then grow fuel' serialize max (Z.min (len * 2) max)
          else Some (Err ENOMEM)
      | Err e => Some (Err e)
      end
  end.

(** The sizes tried are 64 KiB times 1, 2, 4, 8, 16, 32 and 64. *)
Definition GROW_FUEL : nat := 7.

Definition serialize_exec_state_with_growing_buffer (p : Process) : option (kresult bytes) :=
  grow GROW_FUEL (serialize_exec_state p) MAX_EXEC_STATE_BUFFER_LEN INITIAL_EXEC_STATE_BUFFER_LEN.

(** ** Reading *)

Definition read_exec_scalars : R scalars :=
  let! ppid := read_u32 in let! uid := read_u32 in let! gid := read_u32 in let! euid := read_u32 in let! egid := read_u32 in
  let! pgid := read_u32 in let! sid := read_u32 in let! leader := read_u32 in let! umask := read_u32 in let! nice := read_u32 in
  r_ret (mkScalars ppid uid gid euid egid pgid sid umask (as_i32 nice) (negb (leader =? 0))).

Definition read_handler (l : list SignalHandler) : R (list SignalHandler) :=
  let! signum := read_u32 in
  let! handler := read_u32 in
  r_ret (if signum <? 64 then <[Z.to_nat signum := u32_to_handler handler]> l else l).

Definition read_exec_signals : R (SignalState * PerThreadSignalState) :=
  let! blocked := read_u64 in
  let! handler_count := read_u32 in
  let! _ := r_guard (handler_count <=? 64) in
  let! handlers := r_fold (Z.to_nat handler_count) read_handler (replicate 65 Default) in
  let! pending := read_u64 in
  let! main := read_directed_signal_state in
  r_ret (from_parts_with_pending handlers blocked pending, discard_legacy_exec_timer_notifications main).

Definition read_exec_state `{Heap} (pid : Z) : R Process :=
  let! _ := read_header EXEC_MAGIC in
  let! sc := read_exec_scalars in
  let! signals := read_exec_signals in
  let! fd_table := read_fd_table 0 in
  let! ofd_table := read_ofd_table pid in
  let! environ := read_strings MAX_ENV_VARS in
  let! argv := read_strings MAX_ARGV in
  let! cwd := read_sized MAX_PATH_LEN in
  let! rlimits := r_vec 16 read_rlimit in
  let! terminal := read_terminal in
  let! _ := read_u32 in
  r_ret (mkProcess pid (sc_ppid sc) (sc_uid sc) (sc_gid sc) (sc_euid sc) (sc_egid sc) (sc_pgid sc) (sc_sid sc) (sc_leader sc) Running 0 0
           None fd_table ofd_table [] socket_table_new cwd [] signals.1 signals.2 Memory.new terminal environ argv (sc_umask sc)
           (sc_nice sc) rlimits 0 0 (replicate 16 0) false None None None [] 49152 [] 0 [] [] 0 2 0 0 [] false None [] 0).

Definition deserialize_exec_state `{Heap} (buf : bytes) (pid : Z) (g : globals) : outcome Process * globals :=
  let '(o, r) := read_exec_state pid (mkR buf 0 g) in (o, r_globals r).

(** ** Every byte string is accepted or refused with EINVAL, memory permitting *)

Lemma yields_exec_state `{Heap} pid : yields (read_exec_state pid) (fun _ => True).
Proof.
  unfold read_exec_state. eapply yields_bind; [apply einval_yields, einval_header|intros ? _].
  eapply yields_bind; [apply einval_yields; unfold read_exec_scalars; solve_einval|intros ? _].
  eapply yields_bind; [apply einval_yields; unfold read_exec_signals, read_handler; solve_einval|intros ? _].
  eapply yields_bind; [apply yields_fd_table|intros ? _]. eapply yields_bind; [apply yields_ofd_table|intros ? _].
  apply einval_yields. unfold r_vec, read_rlimit. solve_einval.
Qed.

Lemma exec_input_total `{Heap} buf pid g :
  Forall is_byte buf ->
  match (deserialize_exec_state buf pid g).1 with Ret _ => True | Refused e => e = EINVAL | Panic => table_slots < 2 ^ 32 end.
Proof.
  intros Hb. pose proof (proj1 (yields_exec_state pid (mkR buf 0 g) Hb)) as He. unfold deserialize_exec_state.
  by destruct (read_exec_state pid _) as [[] ?].
Qed.

(** ** What the format can carry *)

Record sig_entry_ok (pending : Z) (e : RtSigEntry) : Prop := {
  seo_sig : valid_sig (e_signum e);
  seo_pending : Z.land pending (sig_bit (e_signum e)) <> 0;
  seo_value : is_i32 (e_value e);
  seo_code : is_i32 (e_code e);
  seo_timer : match e_timer e with Some t => 0 <= t < 2 ^ 31 | None => True end;
}.

Record directed_ok (s : PerThreadSignalState) : Prop := {
  dio_pending : is_u64 (pt_pending s);
  dio_len : Z.of_nat (length (pt_queue s)) <= 65536;
  dio_queue : Forall (sig_entry_ok (pt_pending s)) (pt_queue s);
}.

Record exec_encodable (p : Process) : Prop := {
  xe_scalars : scalars_ok p;
  xe_masks : is_u64 (blocked (pr_signals p)) /\ is_u64 (pending (pr_signals p));
  xe_actions : length (actions (pr_signals p)) = 65%nat;
  xe_main : directed_ok (pr_main_thread_signals p);
  xe_fds : fds_ok (pr_fd_table p);
  xe_ofds : ofds_ok (pr_ofd_table p);
  xe_env : strings_ok (pr_environ p);
  xe_argv : strings_ok (pr_argv p);
  xe_cwd : (length (pr_cwd p) <= MAX_PATH_LEN)%nat;
  xe_rlimits : rlimits_ok (pr_rlimits p);
  xe_terminal : term_fields_ok (pr_terminal p);
}.

(** ** Signals *)

Lemma timer_roundtrip t :
  (match t with Some t => 0 <= t < 2 ^ 31 | None => True end) ->
  is_i32 (timer_code t) /\
  forall r, (if timer_code t =? -1 then r_ret None else if 0 <=? timer_code t then r_ret (Some (timer_code t)) else r_fail EINVAL) r = (Ret t, r).
Proof.
  unfold is_i32. destruct t as [t|]; cbn [timer_code]; intros Ht; [|split; [lia|done]].
  rewrite as_i32_id by lia. split; [lia|]. intros r.
  rewrite (proj2 (Z.eqb_neq _ _)), (proj2 (Z.leb_le _ _)) by lia. done.
Qed.

Lemma codec_sig_entry pending e :
  sig_entry_ok pending e -> pure_codec 0 (write_sig_entry e) (read_sig_entry pending) e.
Proof.
  intros [Hs Hp Hv Hc Ht]. destruct (timer_roundtrip _ Ht) as [Hti Hr]. unfold valid_sig in Hs.
  assert (is_u32 (e_signum e)) by (apply is_u32_small; lia). unfold write_sig_entry, read_sig_entry. eapply codec_conv.
  - codec_step. codec_step.
    { apply negb_true_iff. unfold NSIG. rewrite (proj2 (Z.eqb_neq (e_signum e) 0)), (proj2 (Z.leb_gt 65 _)), (proj2 (Z.eqb_neq _ 0)) by (lia || done). done. }
    codec_step. codec_step. eapply codec_last; [by apply codec_i32|]. intros r. unfold r_bind. by rewrite Hr.
  - lia.
  - done.
  - by destruct e.
Qed.

Lemma codec_directed s :
  directed_ok s -> pure_codec 0 (write_directed_signal_state s) read_directed_signal_state (mkThread 0 (pt_pending s) (pt_queue s) None).
Proof.
  intros [Hp Hl Hq]. unfold write_directed_signal_state, read_directed_signal_state.
  assert (is_u32 (Z.of_nat (length (pt_queue s)))) by (apply is_u32_small; lia).
  rewrite (proj2 (Z.ltb_ge _ _)) by (unfold u32_max; lia). rewrite (proj2 (Z.ltb_ge _ _)) by (unfold MAX_DIRECTED_SIGNAL_QUEUE; lia). cbn [orb].
  eapply codec_conv.
  - codec_step. apply codec_skip_l. codec_step. codec_step; [by apply Z.leb_le|]. rewrite Nat2Z.id.
    eapply codec_last; [|intros; reflexivity]. apply (codec_vec 0 _ _ _ id). intros e He. apply codec_sig_entry.
    by apply (proj1 (Forall_forall _ _) Hq).
  - lia.
  - done.
  - by rewrite list_fmap_id.
Qed.

(** The handlers of the process after exec, as the reader builds them. *)
Definition exec_handlers (s : SignalState) : list SignalHandler :=
  fold_left (fun l x => if (x.1 <? 64)%nat then <[x.1 := Ignore]> l else l) (ignored s) (replicate 65 Default).

Lemma enumerate_elem {A} (l : list A) i x : (i, x) ∈ enumerate l <-> l !! i = Some x.
Proof.
  unfold enumerate. split.
  - intros [k Hk]%list_elem_of_lookup. rewrite lookup_zip_with in Hk. destruct (seq _ _ !! k) eqn:E; [|done]. cbn in Hk.
    apply lookup_seq in E as [-> ?]. destruct (l !! k) eqn:El; [|done]. by simplify_eq/=.
  - intros Hx. apply list_elem_of_lookup. exists i. rewrite lookup_zip_with.
    rewrite lookup_seq_lt by by eapply lookup_lt_Some. cbn. by rewrite Hx.
Qed.

Lemma length_enumerate {A} (l : list A) : length (enumerate l) = length l.
Proof. unfold enumerate. rewrite length_zip_with, length_seq. lia. Qed.

Lemma ignored_elem s i h : (i, h) ∈ ignored s <-> handlers s !! i = Some Ignore /\ h = Ignore /\ (0 < i)%nat.
Proof.
  unfold ignored. rewrite elem_of_filter_bool, enumerate_elem. unfold is_ignored. cbn [fst snd]. rewrite andb_true_iff, Nat.ltb_lt, bool_decide_eq_true.
  split; [intros [? [? ->]]|intros [? [-> ?]]]; done.
Qed.

Lemma write_handlers_eq s w :
  w_for (enumerate (handlers s)) write_handler w =
  w_for (ignored s) (fun x => write_u32 (as_u32 (Z.of_nat x.1)) ;> write_u32 (handler_to_u32 x.2)) w.
Proof.
  unfold ignored. rewrite <- omap_filter, <- w_for_omap. apply w_for_ext. intros x w'. unfold write_handler.
  by destruct (is_ignored x).
Qed.

Lemma codec_exec_handlers s :
  length (actions s) = 65%nat ->
  pure_codec 0 (w_for (enumerate (handlers s)) write_handler)
    (r_fold (length (ignored s)) read_handler (replicate 65 Default)) (exec_handlers s).
Proof.
  intros Hlen. eapply codec_ext; [apply write_handlers_eq|].
  eapply codec_conv; [apply (codec_fold 0) with (ge := fun _ => id)
    (step := fun l x => if (x.1 <? 64)%nat then <[x.1 := Ignore]> l else l)|lia|apply effects_id|done].
  intros [i h] l (Hi & -> & Hp)%ignored_elem. cbn [fst snd].
  assert (i < 65)%nat as Hlt by (apply lookup_lt_Some in Hi; unfold handlers in Hi; rewrite length_map in Hi; lia).
  assert (is_u32 (Z.of_nat i)) by (apply is_u32_small; lia). assert (is_u32 1) by (apply is_u32_small; lia).
  unfold read_handler. cbn [handler_to_u32]. eapply codec_conv; [repeat codec_step|lia|done|]. cbv beta.
  rewrite as_u32_id by done. rewrite Nat2Z.id. cbn [u32_to_handler Z.eqb].
  destruct (Nat.ltb_spec i 64), (Z.ltb_spec (Z.of_nat i) 64); try lia; done.
Qed.

Lemma exec_handlers_fold l acc i :
  (forall j h, (j, h) ∈ l -> (j < length acc)%nat) ->
  fold_left (fun a (x : nat * SignalHandler) => if (x.1 <? 64)%nat then <[x.1 := Ignore]> a else a) l acc !! i =
  if bool_decide ((i < 64)%nat /\ i ∈ l.*1) then Some Ignore else acc !! i.
Proof.
  revert acc. induction l as [|[j h] l IH]; intros acc Hl; cbn [fold_left fmap list_fmap fst].
  - rewrite bool_decide_eq_false_2; [done|]. set_solver.
  - assert (j < length acc)%nat as Hj by (eapply Hl; left).
    assert (forall k h', (k, h') ∈ l -> (k < length acc)%nat) as Hl' by (intros; eapply Hl; by right).
    destruct (Nat.ltb_spec j 64).
    + rewrite IH by (intros; rewrite length_insert; by eapply Hl'). destruct (decide (i = j)) as [->|Hne].
      * rewrite (bool_decide_eq_true_2 (_ /\ j ∈ j :: _)) by set_solver. case_bool_decide; [done|]. by rewrite list_lookup_insert_eq.
      * rewrite list_lookup_insert_ne by done. repeat case_bool_decide; set_solver.
    + rewrite IH by done. repeat case_bool_decide; try done; set_solver by lia.
Qed.

(** Ignored signals below 64 stay ignored, all others get the default action. *)
Lemma exec_handlers_spec s i :
  length (actions s) = 65%nat -> valid_sig i ->
  nth (Z.to_nat i) (exec_handlers s) Default = if bool_decide (get_handler s i = Ignore /\ i <> 64) then Ignore else Default.
Proof.
  intros Hlen Hi. unfold valid_sig in Hi. assert (length (handlers s) = 65%nat) as Hh by (unfold handlers; by rewrite length_map).
  rewrite nth_lookup. unfold exec_handlers. rewrite exec_handlers_fold.
  2: { intros j h (Hj & _)%ignored_elem. apply lookup_lt_Some in Hj. rewrite length_replicate. lia. }
  assert (Z.to_nat i ∈ (ignored s).*1 <-> get_handler s i = Ignore) as He.
  { rewrite list_elem_of_fmap. unfold get_handler. rewrite (proj2 (Z.eqb_neq i 0)), (proj2 (Z.leb_gt 65 i)) by lia. cbn [orb].
    unfold action_at. rewrite nth_lookup. split.
    - intros ([j h] & Hj & (Hl & _)%ignored_elem). cbn [fst] in Hj. subst j. unfold handlers in Hl. rewrite list_lookup_fmap in Hl.
      destruct (actions s !! Z.to_nat i); by simplify_eq/=.
    - intros Ha. exists (Z.to_nat i, Ignore). split; [done|]. apply ignored_elem. split_and!; [|done|lia].
      unfold handlers. rewrite list_lookup_fmap. destruct (actions s !! Z.to_nat i) eqn:E; cbn in *; [by f_equal|].
      apply lookup_ge_None in E. lia. }
  rewrite (lookup_replicate_2 65 Default (Z.to_nat i)) by lia.
  repeat case_bool_decide; cbn; try done; exfalso; [intuition lia|]. apply H. split; [lia|]. apply He. tauto.
Qed.

Lemma codec_exec_signals p :
  is_u64 (blocked (pr_signals p)) -> is_u64 (pending (pr_signals p)) -> length (actions (pr_signals p)) = 65%nat ->
  directed_ok (pr_main_thread_signals p) ->
  pure_codec 0 (write_exec_signals p) read_exec_signals
    (from_parts_with_pending (exec_handlers (pr_signals p)) (blocked (pr_signals p)) (pending (pr_signals p)),
     discard_legacy_exec_timer_notifications (mkThread 0 (pt_pending (pr_main_thread_signals p)) (pt_queue (pr_main_thread_signals p)) None)).
Proof.
  intros Hb Hp Hlen Hm. unfold write_exec_signals, read_exec_signals.
  assert (Z.of_nat (length (ignored (pr_signals p))) <= 64) as Hk.
  { assert (length (ignored (pr_signals p)) <= 64)%nat; [|lia]. unfold ignored.
    assert (forall (l : list SignalHandler) n, length l = S n -> (length (List.filter is_ignored (enumerate l)) <= n)%nat) as Hg.
    { intros l n Hn. destruct l as [|h l]; [done|]. unfold enumerate. cbn [length seq zip_with List.filter is_ignored fst Nat.ltb Nat.leb andb].
      pose proof (filter_length_le is_ignored (zip (seq 1 (length l)) l)) as Hf. rewrite length_zip_with, length_seq in Hf.
      cbn [length] in Hn. lia. }
    apply Hg. unfold handlers. by rewrite length_map. }
  eapply codec_conv.
  - codec_step. eapply codec_seq; [apply codec_count, nat_u32_small; lia|]. codec_step; [apply Z.leb_le; lia|]. rewrite Nat2Z.id.
    eapply codec_seq; [by apply codec_exec_handlers|]. codec_step. eapply codec_last; [by apply codec_directed|intros; reflexivity].
  - lia.
  - done.
  - done.
Qed.

Lemma codec_exec_scalars p :
  scalars_ok p ->
  pure_codec 0 (write_exec_scalars p) read_exec_scalars
    (mkScalars (pr_ppid p) (pr_uid p) (pr_gid p) (pr_euid p) (pr_egid p) (pr_pgid p) (pr_sid p) (pr_umask p) (pr_nice p)
       (pr_is_session_leader p)).
Proof.
  intros []. unfold write_exec_scalars, read_exec_scalars.
  eapply codec_conv; [repeat codec_step|lia|done|]. f_equal; [by apply as_i32_u32|by destruct (pr_is_session_leader p)].
Qed.

(** The notifications of timers go; a bit goes with the last notification of
    its signal, and no other bit changes. *)
Lemma discard_spec st s :
  valid_sig s -> Forall (fun e => valid_sig (e_signum e)) (pt_queue st) ->
  let st' := discard_legacy_exec_timer_notifications st in
  pt_queue st' = List.filter (fun e => negb (is_timer_entry e)) (pt_queue st) /\
  has_bit (pt_pending st') s =
    has_bit (pt_pending st) s &&
    (existsb (is_sig s) (pt_queue st') || negb (existsb (fun e => is_timer_entry e && is_sig s e) (pt_queue st))).
Proof.
  intros Hs Hv st'. split; [done|]. cbn [st' discard_legacy_exec_timer_notifications pt_pending pt_queue].
  set (q := List.filter (fun e => negb (is_timer_entry e)) (pt_queue st)).
  assert (existsb (fun e => is_timer_entry e && is_sig s e) (pt_queue st) =
          existsb (fun t => t =? s) (e_signum <$> List.filter is_timer_entry (pt_queue st))) as ->.
  { clear Hv. induction (pt_queue st) as [|e l IH]; [done|]. cbn [existsb List.filter]. destruct (is_timer_entry e); cbn [fmap list_fmap existsb andb]; [|done].
    rewrite IH. done. }
  assert (Forall valid_sig (e_signum <$> List.filter is_timer_entry (pt_queue st))) as Hl.
  { apply Forall_fmap, Forall_forall. intros e [He _]%elem_of_filter_bool. by apply (proj1 (Forall_forall _ _) Hv). }
  generalize dependent (e_signum <$> List.filter is_timer_entry (pt_queue st)). intros l Hl. generalize (pt_pending st).
  induction Hl as [|t l Ht Hl IH]; intros p; cbn [fold_left existsb]; [by rewrite orb_true_r, andb_true_r|].
  rewrite IH. destruct (Z.eqb_spec t s) as [->|Hne]; cbn [orb].
  - destruct (existsb (is_sig s) q); cbn [orb]; [done|]. rewrite andb_false_r.
    assert (has_bit (Z.ldiff p (sig_bit s)) s = false) as ->; [|done].
    unfold has_bit. apply negb_false_iff, Z.eqb_eq. apply Z.bits_inj'. intros i Hi.
    rewrite Z.land_spec, Z.ldiff_spec, Z.bits_0. destruct (Z.testbit (sig_bit s) i); [by rewrite andb_false_r|by rewrite andb_false_r].
  - f_equal. destruct (existsb (is_sig t) q); [done|]. unfold has_bit. do 2 f_equal. apply Z.bits_inj'. intros i Hi.
    rewrite !Z.land_spec, Z.ldiff_spec. destruct (Z.testbit (sig_bit t) i) eqn:Et; [|by rewrite andb_true_r].
    rewrite andb_false_r. cbn [andb]. symmetry. apply andb_false_intro2.
    rewrite sig_bit_testbit by done. apply bool_decide_eq_false_2. intros ->. apply Hne.
    rewrite sig_bit_testbit in Et by done. apply bool_decide_eq_true in Et. lia.
Qed.

(** ** The whole image *)

Definition exec_process (p : Process) (pid : Z) : Process :=
  let kept := kept_fds FD_CLOEXEC (pr_fd_table p) in
  let refs := count_refs (tag_fd <$> kept) in
  mkProcess pid (pr_ppid p) (pr_uid p) (pr_gid p) (pr_euid p) (pr_egid p) (pr_pgid p) (pr_sid p) (pr_is_session_leader p) Running 0 0
    None (FdTable.from_raw (put_all fst snd kept []) (max_fds (pr_fd_table p)))
    (mkTable (child_ofds pid true (pr_ofd_table p) refs)) [] socket_table_new (pr_cwd p) []
    (from_parts_with_pending (exec_handlers (pr_signals p)) (blocked (pr_signals p)) (pending (pr_signals p)))
    (discard_legacy_exec_timer_notifications
       (mkThread 0 (pt_pending (pr_main_thread_signals p)) (pt_queue (pr_main_thread_signals p)) None))
    Memory.new (child_terminal (pr_terminal p)) (pr_environ p) (pr_argv p) (pr_umask p) (pr_nice p) (pr_rlimits p)
    0 0 (replicate 16 0) false None None None [] 49152 [] 0 [] [] 0 2 0 0 [] false None [] 0.

Definition exec_effects (p : Process) (pid : Z) : globals -> globals :=
  ofd_effects pid true (pr_ofd_table p) (count_refs (tag_fd <$> kept_fds FD_CLOEXEC (pr_fd_table p))).

Lemma codec_exec_body `{Heap} p pid :
  exec_encodable p ->
  exists m : R Process, (forall r, read_exec_state pid r = (let! _ := read_header EXEC_MAGIC in m) r) /\
  codec 0 (write_exec_body p) m (exec_effects p pid) (exec_process p pid).
Proof.
  intros []. unfold read_exec_state. eexists. split; [intros r; reflexivity|]. unfold write_exec_body, exec_fds. rewrite kept_fds_eq.
  destruct (kept_fds_ok FD_CLOEXEC _ xe_fds0) as [Hk1 Hk2]. destruct xe_masks0 as [Hb Hp].
  assert (forall i c, count_refs (tag_fd <$> kept_fds FD_CLOEXEC (pr_fd_table p)) !! i = Some c -> is_u32 c) as Hrefs.
  { intros i c. rewrite count_refs_lookup by done. case_bool_decide; [done|]. intros [= <-]. apply is_u32_small. unfold refs_to.
    pose proof (filter_length_le (fun x : nat * FdEntry => (ofd_ref x.2 =? i)%nat) (kept_fds FD_CLOEXEC (pr_fd_table p))). lia. }
  eapply codec_conv.
  - field codec_exec_scalars; [done|]. field codec_exec_signals; [done..|].
    field codec_fd_table; [by destruct xe_fds0|done| |].
    { eapply Forall_impl; [exact Hk2|]. intros x (? & ? & _). split_and!; [done|done|]. apply Z.land_0_r. }
    field codec_ofd_table; [done|done|]. field codec_strings; [done|done|]. field codec_strings; [done|done|].
    field codec_path; [done|]. field codec_rlimits; [done|]. field codec_terminal; [done|].
    eapply codec_last; [apply codec_u32, as_u32_range|intros; reflexivity].
  - lia.
  - done.
  - done.
Qed.

(** What POSIX asks of the process [c] after [p] executed a program. *)
Record exec_of (p : Process) (pid : Z) (c : Process) : Prop := {
  xo_ids : pr_pid c = pid /\ pr_ppid c = pr_ppid p /\ pr_pgid c = pr_pgid p /\ pr_sid c = pr_sid p /\
    pr_is_session_leader c = pr_is_session_leader p;
  xo_creds : pr_uid c = pr_uid p /\ pr_gid c = pr_gid p /\ pr_euid c = pr_euid p /\ pr_egid c = pr_egid p /\
    pr_umask c = pr_umask p /\ pr_nice c = pr_nice p;
  xo_running : pr_state c = Running /\ pr_threads c = [];
  (** Descriptors without FD_CLOEXEC, at the same numbers. *)
  xo_fds : forall i, slot (FdTable.entries (pr_fd_table c)) i =
    match slot (FdTable.entries (pr_fd_table p)) i with
    | Some e => if Z.land (fd_flags e) FD_CLOEXEC =? 0 then Some e else None
    | None => None
    end;
  xo_ofds : forall i, Ofd.get (pr_ofd_table c) i =
    let n := refs_to (kept_fds FD_CLOEXEC (pr_fd_table p)) i in
    match Ofd.get (pr_ofd_table p) i with
    | Some o => if n =? 0 then None else Some (child_ofd pid n true o)
    | None => None
    end;
  (** Ignored signals stay ignored, except SIGRTMAX (64), caught ones get the
      default action; mask and pending set are kept. *)
  xo_handlers : forall s, valid_sig s ->
    get_handler (pr_signals c) s =
      if bool_decide (get_handler (pr_signals p) s = Ignore /\ s <> 64) then Ignore else Default;
  xo_masks : blocked (pr_signals c) = blocked (pr_signals p) /\ pending (pr_signals c) = pending (pr_signals p);
  (** Signals of the main thread, less those of timers. *)
  xo_main : pt_queue (pr_main_thread_signals c) =
      List.filter (fun e => negb (is_timer_entry e)) (pt_queue (pr_main_thread_signals p)) /\
    forall s, valid_sig s -> has_bit (pt_pending (pr_main_thread_signals c)) s =
      has_bit (pt_pending (pr_main_thread_signals p)) s &&
      (existsb (is_sig s) (pt_queue (pr_main_thread_signals c)) ||
       negb (existsb (fun e => is_timer_entry e && is_sig s e) (pt_queue (pr_main_thread_signals p))));
  (** A fresh address space, no timers. *)
  xo_memory : pr_memory c = Memory.new /\ pr_posix_timers c = [] /\ pr_fb_binding c = None /\ pr_dri_bindings c = [];
  xo_image : pr_environ c = pr_environ p /\ pr_argv c = pr_argv p /\ pr_cwd c = pr_cwd p /\ pr_rlimits c = pr_rlimits p /\
    pr_terminal c = child_terminal (pr_terminal p);
}.

Lemma length_exec_handlers s : length (exec_handlers s) = 65%nat.
Proof.
  unfold exec_handlers. assert (forall l acc, length (fold_left (fun a (x : nat * SignalHandler) => if (x.1 <? 64)%nat then <[x.1 := Ignore]> a else a) l acc) = length acc) as H.
  { intros l. induction l as [|x l IH]; intros acc; cbn [fold_left]; [done|]. rewrite IH. case_bool_step; [apply length_insert|done]. }
  by rewrite H.
Qed.

Lemma exec_process_spec p pid : exec_encodable p -> exec_of p pid (exec_process p pid).
Proof.
  intros []. destruct (kept_fds_ok FD_CLOEXEC _ xe_fds0) as [Hk1 _].
  split; try done.
  - intros i. cbn [exec_process pr_fd_table FdTable.from_raw FdTable.entries]. unfold kept_fds. apply put_slots.
  - intros i. cbn [exec_process pr_ofd_table]. rewrite !get_slot. cbn [entries]. unfold child_ofds, kept_ofds.
    rewrite ofd_iter_slots, put_slots. destruct (slot (entries (pr_ofd_table p)) i) as [o|]; [|done]. cbn [fst snd].
    rewrite count_refs_lookup by done. destruct (Z.eqb_spec (refs_to (kept_fds FD_CLOEXEC (pr_fd_table p)) i) 0) as [->|Hne]; [done|].
    rewrite (bool_decide_eq_false_2 (_ = 0)) by done. done.
  - intros s Hs. rewrite <- exec_handlers_spec by done. unfold get_handler. unfold valid_sig in Hs.
    rewrite (proj2 (Z.eqb_neq s 0)), (proj2 (Z.leb_gt 65 s)) by lia. cbn [orb]. unfold action_at.
    change (actions (pr_signals (exec_process p pid))) with (map (fun h => mkAction h 0 0) (exec_handlers (pr_signals p))).
    change action_default with (mkAction Default 0 0). by rewrite (map_nth (fun h => mkAction h 0 0)).
  - assert (Forall (fun e => valid_sig (e_signum e)) (pt_queue (pr_main_thread_signals p))) as Hv.
    { destruct xe_main0 as [_ _ Hq]. eapply Forall_impl; [exact Hq|]. by intros e []. }
    split; [done|]. intros s Hs. exact (proj2 (discard_spec (mkThread 0 _ _ None) s Hs Hv)).
Qed.

(** The sizes of the images of [p]. *)
Lemma exec_image `{Heap} p pid :
  exec_encodable p ->
  exists n image, length image = n /\
  (forall buf, serialize_exec_state p buf = (if (n <=? length buf)%nat then Ok (n, image ++ drop n buf) else Err ENOMEM)) /\
  forall post g, deserialize_exec_state (image ++ post) pid g = (Ret (exec_process p pid), exec_effects p pid g).
Proof.
  intros Hp. destruct (codec_exec_body p pid Hp) as (m & Hm & out & _ & He & Hr).
  set (total := as_u32 (Z.of_nat (12 + length out))).
  exists (12 + length out)%nat, (header EXEC_MAGIC total ++ out). split; [by rewrite length_app|]. split.
  - intros buf. pose proof (run_writer_spec EXEC_MAGIC _ _ buf He) as Hw. cbv zeta in Hw. unfold serialize_exec_state. rewrite Hw.
    case_cmp; [|done]. by rewrite <- app_assoc.
  - intros post g. unfold deserialize_exec_state. rewrite Hm.
    assert (is_u32 EXEC_MAGIC) as Hmagic by (unfold is_u32, u32_max, EXEC_MAGIC; lia).
    pose proof (reads_bind _ (fun _ => m) _ _ _ _ _ _ (reads_header EXEC_MAGIC total Hmagic (as_u32_range _)) Hr [] post g) as Hb.
    cbn [app length] in Hb. by rewrite Hb.
Qed.

(** With enough fuel to reach the bound, the loop ends with the image or with
    ENOMEM. *)
Lemma grow_spec serialize image f max len :
  (forall buf, serialize buf =
     if (length image <=? length buf)%nat then Ok (length image, image ++ drop (length image) buf) else Err ENOMEM) ->
  0 < len -> len * 2 ^ Z.of_nat f = max ->
  grow (S f) serialize max len = Some (if Z.of_nat (length image) <=? max then Ok image else Err ENOMEM).
Proof.
  intros Hs. revert len. induction f as [|f IH]; intros len Hpos Hlen; cbn [grow]; rewrite Hs, length_replicate.
  - change (2 ^ Z.of_nat 0) with 1 in Hlen. destruct (Nat.leb_spec (length image) (Z.to_nat len)).
    + rewrite take_app_length, (proj2 (Z.leb_le _ _)) by lia. done.
    + rewrite (proj2 (Z.ltb_ge _ _)), (proj2 (Z.leb_gt _ _)) by lia. done.
  - rewrite Nat2Z.inj_succ, Z.pow_succ_r in Hlen by lia. assert (0 < 2 ^ Z.of_nat f) as H2 by (apply Z.pow_pos_nonneg; lia).
    destruct (Nat.leb_spec (length image) (Z.to_nat len)).
    + rewrite take_app_length, (proj2 (Z.leb_le _ _)) by nia. done.
    + rewrite (proj2 (Z.ltb_lt _ _)) by nia. rewrite Z.min_l by nia. apply IH; lia.
Qed.

(** C39: A process whose state fits the format has an exec image.  A buffer that
    is too short for it is refused with ENOMEM, any other gets the image at its
    front; the growing buffer returns exactly the image, or ENOMEM when it is
    longer than the bound of 4 MiB, and its loop always ends; and reading the
    image back, whatever follows it, gives the process as exec leaves it: the
    same identity and credentials, the descriptors without FD_CLOEXEC and the
    descriptions they refer to with one reference per descriptor, caught signals
    reset and ignored ones still ignored, except the last, SIGRTMAX (64), which is
    reset as well, the mask and the pending signals less those of timers, and a
    fresh address space. *)
Theorem exec_roundtrip `{Heap} p pid :
  exec_encodable p ->
  exists image c, exec_of p pid c /\
    (forall buf, serialize_exec_state p buf =
       if (length image <=? length buf)%nat then Ok (length image, image ++ drop (length image) buf) else Err ENOMEM) /\
    serialize_exec_state_with_growing_buffer p =
      Some (if Z.of_nat (length image) <=? MAX_EXEC_STATE_BUFFER_LEN then Ok image else Err ENOMEM) /\
    forall post g, deserialize_exec_state (image ++ post) pid g = (Ret c, exec_effects p pid g).
Proof.
  intros Hp. destruct (exec_image p pid Hp) as (n & image & <- & Hs & Hd). exists image, (exec_process p pid).
  split; [by apply exec_process_spec|]. split; [done|]. split; [|done].
  apply (grow_spec (serialize_exec_state p) image 6); [done|unfold INITIAL_EXEC_STATE_BUFFER_LEN; lia|done].
Qed.

(** ** A concrete exec *)

Definition sample_main : PerThreadSignalState := mkThread 0 1536 [mkEntry 10 5 (-2) (Some 3); mkEntry 11 7 0 None] None.

(** The process of the fork example with signals queued for its main thread,
    one of them by a timer, and SIGUSR2 ignored. *)
Definition sample_exec : Process :=
  with_all_signals sample_parent
    (mkSignals (<[12%nat := mkAction Ignore 0 0]> (actions (pr_signals sample_parent))) 512 4 [mkEntry 3 0 0 None]) sample_main [].

Lemma sample_exec_encodable : exec_encodable sample_exec.
Proof.
  destruct sample_parent_encodable as [Hsc Hsig Hfd Hofd Henv Hargv Hcwd Hrl Hterm _ _ _ _ _]. split; try done.
  split; [cbn; unfold is_u64; lia|cbn; lia|]. cbn [sample_exec with_all_signals pr_main_thread_signals sample_main pt_queue pt_pending].
  each ltac:(split; [unfold valid_sig; cbn; lia|vm_compute; done|cbn; unfold is_i32; lia|cbn; unfold is_i32; lia|cbn; lia || done]).
Qed.

Lemma exec_roundtrip_witness :
  exec_encodable sample_exec /\
  exists c, exec_of sample_exec 7 c /\ pt_queue (pr_main_thread_signals c) = [mkEntry 11 7 0 None] /\
    (ref_count <$> Ofd.get (pr_ofd_table c) 0) = Some 1 /\ get_handler (pr_signals c) 12 = Ignore /\ get_handler (pr_signals c) 10 = Default.
Proof.
  pose proof sample_exec_encodable as He. split; [exact He|].
  destruct (exec_roundtrip sample_exec 7 He) as (image & c & Hc & _). exists c. split; [exact Hc|].
  destruct Hc as [_ _ _ _ Ho Hh _ [Hq _] _ _]. rewrite Hq, Ho, !Hh by (unfold valid_sig; lia).
  split_and!; vm_compute; done.
Defined.

(** ** Departures *)

(** The reader keeps handlers of signals below 64 only: SIGRTMAX, ignored
    before the exec and written to the image, has the default action after it. *)
Example exec_drops_ignored_sigrtmax :
  let p := with_all_signals sample_exec (mkSignals (<[64%nat := mkAction Ignore 0 0]> (replicate 65 action_default)) 0 0 []) pt_new [] in
  match serialize_exec_state p (replicate 2000 0) with
  | Ok (n, b) =>
      match (deserialize_exec_state (take n b) 7 two_buffers).1 with
      | Ret c => get_handler (pr_signals p) 64 = Ignore /\ get_handler (pr_signals c) 64 = Default
      | _ => False
      end
  | Err _ => False
  end.
Proof. vm_compute. done. Qed.
