(* ===== verification/Kernel.v ===== *)
(** * The machine and the descriptors in transit ([crates/kernel/src/pipe.rs], [pty.rs])

    The tables every process shares, as one record, and the operations of
    [pipe.rs] that act on several of them: a descriptor queued in a message
    holds one reference on the resource behind it ([retain_reference]), gives it
    to the receiver ([transfer_reference]), or, when the message is dropped,
    leaves a record in the deferred queue whose release
    ([release_deferred_in_flight_resource]) returns the reference.

    The reference accounting over these operations is in [Accounts.v]. *)

From S2P Require Import Prelude Abi Lock Ofd Wakeup Pipe PipeTable Terminal Backing Socket Names Mqueue Pshared Dri.

(** ** The machine *)

Record Kernel := mkKernel {
  k_pipes : PipeTable;
  k_world : World;
  k_handles : gmap Z Z;
  k_ptys : list (option PtyPair);
  k_backings : Backings;
  k_inet : InetTables;
  k_backlogs : SharedBacklogTable;
  k_net_handles : gmap Z Z;
  k_unix : UnixSocketRegistry;
  k_mqueues : MqueueTable;
  k_pshared : PSharedTable;
  k_registry : BoRegistry;
  k_last_ofd_id : Z;
}.

Definition with_pipe_table (k : Kernel) (t : PipeTable) (w : World) : Kernel :=
  mkKernel t w (k_handles k) (k_ptys k) (k_backings k) (k_inet k) (k_backlogs k) (k_net_handles k) (k_unix k) (k_mqueues k) (k_pshared k)
    (k_registry k) (k_last_ofd_id k).
Definition with_handles (k : Kernel) (h : gmap Z Z) : Kernel :=
  mkKernel (k_pipes k) (k_world k) h (k_ptys k) (k_backings k) (k_inet k) (k_backlogs k) (k_net_handles k) (k_unix k) (k_mqueues k)
    (k_pshared k) (k_registry k) (k_last_ofd_id k).
Definition with_ptys (k : Kernel) (l : list (option PtyPair)) : Kernel :=
  mkKernel (k_pipes k) (k_world k) (k_handles k) l (k_backings k) (k_inet k) (k_backlogs k) (k_net_handles k) (k_unix k) (k_mqueues k)
    (k_pshared k) (k_registry k) (k_last_ofd_id k).
Definition with_backings (k : Kernel) (b : Backings) : Kernel :=
  mkKernel (k_pipes k) (k_world k) (k_handles k) (k_ptys k) b (k_inet k) (k_backlogs k) (k_net_handles k) (k_unix k) (k_mqueues k)
    (k_pshared k) (k_registry k) (k_last_ofd_id k).
Definition with_backlogs (k : Kernel) (l : SharedBacklogTable) : Kernel :=
  mkKernel (k_pipes k) (k_world k) (k_handles k) (k_ptys k) (k_backings k) (k_inet k) l (k_net_handles k) (k_unix k) (k_mqueues k)
    (k_pshared k) (k_registry k) (k_last_ofd_id k).
Definition with_net_handles (k : Kernel) (h : gmap Z Z) : Kernel :=
  mkKernel (k_pipes k) (k_world k) (k_handles k) (k_ptys k) (k_backings k) (k_inet k) (k_backlogs k) h (k_unix k) (k_mqueues k)
    (k_pshared k) (k_registry k) (k_last_ofd_id k).
Definition with_tables (k : Kernel) (n : InetTables) (u : UnixSocketRegistry) (m : MqueueTable) (p : PSharedTable) : Kernel :=
  mkKernel (k_pipes k) (k_world k) (k_handles k) (k_ptys k) (k_backings k) n (k_backlogs k) (k_net_handles k) u m p (k_registry k)
    (k_last_ofd_id k).
Definition with_identities (k : Kernel) (r : BoRegistry) (last : Z) : Kernel :=
  mkKernel (k_pipes k) (k_world k) (k_handles k) (k_ptys k) (k_backings k) (k_inet k) (k_backlogs k) (k_net_handles k) (k_unix k)
    (k_mqueues k) (k_pshared k) r last.
Definition with_world (k : Kernel) (w : World) : Kernel := with_pipe_table k (k_pipes k) w.

(** An operation on the pipe table, with the drops it causes. *)
Definition on_pipes (f : PipeTable -> PipeTable * list effect) (k : Kernel) : Kernel :=
  let '(t, es) := f (k_pipes k) in with_pipe_table k t (run_effects (k_world k) es).

(** [if let Some(pipe) = pipes.get_mut(idx) { .. }]. *)
Definition pipe_do (idx : nat) (f : pipe_op) : Kernel -> Kernel := on_pipes (fun t => table_update t idx f).

(** [pipes.free_if_closed(idx)]. *)
Definition pipe_free (idx : nat) : Kernel -> Kernel := on_pipes (free_if_closed idx).

(** The descriptors queued in the messages of one buffer, and of the table, that
    own a reference. *)
Definition slot_fds (slot : option PipeBuffer) : list InFlightFd :=
  match slot with Some p => List.filter fd_owns_reference (concat (p_ancillary_fds p)) | None => [] end.
Definition queued (t : PipeTable) : list InFlightFd := concat (slot_fds <$> pipes t).

(** [PtyPair] counts. *)
Definition with_pty_refs (p : PtyPair) (m s : Z) : PtyPair := mkPty (terminal p) (input_buf p) (output_buf p) (locked p) m s.
Definition put_pty (k : Kernel) (idx : nat) (p : PtyPair) : Kernel := with_ptys k (<[idx := Some p]> (k_ptys k)).

Section machine.
Context `{Usize}.

(** [(-(h + 1)) as usize] and [h as usize] for an [i64] handle. *)
Definition neg_index (h : Z) : nat := Z.to_nat ((- (h + 1)) mod 2 ^ usize_bits).
Definition usize_index (h : Z) : nat := Z.to_nat (h mod 2 ^ usize_bits).

(** ** References of a queued descriptor *)

(** [grown] tells whether the vector has or gets room for the record. *)
Definition reserve_deferred_in_flight_release (grown : bool) (q : DeferredInFlightReleaseQueue)
    : kresult unit * DeferredInFlightReleaseQueue :=
  if usize_max <? Z.of_nat (dq_reserved q) + 1 then (Err EOVERFLOW, q)
  else if grown then (Ok tt, mkDeferred (dq_records q) (S (dq_reserved q)))
  else (Err ENOMEM, q).

Definition missing_pipe (k : Kernel) (o : option nat) : bool :=
  match o with Some idx => bool_decide (table_get (k_pipes k) idx = None) | None => false end.

Definition opt_pipe_do (o : option nat) (f : pipe_op) (k : Kernel) : Kernel :=
  match o with Some idx => pipe_do idx f k | None => k end.

(** [opt_pipe_do] followed by [free_if_closed]. *)
Definition opt_pipe_close (o : option nat) (f : pipe_op) (k : Kernel) : Kernel :=
  match o with Some idx => pipe_free idx (pipe_do idx f k) | None => k end.

Definition retain_in_flight_resource (r : DeferredInFlightFdRelease) (k : Kernel) : kresult unit * Kernel :=
  match add_ref_for_ofd (k_backings k) (rel_file_type r) (rel_host_handle r) with
  | (Err e, b) => (Err e, with_backings k b)
  | (Ok true, b) => (Ok tt, with_backings k b)
  | (Ok false, b) =>
      let k := with_backings k b in
      let h := rel_host_handle r in
      match rel_file_type r with
      | Regular | Directory | CharDevice =>
          (Ok tt, if 0 <=? h then with_handles k (host_handle_fork_ref (k_handles k) h) else k)
      | Ofd.Pipe =>
          if 0 <=? h then (Ok tt, with_handles k (host_handle_fork_ref (k_handles k) h))
          else
            match table_get (k_pipes k) (neg_index h) with
            | None => (Err EBADF, k)
            | Some _ =>
                match rel_pipe_ref_kind r with
                | None => (Err EINVAL, k)
                | Some kind => (Ok tt, pipe_do (neg_index h) (retain_in_flight_reference kind) k)
                end
            end
      | Socket =>
          if rel_socket_global_pipes r then
            if missing_pipe k (rel_socket_send_idx r) || missing_pipe k (rel_socket_recv_idx r) then (Err EBADF, k)
            else (Ok tt, opt_pipe_do (rel_socket_recv_idx r) retain_in_flight_reader
                           (opt_pipe_do (rel_socket_send_idx r) retain_in_flight_writer k))
          else (Ok tt, k)
      | PtyMaster =>
          match get_pty (k_ptys k) (usize_index h) with
          | None => (Err EBADF, k)
          | Some p =>
              if master_refs p + 1 <=? u32_max then (Ok tt, put_pty k (usize_index h) (with_pty_refs p (master_refs p + 1) (slave_refs p)))
              else (Err EOVERFLOW, k)
          end
      | PtySlave =>
          match get_pty (k_ptys k) (usize_index h) with
          | None => (Err EBADF, k)
          | Some p =>
              if slave_refs p + 1 <=? u32_max then (Ok tt, put_pty k (usize_index h) (with_pty_refs p (master_refs p) (slave_refs p + 1)))
              else (Err EOVERFLOW, k)
          end
      | Epoll => (Err EINVAL, k)
      | _ => (Ok tt, k)
      end
  end.

Definition transfer_in_flight_resource (r : DeferredInFlightFdRelease) (k : Kernel) : Kernel :=
  match rel_file_type r with
  | Ofd.Pipe =>
      if rel_host_handle r <? 0 then
        match rel_pipe_ref_kind r with
        | Some kind => pipe_do (neg_index (rel_host_handle r)) (pure_op (adopt_in_flight_reference kind)) k
        | None => k
        end
      else k
  | Socket =>
      if rel_socket_global_pipes r then
        opt_pipe_do (rel_socket_recv_idx r) (pure_op adopt_in_flight_reader)
          (opt_pipe_do (rel_socket_send_idx r) (pure_op adopt_in_flight_writer) k)
      else k
  | _ => k
  end.

Record ReleasedInFlightFd := mkReleased { rf_ofd_id : Z; rf_final_ofd_reference : bool; rf_host_close : option Z }.

(** [pty.master_refs = pty.master_refs.saturating_sub(1)], then [free_pty] when
    neither end is left. *)
Definition pty_close (idx : nat) (master : bool) (k : Kernel) : Kernel :=
  match get_pty (k_ptys k) idx with
  | None => k
  | Some p =>
      let p := if master then with_pty_refs p (u32_saturating_sub (master_refs p) 1) (slave_refs p)
               else with_pty_refs p (master_refs p) (u32_saturating_sub (slave_refs p) 1) in
      let k := put_pty k idx p in
      if negb (is_alive p) then with_ptys k (free_pty (k_ptys k) idx) else k
  end.

(** [socket_type == Some(0) && matches!(socket_domain, Some(1 | 2))]. *)
Definition orderly_release (r : DeferredInFlightFdRelease) : bool :=
  bool_decide (rel_socket_type r = Some 0) && bool_decide (rel_socket_domain r = Some 1 \/ rel_socket_domain r = Some 2).

Definition release_deferred_in_flight_resource (r : DeferredInFlightFdRelease) (k : Kernel) : ReleasedInFlightFd * Kernel :=
  let h := rel_host_handle r in
  let answer final close k := (mkReleased (rel_ofd_id r) final close, k) in
  if manages_ofd (rel_file_type r) h then
    let '(freed, b) := release_for_ofd (k_backings k) (rel_file_type r) h in answer freed None (with_backings k b)
  else
    match rel_file_type r with
    | Regular | Directory | CharDevice =>
        if 0 <=? h then
          let '(last, hs) := host_handle_close_ref (k_handles k) h in
          answer last (if last then Some h else None) (with_handles k hs)
        else answer false None k
    | Ofd.Pipe =>
        if 0 <=? h then
          let '(last, hs) := host_handle_close_ref (k_handles k) h in
          answer false (if last then Some h else None) (with_handles k hs)
        else
          let k := match rel_pipe_ref_kind r with
                   | Some kind => pipe_do (neg_index h) (release_in_flight_reference kind) k
                   | None => k
                   end in
          answer false None (pipe_free (neg_index h) k)
    | Socket =>
        if rel_socket_global_pipes r then
          let k := opt_pipe_close (rel_socket_send_idx r) release_in_flight_writer k in
          answer false None
            (opt_pipe_close (rel_socket_recv_idx r)
               (if orderly_release r then release_in_flight_reader_orderly else release_in_flight_reader) k)
        else answer false None k
    | PtyMaster => answer false None (pty_close (usize_index h) true k)
    | PtySlave => answer false None (pty_close (usize_index h) false k)
    | _ => answer false None k
    end.

Definition with_in_flight (w : World) (refs : list (Z * Z)) : World := mkWorld (w_wakeups w) refs (w_deferred w).
Definition with_deferred (w : World) (q : DeferredInFlightReleaseQueue) : World := mkWorld (w_wakeups w) (w_in_flight w) q.
Definition on_deferred (f : DeferredInFlightReleaseQueue -> DeferredInFlightReleaseQueue) (k : Kernel) : Kernel :=
  with_world k (with_deferred (k_world k) (f (w_deferred (k_world k)))).
Definition on_in_flight (f : list (Z * Z) -> list (Z * Z)) (k : Kernel) : Kernel :=
  with_world k (with_in_flight (k_world k) (f (w_in_flight (k_world k)))).

Definition set_owns (fd : InFlightFd) (b : bool) : InFlightFd :=
  mkInFlight (fd_ofd_id fd) (fd_file_id fd) (fd_file_type fd) (fd_status_flags fd) (fd_host_handle fd) (fd_offset fd) (fd_path fd)
    (fd_pipe_ref_kind fd) (fd_socket fd) b.

(** [grown] and [alloc_ok]: whether the two vectors have or get room. *)
Definition retain_reference (grown alloc_ok : bool) (fd : InFlightFd) (k : Kernel) : kresult InFlightFd * Kernel :=
  if fd_owns_reference fd then (Ok fd, k)
  else
    match reserve_deferred_in_flight_release grown (w_deferred (k_world k)) with
    | (Err e, _) => (Err e, k)
    | (Ok _, q) =>
        let k1 := on_deferred (fun _ => q) k in
        match retain_in_flight_ofd alloc_ok (w_in_flight (k_world k1)) (fd_ofd_id fd) with
        | (Err e, _) => (Err e, on_deferred cancel_deferred_in_flight_release k1)
        | (Ok _, refs) =>
            let k2 := on_in_flight (fun _ => refs) k1 in
            match retain_in_flight_resource (release_metadata fd) k2 with
            | (Err e, k3) =>
                (Err e, on_deferred cancel_deferred_in_flight_release
                          (on_in_flight (fun refs => (release_in_flight_ofd refs (fd_ofd_id fd)).2) k3))
            | (Ok _, k3) => (Ok (set_owns fd true), k3)
            end
        end
    end.

Definition transfer_reference (fd : InFlightFd) (k : Kernel) : InFlightFd * Kernel :=
  if fd_owns_reference fd then
    (set_owns fd false,
     on_deferred cancel_deferred_in_flight_release
       (on_in_flight (fun refs => (release_in_flight_ofd refs (fd_ofd_id fd)).2)
          (transfer_in_flight_resource (release_metadata fd) k)))
  else (fd, k).

(** [None] when the reference of the copy cannot be retained, where the source
    panics. *)
Definition in_flight_clone (grown alloc_ok : bool) (fd : InFlightFd) (k : Kernel) : option (InFlightFd * Kernel) :=
  let cloned := set_owns fd false in
  if fd_owns_reference fd then
    match retain_reference grown alloc_ok cloned k with
    | (Ok c, k') => Some (c, k')
    | (Err _, _) => None
    end
  else Some (cloned, k).

End machine.
