(* ===== verification/Accounts.v ===== *)
(** * Reference accounting

    Who holds what.  A [use] is one reference on one shared resource; the uses
    of a holder (an open file description, a descriptor queued in a message, a
    deferred release, a connection waiting in an accept queue, an open that
    waits for the other end of its FIFO) are lists of them, and [accounts k own air] says
    that every counter of the machine [k] is the number of its holders when the
    processes hold [own] and code in progress holds [air] in transit.

    The lemmas say what each operation of [Kernel.v] does to it: taking a
    reference adds a holder, closing one removes it, a message that is dropped
    moves its holders to the deferred queue.  The theorem: descriptor passing
    neither loses nor duplicates a reference, whatever happens to the message. *)

From S2P Require Import Prelude Abi Lock Ofd Wakeup Pipe PipeTable Terminal Backing Socket Names Mqueue Pshared Dri Kernel.

Inductive use :=
| UBacking (s : backing_kind * nat)
| UHandle (h : Z)
| UPty (idx : nat) (master : bool)
| UPipe (idx : nat) (kind : InFlightPipeRefKind)
| UBacklog (idx : nat)
| UNet (h : Z).

#[export] Instance use_eq_dec : EqDecision use.
Proof. solve_decision. Defined.

Definition count (u : use) (l : list use) : Z := Z.of_nat (length (List.filter (fun x => bool_decide (x = u)) l)).

Lemma count_app u a b : count u (a ++ b) = count u a + count u b.
Proof. unfold count. rewrite List.filter_app, length_app. lia. Qed.

Lemma count_cons u x l : count u (x :: l) = (if decide (x = u) then 1 else 0) + count u l.
Proof. unfold count. cbn [List.filter]. destruct (decide (x = u)); [rewrite bool_decide_eq_true_2 by done|rewrite bool_decide_eq_false_2 by done]; cbn [length]; lia. Qed.

Lemma count_nil u : count u [] = 0.
Proof. done. Qed.

Lemma count_nonneg u l : 0 <= count u l.
Proof. unfold count. lia. Qed.

Lemma count_elem u l : u ∈ l -> 1 <= count u l.
Proof. induction 1 as [u l|u x l ? IH]; rewrite count_cons; pose proof (count_nonneg u l); [rewrite decide_True by done; lia|case_decide; lia]. Qed.

Lemma count_length u l : count u l <= Z.of_nat (length l).
Proof. unfold count. pose proof (filter_length_le (fun x => bool_decide (x = u)) l). lia. Qed.

#[export] Instance count_perm u : Proper ((≡ₚ) ==> eq) (count u).
Proof.
  intros a b Hp. induction Hp as [|x a b Hp IH|x y a|a b c H1 IH1 H2 IH2]; [done| | |congruence]; rewrite !count_cons; lia.
Qed.

(** Evaluates counts of concrete lists. *)
Ltac count_tac := rewrite ?count_app, ?count_cons, ?count_nil; repeat (case_decide; simplify_eq); try lia.

(** ** The uses of each holder *)

Definition opt_use (o : option nat) (kind : InFlightPipeRefKind) : list use :=
  match o with Some i => [UPipe i kind] | None => [] end.

(** The two pipes of a socket. *)
Definition socket_pipe_uses (send recv : option nat) : list use := opt_use send RefWrite ++ opt_use recv (RefRead false).

Section uses.
Context `{Usize}.

Definition backing_use (ft : FileType) (h : Z) : list use := match slot_of ft h with Some s => [UBacking s] | None => [] end.

Definition handle_use (ft : FileType) (h : Z) : list use :=
  match ft with Regular | Directory | CharDevice | Ofd.Pipe => if 0 <=? h then [UHandle h] else [] | _ => [] end.

Definition pty_use (ft : FileType) (h : Z) : list use :=
  match ft with PtyMaster => [UPty (usize_index h) true] | PtySlave => [UPty (usize_index h) false] | _ => [] end.

(** A queued descriptor or a deferred record. *)
Definition release_uses (r : DeferredInFlightFdRelease) : list use :=
  let ft := rel_file_type r in
  let h := rel_host_handle r in
  backing_use ft h ++ handle_use ft h ++ pty_use ft h ++
  match ft with
  | Ofd.Pipe => if h <? 0 then match rel_pipe_ref_kind r with Some kind => [UPipe (neg_index h) kind] | None => [] end else []
  | Socket => if rel_socket_global_pipes r then socket_pipe_uses (rel_socket_send_idx r) (rel_socket_recv_idx r) else []
  | _ => []
  end.

Definition records_uses (l : list DeferredInFlightFdRelease) : list use := concat (release_uses <$> l).

Definition in_transit (k : Kernel) : list use :=
  records_uses ((release_metadata <$> queued (k_pipes k)) ++ dq_records (w_deferred (k_world k))).

(** An open that waits for its peer has an end of its own. *)
Definition waiter_use (i : nat) (w : FifoOpenWaiter) : use :=
  UPipe i (match fw_side w with Reader => RefRead false | Writer => RefWrite end).
Definition waiter_uses (i : nat) (slot : option PipeBuffer) : list use :=
  match slot with Some p => waiter_use i <$> (map_to_list (p_fifo_open_waiters p)).*2 | None => [] end.

(** A connection that waits to be accepted has the two ends of the server. *)
Definition pending_uses (pc : PendingConnection) : list use := [UPipe (pc_recv_pipe_idx pc) (RefRead false); UPipe (pc_send_pipe_idx pc) RefWrite].
Definition backlog_uses (b : SharedBacklog) : list use := if bl_in_use b then bl_queue b ≫= pending_uses else [].

Definition waiting (t : PipeTable) : list use := concat (imap waiter_uses (pipes t)).
Definition pending (k : Kernel) : list use := waiting (k_pipes k) ++ (k_backlogs k ≫= backlog_uses).

(** ** The invariant *)

Definition tally_of (i : nat) (l : list use) : tally := fun kind => count (UPipe i kind) l.

Record pipes_ok (t : PipeTable) (ext fly : list use) : Prop := {
  po_live : forall i p, table_get t i = Some p -> accounted p (tally_of i ext, tally_of i fly);
  po_path : forall i p, table_get t i = Some p -> p_is_fifo p = false -> count (UPipe i RefPath) (ext ++ fly) = 0;
  po_dead : forall i kind, table_get t i = None -> count (UPipe i kind) (ext ++ fly) = 0;
}.

Definition backings_ok (b : Backings) (all : list use) : Prop := refs_positive b /\ forall s, refs_at b s = count (UBacking s) all.

Definition ptys_ok (l : list (option PtyPair)) (all : list use) : Prop :=
  forall i, match get_pty l i with
            | Some p => master_refs p = count (UPty i true) all /\ slave_refs p = count (UPty i false) all
            | None => count (UPty i true) all = 0 /\ count (UPty i false) all = 0
            end.

Definition backlogs_ok (l : SharedBacklogTable) (all : list use) : Prop :=
  forall i, match l !! i with
            | Some e => if bl_in_use e then bl_ref_count e = count (UBacklog i) all else count (UBacklog i) all = 0
            | None => count (UBacklog i) all = 0
            end.

Record accounts (k : Kernel) (own air : list use) : Prop := {
  ac_pipes : pipes_ok (k_pipes k) (own ++ pending k) (air ++ in_transit k);
  ac_backings : backings_ok (k_backings k) (own ++ pending k ++ air ++ in_transit k);
  ac_handles : handles_agree (k_handles k) (fun h => count (UHandle h) (own ++ pending k ++ air ++ in_transit k));
  ac_ptys : ptys_ok (k_ptys k) (own ++ pending k ++ air ++ in_transit k);
  ac_backlogs : backlogs_ok (k_backlogs k) (own ++ pending k ++ air ++ in_transit k);
  ac_nets : handles_agree (k_net_handles k) (fun h => count (UNet h) (own ++ pending k ++ air ++ in_transit k));
  ac_bound : Z.of_nat (length (own ++ pending k ++ air ++ in_transit k)) <= u32_max;
}.

End uses.

(** ** Only the counts matter *)

Lemma accounted_ext p a b a' b' :
  accounted p (a, b) -> (forall kind, a kind = a' kind) -> (forall kind, b kind = b' kind) -> accounted p (a', b').
Proof.
  intros [H1 H2 H3 H4 H5 H6 H7 H8] Ha Hb.
  assert (readers a = readers a') as Era by (unfold readers; by rewrite !Ha). assert (readers b = readers b') as Erb by (unfold readers; by rewrite !Hb).
  assert (writers a = writers a') as Ewa by (unfold writers; by rewrite !Ha). assert (writers b = writers b') as Ewb by (unfold writers; by rewrite !Hb).
  unfold below_limit in *. cbn [fst snd] in *.
  split; unfold below_limit; cbn [fst snd]; rewrite <- ?Era, <- ?Erb, <- ?Ewa, <- ?Ewb, <- ?Ha, <- ?Hb; try done.
  intros kind. rewrite <- Ha, <- Hb. apply H1.
Qed.

(** The same counts of pipe uses. *)
Definition same_pipe_uses (a b : list use) : Prop := forall i kind, count (UPipe i kind) a = count (UPipe i kind) b.

Lemma pipes_ok_ext t ext fly ext' fly' :
  same_pipe_uses ext ext' -> same_pipe_uses fly fly' -> pipes_ok t ext fly -> pipes_ok t ext' fly'.
Proof.
  intros He Hf [H1 H2 H3]. split.
  - intros i p Hp. eapply accounted_ext; [by apply H1|intros kind; apply He|intros kind; apply Hf].
  - intros i p Hp Hn. rewrite count_app, <- He, <- Hf, <- count_app. eauto.
  - intros i kind Hp. rewrite count_app, <- He, <- Hf, <- count_app. eauto.
Qed.

Lemma handles_agree_ext refs f g : (forall h, f h = g h) -> handles_agree refs f -> handles_agree refs g.
Proof. intros E Ha h. rewrite <- E. apply Ha. Qed.

Lemma backings_ok_ext b l l' : (forall s, count (UBacking s) l = count (UBacking s) l') -> backings_ok b l -> backings_ok b l'.
Proof. intros E [H1 H2]. split; [done|]. intros s. by rewrite <- E. Qed.

Lemma ptys_ok_ext t l l' : (forall i m, count (UPty i m) l = count (UPty i m) l') -> ptys_ok t l -> ptys_ok t l'.
Proof. intros E Ho i. specialize (Ho i). by rewrite !E in Ho. Qed.

Lemma backlogs_ok_ext t l l' : (forall i, count (UBacklog i) l = count (UBacklog i) l') -> backlogs_ok t l -> backlogs_ok t l'.
Proof. intros E Ho i. specialize (Ho i). by rewrite !E in Ho. Qed.

#[export] Instance pipes_ok_perm t : Proper ((≡ₚ) ==> (≡ₚ) ==> iff) (pipes_ok t).
Proof. intros a a' Ha b b' Hb. split; apply pipes_ok_ext; intros i kind; by rewrite ?Ha, ?Hb. Qed.
#[export] Instance backings_ok_perm t : Proper ((≡ₚ) ==> iff) (backings_ok t).
Proof. intros a a' Ha. split; apply backings_ok_ext; intros s; by rewrite Ha. Qed.
#[export] Instance ptys_ok_perm t : Proper ((≡ₚ) ==> iff) (ptys_ok t).
Proof. intros a a' Ha. split; apply ptys_ok_ext; intros i m; by rewrite Ha. Qed.
#[export] Instance backlogs_ok_perm t : Proper ((≡ₚ) ==> iff) (backlogs_ok t).
Proof. intros a a' Ha. split; apply backlogs_ok_ext; intros i; by rewrite Ha. Qed.

(** ** Moving and adding holders *)

Definition is_pipe_use (u : use) : bool := match u with UPipe _ _ => true | _ => false end.

Section holders.
Context `{Usize}.
Implicit Types (k : Kernel) (own air : list use).

Lemma accounts_perm k own own' air air' : own ≡ₚ own' -> air ≡ₚ air' -> accounts k own air -> accounts k own' air'.
Proof.
  intros Ho Ha [H1 H2 H3 H4 H5 H6 H7]. split.
  - by rewrite <- Ho, <- Ha.
  - by rewrite <- Ho, <- Ha.
  - eapply handles_agree_ext; [|exact H3]. intros h. cbn. by rewrite <- Ho, <- Ha.
  - by rewrite <- Ho, <- Ha.
  - by rewrite <- Ho, <- Ha.
  - eapply handles_agree_ext; [|exact H6]. intros h. cbn. by rewrite <- Ho, <- Ha.
  - by rewrite <- Ho, <- Ha.
Qed.

(** Only a reference on a pipe remembers whether it is in transit. *)
Lemma accounts_shift k own air u : is_pipe_use u = false -> accounts k (u :: own) air <-> accounts k own (u :: air).
Proof.
  intros Hu. assert (forall l, (u :: own) ++ pending k ++ air ++ l ≡ₚ own ++ pending k ++ (u :: air) ++ l) as Hp.
  { intros l. cbn [app]. rewrite !Permutation_middle. done. }
  assert (forall i kind l, count (UPipe i kind) (u :: l) = count (UPipe i kind) l) as Hc.
  { intros i kind l. rewrite count_cons, decide_False by (by intros ->). lia. }
  split; intros [H1 H2 H3 H4 H5 H6 H7]; split.
  all: try (rewrite Hp in *; assumption).
  all: try (rewrite <- Hp in *; assumption).
  all: try (eapply pipes_ok_ext; [| |exact H1]; intros i kind; cbn [app]; by rewrite ?Hc).
  all: eapply handles_agree_ext; [|exact H3 || exact H6]; intros h; cbn beta; by rewrite Hp.
Qed.

Lemma accounts_shift_all k own air us : forallb (fun u => negb (is_pipe_use u)) us = true -> accounts k (us ++ own) air <-> accounts k own (us ++ air).
Proof.
  revert own air. induction us as [|u us IH]; intros own air; [done|]. cbn [forallb]. intros [Hu Hus]%andb_prop.
  apply negb_true_iff in Hu. cbn [app]. rewrite (accounts_shift k (us ++ own) air u Hu).
  assert (u :: us ++ air ≡ₚ us ++ u :: air) as Hp by apply Permutation_middle.
  split; intros Ha.
  - eapply accounts_perm; [reflexivity|symmetry; exact Hp|]. apply IH; [done|exact Ha].
  - apply IH; [done|]. eapply accounts_perm; [reflexivity|exact Hp|exact Ha].
Qed.

(** A change outside the pipes and the queues. *)
Lemma accounts_change k k' own own' air :
  accounts k own air ->
  k_pipes k' = k_pipes k -> dq_records (w_deferred (k_world k')) = dq_records (w_deferred (k_world k)) -> k_backlogs k' ≫= backlog_uses = k_backlogs k ≫= backlog_uses ->
  same_pipe_uses own own' ->
  let rest := pending k ++ air ++ in_transit k in
  backings_ok (k_backings k') (own' ++ rest) ->
  handles_agree (k_handles k') (fun h => count (UHandle h) (own' ++ rest)) ->
  ptys_ok (k_ptys k') (own' ++ rest) ->
  backlogs_ok (k_backlogs k') (own' ++ rest) ->
  handles_agree (k_net_handles k') (fun h => count (UNet h) (own' ++ rest)) ->
  Z.of_nat (length (own' ++ rest)) <= u32_max ->
  accounts k' own' air.
Proof.
  intros [H1 _ _ _ _ _ _] Ep Ed Eb Hu rest Hb Hh Hp Hl Hn Hs.
  assert (pending k' = pending k) as Epend by (unfold pending; by rewrite Ep, Eb).
  assert (in_transit k' = in_transit k) as Etr by (unfold in_transit; by rewrite Ep, Ed).
  split; rewrite ?Epend, ?Etr; try done. rewrite Ep. eapply pipes_ok_ext; [| |exact H1]; [|done].
  intros i kind. by rewrite !count_app, Hu.
Qed.

End holders.

(** Discharges the tables a change does not touch. *)
Ltac same_counts := intros; cbn beta; rewrite ?count_app; cbn [app]; count_tac.
Ltac unchanged_tables Ha :=
  destruct Ha as [?Hpipes ?Hbackings ?Hhandles ?Hptys ?Hbacklogs ?Hnets ?Hbound];
  first [ solve [eapply backings_ok_ext; [|eassumption]; same_counts]
        | solve [eapply ptys_ok_ext; [|eassumption]; same_counts]
        | solve [eapply backlogs_ok_ext; [|eassumption]; same_counts]
        | solve [eapply handles_agree_ext; [|exact Hhandles]; same_counts]
        | solve [eapply handles_agree_ext; [|exact Hnets]; same_counts]
        | idtac ].

(** ** One resource at a time *)

Section resources.
Context `{Usize}.
Implicit Types (k : Kernel) (own air : list use).

Definition all_uses k own air : list use := own ++ pending k ++ air ++ in_transit k.
Definition load k own air : Z := Z.of_nat (length (all_uses k own air)).

Lemma count_load k own air u : 0 <= count u (all_uses k own air) <= load k own air.
Proof. split; [apply count_nonneg|apply count_length]. Qed.

Lemma load_cons k own air u : load k (u :: own) air = load k own air + 1.
Proof. unfold load, all_uses. cbn [app length]. lia. Qed.

Lemma set_table_positive b kd (t : SharedBackingTable (value_of kd)) :
  refs_positive b -> (forall idx e, sb_entry t idx = Some e -> 1 <= sb_refs e) -> refs_positive (set_table b kd t).
Proof.
  intros Hb Ht kd' idx e. destruct (decide (kd' = kd)) as [->|Hne]; [rewrite table_set_same|rewrite table_set_other by done]; eauto.
Qed.

Lemma add_ref_positive b ft h : refs_positive b -> refs_positive (add_ref_for_ofd b ft h).2.
Proof.
  intros Hb. unfold add_ref_for_ofd. destruct (kind_of ft h) as [kd|]; [|done]. destruct (idx_of kd h) as [idx|]; [|done].
  unfold sb_add_ref. destruct (sb_entry (table_of b kd) idx) as [e|] eqn:Ee.
  - destruct (sb_refs e + 1 <=? u32_max) eqn:El; cbn [snd]; apply set_table_positive; try done; [|apply Hb].
    intros j x. rewrite (sb_entry_update _ _ _ _ _ Ee). destruct (j =? idx)%nat; [|apply Hb].
    intros [= <-]. specialize (Hb _ _ _ Ee). cbn. lia.
  - cbn [snd]. apply set_table_positive; [done|apply Hb].
Qed.

Lemma release_positive b ft h : refs_positive b -> refs_positive (release_for_ofd b ft h).2.
Proof.
  intros Hb. unfold release_for_ofd. destruct (kind_of ft h) as [kd|]; [|done]. destruct (idx_of kd h) as [idx|]; [|done].
  unfold sb_release. destruct (sb_entry (table_of b kd) idx) as [e|] eqn:Ee.
  - destruct (1 <? sb_refs e) eqn:El; cbn [snd]; apply set_table_positive; try done;
      intros j x; rewrite (sb_entry_update _ _ _ _ _ Ee); destruct (j =? idx)%nat; try apply Hb; [|done].
    intros [= <-]. cbn. lia.
  - cbn [snd]. apply set_table_positive; [done|apply Hb].
Qed.

Lemma hit_decide s s' : hit s s' = if decide (UBacking s = UBacking s') then 1 else 0.
Proof. unfold hit. destruct (decide (s = s')) as [->|Hne]; [by rewrite bool_decide_eq_true_2, decide_True|by rewrite bool_decide_eq_false_2, decide_False by congruence]. Qed.

Lemma add_ref_accounts k own air ft h :
  accounts k own air -> load k own air < u32_max ->
  let '(r, b') := add_ref_for_ofd (k_backings k) ft h in
  match r with
  | Ok true => backing_use ft h <> [] /\ accounts (with_backings k b') (backing_use ft h ++ own) air
  | Ok false => backing_use ft h = [] /\ b' = k_backings k
  | Err _ => accounts (with_backings k b') own air
  end.
Proof.
  intros Ha Hl. pose proof (ac_backings _ _ _ Ha) as [Hpos Hrefs].
  pose proof (add_ref_positive (k_backings k) ft h Hpos) as Hpos'.
  pose proof (add_ref_for_ofd_refs (k_backings k) ft h) as Hs. destruct (add_ref_for_ofd (k_backings k) ft h) as [r b'].
  specialize (Hs _ _ eq_refl). cbn [snd] in Hpos'. unfold backing_use. destruct r as [[]|e].
  - destruct Hs as (s & -> & Hs). split; [done|].
    eapply accounts_change; [exact Ha|done|done|done|..]; cbn [with_backings k_backings k_handles k_ptys k_backlogs k_net_handles].
    { intros i kind. same_counts. }
    2-5: unchanged_tables Ha.
    + split; [done|]. intros s'. rewrite Hs, Hrefs, hit_decide. same_counts.
    + unfold load, all_uses in Hl. cbn [app length]. lia.
  - destruct Hs as [Hk ->]. unfold slot_of. by rewrite Hk.
  - destruct Hs as [Hs _]. eapply accounts_change; [exact Ha|done|done|done|done|..]; cbn [with_backings k_backings k_handles k_ptys k_backlogs k_net_handles];
      [|by destruct Ha..]. split; [done|]. intros s'. by rewrite Hs, Hrefs.
Qed.

Lemma release_accounts k own air ft h :
  accounts k (backing_use ft h ++ own) air ->
  let '(freed, b') := release_for_ofd (k_backings k) ft h in
  accounts (with_backings k b') own air /\ (freed = true <-> exists s, backing_use ft h = [UBacking s] /\ count (UBacking s) (all_uses k own air) = 0).
Proof.
  intros Ha. pose proof (ac_backings _ _ _ Ha) as [Hpos Hrefs].
  pose proof (release_positive (k_backings k) ft h Hpos) as Hpos'.
  pose proof (release_for_ofd_refs (k_backings k) ft h) as Hs. destruct (release_for_ofd (k_backings k) ft h) as [freed b'].
  specialize (Hs _ _ Hpos eq_refl). cbn [snd] in Hpos'. unfold backing_use in *. destruct (slot_of ft h) as [s|].
  - destruct Hs as [Hs Hf]. split.
    + eapply accounts_change; [exact Ha|done|done|done|..]; cbn [with_backings k_backings k_handles k_ptys k_backlogs k_net_handles].
      { intros i kind. same_counts. }
      2-5: unchanged_tables Ha.
      * split; [done|]. intros s'. rewrite Hs, Hrefs, hit_decide. cbn [app]. rewrite count_cons.
        pose proof (count_nonneg (UBacking s') (own ++ pending k ++ air ++ in_transit k)). destruct (decide _); lia.
      * destruct Ha as [_ _ _ _ _ _ Hb]. cbn [app length] in Hb. lia.
    + rewrite Hf, Hrefs. cbn [app]. rewrite count_cons, decide_True by done. unfold all_uses. split; [intros Hc; exists s; split; [done|lia]|].
      intros (s' & [= <-] & Hc). lia.
  - destruct Hs as [-> ->]. split; [by destruct Ha|]. split; [done|]. by intros (? & ? & _).
Qed.

(** Host handles, of files and of connections. *)
Lemma handle_fork_accounts k own air h :
  accounts k own air -> UHandle h ∈ all_uses k own air -> load k own air < u32_max ->
  accounts (with_handles k (host_handle_fork_ref (k_handles k) h)) (UHandle h :: own) air.
Proof.
  intros Ha Hin Hl. pose proof (ac_handles _ _ _ Ha) as Hh. pose proof (count_load k own air (UHandle h)) as Hc.
  apply count_elem in Hin. destruct (handle_step_agree _ _ (HFork h) Hh) as [_ Hh']; [cbn; unfold all_uses in *; lia|].
  eapply accounts_change; [exact Ha|done|done|done|..]; cbn [with_handles k_backings k_handles k_ptys k_backlogs k_net_handles].
  { intros i kind. same_counts. }
  1,3-5: unchanged_tables Ha.
  - eapply handles_agree_ext; [|exact Hh']. intros x. cbn [owner_step snd]. destruct (Z.eqb_spec x h) as [->|Hne]; same_counts.
  - unfold load, all_uses in Hl. cbn [app length]. lia.
Qed.

Lemma handle_close_accounts k own air h :
  accounts k (UHandle h :: own) air ->
  let '(last, hs) := host_handle_close_ref (k_handles k) h in
  accounts (with_handles k hs) own air /\ (last = true <-> count (UHandle h) (all_uses k own air) = 0).
Proof.
  intros Ha. pose proof (ac_handles _ _ _ Ha) as Hh.
  destruct (handle_step_agree _ _ (HClose h) Hh) as [Ho Hh'].
  { cbn [app]. rewrite count_cons, decide_True by done. pose proof (count_nonneg (UHandle h) (own ++ pending k ++ air ++ in_transit k)). lia. }
  cbn [handle_step owner_step] in Ho, Hh'. destruct (host_handle_close_ref (k_handles k) h) as [last hs]. cbn [fst snd] in *.
  injection Ho as Ho. split.
  - eapply accounts_change; [exact Ha|done|done|done|..]; cbn [with_handles k_backings k_handles k_ptys k_backlogs k_net_handles].
    { intros i kind. same_counts. }
    1,3-5: unchanged_tables Ha.
    + eapply handles_agree_ext; [|exact Hh']. intros x. cbn beta. destruct (Z.eqb_spec x h) as [->|Hne]; same_counts.
    + destruct Ha as [_ _ _ _ _ _ Hb]. cbn [app length] in Hb. lia.
  - rewrite Ho. cbn [app]. rewrite count_cons, decide_True by done. unfold all_uses.
    pose proof (count_nonneg (UHandle h) (own ++ pending k ++ air ++ in_transit k)). lia.
Qed.

Lemma net_fork_accounts k own air h :
  accounts k own air -> UNet h ∈ all_uses k own air -> load k own air < u32_max ->
  accounts (with_net_handles k (host_net_handle_fork_ref (k_net_handles k) h)) (UNet h :: own) air.
Proof.
  intros Ha Hin Hl. pose proof (ac_nets _ _ _ Ha) as Hh. pose proof (count_load k own air (UNet h)) as Hc.
  apply count_elem in Hin. destruct (handle_step_agree _ _ (HFork h) Hh) as [_ Hh']; [cbn; unfold all_uses in *; lia|].
  eapply accounts_change; [exact Ha|done|done|done|..]; cbn [with_net_handles k_backings k_handles k_ptys k_backlogs k_net_handles].
  { intros i kind. same_counts. }
  1-4: unchanged_tables Ha.
  - eapply handles_agree_ext; [|exact Hh']. intros x. cbn [owner_step snd]. destruct (Z.eqb_spec x h) as [->|Hne]; same_counts.
  - unfold load, all_uses in Hl. cbn [app length]. lia.
Qed.

Lemma net_close_accounts k own air h :
  accounts k (UNet h :: own) air ->
  let '(last, hs) := host_net_handle_close_ref (k_net_handles k) h in
  accounts (with_net_handles k hs) own air /\ (last = true <-> count (UNet h) (all_uses k own air) = 0).
Proof.
  intros Ha. pose proof (ac_nets _ _ _ Ha) as Hh.
  destruct (handle_step_agree _ _ (HClose h) Hh) as [Ho Hh'].
  { cbn [app]. rewrite count_cons, decide_True by done. pose proof (count_nonneg (UNet h) (own ++ pending k ++ air ++ in_transit k)). lia. }
  change (host_net_handle_close_ref (k_net_handles k) h) with (host_handle_close_ref (k_net_handles k) h).
  cbn [handle_step owner_step] in Ho, Hh'. destruct (host_handle_close_ref (k_net_handles k) h) as [last hs]. cbn [fst snd] in *.
  injection Ho as Ho. split.
  - eapply accounts_change; [exact Ha|done|done|done|..]; cbn [with_net_handles k_backings k_handles k_ptys k_backlogs k_net_handles].
    { intros i kind. same_counts. }
    1-4: unchanged_tables Ha.
    + eapply handles_agree_ext; [|exact Hh']. intros x. cbn beta. destruct (Z.eqb_spec x h) as [->|Hne]; same_counts.
    + destruct Ha as [_ _ _ _ _ _ Hb]. cbn [app length] in Hb. lia.
  - rewrite Ho. cbn [app]. rewrite count_cons, decide_True by done. unfold all_uses.
    pose proof (count_nonneg (UNet h) (own ++ pending k ++ air ++ in_transit k)). lia.
Qed.

(** Pseudo-terminals. *)
Lemma get_pty_insert l i p x j : get_pty l i = Some p -> get_pty (<[i := x]> l) j = if decide (i = j) then x else get_pty l j.
Proof.
  unfold get_pty. destruct (MAX_PTYS <=? i)%nat eqn:Ei; [done|]. intros Hp.
  assert (i < length l)%nat as Hl by (destruct (l !! i) eqn:E; [by eapply lookup_lt_Some|done]).
  destruct (decide (i = j)) as [<-|Hne]; [by rewrite Ei, list_lookup_insert_eq|by rewrite list_lookup_insert_ne].
Qed.

Lemma pty_accounts k own own' air idx p x :
  accounts k own air -> get_pty (k_ptys k) idx = Some p ->
  (forall u, match u with UPty i _ => i <> idx -> count u own' = count u own | _ => count u own' = count u own end) ->
  let all := own' ++ pending k ++ air ++ in_transit k in
  match x with
  | Some p' => master_refs p' = count (UPty idx true) all /\ slave_refs p' = count (UPty idx false) all
  | None => count (UPty idx true) all = 0 /\ count (UPty idx false) all = 0
  end ->
  Z.of_nat (length all) <= u32_max ->
  accounts (with_ptys k (<[idx := x]> (k_ptys k))) own' air.
Proof.
  intros Ha Hp Hu all Hx Hl.
  eapply accounts_change; [exact Ha|done|done|done|..]; cbn [with_ptys k_backings k_handles k_ptys k_backlogs k_net_handles].
  - intros i kind. by rewrite (Hu (UPipe i kind)).
  - eapply backings_ok_ext; [|exact (ac_backings _ _ _ Ha)]. intros s. rewrite !count_app. by rewrite (Hu (UBacking s)).
  - eapply handles_agree_ext; [|exact (ac_handles _ _ _ Ha)]. intros h. cbn beta. rewrite !count_app. by rewrite (Hu (UHandle h)).
  - intros i. rewrite (get_pty_insert _ _ _ _ _ Hp). destruct (decide (idx = i)) as [<-|Hne]; [done|].
    pose proof (ac_ptys _ _ _ Ha i) as Hi. assert (forall m, count (UPty i m) (own' ++ pending k ++ air ++ in_transit k) = count (UPty i m) (own ++ pending k ++ air ++ in_transit k)) as E.
    { intros m. rewrite !count_app. by rewrite (Hu (UPty i m)). }
    by rewrite !E.
  - eapply backlogs_ok_ext; [|exact (ac_backlogs _ _ _ Ha)]. intros i. rewrite !count_app. by rewrite (Hu (UBacklog i)).
  - eapply handles_agree_ext; [|exact (ac_nets _ _ _ Ha)]. intros h. cbn beta. rewrite !count_app. by rewrite (Hu (UNet h)).
  - done.
Qed.

Definition pty_add (p : PtyPair) (master : bool) : PtyPair :=
  if master then with_pty_refs p (u32_wrap (master_refs p + 1)) (slave_refs p) else with_pty_refs p (master_refs p) (u32_wrap (slave_refs p + 1)).

Lemma pty_add_accounts k own air idx p master :
  accounts k own air -> get_pty (k_ptys k) idx = Some p -> load k own air < u32_max ->
  accounts (put_pty k idx (pty_add p master)) (UPty idx master :: own) air.
Proof.
  intros Ha Hp Hl. pose proof (ac_ptys _ _ _ Ha idx) as Hi. rewrite Hp in Hi. destruct Hi as [Hm Hs].
  pose proof (count_load k own air (UPty idx true)) as Hct. pose proof (count_load k own air (UPty idx false)) as Hcf. unfold all_uses in *.
  eapply pty_accounts; [exact Ha|exact Hp|..].
  - intros u. rewrite count_cons. destruct (decide (UPty idx master = u)) as [<-|Hn]; [by intros []|]. destruct u; intros; lia.
  - unfold pty_add, u32_wrap. destruct master; cbn [with_pty_refs master_refs slave_refs]; rewrite ?Hm, ?Hs; unfold u32_max in *;
      rewrite ?Z.mod_small by lia; same_counts.
  - unfold load, all_uses in Hl. cbn [app length]. lia.
Qed.

Lemma pty_close_accounts k own air idx master : accounts k (UPty idx master :: own) air -> accounts (pty_close idx master k) own air.
Proof.
  intros Ha. unfold pty_close. pose proof (ac_ptys _ _ _ Ha idx) as Hi. pose proof (ac_bound _ _ _ Ha) as Hb. cbn [app length] in Hb.
  destruct (get_pty (k_ptys k) idx) as [p|] eqn:Hp.
  2:{ exfalso. destruct Hi as [H1 H2]. cbn [app] in H1, H2. rewrite count_cons in H1, H2.
      pose proof (count_nonneg (UPty idx true) (own ++ pending k ++ air ++ in_transit k)).
      pose proof (count_nonneg (UPty idx false) (own ++ pending k ++ air ++ in_transit k)).
      destruct master; [rewrite decide_True in H1 by done|rewrite decide_True in H2 by done]; lia. }
  destruct Hi as [Hm Hs]. cbn [app] in Hm, Hs. rewrite !count_cons in Hm, Hs.
  pose proof (count_nonneg (UPty idx true) (own ++ pending k ++ air ++ in_transit k)) as N1.
  pose proof (count_nonneg (UPty idx false) (own ++ pending k ++ air ++ in_transit k)) as N2.
  set (p' := if master then _ else _).
  assert (master_refs p' = count (UPty idx true) (own ++ pending k ++ air ++ in_transit k) /\
          slave_refs p' = count (UPty idx false) (own ++ pending k ++ air ++ in_transit k)) as [Hm' Hs'].
  { subst p'. destruct master; cbn [with_pty_refs master_refs slave_refs]; unfold u32_saturating_sub; rewrite ?Hm, ?Hs;
      repeat case_decide; simplify_eq; lia. }
  assert (forall u, match u with UPty i _ => i <> idx -> count u own = count u (UPty idx master :: own) | _ => count u own = count u (UPty idx master :: own) end) as Hu.
  { intros u. rewrite count_cons. destruct (decide (UPty idx master = u)) as [<-|Hn]; [by intros []|]. destruct u; intros; lia. }
  destruct (negb (is_alive p')) eqn:Ea.
  - assert (with_ptys (put_pty k idx p') (free_pty (k_ptys (put_pty k idx p')) idx) = with_ptys k (<[idx := None]> (k_ptys k))) as ->.
    { unfold with_ptys, free_pty, put_pty. cbn [k_ptys k_pipes k_world k_handles k_backings k_inet k_backlogs k_net_handles k_unix k_mqueues k_pshared k_registry k_last_ofd_id with_ptys].
      unfold get_pty in Hp. destruct (MAX_PTYS <=? idx)%nat eqn:E; [done|]. apply Nat.leb_gt in E. rewrite (proj2 (Nat.ltb_lt _ _)) by done.
      by rewrite list_insert_insert_eq. }
    eapply pty_accounts; [exact Ha|exact Hp|exact Hu| |lia]. unfold is_alive in Ea. rewrite Hm', Hs' in Ea. lia.
  - eapply pty_accounts; [exact Ha|exact Hp|exact Hu|done|lia].
Qed.

(** Accept queues. *)
Lemma backlog_uses_insert (l : SharedBacklogTable) i e e' :
  l !! i = Some e -> backlog_uses e' = backlog_uses e -> (<[i := e']> l) ≫= backlog_uses = l ≫= backlog_uses.
Proof.
  revert i. induction l as [|x l IH]; intros [|i]; intros Hi He; cbn in *; [done|done| |].
  - injection Hi as ->. by rewrite He.
  - f_equal. by apply IH.
Qed.

Lemma backlog_add_accounts k own air i :
  accounts k own air -> UBacklog i ∈ all_uses k own air -> load k own air < u32_max ->
  accounts (with_backlogs k (backlog_add_ref (k_backlogs k) i)) (UBacklog i :: own) air.
Proof.
  intros Ha Hin Hl. pose proof (ac_backlogs _ _ _ Ha i) as Hi. apply count_elem in Hin.
  pose proof (count_load k own air (UBacklog i)) as Hc. unfold all_uses in *. unfold backlog_add_ref.
  destruct (k_backlogs k !! i) as [e|] eqn:Ee; [|lia]. destruct (bl_in_use e) eqn:Eu; [|lia].
  eapply accounts_change; [exact Ha|done|done|..]; cbn [with_backlogs k_backings k_handles k_ptys k_backlogs k_net_handles].
  - eapply backlog_uses_insert; [exact Ee|]. unfold backlog_uses. by rewrite Eu.
  - intros j kind. same_counts.
  - unchanged_tables Ha.
  - unchanged_tables Ha.
  - unchanged_tables Ha.
  - intros j. pose proof (ac_backlogs _ _ _ Ha j) as Hj. destruct (decide (j = i)) as [->|Hne].
    + rewrite list_lookup_insert_eq by (by eapply lookup_lt_Some). cbn [bl_in_use bl_ref_count]. rewrite Hi. unfold u32_saturating_add.
      cbn [app]. rewrite count_cons, decide_True by done. lia.
    + rewrite list_lookup_insert_ne by done. cbn [app]. rewrite count_cons, decide_False by congruence. by rewrite Z.add_0_l.
  - unchanged_tables Ha.
  - unfold load, all_uses in Hl. cbn [app length]. lia.
Qed.

(** *** Pipes *)

Definition owned (l : list (list InFlightFd)) : list InFlightFd := List.filter fd_owns_reference (concat l).

(** An operation that drops the queued descriptors it removes, and leaves the
    waiting opens and the identity of the buffer alone. *)
Record good_op (f : pipe_op) : Prop := {
  go_queued : forall p, owned (p_ancillary_fds p) ≡ₚ owned (p_ancillary_fds (f p).1) ++ owned_drops (f p).2;
  go_waiters : forall p, p_fifo_open_waiters (f p).1 = p_fifo_open_waiters p;
  go_frame : keeps_frame f;
}.

Lemma owned_drops_app a b : owned_drops (a ++ b) = owned_drops a ++ owned_drops b.
Proof. unfold owned_drops. by rewrite map_app, concat_app, List.filter_app. Qed.

Lemma good_andthen f g : good_op f -> good_op g -> good_op (f ▷ g).
Proof.
  intros [F1 F2 F3] [G1 G2 G3]. split; [| |by apply keeps_andthen]; intros p; unfold andthen;
    specialize (F1 p); specialize (F2 p); destruct (f p) as [p1 e1]; specialize (G1 p1); specialize (G2 p1); destruct (g p1) as [p2 e2];
    cbn [fst snd] in *; [|congruence]. rewrite owned_drops_app, (Permutation_app_comm (owned_drops e1)), app_assoc, <- G1. done.
Qed.

Lemma good_pure f : (forall p, p_ancillary_fds (f p) = p_ancillary_fds p /\ p_fifo_open_waiters (f p) = p_fifo_open_waiters p /\ frame (f p) = frame p) -> good_op (pure_op f).
Proof. intros Hf. split; intros p; destruct (Hf p) as (H1 & H2 & H3); cbn; [|done|done]. by rewrite H1, app_nil_r. Qed.

Lemma good_wake w : good_op (wake_op w).
Proof. split; intros p; cbn; [|done|done]. unfold owned_drops. cbn. by rewrite app_nil_r. Qed.

Lemma owned_drops_batches l : owned_drops (map EDrop l) = owned l.
Proof. unfold owned_drops, owned. rewrite map_map. cbn [effect_fds]. by rewrite map_id. Qed.

Create HintDb good.
#[local] Hint Resolve good_andthen good_wake : good.

Lemma good_close_read_end : good_op close_read_end.
Proof.
  apply good_andthen; [|apply good_wake]. split; intros p; cbv beta zeta; case_bool_step; try done; cbn [fst snd discard_unreceivable_ancillary].
  - by rewrite owned_drops_batches.
  - unfold owned_drops. cbn. by rewrite app_nil_r.
Qed.

Lemma good_close_read_end_orderly : good_op close_read_end_orderly.
Proof.
  apply good_andthen; [|apply good_wake]. split; intros p; cbv beta zeta; case_bool_step; try done; cbn [fst snd discard_unreceivable_ancillary].
  - by rewrite owned_drops_batches.
  - unfold owned_drops. cbn. by rewrite app_nil_r.
Qed.

Lemma good_close_write_end : good_op close_write_end.
Proof. apply good_andthen; [|apply good_wake]. apply good_pure. intros p. cbv zeta. by repeat case_bool_step. Qed.

Lemma good_cohort : good_op (pure_op end_reader_cohort).
Proof. apply good_pure. intros p. unfold end_reader_cohort. by repeat case_bool_step. Qed.

Lemma good_add_reader : good_op add_reader.
Proof. apply good_andthen; [|apply good_wake]. by apply good_pure. Qed.

Lemma good_add_writer : good_op add_writer.
Proof. apply good_andthen; [|apply good_wake]. by apply good_pure. Qed.

#[local] Hint Resolve good_close_read_end good_close_read_end_orderly good_close_write_end good_cohort good_add_reader good_add_writer : good.

Lemma good_adopt kind : good_op (pure_op (adopt_in_flight_reference kind)).
Proof. apply good_pure. intros p. by destruct kind. Qed.
#[local] Hint Resolve good_adopt : good.

Lemma good_add_reference kind : good_op (add_reference kind).
Proof. destruct kind as [|[]| |]; cbn [add_reference]; auto with good; [by apply good_pure|]. apply good_andthen; [auto with good|by apply good_pure]. Qed.

Lemma good_close_reference kind : good_op (close_reference kind).
Proof.
  destruct kind as [|[]| |]; cbn [close_reference]; auto with good; [by apply good_pure|].
  unfold close_fifo_read_only. apply good_andthen; [by apply good_pure|auto with good].
Qed.
#[local] Hint Resolve good_add_reference good_close_reference : good.

Lemma good_ref_step op : good_op (ref_step op).
Proof.
  destruct op as [kd|kd|kd|kd|kd]; cbn [ref_step]; auto with good; unfold retain_in_flight_reference, release_in_flight_reference; auto with good.
  apply good_andthen; [auto with good|]. apply good_pure. by destruct kd.
Qed.
(** *** The table of pipes *)

Lemma concat_insert {A B} (f : A -> list B) (l : list A) i x y :
  l !! i = Some x -> concat (f <$> l) ++ f y ≡ₚ concat (f <$> <[i := y]> l) ++ f x.
Proof.
  revert i. induction l as [|a l IH]; intros [|i] Hi; cbn in *; [done|done| |].
  - injection Hi as ->. solve_Permutation.
  - rewrite <- !app_assoc. by rewrite (IH i Hi).
Qed.

Lemma queued_update t i p f :
  good_op f -> table_get t i = Some p ->
  queued t ≡ₚ queued (table_update t i f).1 ++ owned_drops (table_update t i f).2.
Proof.
  intros [Hq _ _] Hp. unfold table_update. rewrite Hp. specialize (Hq p). destruct (f p) as [p' es]. cbn [fst snd] in *.
  apply table_get_Some in Hp. pose proof (concat_insert slot_fds (pipes t) i (Some p) (Some p') Hp) as Hc.
  unfold queued, with_pipes. cbn [pipes]. cbn [slot_fds] in Hc. fold (owned (p_ancillary_fds p)) (owned (p_ancillary_fds p')) in Hc.
  rewrite Hq in Hc. rewrite app_assoc in Hc. rewrite (Permutation_app_comm (_ ++ owned (p_ancillary_fds p'))) in Hc.
  apply (Permutation_app_inv_r (owned (p_ancillary_fds p'))). rewrite Hc. solve_Permutation.
Qed.

Lemma waiting_ext t t' :
  length (pipes t) = length (pipes t') ->
  (forall i, waiter_uses i (table_get t i) = waiter_uses i (table_get t' i)) -> waiting t = waiting t'.
Proof.
  intros Hl Hw. unfold waiting. f_equal. apply list_eq. intros i. rewrite !list_lookup_imap. specialize (Hw i). unfold table_get in Hw.
  destruct (pipes t !! i) as [s|] eqn:E; destruct (pipes t' !! i) as [s'|] eqn:E'; cbn; [by rewrite Hw| | |done].
  - apply lookup_lt_Some in E. apply lookup_ge_None in E'. lia.
  - apply lookup_ge_None in E. apply lookup_lt_Some in E'. lia.
Qed.

Lemma waiting_update t i f : good_op f -> waiting (table_update t i f).1 = waiting t.
Proof.
  intros [_ Hw _]. unfold table_update. destruct (table_get t i) as [p|] eqn:Hp; [|done]. specialize (Hw p).
  destruct (f p) as [p' es]. cbn [fst] in *. apply waiting_ext; cbn [with_pipes pipes]; [apply length_insert|].
  intros j. pose proof (proj1 (table_get_Some _ _ _) Hp) as Hi. unfold with_pipes. rewrite table_get_insert by (by eapply lookup_lt_Some).
  destruct (Nat.eqb_spec j i) as [->|]; [|done]. rewrite Hp. cbn. by rewrite Hw.
Qed.

Lemma elem_of_waiting t u : u ∈ waiting t -> exists i p w, table_get t i = Some p /\ w ∈ (map_to_list (p_fifo_open_waiters p)).*2 /\ u = waiter_use i w.
Proof.
  unfold waiting. rewrite list_elem_of_In, in_concat. intros (l & Hl & Hu). apply list_elem_of_In in Hl, Hu.
  apply elem_of_lookup_imap in Hl as (i & slot & -> & Hs). destruct slot as [p|]; cbn in Hu; [|by apply not_elem_of_nil in Hu].
  apply list_elem_of_fmap in Hu as (w & -> & Hw). exists i, p, w. split; [|done]. by apply table_get_Some.
Qed.

Lemma nonpipe_waiting t u : is_pipe_use u = false -> count u (waiting t) = 0.
Proof.
  intros Hu. destruct (decide (u ∈ waiting t)) as [Hin|Hn].
  - apply elem_of_waiting in Hin as (i & p & w & _ & _ & ->). done.
  - unfold count. rewrite filter_none; [done|]. apply Forall_forall. intros x Hx. apply bool_decide_eq_false_2. by intros ->.
Qed.

Lemma run_effects_records es w :
  dq_records (w_deferred (run_effects w es)) = dq_records (w_deferred w) ++ map release_metadata (owned_drops es).
Proof.
  assert (forall fds w, dq_records (w_deferred (fold_left drop_in_flight_fd fds w)) =
            dq_records (w_deferred w) ++ map release_metadata (List.filter fd_owns_reference fds)) as Hf.
  { intros fds. induction fds as [|fd fds IH]; intros v; cbn [fold_left]; [by rewrite app_nil_r|]. rewrite IH. unfold drop_in_flight_fd. cbn [List.filter].
    destruct (fd_owns_reference fd); [|done]. cbn [w_deferred enqueue_deferred_in_flight_release dq_records map]. unfold vec_push. by rewrite <- app_assoc. }
  revert w. unfold run_effects. induction es as [|e es IH]; intros w; cbn [fold_left]; [by rewrite app_nil_r|]. rewrite IH.
  change (e :: es) with ([e] ++ es). rewrite owned_drops_app, map_app, app_assoc. f_equal. unfold owned_drops. destruct e as [i v|fds]; cbn.
  - by rewrite app_nil_r.
  - by rewrite Hf, app_nil_r.
Qed.

Lemma records_uses_app a b : records_uses (a ++ b) = records_uses a ++ records_uses b.
Proof. unfold records_uses. by rewrite fmap_app, concat_app. Qed.

#[export] Instance records_uses_perm : Proper ((≡ₚ) ==> (≡ₚ)) records_uses.
Proof. intros a b Hab. unfold records_uses. by rewrite Hab. Qed.

(** A table operation that drops what it removes from the queues. *)
Definition conserves (k : Kernel) (f : PipeTable -> PipeTable * list effect) : Prop :=
  queued (k_pipes k) ≡ₚ queued (f (k_pipes k)).1 ++ owned_drops (f (k_pipes k)).2.

Lemma in_transit_on_pipes k f : conserves k f -> in_transit (on_pipes f k) ≡ₚ in_transit k.
Proof.
  intros Hc. unfold conserves, in_transit, on_pipes in *. destruct (f (k_pipes k)) as [t es]. cbn [fst snd] in Hc.
  cbn [with_pipe_table k_pipes k_world]. rewrite run_effects_records, Hc. apply records_uses_perm. rewrite fmap_app.
  change (map release_metadata) with (@fmap list _ _ _ release_metadata). solve_Permutation.
Qed.

Lemma on_pipes_accounts k f own air own' air' :
  accounts k own air -> conserves k f ->
  pipes_ok (f (k_pipes k)).1 (own' ++ waiting (f (k_pipes k)).1 ++ (k_backlogs k ≫= backlog_uses)) (air' ++ in_transit k) ->
  (forall u, is_pipe_use u = false -> count u own' + count u air' = count u own + count u air) ->
  Z.of_nat (length (own' ++ waiting (f (k_pipes k)).1 ++ (k_backlogs k ≫= backlog_uses) ++ air' ++ in_transit k)) <= u32_max ->
  accounts (on_pipes f k) own' air'.
Proof.
  intros [H1 H2 H3 H4 H5 H6 H7] Hc Hp Hu Hl. pose proof (in_transit_on_pipes k f Hc) as Ht.
  assert (k_pipes (on_pipes f k) = (f (k_pipes k)).1) as Ep by (unfold on_pipes; by destruct (f (k_pipes k))).
  assert (k_backlogs (on_pipes f k) = k_backlogs k) as Eb by (unfold on_pipes; by destruct (f (k_pipes k))).
  assert (pending (on_pipes f k) = waiting (f (k_pipes k)).1 ++ (k_backlogs k ≫= backlog_uses)) as Epend by (unfold pending; by rewrite Ep, Eb).
  assert (forall u, is_pipe_use u = false ->
            count u (own' ++ pending (on_pipes f k) ++ air' ++ in_transit (on_pipes f k)) = count u (own ++ pending k ++ air ++ in_transit k)) as Hcount.
  { intros u Hn. rewrite Ht, Epend. unfold pending. rewrite !count_app, !nonpipe_waiting by done. specialize (Hu u Hn). lia. }
  assert (k_backings (on_pipes f k) = k_backings k /\ k_handles (on_pipes f k) = k_handles k /\ k_ptys (on_pipes f k) = k_ptys k /\
          k_net_handles (on_pipes f k) = k_net_handles k) as (E1 & E2 & E3 & E4) by (unfold on_pipes; by destruct (f (k_pipes k))).
  split.
  - rewrite Ep, Ht, Epend. done.
  - rewrite E1. eapply backings_ok_ext; [|exact H2]. intros s. by rewrite Hcount.
  - rewrite E2. eapply handles_agree_ext; [|exact H3]. intros h. cbn beta. by rewrite Hcount.
  - rewrite E3. eapply ptys_ok_ext; [|exact H4]. intros i m. by rewrite Hcount.
  - rewrite Eb. eapply backlogs_ok_ext; [|exact H5]. intros i. by rewrite Hcount.
  - rewrite E4. eapply handles_agree_ext; [|exact H6]. intros h. cbn beta. by rewrite Hcount.
  - rewrite Ht, Epend, <- app_assoc. done.
Qed.

(** ** References on pipes *)

(** What an operation on one reference of pipe [i] does to the holders outside
    and in transit. *)
Inductive moves (i : nat) : ref_op -> list use * list use -> list use * list use -> Prop :=
| MAdd kind own air : moves i (RAdd kind) (own, air) (UPipe i kind :: own, air)
| MClose kind own air : moves i (RClose kind) (UPipe i kind :: own, air) (own, air)
| MRetain kind own air : moves i (RRetain kind) (own, air) (own, UPipe i kind :: air)
| MAdopt kind own air : moves i (RAdopt kind) (own, UPipe i kind :: air) (UPipe i kind :: own, air)
| MRelease kind own air : moves i (RRelease kind) (own, UPipe i kind :: air) (own, air).

Lemma tally_cons i x l kind : tally_of i (x :: l) kind = (if decide (x = UPipe i kind) then 1 else 0) + tally_of i l kind.
Proof. apply count_cons. Qed.

Lemma tally_bump i kind l kd : tally_of i (UPipe i kind :: l) kd = bump kind 1 (tally_of i l) kd.
Proof. rewrite tally_cons. unfold bump. repeat case_decide; simplify_eq; lia. Qed.

Lemma tally_unbump i kind l kd : bump kind (-1) (tally_of i (UPipe i kind :: l)) kd = tally_of i l kd.
Proof. unfold bump. rewrite tally_cons. repeat case_decide; simplify_eq; lia. Qed.

Lemma tally_lengths i l :
  readers (tally_of i l) <= Z.of_nat (length l) /\ writers (tally_of i l) <= Z.of_nat (length l) /\ tally_of i l RefPath <= Z.of_nat (length l).
Proof.
  induction l as [|x l IH]; [done|]. unfold readers, writers in *. rewrite !tally_cons. cbn [length]. destruct IH as (H1 & H2 & H3).
  repeat case_decide; simplify_eq; lia.
Qed.

Lemma limit_of i a b : Z.of_nat (length (a ++ b)) <= u32_max -> below_limit (tally_of i a, tally_of i b).
Proof.
  rewrite length_app. intros Hl. pose proof (tally_lengths i a) as (A1 & A2 & A3). pose proof (tally_lengths i b) as (B1 & B2 & B3).
  unfold below_limit. cbn [fst snd]. lia.
Qed.

Lemma below_limit_ext a b a' b' : (forall kd, a kd = a' kd) -> (forall kd, b kd = b' kd) -> below_limit (a, b) -> below_limit (a', b').
Proof. intros Ha Hb. unfold below_limit, readers, writers. cbn [fst snd]. by rewrite !Ha, !Hb. Qed.

(** The tallies after a move. *)
Lemma moves_tally i op own air own' air' rest rest' :
  moves i op (own, air) (own', air') ->
  let t := tally_step (tally_of i (own ++ rest), tally_of i (air ++ rest')) op in
  (forall kd, t.1 kd = tally_of i (own' ++ rest) kd) /\ (forall kd, t.2 kd = tally_of i (air' ++ rest') kd) /\
  ref_op_ok (tally_of i (own ++ rest), tally_of i (air ++ rest')) op.
Proof.
  assert (forall l kind, 1 <= tally_of i (UPipe i kind :: l) kind) as Hone.
  { intros l kind. rewrite tally_cons, decide_True by done. pose proof (count_nonneg (UPipe i kind) l). unfold tally_of. lia. }
  inversion 1; subst; cbn [tally_step fst snd app ref_op_ok]; (split; [|split]); try done; try apply Hone; intros kd;
    by rewrite ?tally_bump, ?tally_unbump.
Qed.

Lemma moves_other i op own air own' air' j kind :
  moves i op (own, air) (own', air') -> j <> i -> count (UPipe j kind) own' = count (UPipe j kind) own /\ count (UPipe j kind) air' = count (UPipe j kind) air.
Proof. inversion 1; subst; intros Hne; rewrite ?count_cons, ?decide_False by congruence; lia. Qed.

Lemma moves_nonpipe i op own air own' air' u :
  moves i op (own, air) (own', air') -> is_pipe_use u = false -> count u own' + count u air' = count u own + count u air.
Proof. inversion 1; subst; intros Hu; rewrite ?count_cons, ?decide_False by (by intros <-); lia. Qed.

(** Taking a reference needs room for one more, and only a FIFO is referred to
    by its path. *)
Definition move_ok (op : ref_op) (room : Prop) (p : PipeBuffer) : Prop :=
  match op with RAdd kind | RRetain kind => room /\ (kind = RefPath -> p_is_fifo p = true) | _ => True end.

Lemma moves_length i op own air own' air' rest :
  moves i op (own, air) (own', air') -> Z.of_nat (length (own ++ air ++ rest)) <= u32_max ->
  (match op with RAdd _ | RRetain _ => Z.of_nat (length (own ++ air ++ rest)) < u32_max | _ => True end) ->
  Z.of_nat (length (own' ++ air' ++ rest)) <= u32_max.
Proof. inversion 1; subst; rewrite !length_app; cbn [length]; lia. Qed.

Lemma table_get_update t i p f j :
  table_get t i = Some p -> table_get (table_update t i f).1 j = if (j =? i)%nat then Some (f p).1 else table_get t j.
Proof.
  intros Hp. unfold table_update. rewrite Hp. destruct (f p) as [p' es]. cbn [fst]. apply table_get_Some in Hp.
  unfold with_pipes. by rewrite table_get_insert by (by eapply lookup_lt_Some).
Qed.

Lemma frame_fifo f p : keeps_frame f -> p_is_fifo (f p).1 = p_is_fifo p.
Proof. intros Hf. specialize (Hf p). unfold frame in Hf. congruence. Qed.

Lemma pipes_ok_step t i p f op own air own' air' rest rest' :
  pipes_ok t (own ++ rest) (air ++ rest') -> table_get t i = Some p -> good_op f ->
  counters (f p).1 = counters (ref_step op p).1 -> moves i op (own, air) (own', air') ->
  Z.of_nat (length ((own' ++ rest) ++ air' ++ rest')) <= u32_max ->
  move_ok op True p ->
  pipes_ok (table_update t i f).1 (own' ++ rest) (air' ++ rest').
Proof.
  intros [H1 H2 H3] Hp Hg Hc Hm Hl Hok. destruct (moves_tally i op own air own' air' rest rest' Hm) as (T1 & T2 & T3).
  assert (forall j kd, j <> i -> count (UPipe j kd) ((own' ++ rest) ++ air' ++ rest') = count (UPipe j kd) ((own ++ rest) ++ air ++ rest')) as Hother.
  { intros j kd Hne. destruct (moves_other i op own air own' air' j kd Hm Hne) as [E1 E2]. rewrite !count_app. lia. }
  assert (accounted (f p).1 (tally_of i (own' ++ rest), tally_of i (air' ++ rest'))) as Hacc.
  { assert (accounted (ref_step op p).1 (tally_step (tally_of i (own ++ rest), tally_of i (air ++ rest')) op)) as Hs.
    { apply ref_step_accounted; [by apply H1|done|]. destruct (tally_step _ op) as [a b] eqn:E. cbn [fst snd] in *.
      eapply below_limit_ext; [intros kd; symmetry; apply T1|intros kd; symmetry; apply T2|]. by apply limit_of. }
    destruct (tally_step _ op) as [a b] eqn:E. cbn [fst snd] in *. eapply accounted_ext; [|apply T1|apply T2].
    pose proof (accounted_counters _ _ Hs) as Hcs. destruct Hs as [N L _ _ _ _ _ _]. apply counters_accounted; [done|done|]. by rewrite Hc. }
  split.
  - intros j q. rewrite (table_get_update t i p f j Hp). destruct (Nat.eqb_spec j i) as [->|Hne]; [by intros [= <-]|].
    intros Hq. eapply accounted_ext; [by apply H1|..]; intros kd; unfold tally_of; rewrite !count_app;
      destruct (moves_other i op own air own' air' j kd Hm Hne) as [E1 E2]; lia.
  - intros j q. rewrite (table_get_update t i p f j Hp). destruct (Nat.eqb_spec j i) as [->|Hne]; [|intros Hq Hf; rewrite Hother by done; eauto].
    intros [= <-] Hf. rewrite frame_fifo in Hf by apply Hg. specialize (H2 i p Hp Hf).
    pose proof (count_nonneg (UPipe i RefPath) (own ++ rest)) as N1. pose proof (count_nonneg (UPipe i RefPath) (air ++ rest')) as N2.
    rewrite count_app in H2 |- *. pose proof (T1 RefPath) as P1. pose proof (T2 RefPath) as P2. unfold tally_of in P1, P2. rewrite <- P1, <- P2.
    destruct op as [kd|kd|kd|kd|kd]; cbn [tally_step fst snd move_ok ref_op_ok] in *; unfold bump, tally_of in *; repeat case_decide; subst; try lia;
      destruct Hok as [_ Hx]; specialize (Hx eq_refl); congruence.
  - intros j kd. rewrite (table_get_update t i p f j Hp). destruct (Nat.eqb_spec j i) as [->|Hne]; [done|]. intros Hd. rewrite Hother by done. eauto.
Qed.

Lemma all_uses_split k own air : all_uses k own air ≡ₚ own ++ air ++ pending k ++ in_transit k.
Proof. unfold all_uses. solve_Permutation. Qed.

Lemma pipe_step_accounts k own air own' air' i p f op :
  accounts k own air -> table_get (k_pipes k) i = Some p -> good_op f ->
  counters (f p).1 = counters (ref_step op p).1 -> moves i op (own, air) (own', air') ->
  move_ok op (load k own air < u32_max) p ->
  accounts (pipe_do i f k) own' air'.
Proof.
  intros Ha Hp Hg Hc Hm Hok. pose proof (ac_pipes _ _ _ Ha) as Hpo. pose proof (ac_bound _ _ _ Ha) as Hb.
  assert (Z.of_nat (length (own' ++ air' ++ pending k ++ in_transit k)) <= u32_max) as Hb'.
  { fold (all_uses k own air) in Hb. rewrite all_uses_split in Hb. eapply moves_length; [exact Hm|exact Hb|].
    unfold load in Hok. rewrite all_uses_split in Hok. destruct op; cbn in Hok; tauto. }
  assert (waiting (table_update (k_pipes k) i f).1 ++ (k_backlogs k ≫= backlog_uses) = pending k) as Hw by (by rewrite waiting_update).
  unfold pipe_do. eapply on_pipes_accounts; [exact Ha| | |intros u; by eapply moves_nonpipe|].
  - by eapply queued_update.
  - rewrite Hw. eapply pipes_ok_step; [exact Hpo|exact Hp|exact Hg|exact Hc|exact Hm| |destruct op; cbn in *; tauto].
    rewrite <- app_assoc. rewrite !length_app in *. lia.
  - assert (own' ++ waiting (table_update (k_pipes k) i f).1 ++ (k_backlogs k ≫= backlog_uses) ++ air' ++ in_transit k = own' ++ pending k ++ air' ++ in_transit k) as ->
      by (rewrite <- Hw at 1; by rewrite <- !app_assoc). rewrite !length_app in *. lia.
Qed.

(** A holder's pipe is live. *)
Lemma pipe_use_live k own air i kind : accounts k own air -> UPipe i kind ∈ all_uses k own air -> is_Some (table_get (k_pipes k) i).
Proof.
  intros Ha Hin. apply count_elem in Hin. destruct (table_get (k_pipes k) i) eqn:E; [by eexists|]. exfalso.
  pose proof (po_dead _ _ _ (ac_pipes _ _ _ Ha) i kind E) as Hd. rewrite all_uses_split in Hin. rewrite !count_app in *. lia.
Qed.

(** ** Reclamation and collection *)

Lemma run_effects_app a b w : run_effects w (a ++ b) = run_effects (run_effects w a) b.
Proof. apply fold_left_app. Qed.

Lemma on_pipes_seq f g k : on_pipes (table_op_seq f g) k = on_pipes g (on_pipes f k).
Proof.
  unfold on_pipes, table_op_seq. destruct (f (k_pipes k)) as [t1 e1]. cbn [with_pipe_table k_pipes k_world].
  destruct (g t1) as [t2 e2]. cbn [with_pipe_table k_pipes k_world]. by rewrite run_effects_app.
Qed.

(** Operations that change no counter, and only pass uses between [own] and the
    waiting opens. *)
Lemma shift_accounts k f own own' air :
  accounts k own air -> conserves k f -> own' ++ waiting (f (k_pipes k)).1 ≡ₚ own ++ waiting (k_pipes k) ->
  (forall i, match table_get (k_pipes k) i, table_get (f (k_pipes k)).1 i with
             | Some p, Some p' => counters p' = counters p /\ p_is_fifo p' = p_is_fifo p
             | None, None => True
             | _, _ => False
             end) ->
  accounts (on_pipes f k) own' air.
Proof.
  intros Ha Hc Hw Hs. pose proof (ac_pipes _ _ _ Ha) as [H1 H2 H3]. set (t' := (f (k_pipes k)).1) in *.
  assert (forall rest, own' ++ waiting t' ++ rest ≡ₚ own ++ waiting (k_pipes k) ++ rest) as Hall by (intros rest; by rewrite !app_assoc, Hw).
  eapply on_pipes_accounts; [exact Ha|done| | |]; fold t'.
  - eapply pipes_ok_ext; [intros i kind; symmetry; apply count_perm, Hall|done|]. change (waiting (k_pipes k) ++ (k_backlogs k ≫= backlog_uses)) with (pending k). split.
    + intros i p' Hp'. specialize (Hs i). rewrite Hp' in Hs. destruct (table_get (k_pipes k) i) as [p|] eqn:Hp; [|done]. destruct Hs as [Hcs _].
      pose proof (H1 i p Hp) as Hacc. pose proof (accounted_counters _ _ Hacc) as Hcc. destruct Hacc as [N L _ _ _ _ _ _]. apply counters_accounted; [done|done|by rewrite Hcs].
    + intros i p' Hp' Hf. specialize (Hs i). rewrite Hp' in Hs. destruct (table_get (k_pipes k) i) as [p|] eqn:Hp; [|done]. destruct Hs as [_ Hfi]. eapply H2; [exact Hp|congruence].
    + intros i kd Hn. specialize (Hs i). rewrite Hn in Hs. destruct (table_get (k_pipes k) i) eqn:Hp; [done|]. by apply H3.
  - intros u Hu. pose proof (count_perm u _ _ Hw) as Hcu. rewrite !count_app, !nonpipe_waiting in Hcu by done. lia.
  - pose proof (ac_bound _ _ _ Ha) as Hb. rewrite Hall. unfold pending in Hb. by rewrite <- app_assoc in Hb.
Qed.

(** Operations that change neither counters nor waiting opens. *)
Lemma quiet_accounts k f own air :
  accounts k own air -> conserves k f -> length (pipes (f (k_pipes k)).1) = length (pipes (k_pipes k)) ->
  (forall i, match table_get (k_pipes k) i, table_get (f (k_pipes k)).1 i with
             | Some p, Some p' => counters p' = counters p /\ p_is_fifo p' = p_is_fifo p /\ p_fifo_open_waiters p' = p_fifo_open_waiters p
             | None, None => True
             | _, _ => False
             end) ->
  accounts (on_pipes f k) own air.
Proof.
  intros Ha Hc Hl Hs. eapply shift_accounts; [exact Ha|done| |].
  - assert (waiting (f (k_pipes k)).1 = waiting (k_pipes k)) as ->; [|done]. symmetry. apply waiting_ext; [done|]. intros i. specialize (Hs i).
    destruct (table_get (k_pipes k) i), (table_get (f (k_pipes k)).1 i); try done. destruct Hs as (_ & _ & Hs). cbn. by rewrite Hs.
  - intros i. specialize (Hs i). destruct (table_get (k_pipes k) i), (table_get (f (k_pipes k)).1 i); try done. by destruct Hs as (? & ? & _).
Qed.

Lemma sweep_queued (g : nat -> bool) (l : list (option PipeBuffer)) :
  concat (slot_fds <$> l) ≡ₚ
  concat (slot_fds <$> imap (fun i s => sweep_slot (g i) s) l) ++ owned (concat (imap (fun i s => swept_batches (g i) s) l)).
Proof.
  revert g. induction l as [|s l IH]; intros g; [done|]. cbn [imap fmap list_fmap concat].
  assert (slot_fds s ≡ₚ slot_fds (sweep_slot (g 0%nat) s) ++ owned (swept_batches (g 0%nat) s)) as Hs.
  { unfold sweep_slot, swept_batches. destruct (g 0%nat), s as [p|]; cbn [fmap option_fmap option_map slot_fds set_ancillary_fds p_ancillary_fds]; unfold owned; cbn [concat List.filter]; by rewrite ?app_nil_r. }
  rewrite Hs, (IH (g ∘ S)). unfold owned. rewrite concat_app, List.filter_app. cbn [compose]. solve_Permutation.
Qed.

Lemma collect_accounts k own air : accounts k own air -> accounts (on_pipes collect_unreachable_ancillary k) own air.
Proof.
  intros Ha. eapply quiet_accounts; [exact Ha|..].
  - unfold conserves, collect_unreachable_ancillary, queued, with_pipes. cbn [fst snd pipes]. rewrite owned_drops_batches. apply sweep_queued.
  - unfold collect_unreachable_ancillary, with_pipes. cbn [fst pipes]. apply length_imap.
  - intros i. rewrite collect_get. destruct (is_marked (reachable_set (k_pipes k)) i); by destruct (table_get (k_pipes k) i).
Qed.

(** A fully closed buffer has no holder. *)
Lemma closed_no_holder k own air i p kind :
  accounts k own air -> table_get (k_pipes k) i = Some p -> is_fully_closed p = true -> count (UPipe i kind) (all_uses k own air) = 0.
Proof.
  intros Ha Hp Hc. destruct (ac_pipes _ _ _ Ha) as [H1 H2 _]. pose proof (H1 i p Hp) as [N _ Er Ew _ _ Ep _]. cbn [fst snd] in *.
  specialize (H2 i p Hp). rewrite all_uses_split.
  assert (count (UPipe i kind) (own ++ air ++ pending k ++ in_transit k) = tally_of i (own ++ pending k) kind + tally_of i (air ++ in_transit k) kind) as ->
    by (unfold tally_of; rewrite !count_app; lia).
  rewrite count_app in H2. change (count (UPipe i RefPath) ?l) with (tally_of i l RefPath) in H2.
  pose proof (N (RefRead true)). pose proof (N (RefRead false)). pose proof (N RefWrite). pose proof (N RefReadWrite). pose proof (N RefPath).
  unfold is_fully_closed in Hc. unfold readers, writers in *. bool_hyps.
  destruct kind as [|[]| |]; try lia. destruct (p_is_fifo p); cbn in *; [lia|by apply H2].
Qed.

Lemma free_inner_accounts k own air idx : accounts k own air -> accounts (on_pipes (fun t => free_fully_closed_inner t idx) k) own air.
Proof.
  intros Ha. destruct (table_get (k_pipes k) idx) as [p|] eqn:Hp.
  2:{ assert (on_pipes (fun t => free_fully_closed_inner t idx) k = k) as ->; [|done]. unfold on_pipes, free_fully_closed_inner. rewrite Hp. by destruct k. }
  destruct (is_fully_closed p) eqn:Hc.
  2:{ assert (on_pipes (fun t => free_fully_closed_inner t idx) k = k) as ->; [|done]. unfold on_pipes, free_fully_closed_inner. rewrite Hp, Hc. by destruct k. }
  assert (forall kind, count (UPipe idx kind) (all_uses k own air) = 0) as Hnone by (intros; by eapply closed_no_holder).
  pose proof (proj1 (table_get_Some _ _ _) Hp) as Hi. pose proof (ac_pipes _ _ _ Ha) as [H1 H2 H3].
  assert ((free_fully_closed_inner (k_pipes k) idx) = (mkPipes (<[idx := None]> (pipes (k_pipes k))) (vec_push (free_list (k_pipes k)) idx), map EDrop (p_ancillary_fds p))) as Ef
    by (unfold free_fully_closed_inner; by rewrite Hp, Hc).
  assert (forall j, table_get (free_fully_closed_inner (k_pipes k) idx).1 j = if (j =? idx)%nat then None else table_get (k_pipes k) j) as Hg.
  { intros j. rewrite Ef. cbn [fst]. rewrite table_get_insert by (by eapply lookup_lt_Some). done. }
  assert (waiting (free_fully_closed_inner (k_pipes k) idx).1 = waiting (k_pipes k)) as Hw.
  { apply waiting_ext; [rewrite Ef; apply length_insert|]. intros j. rewrite Hg. destruct (Nat.eqb_spec j idx) as [->|]; [|done]. rewrite Hp. cbn.
    destruct (map_to_list (p_fifo_open_waiters p)).*2 as [|w ws] eqn:Em; [done|]. exfalso.
    specialize (Hnone (match fw_side w with Reader => RefRead false | Writer => RefWrite end)).
    assert (waiter_use idx w ∈ waiting (k_pipes k)) as Hin.
    { unfold waiting. apply list_elem_of_In, in_concat. exists (waiter_uses idx (Some p)). split; apply list_elem_of_In.
      - apply elem_of_lookup_imap. exists idx, (Some p). done.
      - cbn. rewrite Em. cbn. by left. }
    assert (waiter_use idx w ∈ all_uses k own air) as Hall by (unfold all_uses, pending; set_solver).
    apply count_elem in Hall. unfold waiter_use in Hall. lia. }
  eapply on_pipes_accounts; [exact Ha| | |lia|].
  - unfold conserves, queued. rewrite Ef. cbn [fst snd pipes]. rewrite owned_drops_batches.
    pose proof (concat_insert slot_fds (pipes (k_pipes k)) idx (Some p) None Hi) as Hci. cbn [slot_fds] in Hci. rewrite app_nil_r in Hci. exact Hci.
  - rewrite Hw. change (waiting (k_pipes k) ++ (k_backlogs k ≫= backlog_uses)) with (pending k). split.
    + intros j q. rewrite Hg. destruct (Nat.eqb_spec j idx); [done|]. apply H1.
    + intros j q. rewrite Hg. destruct (Nat.eqb_spec j idx); [done|]. apply H2.
    + intros j kd. rewrite Hg. destruct (Nat.eqb_spec j idx) as [->|]; [|apply H3]. intros _. specialize (Hnone kd).
      rewrite all_uses_split in Hnone. rewrite !count_app in *. lia.
  - rewrite Hw. pose proof (ac_bound _ _ _ Ha) as Hb. unfold pending in Hb. rewrite !length_app in *. lia.
Qed.

Lemma pipe_free_accounts k own air idx : accounts k own air -> accounts (pipe_free idx k) own air.
Proof. intros Ha. unfold pipe_free, free_if_closed. rewrite on_pipes_seq. by apply collect_accounts, free_inner_accounts. Qed.

(** Closing one end of a pipe some holder refers to, then reclaiming it. *)
Lemma pipe_close_accounts k own air i kind f :
  accounts k (UPipe i kind :: own) air -> good_op f -> (forall p, counters (f p).1 = counters (close_reference kind p).1) ->
  accounts (pipe_free i (pipe_do i f k)) own air.
Proof.
  intros Ha Hg Hc. destruct (pipe_use_live k (UPipe i kind :: own) air i kind Ha) as [p Hp]; [by left|].
  apply pipe_free_accounts. eapply (pipe_step_accounts _ _ _ _ _ _ p f (RClose kind)); [exact Ha|exact Hp|exact Hg|apply Hc|constructor|done].
Qed.

Lemma opt_close_accounts k own air o kind f :
  accounts k (opt_use o kind ++ own) air -> good_op f -> (forall p, counters (f p).1 = counters (close_reference kind p).1) ->
  accounts (opt_pipe_close o f k) own air.
Proof. destruct o as [i|]; [|done]. apply pipe_close_accounts. Qed.

(** ** Descriptors in transit *)

Lemma orderly_counters p : counters (close_read_end_orderly p).1 = counters (close_read_end p).1.
Proof. unfold close_read_end_orderly, close_read_end, andthen; cbn. by case_bool_step. Qed.

Lemma good_release_orderly : good_op release_in_flight_reader_orderly.
Proof. apply good_andthen; [apply (good_adopt (RefRead false))|apply good_close_read_end_orderly]. Qed.

Lemma release_orderly_counters p : counters (release_in_flight_reader_orderly p).1 = counters (ref_step (RRelease (RefRead false)) p).1.
Proof. unfold release_in_flight_reader_orderly. cbn [ref_step]. unfold release_in_flight_reference. rewrite !andthen_fst. apply orderly_counters. Qed.

Lemma release_pipe_accounts k own air i kind f :
  accounts k own (UPipe i kind :: air) -> good_op f -> (forall p, counters (f p).1 = counters (ref_step (RRelease kind) p).1) ->
  accounts (pipe_free i (pipe_do i f k)) own air.
Proof.
  intros Ha Hg Hc. destruct (pipe_use_live k own (UPipe i kind :: air) i kind Ha) as [p Hp]; [unfold all_uses; set_solver|].
  apply pipe_free_accounts. eapply (pipe_step_accounts _ _ _ _ _ _ p f (RRelease kind)); [exact Ha|exact Hp|exact Hg|apply Hc|constructor|done].
Qed.

Lemma managed_uses r : manages_ofd (rel_file_type r) (rel_host_handle r) = true -> release_uses r = backing_use (rel_file_type r) (rel_host_handle r).
Proof.
  unfold release_uses, manages_ofd, handle_use, pty_use. destruct (rel_file_type r); try done; cbn [app]; rewrite ?app_nil_r; try done.
  unfold is_procfs_buf_handle, is_synthetic_regular_handle, PROCFS_BUF_BASE, SYNTHETIC_REGULAR_HANDLE_BASE. intros Hm.
  rewrite (proj2 (Z.leb_gt 0 _)) by lia. by rewrite app_nil_r.
Qed.

Lemma unmanaged_backing ft h : manages_ofd ft h = false -> kind_of ft h = None /\ backing_use ft h = [].
Proof.
  intros Hm. assert (kind_of ft h = None) as Hk by (unfold manages_ofd, kind_of in *; destruct ft; try done; by destruct (is_procfs_buf_handle h), (is_synthetic_regular_handle h)).
  unfold backing_use, slot_of. by rewrite Hk.
Qed.

Lemma release_deferred_accounts k own air r :
  accounts k own (release_uses r ++ air) -> accounts (release_deferred_in_flight_resource r k).2 own air.
Proof.
  intros Ha. unfold release_deferred_in_flight_resource. destruct (manages_ofd (rel_file_type r) (rel_host_handle r)) eqn:Em.
  { rewrite managed_uses in Ha by done. apply accounts_shift_all in Ha.
    - pose proof (release_accounts k own air _ _ Ha) as Hr. destruct (release_for_ofd _ _ _) as [freed b]. by destruct Hr.
    - unfold backing_use. by destruct (slot_of _ _). }
  destruct (unmanaged_backing _ _ Em) as [_ Eb]. unfold release_uses in Ha. rewrite Eb in Ha. clear Eb Em. unfold handle_use, pty_use in Ha.
  assert (forall h, accounts k own (UHandle h :: air) -> accounts (with_handles k (host_handle_close_ref (k_handles k) h).2) own air) as Hclose.
  { intros h Hh. apply accounts_shift in Hh; [|done]. pose proof (handle_close_accounts k own air h Hh) as Hc. destruct (host_handle_close_ref _ _). by destruct Hc. }
  destruct (rel_file_type r); cbn [snd app] in *; try done.
  - destruct (0 <=? rel_host_handle r); cbn [app] in Ha; [|done]. specialize (Hclose (rel_host_handle r) Ha). by destruct (host_handle_close_ref _ _).
  - destruct (0 <=? rel_host_handle r); cbn [app] in Ha; [|done]. specialize (Hclose (rel_host_handle r) Ha). by destruct (host_handle_close_ref _ _).
  - destruct (Z.leb_spec 0 (rel_host_handle r)).
    + rewrite (proj2 (Z.ltb_ge _ _)) in Ha by done. cbn [app] in Ha. specialize (Hclose (rel_host_handle r) Ha). by destruct (host_handle_close_ref _ _).
    + rewrite (proj2 (Z.ltb_lt _ _)) in Ha by done. cbn [snd app] in *. destruct (rel_pipe_ref_kind r) as [kind|]; [|by apply pipe_free_accounts].
      eapply release_pipe_accounts; [exact Ha|apply (good_ref_step (RRelease kind))|done].
  - destruct (0 <=? rel_host_handle r); cbn [app] in Ha; [|done]. specialize (Hclose (rel_host_handle r) Ha). by destruct (host_handle_close_ref _ _).
  - destruct (rel_socket_global_pipes r); [|done]. cbn [snd app] in *.
    assert (good_op (if orderly_release r then release_in_flight_reader_orderly else release_in_flight_reader) /\
            forall p, counters ((if orderly_release r then release_in_flight_reader_orderly else release_in_flight_reader) p).1 =
              counters (ref_step (RRelease (RefRead false)) p).1) as [G C].
    { destruct (orderly_release r); split; [apply good_release_orderly|apply release_orderly_counters|apply (good_ref_step (RRelease (RefRead false)))|done]. }
    unfold socket_pipe_uses, opt_use, opt_pipe_close in *.
    destruct (rel_socket_send_idx r) as [s|], (rel_socket_recv_idx r) as [c|]; cbn [app] in Ha; try done.
    + eapply release_pipe_accounts; [|exact G|exact C]. eapply release_pipe_accounts; [exact Ha|apply (good_ref_step (RRelease RefWrite))|done].
    + eapply release_pipe_accounts; [exact Ha|apply (good_ref_step (RRelease RefWrite))|done].
    + eapply release_pipe_accounts; [exact Ha|exact G|exact C].
  - apply pty_close_accounts. by apply accounts_shift.
  - apply pty_close_accounts. by apply accounts_shift.
Qed.

Lemma path_use_fifo k own air i p :
  accounts k own air -> UPipe i RefPath ∈ all_uses k own air -> table_get (k_pipes k) i = Some p -> p_is_fifo p = true.
Proof.
  intros Ha Hin Hp. destruct (p_is_fifo p) eqn:E; [done|]. exfalso. pose proof (po_path _ _ _ (ac_pipes _ _ _ Ha) i p Hp E) as H0.
  apply count_elem in Hin. rewrite all_uses_split in Hin. rewrite !count_app in *. lia.
Qed.

Lemma load_air k own air u : load k own (u :: air) = load k own air + 1.
Proof. unfold load, all_uses. rewrite !length_app. cbn [length]. lia. Qed.

(** A reference more on a pipe some holder refers to. *)
Lemma retain_pipe_accounts k own air i kind f :
  accounts k own air -> UPipe i kind ∈ all_uses k own air -> load k own air < u32_max -> good_op f ->
  (forall p, counters (f p).1 = counters (ref_step (RRetain kind) p).1) -> accounts (pipe_do i f k) own (UPipe i kind :: air).
Proof.
  intros Ha Hin Hl Hg Hc. destruct (pipe_use_live k own air i kind Ha Hin) as [p Hp].
  eapply (pipe_step_accounts _ _ _ _ _ _ p f (RRetain kind)); [exact Ha|exact Hp|exact Hg|apply Hc|constructor|]. split; [done|].
  intros ->. by eapply path_use_fifo.
Qed.

Lemma add_pipe_accounts k own air i kind f :
  accounts k own air -> UPipe i kind ∈ all_uses k own air -> load k own air < u32_max -> good_op f ->
  (forall p, counters (f p).1 = counters (ref_step (RAdd kind) p).1) -> accounts (pipe_do i f k) (UPipe i kind :: own) air.
Proof.
  intros Ha Hin Hl Hg Hc. destruct (pipe_use_live k own air i kind Ha Hin) as [p Hp].
  eapply (pipe_step_accounts _ _ _ _ _ _ p f (RAdd kind)); [exact Ha|exact Hp|exact Hg|apply Hc|constructor|]. split; [done|].
  intros ->. by eapply path_use_fifo.
Qed.

Lemma good_reader : good_op retain_in_flight_reader.
Proof. apply (good_ref_step (RRetain (RefRead false))). Qed.
Lemma good_writer : good_op retain_in_flight_writer.
Proof. apply (good_ref_step (RRetain RefWrite)). Qed.

Lemma pipe_do_rest k i f : good_op f -> pending (pipe_do i f k) = pending k /\ in_transit (pipe_do i f k) ≡ₚ in_transit k.
Proof.
  intros Hg. split.
  - unfold pending, pipe_do, on_pipes. pose proof (waiting_update (k_pipes k) i f Hg) as Hw. destruct (table_update (k_pipes k) i f) as [t es].
    cbn [with_pipe_table k_pipes k_backlogs fst] in *. by rewrite Hw.
  - unfold pipe_do. apply in_transit_on_pipes. unfold conserves. destruct (table_get (k_pipes k) i) as [p|] eqn:Hp; [by eapply queued_update|].
    unfold table_update. rewrite Hp. cbn. by rewrite app_nil_r.
Qed.

Lemma pipe_do_uses k own air i f : good_op f -> all_uses (pipe_do i f k) own air ≡ₚ all_uses k own air.
Proof. intros Hg. destruct (pipe_do_rest k i f Hg) as [E1 E2]. unfold all_uses. by rewrite E1, E2. Qed.

Lemma pipe_do_load k own air i f : good_op f -> load (pipe_do i f k) own air = load k own air.
Proof. intros Hg. unfold load. by rewrite pipe_do_uses. Qed.

(** [checked_add] on one count of a pseudo-terminal. *)
Lemma pty_retain_accounts k own air idx p (m : bool) :
  accounts k own air -> get_pty (k_ptys k) idx = Some p -> load k own air < u32_max ->
  (if m then master_refs p else slave_refs p) + 1 <= u32_max ->
  accounts (put_pty k idx (if m then with_pty_refs p (master_refs p + 1) (slave_refs p) else with_pty_refs p (master_refs p) (slave_refs p + 1)))
    own (UPty idx m :: air).
Proof.
  intros Ha Hp Hl Hc. pose proof (ac_ptys _ _ _ Ha idx) as Hi. rewrite Hp in Hi. destruct Hi as [H1 H2].
  pose proof (count_nonneg (UPty idx m) (own ++ pending k ++ air ++ in_transit k)) as Hn. apply accounts_shift; [done|].
  pose proof (pty_add_accounts k own air idx p m Ha Hp Hl) as Hadd. unfold pty_add, u32_wrap, u32_max in *.
  destruct m; rewrite Z.mod_small in Hadd by lia; exact Hadd.
Qed.

Lemma retain_resource_accounts k own air r :
  accounts k own air -> (forall u, u ∈ release_uses r -> u ∈ all_uses k own air) -> load k own air + 2 <= u32_max ->
  let '(res, k') := retain_in_flight_resource r k in
  match res with
  | Ok _ => accounts k' own (release_uses r ++ air)
  | Err _ => accounts k' own air
  end.
Proof.
  intros Ha Hin Hl. unfold retain_in_flight_resource.
  pose proof (add_ref_accounts k own air (rel_file_type r) (rel_host_handle r) Ha ltac:(lia)) as Hb.
  destruct (add_ref_for_ofd (k_backings k) (rel_file_type r) (rel_host_handle r)) as [[[]|e] b]; [|destruct Hb as [Eb ->]|exact Hb].
  { destruct Hb as [Hne Hb]. rewrite managed_uses.
    - apply accounts_shift_all; [|exact Hb]. unfold backing_use. by destruct (slot_of _ _).
    - destruct (manages_ofd (rel_file_type r) (rel_host_handle r)) eqn:Em; [done|]. by destruct (unmanaged_backing _ _ Em) as [_ ?]. }
  assert (with_backings k (k_backings k) = k) as -> by (by destruct k).
  assert (forall h, UHandle h ∈ release_uses r -> accounts (with_handles k (host_handle_fork_ref (k_handles k) h)) own (UHandle h :: air)) as Hh.
  { intros h Hu. apply accounts_shift; [done|]. apply handle_fork_accounts; [done|by apply Hin|lia]. }
  unfold release_uses, handle_use, pty_use in *. rewrite Eb in *. destruct (rel_file_type r) eqn:Ef; cbn [app] in *; rewrite ?app_nil_r in *; try done.
  - destruct (0 <=? rel_host_handle r); [|done]. apply Hh. by left.
  - destruct (0 <=? rel_host_handle r); [|done]. apply Hh. by left.
  - destruct (Z.leb_spec 0 (rel_host_handle r)).
    + rewrite (proj2 (Z.ltb_ge _ _)) in * by done. cbn [app] in *. apply Hh. by left.
    + rewrite (proj2 (Z.ltb_lt _ _)) in * by done. cbn [app] in *. destruct (table_get (k_pipes k) (neg_index (rel_host_handle r))) as [p|] eqn:Hp; [|done].
      destruct (rel_pipe_ref_kind r) as [kind|]; [|done]. cbn [app]. apply retain_pipe_accounts; [done|apply Hin; by left|lia|apply (good_ref_step (RRetain kind))|done].
  - destruct (0 <=? rel_host_handle r); [|done]. apply Hh. by left.
  - destruct (rel_socket_global_pipes r); [|done]. destruct (_ || _); [done|]. unfold socket_pipe_uses, opt_use, opt_pipe_do in *.
    destruct (rel_socket_send_idx r) as [s|], (rel_socket_recv_idx r) as [c|]; cbn [app] in *; try done.
    + assert (accounts (pipe_do s retain_in_flight_writer k) own (UPipe s RefWrite :: air)) as Hs by (apply retain_pipe_accounts; [done|apply Hin; by left|lia|apply good_writer|done]).
      eapply accounts_perm; [reflexivity|apply perm_swap|]. apply retain_pipe_accounts; [exact Hs| | |apply good_reader|done].
      * rewrite pipe_do_uses by apply good_writer. assert (UPipe c (RefRead false) ∈ all_uses k own air) as Hc by (apply Hin; set_solver).
        rewrite all_uses_split in Hc |- *. set_solver.
      * rewrite pipe_do_load, load_air by apply good_writer. lia.
    + apply retain_pipe_accounts; [done|apply Hin; by left|lia|apply good_writer|done].
    + apply retain_pipe_accounts; [done|apply Hin; by left|lia|apply good_reader|done].
  - destruct (get_pty (k_ptys k) (usize_index (rel_host_handle r))) as [p|] eqn:Hp; [|done]. destruct (Z.leb_spec (master_refs p + 1) u32_max); [|done].
    apply (pty_retain_accounts k own air _ p true); [done|done|lia|done].
  - destruct (get_pty (k_ptys k) (usize_index (rel_host_handle r))) as [p|] eqn:Hp; [|done]. destruct (Z.leb_spec (slave_refs p + 1) u32_max); [|done].
    apply (pty_retain_accounts k own air _ p false); [done|done|lia|done].
Qed.

Lemma adopt_pipe_accounts k own air i kind f :
  accounts k own (UPipe i kind :: air) -> good_op f -> (forall p, counters (f p).1 = counters (ref_step (RAdopt kind) p).1) ->
  accounts (pipe_do i f k) (UPipe i kind :: own) air.
Proof.
  intros Ha Hg Hc. destruct (pipe_use_live k own (UPipe i kind :: air) i kind Ha) as [p Hp]; [unfold all_uses; set_solver|].
  eapply (pipe_step_accounts _ _ _ _ _ _ p f (RAdopt kind)); [exact Ha|exact Hp|exact Hg|apply Hc|constructor|done].
Qed.

Lemma nonpipe_part r : forallb (fun u => negb (is_pipe_use u)) (backing_use (rel_file_type r) (rel_host_handle r) ++ handle_use (rel_file_type r) (rel_host_handle r) ++ pty_use (rel_file_type r) (rel_host_handle r)) = true.
Proof.
  unfold backing_use, handle_use, pty_use. rewrite !forallb_app. destruct (slot_of _ _), (rel_file_type r), (0 <=? rel_host_handle r); done.
Qed.

Lemma transfer_resource_accounts k own air r :
  accounts k own (release_uses r ++ air) -> accounts (transfer_in_flight_resource r k) (release_uses r ++ own) air.
Proof.
  intros Ha. unfold release_uses in *. rewrite !app_assoc in *. set (np := (backing_use _ _ ++ handle_use _ _) ++ pty_use _ _) in *.
  assert (forallb (fun u => negb (is_pipe_use u)) np = true) as Hnp by (subst np; rewrite <- app_assoc; apply nonpipe_part).
  rewrite <- !app_assoc in *. apply (accounts_shift_all k own _ np Hnp) in Ha.
  unfold transfer_in_flight_resource.
  assert (forall k' us, accounts k' (us ++ np ++ own) air -> accounts k' (np ++ us ++ own) air) as Hswap.
  { intros k' us. apply accounts_perm; [|done]. rewrite !app_assoc. by rewrite (Permutation_app_comm us np). }
  apply Hswap. destruct (rel_file_type r); cbn [app] in *; try done.
  - destruct (rel_host_handle r <? 0); [|done]. destruct (rel_pipe_ref_kind r) as [kind|]; [|done]. cbn [app] in *.
    apply adopt_pipe_accounts; [done|apply (good_ref_step (RAdopt kind))|done].
  - destruct (rel_socket_global_pipes r); [|done]. unfold socket_pipe_uses, opt_use, opt_pipe_do in *.
    destruct (rel_socket_send_idx r) as [s|], (rel_socket_recv_idx r) as [c|]; cbn [app] in *; try done.
    + eapply accounts_perm; [apply perm_swap|reflexivity|]. apply adopt_pipe_accounts; [|apply (good_ref_step (RAdopt (RefRead false)))|done].
      apply adopt_pipe_accounts; [exact Ha|apply (good_ref_step (RAdopt RefWrite))|done].
    + apply adopt_pipe_accounts; [exact Ha|apply (good_ref_step (RAdopt RefWrite))|done].
    + apply adopt_pipe_accounts; [exact Ha|apply (good_ref_step (RAdopt (RefRead false)))|done].
Qed.

(** ** The identities in transit

    Every owning descriptor that is queued, or held by code ([fds]), has one
    in-flight reference on its description and one reserved place in the
    deferred queue. *)

Record transit_ok (k : Kernel) (fds : list InFlightFd) : Prop := {
  tr_ok : in_flight_ok (w_in_flight (k_world k));
  tr_refs : forall id, refs_of (w_in_flight (k_world k)) id = owned_refs id (fds ++ queued (k_pipes k));
  tr_reserved : dq_reserved (w_deferred (k_world k)) = length (fds ++ queued (k_pipes k));
}.

#[export] Instance owned_refs_perm id : Proper ((≡ₚ) ==> eq) (owned_refs id).
Proof.
  assert (forall x l, owned_refs id (x :: l) = owned_refs id [x] + owned_refs id l) as Hc by (intros x l; apply (owned_refs_app id [x] l)).
  intros a b Hp. induction Hp as [|x a b _ IH|x y a|a b c _ IH1 _ IH2]; [done| | |congruence].
  - rewrite (Hc x a), (Hc x b). lia.
  - rewrite (Hc y (x :: a)), (Hc x a), (Hc x (y :: a)), (Hc y a). lia.
Qed.

Lemma transit_perm k fds fds' : fds ≡ₚ fds' -> transit_ok k fds -> transit_ok k fds'.
Proof. intros Hp [H1 H2 H3]. split; [done| |]; [intros id|]; rewrite <- Hp; done. Qed.

Lemma on_pipes_transit k f fds : conserves k f -> transit_ok k fds -> transit_ok (on_pipes f k) fds.
Proof.
  intros Hc [H1 H2 H3]. unfold conserves, on_pipes in *. destruct (f (k_pipes k)) as [t es]. cbn [fst snd] in Hc.
  destruct (run_effects_released es (k_world k) H1) as [R1 R2 _ R4].
  { intros id. rewrite H2, Hc, !owned_refs_app. pose proof (owned_refs_nonneg id fds). pose proof (owned_refs_nonneg id (queued t)). lia. }
  split; cbn [with_pipe_table k_world k_pipes]; [done| |].
  - intros id. rewrite R2, H2, Hc, !owned_refs_app. lia.
  - rewrite R4, H3, Hc, !length_app. lia.
Qed.

Lemma pipe_do_transit k i f fds : good_op f -> transit_ok k fds -> transit_ok (pipe_do i f k) fds.
Proof.
  intros Hg. apply on_pipes_transit. unfold conserves. destruct (table_get (k_pipes k) i) as [p|] eqn:Hp; [by eapply queued_update|].
  unfold table_update. rewrite Hp. cbn. by rewrite app_nil_r.
Qed.

Lemma pipe_free_transit k i fds : transit_ok k fds -> transit_ok (pipe_free i k) fds.
Proof.
  intros Ht. unfold pipe_free, free_if_closed. rewrite on_pipes_seq. apply on_pipes_transit.
  { unfold conserves, collect_unreachable_ancillary, queued, with_pipes. cbn [fst snd pipes]. rewrite owned_drops_batches. apply sweep_queued. }
  apply on_pipes_transit; [|done]. unfold conserves, free_fully_closed_inner. destruct (table_get (k_pipes k) i) as [p|] eqn:Hp; [|cbn; by rewrite app_nil_r].
  destruct (is_fully_closed p); [|cbn; by rewrite app_nil_r]. unfold queued. cbn [fst snd pipes]. rewrite owned_drops_batches.
  pose proof (concat_insert slot_fds (pipes (k_pipes k)) i (Some p) None (proj1 (table_get_Some _ _ _) Hp)) as Hci. cbn [slot_fds] in Hci.
  rewrite app_nil_r in Hci. exact Hci.
Qed.

Lemma opt_do_transit k o f fds : good_op f -> transit_ok k fds -> transit_ok (opt_pipe_do o f k) fds.
Proof. intros Hg. destruct o; [by apply pipe_do_transit|done]. Qed.

(** The tables outside the pipes and the queues do not matter here. *)
Lemma transit_same k k' fds : k_pipes k' = k_pipes k -> k_world k' = k_world k -> transit_ok k fds -> transit_ok k' fds.
Proof. intros E1 E2 [H1 H2 H3]. split; rewrite ?E1, ?E2; done. Qed.

Lemma retain_resource_transit k r fds : transit_ok k fds -> transit_ok (retain_in_flight_resource r k).2 fds.
Proof.
  intros Ht. unfold retain_in_flight_resource. destruct (add_ref_for_ofd _ _ _) as [[[]|] b]; cbn [snd]; try (by eapply transit_same, Ht).
  assert (transit_ok (with_backings k b) fds) as Ht' by (by eapply transit_same, Ht). set (k1 := with_backings k b) in *. clearbody k1.
  destruct (rel_file_type r); cbn [snd]; repeat case_match; cbn [snd]; try done; try (by eapply transit_same, Ht').
  - apply pipe_do_transit; [apply (good_ref_step (RRetain _))|done].
  - apply opt_do_transit; [apply good_reader|]. apply opt_do_transit; [apply good_writer|done].
Qed.

Lemma transfer_resource_transit k r fds : transit_ok k fds -> transit_ok (transfer_in_flight_resource r k) fds.
Proof.
  intros Ht. unfold transfer_in_flight_resource. destruct (rel_file_type r); try done.
  - repeat case_match; try done. apply pipe_do_transit; [apply (good_ref_step (RAdopt _))|done].
  - case_match; [|done]. apply opt_do_transit; [apply (good_ref_step (RAdopt (RefRead false)))|]. apply opt_do_transit; [apply (good_ref_step (RAdopt RefWrite))|done].
Qed.

(** Descriptors held by code. *)
Definition fds_uses (l : list InFlightFd) : list use := records_uses (release_metadata <$> l).

Lemma accounts_world k w own air :
  dq_records (w_deferred w) = dq_records (w_deferred (k_world k)) -> accounts k own air -> accounts (with_world k w) own air.
Proof. intros E Ha. eapply accounts_change; [exact Ha|done|exact E|done|done|by destruct Ha..]. Qed.

Lemma world_load k w own air : dq_records (w_deferred w) = dq_records (w_deferred (k_world k)) -> all_uses (with_world k w) own air = all_uses k own air.
Proof. intros E. unfold all_uses, in_transit. cbn [with_world with_pipe_table k_pipes k_world]. by rewrite E. Qed.

Lemma owned_refs_head id fd fds : owned_refs id (fd :: fds) = (if fd_ofd_id fd =? id then 1 else 0) + owned_refs id fds.
Proof. change (fd :: fds) with ([fd] ++ fds). by rewrite owned_refs_app, owned_refs_single. Qed.

(** Giving up the identity and the reserved place of one descriptor. *)
Lemma transit_give_up k fd fds :
  transit_ok k (fd :: fds) ->
  transit_ok (on_deferred cancel_deferred_in_flight_release (on_in_flight (fun refs => (release_in_flight_ofd refs (fd_ofd_id fd)).2) k)) fds.
Proof.
  intros [S1 S2 S3]. pose proof (release_spec (w_in_flight (k_world k)) (fd_ofd_id fd) S1) as Hrel.
  unfold on_deferred, on_in_flight, with_world, with_pipe_table, with_in_flight, with_deferred, cancel_deferred_in_flight_release.
  destruct (release_in_flight_ofd (w_in_flight (k_world k)) (fd_ofd_id fd)) as [last refs']. destruct Hrel as (L1 & _ & L3).
  cbn [app] in S2, S3. split; cbn [k_world k_pipes w_in_flight w_deferred dq_reserved snd]; [done| |rewrite S3; cbn [length]; lia].
  intros id. rewrite L3, !S2, !owned_refs_head, Z.eqb_refl, (Z.eqb_sym id).
  pose proof (owned_refs_nonneg (fd_ofd_id fd) (fds ++ queued (k_pipes k))). rewrite (proj2 (Z.ltb_lt 0 _)) by lia. rewrite andb_true_r. lia.
Qed.

Lemma retain_reference_ok grown alloc_ok k own fds fd :
  accounts k own (fds_uses fds) -> transit_ok k fds -> fd_owns_reference fd = false ->
  (forall u, u ∈ release_uses (release_metadata fd) -> u ∈ all_uses k own (fds_uses fds)) -> load k own (fds_uses fds) + 2 <= u32_max ->
  let '(res, k') := retain_reference grown alloc_ok fd k in
  match res with
  | Ok fd' => fd' = set_owns fd true /\ accounts k' own (fds_uses (fd' :: fds)) /\ transit_ok k' (fd' :: fds)
  | Err _ => accounts k' own (fds_uses fds) /\ transit_ok k' fds
  end.
Proof.
  intros Ha Ht Ho Hin Hl. unfold retain_reference. rewrite Ho. unfold reserve_deferred_in_flight_release.
  destruct (usize_max <? _); [done|]. destruct grown; [|done]. set (k1 := on_deferred _ k).
  destruct Ht as [T1 T2 T3].
  assert (accounts k1 own (fds_uses fds)) as Ha1 by (by apply accounts_world).
  pose proof (retain_ofd_spec alloc_ok (w_in_flight (k_world k1)) (fd_ofd_id fd) T1) as Hr.
  destruct (retain_in_flight_ofd alloc_ok (w_in_flight (k_world k1)) (fd_ofd_id fd)) as [[[]|e] refs].
  2:{ split; [by apply accounts_world|]. split; [done|done|]. cbn. rewrite T3. lia. }
  destruct Hr as (R1 & R2 & R3). set (k2 := on_in_flight _ k1).
  assert (accounts k2 own (fds_uses fds)) as Ha2 by (by apply accounts_world).
  assert (transit_ok k2 (set_owns fd true :: fds)) as Ht2.
  { split; [done| |cbn; by rewrite T3]. intros id. change (w_in_flight (k_world k2)) with refs. change (k_pipes k2) with (k_pipes k).
    rewrite R3. change (w_in_flight (k_world k1)) with (w_in_flight (k_world k)). rewrite T2.
    cbn [app]. rewrite owned_refs_head. cbn [set_owns fd_ofd_id]. rewrite (Z.eqb_sym id). lia. }
  assert (all_uses k2 own (fds_uses fds) = all_uses k own (fds_uses fds)) as Eu by (etrans; by apply world_load).
  pose proof (retain_resource_accounts k2 own (fds_uses fds) (release_metadata fd) Ha2) as Hres.
  pose proof (retain_resource_transit k2 (release_metadata fd) _ Ht2) as Hrt.
  destruct (retain_in_flight_resource (release_metadata fd) k2) as [res k3]. cbn [snd] in Hrt. unfold load in *. rewrite Eu in Hres. specialize (Hres Hin Hl).
  destruct res as [[]|e]; [split; [done|]; split; [exact Hres|exact Hrt]|]. split; [apply accounts_world; [done|by apply accounts_world]|].
  by apply (transit_give_up k3 (set_owns fd true)).
Qed.

(** *** Between the queues and the code *)

(** Buffers with the same counters and waiting opens. *)
Definition same_slots (t t' : PipeTable) : Prop :=
  length (pipes t') = length (pipes t) /\
  forall i, match table_get t i, table_get t' i with
            | Some p, Some p' => counters p' = counters p /\ p_is_fifo p' = p_is_fifo p /\ p_fifo_open_waiters p' = p_fifo_open_waiters p
            | None, None => True
            | _, _ => False
            end.

Lemma same_slots_refl t : same_slots t t.
Proof. split; [done|]. intros i. by destruct (table_get t i). Qed.

(** Moving holders in transit between the code, the queues and the deferred
    records. *)
Lemma accounts_requeue k t w own air air' :
  accounts k own air -> same_slots (k_pipes k) t ->
  air' ++ in_transit (with_pipe_table k t w) ≡ₚ air ++ in_transit k ->
  accounts (with_pipe_table k t w) own air'.
Proof.
  intros [[P1 P2 P3] H2 H3 H4 H5 H6 H7] [Hl Hs] Hp.
  assert (pending (with_pipe_table k t w) = pending k) as Ew.
  { unfold pending. cbn [with_pipe_table k_pipes k_backlogs]. f_equal. symmetry. apply waiting_ext; [done|].
    intros i. specialize (Hs i). destruct (table_get (k_pipes k) i), (table_get t i); try done. destruct Hs as (_ & _ & Hs). cbn. by rewrite Hs. }
  assert (own ++ pending (with_pipe_table k t w) ++ air' ++ in_transit (with_pipe_table k t w) ≡ₚ own ++ pending k ++ air ++ in_transit k) as Hall
    by (by rewrite Ew, Hp).
  split; cbn [with_pipe_table k_pipes k_backings k_handles k_ptys k_backlogs k_net_handles].
  - rewrite Ew, Hp. split.
    + intros i p' Hp'. specialize (Hs i). rewrite Hp' in Hs. destruct (table_get (k_pipes k) i) as [p|] eqn:E; [|done]. destruct Hs as (Hcs & _ & _).
      pose proof (P1 i p E) as Hacc. pose proof (accounted_counters _ _ Hacc) as Hcc. destruct Hacc as [N L _ _ _ _ _ _].
      apply counters_accounted; [done|done|rewrite Hcs; exact Hcc].
    + intros i p' Hp' Hf. specialize (Hs i). rewrite Hp' in Hs. destruct (table_get (k_pipes k) i) as [p|] eqn:E; [|done]. destruct Hs as (_ & Hfi & _).
      eapply P2; [exact E|congruence].
    + intros i kd Hn. specialize (Hs i). rewrite Hn in Hs. destruct (table_get (k_pipes k) i) eqn:E; [done|]. by apply P3.
  - by rewrite Hall.
  - eapply handles_agree_ext; [|exact H3]. intros h. cbn beta. by rewrite Hall.
  - by rewrite Hall.
  - by rewrite Hall.
  - eapply handles_agree_ext; [|exact H6]. intros h. cbn beta. by rewrite Hall.
  - by rewrite Hall.
Qed.

Lemma fds_uses_cons fd fds : fds_uses (fd :: fds) = release_uses (release_metadata fd) ++ fds_uses fds.
Proof. done. Qed.

Lemma fds_uses_app a b : fds_uses (a ++ b) = fds_uses a ++ fds_uses b.
Proof. unfold fds_uses. by rewrite fmap_app, records_uses_app. Qed.

Lemma in_transit_split k : in_transit k = fds_uses (queued (k_pipes k)) ++ records_uses (dq_records (w_deferred (k_world k))).
Proof. apply records_uses_app. Qed.

Lemma transfer_reference_ok k own fd fds :
  accounts k own (fds_uses (fd :: fds)) -> transit_ok k (fd :: fds) -> fd_owns_reference fd = true ->
  let k' := (transfer_reference fd k).2 in
  accounts k' (release_uses (release_metadata fd) ++ own) (fds_uses fds) /\ transit_ok k' fds.
Proof.
  intros Ha Ht Ho. unfold transfer_reference. rewrite Ho. cbn [snd]. rewrite fds_uses_cons in Ha. split.
  - apply accounts_world; [done|]. apply accounts_world; [done|]. by apply transfer_resource_accounts.
  - by apply transit_give_up, transfer_resource_transit.
Qed.

(** [drop] of a descriptor held by code. *)
Definition drop_fd (fd : InFlightFd) (k : Kernel) : Kernel := with_world k (drop_in_flight_fd (k_world k) fd).

Lemma drop_fd_ok k own fd fds :
  accounts k own (fds_uses (fd :: fds)) -> transit_ok k (fd :: fds) -> fd_owns_reference fd = true ->
  accounts (drop_fd fd k) own (fds_uses fds) /\ transit_ok (drop_fd fd k) fds.
Proof.
  intros Ha Ht Ho. split.
  - apply (accounts_requeue k (k_pipes k) _ own (fds_uses (fd :: fds))); [done|apply same_slots_refl|].
    rewrite !in_transit_split, fds_uses_cons. unfold drop_in_flight_fd. rewrite Ho.
    cbn [with_pipe_table k_pipes k_world w_deferred enqueue_deferred_in_flight_release dq_records]. unfold vec_push. rewrite records_uses_app.
    assert (records_uses [release_metadata fd] = release_uses (release_metadata fd)) as -> by (unfold records_uses; cbn; by rewrite app_nil_r).
    solve_Permutation.
  - pose proof (transit_give_up k fd fds Ht) as [G1 G2 G3]. unfold drop_fd, drop_in_flight_fd. rewrite Ho. split; [exact G1|exact G2|exact G3].
Qed.

(** The next deferred record, taken out of the queue. *)
Lemma pop_deferred_ok k own fds r q :
  accounts k own (fds_uses fds) -> transit_ok k fds -> pop_deferred_in_flight_release (w_deferred (k_world k)) = (Some r, q) ->
  let k' := on_deferred (fun _ => q) k in
  accounts k' own (release_uses r ++ fds_uses fds) /\ transit_ok k' fds /\
  dq_records (w_deferred (k_world k)) = dq_records q ++ [r].
Proof.
  intros Ha Ht Hp. unfold pop_deferred_in_flight_release in Hp. destruct (last (dq_records (w_deferred (k_world k)))) as [r'|] eqn:El; [|done].
  injection Hp as -> <-. apply last_Some in El as [l' El]. rewrite El, removelast_last. split; [|split; [|done]].
  - apply (accounts_requeue k (k_pipes k) _ own (fds_uses fds)); [done|apply same_slots_refl|].
    rewrite !in_transit_split. cbn [with_pipe_table k_pipes k_world with_deferred w_deferred dq_records]. rewrite El, records_uses_app.
    assert (records_uses [r] = release_uses r) as -> by (unfold records_uses; cbn; by rewrite app_nil_r). solve_Permutation.
  - destruct Ht as [T1 T2 T3]. by split.
Qed.

(** Messages: [sendmsg] queues descriptors it has retained, [recvmsg] takes the
    next batch out. *)
Definition queue_message (idx : nat) (batch : list InFlightFd) (k : Kernel) : bool * Kernel :=
  let '(ok, (t, es)) := queue_retained_ancillary (k_pipes k) idx batch in (ok, with_pipe_table k t (run_effects (k_world k) es)).

Definition pop_message (idx : nat) (k : Kernel) : list InFlightFd * Kernel :=
  match table_get (k_pipes k) idx with
  | Some p => (default [] (pop_ancillary p).1, pipe_do idx (pure_op (fun p => (pop_ancillary p).2)) k)
  | None => ([], k)
  end.

Lemma owned_all batch : Forall (fun fd => fd_owns_reference fd = true) batch -> List.filter fd_owns_reference batch = batch.
Proof. induction 1 as [|fd l Hfd _ IH]; cbn [List.filter]; [done|]. by rewrite Hfd, IH. Qed.

Lemma owned_refs_perm_eq id a b : a ≡ₚ b -> owned_refs id a = owned_refs id b.
Proof. by intros ->. Qed.

(** Changing the queue of one buffer. *)
Lemma requeue_accounts k own fds fds' i p q :
  accounts k own (fds_uses fds) -> transit_ok k fds -> table_get (k_pipes k) i = Some p ->
  fds' ++ owned q ≡ₚ fds ++ owned (p_ancillary_fds p) ->
  let k' := pipe_do i (pure_op (set_ancillary_fds q)) k in
  accounts k' own (fds_uses fds') /\ transit_ok k' fds'.
Proof.
  intros Ha Ht Hp Hq. unfold pipe_do, on_pipes, table_update. rewrite Hp. unfold pure_op. cbv zeta.
  pose proof (proj1 (table_get_Some _ _ _) Hp) as Hi. set (t' := with_pipes _ _).
  assert (fds' ++ queued t' ≡ₚ fds ++ queued (k_pipes k)) as Hall.
  { pose proof (concat_insert slot_fds (pipes (k_pipes k)) i (Some p) (Some (set_ancillary_fds q p)) Hi) as Hc.
    cbn [slot_fds set_ancillary_fds p_ancillary_fds] in Hc. fold (owned q) (owned (p_ancillary_fds p)) in Hc.
    unfold queued. cbn [t' with_pipes pipes]. apply (Permutation_app_inv_r (owned q)). rewrite <- (app_assoc fds), Hc.
    rewrite (Permutation_app_comm (concat _) (owned (p_ancillary_fds p))), app_assoc, <- Hq. solve_Permutation. }
  split.
  - apply (accounts_requeue k t' (k_world k) own (fds_uses fds)); [done| |].
    + split; [apply length_insert|]. intros j. subst t'. unfold with_pipes. rewrite table_get_insert by (by eapply lookup_lt_Some).
      destruct (Nat.eqb_spec j i) as [->|]; [by rewrite Hp|]. change (table_get {| pipes := pipes (k_pipes k); free_list := free_list (k_pipes k) |} j) with (table_get (k_pipes k) j).
      by destruct (table_get (k_pipes k) j).
    + rewrite !in_transit_split, !app_assoc, <- !fds_uses_app. cbn [with_pipe_table k_pipes k_world]. unfold fds_uses. by rewrite Hall.
  - destruct Ht as [T1 T2 T3]. split; cbn [with_pipe_table k_pipes k_world run_effects fold_left]; [done| |].
    + intros id. rewrite T2. by apply owned_refs_perm_eq.
    + by rewrite T3, Hall.
Qed.

Lemma set_ancillary_pipe_do i f k p :
  table_get (k_pipes k) i = Some p -> pipe_do i (pure_op f) k = pipe_do i (pure_op (fun _ => f p)) k.
Proof. intros Hp. unfold pipe_do, on_pipes, table_update. by rewrite Hp. Qed.

Lemma requeue_with k own fds fds' i p f :
  accounts k own (fds_uses fds) -> transit_ok k fds -> table_get (k_pipes k) i = Some p ->
  f p = set_ancillary_fds (p_ancillary_fds (f p)) p -> fds' ++ owned (p_ancillary_fds (f p)) ≡ₚ fds ++ owned (p_ancillary_fds p) ->
  let k' := pipe_do i (pure_op f) k in
  accounts k' own (fds_uses fds') /\ transit_ok k' fds'.
Proof.
  intros Ha Ht Hp Hf Hq. rewrite (set_ancillary_pipe_do i f k p Hp), Hf, <- (set_ancillary_pipe_do i (set_ancillary_fds _) k p Hp).
  by eapply requeue_accounts.
Qed.

Lemma collect_transit k fds : transit_ok k fds -> transit_ok (on_pipes collect_unreachable_ancillary k) fds.
Proof.
  apply on_pipes_transit. unfold conserves, collect_unreachable_ancillary, queued, with_pipes. cbn [fst snd pipes]. rewrite owned_drops_batches. apply sweep_queued.
Qed.

Lemma drops_ok batch k own fds :
  Forall (fun fd => fd_owns_reference fd = true) batch -> accounts k own (fds_uses (batch ++ fds)) -> transit_ok k (batch ++ fds) ->
  let k' := with_world k (fold_left drop_in_flight_fd batch (k_world k)) in
  accounts k' own (fds_uses fds) /\ transit_ok k' fds.
Proof.
  intros Hf. revert k. induction Hf as [|fd batch Hfd _ IH]; intros k Ha Ht; cbn [fold_left].
  - split; [by apply accounts_world|]. destruct Ht as [T1 T2 T3]. by split.
  - destruct (drop_fd_ok k own fd (batch ++ fds) Ha Ht Hfd) as [Ha' Ht']. apply (IH (drop_fd fd k) Ha' Ht').
Qed.

Lemma queue_message_ok idx batch k own fds :
  Forall (fun fd => fd_owns_reference fd = true) batch -> accounts k own (fds_uses (batch ++ fds)) -> transit_ok k (batch ++ fds) ->
  let k' := (queue_message idx batch k).2 in accounts k' own (fds_uses fds) /\ transit_ok k' fds.
Proof.
  intros Hf Ha Ht. unfold queue_message, queue_retained_ancillary. destruct (table_get (k_pipes k) idx) as [p|] eqn:Hp.
  2:{ cbn [snd]. by apply drops_ok. }
  assert (forall (f : PipeTable -> PipeTable * list effect),
    (let '(ok, (t, es)) := (true, f (k_pipes k)) in (ok, with_pipe_table k t (run_effects (k_world k) es))).2 = on_pipes f k) as ->.
  { intros f. unfold on_pipes. by destruct (f (k_pipes k)). }
  cbv zeta. rewrite on_pipes_seq. change (on_pipes (fun t => table_update t idx ?f) k) with (pipe_do idx f k).
  destruct (requeue_with k own (batch ++ fds) fds idx p (push_ancillary batch) Ha Ht Hp) as [Ha' Ht'].
  - by destruct batch, p.
  - destruct batch as [|fd b]; [done|]. cbn [push_ancillary set_ancillary_fds p_ancillary_fds]. unfold vec_push, owned.
    rewrite concat_app, List.filter_app. cbn [concat]. rewrite app_nil_r, (owned_all _ Hf). solve_Permutation.
  - split; [by apply collect_accounts|by apply collect_transit].
Qed.

Lemma pop_message_ok idx k own fds :
  accounts k own (fds_uses fds) -> transit_ok k fds ->
  let '(batch, k') := pop_message idx k in
  let fds' := List.filter fd_owns_reference batch ++ fds in
  accounts k' own (fds_uses fds') /\ transit_ok k' fds'.
Proof.
  intros Ha Ht. unfold pop_message. destruct (table_get (k_pipes k) idx) as [p|] eqn:Hp; [|done]. cbv zeta.
  eapply requeue_with; [exact Ha|exact Ht|exact Hp|..]; unfold pop_ancillary; destruct (p_ancillary_fds p) as [|b rest] eqn:Ea; cbn [fst snd default].
  - destruct p. cbn in *. by subst.
  - done.
  - by rewrite Ea.
  - cbn [set_ancillary_fds p_ancillary_fds]. unfold owned. cbn [concat]. rewrite List.filter_app. cbn [default]. solve_Permutation.
Qed.

(** ** Runs *)

(** The allocation of [pipe]. *)
Definition pipe_alloc (cap : nat) (k : Kernel) : nat * Kernel :=
  let '(i, t) := table_alloc (k_pipes k) (pipe_new cap) in (i, with_pipe_table k t (k_world k)).

Record passing_ok (k : Kernel) (own : list use) (fds : list InFlightFd) : Prop := {
  ps_accounts : accounts k own (fds_uses fds);
  ps_transit : transit_ok k fds;
  ps_slots : slots_ok (k_pipes k);
  ps_owning : Forall (fun fd => fd_owns_reference fd = true) fds;
}.

Lemma alloc_slots t p :
  slots_ok t -> let '(i, t') := table_alloc t p in
  (pipes t !! i = Some None /\ pipes t' = <[i := Some (set_pipe_idx (idx_u32 i) p)]> (pipes t)) \/
  (i = length (pipes t) /\ pipes t' = pipes t ++ [Some (set_pipe_idx (idx_u32 i) p)]).
Proof.
  intros [_ Hf _]. unfold table_alloc. destruct (last (free_list t)) as [i|] eqn:El; [left|by right].
  split; [|done]. apply Hf. apply last_Some in El as [l ->]. set_solver.
Qed.

(** A new buffer has no waiting open and no message. *)
Lemma alloc_waiting t p :
  slots_ok t -> p_fifo_open_waiters p = ∅ -> p_ancillary_fds p = [] ->
  waiting (table_alloc t p).2 = waiting t /\ queued (table_alloc t p).2 = queued t.
Proof.
  intros Hok Hw Hq. pose proof (alloc_slots t p Hok) as Hs. destruct (table_alloc t p) as [i t']. cbn [snd].
  assert (forall j, waiter_uses j (Some (set_pipe_idx (idx_u32 i) p)) = []) as Hwu by (intros j; cbn; by rewrite Hw, map_to_list_empty).
  assert (slot_fds (Some (set_pipe_idx (idx_u32 i) p)) = []) as Hsf by (cbn; by rewrite Hq).
  unfold waiting, queued. destruct Hs as [[Hi ->]|[-> ->]].
  - split; f_equal; apply list_eq; intros j; rewrite ?list_lookup_imap, ?list_lookup_fmap;
      (destruct (decide (j = i)) as [->|Hne]; [rewrite list_lookup_insert_eq by (by eapply lookup_lt_Some); rewrite Hi; cbn [fmap option_fmap option_map]|by rewrite list_lookup_insert_ne]).
    + by rewrite Hwu.
    + by rewrite Hsf.
  - rewrite imap_app, fmap_app, !concat_app. cbn [imap fmap list_fmap concat]. unfold compose. rewrite Hwu, Hsf. by rewrite !app_nil_r.
Qed.

Lemma pipe_alloc_ok cap k own fds :
  passing_ok k own fds -> load k own (fds_uses fds) + 2 <= u32_max ->
  let '(i, k') := pipe_alloc cap k in passing_ok k' (UPipe i (RefRead false) :: UPipe i RefWrite :: own) fds.
Proof.
  intros [Ha Ht Hs Ho] Hl. unfold pipe_alloc. pose proof (alloc_spec (k_pipes k) (pipe_new cap) Hs) as Hsp.
  destruct (alloc_waiting (k_pipes k) (pipe_new cap) Hs eq_refl eq_refl) as [Ew Eq].
  destruct (table_alloc (k_pipes k) (pipe_new cap)) as [i t']. cbn [snd] in *. destruct Hsp as (Hs' & Hn & Hg).
  set (k' := with_pipe_table k t' (k_world k)).
  assert (pending k' = pending k) as Ep by (unfold pending; cbn; by rewrite Ew).
  assert (in_transit k' = in_transit k) as Et by (unfold in_transit; cbn; by rewrite Eq).
  split; [|destruct Ht as [T1 T2 T3]; split; cbn; rewrite ?Eq; done|done|done].
  destruct Ha as [[P1 P2 P3] H2 H3 H4 H5 H6 H7]. unfold load, all_uses in Hl.
  assert (forall kd, tally_of i (own ++ pending k) kd = 0 /\ tally_of i (fds_uses fds ++ in_transit k) kd = 0) as Hz.
  { intros kd. pose proof (P3 i kd Hn) as Hz. rewrite count_app in Hz. unfold tally_of.
    pose proof (count_nonneg (UPipe i kd) (own ++ pending k)). pose proof (count_nonneg (UPipe i kd) (fds_uses fds ++ in_transit k)). lia. }
  split; cbn [k' with_pipe_table k_pipes k_backings k_handles k_ptys k_backlogs k_net_handles]; fold k'; rewrite ?Ep, ?Et.
  - assert (forall j kd, j <> i -> count (UPipe j kd) ((UPipe i (RefRead false) :: UPipe i RefWrite :: own) ++ pending k) = count (UPipe j kd) (own ++ pending k)) as Hother.
    { intros j kd Hne. cbn [app]. rewrite !count_cons, !decide_False by congruence. lia. }
    split.
    + intros j p. rewrite Hg. destruct (Nat.eqb_spec j i) as [->|Hne].
      * intros [= <-]. cbn [app]. pose proof Hz as Hzf.
        assert (forall kd, tally_of i (UPipe i (RefRead false) :: UPipe i RefWrite :: own ++ pending k) kd = match kd with RefRead false | RefWrite => 1 | _ => 0 end) as Hta.
        { intros kd. rewrite !tally_cons, (proj1 (Hz kd)). destruct kd as [|[]| |]; repeat case_decide; simplify_eq; lia. }
        apply counters_accounted.
        -- intros kd. cbn [fst snd]. rewrite Hta, (proj2 (Hz kd)). destruct kd as [|[]| |]; lia.
        -- unfold below_limit, readers, writers. cbn [fst snd]. rewrite !Hta, !(proj2 (Hz _)). unfold u32_max. lia.
        -- unfold readers, writers. cbn [fst snd]. rewrite !Hta, !(proj2 (Hz _)). done.
      * intros Hp. eapply accounted_ext; [by apply P1|..]; intros kd; unfold tally_of; [by rewrite Hother|done].
    + intros j p. rewrite Hg. destruct (Nat.eqb_spec j i) as [->|Hne].
      * intros _ _. cbn [app]. rewrite !count_cons, !decide_False by congruence. pose proof (P3 i RefPath Hn). rewrite !Z.add_0_l. done.
      * intros Hp Hf. rewrite count_app, Hother, <- count_app by done. by eapply P2.
    + intros j kd. rewrite Hg. destruct (Nat.eqb_spec j i) as [->|Hne]; [done|]. intros Hp. rewrite count_app, Hother, <- count_app by done. by apply P3.
  - eapply backings_ok_ext; [|exact H2]. same_counts.
  - eapply handles_agree_ext; [|exact H3]. same_counts.
  - eapply ptys_ok_ext; [|exact H4]. same_counts.
  - eapply backlogs_ok_ext; [|exact H5]. same_counts.
  - eapply handles_agree_ext; [|exact H6]. same_counts.
  - cbn [app length]. lia.
Qed.

Lemma slots_on_pipes f k : keeps_slots f -> slots_ok (k_pipes k) -> slots_ok (k_pipes (on_pipes f k)).
Proof. intros Hf Hs. unfold on_pipes. specialize (Hf _ Hs). by destruct (f (k_pipes k)). Qed.

Lemma slots_pipe_do i f k : keeps_frame f -> slots_ok (k_pipes k) -> slots_ok (k_pipes (pipe_do i f k)).
Proof. intros Hf. apply slots_on_pipes. by apply update_slots, keeps_frame_idx. Qed.

Lemma slots_pipe_free i k : slots_ok (k_pipes k) -> slots_ok (k_pipes (pipe_free i k)).
Proof. apply slots_on_pipes, free_slots. Qed.

Lemma slots_opt_do o f k : keeps_frame f -> slots_ok (k_pipes k) -> slots_ok (k_pipes (opt_pipe_do o f k)).
Proof. destruct o; [apply slots_pipe_do|done]. Qed.

Lemma slots_opt_close o f k : keeps_frame f -> slots_ok (k_pipes k) -> slots_ok (k_pipes (opt_pipe_close o f k)).
Proof. intros Hf. destruct o; [|done]. intros Hs. by apply slots_pipe_free, slots_pipe_do. Qed.

Lemma pty_close_pipes idx m k : k_pipes (pty_close idx m k) = k_pipes k.
Proof. unfold pty_close. destruct (get_pty _ _); [|done]. by destruct (negb _). Qed.

Lemma retain_resource_slots r k : slots_ok (k_pipes k) -> slots_ok (k_pipes (retain_in_flight_resource r k).2).
Proof.
  intros Hs. unfold retain_in_flight_resource. destruct (add_ref_for_ofd _ _ _) as [[[]|] b]; cbn [snd]; try done.
  destruct (rel_file_type r); cbn [snd]; repeat case_match; cbn [snd]; try done.
  - apply slots_pipe_do; [apply (good_ref_step (RRetain _))|done].
  - apply slots_opt_do; [apply good_reader|]. apply slots_opt_do; [apply good_writer|done].
Qed.

Lemma transfer_resource_slots r k : slots_ok (k_pipes k) -> slots_ok (k_pipes (transfer_in_flight_resource r k)).
Proof.
  intros Hs. unfold transfer_in_flight_resource. destruct (rel_file_type r); try done; repeat case_match; try done.
  - apply slots_pipe_do; [apply (good_ref_step (RAdopt _))|done].
  - apply slots_opt_do; [apply (good_ref_step (RAdopt (RefRead false)))|]. apply slots_opt_do; [apply (good_ref_step (RAdopt RefWrite))|done].
Qed.

Lemma release_deferred_slots r k : slots_ok (k_pipes k) -> slots_ok (k_pipes (release_deferred_in_flight_resource r k).2).
Proof.
  intros Hs. unfold release_deferred_in_flight_resource. destruct (manages_ofd _ _); [by destruct (release_for_ofd _ _ _)|].
  destruct (rel_file_type r); cbn [snd]; rewrite ?pty_close_pipes; try done.
  - destruct (0 <=? _); [|done]. by destruct (host_handle_close_ref _ _).
  - destruct (0 <=? _); [|done]. by destruct (host_handle_close_ref _ _).
  - destruct (0 <=? _); [by destruct (host_handle_close_ref _ _)|]. cbn [snd]. apply slots_pipe_free. destruct (rel_pipe_ref_kind r) as [kind|]; [|done].
    apply slots_pipe_do; [apply (good_ref_step (RRelease kind))|done].
  - destruct (0 <=? _); [|done]. by destruct (host_handle_close_ref _ _).
  - destruct (rel_socket_global_pipes r); [|done]. cbn [snd]. apply slots_opt_close.
    { destruct (orderly_release r); [apply good_release_orderly|apply (good_ref_step (RRelease (RefRead false)))]. }
    apply slots_opt_close; [apply (good_ref_step (RRelease RefWrite))|done].
Qed.

Lemma release_deferred_transit k r fds : transit_ok k fds -> transit_ok (release_deferred_in_flight_resource r k).2 fds.
Proof.
  intros Ht. unfold release_deferred_in_flight_resource.
  destruct (manages_ofd _ _); [destruct (release_for_ofd _ _ _); by eapply transit_same, Ht|].
  assert (forall h, transit_ok (with_handles k h) fds) as Hh by (intros; by eapply transit_same, Ht).
  assert (forall o f k', good_op f -> transit_ok k' fds -> transit_ok (opt_pipe_close o f k') fds) as Hoc.
  { intros [i|] f k' Hg Hk; [|done]. by apply pipe_free_transit, pipe_do_transit. }
  assert (forall i m, transit_ok (pty_close i m k) fds) as Hpty.
  { intros i m. eapply transit_same; [apply pty_close_pipes| |exact Ht]. unfold pty_close. destruct (get_pty _ _); [|done]. by destruct (negb _). }
  destruct (rel_file_type r); cbn [snd]; try done.
  - destruct (0 <=? _); [|done]. destruct (host_handle_close_ref _ _). apply Hh.
  - destruct (0 <=? _); [|done]. destruct (host_handle_close_ref _ _). apply Hh.
  - destruct (0 <=? _); [destruct (host_handle_close_ref _ _); apply Hh|]. cbn [snd]. apply pipe_free_transit. destruct (rel_pipe_ref_kind r) as [kind|]; [|done].
    apply pipe_do_transit; [apply (good_ref_step (RRelease kind))|done].
  - destruct (0 <=? _); [|done]. destruct (host_handle_close_ref _ _). apply Hh.
  - destruct (rel_socket_global_pipes r); [|done]. cbn [snd]. apply Hoc.
    { destruct (orderly_release r); [apply good_release_orderly|apply (good_ref_step (RRelease (RefRead false)))]. }
    apply Hoc; [apply (good_ref_step (RRelease RefWrite))|done].
Qed.

Lemma retain_reference_slots g a fd k : slots_ok (k_pipes k) -> slots_ok (k_pipes (retain_reference g a fd k).2).
Proof.
  intros Hs. unfold retain_reference. destruct (fd_owns_reference fd); [done|]. destruct (reserve_deferred_in_flight_release _ _) as [[[]|] q]; [|done].
  destruct (retain_in_flight_ofd _ _ _) as [[[]|] refs]; [|done].
  pose proof (retain_resource_slots (release_metadata fd) (on_in_flight (fun _ => refs) (on_deferred (fun _ => q) k)) Hs) as Hr.
  destruct (retain_in_flight_resource _ _) as [[[]|] k3]; exact Hr.
Qed.

Lemma queue_message_slots idx batch k : slots_ok (k_pipes k) -> slots_ok (k_pipes (queue_message idx batch k).2).
Proof.
  intros Hs. pose proof (table_act_slots (ActQueue idx batch) (k_pipes k) Hs) as Ha. cbn [table_act_step] in Ha. unfold queue_message.
  by destruct (queue_retained_ancillary _ _ _) as [b [t es]].
Qed.

Lemma pop_message_slots idx k : slots_ok (k_pipes k) -> slots_ok (k_pipes (pop_message idx k).2).
Proof.
  intros Hs. unfold pop_message. destruct (table_get _ _); [|done]. cbn [snd]. apply slots_on_pipes; [|done].
  apply update_slots. intros q. unfold pure_op, pop_ancillary. by destruct (p_ancillary_fds q).
Qed.

Lemma handle_open_accounts k own air h :
  accounts k own air -> UHandle h ∉ all_uses k own air -> load k own air < u32_max -> accounts k (UHandle h :: own) air.
Proof.
  intros Ha Hn Hl. assert (count (UHandle h) (all_uses k own air) = 0) as Hz.
  { unfold count. rewrite filter_none; [done|]. apply Forall_forall. intros x Hx. apply bool_decide_eq_false_2. by intros ->. }
  eapply accounts_change; [exact Ha|done|done|done|..].
  { intros i kind. same_counts. }
  1,3-5: unchanged_tables Ha.
  - intros x. pose proof (ac_handles _ _ _ Ha x) as Hx. unfold all_uses in Hz. cbn [app]. rewrite count_cons. destruct (decide (UHandle h = UHandle x)) as [E|E].
    + injection E as <-. rewrite Hz in *. destruct (k_handles k !! h); [lia|]. unfold u32_max. lia.
    + by rewrite Z.add_0_l.
  - unfold load, all_uses in Hl. cbn [app length]. lia.
Qed.

(** The next deferred release. *)
Definition release_next (k : Kernel) : Kernel :=
  match pop_deferred_in_flight_release (w_deferred (k_world k)) with
  | (Some r, q) => (release_deferred_in_flight_resource r (on_deferred (fun _ => q) k)).2
  | (None, _) => k
  end.

(** The machine, what the processes hold, and the descriptors held by code that
    is sending or receiving. *)
Definition passing_state : Type := Kernel * list use * list InFlightFd.

Inductive passing : passing_state -> passing_state -> Prop :=
| PPipe cap k own fds :
    load k own (fds_uses fds) + 2 <= u32_max ->
    passing (k, own, fds) ((pipe_alloc cap k).2, UPipe (pipe_alloc cap k).1 (RefRead false) :: UPipe (pipe_alloc cap k).1 RefWrite :: own, fds)
| POpen h k own fds :
    UHandle h ∉ all_uses k own (fds_uses fds) -> load k own (fds_uses fds) < u32_max ->
    passing (k, own, fds) (k, UHandle h :: own, fds)
| PCloseEnd i kind k own own' fds :
    own ≡ₚ UPipe i kind :: own' ->
    passing (k, own, fds) (pipe_free i (pipe_do i (close_reference kind) k), own', fds)
| PCloseHandle h k own own' fds :
    own ≡ₚ UHandle h :: own' ->
    passing (k, own, fds) (with_handles k (host_handle_close_ref (k_handles k) h).2, own', fds)
| PRetain grown alloc_ok fd k own fds :
    fd_owns_reference fd = false -> (forall u, u ∈ release_uses (release_metadata fd) -> u ∈ own) ->
    load k own (fds_uses fds) + 2 <= u32_max ->
    passing (k, own, fds)
      ((retain_reference grown alloc_ok fd k).2, own, match (retain_reference grown alloc_ok fd k).1 with Ok fd' => fd' :: fds | Err _ => fds end)
| PQueue idx batch k own fds fds' :
    fds ≡ₚ batch ++ fds' ->
    passing (k, own, fds) ((queue_message idx batch k).2, own, fds')
| PReceive idx k own fds :
    passing (k, own, fds) ((pop_message idx k).2, own, List.filter fd_owns_reference (pop_message idx k).1 ++ fds)
| PAdopt fd k own fds fds' :
    fds ≡ₚ fd :: fds' ->
    passing (k, own, fds) ((transfer_reference fd k).2, release_uses (release_metadata fd) ++ own, fds')
| PDrop fd k own fds fds' :
    fds ≡ₚ fd :: fds' ->
    passing (k, own, fds) (drop_fd fd k, own, fds')
| PRelease k own fds :
    passing (k, own, fds) (release_next k, own, fds).

Lemma passing_perm k own own' fds fds' : own ≡ₚ own' -> fds ≡ₚ fds' -> passing_ok k own fds -> passing_ok k own' fds'.
Proof.
  intros Ho Hf [H1 H2 H3 H4]. split; [|by eapply transit_perm|done|by rewrite <- Hf]. eapply accounts_perm; [exact Ho| |exact H1].
  unfold fds_uses. by rewrite Hf.
Qed.

Lemma passing_step_ok k own fds k' own' fds' :
  passing (k, own, fds) (k', own', fds') -> passing_ok k own fds -> passing_ok k' own' fds'.
Proof.
  inversion 1; subst; intros Hok.
  - pose proof (pipe_alloc_ok cap k own fds' Hok) as Hp. destruct (pipe_alloc cap k). by apply Hp.
  - destruct Hok as [A1 A2 A3 A4]. split; [by apply handle_open_accounts|done..].
  - eapply passing_perm in Hok; [|eassumption|reflexivity]. destruct Hok as [A1 A2 A3 A4]. split; [|..|done].
    + eapply pipe_close_accounts; [exact A1|apply (good_ref_step (RClose kind))|done].
    + apply pipe_free_transit, pipe_do_transit; [apply (good_ref_step (RClose kind))|done].
    + apply slots_pipe_free, slots_pipe_do; [apply (good_ref_step (RClose kind))|done].
  - eapply passing_perm in Hok; [|eassumption|reflexivity]. destruct Hok as [A1 A2 A3 A4].
    pose proof (handle_close_accounts k own' (fds_uses fds') h A1) as Hc. destruct (host_handle_close_ref (k_handles k) h) as [l hs].
    destruct Hc as [Hc _]. split; [done|by eapply transit_same, A2|done|done].
  - destruct Hok as [A1 A2 A3 A4].
    assert (forall u, u ∈ release_uses (release_metadata fd) -> u ∈ all_uses k own' (fds_uses fds)) as Hin by (intros u Hu; unfold all_uses; set_solver).
    pose proof (retain_reference_ok grown alloc_ok k own' fds fd A1 A2 ltac:(assumption) Hin ltac:(assumption)) as Hr.
    pose proof (retain_reference_slots grown alloc_ok fd k A3) as Hs. destruct (retain_reference grown alloc_ok fd k) as [[fd'|e] k'].
    + destruct Hr as (-> & Hr1 & Hr2). split; [done..|]. by constructor.
    + destruct Hr as [Hr1 Hr2]. by split.
  - eapply passing_perm in Hok; [|reflexivity|eassumption]. destruct Hok as [A1 A2 A3 A4]. apply Forall_app in A4 as [A4 A5].
    destruct (queue_message_ok idx batch k own' fds' A4 A1 A2) as [A6 A7]. split; [done|done|by apply queue_message_slots|done].
  - destruct Hok as [A1 A2 A3 A4]. pose proof (pop_message_ok idx k own' fds A1 A2) as Hp. pose proof (pop_message_slots idx k A3) as Hs.
    destruct (pop_message idx k) as [batch k']. destruct Hp as [Hp1 Hp2]. split; [done|done|done|]. apply Forall_app. split; [|done].
    apply Forall_forall. intros x Hx. by apply elem_of_filter_bool in Hx as [_ ?].
  - eapply passing_perm in Hok; [|reflexivity|eassumption]. destruct Hok as [A1 A2 A3 A4]. apply Forall_cons in A4 as [A4 A5].
    destruct (transfer_reference_ok k own fd fds' A1 A2 A4) as [A6 A7]. split; [done|done| |done]. unfold transfer_reference. rewrite A4. by apply transfer_resource_slots.
  - eapply passing_perm in Hok; [|reflexivity|eassumption]. destruct Hok as [A1 A2 A3 A4]. apply Forall_cons in A4 as [A4 A5].
    destruct (drop_fd_ok k own' fd fds' A1 A2 A4) as [A6 A7]. by split.
  - destruct Hok as [A1 A2 A3 A4]. unfold release_next. destruct (pop_deferred_in_flight_release (w_deferred (k_world k))) as [[r|] q] eqn:Ep; [|by split].
    destruct (pop_deferred_ok k own' fds' r q A1 A2 Ep) as (A5 & A6 & _). split; [by apply release_deferred_accounts|by apply release_deferred_transit|by apply release_deferred_slots|done].
Qed.

(** The machine at start. *)
Definition boot_kernel : Kernel :=
  mkKernel table_new (mkWorld WAKEUP_BUFFER [] (mkDeferred [] 0)) ∅ (replicate MAX_PTYS None) (mkBackings sb_new sb_new sb_new sb_new sb_new sb_new)
    inet_new [] ∅ unix_new mq_new ps_new registry_new 0.

Lemma boot_passing : passing_ok boot_kernel [] [].
Proof.
  assert (all_uses boot_kernel [] [] = []) as Hz by done. unfold all_uses in Hz. cbn [app] in Hz.
  split; [|split; [by repeat constructor|done|done]|apply table_new_slots|done].
  split; change (fds_uses []) with (@nil use); cbn [app]; rewrite ?Hz.
  - change (in_transit boot_kernel) with (@nil use). change (pending boot_kernel) with (@nil use). split; intros i; by destruct i.
  - split; [by intros [] [|]|]. by intros [[] [|]].
  - by apply (handles_agree_ext _ (fun _ => 0)); [|intros h; cbn [boot_kernel k_handles k_net_handles]; rewrite lookup_empty; unfold u32_max; lia].
  - intros i. assert (get_pty (k_ptys boot_kernel) i = None) as ->; [|done]. unfold get_pty. destruct (MAX_PTYS <=? i)%nat; [done|]. cbn [boot_kernel k_ptys].
    destruct (replicate MAX_PTYS None !! i) as [x|] eqn:E; [|done]. by apply lookup_replicate in E as [-> _].
  - intros i. by destruct i.
  - by apply (handles_agree_ext _ (fun _ => 0)); [|intros h; cbn [boot_kernel k_handles k_net_handles]; rewrite lookup_empty; unfold u32_max; lia].
  - done.
Qed.

Lemma run_passing_ok s k own fds : rtc passing s (k, own, fds) -> (let '(k0, own0, fds0) := s in passing_ok k0 own0 fds0) -> passing_ok k own fds.
Proof.
  remember (k, own, fds) as s' eqn:E. intros Hr. revert k own fds E. induction Hr as [|[[k1 own1] fds1] [[k2 own2] fds2] z Hstep Hr IH]; intros k own fds ->; [done|].
  intros Hok. eapply IH; [done|]. by eapply passing_step_ok.
Qed.

(** C18: Passing descriptors between processes neither loses nor duplicates a
    reference.  From an empty machine, after any sequence of pipe creations,
    opens, closes, sends (with every failure of an allocation on the way),
    receives, adoptions, drops and deferred releases, in any order, the ends of
    every pipe count exactly the holders: the processes, the code that is sending
    or receiving, the queued messages and the deferred records; the in-flight
    counts are those in transit; a shared host handle counts its holders; nobody
    holds a pipe that is gone; and every descriptor in transit has one reference
    on its description and one reserved place for its release. *)
Theorem descriptor_passing_conserved k own fds :
  rtc passing (boot_kernel, [], []) (k, own, fds) ->
  let holders := all_uses k own (fds_uses fds) in
  let transit := fds_uses fds ++ in_transit k in
  (forall i p, table_get (k_pipes k) i = Some p ->
     p_read_count p = readers (tally_of i holders) /\ p_write_count p = writers (tally_of i holders) /\
     p_in_flight_read_count p = readers (tally_of i transit) /\ p_in_flight_write_count p = writers (tally_of i transit)) /\
  (forall i kind, UPipe i kind ∈ holders -> is_Some (table_get (k_pipes k) i)) /\
  (forall h, match k_handles k !! h with Some c => c = count (UHandle h) holders | None => count (UHandle h) holders <= 1 end) /\
  (forall id, refs_of (w_in_flight (k_world k)) id = owned_refs id (fds ++ queued (k_pipes k))) /\
  dq_reserved (w_deferred (k_world k)) = length (fds ++ queued (k_pipes k)).
Proof.
  intros Hr holders transit. pose proof (run_passing_ok _ _ _ _ Hr boot_passing) as [Ha [T1 T2 T3] _ _]. split_and!; [| | |done|done].
  - intros i p Hp. pose proof (po_live _ _ _ (ac_pipes _ _ _ Ha) i p Hp) as [_ _ E1 E2 E3 E4 _ _]. cbn [fst snd] in *.
    assert (forall kd, tally_of i holders kd = tally_of i (own ++ pending k) kd + tally_of i transit kd) as Et.
    { intros kd. subst holders transit. unfold tally_of, all_uses. rewrite !count_app. lia. }
    unfold readers, writers in *. rewrite !Et. fold transit in E1, E2, E3, E4. lia.
  - intros i kind Hin. by eapply pipe_use_live.
  - intros h. destruct (ac_handles _ _ _ Ha h) as [_ Hh]. fold (all_uses k own (fds_uses fds)) in Hh. fold holders in Hh.
    destruct (k_handles k !! h); [by destruct Hh|done].
Qed.

End resources.

(** The write end of one pipe sent over another, its own end closed, and the
    carrier closed before anybody receives: the release ends the stream. *)
Definition sent_write_end : InFlightFd := mkInFlight 7 None Ofd.Pipe 1 (-1) 0 [] (Some RefWrite) None false.
Definition passing_k1 : Kernel := (pipe_alloc 4 (pipe_alloc 4 boot_kernel).2).2.
Definition passing_k2 : Kernel := (retain_reference true true sent_write_end passing_k1).2.
Definition passing_k3 : Kernel := (queue_message 1 [set_owns sent_write_end true] passing_k2).2.
Definition passing_k4 : Kernel := pipe_free 0 (pipe_do 0 (close_reference RefWrite) passing_k3).
Definition passing_k5 : Kernel := pipe_free 1 (pipe_do 1 (close_reference (RefRead false)) passing_k4).
Definition passing_k6 : Kernel := release_next passing_k5.


(** A step to a state that computes to the given one. *)
Lemma passing_to `{Usize} s1 s2 s3 s : passing s1 s2 -> s2 = s3 -> rtc passing s3 s -> rtc passing s1 s.
Proof. intros Hs -> Hr. by eapply rtc_l. Qed.

Definition passing_own : list use := [UPipe 1 (RefRead false); UPipe 1 RefWrite; UPipe 0 (RefRead false); UPipe 0 RefWrite].

Lemma passing_sample_run : rtc passing (boot_kernel, [], []) (passing_k6, [UPipe 1 RefWrite; UPipe 0 (RefRead false)], []).
Proof.
  eapply (passing_to _ _ ((pipe_alloc 4 boot_kernel).2, [UPipe 0 (RefRead false); UPipe 0 RefWrite], [])); [apply (PPipe 4); vm_compute; done|vm_compute; reflexivity|].
  eapply (passing_to _ _ (passing_k1, passing_own, [])); [apply (PPipe 4); vm_compute; done|vm_compute; reflexivity|].
  eapply (passing_to _ _ (passing_k2, passing_own, [set_owns sent_write_end true]));
    [apply (PRetain true true sent_write_end); [done|intros u Hu; vm_compute in Hu; unfold passing_own; set_solver|vm_compute; done]|vm_compute; reflexivity|].
  eapply (passing_to _ _ (passing_k3, passing_own, [])); [apply (PQueue 1 [set_owns sent_write_end true] _ _ _ []); reflexivity|vm_compute; reflexivity|].
  eapply (passing_to _ _ (passing_k4, [UPipe 1 (RefRead false); UPipe 1 RefWrite; UPipe 0 (RefRead false)], []));
    [apply (PCloseEnd 0 RefWrite); symmetry; apply (Permutation_cons_append [UPipe 1 (RefRead false); UPipe 1 RefWrite; UPipe 0 (RefRead false)])|vm_compute; reflexivity|].
  eapply (passing_to _ _ (passing_k5, [UPipe 1 RefWrite; UPipe 0 (RefRead false)], [])); [apply (PCloseEnd 1 (RefRead false)); reflexivity|vm_compute; reflexivity|].
  eapply (passing_to _ _ (passing_k6, [UPipe 1 RefWrite; UPipe 0 (RefRead false)], [])); [apply PRelease|vm_compute; reflexivity|]. apply rtc_refl.
Qed.

Lemma descriptor_passing_conserved_witness :
  (p_write_count <$> table_get (k_pipes passing_k5) 0) = Some 1 /\ (p_write_count <$> table_get (k_pipes passing_k6) 0) = Some 0 /\
  forall h, match k_handles passing_k6 !! h with Some c => c = count (UHandle h) (all_uses passing_k6 [UPipe 1 RefWrite; UPipe 0 (RefRead false)] (fds_uses [])) | None => count (UHandle h) (all_uses passing_k6 [UPipe 1 RefWrite; UPipe 0 (RefRead false)] (fds_uses [])) <= 1 end.
Proof.
  split; [vm_compute; done|]. split; [vm_compute; done|].
  exact (proj1 (proj2 (proj2 (descriptor_passing_conserved passing_k6 [UPipe 1 RefWrite; UPipe 0 (RefRead false)] [] passing_sample_run)))).
Defined.
