(* ===== verification/ProcTable.v ===== *)
(** * The process table ([crates/kernel/src/process_table.rs])

    The table of processes with the advisory locks, on top of the machine-wide
    tables of [Kernel]: creation, fork, the child a [posix_spawn] starts from,
    removal and reaping with the release of every shared resource, limbo
    records of group leaders, and the selection of wait events.

    A [BTreeMap] is a finite map whose iteration is in the order of its keys.
    Functions of the source that panic when the description identities are
    exhausted return an [option].  The deferred-release loop runs on fuel;
    [Lifecycle.v] shows that the number of queued descriptors is enough.

    The theorems of this file: a wait selects the lowest matching child with a
    matching event, consumes it unless asked not to, and reports no child
    exactly when there is none, and process identifiers are fresh.  What removal
    and fork do to the resources, and limbo records, are in [Lifecycle.v]. *)

From stdpp Require Import sorting.
From S2P Require Import Prelude Bytes Abi FdTable Lock Ofd Wakeup Pipe PipeTable Memory Terminal Signal Backing Socket Names Mqueue Pshared Process Dri Spawn Codec Fork Exec Kernel.

Record ProcessTable := mkPT {
  pt_processes : gmap Z Process;
  pt_advisory_locks : AdvisoryLockManager;
  pt_current_pid : Z;
  pt_next_spawn_pid : Z;
  pt_current_tid : Z;
}.

Definition proc_table_new : ProcessTable := mkPT ∅ Lock.new 0 2 0.

Definition with_processes (t : ProcessTable) (m : gmap Z Process) : ProcessTable :=
  mkPT m (pt_advisory_locks t) (pt_current_pid t) (pt_next_spawn_pid t) (pt_current_tid t).
Definition with_locks (t : ProcessTable) (l : AdvisoryLockManager) : ProcessTable :=
  mkPT (pt_processes t) l (pt_current_pid t) (pt_next_spawn_pid t) (pt_current_tid t).

Definition set_current_pid (t : ProcessTable) (pid : Z) : ProcessTable :=
  mkPT (pt_processes t) (pt_advisory_locks t) pid (pt_next_spawn_pid t) (pt_current_tid t).
Definition set_current_tid (t : ProcessTable) (tid : Z) : ProcessTable :=
  mkPT (pt_processes t) (pt_advisory_locks t) (pt_current_pid t) (pt_next_spawn_pid t) tid.

Definition INITIAL_FORK_STATE_BUFFER_LEN : Z := 64 * 1024.
Definition MAX_FORK_STATE_BUFFER_LEN : Z := 4 * 1024 * 1024.

(** The process table and the machine. *)
Record Machine := mkMachine { m_table : ProcessTable; m_kernel : Kernel }.

Abbreviation processes m := (pt_processes (m_table m)).

(** [proc.ofd_table.iter()], without the indices. *)
Definition ofds (p : Process) : list OpenFileDesc := (Ofd.iter (pr_ofd_table p)).*2.

(** [for sock_idx in 0..sockets.len() { if let Some(sock) = sockets.get(sock_idx) }]. *)
Definition socket_entries (p : Process) : list (nat * SocketInfo) := slots_from 0 (pr_sockets p).

Definition is_handle_type (ft : FileType) : bool := bool_decide (ft ∈ [Regular; Directory; CharDevice; Ofd.Pipe]).

Section table.
Context `{Usize} `{heap : Heap}.

(** ** References of an inherited process *)

(** The loop over the descriptor backings; the second result lists the ones
    bumped, which a failure releases in reverse order. *)
Fixpoint bump_backings (l : list OpenFileDesc) (bumped : list (FileType * Z)) (b : Backings) : kresult unit * Backings :=
  match l with
  | [] => (Ok tt, b)
  | o :: l' =>
      match add_ref_for_ofd b (file_type o) (host_handle o) with
      | (Ok true, b') => bump_backings l' (vec_push bumped (file_type o, host_handle o)) b'
      | (Ok false, b') => bump_backings l' bumped b'
      | (Err e, b') => (Err e, release_backings b' (rev bumped))
      end
  end.

Definition bump_pipe (k : Kernel) (o : OpenFileDesc) : Kernel :=
  if bool_decide (file_type o = Ofd.Pipe) && (host_handle o <? 0) then
    let idx := neg_index (host_handle o) in
    match table_get (k_pipes k) idx with
    | Some p => match reference_kind p (status_flags o) with Some kind => pipe_do idx (add_reference kind) k | None => k end
    | None => k
    end
  else k.

Definition bump_handle (k : Kernel) (o : OpenFileDesc) : Kernel :=
  if (0 <=? host_handle o) && is_handle_type (file_type o) then with_handles k (host_handle_fork_ref (k_handles k) (host_handle o)) else k.

(** [+= 1] on a [u32]. *)
Definition bump_pty (k : Kernel) (o : OpenFileDesc) : Kernel :=
  match file_type o with
  | PtyMaster =>
      match get_pty (k_ptys k) (usize_index (host_handle o)) with
      | Some p => put_pty k (usize_index (host_handle o)) (with_pty_refs p (u32_wrap (master_refs p + 1)) (slave_refs p))
      | None => k
      end
  | PtySlave =>
      match get_pty (k_ptys k) (usize_index (host_handle o)) with
      | Some p => put_pty k (usize_index (host_handle o)) (with_pty_refs p (master_refs p) (u32_wrap (slave_refs p + 1)))
      | None => k
      end
  | _ => k
  end.

(** The socket a description refers to. *)
Definition socket_of_ofd (p : Process) (o : OpenFileDesc) : option SocketInfo :=
  if bool_decide (file_type o = Socket) && (host_handle o <? 0) then socket_get (pr_sockets p) (neg_index (host_handle o)) else None.

Definition bump_socket_pipes (child : Process) (k : Kernel) (o : OpenFileDesc) : Kernel :=
  match socket_of_ofd child o with
  | Some s => if sk_global_pipes s then opt_pipe_do (sk_recv_buf_idx s) add_reader (opt_pipe_do (sk_send_buf_idx s) add_writer k) else k
  | None => k
  end.

Definition bump_socket (parent_pid child_pid : Z) (k : Kernel) (x : nat * SocketInfo) : Kernel :=
  let k := with_tables k (inherit_inet_binding_owners (k_inet k) parent_pid child_pid x.1) (k_unix k) (k_mqueues k) (k_pshared k) in
  let k := match sk_shared_backlog_idx x.2 with Some i => with_backlogs k (backlog_add_ref (k_backlogs k) i) | None => k end in
  let k := match sk_host_net_handle x.2 with Some h => with_net_handles k (host_net_handle_fork_ref (k_net_handles k) h) | None => k end in
  match sk_bind_path x.2 with
  | Some path => with_tables k (k_inet k) (add_owner (k_unix k) path child_pid x.1).2 (k_mqueues k) (k_pshared k)
  | None => k
  end.

Definition bump_inherited_resource_refcounts (parent_pid : Z) (child : Process) (k : Kernel) : kresult unit * Kernel :=
  match bump_backings (ofds child) [] (k_backings k) with
  | (Err e, b) => (Err e, with_backings k b)
  | (Ok _, b) =>
      let k := with_backings k b in
      let k := fold_left bump_pipe (ofds child) k in
      let k := fold_left bump_handle (ofds child) k in
      let k := fold_left bump_pty (ofds child) k in
      let k := fold_left (bump_socket_pipes child) (ofds child) k in
      (Ok tt, fold_left (bump_socket parent_pid (pr_pid child)) (socket_entries child) k)
  end.

(** ** Creation *)

Definition with_init_argv (p : Process) : Process := with_argv p (vec_push (pr_argv p) [105; 110; 105; 116]).

(** [Process::new(1)] sets [ppid] to 0 already. *)
Definition ensure_init (m : Machine) : option Machine :=
  match processes m !! 1 with
  | Some _ => Some m
  | None =>
      match process_new (k_last_ofd_id (m_kernel m)) 1 with
      | Some (p, last) =>
          Some (mkMachine (with_processes (m_table m) (<[1 := with_init_argv p]> (processes m)))
                  (with_identities (m_kernel m) (k_registry (m_kernel m)) last))
      | None => None
      end
  end.

(** [Err (())] of the source is [false]. *)
Definition create_process_with_stdio (m : Machine) (pid : Z) (stdio : StdioConfig) : option (bool * Machine) :=
  match ensure_init m with
  | None => None
  | Some m =>
      match processes m !! pid with
      | Some _ => Some (false, m)
      | None =>
          match new_with_stdio (k_last_ofd_id (m_kernel m)) pid stdio with
          | Some (p, last) =>
              Some (true, mkMachine (with_processes (m_table m) (<[pid := p]> (processes m)))
                            (with_identities (m_kernel m) (k_registry (m_kernel m)) last))
          | None => None
          end
      end
  end.

Definition create_process (m : Machine) (pid : Z) : option (bool * Machine) := create_process_with_stdio m pid stdio_captured.

(** ** Fork *)

Definition has_ended (p : Process) : bool := bool_decide (pr_state p = Exited \/ pr_state p = Limbo).

Definition serialize_fork_state_with_growing_buffer (parent : Process) : option (kresult bytes) :=
  grow GROW_FUEL (serialize_fork_state parent) MAX_FORK_STATE_BUFFER_LEN INITIAL_FORK_STATE_BUFFER_LEN.

(** One descriptor of the child in the table of [(read_fd, write_fd)] pairs. *)
Definition replay_step (pipes : PipeTable) (child : Process) (acc : gmap Z (Z * Z)) (x : Z * FdEntry) : gmap Z (Z * Z) :=
  match Ofd.get (pr_ofd_table child) (ofd_ref x.2) with
  | Some o =>
      if bool_decide (file_type o = Ofd.Pipe) && (host_handle o <? 0) then
        let idx := neg_index (host_handle o) in
        if match table_get pipes idx with Some p => p_is_fifo p | None => false end then acc
        else
          let pair := default (-1, -1) (acc !! Z.of_nat idx) in
          <[Z.of_nat idx := if Z.land (status_flags o) O_ACCMODE =? O_RDONLY then (x.1, pair.2) else (pair.1, x.1)]> acc
      else acc
  | None => acc
  end.

Definition build_fork_pipe_replay (pipes : PipeTable) (child : Process) : list (Z * Z) :=
  (btree_iter (fold_left (replay_step pipes child) (FdTable.iter (pr_fd_table child)) ∅)).*2.

Definition with_replay (p : Process) (l : list (Z * Z)) : Process :=
  mkProcess (pr_pid p) (pr_ppid p) (pr_uid p) (pr_gid p) (pr_euid p) (pr_egid p) (pr_pgid p) (pr_sid p) (pr_is_session_leader p)
    (pr_state p) (pr_exit_status p) (pr_exit_signal p) (pr_wait_event p) (pr_fd_table p) (pr_ofd_table p) (pr_pipes p) (pr_sockets p)
    (pr_cwd p) (pr_dir_streams p) (pr_signals p) (pr_main_thread_signals p) (pr_memory p) (pr_terminal p) (pr_environ p) (pr_argv p)
    (pr_umask p) (pr_nice p) (pr_rlimits p) (pr_alarm_deadline_ns p) (pr_alarm_interval_ns p) (pr_thread_name p) (pr_fork_child p)
    (pr_sigsuspend_saved_mask p) (pr_fork_exec_path p) (pr_fork_exec_argv p) (pr_fork_fd_actions p) (pr_next_ephemeral_port p)
    (pr_threads p) (pr_next_tid p) (pr_epolls p) (pr_posix_timers p) (pr_alt_stack_sp p) (pr_alt_stack_flags p) (pr_alt_stack_size p)
    (pr_alt_stack_depth p) l (pr_has_exec p) (pr_fb_binding p) (pr_dri_bindings p) (pr_fork_count p).

(** [None] when the reader panics or the fuel of the writer runs out. *)
Definition fork_process (m : Machine) (parent_pid child_pid : Z) : option (kresult unit * Machine) :=
  match processes m !! child_pid with
  | Some _ => Some (Err EEXIST, m)
  | None =>
      match processes m !! parent_pid with
      | None => Some (Err ESRCH, m)
      | Some parent =>
          if has_ended parent then Some (Err ESRCH, m)
          else
            match serialize_fork_state_with_growing_buffer parent with
            | None => None
            | Some (Err e) => Some (Err e, m)
            | Some (Ok image) =>
                let k := m_kernel m in
                let '(o, g) := deserialize_fork_state image child_pid (mkGlobals (k_registry k) (k_last_ofd_id k)) in
                let k := with_identities k (g_registry g) (g_last_ofd_id g) in
                match o with
                | Panic => None
                | Refused e => Some (Err e, mkMachine (m_table m) k)
                | Ret child =>
                    match bump_inherited_resource_refcounts parent_pid child k with
                    | (Err e, k) => Some (Err e, mkMachine (m_table m) k)
                    | (Ok _, k) =>
                        let child := with_replay child (build_fork_pipe_replay (k_pipes k) child) in
                        Some (Ok tt, mkMachine (with_processes (m_table m)
                                (<[parent_pid := increment_fork_count parent]> (<[child_pid := child]> (processes m)))) k)
                    end
                end
            end
      end
  end.

Definition insert_legacy_fork_process (m : Machine) (child : Process) : kresult unit * Machine :=
  match processes m !! pr_pid child with
  | Some _ => (Err EEXIST, m)
  | None =>
      let insert k := (Ok tt, mkMachine (with_processes (m_table m) (<[pr_pid child := child]> (processes m))) k) in
      match processes m !! pr_ppid child with
      | Some _ =>
          match bump_inherited_resource_refcounts (pr_ppid child) child (m_kernel m) with
          | (Err e, k) => (Err e, mkMachine (m_table m) k)
          | (Ok _, k) => insert k
          end
      | None =>
          if existsb (fun o => manages_ofd (file_type o) (host_handle o)) (ofds child) then (Err EBADF, m) else insert (m_kernel m)
      end
  end.

(** ** Removal *)

Definition close_pipe_ofd (k : Kernel) (o : OpenFileDesc) : Kernel :=
  if bool_decide (file_type o = Ofd.Pipe) && (host_handle o <? 0) then
    let idx := neg_index (host_handle o) in
    let k := match table_get (k_pipes k) idx with
             | Some p => match reference_kind p (status_flags o) with Some kind => pipe_do idx (close_reference kind) k | None => k end
             | None => k
             end in
    pipe_free idx k
  else k.

Definition close_pty_ofd (k : Kernel) (o : OpenFileDesc) : Kernel :=
  match file_type o with
  | PtyMaster => pty_close (usize_index (host_handle o)) true k
  | PtySlave => pty_close (usize_index (host_handle o)) false k
  | _ => k
  end.

Definition release_backing_ofd (k : Kernel) (o : OpenFileDesc) : Kernel :=
  with_backings k (release_for_ofd (k_backings k) (file_type o) (host_handle o)).2.

(** The host handles to close, file and directory, in the order found. *)
Definition close_handle_ofd (s : Kernel * list Z * list Z) (o : OpenFileDesc) : Kernel * list Z * list Z :=
  let '(k, closes, dirs) := s in
  let dirs := if 0 <=? dir_host_handle o then vec_push dirs (dir_host_handle o) else dirs in
  if (0 <=? host_handle o) && is_handle_type (file_type o) then
    let '(last, hs) := host_handle_close_ref (k_handles k) (host_handle o) in
    (with_handles k hs, (if last then vec_push closes (host_handle o) else closes), dirs)
  else (k, closes, dirs).

(** A listening socket's connections that were never accepted. *)
Definition close_backlog_socket (p : Process) (k : Kernel) (idx : nat) : Kernel :=
  match socket_get (pr_sockets p) idx with
  | Some s =>
      if sk_global_pipes s then opt_pipe_close (sk_recv_buf_idx s) close_read_end (opt_pipe_close (sk_send_buf_idx s) close_write_end k) else k
  | None => k
  end.

Definition is_tcp (s : SocketInfo) : bool :=
  match sk_domain s, sk_type s with (Inet | Inet6), Stream => true | _, _ => false end.

Definition close_socket_ofd (p : Process) (k : Kernel) (o : OpenFileDesc) : Kernel :=
  match socket_of_ofd p o with
  | Some s =>
      let k :=
        if sk_global_pipes s then
          opt_pipe_close (sk_recv_buf_idx s) (if is_tcp s then close_read_end_orderly else close_read_end)
            (opt_pipe_close (sk_send_buf_idx s) close_write_end k)
        else k in
      fold_left (close_backlog_socket p) (sk_listen_backlog s) k
  | None => k
  end.

(** [dec_ref] of an accept queue closes the connections left when it was the
    last. *)
Definition backlog_close (idx : nat) (k : Kernel) : Kernel :=
  let '(l, (t, es)) := backlog_dec_ref (k_backlogs k) (k_pipes k) idx in
  with_backlogs (with_pipe_table k t (run_effects (k_world k) es)) l.

Definition close_socket_entry (s : Kernel * list Z) (x : nat * SocketInfo) : Kernel * list Z :=
  let '(k, closes) := s in
  let k := match sk_shared_backlog_idx x.2 with Some i => backlog_close i k | None => k end in
  match sk_host_net_handle x.2 with
  | Some h =>
      let '(last, hs) := host_net_handle_close_ref (k_net_handles k) h in
      (with_net_handles k hs, if last then vec_push closes h else closes)
  | None => (k, closes)
  end.

Definition cleanup_tables (pid : Z) (k : Kernel) : Kernel :=
  let n := k_inet k in
  with_tables k
    (mkInet (udp_cleanup_process (UDP_ENDPOINTS n) pid) (udp6_cleanup_process (UDP6_ENDPOINTS n) pid)
       (tcp_cleanup_process (TCP_BINDINGS n) pid) (tcp6_cleanup_process (TCP6_BINDINGS n) pid))
    (unix_cleanup_process (k_unix k) pid) (cleanup_process (k_mqueues k) pid) (ps_cleanup_process (k_pshared k) pid).

(** The locks released while the deferred queue is drained, and whether any
    changed. *)
Record Drained := mkDrained { dr_kernel : Kernel; dr_locks : AdvisoryLockManager; dr_closes : list Z; dr_changed : bool }.

(** [while let Some(release) = pop_deferred_in_flight_release()]; [None] when the
    fuel runs out. *)
Fixpoint drain_deferred (fuel : nat) (d : Drained) : option Drained :=
  match fuel with
  | O => None
  | S fuel' =>
      let k := dr_kernel d in
      match pop_deferred_in_flight_release (w_deferred (k_world k)) with
      | (None, _) => Some d
      | (Some r, q) =>
          let '(rel, k) := release_deferred_in_flight_resource r (on_deferred (fun _ => q) k) in
          let closes := match rf_host_close rel with Some h => vec_push (dr_closes d) h | None => dr_closes d end in
          if rf_final_ofd_reference rel then
            let '(locks, mu) := remove_ofd (dr_locks d) (rf_ofd_id rel) in
            drain_deferred fuel' (mkDrained k locks closes (dr_changed d || changed mu))
          else drain_deferred fuel' (mkDrained k (dr_locks d) closes (dr_changed d))
      end
  end.

Definition drain_fuel (k : Kernel) : nat := S (length (queued (k_pipes k)) + length (dq_records (w_deferred (k_world k)))).

(** [other.ofd_table.iter().any(|candidate| candidate.ofd_id == id)]. *)
Definition refers_to (id : Z) (p : Process) : bool := existsb (fun o => ofd_id o =? id) (ofds p).

Definition still_referenced (others : gmap Z Process) (k : Kernel) (id : Z) : bool :=
  existsb (fun x => refers_to id x.2) (btree_iter others) || has_in_flight_ofd (w_in_flight (k_world k)) id.

(** The loop over the descriptions of the process. *)
Fixpoint release_ofd_locks (others : gmap Z Process) (k : Kernel) (l : list OpenFileDesc) (s : AdvisoryLockManager * bool)
    : AdvisoryLockManager * bool :=
  match l with
  | [] => s
  | o :: l' =>
      if still_referenced others k (ofd_id o) then release_ofd_locks others k l' s
      else let '(locks, mu) := remove_ofd s.1 (ofd_id o) in release_ofd_locks others k l' (locks, s.2 || changed mu)
  end.

Definition group_has_member (m : gmap Z Process) (pgid : Z) : bool :=
  existsb (fun x => negb (x.1 =? pgid) && (pr_pgid x.2 =? pgid) && bool_decide (pr_state x.2 <> Limbo)) (btree_iter m).

(** [Process::new(proc.pid)] takes three description identities, which the
    descriptions it creates do not outlive. *)
Definition limbo_process_from (last_ofd_id : Z) (p : Process) : option (Process * Z) :=
  match process_new last_ofd_id (pr_pid p) with
  | None => None
  | Some (l, last) =>
      Some (mkProcess (pr_pid l) (pr_ppid p) (pr_uid p) (pr_gid p) (pr_euid p) (pr_egid p) (pr_pgid p) (pr_sid p) (pr_is_session_leader p)
              Limbo (pr_exit_status p) (pr_exit_signal p) (pr_wait_event l) FdTable.new Ofd.new (pr_pipes l) (pr_sockets l)
              (pr_cwd p) (pr_dir_streams l) (pr_signals l) (pr_main_thread_signals l) (pr_memory l) (pr_terminal l) (pr_environ p)
              (pr_argv p) (pr_umask p) (pr_nice p) (pr_rlimits p) (pr_alarm_deadline_ns l) (pr_alarm_interval_ns l) (pr_thread_name p)
              (pr_fork_child l) (pr_sigsuspend_saved_mask l) (pr_fork_exec_path l) (pr_fork_exec_argv l) (pr_fork_fd_actions l)
              (pr_next_ephemeral_port l) (pr_threads l) (pr_next_tid l) (pr_epolls l) (pr_posix_timers l) (pr_alt_stack_sp l)
              (pr_alt_stack_flags l) (pr_alt_stack_size l) (pr_alt_stack_depth l) (pr_fork_pipe_replay l) (pr_has_exec p)
              (pr_fb_binding l) (pr_dri_bindings l) (pr_fork_count l), last)
  end.

Record RemoveProcessResult := mkRemoved {
  rm_process : Process; rm_host_closes : list Z; rm_host_dir_closes : list Z; rm_host_net_closes : list Z;
}.

(** The resources of the process, up to the deferred queue. *)
Definition teardown (p : Process) (pid : Z) (k : Kernel) : Kernel * list Z * list Z * list Z :=
  let k := on_pipes (fun t => (table_cancel_fifo_opens_for_process t pid).2) k in
  let k := fold_left close_pipe_ofd (ofds p) k in
  let k := fold_left close_pty_ofd (ofds p) k in
  let k := fold_left release_backing_ofd (ofds p) k in
  let '(k, closes, dirs) := fold_left close_handle_ofd (ofds p) (k, [], []) in
  let dirs := dirs ++ (ds_host_handle <$> omap id (pr_dir_streams p)) in
  let k := fold_left (close_socket_ofd p) (ofds p) k in
  let '(k, nets) := fold_left close_socket_entry (socket_entries p) (k, []) in
  (cleanup_tables pid k, closes, dirs, nets).

Definition wake_locks (k : Kernel) : Kernel :=
  with_world k (mkWorld (push_advisory_lock (w_wakeups (k_world k))) (w_in_flight (k_world k)) (w_deferred (k_world k))).

Definition remove_process_inner (m : Machine) (pid : Z) (retain_limbo_leader : bool) : option (option RemoveProcessResult * Machine) :=
  match processes m !! pid with
  | None => Some (None, m)
  | Some p =>
      let others := delete pid (processes m) in
      let '(k, closes, dirs, nets) := teardown p pid (m_kernel m) in
      match drain_deferred (drain_fuel k) (mkDrained k (pt_advisory_locks (m_table m)) closes false) with
      | None => None
      | Some d =>
          let k := dr_kernel d in
          let '(locks, mu) := remove_process (dr_locks d) pid in
          let '(locks, changed) := release_ofd_locks others k (ofds p) (locks, dr_changed d || changed mu) in
          let k := if changed then wake_locks k else k in
          let result := mkRemoved p (dr_closes d) dirs nets in
          let answer ps k := Some (Some result, mkMachine (with_locks (with_processes (m_table m) ps) locks) k) in
          if retain_limbo_leader && (pr_pgid p =? pid) && group_has_member others pid then
            match limbo_process_from (k_last_ofd_id k) p with
            | Some (l, last) => answer (<[pid := l]> others) (with_identities k (k_registry k) last)
            | None => None
            end
          else answer others k
      end
  end.

Definition is_empty_limbo (m : gmap Z Process) (x : Z * Process) : bool :=
  bool_decide (pr_state x.2 = Limbo) && (pr_pgid x.2 =? x.1) && negb (group_has_member m x.1).

Definition prune_empty_limbo_groups (m : gmap Z Process) : gmap Z Process :=
  fold_left (fun acc x => delete x.1 acc) (List.filter (is_empty_limbo m) (btree_iter m)) m.

Definition with_pruned (m : Machine) : Machine := mkMachine (with_processes (m_table m) (prune_empty_limbo_groups (processes m))) (m_kernel m).

(** A missing process leaves by [?] before the pruning. *)
Definition finish_removal (r : option (option RemoveProcessResult * Machine)) : option (option RemoveProcessResult * Machine) :=
  match r with
  | Some (Some result, m) => Some (Some result, with_pruned m)
  | r => r
  end.

Definition remove_process_of (m : Machine) (pid : Z) := finish_removal (remove_process_inner m pid false).
Definition reap_process (m : Machine) (pid : Z) := finish_removal (remove_process_inner m pid true).

(** ** Identifiers *)

(** [while contains_key(&pid) { pid += 1 }]; the fuel is one more than the number
    of processes. *)
Fixpoint next_free_pid (fuel : nat) (m : gmap Z Process) (pid : Z) : Z :=
  match fuel with
  | O => pid
  | S fuel' => if bool_decide (is_Some (m !! pid)) then next_free_pid fuel' m (u32_wrap (pid + 1)) else pid
  end.

Definition allocate_spawn_pid (t : ProcessTable) : Z * ProcessTable :=
  let pid := next_free_pid (S (size (pt_processes t))) (pt_processes t) (Z.max (pt_next_spawn_pid t) 2) in
  (pid, mkPT (pt_processes t) (pt_advisory_locks t) (pt_current_pid t) (Z.max (u32_saturating_add pid 1) 2) (pt_current_tid t)).

(** ** Queries *)

Definition owns_live_thread (tid : Z) (p : Process) : bool :=
  bool_decide (pr_state p = Running \/ pr_state p = Stopped) && bool_decide (is_Some (get_thread p tid)).

Definition get_process_containing_task (m : gmap Z Process) (tid : Z) : option Process :=
  match m !! tid with
  | Some p => if bool_decide (pr_state p <> Limbo) then Some p else find_first (owns_live_thread tid) (btree_iter m).*2
  | None => find_first (owns_live_thread tid) (btree_iter m).*2
  end.

Definition all_pids (m : gmap Z Process) : list Z := (btree_iter m).*1.
Definition procfs_pids (m : gmap Z Process) : list Z := (List.filter (fun x => bool_decide (pr_state x.2 <> Limbo)) (btree_iter m)).*1.
Definition pids_in_group (m : gmap Z Process) (pgid : Z) : list Z :=
  (List.filter (fun x => (pr_pgid x.2 =? pgid) && bool_decide (pr_state x.2 <> Limbo)) (btree_iter m)).*1.
Definition parent_pid (m : gmap Z Process) (pid : Z) : option Z := pr_ppid <$> m !! pid.
Definition is_exited_child_of (m : gmap Z Process) (parent child : Z) : bool :=
  match m !! child with Some p => (pr_ppid p =? parent) && bool_decide (pr_state p = Exited) | None => false end.

(** ** Waiting *)

Definition WNOWAIT : Z := 0x01000000.

(** [target_pid] is an [i32]; its negation overflows for the least one. *)
Definition child_matches_wait_target (child_pid : Z) (child : Process) (target_pid parent_pgid : Z) : bool :=
  if 0 <? target_pid then child_pid =? as_u32 target_pid
  else if target_pid =? -1 then true
  else if target_pid =? 0 then pr_pgid child =? parent_pgid
  else if target_pid =? - 2 ^ 31 then false
  else pr_pgid child =? as_u32 (- target_pid).

(** The loop over the children, in the order of their identifiers. *)
Fixpoint wait_scan (l : list (Z * Process)) (parent_pid target_pid parent_pgid event_mask : Z) (saw : bool)
    : kresult (option (Z * ChildWaitEvent)) :=
  match l with
  | [] => if saw then Ok None else Err ECHILD
  | (child_pid, child) :: l' =>
      if negb (pr_ppid child =? parent_pid) || bool_decide (pr_state child = Limbo) then
        wait_scan l' parent_pid target_pid parent_pgid event_mask saw
      else if negb (child_matches_wait_target child_pid child target_pid parent_pgid) then
        wait_scan l' parent_pid target_pid parent_pgid event_mask saw
      else
        match pr_wait_event child with
        | None => wait_scan l' parent_pid target_pid parent_pgid event_mask true
        | Some ev =>
            if Z.land (we_event_mask ev) event_mask =? 0 then wait_scan l' parent_pid target_pid parent_pgid event_mask true
            else Ok (Some (child_pid, ev))
        end
  end.

Definition VALID_EVENTS : Z := Z.lor EVENT_EXITED (Z.lor EVENT_STOPPED EVENT_CONTINUED).

Definition poll_wait_event (m : gmap Z Process) (parent_pid target_pid event_mask flags : Z)
    : kresult (option (Z * ChildWaitEvent)) * gmap Z Process :=
  if (event_mask =? 0) || negb (Z.ldiff event_mask VALID_EVENTS =? 0) || negb (Z.ldiff flags WNOWAIT =? 0) then (Err EINVAL, m)
  else
    match m !! parent_pid with
    | None => (Err ESRCH, m)
    | Some parent =>
        match wait_scan (btree_iter m) parent_pid target_pid (pr_pgid parent) event_mask false with
        | Ok (Some (pid, ev)) =>
            (Ok (Some (pid, ev)), if Z.land flags WNOWAIT =? 0 then alter (fun p => with_wait_event p None) pid m else m)
        | r => (r, m)
        end
    end.

End table.

(** ** Iteration *)

#[export] Instance by_key_trans {A} : Transitive (@by_key A).
Proof. intros x y z. unfold by_key. lia. Qed.
#[export] Instance by_key_total {A} : Total (@by_key A).
Proof. intros x y. unfold by_key. lia. Qed.

Lemma btree_iter_sorted {A} (m : gmap Z A) : StronglySorted by_key (btree_iter m).
Proof. apply StronglySorted_merge_sort; apply _. Qed.

Lemma btree_iter_keys {A} (m : gmap Z A) : NoDup (btree_iter m).*1.
Proof. rewrite btree_iter_perm. apply NoDup_fst_map_to_list. Qed.

Lemma existsb_btree {A} (f : Z * A -> bool) (m : gmap Z A) : existsb f (btree_iter m) = true <-> exists i x, m !! i = Some x /\ f (i, x) = true.
Proof.
  rewrite existsb_elem. split.
  - intros ([i x] & Hx & Hf). apply elem_of_btree_iter in Hx. eauto.
  - intros (i & x & Hx & Hf). exists (i, x). by rewrite elem_of_btree_iter.
Qed.

(** ** Waiting *)

(** What a target of [waitpid] selects, as POSIX lists it: one child, a process
    group, the group of the caller, or every child.  The group of the least
    [i32] is no group. *)
Inductive selects : Z -> Z -> Z -> Z -> Prop :=
  | SelectsChild parent_pgid pid pgid : 0 < pid -> selects pid parent_pgid pid pgid
  | SelectsOwnGroup parent_pgid pid : selects 0 parent_pgid pid parent_pgid
  | SelectsAny parent_pgid pid pgid : selects (-1) parent_pgid pid pgid
  | SelectsGroup parent_pgid pid pgid : 1 < pgid < 2 ^ 31 -> selects (- pgid) parent_pgid pid pgid.

(** A child the call may report. *)
Record waitable (m : gmap Z Process) (parent target parent_pgid pid : Z) (child : Process) : Prop := {
  wt_in : m !! pid = Some child;
  wt_parent : pr_ppid child = parent;
  wt_state : pr_state child <> Limbo;
  wt_target : selects target parent_pgid pid (pr_pgid child);
}.

Lemma matches_selects pid child target parent_pgid :
  - 2 ^ 31 <= target < 2 ^ 31 ->
  child_matches_wait_target pid child target parent_pgid = true <-> selects target parent_pgid pid (pr_pgid child).
Proof.
  intros Ht. assert (forall x, 0 <= x < 2 ^ 31 -> as_u32 x = x) as Hu by (intros x Hx; unfold as_u32; rewrite Z.mod_small; lia).
  unfold child_matches_wait_target. split.
  - repeat case_match; intros Hm; rewrite ?Hu in Hm by lia; try done.
    + assert (target = pid) as -> by lia. constructor. lia.
    + assert (target = -1) as -> by lia. constructor.
    + assert (target = 0) as -> by lia. apply Z.eqb_eq in Hm as ->. constructor.
    + assert (target = - pr_pgid child) as -> by lia. constructor. lia.
  - inversion 1; subst; repeat case_match; rewrite ?Hu by lia; lia.
Qed.

(** The event a child has to report under the mask. *)
Definition event_of (mask : Z) (child : Process) : option ChildWaitEvent :=
  match pr_wait_event child with
  | Some ev => if Z.land (we_event_mask ev) mask =? 0 then None else Some ev
  | None => None
  end.

Section wait.
Variables (parent target pgid mask : Z).

Definition eligible (x : Z * Process) : bool :=
  (pr_ppid x.2 =? parent) && bool_decide (pr_state x.2 <> Limbo) && child_matches_wait_target x.1 x.2 target pgid.

Lemma wait_scan_eq l saw :
  wait_scan l parent target pgid mask saw =
  match find_first (fun x => bool_decide (is_Some (event_of mask x.2))) (List.filter eligible l) with
  | Some x => match event_of mask x.2 with Some ev => Ok (Some (x.1, ev)) | None => Err ECHILD end
  | None => if saw || existsb eligible l then Ok None else Err ECHILD
  end.
Proof.
  revert saw. induction l as [|[pid c] l IH]; intros saw; cbn [wait_scan List.filter existsb].
  { by rewrite orb_false_r. }
  assert (eligible (pid, c) = negb (negb (pr_ppid c =? parent) || bool_decide (pr_state c = Limbo)) &&
            child_matches_wait_target pid c target pgid) as ->.
  { unfold eligible. cbn [fst snd]. rewrite bool_decide_not. destruct (pr_ppid c =? parent), (bool_decide (pr_state c = Limbo)); done. }
  destruct (negb (pr_ppid c =? parent) || bool_decide (pr_state c = Limbo)); cbn [negb andb orb]; [apply IH|].
  destruct (child_matches_wait_target pid c target pgid); cbn [negb orb]; [|apply IH].
  unfold find_first in *. cbn [List.find fst snd]. unfold event_of at 1 2. destruct (pr_wait_event c) as [ev|] eqn:E.
  - destruct (Z.land (we_event_mask ev) mask =? 0) eqn:E2.
    + rewrite bool_decide_eq_false_2 by (by intros [? ?]). rewrite IH. by rewrite orb_true_r.
    + rewrite bool_decide_eq_true_2 by eauto. unfold event_of. cbn [fst snd]. by rewrite E, E2.
  - rewrite bool_decide_eq_false_2 by (by intros [? ?]). rewrite IH. by rewrite orb_true_r.
Qed.
End wait.

Lemma find_first_least {A} (R : A -> A -> Prop) (p : A -> bool) l x y :
  StronglySorted R l -> find_first p l = Some x -> y ∈ l -> p y = true -> y = x \/ R x y.
Proof.
  induction 1 as [|a l Hs IH Hall]; [done|]. unfold find_first in *. cbn [List.find]. destruct (p a) eqn:Ea.
  - intros [= <-] [->|Hy]%elem_of_cons _; [by left|right]. by apply (proj1 (Forall_forall _ _) Hall).
  - intros Hf [->|Hy]%elem_of_cons Hp; [congruence|]. by apply IH.
Qed.

Lemma StronglySorted_filter_bool {A} (R : A -> A -> Prop) (p : A -> bool) l : StronglySorted R l -> StronglySorted R (List.filter p l).
Proof.
  induction 1 as [|a l Hs IH Hall]; cbn [List.filter]; [constructor|]. destruct (p a); [|done]. constructor; [done|].
  apply Forall_forall. intros x [Hx _]%elem_of_filter_bool. by apply (proj1 (Forall_forall _ _) Hall).
Qed.

Lemma eligible_waitable m parent target pgid pid c :
  - 2 ^ 31 <= target < 2 ^ 31 ->
  eligible parent target pgid (pid, c) = true /\ m !! pid = Some c <-> waitable m parent target pgid pid c.
Proof.
  intros Ht. unfold eligible. cbn [fst snd]. split.
  - intros [He Hm]. apply andb_prop in He as [[H1 H2]%andb_prop H3].
    split; [done|lia|by apply bool_decide_eq_true in H2|by apply matches_selects].
  - intros [H1 H2 H3 H4%matches_selects]; [|done]. split; [|done]. rewrite H2, Z.eqb_refl, H4, bool_decide_eq_true_2 by done. done.
Qed.

(** C40: Waiting reports exactly what there is to report.  A call with an unknown
    event, an empty mask or an unknown flag is EINVAL and a caller that does not
    exist ESRCH; otherwise the answer is ECHILD exactly when no child matches the
    target, the event of the child with the lowest identifier among those that
    match and have an event in the mask, and nothing when none has one.  The
    target, an i32, selects ([selects]) the child of that identifier when it is
    positive, the children in the group of the caller when it is 0, every child
    when it is -1, and otherwise the children in the group of its negation; the
    least i32 selects none.  Only the record of the reported child changes: it is
    consumed, unless WNOWAIT keeps it. *)
Theorem wait_exact m parent target mask flags :
  - 2 ^ 31 <= target < 2 ^ 31 ->
  let '(r, m') := poll_wait_event m parent target mask flags in
  if (mask =? 0) || negb (Z.ldiff mask VALID_EVENTS =? 0) || negb (Z.ldiff flags WNOWAIT =? 0) then r = Err EINVAL /\ m' = m
  else
    match m !! parent with
    | None => r = Err ESRCH /\ m' = m
    | Some p =>
        let candidate := waitable m parent target (pr_pgid p) in
        match r with
        | Ok (Some (pid, ev)) =>
            exists c, candidate pid c /\ event_of mask c = Some ev /\
              (forall pid' c', candidate pid' c' -> event_of mask c' <> None -> pid <= pid') /\
              (forall q, m' !! q = if (Z.land flags WNOWAIT =? 0) && (q =? pid) then Some (with_wait_event c None) else m !! q)
        | Ok None => m' = m /\ (exists pid c, candidate pid c) /\ forall pid c, candidate pid c -> event_of mask c = None
        | Err e => e = ECHILD /\ m' = m /\ forall pid c, ~ candidate pid c
        end
    end.
Proof.
  intros Ht. unfold poll_wait_event. destruct (_ || _ || _); [done|]. destruct (m !! parent) as [p|]; [|done].
  rewrite wait_scan_eq. cbn [orb]. set (el := eligible parent target (pr_pgid p)).
  assert (forall pid c, waitable m parent target (pr_pgid p) pid c <-> (pid, c) ∈ List.filter el (btree_iter m)) as Hw.
  { intros pid c. rewrite elem_of_filter_bool, elem_of_btree_iter, <- eligible_waitable by done. subst el. tauto. }
  destruct (find_first _ (List.filter el (btree_iter m))) as [[pid c]|] eqn:Ef.
  - pose proof (find_first_Some _ _ _ Ef) as [Hin Hev]. cbn [fst snd] in *. apply bool_decide_eq_true in Hev as [ev Hev]. rewrite Hev.
    exists c. apply Hw in Hin. split; [done|]. split; [done|]. split.
    + intros pid' c' Hc' Hne. apply Hw in Hc'.
      destruct (find_first_least by_key _ _ _ (pid', c') (StronglySorted_filter_bool _ el _ (btree_iter_sorted m)) Ef Hc') as [[= ->]|Hle];
        [by apply bool_decide_eq_true_2, not_eq_None_Some|done|done].
    + intros q. destruct Hin as [Hin _ _ _]. destruct (Z.land flags WNOWAIT =? 0); cbn [andb]; [|done].
      destruct (Z.eqb_spec q pid) as [->|Hne]; [by rewrite lookup_alter_eq, Hin|by rewrite lookup_alter_ne].
  - rewrite find_first_None in Ef. destruct (existsb el (btree_iter m)) eqn:Ee.
    + split; [done|]. split.
      * apply existsb_elem in Ee as ([pid c] & Hx & He). exists pid, c. rewrite Hw, elem_of_filter_bool. done.
      * intros pid c Hc. apply Hw, Ef in Hc. cbn [snd] in Hc. apply bool_decide_eq_false in Hc. by apply eq_None_not_Some.
    + split; [done|]. split; [done|]. intros pid c Hc. apply Hw, elem_of_filter_bool in Hc as [Hx Hel].
      assert (existsb el (btree_iter m) = true) as Hex by (apply existsb_elem; eauto). congruence.
Qed.

Definition with_family (p : Process) (ppid pgid : Z) : Process :=
  mkProcess (pr_pid p) ppid (pr_uid p) (pr_gid p) (pr_euid p) (pr_egid p) pgid (pr_sid p) (pr_is_session_leader p)
    (pr_state p) (pr_exit_status p) (pr_exit_signal p) (pr_wait_event p) (pr_fd_table p) (pr_ofd_table p) (pr_pipes p) (pr_sockets p)
    (pr_cwd p) (pr_dir_streams p) (pr_signals p) (pr_main_thread_signals p) (pr_memory p) (pr_terminal p) (pr_environ p) (pr_argv p)
    (pr_umask p) (pr_nice p) (pr_rlimits p) (pr_alarm_deadline_ns p) (pr_alarm_interval_ns p) (pr_thread_name p) (pr_fork_child p)
    (pr_sigsuspend_saved_mask p) (pr_fork_exec_path p) (pr_fork_exec_argv p) (pr_fork_fd_actions p) (pr_next_ephemeral_port p)
    (pr_threads p) (pr_next_tid p) (pr_epolls p) (pr_posix_timers p) (pr_alt_stack_sp p) (pr_alt_stack_flags p) (pr_alt_stack_size p)
    (pr_alt_stack_depth p) (pr_fork_pipe_replay p) (pr_has_exec p) (pr_fb_binding p) (pr_dri_bindings p) (pr_fork_count p).

(** A parent with three children: one stopped in group 7, one exited in group 8,
    one that runs in the group of the parent. *)
Definition sample_family : gmap Z Process :=
  match process_new 0 2 with
  | Some (p, _) =>
      {[2 := p; 3 := (record_stop (with_family p 2 7) SIGSTOP).2.1; 4 := (record_normal_exit (with_family p 2 8) 1).2;
        5 := with_family p 2 2]}
  | None => ∅
  end.

Example wait_targets :
  let poll target mask := match (poll_wait_event sample_family 2 target mask 0).1 with Ok o => Ok (option_map fst o) | Err e => Err e end in
  poll (-1) VALID_EVENTS = Ok (Some 3) /\ poll (-1) EVENT_EXITED = Ok (Some 4) /\ poll 3 EVENT_EXITED = Ok None /\
  poll 0 VALID_EVENTS = Ok None /\ poll (-9) VALID_EVENTS = Err ECHILD /\ poll 2 VALID_EVENTS = Err ECHILD.
Proof. vm_compute. done. Qed.

Lemma wait_exact_witness :
  - 2 ^ 31 <= -8 < 2 ^ 31 /\
  let '(r, m') := poll_wait_event sample_family 2 (-8) EVENT_EXITED 0 in
  (exists ev, r = Ok (Some (4, ev))) /\
  exists p c, sample_family !! 2 = Some p /\ waitable sample_family 2 (-8) (pr_pgid p) 4 c /\
    forall q, m' !! q = if q =? 4 then Some (with_wait_event c None) else sample_family !! q.
Proof.
  split; [lia|]. pose proof (wait_exact sample_family 2 (-8) EVENT_EXITED 0 ltac:(lia)) as Hw.
  assert (option_map fst (match (poll_wait_event sample_family 2 (-8) EVENT_EXITED 0).1 with Ok o => o | Err _ => None end) = Some 4) as Hr
    by (vm_compute; done).
  destruct (poll_wait_event _ _ _ _ _) as [[[[pid ev]|]|e] m']; cbn [fst option_map] in Hr; [|done|done]. injection Hr as ->.
  split; [by exists ev|]. cbn [orb] in Hw. replace (_ || _ || _) with false in Hw by (vm_compute; done).
  destruct (sample_family !! 2) as [p|]; [|by destruct Hw]. exists p. destruct Hw as (c & Hc & _ & _ & Hm). by exists c.
Defined.

(** ** Process identifiers *)

Lemma next_free_pid_spec (fuel : nat) (m : gmap Z Process) (pid : Z) :
  (size (filter (fun x : Z * Process => (pid <= x.1)%Z) m) < fuel)%nat -> 0 <= pid -> pid + Z.of_nat fuel <= u32_max + 1 ->
  let q := next_free_pid fuel m pid in
  m !! q = None /\ pid <= q < pid + Z.of_nat fuel /\ forall x, pid <= x < q -> is_Some (m !! x).
Proof.
  revert pid. induction fuel as [|fuel IH]; intros pid Hs H0 Hb; [lia|]. cbn [next_free_pid].
  case_bool_decide as Hin; [|apply eq_None_not_Some in Hin; split_and!; [done|lia|lia|lia]].
  destruct Hin as [p Hp]. assert (filter (fun x : Z * Process => pid <= x.1) m = <[pid := p]> (filter (fun x : Z * Process => pid + 1 <= x.1) m)) as Heq.
  { apply map_eq. intros i. rewrite map_lookup_filter. destruct (decide (i = pid)) as [->|Hne].
    - rewrite lookup_insert_eq, Hp. cbn. rewrite option_guard_True by lia. done.
    - rewrite lookup_insert_ne by done. rewrite map_lookup_filter. destruct (m !! i); [|done]. cbn.
      destruct (decide (pid <= i)); [rewrite !option_guard_True by lia|rewrite !option_guard_False by lia]; done. }
  assert (filter (fun x : Z * Process => pid + 1 <= x.1) m !! pid = None) as Hn.
  { rewrite map_lookup_filter, Hp. cbn. rewrite option_guard_False by lia. done. }
  rewrite Heq, map_size_insert_None in Hs by done.
  assert (u32_wrap (pid + 1) = pid + 1) as ->.
  { destruct fuel; [lia|]. unfold u32_wrap, u32_max in *. rewrite Z.mod_small by lia. done. }
  destruct (IH (pid + 1)) as (H1 & H2 & H3); [lia|lia|lia|]. split_and!; [done|lia|lia|].
  intros x Hx. destruct (decide (x = pid)) as [->|]; [by eexists|apply H3; lia].
Qed.

Lemma allocate_spec t :
  Z.max (pt_next_spawn_pid t) 2 + Z.of_nat (size (pt_processes t)) <= u32_max ->
  let '(pid, t') := allocate_spawn_pid t in
  pt_processes t' = pt_processes t /\ pt_processes t !! pid = None /\ 2 <= pid /\
  pt_next_spawn_pid t <= pid /\ (pt_next_spawn_pid t' = pid + 1 \/ pid = u32_max) /\
  (forall x, Z.max (pt_next_spawn_pid t) 2 <= x < pid -> is_Some (pt_processes t !! x)).
Proof.
  intros Hb. unfold allocate_spawn_pid. set (s := Z.max (pt_next_spawn_pid t) 2) in *.
  destruct (next_free_pid_spec (S (size (pt_processes t))) (pt_processes t) s) as (H1 & H2 & H3).
  { apply Nat.lt_succ_r, map_size_filter. }
  { lia. }
  { lia. }
  cbn [pt_processes pt_next_spawn_pid]. split_and!; [done|done|lia|lia| |done].
  unfold u32_saturating_add. lia.
Qed.

(** Identifiers given out while the table is, in turn, [ms]: processes come and
    go in between. *)
Fixpoint allocate_run (t : ProcessTable) (ms : list (gmap Z Process)) : list Z :=
  match ms with
  | [] => []
  | m :: ms' => let '(pid, t') := allocate_spawn_pid (with_processes t m) in pid :: allocate_run t' ms'
  end.

Lemma allocate_run_spec (n : nat) ms t :
  Forall (fun m : gmap Z Process => (size m <= n)%nat) ms ->
  Z.max (pt_next_spawn_pid t) 2 + Z.of_nat (length ms * S n) <= u32_max ->
  StronglySorted Z.lt (allocate_run t ms) /\ Forall (fun pid => Z.max (pt_next_spawn_pid t) 2 <= pid) (allocate_run t ms) /\
  Forall2 (fun pid (m : gmap Z Process) => m !! pid = None) (allocate_run t ms) ms.
Proof.
  revert t. induction ms as [|m ms IH]; intros t Hf Hb; cbn [allocate_run]; [by repeat constructor|].
  apply Forall_cons in Hf as [Hm Hf]. cbn [length] in Hb.
  pose proof (allocate_spec (with_processes t m)) as Ha. cbn [with_processes pt_processes pt_next_spawn_pid] in Ha.
  destruct (next_free_pid_spec (S (size m)) m (Z.max (pt_next_spawn_pid t) 2)) as (_ & Hq & _); [apply Nat.lt_succ_r, map_size_filter|lia|lia|].
  destruct (allocate_spawn_pid (with_processes t m)) as [pid t'] eqn:E. destruct Ha as (_ & Hn & H2 & Hle & Hnext & _); [lia|].
  assert (pid = next_free_pid (S (size m)) m (Z.max (pt_next_spawn_pid t) 2)) as Hpid by (unfold allocate_spawn_pid in E; by simplify_eq/=).
  assert (pt_next_spawn_pid t' = pid + 1) as Ht' by lia.
  destruct (IH t' Hf) as (I1 & I2 & I3); [lia|]. split_and!.
  - constructor; [done|]. eapply Forall_impl; [exact I2|]. cbn. lia.
  - constructor; [lia|]. eapply Forall_impl; [exact I2|]. cbn. lia.
  - by constructor.
Qed.

(** A process identifier is never given out twice.  Over any run of spawns,
    with the table changed in any way in between (of at most [n] processes at a
    time, and before the 32-bit counter is exhausted), the identifiers are
    strictly increasing and each is free in the table it is allocated in. *)
Theorem spawn_pids_fresh (n : nat) ms t :
  Forall (fun m : gmap Z Process => (size m <= n)%nat) ms ->
  Z.max (pt_next_spawn_pid t) 2 + Z.of_nat (length ms * S n) <= u32_max ->
  NoDup (allocate_run t ms) /\ StronglySorted Z.lt (allocate_run t ms) /\
  Forall2 (fun pid (m : gmap Z Process) => m !! pid = None /\ 2 <= pid) (allocate_run t ms) ms.
Proof.
  intros Hf Hb. destruct (allocate_run_spec n ms t Hf Hb) as (H1 & H2 & H3). split; [|split; [done|]].
  - clear - H1. induction H1 as [|x l Hs IH Hall]; constructor; [|done].
    intros Hx. apply (proj1 (Forall_forall _ _) Hall) in Hx. lia.
  - clear - H2 H3. induction H3; [constructor|]. apply Forall_cons in H2 as [? ?]. constructor; [split; [done|lia]|auto].
Qed.

Definition sample_pid_tables : list (gmap Z Process) :=
  match process_new 0 2 with
  | Some (p, _) => [∅; {[2 := p; 3 := p]}; ∅; {[6 := p; 7 := p]}]
  | None => []
  end.

Lemma spawn_pids_fresh_witness :
  length sample_pid_tables = 4%nat /\ NoDup (allocate_run proc_table_new sample_pid_tables) /\
  allocate_run proc_table_new sample_pid_tables = [2; 4; 5; 8].
Proof.
  split; [done|]. split; [|vm_compute; done]. apply (spawn_pids_fresh 2); [|vm_compute; done].
  unfold sample_pid_tables. destruct (process_new 0 2) as [[]|]; repeat constructor; vm_compute; lia.
Defined.
