(* ===== verification/Lifecycle.v ===== *)
(** * The life of a process: what it holds and what its end releases

    The uses of a process are the references its descriptions and sockets hold
    on the tables of the machine.  Forking adds exactly the child's uses to the
    accounts of [Accounts.v], removing a process takes exactly its own away,
    closes on the host the handles nobody holds any more, and drains the
    deferred releases it caused; the drain always ends. *)

From S2P Require Import Prelude Bytes Abi FdTable Lock Ofd Wakeup Pipe PipeTable Memory Terminal Signal Backing Socket Names Mqueue Pshared Process Dri Spawn Codec Fork Exec Kernel Accounts ProcTable.

Section drain.
Context `{Usize} `{heap : Heap}.
Implicit Types (k : Kernel) (own : list use).

(** ** Termination of the drain *)

(** The descriptors that still have to be released. *)
Definition backlog (k : Kernel) : nat := length (queued (k_pipes k)) + length (dq_records (w_deferred (k_world k))).

Lemma on_pipes_backlog k f : conserves k f -> backlog (on_pipes f k) = backlog k.
Proof.
  unfold conserves, backlog, on_pipes. destruct (f (k_pipes k)) as [t es]. cbn [fst snd with_pipe_table k_pipes k_world]. intros Hc.
  rewrite run_effects_records, length_app, length_map, Hc, length_app. lia.
Qed.

Lemma update_conserves k i f : good_op f -> conserves k (fun t => table_update t i f).
Proof.
  intros Hg. unfold conserves. destruct (table_get (k_pipes k) i) as [p|] eqn:Hp; [by eapply queued_update|].
  unfold table_update. rewrite Hp. cbn. by rewrite app_nil_r.
Qed.

Lemma collect_conserves k : conserves k collect_unreachable_ancillary.
Proof. unfold conserves, collect_unreachable_ancillary, queued, with_pipes. cbn [fst snd pipes]. rewrite owned_drops_batches. apply sweep_queued. Qed.

Lemma free_inner_conserves k i : conserves k (fun t => free_fully_closed_inner t i).
Proof.
  unfold conserves, free_fully_closed_inner. destruct (table_get (k_pipes k) i) as [p|] eqn:Hp; [|cbn; by rewrite app_nil_r].
  destruct (is_fully_closed p); [|cbn; by rewrite app_nil_r]. unfold queued. cbn [fst snd pipes]. rewrite owned_drops_batches.
  pose proof (concat_insert slot_fds (pipes (k_pipes k)) i (Some p) None (proj1 (table_get_Some _ _ _) Hp)) as Hci. cbn [slot_fds] in Hci.
  by rewrite app_nil_r in Hci.
Qed.

Lemma pipe_do_backlog i f k : good_op f -> backlog (pipe_do i f k) = backlog k.
Proof. intros Hg. by apply on_pipes_backlog, update_conserves. Qed.

Lemma pipe_free_backlog i k : backlog (pipe_free i k) = backlog k.
Proof.
  unfold pipe_free, free_if_closed. rewrite on_pipes_seq, on_pipes_backlog by apply collect_conserves. apply on_pipes_backlog, free_inner_conserves.
Qed.

Lemma opt_close_backlog o f k : good_op f -> backlog (opt_pipe_close o f k) = backlog k.
Proof. intros Hg. destruct o; [|done]. cbn [opt_pipe_close]. by rewrite pipe_free_backlog, pipe_do_backlog. Qed.

Lemma pty_close_backlog i m k : backlog (pty_close i m k) = backlog k.
Proof. unfold pty_close. destruct (get_pty _ _); [|done]. by destruct (negb _). Qed.

Lemma good_reader_release r : good_op (if orderly_release r then release_in_flight_reader_orderly else release_in_flight_reader).
Proof. destruct (orderly_release r); [apply good_release_orderly|apply (good_ref_step (RRelease (RefRead false)))]. Qed.

Lemma release_deferred_backlog r k : backlog (release_deferred_in_flight_resource r k).2 = backlog k.
Proof.
  unfold release_deferred_in_flight_resource. destruct (manages_ofd _ _); [by destruct (release_for_ofd _ _ _)|].
  destruct (rel_file_type r); cbn [snd]; rewrite ?pty_close_backlog; try done.
  1,2,4: destruct (0 <=? _); [|done]; by destruct (host_handle_close_ref _ _).
  - destruct (0 <=? _); [by destruct (host_handle_close_ref _ _)|]. cbn [snd]. rewrite pipe_free_backlog.
    destruct (rel_pipe_ref_kind r) as [kind|]; [|done]. apply pipe_do_backlog, (good_ref_step (RRelease kind)).
  - destruct (rel_socket_global_pipes r); [|done]. cbn [snd]. rewrite opt_close_backlog by apply good_reader_release.
    apply opt_close_backlog, (good_ref_step (RRelease RefWrite)).
Qed.

Lemma pop_backlog k r q :
  pop_deferred_in_flight_release (w_deferred (k_world k)) = (Some r, q) -> backlog k = S (backlog (on_deferred (fun _ => q) k)).
Proof.
  unfold pop_deferred_in_flight_release, backlog. destruct (last _) as [r'|] eqn:El; [|done]. intros [= -> <-]. apply last_Some in El as [l El].
  cbn [on_deferred with_world with_pipe_table k_pipes k_world with_deferred w_deferred dq_records]. rewrite El, removelast_last, length_app. cbn [length]. lia.
Qed.

Lemma pop_none k q : pop_deferred_in_flight_release (w_deferred (k_world k)) = (None, q) -> dq_records (w_deferred (k_world k)) = [].
Proof. unfold pop_deferred_in_flight_release. destruct (last _) eqn:El; [done|]. by apply last_None in El. Qed.

(** One round of the loop. *)
Lemma drain_unfold fuel d :
  drain_deferred (S fuel) d =
  match pop_deferred_in_flight_release (w_deferred (k_world (dr_kernel d))) with
  | (None, _) => Some d
  | (Some r, q) =>
      let rel := (release_deferred_in_flight_resource r (on_deferred (fun _ => q) (dr_kernel d))).1 in
      let d' := mkDrained (release_deferred_in_flight_resource r (on_deferred (fun _ => q) (dr_kernel d))).2
                  (if rf_final_ofd_reference rel then (remove_ofd (dr_locks d) (rf_ofd_id rel)).1 else dr_locks d)
                  (dr_closes d ++ option_list (rf_host_close rel))
                  (if rf_final_ofd_reference rel then dr_changed d || changed (remove_ofd (dr_locks d) (rf_ofd_id rel)).2 else dr_changed d) in
      drain_deferred fuel d'
  end.
Proof.
  cbn [drain_deferred]. destruct (pop_deferred_in_flight_release _) as [[r|] q]; [|done].
  destruct (release_deferred_in_flight_resource r _) as [rel k']. cbn [fst snd].
  assert (match rf_host_close rel with Some h => vec_push (dr_closes d) h | None => dr_closes d end = dr_closes d ++ option_list (rf_host_close rel)) as ->.
  { destruct (rf_host_close rel); cbn; [done|by rewrite app_nil_r]. }
  destruct (rf_final_ofd_reference rel); [|done]. by destruct (remove_ofd (dr_locks d) (rf_ofd_id rel)).
Qed.

Lemma drain_total fuel d :
  (backlog (dr_kernel d) < fuel)%nat ->
  exists d', drain_deferred fuel d = Some d' /\ dq_records (w_deferred (k_world (dr_kernel d'))) = [].
Proof.
  revert d. induction fuel as [|fuel IH]; intros d Hf; [lia|]. rewrite drain_unfold.
  destruct (pop_deferred_in_flight_release (w_deferred (k_world (dr_kernel d)))) as [[r|] q] eqn:Ep.
  - apply IH. cbn [dr_kernel]. rewrite release_deferred_backlog. rewrite (pop_backlog _ _ _ Ep) in Hf. lia.
  - exists d. split; [done|]. by eapply pop_none.
Qed.

End drain.

(** ** Handles closed on the host *)

(** [l] is what the host is asked to close when the holders change from [before]
    to [after]: each handle that loses its last holder, once. *)
Record closes (mk : Z -> use) (before after : list use) (l : list Z) : Prop := {
  cl_nodup : NoDup l;
  cl_exact : forall h, h ∈ l <-> mk h ∈ before /\ mk h ∉ after;
  cl_shrink : forall h, mk h ∈ after -> mk h ∈ before;
}.

Lemma closes_trans mk a b c l l' : closes mk a b l -> closes mk b c l' -> closes mk a c (l ++ l').
Proof.
  intros [N1 E1 S1] [N2 E2 S2]. split.
  - apply NoDup_app. split; [done|]. split; [|done]. intros h [_ Hb]%E1 [Hb' _]%E2. done.
  - intros h. rewrite elem_of_app, E1, E2. split; [|intros [Ha Hc]; destruct (decide (mk h ∈ b)); tauto].
    intros [[Ha Hb]|[Hb Hc]]; [|by auto]. split; [done|]. intros Hc. by apply Hb, S2.
  - auto.
Qed.

Lemma count_zero u l : count u l = 0 <-> u ∉ l.
Proof.
  split; [intros Hc Hu%count_elem; lia|]. intros Hn. unfold count. rewrite filter_none; [done|]. apply Forall_forall. intros x Hx.
  apply bool_decide_eq_false_2. by intros ->.
Qed.

Lemma elem_count u l : u ∈ l <-> 0 < count u l.
Proof.
  split; [intros Hu%count_elem; lia|]. intros Hc. destruct (decide (u ∈ l)) as [|Hn]; [done|]. apply count_zero in Hn. lia.
Qed.

Lemma closes_same mk a b : (forall h, count (mk h) a = count (mk h) b) -> closes mk a b [].
Proof.
  intros Hc. assert (forall h, mk h ∈ a <-> mk h ∈ b) as He by (intros h; by rewrite !elem_count, Hc). split; [constructor| |]; intros h; [|by rewrite He].
  rewrite He. split; [by intros Hx%not_elem_of_nil|tauto].
Qed.

(** One holder of [h] leaves. *)
Lemma closes_one mk a b h (last : bool) :
  Inj eq eq mk -> (forall x, count (mk x) a = count (mk x) b + (if decide (x = h) then 1 else 0)) -> (last = true <-> count (mk h) b = 0) ->
  closes mk a b (if last then [h] else []).
Proof.
  intros Hinj Hc Hl. split.
  - destruct last; [apply NoDup_singleton|constructor].
  - intros x. rewrite elem_count, <- count_zero, Hc. pose proof (count_nonneg (mk x) b). destruct (decide (x = h)) as [->|Hne].
    + destruct last; [rewrite list_elem_of_singleton|rewrite elem_of_nil].
      * split; [|done]. intros _. assert (count (mk h) b = 0) as -> by (by apply Hl). lia.
      * split; [done|]. intros [_ Hz]. by apply Hl in Hz.
    + destruct last; [rewrite list_elem_of_singleton|rewrite elem_of_nil]; split; try done; lia.
  - intros x. rewrite !elem_count, Hc. destruct (decide _); lia.
Qed.

#[export] Instance UHandle_inj : Inj eq eq UHandle.
Proof. by intros ? ? [=]. Qed.
#[export] Instance UNet_inj : Inj eq eq UNet.
Proof. by intros ? ? [=]. Qed.

(** No buffer of [t'] is new. *)
Definition fifo_le (t t' : PipeTable) : Prop :=
  forall i p', table_get t' i = Some p' -> exists p, table_get t i = Some p /\ p_is_fifo p = p_is_fifo p'.

#[export] Instance fifo_le_preorder : PreOrder fifo_le.
Proof.
  split; [by intros t i p Hp; exists p|]. intros a b c Hab Hbc i p Hp. destruct (Hbc i p Hp) as (q & Hq & <-). by apply Hab.
Qed.

Lemma fifo_update t i f : keeps_frame f -> fifo_le t (table_update t i f).1.
Proof.
  intros Hf j p'. destruct (table_get t i) as [p|] eqn:Hp.
  - rewrite (table_get_update t i p f j Hp). destruct (Nat.eqb_spec j i) as [->|]; [|by exists p'].
    intros [= <-]. exists p. by rewrite frame_fifo.
  - unfold table_update. rewrite Hp. by exists p'.
Qed.

Lemma fifo_collect t : fifo_le t (collect_unreachable_ancillary t).1.
Proof.
  intros i p'. rewrite collect_get. destruct (is_marked _ _); [by exists p'|]. destruct (table_get t i) as [p|]; [|done]. intros [= <-]. by exists p.
Qed.

Lemma fifo_free t i : fifo_le t (free_if_closed i t).1.
Proof.
  unfold free_if_closed, table_op_seq. assert (fifo_le t (free_fully_closed_inner t i).1) as Hf.
  { unfold free_fully_closed_inner. destruct (table_get t i) as [p|] eqn:Hp; [|by intros j q; exists q].
    destruct (is_fully_closed p); [|by intros j q; exists q]. intros j q. cbn [fst].
    rewrite table_get_insert by (apply table_get_Some in Hp; by eapply lookup_lt_Some). destruct (j =? i)%nat; [done|].
    change (table_get {| pipes := pipes t; free_list := _ |} j) with (table_get t j). by exists q. }
  destruct (free_fully_closed_inner t i) as [t1 e1]. cbn [fst] in Hf. pose proof (fifo_collect t1) as Hc.
  destruct (collect_unreachable_ancillary t1) as [t2 e2]. cbn [fst] in *. by etrans.
Qed.

Lemma on_pipes_get f k : k_pipes (on_pipes f k) = (f (k_pipes k)).1.
Proof. unfold on_pipes. by destruct (f (k_pipes k)). Qed.

Section teardown.
Context `{Usize} `{heap : Heap}.
Implicit Types (k : Kernel) (own : list use).
(** The table of pipes the uses of the process refer to, and the last description
    identity given out. *)
Variables (t0 : PipeTable) (id0 : Z).

Record held k own : Prop := {
  hd_ok : passing_ok k own [];
  hd_fifo : fifo_le t0 (k_pipes k);
  hd_id : k_last_ofd_id k = id0;
}.

(** From [k] with [own] to [k'] with [own'], closing the file handles [hs] and the
    connection handles [ns] on the host. *)
Definition stepped k own k' own' (hs ns : list Z) : Prop :=
  held k own ->
  held k' own' /\ closes UHandle (all_uses k own []) (all_uses k' own' []) hs /\ closes UNet (all_uses k own []) (all_uses k' own' []) ns.

Lemma stepped_refl k own : stepped k own k own [] [].
Proof. intros Hk. split; [done|]. split; by apply closes_same. Qed.

Lemma stepped_trans k1 o1 k2 o2 k3 o3 h1 h2 n1 n2 :
  stepped k1 o1 k2 o2 h1 n1 -> stepped k2 o2 k3 o3 h2 n2 -> stepped k1 o1 k3 o3 (h1 ++ h2) (n1 ++ n2).
Proof.
  intros H12 H23 Hk. destruct (H12 Hk) as (Hk2 & A1 & A2). destruct (H23 Hk2) as (Hk3 & B1 & B2). split; [done|]. split; by eapply closes_trans.
Qed.

Lemma stepped_quiet k1 o1 k2 o2 k3 o3 hs ns : stepped k1 o1 k2 o2 [] [] -> stepped k2 o2 k3 o3 hs ns -> stepped k1 o1 k3 o3 hs ns.
Proof. apply (stepped_trans k1 o1 k2 o2 k3 o3 [] hs [] ns). Qed.

(** A loop whose rounds release [uses x]. *)
Lemma stepped_fold {A} (f : Kernel -> A -> Kernel) (uses : A -> list use) l :
  (forall x k own, stepped k (uses x ++ own) (f k x) own [] []) ->
  forall k own, stepped k ((l ≫= uses) ++ own) (fold_left f l k) own [] [].
Proof.
  intros Hf. induction l as [|x l IH]; intros k own; cbn [fold_left]; [apply stepped_refl|].
  eapply stepped_quiet; [|apply IH]. cbn [mbind list_bind]. rewrite <- app_assoc. apply Hf.
Qed.

(** What an operation on the pipes does to the holders of other resources:
    nothing. *)
Lemma nonpipe_uses k f own air u : conserves k f -> is_pipe_use u = false -> count u (all_uses (on_pipes f k) own air) = count u (all_uses k own air).
Proof.
  intros Hc Hu. unfold all_uses, pending. rewrite (in_transit_on_pipes k f Hc), !count_app, !nonpipe_waiting by done.
  assert (k_backlogs (on_pipes f k) = k_backlogs k) as -> by (unfold on_pipes; by destruct (f (k_pipes k))). done.
Qed.

Lemma held_perm k own own' : own ≡ₚ own' -> held k own -> held k own'.
Proof. intros Hp [H1 H2 H3]. split; [|done|done]. by eapply passing_perm. Qed.

Lemma stepped_perm k own own' k' own2 hs ns : own ≡ₚ own' -> stepped k own' k' own2 hs ns -> stepped k own k' own2 hs ns.
Proof.
  intros Hp Hs Hk. eapply held_perm in Hk; [|exact Hp]. destruct (Hs Hk) as (H1 & H2 & H3). split; [done|].
  assert (all_uses k own [] ≡ₚ all_uses k own' []) as Ha by (unfold all_uses; by rewrite Hp).
  split; [destruct H2 as [A B C]|destruct H3 as [A B C]]; (split; [done| |]); intros h; rewrite Ha; auto.
Qed.

(** *** One resource *)

(** A change that keeps the pipes and the queues. *)
Lemma stepped_table k k' own own' hs ns :
  (accounts k own [] -> accounts k' own' [] /\ closes UHandle (all_uses k own []) (all_uses k own' []) hs /\ closes UNet (all_uses k own []) (all_uses k own' []) ns) ->
  k_pipes k' = k_pipes k -> k_world k' = k_world k -> (k_backlogs k' ≫= backlog_uses) = (k_backlogs k ≫= backlog_uses) ->
  k_last_ofd_id k' = k_last_ofd_id k -> stepped k own k' own' hs ns.
Proof.
  intros Ha Ep Ew Eb Ei [[P1 P2 P3 P4] Hf Hid]. destruct (Ha P1) as (A1 & A2 & A3).
  assert (all_uses k' own' [] = all_uses k own' []) as -> by (unfold all_uses, pending, in_transit; by rewrite Ep, Ew, Eb).
  split; [|done]. split; [|by rewrite Ep|congruence]. split; [done|by eapply transit_same|by rewrite Ep|done].
Qed.

Lemma count_same_other (mk : Z -> use) u k own : (forall h, mk h <> u) -> forall h, count (mk h) (all_uses k (u :: own) []) = count (mk h) (all_uses k own []).
Proof. intros Hne h. unfold all_uses. cbn [app]. rewrite count_cons, decide_False by (intros E; by eapply Hne). lia. Qed.

Lemma stepped_backing ft h k own :
  stepped k (backing_use ft h ++ own) (with_backings k (release_for_ofd (k_backings k) ft h).2) own [] [].
Proof.
  apply stepped_table; [|done..]. intros Ha. pose proof (release_accounts k own [] ft h Ha) as Hr. destruct (release_for_ofd _ _ _) as [freed b].
  destruct Hr as [Hr _]. split; [exact Hr|]. unfold backing_use. destruct (slot_of ft h); split; apply closes_same; try done; by apply count_same_other.
Qed.

Lemma stepped_pty i m k own : stepped k (UPty i m :: own) (pty_close i m k) own [] [].
Proof.
  apply stepped_table.
  - intros Ha. split; [by apply pty_close_accounts|]. split; apply closes_same; by apply count_same_other.
  - apply pty_close_pipes.
  - unfold pty_close. destruct (get_pty _ _); [|done]. by destruct (negb _).
  - unfold pty_close. destruct (get_pty _ _); [|done]. by destruct (negb _).
  - unfold pty_close. destruct (get_pty _ _); [|done]. by destruct (negb _).
Qed.

Lemma count_hit (mk : Z -> use) h k own : Inj eq eq mk -> forall x, count (mk x) (all_uses k (mk h :: own) []) = count (mk x) (all_uses k own []) + (if decide (x = h) then 1 else 0).
Proof.
  intros Hinj x. unfold all_uses. cbn [app]. rewrite count_cons. destruct (decide (x = h)) as [->|Hne]; [rewrite decide_True by done; lia|].
  rewrite decide_False; [lia|]. intros ->%Hinj. done.
Qed.

Lemma stepped_handle h k own :
  let '(last, hs) := host_handle_close_ref (k_handles k) h in
  stepped k (UHandle h :: own) (with_handles k hs) own (if last then [h] else []) [].
Proof.
  destruct (host_handle_close_ref (k_handles k) h) as [last hs] eqn:E. apply stepped_table; [|done..]. intros Ha.
  pose proof (handle_close_accounts k own [] h Ha) as Hc. rewrite E in Hc. destruct Hc as [H1 H2]. split; [done|]. split.
  - apply closes_one; [apply _|by apply count_hit, _|done].
  - apply closes_same. by apply count_same_other.
Qed.

Lemma stepped_net h k own :
  let '(last, hs) := host_net_handle_close_ref (k_net_handles k) h in
  stepped k (UNet h :: own) (with_net_handles k hs) own [] (if last then [h] else []).
Proof.
  destruct (host_net_handle_close_ref (k_net_handles k) h) as [last hs] eqn:E. apply stepped_table; [|done..]. intros Ha.
  pose proof (net_close_accounts k own [] h Ha) as Hc. rewrite E in Hc. destruct Hc as [H1 H2]. split; [done|]. split.
  - apply closes_same. by apply count_same_other.
  - apply closes_one; [apply _|by apply count_hit, _|done].
Qed.

(** An operation on the pipes that changes the pipe holders alone. *)
Lemma stepped_pipes k own own' f :
  (accounts k own [] -> accounts (on_pipes f k) own' []) -> conserves k f -> keeps_slots f -> fifo_le (k_pipes k) (f (k_pipes k)).1 ->
  (forall u, is_pipe_use u = false -> count u own' = count u own) ->
  stepped k own (on_pipes f k) own' [] [].
Proof.
  intros Ha Hc Hs Hf Hu [[P1 P2 P3 P4] Hf0 Hid]. split.
  - split; [|rewrite on_pipes_get; by etrans|unfold on_pipes; by destruct (f (k_pipes k))]. split; [by apply Ha|by apply on_pipes_transit|by apply slots_on_pipes|done].
  - assert (forall u, is_pipe_use u = false -> count u (all_uses k own []) = count u (all_uses (on_pipes f k) own' [])) as He.
    { intros u Hn. rewrite (nonpipe_uses k f own' [] u Hc Hn). unfold all_uses. rewrite !count_app, Hu by done. done. }
    split; apply closes_same; intros h; by apply He.
Qed.

Lemma stepped_free i k own : stepped k own (pipe_free i k) own [] [].
Proof.
  unfold pipe_free. apply stepped_pipes; [apply pipe_free_accounts| |apply PipeTable.free_slots|apply fifo_free|done].
  unfold conserves, free_if_closed, table_op_seq. pose proof (free_inner_conserves k i) as H1. unfold conserves in H1.
  pose proof (collect_conserves (on_pipes (fun t => free_fully_closed_inner t i) k)) as H2. unfold conserves in H2. rewrite on_pipes_get in H2.
  destruct (free_fully_closed_inner (k_pipes k) i) as [t1 e1]. cbn [fst snd] in *. destruct (collect_unreachable_ancillary t1) as [t2 e2].
  cbn [fst snd] in *. rewrite H1, H2, owned_drops_app. solve_Permutation.
Qed.

Lemma stepped_pipe_close i kind f k own :
  good_op f -> (forall p, counters (f p).1 = counters (close_reference kind p).1) ->
  stepped k (UPipe i kind :: own) (pipe_free i (pipe_do i f k)) own [] [].
Proof.
  intros Hg Hc. eapply stepped_quiet; [|apply stepped_free]. unfold pipe_do. apply stepped_pipes.
  - intros Ha. destruct (pipe_use_live k (UPipe i kind :: own) [] i kind Ha) as [p Hp]; [by left|].
    eapply (pipe_step_accounts _ _ _ _ _ _ p f (RClose kind)); [exact Ha|exact Hp|exact Hg|apply Hc|constructor|done].
  - by apply update_conserves.
  - apply update_slots, keeps_frame_idx, Hg.
  - apply fifo_update, Hg.
  - intros u Hu. rewrite count_cons, decide_False by (by intros <-). lia.
Qed.

Lemma stepped_opt_close o kind f k own :
  good_op f -> (forall p, counters (f p).1 = counters (close_reference kind p).1) ->
  stepped k (opt_use o kind ++ own) (opt_pipe_close o f k) own [] [].
Proof. intros Hg Hc. destruct o; [by apply stepped_pipe_close|apply stepped_refl]. Qed.

(** The two ends of a socket, the send end first. *)
Lemma stepped_socket_pipes send recv fr k own :
  good_op fr -> (forall p, counters (fr p).1 = counters (close_read_end p).1) ->
  stepped k (socket_pipe_uses send recv ++ own) (opt_pipe_close recv fr (opt_pipe_close send close_write_end k)) own [] [].
Proof.
  intros Hg Hc. unfold socket_pipe_uses. rewrite <- app_assoc. eapply stepped_quiet.
  - apply (stepped_opt_close send RefWrite); [apply good_close_write_end|done].
  - by apply (stepped_opt_close recv (RefRead false)).
Qed.

(** *** Accept queues *)

Lemma bind_insert {A B} (f : A -> list B) (l : list A) i x y :
  l !! i = Some x -> (l ≫= f) ++ f y ≡ₚ (<[i := y]> l ≫= f) ++ f x.
Proof.
  revert i. induction l as [|a l IH]; intros [|i] Hi; cbn in *; [done|done| |].
  - injection Hi as ->. solve_Permutation.
  - rewrite <- !app_assoc. by rewrite (IH i Hi).
Qed.

(** The counts and the queues of the accept queues alone change. *)
Lemma accounts_backlogs k l own own' :
  accounts k own [] ->
  (forall u, match u with UBacklog _ => True | _ => count u (own' ++ pending (with_backlogs k l)) = count u (own ++ pending k) end) ->
  backlogs_ok l (own' ++ pending (with_backlogs k l) ++ in_transit k) ->
  Z.of_nat (length (all_uses (with_backlogs k l) own' [])) <= u32_max ->
  accounts (with_backlogs k l) own' [].
Proof.
  intros [H1 H2 H3 H4 H5 H6 H7] Hu Hb Hl. cbn [app] in *.
  assert (in_transit (with_backlogs k l) = in_transit k) as Et by done.
  assert (forall u, (forall i, u <> UBacklog i) -> count u (own' ++ pending (with_backlogs k l) ++ in_transit k) = count u (own ++ pending k ++ in_transit k)) as Hc.
  { intros u Hn. specialize (Hu u). rewrite !app_assoc, !(count_app _ (_ ++ _)). destruct u; try (by rewrite Hu). by destruct (Hn idx). }
  split; cbn [app]; rewrite ?Et; cbn [with_backlogs k_pipes k_backings k_handles k_ptys k_backlogs k_net_handles].
  - eapply pipes_ok_ext; [| |exact H1]; [|done]. intros i kd. symmetry. apply (Hu (UPipe i kd)).
  - eapply backings_ok_ext; [|exact H2]. intros s. by rewrite Hc.
  - eapply handles_agree_ext; [|exact H3]. intros h. cbn beta. by rewrite Hc.
  - eapply ptys_ok_ext; [|exact H4]. intros i m. by rewrite Hc.
  - done.
  - eapply handles_agree_ext; [|exact H6]. intros h. cbn beta. by rewrite Hc.
  - exact Hl.
Qed.

Lemma abandon_all_on q k : on_pipes (abandon_all q) k = fold_left (fun k pc => on_pipes (abandon pc) k) q k.
Proof.
  revert k. induction q as [|pc q IH]; intros k; cbn [abandon_all fold_left]; [unfold on_pipes; cbn; by destruct k|].
  change (on_pipes (table_op_seq (abandon pc) (abandon_all q)) k = fold_left (fun k pc => on_pipes (abandon pc) k) q (on_pipes (abandon pc) k)).
  by rewrite on_pipes_seq, IH.
Qed.

Lemma stepped_abandon pc k own : stepped k (pending_uses pc ++ own) (on_pipes (abandon pc) k) own [] [].
Proof.
  unfold abandon. rewrite !on_pipes_seq. change (on_pipes (free_if_closed ?i) ?k) with (pipe_free i k).
  change (on_pipes (fun t => table_update t ?i ?f) ?k) with (pipe_do i f k). cbn [pending_uses app].
  eapply stepped_quiet; apply stepped_pipe_close; [apply good_close_read_end|done|apply good_close_write_end|done].
Qed.

Lemma stepped_abandon_all q k own : stepped k ((q ≫= pending_uses) ++ own) (on_pipes (abandon_all q) k) own [] [].
Proof. rewrite abandon_all_on. by apply (stepped_fold (fun k pc => on_pipes (abandon pc) k) pending_uses q), stepped_abandon. Qed.

(** A step that keeps the pipes and the messages. *)
Lemma stepped_backlogs k own own' l :
  (accounts k own [] -> accounts (with_backlogs k l) own' []) ->
  (forall u, is_pipe_use u = false -> (forall i, u <> UBacklog i) -> count u own' = count u own) ->
  stepped k own (with_backlogs k l) own' [] [].
Proof.
  intros Ha Hu [[P1 P2 P3 P4] Hf Hid]. split; [split; [|done|done]; split; [by apply Ha|by eapply transit_same, P2|done|done]|].
  assert (forall (b : SharedBacklogTable) u, is_pipe_use u = false -> count u (b ≫= backlog_uses) = 0) as Hb.
  { intros b u Hn. apply count_zero. intros (e & He & _)%list_elem_of_bind. unfold backlog_uses in He. destruct (bl_in_use e); [|by apply not_elem_of_nil in He].
    apply list_elem_of_bind in He as (pc & Hpc & _). unfold pending_uses in Hpc. destruct u; set_solver. }
  assert (forall u, is_pipe_use u = false -> (forall i, u <> UBacklog i) -> count u (all_uses k own []) = count u (all_uses (with_backlogs k l) own' [])) as He.
  { intros u Hn Hne. unfold all_uses, pending. cbn [with_backlogs k_pipes k_backlogs app]. change (in_transit (with_backlogs k l)) with (in_transit k).
    rewrite !count_app, !Hb, (Hu u Hn Hne) by done. done. }
  split; apply closes_same; intros h; by apply He.
Qed.

Lemma backlog_release_accounts k own i e :
  accounts k (UBacklog i :: own) [] -> k_backlogs k !! i = Some e -> bl_in_use e = true -> bl_ref_count e <> 1 ->
  accounts (with_backlogs k (<[i := mkBacklog (bl_queue e) (bl_ref_count e - 1) true]> (k_backlogs k))) own [].
Proof.
  intros Ha Ee Eu Hne. pose proof (ac_backlogs _ _ _ Ha i) as Hi. rewrite Ee, Eu in Hi. cbn [app] in Hi. rewrite count_cons, decide_True in Hi by done.
  eapply accounts_change; [exact Ha|done|done|..]; cbn [with_backlogs k_backings k_handles k_ptys k_backlogs k_net_handles].
  - eapply backlog_uses_insert; [exact Ee|]. unfold backlog_uses. by rewrite Eu.
  - intros j kind. same_counts.
  - unchanged_tables Ha.
  - unchanged_tables Ha.
  - unchanged_tables Ha.
  - intros j. pose proof (ac_backlogs _ _ _ Ha j) as Hj. destruct (decide (j = i)) as [->|Hji].
    + rewrite list_lookup_insert_eq by (by eapply lookup_lt_Some). cbn [bl_in_use bl_ref_count app]. lia.
    + rewrite list_lookup_insert_ne by done. cbn [app] in Hj. rewrite count_cons, decide_False in Hj by congruence. by rewrite Z.add_0_l in Hj.
  - unchanged_tables Ha.
  - pose proof (ac_bound _ _ _ Ha) as Hb. cbn [app length] in *. lia.
Qed.

Lemma backlog_last_accounts k own i e c :
  accounts k (UBacklog i :: own) [] -> k_backlogs k !! i = Some e -> bl_in_use e = true -> bl_ref_count e = 1 ->
  accounts (with_backlogs k (<[i := mkBacklog [] c false]> (k_backlogs k))) ((bl_queue e ≫= pending_uses) ++ own) [].
Proof.
  intros Ha Ee Eu H1. pose proof (ac_backlogs _ _ _ Ha) as Hbo. pose proof (Hbo i) as Hi. rewrite Ee, Eu in Hi. cbn [app] in Hi, Hbo.
  rewrite count_cons, decide_True in Hi by done. set (l := <[i := _]> _).
  pose proof (bind_insert backlog_uses (k_backlogs k) i e (mkBacklog [] c false) Ee) as Hb. cbn [backlog_uses bl_in_use] in Hb. fold l in Hb.
  unfold backlog_uses at 3 in Hb. rewrite Eu, app_nil_r in Hb.
  assert (((bl_queue e ≫= pending_uses) ++ own) ++ pending (with_backlogs k l) ≡ₚ own ++ pending k) as Hp.
  { unfold pending. cbn [with_backlogs k_pipes k_backlogs]. rewrite Hb. solve_Permutation. }
  assert (forall r, ((bl_queue e ≫= pending_uses) ++ own) ++ pending (with_backlogs k l) ++ r ≡ₚ own ++ pending k ++ r) as Hpr.
  { intros r. rewrite (app_assoc _ (pending _) r), Hp. by rewrite <- app_assoc. }
  apply (accounts_backlogs k l (UBacklog i :: own)); [done|..].
  - intros u. destruct u; try done; rewrite Hp; cbn [app]; rewrite count_cons, decide_False by done; lia.
  - rewrite Hpr. intros j. specialize (Hbo j). subst l. destruct (decide (j = i)) as [->|Hji].
    + rewrite list_lookup_insert_eq by (by eapply lookup_lt_Some). cbn [bl_in_use]. lia.
    + rewrite list_lookup_insert_ne by done. rewrite count_cons, decide_False in Hbo by congruence. by rewrite Z.add_0_l in Hbo.
  - pose proof (ac_bound _ _ _ Ha) as Hbd. unfold all_uses. rewrite Hpr. cbn [app length] in *.
    change (in_transit (with_backlogs k l)) with (in_transit k). lia.
Qed.

Lemma stepped_backlog i k own : stepped k (UBacklog i :: own) (backlog_close i k) own [] [].
Proof.
  intros Hk. pose proof (ps_accounts _ _ _ (hd_ok _ _ Hk)) as Ha. pose proof (ac_backlogs _ _ _ Ha i) as Hi. cbn [app] in Hi.
  rewrite count_cons, decide_True in Hi by done. pose proof (count_nonneg (UBacklog i) (own ++ pending k ++ fds_uses [] ++ in_transit k)) as Hn.
  unfold backlog_close, backlog_dec_ref. destruct (k_backlogs k !! i) as [e|] eqn:Ee; [|lia]. destruct (bl_in_use e) eqn:Eu; [|lia]. cbn [negb].
  assert (u32_saturating_sub (bl_ref_count e) 1 = bl_ref_count e - 1) as -> by (unfold u32_saturating_sub; lia).
  destruct (Z.eqb_spec (bl_ref_count e - 1) 0) as [E1|E1].
  - set (l := <[i := _]> _). revert Hk. eapply (stepped_quiet k _ (with_backlogs k l) ((bl_queue e ≫= pending_uses) ++ own)).
    + apply stepped_backlogs; [intros _; apply backlog_last_accounts; [done|done|done|lia]|]. intros u Hn1 Hn2.
      rewrite count_app, count_cons, decide_False by (intros <-; by eapply Hn2). rewrite (proj2 (count_zero u (bl_queue e ≫= pending_uses))); [lia|].
      intros (pc & Hpc & _)%list_elem_of_bind. unfold pending_uses in Hpc. destruct u; set_solver.
    + pose proof (stepped_abandon_all (bl_queue e) (with_backlogs k l) own) as Hs. unfold on_pipes in Hs. cbn [with_backlogs k_pipes k_world] in Hs.
      destruct (abandon_all (bl_queue e) (k_pipes k)) as [t es]. exact Hs.
  - revert Hk. cbn [run_effects fold_left]. assert (forall l, with_backlogs (with_pipe_table k (k_pipes k) (k_world k)) l = with_backlogs k l) as -> by done.
    apply stepped_backlogs; [intros _; apply backlog_release_accounts; [done|done|done|lia]|]. intros u Hn1 Hn2.
    rewrite count_cons, decide_False by (intros <-; by eapply Hn2). lia.
Qed.

(** *** Cancelled opens *)

Lemma pipe_do_ext i f g k : (forall p, f p = g p) -> pipe_do i f k = pipe_do i g k.
Proof. intros Hfg. unfold pipe_do, on_pipes, table_update. destruct (table_get (k_pipes k) i); [by rewrite Hfg|done]. Qed.

Lemma pipe_do_seq i f g k : pipe_do i (f ▷ g) k = pipe_do i g (pipe_do i f k).
Proof.
  unfold pipe_do, on_pipes, table_update. destruct (table_get (k_pipes k) i) as [p|] eqn:Hp.
  - unfold andthen. destruct (f p) as [p1 e1]. destruct (g p1) as [p2 e2] eqn:Eg. cbn [with_pipe_table k_pipes k_world].
    apply table_get_Some in Hp. unfold PipeTable.with_pipes. rewrite table_get_insert by (by eapply lookup_lt_Some). rewrite Nat.eqb_refl, Eg.
    cbn [pipes free_list with_pipe_table k_pipes k_world]. rewrite list_insert_insert_eq, run_effects_app. done.
  - cbn [with_pipe_table k_pipes k_world]. rewrite Hp. done.
Qed.

Lemma concat_imap_insert {A B} (f : nat -> A -> list B) (l : list A) i x y :
  l !! i = Some x -> concat (imap f l) ++ f i y ≡ₚ concat (imap f (<[i := y]> l)) ++ f i x.
Proof.
  revert f i. induction l as [|a l IH]; intros f [|i] Hi; cbn in *; [done|done| |].
  - injection Hi as ->. solve_Permutation.
  - rewrite <- !app_assoc. pose proof (IH (f ∘ S) i Hi) as E. cbn [compose] in E. by rewrite E.
Qed.

Definition drop_waiter (owner : Z) (p : PipeBuffer) : PipeBuffer := set_fifo_open_waiters (delete owner (p_fifo_open_waiters p)) p.

Lemma waiting_drop t i p owner w :
  table_get t i = Some p -> p_fifo_open_waiters p !! owner = Some w ->
  waiting t ≡ₚ waiter_use i w :: waiting (table_update t i (pure_op (drop_waiter owner))).1.
Proof.
  intros Hp Hw. unfold table_update. rewrite Hp. unfold pure_op. cbn [fst]. apply table_get_Some in Hp.
  pose proof (concat_imap_insert waiter_uses (pipes t) i (Some p) (Some (drop_waiter owner p)) Hp) as Hc. unfold waiting, PipeTable.with_pipes. cbn [pipes].
  cbn [waiter_uses drop_waiter set_fifo_open_waiters p_fifo_open_waiters] in Hc. rewrite <- (map_to_list_delete _ _ _ Hw) in Hc. cbn [fmap list_fmap snd] in Hc.
  rewrite <- Permutation_middle in Hc. change (?x :: ?a ++ ?b) with ((x :: a) ++ b) in Hc. by apply Permutation_app_inv_r in Hc.
Qed.

Lemma stepped_drop_waiter i p owner w k own :
  table_get (k_pipes k) i = Some p -> p_fifo_open_waiters p !! owner = Some w ->
  stepped k own (pipe_do i (pure_op (drop_waiter owner)) k) (waiter_use i w :: own) [] [].
Proof.
  intros Hp Hw. pose proof (waiting_drop (k_pipes k) i p owner w Hp Hw) as Hwait. unfold pipe_do. set (f := fun t => table_update t i _).
  fold (f (k_pipes k)) in Hwait.
  assert (conserves k f) as Hc.
  { unfold conserves, f, table_update. rewrite Hp. unfold pure_op. cbn [fst snd]. unfold owned_drops. cbn [map concat List.filter].
    apply table_get_Some in Hp. pose proof (concat_insert slot_fds (pipes (k_pipes k)) i (Some p) (Some (drop_waiter owner p)) Hp) as E.
    change (slot_fds (Some (drop_waiter owner p))) with (slot_fds (Some p)) in E. rewrite app_nil_r. by apply Permutation_app_inv_r in E. }
  apply stepped_pipes; [|done| | |].
  - intros Ha. eapply shift_accounts; [exact Ha|done| |].
    + rewrite Hwait. cbn [app]. by rewrite Permutation_middle.
    + intros j. unfold f. rewrite (table_get_update _ _ _ _ _ Hp). destruct (Nat.eqb_spec j i) as [->|]; [by rewrite Hp|]. by destruct (table_get (k_pipes k) j).
  - by apply update_slots.
  - by apply fifo_update.
  - intros u Hu. rewrite count_cons, decide_False; [lia|]. unfold waiter_use. by intros <-.
Qed.

Lemma stepped_pipe_do i kind f k own :
  good_op f -> (forall p, counters (f p).1 = counters (close_reference kind p).1) -> stepped k (UPipe i kind :: own) (pipe_do i f k) own [] [].
Proof.
  intros Hg Hc. unfold pipe_do. apply stepped_pipes.
  - intros Ha. destruct (pipe_use_live k (UPipe i kind :: own) [] i kind Ha) as [p Hp]; [by left|].
    eapply (pipe_step_accounts _ _ _ _ _ _ p f (RClose kind)); [exact Ha|exact Hp|exact Hg|apply Hc|constructor|done].
  - by apply update_conserves.
  - apply update_slots, keeps_frame_idx, Hg.
  - apply fifo_update, Hg.
  - intros u Hu. rewrite count_cons, decide_False by (by intros <-). lia.
Qed.

(** The end of a cancelled open. *)
Definition cancel_end (side : FifoOpenSide) : pipe_op :=
  match side with Pipe.Reader => close_read_end ▷ pure_op end_reader_cohort | Writer => close_write_end end.

Lemma cancel_end_good side :
  good_op (cancel_end side) /\
  forall p, counters (cancel_end side p).1 = counters (close_reference (match side with Pipe.Reader => RefRead false | Writer => RefWrite end) p).1.
Proof.
  destruct side; cbn [cancel_end]; split; try done.
  - apply good_andthen; [apply good_close_read_end|apply good_cohort].
  - intros p. rewrite andthen_fst. cbn [close_reference]. unfold pure_op, end_reader_cohort. cbn [fst]. by repeat case_bool_step.
  - apply good_close_write_end.
Qed.

Lemma stepped_cancel_open i owner k own : stepped k own (pipe_do i (fun p => (cancel_fifo_open owner p).2) k) own [] [].
Proof.
  destruct (table_get (k_pipes k) i) as [p|] eqn:Hp.
  2:{ assert (pipe_do i (fun p => (cancel_fifo_open owner p).2) k = k) as ->; [|apply stepped_refl]. unfold pipe_do, on_pipes, table_update. rewrite Hp. by destruct k. }
  assert (forall f : pipe_op, f p = (cancel_fifo_open owner p).2 -> pipe_do i (fun p => (cancel_fifo_open owner p).2) k = pipe_do i f k) as Hat.
  { intros f Hf. unfold pipe_do, on_pipes, table_update. by rewrite Hp, Hf. }
  destruct (p_fifo_open_waiters p !! owner) as [w|] eqn:Hw.
  - rewrite (Hat (pure_op (drop_waiter owner) ▷ cancel_end (fw_side w))).
    2:{ unfold cancel_fifo_open. rewrite Hw. unfold andthen at 1. cbn [snd]. unfold pure_op at 1. fold (drop_waiter owner p).
        destruct (fw_side w); cbn [cancel_end app]; [by destruct ((close_read_end ▷ pure_op end_reader_cohort) (drop_waiter owner p))|].
        by destruct (close_write_end (drop_waiter owner p)). }
    rewrite pipe_do_seq. eapply stepped_quiet; [by eapply stepped_drop_waiter|]. destruct (cancel_end_good (fw_side w)) as [Hg Hc].
    unfold waiter_use. by apply stepped_pipe_do.
  - rewrite (Hat (pure_op (fun p => p))) by (unfold cancel_fifo_open; by rewrite Hw).
    assert (pipe_do i (pure_op (fun p => p)) k = k) as ->; [|apply stepped_refl]. unfold pipe_do, on_pipes, table_update, pure_op. rewrite Hp.
    unfold PipeTable.with_pipes. rewrite list_insert_id by (by apply table_get_Some). cbn. by destruct k as [[]].
Qed.

Lemma stepped_cancel_owners i owners k own : stepped k own (pipe_do i (fun p => (cancel_owners owners p).2) k) own [] [].
Proof.
  revert k. induction owners as [|owner owners IH]; intros k.
  - destruct (table_get (k_pipes k) i) as [p|] eqn:Hp; cbn [cancel_owners snd].
    + assert (pipe_do i (fun p => (p, [])) k = k) as ->; [|apply stepped_refl]. unfold pipe_do, on_pipes, table_update. rewrite Hp.
      unfold PipeTable.with_pipes. rewrite list_insert_id by (by apply table_get_Some). cbn. by destruct k as [[]].
    + assert (pipe_do i (fun p => (p, [])) k = k) as ->; [|apply stepped_refl]. unfold pipe_do, on_pipes, table_update. rewrite Hp. by destruct k.
  - rewrite (pipe_do_ext i _ ((fun p => (cancel_fifo_open owner p).2) ▷ (fun p => (cancel_owners owners p).2))).
    + rewrite pipe_do_seq. eapply stepped_quiet; [apply stepped_cancel_open|apply IH].
    + intros p. cbn [cancel_owners]. unfold andthen. destruct (cancel_fifo_open owner p) as [w [p1 e1]]. cbn [snd]. by destruct (cancel_owners owners p1) as [ws [p2 e2]].
Qed.

Definition cancel_buffer (pid : Z) : pipe_op := fun p => if p_is_fifo p then (cancel_fifo_opens_for_process pid p).2 else (p, []).

Lemma cancel_slots_on idx idxs pid k :
  on_pipes (fun t => (cancel_slots (idx :: idxs) pid t).2) k =
  on_pipes (fun t => (cancel_slots idxs pid t).2) (pipe_free idx (pipe_do idx (cancel_buffer pid) k)).
Proof.
  unfold pipe_free, pipe_do. rewrite <- !on_pipes_seq. unfold on_pipes.
  assert ((cancel_slots (idx :: idxs) pid (k_pipes k)).2 =
          table_op_seq (fun t => table_update t idx (cancel_buffer pid)) (table_op_seq (free_if_closed idx) (fun t => (cancel_slots idxs pid t).2)) (k_pipes k)) as ->; [|done].
  cbn [cancel_slots]. unfold table_op_seq, table_update, cancel_buffer.
  destruct (table_get (k_pipes k) idx) as [p|] eqn:Hp.
  - destruct (p_is_fifo p).
    + destruct (cancel_fifo_opens_for_process pid p) as [ws [p' e]]. cbn [snd]. destruct (free_if_closed idx _) as [t2 e2].
      destruct (cancel_slots idxs pid t2) as [ws3 [t3 e3]]. done.
    + unfold PipeTable.with_pipes. rewrite list_insert_id by (by apply table_get_Some). destruct (k_pipes k) as [ps fl]. cbn [pipes free_list].
      destruct (free_if_closed idx _) as [t2 e2]. destruct (cancel_slots idxs pid t2) as [ws3 [t3 e3]]. done.
  - destruct (free_if_closed idx _) as [t2 e2]. destruct (cancel_slots idxs pid t2) as [ws3 [t3 e3]]. done.
Qed.

Lemma stepped_cancel_buffer i pid k own : stepped k own (pipe_do i (cancel_buffer pid) k) own [] [].
Proof.
  destruct (table_get (k_pipes k) i) as [p|] eqn:Hp.
  - destruct (p_is_fifo p) eqn:Ef.
    + set (owners := List.filter (fun owner => as_u32 (Z.shiftr owner 32) =? pid) (sorted_keys (p_fifo_open_waiters p))).
      assert (pipe_do i (cancel_buffer pid) k = pipe_do i (fun p => (cancel_owners owners p).2) k) as ->; [|apply stepped_cancel_owners].
      unfold pipe_do, on_pipes, table_update, cancel_buffer. by rewrite Hp, Ef.
    + assert (pipe_do i (cancel_buffer pid) k = k) as ->; [|apply stepped_refl]. unfold pipe_do, on_pipes, table_update, cancel_buffer. rewrite Hp, Ef.
      unfold PipeTable.with_pipes. rewrite list_insert_id by (by apply table_get_Some). cbn. by destruct k as [[]].
  - assert (pipe_do i (cancel_buffer pid) k = k) as ->; [|apply stepped_refl]. unfold pipe_do, on_pipes, table_update. rewrite Hp. by destruct k.
Qed.

Lemma stepped_cancel pid k own : stepped k own (on_pipes (fun t => (table_cancel_fifo_opens_for_process t pid).2) k) own [] [].
Proof.
  assert (forall idxs k, stepped k own (on_pipes (fun t => (cancel_slots idxs pid t).2) k) own [] []) as Hs.
  { intros idxs. induction idxs as [|idx idxs IH]; intros k'.
    - cbn [cancel_slots snd]. unfold on_pipes. cbn. assert (with_pipe_table k' (k_pipes k') (k_world k') = k') as -> by (by destruct k'). apply stepped_refl.
    - rewrite cancel_slots_on. eapply stepped_quiet; [apply stepped_cancel_buffer|]. eapply stepped_quiet; [apply stepped_free|apply IH]. }
  unfold table_cancel_fifo_opens_for_process. specialize (Hs (seq 0 (length (pipes (k_pipes k)))) k). unfold on_pipes in *. exact Hs.
Qed.

End teardown.

(** ** The uses of a process *)

Section uses.
Context `{Usize} `{heap : Heap}.

(** The kind of reference depends on the buffer. *)
Definition pipe_ofd_uses (t : PipeTable) (o : OpenFileDesc) : list use :=
  if bool_decide (file_type o = Ofd.Pipe) && (host_handle o <? 0) then
    match table_get t (neg_index (host_handle o)) with
    | Some p => match reference_kind p (status_flags o) with Some kind => [UPipe (neg_index (host_handle o)) kind] | None => [] end
    | None => []
    end
  else [].

Definition socket_uses (s : SocketInfo) : list use :=
  if sk_global_pipes s then socket_pipe_uses (sk_send_buf_idx s) (sk_recv_buf_idx s) else [].

Definition queued_socket_uses (p : Process) (idx : nat) : list use :=
  match socket_get (pr_sockets p) idx with Some s => socket_uses s | None => [] end.

Definition socket_ofd_uses (p : Process) (o : OpenFileDesc) : list use :=
  match socket_of_ofd p o with Some s => socket_uses s ++ (sk_listen_backlog s ≫= queued_socket_uses p) | None => [] end.

Definition entry_uses (x : nat * SocketInfo) : list use :=
  (UBacklog <$> option_list (sk_shared_backlog_idx x.2)) ++ (UNet <$> option_list (sk_host_net_handle x.2)).

Definition process_uses (t : PipeTable) (p : Process) : list use :=
  (ofds p ≫= pipe_ofd_uses t) ++ (ofds p ≫= fun o => pty_use (file_type o) (host_handle o)) ++
  (ofds p ≫= fun o => backing_use (file_type o) (host_handle o)) ++ (ofds p ≫= fun o => handle_use (file_type o) (host_handle o)) ++
  (ofds p ≫= socket_ofd_uses p) ++ (socket_entries p ≫= entry_uses).

(** ** Removal releases them *)

Variables (t0 : PipeTable) (id0 : Z).

Lemma stepped_pipe_ofd o k own : stepped t0 id0 k (pipe_ofd_uses t0 o ++ own) (close_pipe_ofd k o) own [] [].
Proof.
  unfold pipe_ofd_uses, close_pipe_ofd. destruct (bool_decide _ && _); [|apply stepped_refl]. set (i := neg_index (host_handle o)).
  destruct (table_get t0 i) as [p0|] eqn:E0.
  - destruct (table_get (k_pipes k) i) as [p|] eqn:Ep.
    + intros Hk. destruct (hd_fifo _ _ _ _ Hk i p Ep) as (q & Hq & Ef). rewrite E0 in Hq. injection Hq as <-.
      assert (reference_kind p (status_flags o) = reference_kind p0 (status_flags o)) as -> by (unfold reference_kind; by rewrite Ef).
      revert Hk. destruct (reference_kind p0 (status_flags o)) as [kind|]; [|apply stepped_free].
      apply stepped_pipe_close; [apply (good_ref_step (RClose kind))|done].
    + destruct (reference_kind p0 (status_flags o)) as [kind|]; [|apply stepped_free]. intros Hk. exfalso.
      destruct (pipe_use_live k (UPipe i kind :: own) [] i kind) as [p Hp]; [apply Hk|by left|congruence].
  - destruct (table_get (k_pipes k) i) as [p|] eqn:Ep; [|apply stepped_free]. intros Hk. exfalso.
    destruct (hd_fifo _ _ _ _ Hk i p Ep) as (q & Hq & _). congruence.
Qed.

Lemma stepped_pty_ofd o k own : stepped t0 id0 k (pty_use (file_type o) (host_handle o) ++ own) (close_pty_ofd k o) own [] [].
Proof. unfold pty_use, close_pty_ofd. destruct (file_type o); try apply stepped_refl; apply stepped_pty. Qed.

Lemma stepped_backing_ofd o k own : stepped t0 id0 k (backing_use (file_type o) (host_handle o) ++ own) (release_backing_ofd k o) own [] [].
Proof. apply stepped_backing. Qed.

Lemma handle_use_type ft h : handle_use ft h = if (0 <=? h) && is_handle_type ft then [UHandle h] else [].
Proof. unfold handle_use, is_handle_type. destruct (0 <=? h); cbn [andb]; by destruct ft. Qed.

Lemma stepped_handles l k own cls dirs :
  exists new, (fold_left close_handle_ofd l (k, cls, dirs)).1.2 = cls ++ new /\
    (fold_left close_handle_ofd l (k, cls, dirs)).2 = dirs ++ List.filter (fun h => 0 <=? h) (dir_host_handle <$> l) /\
    stepped t0 id0 k ((l ≫= fun o => handle_use (file_type o) (host_handle o)) ++ own) (fold_left close_handle_ofd l (k, cls, dirs)).1.1 own new [].
Proof.
  revert k cls dirs. induction l as [|o l IH]; intros k cls dirs; cbn [fold_left].
  { exists []. rewrite !app_nil_r. split_and!; [done|done|apply stepped_refl]. }
  set (s := close_handle_ofd (k, cls, dirs) o).
  assert (exists h1, s.1.2 = cls ++ h1 /\ s.2 = dirs ++ List.filter (fun h => 0 <=? h) [dir_host_handle o] /\
    forall own, stepped t0 id0 k (handle_use (file_type o) (host_handle o) ++ own) s.1.1 own h1 []) as (h1 & E1 & E2 & Hs).
  { subst s. unfold close_handle_ofd. cbn [List.filter]. set (dirs' := if 0 <=? dir_host_handle o then _ else _).
    assert (dirs' = dirs ++ (if 0 <=? dir_host_handle o then [dir_host_handle o] else [])) as Ed by (subst dirs'; destruct (0 <=? _); [done|by rewrite app_nil_r]).
    rewrite handle_use_type. destruct ((0 <=? host_handle o) && is_handle_type (file_type o)).
    - pose proof (fun own => stepped_handle t0 id0 (host_handle o) k own) as Hh. destruct (host_handle_close_ref (k_handles k) (host_handle o)) as [last hs].
      exists (if last then [host_handle o] else []). cbn [fst snd app]. split_and!; [|done|exact Hh]. destruct last; [done|by rewrite app_nil_r].
    - exists []. rewrite app_nil_r. split_and!; [done|done|]. intros own'. apply stepped_refl. }
  destruct s as [[k1 c1] d1] eqn:Es. cbn [fst snd] in *. destruct (IH k1 c1 d1) as (h2 & E3 & E4 & Hs2). exists (h1 ++ h2).
  split_and!; [rewrite E3, E1; by rewrite <- app_assoc|rewrite E4, E2, <- app_assoc; cbn [fmap list_fmap List.filter]; by destruct (0 <=? dir_host_handle o)|].
  cbn [mbind list_bind]. rewrite <- app_assoc. apply (stepped_trans _ _ _ _ k1 ((l ≫= fun o => handle_use (file_type o) (host_handle o)) ++ own) _ _ h1 h2 [] []); [apply Hs|exact Hs2].
Qed.

Lemma stepped_queued_socket p idx k own : stepped t0 id0 k (queued_socket_uses p idx ++ own) (close_backlog_socket p k idx) own [] [].
Proof.
  unfold queued_socket_uses, close_backlog_socket. destruct (socket_get (pr_sockets p) idx) as [s|]; [|apply stepped_refl]. unfold socket_uses.
  destruct (sk_global_pipes s); [|apply stepped_refl]. apply stepped_socket_pipes; [apply good_close_read_end|done].
Qed.

Lemma stepped_socket_ofd p o k own : stepped t0 id0 k (socket_ofd_uses p o ++ own) (close_socket_ofd p k o) own [] [].
Proof.
  unfold socket_ofd_uses, close_socket_ofd. destruct (socket_of_ofd p o) as [s|]; [|apply stepped_refl]. rewrite <- app_assoc.
  eapply stepped_quiet; [|apply (stepped_fold t0 id0 (close_backlog_socket p) (queued_socket_uses p)); intros; apply stepped_queued_socket].
  unfold socket_uses. destruct (sk_global_pipes s); [|apply stepped_refl].
  apply stepped_socket_pipes; destruct (is_tcp s); [apply good_close_read_end_orderly|apply good_close_read_end|apply orderly_counters|done].
Qed.

Lemma stepped_entry x k own cls :
  exists new, (close_socket_entry (k, cls) x).2 = cls ++ new /\ stepped t0 id0 k (entry_uses x ++ own) (close_socket_entry (k, cls) x).1 own [] new.
Proof.
  unfold close_socket_entry, entry_uses. set (k1 := match sk_shared_backlog_idx x.2 with Some i => backlog_close i k | None => k end).
  assert (forall own, stepped t0 id0 k ((UBacklog <$> option_list (sk_shared_backlog_idx x.2)) ++ own) k1 own [] []) as Hb.
  { intros own'. subst k1. destruct (sk_shared_backlog_idx x.2); [apply stepped_backlog|apply stepped_refl]. }
  destruct (sk_host_net_handle x.2) as [h|].
  - pose proof (stepped_net t0 id0 h k1 own) as Hn. destruct (host_net_handle_close_ref (k_net_handles k1) h) as [last hs]. exists (if last then [h] else []).
    split; [destruct last; [done|by rewrite app_nil_r]|]. rewrite <- app_assoc. eapply stepped_quiet; [apply Hb|exact Hn].
  - exists []. split; [by rewrite app_nil_r|]. cbn [fmap list_fmap option_list app]. rewrite app_nil_r. apply Hb.
Qed.

Lemma stepped_entries l k own cls :
  exists new, (fold_left close_socket_entry l (k, cls)).2 = cls ++ new /\
    stepped t0 id0 k ((l ≫= entry_uses) ++ own) (fold_left close_socket_entry l (k, cls)).1 own [] new.
Proof.
  revert k cls. induction l as [|x l IH]; intros k cls; cbn [fold_left]; [exists []; rewrite app_nil_r; split; [done|apply stepped_refl]|].
  destruct (stepped_entry x k ((l ≫= entry_uses) ++ own) cls) as (n1 & E1 & Hs1). destruct (close_socket_entry (k, cls) x) as [k1 c1]. cbn [fst snd] in *.
  destruct (IH k1 c1) as (n2 & E2 & Hs2). exists (n1 ++ n2). split; [rewrite E2, E1; by rewrite app_assoc|]. cbn [mbind list_bind]. rewrite <- app_assoc.
  by apply (stepped_trans _ _ _ _ _ _ _ _ [] [] n1 n2 Hs1 Hs2).
Qed.

Lemma stepped_cleanup pid k own : stepped t0 id0 k own (cleanup_tables pid k) own [] [].
Proof.
  apply stepped_table; [|done..]. intros Ha. split; [by destruct Ha|]. split; by apply closes_same.
Qed.

Lemma stepped_teardown p pid k own :
  let '(k', hs, _, ns) := teardown p pid k in stepped t0 id0 k (process_uses t0 p ++ own) k' own hs ns.
Proof.
  unfold teardown, process_uses. set (k1 := on_pipes _ k). set (k2 := fold_left close_pipe_ofd (ofds p) k1). set (k3 := fold_left close_pty_ofd (ofds p) k2).
  set (k4 := fold_left release_backing_ofd (ofds p) k3). rewrite <- !app_assoc.
  set (own6 := (socket_entries p ≫= entry_uses) ++ own). set (own5 := (ofds p ≫= socket_ofd_uses p) ++ own6).
  destruct (stepped_handles (ofds p) k4 own5 [] []) as (hs & E1 & _ & H5). destruct (fold_left close_handle_ofd (ofds p) (k4, [], [])) as [[k5 cls] dirs].
  cbn [fst snd app] in E1, H5. subst cls. set (k6 := fold_left (close_socket_ofd p) (ofds p) k5).
  destruct (stepped_entries (socket_entries p) k6 own []) as (ns & E2 & H7). destruct (fold_left close_socket_entry (socket_entries p) (k6, [])) as [k7 cls].
  cbn [fst snd app] in E2, H7. subst cls.
  eapply stepped_quiet; [apply (stepped_cancel t0 id0 pid)|]. fold k1.
  eapply stepped_quiet; [apply (stepped_fold t0 id0 close_pipe_ofd (pipe_ofd_uses t0) (ofds p)); intros; apply stepped_pipe_ofd|]. fold k2.
  eapply stepped_quiet; [apply (stepped_fold t0 id0 close_pty_ofd (fun o => pty_use (file_type o) (host_handle o)) (ofds p)); intros; apply stepped_pty_ofd|]. fold k3.
  eapply stepped_quiet; [apply (stepped_fold t0 id0 release_backing_ofd (fun o => backing_use (file_type o) (host_handle o)) (ofds p)); intros; apply stepped_backing_ofd|]. fold k4.
  rewrite <- (app_nil_r hs). eapply (stepped_trans t0 id0 k4 _ k5 own5 _ own hs [] [] ns); [exact H5|].
  eapply stepped_quiet; [apply (stepped_fold t0 id0 (close_socket_ofd p) (socket_ofd_uses p) (ofds p)); intros; apply stepped_socket_ofd|]. fold k6.
  rewrite <- (app_nil_r ns). apply (stepped_trans t0 id0 k6 _ k7 own _ own [] [] ns []); [exact H7|apply stepped_cleanup].
Qed.

(** ** The drain releases the rest *)

Lemma pty_close_rest idx m k : pending (pty_close idx m k) = pending k /\ in_transit (pty_close idx m k) = in_transit k.
Proof. unfold pty_close. destruct (get_pty _ _); [|done]. by destruct (negb _). Qed.

Lemma pipe_free_nonpipe i k own air u : is_pipe_use u = false -> count u (all_uses (pipe_free i k) own air) = count u (all_uses k own air).
Proof.
  intros Hu. unfold pipe_free, free_if_closed. rewrite on_pipes_seq. etrans; apply nonpipe_uses; try done; [apply collect_conserves|apply free_inner_conserves].
Qed.

Lemma opt_close_nonpipe o f k own air u :
  good_op f -> is_pipe_use u = false -> count u (all_uses (opt_pipe_close o f k) own air) = count u (all_uses k own air).
Proof.
  intros Hg Hu. destruct o as [i|]; [|done]. cbn [opt_pipe_close]. rewrite pipe_free_nonpipe by done. apply nonpipe_uses; [by apply update_conserves|done].
Qed.

(** Apart from the pipes, a release changes counters, not holders. *)
Lemma release_nonpipe r k own air u :
  is_pipe_use u = false -> count u (all_uses (release_deferred_in_flight_resource r k).2 own air) = count u (all_uses k own air).
Proof.
  intros Hu. unfold release_deferred_in_flight_resource. destruct (manages_ofd _ _); [by destruct (release_for_ofd _ _ _)|].
  assert (forall i m, count u (all_uses (pty_close i m k) own air) = count u (all_uses k own air)) as Hpty.
  { intros i m. unfold all_uses. by destruct (pty_close_rest i m k) as [-> ->]. }
  destruct (rel_file_type r); cbn [snd]; try done.
  1,2,4: destruct (0 <=? _); [|done]; by destruct (host_handle_close_ref _ _).
  - destruct (0 <=? _); [by destruct (host_handle_close_ref _ _)|]. cbn [snd]. destruct (rel_pipe_ref_kind r) as [kind|].
    + apply (opt_close_nonpipe (Some (neg_index (rel_host_handle r))) (release_in_flight_reference kind)); [apply (good_ref_step (RRelease kind))|done].
    + by apply pipe_free_nonpipe.
  - destruct (rel_socket_global_pipes r); [|done]. cbn [snd]. etrans; apply opt_close_nonpipe; try done; [apply good_reader_release|apply (good_ref_step (RRelease RefWrite))].
Qed.

Lemma nonhandle_release_uses r h :
  UHandle h ∈ release_uses r -> manages_ofd (rel_file_type r) (rel_host_handle r) = false /\ h = rel_host_handle r /\ 0 <= h /\
  is_handle_type (rel_file_type r) = true /\ release_uses r = [UHandle h].
Proof.
  intros Hin. destruct (manages_ofd _ _) eqn:Em.
  { rewrite managed_uses in Hin by done. unfold backing_use in Hin. destruct (slot_of _ _); set_solver. }
  destruct (unmanaged_backing _ _ Em) as [_ Eb]. unfold release_uses in *. rewrite Eb in *. unfold handle_use, pty_use, socket_pipe_uses, opt_use in *. split; [done|].
  destruct (rel_file_type r); cbn [app] in *; try (by apply not_elem_of_nil in Hin); try set_solver.
  1,2,4: destruct (Z.leb_spec 0 (rel_host_handle r)); cbn [app] in *; [|by apply not_elem_of_nil in Hin]; apply list_elem_of_singleton in Hin; injection Hin as ->; done.
  - destruct (Z.leb_spec 0 (rel_host_handle r)); cbn [app] in *.
    + rewrite (proj2 (Z.ltb_ge _ _)) in * by done. rewrite ?app_nil_r in *. apply list_elem_of_singleton in Hin. injection Hin as ->. done.
    + rewrite (proj2 (Z.ltb_lt _ _)) in * by done. destruct (rel_pipe_ref_kind r); set_solver.
  - destruct (rel_socket_global_pipes r), (rel_socket_send_idx r), (rel_socket_recv_idx r); set_solver.
Qed.

Lemma release_host_close r k h :
  manages_ofd (rel_file_type r) (rel_host_handle r) = false -> h = rel_host_handle r -> 0 <= h -> is_handle_type (rel_file_type r) = true ->
  rf_host_close (release_deferred_in_flight_resource r k).1 = (if (host_handle_close_ref (k_handles k) h).1 then Some h else None).
Proof.
  intros Em -> Hh Ht. unfold release_deferred_in_flight_resource. rewrite Em. apply Z.leb_le in Hh. unfold is_handle_type in Ht.
  destruct (rel_file_type r); try done; rewrite Hh; by destruct (host_handle_close_ref _ _) as [[] ?].
Qed.

Lemma release_no_close r k :
  ~ (0 <= rel_host_handle r /\ is_handle_type (rel_file_type r) = true /\ manages_ofd (rel_file_type r) (rel_host_handle r) = false) ->
  rf_host_close (release_deferred_in_flight_resource r k).1 = None.
Proof.
  intros Hn. unfold release_deferred_in_flight_resource. destruct (manages_ofd _ _) eqn:Em; [by destruct (release_for_ofd _ _ _)|].
  unfold is_handle_type in Hn. destruct (rel_file_type r); try done; destruct (Z.leb_spec 0 (rel_host_handle r)); try done; try (by destruct Hn).
  all: by destruct (rel_socket_global_pipes r).
Qed.

Lemma release_closes k own r :
  accounts k own (release_uses r) ->
  closes UHandle (all_uses k own (release_uses r)) (all_uses k own []) (option_list (rf_host_close (release_deferred_in_flight_resource r k).1)).
Proof.
  intros Ha. assert (forall u, count u (all_uses k own (release_uses r)) = count u (all_uses k own []) + count u (release_uses r)) as Hc.
  { intros u. unfold all_uses. rewrite !count_app, count_nil. lia. }
  destruct (decide (UHandle (rel_host_handle r) ∈ release_uses r)) as [Hin|Hn].
  - destruct (nonhandle_release_uses r _ Hin) as (Em & _ & H0 & Ht & Er). rewrite (release_host_close r k _ Em eq_refl H0 Ht).
    rewrite Er in *. apply accounts_shift in Ha; [|done]. pose proof (handle_close_accounts k own [] _ Ha) as Hcl.
    destruct (host_handle_close_ref (k_handles k) (rel_host_handle r)) as [last hs]. destruct Hcl as [_ Hl]. cbn [fst].
    assert (option_list (if last then Some (rel_host_handle r) else None) = if last then [rel_host_handle r] else []) as -> by (by destruct last).
    apply closes_one; [apply _| |done]. intros x. rewrite Hc, count_cons, count_nil.
    destruct (decide (x = rel_host_handle r)) as [->|]; [rewrite decide_True by done; lia|rewrite decide_False by congruence; lia].
  - rewrite release_no_close; [|].
    + apply closes_same. intros h. rewrite Hc. rewrite (proj2 (count_zero (UHandle h) (release_uses r))); [lia|]. intros Hin.
      destruct (nonhandle_release_uses r h Hin) as (_ & -> & _). done.
    + intros (H0 & Ht & Em). apply Hn. destruct (unmanaged_backing _ _ Em) as [_ Eb]. unfold release_uses. rewrite Eb, handle_use_type, Ht.
      apply Z.leb_le in H0. rewrite H0. cbn. by left.
Qed.

Lemma fifo_pipe_do i f k : keeps_frame f -> fifo_le (k_pipes k) (k_pipes (pipe_do i f k)).
Proof. intros Hf. unfold pipe_do. rewrite on_pipes_get. by apply fifo_update. Qed.

Lemma fifo_pipe_free i k : fifo_le (k_pipes k) (k_pipes (pipe_free i k)).
Proof. unfold pipe_free. rewrite on_pipes_get. apply fifo_free. Qed.

Lemma fifo_opt_close o f k : keeps_frame f -> fifo_le (k_pipes k) (k_pipes (opt_pipe_close o f k)).
Proof. intros Hf. destruct o; [|done]. etrans; [by apply fifo_pipe_do|apply fifo_pipe_free]. Qed.

Lemma on_pipes_id f k : k_last_ofd_id (on_pipes f k) = k_last_ofd_id k.
Proof. unfold on_pipes. by destruct (f (k_pipes k)). Qed.

Lemma opt_close_id o f k : k_last_ofd_id (opt_pipe_close o f k) = k_last_ofd_id k.
Proof. destruct o; [|done]. cbn [opt_pipe_close]. unfold pipe_free, pipe_do. by rewrite !on_pipes_id. Qed.

Lemma release_frame r k :
  fifo_le (k_pipes k) (k_pipes (release_deferred_in_flight_resource r k).2) /\
  k_last_ofd_id (release_deferred_in_flight_resource r k).2 = k_last_ofd_id k.
Proof.
  unfold release_deferred_in_flight_resource. destruct (manages_ofd _ _); [by destruct (release_for_ofd _ _ _)|].
  assert (forall i m, fifo_le (k_pipes k) (k_pipes (pty_close i m k)) /\ k_last_ofd_id (pty_close i m k) = k_last_ofd_id k) as Hpty.
  { intros i m. unfold pty_close. destruct (get_pty _ _); [|done]. by destruct (negb _). }
  destruct (rel_file_type r); cbn [snd]; try done; try apply Hpty.
  1,2,4: destruct (0 <=? _); [|done]; by destruct (host_handle_close_ref _ _).
  - destruct (0 <=? _); [by destruct (host_handle_close_ref _ _)|]. cbn [snd]. unfold pipe_free at 2. rewrite on_pipes_id. destruct (rel_pipe_ref_kind r) as [kind|].
    + split; [|apply on_pipes_id]. etrans; [apply fifo_pipe_do, (good_ref_step (RRelease kind))|apply fifo_pipe_free].
    + split; [apply fifo_pipe_free|done].
  - destruct (rel_socket_global_pipes r); [|done]. cbn [snd]. rewrite !opt_close_id. split; [|done].
    etrans; apply fifo_opt_close; [apply (good_ref_step (RRelease RefWrite))|apply good_reader_release].
Qed.

Lemma stepped_release k own r q :
  pop_deferred_in_flight_release (w_deferred (k_world k)) = (Some r, q) ->
  let '(rel, k') := release_deferred_in_flight_resource r (on_deferred (fun _ => q) k) in
  stepped t0 id0 k own k' own (option_list (rf_host_close rel)) [].
Proof.
  intros Ep. destruct (release_deferred_in_flight_resource r _) as [rel k'] eqn:Er. intros [[P1 P2 P3 P4] Hf Hid].
  destruct (pop_deferred_ok k own [] r q P1 P2 Ep) as (A1 & A2 & A3). set (k1 := on_deferred (fun _ => q) k) in *.
  pose proof (release_deferred_accounts k1 own (fds_uses []) r A1) as B1. pose proof (release_deferred_transit k1 r [] A2) as B2.
  pose proof (release_deferred_slots r k1 P3) as B3. destruct (release_frame r k1) as [B4 B5].
  assert (fds_uses [] = []) as Ef by done. rewrite Ef, app_nil_r in A1. pose proof (release_closes k1 own r A1) as B6.
  pose proof (fun u => release_nonpipe r k1 own [] u) as B7. rewrite Er in *. cbn [fst snd] in *.
  assert (all_uses k own [] ≡ₚ all_uses k1 own (release_uses r)) as Hall.
  { unfold all_uses. rewrite !in_transit_split. cbn [k1 on_deferred with_world with_pipe_table k_pipes k_world with_deferred w_deferred]. rewrite A3, records_uses_app.
    assert (records_uses [r] = release_uses r) as -> by (unfold records_uses; cbn; by rewrite app_nil_r). unfold pending. cbn [k1 on_deferred with_world with_pipe_table k_pipes k_backlogs].
    cbn [app]. solve_Permutation. }
  split; [split; [by split|etrans; [exact Hf|exact B4]|by rewrite B5]|]. split.
  - destruct B6 as [C1 C2 C3]. split; [done| |]; intros h; rewrite Hall.
    + rewrite C2. by rewrite <- !count_zero, B7.
    + intros Hin. apply C3. rewrite elem_count in Hin |- *. by rewrite B7 in Hin.
  - apply closes_same. intros h. rewrite Hall, B7 by done. unfold all_uses. cbn [app]. rewrite !count_app.
    assert (count (UNet h) (release_uses r) = 0) as ->; [|lia]. apply count_zero. unfold release_uses, backing_use, handle_use, pty_use, socket_pipe_uses, opt_use.
    repeat case_match; set_solver.
Qed.

Lemma stepped_drain fuel d d' own :
  drain_deferred fuel d = Some d' ->
  exists new, dr_closes d' = dr_closes d ++ new /\ stepped t0 id0 (dr_kernel d) own (dr_kernel d') own new [].
Proof.
  revert d. induction fuel as [|fuel IH]; intros d; [done|]. rewrite drain_unfold.
  destruct (pop_deferred_in_flight_release (w_deferred (k_world (dr_kernel d)))) as [[r|] q] eqn:Ep.
  - intros Hd. apply IH in Hd as (new & E & Hs). cbn [dr_closes dr_kernel] in *. pose proof (stepped_release (dr_kernel d) own r q Ep) as Hr.
    destruct (release_deferred_in_flight_resource r _) as [rel k']. cbn [fst snd] in *. exists (option_list (rf_host_close rel) ++ new).
    split; [by rewrite E, app_assoc|]. by apply (stepped_trans t0 id0 _ _ _ _ _ _ _ _ [] [] Hr Hs).
  - intros [= <-]. exists []. split; [by rewrite app_nil_r|apply stepped_refl].
Qed.

End uses.

(** ** The end of a process *)

Section removal.
Context `{Usize} `{heap : Heap}.
Implicit Types (m : Machine) (own : list use).

Lemma passing_world k w own :
  w_in_flight w = w_in_flight (k_world k) -> w_deferred w = w_deferred (k_world k) -> passing_ok k own [] -> passing_ok (with_world k w) own [].
Proof.
  intros E1 E2 [P1 P2 P3 P4]. split; [apply accounts_world; [by rewrite E2|done]| |done|done].
  destruct P2 as [T1 T2 T3]. split; cbn [with_world with_pipe_table k_world k_pipes]; by rewrite ?E1, ?E2.
Qed.

Lemma passing_identities k r last own : passing_ok k own [] -> passing_ok (with_identities k r last) own [].
Proof. intros [P1 P2 P3 P4]. split; [by destruct P1|by eapply transit_same, P2|done|done]. Qed.

Lemma all_uses_wake k own air : all_uses (wake_locks k) own air = all_uses k own air.
Proof. by apply world_load. Qed.

Lemma all_uses_identities k r last own air : all_uses (with_identities k r last) own air = all_uses k own air.
Proof. done. Qed.

Lemma process_new_total last pid : last + 3 <= u64_max -> is_Some (process_new last pid).
Proof.
  intros Hl. unfold process_new, new_with_stdio, create, allocate_ofd_id.
  rewrite (proj2 (Z.leb_le (last + 1) _)) by lia. rewrite (proj2 (Z.leb_le (last + 1 + 1) _)) by lia.
  rewrite (proj2 (Z.leb_le (last + 1 + 1 + 1) _)) by lia. by eexists.
Qed.

Lemma limbo_total last p : last + 3 <= u64_max -> is_Some (limbo_process_from last p).
Proof. intros Hl. unfold limbo_process_from. destruct (process_new_total last (pr_pid p) Hl) as [[l n] ->]. by eexists. Qed.

(** What is left of the table when [p] goes. *)
Definition stays (others : gmap Z Process) (retain : bool) (p : Process) (pid : Z) : bool :=
  retain && (pr_pgid p =? pid) && group_has_member others pid.

Record removal_result m (p : Process) own (r : RemoveProcessResult) (k' : Kernel) : Prop := {
  rr_process : rm_process r = p;
  rr_accounts : passing_ok k' own [];
  rr_drained : dq_records (w_deferred (k_world k')) = [];
  rr_fifo : fifo_le (k_pipes (m_kernel m)) (k_pipes k');
  rr_closes : closes UHandle (all_uses (m_kernel m) (process_uses (k_pipes (m_kernel m)) p ++ own) []) (all_uses k' own []) (rm_host_closes r);
  rr_net_closes : closes UNet (all_uses (m_kernel m) (process_uses (k_pipes (m_kernel m)) p ++ own) []) (all_uses k' own []) (rm_host_net_closes r);
}.

Lemma remove_inner_spec m pid p own retain :
  processes m !! pid = Some p -> passing_ok (m_kernel m) (process_uses (k_pipes (m_kernel m)) p ++ own) [] ->
  k_last_ofd_id (m_kernel m) + 3 <= u64_max ->
  exists r m', remove_process_inner m pid retain = Some (Some r, m') /\ removal_result m p own r (m_kernel m') /\
    let others := delete pid (processes m) in
    if stays others retain p pid then exists l last, limbo_process_from (k_last_ofd_id (m_kernel m)) p = Some (l, last) /\ processes m' = <[pid := l]> others
    else processes m' = others.
Proof.
  intros Hp Hok Hid. unfold remove_process_inner. rewrite Hp. set (k := m_kernel m) in *.
  pose proof (stepped_teardown (k_pipes k) (k_last_ofd_id k) p pid k own) as Ht. destruct (teardown p pid k) as [[[k1 hs] dirs] ns].
  destruct (drain_total (drain_fuel k1) (mkDrained k1 (pt_advisory_locks (m_table m)) hs false)) as (d & Hd & Hq).
  { unfold drain_fuel, backlog. cbn [dr_kernel]. lia. }
  rewrite Hd. destruct (stepped_drain (k_pipes k) (k_last_ofd_id k) _ _ _ own Hd) as (hs2 & Ec & Hs). cbn [dr_closes dr_kernel] in *.
  assert (held (k_pipes k) (k_last_ofd_id k) k (process_uses (k_pipes k) p ++ own)) as Hheld by (by split).
  destruct (stepped_trans _ _ _ _ _ _ _ _ hs hs2 ns [] Ht Hs Hheld) as ([Hok2 Hf2 Hid2] & C1 & C2). rewrite <- Ec in C1. rewrite app_nil_r in C2.
  destruct (remove_process (dr_locks d) pid) as [locks mu]. destruct (release_ofd_locks _ _ _ _) as [locks2 ch].
  set (k2 := if ch then wake_locks (dr_kernel d) else dr_kernel d).
  assert (passing_ok k2 own [] /\ k_last_ofd_id k2 = k_last_ofd_id k /\ all_uses k2 own [] = all_uses (dr_kernel d) own [] /\ dq_records (w_deferred (k_world k2)) = [] /\
          k_pipes k2 = k_pipes (dr_kernel d)) as (E1 & E2 & E3 & E4 & E5).
  { subst k2. destruct ch; [|done]. split_and!; [by apply passing_world|done|by apply all_uses_wake|done|done]. }
  cbv zeta. fold (stays (delete pid (processes m)) retain p pid). destruct (stays _ retain p pid).
  - rewrite E2. destruct (limbo_total (k_last_ofd_id k) p Hid) as [[l last] El]. rewrite El. do 2 eexists. split; [reflexivity|]. split; [|by exists l, last].
    split; cbn [m_kernel rm_process rm_host_closes rm_host_net_closes]; [done|by apply passing_identities|done| | |];
      [cbn [with_identities k_pipes]; by rewrite E5|rewrite all_uses_identities, E3; exact C1|rewrite all_uses_identities, E3; exact C2].
  - do 2 eexists. split; [reflexivity|]. split; [|done]. split; cbn [m_kernel rm_process rm_host_closes rm_host_net_closes]; [done|done|done|by rewrite E5|by rewrite E3|by rewrite E3].
Qed.

(** C16: The end of a process releases exactly what it held.  When every counter
    of the machine is the number of its holders and the process is one of them,
    reaping it always finishes; afterwards every counter is the number of the
    holders that are left, no deferred release is pending, and the host is asked
    to close each file handle and each connection handle that lost its last
    holder (the process, or a message nobody can receive any more), once, and no
    other. *)
Theorem reap_releases_all m pid p own :
  processes m !! pid = Some p ->
  passing_ok (m_kernel m) (process_uses (k_pipes (m_kernel m)) p ++ own) [] ->
  k_last_ofd_id (m_kernel m) + 3 <= u64_max ->
  exists r m', reap_process m pid = Some (Some r, m') /\ rm_process r = p /\
    let before := all_uses (m_kernel m) (process_uses (k_pipes (m_kernel m)) p ++ own) [] in
    let after := all_uses (m_kernel m') own [] in
    passing_ok (m_kernel m') own [] /\ dq_records (w_deferred (k_world (m_kernel m'))) = [] /\
    NoDup (rm_host_closes r) /\ (forall h, h ∈ rm_host_closes r <-> UHandle h ∈ before /\ UHandle h ∉ after) /\
    NoDup (rm_host_net_closes r) /\ (forall h, h ∈ rm_host_net_closes r <-> UNet h ∈ before /\ UNet h ∉ after).
Proof.
  intros Hp Hok Hid. destruct (remove_inner_spec m pid p own true Hp Hok Hid) as (r & m1 & E & [R1 R2 R3 _ R4 R5] & _).
  unfold reap_process. rewrite E. exists r, (with_pruned m1). split; [done|]. split; [done|]. destruct R4, R5. by split_and!.
Qed.

(** ** Limbo records *)

(** Another live process of the group. *)
Definition member (ps : gmap Z Process) (pgid : Z) : Prop := exists q c, ps !! q = Some c /\ q <> pgid /\ pr_pgid c = pgid /\ pr_state c <> Limbo.

Lemma group_has_member_spec ps pgid : group_has_member ps pgid = true <-> member ps pgid.
Proof.
  unfold group_has_member. rewrite existsb_btree. unfold member. split.
  - intros (q & c & Hc & Hb). exists q, c. cbn [fst snd] in Hb. apply andb_prop in Hb as [[H1 H2]%andb_prop H3]. apply bool_decide_eq_true in H3.
    split_and!; [done|lia|lia|done].
  - intros (q & c & Hc & H1 & H2 & H3). exists q, c. split; [done|]. cbn [fst snd]. rewrite bool_decide_eq_true_2 by done. rewrite H2. lia.
Qed.

Lemma fold_delete {A} (l : list (Z * A)) (acc : gmap Z A) i :
  fold_left (fun acc x => delete x.1 acc) l acc !! i = if bool_decide (i ∈ l.*1) then None else acc !! i.
Proof.
  revert acc. induction l as [|[j x] l IH]; intros acc; cbn [fold_left fmap list_fmap]; [by rewrite bool_decide_eq_false_2 by apply not_elem_of_nil|].
  rewrite IH. cbn [fst]. destruct (decide (i ∈ l.*1)) as [Hin|Hn].
  - rewrite !bool_decide_eq_true_2; [done|by right|done].
  - rewrite (bool_decide_eq_false_2 (i ∈ l.*1)) by done. destruct (decide (i = j)) as [->|Hne].
    + rewrite bool_decide_eq_true_2 by left. by rewrite lookup_delete_eq.
    + rewrite bool_decide_eq_false_2 by (by intros [?|?]%elem_of_cons). by rewrite lookup_delete_ne.
Qed.

Lemma prune_lookup ps i :
  prune_empty_limbo_groups ps !! i = match ps !! i with Some x => if is_empty_limbo ps (i, x) then None else Some x | None => None end.
Proof.
  unfold prune_empty_limbo_groups. rewrite fold_delete. case_bool_decide as Hin.
  - apply list_elem_of_fmap in Hin as ([j x] & Hj & Hx). cbn in Hj. subst j. apply elem_of_filter_bool in Hx as [Hx He]. apply elem_of_btree_iter in Hx.
    by rewrite Hx, He.
  - destruct (ps !! i) as [x|] eqn:Ex; [|done]. destruct (is_empty_limbo ps (i, x)) eqn:Ee; [|done]. destruct Hin. apply list_elem_of_fmap. exists (i, x).
    split; [done|]. apply elem_of_filter_bool. by rewrite elem_of_btree_iter.
Qed.

Lemma member_prune ps g : member (prune_empty_limbo_groups ps) g <-> member ps g.
Proof.
  unfold member. split; intros (q & c & Hc & H1 & H2 & H3); exists q, c; (split; [|done]).
  - rewrite prune_lookup in Hc. destruct (ps !! q); [|done]. by destruct (is_empty_limbo _ _).
  - rewrite prune_lookup, Hc. unfold is_empty_limbo. cbn [snd]. by rewrite bool_decide_eq_false_2.
Qed.

Lemma is_empty_limbo_spec ps i x : is_empty_limbo ps (i, x) = true <-> pr_state x = Limbo /\ pr_pgid x = i /\ ~ member ps i.
Proof.
  unfold is_empty_limbo. cbn [fst snd]. rewrite !andb_true_iff, negb_true_iff, <- not_true_iff_false, group_has_member_spec, bool_decide_eq_true, Z.eqb_eq. tauto.
Qed.

(** An empty limbo record. *)
Record limbo_of (p l : Process) : Prop := {
  li_state : pr_state l = Limbo;
  li_ids : pr_pid l = pr_pid p /\ pr_ppid l = pr_ppid p /\ pr_pgid l = pr_pgid p /\ pr_sid l = pr_sid p;
  li_nothing : ofds l = [] /\ FdTable.iter (pr_fd_table l) = [] /\ socket_entries l = [] /\ pr_threads l = [] /\ pr_wait_event l = None;
}.

Lemma limbo_from_spec last p l n : limbo_process_from last p = Some (l, n) -> limbo_of p l.
Proof.
  unfold limbo_process_from. destruct (process_new last (pr_pid p)) as [[q n']|] eqn:E; [|done]. intros [= <- _].
  assert (pr_pid q = pr_pid p /\ pr_sockets q = socket_table_new /\ pr_threads q = [] /\ pr_wait_event q = None) as (E1 & E2 & E3 & E4).
  { unfold process_new, new_with_stdio in E. repeat case_match; simplify_eq; done. }
  split; [done|done|]. unfold socket_entries. cbn. rewrite E2. done.
Qed.

(** The table after the removal, before the pruning. *)
Lemma remove_inner_processes m pid retain r m' :
  remove_process_inner m pid retain = Some (Some r, m') ->
  processes m !! pid = Some (rm_process r) /\
  let others := delete pid (processes m) in
  if stays others retain (rm_process r) pid then exists l, limbo_of (rm_process r) l /\ processes m' = <[pid := l]> others
  else processes m' = others.
Proof.
  unfold remove_process_inner. destruct (processes m !! pid) as [p|]; [|done]. destruct (teardown p pid (m_kernel m)) as [[[k1 hs] dirs] ns].
  destruct (drain_deferred _ _) as [d|]; [|done]. destruct (remove_process (dr_locks d) pid) as [locks mu]. destruct (release_ofd_locks _ _ _ _) as [locks2 ch].
  cbv zeta. fold (stays (delete pid (processes m)) retain p pid). destruct (stays _ retain p pid) eqn:Es.
  - destruct (limbo_process_from _ p) as [[l last]|] eqn:El; [|done]. intros [= <- <-]. cbn [rm_process]. split; [done|]. rewrite Es. exists l.
    split; [by eapply limbo_from_spec|done].
  - intros [= <- <-]. cbn [rm_process]. split; [done|]. by rewrite Es.
Qed.

(** A limbo record is kept exactly as long as a group needs its identity.
    After a process is reaped, its identifier stays in the table exactly when it
    led a process group that still has another live member, and then as a record
    that holds no descriptor, description, socket, thread or event; every limbo
    record of a group leader in the table has a live member; and no other live
    process is affected. *)
Theorem limbo_kept_for_groups m pid r m' :
  reap_process m pid = Some (Some r, m') ->
  let p := rm_process r in
  (match processes m' !! pid with
   | Some l => limbo_of p l /\ pr_pgid p = pid /\ member (processes m) pid
   | None => ~ (pr_pgid p = pid /\ member (processes m) pid)
   end) /\
  (forall q l, processes m' !! q = Some l -> pr_state l = Limbo -> pr_pgid l = q -> member (processes m') q) /\
  (forall q x, q <> pid -> pr_state x <> Limbo -> processes m' !! q = Some x <-> processes m !! q = Some x).
Proof.
  unfold reap_process. destruct (remove_process_inner m pid true) as [[[r1|] m1]|] eqn:E; try done. intros [= <- <-]. cbv zeta.
  apply remove_inner_processes in E as [Hp Hps]. cbv zeta in Hps. set (p := rm_process r1) in *. set (others := delete pid (processes m)) in *.
  change (processes (with_pruned m1)) with (prune_empty_limbo_groups (processes m1)).
  assert (member others pid <-> member (processes m) pid) as Hm.
  { unfold member, others. split; intros (q & c & Hc & H1 & H2 & H3); exists q, c; (split; [|done]); rewrite lookup_delete_ne in * by done; done. }
  assert (stays others true p pid = true <-> pr_pgid p = pid /\ member (processes m) pid) as Hst.
  { unfold stays. cbn [andb]. rewrite andb_true_iff, Z.eqb_eq, group_has_member_spec. by rewrite Hm. }
  split_and!.
  - rewrite prune_lookup. destruct (stays others true p pid) eqn:Es.
    + destruct Hps as (l & Hl & ->). rewrite lookup_insert_eq. destruct (proj1 Hst eq_refl) as [H1 H2].
      destruct (is_empty_limbo (<[pid:=l]> others) (pid, l)) eqn:Ee; [|done]. apply is_empty_limbo_spec in Ee as (_ & _ & Hn). exfalso. apply Hn.
      apply Hm in H2 as (q & c & Hc & H3 & H4 & H5). exists q, c. by rewrite lookup_insert_ne.
    + rewrite Hps. subst others. rewrite lookup_delete_eq. intros Hx. by apply Hst in Hx.
  - intros q l Hl Hs Hg. rewrite member_prune. rewrite prune_lookup in Hl. destruct (processes m1 !! q) as [x|]; [|done].
    destruct (is_empty_limbo (processes m1) (q, x)) eqn:Ee; [done|]. injection Hl as ->.
    destruct (group_has_member (processes m1) q) eqn:Eg; [by apply group_has_member_spec|]. exfalso. rewrite <- not_true_iff_false, group_has_member_spec in Eg.
    assert (is_empty_limbo (processes m1) (q, l) = true) as Ht by (by apply is_empty_limbo_spec). congruence.
  - intros q x Hne Hs. assert (processes m1 !! q = processes m !! q) as Eq.
    { destruct (stays others true p pid); [destruct Hps as (l & _ & ->); rewrite lookup_insert_ne by done|rewrite Hps]; subst others; by rewrite lookup_delete_ne. }
    rewrite prune_lookup, Eq. destruct (processes m !! q) as [y|]; [|done]. destruct (is_empty_limbo (processes m1) (q, y)) eqn:Ee; [|done].
    apply is_empty_limbo_spec in Ee as [Hy _]. split; [done|]. by intros [= ->].
Qed.

End removal.

(** ** What a fork inherits *)

(** The same live buffers, of the same kinds. *)
Definition fifo_eq (t t' : PipeTable) : Prop := forall i, p_is_fifo <$> table_get t i = p_is_fifo <$> table_get t' i.

#[export] Instance fifo_eq_equiv : Equivalence fifo_eq.
Proof. split; [by intros t i|by intros a b Hab i|]. intros a b c Hab Hbc i. by rewrite Hab, Hbc. Qed.

Lemma fifo_eq_do i f k : keeps_frame f -> fifo_eq (k_pipes k) (k_pipes (pipe_do i f k)).
Proof.
  intros Hf j. unfold pipe_do. rewrite on_pipes_get. destruct (table_get (k_pipes k) i) as [p|] eqn:Hp.
  - rewrite (table_get_update _ _ _ _ _ Hp). destruct (Nat.eqb_spec j i) as [->|]; [|done]. rewrite Hp. cbn. by rewrite frame_fifo.
  - unfold table_update. by rewrite Hp.
Qed.

Lemma pipe_ofd_uses_eq `{Usize} t t' o : fifo_eq t t' -> pipe_ofd_uses t o = pipe_ofd_uses t' o.
Proof.
  intros He. unfold pipe_ofd_uses. destruct (_ && _); [|done]. specialize (He (neg_index (host_handle o))). unfold reference_kind.
  destruct (table_get t _) as [p|], (table_get t' _) as [q|]; try done. injection He as ->. done.
Qed.

Lemma process_uses_eq `{Usize} t t' p : fifo_eq t t' -> process_uses t p = process_uses t' p.
Proof.
  intros He. unfold process_uses. f_equal. induction (ofds p) as [|o l IH]; [done|]. cbn [mbind list_bind]. by rewrite (pipe_ofd_uses_eq t t' o He), IH.
Qed.

Section inherit.
Context `{Usize} `{heap : Heap}.
Implicit Types (k : Kernel) (own us : list use).
Variables (t0 : PipeTable) (base : list use).

Record kept k own : Prop := {
  kp_ok : passing_ok k own [];
  kp_fifo : fifo_eq t0 (k_pipes k);
  kp_base : forall u, u ∈ base -> u ∈ all_uses k own [];
}.

(** From [k] to [k'], one more holder of each of [us]. *)
Definition took us k k' : Prop :=
  forall own, kept k own -> us ⊆ base -> load k own [] + Z.of_nat (length us) <= u32_max ->
  kept k' (us ++ own) /\ load k' (us ++ own) [] = load k own [] + Z.of_nat (length us).

Lemma app_subseteq (a b c : list use) : a ++ b ⊆ c <-> a ⊆ c /\ b ⊆ c.
Proof.
  split; [intros Hs; split; intros u Hu; apply Hs, elem_of_app; [by left|by right]|]. intros [Ha Hb] u [Hu|Hu]%elem_of_app; [by apply Ha|by apply Hb].
Qed.

Lemma took_refl k : took [] k k.
Proof. intros own Hk _ _. split; [done|]. cbn [app length]. lia. Qed.

Lemma kept_perm k own own' : own ≡ₚ own' -> kept k own -> kept k own'.
Proof.
  intros Hp [H1 H2 H3]. split; [by eapply passing_perm|done|]. intros u Hu. apply H3 in Hu. unfold all_uses in *. by rewrite <- Hp.
Qed.

Lemma load_perm k own own' air : own ≡ₚ own' -> load k own air = load k own' air.
Proof. intros Hp. unfold load, all_uses. by rewrite Hp. Qed.

Lemma took_trans us us' k1 k2 k3 : took us k1 k2 -> took us' k2 k3 -> took (us ++ us') k1 k3.
Proof.
  intros H12 H23 own Hk Hs Hl. rewrite length_app in *. destruct (H12 own Hk) as [Hk2 Hl2]; [set_solver|lia|].
  destruct (H23 _ Hk2) as [Hk3 Hl3]; [set_solver|lia|]. assert (us' ++ us ++ own ≡ₚ (us ++ us') ++ own) as Hp by solve_Permutation.
  split; [by eapply kept_perm|]. rewrite <- (load_perm _ _ _ _ Hp). lia.
Qed.

Lemma took_fold {A} (f : Kernel -> A -> Kernel) (uses : A -> list use) l :
  (forall x k, took (uses x) k (f k x)) -> forall k, took (l ≫= uses) k (fold_left f l k).
Proof. intros Hf. induction l as [|x l IH]; intros k; cbn [fold_left mbind list_bind]; [apply took_refl|]. eapply took_trans; [apply Hf|apply IH]. Qed.

(** One resource more, outside the pipes. *)
Lemma took_one u k k' :
  (forall own, accounts k own [] -> u ∈ all_uses k own [] -> load k own [] < u32_max -> accounts k' (u :: own) []) ->
  k_pipes k' = k_pipes k -> k_world k' = k_world k -> (k_backlogs k' ≫= backlog_uses) = (k_backlogs k ≫= backlog_uses) ->
  took [u] k k'.
Proof.
  intros Ha Ep Ew Eb own [[P1 P2 P3 P4] Hf Hb] Hs Hl. cbn [length] in Hl.
  assert (forall own, all_uses k' own [] = all_uses k own []) as Eu by (intros; unfold all_uses, Accounts.pending, in_transit; by rewrite Ep, Ew, Eb).
  split; [|unfold load; rewrite Eu; unfold all_uses; cbn [app length]; lia]. split.
  - split; [apply Ha; [done|apply Hb, Hs; by left|lia]|by eapply transit_same|by rewrite Ep|done].
  - by rewrite Ep.
  - intros v Hv. rewrite Eu. apply Hb in Hv. unfold all_uses in *. cbn [app]. by right.
Qed.

Lemma took_pipe i kind f k :
  good_op f -> (forall p, counters (f p).1 = counters (ref_step (RAdd kind) p).1) -> took [UPipe i kind] k (pipe_do i f k).
Proof.
  intros Hg Hc own [[P1 P2 P3 P4] Hf Hb] Hs Hl. cbn [length] in Hl. split.
  - split; [split|..].
    + apply add_pipe_accounts; [exact P1|apply Hb, Hs; by left|change (fds_uses []) with (@nil use); lia|done|done].
    + by apply pipe_do_transit.
    + apply slots_pipe_do; [apply Hg|done].
    + done.
    + etrans; [exact Hf|]. apply fifo_eq_do, Hg.
    + intros u Hu. rewrite pipe_do_uses by done. apply Hb in Hu. unfold all_uses in *. cbn [app]. by right.
  - rewrite pipe_do_load by done. unfold load, all_uses. cbn [app length]. lia.
Qed.

Lemma took_opt o kind f k :
  good_op f -> (forall p, counters (f p).1 = counters (ref_step (RAdd kind) p).1) -> took (opt_use o kind) k (opt_pipe_do o f k).
Proof. intros Hg Hc. destruct o; [by apply took_pipe|apply took_refl]. Qed.

Lemma took_pipe_ofd o k : fifo_eq t0 (k_pipes k) -> took (pipe_ofd_uses t0 o) k (bump_pipe k o).
Proof.
  intros Hf. rewrite (pipe_ofd_uses_eq _ _ o Hf). unfold pipe_ofd_uses, bump_pipe. destruct (_ && _); [|apply took_refl].
  destruct (table_get (k_pipes k) _) as [p|]; [|apply took_refl]. destruct (reference_kind p (status_flags o)) as [kind|]; [|apply took_refl].
  apply took_pipe; [apply (good_ref_step (RAdd kind))|done].
Qed.

Lemma took_handle_ofd o k : took (handle_use (file_type o) (host_handle o)) k (bump_handle k o).
Proof.
  rewrite handle_use_type. unfold bump_handle. destruct (_ && _); [|apply took_refl]. apply took_one; [|done..]. intros own. apply handle_fork_accounts.
Qed.

Lemma took_pty i p m k : get_pty (k_ptys k) i = Some p -> took [UPty i m] k (put_pty k i (pty_add p m)).
Proof. intros Hp. apply took_one; [|done..]. intros own Ha _ Hl. by apply pty_add_accounts. Qed.

Lemma took_pty_ofd o k : took (pty_use (file_type o) (host_handle o)) k (bump_pty k o).
Proof.
  assert (forall i m, get_pty (k_ptys k) i = None -> took [UPty i m] k k) as Hdead.
  { intros i m Hn own [[P1 _ _ _] _ Hb] Hs _. exfalso. pose proof (ac_ptys _ _ _ P1 i) as Hi. rewrite Hn in Hi.
    assert (UPty i m ∈ all_uses k own []) as Hin by (apply Hb, Hs; by left). apply count_elem in Hin. unfold all_uses in Hin. change (fds_uses []) with (@nil use) in Hi.
    destruct m; lia. }
  unfold pty_use, bump_pty. cbv zeta. destruct (get_pty (k_ptys k) (usize_index (host_handle o))) as [p|] eqn:Hp; destruct (file_type o); try apply took_refl.
  - by apply (took_pty _ p true k).
  - by apply (took_pty _ p false k).
  - by apply Hdead.
  - by apply Hdead.
Qed.

Lemma took_socket_ofd child o k :
  (forall i s, socket_get (pr_sockets child) i = Some s -> sk_listen_backlog s = []) -> took (socket_ofd_uses child o) k (bump_socket_pipes child k o).
Proof.
  intros Hn. unfold socket_ofd_uses, bump_socket_pipes. destruct (socket_of_ofd child o) as [s|] eqn:Es; [|apply took_refl].
  assert (sk_listen_backlog s = []) as -> by (unfold socket_of_ofd in Es; destruct (_ && _); [by eapply Hn|done]). cbn [mbind list_bind]. rewrite app_nil_r.
  unfold socket_uses. destruct (sk_global_pipes s); [|apply took_refl]. unfold socket_pipe_uses. eapply took_trans; apply took_opt; try done;
    [apply (good_ref_step (RAdd RefWrite))|apply (good_ref_step (RAdd (RefRead false)))].
Qed.

Lemma took_tables k n u m p : took [] k (with_tables k n u m p).
Proof. intros own [[P1 P2 P3 P4] Hf Hb] _ Hl. split; [|unfold load; cbn [app length]; change (all_uses (with_tables k n u m p) own []) with (all_uses k own []); lia].
  split; [split; [by destruct P1|by eapply transit_same, P2|done|done]|done|done].
Qed.

Lemma took_entry parent child x k : took (entry_uses x) k (bump_socket parent child k x).
Proof.
  unfold bump_socket, entry_uses. set (k1 := with_tables _ _ _ _ _).
  set (k2 := match sk_shared_backlog_idx x.2 with Some i => _ | None => k1 end).
  set (k3 := match sk_host_net_handle x.2 with Some h => _ | None => k2 end).
  assert (took (UBacklog <$> option_list (sk_shared_backlog_idx x.2)) k k2) as H2.
  { apply (took_trans [] _ k k1 k2); [apply took_tables|]. subst k2. destruct (sk_shared_backlog_idx x.2) as [i|]; [|apply took_refl].
    intros own Hk Hs Hl. cbn [fmap list_fmap option_list] in *. apply took_one; try done; [intros own'; apply backlog_add_accounts|].
    cbn [with_backlogs k_backlogs]. unfold backlog_add_ref. destruct (k_backlogs k1 !! i) as [e|] eqn:Ee; [|done]. destruct (bl_in_use e) eqn:Eu; [|done].
    eapply backlog_uses_insert; [exact Ee|]. unfold backlog_uses. by rewrite Eu. }
  assert (took (UNet <$> option_list (sk_host_net_handle x.2)) k2 k3) as H3.
  { subst k3. destruct (sk_host_net_handle x.2) as [h|]; [|apply took_refl]. apply took_one; [|done..]. intros own. apply net_fork_accounts. }
  pose proof (took_trans _ _ _ _ _ H2 H3) as H23. destruct (sk_bind_path x.2); [|exact H23].
  rewrite <- (app_nil_r (_ ++ _)). eapply took_trans; [exact H23|apply took_tables].
Qed.

(** *** Descriptor backings, with the rollback *)

Definition backing_uses (l : list (FileType * Z)) : list use := l ≫= fun x => backing_use x.1 x.2.

Lemma release_backings_ok l k own :
  passing_ok k (backing_uses l ++ own) [] -> passing_ok (with_backings k (release_backings (k_backings k) l)) own [].
Proof.
  revert k. induction l as [|[ft h] l IH]; intros k Hk; cbn [release_backings].
  - assert (with_backings k (k_backings k) = k) as -> by (by destruct k). exact Hk.
  - destruct Hk as [P1 P2 P3 P4]. unfold backing_uses in P1. cbn [mbind list_bind fst snd] in P1. rewrite <- app_assoc in P1.
    pose proof (release_accounts k _ _ ft h P1) as Hr. destruct (release_for_ofd (k_backings k) ft h) as [freed b]. destruct Hr as [Hr _]. cbn [snd].
    apply (IH (with_backings k b)). split; [exact Hr|by eapply transit_same, P2|done|done].
Qed.

Lemma bump_backings_ok l bumped k own :
  kept k (backing_uses bumped ++ own) -> (l ≫= fun o => backing_use (file_type o) (host_handle o)) ⊆ base ->
  load k (backing_uses bumped ++ own) [] + Z.of_nat (length (l ≫= fun o => backing_use (file_type o) (host_handle o))) <= u32_max - 1 ->
  let '(res, b) := bump_backings l bumped (k_backings k) in
  match res with
  | Ok _ => let own' := (l ≫= fun o => backing_use (file_type o) (host_handle o)) ++ backing_uses bumped ++ own in
      kept (with_backings k b) own' /\
      load (with_backings k b) own' [] = load k (backing_uses bumped ++ own) [] + Z.of_nat (length (l ≫= fun o => backing_use (file_type o) (host_handle o)))
  | Err _ => passing_ok (with_backings k b) own []
  end.
Proof.
  revert bumped k. induction l as [|o l IH]; intros bumped k Hk Hs Hl; cbn [bump_backings].
  { assert (with_backings k (k_backings k) = k) as -> by (by destruct k). split; [done|]. cbn. lia. }
  cbn [mbind list_bind] in Hs, Hl. rewrite length_app in Hl. pose proof Hk as [[P1 P2 P3 P4] Hf Hb].
  pose proof (add_ref_accounts k _ [] (file_type o) (host_handle o) P1 ltac:(change (fds_uses []) with (@nil use) in *; lia)) as Ha.
  destruct (add_ref_for_ofd (k_backings k) (file_type o) (host_handle o)) as [[[]|e] b].
  - destruct Ha as [Hne Ha]. set (us := backing_use (file_type o) (host_handle o)) in *.
    assert (us ++ backing_uses bumped ++ own ≡ₚ backing_uses (vec_push bumped (file_type o, host_handle o)) ++ own) as Hp.
    { unfold backing_uses, vec_push. rewrite bind_app. cbn [mbind list_bind fst snd]. fold us. rewrite app_nil_r. solve_Permutation. }
    assert (kept (with_backings k b) (us ++ backing_uses bumped ++ own)) as Hk'.
    { split; [split; [exact Ha|by eapply transit_same, P2|done|done]|done|]. intros u Hu. apply Hb in Hu.
      change (all_uses (with_backings k b)) with (all_uses k). unfold all_uses in *. set_solver. }
    assert (load (with_backings k b) (us ++ backing_uses bumped ++ own) [] = load k (backing_uses bumped ++ own) [] + Z.of_nat (length us)) as El.
    { unfold load. change (all_uses (with_backings k b)) with (all_uses k). unfold all_uses. rewrite !length_app. lia. }
    rewrite (load_perm _ _ _ _ Hp) in El. specialize (IH _ (with_backings k b) (kept_perm _ _ _ Hp Hk') ltac:(set_solver) ltac:(lia)).
    change (k_backings (with_backings k b)) with b in IH. destruct (bump_backings l (vec_push bumped _) b) as [[[]|e] b']; [|exact IH].
    destruct IH as [I1 I2]. change (with_backings (with_backings k b) b') with (with_backings k b') in I1, I2. cbn [mbind list_bind]. fold us.
    assert ((l ≫= fun o => backing_use (file_type o) (host_handle o)) ++ backing_uses (vec_push bumped (file_type o, host_handle o)) ++ own ≡ₚ
            (us ++ (l ≫= fun o => backing_use (file_type o) (host_handle o))) ++ backing_uses bumped ++ own) as Hp2.
    { rewrite <- Hp, !app_assoc. by rewrite (Permutation_app_comm _ us). }
    split; [eapply kept_perm; [exact Hp2|exact I1]|]. rewrite <- (load_perm _ _ _ _ Hp2), I2, El, length_app. lia.
  - destruct Ha as [Eb ->]. cbn [mbind list_bind]. rewrite Eb in *. cbn [app length] in *. apply IH; [done|set_solver|lia].
  - apply (release_backings_ok (rev bumped) (with_backings k b)). eapply passing_perm; [|reflexivity|split; [exact Ha|by eapply transit_same, P2|done|done]].
    unfold backing_uses. by rewrite <- (Permutation_rev bumped).
Qed.

Lemma bump_ok parent child k own :
  kept k own -> process_uses t0 child ⊆ base ->
  (forall i s, socket_get (pr_sockets child) i = Some s -> sk_listen_backlog s = []) ->
  load k own [] + Z.of_nat (length (process_uses t0 child)) <= u32_max - 1 ->
  let '(res, k') := bump_inherited_resource_refcounts parent child k in
  match res with
  | Ok _ => passing_ok k' (process_uses t0 child ++ own) [] /\ fifo_eq t0 (k_pipes k')
  | Err _ => passing_ok k' own [] /\ fifo_eq t0 (k_pipes k')
  end.
Proof.
  intros Hk Hs Hn Hl. unfold bump_inherited_resource_refcounts, process_uses in *. rewrite !length_app in Hl.
  repeat setoid_rewrite app_subseteq in Hs. destruct Hs as (S1 & S2 & S3 & S4 & S5 & S6).
  pose proof (bump_backings_ok (ofds child) [] k own Hk S3 ltac:(cbn [backing_uses mbind list_bind app]; lia)) as Hb.
  cbn [backing_uses mbind list_bind app] in Hb. destruct (bump_backings (ofds child) [] (k_backings k)) as [[[]|e] b].
  2:{ split; [exact Hb|]. apply Hk. }
  destruct Hb as [Hk1 Hl1].
  assert (forall k', took (ofds child ≫= pipe_ofd_uses t0) k' (fold_left bump_pipe (ofds child) k')) as T1.
  { apply took_fold. intros o k' own' Hk'. apply took_pipe_ofd; [apply Hk'|done]. }
  assert (forall k', took (ofds child ≫= fun o => handle_use (file_type o) (host_handle o)) k' (fold_left bump_handle (ofds child) k')) as T2.
  { apply (took_fold bump_handle (fun o => handle_use (file_type o) (host_handle o))). intros; apply took_handle_ofd. }
  assert (forall k', took (ofds child ≫= fun o => pty_use (file_type o) (host_handle o)) k' (fold_left bump_pty (ofds child) k')) as T3.
  { apply (took_fold bump_pty (fun o => pty_use (file_type o) (host_handle o))). intros; apply took_pty_ofd. }
  assert (forall k', took (ofds child ≫= socket_ofd_uses child) k' (fold_left (bump_socket_pipes child) (ofds child) k')) as T4.
  { apply took_fold. intros; by apply took_socket_ofd. }
  assert (forall k', took (socket_entries child ≫= entry_uses) k' (fold_left (bump_socket parent (pr_pid child)) (socket_entries child) k')) as T5.
  { apply took_fold. intros; apply took_entry. }
  pose proof (took_trans _ _ _ _ _ (took_trans _ _ _ _ _ (took_trans _ _ _ _ _ (took_trans _ _ _ _ _ (T1 (with_backings k b)) (T2 _)) (T3 _)) (T4 _)) (T5 _)) as T.
  destruct (T _ Hk1) as [[R1 R2 _] _]; [by rewrite !app_subseteq|rewrite !length_app; lia|]. split; [|exact R2].
  eapply passing_perm; [|reflexivity|exact R1]. solve_Permutation.
Qed.
End inherit.

(** ** Fork *)

Section fork.
Context `{Usize} `{heap : Heap}.
Implicit Types (m : Machine) (own : list use).

Lemma app_subset (a b a' b' : list use) : a ⊆ a' -> b ⊆ b' -> a ++ b ⊆ a' ++ b'.
Proof. intros Ha Hb u. rewrite !elem_of_app. intros [Hu|Hu]; [left; by apply Ha|right; by apply Hb]. Qed.

Lemma bind_subset {A B C} (f : A -> list C) (g : B -> list C) l l' :
  (forall x, x ∈ l -> exists y, y ∈ l' /\ f x ⊆ g y) -> (l ≫= f) ⊆ (l' ≫= g).
Proof. intros Hx u (x & Hu & Hin)%list_elem_of_bind. destruct (Hx x Hin) as (y & Hy & Hs). apply list_elem_of_bind. exists y. auto. Qed.

Lemma elem_of_ofds p o : o ∈ ofds p <-> exists i, Ofd.get (pr_ofd_table p) i = Some o.
Proof.
  unfold ofds. rewrite ofd_iter_slots, list_elem_of_fmap. split.
  - intros ([i x] & -> & Hx). exists i. apply elem_of_slots_from in Hx as [_ Hx]. rewrite Nat.sub_0_r in Hx. by rewrite get_slot.
  - intros [i Hi]. rewrite get_slot in Hi. exists (i, o). split; [done|]. apply elem_of_slots_from. rewrite Nat.sub_0_r. split; [lia|done].
Qed.

Lemma elem_of_sockets p i s : (i, s) ∈ socket_entries p <-> socket_get (pr_sockets p) i = Some s.
Proof.
  unfold socket_entries. rewrite elem_of_slots_from, Nat.sub_0_r, (socket_get_slot (pr_sockets p) i). split; [by intros [_ ?]|]. intros Hs. split; [lia|done].
Qed.

(** The child holds what the parent holds. *)
Lemma fork_child_uses t p pid : fork_encodable p -> process_uses t (fork_child p pid) ⊆ process_uses t p.
Proof.
  intros Hp. pose proof (fork_child_spec p pid Hp) as Hc. set (c := fork_child p pid) in *.
  assert (forall o', o' ∈ ofds c -> exists o, o ∈ ofds p /\ file_type o' = file_type o /\ status_flags o' = status_flags o /\ host_handle o' = host_handle o) as Ho.
  { intros o' (i & Hi)%elem_of_ofds. rewrite (fc_ofds _ _ _ Hc) in Hi. cbv zeta in Hi. destruct (Ofd.get (pr_ofd_table p) i) as [o|] eqn:Eo; [|done].
    destruct (_ =? 0); [done|]. injection Hi as <-. exists o. split; [apply elem_of_ofds; by exists i|done]. }
  unfold process_uses.
  assert (forall (f : OpenFileDesc -> list use), (forall o o', file_type o' = file_type o -> status_flags o' = status_flags o -> host_handle o' = host_handle o -> f o' = f o) ->
            (ofds c ≫= f) ⊆ (ofds p ≫= f)) as Hf.
  { intros f Heq. apply bind_subset. intros o' Ho'. destruct (Ho o' Ho') as (o & Hin & E1 & E2 & E3). exists o. split; [done|]. by rewrite (Heq o o'). }
  assert (forall s, socket_uses (child_socket s) = socket_uses s) as Hsu by done.
  assert ((ofds c ≫= socket_ofd_uses c) ⊆ (ofds p ≫= socket_ofd_uses p)) as H5.
  { apply bind_subset. intros o' Ho'. destruct (Ho o' Ho') as (o & Hin & E1 & E2 & E3). exists o. split; [done|]. unfold socket_ofd_uses, socket_of_ofd. rewrite E1, E3.
    destruct (_ && _); [|done]. rewrite (fc_sockets _ _ _ Hc). destruct (socket_get (pr_sockets p) _) as [s|]; [|done]. cbn [fmap option_fmap option_map]. rewrite Hsu.
    cbn [child_socket socket_clone sk_listen_backlog mbind list_bind]. set_solver. }
  assert ((socket_entries c ≫= entry_uses) ⊆ (socket_entries p ≫= entry_uses)) as H6.
  { apply bind_subset. intros [i s'] Hs. apply elem_of_sockets in Hs. rewrite (fc_sockets _ _ _ Hc) in Hs. destruct (socket_get (pr_sockets p) i) as [s|] eqn:Es; [|done].
    injection Hs as <-. exists (i, s). by rewrite elem_of_sockets. }
  pose proof (Hf (pipe_ofd_uses t) ltac:(intros o o' E1 E2 E3; unfold pipe_ofd_uses; by rewrite E1, E2, E3)) as H1.
  pose proof (Hf (fun o => pty_use (file_type o) (host_handle o)) ltac:(intros o o' E1 E2 E3; cbv beta; by rewrite E1, E3)) as H2.
  pose proof (Hf (fun o => backing_use (file_type o) (host_handle o)) ltac:(intros o o' E1 E2 E3; cbv beta; by rewrite E1, E3)) as H3.
  pose proof (Hf (fun o => handle_use (file_type o) (host_handle o)) ltac:(intros o o' E1 E2 E3; cbv beta; by rewrite E1, E3)) as H4.
  repeat (apply app_subset; [done|]). done.
Qed.

Lemma fork_child_no_backlog p pid i s : fork_encodable p -> socket_get (pr_sockets (fork_child p pid)) i = Some s -> sk_listen_backlog s = [].
Proof. intros Hp. rewrite (fc_sockets _ _ _ (fork_child_spec p pid Hp)). destruct (socket_get (pr_sockets p) i); [|done]. by intros [= <-]. Qed.

Lemma growing_image p pid :
  fork_encodable p ->
  exists image, serialize_fork_state_with_growing_buffer p = Some (if Z.of_nat (length image) <=? MAX_FORK_STATE_BUFFER_LEN then Ok image else Err ENOMEM) /\
    forall g, deserialize_fork_state image pid g = (Ret (fork_child p pid), fork_effects p pid g).
Proof.
  intros Hp. destruct (fork_image p pid Hp) as (n & image & Hn & Hs & Hd). exists image. split.
  - unfold serialize_fork_state_with_growing_buffer. apply (grow_spec _ _ 6); [|done|done]. intros buf. rewrite Hs. by subst n.
  - intros g. specialize (Hd [] g). by rewrite app_nil_r in Hd.
Qed.

Lemma fork_spec m parent child p own :
  processes m !! parent = Some p -> processes m !! child = None -> has_ended p = false -> fork_encodable p ->
  passing_ok (m_kernel m) (process_uses (k_pipes (m_kernel m)) p ++ own) [] ->
  load (m_kernel m) (process_uses (k_pipes (m_kernel m)) p ++ own) [] + Z.of_nat (length (process_uses (k_pipes (m_kernel m)) (fork_child p child))) < u32_max ->
  exists res m', fork_process m parent child = Some (res, m') /\
    let t := k_pipes (m_kernel m') in
    fifo_eq (k_pipes (m_kernel m)) t /\
    match res with
    | Ok _ => exists replay, let c := with_replay (fork_child p child) replay in
        processes m' = <[parent := increment_fork_count p]> (<[child := c]> (processes m)) /\
        passing_ok (m_kernel m') (process_uses t c ++ process_uses t p ++ own) []
    | Err _ => processes m' = processes m /\ passing_ok (m_kernel m') (process_uses t p ++ own) []
    end.
Proof.
  intros Hp Hc Hend Henc Hok Hl. unfold fork_process. rewrite Hc, Hp, Hend. destruct (growing_image p child Henc) as (image & -> & Hd).
  set (k := m_kernel m) in *. destruct (Z.leb_spec (Z.of_nat (length image)) MAX_FORK_STATE_BUFFER_LEN); [|by do 2 eexists; split; [reflexivity|]; split; [intros i|]].
  rewrite Hd. set (g := fork_effects p child _). set (k1 := with_identities k (g_registry g) (g_last_ofd_id g)).
  assert (kept (k_pipes k) (all_uses k (process_uses (k_pipes k) p ++ own) []) k1 (process_uses (k_pipes k) p ++ own)) as Hk by (split; [by apply passing_identities|done|done]).
  pose proof (bump_ok _ _ parent (fork_child p child) k1 _ Hk) as Hb.
  assert (process_uses (k_pipes k) (fork_child p child) ⊆ all_uses k (process_uses (k_pipes k) p ++ own) []) as Hsub.
  { etrans; [by apply fork_child_uses|]. unfold all_uses. intros u Hu. apply elem_of_app. left. apply elem_of_app. by left. }
  specialize (Hb Hsub (fun i s => fork_child_no_backlog p child i s Henc)). change (load k1) with (load k) in Hb. specialize (Hb ltac:(lia)).
  destruct (bump_inherited_resource_refcounts parent (fork_child p child) k1) as [[[]|e] k2]; do 2 eexists; (split; [reflexivity|]); cbn [m_kernel m_table]; cbv zeta;
    destruct Hb as [Hb Hf]; (split; [exact Hf|]).
  - eexists. split; [reflexivity|]. rewrite <- !(process_uses_eq _ _ _ Hf). apply Hb.
  - split; [done|]. rewrite <- !(process_uses_eq _ _ _ Hf). apply Hb.
Qed.

(** C17: A fork accounts for its child.  When every counter of the machine is the
    number of its holders, among them a live parent whose state fits the format,
    forking to a free identifier always answers.  On success the table gains
    the child (the process the image describes) and the parent's count of forks
    goes up; every counter is again the number of its holders, with everything
    the child inherited counted once more.  On failure (the image is larger than
    the limit, or a descriptor has no backing) no process changes and every
    counter is as before, whatever had been taken already. *)
Theorem fork_accounts m parent child p own :
  processes m !! parent = Some p -> processes m !! child = None -> has_ended p = false -> fork_encodable p ->
  passing_ok (m_kernel m) (process_uses (k_pipes (m_kernel m)) p ++ own) [] ->
  load (m_kernel m) (process_uses (k_pipes (m_kernel m)) p ++ own) [] + Z.of_nat (length (process_uses (k_pipes (m_kernel m)) (fork_child p child))) < u32_max ->
  exists res m', fork_process m parent child = Some (res, m') /\
    let t := k_pipes (m_kernel m') in
    match res with
    | Ok _ => exists replay, let c := with_replay (fork_child p child) replay in
        processes m' = <[parent := increment_fork_count p]> (<[child := c]> (processes m)) /\
        passing_ok (m_kernel m') (process_uses t c ++ process_uses t p ++ own) []
    | Err _ => processes m' = processes m /\ passing_ok (m_kernel m') (process_uses t p ++ own) []
    end.
Proof.
  intros Hp Hc He Henc Hok Hl. destruct (fork_spec m parent child p own Hp Hc He Henc Hok Hl) as (res & m' & E & _ & Hs). by exists res, m'.
Qed.

(** ** Any history of forks and ends *)

Definition machine_uses m : list use := map_to_list (processes m) ≫= fun x => process_uses (k_pipes (m_kernel m)) x.2.

Record machine_ok m : Prop := {
  mo_uses : passing_ok (m_kernel m) (machine_uses m) [];
  mo_limbo : forall q l, processes m !! q = Some l -> pr_state l = Limbo -> ofds l = [] /\ socket_entries l = [];
}.

Inductive life : Machine -> Machine -> Prop :=
| LFork m parent child p res m' :
    processes m !! parent = Some p -> fork_encodable p ->
    load (m_kernel m) (machine_uses m) [] + Z.of_nat (length (process_uses (k_pipes (m_kernel m)) (fork_child p child))) < u32_max ->
    fork_process m parent child = Some (res, m') -> life m m'
| LEnd (reap : bool) m pid r m' :
    k_last_ofd_id (m_kernel m) + 3 <= u64_max ->
    finish_removal (remove_process_inner m pid reap) = Some (r, m') -> life m m'.

Lemma empty_uses t l : ofds l = [] -> socket_entries l = [] -> process_uses t l = [].
Proof. intros E1 E2. unfold process_uses. by rewrite E1, E2. Qed.

(** The uses of a process that keeps its holders. *)
Lemma uses_stable k own t p :
  passing_ok k own [] -> fifo_le t (k_pipes k) -> process_uses t p ⊆ own -> process_uses (k_pipes k) p = process_uses t p.
Proof.
  intros Hok Hf Hs. unfold process_uses in *. f_equal.
  assert (forall o, o ∈ ofds p -> pipe_ofd_uses (k_pipes k) o = pipe_ofd_uses t o) as Ho.
  { intros o Hin. assert (pipe_ofd_uses t o ⊆ own) as Hsub.
    { intros u Hu. apply Hs. apply elem_of_app. left. apply list_elem_of_bind. by exists o. }
    unfold pipe_ofd_uses in *. destruct (_ && _); [|done]. set (i := neg_index (host_handle o)) in *.
    destruct (table_get (k_pipes k) i) as [q|] eqn:Eq.
    - destruct (Hf i q Eq) as (q0 & E0 & Ef). rewrite E0 in *. unfold reference_kind. by rewrite Ef.
    - destruct (table_get t i) as [q0|]; [|done]. destruct (reference_kind q0 (status_flags o)) as [kind|]; [|done]. exfalso.
      destruct (pipe_use_live k own [] i kind) as [q Hq]; [apply Hok|unfold all_uses; set_solver|congruence]. }
  induction (ofds p) as [|o l IH]; [done|]. cbn [mbind list_bind]. rewrite (Ho o) by (by left). f_equal. apply IH.
  - set_solver.
  - intros o' Hin. apply Ho. by right.
Qed.

Lemma bind_uses_ext {A} (f g : A -> list use) l : (forall x, x ∈ l -> f x = g x) -> (l ≫= f) = (l ≫= g).
Proof. induction l as [|x l IH]; intros Hf; [done|]. cbn [mbind list_bind]. rewrite Hf by (by left). f_equal. apply IH. intros y Hy. apply Hf. by right. Qed.

(** The uses of all processes but one. *)
Definition other_uses (t : PipeTable) (ps : gmap Z Process) (pid : Z) : list use := map_to_list (delete pid ps) ≫= fun x => process_uses t x.2.

Lemma map_uses_split t (ps : gmap Z Process) pid p :
  ps !! pid = Some p -> (map_to_list ps ≫= fun x => process_uses t x.2) ≡ₚ process_uses t p ++ other_uses t ps pid.
Proof. intros Hp. unfold other_uses. rewrite <- (map_to_list_delete ps pid p Hp). done. Qed.

Lemma map_uses_insert t (ps : gmap Z Process) pid p :
  (map_to_list (<[pid := p]> ps) ≫= fun x => process_uses t x.2) ≡ₚ process_uses t p ++ other_uses t ps pid.
Proof. rewrite (map_uses_split t _ pid p) by apply lookup_insert_eq. unfold other_uses. by rewrite delete_insert_eq. Qed.

Lemma prune_uses t ps :
  (forall q l, ps !! q = Some l -> pr_state l = Limbo -> ofds l = [] /\ socket_entries l = []) ->
  (map_to_list (prune_empty_limbo_groups ps) ≫= fun x => process_uses t x.2) ≡ₚ (map_to_list ps ≫= fun x => process_uses t x.2).
Proof.
  intros Hl. unfold prune_empty_limbo_groups.
  assert (forall l (acc : gmap Z Process), (forall x, x ∈ l -> ps !! x.1 = Some x.2 /\ pr_state x.2 = Limbo) -> (forall q x, acc !! q = Some x -> ps !! q = Some x) ->
    (map_to_list (fold_left (fun acc (x : Z * Process) => delete x.1 acc) l acc) ≫= fun x => process_uses t x.2) ≡ₚ (map_to_list acc ≫= fun x => process_uses t x.2)) as Hf.
  { intros l. induction l as [|[i x] l IH]; intros acc Hx Hacc; cbn [fold_left]; [done|]. rewrite IH.
    - cbn [fst]. destruct (acc !! i) as [y|] eqn:Ey; [|by rewrite delete_id]. rewrite (map_uses_split t acc i y Ey). unfold other_uses.
      destruct (Hx (i, x)) as [H1 H2]; [by left|]. cbn [fst snd] in *. apply Hacc in Ey. rewrite H1 in Ey. injection Ey as <-.
      destruct (Hl i x H1 H2) as [E1 E2]. by rewrite (empty_uses t x E1 E2).
    - intros y Hy. apply Hx. by right.
    - intros q y. cbn [fst]. intros [_ Hq]%lookup_delete_Some. by apply Hacc. }
  apply Hf; [|done]. intros [i x] Hx. apply elem_of_filter_bool in Hx as [Hx He]. apply elem_of_btree_iter in Hx. cbn [fst snd]. split; [done|].
  by apply is_empty_limbo_spec in He as [? _].
Qed.

Lemma fork_refused m parent child p res m' :
  processes m !! parent = Some p -> (is_Some (processes m !! child) \/ has_ended p = true) -> fork_process m parent child = Some (res, m') -> m' = m.
Proof.
  intros Hp Hc. unfold fork_process. destruct (processes m !! child) as [c|]; [by intros [= _ <-]|]. destruct Hc as [[? ?]|Hc]; [done|].
  rewrite Hp, Hc. by intros [= _ <-].
Qed.

Lemma life_fork_ok m parent child p res m' :
  processes m !! parent = Some p -> fork_encodable p ->
  load (m_kernel m) (machine_uses m) [] + Z.of_nat (length (process_uses (k_pipes (m_kernel m)) (fork_child p child))) < u32_max ->
  fork_process m parent child = Some (res, m') -> machine_ok m -> machine_ok m'.
Proof.
  intros Hp Henc Hl Hf [Hu Hli]. destruct (processes m !! child) as [c|] eqn:Hc.
  { assert (m' = m) as ->; [|done]. eapply fork_refused; [exact Hp|left; by exists c|exact Hf]. }
  destruct (has_ended p) eqn:He; [assert (m' = m) as ->; [|done]; eapply fork_refused; [exact Hp|by right|exact Hf]|].
  pose proof (map_uses_split (k_pipes (m_kernel m)) (processes m) parent p Hp) as Hsp. fold (machine_uses m) in Hsp. set (own := other_uses _ _ _) in Hsp.
  assert (passing_ok (m_kernel m) (process_uses (k_pipes (m_kernel m)) p ++ own) []) as Hok by (by eapply passing_perm, Hu).
  rewrite (load_perm _ _ _ _ Hsp) in Hl. destruct (fork_spec m parent child p own Hp Hc He Henc Hok Hl) as (res1 & m1 & E & Hfe & Hs).
  rewrite Hf in E. injection E as <- <-. cbv zeta in Hs.
  assert (forall ps pid, other_uses (k_pipes (m_kernel m')) ps pid = other_uses (k_pipes (m_kernel m)) ps pid) as Eo.
  { intros ps pid. unfold other_uses. apply bind_uses_ext. intros x _. symmetry. by apply process_uses_eq. }
  destruct res as [[]|e].
  - destruct Hs as (replay & Eps & Hs). split.
    + eapply passing_perm; [|reflexivity|exact Hs]. unfold machine_uses. rewrite Eps, map_uses_insert. unfold other_uses.
      assert (child <> parent) as Hne by congruence. rewrite delete_insert_ne by done. fold (other_uses (k_pipes (m_kernel m')) (delete parent (processes m)) child).
      rewrite map_uses_insert, Eo. unfold other_uses. rewrite (delete_id (delete parent _)) by (by rewrite lookup_delete_ne). subst own. unfold other_uses.
      assert (process_uses (k_pipes (m_kernel m')) (increment_fork_count p) = process_uses (k_pipes (m_kernel m')) p) as -> by done.
      rewrite !app_assoc. by rewrite (Permutation_app_comm (process_uses _ p)).
    + intros q l. rewrite Eps. intros [[<- <-]|[_ [[<- <-]|[_ Hq]]%lookup_insert_Some]]%lookup_insert_Some; [|done|by apply (Hli q l)].
      unfold has_ended in He. apply bool_decide_eq_false in He. intros Hs'. destruct He. by right.
  - destruct Hs as [Eps Hs]. split; [|by rewrite Eps]. eapply passing_perm; [|reflexivity|exact Hs].
    unfold machine_uses. rewrite Eps, (map_uses_split _ _ _ _ Hp), Eo. done.
Qed.

Lemma life_end_ok m pid (reap : bool) r m' :
  k_last_ofd_id (m_kernel m) + 3 <= u64_max -> finish_removal (remove_process_inner m pid reap) = Some (r, m') -> machine_ok m -> machine_ok m'.
Proof.
  intros Hid Hr [Hu Hli]. destruct (processes m !! pid) as [p|] eqn:Hp.
  2:{ unfold remove_process_inner in Hr. rewrite Hp in Hr. cbn in Hr. injection Hr as _ <-. by split. }
  pose proof (map_uses_split (k_pipes (m_kernel m)) (processes m) pid p Hp) as Hsp. fold (machine_uses m) in Hsp. set (own := other_uses _ _ _) in Hsp.
  assert (passing_ok (m_kernel m) (process_uses (k_pipes (m_kernel m)) p ++ own) []) as Hok by (by eapply passing_perm, Hu).
  destruct (remove_inner_spec m pid p own reap Hp Hok Hid) as (r1 & m1 & E & [R1 R2 _ R3 _ _] & Hps). rewrite E in Hr. cbn [finish_removal] in Hr. injection Hr as _ <-.
  cbv zeta in Hps. set (others := delete pid (processes m)) in *.
  assert (other_uses (k_pipes (m_kernel m1)) (processes m) pid = own) as Eo.
  { subst own. unfold other_uses. apply bind_uses_ext. intros x Hx. eapply uses_stable; [exact R2|exact R3|]. intros u Hin. apply list_elem_of_bind. by exists x. }
  assert (forall q l, processes m1 !! q = Some l -> pr_state l = Limbo -> ofds l = [] /\ socket_entries l = []) as Hli1.
  { intros q l. destruct (stays others reap p pid); [destruct Hps as (l0 & last & El & ->)|rewrite Hps].
    - apply limbo_from_spec in El as [_ _ (L1 & _ & L2 & _)]. intros [[<- <-]|[_ [_ Hq]%lookup_delete_Some]]%lookup_insert_Some; [done|by apply (Hli q l)].
    - intros [_ Hq]%lookup_delete_Some. by apply (Hli q l). }
  split.
  - unfold machine_uses. change (m_kernel (with_pruned m1)) with (m_kernel m1). change (processes (with_pruned m1)) with (prune_empty_limbo_groups (processes m1)).
    eapply passing_perm; [|reflexivity|exact R2]. rewrite (prune_uses _ _ Hli1), <- Eo. destruct (stays others reap p pid).
    + destruct Hps as (l0 & last & El & ->). apply limbo_from_spec in El as [_ _ (L1 & _ & L2 & _)]. rewrite map_uses_insert, (empty_uses _ l0 L1 L2). unfold other_uses, others.
      by rewrite delete_delete_eq.
    + by rewrite Hps.
  - change (processes (with_pruned m1)) with (prune_empty_limbo_groups (processes m1)). intros q l. rewrite prune_lookup. destruct (processes m1 !! q) as [x|] eqn:Ex; [|done].
    destruct (is_empty_limbo _ _); [done|]. intros [= ->]. by eapply Hli1.
Qed.

(** C5: Reference accounting holds over any history of processes.  Starting from a
    machine whose counters are the references the processes hold, after any
    sequence of forks (refused, failed or successful), removals and reaps, every
    counter of every shared table is still exactly the number of references held
    by the processes in the table, by queued messages and by waiting opens and
    connections, and limbo records hold nothing. *)
Theorem lifecycle_invariant m m' : rtc life m m' -> machine_ok m -> machine_ok m'.
Proof.
  induction 1 as [|a b c Hs _ IH]; [done|]. intros Ha. apply IH. destruct Hs; [by eapply life_fork_ok|by eapply life_end_ok].
Qed.
End fork.

(** A fork whose image fits a buffer of [len] bytes and whose references can be
    taken, computed without the large buffer. *)
Lemma fork_process_fits `{Usize} m parent child p len r k' :
  processes m !! parent = Some p -> processes m !! child = None -> has_ended p = false -> fork_encodable p ->
  serialize_fork_state p (replicate len 0) = Ok r -> Z.of_nat len <= MAX_FORK_STATE_BUFFER_LEN ->
  (let k := m_kernel m in
   let g := fork_effects p child (mkGlobals (k_registry k) (k_last_ofd_id k)) in
   bump_inherited_resource_refcounts parent (fork_child p child) (with_identities k (g_registry g) (g_last_ofd_id g))) = (Ok tt, k') ->
  exists replay, fork_process m parent child =
    Some (Ok tt, mkMachine (with_processes (m_table m)
      (<[parent := increment_fork_count p]> (<[child := with_replay (fork_child p child) replay]> (processes m)))) k').
Proof.
  intros Hp Hc He Henc Hs Hlen Hb. destruct (fork_image p child Henc) as (n & image & Hn & Hser & _). rewrite Hser, length_replicate in Hs.
  destruct (Nat.leb_spec n len); [|done]. destruct (growing_image p child Henc) as (image' & Hg & Hd).
  assert (length image' = n) as Hn'.
  { pose proof (Hd (mkGlobals registry_new 0)) as _. unfold serialize_fork_state_with_growing_buffer in Hg.
    assert (grow GROW_FUEL (serialize_fork_state p) MAX_FORK_STATE_BUFFER_LEN INITIAL_FORK_STATE_BUFFER_LEN =
            Some (if Z.of_nat (length image) <=? MAX_FORK_STATE_BUFFER_LEN then Ok image else Err ENOMEM)) as Hg2.
    { apply (grow_spec _ _ 6); [|done|done]. intros buf. rewrite Hser. by subst n. }
    rewrite Hg in Hg2. rewrite (proj2 (Z.leb_le (Z.of_nat (length image)) _)) in Hg2 by lia.
    destruct (Z.of_nat (length image') <=? _); [|done]. by injection Hg2 as ->. }
  unfold fork_process. rewrite Hc, Hp, He, Hg, (proj2 (Z.leb_le _ _)) by lia. rewrite Hd. cbv zeta in Hb. rewrite Hb. by eexists.
Qed.

(** ** A concrete history *)

Definition life_ofd (id : Z) (ft : FileType) (flags h : Z) : OpenFileDesc := mkOfd id None ft flags h 0 1 0 [47; 97] (-1) 0 0 None.

Definition life_process (pid ppid pgid : Z) (ofds : list OpenFileDesc) : Process :=
  mkProcess pid ppid 0 0 0 0 pgid 0 false Running 0 0 None
    (mkFdTable (imap (fun i _ => Some (mkFdEntry i 0)) ofds) ∅ 64) (mkTable (Some <$> ofds))
    [] [] [47] [] (pr_signals sample_parent) pt_new Memory.new term_new [] [] 18 0 default_rlimits
    0 0 (replicate 16 0) false None None None [] 49152 [] 0 [] [] 0 2 0 0 [] false None [] 0.

(** A group leader with both ends of a pipe, a file of its own and one it shares
    with another process of its group. *)
Definition life_leader : Process :=
  life_process 2 1 2 [life_ofd 1 Ofd.Pipe 0 (-1); life_ofd 2 Ofd.Pipe 1 (-1); life_ofd 3 Regular 0 8; life_ofd 4 Regular 0 9].
Definition life_member : Process := life_process 3 2 2 [life_ofd 4 Regular 0 9].

Definition life_kernel : Kernel :=
  let k := (pipe_alloc 4 boot_kernel).2 in with_identities (with_handles k (host_handle_fork_ref (k_handles k) 9)) registry_new 4.
Definition life_machine : Machine := mkMachine (mkPT {[2 := life_leader; 3 := life_member]} Lock.new 0 4 0) life_kernel.

Definition leader_uses : list use := [UPipe 0 (RefRead false); UPipe 0 RefWrite; UHandle 8; UHandle 9].

Lemma life_leader_uses : process_uses (k_pipes life_kernel) life_leader = leader_uses.
Proof. vm_compute. done. Qed.
Lemma life_member_uses : process_uses (k_pipes life_kernel) life_member = [UHandle 9].
Proof. vm_compute. done. Qed.

Lemma life_kernel_ok : passing_ok life_kernel (leader_uses ++ [UHandle 9]) [].
Proof.
  apply passing_identities. set (k := (pipe_alloc 4 boot_kernel).2).
  assert (passing_ok k [UHandle 9; UHandle 8; UPipe 0 (RefRead false); UPipe 0 RefWrite] []) as Hk.
  { eapply (run_passing_ok (boot_kernel, [], [])); [|apply boot_passing].
    eapply (passing_to _ _ (k, [UPipe 0 (RefRead false); UPipe 0 RefWrite], [])); [apply (PPipe 4); vm_compute; done|vm_compute; reflexivity|].
    eapply (passing_to _ _ (k, [UHandle 8; UPipe 0 (RefRead false); UPipe 0 RefWrite], [])); [apply (POpen 8); [apply count_zero; vm_compute; done|vm_compute; done]|reflexivity|].
    eapply (passing_to _ _ (k, [UHandle 9; UHandle 8; UPipe 0 (RefRead false); UPipe 0 RefWrite], []));
      [apply (POpen 9); [apply count_zero; vm_compute; done|vm_compute; done]|reflexivity|]. apply rtc_refl. }
  eapply (passing_perm _ [UHandle 9; UHandle 9; UHandle 8; UPipe 0 (RefRead false); UPipe 0 RefWrite]); [|reflexivity|].
  - unfold leader_uses. cbn [app]. solve_Permutation.
  - destruct Hk as [P1 P2 P3 P4]. split; [|by eapply transit_same, P2|done|done].
    apply handle_fork_accounts; [exact P1|apply elem_count; vm_compute; done|vm_compute; done].
Qed.

Lemma life_ofds_ok l : (length l <= 10)%nat -> Forall ofd_ok l -> ofds_ok (mkTable (Some <$> l)).
Proof.
  intros Hn Hl. split; [cbn [entries]; rewrite length_fmap; lia|]. intros i o. rewrite get_slot. apply Forall_slots. cbn [entries].
  apply Forall_fmap. eapply Forall_impl; [exact Hl|done].
Qed.

Lemma life_leader_encodable : fork_encodable life_leader.
Proof.
  split.
  - split; cbn; unfold is_u32, is_i32, u32_max; lia.
  - apply sample_signals_ok.
  - split; [cbn; unfold nat_u32, u32_max; lia|cbn; lia|]. intros i e He.
    assert (Forall (fun x => match x with Some a => fd_entry_ok a | None => True end) (FdTable.entries (pr_fd_table life_leader))) as Hf.
    { cbn [life_leader life_process pr_fd_table FdTable.entries imap].
      repeat (apply Forall_cons_2; [split; cbn; unfold nat_u32, is_u32, u32_max; lia|]). apply Forall_nil_2. }
    apply (Forall_slots fd_entry_ok _ Hf i). unfold slot. by rewrite He.
  - apply life_ofds_ok; [cbn; lia|]. each ltac:(split; cbn; unfold is_u32, is_i64, u32_max; try lia; try done; apply small_path; lia).
  - apply strings_small; [cbn; lia|constructor].
  - apply strings_small; [cbn; lia|constructor].
  - apply small_path. cbn. lia.
  - split; [done|]. cbn [life_leader life_process pr_rlimits]. unfold default_rlimits. cbn [replicate list_insert].
    each ltac:(cbn; unfold is_u64, u64_max; lia).
  - split; cbn; unfold is_u32, is_u16, is_i32, u32_max; lia || done.
  - split; cbn; unfold is_u32, u32_max; try lia; try done; constructor.
  - done.
  - done.
  - split; [cbn; unfold nat_u32, u32_max; lia|constructor].
  - split; [apply small_slots; cbn; lia|]. intros i s. by destruct i.
Qed.

Lemma life_leader_ok : passing_ok (m_kernel life_machine) (process_uses (k_pipes (m_kernel life_machine)) life_leader ++ [UHandle 9]) [].
Proof. exact life_kernel_ok. Qed.

Lemma life_machine_ok : machine_ok life_machine.
Proof.
  split.
  - eapply passing_perm; [|reflexivity|exact life_kernel_ok]. unfold machine_uses. change (processes life_machine) with (<[2 := life_leader]> {[3 := life_member]} : gmap Z Process).
    change (m_kernel life_machine) with life_kernel.
    assert (other_uses (k_pipes life_kernel) (<[2 := life_leader]> {[3 := life_member]}) 2 = [UHandle 9]) as Ho.
    { unfold other_uses. rewrite delete_insert_id by done. rewrite map_to_list_singleton. cbn [mbind list_bind snd]. by rewrite life_member_uses. }
    rewrite (map_uses_split _ _ 2 life_leader), Ho, life_leader_uses by done. done.
  - intros q l Hq. assert (l = life_leader \/ l = life_member) as [-> | ->]; [|done..].
    change (processes life_machine) with (<[2 := life_leader]> {[3 := life_member]} : gmap Z Process) in Hq. apply lookup_insert_Some in Hq as [[_ <-]|[_ [_ <-]%lookup_singleton_Some]]; [by left|by right].
Qed.

(** The leader's own file is closed on the host, the shared one is not; its pipe
    is gone. *)
Lemma reap_releases_all_witness :
  processes life_machine !! 2 = Some life_leader /\
  exists r m', reap_process life_machine 2 = Some (Some r, m') /\ passing_ok (m_kernel m') [UHandle 9] [] /\
    rm_host_closes r = [8] /\ table_get (k_pipes (m_kernel m')) 0 = None.
Proof.
  split; [reflexivity|].
  destruct (reap_releases_all life_machine 2 life_leader [UHandle 9] eq_refl life_leader_ok ltac:(vm_compute; done)) as (r & m' & E & _ & Hk & _).
  exists r, m'. split; [exact E|]. split; [exact Hk|].
  assert (match reap_process life_machine 2 with Some (Some r, m') => rm_host_closes r = [8] /\ table_get (k_pipes (m_kernel m')) 0 = None | _ => False end) as Hc by (vm_compute; done).
  rewrite E in Hc. exact Hc.
Defined.

(** The leader's group still has a member, so its identifier stays. *)
Lemma limbo_kept_for_groups_witness :
  exists r m', reap_process life_machine 2 = Some (Some r, m') /\
    match processes m' !! 2 with Some l => limbo_of (rm_process r) l | None => False end.
Proof.
  destruct (reap_process life_machine 2) as [[[r|] m']|] eqn:E; [|exfalso; revert E; vm_compute; discriminate..].
  exists r, m'. split; [reflexivity|]. pose proof (limbo_kept_for_groups life_machine 2 r m' E) as (Hl & _ & _).
  assert (is_Some (processes m' !! 2)) as [l El].
  { assert (match reap_process life_machine 2 with Some (Some r, m') => is_Some (processes m' !! 2) | _ => False end) as Hc by (vm_compute; by eexists). by rewrite E in Hc. }
  rewrite El in *. exact (proj1 Hl).
Defined.

(** The machine after the fork. *)
Definition forked_kernel : Kernel :=
  let g := fork_effects life_leader 4 (mkGlobals (k_registry life_kernel) (k_last_ofd_id life_kernel)) in
  (bump_inherited_resource_refcounts 2 (fork_child life_leader 4) (with_identities life_kernel (g_registry g) (g_last_ofd_id g))).2.

Lemma life_fork : exists replay, fork_process life_machine 2 4 =
  Some (Ok tt, mkMachine (with_processes (m_table life_machine)
    (<[2 := increment_fork_count life_leader]> (<[4 := with_replay (fork_child life_leader 4) replay]> (processes life_machine)))) forked_kernel).
Proof.
  assert (exists r, serialize_fork_state life_leader (replicate 2000 0) = Ok r) as [r Hr].
  { destruct (serialize_fork_state life_leader (replicate 2000 0)) eqn:E; [by eexists|exfalso; revert E; vm_compute; discriminate]. }
  eapply (fork_process_fits life_machine 2 4 life_leader 2000 r); [reflexivity|reflexivity|reflexivity|exact life_leader_encodable|exact Hr|vm_compute; done|].
  vm_compute. reflexivity.
Qed.

(** The child takes one more reference on each end of the pipe and each file. *)
Lemma fork_accounts_witness :
  processes life_machine !! 4 = None /\
  exists res m', fork_process life_machine 2 4 = Some (res, m') /\ res = Ok tt /\
    (p_read_count <$> table_get (k_pipes (m_kernel m')) 0) = Some 2 /\ k_handles (m_kernel m') !! 9 = Some 3.
Proof.
  split; [reflexivity|].
  destruct (fork_accounts life_machine 2 4 life_leader [UHandle 9] eq_refl eq_refl eq_refl life_leader_encodable life_leader_ok ltac:(vm_compute; done)) as (res & m' & E & _).
  destruct life_fork as [replay Hf]. exists res, m'. split; [exact E|]. rewrite Hf in E. injection E as <- <-. split; [reflexivity|]. split; vm_compute; done.
Defined.

Lemma lifecycle_invariant_witness :
  exists m1 m2, fork_process life_machine 2 4 = Some (Ok tt, m1) /\ life life_machine m1 /\ life m1 m2 /\ machine_ok m2.
Proof.
  destruct life_fork as [replay Hf]. set (m1 := mkMachine _ forked_kernel) in Hf. exists m1.
  assert (life life_machine m1) as H1.
  { eapply (LFork life_machine 2 4 life_leader); [reflexivity|exact life_leader_encodable|vm_compute; done|exact Hf]. }
  assert (k_last_ofd_id (m_kernel m1) + 3 <= u64_max) as Hid by (vm_compute; done).
  destruct (finish_removal (remove_process_inner m1 2 true)) as [[r m2]|] eqn:E2.
  - exists m2. assert (life m1 m2) as H2 by (by eapply LEnd). split; [exact Hf|]. split; [exact H1|]. split; [exact H2|].
    apply (lifecycle_invariant life_machine m2); [by eapply rtc_l; [|apply rtc_once]|exact life_machine_ok].
  - exfalso. revert E2. vm_compute. discriminate.
Defined.
