(* ===== verification/Sys.v ===== *)
(** * System calls: state, host and control flow ([crates/kernel/src/syscalls.rs])

    A system call runs on the calling process, the machine-wide tables, the
    advisory locks, the names of FIFOs and the devices, reads the other processes, and asks the host ([HostIO] of [process.rs]).
    The host is not under the repository's kernel: what it answers is an argument
    (class [HostIO]), which may depend on everything it was asked before; what it
    is asked is recorded in order in [sy_calls].

    Bodies are written in the monad [M]: a state, an early return with an [Errno]
    (the [?] operator), and [None] where the source panics or the fuel of a loop
    runs out. *)

From S2P Require Import Prelude Abi FdTable Lock Ofd Wakeup Pipe PipeTable Socket Names Process Dri Devices Kernel.

(** ** The host *)

Inductive HostReq :=
| RqClose (handle : Z)
| RqClosedir (handle : Z)
| RqFstat (handle : Z)
| RqNetClose (handle : Z)
| RqUdpUnbind (sock_idx : Z)
| RqBoDestroy (pid bo_id : Z)
| RqBoUnbind (pid bo_id addr len : Z)
| RqRmFb (pid fb_id : Z)
| RqDropMaster (pid : Z)
| RqGlUnbind (pid : Z)
| RqUnbindFramebuffer (pid : Z)
| RqStat (path : bytes)
| RqLstat (path : bytes)
| RqOpen (path : bytes) (flags mode : Z)
| RqMkdir (path : bytes) (mode : Z)
| RqRmdir (path : bytes)
| RqUnlink (path : bytes)
| RqRename (oldpath newpath : bytes)
| RqLink (oldpath newpath : bytes)
| RqSymlink (target linkpath : bytes)
| RqReadlink (path : bytes) (room : Z)
| RqChmod (path : bytes) (mode : Z)
| RqChown (path : bytes) (uid gid : Z)
| RqLchown (path : bytes) (uid gid : Z)
| RqClock (clock_id : Z).

(** The answer to a request, given the requests before it, the newest first.
    [host_bytes] is what the host wrote to the caller's buffer. *)
Class HostIO := {
  host_unit : list HostReq -> HostReq -> kresult unit;
  host_stat : list HostReq -> HostReq -> kresult WasmStat;
  host_int : list HostReq -> HostReq -> kresult Z;
  host_bytes : list HostReq -> HostReq -> kresult bytes;
  host_time : list HostReq -> HostReq -> kresult (Z * Z);
}.

(** ** The state of a system call *)

Record Sys := mkSys {
  sy_proc : Process;
  sy_kernel : Kernel;
  sy_locks : AdvisoryLockManager;
  sy_devices : Devices;
  sy_master : option MasterHolder;
  sy_calls : list HostReq;
  sy_procs : gmap Z Process;
  sy_fifos : FifoTable;
}.

Definition set_proc (s : Sys) (p : Process) : Sys := mkSys p (sy_kernel s) (sy_locks s) (sy_devices s) (sy_master s) (sy_calls s) (sy_procs s) (sy_fifos s).
Definition set_kernel (s : Sys) (k : Kernel) : Sys := mkSys (sy_proc s) k (sy_locks s) (sy_devices s) (sy_master s) (sy_calls s) (sy_procs s) (sy_fifos s).
Definition set_locks (s : Sys) (l : AdvisoryLockManager) : Sys := mkSys (sy_proc s) (sy_kernel s) l (sy_devices s) (sy_master s) (sy_calls s) (sy_procs s) (sy_fifos s).
Definition set_devices (s : Sys) (d : Devices) : Sys := mkSys (sy_proc s) (sy_kernel s) (sy_locks s) d (sy_master s) (sy_calls s) (sy_procs s) (sy_fifos s).
Definition set_master (s : Sys) (m : option MasterHolder) : Sys := mkSys (sy_proc s) (sy_kernel s) (sy_locks s) (sy_devices s) m (sy_calls s) (sy_procs s) (sy_fifos s).
Definition log_call (s : Sys) (r : HostReq) : Sys := mkSys (sy_proc s) (sy_kernel s) (sy_locks s) (sy_devices s) (sy_master s) (r :: sy_calls s) (sy_procs s) (sy_fifos s).
Definition set_fifos (s : Sys) (t : FifoTable) : Sys := mkSys (sy_proc s) (sy_kernel s) (sy_locks s) (sy_devices s) (sy_master s) (sy_calls s) (sy_procs s) t.

(** ** Control flow *)

Definition M (A : Type) : Type := Sys -> option (kresult A * Sys).

Definition ret {A} (a : A) : M A := fun s => Some (Ok a, s).
Definition bind {A B} (m : M A) (f : A -> M B) : M B := fun s =>
  match m s with
  | Some (Ok a, s') => f a s'
  | Some (Err e, s') => Some (Err e, s')
  | None => None
  end.

Notation "'let!' x ':=' c 'in' k" := (bind c (fun x => k))
  (at level 10, x pattern, c at level 100, k at level 200, format "'[v' 'let!'  x  ':='  c  'in' '/' k ']'") : kandelo_scope.
Notation "c '>;' k" := (bind c (fun _ => k)) (at level 62, right associativity) : kandelo_scope.

(** [return Err(e)] and [r?]. *)
Definition fail {A} (e : Errno) : M A := fun s => Some (Err e, s).
Definition lift {A} (r : kresult A) : M A := fun s => Some (r, s).

(** [let _ = m;] and [match m { .. }]: the result as a value. *)
Definition attempt {A} (m : M A) : M (kresult A) := fun s =>
  match m s with Some (r, s') => Some (Ok r, s') | None => None end.

Definition gets {A} (f : Sys -> A) : M A := fun s => Some (Ok (f s), s).
Definition modify (f : Sys -> Sys) : M unit := fun s => Some (Ok tt, f s).
Definition on_proc (f : Process -> Process) : M unit := modify (fun s => set_proc s (f (sy_proc s))).
Definition on_kernel (f : Kernel -> Kernel) : M unit := modify (fun s => set_kernel s (f (sy_kernel s))).

(** A change of the process, the tables or the locks with a result. *)
Definition proc_result {A} (f : Process -> kresult A * Process) : M A := fun s => let '(r, p) := f (sy_proc s) in Some (r, set_proc s p).
Definition kernel_result {A} (f : Kernel -> kresult A * Kernel) : M A := fun s => let '(r, k) := f (sy_kernel s) in Some (r, set_kernel s k).

Section host.
Context `{HostIO}.

Definition call_host (r : HostReq) : M unit := fun s => Some (host_unit (sy_calls s) r, log_call s r).
Definition call_host_stat (r : HostReq) : M WasmStat := fun s => Some (host_stat (sy_calls s) r, log_call s r).
Definition call_host_int (r : HostReq) : M Z := fun s => Some (host_int (sy_calls s) r, log_call s r).
Definition call_host_bytes (r : HostReq) : M bytes := fun s => Some (host_bytes (sy_calls s) r, log_call s r).
Definition call_host_time (r : HostReq) : M (Z * Z) := fun s => Some (host_time (sy_calls s) r, log_call s r).

(** A method of the host that returns nothing. *)
Definition tell_host (r : HostReq) : M unit := modify (fun s => log_call s r).

End host.

(** ** Fields of a process *)

Definition with_descriptors (p : Process) (fds : FdTable) (ofds : OfdTable) (socks : SocketTable) (epolls : list (option EpollInstance))
    (replay : list (Z * Z)) : Process :=
  mkProcess (pr_pid p) (pr_ppid p) (pr_uid p) (pr_gid p) (pr_euid p) (pr_egid p) (pr_pgid p) (pr_sid p) (pr_is_session_leader p)
    (pr_state p) (pr_exit_status p) (pr_exit_signal p) (pr_wait_event p) fds ofds (pr_pipes p) socks (pr_cwd p)
    (pr_dir_streams p) (pr_signals p) (pr_main_thread_signals p) (pr_memory p) (pr_terminal p) (pr_environ p) (pr_argv p) (pr_umask p)
    (pr_nice p) (pr_rlimits p) (pr_alarm_deadline_ns p) (pr_alarm_interval_ns p) (pr_thread_name p) (pr_fork_child p)
    (pr_sigsuspend_saved_mask p) (pr_fork_exec_path p) (pr_fork_exec_argv p) (pr_fork_fd_actions p) (pr_next_ephemeral_port p)
    (pr_threads p) (pr_next_tid p) epolls (pr_posix_timers p) (pr_alt_stack_sp p) (pr_alt_stack_flags p) (pr_alt_stack_size p)
    (pr_alt_stack_depth p) replay (pr_has_exec p) (pr_fb_binding p) (pr_dri_bindings p) (pr_fork_count p).

Definition with_credentials (p : Process) (uid gid euid egid : Z) : Process :=
  mkProcess (pr_pid p) (pr_ppid p) uid gid euid egid (pr_pgid p) (pr_sid p) (pr_is_session_leader p)
    (pr_state p) (pr_exit_status p) (pr_exit_signal p) (pr_wait_event p) (pr_fd_table p) (pr_ofd_table p) (pr_pipes p) (pr_sockets p) (pr_cwd p)
    (pr_dir_streams p) (pr_signals p) (pr_main_thread_signals p) (pr_memory p) (pr_terminal p) (pr_environ p) (pr_argv p) (pr_umask p)
    (pr_nice p) (pr_rlimits p) (pr_alarm_deadline_ns p) (pr_alarm_interval_ns p) (pr_thread_name p) (pr_fork_child p)
    (pr_sigsuspend_saved_mask p) (pr_fork_exec_path p) (pr_fork_exec_argv p) (pr_fork_fd_actions p) (pr_next_ephemeral_port p)
    (pr_threads p) (pr_next_tid p) (pr_epolls p) (pr_posix_timers p) (pr_alt_stack_sp p) (pr_alt_stack_flags p) (pr_alt_stack_size p)
    (pr_alt_stack_depth p) (pr_fork_pipe_replay p) (pr_has_exec p) (pr_fb_binding p) (pr_dri_bindings p) (pr_fork_count p).
Definition with_cwd (p : Process) (cwd : bytes) : Process :=
  mkProcess (pr_pid p) (pr_ppid p) (pr_uid p) (pr_gid p) (pr_euid p) (pr_egid p) (pr_pgid p) (pr_sid p) (pr_is_session_leader p)
    (pr_state p) (pr_exit_status p) (pr_exit_signal p) (pr_wait_event p) (pr_fd_table p) (pr_ofd_table p) (pr_pipes p) (pr_sockets p) cwd
    (pr_dir_streams p) (pr_signals p) (pr_main_thread_signals p) (pr_memory p) (pr_terminal p) (pr_environ p) (pr_argv p) (pr_umask p)
    (pr_nice p) (pr_rlimits p) (pr_alarm_deadline_ns p) (pr_alarm_interval_ns p) (pr_thread_name p) (pr_fork_child p)
    (pr_sigsuspend_saved_mask p) (pr_fork_exec_path p) (pr_fork_exec_argv p) (pr_fork_fd_actions p) (pr_next_ephemeral_port p)
    (pr_threads p) (pr_next_tid p) (pr_epolls p) (pr_posix_timers p) (pr_alt_stack_sp p) (pr_alt_stack_flags p) (pr_alt_stack_size p)
    (pr_alt_stack_depth p) (pr_fork_pipe_replay p) (pr_has_exec p) (pr_fb_binding p) (pr_dri_bindings p) (pr_fork_count p).
Definition with_umask (p : Process) (umask : Z) : Process :=
  mkProcess (pr_pid p) (pr_ppid p) (pr_uid p) (pr_gid p) (pr_euid p) (pr_egid p) (pr_pgid p) (pr_sid p) (pr_is_session_leader p)
    (pr_state p) (pr_exit_status p) (pr_exit_signal p) (pr_wait_event p) (pr_fd_table p) (pr_ofd_table p) (pr_pipes p) (pr_sockets p) (pr_cwd p)
    (pr_dir_streams p) (pr_signals p) (pr_main_thread_signals p) (pr_memory p) (pr_terminal p) (pr_environ p) (pr_argv p) umask
    (pr_nice p) (pr_rlimits p) (pr_alarm_deadline_ns p) (pr_alarm_interval_ns p) (pr_thread_name p) (pr_fork_child p)
    (pr_sigsuspend_saved_mask p) (pr_fork_exec_path p) (pr_fork_exec_argv p) (pr_fork_fd_actions p) (pr_next_ephemeral_port p)
    (pr_threads p) (pr_next_tid p) (pr_epolls p) (pr_posix_timers p) (pr_alt_stack_sp p) (pr_alt_stack_flags p) (pr_alt_stack_size p)
    (pr_alt_stack_depth p) (pr_fork_pipe_replay p) (pr_has_exec p) (pr_fb_binding p) (pr_dri_bindings p) (pr_fork_count p).

Definition with_fds (p : Process) (t : FdTable) : Process := with_descriptors p t (pr_ofd_table p) (pr_sockets p) (pr_epolls p) (pr_fork_pipe_replay p).
Definition with_ofds (p : Process) (t : OfdTable) : Process := with_descriptors p (pr_fd_table p) t (pr_sockets p) (pr_epolls p) (pr_fork_pipe_replay p).
Definition with_sockets (p : Process) (t : SocketTable) : Process := with_descriptors p (pr_fd_table p) (pr_ofd_table p) t (pr_epolls p) (pr_fork_pipe_replay p).
Definition with_epolls (p : Process) (l : list (option EpollInstance)) : Process :=
  with_descriptors p (pr_fd_table p) (pr_ofd_table p) (pr_sockets p) l (pr_fork_pipe_replay p).
Definition with_pipe_replay (p : Process) (l : list (Z * Z)) : Process :=
  with_descriptors p (pr_fd_table p) (pr_ofd_table p) (pr_sockets p) (pr_epolls p) l.

(** A change of the descriptor table, of the description table, or of one
    description. *)
Definition fd_result {A} (f : FdTable -> FdTable * kresult A) : M A :=
  proc_result (fun p => let '(t, r) := f (pr_fd_table p) in (r, with_fds p t)).
Definition on_ofds (f : OfdTable -> OfdTable) : M unit := on_proc (fun p => with_ofds p (f (pr_ofd_table p))).
Definition on_ofd (idx : nat) (f : OpenFileDesc -> OpenFileDesc) : M unit := on_ofds (fun t => Ofd.get_mut t idx f).

(** [proc.ofd_table.create(..)]: panics when the identities are exhausted. *)
Definition ofd_create (ft : FileType) (flags handle : Z) (path : bytes) : M nat := fun s =>
  match create (k_last_ofd_id (sy_kernel s)) (pr_ofd_table (sy_proc s)) ft flags handle path with
  | None => None
  | Some (idx, t, last) =>
      Some (Ok idx, set_kernel (set_proc s (with_ofds (sy_proc s) t)) (with_identities (sy_kernel s) (k_registry (sy_kernel s)) last))
  end.
