(* ===== verification/Descriptors.v ===== *)
(** * Descriptor system calls ([crates/kernel/src/syscalls.rs])

    [close], [dup], [dup2], [dup3], [fcntl], [pipe], [pipe2], and the installation
    of descriptors received in a message, over the tables of the process
    ([FdTable], [Ofd], [Socket]) and of the machine ([Kernel]).  The graphics state
    of a description is released by [dri_release_ofd_state].

    The functions that take the advisory locks as an option take [locks]: whether
    they have them.  What they prove about the machine is in [Syscalls.v]. *)

From S2P Require Import Prelude Bytes Abi FdTable Lock Ofd Wakeup Pipe PipeTable Memory Terminal Signal Backing Socket Names Mqueue Pshared Process Dri Devices Kernel Accounts ProcTable Fork Sys.

Definition O_CLOEXEC : Z := 0x80000.      (* 0o2000000 *)
Definition O_CLOFORK : Z := 0x800000.     (* 0o40000000 *)

Definition oflags_to_fd_flags (oflags : Z) : Z :=
  let fd_flags := 0 in
  let fd_flags := if negb (Z.land oflags O_CLOEXEC =? 0) then Z.lor fd_flags FD_CLOEXEC else fd_flags in
  if negb (Z.land oflags O_CLOFORK =? 0) then Z.lor fd_flags FD_CLOFORK else fd_flags.

Definition F_DUPFD : Z := 0.
Definition F_GETFD : Z := 1.
Definition F_SETFD : Z := 2.
Definition F_GETFL : Z := 3.
Definition F_SETFL : Z := 4.
Definition F_SETOWN : Z := 8.
Definition F_GETOWN : Z := 9.
Definition F_GETLK : Z := 12.
Definition F_SETLK : Z := 13.
Definition F_SETLKW : Z := 14.
Definition F_DUPFD_CLOFORK : Z := 1028.
Definition F_DUPFD_CLOEXEC : Z := 1030.

Definition PROCFS_DIR_HANDLE : Z := -150.
Definition DEVFS_DIR_HANDLE : Z := -160.

(** ["/dev/pipe"]. *)
Definition DEV_PIPE : bytes := [47; 100; 101; 118; 47; 112; 105; 112; 101].
Definition DEFAULT_PIPE_CAPACITY : nat := Z.to_nat 65536.

(** Fields of a description that the system calls assign. *)
Definition with_owner_pid (o : OpenFileDesc) (pid : Z) : OpenFileDesc :=
  mkOfd (ofd_id o) (file_id o) (file_type o) (status_flags o) (host_handle o) (offset o) (ref_count o)
    pid (path o) (dir_host_handle o) (dir_synth_state o) (dir_entry_offset o) (dri_state o).

Definition clear_peer_idx (idx : nat) (s : SocketInfo) : SocketInfo :=
  if bool_decide (sk_peer_idx s = Some idx) then
    mkSocket (sk_domain s) (sk_type s) (sk_protocol s) (sk_state s) None (sk_recv_buf_idx s) (sk_send_buf_idx s)
      (sk_shut_rd s) (sk_shut_wr s) (sk_host_net_handle s) (sk_options s) (sk_linger_onoff s) (sk_linger_seconds s) (sk_bind_device s)
      (sk_tcp_congestion s) (sk_bind_addr s) (sk_bind_addr6 s) (sk_bind_port s) (sk_peer_addr s) (sk_peer_addr6 s) (sk_peer_port s)
      (sk_listen_backlog s) (sk_shared_backlog_idx s) (sk_accept_wake_idx s) (sk_dgram_queue s) (sk_ipv4_multicast_memberships s)
      (sk_netlink_queue s) (sk_global_pipes s) (sk_oob_byte s) (sk_recv_timeout_us s) (sk_send_timeout_us s) (sk_bind_path s)
      (sk_connect_error s)
  else s.

Section syscalls.
Context `{Usize} `{HostIO}.

(** ** Graphics state *)

(** [release_bo]. *)
Definition release_bo (pid bo_id : Z) : M unit := fun s =>
  let k := sy_kernel s in
  let '(new_count, r) := decref (k_registry k) bo_id in
  let s := set_kernel s (with_identities k r (k_last_ofd_id k)) in
  Some (Ok tt, if bool_decide (new_count = Some 0) then log_call s (RqBoDestroy pid bo_id) else s).

(** [for x in l { f(x) }]. *)
Fixpoint for_each {A} (f : A -> M unit) (l : list A) : M unit :=
  match l with
  | [] => ret tt
  | x :: l' => f x >; for_each f l'
  end.

(** [for (_handle, bo_id) in dri.handles]. *)
Definition release_handles (pid : Z) (d : DriFdState) : M unit := for_each (fun x : Z * Z => release_bo pid x.2) (btree_iter (dri_handles d)).
Definition release_gl (pid : Z) (d : DriFdState) : M unit := match dri_gl d with Some _ => tell_host (RqGlUnbind pid) | None => ret tt end.

Definition release_master (pid : Z) (ofd_idx : nat) (holds : bool) : M unit := fun s =>
  let '(told, m) := release_if_held (sy_master s) holds pid ofd_idx in
  let s := set_master s m in
  Some (Ok tt, if told then log_call s (RqDropMaster pid) else s).

Definition dri_release_ofd_state (pid : Z) (ofd_idx : nat) (state : option DriOfdState) : M unit :=
  match state with
  | None => ret tt
  | Some (PrimeBo p) => release_bo pid (pb_bo_id p)
  | Some (RenderNode d) => release_gl pid d >; release_handles pid d
  | Some (Card d kms) =>
      for_each (fun x : Z * KmsFb => release_bo pid (fb_bo_id x.2) >; tell_host (RqRmFb pid x.1)) (btree_iter (kms_fbs kms)) >;
      release_master pid ofd_idx (holds_master kms) >;
      release_gl pid d >;
      release_handles pid d
  end.

(** ** Advisory locks *)

Definition publish_advisory_lock_mutation (mu : LockMutation) : M unit := if may_unblock mu then on_kernel wake_locks else ret tt.

Definition remove_locks (f : AdvisoryLockManager -> AdvisoryLockManager * LockMutation) : M unit := fun s =>
  let '(l, mu) := f (sy_locks s) in publish_advisory_lock_mutation mu (set_locks s l).

Definition release_final_ofd_locks (locks : bool) (ofd_id : Z) : M unit :=
  if locks then remove_locks (fun l => remove_ofd l ofd_id) else ret tt.

(** ** Descriptors received or dropped in messages *)

(** [while let Some(release) = pop_deferred_in_flight_release()]. *)
Fixpoint drain_releases (fuel : nat) : M unit :=
  match fuel with
  | O => fun _ => None
  | S fuel' =>
      let! k := gets sy_kernel in
      match pop_deferred_in_flight_release (w_deferred (k_world k)) with
      | (None, _) => ret tt
      | (Some r, q) =>
          let! released := kernel_result (fun k => let '(rel, k) := release_deferred_in_flight_resource r (on_deferred (fun _ => q) k) in (Ok rel, k)) in
          (if rf_final_ofd_reference released then remove_locks (fun l => remove_ofd l (rf_ofd_id released)) else ret tt) >;
          (match rf_host_close released with Some h => attempt (call_host (RqClose h)) >; ret tt | None => ret tt end) >;
          drain_releases fuel'
      end
  end.

Definition drain_deferred_scm_rights_releases : M unit := fun s => drain_releases (drain_fuel (sy_kernel s)) s.

(** The socket a received descriptor gets. *)
Definition received_socket (d : InFlightSocket) : SocketInfo :=
  let domain := if s_domain d =? 0 then Unix else if s_domain d =? 1 then Inet else Inet6 in
  let type := if s_sock_type d =? 0 then Stream else Dgram in
  let state := if s_state d =? 0 then Unbound else if s_state d =? 1 then Bound else if s_state d =? 2 then Listening
               else if s_state d =? 3 then Connected else Closed in
  mkSocket domain type (s_protocol d) state None (s_recv_buf_idx d) (s_send_buf_idx d)
    (s_shut_rd d) (s_shut_wr d) None [] 0 0 None CUBIC (s_bind_addr d) ANY6 (s_bind_port d) (s_peer_addr d) ANY6 (s_peer_port d)
    [] None None [] [] [] (s_global_pipes d) None 0 0 None 0.

(** One descriptor; [None] for a socket without state, which is dropped. *)
Definition install_scm_rights_fd (entry : InFlightFd) : M (option Z) := fun s =>
  let drop s := set_kernel s (with_world (sy_kernel s) (drop_in_flight_fd (k_world (sy_kernel s)) entry)) in
  let place :=
    match fd_file_type entry, fd_socket entry with
    | Socket, None => None
    | Socket, Some d =>
        let '(i, t) := socket_alloc (pr_sockets (sy_proc s)) (received_socket d) in
        Some (- (Z.of_nat i + 1), Some i, with_sockets (sy_proc s) t)
    | _, _ => Some (fd_host_handle entry, None, sy_proc s)
    end in
  match place with
  | None => Some (Ok None, drop s)
  | Some (receiver_host_handle, installed_socket_idx, p) =>
      let k := sy_kernel s in
      match create_transferred (k_last_ofd_id k) (pr_ofd_table p) (fd_ofd_id entry) (fd_file_id entry) (fd_file_type entry)
              (fd_status_flags entry) receiver_host_handle (fd_offset entry) (fd_path entry) with
      | None => None
      | Some (ofd_idx, t, last) =>
          let k := with_identities k (k_registry k) last in
          let p := with_ofds p t in
          match FdTable.alloc (pr_fd_table p) ofd_idx 0 with
          | (fds, Ok new_fd) => Some (Ok (Some new_fd), set_kernel (set_proc s (with_fds p fds)) (transfer_reference entry k).2)
          | (fds, Err _) =>
              let p := with_ofds (with_fds p fds) (dec_ref (pr_ofd_table p) ofd_idx).2 in
              let p := match installed_socket_idx with Some i => with_sockets p (socket_free (pr_sockets p) i) | None => p end in
              Some (Ok None, drop (set_kernel (set_proc s p) k))
          end
      end
  end.

Fixpoint install_scm_rights_fds (in_flight : list InFlightFd) : M (list Z) :=
  match in_flight with
  | [] => ret []
  | entry :: rest =>
      let! o := install_scm_rights_fd entry in
      let! fds := install_scm_rights_fds rest in
      ret (match o with Some fd => fd :: fds | None => fds end)
  end.

(** ** Close *)

(** [if file_id.is_none() && ..]: the live identity of a file whose description
    has none. *)
Definition close_file_id (o : OpenFileDesc) : M (option FileId) :=
  if bool_decide (file_id o = None) && bool_decide (file_type o = Regular \/ file_type o = Directory) && (0 <=? host_handle o) then
    let! r := attempt (call_host_stat (RqFstat (host_handle o))) in
    ret (match r with Ok st => if st_ino st =? 0 then None else Some (FHost (st_dev st) (st_ino st)) | Err _ => None end)
  else ret (file_id o).

(** [take()] of the graphics state by the last descriptor. *)
Definition take_dri_state (idx : nat) : M (option DriOfdState) :=
  let! p := gets sy_proc in
  let! o := lift (ok_or (Ofd.get (pr_ofd_table p) idx) EBADF) in
  if ref_count o =? 1 then on_ofd idx (fun o => with_dri o None) >; ret (dri_state o) else ret None.

Definition dec_ref_ofd (idx : nat) : M bool :=
  proc_result (fun p => let '(freed, t) := dec_ref (pr_ofd_table p) idx in (Ok freed, with_ofds p t)).

(** A close of one end of a pipe that is still there, then [free_if_closed]. *)
Definition close_pipe_end (idx : nat) (f : PipeBuffer -> pipe_op) (k : Kernel) : Kernel :=
  match table_get (k_pipes k) idx with
  | Some p => pipe_free idx (pipe_do idx (f p) k)
  | None => k
  end.

Definition opt_close_end (o : option nat) (f : pipe_op) (k : Kernel) : Kernel :=
  match o with Some idx => close_pipe_end idx (fun _ => f) k | None => k end.

(** Closes a handle of the host that this was the last reference to. *)
Definition close_host_handle (h : Z) : M bool :=
  kernel_result (fun k => let '(last, hs) := host_handle_close_ref (k_handles k) h in (Ok last, with_handles k hs)).

Definition close_pipe (o : OpenFileDesc) : M unit :=
  if 0 <=? host_handle o then
    let! last := close_host_handle (host_handle o) in
    if last then attempt (call_host (RqClose (host_handle o))) >; ret tt else ret tt
  else
    on_kernel (close_pipe_end (neg_index (host_handle o))
      (fun p => match reference_kind p (status_flags o) with Some kind => close_reference kind | None => fun p => (p, []) end)).

Definition is_unix_dgram (s : SocketInfo) : bool := match sk_domain s, sk_type s with Unix, Dgram => true | _, _ => false end.

(** The registries a closed socket leaves; [udp_unregister] and its siblings. *)
Definition unregister_socket (pid : Z) (idx : nat) (s : SocketInfo) (k : Kernel) : Kernel :=
  let n := k_inet k in
  let n :=
    match sk_domain s, sk_type s with
    | Inet, Dgram => with_udp n (udp_unregister (UDP_ENDPOINTS n) pid idx)
    | Inet6, Dgram => with_udp6 n (udp6_unregister (UDP6_ENDPOINTS n) pid idx)
    | Inet, Stream => with_tcp n (tcp_unregister (TCP_BINDINGS n) pid idx)
    | Inet6, Stream => with_tcp6 (with_tcp n (tcp_unregister (TCP_BINDINGS n) pid idx)) (tcp6_unregister (TCP6_BINDINGS n) pid idx)
    | Unix, _ => n
    end in
  let u := match sk_bind_path s with Some path => (unix_remove_owner (k_unix k) path pid idx).2 | None => k_unix k end in
  with_tables k n u (k_mqueues k) (k_pshared k).

Definition close_net_handle (h : Z) : M bool :=
  kernel_result (fun k => let '(last, hs) := host_net_handle_close_ref (k_net_handles k) h in (Ok last, with_net_handles k hs)).

(** The two buffers of a socket, the send end first. *)
Definition close_socket_buffers (s : SocketInfo) (k : Kernel) : Kernel :=
  opt_close_end (sk_recv_buf_idx s) (if is_tcp s then close_read_end_orderly else close_read_end)
    (opt_close_end (sk_send_buf_idx s) close_write_end k).

(** The socket's part of the machine's tables. *)
Definition release_socket (idx : nat) (s : SocketInfo) : M unit :=
  let! p := gets sy_proc in
  on_kernel (unregister_socket (pr_pid p) idx s) >;
  (match sk_domain s, sk_type s with
   | Inet, Dgram => attempt (call_host (RqUdpUnbind (as_i32 (Z.of_nat idx)))) >; ret tt
   | _, _ => ret tt
   end) >;
  (match sk_host_net_handle s with
   | Some h => let! last := close_net_handle h in if last then attempt (call_host (RqNetClose h)) >; ret tt else ret tt
   | None => ret tt
   end) >;
  on_kernel (fun k => match sk_shared_backlog_idx s with Some i => backlog_close i k | None => k end) >;
  on_kernel (close_socket_buffers s).

(** [proc.sockets.free(idx)] drops the datagrams queued in the socket, with the
    descriptors in them. *)
Definition free_socket (idx : nat) : M unit := fun s =>
  let p := sy_proc s in
  let dropped := match socket_get (pr_sockets p) idx with Some si => sk_dgram_queue si ≫= dg_ancillary_fds | None => [] end in
  let k := sy_kernel s in
  Some (Ok tt, set_kernel (set_proc s (with_sockets p (socket_free (pr_sockets p) idx)))
                 (with_world k (fold_left drop_in_flight_fd dropped (k_world k)))).

Definition close_socket (o : OpenFileDesc) : M unit :=
  let idx := neg_index (host_handle o) in
  let! p := gets sy_proc in
  let found := socket_get (pr_sockets p) idx in
  (match found with Some s => release_socket idx s | None => ret tt end) >;
  on_proc (fun p => with_sockets p ((fun slot : option SocketInfo => clear_peer_idx idx <$> slot) <$> pr_sockets p)) >;
  free_socket idx >;
  (match found with
   | Some s => if is_unix_dgram s then on_kernel (fun k => with_world k (mkWorld (push_datagram_writable (w_wakeups (k_world k))) (w_in_flight (k_world k)) (w_deferred (k_world k)))) else ret tt
   | None => ret tt
   end).

Definition release_backing (o : OpenFileDesc) : M bool :=
  kernel_result (fun k => let '(freed, b) := release_for_ofd (k_backings k) (file_type o) (host_handle o) in (Ok freed, with_backings k b)).

(** [proc.epolls.get_mut(ep_idx)], set to [None]. *)
Definition close_epoll (o : OpenFileDesc) : M unit := on_proc (fun p => with_epolls p (<[neg_index (host_handle o) := None]> (pr_epolls p))).

(** The last arm: files, directories and character devices. *)
Definition close_file (locks : bool) (o : OpenFileDesc) : M unit :=
  let h := host_handle o in
  (if 0 <=? dir_host_handle o then attempt (call_host (RqClosedir (dir_host_handle o))) >; ret tt else ret tt) >;
  (if bool_decide (file_type o = Regular) && (is_procfs_buf_handle h || is_synthetic_regular_handle h) then
     let! freed := release_backing o in if freed then release_final_ofd_locks locks (ofd_id o) else ret tt
   else if (h =? PROCFS_DIR_HANDLE) || (h =? DEVFS_DIR_HANDLE) then ret tt
   else if bool_decide (file_type o = CharDevice) && (h <? 0) then ret tt
   else
     let! last := close_host_handle h in
     if last then release_final_ofd_locks locks (ofd_id o) >; call_host (RqClose h) else ret tt).

Definition close_resource (locks : bool) (o : OpenFileDesc) : M unit :=
  match file_type o with
  | Ofd.Pipe => close_pipe o
  | Socket => close_socket o
  | EventFd | TimerFd | SignalFd => release_backing o >; ret tt
  | MemFd => let! freed := release_backing o in if freed then release_final_ofd_locks locks (ofd_id o) else ret tt
  | Epoll => close_epoll o
  | PtyMaster => on_kernel (pty_close (usize_index (host_handle o)) true)
  | PtySlave => on_kernel (pty_close (usize_index (host_handle o)) false)
  | Regular | Directory | CharDevice => close_file locks o
  end.

(** [proc_has_virtual_device_fd]. *)
Definition proc_has_virtual_device_fd (p : Process) (device : VirtualDevice) : bool :=
  existsb (fun x : Z * FdEntry =>
    match Ofd.get (pr_ofd_table p) (ofd_ref x.2) with
    | Some o => bool_decide (file_type o = CharDevice) && bool_decide (from_host_handle (host_handle o) = Some device)
    | None => false
    end) (FdTable.iter (pr_fd_table p)).

Definition is_device (o : OpenFileDesc) (d : VirtualDevice) : bool :=
  bool_decide (file_type o = CharDevice) && bool_decide (from_host_handle (host_handle o) = Some d).

Definition release_devices (o : OpenFileDesc) : M unit := modify (fun s =>
  let p := sy_proc s in
  let d := sy_devices s in
  let gone dev := is_device o dev && negb (proc_has_virtual_device_fd p dev) in
  let d := if gone Fb0 && bool_decide (pr_fb_binding p = None) then maybe_release_fb0 (pr_pid p) d else d in
  let d := if gone Mice then maybe_release_mice (pr_pid p) d else d in
  let d := if gone DspDev then maybe_release_dsp (pr_pid p) d else d in
  set_devices s d).

Definition sys_close_impl (locks : bool) (fd : Z) : M unit :=
  let! idx := fd_result (fun t => FdTable.free t fd) in
  let! p := gets sy_proc in
  let! o := lift (ok_or (Ofd.get (pr_ofd_table p) idx) EBADF) in
  let! fid := close_file_id o in
  let! state := take_dri_state idx in
  (match fid with
   | Some f => if locks then remove_locks (fun l => remove_process_file l (pr_pid p) f) else ret tt
   | None => ret tt
   end) >;
  let! freed := dec_ref_ofd idx in
  (if freed then dri_release_ofd_state (as_i32 (pr_pid p)) idx state >; close_resource locks o else ret tt) >;
  release_devices o.

Definition sys_close (fd : Z) : M unit := sys_close_impl false fd.

Definition sys_close_with_locks (fd : Z) : M unit :=
  let! result := attempt (sys_close_impl true fd) in
  drain_deferred_scm_rights_releases >;
  lift result.

(** ** Duplication *)

Definition fd_entry (fd : Z) : M FdEntry := let! p := gets sy_proc in lift (FdTable.get (pr_fd_table p) fd).

(** A new descriptor for the description, whose count is taken back when there is
    none. *)
Definition duplicate (idx : nat) (place : FdTable -> FdTable * kresult Z) : M Z :=
  on_ofds (fun t => inc_ref t idx) >;
  let! r := attempt (fd_result place) in
  match r with
  | Ok new_fd => ret new_fd
  | Err e => dec_ref_ofd idx >; fail e
  end.

Definition sys_dup (fd : Z) : M Z :=
  let! entry := fd_entry fd in
  duplicate (ofd_ref entry) (fun t => FdTable.alloc t (ofd_ref entry) 0).

(** [set_at(newfd, ..)], answering [newfd]. *)
Definition place_at (idx : nat) (newfd : Z) (t : FdTable) : FdTable * kresult Z :=
  let '(t, r) := set_at t newfd idx 0 in (t, match r with Ok _ => Ok newfd | Err e => Err e end).

Definition sys_dup2_impl (locks : bool) (oldfd newfd : Z) : M Z :=
  fd_entry oldfd >;
  if oldfd =? newfd then ret newfd
  else
    attempt (if locks then sys_close_with_locks newfd else sys_close newfd) >;
    let! entry := fd_entry oldfd in
    duplicate (ofd_ref entry) (place_at (ofd_ref entry) newfd).

Definition sys_dup2 (oldfd newfd : Z) : M Z := sys_dup2_impl false oldfd newfd.
Definition sys_dup2_with_locks (oldfd newfd : Z) : M Z := sys_dup2_impl true oldfd newfd.

(** [if let Ok(entry) = proc.fd_table.get_mut(fd) { entry.fd_flags = flags; }]. *)
Definition set_fd_flags (flags : Z) (t : FdTable) (fd : Z) : FdTable :=
  match FdTable.get_mut t fd (fun e => mkFdEntry (ofd_ref e) flags) with Ok t' => t' | Err _ => t end.
Definition on_fd_flags (fd flags : Z) : M unit := on_proc (fun p => with_fds p (set_fd_flags flags (pr_fd_table p) fd)).

Definition sys_dup3_impl (locks : bool) (oldfd newfd flags : Z) : M Z :=
  if negb (Z.ldiff flags (Z.lor O_CLOEXEC O_CLOFORK) =? 0) then fail EINVAL
  else if oldfd =? newfd then fail EINVAL
  else
    let! result := sys_dup2_impl locks oldfd newfd in
    let new_fd_flags := oflags_to_fd_flags flags in
    (if negb (new_fd_flags =? 0) then on_fd_flags newfd new_fd_flags else ret tt) >;
    ret result.

Definition sys_dup3 (oldfd newfd flags : Z) : M Z := sys_dup3_impl false oldfd newfd flags.
Definition sys_dup3_with_locks (oldfd newfd flags : Z) : M Z := sys_dup3_impl true oldfd newfd flags.

(** ** Pipes *)

Definition alloc_pipe : M nat := kernel_result (fun k => let '(i, k) := pipe_alloc DEFAULT_PIPE_CAPACITY k in (Ok i, k)).

Definition sys_pipe : M (Z * Z) :=
  let! p := gets sy_proc in
  match pr_fork_child p, pr_fork_pipe_replay p with
  | true, x :: rest => on_proc (fun p => with_pipe_replay p rest) >; ret x
  | _, _ =>
      let! pipe_idx := alloc_pipe in
      let pipe_handle := - (Z.of_nat pipe_idx + 1) in
      let! read_ofd := ofd_create Ofd.Pipe O_RDONLY pipe_handle DEV_PIPE in
      let! write_ofd := ofd_create Ofd.Pipe O_WRONLY pipe_handle DEV_PIPE in
      let! read := attempt (fd_result (fun t => FdTable.alloc t read_ofd 0)) in
      match read with
      | Err e => dec_ref_ofd read_ofd >; dec_ref_ofd write_ofd >; fail e
      | Ok read_fd =>
          let! write := attempt (fd_result (fun t => FdTable.alloc t write_ofd 0)) in
          match write with
          | Err e => attempt (fd_result (fun t => FdTable.free t read_fd)) >; dec_ref_ofd read_ofd >; dec_ref_ofd write_ofd >; fail e
          | Ok write_fd => ret (read_fd, write_fd)
          end
      end
  end.

Definition sys_pipe2 (flags : Z) : M (Z * Z) :=
  let! x := sys_pipe in
  let pipe_fd_flags := oflags_to_fd_flags flags in
  (if negb (pipe_fd_flags =? 0) then on_fd_flags x.1 pipe_fd_flags >; on_fd_flags x.2 pipe_fd_flags else ret tt) >;
  (if negb (Z.land flags O_NONBLOCK =? 0) then
     let! r := fd_entry x.1 in
     let! w := fd_entry x.2 in
     let nonblock o := with_flags o (Z.lor (status_flags o) O_NONBLOCK) in
     on_ofd (ofd_ref r) nonblock >; on_ofd (ofd_ref w) nonblock
   else ret tt) >;
  ret x.

(** ** Control *)

Definition ofd_at (idx : nat) : M OpenFileDesc := let! p := gets sy_proc in lift (ok_or (Ofd.get (pr_ofd_table p) idx) EBADF).

Definition sys_fcntl (fd cmd arg : Z) : M Z :=
  if (cmd =? F_DUPFD) || (cmd =? F_DUPFD_CLOEXEC) || (cmd =? F_DUPFD_CLOFORK) then
    let! entry := fd_entry fd in
    let new_fd_flags := if cmd =? F_DUPFD_CLOEXEC then FD_CLOEXEC else if cmd =? F_DUPFD_CLOFORK then FD_CLOFORK else 0 in
    duplicate (ofd_ref entry) (fun t => alloc_at_min t (ofd_ref entry) new_fd_flags (as_i32 arg))
  else if cmd =? F_GETFD then let! entry := fd_entry fd in ret (as_i32 (fd_flags entry))
  else if cmd =? F_SETFD then
    fd_result (fun t => match FdTable.get_mut t fd (fun e => mkFdEntry (ofd_ref e) arg) with Ok t' => (t', Ok 0) | Err e => (t, Err e) end)
  else if cmd =? F_GETFL then
    let! entry := fd_entry fd in
    let! o := ofd_at (ofd_ref entry) in
    ret (as_i32 (status_flags o))
  else if cmd =? F_SETFL then
    let! entry := fd_entry fd in
    let! o := ofd_at (ofd_ref entry) in
    if is_path_only o then fail EBADF
    else on_ofds (fun t => set_status_flags t (ofd_ref entry) arg) >; ret 0
  else if cmd =? F_SETOWN then
    let! entry := fd_entry fd in
    let! o := ofd_at (ofd_ref entry) in
    if is_path_only o then fail EBADF
    else on_ofd (ofd_ref entry) (fun o => with_owner_pid o arg) >; ret 0
  else if cmd =? F_GETOWN then
    let! entry := fd_entry fd in
    let! o := ofd_at (ofd_ref entry) in
    if is_path_only o then fail EBADF
    else ret (as_i32 (owner_pid o))
  else fail EINVAL.

End syscalls.
