(* ===== verification/Releases.v ===== *)
(** * What a close releases

    Over the definitions of [Descriptors.v].  [counted_ofds]: every description is
    counted once per descriptor that refers to it.  [moved] relates two states of a
    system call by what the process stops holding and by what the host was asked to
    close in between; [runs] is the rule of a call that does so, with one lemma per
    operation of [close], up to the whole of [sys_close_impl] ([runs_close]). *)

From stdpp Require Import fin_maps.
From S2P Require Import Prelude Bytes Abi FdTable Lock Ofd Wakeup Pipe PipeTable Memory Terminal Signal Backing Socket Names Mqueue Pshared Process Dri Devices Kernel Accounts ProcTable Lifecycle Fork Sys Descriptors.

(** ** Reference counts of descriptions *)

Abbreviation fd_map := (gmap nat FdEntry).

Definition fds_of (p : Process) : fd_map := open_map (FdTable.entries (pr_fd_table p)).

(** The descriptors that refer to a description. *)
Definition fd_refs (m : fd_map) (i : nat) : Z := Z.of_nat (size (filter (fun x : nat * FdEntry => ofd_ref x.2 = i) m)).

(** [ext]: references held by code in progress. *)
Definition pending_refs (ext : list nat) (i : nat) : Z := Z.of_nat (length (List.filter (Nat.eqb i) ext)).
Definition desc_refs (m : fd_map) (ext : list nat) (i : nat) : Z := fd_refs m i + pending_refs ext i.

Definition counted_ofds (m : fd_map) (ext : list nat) (t : OfdTable) : Prop :=
  forall i, match Ofd.get t i with
            | Some o => ref_count o = desc_refs m ext i /\ 0 < desc_refs m ext i
            | None => desc_refs m ext i = 0
            end.

Definition one (b : bool) : Z := if b then 1 else 0.

Lemma fd_refs_insert m fd e i : m !! fd = None -> fd_refs (<[fd := e]> m) i = fd_refs m i + one (ofd_ref e =? i)%nat.
Proof.
  intros Hm. unfold fd_refs, one. destruct (Nat.eqb_spec (ofd_ref e) i) as [He|He].
  - rewrite map_filter_insert_True by done. rewrite map_size_insert_None; [lia|]. apply map_lookup_filter_None. by left.
  - rewrite map_filter_insert_False by done. rewrite delete_id by done. lia.
Qed.

Lemma fd_refs_delete m fd e i : m !! fd = Some e -> fd_refs (delete fd m) i = fd_refs m i - one (ofd_ref e =? i)%nat.
Proof.
  intros Hm. rewrite <- (insert_delete_id m fd e Hm) at 2. rewrite fd_refs_insert by apply lookup_delete_eq. lia.
Qed.

Lemma fd_refs_replace m fd e e' i : m !! fd = Some e' -> fd_refs (<[fd := e]> m) i = fd_refs m i - one (ofd_ref e' =? i)%nat + one (ofd_ref e =? i)%nat.
Proof.
  intros Hm. rewrite <- insert_delete_eq, fd_refs_insert by apply lookup_delete_eq. by rewrite (fd_refs_delete m fd e').
Qed.

Lemma fd_refs_nonneg m i : 0 <= fd_refs m i.
Proof. unfold fd_refs. lia. Qed.

Lemma pending_cons i j ext : pending_refs (j :: ext) i = one (i =? j)%nat + pending_refs ext i.
Proof. unfold pending_refs, one. cbn [List.filter]. destruct (i =? j)%nat; cbn [length]; lia. Qed.

Lemma pending_nonneg ext i : 0 <= pending_refs ext i.
Proof. unfold pending_refs. lia. Qed.

#[export] Instance desc_refs_perm m : Proper ((≡ₚ) ==> eq ==> eq) (desc_refs m).
Proof.
  intros a b Hp i ? <-. unfold desc_refs. f_equal. induction Hp as [|x a b _ IH|x y a|a b c _ IH1 _ IH2]; [done| | |congruence]; rewrite !pending_cons; lia.
Qed.

(** A reference of a descriptor becomes one of the code in progress, and back. *)
Lemma counted_close m ext t fd e : m !! fd = Some e -> counted_ofds m ext t -> counted_ofds (delete fd m) (ofd_ref e :: ext) t.
Proof.
  intros Hm Hc i. specialize (Hc i). unfold desc_refs in *. rewrite (fd_refs_delete _ _ e) by done. rewrite pending_cons, Nat.eqb_sym.
  destruct (Ofd.get t i); lia.
Qed.

Lemma counted_open m ext t fd e : m !! fd = None -> counted_ofds m (ofd_ref e :: ext) t -> counted_ofds (<[fd := e]> m) ext t.
Proof.
  intros Hm Hc i. specialize (Hc i). unfold desc_refs in *. rewrite fd_refs_insert by done. rewrite pending_cons, Nat.eqb_sym in Hc. destruct (Ofd.get t i); lia.
Qed.

(** The same descriptions, with other flags. *)
Lemma counted_flags m ext t fd e e' : m !! fd = Some e' -> ofd_ref e = ofd_ref e' -> counted_ofds m ext t -> counted_ofds (<[fd := e]> m) ext t.
Proof.
  intros Hm He Hc i. specialize (Hc i). unfold desc_refs in *. rewrite (fd_refs_replace _ _ _ e') by done. rewrite He. destruct (Ofd.get t i); lia.
Qed.

Lemma counted_live m ext t fd e : counted_ofds m ext t -> m !! fd = Some e -> is_Some (Ofd.get t (ofd_ref e)).
Proof.
  intros Hc Hm. specialize (Hc (ofd_ref e)). destruct (Ofd.get t (ofd_ref e)) as [o|]; [by exists o|]. exfalso. unfold desc_refs in Hc.
  pose proof (fd_refs_delete m fd e (ofd_ref e) Hm) as Hd. rewrite Nat.eqb_refl in Hd. unfold one in Hd.
  pose proof (fd_refs_nonneg (delete fd m) (ofd_ref e)). pose proof (pending_nonneg ext (ofd_ref e)). lia.
Qed.

Lemma counted_inc m ext t i :
  counted_ofds m ext t -> is_Some (Ofd.get t i) -> desc_refs m ext i < u32_max -> counted_ofds m (i :: ext) (inc_ref t i).
Proof.
  intros Hc [o Ho] Hb j. unfold inc_ref. rewrite get_mut_spec. pose proof (Hc j) as Hj. unfold desc_refs in *. rewrite pending_cons. unfold one.
  destruct (Nat.eqb_spec j i) as [->|Hne]; [|destruct (Ofd.get t j); lia]. rewrite Ho in Hj |- *. cbn [fmap option_fmap option_map ref_count set_ref_count].
  unfold u32_wrap. rewrite Z.mod_small; [lia|]. unfold u32_max in Hb. lia.
Qed.

(** Dropping a reference: the description goes with the last one. *)
Lemma counted_dec m ext t i o :
  Ofd.get t i = Some o -> counted_ofds m (i :: ext) t -> desc_refs m (i :: ext) i <= u32_max ->
  let '(freed, t') := dec_ref t i in
  counted_ofds m ext t' /\ freed = (desc_refs m ext i =? 0) /\
  (forall j, Ofd.get t' j = if (j =? i)%nat then (if freed then None else Some (set_ref_count o (ref_count o - 1))) else Ofd.get t j).
Proof.
  intros Ho Hc Hb. pose proof (dec_ref_spec t i) as Hd. destruct (dec_ref t i) as [freed t']. rewrite Ho in Hd. destruct Hd as [-> Hget].
  pose proof (Hc i) as Hi. rewrite Ho in Hi. assert (desc_refs m (i :: ext) i = desc_refs m ext i + 1) as E.
  { unfold desc_refs. rewrite pending_cons, Nat.eqb_refl. unfold one. lia. }
  assert (u32_wrap (ref_count o - 1) = desc_refs m ext i) as Ew.
  { unfold u32_wrap. rewrite Z.mod_small; unfold u32_max in Hb; lia. }
  rewrite Ew in *. assert (ref_count o - 1 = desc_refs m ext i) as Ew' by lia. rewrite Ew'. split; [|done]. intros j. rewrite Hget.
  destruct (Nat.eqb_spec j i) as [->|Hne].
  - destruct (Z.eqb_spec (desc_refs m ext i) 0) as [->|Hnz]; [done|]. cbn [ref_count set_ref_count]. lia.
  - specialize (Hc j). unfold desc_refs in *. rewrite pending_cons in Hc. unfold one in Hc. rewrite (proj2 (Nat.eqb_neq _ _) Hne) in Hc. destruct (Ofd.get t j); lia.
Qed.

(** A change of a description that keeps its count. *)
Lemma counted_mut m ext t i f : (forall o, ref_count (f o) = ref_count o) -> counted_ofds m ext t -> counted_ofds m ext (Ofd.get_mut t i f).
Proof.
  intros Hf Hc j. rewrite get_mut_spec. specialize (Hc j). destruct (Nat.eqb_spec j i) as [->|]; [|done]. destruct (Ofd.get t i) as [o|]; [|done]. cbn. by rewrite Hf.
Qed.

Lemma counted_insert m ext t o :
  ref_count o = 1 -> counted_ofds m ext t -> let '(i, t') := Ofd.insert t o in counted_ofds m (i :: ext) t'.
Proof.
  intros Ho Hc. pose proof (insert_spec t o) as Hi. destruct (Ofd.insert t o) as [i t']. destruct Hi as (Hn & _ & Hget). intros j. rewrite Hget.
  pose proof (Hc j) as Hj. unfold desc_refs in *. rewrite pending_cons. unfold one. destruct (Nat.eqb_spec j i) as [->|]; [rewrite Hn in Hj; lia|]. destruct (Ofd.get t j); lia.
Qed.

(** Descriptors are below the limit, so counts do not overflow. *)
Record descs_ok (p : Process) (ext : list nat) : Prop := {
  ds_wf : fd_wf (pr_fd_table p);
  ds_max : Z.of_nat (max_fds (pr_fd_table p)) <= 2 ^ 31;
  ds_range : forall fd e, fds_of p !! fd = Some e -> Z.of_nat fd < 2 ^ 31;
  ds_counts : counted_ofds (fds_of p) ext (pr_ofd_table p);
}.

Lemma fd_refs_bound (m : fd_map) i (N : nat) : (forall fd e, m !! fd = Some e -> (fd < N)%nat) -> fd_refs m i <= Z.of_nat N.
Proof.
  intros Hm. unfold fd_refs. set (f := filter _ m). assert (size f <= N)%nat; [|lia]. rewrite <- size_dom. rewrite <- (size_set_seq (C := gset nat) 0 N).
  apply subseteq_size. intros fd [e He]%elem_of_dom. apply map_lookup_filter_Some in He as [He _]. apply elem_of_set_seq. split; [lia|]. by eapply Hm.
Qed.

Lemma descs_bound p ext i : descs_ok p ext -> (length ext <= 4)%nat -> desc_refs (fds_of p) ext i < u32_max.
Proof.
  intros [_ _ Hr _] He. unfold desc_refs. assert (fd_refs (fds_of p) i <= Z.of_nat (Z.to_nat (2 ^ 31))).
  { apply fd_refs_bound. intros fd e Hf. specialize (Hr fd e Hf). lia. }
  assert (pending_refs ext i <= 4) by (unfold pending_refs; pose proof (filter_length_le (Nat.eqb i) ext); lia). unfold u32_max. lia.
Qed.


(** ** The descriptor table as a map *)

Lemma get_open (t : FdTable) fd : match FdTable.get t fd with Ok e => exists i, fd_index fd = Some i /\ open_map (FdTable.entries t) !! i = Some e | Err e => e = EBADF end.
Proof.
  unfold FdTable.get. destruct (fd_index fd) as [i|]; [|done]. destruct (FdTable.entries t !! i) as [[e|]|] eqn:Ei; [|done|done]. cbn [ok_or]. exists i. split; [done|]. by rewrite open_map_lookup, Ei.
Qed.

Lemma free_open (t : FdTable) fd :
  fd_wf t ->
  match FdTable.get t fd with
  | Ok e => exists i t', fd_index fd = Some i /\ open_map (FdTable.entries t) !! i = Some e /\ FdTable.free t fd = (t', Ok (ofd_ref e)) /\
      fd_wf t' /\ max_fds t' = max_fds t /\ open_map (FdTable.entries t') = delete i (open_map (FdTable.entries t))
  | Err _ => FdTable.free t fd = (t, Err EBADF)
  end.
Proof.
  intros Hw. unfold FdTable.get. pose proof (fun t' r => free_refines t fd t' r Hw) as Hr. unfold FdTable.free in *. destruct (fd_index fd) as [i|]; [|done].
  destruct (FdTable.entries t !! i) as [[e|]|] eqn:Ei; [| |done]; cbn [ok_or fmap option_fmap option_map] in *.
  - eexists i, _. split; [done|]. split; [by rewrite open_map_lookup, Ei|]. split; [reflexivity|]. destruct (Hr _ _ eq_refl) as [Hw' _]. split; [done|]. split; [done|]. by rewrite <- open_map_clear.
  - f_equal. rewrite list_insert_id by done. by destruct t.
Qed.

Lemma alloc_open (t : FdTable) idx flags min :
  fd_wf t -> Z.of_nat (max_fds t) <= 2 ^ 31 ->
  let '(t', r) := alloc_at_min t idx flags min in
  fd_wf t' /\ max_fds t' = max_fds t /\
  match r with
  | Ok fd => exists i, fd = Z.of_nat i /\ (i < max_fds t)%nat /\ open_map (FdTable.entries t) !! i = None /\
      open_map (FdTable.entries t') = <[i := mkFdEntry idx flags]> (open_map (FdTable.entries t))
  | Err e => e = EMFILE /\ t' = t
  end.
Proof.
  intros Hw Hm. destruct (alloc_at_min t idx flags min) as [t' r] eqn:E. destruct (alloc_at_min_refines _ _ _ _ _ _ Hw Hm E) as [Hw' Hs]. split; [done|].
  assert (r = Err EMFILE -> t' = t) as Herr.
  { intros ->. unfold alloc_at_min in E. destruct (scan_free _ _ _) as [j|]; destruct (_ <=? _)%nat; by simplify_eq/=. }
  inversion Hs; simplify_eq/=.
  - match goal with Hl : lowest _ _ ?j |- _ => destruct Hl as ((_ & Hl) & (Hn & _) & _); split; [done|]; exists j end. done.
  - by split; [|split; [|apply Herr]].
Qed.

Lemma set_at_open (t : FdTable) idx fd :
  fd_wf t ->
  let '(t', r) := place_at idx fd t in
  fd_wf t' /\ max_fds t' = max_fds t /\
  match r with
  | Ok r => r = fd /\ exists i, fd_index fd = Some i /\ (i < max_fds t)%nat /\ open_map (FdTable.entries t') = <[i := mkFdEntry idx 0]> (open_map (FdTable.entries t))
  | Err _ => open_map (FdTable.entries t') = open_map (FdTable.entries t)
  end.
Proof.
  intros Hw. unfold place_at. pose proof (fun t' r => set_at_refines t fd idx 0 t' r Hw) as Hs. unfold set_at in *. destruct (fd_index fd) as [i|]; [|done].
  destruct (Nat.leb_spec (max_fds t) i) as [|Hlt]; [done|]. destruct (bool_decide (i ∈ reserved t)).
  - destruct (Hs _ _ eq_refl) as [Hw' _]. split; [done|]. split; [done|]. apply open_map_extend.
  - destruct (Hs _ _ eq_refl) as [Hw' _]. split; [done|]. split; [done|]. split; [done|]. exists i. split; [done|]. split; [done|]. cbn [set_entries FdTable.entries].
    rewrite open_map_insert by (rewrite extend_to_length; lia). by rewrite open_map_extend.
Qed.

Lemma flags_open (t : FdTable) fd flags :
  fd_wf t ->
  match FdTable.get_mut t fd (fun e => mkFdEntry (ofd_ref e) flags) with
  | Ok t' => fd_wf t' /\ max_fds t' = max_fds t /\ exists i e, open_map (FdTable.entries t) !! i = Some e /\
      open_map (FdTable.entries t') = <[i := mkFdEntry (ofd_ref e) flags]> (open_map (FdTable.entries t))
  | Err _ => True
  end.
Proof.
  intros Hw. unfold FdTable.get_mut. destruct (fd_index fd) as [i|]; [|done]. destruct (FdTable.entries t !! i) as [[e|]|] eqn:Ei; [|done|done]. split; [|split; [done|]].
  - apply fd_wf_insert; [done|]. intros Hr%Hw. congruence.
  - exists i, e. split; [by rewrite open_map_lookup, Ei|]. cbn [set_entries FdTable.entries]. apply open_map_insert. by eapply lookup_lt_Some.
Qed.

(** ** What the resources of a process depend on *)

Definition res_key (o : OpenFileDesc) : FileType * Z * Z * Z :=
  (file_type o, host_handle o, Z.land (status_flags o) O_PATH, Z.land (status_flags o) O_ACCMODE).

Lemma bind_key {A B} (key : OpenFileDesc -> A) (g : OpenFileDesc -> list B) l l' :
  (forall o o', key o = key o' -> g o = g o') -> key <$> l = key <$> l' -> l ≫= g = l' ≫= g.
Proof.
  intros Hg. revert l'. induction l as [|o l IH]; intros [|o' l']; [done|done|done|]. cbn [fmap list_fmap mbind list_bind]. intros [= Ho Hl].
  by rewrite (Hg o o' Ho), (IH l' Hl).
Qed.

Lemma ofds_slots p : ofds p = omap id (Ofd.entries (pr_ofd_table p)).
Proof.
  unfold ofds, Ofd.iter. generalize 0%nat. induction (Ofd.entries (pr_ofd_table p)) as [|[o|] l IH]; intros j; [done| |]; cbn [Ofd.iter_from omap list_omap id fmap list_fmap snd]; by rewrite IH.
Qed.

Lemma omap_replace (l : list (option OpenFileDesc)) i o s : l !! i = Some (Some o) -> exists l1 l2, omap id l = l1 ++ o :: l2 /\ omap id (<[i := s]> l) = l1 ++ option_list s ++ l2.
Proof.
  intros Hl. apply list_elem_of_split_length in Hl as (a & b & -> & ->). exists (omap id a), (omap id b). rewrite insert_app_r_alt by lia. rewrite Nat.sub_diag. cbn [list_insert].
  rewrite !omap_app. split; [done|]. by destruct s.
Qed.

Lemma get_entry t i o : Ofd.get t i = Some o -> Ofd.entries t !! i = Some (Some o).
Proof. unfold Ofd.get. destruct (Ofd.entries t !! i) as [[]|]; naive_solver. Qed.

Lemma ofds_get p i o : Ofd.get (pr_ofd_table p) i = Some o -> o ∈ ofds p.
Proof. intros Ho%get_entry. rewrite ofds_slots. apply list_elem_of_omap. exists (Some o). split; [|done]. by eapply list_elem_of_lookup_2. Qed.

Section process_uses.
Context `{Usize}.

Lemma pipe_ofd_key t o o' : res_key o = res_key o' -> pipe_ofd_uses t o = pipe_ofd_uses t o'.
Proof. unfold res_key. intros [= E1 E2 E3 E4]. unfold pipe_ofd_uses, reference_kind. by rewrite E1, E2, E3, E4. Qed.

Lemma socket_ofd_uses_eq p p' o : pr_sockets p = pr_sockets p' -> socket_ofd_uses p o = socket_ofd_uses p' o.
Proof.
  intros Hs. unfold socket_ofd_uses, socket_of_ofd. rewrite Hs. destruct (_ && _); [|done]. destruct (socket_get _ _) as [s|]; [|done]. f_equal.
  apply bind_uses_ext. intros j _. unfold queued_socket_uses. by rewrite Hs.
Qed.

Lemma process_uses_key t p p' : res_key <$> ofds p = res_key <$> ofds p' -> pr_sockets p = pr_sockets p' -> process_uses t p = process_uses t p'.
Proof.
  intros Hk Hs. unfold process_uses.
  assert (forall o o' : OpenFileDesc, res_key o = res_key o' -> file_type o = file_type o' /\ host_handle o = host_handle o') as Hr by (by unfold res_key; intros ?? [= -> -> _ _]).
  f_equal; [|f_equal; [|f_equal; [|f_equal; [|f_equal]]]].
  - apply (bind_key res_key); [|done]. intros o o'. apply pipe_ofd_key.
  - apply (bind_key res_key); [|done]. intros o o' [-> ->]%Hr. done.
  - apply (bind_key res_key); [|done]. intros o o' [-> ->]%Hr. done.
  - apply (bind_key res_key); [|done]. intros o o' [-> ->]%Hr. done.
  - rewrite (bind_uses_ext (socket_ofd_uses p') (socket_ofd_uses p)) by (intros; symmetry; by apply socket_ofd_uses_eq).
    apply (bind_key res_key); [|done]. intros o o' [E1 E2]%Hr. unfold socket_ofd_uses, socket_of_ofd. by rewrite E1, E2.
  - unfold socket_entries. by rewrite Hs.
Qed.

(** What one description holds, and what it leaves behind. *)
Definition ofd_uses (t : PipeTable) (p : Process) (o : OpenFileDesc) : list use :=
  pipe_ofd_uses t o ++ pty_use (file_type o) (host_handle o) ++ backing_use (file_type o) (host_handle o) ++ handle_use (file_type o) (host_handle o) ++
  socket_ofd_uses p o.

Lemma bind_perm {A B} (f : A -> list B) l l' : l ≡ₚ l' -> l ≫= f ≡ₚ l' ≫= f.
Proof. intros Hp. by rewrite Hp. Qed.

(** A description more, with the same sockets. *)
Lemma process_uses_more t p p' o :
  ofds p' ≡ₚ o :: ofds p -> pr_sockets p' = pr_sockets p -> process_uses t p' ≡ₚ ofd_uses t p o ++ process_uses t p.
Proof.
  intros Hp Hs. unfold process_uses, ofd_uses.
  assert (forall x, socket_ofd_uses p' x = socket_ofd_uses p x) as Hsu by (intros; by apply socket_ofd_uses_eq).
  rewrite !(bind_perm _ _ _ Hp). cbn [mbind list_bind]. rewrite Hsu. rewrite (bind_uses_ext (socket_ofd_uses p') (socket_ofd_uses p)) by done.
  unfold socket_entries. rewrite Hs. rewrite <- !app_assoc. solve_Permutation.
Qed.

Lemma ofds_freed p t' i o :
  Ofd.get (pr_ofd_table p) i = Some o -> Ofd.entries t' = <[i := None]> (Ofd.entries (pr_ofd_table p)) -> ofds p ≡ₚ o :: ofds (with_ofds p t').
Proof.
  intros Ho%get_entry Ht. rewrite !ofds_slots. cbn [with_ofds with_descriptors pr_ofd_table]. rewrite Ht. destruct (omap_replace _ _ _ None Ho) as (a & b & -> & ->).
  cbn [option_list app]. by rewrite Permutation_middle.
Qed.

Lemma ofds_replaced p i f :
  (forall o, res_key (f o) = res_key o) -> res_key <$> ofds (with_ofds p (Ofd.get_mut (pr_ofd_table p) i f)) = res_key <$> ofds p.
Proof.
  intros Hf. rewrite !ofds_slots. cbn [with_ofds with_descriptors pr_ofd_table]. unfold Ofd.get_mut. destruct (Ofd.get (pr_ofd_table p) i) as [o|] eqn:Ho; [|done].
  apply get_entry in Ho. cbn [Ofd.entries]. destruct (omap_replace _ _ _ (Some (f o)) Ho) as (a & b & -> & ->). cbn [option_list app]. change (option_list (Some (f o))) with [f o]. by rewrite !fmap_app, !fmap_cons, Hf.
Qed.

Lemma ofds_inserted p o : let '(i, t) := Ofd.insert (pr_ofd_table p) o in ofds (with_ofds p t) ≡ₚ o :: ofds p.
Proof.
  unfold Ofd.insert. pose proof (first_free_spec (Ofd.entries (pr_ofd_table p))) as (_ & _ & Hn). set (i := first_free _) in *.
  destruct (Nat.ltb_spec i (length (Ofd.entries (pr_ofd_table p)))) as [Hlt|Hge]; rewrite !ofds_slots; cbn [with_ofds with_descriptors pr_ofd_table Ofd.entries].
  - specialize (Hn Hlt). apply list_elem_of_split_length in Hn as (a & b & Eab & Ei). rewrite Eab, Ei, insert_app_r_alt, Nat.sub_diag by lia. cbn [list_insert].
    rewrite !omap_app. cbn [omap list_omap id]. by rewrite Permutation_middle.
  - unfold vec_push. rewrite omap_app. cbn [omap list_omap id]. by rewrite Permutation_app_comm.
Qed.

End process_uses.

(** ** What a call moves *)

(** The handles a request closes on the host. *)
Definition close_of (r : HostReq) : option Z := match r with RqClose h => Some h | _ => None end.
Definition net_close_of (r : HostReq) : option Z := match r with RqNetClose h => Some h | _ => None end.

Section moved.
Context `{Usize} `{HostIO}.
Variables (t0 : PipeTable) (id0 : Z).
Implicit Types (s : Sys) (own : list use).

(** From [s] with [own] to [s'] with [own']: the counters follow, and the host was
    asked to close what lost its last holder. *)
Definition moved s own s' own' : Prop :=
  exists new, sy_calls s' = new ++ sy_calls s /\
    stepped t0 id0 (sy_kernel s) own (sy_kernel s') own' (omap close_of (rev new)) (omap net_close_of (rev new)).

Lemma moved_kernel s own own' k' : stepped t0 id0 (sy_kernel s) own k' own' [] [] -> moved s own (set_kernel s k') own'.
Proof. intros Hk. exists []. split; [done|exact Hk]. Qed.

Lemma moved_same s s' own : sy_kernel s' = sy_kernel s -> sy_calls s' = sy_calls s -> moved s own s' own.
Proof. intros Ek Ec. exists []. rewrite Ek. split; [done|apply stepped_refl]. Qed.

Lemma moved_trans s1 o1 s2 o2 s3 o3 : moved s1 o1 s2 o2 -> moved s2 o2 s3 o3 -> moved s1 o1 s3 o3.
Proof.
  intros (n1 & E1 & H1) (n2 & E2 & H2). exists (n2 ++ n1). split; [by rewrite E2, E1, app_assoc|]. rewrite rev_app_distr, !omap_app. by eapply stepped_trans.
Qed.

Lemma moved_call s own r : close_of r = None -> net_close_of r = None -> moved s own (log_call s r) own.
Proof. intros Hc Hn. exists [r]. split; [done|]. cbn [rev app omap list_omap]. rewrite Hc, Hn. apply stepped_refl. Qed.

Lemma moved_perm s own own2 s' own' : own ≡ₚ own2 -> moved s own2 s' own' -> moved s own s' own'.
Proof. intros Hp (n & E & Hs). exists n. split; [done|]. by eapply stepped_perm. Qed.

(** The call finishes, moves the uses and keeps [Q]. *)
Definition runs {A} (m : M A) s own own' (Q : kresult A -> Sys -> Prop) : Prop :=
  exists r s', m s = Some (r, s') /\ moved s own s' own' /\ Q r s'.

Lemma runs_bind {A B} (m : M A) (f : A -> M B) s own own1 own' Q :
  runs m s own own1 (fun r s1 => match r with Ok a => runs (f a) s1 own1 own' Q | Err e => own1 = own' /\ Q (Err e) s1 end) ->
  runs (bind m f) s own own' Q.
Proof.
  intros ([a|e] & s1 & E & Hm & Hq); unfold bind.
  - destruct Hq as (r & s2 & E2 & Hm2 & Hq). exists r, s2. rewrite E, E2. split; [done|]. split; [by eapply moved_trans|done].
  - destruct Hq as [<- Hq]. exists (Err e), s1. by rewrite E.
Qed.

Lemma runs_ret {A} (a : A) s own (Q : kresult A -> Sys -> Prop) : Q (Ok a) s -> runs (ret a) s own own Q.
Proof. intros Hq. exists (Ok a), s. split; [done|]. split; [by apply moved_same|done]. Qed.

Lemma runs_lift {A} (r : kresult A) s own (Q : kresult A -> Sys -> Prop) : Q r s -> runs (lift r) s own own Q.
Proof. intros Hq. exists r, s. split; [done|]. split; [by apply moved_same|done]. Qed.

Lemma runs_attempt {A} (m : M A) s own own' Q : runs m s own own' (fun r s' => Q (Ok r) s') -> runs (attempt m) s own own' Q.
Proof. intros (r & s' & E & Hm & Hq). exists (Ok r), s'. unfold attempt. by rewrite E. Qed.

Lemma runs_mono {A} (m : M A) s own own' (Q Q' : kresult A -> Sys -> Prop) : (forall r s', Q r s' -> Q' r s') -> runs m s own own' Q -> runs m s own own' Q'.
Proof. intros Hq (r & s' & E & Hm & Hr). exists r, s'. auto. Qed.

Lemma runs_perm {A} (m : M A) s own own2 own' Q : own ≡ₚ own2 -> runs m s own2 own' Q -> runs m s own own' Q.
Proof. intros Hp (r & s' & E & Hm & Hq). exists r, s'. split; [done|]. split; [by eapply moved_perm|done]. Qed.

(** Releases [us], whatever else is held, with the process unchanged. *)
Definition may {A} (m : M A) (us : list use) : Prop := forall s own, runs m s (us ++ own) own (fun _ s' => sy_proc s' = sy_proc s).
Definition does (m : M unit) (us : list use) : Prop := forall s own, runs m s (us ++ own) own (fun r s' => r = Ok tt /\ sy_proc s' = sy_proc s).

Lemma does_may m us : does m us -> may m us.
Proof. intros Hm s own. eapply runs_mono; [|apply Hm]. by intros r s' [_ ?]. Qed.

Lemma does_seq m m' us us' : does m us -> does m' us' -> does (m >; m') (us ++ us').
Proof.
  intros Hm Hm' s own. apply runs_bind with (own1 := us' ++ own). rewrite <- app_assoc. eapply runs_mono; [|apply Hm]. intros r s1 [-> E1]. cbn beta iota.
  eapply runs_mono; [|apply Hm']. intros r s2 [-> E2]. split; [done|congruence].
Qed.

Lemma does_may_seq {A} m (m' : M A) us us' : does m us -> may m' us' -> may (m >; m') (us ++ us').
Proof.
  intros Hm Hm' s own. apply runs_bind with (own1 := us' ++ own). rewrite <- app_assoc. eapply runs_mono; [|apply Hm]. intros r s1 [-> E1]. cbn beta iota.
  eapply runs_mono; [|apply Hm']. intros r2 s2 E2. congruence.
Qed.

Lemma does_ret : does (ret tt) [].
Proof. intros s own. by apply runs_ret. Qed.

Lemma does_kernel f us : (forall k own, stepped t0 id0 k (us ++ own) (f k) own [] []) -> does (on_kernel f) us.
Proof. intros Hf s own. exists (Ok tt), (set_kernel s (f (sy_kernel s))). split; [done|]. split; [by apply moved_kernel|done]. Qed.

Lemma does_if (b : bool) m us : does m us -> does (if b then m else ret tt) (if b then us else []).
Proof. intros Hm. destruct b; [done|apply does_ret]. Qed.

Lemma does_quiet_if (b : bool) m : does m [] -> does (if b then m else ret tt) [].
Proof. intros Hm. destruct b; [done|apply does_ret]. Qed.

Lemma does_tell r : close_of r = None -> net_close_of r = None -> does (tell_host r) [].
Proof. intros Hc Hn s own. exists (Ok tt), (log_call s r). split; [done|]. split; [by apply moved_call|done]. Qed.

Lemma does_call r : close_of r = None -> net_close_of r = None -> does (attempt (call_host r) >; ret tt) [].
Proof.
  intros Hc Hn s own. exists (Ok tt), (log_call s r). split; [done|]. split; [by apply moved_call|done].
Qed.

Lemma does_for_each {A} (f : A -> M unit) l : (forall x, does (f x) []) -> does (for_each f l) [].
Proof. intros Hf. induction l as [|x l IH]; cbn [for_each]; [apply does_ret|]. by apply (does_seq _ _ [] []). Qed.

(** *** Bookkeeping that holds nothing *)

Lemma stepped_identities k own r : stepped t0 id0 k own (with_identities k r (k_last_ofd_id k)) own [] [].
Proof.
  intros [Hok Hf Hid]. split; [split; [by apply passing_identities|done|done]|]. rewrite all_uses_identities. split; by apply closes_same.
Qed.

Lemma stepped_wake k own : stepped t0 id0 k own (wake_locks k) own [] [].
Proof. intros [Hok Hf Hid]. split; [split; [by apply passing_world|done|done]|]. rewrite all_uses_wake. split; by apply closes_same. Qed.

Lemma does_release_bo pid bo : does (release_bo pid bo) [].
Proof.
  intros s own. unfold release_bo, runs. cbv beta zeta. destruct (decref (k_registry (sy_kernel s)) bo) as [c r].
  set (s1 := set_kernel s (with_identities (sy_kernel s) r (k_last_ofd_id (sy_kernel s)))).
  eexists _, _. split; [reflexivity|]. cbn [app].
  assert (moved s own s1 own) as H1 by apply moved_kernel, stepped_identities.
  destruct (bool_decide _); (split; [|done]); [|done]. eapply moved_trans; [exact H1|by apply moved_call].
Qed.

Lemma does_release_master pid idx b : does (release_master pid idx b) [].
Proof.
  intros s own. unfold release_master, runs. cbv beta zeta. destruct (release_if_held (sy_master s) b pid idx) as [told m]. set (s1 := set_master s m).
  exists (Ok tt), (if told then log_call s1 (RqDropMaster pid) else s1). split; [done|]. cbn [app].
  assert (moved s own s1 own) as H1 by by apply moved_same.
  destruct told; (split; [|done]); [|done]. eapply moved_trans; [exact H1|by apply moved_call].
Qed.

Lemma does_dri pid idx st : does (dri_release_ofd_state pid idx st) [].
Proof.
  assert (forall d, does (release_gl pid d) []) as Hgl by (intros d; unfold release_gl; destruct (dri_gl d); [by apply does_tell|apply does_ret]).
  assert (forall d, does (release_handles pid d) []) as Hh by (intros d; apply does_for_each; intros; apply does_release_bo).
  unfold dri_release_ofd_state. destruct st as [[b|d|d k]|]; [apply does_release_bo| | |apply does_ret].
  - by apply (does_seq _ _ [] []).
  - apply (does_seq _ _ [] []). { apply does_for_each. intros x. apply (does_seq _ _ [] []); [apply does_release_bo|by apply does_tell]. }
    apply (does_seq _ _ [] []); [apply does_release_master|]. by apply (does_seq _ _ [] []).
Qed.

Lemma does_remove_locks f : does (remove_locks f) [].
Proof.
  intros s own. unfold remove_locks, publish_advisory_lock_mutation, runs. cbv beta zeta. destruct (f (sy_locks s)) as [l mu]. set (s1 := set_locks s l).
  assert (moved s own s1 own) as H1 by by apply moved_same.
  destruct (may_unblock mu); [|by exists (Ok tt), s1]. exists (Ok tt), (set_kernel s1 (wake_locks (sy_kernel s1))). split; [done|]. split; [|done].
  eapply moved_trans; [exact H1|]. apply moved_kernel, stepped_wake.
Qed.

Lemma does_final_locks locks id : does (release_final_ofd_locks locks id) [].
Proof. unfold release_final_ofd_locks. apply does_quiet_if, does_remove_locks. Qed.

(** *** Resources *)

Lemma runs_kernel_result {A} (f : Kernel -> kresult A * Kernel) s own own' (Q : kresult A -> Sys -> Prop) :
  (let '(r, k) := f (sy_kernel s) in stepped t0 id0 (sy_kernel s) own k own' [] [] /\ Q r (set_kernel s k)) -> runs (kernel_result f) s own own' Q.
Proof.
  intros Hf. unfold runs, kernel_result. destruct (f (sy_kernel s)) as [r k]. destruct Hf as [Hk Hq]. eexists _, _. split; [reflexivity|]. split; [by apply moved_kernel|done].
Qed.

(** A close asked of the host after what comes between. *)
Lemma moved_late s own s1 own1 s2 own2 h :
  stepped t0 id0 (sy_kernel s) own (sy_kernel s1) own1 [h] [] -> sy_calls s1 = sy_calls s -> moved s1 own1 s2 own2 -> moved s own (log_call s2 (RqClose h)) own2.
Proof.
  intros Hh Ec (new & En & Hst). exists (RqClose h :: new). split; [cbn [log_call sy_calls]; by rewrite En, Ec|].
  cbn [rev]. rewrite !omap_app. cbn [omap list_omap close_of net_close_of]. rewrite app_nil_r. cbn [log_call sy_kernel].
  assert (stepped t0 id0 (sy_kernel s) own (sy_kernel s2) own2 ([h] ++ omap close_of (rev new)) ([] ++ omap net_close_of (rev new))) as Hc by by eapply stepped_trans.
  intros Hk. destruct (Hc Hk) as (C1 & [D1 D2 D3] & C3). split; [done|]. split; [|done]. split.
  - by rewrite Permutation_app_comm.
  - intros x. rewrite <- D2. rewrite !elem_of_app. tauto.
  - exact D3.
Qed.

Lemma does_handle h (m : M unit) : does m [] -> may (let! last := close_host_handle h in if last then m >; call_host (RqClose h) else ret tt) [UHandle h].
Proof.
  intros Hm s own. pose proof (stepped_handle t0 id0 h (sy_kernel s) own) as Hh. unfold close_host_handle, kernel_result, runs, bind.
  destruct (host_handle_close_ref (k_handles (sy_kernel s)) h) as [[] hs].
  - set (s1 := set_kernel s (with_handles (sy_kernel s) hs)). destruct (Hm s1 own) as (r & s2 & E & Hmv & -> & Ep). rewrite E. cbn [call_host].
    eexists _, _. split; [reflexivity|]. split; [|exact Ep]. by eapply (moved_late s _ s1).
  - eexists _, _. split; [reflexivity|]. split; [|done]. by apply moved_kernel.
Qed.

Lemma does_backing o : may (release_backing o) (backing_use (file_type o) (host_handle o)).
Proof.
  intros s own. unfold release_backing. apply runs_kernel_result. pose proof (stepped_backing t0 id0 (file_type o) (host_handle o) (sy_kernel s) own) as Hb.
  destruct (release_for_ofd _ _ _) as [freed b]. done.
Qed.

Lemma stepped_end i kind f k own :
  good_op f -> (forall p, counters (f p).1 = counters (close_reference kind p).1) ->
  stepped t0 id0 k (UPipe i kind :: own) (close_pipe_end i (fun _ => f) k) own [] [].
Proof.
  intros Hg Hc. unfold close_pipe_end. destruct (table_get (k_pipes k) i) as [p|] eqn:Hp; [by apply stepped_pipe_close|]. intros Hk. exfalso.
  destruct (pipe_use_live k (UPipe i kind :: own) [] i kind) as [p Hp2]; [apply Hk|by left|congruence].
Qed.

Lemma stepped_opt_end o kind f k own :
  good_op f -> (forall p, counters (f p).1 = counters (close_reference kind p).1) ->
  stepped t0 id0 k (opt_use o kind ++ own) (opt_close_end o f k) own [] [].
Proof. intros Hg Hc. destruct o; [by apply stepped_end|apply stepped_refl]. Qed.

Lemma stepped_socket_buffers si k own : stepped t0 id0 k (socket_pipe_uses (sk_send_buf_idx si) (sk_recv_buf_idx si) ++ own) (close_socket_buffers si k) own [] [].
Proof.
  unfold close_socket_buffers, socket_pipe_uses. rewrite <- app_assoc. eapply stepped_quiet.
  - apply stepped_opt_end; [apply (good_ref_step (RClose RefWrite))|done].
  - apply stepped_opt_end; destruct (is_tcp si); [apply good_close_read_end_orderly|apply good_close_read_end|apply orderly_counters|done].
Qed.

Lemma stepped_close_pipe o k own :
  file_type o = Ofd.Pipe -> host_handle o < 0 ->
  stepped t0 id0 k (pipe_ofd_uses t0 o ++ own)
    (close_pipe_end (neg_index (host_handle o)) (fun p => match reference_kind p (status_flags o) with Some kind => close_reference kind | None => fun p => (p, []) end) k) own [] [].
Proof.
  intros Et Eh. unfold pipe_ofd_uses, close_pipe_end. rewrite bool_decide_eq_true_2, (proj2 (Z.ltb_lt _ _)) by done. cbn [andb]. set (i := neg_index (host_handle o)).
  destruct (table_get t0 i) as [p0|] eqn:E0; destruct (table_get (k_pipes k) i) as [p|] eqn:Ep; [| | |apply stepped_refl].
  - intros Hk. destruct (hd_fifo _ _ _ _ Hk i p Ep) as (q & Hq & Ef). rewrite E0 in Hq. injection Hq as <-.
    assert (reference_kind p (status_flags o) = reference_kind p0 (status_flags o)) as -> by (unfold reference_kind; by rewrite Ef).
    revert Hk. destruct (reference_kind p0 (status_flags o)) as [kind|].
    + apply stepped_pipe_close; [apply (good_ref_step (RClose kind))|done].
    + assert (pipe_do i (fun p => (p, [])) k = k) as ->; [|apply stepped_free]. unfold pipe_do, on_pipes, table_update. rewrite Ep, list_insert_id; [by destruct k as [[] []]|].
      unfold table_get in Ep. destruct (pipes (k_pipes k) !! i) as [[]|]; naive_solver.
  - destruct (reference_kind p0 (status_flags o)) as [kind|]; [|apply stepped_refl]. intros Hk. exfalso.
    destruct (pipe_use_live k (UPipe i kind :: own) [] i kind) as [p Hp]; [apply Hk|by left|congruence].
  - intros Hk. exfalso. destruct (hd_fifo _ _ _ _ Hk i p Ep) as (q & Hq & _). congruence.
Qed.

Lemma does_may_if {A} (b : bool) (m m' : M A) us : may m us -> may m' us -> may (if b then m else m') us.
Proof. by destruct b. Qed.

Lemma may_then {A} (m : M A) us : may m us -> does (attempt m >; ret tt) us.
Proof.
  intros Hm s own. destruct (Hm s own) as (r & s' & E & Hmv & Ep). exists (Ok tt), s'. unfold bind, attempt. rewrite E. by split_and!.
Qed.

Lemma may_close_pipe o : file_type o = Ofd.Pipe -> may (close_pipe o) (pipe_ofd_uses t0 o ++ handle_use (file_type o) (host_handle o)).
Proof.
  intros Et. unfold close_pipe, pipe_ofd_uses, handle_use. rewrite Et, bool_decide_eq_true_2 by done. cbn [andb].
  destruct (Z.leb_spec 0 (host_handle o)) as [Hh|Hh].
  - rewrite (proj2 (Z.ltb_ge _ _)) by lia. cbn [app]. intros s own. destruct (does_handle (host_handle o) (ret tt) does_ret s own) as (r & s' & E & Hm & Ep).
    unfold runs, bind, attempt, ret in *. cbv beta in *. destruct (close_host_handle (host_handle o) s) as [[[[]|e] s1]|]; try (injection E as <- <-; eexists _, _; by split_and!).
    done.
  - rewrite (proj2 (Z.ltb_lt _ _)) by done. rewrite app_nil_r. apply does_may, does_kernel. intros k own.
    pose proof (stepped_close_pipe o k own Et Hh) as Hs. unfold pipe_ofd_uses in Hs. rewrite bool_decide_eq_true_2, (proj2 (Z.ltb_lt _ _)) in Hs by done. exact Hs.
Qed.

(** Files, directories and devices have the handles their openers give them. *)
Definition ofd_wf (o : OpenFileDesc) : Prop :=
  match file_type o with
  | Regular => 0 <= host_handle o \/ manages_ofd Regular (host_handle o) = true
  | Directory => 0 <= host_handle o \/ host_handle o = PROCFS_DIR_HANDLE \/ host_handle o = DEVFS_DIR_HANDLE
  | Socket => host_handle o < 0
  | _ => True
  end.

Lemma unmanaged_handle h : 0 <= h -> is_procfs_buf_handle h = false /\ is_synthetic_regular_handle h = false.
Proof. intros Hh. unfold is_procfs_buf_handle, is_synthetic_regular_handle, PROCFS_BUF_BASE, SYNTHETIC_REGULAR_HANDLE_BASE. destruct (Z.leb_spec h (-200)), (Z.leb_spec h (-1000000000)); lia || done. Qed.

Lemma may_close_file locks o :
  (file_type o = Regular \/ file_type o = Directory \/ file_type o = CharDevice) -> ofd_wf o ->
  may (close_file locks o) (backing_use (file_type o) (host_handle o) ++ handle_use (file_type o) (host_handle o)).
Proof.
  intros Et Hw. unfold close_file. change (backing_use ?a ?b ++ ?c) with ([] ++ (backing_use a b ++ c)). apply does_may_seq; [by apply does_quiet_if, does_call|].
  assert (forall m, 0 <= host_handle o -> does m [] -> may (let! last := close_host_handle (host_handle o) in if last then m >; call_host (RqClose (host_handle o)) else ret tt)
    (backing_use (file_type o) (host_handle o) ++ handle_use (file_type o) (host_handle o))) as Hhandle.
  { intros m Hh Hm. assert (backing_use (file_type o) (host_handle o) = []) as ->.
    { destruct (unmanaged_handle _ Hh) as [E1 E2]. unfold backing_use, slot_of, kind_of. destruct Et as [-> | [-> | ->]]; rewrite ?E1, ?E2; done. }
    assert (handle_use (file_type o) (host_handle o) = [UHandle (host_handle o)]) as ->.
    { unfold handle_use. rewrite (proj2 (Z.leb_le _ _)) by done. by destruct Et as [-> | [-> | ->]]. }
    by apply does_handle. }
  unfold ofd_wf in Hw. destruct Et as [Et|[Et|Et]]; rewrite Et in *.
  - rewrite bool_decide_eq_true_2 by done. cbn [andb]. destruct (is_procfs_buf_handle (host_handle o) || is_synthetic_regular_handle (host_handle o)) eqn:Em.
    + assert (handle_use Regular (host_handle o) = []) as ->.
      { unfold handle_use. destruct (Z.leb_spec 0 (host_handle o)) as [Hh|]; [|done]. destruct (unmanaged_handle _ Hh) as [E1 E2]. by rewrite E1, E2 in Em. }
      intros s own. apply runs_bind with (own1 := own). pose proof (does_backing o) as Hb. rewrite Et in Hb. rewrite app_nil_r.
      unfold release_backing, kernel_result, runs. cbv beta. pose proof (stepped_backing t0 id0 Regular (host_handle o) (sy_kernel s) own) as Hs. rewrite Et.
      destruct (release_for_ofd (k_backings (sy_kernel s)) Regular (host_handle o)) as [freed b]. eexists _, _. split; [reflexivity|]. split; [by apply moved_kernel|].
      cbn beta iota. eapply runs_mono; [|apply (does_quiet_if freed _ (does_final_locks locks (ofd_id o)))]. by intros r s' [_ ?].
    + assert (0 <= host_handle o) as Hh by (destruct Hw as [|Hw]; [done|]; unfold manages_ofd in Hw; congruence).
      rewrite (proj2 (Z.eqb_neq _ PROCFS_DIR_HANDLE)), (proj2 (Z.eqb_neq _ DEVFS_DIR_HANDLE)) by (unfold PROCFS_DIR_HANDLE, DEVFS_DIR_HANDLE; lia). cbn [orb].
      rewrite bool_decide_eq_false_2 by done. cbn [andb]. apply Hhandle; [done|apply does_final_locks].
  - rewrite bool_decide_eq_false_2 by done. cbn [andb]. destruct ((host_handle o =? PROCFS_DIR_HANDLE) || (host_handle o =? DEVFS_DIR_HANDLE)) eqn:Ed.
    + assert (handle_use Directory (host_handle o) = []) as ->.
      { unfold handle_use. destruct (Z.leb_spec 0 (host_handle o)); [|done]. unfold PROCFS_DIR_HANDLE, DEVFS_DIR_HANDLE in Ed.
        apply orb_true_iff in Ed as [Ed|Ed]; apply Z.eqb_eq in Ed; lia. }
      apply does_may, does_ret.
    + apply orb_false_iff in Ed as [E1%Z.eqb_neq E2%Z.eqb_neq]. assert (0 <= host_handle o) as Hh by tauto. rewrite bool_decide_eq_false_2 by done. cbn [andb].
      apply Hhandle; [done|apply does_final_locks].
  - rewrite bool_decide_eq_false_2 by done. cbn [andb]. destruct (Z.leb_spec 0 (host_handle o)) as [Hh|Hh].
    + rewrite (proj2 (Z.eqb_neq _ PROCFS_DIR_HANDLE)), (proj2 (Z.eqb_neq _ DEVFS_DIR_HANDLE)) by (unfold PROCFS_DIR_HANDLE, DEVFS_DIR_HANDLE; lia). cbn [orb].
      rewrite bool_decide_eq_true_2, (proj2 (Z.ltb_ge _ _)) by done. cbn [andb]. apply Hhandle; [done|apply does_final_locks].
    + assert (handle_use CharDevice (host_handle o) = []) as -> by (unfold handle_use; by rewrite (proj2 (Z.leb_gt _ _))).
      destruct (_ || _); [apply does_may, does_ret|]. rewrite bool_decide_eq_true_2, (proj2 (Z.ltb_lt _ _)) by done. apply does_may, does_ret.
Qed.

Lemma does_perm m us us' : us' ≡ₚ us -> does m us -> does m us'.
Proof. intros Hp Hm s own. eapply runs_perm; [by rewrite Hp|apply Hm]. Qed.

Lemma runs_gets {A B} (g : Sys -> A) (f : A -> M B) s own own' Q : runs (f (g s)) s own own' Q -> runs (bind (gets g) f) s own own' Q.
Proof. done. Qed.

(** *** Sockets *)

(** A socket as the system calls make them: its connections wait in a shared
    queue, its buffers are in the table of pipes, and no queued datagram carries a
    descriptor. *)
Record sock_wf (si : SocketInfo) : Prop := {
  sw_backlog : sk_listen_backlog si = [];
  sw_pipes : sk_global_pipes si = true \/ sk_send_buf_idx si = None /\ sk_recv_buf_idx si = None;
  sw_queue : sk_dgram_queue si ≫= dg_ancillary_fds = [];
}.

Lemma sock_wf_uses si : sock_wf si -> socket_uses si = socket_pipe_uses (sk_send_buf_idx si) (sk_recv_buf_idx si).
Proof. intros [_ Hp _]. unfold socket_uses. destruct (sk_global_pipes si); [done|]. destruct Hp as [|[-> ->]]; done. Qed.

Lemma does_unregister pid idx si : does (on_kernel (unregister_socket pid idx si)) [].
Proof. apply does_kernel. intros k own. apply stepped_table; [|done..]. intros Ha. split; [by destruct Ha|]. split; by apply closes_same. Qed.

Lemma does_net_handle h : does (let! last := close_net_handle h in if last then attempt (call_host (RqNetClose h)) >; ret tt else ret tt) [UNet h].
Proof.
  intros s own. pose proof (stepped_net t0 id0 h (sy_kernel s) own) as Hh. unfold close_net_handle, kernel_result, runs, bind.
  destruct (host_net_handle_close_ref (k_net_handles (sy_kernel s)) h) as [[] hs]; eexists _, _; (split; [reflexivity|]); (split; [|done]).
  - exists [RqNetClose h]. split; [done|exact Hh].
  - by apply moved_kernel.
Qed.

Lemma does_release_socket idx si : sock_wf si -> does (release_socket idx si) (socket_uses si ++ entry_uses (idx, si)).
Proof.
  intros Hw. rewrite sock_wf_uses by done. unfold entry_uses. cbn [snd].
  apply (does_perm _ (([] ++ [] ++ (UNet <$> option_list (sk_host_net_handle si)) ++ (UBacklog <$> option_list (sk_shared_backlog_idx si)) ++ socket_pipe_uses (sk_send_buf_idx si) (sk_recv_buf_idx si)))); [solve_Permutation|].
  intros s own. apply runs_gets. generalize (pr_pid (sy_proc s)). intros pid. revert s own.
  apply does_seq; [apply does_unregister|]. apply does_seq; [destruct (sk_domain si), (sk_type si); first [by apply does_call|apply does_ret]|].
  apply does_seq; [destruct (sk_host_net_handle si); [apply does_net_handle|apply does_ret]|]. apply does_seq.
  - apply does_kernel. intros k own. destruct (sk_shared_backlog_idx si); [apply stepped_backlog|apply stepped_refl].
  - apply does_kernel. intros k own. apply stepped_socket_buffers.
Qed.

Definition closed_sockets (idx : nat) (t : SocketTable) : SocketTable := socket_free ((fun slot : option SocketInfo => clear_peer_idx idx <$> slot) <$> t) idx.

Definition socket_slot_uses (p : Process) (idx : nat) : list use :=
  match socket_get (pr_sockets p) idx with Some si => socket_uses si ++ entry_uses (idx, si) | None => [] end.

Lemma with_world_same k : with_world k (k_world k) = k.
Proof. by destruct k. Qed.

Lemma clear_peer_same idx si :
  sk_dgram_queue (clear_peer_idx idx si) = sk_dgram_queue si /\ sk_listen_backlog (clear_peer_idx idx si) = sk_listen_backlog si /\
  sk_global_pipes (clear_peer_idx idx si) = sk_global_pipes si /\ sk_send_buf_idx (clear_peer_idx idx si) = sk_send_buf_idx si /\
  sk_recv_buf_idx (clear_peer_idx idx si) = sk_recv_buf_idx si /\ sk_shared_backlog_idx (clear_peer_idx idx si) = sk_shared_backlog_idx si /\
  sk_host_net_handle (clear_peer_idx idx si) = sk_host_net_handle si.
Proof. unfold clear_peer_idx. by destruct (bool_decide _). Qed.

Lemma clear_peer_get idx (t : SocketTable) j : socket_get ((fun slot : option SocketInfo => clear_peer_idx idx <$> slot) <$> t) j = clear_peer_idx idx <$> socket_get t j.
Proof. unfold socket_get. rewrite list_lookup_fmap. by destruct (t !! j) as [[]|]. Qed.

Lemma runs_close_socket o s own :
  let p := sy_proc s in
  let idx := neg_index (host_handle o) in
  (forall si, socket_get (pr_sockets p) idx = Some si -> sock_wf si) ->
  runs (close_socket o) s (socket_slot_uses p idx ++ own) own (fun r s' => r = Ok tt /\ sy_proc s' = with_sockets p (closed_sockets idx (pr_sockets p))).
Proof.
  cbv zeta. intros Hw. unfold close_socket, socket_slot_uses. cbv zeta. apply runs_gets. set (idx := neg_index (host_handle o)) in *. set (found := socket_get (pr_sockets (sy_proc s)) idx) in *.
  apply runs_bind with (own1 := own).
  assert (does (match found with Some si => release_socket idx si | None => ret tt end) (match found with Some si => socket_uses si ++ entry_uses (idx, si) | None => [] end)) as Hd.
  { destruct found as [si|]; [apply does_release_socket; by apply Hw|apply does_ret]. }
  eapply runs_mono; [|apply Hd]. intros r s1 [-> E1]. cbn beta iota.
  set (s2 := set_proc s1 (with_sockets (sy_proc s1) ((fun slot : option SocketInfo => clear_peer_idx idx <$> slot) <$> pr_sockets (sy_proc s1)))).
  assert (moved s1 own s2 own) as M1 by by apply moved_same.
  set (s3 := set_proc s2 (with_sockets (sy_proc s2) (socket_free (pr_sockets (sy_proc s2)) idx))).
  assert (free_socket idx s2 = Some (Ok tt, s3)) as E3.
  { unfold free_socket. cbv zeta. assert (match socket_get (pr_sockets (sy_proc s2)) idx with Some si => sk_dgram_queue si ≫= dg_ancillary_fds | None => [] end = []) as ->.
    { cbn [s2 set_proc sy_proc with_sockets with_descriptors pr_sockets]. rewrite clear_peer_get, E1. fold found. destruct found as [si|] eqn:Ef; [|done]. cbn [fmap option_fmap option_map].
      rewrite (proj1 (clear_peer_same idx si)). apply (Hw si); done. }
    cbn [fold_left]. by rewrite with_world_same. }
  assert (does (match found with Some si => if is_unix_dgram si then on_kernel (fun k => with_world k (mkWorld (push_datagram_writable (w_wakeups (k_world k))) (w_in_flight (k_world k)) (w_deferred (k_world k)))) else ret tt | None => ret tt end) []) as Hl.
  { destruct found as [si|]; [|apply does_ret]. apply does_quiet_if, does_kernel. intros k own'. intros [Hok Hf Hid]. split; [split; [by apply passing_world|done|done]|].
    rewrite (world_load k _ own' []) by done. split; by apply closes_same. }
  destruct (Hl s3 own) as (r & s4 & E4 & M4 & -> & E5). exists (Ok tt), s4. split.
  - unfold bind at 1. cbn [on_proc modify]. change (set_proc s1 _) with s2. unfold bind at 1. rewrite E3. exact E4.
  - split; [eapply moved_trans; [exact M1|]; eapply moved_trans; [|exact M4]; by apply moved_same|]. split; [done|]. rewrite E5. unfold s3, s2, closed_sockets.
    cbn [set_proc sy_proc with_sockets with_descriptors pr_sockets]. rewrite E1. done.
Qed.

(** *** One resource, by its type *)

Definition closed_process (p : Process) (o : OpenFileDesc) : Process :=
  match file_type o with
  | Socket => with_sockets p (closed_sockets (neg_index (host_handle o)) (pr_sockets p))
  | Epoll => with_epolls p (<[neg_index (host_handle o) := None]> (pr_epolls p))
  | _ => p
  end.

Definition close_uses (p : Process) (o : OpenFileDesc) : list use :=
  pipe_ofd_uses t0 o ++ pty_use (file_type o) (host_handle o) ++ backing_use (file_type o) (host_handle o) ++ handle_use (file_type o) (host_handle o) ++
  match file_type o with Socket => socket_slot_uses p (neg_index (host_handle o)) | _ => [] end.

Lemma pipe_uses_type o : file_type o <> Ofd.Pipe -> pipe_ofd_uses t0 o = [].
Proof. intros Et. unfold pipe_ofd_uses. by rewrite bool_decide_eq_false_2. Qed.

Lemma runs_close_resource locks o s own :
  let p := sy_proc s in
  ofd_wf o -> (forall i si, socket_get (pr_sockets p) i = Some si -> sock_wf si) ->
  runs (close_resource locks o) s (close_uses p o ++ own) own (fun _ s' => sy_proc s' = closed_process p o).
Proof.
  cbv zeta. intros Hw Hs. unfold close_resource, close_uses, closed_process. destruct (file_type o) eqn:Et; try rewrite pipe_uses_type by congruence;
    unfold pty_use, backing_use, slot_of, kind_of, handle_use; cbn [app]; rewrite ?app_nil_r.
  - pose proof (may_close_file locks o (or_introl Et) Hw s own) as Hm. rewrite Et in Hm. exact Hm.
  - pose proof (may_close_file locks o (or_intror (or_introl Et)) Hw s own) as Hm. rewrite Et in Hm. exact Hm.
  - pose proof (may_close_pipe o Et s own) as Hm. rewrite Et in Hm. exact Hm.
  - pose proof (may_close_file locks o (or_intror (or_intror Et)) Hw s own) as Hm. rewrite Et in Hm. exact Hm.
  - eapply runs_mono; [|apply runs_close_socket; intros si; apply Hs]. by intros r s' [_ ?].
  - apply runs_bind with (own1 := own). pose proof (does_backing o s own) as Hb. rewrite Et in Hb. eapply runs_mono; [|exact Hb]. intros [] s1 E; [by apply runs_ret|done].
  - eexists _, _. split; [reflexivity|]. split; [by apply moved_same|done].
  - apply runs_bind with (own1 := own). pose proof (does_backing o s own) as Hb. rewrite Et in Hb. eapply runs_mono; [|exact Hb]. intros [] s1 E; [by apply runs_ret|done].
  - apply runs_bind with (own1 := own). pose proof (does_backing o s own) as Hb. rewrite Et in Hb. eapply runs_mono; [|exact Hb]. intros [] s1 E; [by apply runs_ret|done].
  - apply runs_bind with (own1 := own). pose proof (does_backing o s own) as Hb. rewrite Et in Hb. eapply runs_mono; [|exact Hb]. intros [freed|] s1 E; [|done].
    eapply runs_mono; [|apply (does_quiet_if freed _ (does_final_locks locks (ofd_id o)))]. intros r s2 [_ E2]. cbn beta in *. congruence.
  - eapply runs_mono; [|apply (does_kernel (pty_close (usize_index (host_handle o)) true) [UPty (usize_index (host_handle o)) true]); intros; apply stepped_pty]. by intros r s' [_ ?].
  - eapply runs_mono; [|apply (does_kernel (pty_close (usize_index (host_handle o)) false) [UPty (usize_index (host_handle o)) false]); intros; apply stepped_pty]. by intros r s' [_ ?].
Qed.

(** The sockets of a process are distinct. *)
Record socks_ok (p : Process) : Prop := {
  so_wf : forall i si, socket_get (pr_sockets p) i = Some si -> sock_wf si;
  so_inj : forall i j o o', Ofd.get (pr_ofd_table p) i = Some o -> Ofd.get (pr_ofd_table p) j = Some o' ->
    file_type o = Socket -> file_type o' = Socket -> neg_index (host_handle o) = neg_index (host_handle o') -> i = j;
  so_ofds : forall o, o ∈ ofds p -> ofd_wf o;
}.

Lemma socket_uses_clear idx si : socket_uses (clear_peer_idx idx si) = socket_uses si.
Proof. destruct (clear_peer_same idx si) as (_ & _ & E1 & E2 & E3 & _). unfold socket_uses. by rewrite E1, E2, E3. Qed.

Lemma closed_get idx t j : socket_get (closed_sockets idx t) j = if decide (j = idx) then None else clear_peer_idx idx <$> socket_get t j.
Proof.
  unfold closed_sockets, socket_free. rewrite <- clear_peer_get. set (l := _ <$> t). destruct (Nat.ltb_spec idx (length l)) as [Hlt|Hge].
  - unfold socket_get. destruct (decide (j = idx)) as [->|Hne]; [by rewrite list_lookup_insert_eq|by rewrite list_lookup_insert_ne].
  - destruct (decide (j = idx)) as [->|]; [|done]. unfold socket_get. by rewrite lookup_ge_None_2.
Qed.

Lemma entry_uses_clear idx j si : entry_uses (j, clear_peer_idx idx si) = entry_uses (j, si).
Proof. destruct (clear_peer_same idx si) as (_ & _ & _ & _ & _ & E1 & E2). unfold entry_uses. cbn [snd]. by rewrite E1, E2. Qed.

Lemma slots_clear idx j (t : SocketTable) :
  slots_from j ((fun slot : option SocketInfo => clear_peer_idx idx <$> slot) <$> t) ≫= entry_uses = slots_from j t ≫= entry_uses.
Proof.
  revert j. induction t as [|[si|] t IH]; intros j; [done| |apply IH]. cbn [fmap list_fmap option_fmap option_map slots_from mbind list_bind]. by rewrite entry_uses_clear, IH.
Qed.

Lemma slots_from_free (t : SocketTable) i j si :
  t !! i = Some (Some si) -> slots_from j t ≡ₚ ((j + i)%nat, si) :: slots_from j (<[i := None]> t).
Proof.
  revert i j. induction t as [|x t IH]; intros [|i] j; [done|done| |].
  - intros [= ->]. cbn [list_insert slots_from]. by rewrite Nat.add_0_r.
  - intros Hi. cbn [lookup list_lookup] in Hi. cbn [list_insert slots_from]. rewrite Nat.add_succ_r. destruct x as [y|]; [|by apply (IH i (S j))].
    rewrite (IH i (S j) Hi). apply Permutation_swap.
Qed.

Lemma entries_closed idx (t : SocketTable) :
  slots_from 0 t ≫= entry_uses ≡ₚ match socket_get t idx with Some si => entry_uses (idx, si) | None => [] end ++ (slots_from 0 (closed_sockets idx t) ≫= entry_uses).
Proof.
  rewrite <- (slots_clear idx 0 t). unfold closed_sockets, socket_free. set (l := _ <$> t).
  assert (socket_get l idx = clear_peer_idx idx <$> socket_get t idx) as Hg by apply clear_peer_get. destruct (Nat.ltb_spec idx (length l)) as [Hlt|Hge].
  - destruct (socket_get t idx) as [si|] eqn:Es; cbn [fmap option_fmap option_map] in Hg.
    + assert (l !! idx = Some (Some (clear_peer_idx idx si))) as Hl by (unfold socket_get in Hg; destruct (l !! idx) as [[]|]; naive_solver).
      rewrite (slots_from_free l idx 0 _ Hl). cbn [mbind list_bind Nat.add]. by rewrite entry_uses_clear.
    + assert (l !! idx = Some None) as Hl by (apply lookup_lt_is_Some_2 in Hlt as [[y|] Hy]; [unfold socket_get in Hg; by rewrite Hy in Hg|done]). by rewrite list_insert_id.
  - assert (socket_get l idx = None) as Hn by (unfold socket_get; by rewrite lookup_ge_None_2). rewrite Hn in Hg. by destruct (socket_get t idx).
Qed.

(** The description [o] has just gone from [p]. *)
Lemma close_uses_spec p o :
  (forall i si, socket_get (pr_sockets p) i = Some si -> sock_wf si) ->
  (forall o', o' ∈ ofds p -> file_type o = Socket -> file_type o' = Socket -> neg_index (host_handle o) <> neg_index (host_handle o')) -> ofd_wf o ->
  ofd_uses t0 p o ++ process_uses t0 p ≡ₚ close_uses p o ++ process_uses t0 (closed_process p o).
Proof.
  intros Hs Hne Hw. unfold ofd_uses, close_uses, closed_process. destruct (decide (file_type o = Socket)) as [Et|Et].
  2:{ assert (socket_ofd_uses p o = []) as -> by (unfold socket_ofd_uses, socket_of_ofd; by rewrite bool_decide_eq_false_2). by destruct (file_type o). }
  rewrite Et. set (idx := neg_index (host_handle o)). set (p' := with_sockets p _).
  assert (forall o', o' ∈ ofds p -> socket_ofd_uses p o' = socket_ofd_uses p' o') as Hsame.
  { intros o' Ho'. unfold socket_ofd_uses, socket_of_ofd. destruct (bool_decide_reflect (file_type o' = Socket)) as [Et'|]; [|done]. cbn [andb]. destruct (host_handle o' <? 0); [|done].
    unfold p'. cbn [with_sockets with_descriptors pr_sockets]. rewrite closed_get, decide_False by (intros E; by apply (Hne o' Ho' Et Et')).
    destruct (socket_get (pr_sockets p) (neg_index (host_handle o'))) as [si|] eqn:Es; [|done]. cbn [fmap option_fmap option_map]. destruct (clear_peer_same idx si) as (_ & E1 & _).
    rewrite socket_uses_clear, E1, (sw_backlog si) by by eapply Hs. done. }
  unfold process_uses. rewrite (bind_uses_ext _ _ _ Hsame). change (ofds p') with (ofds p). unfold socket_entries. rewrite (entries_closed idx). change (closed_sockets idx (pr_sockets p)) with (pr_sockets p').
  assert (socket_ofd_uses p o ++ match socket_get (pr_sockets p) idx with Some si => entry_uses (idx, si) | None => [] end = socket_slot_uses p idx) as <-.
  { unfold socket_ofd_uses, socket_of_ofd, socket_slot_uses. unfold ofd_wf in Hw. rewrite Et in Hw. rewrite bool_decide_eq_true_2, (proj2 (Z.ltb_lt _ _)) by done. cbn [andb]. fold idx.
    destruct (socket_get (pr_sockets p) idx) as [si|] eqn:Es; [|done]. rewrite (sw_backlog si) by by eapply Hs. cbn [mbind list_bind]. by rewrite app_nil_r. }
  rewrite <- !app_assoc. solve_Permutation.
Qed.

(** *** What waits to be released *)

Lemma runs_drain fuel s own :
  (backlog (sy_kernel s) < fuel)%nat -> runs (drain_releases fuel) s own own (fun r s' => r = Ok tt /\ sy_proc s' = sy_proc s).
Proof.
  revert s. induction fuel as [|fuel IH]; intros s Hf; [lia|]. cbn [drain_releases]. apply runs_gets.
  destruct (pop_deferred_in_flight_release _) as [[rl|] q] eqn:Ep; [|by apply runs_ret].
  pose proof (stepped_release t0 id0 (sy_kernel s) own rl q Ep) as Hs. pose proof (release_deferred_backlog rl (on_deferred (fun _ => q) (sy_kernel s))) as Hb.
  pose proof (pop_backlog _ _ _ Ep) as Hp. unfold bind at 1, kernel_result, runs. destruct (release_deferred_in_flight_resource _ _) as [rel k1]. cbn [snd] in Hb. cbv beta iota.
  set (s1 := set_kernel s k1).
  assert (does (if rf_final_ofd_reference rel then remove_locks (fun l => remove_ofd l (rf_ofd_id rel)) else ret tt) []) as Hl by apply does_quiet_if, does_remove_locks.
  destruct (Hl s1 own) as (x & s2 & E2 & M2 & -> & P2). unfold bind at 1. rewrite E2. cbv beta iota.
  assert (backlog (sy_kernel s2) = backlog (sy_kernel s1)) as Hb2.
  { destruct (rf_final_ofd_reference rel); [|by injection E2 as <-]. unfold remove_locks in E2. destruct (remove_ofd _ _) as [l mu]. revert E2. unfold publish_advisory_lock_mutation.
    destruct (may_unblock mu); intros [= <-]; [|done]. done. }
  set (s3 := match rf_host_close rel with Some h => log_call s2 (RqClose h) | None => s2 end).
  assert (moved s own s3 own) as M3.
  { subst s3. destruct (rf_host_close rel) as [h|]; cbn [option_list] in Hs; [by eapply (moved_late s own s1)|]. eapply moved_trans; [|exact M2]. by apply moved_kernel. }
  assert (sy_kernel s3 = sy_kernel s2 /\ sy_proc s3 = sy_proc s2) as [K3 P3] by (subst s3; by destruct (rf_host_close rel)).
  assert ((match rf_host_close rel with Some h => attempt (call_host (RqClose h)) >; ret tt | None => ret tt end) s2 = Some (Ok tt, s3)) as E3 by (subst s3; by destruct (rf_host_close rel)).
  unfold bind at 1. rewrite E3. destruct (IH s3) as (r & s4 & E4 & M4 & -> & P4); [rewrite K3, Hb2; unfold s1; cbn [set_kernel sy_kernel]; lia|].
  exists (Ok tt), s4. split; [exact E4|]. split; [by eapply moved_trans|]. split; [done|]. by rewrite P4, P3, P2.
Qed.

Lemma does_drain : does drain_deferred_scm_rights_releases [].
Proof. intros s own. apply (runs_drain (drain_fuel (sy_kernel s)) s own). unfold drain_fuel, backlog. lia. Qed.

(** *** A close *)

Lemma does_devices o : does (release_devices o) [].
Proof.
  intros s own. unfold release_devices, modify, runs. cbv zeta. eexists _, _. split; [reflexivity|]. split; [|done]. by apply moved_same.
Qed.

Lemma may_file_id o : may (close_file_id o) [].
Proof.
  intros s own. unfold close_file_id. destruct (_ && _); [|by apply runs_ret]. unfold runs, bind, attempt, call_host_stat, ret. eexists _, _. split; [reflexivity|].
  split; [by apply moved_call|done].
Qed.


(** The process after a close. *)
Definition close_proc (p : Process) (fd : Z) : Process :=
  match FdTable.free (pr_fd_table p) fd with
  | (t, Ok idx) =>
      match Ofd.get (pr_ofd_table p) idx with
      | Some o =>
          let kept := if ref_count o =? 1 then Ofd.get_mut (pr_ofd_table p) idx (fun o => with_dri o None) else pr_ofd_table p in
          let '(freed, ofds) := dec_ref kept idx in
          let p' := with_ofds (with_fds p t) ofds in
          if freed then closed_process p' o else p'
      | None => p
      end
  | (_, Err _) => p
  end.

Lemma ofds_slot p o : o ∈ ofds p -> exists i, Ofd.get (pr_ofd_table p) i = Some o.
Proof.
  rewrite ofds_slots. intros (x & Hx & Hid)%list_elem_of_omap. cbn in Hid. subst x. apply list_elem_of_lookup_1 in Hx as [i Hi]. exists i. unfold Ofd.get. by rewrite Hi.
Qed.

Lemma ofd_wf_key o o' : res_key o = res_key o' -> ofd_wf o -> ofd_wf o'.
Proof. unfold res_key, ofd_wf. by intros [= -> -> _ _]. Qed.

Lemma with_fds_same p : with_fds p (pr_fd_table p) = p.
Proof. by destruct p. Qed.

Lemma set_proc_same s : set_proc s (sy_proc s) = s.
Proof. by destruct s. Qed.

(** Each description of [p'] is one of [p]. *)
Lemma socks_ok_sub p p' :
  (forall i o', Ofd.get (pr_ofd_table p') i = Some o' -> exists o, Ofd.get (pr_ofd_table p) i = Some o /\ res_key o = res_key o') ->
  (forall i si, socket_get (pr_sockets p') i = Some si -> sock_wf si) -> socks_ok p -> socks_ok p'.
Proof.
  intros Hsub Hsw [H1 H2 H3]. split; [done| |].
  - intros i j o o' (a & Ha & Ka)%Hsub (b & Hb & Kb)%Hsub. unfold res_key in *. injection Ka as <- <- _ _. injection Kb as <- <- _ _. by apply H2.
  - intros o (i & Hi)%ofds_slot. destruct (Hsub _ _ Hi) as (a & Ha & Ka). eapply ofd_wf_key; [exact Ka|]. apply H3. by eapply ofds_get.
Qed.

Lemma sock_wf_clear idx si : sock_wf si -> sock_wf (clear_peer_idx idx si).
Proof. intros [W1 W2 W3]. destruct (clear_peer_same idx si) as (E1 & E2 & E3 & E4 & E5 & _). split; by rewrite ?E1, ?E2, ?E3, ?E4, ?E5. Qed.

Lemma closed_sockets_wf idx t : (forall i si, socket_get t i = Some si -> sock_wf si) -> forall i si, socket_get (closed_sockets idx t) i = Some si -> sock_wf si.
Proof.
  intros Hw i si. rewrite closed_get. destruct (decide (i = idx)); [done|]. destruct (socket_get t i) as [x|] eqn:Ex; [|done]. intros [= <-]. by eapply sock_wf_clear, Hw.
Qed.

Lemma closed_process_fields p o :
  pr_fd_table (closed_process p o) = pr_fd_table p /\ pr_ofd_table (closed_process p o) = pr_ofd_table p /\ pr_pid (closed_process p o) = pr_pid p /\
  ((forall i si, socket_get (pr_sockets p) i = Some si -> sock_wf si) -> forall i si, socket_get (pr_sockets (closed_process p o)) i = Some si -> sock_wf si).
Proof. unfold closed_process. destruct (file_type o); try done. split_and!; [done|done|done|]. apply closed_sockets_wf. Qed.

(** What [close] finds and leaves. *)
Record closing (p : Process) (fd : Z) (t : FdTable) (idx : nat) (o : OpenFileDesc) (table : OfdTable) (freed : bool) : Prop := {
  cl_free : FdTable.free (pr_fd_table p) fd = (t, Ok idx);
  cl_get : Ofd.get (pr_ofd_table p) idx = Some o;
  cl_dec : dec_ref (if ref_count o =? 1 then Ofd.get_mut (pr_ofd_table p) idx (fun o => with_dri o None) else pr_ofd_table p) idx = (freed, table);
  cl_table : forall j, Ofd.get table j = if (j =? idx)%nat then (if freed then None else Some (set_ref_count o (ref_count o - 1))) else Ofd.get (pr_ofd_table p) j;
  cl_descs : descs_ok (with_ofds (with_fds p t) table) [];
  cl_fds : exists e, ofd_ref e = idx /\ FdTable.get (pr_fd_table p) fd = Ok e;
  cl_last : freed = (ref_count o =? 1);
}.

Lemma close_finds p fd :
  descs_ok p [] ->
  match FdTable.get (pr_fd_table p) fd with
  | Ok e => exists t o table freed, closing p fd t (ofd_ref e) o table freed
  | Err _ => FdTable.free (pr_fd_table p) fd = (pr_fd_table p, Err EBADF)
  end.
Proof.
  intros Hd. pose proof Hd as [D1 D2 D3 D4]. pose proof (free_open (pr_fd_table p) fd D1) as Hf. destruct (FdTable.get (pr_fd_table p) fd) as [e|] eqn:Eg; [|done].
  destruct Hf as (i & t & Ei & Hi & Ef & Hw & Hm & Ho). fold (fds_of p) in Hi, Ho. destruct (counted_live _ _ _ _ _ D4 Hi) as [o Hgo].
  pose proof (counted_close _ _ _ _ _ Hi D4) as Hc. set (idx := ofd_ref e) in *.
  set (kept := if ref_count o =? 1 then Ofd.get_mut (pr_ofd_table p) idx (fun o => with_dri o None) else pr_ofd_table p).
  assert (counted_ofds (delete i (fds_of p)) [idx] kept) as Hk by (subst kept; destruct (_ =? 1); [by apply counted_mut|done]).
  set (o1 := if ref_count o =? 1 then with_dri o None else o).
  assert (forall j, Ofd.get kept j = if (j =? idx)%nat then Some o1 else Ofd.get (pr_ofd_table p) j) as Hgk.
  { intros j. subst kept o1. destruct (ref_count o =? 1); [rewrite get_mut_spec, Hgo; done|]. by destruct (Nat.eqb_spec j idx) as [->|]. }
  assert (Ofd.get kept idx = Some o1) as Hgo1 by (by rewrite Hgk, Nat.eqb_refl).
  assert (ref_count o1 = ref_count o) as Hr1 by (subst o1; by destruct (_ =? 1)).
  assert (desc_refs (fds_of p) [] idx = desc_refs (delete i (fds_of p)) [] idx + 1) as Hcount.
  { unfold desc_refs. rewrite (fd_refs_delete _ _ e) by done. fold idx. rewrite Nat.eqb_refl. unfold one. lia. }
  assert (desc_refs (delete i (fds_of p)) [idx] idx = desc_refs (delete i (fds_of p)) [] idx + 1) as Hcount2 by (unfold desc_refs; rewrite pending_cons, Nat.eqb_refl; unfold one; lia).
  pose proof (descs_bound p [] idx Hd ltac:(cbn; lia)) as Hb.
  pose proof (counted_dec _ _ _ _ _ Hgo1 Hk ltac:(lia)) as Hdec. destruct (dec_ref kept idx) as [freed table] eqn:Edec. destruct Hdec as (Hct & Hfr & Htab).
  specialize (D4 idx) as Hcidx. rewrite Hgo in Hcidx.
  assert (freed = (ref_count o =? 1)) as Hlast by (rewrite Hfr; destruct (Z.eqb_spec (desc_refs (delete i (fds_of p)) [] idx) 0), (Z.eqb_spec (ref_count o) 1); lia || done).
  exists t, o, table, freed. split; [done|done|exact Edec| | |by exists e|done].
  - intros j. rewrite Htab, Hgk, Hr1. destruct (j =? idx)%nat; [|done]. destruct freed; [done|]. subst o1. by rewrite <- Hlast.
  - split; [done| | |].
    + cbn. by rewrite Hm.
    + intros j x. change (fds_of _) with (open_map (FdTable.entries t)). rewrite Ho. intros [_ Hj]%lookup_delete_Some. by eapply D3.
    + change (fds_of _) with (open_map (FdTable.entries t)). rewrite Ho. exact Hct.
Qed.

Lemma close_proc_eq p fd t idx o table freed :
  closing p fd t idx o table freed ->
  close_proc p fd = (if freed then closed_process (with_ofds (with_fds p t) table) o else with_ofds (with_fds p t) table).
Proof. intros [E1 E2 E3 _ _ _ _]. unfold close_proc. by rewrite E1, E2, E3. Qed.

Lemma closed_no_other p fd t idx o table : 
  closing p fd t idx o table true -> socks_ok p ->
  forall o', o' ∈ ofds (with_ofds (with_fds p t) table) -> file_type o = Socket -> file_type o' = Socket -> neg_index (host_handle o) <> neg_index (host_handle o').
Proof.
  intros Hc [_ Hi _] o' (j & Hj)%ofds_slot Et Et' E. change (pr_ofd_table (with_ofds _ _)) with table in Hj. rewrite (cl_table _ _ _ _ _ _ _ Hc) in Hj.
  destruct (Nat.eqb_spec j idx) as [|Hne]; [done|]. apply Hne. symmetry. eapply Hi; [apply Hc|exact Hj|done..].
Qed.

Lemma closing_sub p fd t idx o table freed :
  closing p fd t idx o table freed -> forall i o', Ofd.get table i = Some o' -> exists a, Ofd.get (pr_ofd_table p) i = Some a /\ res_key a = res_key o'.
Proof.
  intros Hc i o'. rewrite (cl_table _ _ _ _ _ _ _ Hc). destruct (Nat.eqb_spec i idx) as [->|]; [|by exists o']. destruct freed; [done|]. intros [= <-]. exists o. split; [apply Hc|done].
Qed.

Lemma close_keeps p fd : descs_ok p [] -> socks_ok p -> descs_ok (close_proc p fd) [] /\ socks_ok (close_proc p fd).
Proof.
  intros Hd Hs. pose proof (close_finds p fd Hd) as Hf. destruct (FdTable.get (pr_fd_table p) fd) as [e|].
  2:{ unfold close_proc. by rewrite Hf. }
  destruct Hf as (t & o & table & freed & Hc). rewrite (close_proc_eq _ _ _ _ _ _ _ Hc). set (p1 := with_ofds (with_fds p t) table).
  assert (descs_ok p1 []) as Hd1 by apply Hc. destruct (closed_process_fields p1 o) as (F1 & F2 & _ & F3).
  assert (socks_ok p1) as Hs1 by (apply (socks_ok_sub p); [by eapply closing_sub|apply Hs|done]). destruct freed; [|done]. split.
  - destruct Hd1 as [A1 A2 A3 A4]. unfold fds_of in *. split; unfold fds_of; by rewrite ?F1, ?F2.
  - apply (socks_ok_sub p1); [|apply F3, Hs1|done]. rewrite F2. intros i x Hx. by exists x.
Qed.

Lemma runs_file_id o s own : runs (close_file_id o) s own own (fun r s' => (exists f, r = Ok f) /\ sy_proc s' = sy_proc s).
Proof.
  unfold close_file_id. destruct (_ && _); [|apply runs_ret; split; [by eexists|done]]. unfold runs, bind, attempt, call_host_stat, ret. eexists _, _. split; [reflexivity|].
  split; [by apply moved_call|]. split; [by eexists|done].
Qed.

Lemma bind_ok {A B} (m : M A) (f : A -> M B) s a s1 : m s = Some (Ok a, s1) -> bind m f s = f a s1.
Proof. intros E. unfold bind. by rewrite E. Qed.

(** A pure part of a call. *)
Lemma runs_step {A B} (m : M A) (f : A -> M B) s a s1 own own' Q :
  m s = Some (Ok a, s1) -> sy_kernel s1 = sy_kernel s -> sy_calls s1 = sy_calls s -> runs (f a) s1 own own' Q -> runs (bind m f) s own own' Q.
Proof.
  intros E Ek Ec (r & s2 & E2 & M2 & Hq). exists r, s2. split; [by rewrite (bind_ok _ _ _ _ _ E)|]. split; [|done]. eapply moved_trans; [|exact M2]. by apply moved_same.
Qed.

Lemma runs_does {B} (m : M unit) (f : unit -> M B) s own own' Q :
  does m [] -> (forall s1, sy_proc s1 = sy_proc s -> runs (f tt) s1 own own' Q) -> runs (bind m f) s own own' Q.
Proof. intros Hm Hf. apply runs_bind with (own1 := own). eapply runs_mono; [|apply Hm]. intros r s1 [-> E]. by apply Hf. Qed.

(** The uses of the process before a close, and after the descriptor is gone. *)
Lemma closing_uses p fd t idx o table freed :
  closing p fd t idx o table freed -> socks_ok p ->
  let p' := with_ofds (with_fds p t) table in
  process_uses t0 p ≡ₚ (if freed then close_uses p' o ++ process_uses t0 (closed_process p' o) else process_uses t0 p').
Proof.
  intros Hc Hs p'. pose proof (cl_dec _ _ _ _ _ _ _ Hc) as Edec. pose proof (cl_last _ _ _ _ _ _ _ Hc) as El. rewrite <- El in Edec. destruct freed.
  - set (kept := Ofd.get_mut (pr_ofd_table p) idx (fun o => with_dri o None)) in *. set (p3 := with_ofds (with_fds p t) kept). set (o1 := with_dri o None).
    assert (Ofd.get kept idx = Some o1) as Hg3 by (subst kept; by rewrite get_mut_spec, Nat.eqb_refl, (cl_get _ _ _ _ _ _ _ Hc)).
    assert (Ofd.entries table = <[idx := None]> (Ofd.entries kept)) as Het by (unfold dec_ref in Edec; rewrite Hg3 in Edec; destruct (_ =? 0); by simplify_eq/=).
    assert (res_key <$> ofds p = res_key <$> ofds p3) as Hkey by (symmetry; by apply (ofds_replaced (with_fds p t) idx (fun o => with_dri o None))).
    assert (process_uses t0 p3 ≡ₚ ofd_uses t0 p' o1 ++ process_uses t0 p') as Hm by (apply process_uses_more; [exact (ofds_freed p3 table idx o1 Hg3 Het)|done]).
    rewrite (process_uses_key _ p p3) by done. rewrite Hm. apply (close_uses_spec p' o1); [apply Hs|exact (closed_no_other p fd t idx o table Hc Hs)|]. change (ofd_wf o). apply Hs. eapply ofds_get, Hc.
  - assert (table = Ofd.get_mut (pr_ofd_table p) idx (fun o => set_ref_count o (u32_wrap (ref_count o - 1)))) as Et.
    { unfold dec_ref, Ofd.get_mut in *. rewrite (cl_get _ _ _ _ _ _ _ Hc) in *. destruct (_ =? 0); by simplify_eq/=. }
    assert (process_uses t0 p = process_uses t0 p') as ->; [|done]. apply process_uses_key; [|done]. unfold p'. rewrite Et. symmetry. by apply (ofds_replaced (with_fds p t)).
Qed.

Lemma runs_close locks fd s rest :
  let p := sy_proc s in
  descs_ok p [] -> socks_ok p ->
  runs (sys_close_impl locks fd) s (process_uses t0 p ++ rest) (process_uses t0 (close_proc p fd) ++ rest)
    (fun r s' => sy_proc s' = close_proc p fd /\ match FdTable.get (pr_fd_table p) fd with Ok _ => True | Err _ => r = Err EBADF /\ s' = s end).
Proof.
  cbv zeta. intros Hd Hs. pose proof (close_finds (sy_proc s) fd Hd) as Hf. unfold sys_close_impl. destruct (FdTable.get (pr_fd_table (sy_proc s)) fd) as [e|err] eqn:Eg.
  2:{ assert (close_proc (sy_proc s) fd = sy_proc s) as -> by (unfold close_proc; by rewrite Hf). exists (Err EBADF), s. unfold bind, fd_result, proc_result.
      rewrite Hf. rewrite with_fds_same, set_proc_same. split; [done|]. split; [by apply moved_same|done]. }
  destruct Hf as (t & o & table & freed & Hc). set (idx := ofd_ref e) in *. rewrite (close_proc_eq _ _ _ _ _ _ _ Hc). set (p := sy_proc s) in *.
  set (s1 := set_proc s (with_fds p t)).
  apply (runs_step _ _ _ idx s1); [unfold fd_result, proc_result; fold p; by rewrite (cl_free _ _ _ _ _ _ _ Hc)|done|done|].
  apply runs_gets. cbv beta. apply (runs_step _ _ _ o s1); [unfold lift; cbn; by rewrite (cl_get _ _ _ _ _ _ _ Hc)|done|done|].
  apply runs_bind with (own1 := process_uses t0 p ++ rest). eapply runs_mono; [|apply runs_file_id]. intros r s2 [[fid ->] E2]. cbn beta iota.
  set (kept := if ref_count o =? 1 then Ofd.get_mut (pr_ofd_table p) idx (fun o => with_dri o None) else pr_ofd_table p).
  set (p3 := with_ofds (with_fds p t) kept). set (s3 := set_proc s2 p3).
  apply (runs_step _ _ _ (if ref_count o =? 1 then dri_state o else None) s3); [|done|done|].
  { unfold take_dri_state. unfold bind, gets, lift. rewrite E2. cbn [s1 set_proc sy_proc with_fds with_descriptors pr_ofd_table]. rewrite (cl_get _ _ _ _ _ _ _ Hc).
    cbn [ok_or]. unfold s3, p3, kept. destruct (ref_count o =? 1).
    - unfold on_ofd, on_ofds, on_proc, modify, ret. rewrite E2. done.
    - unfold ret. rewrite <- (set_proc_same s2) at 1. rewrite E2. done. }
  apply runs_does. { destruct fid; [destruct locks; [apply does_remove_locks|apply does_ret]|apply does_ret]. }
  intros s4 E4. set (p5 := with_ofds (with_fds p t) table). set (s5 := set_proc s4 p5).
  apply (runs_step _ _ _ freed s5); [|done|done|].
  { unfold dec_ref_ofd, proc_result. rewrite E4. cbn [s3 set_proc sy_proc p3 with_ofds with_descriptors pr_ofd_table]. pose proof (cl_dec _ _ _ _ _ _ _ Hc) as Edec. fold kept in Edec. rewrite Edec. done. }
  pose proof (closing_uses _ _ _ _ _ _ _ Hc Hs) as Hu. cbv zeta in Hu. fold p5 in Hu. eapply runs_perm; [by rewrite Hu|]. destruct freed.
  - apply runs_bind with (own1 := process_uses t0 (closed_process p5 o) ++ rest). rewrite <- app_assoc.
    apply runs_does; [apply does_dri|]. intros s6 E6.
    pose proof (runs_close_resource locks o s6 (process_uses t0 (closed_process p5 o) ++ rest)) as Hr. cbv zeta in Hr. rewrite E6 in Hr.
    eapply runs_mono; [|apply Hr; [apply Hs; eapply ofds_get, Hc|apply Hs]]. intros r s7 E7. cbn beta in E7. destruct r as [[]|er]; [|done].
    eapply runs_mono; [|apply (does_devices o)]. intros r s8 [_ E8]. cbn beta in E8. split; [by rewrite E8, E7|done].
  - apply runs_step with (a := tt) (s1 := s5); [done..|]. eapply runs_mono; [|apply (does_devices o)]. intros r s8 [_ E8]. cbn in *. split; [by rewrite E8|done].
Qed.

End moved.
