(* ===== verification/Syscalls.v ===== *)
(** * The descriptor system calls are correct

    Over the definitions of [Descriptors.v] and the lemmas of [Releases.v]: what
    [close], [dup], [dup2], [dup3], [fcntl], [pipe] and [pipe2] do to the open
    descriptors, on every branch; and that after any of them, every description is
    counted once per descriptor that refers to it and every counter of the machine
    is the number of its holders ([sys_ok]). *)

From stdpp Require Import fin_maps.
From S2P Require Import Prelude Bytes Abi FdTable Lock Ofd Wakeup Pipe PipeTable Memory Terminal Signal Backing Socket Names Mqueue Pshared Process Dri Devices Kernel Accounts ProcTable Lifecycle Fork Sys Descriptors Releases.

(** ** Calls that keep what the process holds *)

Section calls.
Context `{Usize} `{HostIO}.

(** The descriptions hold what they did. *)
Record same_uses (p p' : Process) : Prop := {
  su_keys : forall i, res_key <$> Ofd.get (pr_ofd_table p') i = res_key <$> Ofd.get (pr_ofd_table p) i;
  su_sockets : pr_sockets p' = pr_sockets p;
}.

#[export] Instance same_uses_preorder : PreOrder same_uses.
Proof. split; [by split|]. intros a b c [K1 S1] [K2 S2]. split; [intros i; by rewrite K2|congruence]. Qed.

Definition slot_at (l : list (option OpenFileDesc)) (i : nat) : option OpenFileDesc := l !! i ≫= id.

Lemma get_slot_at t i : Ofd.get t i = slot_at (Ofd.entries t) i.
Proof. unfold Ofd.get, slot_at. by destruct (Ofd.entries t !! i) as [[]|]. Qed.

Lemma keys_slots l l' : (forall i, res_key <$> slot_at l' i = res_key <$> slot_at l i) -> res_key <$> omap id l' = res_key <$> omap id l.
Proof.
  revert l'. induction l as [|x l IH]; intros l' Hl.
  - cbn [omap list_omap]. assert (forall i, slot_at l' i = None) as Hn by (intros i; specialize (Hl i); unfold slot_at in Hl at 2; rewrite lookup_nil in Hl; by destruct (slot_at l' i)).
    clear Hl. induction l' as [|y l' IH]; [done|]. pose proof (Hn 0%nat) as H0'. unfold slot_at in H0'. cbn in H0'. subst y. apply IH. intros i. exact (Hn (S i)).
  - destruct l' as [|y l'].
    + cbn [omap list_omap]. pose proof (Hl 0%nat) as H0'. unfold slot_at in H0'. cbn in H0'. destruct x as [x|]; [done|]. cbn [id].
      rewrite <- (IH []); [done|]. intros i. specialize (Hl (S i)). exact Hl.
    + pose proof (Hl 0%nat) as H0'. unfold slot_at in H0'. cbn in H0'. specialize (IH l' (fun i => Hl (S i))). cbn [omap list_omap id].
      destruct x as [x|], y as [y|]; try done; cbn in H0'. assert (res_key y = res_key x) as E1 by congruence. rewrite !fmap_cons, E1. by f_equal.
Qed.

Lemma same_uses_process t p p' : same_uses p p' -> process_uses t p' = process_uses t p.
Proof.
  intros [Hk Hs]. apply process_uses_key; [|done]. rewrite !ofds_slots. apply keys_slots. intros i. by rewrite <- !get_slot_at.
Qed.

Lemma same_uses_socks p p' : same_uses p p' -> socks_ok p -> socks_ok p'.
Proof.
  intros [Hk Hs] Hp. apply (socks_ok_sub p); [|rewrite Hs; apply Hp|done]. intros i o' Ho. specialize (Hk i). rewrite Ho in Hk.
  destruct (Ofd.get (pr_ofd_table p) i) as [o|]; [|done]. exists o. split; [done|]. apply (inj Some). by symmetry.
Qed.

(** A call that answers without touching anything but the process. *)
Definition quiet {A} (m : M A) (s : Sys) (Q : kresult A -> Process -> Prop) : Prop :=
  exists r p', m s = Some (r, set_proc s p') /\ same_uses (sy_proc s) p' /\ descs_ok p' [] /\ Q r p'.

Lemma same_mut p i f : (forall o, res_key (f o) = res_key o) -> same_uses p (with_ofds p (Ofd.get_mut (pr_ofd_table p) i f)).
Proof.
  intros Hf. split; [|done]. intros j. cbn [with_ofds with_descriptors pr_ofd_table]. rewrite get_mut_spec. destruct (Nat.eqb_spec j i) as [->|]; [|done].
  destruct (Ofd.get (pr_ofd_table p) i); [|done]. cbn. by rewrite Hf.
Qed.

Lemma same_fds p ft : same_uses p (with_fds p ft).
Proof. by split. Qed.

Lemma descs_mut p i f : (forall o, ref_count (f o) = ref_count o) -> descs_ok p [] -> descs_ok (with_ofds p (Ofd.get_mut (pr_ofd_table p) i f)) [].
Proof. intros Hf [D1 D2 D3 D4]. split; [done|done|done|]. by apply counted_mut. Qed.

(** *** Duplicates *)

(** [place] puts a descriptor of [idx] in a free slot, or changes nothing. *)
Definition places (t : FdTable) (idx : nat) (flags : Z) (place : FdTable -> FdTable * kresult Z) : Prop :=
  let '(t', r) := place t in
  fd_wf t' /\ max_fds t' = max_fds t /\
  match r with
  | Ok fd => exists i, fd = Z.of_nat i /\ (i < max_fds t)%nat /\ open_map (FdTable.entries t) !! i = None /\
      open_map (FdTable.entries t') = <[i := mkFdEntry idx flags]> (open_map (FdTable.entries t))
  | Err _ => open_map (FdTable.entries t') = open_map (FdTable.entries t)
  end.

Definition refers (p : Process) (idx : nat) : Prop := exists fd e, fds_of p !! fd = Some e /\ ofd_ref e = idx.

Lemma refers_count p idx : refers p idx -> 0 < fd_refs (fds_of p) idx.
Proof.
  intros (fd & e & Hf & He). pose proof (fd_refs_delete _ _ _ idx Hf) as Hd. rewrite He, Nat.eqb_refl in Hd. unfold one in Hd. pose proof (fd_refs_nonneg (delete fd (fds_of p)) idx). lia.
Qed.

(** The descriptions of [p'] are those of [p], counts aside. *)
Definition bare (o : OpenFileDesc) : OpenFileDesc := set_ref_count o 0.
Definition same_desc (p p' : Process) : Prop := forall i, bare <$> Ofd.get (pr_ofd_table p') i = bare <$> Ofd.get (pr_ofd_table p) i.

Lemma quiet_duplicate idx flags place s :
  let p := sy_proc s in
  descs_ok p [] -> refers p idx -> places (pr_fd_table p) idx flags place ->
  quiet (duplicate idx place) s (fun r p' => (place (pr_fd_table p)).2 = r /\
    match r with
    | Ok fd => exists i, fd = Z.of_nat i /\ fds_of p !! i = None /\ fds_of p' = <[i := mkFdEntry idx flags]> (fds_of p)
    | Err e => fds_of p' = fds_of p
    end /\ pr_fd_table p' = (place (pr_fd_table p)).1 /\ same_desc p p').
Proof.
  cbv zeta. intros Hd Hrf Hpl. pose proof Hd as [D1 D2 D3 D4]. set (p := sy_proc s) in *. destruct Hrf as (fd0 & e0 & Hfd0 & He0).
  assert (refers p idx) as Hrf by by exists fd0, e0. apply refers_count in Hrf. destruct (counted_live _ _ _ _ _ D4 Hfd0) as [o Ho]. rewrite He0 in Ho.
  pose proof (descs_bound p [] idx Hd ltac:(cbn; lia)) as Hb.
  pose proof (counted_inc _ _ _ _ D4 (ex_intro _ o Ho) Hb) as Hinc. set (t1 := inc_ref (pr_ofd_table p) idx) in *.
  unfold duplicate, quiet, bind, attempt, fd_result, proc_result, on_ofds, on_proc, modify. cbn [set_proc sy_proc with_ofds with_descriptors pr_fd_table]. fold p.
  unfold places in Hpl. destruct (place (pr_fd_table p)) as [ft r]. destruct Hpl as (Hw & Hm & Hr).
  assert (same_uses p (with_ofds p t1)) as Hs1 by (by apply same_mut).
  assert (same_desc p (with_ofds p t1)) as Hb1.
  { intros j. cbn [with_ofds with_descriptors pr_ofd_table]. subst t1. unfold inc_ref. rewrite get_mut_spec. destruct (Nat.eqb_spec j idx) as [->|]; [|done]. by rewrite Ho. }
  destruct r as [fd|err].
  - destruct Hr as (i & -> & Hi & Hn & Hins). exists (Ok (Z.of_nat i)), (with_fds (with_ofds p t1) ft). split; [done|]. split; [etrans; [exact Hs1|apply same_fds]|]. split.
    + split; [done|cbn; by rewrite Hm| |]; change (fds_of _) with (open_map (FdTable.entries ft)); rewrite Hins.
      * intros j x [[<- <-]|[_ Hj]]%lookup_insert_Some; [|by eapply D3]. lia.
      * by apply counted_open.
    + split; [done|]. split; [exists i; by split_and!|]. by split.
  - destruct (dec_ref t1 idx) as [freed t2] eqn:Edec. unfold dec_ref_ofd, proc_result. cbn [set_proc sy_proc with_fds with_ofds with_descriptors pr_ofd_table]. fold t1. rewrite Edec.
    assert (Ofd.get t1 idx = Some (set_ref_count o (u32_wrap (ref_count o + 1)))) as Ho1 by (subst t1; unfold inc_ref; by rewrite get_mut_spec, Nat.eqb_refl, Ho).
    assert (desc_refs (fds_of p) [idx] idx = desc_refs (fds_of p) [] idx + 1) as Hc1 by (unfold desc_refs; rewrite pending_cons, Nat.eqb_refl; unfold one; lia).
    pose proof (counted_dec _ _ _ _ _ Ho1 Hinc ltac:(lia)) as Hdec. rewrite Edec in Hdec. destruct Hdec as (Hc2 & Hf2 & Hg2).
    assert (freed = false) as -> by (rewrite Hf2; apply Z.eqb_neq; unfold desc_refs, pending_refs; cbn; lia).
    exists (Err err), (with_ofds (with_fds (with_ofds p t1) ft) t2). split; [done|]. split; [|split].
    + etrans; [exact Hs1|]. split; [|done]. intros j. cbn [with_fds with_ofds with_descriptors pr_ofd_table]. rewrite Hg2. destruct (Nat.eqb_spec j idx) as [->|]; [|done]. by rewrite Ho1.
    + split; [done|cbn; by rewrite Hm| |]; change (fds_of _) with (open_map (FdTable.entries ft)); rewrite Hr; done.
    + split; [done|]. split; [exact Hr|]. split; [done|]. intros j. rewrite <- Hb1. cbn [with_fds with_ofds with_descriptors pr_ofd_table]. rewrite Hg2.
      destruct (Nat.eqb_spec j idx) as [->|]; [|done]. by rewrite Ho1.
Qed.

(** Every description of [p'] is one of [p]. *)
Definition fewer (p p' : Process) : Prop :=
  forall i o', Ofd.get (pr_ofd_table p') i = Some o' -> exists o, Ofd.get (pr_ofd_table p) i = Some o /\ res_key o = res_key o'.

#[export] Instance fewer_preorder : PreOrder fewer.
Proof.
  split; [by intros p i o Ho; exists o|]. intros a b c Hab Hbc i o'' (o' & Ho' & E')%Hbc. destruct (Hab _ _ Ho') as (o & Ho & E). exists o. split; [done|congruence].
Qed.

Lemma same_fewer p p' : same_uses p p' -> fewer p p'.
Proof.
  intros [Hk _] i o' Ho. specialize (Hk i). rewrite Ho in Hk. destruct (Ofd.get (pr_ofd_table p) i) as [o|]; [|done]. exists o. split; [done|]. apply (inj Some). by symmetry.
Qed.

Lemma close_fewer p fd : descs_ok p [] -> fewer p (close_proc p fd).
Proof.
  intros Hd. pose proof (close_finds p fd Hd) as Hf. destruct (FdTable.get (pr_fd_table p) fd) as [e|]; [|unfold close_proc; by rewrite Hf].
  destruct Hf as (t & o & table & freed & Hc). rewrite (close_proc_eq _ _ _ _ _ _ _ Hc). assert (fewer p (with_ofds (with_fds p t) table)) as Hf by exact (closing_sub _ _ _ _ _ _ _ Hc).
  destruct freed; [|done]. destruct (closed_process_fields (with_ofds (with_fds p t) table) o) as (_ & F2 & _). unfold fewer. by rewrite F2.
Qed.

Section at_table.
Variables (t0 : PipeTable) (id0 : Z) (rest : list use).

Definition keeps {A} (m : M A) (s : Sys) (Q : kresult A -> Sys -> Prop) : Prop :=
  exists r s', m s = Some (r, s') /\ moved t0 id0 s (process_uses t0 (sy_proc s) ++ rest) s' (process_uses t0 (sy_proc s') ++ rest) /\
    fewer (sy_proc s) (sy_proc s') /\ descs_ok (sy_proc s') [] /\ socks_ok (sy_proc s') /\ Q r s'.

Lemma keeps_mono {A} (m : M A) s (Q Q' : kresult A -> Sys -> Prop) : (forall r s', Q r s' -> Q' r s') -> keeps m s Q -> keeps m s Q'.
Proof. intros Hq (r & s' & E & Hm & Hl & Hd & Hs & Hr). exists r, s'. split_and!; auto. Qed.

Lemma keeps_impl {A} (m : M A) s (Q Q' : kresult A -> Sys -> Prop) :
  (forall r s', descs_ok (sy_proc s') [] -> socks_ok (sy_proc s') -> Q r s' -> Q' r s') -> keeps m s Q -> keeps m s Q'.
Proof. intros Hq (r & s' & E & Hm & Hl & Hd & Hs & Hr). exists r, s'. split_and!; auto. Qed.

Lemma keeps_ret {A} (r : kresult A) s (Q : kresult A -> Sys -> Prop) : descs_ok (sy_proc s) [] -> socks_ok (sy_proc s) -> Q r s -> keeps (lift r) s Q.
Proof. intros Hd Hs Hq. exists r, s. split; [done|]. split; [by apply moved_same|]. done. Qed.

Lemma keeps_bind {A B} (m : M A) (f : A -> M B) s Q :
  keeps m s (fun r s1 => match r with Ok a => keeps (f a) s1 Q | Err e => Q (Err e) s1 end) -> keeps (bind m f) s Q.
Proof.
  intros ([a|e] & s1 & E & Hm & Hl & Hd & Hs & Hq); unfold bind.
  - destruct Hq as (r & s2 & E2 & Hm2 & Hl2 & Hq). exists r, s2. rewrite E, E2. split; [done|]. split; [by eapply moved_trans|]. split; [by etrans|done].
  - exists (Err e), s1. by rewrite E.
Qed.

Lemma keeps_attempt {A} (m : M A) s Q : keeps m s (fun r s' => Q (Ok r) s') -> keeps (attempt m) s Q.
Proof. intros (r & s' & E & Hk). exists (Ok r), s'. unfold attempt. by rewrite E. Qed.

Lemma keeps_quiet {A} (m : M A) s Q : socks_ok (sy_proc s) -> quiet m s Q -> keeps m s (fun r s' => Q r (sy_proc s') /\ s' = set_proc s (sy_proc s')).
Proof.
  intros Hs (r & p' & E & Hu & Hd & Hq). exists r, (set_proc s p'). split; [done|]. cbn [set_proc sy_proc]. rewrite (same_uses_process t0 _ _ Hu).
  split; [by apply moved_same|]. split; [by apply same_fewer|]. split; [done|]. split; [by eapply same_uses_socks|done].
Qed.

Lemma keeps_gets {A B} (g : Sys -> A) (f : A -> M B) s Q : keeps (f (g s)) s Q -> keeps (bind (gets g) f) s Q.
Proof. done. Qed.

Lemma keeps_entry {B} fd (f : FdEntry -> M B) s Q :
  descs_ok (sy_proc s) [] -> socks_ok (sy_proc s) ->
  match FdTable.get (pr_fd_table (sy_proc s)) fd with Ok e => keeps (f e) s Q | Err e => Q (Err e) s end -> keeps (bind (fd_entry fd) f) s Q.
Proof.
  intros Hd Hs Hq. assert (fd_entry fd s = Some (FdTable.get (pr_fd_table (sy_proc s)) fd, s)) as E by done. unfold keeps, bind. rewrite E. destruct (FdTable.get _ fd) as [e|e]; [exact Hq|]. exists (Err e), s. split; [done|]. split; [by apply moved_same|done].
Qed.

(** *** Close *)

(** The slot a descriptor names. *)
Definition fd_at (m : fd_map) (fd : Z) : option FdEntry := fd_index fd ≫= fun i => m !! i.
Definition fd_close (m : fd_map) (fd : Z) : fd_map := match fd_index fd with Some i => delete i m | None => m end.
Definition fd_put (m : fd_map) (fd : Z) (e : FdEntry) : fd_map := match fd_index fd with Some i => <[i := e]> m | None => m end.

Lemma fd_at_get p fd : FdTable.get (pr_fd_table p) fd = match fd_at (fds_of p) fd with Some e => Ok e | None => Err EBADF end.
Proof.
  unfold FdTable.get, fd_at, fds_of. destruct (fd_index fd) as [i|]; [|done]. cbn [mbind option_bind]. rewrite open_map_lookup. by destruct (FdTable.entries _ !! i) as [[]|].
Qed.

Lemma close_proc_fds p fd : descs_ok p [] -> fds_of (close_proc p fd) = fd_close (fds_of p) fd.
Proof.
  intros Hd. pose proof (close_finds p fd Hd) as Hf. pose proof (free_open (pr_fd_table p) fd (ds_wf _ _ Hd)) as Ho. pose proof (fd_at_get p fd) as Hg.
  destruct (FdTable.get (pr_fd_table p) fd) as [e|e].
  - destruct Hf as (t & o & table & freed & Hc). destruct Ho as (i & t' & Ei & Hi & Ef & _ & _ & Ho). rewrite (close_proc_eq _ _ _ _ _ _ _ Hc).
    assert (t' = t) as -> by (rewrite (cl_free _ _ _ _ _ _ _ Hc) in Ef; by injection Ef). unfold fd_close. rewrite Ei. unfold fds_of at 2. rewrite <- Ho.
    destruct (closed_process_fields (with_ofds (with_fds p t) table) o) as (F1 & _). unfold fds_of. destruct freed; [by rewrite F1|done].
  - unfold close_proc. rewrite Hf. unfold fd_close, fd_at in *. destruct (fd_index fd) as [i|]; [|done]. cbn [mbind option_bind] in Hg. destruct (fds_of p !! i) eqn:Ei; [done|]. by rewrite delete_id.
Qed.

Lemma keeps_close locks fd s :
  descs_ok (sy_proc s) [] -> socks_ok (sy_proc s) ->
  keeps (sys_close_impl locks fd) s (fun r s' => sy_proc s' = close_proc (sy_proc s) fd /\ (fd_at (fds_of (sy_proc s)) fd = None -> r = Err EBADF /\ s' = s)).
Proof.
  intros Hd Hs. destruct (runs_close t0 id0 locks fd s rest Hd Hs) as (r & s' & E & Hm & Hp & Hr). exists r, s'. split; [done|]. rewrite Hp. split; [done|].
  destruct (close_keeps (sy_proc s) fd Hd Hs) as [K1 K2]. split; [by apply close_fewer|]. split; [done|]. split; [done|]. split; [done|]. intros Hn. rewrite fd_at_get, Hn in Hr. done.
Qed.

Lemma keeps_close_call fd s :
  descs_ok (sy_proc s) [] -> socks_ok (sy_proc s) ->
  keeps (sys_close_with_locks fd) s (fun r s' => sy_proc s' = close_proc (sy_proc s) fd /\ (fd_at (fds_of (sy_proc s)) fd = None -> r = Err EBADF)).
Proof.
  intros Hd Hs. unfold sys_close_with_locks. apply keeps_bind, keeps_attempt. eapply keeps_mono; [|by apply keeps_close]. intros r s1 [E1 Hr]. cbn beta iota.
  destruct (close_keeps (sy_proc s) fd Hd Hs) as [K1 K2]. rewrite <- E1 in K1, K2.
  destruct (does_drain t0 id0 s1 (process_uses t0 (sy_proc s1) ++ rest)) as (x & s2 & E2 & M2 & -> & P2). exists r, s2. unfold bind. rewrite E2.
  split; [done|]. rewrite P2. split; [exact M2|]. split; [done|]. split; [done|]. split; [done|]. split; [done|]. intros Hn. by destruct (Hr Hn).
Qed.

(** *** Duplicates *)

Lemma refers_at p fd e : fd_at (fds_of p) fd = Some e -> refers p (ofd_ref e).
Proof. unfold fd_at. destruct (fd_index fd) as [i|]; [|done]. intros Hi. by exists i, e. Qed.

Lemma fd_at_nat (m : fd_map) i : fd_at m (Z.of_nat i) = m !! i.
Proof. unfold fd_at. by rewrite fd_index_of_nat. Qed.
Lemma fd_put_nat (m : fd_map) i e : fd_put m (Z.of_nat i) e = <[i := e]> m.
Proof. unfold fd_put. by rewrite fd_index_of_nat. Qed.

(** A new descriptor of the description of [e]. *)
Definition duplicated (m : fd_map) (e : FdEntry) (flags : Z) (r : kresult Z) (m' : fd_map) : Prop :=
  match r with
  | Ok fd => is_Some (fd_index fd) /\ fd_at m fd = None /\ m' = fd_put m fd (mkFdEntry (ofd_ref e) flags)
  | Err err => m' = m
  end.

Lemma keeps_duplicate e flags place s :
  let p := sy_proc s in
  descs_ok p [] -> socks_ok p -> refers p (ofd_ref e) -> places (pr_fd_table p) (ofd_ref e) flags place ->
  keeps (duplicate (ofd_ref e) place) s (fun r s' => duplicated (fds_of p) e flags r (fds_of (sy_proc s')) /\ (place (pr_fd_table p)).2 = r /\ s' = set_proc s (sy_proc s') /\
    pr_fd_table (sy_proc s') = (place (pr_fd_table p)).1 /\ same_desc p (sy_proc s')).
Proof.
  cbv zeta. intros Hd Hs Hr Hp. eapply keeps_mono; [|apply keeps_quiet; [done|by apply (quiet_duplicate (ofd_ref e) flags place s)]].
  intros r s' [(Hr' & Hq & Hf & Hb) Es]. unfold duplicated. destruct r as [fd|err]; [|by split_and!].
  destruct Hq as (i & -> & Hn & E). rewrite fd_at_nat, fd_put_nat, fd_index_of_nat. split_and!; [by eexists|done..].
Qed.

Lemma places_alloc p idx flags min : descs_ok p [] -> places (pr_fd_table p) idx flags (fun t => alloc_at_min t idx flags min).
Proof.
  intros [D1 D2 _ _]. pose proof (alloc_open (pr_fd_table p) idx flags min D1 D2) as Ha. unfold places. destruct (alloc_at_min _ _ _ _) as [t' [fd|e]]; destruct Ha as (A1 & A2 & A3).
  - by destruct A3 as (i & ? & ? & ? & ?); split_and!; [| |exists i].
  - destruct A3 as [-> ->]. by split_and!.
Qed.

Lemma places_at p idx newfd : descs_ok p [] -> fd_at (fds_of p) newfd = None -> places (pr_fd_table p) idx 0 (place_at idx newfd).
Proof.
  intros [D1 D2 _ _] Hn. pose proof (set_at_open (pr_fd_table p) idx newfd D1) as Ha. unfold places. destruct (place_at _ _ _) as [t' [fd|e]]; destruct Ha as (A1 & A2 & A3).
  - destruct A3 as (-> & i & Hi & ? & ?). unfold fd_at in Hn. rewrite Hi in Hn. split_and!; [done|done|]. exists i. apply fd_index_Some in Hi. by split_and!.
  - by split_and!.
Qed.

Lemma keeps_dup fd s :
  let p := sy_proc s in
  descs_ok p [] -> socks_ok p ->
  keeps (sys_dup fd) s (fun r s' =>
    match fd_at (fds_of p) fd with
    | Some e => duplicated (fds_of p) e 0 r (fds_of (sy_proc s')) /\ (forall err, r = Err err -> err = EMFILE)
    | None => r = Err EBADF /\ s' = s
    end).
Proof.
  cbv zeta. intros Hd Hs. unfold sys_dup. apply keeps_entry; [done|done|]. rewrite fd_at_get. destruct (fd_at (fds_of (sy_proc s)) fd) as [e|] eqn:Ee; [|done].
  eapply keeps_mono; [|apply (keeps_duplicate e 0); [done|done|by eapply refers_at|by apply (places_alloc _ _ _ 0)]].
  intros r s' (Hq & He & _). split; [done|]. intros err ->. destruct Hd as [D1 D2 _ _]. pose proof (alloc_open (pr_fd_table (sy_proc s)) (ofd_ref e) 0 0 D1 D2) as Ha.
  unfold FdTable.alloc in He. destruct (alloc_at_min _ _ _ _) as [t' [x|x]]; [done|]. cbn in He. injection He as <-. by destruct Ha as (_ & _ & -> & _).
Qed.

Lemma fd_at_close (m : fd_map) fd fd' : fd <> fd' -> fd_at (fd_close m fd) fd' = fd_at m fd'.
Proof.
  intros Hne. unfold fd_at, fd_close. destruct (fd_index fd') as [j|] eqn:Ej; [|done]. cbn [mbind option_bind]. destruct (fd_index fd) as [i|] eqn:Ei; [|done].
  apply fd_index_Some in Ei, Ej. rewrite lookup_delete_ne; [done|]. intros ->. congruence.
Qed.

Lemma fd_at_closed (m : fd_map) fd : fd_at (fd_close m fd) fd = None.
Proof. unfold fd_at, fd_close. destruct (fd_index fd) as [i|]; [|done]. cbn. apply lookup_delete_eq. Qed.

Lemma keeps_dup2 locks oldfd newfd s :
  let p := sy_proc s in
  descs_ok p [] -> socks_ok p ->
  keeps (sys_dup2_impl locks oldfd newfd) s (fun r s' =>
    match fd_at (fds_of p) oldfd with
    | None => r = Err EBADF /\ fds_of (sy_proc s') = fds_of p
    | Some e => if oldfd =? newfd then r = Ok newfd /\ fds_of (sy_proc s') = fds_of p
                else duplicated (fd_close (fds_of p) newfd) e 0 r (fds_of (sy_proc s')) /\ (forall fd, r = Ok fd -> fd = newfd)
    end).
Proof.
  cbv zeta. intros Hd Hs. unfold sys_dup2_impl. apply keeps_entry; [done|done|]. rewrite fd_at_get. destruct (fd_at (fds_of (sy_proc s)) oldfd) as [e|] eqn:Ee; [|done].
  destruct (Z.eqb_spec oldfd newfd) as [->|Hne]; [by apply (keeps_ret (Ok newfd))|].
  apply keeps_bind, keeps_attempt.
  assert (keeps (if locks then sys_close_with_locks newfd else sys_close newfd) s (fun r s' => sy_proc s' = close_proc (sy_proc s) newfd)) as Hc.
  { destruct locks; [eapply keeps_mono; [|by apply keeps_close_call]|eapply keeps_mono; [|by apply (keeps_close false)]]; by intros r s' [? _]. }
  eapply keeps_mono; [|exact Hc]. intros r s1 E1. cbn beta iota. destruct (close_keeps (sy_proc s) newfd Hd Hs) as [K1 K2]. pose proof (close_proc_fds (sy_proc s) newfd Hd) as Ef.
  rewrite <- E1 in K1, K2, Ef. apply keeps_entry; [done|done|]. rewrite fd_at_get, Ef, fd_at_close, Ee by congruence.
  eapply keeps_mono; [|apply (keeps_duplicate e 0); [done|done|eapply (refers_at _ oldfd); by rewrite Ef, fd_at_close by congruence|apply places_at; [done|by rewrite Ef, fd_at_closed]]].
  intros r2 s2 (Hq & Hr & E2). rewrite Ef in Hq. split; [done|]. intros fd ->. pose proof (set_at_open (pr_fd_table (sy_proc s1)) (ofd_ref e) newfd (ds_wf _ _ K1)) as Ha.
  destruct (place_at _ _ _) as [t' [x|x]]; [|done]. cbn in Hr. injection Hr as ->. by destruct Ha as (_ & _ & -> & _).
Qed.

Lemma set_flags_descs p fd flags e :
  descs_ok p [] -> fd_at (fds_of p) fd = Some e ->
  descs_ok (with_fds p (set_fd_flags flags (pr_fd_table p) fd)) [] /\
  fds_of (with_fds p (set_fd_flags flags (pr_fd_table p) fd)) = fd_put (fds_of p) fd (mkFdEntry (ofd_ref e) flags).
Proof.
  intros [D1 D2 D3 D4] He. unfold set_fd_flags. pose proof (flags_open (pr_fd_table p) fd flags D1) as Hf. unfold FdTable.get_mut in *. unfold fd_at, fd_put, fds_of in *.
  destruct (fd_index fd) as [i|]; [|done]. cbn [mbind option_bind] in He. pose proof He as He'. rewrite open_map_lookup in He'.
  destruct (FdTable.entries (pr_fd_table p) !! i) as [[e0|]|] eqn:Ei; [|done|done]. cbn in He'. injection He' as ->. destruct Hf as (Hw & Hm & j & e1 & Hj & Ho).
  assert (open_map (<[i := Some (mkFdEntry (ofd_ref e) flags)]> (FdTable.entries (pr_fd_table p))) = <[i := mkFdEntry (ofd_ref e) flags]> (open_map (FdTable.entries (pr_fd_table p)))) as Hi
    by (apply open_map_insert; by eapply lookup_lt_Some).
  cbn [with_fds with_descriptors pr_fd_table set_entries FdTable.entries]. split; [|done]. split; [done|done| |]; unfold fds_of; cbn [with_fds with_descriptors pr_fd_table set_entries FdTable.entries pr_ofd_table]; rewrite Hi.
  - intros k x [[<- <-]|[_ Hk]]%lookup_insert_Some; by eapply D3.
  - by eapply counted_flags.
Qed.

Lemma keeps_flags fd flags s e :
  descs_ok (sy_proc s) [] -> socks_ok (sy_proc s) -> fd_at (fds_of (sy_proc s)) fd = Some e ->
  keeps (on_fd_flags fd flags) s (fun r s' => r = Ok tt /\ fds_of (sy_proc s') = fd_put (fds_of (sy_proc s)) fd (mkFdEntry (ofd_ref e) flags)).
Proof.
  intros Hd Hs He. destruct (set_flags_descs (sy_proc s) fd flags e Hd He) as [K1 K2]. eapply keeps_mono; [|apply (keeps_quiet _ s (fun r p' => r = Ok tt /\ fds_of p' = fd_put (fds_of (sy_proc s)) fd (mkFdEntry (ofd_ref e) flags))); [done|]].
  - by intros r s' [? _].
  - exists (Ok tt), (with_fds (sy_proc s) (set_fd_flags flags (pr_fd_table (sy_proc s)) fd)). split; [done|]. split; [apply same_fds|]. split; [done|]. by split.
Qed.

Lemma fd_at_put (m : fd_map) fd e e' : fd_at m fd = Some e' -> fd_at (fd_put m fd e) fd = Some e.
Proof. unfold fd_at, fd_put. destruct (fd_index fd); [|done]. intros _. cbn. apply lookup_insert_eq. Qed.

Lemma fd_put_put (m : fd_map) fd e e' : fd_put (fd_put m fd e) fd e' = fd_put m fd e'.
Proof. unfold fd_put. destruct (fd_index fd); [|done]. apply insert_insert_eq. Qed.

Lemma duplicated_at (m : fd_map) e flags fd m' : duplicated m e flags (Ok fd) m' -> fd_at m' fd = Some (mkFdEntry (ofd_ref e) flags).
Proof. intros ([i Hi] & _ & ->). unfold fd_at, fd_put. rewrite Hi. cbn. apply lookup_insert_eq. Qed.

Lemma keeps_dup3 locks oldfd newfd flags s :
  let p := sy_proc s in
  descs_ok p [] -> socks_ok p ->
  keeps (sys_dup3_impl locks oldfd newfd flags) s (fun r s' =>
    if negb (Z.ldiff flags (Z.lor O_CLOEXEC O_CLOFORK) =? 0) || (oldfd =? newfd) then r = Err EINVAL /\ s' = s
    else match fd_at (fds_of p) oldfd with
         | None => r = Err EBADF /\ fds_of (sy_proc s') = fds_of p
         | Some e => match r with
                     | Ok fd => fd = newfd /\ fds_of (sy_proc s') = fd_put (fd_close (fds_of p) newfd) newfd (mkFdEntry (ofd_ref e) (oflags_to_fd_flags flags))
                     | Err _ => fds_of (sy_proc s') = fd_close (fds_of p) newfd
                     end
         end).
Proof.
  cbv zeta. intros Hd Hs. unfold sys_dup3_impl. destruct (negb _) eqn:Ef; [by apply (keeps_ret (Err EINVAL))|]. destruct (Z.eqb_spec oldfd newfd) as [|Hne]; [by apply (keeps_ret (Err EINVAL))|].
  cbn [orb]. apply keeps_bind. destruct (keeps_dup2 locks oldfd newfd s Hd Hs) as (r & s1 & E & Hm & Hl & Hd1 & Hs1 & Hq). exists r, s1. split; [done|]. split; [done|]. split; [done|]. split; [done|]. split; [done|].
  rewrite (proj2 (Z.eqb_neq _ _) Hne) in Hq. destruct (fd_at (fds_of (sy_proc s)) oldfd) as [e|]; [|destruct Hq as [-> Hq]; done]. destruct Hq as [Hq Hr]. destruct r as [fd|err]; [|exact Hq].
  specialize (Hr fd eq_refl). subst fd. pose proof Hq as (_ & _ & Hf1). apply keeps_bind. destruct (Z.eqb_spec (oflags_to_fd_flags flags) 0) as [Ez|Ez]; cbn [negb].
  - rewrite Ez. eapply keeps_mono; [|by apply (keeps_ret (Ok tt) s1 (fun r s' => r = Ok tt /\ s' = s1))]. intros ? s2 [-> ->]. cbn beta iota. by apply (keeps_ret (Ok newfd)).
  - pose proof (duplicated_at _ _ _ _ _ Hq) as Ha.
    eapply keeps_impl; [|apply (keeps_flags newfd (oflags_to_fd_flags flags) s1 _ Hd1 Hs1 Ha)]. intros ? s2 K1 K2 [-> E2]. cbn beta iota in *.
    apply (keeps_ret (Ok newfd)); [done|done|]. split; [done|]. rewrite E2, Hf1. cbn [ofd_ref]. apply fd_put_put.
Qed.

(** *** Control *)

Lemma with_flags_key o f : Z.land f O_PATH = Z.land (status_flags o) O_PATH -> Z.land f O_ACCMODE = Z.land (status_flags o) O_ACCMODE -> res_key (with_flags o f) = res_key o.
Proof. intros E1 E2. unfold res_key. cbn. by rewrite E1, E2. Qed.

Lemma quiet_mut i f s :
  (forall o, res_key (f o) = res_key o) -> (forall o, ref_count (f o) = ref_count o) -> descs_ok (sy_proc s) [] ->
  quiet (on_ofd i f) s (fun r p' => r = Ok tt /\ fds_of p' = fds_of (sy_proc s)).
Proof. intros Hk Hr Hd. eexists _, _. split; [reflexivity|]. split; [by apply same_mut|]. split; [by apply descs_mut|done]. Qed.

Lemma keeps_mut i f s :
  (forall o, res_key (f o) = res_key o) -> (forall o, ref_count (f o) = ref_count o) -> descs_ok (sy_proc s) [] -> socks_ok (sy_proc s) ->
  keeps (on_ofd i f) s (fun r s' => r = Ok tt /\ fds_of (sy_proc s') = fds_of (sy_proc s)).
Proof. intros Hk Hr Hd Hs. eapply keeps_mono; [|apply keeps_quiet; [done|by apply quiet_mut]]. by intros r s' [? _]. Qed.

Lemma keeps_ofd_at {B} idx (f : OpenFileDesc -> M B) s Q :
  descs_ok (sy_proc s) [] -> socks_ok (sy_proc s) ->
  match Ofd.get (pr_ofd_table (sy_proc s)) idx with Some o => keeps (f o) s Q | None => Q (Err EBADF) s end -> keeps (bind (ofd_at idx) f) s Q.
Proof.
  intros Hd Hs Hq. assert (ofd_at idx s = Some (ok_or (Ofd.get (pr_ofd_table (sy_proc s)) idx) EBADF, s)) as E by done. unfold keeps, bind. rewrite E.
  destruct (Ofd.get _ idx) as [o|]; [exact Hq|]. exists (Err EBADF), s. split; [done|]. split; [by apply moved_same|done].
Qed.

Lemma keep_bits f a m b : Z.land (Z.lor (Z.ldiff f m) (Z.land a m)) b = Z.land f b \/ Z.land m b <> 0.
Proof.
  destruct (decide (Z.land m b = 0)) as [Hz|]; [left|by right]. apply Z.bits_inj'. intros n Hn. rewrite !Z.land_spec, Z.lor_spec, Z.ldiff_spec, Z.land_spec.
  assert (Z.testbit m n && Z.testbit b n = false) as Hmb by (rewrite <- Z.land_spec, Hz; apply Z.bits_0). destruct (Z.testbit b n); [|by rewrite !andb_false_r].
  rewrite andb_true_r in Hmb. rewrite Hmb. cbn. by rewrite !andb_true_r, andb_false_r, orb_false_r.
Qed.

Lemma setfl_key o arg : res_key (with_flags o (Z.lor (Z.ldiff (status_flags o) SETFL_MODIFIABLE) (Z.land arg SETFL_MODIFIABLE))) = res_key o.
Proof.
  apply with_flags_key; [destruct (keep_bits (status_flags o) arg SETFL_MODIFIABLE O_PATH) as [|Hn]|destruct (keep_bits (status_flags o) arg SETFL_MODIFIABLE O_ACCMODE) as [|Hn]];
    try done; exfalso; apply Hn; vm_compute; done.
Qed.

Lemma get_mut_at p fd f :
  match FdTable.get_mut (pr_fd_table p) fd f with Ok _ => is_Some (fd_at (fds_of p) fd) | Err e => e = EBADF /\ fd_at (fds_of p) fd = None end.
Proof.
  unfold FdTable.get_mut, fd_at, fds_of. destruct (fd_index fd) as [i|]; [|done]. cbn [mbind option_bind]. rewrite open_map_lookup.
  destruct (FdTable.entries _ !! i) as [[]|]; cbn; [by eexists|done..].
Qed.

Definition is_dupfd (cmd : Z) : bool := (cmd =? F_DUPFD) || (cmd =? F_DUPFD_CLOEXEC) || (cmd =? F_DUPFD_CLOFORK).
Definition dupfd_flags (cmd : Z) : Z := if cmd =? F_DUPFD_CLOEXEC then FD_CLOEXEC else if cmd =? F_DUPFD_CLOFORK then FD_CLOFORK else 0.

Definition setfd_of (fd arg : Z) : M Z :=
  fd_result (fun t => match FdTable.get_mut t fd (fun e => mkFdEntry (ofd_ref e) arg) with Ok t' => (t', Ok 0) | Err e => (t, Err e) end).

Lemma keeps_setfd fd arg s :
  let m := fds_of (sy_proc s) in
  descs_ok (sy_proc s) [] -> socks_ok (sy_proc s) ->
  keeps (setfd_of fd arg) s (fun r s' =>
    match fd_at m fd with
    | Some e => r = Ok 0 /\ fds_of (sy_proc s') = fd_put m fd (mkFdEntry (ofd_ref e) arg)
    | None => r = Err EBADF /\ fds_of (sy_proc s') = m
    end).
Proof.
  cbv zeta. intros Hd Hs. unfold setfd_of. pose proof (get_mut_at (sy_proc s) fd (fun e => mkFdEntry (ofd_ref e) arg)) as Hm. destruct (fd_at (fds_of (sy_proc s)) fd) as [e|] eqn:Ee.
  - destruct (set_flags_descs (sy_proc s) fd arg e Hd Ee) as [K1 K2].
    eapply keeps_mono; [|apply (keeps_quiet _ s (fun r p' => r = Ok 0 /\ fds_of p' = fd_put (fds_of (sy_proc s)) fd (mkFdEntry (ofd_ref e) arg))); [done|]]; [by intros r s' [? _]|].
    exists (Ok 0), (with_fds (sy_proc s) (set_fd_flags arg (pr_fd_table (sy_proc s)) fd)). split; [|split; [apply same_fds|by split]].
    unfold fd_result, proc_result, set_fd_flags. destruct (FdTable.get_mut _ _ _) as [t'|]; [done|]. by destruct Hm.
  - exists (Err EBADF), s. split; [|split; [by apply moved_same|done]]. unfold fd_result, proc_result.
    destruct (FdTable.get_mut _ _ _) as [t'|]; [by destruct Hm|]. destruct Hm as [-> _]. by rewrite with_fds_same, set_proc_same.
Qed.

(** What [fcntl] does to the descriptors. *)
Definition fcntl_effect (m : fd_map) (fd cmd arg : Z) (r : kresult Z) (m' : fd_map) : Prop :=
  match fd_at m fd with
  | None => m' = m /\ exists e, r = Err e
  | Some e =>
      if is_dupfd cmd then duplicated m e (dupfd_flags cmd) r m'
      else if cmd =? F_SETFD then r = Ok 0 /\ m' = fd_put m fd (mkFdEntry (ofd_ref e) arg)
      else m' = m
  end.

Lemma keeps_fcntl fd cmd arg s :
  let p := sy_proc s in
  descs_ok p [] -> socks_ok p -> keeps (sys_fcntl fd cmd arg) s (fun r s' => fcntl_effect (fds_of p) fd cmd arg r (fds_of (sy_proc s'))).
Proof.
  cbv zeta. intros Hd Hs. unfold sys_fcntl, fcntl_effect. fold (is_dupfd cmd) (dupfd_flags cmd). set (m := fds_of (sy_proc s)).
  assert (FdTable.get (pr_fd_table (sy_proc s)) fd = match fd_at m fd with Some e => Ok e | None => Err EBADF end) as Hg by apply fd_at_get.
  destruct (is_dupfd cmd) eqn:Edup.
  { apply keeps_entry; [done|done|]. rewrite Hg. destruct (fd_at m fd) as [e|] eqn:Ee; [|split; [done|by eexists]].
    eapply keeps_mono; [|apply (keeps_duplicate e (dupfd_flags cmd)); [done|done|by eapply refers_at|by apply places_alloc]]. by intros r s' [? _]. }
  assert (forall {B} (f : FdEntry -> M B) Q, match fd_at m fd with Some e => keeps (f e) s Q | None => Q (Err EBADF) s end -> keeps (bind (fd_entry fd) f) s Q) as Hentry
    by (intros B f Q Hq; apply keeps_entry; [done|done|]; rewrite Hg; by destruct (fd_at m fd)).
  destruct (Z.eqb_spec cmd F_GETFD) as [->|].
  { apply Hentry. destruct (fd_at m fd) as [e|]; [|split; [done|by eexists]]. by apply (keeps_ret (Ok _)). }
  destruct (Z.eqb_spec cmd F_SETFD) as [->|].
  { eapply keeps_mono; [|by apply keeps_setfd]. cbv zeta. fold m. intros r s' Hq. destruct (fd_at m fd) as [e|]; [done|]. destruct Hq as [-> ?]. split; [done|by eexists]. }
  assert (forall (f : OpenFileDesc -> M Z) e, (forall o, keeps (f o) s (fun r s' => fds_of (sy_proc s') = m)) -> keeps (bind (ofd_at (ofd_ref e)) f) s (fun r s' => fds_of (sy_proc s') = m)) as Hofd.
  { intros f e Hf. apply keeps_ofd_at; [done|done|]. destruct (Ofd.get _ _); [apply Hf|done]. }
  assert (keeps (lift (Err EBADF)) s (fun (r : kresult Z) s' => fds_of (sy_proc s') = m)) as Hbad by by apply keeps_ret.
  assert (forall i f, (forall o, res_key (f o) = res_key o) -> (forall o, ref_count (f o) = ref_count o) -> keeps (on_ofd i f >; ret 0) s (fun r s' => fds_of (sy_proc s') = m)) as Hmut.
  { intros i f Hk Hr. apply keeps_bind. eapply keeps_impl; [|by apply keeps_mut]. intros r s1 K1 K2 [-> E1]. by apply (keeps_ret (Ok 0)). }
  destruct (Z.eqb_spec cmd F_GETFL) as [->|].
  { apply Hentry. destruct (fd_at m fd) as [e|]; [|split; [done|by eexists]]. apply Hofd. intros o. by apply (keeps_ret (Ok _)). }
  destruct (Z.eqb_spec cmd F_SETFL) as [->|].
  { apply Hentry. destruct (fd_at m fd) as [e|]; [|split; [done|by eexists]]. apply Hofd. intros o. destruct (is_path_only o); [exact Hbad|]. apply Hmut; [intros; apply setfl_key|done]. }
  destruct (Z.eqb_spec cmd F_SETOWN) as [->|].
  { apply Hentry. destruct (fd_at m fd) as [e|]; [|split; [done|by eexists]]. apply Hofd. intros o. destruct (is_path_only o); [exact Hbad|]. by apply Hmut. }
  destruct (Z.eqb_spec cmd F_GETOWN) as [->|].
  { apply Hentry. destruct (fd_at m fd) as [e|]; [|split; [done|by eexists]]. apply Hofd. intros o. destruct (is_path_only o); [exact Hbad|]. by apply (keeps_ret (Ok _)). }
  apply (keeps_ret (Err EINVAL)); [done|done|]. destruct (fd_at m fd); [done|split; [done|by eexists]].
Qed.

End at_table.

(** ** Pipes *)

Lemma alloc_inv f o flags min i f' :
  FdTable.spec_step f (OpAlloc o flags min) (OutFd (Ok (Z.of_nat i))) f' -> lowest f (Z.to_nat (Z.max min 0)) i /\ f' = spec_open f i (mkFdEntry o flags).
Proof. inversion 1 as [? ? ? k Hlow Eo Er Ea| | | | | | | | | | | | | | | | ]. apply Nat2Z.inj in Er. subst k. by split. Qed.

Lemma full_inv f o flags min e f' :
  FdTable.spec_step f (OpAlloc o flags min) (OutFd (Err e)) f' -> exhausted f (Z.to_nat (Z.max min 0)) /\ e = EMFILE /\ f' = f.
Proof. by inversion 1. Qed.

Lemma free_inv f fd i r f' :
  fd_index fd = Some i -> FdTable.spec_step f (OpFree fd) (OutRef r) f' -> f' = mkFdSpec (delete i (open_fds f)) (pending_fds f) (limit f).
Proof.
  intros Hi. inversion 1 as [| | | | | | | |? ? ? Hi' ? |? Hn| | | | | | | ]; simplify_eq; [done|]. rewrite delete_id by auto. by destruct f'.
Qed.

Lemma descs_alloc p idx ext :
  descs_ok p (idx :: ext) ->
  let '(t, r) := FdTable.alloc (pr_fd_table p) idx 0 in
  match r with
  | Ok fd => exists i, fd = Z.of_nat i /\ fds_of p !! i = None /\ descs_ok (with_fds p t) ext /\ fds_of (with_fds p t) = <[i := mkFdEntry idx 0]> (fds_of p) /\
      lowest (abs (pr_fd_table p)) 0 i /\ abs t = spec_open (abs (pr_fd_table p)) i (mkFdEntry idx 0)
  | Err e => e = EMFILE /\ t = pr_fd_table p /\ exhausted (abs (pr_fd_table p)) 0
  end.
Proof.
  intros [D1 D2 D3 D4]. pose proof (alloc_open (pr_fd_table p) idx 0 0 D1 D2) as Ha. unfold FdTable.alloc. destruct (alloc_at_min _ _ _ _) as [t r] eqn:E.
  destruct (alloc_at_min_refines _ _ _ _ _ _ D1 D2 E) as [_ Hs]. destruct r as [fd|e]; destruct Ha as (A1 & A2 & A3); [|destruct A3 as [-> ->]; split; [done|]; split; [done|]; by destruct (full_inv _ _ _ _ _ _ Hs)].
  destruct A3 as (i & -> & Hi & Hn & Ho). exists i. split; [done|]. split; [done|].
  assert (lowest (abs (pr_fd_table p)) 0 i /\ abs t = spec_open (abs (pr_fd_table p)) i (mkFdEntry idx 0)) as Hlow by exact (alloc_inv _ _ _ _ _ _ Hs).
  split; [|split; [exact Ho|exact Hlow]]. split; [done|cbn; by rewrite A2| |]; change (fds_of (with_fds p t)) with (open_map (FdTable.entries t)); rewrite Ho.
  - intros j x [[<- <-]|[_ Hj]]%lookup_insert_Some; [lia|by eapply D3].
  - by apply counted_open.
Qed.

Lemma descs_insert p ext o : ref_count o = 1 -> descs_ok p ext -> let '(i, t) := Ofd.insert (pr_ofd_table p) o in descs_ok (with_ofds p t) (i :: ext).
Proof.
  intros Ho [D1 D2 D3 D4]. pose proof (counted_insert (fds_of p) ext (pr_ofd_table p) o Ho D4) as Hi. destruct (Ofd.insert _ _) as [i t]. by split.
Qed.

Lemma descs_drop p idx ext o :
  descs_ok p (idx :: ext) -> Ofd.get (pr_ofd_table p) idx = Some o -> (length ext <= 3)%nat -> desc_refs (fds_of p) ext idx = 0 ->
  exists t, dec_ref (pr_ofd_table p) idx = (true, t) /\ descs_ok (with_ofds p t) ext /\ (forall j, Ofd.get t j = if (j =? idx)%nat then None else Ofd.get (pr_ofd_table p) j).
Proof.
  intros Hd Ho Hl Hz. pose proof (descs_bound p (idx :: ext) idx Hd ltac:(cbn; lia)) as Hb. destruct Hd as [D1 D2 D3 D4].
  pose proof (counted_dec _ _ _ _ _ Ho D4 ltac:(lia)) as Hdec. destruct (dec_ref _ _) as [f t]. destruct Hdec as (H1 & -> & H3). rewrite Hz in *. exists t. split; [done|]. split; [by split|exact H3].
Qed.

Lemma free_abs t fd t' r i : fd_wf t -> fd_index fd = Some i -> FdTable.free t fd = (t', r) ->
  abs t' = mkFdSpec (delete i (open_fds (abs t))) (pending_fds (abs t)) (limit (abs t)).
Proof.
  intros Hw Hi E. destruct (free_refines _ _ _ _ Hw E) as [_ Hs]. by eapply free_inv.
Qed.

Lemma descs_free p ext i e :
  descs_ok p ext -> fds_of p !! i = Some e ->
  exists t, FdTable.free (pr_fd_table p) (Z.of_nat i) = (t, Ok (ofd_ref e)) /\ descs_ok (with_fds p t) (ofd_ref e :: ext) /\ fds_of (with_fds p t) = delete i (fds_of p) /\
    abs t = mkFdSpec (delete i (open_fds (abs (pr_fd_table p)))) (pending_fds (abs (pr_fd_table p))) (limit (abs (pr_fd_table p))).
Proof.
  intros [D1 D2 D3 D4] Hi. pose proof (free_open (pr_fd_table p) (Z.of_nat i) D1) as Hf. rewrite fd_at_get, fd_at_nat, Hi in Hf. destruct Hf as (j & t & Ej & _ & Ef & Hw & Hm & Ho).
  rewrite fd_index_of_nat in Ej. injection Ej as <-. exists t. split; [done|]. split; [|split; [exact Ho|exact (free_abs _ _ _ _ i D1 (fd_index_of_nat i) Ef)]]. split; [done|cbn; by rewrite Hm| |]; change (fds_of (with_fds p t)) with (open_map (FdTable.entries t)); rewrite Ho.
  - intros j x [_ Hj]%lookup_delete_Some. by eapply D3.
  - by apply counted_close.
Qed.

(** A description no descriptor of the process refers to yet. *)
Lemma fresh_refs p ext idx : counted_ofds (fds_of p) ext (pr_ofd_table p) -> Ofd.get (pr_ofd_table p) idx = None -> fd_refs (fds_of p) idx = 0 /\ pending_refs ext idx = 0.
Proof.
  intros Hc Hn. specialize (Hc idx). rewrite Hn in Hc. unfold desc_refs in Hc. pose proof (fd_refs_nonneg (fds_of p) idx). pose proof (pending_nonneg ext idx). lia.
Qed.

(** The two descriptions of a pipe. *)
Record pipe_pair (p p2 : Process) (read_ofd write_ofd : nat) (a b : OpenFileDesc) : Prop := {
  pp_descs : descs_ok p2 [read_ofd; write_ofd];
  pp_get : forall j, Ofd.get (pr_ofd_table p2) j = if (j =? write_ofd)%nat then Some b else if (j =? read_ofd)%nat then Some a else Ofd.get (pr_ofd_table p) j;
  pp_fresh : Ofd.get (pr_ofd_table p) read_ofd = None /\ Ofd.get (pr_ofd_table p) write_ofd = None /\ read_ofd <> write_ofd;
  pp_fds : pr_fd_table p2 = pr_fd_table p;
  pp_sockets : pr_sockets p2 = pr_sockets p;
  pp_refs : fd_refs (fds_of p) read_ofd = 0 /\ fd_refs (fds_of p) write_ofd = 0;
  pp_ofds : ofds p2 ≡ₚ b :: a :: ofds p;
}.

Lemma pipe_pair_make p a b :
  descs_ok p [] -> ref_count a = 1 -> ref_count b = 1 ->
  let '(i, t1) := Ofd.insert (pr_ofd_table p) a in
  let '(j, t2) := Ofd.insert t1 b in pipe_pair p (with_ofds (with_ofds p t1) t2) i j a b.
Proof.
  intros Hd Ha Hb. pose proof (descs_insert p [] a Ha Hd) as H1. pose proof (insert_spec (pr_ofd_table p) a) as S1. pose proof (ofds_inserted p a) as O1.
  destruct (Ofd.insert (pr_ofd_table p) a) as [i t1]. pose proof (descs_insert (with_ofds p t1) [i] b Hb H1) as H2. pose proof (insert_spec t1 b) as S2. pose proof (ofds_inserted (with_ofds p t1) b) as O2.
  cbn [with_ofds with_descriptors pr_ofd_table] in H2, O2. destruct (Ofd.insert t1 b) as [j t2]. destruct S1 as (N1 & _ & G1), S2 as (N2 & _ & G2). rewrite G1 in N2.
  destruct (Nat.eqb_spec j i) as [|Hne]; [done|]. split.
  - destruct H2 as [D1 D2 D3 D4]. split; [done|done|done|]. intros k. specialize (D4 k). by rewrite (desc_refs_perm _ [i; j] [j; i] ltac:(solve_Permutation) k k eq_refl).
  - intros k. cbn. rewrite G2. destruct (Nat.eqb_spec k j); [done|]. by rewrite G1.
  - split_and!; [done|done|congruence].
  - done.
  - done.
  - split; [eapply (fresh_refs p []); [apply Hd|done]|eapply (fresh_refs p []); [apply Hd|done]].
  - by rewrite O2, O1.
Qed.

Definition pipe_fds (read_ofd write_ofd : nat) : M (Z * Z) :=
  let! read := attempt (fd_result (fun t => FdTable.alloc t read_ofd 0)) in
  match read with
  | Err e => dec_ref_ofd read_ofd >; dec_ref_ofd write_ofd >; fail e
  | Ok read_fd =>
      let! write := attempt (fd_result (fun t => FdTable.alloc t write_ofd 0)) in
      match write with
      | Err e => attempt (fd_result (fun t => FdTable.free t read_fd)) >; dec_ref_ofd read_ofd >; dec_ref_ofd write_ofd >; fail e
      | Ok write_fd => ret (read_fd, write_fd)
      end
  end.

(** The two lowest descriptors that are free, or that there are not two. *)
Definition two_lowest (f : FdSpec) (e : FdEntry) (m n : nat) : Prop := lowest f 0 m /\ lowest (spec_open f m e) 0 n.
Definition no_two (f : FdSpec) (e : FdEntry) : Prop := exhausted f 0 \/ exists m, lowest f 0 m /\ exhausted (spec_open f m e) 0.

(** Both descriptions go. *)
Lemma drop_pair p p2 q i j a b s :
  pipe_pair p p2 i j a b -> sy_proc s = q -> pr_ofd_table q = pr_ofd_table p2 -> pr_sockets q = pr_sockets p2 -> descs_ok q [i; j] -> fds_of q = fds_of p ->
  exists p', (dec_ref_ofd i >; dec_ref_ofd j >; fail (A := Z * Z) EMFILE) s = Some (Err EMFILE, set_proc s p') /\ descs_ok p' [] /\ same_uses p p' /\ fds_of p' = fds_of p /\
    pr_fd_table p' = pr_fd_table q /\ (forall k, Ofd.get (pr_ofd_table p') k = Ofd.get (pr_ofd_table p) k).
Proof.
  intros [_ G (N1 & N2 & Hne) _ Hso [R1 R2] _] Hs Et Es Hd Hf.
  assert (Ofd.get (pr_ofd_table q) i = Some a) as Ga by (rewrite Et, G, (proj2 (Nat.eqb_neq i j)), Nat.eqb_refl by done; done).
  assert (desc_refs (fds_of q) [j] i = 0) as Z1 by (unfold desc_refs; rewrite Hf, R1, pending_cons, (proj2 (Nat.eqb_neq i j)) by done; done).
  destruct (descs_drop q i [j] a Hd Ga ltac:(cbn; lia) Z1) as (t1 & E1 & D1 & G1). set (q1 := with_ofds q t1) in *.
  assert (Ofd.get (pr_ofd_table q1) j = Some b) as Gb by (cbn; rewrite G1, (proj2 (Nat.eqb_neq j i)), Et, G, Nat.eqb_refl by done; done).
  assert (desc_refs (fds_of q1) [] j = 0) as Z2 by (unfold desc_refs; change (fds_of q1) with (fds_of q); rewrite Hf, R2; done).
  destruct (descs_drop q1 j [] b D1 Gb ltac:(cbn; lia) Z2) as (t2 & E2 & D2 & G2).
  assert (forall k, Ofd.get (pr_ofd_table (with_ofds q1 t2)) k = Ofd.get (pr_ofd_table p) k) as Hk.
  { intros k. cbn [with_ofds with_descriptors pr_ofd_table]. rewrite G2. destruct (Nat.eqb_spec k j) as [->|]; [by rewrite N2|]. cbn [q1 with_ofds with_descriptors pr_ofd_table].
    rewrite G1. destruct (Nat.eqb_spec k i) as [->|]; [by rewrite N1|]. by rewrite Et, G, !(proj2 (Nat.eqb_neq _ _)) by done. }
  exists (with_ofds q1 t2). split; [|split; [done|split]].
  - unfold bind, dec_ref_ofd, proc_result, fail. rewrite Hs, E1. cbn [set_proc sy_proc]. fold q1. by rewrite E2.
  - split; [|cbn; congruence]. intros k. by rewrite Hk.
  - split; [exact Hf|]. by split.
Qed.

Lemma pipe_fds_ok p p2 i j a b s :
  pipe_pair p p2 i j a b -> sy_proc s = p2 ->
  exists r p', pipe_fds i j s = Some (r, set_proc s p') /\ descs_ok p' [] /\
    match r with
    | Ok (x, y) => exists m n, x = Z.of_nat m /\ y = Z.of_nat n /\ m <> n /\ fds_of p !! m = None /\ fds_of p !! n = None /\
        fds_of p' = <[n := mkFdEntry j 0]> (<[m := mkFdEntry i 0]> (fds_of p)) /\ pr_ofd_table p' = pr_ofd_table p2 /\ pr_sockets p' = pr_sockets p2 /\
        two_lowest (abs (pr_fd_table p)) (mkFdEntry i 0) m n /\ abs (pr_fd_table p') = spec_open (spec_open (abs (pr_fd_table p)) m (mkFdEntry i 0)) n (mkFdEntry j 0)
    | Err e => e = EMFILE /\ same_uses p p' /\ fds_of p' = fds_of p /\ abs (pr_fd_table p') = abs (pr_fd_table p) /\ no_two (abs (pr_fd_table p)) (mkFdEntry i 0) /\
        (forall k, Ofd.get (pr_ofd_table p') k = Ofd.get (pr_ofd_table p) k)
    end.
Proof.
  intros Hp Hs. pose proof Hp as [D _ _ F _ _ _]. assert (fds_of p2 = fds_of p) as Ef by (unfold fds_of; by rewrite F).
  unfold pipe_fds. pose proof (descs_alloc p2 i [j] D) as A1. unfold attempt at 1, bind at 1, fd_result at 1, proc_result at 1. rewrite Hs. destruct (FdTable.alloc (pr_fd_table p2) i 0) as [t1 [x|e]].
  2:{ destruct A1 as (-> & -> & Hx). rewrite with_fds_same. destruct (drop_pair p p2 p2 i j a b (set_proc s p2) Hp eq_refl eq_refl eq_refl D Ef) as (p' & E & H1 & H2 & H3 & H4 & H5).
      exists (Err EMFILE), p'. split; [exact E|]. split; [done|]. rewrite F in Hx. split_and!; try done; [by rewrite H4, F|by left]. }
  destruct A1 as (m & -> & Hm & D1 & F1 & L1 & S1). set (p3 := with_fds p2 t1) in *. pose proof (descs_alloc p3 j [] D1) as A2.
  unfold bind at 1, attempt at 1, fd_result at 1, proc_result at 1. cbn [set_proc sy_proc]. destruct (FdTable.alloc (pr_fd_table p3) j 0) as [t2 [y|e]].
  - destruct A2 as (n & -> & Hn & D2 & F2 & L2 & S2). exists (Ok (Z.of_nat m, Z.of_nat n)), (with_fds p3 t2). split; [done|]. split; [done|]. exists m, n. rewrite F1 in Hn. apply lookup_insert_None in Hn as [Hn Hne].
    change (pr_fd_table p3) with t1 in L2, S2. rewrite S1, F in *. rewrite Ef in *. split_and!; try done; by rewrite F2, F1.
  - destruct A2 as (-> & -> & Hx). rewrite with_fds_same. assert (fds_of p3 !! m = Some (mkFdEntry i 0)) as Hl by (rewrite F1; apply lookup_insert_eq).
    destruct (descs_free p3 [j] m _ D1 Hl) as (t3 & E3 & D3 & F3 & S3). set (q := with_fds p3 t3) in *.
    assert (fds_of q = fds_of p) as Fq by (rewrite F3, F1, delete_insert_id; done).
    destruct (drop_pair p p2 q i j a b (set_proc s q) Hp eq_refl eq_refl eq_refl D3 Fq) as (p' & E & H1 & H2 & H3 & H4 & H5). exists (Err EMFILE), p'.
    assert (abs (pr_fd_table p') = abs (pr_fd_table p)) as Ea.
    { rewrite H4. change (pr_fd_table q) with t3. rewrite S3. change (pr_fd_table p3) with t1. rewrite S1, F. unfold spec_open. cbn [open_fds pending_fds limit].
      rewrite delete_insert_id; [by destruct (abs _)|]. unfold fds_of in Hm. rewrite F in Hm. exact Hm. }
    split; [|split; [done|split_and!; try done]]; [|right; exists m; change (pr_fd_table p3) with t1 in Hx; rewrite S1, F in *; by split].
    etrans; [|exact E]. unfold bind at 1, attempt, fd_result, proc_result. cbn [set_proc sy_proc]. by rewrite E3.
Qed.

(** Descriptions that would hold a new pipe in their slot have one. *)
Definition pipes_live (t : PipeTable) (p : Process) : Prop :=
  forall o, o ∈ ofds p -> file_type o = Ofd.Pipe -> host_handle o < 0 -> reference_kind (pipe_new 0) (status_flags o) <> None ->
    is_Some (table_get t (neg_index (host_handle o))).

Lemma new_kind cap i f : reference_kind (set_pipe_idx i (pipe_new cap)) f = reference_kind (pipe_new 0) f.
Proof. done. Qed.

(** A process does not hold a pipe allocated afterwards. *)
Lemma alloc_pipe_uses p t t' i cap x :
  pipes_live t p -> table_get t i = None ->
  (forall j, table_get t' j = if (j =? i)%nat then Some (set_pipe_idx x (pipe_new cap)) else table_get t j) -> process_uses t' p = process_uses t p /\ pipes_live t' p.
Proof.
  intros Hl Hn Hg. split.
  - unfold process_uses. f_equal. apply bind_uses_ext. intros o Ho. unfold pipe_ofd_uses. destruct (bool_decide_reflect (file_type o = Ofd.Pipe)) as [Et|]; [|done]. cbn [andb].
    destruct (Z.ltb_spec (host_handle o) 0) as [Hh|]; [|done]. rewrite Hg. destruct (Nat.eqb_spec (neg_index (host_handle o)) i) as [Ei|]; [|done]. rewrite Ei, Hn, new_kind.
    destruct (reference_kind (pipe_new 0) (status_flags o)) eqn:Ek; [|done]. exfalso. destruct (Hl o Ho Et Hh ltac:(congruence)) as [q Hq]. congruence.
  - intros o Ho Et Hh Hk. rewrite Hg. destruct (_ =? _)%nat; [by eexists|]. by apply Hl.
Qed.

Record sys_ok (s : Sys) (rest : list use) : Prop := {
  so_descs : descs_ok (sy_proc s) [];
  so_socks : socks_ok (sy_proc s);
  so_pipes : pipes_live (k_pipes (sy_kernel s)) (sy_proc s);
  so_machine : passing_ok (sy_kernel s) (process_uses (k_pipes (sy_kernel s)) (sy_proc s) ++ rest) [];
}.

Lemma fewer_live t p p' : fewer p p' -> pipes_live t p -> pipes_live t p'.
Proof.
  intros Hf Hl o' (i & Hi)%ofds_slot Et Hh Hk. destruct (Hf _ _ Hi) as (o & Ho & E). unfold res_key in E. injection E as E1 E2 E3 E4. rewrite <- E2. apply Hl; [by eapply ofds_get|congruence|lia|].
  revert Hk. unfold reference_kind. by rewrite E3, E4.
Qed.

(** What a process holds stays. *)
Lemma held_live t p rest k : pipes_live t p -> passing_ok k (process_uses t p ++ rest) [] -> pipes_live (k_pipes k) p.
Proof.
  intros Hl Hk o Ho Et Hh Hr. destruct (Hl o Ho Et Hh Hr) as [q Hq].
  assert (exists kind, reference_kind q (status_flags o) = Some kind) as [kind Ek].
  { revert Hr. unfold reference_kind. cbn [pipe_new p_is_fifo]. intros Hx. destruct (negb (_ =? 0)); [by destruct Hx|]. repeat (destruct (_ =? _); [by eexists|]). by destruct Hx. }
  eapply (pipe_use_live k _ [] _ kind); [apply Hk|]. unfold all_uses, process_uses. repeat (apply elem_of_app; left). apply list_elem_of_bind. exists o. split; [|done]. unfold pipe_ofd_uses.
  rewrite bool_decide_eq_true_2, (proj2 (Z.ltb_lt _ _)), Hq, Ek by done. by left.
Qed.

(** A call that keeps the accounts keeps the machine. *)
Lemma keeps_ok {A} (m : M A) s rest Q :
  sys_ok s rest -> keeps (k_pipes (sy_kernel s)) (k_last_ofd_id (sy_kernel s)) rest m s Q ->
  exists r s' new, m s = Some (r, s') /\ sys_ok s' rest /\ Q r s' /\ sy_calls s' = new ++ sy_calls s /\ k_last_ofd_id (sy_kernel s') = k_last_ofd_id (sy_kernel s) /\
    let before := all_uses (sy_kernel s) (process_uses (k_pipes (sy_kernel s)) (sy_proc s) ++ rest) [] in
    let after := all_uses (sy_kernel s') (process_uses (k_pipes (sy_kernel s')) (sy_proc s') ++ rest) [] in
    closes UHandle before after (omap close_of (rev new)) /\ closes UNet before after (omap net_close_of (rev new)).
Proof.
  intros [D S P Hm] (r & s' & E & (new & En & Hst) & Hl & D' & S' & HQ).
  assert (held (k_pipes (sy_kernel s)) (k_last_ofd_id (sy_kernel s)) (sy_kernel s) (process_uses (k_pipes (sy_kernel s)) (sy_proc s) ++ rest)) as Hh by by split.
  destruct (Hst Hh) as ([Hok Hf Hid] & C1 & C2). pose proof (fewer_live _ _ _ Hl P) as Hlive.
  assert (process_uses (k_pipes (sy_kernel s')) (sy_proc s') = process_uses (k_pipes (sy_kernel s)) (sy_proc s')) as Eu by (eapply uses_stable; [exact Hok|exact Hf|set_solver]).
  exists r, s', new. split; [done|]. split; [|split; [done|split; [done|split; [done|]]]].
  - split; [done|done| |by rewrite Eu]. by eapply held_live.
  - cbv zeta. by rewrite Eu.
Qed.

Lemma alloc_pipe_ok cap k p rest :
  pipes_live (k_pipes k) p -> passing_ok k (process_uses (k_pipes k) p ++ rest) [] -> load k (process_uses (k_pipes k) p ++ rest) [] + 2 <= u32_max ->
  let '(i, k') := pipe_alloc cap k in
  passing_ok k' (UPipe i (RefRead false) :: UPipe i RefWrite :: process_uses (k_pipes k') p ++ rest) [] /\ pipes_live (k_pipes k') p /\
  k_last_ofd_id k' = k_last_ofd_id k /\ exists x, table_get (k_pipes k') i = Some (set_pipe_idx x (pipe_new cap)).
Proof.
  intros Hl Hok Hload. pose proof (pipe_alloc_ok cap k _ [] Hok Hload) as Hp. unfold pipe_alloc in *. pose proof (alloc_spec (k_pipes k) (pipe_new cap) (ps_slots _ _ _ Hok)) as Ha.
  destruct (table_alloc (k_pipes k) (pipe_new cap)) as [i t]. destruct Ha as (_ & Hn & Hg). destruct (alloc_pipe_uses p _ _ _ _ _ Hl Hn Hg) as [Eu Hl'].
  cbn [with_pipe_table k_pipes]. rewrite Eu. split; [exact Hp|]. split; [done|]. split; [done|]. eexists. by rewrite Hg, Nat.eqb_refl.
Qed.

(** Two new descriptors, of two new descriptions. *)
Definition pipe_opened (m : fd_map) (x : Z * Z) (e1 e2 : FdEntry) (m' : fd_map) : Prop :=
  fd_at m x.1 = None /\ fd_at m x.2 = None /\ x.1 <> x.2 /\ 0 <= x.1 /\ 0 <= x.2 /\ m' = fd_put (fd_put m x.1 e1) x.2 e2.

Lemma neg_index_of i : Z.of_nat i < u32_max -> neg_index (- (Z.of_nat i + 1)) = i.
Proof.
  intros Hi. unfold neg_index. rewrite Z.mod_small; [lia|]. unfold u32_max in Hi.
  assert (2 ^ 32 <= 2 ^ usize_bits) by (apply Z.pow_le_mono_r; [lia|]; pose proof usize_bits_range; lia). lia.
Qed.

(** The uses of a process with the two ends of pipe [i]. *)
Lemma pipe_pair_uses t p p2 r w i x cap (a b : OpenFileDesc) :
  pipe_pair p p2 r w a b -> Z.of_nat i < u32_max -> table_get t i = Some (set_pipe_idx x (pipe_new cap)) ->
  file_type a = Ofd.Pipe -> status_flags a = O_RDONLY -> host_handle a = - (Z.of_nat i + 1) ->
  file_type b = Ofd.Pipe -> status_flags b = O_WRONLY -> host_handle b = - (Z.of_nat i + 1) ->
  process_uses t p2 ≡ₚ UPipe i (RefRead false) :: UPipe i RefWrite :: process_uses t p.
Proof.
  intros Hp Hi Ht A1 A2 A3 B1 B2 B3.
  assert (forall o kind, file_type o = Ofd.Pipe -> host_handle o = - (Z.of_nat i + 1) -> reference_kind (pipe_new 0) (status_flags o) = Some kind -> forall p, ofd_uses t p o = [UPipe i kind]) as Hu.
  { intros o kind E1 E2 E3 p0. unfold ofd_uses, pipe_ofd_uses, pty_use, backing_use, slot_of, kind_of, handle_use, socket_ofd_uses, socket_of_ofd. rewrite E1, E2, neg_index_of, Ht, new_kind, E3 by done.
    rewrite !(bool_decide_eq_true_2 (Ofd.Pipe = Ofd.Pipe)), (bool_decide_eq_false_2 (Ofd.Pipe = Socket)) by done. rewrite (proj2 (Z.ltb_lt _ _)), (proj2 (Z.leb_gt _ _)) by lia. done. }
  set (p1 := with_ofds p (mkTable (Some a :: Ofd.entries (pr_ofd_table p)))).
  assert (ofds p1 = a :: ofds p) as O1 by (rewrite !ofds_slots; done).
  assert (process_uses t p1 ≡ₚ ofd_uses t p a ++ process_uses t p) as U1 by (apply process_uses_more; [by rewrite O1|done]).
  assert (process_uses t p2 ≡ₚ ofd_uses t p1 b ++ process_uses t p1) as U2 by (apply process_uses_more; [rewrite O1; apply Hp|apply Hp]).
  rewrite U2, U1. rewrite (Hu b RefWrite), (Hu a (RefRead false)) by (done || by rewrite ?A2, ?B2). cbn [app]. apply Permutation_swap.
Qed.

Lemma pipe_pair_socks p p2 r w a b i :
  pipe_pair p p2 r w a b -> file_type a = Ofd.Pipe -> file_type b = Ofd.Pipe -> host_handle a = - (Z.of_nat i + 1) -> host_handle b = - (Z.of_nat i + 1) -> socks_ok p -> socks_ok p2.
Proof.
  intros Hp A1 B1 A3 B3 [S1 S2 S3]. split.
  - rewrite (pp_sockets _ _ _ _ _ _ Hp). exact S1.
  - assert (forall k o, Ofd.get (pr_ofd_table p2) k = Some o -> file_type o = Socket -> Ofd.get (pr_ofd_table p) k = Some o) as Hg.
    { intros k o. rewrite (pp_get _ _ _ _ _ _ Hp). destruct (_ =? _)%nat; [intros [= <-]; congruence|]. destruct (_ =? _)%nat; [intros [= <-]; congruence|done]. }
    intros k l o o' Hk Hl Et Et'. apply (S2 k l o o'); auto.
  - intros o. rewrite (pp_ofds _ _ _ _ _ _ Hp), !elem_of_cons. intros [->|[->|Ho]]; [unfold ofd_wf; by rewrite B1|unfold ofd_wf; by rewrite A1|by apply S3].
Qed.

Lemma same_table_uses t p p' : pr_ofd_table p' = pr_ofd_table p -> pr_sockets p' = pr_sockets p -> process_uses t p' = process_uses t p /\ ofds p' = ofds p.
Proof. intros Et Es. assert (ofds p' = ofds p) as Eo by (unfold ofds; by rewrite Et). split; [|done]. by apply process_uses_key; [rewrite Eo|]. Qed.

(** The machine with the pipe of a process. *)
Lemma pipe_pair_ok p p2 p' r w a b i x cap k rest :
  pipe_pair p p2 r w a b -> Z.of_nat i < u32_max -> table_get (k_pipes k) i = Some (set_pipe_idx x (pipe_new cap)) ->
  file_type a = Ofd.Pipe -> status_flags a = O_RDONLY -> host_handle a = - (Z.of_nat i + 1) ->
  file_type b = Ofd.Pipe -> status_flags b = O_WRONLY -> host_handle b = - (Z.of_nat i + 1) ->
  socks_ok p -> pipes_live (k_pipes k) p -> passing_ok k (UPipe i (RefRead false) :: UPipe i RefWrite :: process_uses (k_pipes k) p ++ rest) [] ->
  pr_ofd_table p' = pr_ofd_table p2 -> pr_sockets p' = pr_sockets p2 ->
  socks_ok p' /\ pipes_live (k_pipes k) p' /\ passing_ok k (process_uses (k_pipes k) p' ++ rest) [].
Proof.
  intros Hp Hi Hx A1 A2 A3 B1 B2 B3 S Hl Hok Et Es. destruct (same_table_uses (k_pipes k) p2 p' Et Es) as [Eu Eo]. split; [|split].
  - apply (socks_ok_sub p2); [intros j o; rewrite Et; by exists o|rewrite Es|]; by eapply (pipe_pair_socks p p2).
  - intros o. rewrite Eo, (pp_ofds _ _ _ _ _ _ Hp), !elem_of_cons. intros [->|[->|Ho]] Eft Hh Hk; [rewrite B3|rewrite A3|by apply Hl]; rewrite neg_index_of by done; by eexists.
  - rewrite Eu. eapply passing_perm; [|reflexivity|exact Hok]. by rewrite (pipe_pair_uses _ _ _ _ _ _ _ _ _ _ Hp Hi Hx A1 A2 A3 B1 B2 B3).
Qed.

(** What a failed [pipe] keeps: the slot it allocated. *)
Definition lost_pipe (k : Kernel) : list use := let i := (pipe_alloc DEFAULT_PIPE_CAPACITY k).1 in [UPipe i (RefRead false); UPipe i RefWrite].

(** One end of a pipe as [pipe] leaves it, and the two of them in the lowest
    free descriptors. *)
Record pipe_end (o : OpenFileDesc) (flags h : Z) : Prop := {
  pe_type : file_type o = Ofd.Pipe;
  pe_flags : status_flags o = flags;
  pe_handle : host_handle o = h;
}.

Definition pipe_made (p p' : Process) (x : Z * Z) (i j : nat) : Prop :=
  exists m n a b h, x = (Z.of_nat m, Z.of_nat n) /\ two_lowest (abs (pr_fd_table p)) (mkFdEntry i 0) m n /\
    abs (pr_fd_table p') = spec_open (spec_open (abs (pr_fd_table p)) m (mkFdEntry i 0)) n (mkFdEntry j 0) /\
    i <> j /\ Ofd.get (pr_ofd_table p) i = None /\ Ofd.get (pr_ofd_table p) j = None /\ h < 0 /\ pipe_end a O_RDONLY h /\ pipe_end b O_WRONLY h /\
    forall k, Ofd.get (pr_ofd_table p') k = if (k =? j)%nat then Some b else if (k =? i)%nat then Some a else Ofd.get (pr_ofd_table p) k.

Definition pipe_not_made (p p' : Process) : Prop :=
  (exists e, no_two (abs (pr_fd_table p)) e) /\ abs (pr_fd_table p') = abs (pr_fd_table p) /\
  forall k, Ofd.get (pr_ofd_table p') k = Ofd.get (pr_ofd_table p) k.

Lemma pipe_ok s rest :
  let p := sy_proc s in
  let k := sy_kernel s in
  sys_ok s rest -> pr_fork_child p = false \/ pr_fork_pipe_replay p = [] -> k_last_ofd_id k + 2 <= u64_max ->
  load k (process_uses (k_pipes k) p ++ rest) [] + 2 <= u32_max -> Z.of_nat (pipe_alloc DEFAULT_PIPE_CAPACITY k).1 < u32_max ->
  exists r s', sys_pipe s = Some (r, s') /\ sy_calls s' = sy_calls s /\ k_last_ofd_id (sy_kernel s') = k_last_ofd_id k + 2 /\
    match r with
    | Ok x => sys_ok s' rest /\ exists i j, pipe_opened (fds_of p) x (mkFdEntry i 0) (mkFdEntry j 0) (fds_of (sy_proc s')) /\ pipe_made p (sy_proc s') x i j
    | Err e => e = EMFILE /\ fds_of (sy_proc s') = fds_of p /\ sys_ok s' (lost_pipe k ++ rest) /\ pipe_not_made p (sy_proc s')
    end.
Proof.
  cbv zeta. intros [D S P Hok] Hrep Hid Hload Hcap. set (p := sy_proc s) in *. set (k := sy_kernel s) in *.
  pose proof (alloc_pipe_ok DEFAULT_PIPE_CAPACITY k p rest P Hok Hload) as Ha. unfold lost_pipe.
  assert (alloc_pipe s = Some (let '(i, k1) := pipe_alloc DEFAULT_PIPE_CAPACITY k in (Ok i, set_kernel s k1))) as E1 by (unfold alloc_pipe, kernel_result; fold k; by destruct (pipe_alloc _ _)).
  set (cap := DEFAULT_PIPE_CAPACITY) in *. clearbody cap. destruct (pipe_alloc cap k) as [i k1]. cbn [fst] in *. destruct Ha as (Hok1 & P1 & Hid1 & x & Hx).
  set (h := - (Z.of_nat i + 1)).
  set (a := mkOfd (k_last_ofd_id k + 1) None Ofd.Pipe O_RDONLY h 0 1 0 DEV_PIPE (-1) 0 0 None). set (b := mkOfd (k_last_ofd_id k + 1 + 1) None Ofd.Pipe O_WRONLY h 0 1 0 DEV_PIPE (-1) 0 0 None).
  pose proof (pipe_pair_make p a b D eq_refl eq_refl) as Hpair. destruct (Ofd.insert (pr_ofd_table p) a) as [r t1] eqn:Ia. destruct (Ofd.insert t1 b) as [w t2] eqn:Ib.
  set (p2 := with_ofds (with_ofds p t1) t2) in *.
  set (k2 := with_identities k1 (k_registry k1) (k_last_ofd_id k + 1)). set (k3 := with_identities k2 (k_registry k2) (k_last_ofd_id k + 1 + 1)).
  set (s3 := set_kernel (set_proc (set_kernel (set_proc (set_kernel s k1) (with_ofds p t1)) k2) p2) k3).
  assert (sys_pipe s = pipe_fds r w s3) as Es.
  { assert (sys_pipe s = (let! pipe_idx := alloc_pipe in let! r := ofd_create Ofd.Pipe O_RDONLY (- (Z.of_nat pipe_idx + 1)) DEV_PIPE in let! w := ofd_create Ofd.Pipe O_WRONLY (- (Z.of_nat pipe_idx + 1)) DEV_PIPE in pipe_fds r w) s) as ->.
    { unfold sys_pipe. unfold bind at 1, gets. fold p. destruct Hrep as [Hrep|Hrep]; rewrite Hrep; [reflexivity|destruct (pr_fork_child p); reflexivity]. }
    unfold bind at 1. rewrite E1. cbv beta iota.
    assert (forall s f lst, k_last_ofd_id (sy_kernel s) = lst -> lst + 1 <= u64_max -> ofd_create Ofd.Pipe f h DEV_PIPE s =
      Some (Ok (Ofd.insert (pr_ofd_table (sy_proc s)) (mkOfd (lst + 1) None Ofd.Pipe f h 0 1 0 DEV_PIPE (-1) 0 0 None)).1,
        set_kernel (set_proc s (with_ofds (sy_proc s) (Ofd.insert (pr_ofd_table (sy_proc s)) (mkOfd (lst + 1) None Ofd.Pipe f h 0 1 0 DEV_PIPE (-1) 0 0 None)).2)) (with_identities (sy_kernel s) (k_registry (sy_kernel s)) (lst + 1)))) as Hc.
    { intros s0 f lst E Hle. unfold ofd_create, create, allocate_ofd_id. rewrite E, (proj2 (Z.leb_le _ _)) by done. by destruct (Ofd.insert _ (mkOfd _ _ _ _ _ _ _ _ _ _ _ _ _)). }
    unfold bind at 1. rewrite (Hc _ _ (k_last_ofd_id k)) by (done || lia). cbn [set_kernel set_proc sy_proc sy_kernel]. fold p a. rewrite Ia. cbn [fst snd].
    unfold bind at 1. rewrite (Hc _ _ (k_last_ofd_id k + 1)) by (done || lia). cbn [set_kernel set_proc sy_proc sy_kernel with_ofds with_descriptors pr_ofd_table]. fold b. rewrite Ib. done. }
  destruct (pipe_fds_ok p p2 r w a b s3 Hpair eq_refl) as (res & p' & E & D' & Hr). exists res, (set_proc s3 p'). split; [by rewrite Es|]. split; [done|]. split; [cbn; lia|].
  assert (passing_ok k3 (UPipe i (RefRead false) :: UPipe i RefWrite :: process_uses (k_pipes k3) p ++ rest) []) as Hok3 by (apply passing_identities, passing_identities; exact Hok1).
  destruct res as [[y z]|e].
  - destruct Hr as (m & n & -> & -> & Hne & Hm & Hn & Hf & Et & Es' & H2 & Ha). pose proof (pipe_pair_ok p p2 p' r w a b i x cap k3 rest Hpair Hcap Hx eq_refl eq_refl eq_refl eq_refl eq_refl eq_refl S P1 Hok3 Et Es') as (K1 & K2 & K3).
    split; [by split|]. exists r, w. split; [unfold pipe_opened; cbn [fst snd]; rewrite !fd_at_nat, !fd_put_nat; split_and!; try done; lia|].
    destruct (pp_fresh _ _ _ _ _ _ Hpair) as (N1 & N2 & N3). exists m, n, a, b, h. change (sy_proc (set_proc s3 p')) with p'. rewrite Et.
    split_and!; [done|done|done|done|done|done|subst h; lia|done|done|apply Hpair].
  - destruct Hr as (-> & Hu & Hf & Ha & Hno & Hg). split; [done|]. split; [done|]. split; [|split; [by eexists|done]]. split; [done|by eapply same_uses_socks|eapply fewer_live; [by apply same_fewer|exact P1]|].
    cbn [set_proc sy_proc sy_kernel]. rewrite (same_uses_process _ _ _ Hu). eapply passing_perm; [|reflexivity|exact Hok3].
    change (sy_kernel s3) with k3. solve_Permutation.
Qed.

Lemma fd_put_comm (m : fd_map) x y e e' : x <> y -> fd_put (fd_put m x e) y e' = fd_put (fd_put m y e') x e.
Proof.
  intros Hne. unfold fd_put. destruct (fd_index x) as [i|] eqn:Ei, (fd_index y) as [j|] eqn:Ej; try done. apply fd_index_Some in Ei, Ej. apply insert_insert_ne. intros ->. congruence.
Qed.

Lemma fd_at_put_ne (m : fd_map) x y e : x <> y -> fd_at (fd_put m x e) y = fd_at m y.
Proof.
  intros Hne. unfold fd_at, fd_put. destruct (fd_index y) as [j|] eqn:Ej; [|done]. cbn [mbind option_bind]. destruct (fd_index x) as [i|] eqn:Ei; [|done].
  apply fd_index_Some in Ei, Ej. apply lookup_insert_ne. intros ->. congruence.
Qed.

Lemma fd_at_put_eq (m : fd_map) x e : 0 <= x -> fd_at (fd_put m x e) x = Some e.
Proof. intros Hx. unfold fd_at, fd_put, fd_index. rewrite (proj2 (Z.ltb_ge _ _)) by done. cbn. apply lookup_insert_eq. Qed.

Lemma opened_at m x e1 e2 m' : pipe_opened m x e1 e2 m' -> fd_at m' x.1 = Some e1 /\ fd_at m' x.2 = Some e2.
Proof. intros (_ & _ & Hne & H1 & H2 & ->). split; [|by apply fd_at_put_eq]. rewrite fd_at_put_ne by done. by apply fd_at_put_eq. Qed.

Lemma opened_flags m x e1 e2 m' f1 f2 : pipe_opened m x e1 e2 m' -> pipe_opened m x f1 f2 (fd_put (fd_put m' x.1 f1) x.2 f2).
Proof.
  intros (N1 & N2 & Hne & H1 & H2 & ->). split_and!; try done. rewrite (fd_put_comm _ x.2 x.1) by done. rewrite fd_put_put. by rewrite fd_put_put.
Qed.

Lemma nonblock_key o : res_key (with_flags o (Z.lor (status_flags o) O_NONBLOCK)) = res_key o.
Proof.
  apply with_flags_key; rewrite Z.land_lor_distr_l; match goal with |- Z.lor _ ?x = _ => assert (x = 0) as -> by (vm_compute; done) end; apply Z.lor_0_r.
Qed.

(** The flags [pipe2] gives. *)
Definition pipe_flags (flags : Z) (x : Z * Z) : M (Z * Z) :=
  let pipe_fd_flags := oflags_to_fd_flags flags in
  (if negb (pipe_fd_flags =? 0) then on_fd_flags x.1 pipe_fd_flags >; on_fd_flags x.2 pipe_fd_flags else ret tt) >;
  (if negb (Z.land flags O_NONBLOCK =? 0) then
     let! r := fd_entry x.1 in
     let! w := fd_entry x.2 in
     let nonblock o := with_flags o (Z.lor (status_flags o) O_NONBLOCK) in
     on_ofd (ofd_ref r) nonblock >; on_ofd (ofd_ref w) nonblock
   else ret tt) >;
  ret x.

Lemma keeps_pipe_flags t0 id0 rest flags x m i j s :
  descs_ok (sy_proc s) [] -> socks_ok (sy_proc s) -> pipe_opened m x (mkFdEntry i 0) (mkFdEntry j 0) (fds_of (sy_proc s)) ->
  keeps t0 id0 rest (pipe_flags flags x) s (fun r s' => r = Ok x /\ let f := oflags_to_fd_flags flags in pipe_opened m x (mkFdEntry i f) (mkFdEntry j f) (fds_of (sy_proc s'))).
Proof.
  intros Hd Hs Ho. unfold pipe_flags. cbv zeta. set (f := oflags_to_fd_flags flags). apply keeps_bind.
  apply (keeps_impl _ _ _ _ _ (fun r s1 => r = Ok tt /\ pipe_opened m x (mkFdEntry i f) (mkFdEntry j f) (fds_of (sy_proc s1)))).
  - intros r s1 D1 S1 [-> O1]. cbn beta iota. destruct (opened_at _ _ _ _ _ O1) as [A1 A2]. apply keeps_bind.
    apply (keeps_impl _ _ _ _ _ (fun r s' => r = Ok tt /\ fds_of (sy_proc s') = fds_of (sy_proc s1))).
    + intros r s2 D2 S2 [-> E2]. cbn beta iota. apply (keeps_ret _ _ _ (Ok x)); [done|done|]. by rewrite E2.
    + destruct (negb _); [|by apply (keeps_ret _ _ _ (Ok tt))]. apply keeps_entry; [done|done|]. rewrite fd_at_get, A1. apply keeps_entry; [done|done|]. rewrite fd_at_get, A2.
      apply keeps_bind. eapply keeps_impl; [|apply keeps_mut; [intros; apply nonblock_key|done|done|done]]. intros r s2 D2 S2 [-> E2]. cbn beta iota.
      eapply keeps_impl; [|apply keeps_mut; [intros; apply nonblock_key|done|done|done]]. intros r s3 _ _ [-> E3]. split; [done|]. by rewrite E3, E2.
  - destruct (Z.eqb_spec f 0) as [Ez|Ez]; cbn [negb]; [rewrite Ez; by apply (keeps_ret _ _ _ (Ok tt))|]. destruct (opened_at _ _ _ _ _ Ho) as [A1 A2].
    apply keeps_bind. eapply keeps_impl; [|by apply (keeps_flags _ _ _ x.1 f s _ Hd Hs A1)]. intros r s1 D1 S1 [-> E1]. cbn beta iota.
    assert (fd_at (fds_of (sy_proc s1)) x.2 = Some (mkFdEntry j 0)) as A2' by (rewrite E1, fd_at_put_ne; [done|apply Ho]).
    eapply keeps_impl; [|by apply (keeps_flags _ _ _ x.2 f s1 _ D1 S1 A2')]. intros r s2 D2 S2 [-> E2]. split; [done|]. rewrite E2, E1. by eapply opened_flags.
Qed.

Lemma refers_iff p idx : refers p idx <-> 0 < fd_refs (fds_of p) idx.
Proof.
  split; [apply refers_count|]. unfold fd_refs. intros Hs. set (f := filter _ _) in Hs. destruct (map_choose f) as (fd & e & Hf).
  - intros Ez. rewrite Ez, map_size_empty in Hs. lia.
  - apply map_lookup_filter_Some in Hf as [Hf He]. by exists fd, e.
Qed.

Lemma live_iff p idx : descs_ok p [] -> is_Some (Ofd.get (pr_ofd_table p) idx) <-> refers p idx.
Proof.
  intros [_ _ _ D]. rewrite refers_iff. specialize (D idx). unfold desc_refs, pending_refs in D. cbn in D. pose proof (fd_refs_nonneg (fds_of p) idx).
  destruct (Ofd.get _ idx); split; intros Hx; [lia|by eexists|by destruct Hx|lia].
Qed.

(** ** The calls *)

Inductive desc_call :=
| CClose (fd : Z)
| CDup (fd : Z)
| CDup2 (oldfd newfd : Z)
| CDup3 (oldfd newfd flags : Z)
| CFcntl (fd cmd arg : Z)
| CPipe2 (flags : Z).

(** One answer; [pipe2] has two. *)
Definition reply (m : M Z) : M (Z * Z) := let! n := m in ret (n, 0).

Definition desc_exec (c : desc_call) : M (Z * Z) :=
  match c with
  | CClose fd => sys_close_with_locks fd >; ret (0, 0)
  | CDup fd => reply (sys_dup fd)
  | CDup2 oldfd newfd => reply (sys_dup2_with_locks oldfd newfd)
  | CDup3 oldfd newfd flags => reply (sys_dup3_with_locks oldfd newfd flags)
  | CFcntl fd cmd arg => reply (sys_fcntl fd cmd arg)
  | CPipe2 flags => sys_pipe2 flags
  end.

(** What each call does to the map of open descriptors. *)
Definition desc_spec (m : fd_map) (c : desc_call) (r : kresult (Z * Z)) (m' : fd_map) : Prop :=
  match c with
  | CClose fd => m' = fd_close m fd /\ (fd_at m fd = None -> r = Err EBADF)
  | CDup fd =>
      match fd_at m fd with
      | None => r = Err EBADF /\ m' = m
      | Some e => match r with Ok (n, _) => duplicated m e 0 (Ok n) m' | Err err => err = EMFILE /\ m' = m end
      end
  | CDup2 oldfd newfd =>
      match fd_at m oldfd with
      | None => r = Err EBADF /\ m' = m
      | Some e =>
          if oldfd =? newfd then r = Ok (newfd, 0) /\ m' = m
          else match r with Ok (n, _) => n = newfd /\ m' = fd_put m newfd (mkFdEntry (ofd_ref e) 0) | Err _ => m' = fd_close m newfd end
      end
  | CDup3 oldfd newfd flags =>
      if negb (Z.ldiff flags (Z.lor O_CLOEXEC O_CLOFORK) =? 0) || (oldfd =? newfd) then r = Err EINVAL /\ m' = m
      else match fd_at m oldfd with
           | None => r = Err EBADF /\ m' = m
           | Some e => match r with Ok (n, _) => n = newfd /\ m' = fd_put m newfd (mkFdEntry (ofd_ref e) (oflags_to_fd_flags flags)) | Err _ => m' = fd_close m newfd end
           end
  | CFcntl fd cmd arg => match r with Ok (n, _) => fcntl_effect m fd cmd arg (Ok n) m' | Err e => fcntl_effect m fd cmd arg (Err e) m' end
  | CPipe2 flags =>
      match r with
      | Ok x => exists i j, let f := oflags_to_fd_flags flags in pipe_opened m x (mkFdEntry i f) (mkFdEntry j f) m'
      | Err e => e = EMFILE /\ m' = m
      end
  end.

(** A pipe needs two fresh identities and a slot, and is not replayed. *)
Definition call_room (s : Sys) (rest : list use) (c : desc_call) : Prop :=
  match c with
  | CPipe2 _ =>
      let k := sy_kernel s in
      (pr_fork_child (sy_proc s) = false \/ pr_fork_pipe_replay (sy_proc s) = []) /\ k_last_ofd_id k + 2 <= u64_max /\
      load k (process_uses (k_pipes k) (sy_proc s) ++ rest) [] + 2 <= u32_max /\ Z.of_nat (pipe_alloc DEFAULT_PIPE_CAPACITY k).1 < u32_max
  | _ => True
  end.

Definition lost (s : Sys) (c : desc_call) (r : kresult (Z * Z)) : list use :=
  match c, r with CPipe2 _, Err _ => lost_pipe (sy_kernel s) | _, _ => [] end.

Lemma keeps_reply t0 id0 rest m s (Q : kresult Z -> Sys -> Prop) :
  keeps t0 id0 rest m s Q ->
  keeps t0 id0 rest (reply m) s (fun r s' => match r with Ok (n, x) => x = 0 /\ Q (Ok n) s' | Err e => Q (Err e) s' end).
Proof.
  intros Hm. apply keeps_bind. eapply keeps_impl; [|exact Hm]. intros [n|e] s' D S Hq; [|done]. by apply (keeps_ret _ _ _ (Ok (n, 0))).
Qed.

Lemma fd_put_close (m : fd_map) fd e : fd_put (fd_close m fd) fd e = fd_put m fd e.
Proof. unfold fd_put, fd_close. destruct (fd_index fd); [|done]. apply insert_delete_eq. Qed.

(** The calls other than [pipe2]. *)
Lemma desc_keeps t0 id0 rest c s :
  (forall flags, c <> CPipe2 flags) -> descs_ok (sy_proc s) [] -> socks_ok (sy_proc s) ->
  keeps t0 id0 rest (desc_exec c) s (fun r s' => desc_spec (fds_of (sy_proc s)) c r (fds_of (sy_proc s'))).
Proof.
  intros Hc Hd Hs. destruct c as [fd|fd|oldfd newfd|oldfd newfd flags|fd cmd arg|flags]; [| | | | |by destruct (Hc flags)]; cbn [desc_exec desc_spec].
  - apply keeps_bind. eapply keeps_impl; [|by apply keeps_close_call]. intros r s' D S [Ep Hr]. rewrite Ep, close_proc_fds by done.
    destruct r as [[]|e]; [|split; [done|]; intros Hn; by injection (Hr Hn) as ->]. apply (keeps_ret _ _ _ (Ok (0, 0))); [done|done|]. rewrite Ep, close_proc_fds by done. split; [done|]. intros Hn. by specialize (Hr Hn).
  - eapply keeps_mono; [|apply keeps_reply; by apply keeps_dup]. cbv zeta. intros [[n x]|e] s'; destruct (fd_at _ fd) as [e0|]; [by intros (_ & ? & _)|by intros (_ & ? & _)|intros [Hq He]; split; [by apply He|done]|].
    intros [E ->]. by injection E as ->.
  - eapply keeps_mono; [|apply keeps_reply; by apply keeps_dup2]. cbv zeta. intros r s'. destruct (fd_at _ oldfd) as [e0|].
    + destruct (oldfd =? newfd); [destruct r as [[n x]|e]; [intros (-> & E & ?); injection E as ->; done|by intros [? _]]|].
      destruct r as [[n x]|e]; [|by intros [? _]]. intros (_ & (_ & _ & Hq) & Hn). specialize (Hn n eq_refl). subst n. by rewrite Hq, fd_put_close.
    + destruct r as [[n x]|e]; [by intros (_ & ? & _)|]. intros [E ?]. by injection E as ->.
  - eapply keeps_mono; [|apply keeps_reply; by apply keeps_dup3]. cbv zeta. intros r s'. destruct (negb _ || _); [destruct r as [[n x]|e]; [by intros (_ & ? & _)|]; intros [E ->]; by injection E as ->|].
    destruct (fd_at _ oldfd) as [e0|]; destruct r as [[n x]|e]; [intros (_ & -> & Hq); by rewrite Hq, fd_put_close|done|by intros (_ & ? & _)|intros [E ?]; by injection E as ->].
  - eapply keeps_mono; [|apply keeps_reply; by apply keeps_fcntl]. intros [[n x]|e] s'; [by intros [_ ?]|done].
Qed.

Lemma desc_pipe s rest flags :
  sys_ok s rest -> call_room s rest (CPipe2 flags) ->
  exists r s', sys_pipe2 flags s = Some (r, s') /\ desc_spec (fds_of (sy_proc s)) (CPipe2 flags) r (fds_of (sy_proc s')) /\ sys_ok s' (lost s (CPipe2 flags) r ++ rest).
Proof.
  intros Hok (Hrep & Hid & Hload & Hcap). destruct (pipe_ok s rest Hok Hrep Hid Hload Hcap) as (r & s1 & E & _ & _ & Hr).
  assert (sys_pipe2 flags = (let! x := sys_pipe in pipe_flags flags x)) as -> by done. unfold bind. rewrite E. destruct r as [x|e].
  - destruct Hr as (Hok1 & i & j & Hop & _). destruct (keeps_ok _ s1 rest _ Hok1 (keeps_pipe_flags _ _ rest flags x _ i j s1 (so_descs _ _ Hok1) (so_socks _ _ Hok1) Hop)) as (r & s2 & new & E2 & Hok2 & [-> Hq] & _).
    exists (Ok x), s2. split; [done|]. split; [by exists i, j|done].
  - destruct Hr as (-> & Hf & Hok1 & _). exists (Err EMFILE), s1. by split_and!.
Qed.

(** ** What the calls promise *)

(** C6: A close releases exactly what the descriptor was the last to hold.  When
    every counter of the machine is the number of its holders, closing a descriptor
    always answers; afterwards the descriptor is gone (and [EBADF] was the answer if
    it was not open), a description is there exactly when a descriptor refers to
    it, every counter is again the number of its holders, and the host was asked
    to close exactly the handles and connections that were held before and are not
    held after, each once. *)
Theorem close_exact fd s rest :
  sys_ok s rest ->
  exists r s' new, sys_close_with_locks fd s = Some (r, s') /\ sys_ok s' rest /\
    fds_of (sy_proc s') = fd_close (fds_of (sy_proc s)) fd /\ (fd_at (fds_of (sy_proc s)) fd = None -> r = Err EBADF) /\
    (forall i, is_Some (Ofd.get (pr_ofd_table (sy_proc s')) i) <-> refers (sy_proc s') i) /\
    sy_calls s' = new ++ sy_calls s /\
    let before := all_uses (sy_kernel s) (process_uses (k_pipes (sy_kernel s)) (sy_proc s) ++ rest) [] in
    let after := all_uses (sy_kernel s') (process_uses (k_pipes (sy_kernel s')) (sy_proc s') ++ rest) [] in
    closes UHandle before after (omap close_of (rev new)) /\ closes UNet before after (omap net_close_of (rev new)).
Proof.
  intros Hok. destruct (keeps_ok _ s rest _ Hok (keeps_close_call _ _ rest fd s (so_descs _ _ Hok) (so_socks _ _ Hok))) as (r & s' & new & E & Hok' & [Ep Hr] & Ec & _ & Hcl).
  exists r, s', new. split; [done|]. split; [done|]. split; [rewrite Ep; apply close_proc_fds, Hok|]. split; [done|]. split; [|done]. intros i. apply live_iff, Hok'.
Qed.

(** A session of calls, with what the machine holds beside the process. *)
Inductive desc_step : Sys * list use -> Sys * list use -> Prop :=
| DStep c s rest r s' : call_room s rest c -> desc_exec c s = Some (r, s') -> desc_step (s, rest) (s', lost s c r ++ rest).

Lemma desc_step_ok a b : desc_step a b -> sys_ok a.1 a.2 -> sys_ok b.1 b.2.
Proof.
  intros [c s rest r s' Hroom E] Hok. cbn [fst snd] in *.
  assert (exists r s', desc_exec c s = Some (r, s') /\ sys_ok s' (lost s c r ++ rest)) as (r2 & s2 & E2 & H2); [|congruence].
  destruct c as [fd|fd|oldfd newfd|oldfd newfd flags|fd cmd arg|flags]; [..|destruct (desc_pipe s rest flags Hok Hroom) as (r2 & s2 & E2 & _ & H2); by exists r2, s2];
  match goal with |- context [desc_exec ?c] =>
    destruct (keeps_ok _ s rest _ Hok (desc_keeps _ _ rest c s ltac:(done) (so_descs _ _ Hok) (so_socks _ _ Hok))) as (r2 & s2 & new & E2 & Hok' & _); by exists r2, s2 end.
Qed.

(** C8: Descriptor accounting holds over any session.  After any sequence of
    [close], [dup], [dup2], [dup3], [fcntl] and [pipe2] calls, whatever they
    answered, each description is counted once per descriptor that refers to it
    and is there exactly when one does, and every counter of the machine's tables
    is the number of its holders. *)
Theorem descriptor_session s rest s' rest' :
  rtc desc_step (s, rest) (s', rest') -> sys_ok s rest ->
  sys_ok s' rest' /\ forall i, match Ofd.get (pr_ofd_table (sy_proc s')) i with
    | Some o => ref_count o = fd_refs (fds_of (sy_proc s')) i /\ refers (sy_proc s') i
    | None => ~ refers (sy_proc s') i
    end.
Proof.
  intros Hr Hok. assert (forall a b, rtc desc_step a b -> sys_ok a.1 a.2 -> sys_ok b.1 b.2) as Hi by (induction 1; eauto using desc_step_ok).
  specialize (Hi _ _ Hr Hok). cbn [fst snd] in Hi. split; [done|]. intros i. pose proof (ds_counts _ _ (so_descs _ _ Hi) i) as Hc. unfold desc_refs, pending_refs in Hc. cbn in Hc.
  destruct (Ofd.get _ i); rewrite refers_iff; lia.
Qed.

End calls.

(** ** A session of [life_leader] *)

#[local] Instance answering_host : HostIO := { host_unit _ _ := Ok tt; host_stat _ _ := Err EIO; host_int _ _ := Err EIO; host_bytes _ _ := Err EIO; host_time _ _ := Err EIO }.

Definition sys_life : Sys := mkSys life_leader life_kernel Lock.new devices_new None [] ∅ ∅.

Lemma life_descs : descs_ok life_leader [].
Proof.
  split.
  - intros i Hi. vm_compute in Hi. set_solver.
  - vm_compute. discriminate.
  - intros fd e He. unfold fds_of in He. rewrite open_map_lookup in He. destruct (FdTable.entries _ !! fd) eqn:E; [|done]. apply lookup_lt_Some in E. cbn in E. lia.
  - intros i. destruct i as [|[|[|[|i]]]]; [vm_compute; done..|]. 
    assert (Ofd.get (pr_ofd_table life_leader) (S (S (S (S i)))) = None) as -> by done. unfold desc_refs, fd_refs. 
    assert (filter (fun x : nat * FdEntry => ofd_ref x.2 = S (S (S (S i)))) (fds_of life_leader) = ∅) as ->; [|done].
    apply map_empty_filter_2. intros fd e He. unfold fds_of in He. rewrite open_map_lookup in He. cbn [snd].
    destruct fd as [|[|[|[|fd]]]]; cbn in He; try injection He as <-; try done. 
Qed.

Lemma life_sys_ok : sys_ok sys_life [UHandle 9].
Proof.
  split.
  - exact life_descs.
  - split; [by intros [|i] si| |].
    + intros i j o o' Hi _ Et. exfalso. destruct i as [|[|[|[|i]]]]; [..|done]; injection Hi as <-; done.
    + intros o (i & Hi)%ofds_slot. destruct i as [|[|[|[|i]]]]; [..|done]; injection Hi as <-; try done; left; done.
  - intros o (i & Hi)%ofds_slot Et _ _. destruct i as [|[|[|[|i]]]]; [..|done]; injection Hi as <-; try done; vm_compute; by eexists.
  - exact life_leader_ok.
Qed.

(** The leader's own file is closed on the host; the shared one is not. *)
Lemma close_exact_witness :
  exists s' s2, sys_close_with_locks 2 sys_life = Some (Ok tt, s') /\ omap close_of (rev (sy_calls s')) = [8] /\ sys_ok s' [UHandle 9] /\
    sys_close_with_locks 3 s' = Some (Ok tt, s2) /\ omap close_of (rev (sy_calls s2)) = [8] /\ sys_ok s2 [UHandle 9].
Proof.
  destruct (close_exact 2 sys_life [UHandle 9] life_sys_ok) as (r & s' & new & E & Hok & _).
  destruct (close_exact 3 s' [UHandle 9] Hok) as (r2 & s2 & new2 & E2 & Hok2 & _).
  assert (match sys_close_with_locks 2 sys_life with
          | Some (Ok _, s') => omap close_of (rev (sy_calls s')) = [8] /\ match sys_close_with_locks 3 s' with Some (Ok _, s2) => omap close_of (rev (sy_calls s2)) = [8] | _ => False end
          | _ => False end) as Hc by (vm_compute; done).
  rewrite E in Hc. destruct r as [[]|]; [|done]. destruct Hc as [Hc1 Hc2]. rewrite E2 in Hc2. destruct r2 as [[]|]; [|done]. exists s', s2. by split_and!.
Defined.

(** The write end of the pipe replaces the read end and is closed. *)
Lemma descriptor_session_witness :
  exists s' rest', rtc desc_step (sys_life, [UHandle 9]) (s', rest') /\ sys_ok s' rest' /\ (ref_count <$> Ofd.get (pr_ofd_table (sy_proc s')) 1) = Some 1.
Proof.
  destruct (desc_exec (CDup2 1 0) sys_life) as [[r1 s1]|] eqn:E1; [|exfalso; revert E1; vm_compute; discriminate].
  destruct (desc_exec (CClose 1) s1) as [[r2 s2]|] eqn:E2; [|exfalso; revert E2; assert (match desc_exec (CDup2 1 0) sys_life with Some (_, s1) => desc_exec (CClose 1) s1 <> None | None => False end) as Hc by (vm_compute; discriminate); rewrite E1 in Hc; done].
  assert (rtc desc_step (sys_life, [UHandle 9]) (s2, [UHandle 9])) as Hr.
  { eapply rtc_l; [exact (DStep (CDup2 1 0) _ _ _ _ I E1)|]. eapply rtc_l; [exact (DStep (CClose 1) _ _ _ _ I E2)|]. apply rtc_refl. }
  exists s2, [UHandle 9]. split; [exact Hr|]. split; [apply (descriptor_session _ _ _ _ Hr life_sys_ok)|].
  assert (match desc_exec (CDup2 1 0) sys_life with Some (_, s1) => match desc_exec (CClose 1) s1 with Some (_, s2) => (ref_count <$> Ofd.get (pr_ofd_table (sy_proc s2)) 1) = Some 1 | None => False end | None => False end) as Hc by (vm_compute; done).
  by rewrite E1, E2 in Hc.
Defined.

(** ** Observations *)

(** A [pipe] refused for want of descriptors keeps its slot for ever. *)
Example failed_pipe_keeps_slot :
  let p := with_fds life_leader (set_max_fds (pr_fd_table life_leader) 4) in
  match sys_pipe (mkSys p life_kernel Lock.new devices_new None [] ∅ ∅) with
  | Some (Err EMFILE, s') => (fun b => (p_read_count b, p_write_count b)) <$> table_get (k_pipes (sy_kernel s')) 1
  | _ => None
  end = Some (1, 1).
Proof. vm_compute. reflexivity. Qed.

(** [F_DUPFD] with a negative argument succeeds. *)
Example dupfd_accepts_negative : (prod_map id (fun _ => tt) <$> sys_fcntl 0 F_DUPFD (2 ^ 32 - 1) sys_life) = Some (Ok 4, tt).
Proof. vm_compute. reflexivity. Qed.
