(* ===== verification/Answers.v ===== *)
(** * What the descriptor system calls answer

    A specification of [close], [dup], [dup2], [dup3], [fcntl] and [pipe2] over an
    abstract view of a process (the map of open descriptors with its reservations
    and its limit, and the contents of the descriptions, their counts aside): each
    call's answer on every branch, errors included, and the view it leaves.  The
    definitions of [Descriptors.v] implement it. *)

From stdpp Require Import fin_maps.
From S2P Require Import Prelude Bytes Abi FdTable Lock Ofd Wakeup Pipe PipeTable Memory Terminal Signal Backing Socket Names Mqueue Pshared Process Dri Devices Kernel Accounts ProcTable Lifecycle Fork Sys Descriptors Releases Syscalls.

(** ** The specification *)

Record DescView := mkView {
  dv_fds : FdSpec;
  dv_desc : nat -> option OpenFileDesc;
}.

Definition view (p : Process) : DescView := mkView (abs (pr_fd_table p)) (fun i => bare <$> Ofd.get (pr_ofd_table p) i).

Definition opened (v : DescView) (fd : Z) : option FdEntry := fd_at (open_fds (dv_fds v)) fd.
Definition same_descs (v v' : DescView) : Prop := forall i, dv_desc v' i = dv_desc v i.
Definition unchanged (v v' : DescView) : Prop := dv_fds v' = dv_fds v /\ same_descs v v'.

(** A description may go; one that stays is what it was. *)
Definition remaining (v v' : DescView) : Prop := forall i o, dv_desc v' i = Some o -> dv_desc v i = Some o.

Definition set_open (f : FdSpec) (m : fd_map) : FdSpec := mkFdSpec m (pending_fds f) (limit f).

(** The lowest descriptor from [min] on that is neither open nor reserved, or
    [EMFILE] when there is none below the limit. *)
Definition lowest_given (v : DescView) (min : Z) (e : FdEntry) (r : kresult Z) (v' : DescView) : Prop :=
  same_descs v v' /\
  ((exists i, lowest (dv_fds v) (Z.to_nat (Z.max min 0)) i /\ r = Ok (Z.of_nat i) /\ dv_fds v' = spec_open (dv_fds v) i e) \/
   (exhausted (dv_fds v) (Z.to_nat (Z.max min 0)) /\ r = Err EMFILE /\ dv_fds v' = dv_fds v)).

(** The descriptor asked for, when the limit allows it and no open in progress
    has reserved it. *)
Definition asked_given (f : FdSpec) (fd : Z) (e : FdEntry) (r : kresult Z) (f' : FdSpec) : Prop :=
  match fd_index fd with
  | Some i =>
      if decide (i < limit f)%nat then
        if decide (i ∈ pending_fds f) then r = Err EBUSY /\ f' = f else r = Ok fd /\ f' = spec_open f i e
      else r = Err EBADF /\ f' = f
  | None => r = Err EBADF /\ f' = f
  end.

(** The descriptor flags that open flags ask for. *)
Definition close_flags (flags : Z) : Z :=
  (if decide (Z.land flags O_CLOEXEC = 0) then 0 else FD_CLOEXEC) + (if decide (Z.land flags O_CLOFORK = 0) then 0 else FD_CLOFORK).

Definition fcntl_cmds : list Z := [F_DUPFD; F_GETFD; F_SETFD; F_GETFL; F_SETFL; F_SETOWN; F_GETOWN; F_DUPFD_CLOEXEC; F_DUPFD_CLOFORK].

(** [F_SETFL] changes two bits. *)
Definition setfl_spec (old arg new : Z) : Prop :=
  forall n, 0 <= n -> Z.testbit new n = if Z.testbit O_APPEND n || Z.testbit O_NONBLOCK n then Z.testbit arg n else Z.testbit old n.

(** Description [i] becomes [o]. *)
Definition becomes (v : DescView) (i : nat) (o : OpenFileDesc) (v' : DescView) : Prop :=
  dv_fds v' = dv_fds v /\ forall j, dv_desc v' j = if (j =? i)%nat then Some o else dv_desc v j.

(** The commands on the description [o] of a descriptor; a descriptor opened with
    [O_PATH] only tells its flags. *)
Definition fcntl_desc (v : DescView) (i : nat) (o : OpenFileDesc) (cmd arg : Z) (r : kresult Z) (v' : DescView) : Prop :=
  if cmd =? F_GETFL then r = Ok (as_i32 (status_flags o)) /\ unchanged v v'
  else if negb (Z.land (status_flags o) O_PATH =? 0) then r = Err EBADF /\ unchanged v v'
  else if cmd =? F_GETOWN then r = Ok (as_i32 (owner_pid o)) /\ unchanged v v'
  else if cmd =? F_SETOWN then r = Ok 0 /\ becomes v i (with_owner_pid o arg) v'
  else r = Ok 0 /\ exists new, setfl_spec (status_flags o) arg new /\ becomes v i (with_flags o new) v'.

Definition fcntl_spec (v : DescView) (fd cmd arg : Z) (r : kresult Z) (v' : DescView) : Prop :=
  if decide (cmd ∈ fcntl_cmds) then
    match opened v fd with
    | None => r = Err EBADF /\ unchanged v v'
    | Some e =>
        if is_dupfd cmd then lowest_given v (as_i32 arg) (mkFdEntry (ofd_ref e) (dupfd_flags cmd)) r v'
        else if cmd =? F_GETFD then r = Ok (as_i32 (fd_flags e)) /\ unchanged v v'
        else if cmd =? F_SETFD then
          r = Ok 0 /\ same_descs v v' /\ dv_fds v' = set_open (dv_fds v) (fd_put (open_fds (dv_fds v)) fd (mkFdEntry (ofd_ref e) arg))
        else exists o, dv_desc v (ofd_ref e) = Some o /\ fcntl_desc v (ofd_ref e) o cmd arg r v'
    end
  else r = Err EINVAL /\ unchanged v v'.

Definition dup_spec (v : DescView) (fd : Z) (r : kresult Z) (v' : DescView) : Prop :=
  match opened v fd with
  | None => r = Err EBADF /\ unchanged v v'
  | Some e => lowest_given v 0 (mkFdEntry (ofd_ref e) 0) r v'
  end.

(** [newfd] is closed first, even when it cannot be given afterwards. *)
Definition replaced (v : DescView) (e : FdEntry) (newfd flags : Z) (r : kresult Z) (v' : DescView) : Prop :=
  remaining v v' /\ asked_given (set_open (dv_fds v) (fd_close (open_fds (dv_fds v)) newfd)) newfd (mkFdEntry (ofd_ref e) flags) r (dv_fds v').

Definition dup2_spec (v : DescView) (oldfd newfd : Z) (r : kresult Z) (v' : DescView) : Prop :=
  match opened v oldfd with
  | None => r = Err EBADF /\ unchanged v v'
  | Some e => if oldfd =? newfd then r = Ok newfd /\ unchanged v v' else replaced v e newfd 0 r v'
  end.

Definition dup3_spec (v : DescView) (oldfd newfd flags : Z) (r : kresult Z) (v' : DescView) : Prop :=
  if decide (Z.ldiff flags (Z.lor O_CLOEXEC O_CLOFORK) = 0 /\ oldfd <> newfd) then
    match opened v oldfd with
    | None => r = Err EBADF /\ unchanged v v'
    | Some e => replaced v e newfd (close_flags flags) r v'
    end
  else r = Err EINVAL /\ unchanged v v'.

(** An open descriptor closes, and the answer is [Ok] unless the host refused to
    close the handle of its description ([refused h e]: the host answered [e] when
    asked to close [h]). *)
Definition close_spec (refused : Z -> Errno -> Prop) (v : DescView) (fd : Z) (r : kresult unit) (v' : DescView) : Prop :=
  dv_fds v' = set_open (dv_fds v) (fd_close (open_fds (dv_fds v)) fd) /\ remaining v v' /\
  match opened v fd with
  | None => r = Err EBADF
  | Some e => r = Ok tt \/ exists o err, dv_desc v (ofd_ref e) = Some o /\ refused (host_handle o) err /\ r = Err err
  end.

(** Two new descriptions, the ends of one pipe, in the two lowest descriptors. *)
Definition pipe_spec (v : DescView) (flags : Z) (r : kresult (Z * Z)) (v' : DescView) : Prop :=
  match r with
  | Ok x => exists m n i j a b h,
      let nonblock := if decide (Z.land flags O_NONBLOCK = 0) then 0 else O_NONBLOCK in
      let e1 := mkFdEntry i (close_flags flags) in
      let e2 := mkFdEntry j (close_flags flags) in
      x = (Z.of_nat m, Z.of_nat n) /\ two_lowest (dv_fds v) e1 m n /\ dv_fds v' = spec_open (spec_open (dv_fds v) m e1) n e2 /\
      i <> j /\ dv_desc v i = None /\ dv_desc v j = None /\
      pipe_end a (Z.lor O_RDONLY nonblock) h /\ pipe_end b (Z.lor O_WRONLY nonblock) h /\ h < 0 /\
      forall k, dv_desc v' k = if (k =? j)%nat then Some b else if (k =? i)%nat then Some a else dv_desc v k
  | Err e => e = EMFILE /\ (exists e, no_two (dv_fds v) e) /\ unchanged v v'
  end.

Definition pair_of (r : kresult Z) : kresult (Z * Z) := match r with Ok n => Ok (n, 0) | Err e => Err e end.

Definition call_spec (refused : Z -> Errno -> Prop) (v : DescView) (c : desc_call) (r : kresult (Z * Z)) (v' : DescView) : Prop :=
  match c with
  | CClose fd => exists x, close_spec refused v fd x v' /\ r = match x with Ok _ => Ok (0, 0) | Err e => Err e end
  | CDup fd => exists x, dup_spec v fd x v' /\ r = pair_of x
  | CDup2 oldfd newfd => exists x, dup2_spec v oldfd newfd x v' /\ r = pair_of x
  | CDup3 oldfd newfd flags => exists x, dup3_spec v oldfd newfd flags x v' /\ r = pair_of x
  | CFcntl fd cmd arg => exists x, fcntl_spec v fd cmd arg x v' /\ r = pair_of x
  | CPipe2 flags => pipe_spec v flags r v'
  end.

(** ** The tables *)

Lemma set_open_same f : set_open f (open_fds f) = f.
Proof. by destruct f. Qed.

Lemma unchanged_refl v : unchanged v v.
Proof. by split. Qed.

Lemma opened_view p fd : opened (view p) fd = fd_at (fds_of p) fd.
Proof. done. Qed.

Lemma open_view p : open_fds (dv_fds (view p)) = fds_of p.
Proof. done. Qed.

Lemma spec_open_put f i e : spec_open f i e = set_open f (fd_put (open_fds f) (Z.of_nat i) e).
Proof. unfold fd_put. by rewrite fd_index_of_nat. Qed.

Lemma set_flags_abs t fd flags e :
  fd_at (open_map (FdTable.entries t)) fd = Some e ->
  abs (set_fd_flags flags t fd) = set_open (abs t) (fd_put (open_map (FdTable.entries t)) fd (mkFdEntry (ofd_ref e) flags)).
Proof.
  unfold set_fd_flags, FdTable.get_mut, fd_at, fd_put, set_open, abs. destruct (fd_index fd) as [i|]; [|done]. cbn [mbind option_bind]. rewrite open_map_lookup.
  destruct (FdTable.entries t !! i) as [[e0|]|] eqn:Ei; [|done|done]. intros [= ->]. cbn [set_entries FdTable.entries reserved max_fds pending_fds limit].
  by rewrite open_map_insert by (by eapply lookup_lt_Some).
Qed.

Lemma free_frame t fd : reserved (FdTable.free t fd).1 = reserved t /\ max_fds (FdTable.free t fd).1 = max_fds t.
Proof. unfold FdTable.free. destruct (fd_index fd) as [i|]; [|done]. by destruct (FdTable.entries t !! i). Qed.

Lemma alloc_given t idx flags min t' r :
  fd_wf t -> Z.of_nat (max_fds t) <= 2 ^ 31 -> alloc_at_min t idx flags min = (t', r) ->
  (exists i, lowest (abs t) (Z.to_nat (Z.max min 0)) i /\ r = Ok (Z.of_nat i) /\ abs t' = spec_open (abs t) i (mkFdEntry idx flags)) \/
  (exhausted (abs t) (Z.to_nat (Z.max min 0)) /\ r = Err EMFILE /\ abs t' = abs t).
Proof.
  intros Hw Hm E. pose proof (alloc_open t idx flags min Hw Hm) as Ha. rewrite E in Ha. destruct (alloc_at_min_refines _ _ _ _ _ _ Hw Hm E) as [_ Hs]. destruct r as [fd|e].
  - destruct Ha as (_ & _ & i & -> & _). left. exists i. destruct (alloc_inv _ _ _ _ _ _ Hs). by split_and!.
  - right. destruct (full_inv _ _ _ _ _ _ Hs) as (? & -> & ?). by split_and!.
Qed.

Lemma place_at_given t idx newfd : asked_given (abs t) newfd (mkFdEntry idx 0) (place_at idx newfd t).2 (abs (place_at idx newfd t).1).
Proof.
  unfold place_at, set_at, asked_given. destruct (fd_index newfd) as [i|]; [|done]. cbn [abs limit pending_fds].
  destruct (Nat.leb_spec (max_fds t) i) as [Hle|Hlt]; [destruct (decide _); [lia|done]|]. destruct (decide (i < max_fds t)%nat); [|lia].
  destruct (decide (i ∈ reserved t)) as [Hin|Hn]; [rewrite bool_decide_eq_true_2 by done|rewrite bool_decide_eq_false_2 by done]; (split; [done|]).
  - unfold abs. cbn [fst set_entries FdTable.entries reserved max_fds]. by rewrite open_map_extend.
  - unfold abs, spec_open. cbn [fst set_entries FdTable.entries reserved max_fds open_fds pending_fds limit].
    rewrite open_map_insert by (rewrite extend_to_length; lia). by rewrite open_map_extend.
Qed.

Lemma asked_flags f fd idx fl fl' r f' :
  asked_given f fd (mkFdEntry idx fl) r f' ->
  asked_given f fd (mkFdEntry idx fl') r (match r with Ok _ => set_open f' (fd_put (open_fds f') fd (mkFdEntry idx fl')) | Err _ => f' end).
Proof.
  unfold asked_given. destruct (fd_index fd) as [i|] eqn:Ei; [|by intros [-> ->]]. repeat destruct (decide _); intros [-> ->]; try done. split; [done|].
  unfold set_open, spec_open, fd_put. rewrite Ei. cbn. by rewrite insert_insert_eq.
Qed.

Section calls.
Context `{Usize} `{HostIO}.

(** *** A close *)

Lemma close_view p fd :
  descs_ok p [] ->
  dv_fds (view (close_proc p fd)) = set_open (dv_fds (view p)) (fd_close (fds_of p) fd) /\ remaining (view p) (view (close_proc p fd)).
Proof.
  intros Hd. rewrite <- close_proc_fds by done. pose proof (close_finds p fd Hd) as Hf. destruct (FdTable.get (pr_fd_table p) fd) as [e|].
  2:{ unfold close_proc. rewrite Hf. split; [exact (eq_sym (set_open_same (abs _)))|by intros i o]. }
  destruct Hf as (t & o & table & freed & Hc). rewrite (close_proc_eq _ _ _ _ _ _ _ Hc). destruct (free_frame (pr_fd_table p) fd) as [F1 F2]. rewrite (cl_free _ _ _ _ _ _ _ Hc) in F1, F2. cbn [fst] in F1, F2.
  set (q := with_ofds (with_fds p t) table). destruct (closed_process_fields q o) as (E1 & E2 & _).
  assert (forall q', pr_fd_table q' = pr_fd_table q -> pr_ofd_table q' = pr_ofd_table q ->
    dv_fds (view q') = set_open (dv_fds (view p)) (fds_of q') /\ remaining (view p) (view q')) as Hq.
  { intros q' G1 G2. unfold view, abs, set_open, fds_of. cbn [dv_fds pending_fds limit]. rewrite G1. cbn [q with_ofds with_fds with_descriptors pr_fd_table]. rewrite F1, F2. split; [done|].
    intros i o'. cbn [dv_desc]. rewrite G2. cbn [q with_ofds with_descriptors pr_ofd_table]. rewrite (cl_table _ _ _ _ _ _ _ Hc).
    destruct (Nat.eqb_spec i (ofd_ref e)) as [->|]; [|done]. destruct freed; [done|]. by rewrite (cl_get _ _ _ _ _ _ _ Hc). }
  by destruct freed; apply Hq.
Qed.

(** Computations that answer, and whose requests to the host come after those
    already made. *)
Definition answers {A} (m : M A) : Prop := forall s r s', m s = Some (r, s') -> (exists a, r = Ok a) /\ exists new, sy_calls s' = new ++ sy_calls s.

Lemma answers_ret {A} (a : A) : answers (ret a).
Proof. intros s r s' [= <- <-]. split; [by eexists|by exists []]. Qed.
Lemma answers_gets {A} (f : Sys -> A) : answers (gets f).
Proof. intros s r s' [= <- <-]. split; [by eexists|by exists []]. Qed.
Lemma answers_modify f : (forall s, sy_calls (f s) = sy_calls s) -> answers (modify f).
Proof. intros Hf s r s' [= <- <-]. split; [by eexists|exists []; apply Hf]. Qed.
Lemma answers_on_proc f : answers (on_proc f).
Proof. by apply answers_modify. Qed.
Lemma answers_on_kernel f : answers (on_kernel f).
Proof. by apply answers_modify. Qed.
Lemma answers_kernel {A} (f : Kernel -> A * Kernel) : answers (kernel_result (fun k => let '(a, k) := f k in (Ok a, k))).
Proof. intros s r s'. unfold kernel_result. destruct (f _) as [a k]. intros [= <- <-]. split; [by eexists|by exists []]. Qed.
Lemma answers_tell q : answers (tell_host q).
Proof. intros s r s' [= <- <-]. split; [by eexists|by exists [q]]. Qed.

Lemma answers_bind {A B} (m : M A) (f : A -> M B) : answers m -> (forall a, answers (f a)) -> answers (bind m f).
Proof.
  intros Hm Hf s r s'. unfold bind. destruct (m s) as [[x s1]|] eqn:E; [|done]. destruct (Hm _ _ _ E) as ([a ->] & new & En). intros E2.
  destruct (Hf a _ _ _ E2) as (Hr & new2 & En2). split; [done|]. exists (new2 ++ new). by rewrite En2, En, app_assoc.
Qed.

Lemma answers_call q : answers (attempt (call_host q) >; ret tt).
Proof. intros s r s' [= <- <-]. split; [by eexists|by exists [q]]. Qed.

Lemma answers_for_each {A} (f : A -> M unit) l : (forall x, answers (f x)) -> answers (for_each f l).
Proof. intros Hf. induction l as [|x l IH]; [apply answers_ret|]. by apply answers_bind. Qed.

(** The parts of a close that answer whatever happens. *)
Lemma answers_file_id o : answers (close_file_id o).
Proof.
  unfold close_file_id. destruct (_ && _); [|apply answers_ret]. intros s r s' [= <- <-]. split; [by eexists|by exists [RqFstat (host_handle o)]].
Qed.

Lemma answers_remove_locks f : answers (remove_locks f).
Proof.
  intros s r s'. unfold remove_locks, publish_advisory_lock_mutation. destruct (f _) as [l mu]. destruct (may_unblock mu); intros [= <- <-]; (split; [by eexists|by exists []]).
Qed.

Lemma answers_final_locks locks id : answers (release_final_ofd_locks locks id).
Proof. unfold release_final_ofd_locks. destruct locks; [apply answers_remove_locks|apply answers_ret]. Qed.

Lemma answers_release_bo pid id : answers (release_bo pid id).
Proof.
  intros s r s'. unfold release_bo. destruct (decref _ _) as [n k]. intros [= <- <-]. split; [by eexists|]. case_bool_decide; [by eexists [_]|by exists []].
Qed.

Lemma answers_release_handles pid d : answers (release_handles pid d).
Proof. apply answers_for_each. intros. apply answers_release_bo. Qed.

Lemma answers_release_gl pid d : answers (release_gl pid d).
Proof. unfold release_gl. destruct (dri_gl d); [apply answers_tell|apply answers_ret]. Qed.

Lemma answers_release_master pid i holds : answers (release_master pid i holds).
Proof.
  intros s r s'. unfold release_master. destruct (release_if_held _ _ _ _) as [told m]. intros [= <- <-]. split; [by eexists|]. destruct told; [by eexists [_]|by exists []].
Qed.

Lemma answers_dri pid i st : answers (dri_release_ofd_state pid i st).
Proof.
  unfold dri_release_ofd_state. destruct st as [[b|d|d k]|]; [apply answers_release_bo| | |apply answers_ret].
  - apply answers_bind; [apply answers_release_gl|intros; apply answers_release_handles].
  - apply answers_bind; [apply answers_for_each; intros; apply answers_bind; [apply answers_release_bo|intros; apply answers_tell]|intros _].
    apply answers_bind; [apply answers_release_master|intros _]. apply answers_bind; [apply answers_release_gl|intros; apply answers_release_handles].
Qed.

Lemma answers_host_handle h : answers (close_host_handle h).
Proof.
  intros s r s'. unfold close_host_handle, kernel_result. destruct (host_handle_close_ref _ _) as [b hs]. intros [= <- <-]. split; [by eexists|by exists []].
Qed.

Lemma answers_net_handle h : answers (close_net_handle h).
Proof. intros s r s'. unfold close_net_handle, kernel_result. destruct (host_net_handle_close_ref _ _) as [b hs]. intros [= <- <-]. split; [by eexists|by exists []]. Qed.

Lemma answers_backing o : answers (release_backing o).
Proof. intros s r s'. unfold release_backing, kernel_result. destruct (release_for_ofd _ _ _) as [b hs]. intros [= <- <-]. split; [by eexists|by exists []]. Qed.

Lemma answers_close_pipe o : answers (close_pipe o).
Proof.
  unfold close_pipe. destruct (_ <=? _); [|apply answers_on_kernel]. apply answers_bind; [apply answers_host_handle|]. intros [|]; [apply answers_call|apply answers_ret].
Qed.

Lemma answers_release_socket i si : answers (release_socket i si).
Proof.
  unfold release_socket. apply answers_bind; [apply answers_gets|intros p]. apply answers_bind; [apply answers_on_kernel|intros _].
  apply answers_bind; [destruct (sk_domain si), (sk_type si); apply answers_call || apply answers_ret|intros _].
  apply answers_bind; [destruct (sk_host_net_handle si); [apply answers_bind; [apply answers_net_handle|intros [|]; [apply answers_call|apply answers_ret]]|apply answers_ret]|intros _].
  apply answers_bind; [apply answers_on_kernel|intros _; apply answers_on_kernel].
Qed.

Lemma answers_close_socket o : answers (close_socket o).
Proof.
  unfold close_socket. cbv zeta. apply answers_bind; [apply answers_gets|intros p].
  apply answers_bind; [destruct (socket_get _ _); [apply answers_release_socket|apply answers_ret]|intros _]. apply answers_bind; [apply answers_on_proc|intros _].
  apply answers_bind; [intros s r s' [= <- <-]; split; [by eexists|by exists []]|intros _].
  destruct (socket_get _ _) as [si|]; [|apply answers_ret]. destruct (is_unix_dgram si); [apply answers_on_kernel|apply answers_ret].
Qed.

(** The host refused, in this run, to close [h]. *)
Definition host_refused (s s' : Sys) (h : Z) (e : Errno) : Prop :=
  exists new past, sy_calls s' = new ++ RqClose h :: past ++ sy_calls s /\ host_unit (past ++ sy_calls s) (RqClose h) = Err e.

(** A computation that answers, or was refused by the host. *)
Definition refused_at {A} (m : M A) (s : Sys) (h : Z) : Prop := forall r s', m s = Some (r, s') ->
  (exists new, sy_calls s' = new ++ sy_calls s) /\ forall e, r = Err e -> host_refused s s' h e.
Definition refused_by {A} (m : M A) (h : Z) : Prop := forall s, refused_at m s h.

Lemma refused_answers {A} (m : M A) h : answers m -> refused_by m h.
Proof. intros Hm s r s' E. destruct (Hm _ _ _ E) as ([a ->] & Hn). by split. Qed.

Lemma refused_bind_at {A B} (m : M A) (f : A -> M B) s h :
  refused_at m s h -> (forall a s1, m s = Some (Ok a, s1) -> refused_at (f a) s1 h) -> refused_at (bind m f) s h.
Proof.
  intros Hm Hf r s'. unfold bind. destruct (m s) as [[[a|e] s1]|] eqn:E; [| |done]; destruct (Hm _ _ E) as ([new En] & He).
  - intros E2. destruct (Hf a _ eq_refl _ _ E2) as ([new2 En2] & He2). split; [exists (new2 ++ new); by rewrite En2, En, app_assoc|].
    intros e' (n & past & Ec & Eh)%He2. exists n, (past ++ new). by rewrite <- app_assoc, <- En.
  - intros [= <- <-]. split; [by exists new|]. intros e' [= <-]. by apply He.
Qed.

Lemma refused_bind {A B} (m : M A) (f : A -> M B) h : refused_by m h -> (forall a, refused_by (f a) h) -> refused_by (bind m f) h.
Proof. intros Hm Hf s. apply refused_bind_at; [apply Hm|]. intros. apply Hf. Qed.

Lemma refused_close h : refused_by (call_host (RqClose h)) h.
Proof. intros s r s' [= <- <-]. split; [by exists [RqClose h]|]. intros e Ee. exists [], []. by split. Qed.

Lemma refused_close_file locks o : refused_by (close_file locks o) (host_handle o).
Proof.
  unfold close_file. cbv zeta. apply refused_bind; [apply refused_answers; destruct (_ <=? _); [apply answers_call|apply answers_ret]|intros _].
  destruct (_ && _). { apply refused_answers, answers_bind; [apply answers_backing|]. intros [|]; [apply answers_final_locks|apply answers_ret]. }
  destruct (_ || _); [apply refused_answers, answers_ret|]. destruct (_ && _); [apply refused_answers, answers_ret|].
  apply refused_bind; [apply refused_answers, answers_host_handle|]. intros [|]; [|apply refused_answers, answers_ret].
  apply refused_bind; [apply refused_answers, answers_final_locks|intros _; apply refused_close].
Qed.

Lemma refused_close_resource locks o : refused_by (close_resource locks o) (host_handle o).
Proof.
  unfold close_resource. destruct (file_type o); try apply refused_close_file; apply refused_answers;
    try (apply answers_close_pipe || apply answers_close_socket || apply answers_on_kernel || apply answers_on_proc).
  all: apply answers_bind; [apply answers_backing|]; try (intros; apply answers_ret). intros [|]; [apply answers_final_locks|apply answers_ret].
Qed.

(** A close of an open descriptor fails only as the host does. *)
Lemma close_refused locks fd s r s' e o err :
  fd_at (fds_of (sy_proc s)) fd = Some e -> Ofd.get (pr_ofd_table (sy_proc s)) (ofd_ref e) = Some o -> fd_wf (pr_fd_table (sy_proc s)) ->
  sys_close_impl locks fd s = Some (r, s') -> r = Err err -> host_refused s s' (host_handle o) err.
Proof.
  intros He Ho Hw. pose proof (free_open (pr_fd_table (sy_proc s)) fd Hw) as Hf. rewrite fd_at_get, He in Hf. destruct Hf as (i & t & _ & _ & Ef & _).
  intros E ->. assert (refused_at (sys_close_impl locks fd) s (host_handle o)) as Hr; [clear E|exact (proj2 (Hr _ _ E) err eq_refl)].
  unfold sys_close_impl. set (s1 := set_proc s (with_fds (sy_proc s) t)).
  assert (fd_result (fun t => FdTable.free t fd) s = Some (Ok (ofd_ref e), s1)) as E1 by (unfold fd_result, proc_result; by rewrite Ef).
  apply refused_bind_at; [intros r1 s1'; rewrite E1; intros [= <- <-]; split; [by exists []|done]|]. intros a s1'. rewrite E1. intros [= <- <-].
  apply refused_bind_at; [apply refused_answers, answers_gets|]. intros p s1' [= <- <-].
  assert (Ofd.get (pr_ofd_table (sy_proc s1)) (ofd_ref e) = Some o) as Ho1 by done.
  assert (lift (ok_or (Ofd.get (pr_ofd_table (sy_proc s1)) (ofd_ref e)) EBADF) s1 = Some (Ok o, s1)) as E2 by (unfold lift; by rewrite Ho1).
  apply refused_bind_at; [intros r1 s1' Er; pose proof (eq_trans (eq_sym E2) Er) as Ex; injection Ex as <- <-; split; [by exists []|done]|].
  intros a s1' Er. pose proof (eq_trans (eq_sym E2) Er) as Ex. injection Ex as <- <-. clear Er.
  apply refused_bind_at; [apply refused_answers, answers_file_id|]. intros fid s2 E3.
  assert (sy_proc s2 = sy_proc s1) as P2.
  { revert E3. unfold close_file_id. destruct (_ && _); by intros [= _ <-]. }
  apply refused_bind_at.
  { intros r2 s3. unfold take_dri_state, bind, gets, lift. rewrite P2, Ho1. cbn [ok_or]. destruct (ref_count o =? 1); intros [= <- <-]; (split; [by exists []|done]). }
  intros st s3 _. apply refused_bind; [apply refused_answers; destruct fid; [destruct locks; [apply answers_remove_locks|apply answers_ret]|apply answers_ret]|intros _].
  apply refused_bind.
  { apply refused_answers. intros q r2 q'. unfold dec_ref_ofd, proc_result. destruct (dec_ref _ _) as [f t']. intros [= <- <-]. split; [by eexists|by exists []]. }
  intros [|]; (apply refused_bind; [|intros _; apply refused_answers, answers_modify; done]); [|apply refused_answers, answers_ret].
  apply refused_bind; [apply refused_answers, answers_dri|intros _; apply refused_close_resource].
Qed.

(** *** Each call *)

Lemma keeps_det {A} t0 id0 rest (m : M A) s Q r s' : keeps t0 id0 rest m s Q -> m s = Some (r, s') -> Q r s'.
Proof. intros (r2 & s2 & E2 & _ & _ & _ & _ & Hq) E. rewrite E2 in E. injection E as <- <-. exact Hq. Qed.

Lemma fd_entry_step {B} (f : FdEntry -> M B) fd s :
  (let! e := fd_entry fd in f e) s = match fd_at (fds_of (sy_proc s)) fd with Some e => f e s | None => Some (Err EBADF, s) end.
Proof. unfold fd_entry, bind, gets, lift. rewrite fd_at_get. by destruct (fd_at _ fd). Qed.

Lemma duplicate_given e flags place s r s' :
  let p := sy_proc s in
  descs_ok p [] -> socks_ok p -> refers p (ofd_ref e) -> places (pr_fd_table p) (ofd_ref e) flags place ->
  duplicate (ofd_ref e) place s = Some (r, s') ->
  (place (pr_fd_table p)).2 = r /\ dv_fds (view (sy_proc s')) = abs (place (pr_fd_table p)).1 /\ same_descs (view p) (view (sy_proc s')).
Proof.
  cbv zeta. intros Hd Hs Hr Hp E. destruct (keeps_det _ _ _ _ _ _ _ _ (keeps_duplicate (k_pipes (sy_kernel s)) 0 [] e flags place s Hd Hs Hr Hp) E) as (_ & H1 & _ & H2 & H3).
  split; [done|]. split; [|exact H3]. unfold view. cbn [dv_fds]. by rewrite H2.
Qed.

Lemma dupfd_given e flags min s r s' :
  descs_ok (sy_proc s) [] -> socks_ok (sy_proc s) -> refers (sy_proc s) (ofd_ref e) ->
  duplicate (ofd_ref e) (fun t => alloc_at_min t (ofd_ref e) flags min) s = Some (r, s') ->
  lowest_given (view (sy_proc s)) min (mkFdEntry (ofd_ref e) flags) r (view (sy_proc s')).
Proof.
  intros Hd Hs Hr E. destruct (duplicate_given e flags _ s r s' Hd Hs Hr (places_alloc _ _ flags min Hd) E) as (H1 & H2 & H3). split; [done|].
  destruct (alloc_at_min _ _ _ _) as [t' r'] eqn:Ea. cbn [fst snd] in H1, H2. subst r'. rewrite H2. by apply (alloc_given (pr_fd_table (sy_proc s)) (ofd_ref e) flags min t' r (ds_wf _ _ Hd) (ds_max _ _ Hd) Ea).
Qed.

Lemma dup_answer fd s r s' :
  descs_ok (sy_proc s) [] -> socks_ok (sy_proc s) -> sys_dup fd s = Some (r, s') -> dup_spec (view (sy_proc s)) fd r (view (sy_proc s')).
Proof.
  intros Hd Hs. unfold sys_dup, dup_spec. rewrite fd_entry_step, opened_view. destruct (fd_at _ fd) as [e|] eqn:Ee; [|intros [= <- <-]; by split].
  intros E. eapply dupfd_given; [done|done|by eapply refers_at|exact E].
Qed.

Lemma close_call_view fd s r s' :
  descs_ok (sy_proc s) [] -> socks_ok (sy_proc s) -> sys_close_with_locks fd s = Some (r, s') ->
  sy_proc s' = close_proc (sy_proc s) fd /\ (fd_at (fds_of (sy_proc s)) fd = None -> r = Err EBADF).
Proof. intros Hd Hs E. exact (keeps_det _ _ _ _ _ _ _ _ (keeps_close_call (k_pipes (sy_kernel s)) 0 [] fd s Hd Hs) E). Qed.

Lemma close_answer fd s r s' :
  descs_ok (sy_proc s) [] -> socks_ok (sy_proc s) -> sys_close_with_locks fd s = Some (r, s') ->
  close_spec (host_refused s s') (view (sy_proc s)) fd r (view (sy_proc s')).
Proof.
  intros Hd Hs E. destruct (close_call_view fd s r s' Hd Hs E) as [Ep Hn]. destruct (close_view _ fd Hd) as [V1 V2]. unfold close_spec. rewrite Ep, open_view. split; [exact V1|]. split; [exact V2|].
  rewrite opened_view. destruct (fd_at _ fd) as [e|] eqn:Ee; [|by apply Hn]. destruct r as [[]|err]; [by left|right].
  assert (exists i, fds_of (sy_proc s) !! i = Some e) as [i Hi] by (revert Ee; unfold fd_at; destruct (fd_index fd) as [i|]; [by exists i|done]).
  destruct (counted_live _ _ _ _ _ (ds_counts _ _ Hd) Hi) as [o Ho]. exists (bare o), err. split; [unfold view; cbn [dv_desc]; by rewrite Ho|]. split; [|done].
  revert E. unfold sys_close_with_locks, bind, attempt. destruct (sys_close_impl true fd s) as [[r1 s1]|] eqn:E1; [|done].
  destruct (does_drain (k_pipes (sy_kernel s)) 0 s1 []) as (x & s2 & E2 & (new & En & _) & -> & _). rewrite E2. unfold lift. intros [= -> <-].
  destruct (close_refused true fd s _ s1 e o err Ee Ho (ds_wf _ _ Hd) E1 eq_refl) as (n & past & Ec & Eh). exists (new ++ n), past. by rewrite En, Ec, app_assoc.
Qed.

Lemma dup2_answer locks oldfd newfd s r s' :
  descs_ok (sy_proc s) [] -> socks_ok (sy_proc s) -> sys_dup2_impl locks oldfd newfd s = Some (r, s') ->
  dup2_spec (view (sy_proc s)) oldfd newfd r (view (sy_proc s')).
Proof.
  intros Hd Hs. unfold sys_dup2_impl, dup2_spec. rewrite fd_entry_step, opened_view. destruct (fd_at _ oldfd) as [e|] eqn:Ee; [|intros [= <- <-]; by split].
  destruct (Z.eqb_spec oldfd newfd) as [->|Hne]; [intros [= <- <-]; by split|].
  set (m := if locks then sys_close_with_locks newfd else sys_close newfd).
  assert (exists r1 s1, m s = Some (r1, s1) /\ sy_proc s1 = close_proc (sy_proc s) newfd) as (r1 & s1 & E1 & Ep).
  { subst m. destruct locks; [destruct (keeps_close_call (k_pipes (sy_kernel s)) 0 [] newfd s Hd Hs) as (r1 & s1 & E1 & _ & _ & _ & _ & Hq & _)|
      destruct (keeps_close (k_pipes (sy_kernel s)) 0 [] false newfd s Hd Hs) as (r1 & s1 & E1 & _ & _ & _ & _ & Hq & _)]; by exists r1, s1. }
  rewrite (bind_ok _ _ s r1 s1) by (unfold attempt; by rewrite E1). destruct (close_keeps (sy_proc s) newfd Hd Hs) as [K1 K2]. pose proof (close_proc_fds (sy_proc s) newfd Hd) as Ef.
  destruct (close_view (sy_proc s) newfd Hd) as [V1 V2]. rewrite <- Ep in K1, K2, Ef, V1, V2. rewrite fd_entry_step, Ef, fd_at_close, Ee by congruence. intros E.
  assert (refers (sy_proc s1) (ofd_ref e)) as Hr by (eapply (refers_at _ oldfd); by rewrite Ef, fd_at_close by congruence).
  assert (places (pr_fd_table (sy_proc s1)) (ofd_ref e) 0 (place_at (ofd_ref e) newfd)) as Hpl by (apply places_at; [done|by rewrite Ef, fd_at_closed]).
  destruct (duplicate_given e 0 _ s1 r s' K1 K2 Hr Hpl E) as (<- & H2 & H3). split.
  - intros i o Hi. apply V2. by rewrite <- H3.
  - rewrite H2, open_view, <- V1. apply place_at_given.
Qed.

Lemma close_flags_eq flags : oflags_to_fd_flags flags = close_flags flags.
Proof.
  unfold oflags_to_fd_flags, close_flags. destruct (decide (Z.land flags O_CLOEXEC = 0)) as [->|H1], (decide (Z.land flags O_CLOFORK = 0)) as [->|H2];
    rewrite ?(proj2 (Z.eqb_neq _ _) H1), ?(proj2 (Z.eqb_neq _ _) H2); done.
Qed.

Lemma flags_view p fd flags e :
  fd_at (fds_of p) fd = Some e ->
  view (with_fds p (set_fd_flags flags (pr_fd_table p) fd)) = mkView (set_open (dv_fds (view p)) (fd_put (fds_of p) fd (mkFdEntry (ofd_ref e) flags))) (dv_desc (view p)).
Proof. intros He. unfold view. cbn [with_fds with_descriptors pr_fd_table pr_ofd_table dv_fds dv_desc]. by rewrite (set_flags_abs _ _ _ e). Qed.

Lemma dup3_answer locks oldfd newfd flags s r s' :
  descs_ok (sy_proc s) [] -> socks_ok (sy_proc s) -> sys_dup3_impl locks oldfd newfd flags s = Some (r, s') ->
  dup3_spec (view (sy_proc s)) oldfd newfd flags r (view (sy_proc s')).
Proof.
  intros Hd Hs. unfold sys_dup3_impl, dup3_spec. destruct (Z.eqb_spec (Z.ldiff flags (Z.lor O_CLOEXEC O_CLOFORK)) 0) as [Ef|Ef]; cbn [negb].
  2:{ intros [= <- <-]. destruct (decide _) as [[? _]|_]; [done|by split]. }
  destruct (Z.eqb_spec oldfd newfd) as [Ee|Hne]; [intros [= <- <-]; destruct (decide _) as [[_ ?]|_]; [done|by split]|].
  destruct (decide _) as [_|Hn]; [|by destruct Hn]. destruct (keeps_dup2 (k_pipes (sy_kernel s)) 0 [] locks oldfd newfd s Hd Hs) as (r1 & s1 & E1 & _ & _ & Hd1 & Hs1 & Hq).
  pose proof (dup2_answer _ _ _ _ _ _ Hd Hs E1) as Ha. unfold dup2_spec in Ha. rewrite opened_view in *. unfold bind at 1. rewrite E1, (proj2 (Z.eqb_neq _ _) Hne) in *.
  destruct (fd_at (fds_of (sy_proc s)) oldfd) as [e|] eqn:Eo; [|destruct Ha as [-> Hu]; intros [= <- <-]; by split].
  rewrite close_flags_eq. destruct r1 as [fd|err].
  2:{ intros [= <- <-]. destruct Ha as [H1 H2]. split; [done|]. exact (asked_flags _ _ _ _ (close_flags flags) _ _ H2). }
  destruct Hq as [Hdup Hfd]. specialize (Hfd fd eq_refl). subst fd. pose proof (duplicated_at _ _ _ _ _ Hdup) as Hat. destruct Ha as [H1 H2].
  pose proof (asked_flags _ _ _ _ (close_flags flags) _ _ H2) as H3. cbn beta iota in H3.
  destruct (Z.eqb_spec (close_flags flags) 0) as [Ez|Ez]; cbn [negb]; intros [= <- <-].
  - split; [done|]. by rewrite Ez.
  - cbn [set_proc sy_proc]. rewrite (flags_view _ _ _ _ Hat). split; [exact H1|exact H3].
Qed.

(** [fcntl]. *)
Lemma setfd_answer fd arg s r s' :
  setfd_of fd arg s = Some (r, s') ->
  match opened (view (sy_proc s)) fd with
  | None => r = Err EBADF /\ unchanged (view (sy_proc s)) (view (sy_proc s'))
  | Some e => r = Ok 0 /\ same_descs (view (sy_proc s)) (view (sy_proc s')) /\
      dv_fds (view (sy_proc s')) = set_open (dv_fds (view (sy_proc s))) (fd_put (open_fds (dv_fds (view (sy_proc s)))) fd (mkFdEntry (ofd_ref e) arg))
  end.
Proof.
  rewrite opened_view, open_view. unfold setfd_of, fd_result, proc_result. pose proof (get_mut_at (sy_proc s) fd (fun e => mkFdEntry (ofd_ref e) arg)) as Hm.
  destruct (FdTable.get_mut _ fd _) as [t|err] eqn:Eg; cbn beta iota.
  - destruct Hm as [e He]. rewrite He. intros [= <- <-]. pose proof (flags_view _ _ arg _ He) as Hv. unfold set_fd_flags in Hv. rewrite Eg in Hv.
    cbn [set_proc sy_proc]. rewrite Hv. by split_and!.
  - destruct Hm as [-> ->]. intros [= <- <-]. cbn [set_proc sy_proc]. rewrite with_fds_same. by split.
Qed.

Lemma mut_view p i f o new :
  Ofd.get (pr_ofd_table p) i = Some o -> bare (f o) = new -> becomes (view p) i new (view (with_ofds p (Ofd.get_mut (pr_ofd_table p) i f))).
Proof.
  intros Ho Hn. split; [done|]. intros j. unfold view. cbn [dv_desc with_ofds with_descriptors pr_ofd_table]. rewrite get_mut_spec, Ho.
  destruct (Nat.eqb_spec j i); [cbn; by rewrite Hn|done].
Qed.

Lemma setfl_bits old arg : setfl_spec old arg (Z.lor (Z.ldiff old SETFL_MODIFIABLE) (Z.land arg SETFL_MODIFIABLE)).
Proof.
  intros n Hn. unfold SETFL_MODIFIABLE. rewrite Z.lor_spec, Z.ldiff_spec, Z.land_spec, Z.lor_spec. by destruct (Z.testbit O_APPEND n || Z.testbit O_NONBLOCK n), (Z.testbit old n), (Z.testbit arg n).
Qed.

Lemma ofd_at_step {B} (f : OpenFileDesc -> M B) idx s o : Ofd.get (pr_ofd_table (sy_proc s)) idx = Some o -> (let! o := ofd_at idx in f o) s = f o s.
Proof. intros Ho. unfold ofd_at, bind, gets, lift. by rewrite Ho. Qed.

(** The commands that read or change the description. *)
Lemma desc_cmd_answer fd cmd arg s r s' (f : nat -> OpenFileDesc -> M Z) :
  descs_ok (sy_proc s) [] -> cmd ∈ [F_GETFL; F_SETFL; F_SETOWN; F_GETOWN] ->
  (forall i o, Ofd.get (pr_ofd_table (sy_proc s)) i = Some o -> f i o s = Some (r, s') ->
     fcntl_desc (view (sy_proc s)) i (bare o) cmd arg r (view (sy_proc s'))) ->
  (let! e := fd_entry fd in let! o := ofd_at (ofd_ref e) in f (ofd_ref e) o) s = Some (r, s') -> fcntl_spec (view (sy_proc s)) fd cmd arg r (view (sy_proc s')).
Proof.
  intros Hd Hc Hf. unfold fcntl_spec. rewrite decide_True by (revert Hc; unfold fcntl_cmds; set_solver). rewrite opened_view, fd_entry_step.
  destruct (fd_at _ fd) as [e|] eqn:Ee; [|intros [= <- <-]; by split].
  assert (exists i, fds_of (sy_proc s) !! i = Some e) as [i Hi] by (revert Ee; unfold fd_at; destruct (fd_index fd) as [i|]; [by exists i|done]).
  destruct (counted_live _ _ _ _ _ (ds_counts _ _ Hd) Hi) as [o Ho]. rewrite (ofd_at_step _ _ _ o Ho). intros E.
  assert (is_dupfd cmd = false /\ (cmd =? F_GETFD) = false /\ (cmd =? F_SETFD) = false) as (-> & -> & ->) by (revert Hc; rewrite !elem_of_cons, elem_of_nil; intros [->|[->|[->|[->|[]]]]]; done).
  exists (bare o). split; [unfold view; cbn [dv_desc]; by rewrite Ho|by apply Hf].
Qed.

Lemma fcntl_answer fd cmd arg s r s' :
  descs_ok (sy_proc s) [] -> socks_ok (sy_proc s) -> sys_fcntl fd cmd arg s = Some (r, s') ->
  fcntl_spec (view (sy_proc s)) fd cmd arg r (view (sy_proc s')).
Proof.
  intros Hd Hs. unfold sys_fcntl. fold (is_dupfd cmd) (dupfd_flags cmd). destruct (is_dupfd cmd) eqn:Edup.
  { unfold fcntl_spec. rewrite opened_view, Edup, decide_True by (unfold is_dupfd in Edup; rewrite !orb_true_iff, !Z.eqb_eq in Edup; unfold fcntl_cmds; set_solver).
    rewrite fd_entry_step. destruct (fd_at _ fd) as [e|] eqn:Ee; [|intros [= <- <-]; by split]. intros E. eapply dupfd_given; [done|done|by eapply refers_at|exact E]. }
  destruct (Z.eqb_spec cmd F_GETFD) as [->|Nd].
  { unfold fcntl_spec. rewrite decide_True by (unfold fcntl_cmds; set_solver). rewrite opened_view, fd_entry_step. destruct (fd_at _ fd) as [e|]; intros [= <- <-]; by split. }
  destruct (Z.eqb_spec cmd F_SETFD) as [->|Ns]; [unfold fcntl_spec; rewrite decide_True by (unfold fcntl_cmds; set_solver); apply setfd_answer|].
  destruct (Z.eqb_spec cmd F_GETFL) as [->|Ng].
  { apply (desc_cmd_answer _ _ _ _ _ _ (fun _ o => ret (as_i32 (status_flags o)))); [done|set_solver|]. intros i o Ho [= <- <-]. by split. }
  destruct (Z.eqb_spec cmd F_SETFL) as [->|Nf].
  { apply (desc_cmd_answer _ _ _ _ _ _ (fun i o => if is_path_only o then fail EBADF else on_ofds (fun t => set_status_flags t i arg) >; ret 0)); [done|set_solver|].
    intros i o Ho. unfold fcntl_desc, is_path_only. cbn -[O_PATH]. destruct (_ =? 0) eqn:Ep; cbn [negb]; intros [= <- <-]; [|by split]. split; [done|].
    eexists. split; [apply setfl_bits|]. by apply (mut_view _ _ _ o). }
  destruct (Z.eqb_spec cmd F_SETOWN) as [->|No].
  { apply (desc_cmd_answer _ _ _ _ _ _ (fun i o => if is_path_only o then fail EBADF else on_ofd i (fun o => with_owner_pid o arg) >; ret 0)); [done|set_solver|].
    intros i o Ho. unfold fcntl_desc, is_path_only. cbn -[O_PATH]. destruct (_ =? 0) eqn:Ep; cbn [negb]; intros [= <- <-]; [|by split]. split; [done|].
    by apply (mut_view _ _ _ o). }
  destruct (Z.eqb_spec cmd F_GETOWN) as [->|Nw].
  { apply (desc_cmd_answer _ _ _ _ _ _ (fun _ o => if is_path_only o then fail EBADF else ret (as_i32 (owner_pid o)))); [done|set_solver|].
    intros i o Ho. unfold fcntl_desc, is_path_only. cbn -[O_PATH]. destruct (_ =? 0) eqn:Ep; cbn [negb]; intros [= <- <-]; by split. }
  intros [= <- <-]. unfold fcntl_spec. rewrite decide_False; [by split|]. unfold is_dupfd in Edup. rewrite !orb_false_iff, !Z.eqb_neq in Edup. unfold fcntl_cmds. set_solver.
Qed.

(** [pipe2]. *)
Lemma lowest_any_entry f m e e' min n : lowest (spec_open f m e) min n -> lowest (spec_open f m e') min n.
Proof.
  assert (forall j, FdTable.available (spec_open f m e) j <-> FdTable.available (spec_open f m e') j) as Ha by (intros j; unfold FdTable.available, spec_open; cbn; by rewrite !lookup_insert_None).
  intros (H1 & H2 & H3). split; [done|]. split; [by apply Ha|]. intros j Hj Hn. apply (H3 j Hj). by apply Ha.
Qed.

Lemma put_put_nat f m n e1 e2 e1' : m <> n ->
  set_open (spec_open (spec_open f m e1) n e2) (<[m := e1']> (open_fds (spec_open (spec_open f m e1) n e2))) = spec_open (spec_open f m e1') n e2.
Proof. intros Hne. unfold set_open, spec_open. cbn. by rewrite (insert_insert_ne _ m n), insert_insert_eq. Qed.

Lemma put_last_nat f m n e1 e2 e2' :
  set_open (spec_open (spec_open f m e1) n e2) (<[n := e2']> (open_fds (spec_open (spec_open f m e1) n e2))) = spec_open (spec_open f m e1) n e2'.
Proof. unfold set_open, spec_open. cbn. by rewrite insert_insert_eq. Qed.

(** The two entries of a pipe, with their flags set. *)
Lemma pipe_fd_flags f m n i j (fl : Z) s :
  m <> n -> dv_fds (view (sy_proc s)) = spec_open (spec_open f m (mkFdEntry i 0)) n (mkFdEntry j 0) ->
  exists s', (if negb (fl =? 0) then on_fd_flags (Z.of_nat m) fl >; on_fd_flags (Z.of_nat n) fl else ret tt) s = Some (Ok tt, s') /\
    dv_fds (view (sy_proc s')) = spec_open (spec_open f m (mkFdEntry i fl)) n (mkFdEntry j fl) /\ pr_ofd_table (sy_proc s') = pr_ofd_table (sy_proc s).
Proof.
  intros Hne Hv. destruct (Z.eqb_spec fl 0) as [->|Hz]; cbn [negb]; [by exists s|]. set (p := sy_proc s) in *.
  assert (fds_of p = open_fds (spec_open (spec_open f m (mkFdEntry i 0)) n (mkFdEntry j 0))) as Ef by (by rewrite <- Hv).
  assert (fd_at (fds_of p) (Z.of_nat m) = Some (mkFdEntry i 0)) as A1 by (rewrite fd_at_nat, Ef; cbn; by rewrite lookup_insert_ne, lookup_insert_eq by done).
  set (p1 := with_fds p (set_fd_flags fl (pr_fd_table p) (Z.of_nat m))).
  assert (dv_fds (view p1) = spec_open (spec_open f m (mkFdEntry i fl)) n (mkFdEntry j 0)) as V1.
  { subst p1. rewrite (flags_view _ _ _ _ A1). cbn [dv_fds ofd_ref]. rewrite fd_put_nat, Ef, Hv. by apply put_put_nat. }
  assert (fds_of p1 = open_fds (spec_open (spec_open f m (mkFdEntry i fl)) n (mkFdEntry j 0))) as Ef1 by (by rewrite <- V1).
  assert (fd_at (fds_of p1) (Z.of_nat n) = Some (mkFdEntry j 0)) as A2 by (rewrite fd_at_nat, Ef1; cbn; by rewrite lookup_insert_eq).
  eexists. split; [reflexivity|]. cbn [set_proc sy_proc]. fold p p1. split; [|done]. rewrite (flags_view _ _ _ _ A2). cbn [dv_fds ofd_ref]. rewrite fd_put_nat, Ef1, V1. apply put_last_nat.
Qed.

(** Both descriptions, without waiting when asked so. *)
Lemma pipe_nonblock (flags : Z) x i j a b fl s :
  fd_at (fds_of (sy_proc s)) x.1 = Some (mkFdEntry i fl) -> fd_at (fds_of (sy_proc s)) x.2 = Some (mkFdEntry j fl) -> i <> j ->
  Ofd.get (pr_ofd_table (sy_proc s)) i = Some a -> Ofd.get (pr_ofd_table (sy_proc s)) j = Some b ->
  let nonblock := if decide (Z.land flags O_NONBLOCK = 0) then 0 else O_NONBLOCK in
  let more (o : OpenFileDesc) := with_flags o (Z.lor (status_flags o) nonblock) in
  exists s', (if negb (Z.land flags O_NONBLOCK =? 0) then
       let! r := fd_entry x.1 in let! w := fd_entry x.2 in
       let nonblock o := with_flags o (Z.lor (status_flags o) O_NONBLOCK) in
       on_ofd (ofd_ref r) nonblock >; on_ofd (ofd_ref w) nonblock
     else ret tt) s = Some (Ok tt, s') /\ pr_fd_table (sy_proc s') = pr_fd_table (sy_proc s) /\
    forall k, Ofd.get (pr_ofd_table (sy_proc s')) k =
      if (k =? j)%nat then Some (more b) else if (k =? i)%nat then Some (more a) else Ofd.get (pr_ofd_table (sy_proc s)) k.
Proof.
  cbv zeta. intros A1 A2 Hne Ha Hb. destruct (decide _) as [E|E].
  - rewrite E. cbn [Z.eqb negb]. exists s. split; [done|]. split; [done|]. intros k. rewrite !Z.lor_0_r.
    destruct (Nat.eqb_spec k j) as [->|]; [by rewrite Hb; destruct b|]. destruct (Nat.eqb_spec k i) as [->|]; [by rewrite Ha; destruct a|done].
  - rewrite (proj2 (Z.eqb_neq _ _) E). cbn [negb]. rewrite fd_entry_step, A1, fd_entry_step, A2. cbv zeta. cbn [ofd_ref].
    eexists. split; [reflexivity|]. split; [done|]. intros k. cbn [set_proc sy_proc with_ofds with_descriptors pr_ofd_table]. rewrite !get_mut_spec, Ha, Hb.
    destruct (Nat.eqb_spec k j) as [->|Hk]; [by rewrite (proj2 (Nat.eqb_neq j i)) by done|]. by destruct (k =? i)%nat.
Qed.

Lemma pipe2_answer flags s rest r s' :
  sys_ok s rest -> call_room s rest (CPipe2 flags) -> sys_pipe2 flags s = Some (r, s') -> pipe_spec (view (sy_proc s)) flags r (view (sy_proc s')).
Proof.
  intros Hok (Hrep & Hid & Hload & Hcap). destruct (pipe_ok s rest Hok Hrep Hid Hload Hcap) as (r1 & s1 & E1 & _ & _ & Hr).
  assert (sys_pipe2 flags = (let! x := sys_pipe in pipe_flags flags x)) as -> by done. unfold bind at 1. rewrite E1. destruct r1 as [x|e].
  2:{ destruct Hr as (-> & _ & _ & Hno & Ha & Hg). intros [= <- <-]. split; [done|]. split; [exact Hno|]. split; [exact Ha|]. intros k. unfold view. cbn [dv_desc]. by rewrite Hg. }
  destruct Hr as (_ & i & j & _ & m & n & a & b & h & -> & [L1 L2] & Ha & Hne & N1 & N2 & Hh & Pa & Pb & Hg).
  assert (m <> n) as Hmn by (intros ->; destruct L2 as (_ & [Hn _] & _); cbn in Hn; by rewrite lookup_insert_eq in Hn).
  unfold pipe_flags. cbv zeta. cbn [fst snd]. rewrite close_flags_eq.
  destruct (pipe_fd_flags _ m n i j (close_flags flags) s1 Hmn Ha) as (s2 & E2 & V2 & T2). rewrite (bind_ok _ _ _ tt s2) by exact E2.
  assert (fds_of (sy_proc s2) = open_fds (spec_open (spec_open (abs (pr_fd_table (sy_proc s))) m (mkFdEntry i (close_flags flags))) n (mkFdEntry j (close_flags flags)))) as Ef by (by rewrite <- V2).
  destruct (pipe_nonblock flags (Z.of_nat m, Z.of_nat n) i j a b (close_flags flags) s2) as (s3 & E3 & F3 & G3).
  { cbn [fst]. rewrite fd_at_nat, Ef. cbn. by rewrite lookup_insert_ne, lookup_insert_eq. }
  { cbn [snd]. rewrite fd_at_nat, Ef. cbn. by rewrite lookup_insert_eq. }
  { done. }
  { by rewrite T2, Hg, (proj2 (Nat.eqb_neq i j)), Nat.eqb_refl by done. }
  { by rewrite T2, Hg, Nat.eqb_refl. }
  cbn [fst snd] in E3. rewrite (bind_ok _ _ _ tt s3) by exact E3. intros [= <- <-].
  set (nb := if decide (Z.land flags O_NONBLOCK = 0) then 0 else O_NONBLOCK) in *.
  exists m, n, i, j, (bare (with_flags a (Z.lor (status_flags a) nb))), (bare (with_flags b (Z.lor (status_flags b) nb))), h. cbv zeta.
  split; [done|]. split; [split; [done|by eapply lowest_any_entry]|]. split; [unfold view; cbn [dv_fds]; rewrite F3; exact V2|]. split; [done|].
  split; [unfold view; cbn [dv_desc]; by rewrite N1|]. split; [unfold view; cbn [dv_desc]; by rewrite N2|].
  destruct Pa as [P1 P2 P3], Pb as [Q1 Q2 Q3]. split; [split; [done|cbn; by rewrite P2|done]|]. split; [split; [done|cbn; by rewrite Q2|done]|]. split; [done|].
  intros k. unfold view. cbn [dv_desc]. rewrite G3, T2, Hg. destruct (k =? j)%nat; [done|]. by destruct (k =? i)%nat.
Qed.

(** ** The calls refine the specification *)

Lemma reply_inv (m : M Z) s r s' : reply m s = Some (r, s') -> exists x, m s = Some (x, s') /\ r = pair_of x.
Proof.
  unfold reply, bind. destruct (m s) as [[[n|e] s1]|]; [intros [= <- <-]; by eexists (Ok n)|intros [= <- <-]; by eexists (Err e)|done].
Qed.

Lemma call_answer c s rest r s' :
  sys_ok s rest -> call_room s rest c -> desc_exec c s = Some (r, s') -> call_spec (host_refused s s') (view (sy_proc s)) c r (view (sy_proc s')).
Proof.
  intros Hok Hroom. pose proof (so_descs _ _ Hok) as Hd. pose proof (so_socks _ _ Hok) as Hs.
  destruct c as [fd|fd|oldfd newfd|oldfd newfd flags|fd cmd arg|flags]; cbn [desc_exec call_spec].
  - unfold bind. destruct (sys_close_with_locks fd s) as [[x s1]|] eqn:E; [|done]. intros Er. exists x.
    assert (s1 = s' /\ r = match x with Ok _ => Ok (0, 0) | Err e => Err e end) as [<- ->] by (destruct x; by injection Er as <- <-).
    split; [by apply close_answer|done].
  - intros (x & E & ->)%reply_inv. exists x. split; [by apply dup_answer|done].
  - intros (x & E & ->)%reply_inv. exists x. split; [by apply (dup2_answer true)|done].
  - intros (x & E & ->)%reply_inv. exists x. split; [by apply (dup3_answer true)|done].
  - intros (x & E & ->)%reply_inv. exists x. split; [by apply fcntl_answer|done].
  - by eapply pipe2_answer.
Qed.

(** C7: The descriptor calls refine their specification.  With every counter of
    the machine equal to the number of its holders, and room for a new pipe where
    one is asked for, [close], [dup], [dup2], [dup3], [fcntl] and [pipe2] always
    answer.  The answer, the open descriptors afterwards with their flags, the
    reserved ones, the limit, and the contents of every description are those of
    the specification, errors included: [dup], [F_DUPFD] and [pipe2] give the
    lowest descriptors that are free (from the minimum asked for) and [EMFILE]
    exactly when there are none below the limit; [dup2] and [dup3] close the new
    descriptor and give it, or [EBADF] beyond the limit and [EBUSY] when an open in
    progress has reserved it; the [F_GET] commands answer what the descriptor or
    its description holds, [F_SETFL] changes the append and non-blocking bits and
    no other, [F_SETOWN] the owner and nothing else, both refused with [EBADF] on a
    path-only description, and an unknown command is [EINVAL]; a descriptor that is
    not open is [EBADF]; and a close of an open one fails only with the error the
    host gave, in this call, when asked to close the description's handle.  Every
    counter is again the number of its holders, where a [pipe2] that fails keeps
    holding the pipe it allocated. *)
Theorem descriptor_calls_refine c s rest :
  sys_ok s rest -> call_room s rest c ->
  exists r s', desc_exec c s = Some (r, s') /\ call_spec (host_refused s s') (view (sy_proc s)) c r (view (sy_proc s')) /\ sys_ok s' (lost s c r ++ rest).
Proof.
  intros Hok Hroom.
  assert (exists r s', desc_exec c s = Some (r, s') /\ sys_ok s' (lost s c r ++ rest)) as (r & s' & E & Hok').
  { destruct c as [fd|fd|oldfd newfd|oldfd newfd flags|fd cmd arg|flags]; [..|destruct (desc_pipe s rest flags Hok Hroom) as (r & s' & E & _ & H2); by exists r, s'];
    match goal with |- context [desc_exec ?c] =>
      destruct (keeps_ok _ s rest _ Hok (desc_keeps _ _ rest c s ltac:(done) (so_descs _ _ Hok) (so_socks _ _ Hok))) as (r & s' & new & E & Hok' & _); by exists r, s' end. }
  exists r, s'. split; [done|]. split; [by eapply call_answer|done].
Qed.

End calls.

#[local] Existing Instance answering_host.

Lemma descriptor_calls_refine_witness :
  call_room sys_life [UHandle 9] (CPipe2 O_CLOEXEC) /\
  (exists s', desc_exec (CPipe2 O_CLOEXEC) sys_life = Some (Ok (4, 5), s') /\ fd_at (fds_of (sy_proc s')) 4 = Some (mkFdEntry 4 FD_CLOEXEC) /\ sys_ok s' [UHandle 9]) /\
  exists s', desc_exec (CFcntl 0 F_DUPFD 7) sys_life = Some (Ok (7, 0), s') /\ lowest (dv_fds (view life_leader)) 7 7.
Proof.
  assert (call_room sys_life [UHandle 9] (CPipe2 O_CLOEXEC)) as Hroom.
  { split; [by left|]. split; [vm_compute; discriminate|]. split; [vm_compute; discriminate|]. vm_compute. done. }
  split; [exact Hroom|]. split.
  - destruct (descriptor_calls_refine (CPipe2 O_CLOEXEC) sys_life [UHandle 9] life_sys_ok Hroom) as (r & s' & E & _ & Hok).
    assert (match desc_exec (CPipe2 O_CLOEXEC) sys_life with Some (Ok x, s') => x = (4, 5) /\ fd_at (fds_of (sy_proc s')) 4 = Some (mkFdEntry 4 FD_CLOEXEC) | _ => False end) as Hc by (vm_compute; done).
    rewrite E in Hc. destruct r as [x|]; [|done]. destruct Hc as [-> Hc]. exists s'. by split_and!.
  - destruct (descriptor_calls_refine (CFcntl 0 F_DUPFD 7) sys_life [UHandle 9] life_sys_ok I) as (r & s' & E & (x & Hx & ->) & _).
    assert (exists e, opened (view (sy_proc sys_life)) 0 = Some e) as [e He] by (eexists; vm_compute; reflexivity).
    cbv beta iota delta [fcntl_spec] in Hx. rewrite He, decide_True in Hx by (unfold fcntl_cmds; set_solver). change (is_dupfd F_DUPFD) with true in Hx. cbn iota in Hx.
    change (as_i32 7) with 7 in Hx. destruct Hx as (_ & [(i & Hl & -> & _)|(_ & -> & _)]).
    + assert (i = 7%nat) as ->; [|exists s'; by split].
      assert (option_map fst (desc_exec (CFcntl 0 F_DUPFD 7) sys_life) = Some (Ok (7, 0))) as Hc by (vm_compute; reflexivity).
      rewrite E in Hc. cbn in Hc. injection Hc as Hc. lia.
    + exfalso. assert (option_map fst (desc_exec (CFcntl 0 F_DUPFD 7) sys_life) = Some (Ok (7, 0))) as Hc by (vm_compute; reflexivity).
      rewrite E in Hc. discriminate Hc.
Defined.
