(* ===== verification/Image.v ===== *)
(** * The end of an image: exit and exec ([crates/kernel/src/syscalls.rs])

    [cleanup_process_for_exit] with the two exits, and [commit_exec_state], over
    the descriptor calls.  Exit closes everything; exec closes the close-on-exec
    descriptors and keeps the rest of what a process holds. *)

From stdpp Require Import fin_maps.
From S2P Require Import Prelude Bytes Abi FdTable Lock Ofd Wakeup Pipe PipeTable Memory Terminal Signal Backing Socket Names Mqueue Pshared Process Dri Devices Kernel Accounts ProcTable Lifecycle Fork Sys Descriptors Releases Syscalls.

(** ** Fields of a process that go with its image *)

Definition with_image (p : Process) (dirs : list (option DirStream)) (fb : option FbBinding) (dri : list DriBoBinding) : Process :=
  mkProcess (pr_pid p) (pr_ppid p) (pr_uid p) (pr_gid p) (pr_euid p) (pr_egid p) (pr_pgid p) (pr_sid p) (pr_is_session_leader p)
    (pr_state p) (pr_exit_status p) (pr_exit_signal p) (pr_wait_event p) (pr_fd_table p) (pr_ofd_table p) (pr_pipes p) (pr_sockets p)
    (pr_cwd p) dirs (pr_signals p) (pr_main_thread_signals p) (pr_memory p) (pr_terminal p) (pr_environ p) (pr_argv p)
    (pr_umask p) (pr_nice p) (pr_rlimits p) (pr_alarm_deadline_ns p) (pr_alarm_interval_ns p) (pr_thread_name p) (pr_fork_child p)
    (pr_sigsuspend_saved_mask p) (pr_fork_exec_path p) (pr_fork_exec_argv p) (pr_fork_fd_actions p) (pr_next_ephemeral_port p)
    (pr_threads p) (pr_next_tid p) (pr_epolls p) (pr_posix_timers p) (pr_alt_stack_sp p) (pr_alt_stack_flags p) (pr_alt_stack_size p)
    (pr_alt_stack_depth p) (pr_fork_pipe_replay p) (pr_has_exec p) fb dri (pr_fork_count p).

Definition with_dirs (p : Process) (dirs : list (option DirStream)) : Process := with_image p dirs (pr_fb_binding p) (pr_dri_bindings p).
Definition with_fb (p : Process) (fb : option FbBinding) : Process := with_image p (pr_dir_streams p) fb (pr_dri_bindings p).
Definition with_dri_bindings (p : Process) (l : list DriBoBinding) : Process := with_image p (pr_dir_streams p) (pr_fb_binding p) l.

(** The assignments that end [commit_exec_state_impl]. *)
Definition reset_image (p : Process) (state : ProcessState) : Process :=
  mkProcess (pr_pid p) (pr_ppid p) (pr_uid p) (pr_gid p) (pr_euid p) (pr_egid p) (pr_pgid p) (pr_sid p) (pr_is_session_leader p)
    state 0 0 (pr_wait_event p) (pr_fd_table p) (pr_ofd_table p) (pr_pipes p) (pr_sockets p)
    (pr_cwd p) (pr_dir_streams p) (pr_signals p) (pr_main_thread_signals p) Memory.new (pr_terminal p) (pr_environ p) (pr_argv p)
    (pr_umask p) (pr_nice p) (pr_rlimits p) (pr_alarm_deadline_ns p) (pr_alarm_interval_ns p) (replicate 16 0) (pr_fork_child p)
    None (pr_fork_exec_path p) (pr_fork_exec_argv p) (pr_fork_fd_actions p) (pr_next_ephemeral_port p)
    [] 0 (pr_epolls p) (pr_posix_timers p) 0 2 0 0 (pr_fork_pipe_replay p) (pr_has_exec p) (pr_fb_binding p) (pr_dri_bindings p) (pr_fork_count p).

Definition reset_fork_state (p : Process) : Process :=
  mkProcess (pr_pid p) (pr_ppid p) (pr_uid p) (pr_gid p) (pr_euid p) (pr_egid p) (pr_pgid p) (pr_sid p) (pr_is_session_leader p)
    (pr_state p) (pr_exit_status p) (pr_exit_signal p) (pr_wait_event p) (pr_fd_table p) (pr_ofd_table p) (pr_pipes p) (pr_sockets p)
    (pr_cwd p) (pr_dir_streams p) (pr_signals p) (pr_main_thread_signals p) (pr_memory p) (pr_terminal p) (pr_environ p) (pr_argv p)
    (pr_umask p) (pr_nice p) (pr_rlimits p) (pr_alarm_deadline_ns p) (pr_alarm_interval_ns p) (pr_thread_name p) false
    (pr_sigsuspend_saved_mask p) None None [] (pr_next_ephemeral_port p)
    (pr_threads p) (pr_next_tid p) (pr_epolls p) [] (pr_alt_stack_sp p) (pr_alt_stack_flags p) (pr_alt_stack_size p)
    (pr_alt_stack_depth p) [] true (pr_fb_binding p) (pr_dri_bindings p) 0.

(** [dri.gl.take()] of a description, and whether there was one. *)
Definition without_gl (d : DriFdState) : DriFdState := mkDriFd (dri_handles d) (next_handle d) None.
Definition drop_gl (o : OpenFileDesc) : OpenFileDesc :=
  match dri_state o with
  | Some (RenderNode d) => with_dri o (Some (RenderNode (without_gl d)))
  | Some (Card d k) => with_dri o (Some (Card (without_gl d) k))
  | _ => o
  end.
Definition has_gl (o : OpenFileDesc) : bool :=
  match dri_state o with Some (RenderNode d) | Some (Card d _) => bool_decide (is_Some (dri_gl d)) | _ => false end.

Definition map_ofds (f : OpenFileDesc -> OpenFileDesc) (t : OfdTable) : OfdTable := mkTable ((fun slot : option OpenFileDesc => f <$> slot) <$> Ofd.entries t).

Section image.
Context `{Usize} `{HostIO}.

Definition release_process_dri_mappings : M unit :=
  let! p := gets sy_proc in
  let pid := as_i32 (pr_pid p) in
  on_proc (fun p => with_dri_bindings p []) >;
  for_each (fun b => tell_host (RqBoUnbind pid (db_bo_id b) (db_addr b) (db_len b))) (pr_dri_bindings p) >;
  let released_gl := existsb has_gl (ofds p) in
  on_ofds (map_ofds drop_gl) >;
  (if released_gl then tell_host (RqGlUnbind pid) else ret tt).

Definition close_fd (locks : bool) (fd : Z) : M unit := attempt (if locks then sys_close_with_locks fd else sys_close fd) >; ret tt.

(** A directory stream is taken, then closed. *)
Definition close_stream (i : nat) : M unit :=
  let! p := gets sy_proc in
  match pr_dir_streams p !! i ≫= id with
  | Some stream => on_proc (fun p => with_dirs p (<[i := None]> (pr_dir_streams p))) >; attempt (call_host (RqClosedir (ds_host_handle stream))) >; ret tt
  | None => ret tt
  end.
Definition close_streams : M unit := let! p := gets sy_proc in for_each close_stream (seq 0 (length (pr_dir_streams p))).

Definition cleanup_process_for_exit (locks : bool) : M unit :=
  release_process_dri_mappings >;
  let! p := gets sy_proc in
  for_each (close_fd locks) (fst <$> FdTable.iter (pr_fd_table p)) >;
  close_streams >;
  (if locks then remove_locks (fun l => remove_process l (pr_pid p)) else ret tt).

Definition has_exited (p : Process) : bool := bool_decide (pr_state p = Exited \/ pr_state p = Limbo).

Definition sys_exit_impl (locks : bool) (status : Z) : M unit :=
  let! p := gets sy_proc in
  if has_exited p then ret tt
  else cleanup_process_for_exit locks >; on_proc (fun p => (record_normal_exit p status).2).

Definition sys_exit (status : Z) : M unit := sys_exit_impl false status.
Definition sys_exit_with_locks (status : Z) : M unit := sys_exit_impl true status.

Definition sys_exit_by_signal_impl (locks : bool) (signum : Z) : M unit :=
  let! p := gets sy_proc in
  if has_exited p then ret tt
  else cleanup_process_for_exit locks >; on_proc (fun p => (record_signal_exit p signum).2).

Definition sys_exit_by_signal (signum : Z) : M unit := sys_exit_by_signal_impl false signum.
Definition sys_exit_by_signal_with_locks (signum : Z) : M unit := sys_exit_by_signal_impl true signum.

(** ** Exec *)

Definition release_exec_image_state : M unit :=
  let! p := gets sy_proc in
  (if bool_decide (is_Some (pr_fb_binding p)) then
     tell_host (RqUnbindFramebuffer (as_i32 (pr_pid p))) >;
     on_proc (fun p => with_fb p None) >;
     (if proc_has_virtual_device_fd p Fb0 then ret tt else modify (fun s => set_devices s (maybe_release_fb0 (pr_pid p) (sy_devices s))))
   else ret tt) >;
  release_process_dri_mappings.

(** The calling thread becomes the main thread. *)
Definition adopt_caller (caller_tid : Z) (p : Process) : kresult unit * Process :=
  if negb (caller_tid =? 0) && negb (caller_tid =? pr_pid p) then
    match position (has_tid caller_tid) (pr_threads p) with
    | None => (Err ESRCH, p)
    | Some i =>
        match pr_threads p !! i with
        | Some caller =>
            (Ok tt, with_all_signals p (with_blocked (pr_signals p) (pt_blocked (th_signals caller))) (th_signals caller) (vec_remove i (pr_threads p)))
        | None => (Err ESRCH, p)
        end
    end
  else (Ok tt, p).

(** The opens of FIFOs of the process end, with their reserved descriptors. *)
Definition cancel_fifo_opens_for_process : M unit := fun s =>
  let '(ws, r) := table_cancel_fifo_opens_for_process (k_pipes (sy_kernel s)) (pr_pid (sy_proc s)) in
  let p := sy_proc s in
  let release (t : FdTable) (w : FifoOpenWaiter) := (FdTable.release_reserved t (fw_reserved_fd w)).1 in
  Some (Ok tt, set_proc (set_kernel s (on_pipes (fun t => (table_cancel_fifo_opens_for_process t (pr_pid p)).2) (sy_kernel s)))
                 (with_fds p (fold_left release ws (pr_fd_table p)))).

Definition remove_all_timers (p : Process) : Process :=
  fold_left (fun p timer_id => (remove_posix_timer_notification p (Z.of_nat timer_id)).2) (seq 0 (length (pr_posix_timers p))) p.

Definition cloexec_fds (t : FdTable) : list Z := fst <$> List.filter (fun x : Z * FdEntry => negb (Z.land (fd_flags x.2) FD_CLOEXEC =? 0)) (FdTable.iter t).

Definition commit_exec_state_impl (locks : bool) (caller_tid : Z) : M unit :=
  let! p := gets sy_proc in
  if has_exited p then fail ESRCH
  else
    let lifecycle_state := pr_state p in
    proc_result (adopt_caller caller_tid) >;
    cancel_fifo_opens_for_process >;
    let! p := gets sy_proc in
    for_each (close_fd locks) (cloexec_fds (pr_fd_table p)) >;
    close_streams >;
    release_exec_image_state >;
    on_proc (fun p => with_signals p (reset_dispositions_for_exec (pr_signals p))) >;
    on_kernel (fun k => with_tables k (k_inet k) (k_unix k) (k_mqueues k) (ps_cleanup_process (k_pshared k) (pr_pid p))) >;
    on_proc (fun p => reset_fork_state (remove_all_timers (reset_image p lifecycle_state))).

Definition commit_exec_state (caller_tid : Z) : M unit := commit_exec_state_impl false caller_tid.
Definition commit_exec_state_with_locks (caller_tid : Z) : M unit := commit_exec_state_impl true caller_tid.

End image.

(** ** Steps that keep what the process holds *)

Section keeping.
Context `{Usize} `{HostIO}.

(** What an exec keeps of a process, and what the calls on descriptors leave alone. *)
Definition lasting (p : Process) :=
  (pr_pid p, pr_ppid p, (pr_uid p, pr_gid p, pr_euid p, pr_egid p), (pr_pgid p, pr_sid p, pr_is_session_leader p), pr_state p,
   pr_cwd p, pr_umask p, pr_nice p, pr_rlimits p, (pr_alarm_deadline_ns p, pr_alarm_interval_ns p), (pr_environ p, pr_argv p), pr_terminal p).
Definition other_fields (p : Process) := (lasting p, pr_signals p, pr_main_thread_signals p, pr_threads p, pr_posix_timers p).

Record calm (p p' : Process) : Prop := {
  cm_uses : same_uses p p';
  cm_fds : fds_of p' = fds_of p;
  cm_wf : fd_wf (pr_fd_table p) -> fd_wf (pr_fd_table p');
  cm_max : max_fds (pr_fd_table p') = max_fds (pr_fd_table p);
  cm_counts : forall i, ref_count <$> Ofd.get (pr_ofd_table p') i = ref_count <$> Ofd.get (pr_ofd_table p) i;
}.

Lemma calm_descs p p' ext : calm p p' -> descs_ok p ext -> descs_ok p' ext.
Proof.
  intros [_ Cf Cw Cm Cc] [D1 D2 D3 D4]. split; [by apply Cw|by rewrite Cm|by rewrite Cf|]. rewrite Cf. intros i. specialize (D4 i). specialize (Cc i).
  destruct (Ofd.get (pr_ofd_table p') i), (Ofd.get (pr_ofd_table p) i); try done. cbn in Cc. injection Cc as ->. done.
Qed.

(** Same tables. *)
Lemma calm_tables p p' : pr_fd_table p' = pr_fd_table p -> pr_ofd_table p' = pr_ofd_table p -> pr_sockets p' = pr_sockets p -> calm p p'.
Proof. intros E1 E2 E3. split; [split; [intros i; by rewrite E2|done]|unfold fds_of; by rewrite E1|by rewrite E1|by rewrite E1|intros i; by rewrite E2]. Qed.

#[export] Instance calm_preorder : PreOrder calm.
Proof.
  split; [intros p; by apply calm_tables|]. intros a b c [U1 F1 W1 M1 C1] [U2 F2 W2 M2 C2]. split; [by etrans|congruence|auto|congruence|intros i; by rewrite C2].
Qed.

Variables (t0 : PipeTable) (id0 : Z) (rest : list use).

Lemma keeps_calm f s :
  descs_ok (sy_proc s) [] -> socks_ok (sy_proc s) -> calm (sy_proc s) (f (sy_proc s)) ->
  keeps t0 id0 rest (on_proc f) s (fun r s' => r = Ok tt /\ sy_proc s' = f (sy_proc s)).
Proof.
  intros Hd Hs Hc. eapply keeps_mono; [|apply (keeps_quiet _ _ _ _ s (fun r p' => r = Ok tt /\ p' = f (sy_proc s))); [done|]].
  - by intros r s' [[? ?] _].
  - eexists _, _. split; [reflexivity|]. split; [apply Hc|]. split; [by eapply calm_descs|done].
Qed.

Lemma keeps_does m s :
  does t0 id0 m [] -> descs_ok (sy_proc s) [] -> socks_ok (sy_proc s) -> keeps t0 id0 rest m s (fun r s' => r = Ok tt /\ sy_proc s' = sy_proc s).
Proof.
  intros Hm Hd Hs. destruct (Hm s (process_uses t0 (sy_proc s) ++ rest)) as (r & s' & E & M & -> & Ep). exists (Ok tt), s'. rewrite Ep. by split_and!.
Qed.

(** One step of a sequence. *)
Lemma keeps_then {A} m (m' : M A) s (Q : Process -> Prop) Q' :
  keeps t0 id0 rest m s (fun r s' => r = Ok tt /\ Q (sy_proc s')) ->
  (forall s', descs_ok (sy_proc s') [] -> socks_ok (sy_proc s') -> Q (sy_proc s') -> keeps t0 id0 rest m' s' Q') -> keeps t0 id0 rest (m >; m') s Q'.
Proof. intros Hm Hm'. apply keeps_bind. eapply keeps_impl; [|exact Hm]. intros r s' D S [-> Hq]. by apply Hm'. Qed.

Lemma keeps_done s (Q : Process -> Prop) : descs_ok (sy_proc s) [] -> socks_ok (sy_proc s) -> Q (sy_proc s) -> keeps t0 id0 rest (ret tt) s (fun r s' => r = Ok tt /\ Q (sy_proc s')).
Proof. intros Hd Hs Hq. by apply (keeps_ret _ _ _ (Ok tt)). Qed.

(** *** Closing a list of descriptors *)

Lemma close_other_fields p fd : other_fields (close_proc p fd) = other_fields p.
Proof.
  unfold close_proc. destruct (FdTable.free _ _) as [t [idx|]]; [|done]. destruct (Ofd.get _ _) as [o|]; [|done]. destruct (dec_ref _ _) as [[] table]; [|done].
  unfold closed_process. by destruct (file_type o).
Qed.

Lemma keeps_close_fd locks fd s :
  descs_ok (sy_proc s) [] -> socks_ok (sy_proc s) ->
  keeps t0 id0 rest (close_fd locks fd) s (fun r s' => r = Ok tt /\ sy_proc s' = close_proc (sy_proc s) fd).
Proof.
  intros Hd Hs. unfold close_fd. apply keeps_bind, keeps_attempt.
  assert (keeps t0 id0 rest (if locks then sys_close_with_locks fd else sys_close fd) s (fun r s' => sy_proc s' = close_proc (sy_proc s) fd)) as Hc.
  { destruct locks; [eapply keeps_mono; [|by apply keeps_close_call]|eapply keeps_mono; [|by apply (keeps_close _ _ _ false)]]; by intros r s' [? _]. }
  eapply keeps_impl; [|exact Hc]. intros r s' D S E. cbn beta iota. by apply (keeps_ret _ _ _ (Ok tt)).
Qed.

(** Only descriptors are gone. *)
Record closed_to (p p' : Process) (fds : list Z) : Prop := {
  ct_fds : fds_of p' = fold_left fd_close fds (fds_of p);
  ct_other : other_fields p' = other_fields p;
}.

Lemma keeps_close_all locks fds s :
  descs_ok (sy_proc s) [] -> socks_ok (sy_proc s) ->
  keeps t0 id0 rest (for_each (close_fd locks) fds) s (fun r s' => r = Ok tt /\ closed_to (sy_proc s) (sy_proc s') fds).
Proof.
  revert s. induction fds as [|fd fds IH]; intros s Hd Hs; cbn [for_each]; [by apply (keeps_ret _ _ _ (Ok tt))|].
  eapply (keeps_then _ _ _ (fun p' => p' = close_proc (sy_proc s) fd)); [by apply keeps_close_fd|]. intros s1 D S E1.
  eapply keeps_mono; [|by apply IH]. intros r s2 [-> [F2 O2]]. split; [done|]. rewrite E1 in F2, O2. split.
  - by rewrite F2, close_proc_fds.
  - by rewrite O2, close_other_fields.
Qed.

Lemma fold_close_lookup fds (m : fd_map) i : fold_left fd_close fds m !! i = if decide (Z.of_nat i ∈ fds) then None else m !! i.
Proof.
  revert m. induction fds as [|fd fds IH]; intros m; cbn [fold_left]; [done|]. rewrite IH.
  assert (fd_close m fd !! i = if decide (fd = Z.of_nat i) then None else m !! i) as ->.
  { unfold fd_close. destruct (fd_index fd) as [j|] eqn:Ej.
    - apply fd_index_Some in Ej as ->. destruct (decide (Z.of_nat j = Z.of_nat i)) as [E|E]; [apply Nat2Z.inj in E as ->; apply lookup_delete_eq|]. apply lookup_delete_ne. congruence.
    - destruct (decide (fd = Z.of_nat i)) as [->|]; [|done]. by rewrite fd_index_of_nat in Ej. }
  destruct (decide (Z.of_nat i ∈ fds)), (decide (Z.of_nat i ∈ fd :: fds)), (decide (fd = Z.of_nat i)); set_solver.
Qed.

Lemma iter_spec p fd e : descs_ok p [] -> (fd, e) ∈ FdTable.iter (pr_fd_table p) <-> exists i, fd = Z.of_nat i /\ fds_of p !! i = Some e.
Proof.
  intros [_ _ D _]. unfold FdTable.iter. rewrite list_elem_of_omap. set (l := FdTable.entries (pr_fd_table p)).
  assert (forall i x, (i, x) ∈ zip (seq 0 (length l)) l <-> l !! i = Some x) as Hz.
  { intros i x. rewrite list_elem_of_lookup. setoid_rewrite lookup_zip_Some. split.
    - intros (k & Hk & Hx). apply lookup_seq in Hk as [-> _]. done.
    - intros Hi. exists i. split; [|done]. apply lookup_seq. split; [done|]. by eapply lookup_lt_Some. }
  split.
  - intros ([i x] & Hin%Hz & Hx). destruct x as [x|]; [|done]. injection Hx as <- ->. exists i.
    assert (fds_of p !! i = Some e) as Hf by (unfold fds_of; rewrite open_map_lookup; fold l; by rewrite Hin). split; [|done].
    specialize (D i e Hf). apply as_i32_nat_id. lia.
  - intros (i & -> & Hf). pose proof (D i e Hf) as Hr. exists (i, Some e). split.
    + apply Hz. unfold fds_of in Hf. rewrite open_map_lookup in Hf. fold l in Hf. destruct (l !! i) as [[]|]; [|done|done]. by injection Hf as ->.
    + cbn. by rewrite as_i32_nat_id by lia.
Qed.

(** *** The rest of an image *)

(** The same descriptors, and the other fields as they were. *)
Definition kept (p p' : Process) : Prop := fds_of p' = fds_of p /\ other_fields p' = other_fields p.

#[export] Instance kept_preorder : PreOrder kept.
Proof. split; [by intros p|]. intros a b c [F1 O1] [F2 O2]. split; congruence. Qed.

(** A step of a clean-up: it cannot fail, and keeps the descriptors. *)
Definition tidies (m : M unit) : Prop :=
  forall s, descs_ok (sy_proc s) [] -> socks_ok (sy_proc s) -> keeps t0 id0 rest m s (fun r s' => r = Ok tt /\ kept (sy_proc s) (sy_proc s')).

Lemma tidies_seq m m' : tidies m -> tidies m' -> tidies (m >; m').
Proof.
  intros Hm Hm' s Hd Hs. eapply keeps_then; [by apply Hm|]. intros s1 D S K1. eapply keeps_mono; [|by apply Hm']. intros r s2 [-> K2]. split; [done|]. by etrans.
Qed.

Lemma tidies_gets {A} (g : Sys -> A) (f : A -> M unit) : (forall a, tidies (f a)) -> tidies (bind (gets g) f).
Proof. intros Hf s Hd Hs. by apply keeps_gets, Hf. Qed.

Lemma tidies_does m : does t0 id0 m [] -> tidies m.
Proof. intros Hm s Hd Hs. eapply keeps_mono; [|by apply keeps_does]. intros r s' [-> ->]. done. Qed.

Lemma tidies_calm f : (forall p, calm p (f p)) -> (forall p, other_fields (f p) = other_fields p) -> tidies (on_proc f).
Proof. intros Hc Ho s Hd Hs. eapply keeps_mono; [|apply keeps_calm; [done|done|apply Hc]]. intros r s' [-> ->]. split; [done|]. split; [apply Hc|apply Ho]. Qed.

Lemma tidies_if (b : bool) m : tidies m -> tidies (if b then m else ret tt).
Proof. intros Hm. destruct b; [done|]. apply tidies_does, does_ret. Qed.

Lemma tidies_each {A} (f : A -> M unit) l : (forall x, tidies (f x)) -> tidies (for_each f l).
Proof. intros Hf. induction l as [|x l IH]; cbn [for_each]; [apply tidies_does, does_ret|by apply tidies_seq]. Qed.

Lemma drop_gl_key o : res_key (drop_gl o) = res_key o.
Proof. unfold drop_gl. by destruct (dri_state o) as [[]|]. Qed.
Lemma drop_gl_count o : ref_count (drop_gl o) = ref_count o.
Proof. unfold drop_gl. by destruct (dri_state o) as [[]|]. Qed.

Lemma get_map_ofds f t i : Ofd.get (map_ofds f t) i = f <$> Ofd.get t i.
Proof. rewrite !get_slot_at. unfold slot_at, map_ofds. cbn [Ofd.entries]. rewrite list_lookup_fmap. by destruct (Ofd.entries t !! i) as [[]|]. Qed.

Lemma calm_map_ofds f p : (forall o, res_key (f o) = res_key o) -> (forall o, ref_count (f o) = ref_count o) -> calm p (with_ofds p (map_ofds f (pr_ofd_table p))).
Proof.
  intros Hk Hc. split; [split; [|done]|done|done|done|]; intros i; cbn [with_ofds with_descriptors pr_ofd_table]; rewrite get_map_ofds; destruct (Ofd.get _ i); cbn; by rewrite ?Hk, ?Hc.
Qed.

Lemma tidies_dri : tidies release_process_dri_mappings.
Proof.
  apply tidies_gets. intros p. apply tidies_seq; [apply tidies_calm; [|done]; intros; by apply calm_tables|].
  apply tidies_seq; [by apply tidies_each; intros; apply tidies_does, does_tell|].
  apply tidies_seq; [apply tidies_calm; [|done]; intros; apply calm_map_ofds; [apply drop_gl_key|apply drop_gl_count]|]. by apply tidies_if, tidies_does, does_tell.
Qed.

Lemma tidies_streams : tidies close_streams.
Proof.
  apply tidies_gets. intros p. apply tidies_each. intros i. apply tidies_gets. intros p1. destruct (_ ≫= id) as [stream|]; [|apply tidies_does, does_ret].
  apply tidies_seq; [apply tidies_calm; [|done]; intros; by apply calm_tables|]. by apply tidies_does, does_call.
Qed.

Lemma tidies_locks (b : bool) f : tidies (if b then remove_locks f else ret tt).
Proof. apply tidies_if, tidies_does, does_remove_locks. Qed.

Lemma tidies_image : tidies release_exec_image_state.
Proof.
  apply tidies_gets. intros p. apply tidies_seq; [|apply tidies_dri]. apply tidies_if. apply tidies_seq; [by apply tidies_does, does_tell|].
  apply tidies_seq; [apply tidies_calm; [|done]; intros; by apply calm_tables|]. destruct (proc_has_virtual_device_fd p Fb0); [apply tidies_does, does_ret|].
  apply tidies_does. intros s own. eexists _, _. split; [reflexivity|]. split; [by apply moved_same|done].
Qed.

Lemma release_waiters (ws : list FifoOpenWaiter) t :
  fd_wf t -> let t' := fold_left (fun t w => (FdTable.release_reserved t (fw_reserved_fd w)).1) ws t in
  fd_wf t' /\ FdTable.entries t' = FdTable.entries t /\ max_fds t' = max_fds t.
Proof.
  revert t. induction ws as [|w ws IH]; intros t Hw; cbn [fold_left]; [done|].
  destruct (release_reserved t (fw_reserved_fd w)) as [t1 b] eqn:E1. pose proof (release_reserved_refines _ _ _ _ Hw E1) as [Hw1 _].
  assert (FdTable.entries t1 = FdTable.entries t /\ max_fds t1 = max_fds t) as [<- <-] by (unfold release_reserved in E1; destruct (fd_index _); by simplify_eq/=). by apply IH.
Qed.

Lemma tidies_cancel : tidies cancel_fifo_opens_for_process.
Proof.
  intros s Hd Hs. unfold keeps, cancel_fifo_opens_for_process. cbv beta. pose proof (fun k own => stepped_cancel t0 id0 (pr_pid (sy_proc s)) k own) as Hk.
  destruct (table_cancel_fifo_opens_for_process (k_pipes (sy_kernel s)) (pr_pid (sy_proc s))) as [ws pt]. set (ft := fold_left (fun (t : FdTable) (w : FifoOpenWaiter) => (FdTable.release_reserved t (fw_reserved_fd w)).1) ws (pr_fd_table (sy_proc s))). pose proof (release_waiters ws _ (ds_wf _ _ Hd)) as (W1 & W2 & W3). fold ft in W1, W2, W3.
  set (s1 := set_kernel s (on_pipes (fun t => (table_cancel_fifo_opens_for_process t (pr_pid (sy_proc s))).2) (sy_kernel s))). set (p' := with_fds (sy_proc s) ft).
  assert (calm (sy_proc s) p') as Hc by (split; [by split|unfold fds_of; cbn; by rewrite W2|done|exact W3|done]).
  exists (Ok tt), (set_proc s1 p'). split; [done|]. cbn [set_proc sy_proc]. rewrite (same_uses_process t0 _ _ (cm_uses _ _ Hc)).
  split; [eapply moved_trans; [apply moved_kernel, Hk|by apply moved_same]|]. split; [apply same_fewer, Hc|]. split; [by eapply calm_descs|]. split; [eapply same_uses_socks; [apply Hc|done]|].
  split; [done|]. split; [apply Hc|done].
Qed.

Lemma tidies_pshared pid : tidies (on_kernel (fun k => with_tables k (k_inet k) (k_unix k) (k_mqueues k) (ps_cleanup_process (k_pshared k) pid))).
Proof. apply tidies_does, does_kernel. intros k own. apply stepped_table; [|done..]. intros Ha. split; [by destruct Ha|]. split; by apply closes_same. Qed.

(** *** Exit *)

Lemma close_all_fds p : descs_ok p [] -> fold_left fd_close (fst <$> FdTable.iter (pr_fd_table p)) (fds_of p) = ∅.
Proof.
  intros Hd. apply map_eq. intros i. rewrite fold_close_lookup, lookup_empty. case_decide as Hin; [done|]. destruct (fds_of p !! i) as [e|] eqn:Ei; [|done].
  destruct Hin. apply list_elem_of_fmap. exists (Z.of_nat i, e). split; [done|]. apply iter_spec; [done|]. by exists i.
Qed.

Lemma keeps_cleanup locks s :
  descs_ok (sy_proc s) [] -> socks_ok (sy_proc s) ->
  keeps t0 id0 rest (cleanup_process_for_exit locks) s (fun r s' => r = Ok tt /\ fds_of (sy_proc s') = ∅ /\ other_fields (sy_proc s') = other_fields (sy_proc s)).
Proof.
  intros Hd Hs. unfold cleanup_process_for_exit. eapply keeps_then; [by apply tidies_dri|]. intros s1 D1 S1 [F1 O1]. apply keeps_gets.
  eapply (keeps_then _ _ _ (fun p' => closed_to (sy_proc s1) p' (fst <$> FdTable.iter (pr_fd_table (sy_proc s1))))); [by apply keeps_close_all|]. intros s2 D2 S2 [F2 O2]. rewrite close_all_fds in F2 by done.
  eapply keeps_mono; [|apply tidies_seq; [apply tidies_streams|apply tidies_locks|done|done]]. intros r s3 [-> [F3 O3]]. split; [done|]. split; congruence.
Qed.

(** *** Exec *)

Definition stays (x : nat * FdEntry) : Prop := Z.land (fd_flags x.2) FD_CLOEXEC = 0.
#[local] Instance stays_dec x : Decision (stays x) := ltac:(unfold stays; apply _).

(** What exec leaves of the descriptors. *)
Definition exec_fds (m : fd_map) : fd_map := filter stays m.

Lemma close_cloexec_fds p : descs_ok p [] -> fold_left fd_close (cloexec_fds (pr_fd_table p)) (fds_of p) = exec_fds (fds_of p).
Proof.
  intros Hd. apply map_eq. intros i. rewrite fold_close_lookup.
  assert (Z.of_nat i ∈ cloexec_fds (pr_fd_table p) <-> exists e, fds_of p !! i = Some e /\ ~ stays (i, e)) as Hin.
  { unfold cloexec_fds. rewrite list_elem_of_fmap. split.
    - intros ([fd e] & Efd & Hx). cbn in Efd. subst fd. apply list_elem_of_In, filter_In in Hx as [Hx%list_elem_of_In Hf]. apply iter_spec in Hx as (j & Ej & Hj); [|done]. apply Nat2Z.inj in Ej as <-.
      exists e. split; [done|]. unfold stays. cbn in *. by apply negb_true_iff, Z.eqb_neq in Hf.
    - intros (e & He & Hn). exists (Z.of_nat i, e). split; [done|]. apply list_elem_of_In, filter_In. split; [apply list_elem_of_In, iter_spec; [done|by exists i]|].
      unfold stays in Hn. cbn in *. by apply negb_true_iff, Z.eqb_neq. }
  unfold exec_fds. case_decide as Hd1.
  - apply Hin in Hd1 as (e & He & Hn). symmetry. apply map_lookup_filter_None. right. intros e' He'. by rewrite He in He'; injection He' as <-.
  - destruct (fds_of p !! i) as [e|] eqn:Ei; symmetry; [|apply map_lookup_filter_None; by left]. apply map_lookup_filter_Some. split; [done|].
    destruct (decide (stays (i, e))); [done|]. destruct Hd1. apply Hin. by exists e.
Qed.

Lemma timers_fields l p :
  let p' := fold_left (fun p timer_id => (remove_posix_timer_notification p (Z.of_nat timer_id)).2) l p in
  exists s m ts, p' = with_all_signals p s m ts /\ actions s = actions (pr_signals p) /\ blocked s = blocked (pr_signals p) /\ (pr_threads p = [] -> ts = []).
Proof.
  revert p. induction l as [|i l IH]; intros p; cbn [fold_left]; [exists (pr_signals p), (pr_main_thread_signals p), (pr_threads p); by destruct p|].
  destruct (IH (remove_posix_timer_notification p (Z.of_nat i)).2) as (s & m & ts & E & A & B & T). exists s, m, ts. rewrite E, A, B. revert T.
  unfold remove_posix_timer_notification, remove_timer_notification. destruct (remove_timer_info _ _ _) as [r1 pq]. destruct (pt_remove_timer_notification _ _) as [r2 m2].
  destruct (remove_from_threads _ _) as [r3 l3] eqn:E3. cbn. intros T. split; [done|]. split; [done|]. split; [done|]. intros Ht. apply T. rewrite Ht in E3. by injection E3.
Qed.

Lemma find_position {A} (f : A -> bool) l : find_first f l = position f l ≫= fun i => l !! i.
Proof. induction l as [|x l IH]; [done|]. unfold find_first in *. cbn [List.find position]. destruct (f x); [done|]. rewrite IH. by destruct (position f l). Qed.

(** The thread that calls exec, if it is one of the process. *)
Definition calls_exec (p : Process) (tid : Z) : Prop := is_main_thread p tid = true \/ is_Some (get_thread p tid).

Lemma adopt_spec tid p :
  match adopt_caller tid p with
  | (Ok _, p') => calls_exec p tid /\ calm p p' /\ lasting p' = lasting p /\ actions (pr_signals p') = actions (pr_signals p) /\ blocked (pr_signals p') = blocked_for p tid
  | (Err e, p') => e = ESRCH /\ p' = p /\ ~ calls_exec p tid
  end.
Proof.
  unfold adopt_caller, calls_exec, blocked_for. rewrite <- negb_orb. change ((tid =? 0) || (tid =? pr_pid p)) with (is_main_thread p tid).
  destruct (is_main_thread p tid); cbn [negb].
  - split; [by left|]. split; [by apply calm_tables|done].
  - unfold get_thread. rewrite find_position. destruct (position _ _) as [i|]; cbn [mbind option_bind]; [|split_and!; [done|done|]; intros [?|[? ?]]; done].
    destruct (pr_threads p !! i) as [t|]; [|split_and!; [done|done|]; intros [?|[? ?]]; done].
    split; [right; by eexists|]. split; [by apply calm_tables|done].
Qed.

(** The process after a successful exec. *)
Record exec_image (tid : Z) (p p' : Process) : Prop := {
  ei_fds : fds_of p' = exec_fds (fds_of p);
  ei_lasting : lasting p' = lasting p;
  ei_mask : blocked (pr_signals p') = blocked_for p tid;
  ei_actions : actions (pr_signals p') = take 1 (actions (pr_signals p)) ++ map exec_action (drop 1 (actions (pr_signals p)));
  ei_threads : pr_threads p' = [] /\ pr_sigsuspend_saved_mask p' = None;
  ei_memory : pr_memory p' = Memory.new;
  ei_timers : pr_posix_timers p' = [];
  ei_fork : pr_fork_child p' = false /\ pr_fork_pipe_replay p' = [] /\ pr_has_exec p' = true;
}.

(** The last assignments. *)
Lemma keeps_reset state s :
  descs_ok (sy_proc s) [] -> socks_ok (sy_proc s) -> pr_state (sy_proc s) = state ->
  keeps t0 id0 rest (on_proc (fun p => reset_fork_state (remove_all_timers (reset_image p state)))) s (fun r s' => r = Ok tt /\
    let p := sy_proc s in let p' := sy_proc s' in
    fds_of p' = fds_of p /\ lasting p' = lasting p /\ actions (pr_signals p') = actions (pr_signals p) /\ blocked (pr_signals p') = blocked (pr_signals p) /\
    (pr_threads p' = [] /\ pr_sigsuspend_saved_mask p' = None) /\ pr_memory p' = Memory.new /\ pr_posix_timers p' = [] /\
    (pr_fork_child p' = false /\ pr_fork_pipe_replay p' = [] /\ pr_has_exec p' = true)).
Proof.
  intros Hd Hs Est. set (p := sy_proc s) in *. unfold remove_all_timers.
  pose proof (fun l => timers_fields l (reset_image p state)) as Ht. cbv zeta in Ht.
  destruct (Ht (seq 0 (length (pr_posix_timers (reset_image p state))))) as (sg & m & ts & E & A & B & T). specialize (T eq_refl). subst ts.
  eapply keeps_mono; [|apply keeps_calm; [done|done|]]; cbv beta; fold p.
  - intros r s' [-> ->]. fold p. rewrite E. split; [done|]. unfold lasting. cbn. rewrite Est. by split_and!.
  - rewrite E. by apply calm_tables.
Qed.

Definition adopted (tid : Z) (p p' : Process) : Prop :=
  fds_of p' = fds_of p /\ lasting p' = lasting p /\ actions (pr_signals p') = actions (pr_signals p) /\ blocked (pr_signals p') = blocked_for p tid.

Lemma keeps_adoption tid s :
  descs_ok (sy_proc s) [] -> socks_ok (sy_proc s) -> calls_exec (sy_proc s) tid ->
  keeps t0 id0 rest (proc_result (adopt_caller tid)) s (fun r s' => r = Ok tt /\ adopted tid (sy_proc s) (sy_proc s')).
Proof.
  intros Hd Hs Hc. pose proof (adopt_spec tid (sy_proc s)) as Ha. destruct (adopt_caller tid (sy_proc s)) as [[[]|e] p'] eqn:Ea; [|by destruct Ha as (_ & _ & [])].
  destruct Ha as (_ & C & L & A & B). eapply keeps_mono; [|apply (keeps_quiet _ _ _ _ s (fun r p2 => r = Ok tt /\ p2 = p')); [done|]].
  - intros r s' [[-> ->] _]. split; [done|]. split; [apply C|done].
  - exists (Ok tt), p'. unfold proc_result. rewrite Ea. split; [done|]. split; [apply C|]. split; [by eapply calm_descs|done].
Qed.

Lemma commit_refused locks tid s : has_exited (sy_proc s) = true \/ ~ calls_exec (sy_proc s) tid -> commit_exec_state_impl locks tid s = Some (Err ESRCH, s).
Proof.
  intros Hr. unfold commit_exec_state_impl, bind at 1, gets. destruct (has_exited (sy_proc s)); [done|]. destruct Hr as [|Hr]; [done|].
  pose proof (adopt_spec tid (sy_proc s)) as Ha. unfold bind at 1, proc_result. destruct (adopt_caller tid (sy_proc s)) as [[[]|e] p']; [by destruct Ha|].
  destruct Ha as (-> & -> & _). by rewrite set_proc_same.
Qed.

Lemma keeps_commit locks tid s :
  descs_ok (sy_proc s) [] -> socks_ok (sy_proc s) -> has_exited (sy_proc s) = false -> calls_exec (sy_proc s) tid ->
  keeps t0 id0 rest (commit_exec_state_impl locks tid) s (fun r s' => r = Ok tt /\ exec_image tid (sy_proc s) (sy_proc s')).
Proof.
  intros Hd Hs Hx Hc. unfold commit_exec_state_impl. apply keeps_gets. rewrite Hx. cbv zeta. set (p := sy_proc s) in *.
  eapply keeps_then; [by apply keeps_adoption|]. intros s1 D1 S1 (F1 & L1 & A1 & B1). fold p in F1, L1, A1, B1.
  eapply keeps_then; [by apply tidies_cancel|]. intros s2 D2 S2 [F2 O2]. apply keeps_gets.
  eapply (keeps_then _ _ _ (fun p' => closed_to (sy_proc s2) p' (cloexec_fds (pr_fd_table (sy_proc s2))))); [by apply keeps_close_all|]. intros s3 D3 S3 [F3 O3]. rewrite close_cloexec_fds in F3 by done.
  eapply keeps_then; [by apply tidies_streams|]. intros s4 D4 S4 [F4 O4]. eapply keeps_then; [by apply tidies_image|]. intros s5 D5 S5 [F5 O5].
  assert (fds_of (sy_proc s5) = exec_fds (fds_of p)) as F5' by (by rewrite F5, F4, F3, F2, F1).
  assert (other_fields (sy_proc s5) = other_fields (sy_proc s1)) as O5' by (by rewrite O5, O4, O3, O2). clear O2 O3 O4 O5 F1 F2 F3 F4 F5.
  eapply (keeps_then _ _ _ (fun p' => p' = with_signals (sy_proc s5) (reset_dispositions_for_exec (pr_signals (sy_proc s5))))); [by apply keeps_calm; [..|apply calm_tables]|]. intros s6 D6 S6 E6.
  eapply (keeps_then _ _ _ (fun p' => p' = sy_proc s6)); [apply keeps_does; [|done|done]|]. 
  { apply does_kernel. intros k own. apply stepped_table; [|done..]. intros Ha. split; [by destruct Ha|]. split; by apply closes_same. }
  intros s7 D7 S7 E7. rewrite E6 in E7. clear s6 D6 S6 E6. pose proof (f_equal (fun x => x.1.1.1.1) O5') as OL. pose proof (f_equal (fun x => x.1.1.1.2) O5') as OS. cbn [fst snd other_fields] in OL, OS.
  eapply keeps_mono; [|apply keeps_reset; [done|done|]].
  - intros r s8 (-> & R1 & R2 & R3 & R4 & R5 & R6 & R7 & R8). split; [done|]. rewrite E7 in R1, R2, R3, R4. split; [| | | |done..].
    + by rewrite R1.
    + rewrite R2. change (lasting (sy_proc s5) = lasting p). congruence.
    + rewrite R4. cbn. by rewrite OS.
    + rewrite R3. cbn. by rewrite OS, A1.
  - rewrite E7. pose proof (f_equal (fun x => x.1.1.1.1.1.1.1.2) (eq_trans OL L1)) as Est. exact Est.
Qed.

End keeping.

(** ** What exit and exec promise *)

Section image_calls.
Context `{Usize} `{HostIO}.

Inductive ending := EndNormal (status : Z) | EndSignal (signum : Z).

Definition end_process (e : ending) : M unit :=
  match e with EndNormal status => sys_exit_with_locks status | EndSignal signum => sys_exit_by_signal_with_locks signum end.

Definition record_ending (e : ending) (p : Process) : Process :=
  match e with EndNormal status => (record_normal_exit p status).2 | EndSignal signum => (record_signal_exit p signum).2 end.

(** What a parent can wait for. *)
Definition ended (e : ending) (p : Process) : ProcessState * Z * Z * option ChildWaitEvent :=
  match e with
  | EndNormal status => let st := Z.land status 255 in (Exited, st, 0, wait_record p EVENT_EXITED (as_i32 (Z.shiftl st 8)) CLD_EXITED st)
  | EndSignal signum => let sig := Z.land signum 127 in (Exited, 0, sig, wait_record p EVENT_EXITED sig CLD_KILLED sig)
  end.

Lemma end_process_eq e s :
  end_process e s = if has_exited (sy_proc s) then Some (Ok tt, s) else (cleanup_process_for_exit true >; on_proc (record_ending e)) s.
Proof.
  destruct e; cbn [end_process]; unfold sys_exit_with_locks, sys_exit_impl, sys_exit_by_signal_with_locks, sys_exit_by_signal_impl, bind at 1, gets; by destruct (has_exited (sy_proc s)).
Qed.

Lemma record_ending_calm e p : calm p (record_ending e p).
Proof. destruct e; cbn [record_ending]; unfold record_normal_exit, record_signal_exit; destruct (_ || _); by apply calm_tables. Qed.

(** The identity and the state of a process, without its image. *)
Lemma ended_lasting e p p' : lasting p' = lasting p -> pr_uid p' = pr_uid p /\ pr_state p' = pr_state p /\ ended e p' = ended e p.
Proof.
  intros L. assert (pr_uid p' = pr_uid p) as Eu by exact (f_equal (fun x => x.1.1.1.1.1.1.1.1.1.2.1.1.1) L). assert (pr_state p' = pr_state p) as Es by exact (f_equal (fun x => x.1.1.1.1.1.1.1.2) L).
  split; [done|]. split; [done|]. destruct e; cbn [ended]; unfold wait_record; by rewrite Eu.
Qed.

Lemma record_ending_ended e p :
  has_exited p = false -> let q := record_ending e p in (pr_state q, pr_exit_status q, pr_exit_signal q, pr_wait_event q) = ended e p.
Proof.
  unfold has_exited. intros Hx. apply bool_decide_eq_false in Hx. destruct e; cbn [record_ending]; unfold record_normal_exit, record_signal_exit; by rewrite !bool_decide_eq_false_2 by tauto.
Qed.

Lemma keeps_end t0 id0 rest e s :
  descs_ok (sy_proc s) [] -> socks_ok (sy_proc s) -> has_exited (sy_proc s) = false ->
  keeps t0 id0 rest (end_process e) s (fun r s' => r = Ok tt /\ fds_of (sy_proc s') = ∅ /\
    let q := sy_proc s' in (pr_state q, pr_exit_status q, pr_exit_signal q, pr_wait_event q) = ended e (sy_proc s)).
Proof.
  intros Hd Hs Hx. unfold keeps. rewrite end_process_eq, Hx. change (keeps t0 id0 rest (cleanup_process_for_exit true >; on_proc (record_ending e)) s (fun r s' => r = Ok tt /\ fds_of (sy_proc s') = ∅ /\
    let q := sy_proc s' in (pr_state q, pr_exit_status q, pr_exit_signal q, pr_wait_event q) = ended e (sy_proc s))).
  eapply (keeps_then _ _ _ _ _ _ (fun p' => fds_of p' = ∅ /\ other_fields p' = other_fields (sy_proc s))); [by apply keeps_cleanup|]. intros s1 D1 S1 [F1 O1].
  pose proof (f_equal (fun x => x.1.1.1.1) O1) as L1. cbn [fst other_fields] in L1. destruct (ended_lasting e _ _ L1) as (_ & E1 & E2).
  eapply keeps_mono; [|apply keeps_calm; [done|done|apply record_ending_calm]]. intros r s2 [-> E]. split; [done|]. rewrite E. split; [rewrite <- F1; apply record_ending_calm|].
  etrans; [apply record_ending_ended|exact E2]. unfold has_exited in *. by rewrite E1.
Qed.

Lemma no_fds_no_ofds p : descs_ok p [] -> fds_of p = ∅ -> forall i, Ofd.get (pr_ofd_table p) i = None.
Proof.
  intros Hd Hf i. destruct (Ofd.get (pr_ofd_table p) i) as [o|] eqn:Eo; [|done]. assert (refers p i) as (fd & en & Hfd & _) by (apply live_iff; [done|by eexists]). by rewrite Hf in Hfd.
Qed.

(** C10: Exit releases everything.  When every counter of the machine is the number
    of its holders, [exit] and a terminating signal always finish: the process has
    no descriptor and no description left, every counter is again the number of its
    holders, the host was asked to close exactly the handles and connections that
    were held before and are not held after, each once, and the status and the
    record the parent waits for are the ones of the ending.  A process that has
    ended already is left alone, so the first ending is the one reported. *)
Theorem exit_releases_all e s rest :
  sys_ok s rest ->
  exists s' new, end_process e s = Some (Ok tt, s') /\ sys_ok s' rest /\ sy_calls s' = new ++ sy_calls s /\
    if has_exited (sy_proc s) then s' = s
    else
      fds_of (sy_proc s') = ∅ /\ (forall i, Ofd.get (pr_ofd_table (sy_proc s')) i = None) /\
      (let q := sy_proc s' in (pr_state q, pr_exit_status q, pr_exit_signal q, pr_wait_event q) = ended e (sy_proc s)) /\
      let before := all_uses (sy_kernel s) (process_uses (k_pipes (sy_kernel s)) (sy_proc s) ++ rest) [] in
      let after := all_uses (sy_kernel s') (process_uses (k_pipes (sy_kernel s')) (sy_proc s') ++ rest) [] in
      closes UHandle before after (omap close_of (rev new)) /\ closes UNet before after (omap net_close_of (rev new)).
Proof.
  intros Hok. destruct (has_exited (sy_proc s)) eqn:Hx; [exists s, []; rewrite end_process_eq, Hx; done|].
  destruct (keeps_ok _ s rest _ Hok (keeps_end _ _ rest e s (so_descs _ _ Hok) (so_socks _ _ Hok) Hx)) as (r & s' & new & E & Hok' & (-> & F & W) & Ec & _ & Hcl).
  exists s', new. split; [done|]. split; [done|]. split; [done|]. split; [done|]. split; [|done]. apply no_fds_no_ofds; [apply Hok'|done].
Qed.

(** C9: Exec closes exactly the close-on-exec descriptors.  A process that has
    ended, or a caller that is no thread of the process, gets [ESRCH] and nothing
    changes.  Otherwise exec always succeeds: the open descriptors are those that
    were not marked close-on-exec, with the same descriptions; a description is
    there exactly when a descriptor refers to it; every counter of the machine is
    again the number of its holders, and the host closed exactly what lost its last
    holder.  Identities, directory, limits, alarms, environment and terminal stay;
    ignored signals stay ignored and the others return to their default; the mask
    is the calling thread's; threads, timers, memory and fork state are gone. *)
Theorem exec_keeps_and_closes tid s rest :
  sys_ok s rest ->
  exists r s' new, commit_exec_state_with_locks tid s = Some (r, s') /\ sys_ok s' rest /\ sy_calls s' = new ++ sy_calls s /\
    (has_exited (sy_proc s) = true \/ ~ calls_exec (sy_proc s) tid -> r = Err ESRCH /\ s' = s) /\
    (has_exited (sy_proc s) = false -> calls_exec (sy_proc s) tid ->
      r = Ok tt /\ exec_image tid (sy_proc s) (sy_proc s') /\ (forall i, is_Some (Ofd.get (pr_ofd_table (sy_proc s')) i) <-> refers (sy_proc s') i)) /\
    let before := all_uses (sy_kernel s) (process_uses (k_pipes (sy_kernel s)) (sy_proc s) ++ rest) [] in
    let after := all_uses (sy_kernel s') (process_uses (k_pipes (sy_kernel s')) (sy_proc s') ++ rest) [] in
    closes UHandle before after (omap close_of (rev new)) /\ closes UNet before after (omap net_close_of (rev new)).
Proof.
  intros Hok. assert (Decision (calls_exec (sy_proc s) tid)) as Hdec by (unfold calls_exec; apply _). unfold commit_exec_state_with_locks.
  destruct (decide (has_exited (sy_proc s) = true \/ ~ calls_exec (sy_proc s) tid)) as [Hr|Hr].
  - exists (Err ESRCH), s, []. rewrite commit_refused by done. split; [done|]. split; [done|]. split; [done|]. split; [done|]. split; [|split; by apply closes_same].
    intros Hx Hc. destruct Hr as [|[]]; congruence.
  - assert (has_exited (sy_proc s) = false) as Hx by (by destruct (has_exited _); [destruct Hr; left|]). assert (calls_exec (sy_proc s) tid) as Hc by (destruct Hdec; [done|]; destruct Hr; by right).
    destruct (keeps_ok _ s rest _ Hok (keeps_commit _ _ rest true tid s (so_descs _ _ Hok) (so_socks _ _ Hok) Hx Hc)) as (r & s' & new & E & Hok' & [-> Hi] & Ec & _ & Hcl).
    exists (Ok tt), s', new. split; [done|]. split; [done|]. split; [done|]. split; [done|]. split; [|done]. intros _ _. split; [done|]. split; [done|]. intros i. apply live_iff, Hok'.
Qed.

End image_calls.

(** ** An exit and an exec of [life_leader] *)

#[local] Instance image_host : HostIO := { host_unit _ _ := Ok tt; host_stat _ _ := Err EIO; host_int _ _ := Err EIO; host_bytes _ _ := Err EIO; host_time _ _ := Err EIO }.

(** The leader's own file is closed; the file another process shares is not. *)
Lemma exit_releases_all_witness :
  exists s', end_process (EndNormal 258) sys_life = Some (Ok tt, s') /\ sys_ok s' [UHandle 9] /\ omap close_of (rev (sy_calls s')) = [8] /\ pr_exit_status (sy_proc s') = 2 /\
    end_process (EndSignal 9) s' = Some (Ok tt, s').
Proof.
  assert (match end_process (EndNormal 258) sys_life with
          | Some (_, s') => omap close_of (rev (sy_calls s')) = [8] /\ pr_exit_status (sy_proc s') = 2 /\ has_exited (sy_proc s') = true
          | None => False end) as Hc by (vm_compute; by split_and!).
  destruct (exit_releases_all (EndNormal 258) sys_life [UHandle 9] life_sys_ok) as (s' & new & E & Hok & _).
  destruct (exit_releases_all (EndSignal 9) s' [UHandle 9] Hok) as (s2 & new2 & E2 & Hok2 & _ & H2).
  rewrite E in Hc. destruct Hc as (H3 & H4 & H5). rewrite H5 in H2. rewrite H2 in E2. exists s'. exact (conj E (conj Hok (conj H3 (conj H4 E2)))).
Defined.

(** A close-on-exec mark, then an exec of the main thread. *)
Lemma exec_keeps_and_closes_witness :
  exists s1 s' rest', desc_exec (CFcntl 2 F_SETFD FD_CLOEXEC) sys_life = Some (Ok (0, 0), s1) /\ commit_exec_state_with_locks 0 s1 = Some (Ok tt, s') /\ sys_ok s' rest' /\
    omap close_of (rev (sy_calls s')) = [8] /\ fd_at (fds_of (sy_proc s')) 2 = None /\ fd_at (fds_of (sy_proc s')) 3 = fd_at (fds_of (sy_proc s1)) 3.
Proof.
  assert (match desc_exec (CFcntl 2 F_SETFD FD_CLOEXEC) sys_life with
          | Some (r1, s1) => r1 = Ok (0, 0) /\ has_exited (sy_proc s1) = false /\ match commit_exec_state_with_locks 0 s1 with
             | Some (_, s') => omap close_of (rev (sy_calls s')) = [8] /\ fd_at (fds_of (sy_proc s')) 2 = None /\ fd_at (fds_of (sy_proc s')) 3 = fd_at (fds_of (sy_proc s1)) 3
             | None => False end
          | None => False end) as Hc by (vm_compute; done).
  destruct (desc_exec (CFcntl 2 F_SETFD FD_CLOEXEC) sys_life) as [[r1 s1]|] eqn:E1; [|destruct Hc].
  pose proof (desc_step_ok _ _ (DStep (CFcntl 2 F_SETFD FD_CLOEXEC) _ [UHandle 9] _ _ I E1) life_sys_ok) as Hok. cbn [fst snd] in Hok.
  destruct (exec_keeps_and_closes 0 s1 _ Hok) as (r & s' & new & E & Hok' & _ & _ & Hs & _).
  rewrite E in Hc. destruct Hc as (H1 & H2 & H3). destruct (Hs H2 (or_introl eq_refl)) as [Hr _]. rewrite Hr in E. rewrite H1. exists s1, s', ([UHandle 9]). exact (conj eq_refl (conj E (conj Hok' H3))).
Defined.
