(* ===== verification/Procfs.v ===== *)
(** * The process file system ([crates/kernel/src/procfs.rs])

    Paths under [/proc], the metadata and links of their entries, the texts of
    the regular ones, and directory listing in the format of [getdents64].  The
    round trips: a rendered path is parsed back to its entry, and a directory read
    in any number of calls gives every entry once. *)

From Stdlib Require Import String Ascii.
From S2P Require Import Prelude Bytes Abi Path FdTable Lock Ofd Wakeup Pipe PipeTable Memory Signal Backing Socket Names Mqueue Process Dri Devices Kernel Accounts ProcTable Lifecycle Fork Sys Descriptors Releases Syscalls.

(** ** Text *)

(** A byte-string literal. *)
Definition lit (s : string) : bytes := map (fun c => Z.of_N (N_of_ascii c)) (list_ascii_of_string s).

Arguments lit s%_string_scope.

(** [format!]: digits in a radix up to 16, of a value below [radix ^ fuel]. *)
Definition digit (d : Z) : Z := if d <? 10 then 48 + d else 87 + d.

Fixpoint radix_digits (fuel : nat) (radix n : Z) : bytes :=
  match fuel with
  | O => []
  | S fuel' => (if n <? radix then [] else radix_digits fuel' radix (n / radix)) ++ [digit (n mod radix)]
  end.

Definition decimal (n : Z) : bytes := if n <? 0 then 45 :: radix_digits 32 10 (- n) else radix_digits 32 10 n.
Definition hex (n : Z) : bytes := radix_digits 32 16 n.
Definition octal (n : Z) : bytes := radix_digits 32 8 n.

(** [{:0width}]. *)
Definition zero_pad (width : nat) (s : bytes) : bytes := replicate (width - length s) 48 ++ s.

Definition concat_bytes (l : list bytes) : bytes := l ≫= id.

(** ** Entries *)

Inductive ProcfsEntry :=
| Root
| Mounts
| SelfLink
| ThreadSelfLink
| PidDir (pid : Z)
| PidMounts (pid : Z)
| PidMountinfo (pid : Z)
| FdDir (pid : Z)
| FdLink (pid fd : Z)
| FdInfoDir (pid : Z)
| FdInfo (pid fd : Z)
| Stat (pid : Z)
| Status (pid : Z)
| Cmdline (pid : Z)
| Environ (pid : Z)
| Maps (pid : Z)
| Cwd (pid : Z)
| Exe (pid : Z)
| Root_ (pid : Z)
| NetDir (pid : option Z)
| NetTcp (pid : option Z)
| NetUnix (pid : option Z).

#[export] Instance ProcfsEntry_eq_dec : EqDecision ProcfsEntry.
Proof. solve_decision. Defined.

Definition is_symlink (e : ProcfsEntry) : bool :=
  match e with SelfLink | ThreadSelfLink | FdLink _ _ | Cwd _ | Exe _ | Root_ _ => true | _ => false end.

Definition is_dir (e : ProcfsEntry) : bool :=
  match e with Root | PidDir _ | FdDir _ | FdInfoDir _ | NetDir _ => true | _ => false end.

Definition entry_pid (e : ProcfsEntry) : option Z :=
  match e with
  | PidDir pid | PidMounts pid | PidMountinfo pid | FdDir pid | FdInfoDir pid | Stat pid | Status pid | Cmdline pid
  | Environ pid | Maps pid | Cwd pid | Exe pid | Root_ pid => Some pid
  | FdLink pid _ | FdInfo pid _ => Some pid
  | NetDir pid | NetTcp pid | NetUnix pid => pid
  | Root | Mounts | SelfLink | ThreadSelfLink => None
  end.

(** ** Paths *)

(** One digit of [parse_u32]: a character that is no digit, or an overflow, ends it. *)
Definition parse_digit (val : option Z) (b : Z) : option Z :=
  match val with
  | None => None
  | Some val =>
      if (b <? 48) || (57 <? b) then None
      else let v := val * 10 in
           if u32_max <? v then None else let v := v + (b - 48) in if u32_max <? v then None else Some v
  end.

Definition parse_u32 (s : bytes) : option Z :=
  match s with [] => None | _ => fold_left parse_digit s (Some 0) end.

Definition parse_i32 (s : bytes) : option Z := as_i32 <$> parse_u32 s.

(** [/proc/net] or [/proc/<pid>/net]. *)
Definition match_net_path (rest : bytes) (pid : option Z) : option ProcfsEntry :=
  if bool_decide (rest = lit "net") || bool_decide (rest = lit "net/") then Some (NetDir pid)
  else if starts_with rest (lit "net/") then
    let name := drop 4 rest in
    if bool_decide (name = lit "tcp") then Some (NetTcp pid)
    else if bool_decide (name = lit "unix") then Some (NetUnix pid)
    else None
  else None.

(** The numeric component and what follows it; [u32::MAX] when it is no number. *)
Definition match_pid_path (rest : bytes) : Z * bytes :=
  let end_ := match position (fun b => b =? SLASH) rest with Some i => i | None => length rest end in
  match parse_u32 (take end_ rest) with
  | Some pid => (pid, if (end_ <? length rest)%nat then drop (S end_) rest else [])
  | None => (u32_max, [])
  end.

(** The names of the files of [/proc/<pid>]. *)
Definition pid_names : list (string * (Z -> ProcfsEntry)) :=
  ([("stat", Stat); ("status", Status); ("cmdline", Cmdline); ("environ", Environ); ("maps", Maps); ("mounts", PidMounts);
   ("mountinfo", PidMountinfo); ("cwd", Cwd); ("exe", Exe); ("root", Root_); ("fd", FdDir); ("fdinfo", FdInfoDir)])%string.

Definition match_pid_subpath (pid : Z) (remainder : bytes) : option ProcfsEntry :=
  if pid =? u32_max then None
  else match remainder with
       | [] => Some (PidDir pid)
       | _ =>
           let rem := if ends_with_slash remainder && (1 <? length remainder)%nat then take (length remainder - 1) remainder else remainder in
           match find_first (fun x => bool_decide (rem = lit x.1)) pid_names with
           | Some x => Some (x.2 pid)
           | None =>
               if starts_with rem (lit "fd/") then FdLink pid <$> parse_i32 (drop 3 rem)
               else if starts_with rem (lit "fdinfo/") then FdInfo pid <$> parse_i32 (drop 7 rem)
               else if bool_decide (rem = lit "net") || starts_with rem (lit "net/") then match_net_path rem (Some pid)
               else None
           end
       end.

(** What follows [self] or [thread-self]: the link itself, a path of the caller, or
    neither. *)
Definition match_self (link : ProcfsEntry) (rest after : bytes) (current_pid : Z) : option ProcfsEntry :=
  match after with
  | [] => Some link
  | c :: after' =>
      let '(pid, remainder) := if c =? SLASH then (current_pid, after') else match_pid_path rest in
      match_pid_subpath pid remainder
  end.

Definition match_procfs (path : bytes) (current_pid : Z) : option ProcfsEntry :=
  if negb (starts_with path (lit "/proc")) then None
  else match drop 5 path with
       | [] => Some Root
       | c :: rest =>
           if bool_decide (c :: rest = [SLASH]) then Some Root
           else if negb (c =? SLASH) then None
           else if bool_decide (rest = lit "mounts") then Some Mounts
           else if starts_with rest (lit "self") then match_self SelfLink rest (drop 4 rest) current_pid
           else if starts_with rest (lit "thread-self") then match_self ThreadSelfLink rest (drop 11 rest) current_pid
           else if bool_decide (rest = lit "net") || starts_with rest (lit "net/") then match_net_path rest None
           else let '(pid, remainder) := match_pid_path rest in match_pid_subpath pid remainder
       end.

(** ** Metadata *)

Definition S_IFREG : Z := 32768.   (* 0o100000 *)
Definition S_IFLNK : Z := 40960.   (* 0o120000 *)

Definition procfs_ino (pid entry_type : Z) : Z := Z.lor (Z.lor 1342177280 (Z.shiftl pid 8)) entry_type.

Definition entry_ids (e : ProcfsEntry) : Z * Z :=
  match e with
  | Root => (0, 0)
  | Mounts => (0, 1)
  | SelfLink => (0, 2)
  | ThreadSelfLink => (0, 3)
  | PidDir pid => (pid, 4)
  | PidMounts pid => (pid, 5)
  | PidMountinfo pid => (pid, 6)
  | FdDir pid => (pid, 7)
  | FdLink pid _ => (pid, 8)
  | FdInfoDir pid => (pid, 9)
  | FdInfo pid _ => (pid, 10)
  | Stat pid => (pid, 11)
  | Status pid => (pid, 12)
  | Cmdline pid => (pid, 13)
  | Environ pid => (pid, 14)
  | Maps pid => (pid, 15)
  | Cwd pid => (pid, 16)
  | Exe pid => (pid, 17)
  | Root_ pid => (pid, 18)
  | NetDir pid => (default 0 pid, 19)
  | NetTcp pid => (default 0 pid, 20)
  | NetUnix pid => (default 0 pid, 21)
  end.

Definition procfs_stat (e : ProcfsEntry) (content_size : Z) (follow_symlinks : bool) : WasmStat :=
  let '(pid, etype) := entry_ids e in
  if is_symlink e && negb follow_symlinks then
    mkStat 80 (procfs_ino pid etype) (Z.lor S_IFLNK 511) 1 0 0 0 0 0 0 0 0 0 0
  else if is_dir e then mkStat 80 (procfs_ino pid etype) (Z.lor S_IFDIR 365) 2 0 0 0 0 0 0 0 0 0 0
  else mkStat 80 (procfs_ino pid etype) (Z.lor S_IFREG 292) 1 0 0 content_size 0 0 0 0 0 0 0.

Definition regular_file_object_id (e : ProcfsEntry) : option Z :=
  if is_dir e || is_symlink e then None
  else
    let '(pid, kind) := entry_ids e in
    let pack detail := Z.lor (Z.lor (Z.shiftl pid 24) (Z.shiftl kind 16)) detail in
    match e with
    | FdInfo _ fd => if (fd <? 0) || (65535 <? fd) then None else Some (pack fd)
    | _ => Some (pack 0)
    end.

(** ** Access to processes *)

Definition own_or (procs : gmap Z Process) (p : Process) (pid : Z) : option Process := if pid =? pr_pid p then Some p else procs !! pid.

(** Limbo records are not seen. *)
Definition validate_pid (procs : gmap Z Process) (p : Process) (pid : Z) : kresult unit :=
  if (pid =? pr_pid p) || bool_decide (pid ∈ procfs_pids procs) then Ok tt else Err ENOENT.

Definition has_open_fd (p : Process) (fd : Z) : bool :=
  match FdTable.get (pr_fd_table p) fd with Ok e => bool_decide (is_Some (Ofd.get (pr_ofd_table p) (ofd_ref e))) | Err _ => false end.

Definition validate_entry (procs : gmap Z Process) (p : Process) (e : ProcfsEntry) : kresult unit :=
  let? _ := match entry_pid e with Some pid => validate_pid procs p pid | None => Ok tt end in
  match e with
  | FdLink pid fd | FdInfo pid fd =>
      if match own_or procs p pid with Some q => has_open_fd q fd | None => false end then Ok tt else Err ENOENT
  | _ => Ok tt
  end.

(** ** Contents *)

Definition TAB : Z := 9.
Definition NEWLINE : Z := 10.

(** [str::from_utf8(..).is_ok()]: well-formed byte sequences. *)
Definition continuation (b : Z) : bool := (128 <=? b) && (b <=? 191).
Fixpoint utf8_valid (s : bytes) : bool :=
  match s with
  | [] => true
  | a :: s1 =>
      if a <=? 127 then utf8_valid s1
      else match s1 with
           | [] => false
           | b :: s2 =>
               if (194 <=? a) && (a <=? 223) then continuation b && utf8_valid s2
               else match s2 with
                    | [] => false
                    | c :: s3 =>
                        if (224 <=? a) && (a <=? 239) then
                          continuation b && (if a =? 224 then 160 <=? b else true) && (if a =? 237 then b <=? 159 else true) && continuation c && utf8_valid s3
                        else match s3 with
                             | [] => false
                             | d :: s4 =>
                                 (240 <=? a) && (a <=? 244) && continuation b && (if a =? 240 then 144 <=? b else true) &&
                                 (if a =? 244 then b <=? 143 else true) && continuation c && continuation d && utf8_valid s4
                             end
                    end
           end
  end.

(** What follows the last slash. *)
Definition rposition (f : Z -> bool) (s : bytes) : option nat := (fun i => length s - 1 - i)%nat <$> position f (rev s).

Definition arg_name (p : Process) : bytes :=
  match pr_argv p with
  | arg0 :: _ =>
      let whole := if utf8_valid arg0 then arg0 else lit "unknown" in
      match rposition (fun b => b =? SLASH) arg0 with
      | Some slash => if utf8_valid (drop (S slash) arg0) then drop (S slash) arg0 else whole
      | None => whole
      end
  | [] => lit "unknown"
  end.

Definition process_name (p : Process) : bytes :=
  let name_len := default 16%nat (position (fun b => b =? 0) (pr_thread_name p)) in
  let name := take name_len (pr_thread_name p) in
  if (0 <? name_len)%nat && utf8_valid name && negb (bool_decide (name = [])) then name else arg_name p.

Definition count_open_fds (t : FdTable) : nat :=
  length (List.filter (fun fd => match FdTable.get t (Z.of_nat fd) with Ok _ => true | Err _ => false end) (seq 0 1024)).

Definition state_letter (s : ProcessState) : string :=
  match s with Running => "R" | Stopped => "T" | Exited | Limbo => "Z" end.
Definition state_text (s : ProcessState) : string :=
  match s with Running => "R (running)" | Stopped => "T (stopped)" | Exited | Limbo => "Z (zombie)" end.

Definition generate_stat (p : Process) : bytes :=
  decimal (pr_pid p) ++ lit " (" ++ process_name p ++ lit ") " ++ lit (state_letter (pr_state p)) ++ lit " " ++ decimal (pr_ppid p) ++ lit " " ++
  decimal (pr_pgid p) ++ lit " " ++ decimal (pr_sid p) ++ lit " 0 0 0 0 0 0 0 0 0 0 0 " ++ decimal (20 + pr_nice p) ++ lit " " ++ decimal (pr_nice p) ++
  lit " 0 0 0 0 0 0 0 0 0 0 0 0 0 0 0 0 0 0 0 0 0 0 0 0 0 0 0 0 0 0" ++ [NEWLINE].

(** One [Label:<tab>fields] line. *)
Definition status_line (label : string) (fields : list bytes) : bytes :=
  lit label ++ [58] ++ concat_bytes (map (fun f => TAB :: f) fields) ++ [NEWLINE].

Definition generate_status (p : Process) : bytes :=
  concat_bytes
    [status_line "Name" [process_name p];
     status_line "Umask" [zero_pad 4 (octal (pr_umask p))];
     status_line "State" [lit (state_text (pr_state p))];
     status_line "Tgid" [decimal (pr_pid p)];
     status_line "Ngid" [lit "0"];
     status_line "Pid" [decimal (pr_pid p)];
     status_line "PPid" [decimal (pr_ppid p)];
     status_line "TracerPid" [lit "0"];
     status_line "Uid" [decimal (pr_uid p); decimal (pr_euid p); decimal (pr_euid p); decimal (pr_euid p)];
     status_line "Gid" [decimal (pr_gid p); decimal (pr_egid p); decimal (pr_egid p); decimal (pr_egid p)];
     status_line "FDSize" [decimal (Z.of_nat (count_open_fds (pr_fd_table p)))];
     status_line "VmSize" [lit "0 kB"];
     status_line "Threads" [decimal (1 + Z.of_nat (length (pr_threads p)))];
     status_line "SigPnd" [zero_pad 16 (hex (pending_for p (pr_pid p)))];
     status_line "SigBlk" [zero_pad 16 (hex (blocked (pr_signals p)))]].

(** Arguments with a NUL between them and one at the end. *)
Fixpoint join_nul (l : list bytes) : bytes :=
  match l with [] => [] | [a] => a | a :: l' => a ++ 0 :: join_nul l' end.

Definition generate_cmdline (p : Process) : bytes :=
  let buf := join_nul (pr_argv p) in match buf with [] => [] | _ => buf ++ [0] end.

Definition generate_environ (p : Process) : bytes := concat_bytes (map (fun v => v ++ [0]) (pr_environ p)).

Definition maps_line (r : MappedRegion) : bytes :=
  let flag (b : bool) (yes no : string) := lit (if b then yes else no) in
  zero_pad 8 (hex (m_addr r)) ++ lit "-" ++ zero_pad 8 (hex (m_addr r + m_len r)) ++ lit " " ++
  flag (negb (Z.land (m_prot r) 1 =? 0)) "r"%string "-"%string ++ flag (negb (Z.land (m_prot r) 2 =? 0)) "w"%string "-"%string ++ flag (negb (Z.land (m_prot r) 4 =? 0)) "x"%string "-"%string ++
  flag (negb (Z.land (m_flags r) 2 =? 0)) "s"%string "p"%string ++ lit " 00000000 00:00 0" ++ [NEWLINE].

Definition generate_maps (p : Process) : bytes := concat_bytes (map maps_line (Memory.mappings (pr_memory p))).

Definition generate_fdinfo (b : Backings) (p : Process) (fd : Z) : option bytes :=
  match FdTable.get (pr_fd_table p) fd with
  | Err _ => None
  | Ok entry =>
      match Ofd.get (pr_ofd_table p) (ofd_ref entry) with
      | None => None
      | Some o =>
          match current_offset b (file_type o) (host_handle o) (offset o) with
          | Err _ => None
          | Ok off =>
              Some (lit "pos:" ++ TAB :: decimal off ++ NEWLINE :: lit "flags:" ++ TAB :: octal (status_flags o) ++ NEWLINE :: lit "mnt_id:" ++ TAB :: lit "0" ++ [NEWLINE])
          end
      end
  end.

Definition MOUNTS_CONTENT : bytes :=
  lit "kandelo-root / kandelo-vfs rw 0 0" ++ NEWLINE :: lit "proc /proc proc rw,nosuid,nodev,noexec 0 0" ++ NEWLINE :: lit "devfs /dev devfs rw,nosuid 0 0" ++ [NEWLINE].
Definition MOUNTINFO_CONTENT : bytes :=
  lit "1 0 0:1 / / rw - kandelo-vfs kandelo-root rw" ++ NEWLINE :: lit "2 1 0:2 / /proc rw,nosuid,nodev,noexec - proc proc rw,nosuid,nodev,noexec" ++ NEWLINE ::
  lit "3 1 0:3 / /dev rw,nosuid - devfs devfs rw,nosuid" ++ [NEWLINE].
Definition generate_net_tcp_header : bytes :=
  lit "  sl  local_address rem_address   st tx_queue rx_queue tr tm->when retrnsmt   uid  timeout inode" ++ [NEWLINE].
Definition generate_net_unix_header : bytes := lit "Num       RefCount Protocol Flags    Type St Inode Path" ++ [NEWLINE].

(** The text of an entry of a process, for the process itself or for another. *)
Definition entry_text (b : Backings) (q : Process) (e : ProcfsEntry) : option bytes :=
  match e with
  | Stat _ => Some (generate_stat q)
  | Status _ => Some (generate_status q)
  | Cmdline _ => Some (generate_cmdline q)
  | Environ _ => Some (generate_environ q)
  | Maps _ => Some (generate_maps q)
  | FdInfo _ fd => generate_fdinfo b q fd
  | _ => None
  end.

Definition generate_content (b : Backings) (procs : gmap Z Process) (p : Process) (e : ProcfsEntry) : kresult bytes :=
  let valid pid := match pid with Some pid => validate_pid procs p pid | None => Ok tt end in
  match e with
  | Stat pid | Status pid | Cmdline pid | Environ pid | Maps pid | FdInfo pid _ =>
      let? _ := validate_pid procs p pid in
      ok_or (own_or procs p pid ≫= fun q => entry_text b q e) ENOENT
  | Mounts => Ok MOUNTS_CONTENT
  | PidMounts pid => let? _ := validate_pid procs p pid in Ok MOUNTS_CONTENT
  | PidMountinfo pid => let? _ := validate_pid procs p pid in Ok MOUNTINFO_CONTENT
  | NetTcp pid => let? _ := valid pid in Ok generate_net_tcp_header
  | NetUnix pid => let? _ := valid pid in Ok generate_net_unix_header
  | _ => Err ENOENT
  end.

(** ** Links *)

(** What a link of [q] refers to. *)
Definition link_of (q : Process) (e : ProcfsEntry) : kresult bytes :=
  match e with
  | FdLink _ fd =>
      match FdTable.get (pr_fd_table q) fd with
      | Ok fe => match Ofd.get (pr_ofd_table q) (ofd_ref fe) with Some o => Ok (path o) | None => Err EBADF end
      | Err _ => Err EBADF
      end
  | Cwd _ => Ok (pr_cwd q)
  | Exe _ => Ok (match pr_argv q with a :: _ => a | [] => lit "/usr/bin/unknown" end)
  | Root_ _ => Ok (lit "/")
  | _ => Err EINVAL
  end.

Definition link_target (procs : gmap Z Process) (p : Process) (e : ProcfsEntry) : kresult bytes :=
  match e with
  | SelfLink => Ok (decimal (pr_pid p))
  | ThreadSelfLink => Ok (decimal (pr_pid p) ++ lit "/task/" ++ decimal (pr_pid p))
  | FdLink pid _ | Cwd pid | Exe pid | Root_ pid =>
      if pid =? pr_pid p then link_of p e
      else match procs !! pid with Some q => match link_of q e with Ok t => Ok t | Err _ => Err ENOENT end | None => Err ENOENT end
  | _ => Err EINVAL
  end.

(** The bytes written to a buffer of [room]. *)
Definition procfs_readlink (procs : gmap Z Process) (p : Process) (e : ProcfsEntry) (room : nat) : kresult bytes :=
  let? target := link_target procs p e in Ok (take room target).

(** ** Directories *)

Definition DT_CHR : Z := 2.
Definition DT_DIR : Z := 4.
Definition DT_REG : Z := 8.
Definition DT_LNK : Z := 10.

(** Name, type and inode of an entry. *)
Definition dirent : Type := bytes * Z * Z.

Definition to_le16 (v : Z) : bytes := [v mod 256; (v / 256) mod 256].
Definition to_le64 (v : Z) : bytes := to_le_bytes (v mod 2 ^ 32) ++ to_le_bytes ((v / 2 ^ 32) mod 2 ^ 32).

Definition reclen_of (name : bytes) : nat := (((19 + length name + 1) + 7) / 8 * 8)%nat.

(** The record of one entry, padded with zeros. *)
Definition dirent64 (d_ino d_off d_type : Z) (name : bytes) : bytes :=
  to_le64 d_ino ++ to_le64 d_off ++ to_le16 (Z.of_nat (reclen_of name) mod 2 ^ 16) ++ [d_type] ++ name ++ replicate (reclen_of name - 19 - length name) 0.

(** Nothing is written when the record does not fit. *)
Definition write_dirent64 (buf : bytes) (pos : nat) (d_ino d_off d_type : Z) (name : bytes) : nat * bytes :=
  if (length buf <? pos + reclen_of name)%nat then (0%nat, buf) else (reclen_of name, splice pos (dirent64 d_ino d_off d_type name) buf).

(** The loop over the entries from number [i]. *)
Fixpoint emit_entries (i : nat) (l : list dirent) (buf : bytes) (pos : nat) (current : Z) : (nat * Z * bool) * bytes :=
  match l with
  | [] => ((pos, current, true), buf)
  | (name, d_type, ino) :: l' =>
      let '(written, buf') := write_dirent64 buf pos ino (Z.of_nat i + 3) d_type name in
      if (written =? 0)%nat then ((pos, Z.of_nat i + 2, false), buf)
      else emit_entries (S i) l' buf' (pos + written) (Z.of_nat i + 3)
  end.

Section listing.
Context `{Usize}.

(** [offset as usize]. *)
Definition cursor (offset : Z) : Z := offset mod (usize_max + 1).

(** Bytes written, the new cursor, and whether the directory is exhausted. *)
Definition list_directory (dot_ino dotdot_ino : Z) (entries : list dirent) (buf : bytes) (offset : Z) : kresult (nat * Z * bool) * bytes :=
  let start := cursor offset in
  let '(w1, buf1) := if start =? 0 then write_dirent64 buf 0 dot_ino 1 DT_DIR (lit ".") else (0%nat, buf) in
  if (start =? 0) && (w1 =? 0)%nat then (Err EINVAL, buf)
  else
    let current := if start =? 0 then 1 else start in
    let '(w2, buf2) := if current =? 1 then write_dirent64 buf1 w1 dotdot_ino 2 DT_DIR (lit "..") else (0%nat, buf1) in
    if (current =? 1) && (w2 =? 0)%nat then (Ok (w1, as_i64 current, false), buf1)
    else
      let current := if current =? 1 then 2 else current in
      let entry_start := Z.to_nat (current - 2) in
      let '(r, buf3) := emit_entries entry_start (drop entry_start entries) buf2 (w1 + w2) (as_i64 current) in (Ok r, buf3).

End listing.

(** The open descriptors below 1024. *)
Definition listed_fds (p : Process) : list Z :=
  List.filter (fun fd => match FdTable.get (pr_fd_table p) fd with Ok _ => true | Err _ => false end) (Z.of_nat <$> seq 0 1024).

Definition procfs_dir_entries (p : Process) (path : bytes) (pids : list Z) : kresult (list dirent) :=
  match match_procfs path (pr_pid p) with
  | None => Err ENOENT
  | Some Root =>
      Ok ([(lit "mounts", DT_REG, procfs_ino 0 1); (lit "self", DT_LNK, procfs_ino 0 2); (lit "thread-self", DT_LNK, procfs_ino 0 3)] ++
          map (fun pid => (decimal pid, DT_DIR, procfs_ino pid 4)) pids ++ [(lit "net", DT_DIR, procfs_ino 0 19)])
  | Some (PidDir pid) =>
      Ok [(lit "fd", DT_DIR, procfs_ino pid 7); (lit "fdinfo", DT_DIR, procfs_ino pid 9); (lit "stat", DT_REG, procfs_ino pid 11);
          (lit "status", DT_REG, procfs_ino pid 12); (lit "cmdline", DT_REG, procfs_ino pid 13); (lit "environ", DT_REG, procfs_ino pid 14);
          (lit "maps", DT_REG, procfs_ino pid 15); (lit "mounts", DT_REG, procfs_ino pid 5); (lit "mountinfo", DT_REG, procfs_ino pid 6);
          (lit "cwd", DT_LNK, procfs_ino pid 16); (lit "exe", DT_LNK, procfs_ino pid 17); (lit "root", DT_LNK, procfs_ino pid 18);
          (lit "net", DT_DIR, procfs_ino pid 19)]
  | Some (FdDir pid) => Ok (if pid =? pr_pid p then map (fun fd => (decimal fd, DT_LNK, procfs_ino pid 5)) (listed_fds p) else [])
  | Some (FdInfoDir pid) => Ok (if pid =? pr_pid p then map (fun fd => (decimal fd, DT_REG, procfs_ino pid 7)) (listed_fds p) else [])
  | Some (NetDir pid) => Ok [(lit "tcp", DT_REG, procfs_ino (default 0 pid) 20); (lit "unix", DT_REG, procfs_ino (default 0 pid) 21)]
  | Some _ => Err ENOTDIR
  end.

Definition procfs_getdents64 `{Usize} (p : Process) (ofd_path buf : bytes) (offset : Z) (pids : list Z) : kresult (nat * Z * bool) * bytes :=
  match procfs_dir_entries p ofd_path pids with
  | Ok entries => list_directory (procfs_ino 0 0) (procfs_ino 0 0) entries buf offset
  | Err e => (Err e, buf)
  end.

(** ** Opening *)

Definition O_DIRECTORY : Z := 65536.   (* 0o200000 *)
Definition O_NOFOLLOW : Z := 131072.   (* 0o400000 *)
Definition O_TRUNC : Z := 512.         (* 0o1000 *)

Definition with_dir_host_handle (o : OpenFileDesc) (h : Z) : OpenFileDesc :=
  mkOfd (ofd_id o) (file_id o) (file_type o) (status_flags o) (host_handle o) (offset o) (ref_count o)
    (owner_pid o) (path o) h (dir_synth_state o) (dir_entry_offset o) (dri_state o).
Definition with_file_id (o : OpenFileDesc) (f : option FileId) : OpenFileDesc :=
  mkOfd (ofd_id o) f (file_type o) (status_flags o) (host_handle o) (offset o) (ref_count o)
    (owner_pid o) (path o) (dir_host_handle o) (dir_synth_state o) (dir_entry_offset o) (dri_state o).

Definition creation_flags : Z :=
  Z.lor (Z.lor (Z.lor O_CREAT O_EXCL) (Z.lor O_TRUNC O_CLOEXEC)) (Z.lor O_CLOFORK (Z.lor O_DIRECTORY O_NOFOLLOW)).

Definition alloc_procfs_buf (content : bytes) : M nat :=
  kernel_result (fun k => let '(idx, t) := sb_alloc (PROCFS_BUFS (k_backings k)) (procfs_new content) in
    (Ok idx, with_backings k (set_table (k_backings k) KProcfs t))).
Definition release_procfs_buf (idx : nat) : M unit :=
  on_kernel (fun k => with_backings k (set_table (k_backings k) KProcfs (sb_release (PROCFS_BUFS (k_backings k)) idx).2)).

Definition procfs_open (procs : gmap Z Process) (e : ProcfsEntry) (resolved_path : bytes) (oflags : Z) : M Z :=
  if negb (Z.land oflags (Z.lor O_WRONLY O_RDWR) =? 0) then fail EACCES
  else
    let flags := Z.ldiff oflags creation_flags in
    let fd_flags := oflags_to_fd_flags oflags in
    if is_symlink e then fail ELOOP
    else if is_dir e then
      let! p := gets sy_proc in
      (match entry_pid e with Some target => lift (validate_pid procs p target) | None => ret tt end) >;
      let! ofd_idx := ofd_create Directory flags PROCFS_DIR_HANDLE resolved_path in
      on_ofd ofd_idx (fun o => with_dir_host_handle o PROCFS_DIR_HANDLE) >;
      let! r := attempt (fd_result (fun t => FdTable.alloc t ofd_idx fd_flags)) in
      match r with Ok fd => ret fd | Err err => dec_ref_ofd ofd_idx >; fail err end
    else
      let! object_id := lift (ok_or (regular_file_object_id e) EINVAL) in
      let! s := gets id in
      let! content := lift (generate_content (k_backings (sy_kernel s)) procs (sy_proc s) e) in
      let! buf_idx := alloc_procfs_buf content in
      let! ofd_idx := ofd_create Regular flags (procfs_buf_handle buf_idx) resolved_path in
      on_ofd ofd_idx (fun o => with_file_id o (Some (FKernel KProcFsRegular object_id))) >;
      let! r := attempt (fd_result (fun t => FdTable.alloc t ofd_idx fd_flags)) in
      match r with Ok fd => ret fd | Err err => dec_ref_ofd ofd_idx >; release_procfs_buf buf_idx >; fail err end.

(** ** Numbers *)

Lemma digit_decimal d : 0 <= d < 10 -> digit d = 48 + d.
Proof. intros Hd. unfold digit. by rewrite (proj2 (Z.ltb_lt _ _)) by lia. Qed.

Lemma parse_snoc s b : s <> [] -> parse_u32 (s ++ [b]) = parse_digit (parse_u32 s) b.
Proof. intros Hs. unfold parse_u32. destruct (s ++ [b]) eqn:E; [by destruct s|]. destruct s as [|a s]; [done|]. by rewrite <- E, fold_left_app. Qed.

Lemma parse_digit_ok v d : 0 <= d < 10 -> 0 <= v -> v * 10 + d <= u32_max -> parse_digit (Some v) (48 + d) = Some (v * 10 + d).
Proof. intros Hd Hv Hm. unfold parse_digit. rewrite !(proj2 (Z.ltb_ge _ _)) by lia. cbn [orb]. f_equal. lia. Qed.

Lemma radix_digits_spec fuel n :
  0 <= n <= u32_max -> n < 10 ^ Z.of_nat fuel -> (0 < fuel)%nat ->
  parse_u32 (radix_digits fuel 10 n) = Some n /\ radix_digits fuel 10 n <> [] /\ Forall (fun b => 48 <= b <= 57) (radix_digits fuel 10 n).
Proof.
  revert n. induction fuel as [|fuel IH]; intros n Hn Hf Hpos; [lia|]. cbn [radix_digits]. pose proof (Z.mod_pos_bound n 10 ltac:(lia)) as Hm.
  pose proof (Z.div_mod n 10 ltac:(lia)) as Hd. rewrite digit_decimal by done. destruct (Z.ltb_spec n 10) as [Hlt|Hge].
  - rewrite app_nil_l. rewrite Z.mod_small by lia. split; [|split; [done|constructor; [lia|done]]].
    unfold parse_u32. cbn [fold_left]. rewrite parse_digit_ok by lia. f_equal; lia.
  - assert (0 <= n / 10 <= u32_max) as Hn1 by lia. rewrite Nat2Z.inj_succ, Z.pow_succ_r in Hf by lia.
    destruct fuel as [|fuel]; [cbn in Hf; lia|]. destruct (IH (n / 10) Hn1) as (P & N & D); [apply Z.div_lt_upper_bound; lia|lia|]. split; [|split; [by destruct (radix_digits _ _ _)|]].
    + rewrite parse_snoc, P by done. rewrite parse_digit_ok by lia. f_equal; lia.
    + apply Forall_app. split; [done|]. constructor; [lia|done].
Qed.

Definition is_digit (b : Z) : Prop := 48 <= b <= 57.

(** A decimal number is read back. *)
Lemma decimal_spec n : 0 <= n <= u32_max -> parse_u32 (decimal n) = Some n /\ exists d s, decimal n = d :: s /\ is_digit d /\ Forall is_digit s.
Proof.
  intros Hn. unfold decimal. rewrite (proj2 (Z.ltb_ge _ _)) by lia. destruct (radix_digits_spec 32 n Hn) as (P & N & D); [unfold u32_max in *; lia|lia|]. split; [done|].
  destruct (radix_digits 32 10 n) as [|d s]; [done|]. apply Forall_cons in D as [D1 D2]. by exists d, s.
Qed.

Lemma decimal_head n : 0 <= n <= u32_max -> exists d s, decimal n = d :: s /\ is_digit d.
Proof. intros Hn. destruct (decimal_spec n Hn) as (_ & d & s & E & D & _). by exists d, s. Qed.

Lemma decimal_no_slash n tl : 0 <= n <= u32_max -> position (fun b => b =? SLASH) (decimal n ++ tl) = (fun i => length (decimal n) + i)%nat <$> position (fun b => b =? SLASH) tl.
Proof.
  intros Hn. destruct (decimal_spec n Hn) as (_ & d & s & -> & D & S). assert (Forall is_digit (d :: s)) as Hd by (by constructor). clear D S. generalize dependent (d :: s). intros l Hl.
  induction Hl as [|b l Hb _ IH]; cbn [app position length]; [by destruct (position _ tl)|]. unfold is_digit, SLASH in *. rewrite (proj2 (Z.eqb_neq _ _)) by lia. rewrite IH. by destruct (position _ tl).
Qed.

(** ** Paths *)

Lemma match_pid_path_spec pid tl : 0 <= pid <= u32_max -> match_pid_path (decimal pid ++ SLASH :: tl) = (pid, tl) /\ match_pid_path (decimal pid) = (pid, []).
Proof.
  intros Hp. pose proof (proj1 (decimal_spec pid Hp)) as P. unfold match_pid_path. split.
  - rewrite decimal_no_slash by done. cbn [position fmap option_fmap option_map]. rewrite Z.eqb_refl. cbn [fmap option_fmap option_map]. rewrite Nat.add_0_r, take_app_length, P.
    rewrite length_app. cbn [length]. rewrite (proj2 (Nat.ltb_lt _ _)) by lia. f_equal. replace (S (length (decimal pid))) with (length (decimal pid ++ [SLASH])) by (rewrite length_app; cbn; lia).
    change (SLASH :: tl) with ([SLASH] ++ tl). by rewrite app_assoc, drop_app_length.
  - pose proof (decimal_no_slash pid [] Hp) as E. rewrite app_nil_r in E. rewrite E. cbn [position fmap option_fmap option_map]. by rewrite firstn_all, P, Nat.ltb_irrefl.
Qed.

(** The path of an entry. *)
Definition under (pid : Z) (name : bytes) : bytes := lit "/proc/" ++ decimal pid ++ SLASH :: name.
Definition net_path (pid : option Z) (name : bytes) : bytes := match pid with Some pid => under pid name | None => lit "/proc/" ++ name end.

Definition procfs_path (e : ProcfsEntry) : bytes :=
  match e with
  | Root => lit "/proc"
  | Mounts => lit "/proc/mounts"
  | SelfLink => lit "/proc/self"
  | ThreadSelfLink => lit "/proc/thread-self"
  | PidDir pid => lit "/proc/" ++ decimal pid
  | PidMounts pid => under pid (lit "mounts")
  | PidMountinfo pid => under pid (lit "mountinfo")
  | FdDir pid => under pid (lit "fd")
  | FdLink pid fd => under pid (lit "fd/" ++ decimal fd)
  | FdInfoDir pid => under pid (lit "fdinfo")
  | FdInfo pid fd => under pid (lit "fdinfo/" ++ decimal fd)
  | Stat pid => under pid (lit "stat")
  | Status pid => under pid (lit "status")
  | Cmdline pid => under pid (lit "cmdline")
  | Environ pid => under pid (lit "environ")
  | Maps pid => under pid (lit "maps")
  | Cwd pid => under pid (lit "cwd")
  | Exe pid => under pid (lit "exe")
  | Root_ pid => under pid (lit "root")
  | NetDir pid => net_path pid (lit "net")
  | NetTcp pid => net_path pid (lit "net/tcp")
  | NetUnix pid => net_path pid (lit "net/unix")
  end.

(** The numbers of an entry are in range. *)
Definition is_pid (pid : Z) : Prop := 0 <= pid < u32_max.
Definition entry_wf (e : ProcfsEntry) : Prop :=
  match entry_pid e with Some pid => is_pid pid | None => True end /\
  match e with FdLink _ fd | FdInfo _ fd => 0 <= fd < 2 ^ 31 | _ => True end.

(** A name below [/proc] that starts with a digit is a process. *)
Lemma match_numeric d s cur :
  is_digit d -> match_procfs (lit "/proc/" ++ d :: s) cur = let '(pid, remainder) := match_pid_path (d :: s) in match_pid_subpath pid remainder.
Proof.
  intros Hd. unfold is_digit in Hd. unfold match_procfs. change (lit "/proc/" ++ d :: s) with (lit "/proc" ++ SLASH :: d :: s).
  change (negb (starts_with (lit "/proc" ++ SLASH :: d :: s) (lit "/proc"))) with false. cbn iota. change (drop 5 (lit "/proc" ++ SLASH :: d :: s)) with (SLASH :: d :: s). cbn iota.
  rewrite bool_decide_eq_false_2 by done. change (negb (SLASH =? SLASH)) with false. cbn iota.
  assert (forall x (l : bytes) (r : bool), x < 48 \/ 57 < x -> (x =? d) && r = false) as Hx by (intros x l r Hr; rewrite (proj2 (Z.eqb_neq _ _)) by lia; done).
  rewrite bool_decide_eq_false_2 by (intros E; injection E as E _; lia).
  change (starts_with (d :: s) (lit "self")) with ((115 =? d) && starts_with s (lit "elf")). rewrite (Hx 115 []) by lia.
  change (starts_with (d :: s) (lit "thread-self")) with ((116 =? d) && starts_with s (lit "hread-self")). rewrite (Hx 116 []) by lia.
  rewrite bool_decide_eq_false_2 by (intros E; injection E as E _; lia).
  change (starts_with (d :: s) (lit "net/")) with ((110 =? d) && starts_with s (lit "et/")). rewrite (Hx 110 []) by lia. done.
Qed.

Lemma match_under pid name cur : is_pid pid -> match_procfs (under pid name) cur = match_pid_subpath pid name.
Proof.
  intros Hp. unfold is_pid in Hp. destruct (match_pid_path_spec pid name ltac:(lia)) as [E _]. unfold under. destruct (decimal_head pid ltac:(lia)) as (d & s & Ed & D). rewrite Ed in *.
  change ((d :: s) ++ SLASH :: name) with (d :: s ++ SLASH :: name) in *. by rewrite match_numeric, E.
Qed.

Lemma pid_name_match pid s : is_pid pid -> s <> [] -> ends_with_slash s = false ->
  match_pid_subpath pid s =
  match find_first (fun x => bool_decide (s = lit x.1)) pid_names with
  | Some x => Some (x.2 pid)
  | None =>
      if starts_with s (lit "fd/") then FdLink pid <$> parse_i32 (drop 3 s)
      else if starts_with s (lit "fdinfo/") then FdInfo pid <$> parse_i32 (drop 7 s)
      else if bool_decide (s = lit "net") || starts_with s (lit "net/") then match_net_path s (Some pid)
      else None
  end.
Proof.
  intros Hp Hs He. unfold match_pid_subpath. rewrite (proj2 (Z.eqb_neq _ _)) by (unfold is_pid in Hp; lia). destruct s as [|c s]; [done|]. by rewrite He.
Qed.

Lemma parse_fd fd : 0 <= fd < 2 ^ 31 -> parse_i32 (decimal fd) = Some fd.
Proof. intros Hf. unfold parse_i32. rewrite (proj1 (decimal_spec fd ltac:(unfold u32_max; lia))). cbn. by rewrite as_i32_id by lia. Qed.

Lemma decimal_last_slash pre fd : 0 <= fd <= u32_max -> ends_with_slash (pre ++ decimal fd) = false.
Proof.
  intros Hf. unfold ends_with_slash. apply bool_decide_eq_false. destruct (decimal_spec fd Hf) as (_ & d & s & -> & D & S). assert (Forall is_digit (d :: s)) as Hd by (by constructor).
  destruct (exists_last (l := d :: s)) as (l & x & E); [done|]. rewrite E in *. rewrite app_assoc, last_snoc. intros [= ->]. apply Forall_app in Hd as [_ Hd]. apply Forall_cons in Hd as [Hd _]. unfold is_digit, Path.SLASH in Hd. lia.
Qed.

Lemma match_fd_file pid fd : is_pid pid -> 0 <= fd < 2 ^ 31 ->
  match_pid_subpath pid (lit "fd/" ++ decimal fd) = Some (FdLink pid fd) /\ match_pid_subpath pid (lit "fdinfo/" ++ decimal fd) = Some (FdInfo pid fd).
Proof.
  intros Hp Hf. assert (0 <= fd <= u32_max) as Hu by (unfold u32_max; lia). destruct (decimal_head fd Hu) as (d & s & Ed & D).
  rewrite !pid_name_match by (try done; by apply decimal_last_slash). change (drop 3 (lit "fd/" ++ decimal fd)) with (decimal fd). change (drop 7 (lit "fdinfo/" ++ decimal fd)) with (decimal fd).
  rewrite parse_fd by done. rewrite Ed. split; [|]; done.
Qed.

Lemma match_path e cur : entry_wf e -> match_procfs (procfs_path e) cur = Some e.
Proof.
  intros [Hp Hf]. destruct e; cbn [procfs_path net_path entry_pid] in *; try (by apply match_under); try done.
  all: try (rewrite match_under by done; rewrite pid_name_match by done; done).
  all: try (rewrite match_under by done; by apply match_fd_file).
  - unfold is_pid in Hp. destruct (decimal_head pid ltac:(lia)) as (d & s & Ed & D). rewrite Ed, match_numeric by done. rewrite <- Ed, (proj2 (match_pid_path_spec pid [] ltac:(lia))).
    unfold match_pid_subpath. by rewrite (proj2 (Z.eqb_neq _ _)) by lia.
  - destruct pid as [pid|]; [|done]. cbn [net_path]. rewrite match_under by done. by rewrite pid_name_match.
  - destruct pid as [pid|]; [|done]. cbn [net_path]. rewrite match_under by done. by rewrite pid_name_match.
  - destruct pid as [pid|]; [|done]. cbn [net_path]. rewrite match_under by done. by rewrite pid_name_match.
Qed.

(** C15: A path of procfs names one entry.  For every entry of the tree, global or of
    any process, with any descriptor number, the matcher applied to the rendered path
    of the entry gives back that entry, whichever process asks; and what the caller
    reaches through [self] or [thread-self] is what it reaches through its own
    number. *)
Theorem procfs_path_roundtrip e cur :
  entry_wf e ->
  match_procfs (procfs_path e) cur = Some e /\
  (forall rem, is_pid cur -> match_procfs (lit "/proc/self/" ++ rem) cur = match_procfs (under cur rem) cur /\
                             match_procfs (lit "/proc/thread-self/" ++ rem) cur = match_procfs (under cur rem) cur).
Proof.
  intros He. split; [by apply match_path|].
  intros rem Hc. by rewrite match_under.
Qed.

(** ** Listing *)

(** The record of entry number [k] of a directory, and the records that fit. *)
Definition record (k : nat) (e : dirent) : bytes := dirent64 e.2 (Z.of_nat k + 1) e.1.2 e.1.1.

Fixpoint fill (room k : nat) (l : list dirent) : bytes * nat :=
  match l with
  | [] => ([], 0%nat)
  | e :: l' => if (room <? length (record k e))%nat then ([], 0%nat)
               else let '(bs, n) := fill (room - length (record k e)) (S k) l' in (record k e ++ bs, S n)
  end.

Lemma reclen_bound name : (19 + length name + 1 <= reclen_of name <= 27 + length name)%nat.
Proof. unfold reclen_of. pose proof (Nat.div_mod_eq (19 + length name + 1 + 7) 8). pose proof (Nat.mod_upper_bound (19 + length name + 1 + 7) 8). lia. Qed.

Lemma record_length k e : length (record k e) = reclen_of e.1.1.
Proof. destruct e as [[name t] ino]. unfold record, dirent64. cbn [fst snd]. rewrite !length_app, length_replicate. pose proof (reclen_bound name) as Hb. change (length (to_le64 ino)) with 8%nat. change (length (to_le64 (Z.of_nat k + 1))) with 8%nat. cbn [to_le16 length]. lia. Qed.

Lemma write_spec out rest k e :
  write_dirent64 (out ++ rest) (length out) e.2 (Z.of_nat k + 1) e.1.2 e.1.1 =
  if (length rest <? length (record k e))%nat then (0%nat, out ++ rest) else (length (record k e), out ++ record k e ++ drop (length (record k e)) rest).
Proof.
  unfold write_dirent64. rewrite record_length, length_app. fold (record k e). destruct (Nat.ltb_spec (length rest) (reclen_of e.1.1)) as [Hlt|Hge].
  - by rewrite (proj2 (Nat.ltb_lt _ _)) by lia.
  - rewrite (proj2 (Nat.ltb_ge _ _)) by lia. f_equal. unfold splice. rewrite record_length. by rewrite take_app_length, drop_app_add.
Qed.

Lemma record_pos k e : (0 < length (record k e))%nat.
Proof. rewrite record_length. pose proof (reclen_bound e.1.1). lia. Qed.

(** Written in front of [rest]. *)
Definition over (bs rest : bytes) : bytes := bs ++ drop (length bs) rest.

Lemma over_app a b rest : over (a ++ b) rest = a ++ over b (drop (length a) rest).
Proof. unfold over. by rewrite length_app, <- app_assoc, drop_drop. Qed.

Lemma emit_spec l : forall i out rest,
  let '(bs, n) := fill (length rest) (i + 2) l in
  emit_entries i l (out ++ rest) (length out) (Z.of_nat i + 2) = (((length out + length bs)%nat, Z.of_nat (i + n) + 2, (n =? length l)%nat), out ++ over bs rest).
Proof.
  induction l as [|e l IH]; intros i out rest; cbn [fill emit_entries].
  { unfold over. cbn. by rewrite !Nat.add_0_r. }
  destruct e as [[name t] ino] eqn:Ee. rewrite <- Ee. pose proof (write_spec out rest (i + 2) e) as Hw. rewrite Ee in Hw at 1 2 3. cbn [fst snd] in Hw.
  replace (Z.of_nat (i + 2) + 1) with (Z.of_nat i + 3) in Hw by lia. rewrite Hw. clear Hw. pose proof (record_pos (i + 2) e) as Hp. destruct (Nat.ltb_spec (length rest) (length (record (i + 2) e))) as [Hlt|Hge].
  - cbn. unfold over. cbn. by rewrite !Nat.add_0_r.
  - rewrite (proj2 (Nat.eqb_neq _ _)) by lia. specialize (IH (S i) (out ++ record (i + 2) e) (drop (length (record (i + 2) e)) rest)).
    rewrite length_drop in IH. change (S i + 2)%nat with (S (i + 2)) in IH. destruct (fill _ (S (i + 2)) l) as [bs n].
    rewrite length_app, <- app_assoc in IH. replace (Z.of_nat (S i) + 2) with (Z.of_nat i + 3) in IH by lia. rewrite IH. rewrite length_app, over_app, !app_assoc. f_equal. f_equal. f_equal; lia.
Qed.

Section listed.
Context `{Usize}.
Variables (dot_ino dotdot_ino : Z) (entries : list dirent).

(** The whole directory, in order. *)
Definition whole : list dirent := (lit ".", DT_DIR, dot_ino) :: (lit "..", DT_DIR, dotdot_ino) :: entries.

Hypothesis whole_small : Z.of_nat (length whole) < 2 ^ 32.

Lemma cursor_nat o : (o <= length whole)%nat -> cursor (Z.of_nat o) = Z.of_nat o.
Proof. intros Ho. unfold cursor. pose proof usize_max_ge as Hm. unfold u32_max in Hm. apply Z.mod_small. lia. Qed.

Lemma position_i64 o : (o <= length whole)%nat -> as_i64 (Z.of_nat o) = Z.of_nat o.
Proof. intros Ho. unfold as_i64. rewrite Z.mod_small; lia. Qed.

(** What a call gives: the records that fit from the cursor on. *)
Definition listed (buf : bytes) (o : nat) : kresult (nat * Z * bool) * bytes :=
  let '(bs, n) := fill (length buf) o (drop o whole) in
  if ((o =? 0) && (n =? 0))%nat then (Err EINVAL, buf)
  else (Ok (length bs, Z.of_nat (o + n), (n =? length (drop o whole))%nat), over bs buf).

Lemma emit_from i out rest :
  emit_entries i (drop i entries) (out ++ rest) (length out) (Z.of_nat i + 2) =
  let '(bs, n) := fill (length rest) (i + 2) (drop (i + 2) whole) in
  (((length out + length bs)%nat, Z.of_nat (i + 2 + n), (n =? length (drop (i + 2) whole))%nat), out ++ over bs rest).
Proof.
  replace (drop (i + 2) whole) with (drop i entries) by (by rewrite Nat.add_comm). pose proof (emit_spec (drop i entries) i out rest) as Hs.
  destruct (fill _ _ _) as [bs n]. rewrite Hs. do 3 f_equal. lia.
Qed.

Lemma over_nil rest : over [] rest = rest.
Proof. done. Qed.

Lemma emit_second out rest :
  (let '(w2, buf2) := write_dirent64 (out ++ rest) (length out) dotdot_ino 2 DT_DIR (lit "..") in
   if (w2 =? 0)%nat then (Ok (length out, 1, false), out ++ rest)
   else let '(r, buf3) := emit_entries 0 entries buf2 (length out + w2) 2 in (Ok r, buf3)) =
  let '(bs, n) := fill (length rest) 1 (drop 1 whole) in
  (Ok ((length out + length bs)%nat, Z.of_nat (1 + n), (n =? length (drop 1 whole))%nat), out ++ over bs rest) :> kresult (nat * Z * bool) * bytes.
Proof.
  set (e := (lit "..", DT_DIR, dotdot_ino)). change (drop 1 whole) with (e :: entries). cbn [fill]. pose proof (write_spec out rest 1 e) as Hw.
  change (Z.of_nat 1 + 1) with 2 in Hw. change (write_dirent64 (out ++ rest) (length out) dotdot_ino 2 DT_DIR (lit "..")) with (write_dirent64 (out ++ rest) (length out) e.2 2 e.1.2 e.1.1).
  rewrite Hw. pose proof (record_pos 1 e) as Hp. clear Hw. set (r := record 1 e) in *. destruct (Nat.ltb_spec (length rest) (length r)) as [Hlt|Hge].
  - cbn. by rewrite Nat.add_0_r.
  - rewrite (proj2 (Nat.eqb_neq _ 0%nat)) by lia. pose proof (emit_from 0 (out ++ r) (drop (length r) rest)) as He. rewrite length_drop in He. change (0 + 2)%nat with 2%nat in He.
    change (drop 2 whole) with entries in He. rewrite <- app_assoc in He. rewrite length_app in He. change (Z.of_nat 0 + 2) with 2 in He. change (drop 0 entries) with entries in He. rewrite He. clear He.
    destruct (fill _ 2 entries) as [bs n]. rewrite length_app, over_app, !app_assoc. do 4 f_equal; lia.
Qed.

Lemma list_directory_spec buf o : (o <= length whole)%nat -> list_directory dot_ino dotdot_ino entries buf (Z.of_nat o) = listed buf o.
Proof.
  intros Ho. unfold list_directory, listed. rewrite cursor_nat by done. destruct o as [|[|o]].
  - change (Z.of_nat 0 =? 0) with true. cbn iota. set (e := (lit ".", DT_DIR, dot_ino)). change (drop 0 whole) with (e :: drop 1 whole). cbn [fill]. pose proof (write_spec [] buf 0 e) as Hw. cbn [length app] in Hw.
    change (Z.of_nat 0 + 1) with 1 in Hw. change (write_dirent64 buf 0 dot_ino 1 DT_DIR (lit ".")) with (write_dirent64 buf 0 e.2 1 e.1.2 e.1.1). rewrite Hw. clear Hw.
    pose proof (record_pos 0 e) as Hp. set (r := record 0 e) in *. destruct (Nat.ltb_spec (length buf) (length r)) as [Hlt|Hge]; [done|].
    rewrite (proj2 (Nat.eqb_neq _ 0%nat)) by lia. cbn [andb]. change (1 =? 1) with true. cbn iota. change (Z.to_nat (2 - 2)) with 0%nat. change (as_i64 1) with 1. change (as_i64 2) with 2. change (drop 0 entries) with entries.
    pose proof (emit_second r (drop (length r) buf)) as He. destruct (write_dirent64 _ (length r) _ _ _ _) as [w2 buf2]. rewrite length_drop in He. cbn [andb Nat.eqb].
    destruct (fill _ 1 (drop 1 whole)) as [bs n]. destruct (w2 =? 0)%nat; [|destruct (emit_entries 0 entries buf2 (length r + w2) 2) as [r3 buf3]]; (etrans; [exact He|]; by rewrite over_app, length_app).
  - change (Z.of_nat 1 =? 0) with false. cbn [andb]. change (Z.of_nat 1 =? 1) with true. cbn iota. change (Z.to_nat (2 - 2)) with 0%nat. change (as_i64 1) with 1. change (as_i64 2) with 2. change (drop 0 entries) with entries.
    pose proof (emit_second [] buf) as He. cbn [length app] in He. destruct (write_dirent64 _ 0 _ _ _ _) as [w2 buf2]. cbn [andb Nat.eqb].
    destruct (fill _ 1 (drop 1 whole)) as [bs n]. destruct (w2 =? 0)%nat; [|destruct (emit_entries 0 entries buf2 (0 + w2) 2) as [r3 buf3]]; exact He.
  - rewrite !(proj2 (Z.eqb_neq _ _)) by lia. cbn [andb Nat.eqb]. rewrite position_i64 by done.
    replace (Z.to_nat (Z.of_nat (S (S o)) - 2)) with o by lia. pose proof (emit_from o [] buf) as He. cbn [length app] in He. replace (Z.of_nat o + 2) with (Z.of_nat (S (S o))) in He by lia.
    replace (o + 2)%nat with (S (S o)) in He by lia. change (0 + 0)%nat with 0%nat. destruct (fill _ (S (S o)) _) as [bs n]. rewrite He. done.
Qed.

End listed.

(** *** Reading a directory to its end *)

(** Calls with one buffer after the other, from a cursor, until one reports the end. *)
Fixpoint read_dir (get : bytes -> Z -> kresult (nat * Z * bool) * bytes) (bufs : list bytes) (offset : Z) : option bytes :=
  match bufs with
  | [] => None
  | buf :: bufs' =>
      match get buf offset with
      | (Ok (n, offset', exhausted), buf') => if (exhausted : bool) then Some (take n buf') else app (take n buf') <$> read_dir get bufs' offset'
      | (Err _, _) => None
      end
  end.

(** What a reader takes from the records: name, type and inode. *)
Fixpoint dirent_name (s : bytes) : bytes := match s with [] => [] | b :: s' => if b =? 0 then [] else b :: dirent_name s' end.
Definition from_le64 (s : bytes) : Z := from_le_bytes (take 4 s) + 2 ^ 32 * from_le_bytes (take 4 (drop 4 s)).
Fixpoint parse_dirents (fuel : nat) (s : bytes) : option (list dirent) :=
  match fuel, s with
  | _, [] => Some []
  | O, _ => None
  | S fuel', _ =>
      match s !! 16%nat, s !! 17%nat, s !! 18%nat with
      | Some lo, Some hi, Some d_type =>
          let n := Z.to_nat (lo + 256 * hi) in cons (dirent_name (drop 19 (take n s)), d_type, from_le64 s) <$> parse_dirents fuel' (drop n s)
      | _, _, _ => None
      end
  end.

Fixpoint records (k : nat) (l : list dirent) : bytes := match l with [] => [] | e :: l' => record k e ++ records (S k) l' end.

Lemma records_app k a b : records k (a ++ b) = records k a ++ records (k + length a) b.
Proof.
  revert k. induction a as [|e a IH]; intros k; cbn [records app length]; [by rewrite Nat.add_0_r|]. rewrite IH, <- app_assoc. do 3 f_equal. lia.
Qed.

Lemma fill_records room k l : let '(bs, n) := fill room k l in (n <= length l)%nat /\ bs = records k (take n l) /\ (forall e l', l = e :: l' -> (length (record k e) <= room)%nat -> (0 < n)%nat).
Proof.
  revert room k. induction l as [|e l IH]; intros room k; cbn [fill]; [by split_and!|]. destruct (Nat.ltb_spec room (length (record k e))) as [Hlt|Hge].
  - split_and!; [cbn; lia|done|]. intros e' l' [= <- <-] Hle. lia.
  - specialize (IH (room - length (record k e))%nat (S k)). destruct (fill _ _ l) as [bs n]. destruct IH as (Hn & -> & _). split_and!; [cbn; lia|done|]. intros. lia.
Qed.

(** An entry that can be written and read. *)
Record dirent_ok (e : dirent) : Prop := {
  de_name : Forall (fun b => b <> 0) e.1.1;
  de_short : (length e.1.1 <= 255)%nat;
  de_ino : 0 <= e.2 < 2 ^ 64;
}.

Lemma le64_roundtrip v tl : 0 <= v < 2 ^ 64 -> from_le64 (to_le64 v ++ tl) = v.
Proof.
  intros Hv. unfold from_le64, to_le64. change (take 4 ((to_le_bytes (v mod 2 ^ 32) ++ to_le_bytes ((v / 2 ^ 32) mod 2 ^ 32)) ++ tl)) with (to_le_bytes (v mod 2 ^ 32)).
  change (take 4 (drop 4 ((to_le_bytes (v mod 2 ^ 32) ++ to_le_bytes ((v / 2 ^ 32) mod 2 ^ 32)) ++ tl))) with (to_le_bytes ((v / 2 ^ 32) mod 2 ^ 32)).
  assert (0 <= v / 2 ^ 32 < 2 ^ 32) by (split; [apply Z.div_pos; lia|apply Z.div_lt_upper_bound; lia]). pose proof (Z.mod_pos_bound v (2 ^ 32) ltac:(lia)).
  rewrite (Z.mod_small (v / 2 ^ 32)) by done. rewrite !from_to_le by (unfold is_u32, u32_max; lia). pose proof (Z.div_mod v (2 ^ 32)). lia.
Qed.

Lemma c_string_app s tl : Forall (fun b => b <> 0) s -> dirent_name (s ++ 0 :: tl) = s.
Proof. induction 1 as [|b s Hb _ IH]; [done|]. cbn [app dirent_name]. rewrite (proj2 (Z.eqb_neq _ _)) by done. by rewrite IH. Qed.

Lemma parse_record k e tl fuel : dirent_ok e -> parse_dirents (S fuel) (record k e ++ tl) = cons e <$> parse_dirents fuel tl.
Proof.
  intros [Hn Hs Hi]. pose proof (record_length k e) as Hl. pose proof (reclen_bound e.1.1) as Hb. destruct e as [[name t] ino]. cbn [fst snd] in *.
  set (n := reclen_of name) in *. assert (Z.of_nat n < 2 ^ 16) as Hn16 by lia.
  assert (exists pad, record k (name, t, ino) = to_le64 ino ++ to_le64 (Z.of_nat k + 1) ++ to_le16 (Z.of_nat n) ++ t :: name ++ 0 :: pad) as [pad E].
  { unfold record, dirent64. cbn [fst snd]. fold n. rewrite Z.mod_small by lia. destruct (n - 19 - length name)%nat as [|m] eqn:Em; [lia|]. by exists (replicate m 0). }
  assert (record k (name, t, ino) ++ tl <> []) as Hne by (rewrite E; done). cbn [parse_dirents]. destruct (record k (name, t, ino) ++ tl) as [|b s] eqn:Es; [done|]. rewrite <- Es. clear Hne b s Es.
  assert (forall j x, (to_le64 ino ++ to_le64 (Z.of_nat k + 1) ++ to_le16 (Z.of_nat n) ++ t :: name ++ 0 :: pad) !! j = Some x -> (record k (name, t, ino) ++ tl) !! j = Some x) as Hj
    by (intros j x Hx; rewrite E; by apply lookup_app_l_Some).
  rewrite (Hj 16%nat (Z.of_nat n mod 256)), (Hj 17%nat ((Z.of_nat n / 256) mod 256)), (Hj 18%nat t) by done.
  assert (Z.to_nat (Z.of_nat n mod 256 + 256 * ((Z.of_nat n / 256) mod 256)) = n) as ->.
  { rewrite (Z.mod_small (Z.of_nat n / 256)) by (split; [apply Z.div_pos; lia|apply Z.div_lt_upper_bound; lia]). pose proof (Z.div_mod (Z.of_nat n) 256). lia. }
  assert (drop n (record k (name, t, ino) ++ tl) = tl) as -> by (rewrite <- Hl; apply drop_app_length).
  assert (take n (record k (name, t, ino) ++ tl) = record k (name, t, ino)) as -> by (rewrite <- Hl; apply take_app_length).
  rewrite E, <- !app_assoc, le64_roundtrip by done. do 4 f_equal. 
  change (drop 19 (to_le64 ino ++ to_le64 (Z.of_nat k + 1) ++ to_le16 (Z.of_nat n) ++ t :: name ++ 0 :: pad)) with (name ++ 0 :: pad). by apply c_string_app.
Qed.

Lemma parse_records l : forall k fuel, Forall dirent_ok l -> (length l <= fuel)%nat -> parse_dirents fuel (records k l) = Some l.
Proof.
  induction l as [|e l IH]; intros k fuel Hl Hf; [by destruct fuel|]. destruct fuel as [|fuel]; cbn [length] in Hf; [lia|]. apply Forall_cons in Hl as [He Hl].
  cbn [records]. rewrite parse_record by done. by rewrite IH by (done || lia).
Qed.

(** The session, from a cursor to the end. *)
Lemma read_dir_records `{Usize} dot dotdot entries bufs : forall o,
  let F := whole dot dotdot entries in
  Z.of_nat (length F) < 2 ^ 32 -> Forall (fun buf : bytes => forall e, e ∈ F -> (reclen_of e.1.1 <= length buf)%nat) bufs ->
  (o <= length F)%nat -> (length F - o <= length bufs)%nat -> (0 < length bufs)%nat ->
  read_dir (fun buf off => list_directory dot dotdot entries buf off) bufs (Z.of_nat o) = Some (records o (drop o F)).
Proof.
  induction bufs as [|buf bufs IH]; intros o F HF Hb Ho Hlen Hpos; [cbn in Hpos; lia|]. apply Forall_cons in Hb as [Hbuf Hb]. cbn [read_dir length] in *.
  rewrite list_directory_spec by done. unfold listed. fold F. pose proof (fill_records (length buf) o (drop o F)) as Hf. destruct (fill (length buf) o (drop o F)) as [bs n]. destruct Hf as (Hn & -> & Hfit).
  assert (drop o F <> [] -> (0 < n)%nat) as Hprog.
  { intros Hne. destruct (drop o F) as [|e l'] eqn:Ed; [done|]. apply (Hfit e l' eq_refl). rewrite record_length. apply Hbuf. rewrite <- (take_drop o F), Ed. apply elem_of_app. right. apply list_elem_of_here. }
  assert (((o =? 0) && (n =? 0))%nat = false) as ->.
  { destruct (Nat.eqb_spec o 0) as [->|]; [|done]. cbn [andb]. apply Nat.eqb_neq. assert (0 < n)%nat; [|lia]. by apply Hprog. }
  unfold over. rewrite take_app_length. rewrite length_drop in *. destruct (Nat.eqb_spec n (length F - o)) as [->|Hne].
  - f_equal. f_equal. apply take_ge. rewrite length_drop. lia.
  - assert (drop o F <> []) as Hnil by (intros E; assert (length (drop o F) = 0%nat) as El by (by rewrite E); rewrite length_drop in El; lia). specialize (Hprog Hnil).
    specialize (IH (o + n)%nat). cbv zeta in IH. fold F in IH. rewrite IH by (done || lia). cbn [fmap option_fmap option_map]. f_equal. rewrite <- drop_drop. rewrite <- (take_drop n (drop o F)) at 3. rewrite records_app, length_take, length_drop. do 2 f_equal. lia.
Qed.

(** ** Names that are listed exist *)

Definition listed_type (e : ProcfsEntry) : Z := if is_dir e then DT_DIR else if is_symlink e then DT_LNK else DT_REG.

(** A directory of [q] lists names, a type for each. *)
Definition lists (cur : Z) (dir : bytes) (x : dirent) (e : ProcfsEntry) : Prop :=
  match_procfs (dir ++ SLASH :: x.1.1) cur = Some e /\ x.1.2 = listed_type e.

(** The processes of a table have numbers in range, and their descriptors have
    descriptions. *)
Record proc_sane (p : Process) : Prop := {
  sn_pid : is_pid (pr_pid p);
  sn_fds : forall fd e, FdTable.get (pr_fd_table p) fd = Ok e -> is_Some (Ofd.get (pr_ofd_table p) (ofd_ref e));
}.

Lemma elem_of_listed_fds p fd : fd ∈ listed_fds p -> exists e, 0 <= fd < 2 ^ 31 /\ FdTable.get (pr_fd_table p) fd = Ok e.
Proof.
  unfold listed_fds. intros Hin%list_elem_of_In. apply filter_In in Hin as [Hin Hf]. apply list_elem_of_In, list_elem_of_fmap in Hin as (i & -> & Hi). apply elem_of_seq in Hi.
  destruct (FdTable.get _ _) as [e|]; [|done]. exists e. split; [lia|done].
Qed.

Lemma under_app pid name : under pid name = (lit "/proc/" ++ decimal pid) ++ SLASH :: name.
Proof. unfold under. by rewrite app_assoc. Qed.

(** The files of a process directory. *)
Lemma pid_file_listed pid name t ino cur :
  is_pid pid -> (name, t, ino) ∈ [(lit "fd", DT_DIR, procfs_ino pid 7); (lit "fdinfo", DT_DIR, procfs_ino pid 9); (lit "stat", DT_REG, procfs_ino pid 11);
          (lit "status", DT_REG, procfs_ino pid 12); (lit "cmdline", DT_REG, procfs_ino pid 13); (lit "environ", DT_REG, procfs_ino pid 14);
          (lit "maps", DT_REG, procfs_ino pid 15); (lit "mounts", DT_REG, procfs_ino pid 5); (lit "mountinfo", DT_REG, procfs_ino pid 6);
          (lit "cwd", DT_LNK, procfs_ino pid 16); (lit "exe", DT_LNK, procfs_ino pid 17); (lit "root", DT_LNK, procfs_ino pid 18);
          (lit "net", DT_DIR, procfs_ino pid 19)] ->
  exists e, lists cur (procfs_path (PidDir pid)) (name, t, ino) e /\ entry_pid e = Some pid /\ (forall q fd, e <> FdLink q fd /\ e <> FdInfo q fd).
Proof.
  intros Hp Hin. unfold lists. cbn [procfs_path fst snd]. rewrite <- under_app, match_under by done.
  repeat (apply elem_of_cons in Hin as [E|Hin]; [injection E as -> -> ->; rewrite pid_name_match by done; eexists; split; [split; reflexivity|by split]|]). by apply elem_of_nil in Hin.
Qed.

Lemma under_sub pid a b : under pid a ++ SLASH :: b = under pid (a ++ SLASH :: b).
Proof. unfold under. by rewrite <- !app_assoc. Qed.

(** The entries of the root, and of a network directory. *)
Lemma root_listed p procs x :
  Forall is_pid (procfs_pids procs) ->
  x ∈ [(lit "mounts", DT_REG, procfs_ino 0 1); (lit "self", DT_LNK, procfs_ino 0 2); (lit "thread-self", DT_LNK, procfs_ino 0 3)] ++
      map (fun pid => (decimal pid, DT_DIR, procfs_ino pid 4)) (procfs_pids procs) ++ [(lit "net", DT_DIR, procfs_ino 0 19)] ->
  exists e, lists (pr_pid p) (procfs_path Root) x e /\ validate_entry procs p e = Ok tt.
Proof.
  intros Hp [Hx|[Hx|Hx]%elem_of_app]%elem_of_app.
  - repeat (apply elem_of_cons in Hx as [->|Hx]; [eexists; split; [split; reflexivity|reflexivity]|]). by apply elem_of_nil in Hx.
  - apply list_elem_of_In, in_map_iff in Hx as (pid & <- & Hx%list_elem_of_In). rewrite Forall_forall in Hp. specialize (Hp pid Hx). exists (PidDir pid). split; [split; [|done]|].
    + exact (match_path (PidDir pid) (pr_pid p) (conj Hp I)).
    + unfold validate_entry. cbn [entry_pid]. unfold validate_pid. rewrite (bool_decide_eq_true_2 _ Hx). by rewrite orb_true_r.
  - apply elem_of_cons in Hx as [->|Hx]; [eexists; split; [split; reflexivity|reflexivity]|]. by apply elem_of_nil in Hx.
Qed.

Lemma net_listed pid x cur :
  match pid with Some pid => is_pid pid | None => True end ->
  x ∈ [(lit "tcp", DT_REG, procfs_ino (default 0 pid) 20); (lit "unix", DT_REG, procfs_ino (default 0 pid) 21)] ->
  exists e, lists cur (procfs_path (NetDir pid)) x e /\ entry_pid e = pid /\ (forall q fd, e <> FdLink q fd /\ e <> FdInfo q fd).
Proof.
  intros Hp Hx. apply elem_of_cons in Hx as [->|Hx]; [|apply elem_of_cons in Hx as [->|Hx]; [|by apply elem_of_nil in Hx]].
  - exists (NetTcp pid). split; [split; [|done]|by split]. pose proof (match_path (NetTcp pid) cur (conj Hp I)) as Hm. destruct pid as [pid|]; [|done]. cbn [procfs_path net_path fst snd] in *. by rewrite under_sub.
  - exists (NetUnix pid). split; [split; [|done]|by split]. pose proof (match_path (NetUnix pid) cur (conj Hp I)) as Hm. destruct pid as [pid|]; [|done]. cbn [procfs_path net_path fst snd] in *. by rewrite under_sub.
Qed.

(** A path that is valid for its process, and no descriptor. *)
Lemma validate_plain procs p e : match entry_pid e with Some pid => validate_pid procs p pid | None => Ok tt end = Ok tt -> (forall q fd, e <> FdLink q fd /\ e <> FdInfo q fd) -> validate_entry procs p e = Ok tt.
Proof. intros Hv Hn. unfold validate_entry. rewrite Hv. destruct e as [| | | | | | | |q fd| |q fd| | | | | | | | | | |]; try done; by destruct (Hn q fd). Qed.

Lemma listed_exists procs p q d x :
  proc_sane q -> (q = p \/ pr_pid q <> pr_pid p /\ procs !! pr_pid q = Some q /\ pr_pid q ∈ procfs_pids procs) -> (entry_pid d = None /\ q = p \/ entry_pid d = Some (pr_pid q)) ->
  Forall is_pid (procfs_pids procs) -> entry_wf d ->
  forall l, procfs_dir_entries q (procfs_path d) (procfs_pids procs) = Ok l -> x ∈ l ->
  exists e, lists (pr_pid p) (procfs_path d) x e /\ validate_entry procs p e = Ok tt.
Proof.
  intros [Hpid Hfds] Hq Hd Hpids Hwf l.
  assert (validate_pid procs p (pr_pid q) = Ok tt) as Hv.
  { unfold validate_pid. destruct Hq as [->|(_ & _ & Hin)]; [by rewrite Z.eqb_refl|]. rewrite (bool_decide_eq_true_2 _ Hin). by rewrite orb_true_r. }
  assert (own_or procs p (pr_pid q) = Some q) as Ho.
  { unfold own_or. destruct Hq as [->|(Hne & Hl & _)]; [by rewrite Z.eqb_refl|]. by rewrite (proj2 (Z.eqb_neq _ _)). }
  unfold procfs_dir_entries. rewrite match_path by done. destruct d; try done; cbn [entry_pid] in Hd; intros [= <-] Hx.
  - by apply root_listed.
  - destruct Hd as [[? _]|Hd]; [done|]. injection Hd as ->. destruct x as [[name t] ino]. apply (pid_file_listed _ _ _ _ (pr_pid p) Hpid) in Hx as (e & Hl & He & Hn).
    exists e. split; [done|]. apply validate_plain; [by rewrite He|done].
  - destruct Hd as [[? _]|Hd]; [done|]. injection Hd as ->. rewrite Z.eqb_refl in Hx. apply list_elem_of_In, in_map_iff in Hx as (fd & <- & Hx%list_elem_of_In). apply elem_of_listed_fds in Hx as (fe & Hr & Hg).
    exists (FdLink (pr_pid q) fd). split; [split; [|done]|].
    + cbn [fst snd procfs_path]. rewrite under_sub, match_under by done. by apply match_fd_file.
    + unfold validate_entry. cbn [entry_pid]. rewrite Hv, Ho. cbn. unfold has_open_fd. rewrite Hg. by rewrite bool_decide_eq_true_2 by (by eapply Hfds).
  - destruct Hd as [[? _]|Hd]; [done|]. injection Hd as ->. rewrite Z.eqb_refl in Hx. apply list_elem_of_In, in_map_iff in Hx as (fd & <- & Hx%list_elem_of_In). apply elem_of_listed_fds in Hx as (fe & Hr & Hg).
    exists (FdInfo (pr_pid q) fd). split; [split; [|done]|].
    + cbn [fst snd procfs_path]. rewrite under_sub, match_under by done. by apply match_fd_file.
    + unfold validate_entry. cbn [entry_pid]. rewrite Hv, Ho. cbn. unfold has_open_fd. rewrite Hg. by rewrite bool_decide_eq_true_2 by (by eapply Hfds).
  - apply (net_listed _ _ (pr_pid p) (proj1 Hwf)) in Hx as (e & Hl & He & Hn). exists e. split; [done|]. apply validate_plain; [|done]. rewrite He. destruct pid as [pid|]; [|done].
    destruct Hd as [[? _]|Hd]; [done|]. injection Hd as ->. exact Hv.
Qed.

(** *** What a listing writes can be read *)

Lemma radix_length fuel radix n : (length (radix_digits fuel radix n) <= fuel)%nat.
Proof.
  revert n. induction fuel as [|fuel IH]; intros n; [done|]. cbn [radix_digits]. rewrite length_app. specialize (IH (n / radix)). destruct (n <? radix); cbn [length]; lia.
Qed.

Lemma decimal_entry_ok pid t ino : 0 <= pid <= u32_max -> 0 <= ino < 2 ^ 64 -> dirent_ok (decimal pid, t, ino).
Proof.
  intros Hp Hi. split; [| |done]; cbn [fst snd].
  - destruct (decimal_spec pid Hp) as (_ & d & s & -> & D & S). assert (Forall is_digit (d :: s)) as Hd by (by constructor). eapply Forall_impl; [exact Hd|]. unfold is_digit. intros; lia.
  - unfold decimal. rewrite (proj2 (Z.ltb_ge _ _)) by lia. pose proof (radix_length 32 10 pid). lia.
Qed.

Lemma procfs_ino_range pid k : 0 <= pid <= u32_max -> 0 <= k < 256 -> 0 <= procfs_ino pid k < 2 ^ 64.
Proof.
  intros Hp Hk. unfold procfs_ino. unfold u32_max in Hp.
  assert (0 <= Z.shiftl pid 8 < 2 ^ 64) by (rewrite Z.shiftl_mul_pow2 by lia; lia). apply lor_u64; [apply lor_u64|]; unfold u64_range; lia.
Qed.

Lemma lit_entry_ok s t ino : bool_decide (Forall (fun b => b <> 0) (lit s)) && (length (lit s) <=? 255)%nat = true -> 0 <= ino < 2 ^ 64 -> dirent_ok (lit s, t, ino).
Proof. intros [H1 H2]%andb_true_iff Hi. split; [by apply bool_decide_eq_true in H1|by apply Nat.leb_le in H2|done]. Qed.

Lemma listed_ok q d pids l :
  proc_sane q -> Forall is_pid pids -> entry_wf d -> procfs_dir_entries q (procfs_path d) pids = Ok l -> Forall dirent_ok l.
Proof.
  intros [Hpid Hfds] Hpids Hwf. unfold procfs_dir_entries. rewrite match_path by done. destruct Hwf as [Hd _].
  assert (forall pid, is_pid pid -> forall k, 0 <= k < 256 -> 0 <= procfs_ino pid k < 2 ^ 64) as Hino by (intros pid Hp k Hk; apply procfs_ino_range; unfold is_pid in *; lia).
  assert (is_pid 0) as H0 by (unfold is_pid, u32_max; lia).
  destruct d as [| | | |pid| | |pid| |pid| | | | | | | | | |pid| |]; try done; cbn [entry_pid] in Hd; intros [= <-].
  - do 3 (apply Forall_cons; split; [apply lit_entry_ok; [done|apply Hino; [done|lia]]|]). apply Forall_app. split.
    + apply Forall_forall. intros x Hx%list_elem_of_In. apply in_map_iff in Hx as (pid & <- & Hx%list_elem_of_In). rewrite Forall_forall in Hpids. specialize (Hpids pid Hx).
      apply decimal_entry_ok; [unfold is_pid in *; lia|by apply Hino].
    + apply Forall_cons. split; [|done]. by apply lit_entry_ok; [|apply Hino; [|lia]].
  - repeat (apply Forall_cons; split; [apply lit_entry_ok; [done|apply Hino; [done|lia]]|]). done.
  - destruct (pid =? pr_pid q); [|done]. apply Forall_forall. intros x Hx%list_elem_of_In. apply in_map_iff in Hx as (fd & <- & Hx%list_elem_of_In). apply elem_of_listed_fds in Hx as (e & Hr & _).
    apply decimal_entry_ok; [unfold u32_max; lia|by apply Hino].
  - destruct (pid =? pr_pid q); [|done]. apply Forall_forall. intros x Hx%list_elem_of_In. apply in_map_iff in Hx as (fd & <- & Hx%list_elem_of_In). apply elem_of_listed_fds in Hx as (e & Hr & _).
    apply decimal_entry_ok; [unfold u32_max; lia|by apply Hino].
  - assert (is_pid (default 0 pid)) by (by destruct pid). repeat (apply Forall_cons; split; [apply lit_entry_ok; [done|apply Hino; [done|lia]]|]). done.
Qed.

(** A listing read to its end. *)
Lemma read_listing `{Usize} get dot dotdot l bufs :
  let F := whole dot dotdot l in
  (forall buf off, get buf off = list_directory dot dotdot l buf off) -> Forall dirent_ok F -> Z.of_nat (length l) < 2 ^ 31 ->
  Forall (fun buf : bytes => (282 <= length buf)%nat) bufs -> (length l + 2 <= length bufs)%nat ->
  exists bs, read_dir get bufs 0 = Some bs /\ parse_dirents (length l + 2) bs = Some F.
Proof.
  intros F Hget Hok Hlen Hbufs Hn. assert (length F = length l + 2)%nat as HF by (cbn; lia).
  exists (records 0 F). split; [|apply (parse_records F); [done|lia]].
  assert (forall bs o, read_dir get bs o = read_dir (fun buf off => list_directory dot dotdot l buf off) bs o) as ->.
  { induction bs as [|b bs IH]; intros o; [done|]. cbn [read_dir]. rewrite Hget. destruct (list_directory _ _ l b o) as [[[[n o'] ex]|e] b']; [|done]. by rewrite IH. }
  apply (read_dir_records _ _ _ bufs 0); fold F; [lia| |lia|lia|lia].
  eapply Forall_impl; [exact Hbufs|]. intros buf Hb e He. cbn beta in Hb. rewrite Forall_forall in Hok. pose proof (de_short _ (Hok e He)). pose proof (reclen_bound e.1.1). lia.
Qed.

(** *** The tree, apart from the listings *)

(** The directory an entry is in. *)
Definition parent_of (e : ProcfsEntry) : option ProcfsEntry :=
  match e with
  | Root => None
  | Mounts | SelfLink | ThreadSelfLink | PidDir _ => Some Root
  | PidMounts pid | PidMountinfo pid | FdDir pid | FdInfoDir pid | Stat pid | Status pid | Cmdline pid | Environ pid | Maps pid
  | Cwd pid | Exe pid | Root_ pid => Some (PidDir pid)
  | FdLink pid _ => Some (FdDir pid)
  | FdInfo pid _ => Some (FdInfoDir pid)
  | NetDir pid => Some (match pid with Some pid => PidDir pid | None => Root end)
  | NetTcp pid | NetUnix pid => Some (NetDir pid)
  end.

(** An entry of a process is there when the process is, and is no limbo record; one
    of a descriptor, when the descriptor is open. *)
Definition there (procs : gmap Z Process) (e : ProcfsEntry) : Prop :=
  match entry_pid e with
  | None => True
  | Some pid => exists q, procs !! pid = Some q /\ pr_state q <> Limbo /\
      match e with FdLink _ fd | FdInfo _ fd => is_Some (fd_at (fds_of q) fd) | _ => True end
  end.

(** Listings stop at descriptor 1023. *)
Definition listable (e : ProcfsEntry) : Prop := match e with FdLink _ fd | FdInfo _ fd => fd < 1024 | _ => True end.

Definition child (procs : gmap Z Process) (d : ProcfsEntry) (name : bytes) (t : Z) : Prop :=
  exists e, parent_of e = Some d /\ there procs e /\ listable e /\ procfs_path e = procfs_path d ++ SLASH :: name /\ t = listed_type e.

(** Processes are under their numbers, which are in range, and the caller is one. *)
Record table_sane (procs : gmap Z Process) (p : Process) : Prop := {
  ts_procs : forall pid q, procs !! pid = Some q -> pr_pid q = pid /\ proc_sane q;
  ts_self : procs !! pr_pid p = Some p /\ pr_state p <> Limbo;
}.

(** The process whose directory is read; the caller reads the others. *)
Definition dir_process (procs : gmap Z Process) (p : Process) (d : ProcfsEntry) (q : Process) : Prop :=
  match entry_pid d with None => q = p | Some pid => procs !! pid = Some q end.

Lemma elem_of_pids procs pid : pid ∈ procfs_pids procs <-> exists q, procs !! pid = Some q /\ pr_state q <> Limbo.
Proof.
  unfold procfs_pids. rewrite list_elem_of_fmap. split.
  - intros ([k q] & -> & Hin%list_elem_of_In). apply filter_In in Hin as [Hin%list_elem_of_In Hs%bool_decide_eq_true]. apply elem_of_btree_iter in Hin. by exists q.
  - intros (q & Hq & Hs). exists (pid, q). split; [done|]. apply list_elem_of_In, filter_In. split; [by apply list_elem_of_In, elem_of_btree_iter|by apply bool_decide_eq_true].
Qed.

(** The entries of a directory, in the order of its listing. *)
Definition children (q : Process) (pids : list Z) (d : ProcfsEntry) : list ProcfsEntry :=
  match d with
  | Root => [Mounts; SelfLink; ThreadSelfLink] ++ (PidDir <$> pids) ++ [NetDir None]
  | PidDir pid => [FdDir pid; FdInfoDir pid; Stat pid; Status pid; Cmdline pid; Environ pid; Maps pid; PidMounts pid; PidMountinfo pid; Cwd pid; Exe pid; Root_ pid; NetDir (Some pid)]
  | FdDir pid => FdLink pid <$> listed_fds q
  | FdInfoDir pid => FdInfo pid <$> listed_fds q
  | NetDir pid => [NetTcp pid; NetUnix pid]
  | _ => []
  end.

Definition named (d : ProcfsEntry) (x : dirent) (e : ProcfsEntry) : Prop := procfs_path e = procfs_path d ++ SLASH :: x.1.1 /\ x.1.2 = listed_type e.

Lemma map_named {A} d (f : A -> dirent) (g : A -> ProcfsEntry) l : (forall a, named d (f a) (g a)) -> Forall2 (named d) (map f l) (g <$> l).
Proof. intros Hf. induction l as [|a l IH]; constructor; [apply Hf|exact IH]. Qed.

Lemma children_named q pids d :
  entry_wf d -> is_dir d = true -> match entry_pid d with Some pid => pid = pr_pid q | None => True end ->
  exists l, procfs_dir_entries q (procfs_path d) pids = Ok l /\ Forall2 (named d) l (children q pids d).
Proof.
  intros Hw Hd Hq. unfold procfs_dir_entries. rewrite match_path by done.
  assert (forall pid s, under pid s = (lit "/proc/" ++ decimal pid) ++ SLASH :: s) as Hu by (intros; apply under_app).
  destruct d as [| | | |pid| | |pid| |pid| | | | | | | | | |pid| |]; try discriminate; cbn [entry_pid] in Hq; try subst pid; rewrite ?Z.eqb_refl; eexists; (split; [reflexivity|]); cbn [children].
  - apply Forall2_app; [by repeat constructor|]. apply Forall2_app; [|by repeat constructor]. apply map_named. by split.
  - repeat (apply Forall2_cons; split; [split; [apply Hu|done]|]). by constructor.
  - apply map_named. intros fd. split; [symmetry; apply under_sub|done].
  - apply map_named. intros fd. split; [symmetry; apply under_sub|done].
  - repeat (apply Forall2_cons; split; [split; [destruct pid; [symmetry; apply under_sub|done]|done]|]). by constructor.
Qed.

Lemma elem_of_fds q fd : fd ∈ listed_fds q <-> fd < 1024 /\ is_Some (fd_at (fds_of q) fd).
Proof.
  unfold listed_fds. rewrite list_elem_of_In, filter_In, <- list_elem_of_In, list_elem_of_fmap, fd_at_get. split.
  - intros [(i & -> & Hi%elem_of_seq) Hg]. split; [lia|]. by destruct (fd_at _ _).
  - intros [Hlt [e He]]. rewrite He. split; [|done]. exists (Z.to_nat fd). unfold fd_at, fd_index in He. destruct (Z.ltb_spec fd 0); [done|]. rewrite elem_of_seq. split; lia.
Qed.

Lemma elem_of_children procs p q d e :
  table_sane procs p -> entry_wf d -> is_dir d = true -> there procs d -> dir_process procs p d q ->
  e ∈ children q (procfs_pids procs) d <-> parent_of e = Some d /\ there procs e /\ listable e.
Proof.
  intros [Ht _] Hw Hd Hthere Hq. unfold dir_process in Hq. unfold there in Hthere. unfold there at 1.
  destruct d as [| | | |pid| | |pid| |pid| | | | | | | | | |pid| |]; try discriminate; cbn [entry_pid children] in *.
  - rewrite !elem_of_app, !elem_of_cons, elem_of_nil, list_elem_of_fmap. split.
    + intros [[->|[->|[->|[]]]]|[(pid & -> & Hin%elem_of_pids)|[->|[]]]]; (split; [done|]); try done. cbn. split; [|done]. destruct Hin as (q' & ? & ?). by exists q'.
    + intros (Hp & He & _). destruct e as [| | | |pid| | | | | | | | | | | | | | |[]| |]; try discriminate; try tauto. right; left. exists pid. split; [done|]. apply elem_of_pids. destruct He as (q' & ? & ? & _). by exists q'.
  - rewrite !elem_of_cons, elem_of_nil. split.
    + intros Hin. repeat (destruct Hin as [->|Hin]; [split; [done|]; split; [exact Hthere|done]|]). done.
    + intros (Hp & _). destruct e as [| | | |pid'|pid'|pid'|pid'|pid'|pid'|pid'|pid'|pid'|pid'|pid'|pid'|pid'|pid'|pid'|[pid'|]|pid'|pid']; try discriminate; injection Hp as ->; tauto.
  - rewrite list_elem_of_fmap. split.
    + intros (fd & -> & [Hlt Hin]%elem_of_fds). split; [done|]. split; [|done]. destruct Hthere as (q' & Hl & Hs & _). exists q'. split; [done|]. split; [done|]. congruence.
    + intros (Hp & He & Hlt). destruct e as [| | | |pid'|pid'|pid'|pid'|pid' fd|pid'|pid'|pid'|pid'|pid'|pid'|pid'|pid'|pid'|pid'|[pid'|]|pid'|pid']; try discriminate. injection Hp as ->.
      exists fd. split; [done|]. apply elem_of_fds. split; [done|]. destruct He as (q' & Hl & _ & Ho). congruence.
  - rewrite list_elem_of_fmap. split.
    + intros (fd & -> & [Hlt Hin]%elem_of_fds). split; [done|]. split; [|done]. destruct Hthere as (q' & Hl & Hs & _). exists q'. split; [done|]. split; [done|]. congruence.
    + intros (Hp & He & Hlt). destruct e as [| | | |pid'|pid'|pid'|pid'|pid' fd|pid'|pid' fd|pid'|pid'|pid'|pid'|pid'|pid'|pid'|pid'|[pid'|]|pid'|pid']; try discriminate. injection Hp as ->.
      exists fd. split; [done|]. apply elem_of_fds. split; [done|]. destruct He as (q' & Hl & _ & Ho). congruence.
  - rewrite !elem_of_cons, elem_of_nil. split.
    + intros Hin. repeat (destruct Hin as [->|Hin]; [split; [done|]; split; [exact Hthere|done]|]). done.
    + intros (Hp & _). destruct e as [| | | |pid'|pid'|pid'|pid'|pid' fd|pid'|pid' fd|pid'|pid'|pid'|pid'|pid'|pid'|pid'|pid'|[pid'|]|pid'|pid']; try discriminate; injection Hp as ->; tauto.
Qed.

Lemma NoDup_filtered_keys {A B} (f : A * B -> bool) (l : list (A * B)) : NoDup l.*1 -> NoDup (List.filter f l).*1.
Proof.
  induction l as [|x l IH]; [done|]. cbn [fmap list_fmap List.filter]. intros [Hn Hd]%NoDup_cons. destruct (f x); [|by apply IH]. cbn [fmap list_fmap]. apply NoDup_cons. split; [|by apply IH].
  intros (y & E & Hin%list_elem_of_In)%list_elem_of_fmap. apply filter_In in Hin as [Hin%list_elem_of_In _]. apply Hn, list_elem_of_fmap. by exists y.
Qed.

Lemma NoDup_children q pids d : NoDup pids -> NoDup (children q pids d).
Proof.
  intros Hp. assert (NoDup (listed_fds q)) as Hf.
  { unfold listed_fds. apply NoDup_ListNoDup, List.NoDup_filter, NoDup_ListNoDup, NoDup_fmap_2; [intros ??; lia|apply NoDup_seq]. }
  destruct d; cbn [children]; try apply NoDup_nil_2; try (by apply NoDup_fmap_2; [intros ?? [=]|]).
  - assert (NoDup (PidDir <$> pids)) as Hd by (by apply NoDup_fmap_2; [intros ?? [=]|]).
    apply NoDup_app. split; [by apply (bool_decide_unpack _); vm_compute|]. split.
    + intros x Hx [(pid & -> & _)%list_elem_of_fmap|Hx2]%elem_of_app; [set_solver|]. apply list_elem_of_singleton in Hx2 as ->. set_solver.
    + apply NoDup_app. split; [done|]. split; [|apply NoDup_singleton]. intros x (pid & -> & _)%list_elem_of_fmap. set_solver.
  - repeat (apply NoDup_cons; split; [set_solver|]). apply NoDup_nil_2.
  - repeat (apply NoDup_cons; split; [set_solver|]). apply NoDup_nil_2.
Qed.

Lemma there_wf procs p e : table_sane procs p -> there procs e -> listable e -> entry_wf e.
Proof.
  intros [Ht _] He Hl. split.
  - unfold there in He. destruct (entry_pid e) as [pid|]; [|done]. destruct He as (q & Hq & _). destruct (Ht _ _ Hq) as [<- [Hs _]]. exact Hs.
  - unfold there in He. destruct e; try done; destruct He as (q & _ & _ & [fe Hf]); unfold fd_at, fd_index in Hf; cbn in Hl; destruct (Z.ltb_spec fd 0); done || lia.
Qed.

Lemma procfs_path_inj e e' : entry_wf e -> entry_wf e' -> procfs_path e = procfs_path e' -> e = e'.
Proof. intros H1 H2 E. pose proof (match_path e 1 H1) as M1. rewrite E, (match_path e' 1 H2) in M1. by injection M1. Qed.

(** What a directory lists, as a set, and that no name comes twice. *)
Lemma listing_exact procs p q d :
  table_sane procs p -> is_dir d = true -> there procs d -> dir_process procs p d q ->
  exists l, procfs_dir_entries q (procfs_path d) (procfs_pids procs) = Ok l /\ NoDup ((fst ∘ fst) <$> l) /\
    forall name t, (exists ino, (name, t, ino) ∈ l) <-> child procs d name t.
Proof.
  intros Ht Hd Hthere Hq. assert (entry_wf d) as Hw by (eapply there_wf; [exact Ht|done|by destruct d]).
  destruct (children_named q (procfs_pids procs) d Hw Hd) as (l & El & Hl).
  { unfold dir_process in Hq. destruct (entry_pid d); [|done]. by destruct (ts_procs _ _ Ht _ _ Hq). }
  pose proof (fun e => elem_of_children procs p q d e Ht Hw Hd Hthere Hq) as Hc. exists l. split; [done|]. split.
  - assert (NoDup (children q (procfs_pids procs) d)) as Hnd.
    { apply NoDup_children, NoDup_filtered_keys, btree_iter_keys. }
    assert (forall e, e ∈ children q (procfs_pids procs) d -> entry_wf e) as Hwf by (intros e (_ & H1 & H2)%Hc; by eapply there_wf).
    clear - Hl Hnd Hwf. induction Hl as [|x e l es [Hx _] Hl IH]; [apply NoDup_nil_2|]. apply NoDup_cons in Hnd as [Hn Hnd]. cbn [fmap list_fmap]. apply NoDup_cons. split.
    + intros (x' & Ex & Hin)%list_elem_of_fmap. apply list_elem_of_lookup in Hin as [i Hi]. destruct (Forall2_lookup_l _ _ _ _ _ Hl Hi) as (e' & He' & Hx' & _).
      apply list_elem_of_lookup_2 in He'. apply Hn. cbn in Ex. rewrite (procfs_path_inj e e'); [done|apply Hwf; left|apply Hwf; by right|]. rewrite Hx, Hx'. by rewrite Ex.
    + apply IH; [done|]. intros e' He'. apply Hwf. by right.
  - intros name t. split.
    + intros (ino & Hin). apply list_elem_of_lookup in Hin as [i Hi]. destruct (Forall2_lookup_l _ _ _ _ _ Hl Hi) as (e & He & Hp & Htype).
      apply list_elem_of_lookup_2, Hc in He as (H1 & H2 & H3). exists e. by split_and!.
    + intros (e & H1 & H2 & H3 & Hp & ->). assert (e ∈ children q (procfs_pids procs) d) as He by (by apply Hc). apply list_elem_of_lookup in He as [i Hi].
      destruct (Forall2_lookup_r _ _ _ _ _ Hl Hi) as ([[name' t'] ino] & Hx & Hp' & Htype). cbn [fst snd] in *. apply list_elem_of_lookup_2 in Hx.
      rewrite Hp in Hp'. apply app_inv_head in Hp'. injection Hp' as ->. subst t'. by exists ino.
Qed.

(** C14: Reading a procfs directory gives every entry once, and every name exists.
    The tree is fixed apart from the code: which directory each entry is in, and
    when it is there (an entry of a process, when the process is and is no limbo
    record; one of a descriptor, when the descriptor is open).  In a table whose
    processes are under their numbers, the caller among them, for any directory
    that is there: the listing has, as names with types, exactly the entries in
    that directory that are there (of descriptors, those below 1024), no name
    twice; each name is found again by the matcher and valid for the caller; and
    read with any buffers that have room for the longest record, as many as there
    are entries, the calls reach the end, and the records they wrote, put together,
    are those of [.], [..] and of all the entries, each once, in order. *)
Theorem procfs_listing_complete `{Usize} procs p q d :
  table_sane procs p -> is_dir d = true -> there procs d -> dir_process procs p d q ->
  exists l, procfs_dir_entries q (procfs_path d) (procfs_pids procs) = Ok l /\ NoDup ((fst ∘ fst) <$> l) /\
    (forall name t, (exists ino, (name, t, ino) ∈ l) <-> child procs d name t) /\
    Forall (fun x => exists e, lists (pr_pid p) (procfs_path d) x e /\ validate_entry procs p e = Ok tt) l /\
    forall bufs, Z.of_nat (length l) < 2 ^ 31 -> Forall (fun buf : bytes => (282 <= length buf)%nat) bufs -> (length l + 2 <= length bufs)%nat ->
      exists bs, read_dir (fun buf off => procfs_getdents64 q (procfs_path d) buf off (procfs_pids procs)) bufs 0 = Some bs /\
        parse_dirents (length l + 2) bs = Some ((lit ".", DT_DIR, procfs_ino 0 0) :: (lit "..", DT_DIR, procfs_ino 0 0) :: l).
Proof.
  intros Ht Hd Hthere Hq. destruct (listing_exact procs p q d Ht Hd Hthere Hq) as (l & El & Hnd & Hl). exists l. split; [done|]. split; [done|]. split; [done|].
  assert (entry_wf d) as Hw by (eapply there_wf; [exact Ht|done|by destruct d]).
  assert (Forall is_pid (procfs_pids procs)) as Hpids by (apply Forall_forall; intros pid (q' & Hq' & _)%elem_of_pids; by destruct (ts_procs _ _ Ht _ _ Hq') as [<- [? _]]).
  destruct (ts_self _ _ Ht) as [Hself Hlimbo]. destruct (ts_procs _ _ Ht _ _ Hself) as [_ Hps].
  assert (proc_sane q /\ (q = p \/ pr_pid q <> pr_pid p /\ procs !! pr_pid q = Some q /\ pr_pid q ∈ procfs_pids procs) /\ (entry_pid d = None /\ q = p \/ entry_pid d = Some (pr_pid q))) as (Hqs & Hqp & Hqd).
  { unfold dir_process in Hq. destruct (entry_pid d) as [pid|] eqn:Ed; [|subst q; split_and!; auto]. destruct (ts_procs _ _ Ht _ _ Hq) as [<- Hs]. split; [done|]. split; [|by right].
    destruct (decide (pr_pid q = pr_pid p)) as [Ep|Hne]; [left; congruence|right]. split_and!; [done|done|]. apply elem_of_pids. exists q. split; [done|].
    unfold there in Hthere. rewrite Ed in Hthere. destruct Hthere as (q' & ? & ? & _). congruence. }
  split; [apply Forall_forall; intros x Hx; by eapply (listed_exists procs p q d)|].
  intros bufs Hlen Hbufs Hn. apply read_listing; [|repeat (apply Forall_cons; split; [apply lit_entry_ok; [done|apply procfs_ino_range; unfold u32_max; lia]|]); by eapply listed_ok|done|done|done].
  intros buf off. unfold procfs_getdents64. by rewrite El.
Qed.

(** ** Witnesses *)

Lemma procfs_path_roundtrip_witness :
  entry_wf (FdInfo 4000000000 17) /\ match_procfs (lit "/proc/4000000000/fdinfo/17") 1 = Some (FdInfo 4000000000 17).
Proof.
  assert (entry_wf (FdInfo 4000000000 17)) as Hw by (split; [unfold is_pid, u32_max|]; cbn; lia). split; [exact Hw|].
  exact (proj1 (procfs_path_roundtrip (FdInfo 4000000000 17) 1 Hw)).
Defined.

(** The descriptors of the leader, listed for another process of its group. *)
Lemma life_sane : proc_sane life_leader.
Proof.
  split; [vm_compute; done|]. intros fd e He. rewrite fd_at_get in He. unfold fd_at in He. destruct (fd_index fd) as [i|]; [|done]. cbn [mbind option_bind] in He.
  destruct (fds_of life_leader !! i) as [e'|] eqn:Ei; [|done]. injection He as <-. eapply counted_live; [apply life_descs|exact Ei].
Qed.

Definition life_procs : gmap Z Process := {[2 := life_leader; 3 := life_member]}.
Definition life_fds : list dirent := map (fun fd => (decimal fd, DT_LNK, procfs_ino 2 5)) [0; 1; 2; 3].

Lemma member_sane : proc_sane life_member.
Proof.
  split; [vm_compute; done|]. intros fd e He. unfold FdTable.get in He. destruct (fd_index fd) as [i|]; [|done].
  do 5 (destruct i as [|i]; [vm_compute in He; try discriminate He; injection He as <-; vm_compute; by eexists|]). vm_compute in He. by destruct i.
Qed.

Lemma life_table : table_sane life_procs life_member.
Proof.
  split; [|split; [vm_compute; reflexivity|vm_compute; discriminate]]. intros pid q Hq. unfold life_procs in Hq.
  apply lookup_insert_Some in Hq as [[<- <-]|[_ [<- <-]%lookup_singleton_Some]]; [split; [reflexivity|exact life_sane]|split; [reflexivity|exact member_sane]].
Qed.

Lemma procfs_listing_complete_witness :
  exists bs, read_dir (fun buf off => procfs_getdents64 life_leader (lit "/proc/2/fd") buf off [2; 3]) (replicate 6 (replicate 300 0)) 0 = Some bs /\
    map (fun x : dirent => x.1.1) <$> parse_dirents 6 bs = Some [lit "."; lit ".."; lit "0"; lit "1"; lit "2"; lit "3"] /\
    child life_procs (FdDir 2) (lit "3") DT_LNK.
Proof.
  assert (procfs_pids life_procs = [2; 3]) as Hp by (vm_compute; reflexivity).
  assert (procfs_dir_entries life_leader (procfs_path (FdDir 2)) (procfs_pids life_procs) = Ok life_fds) as El by (vm_compute; reflexivity).
  destruct (procfs_listing_complete life_procs life_member life_leader (FdDir 2) life_table) as (l & El' & _ & Hl & _ & Hr).
  - reflexivity.
  - exists life_leader. split; [vm_compute; reflexivity|]. split; [vm_compute; discriminate|exact I].
  - vm_compute. reflexivity.
  - assert (l = life_fds) as -> by (rewrite El in El'; injection El' as <-; reflexivity).
    destruct (Hr (replicate 6 (replicate 300 0))) as (bs & Hbs & Hb).
    + vm_compute. reflexivity.
    + apply Forall_replicate. rewrite length_replicate. lia.
    + rewrite length_replicate. cbn. lia.
    + exists bs. rewrite Hp in Hbs. split; [exact Hbs|]. split; [change (length life_fds + 2)%nat with 6%nat in Hb; rewrite Hb; vm_compute; reflexivity|].
      apply Hl. exists (procfs_ino 2 5). do 3 right; left.
Defined.

(** ** Observations *)

(** The inode in the listing of a descriptor directory is not the one of the link. *)
Example fd_listing_wrong_inode :
  exists l, procfs_dir_entries life_leader (lit "/proc/2/fd") [2] = Ok l /\ (snd <$> head l) <> Some (st_ino (procfs_stat (FdLink 2 0) 0 false)) /\
    (snd <$> head l) = Some (st_ino (procfs_stat (PidMounts 2) 0 false)).
Proof. eexists. split; [vm_compute; reflexivity|]. split; [vm_compute; discriminate|vm_compute; reflexivity]. Qed.

(** Processes whose numbers differ in a bit of the constant share inodes. *)
Example pid_inodes_collide : procfs_ino 1 4 = procfs_ino 1048577 4.
Proof. reflexivity. Qed.

(** [/proc/<pid>/fdinfo/<fd>] has no identity above 65535 and cannot be opened. *)
Example large_fdinfo_unopenable : regular_file_object_id (FdInfo 2 65536) = None.
Proof. reflexivity. Qed.

(** When the next record does not fit, a call in the middle of a directory returns
    zero bytes, which readers take for its end. *)
Example short_buffer_ends_listing : (procfs_getdents64 life_leader (lit "/proc/2") (replicate 20 0) 2 []).1 = Ok (0%nat, 2, false).
Proof. vm_compute. reflexivity. Qed.
