(* ===== verification/Devfs.v ===== *)
(** * The device file system ([crates/kernel/src/devfs.rs])

    The directories below [/dev] and their listing, with the functions of
    [syscalls.rs] that recognize device paths.  Every name that is listed is a path
    the kernel knows, with the listed type but for links. *)

From Stdlib Require Import String.
From S2P Require Import Prelude Bytes Abi Path FdTable Lock Ofd Wakeup Pipe PipeTable Memory Terminal Signal Backing Socket Names Mqueue Process Dri Devices Kernel Accounts ProcTable Lifecycle Sys Descriptors Releases Syscalls Procfs.

Inductive DevfsEntry := DevRoot | PtsDir | ShmDir | MqueueDir | DevFdDir | InputDir | DriDir.

#[export] Instance DevfsEntry_eq_dec : EqDecision DevfsEntry.
Proof. solve_decision. Defined.

Definition devfs_paths : list (bytes * DevfsEntry) :=
  [(lit "/dev", DevRoot); (lit "/dev/pts", PtsDir); (lit "/dev/shm", ShmDir); (lit "/dev/mqueue", MqueueDir); (lit "/dev/fd", DevFdDir);
   (lit "/dev/input", InputDir); (lit "/dev/dri", DriDir)].

Definition match_devfs_dir (path : bytes) : option DevfsEntry := snd <$> find_first (fun x => bool_decide (path = x.1)) devfs_paths.

(** A wrapping hash of the path. *)
Definition devfs_ino (path : bytes) : Z := fold_left (fun h b => (h * 31 + b) mod 2 ^ 64) path 14549248.

Definition match_devfs_stat (path : bytes) (uid gid : Z) : option WasmStat :=
  match match_devfs_dir path with
  | Some _ => Some (mkStat 6 (devfs_ino path) (Z.lor S_IFDIR 493) 2 uid gid 0 0 0 0 0 0 0 0)
  | None => None
  end.

(** The entries of a directory. *)
Definition named (dir name : bytes) (d_type : Z) : dirent := (name, d_type, devfs_ino (dir ++ SLASH :: name)).

Definition devfs_dir_entries (ptys : list (option PtyPair)) (p : Process) (e : DevfsEntry) : list dirent :=
  match e with
  | DevRoot =>
      map (fun n => named (lit "/dev") n DT_CHR) [lit "null"; lit "zero"; lit "full"; lit "random"; lit "urandom"; lit "tty"; lit "console"; lit "ptmx"; lit "fb0"; lit "dsp"] ++
      map (fun n => named (lit "/dev") n DT_LNK) [lit "stdin"; lit "stdout"; lit "stderr"] ++
      map (fun n => named (lit "/dev") n DT_DIR) [lit "fd"; lit "pts"; lit "shm"; lit "mqueue"; lit "input"; lit "dri"]
  | InputDir => [named (lit "/dev/input") (lit "mice") DT_CHR]
  | DriDir => [named (lit "/dev/dri") (lit "card0") DT_CHR; named (lit "/dev/dri") (lit "renderD128") DT_CHR]
  | PtsDir =>
      omap (fun i => match get_pty ptys i with
        | Some pty => if (0 <? slave_refs pty) || (0 <? master_refs pty) then Some (decimal (Z.of_nat i), DT_CHR, (devfs_ino (lit "/dev/pts/0") + Z.of_nat i) mod 2 ^ 64) else None
        | None => None
        end) (seq 0 MAX_PTYS)
  | DevFdDir => map (fun fd => (decimal fd, DT_LNK, 3725578240 + fd)) (listed_fds p)
  | ShmDir | MqueueDir => []
  end.

Definition devfs_getdents64 `{Usize} (ptys : list (option PtyPair)) (p : Process) (path buf : bytes) (offset : Z) : kresult (nat * Z * bool) * bytes :=
  match match_devfs_dir path with
  | None => (Err ENOENT, buf)
  | Some e => list_directory (devfs_ino path) 1 (devfs_dir_entries ptys p e) buf offset
  end.

(** A failed allocation leaves the description behind. *)
Definition devfs_open_dir (path : bytes) (oflags : Z) : M Z :=
  let flags := Z.ldiff oflags 704 in
  let! ofd_idx := ofd_create Directory flags DEVFS_DIR_HANDLE path in
  on_ofd ofd_idx (fun o => with_dir_host_handle o DEVFS_DIR_HANDLE) >;
  let fd_flags := if negb (Z.land oflags 524288 =? 0) then 1 else 0 in
  fd_result (fun t => FdTable.alloc t ofd_idx fd_flags).

(** ** Device paths ([syscalls.rs]) *)

Definition device_paths : list (bytes * VirtualDevice) :=
  [(lit "/dev/null", DevNull); (lit "/dev/console", DevNull); (lit "/dev/zero", DevZero); (lit "/dev/urandom", Urandom); (lit "/dev/random", Urandom);
   (lit "/dev/full", Full); (lit "/dev/fb0", Fb0); (lit "/dev/input/mice", Mice); (lit "/dev/dsp", DspDev); (lit "/dev/dri/renderD128", DriRenderD128);
   (lit "/dev/dri/card0", DriCard0)].

Definition match_virtual_device (path : bytes) : option VirtualDevice := snd <$> find_first (fun x => bool_decide (path = x.1)) device_paths.

Definition S_IFCHR : Z := 8192.   (* 0o020000 *)

Definition virtual_device_stat (d : VirtualDevice) (uid gid : Z) : WasmStat :=
  mkStat 5 (vd_ino d) (Z.lor S_IFCHR 438) 1 uid gid 0 0 0 0 0 0 0 0.

Definition match_pty_stat (path : bytes) (uid gid : Z) : option WasmStat :=
  if bool_decide (path = lit "/dev/ptmx") || bool_decide (path = lit "/dev/tty") || starts_with path (lit "/dev/pts/")
  then Some (mkStat 5 1347705088 (Z.lor S_IFCHR 400) 1 uid gid 0 0 0 0 0 0 0 0) else None.

(** One digit of a descriptor number, in 31 bits. *)
Definition parse_fd_digit (val : option Z) (b : Z) : option Z :=
  match val with
  | None => None
  | Some val =>
      if (b <? 48) || (57 <? b) then None
      else let v := val * 10 in
           if i32_max <? v then None else let v := v + (b - 48) in if i32_max <? v then None else Some v
  end.

Definition match_dev_fd (path : bytes) : option Z :=
  if bool_decide (path = lit "/dev/stdin") then Some 0
  else if bool_decide (path = lit "/dev/stdout") then Some 1
  else if bool_decide (path = lit "/dev/stderr") then Some 2
  else if starts_with path (lit "/dev/fd/") then
    match drop 8 path with [] => None | num => fold_left parse_fd_digit num (Some 0) end
  else None.

Definition dev_fd_path_stat (uid gid : Z) : WasmStat := mkStat 5 0 (Z.lor S_IFCHR 438) 1 uid gid 0 0 0 0 0 0 0 0.

Definition synthetic_file_content (path : bytes) : option bytes := if bool_decide (path = lit "/etc/mtab") then Some MOUNTS_CONTENT else None.
Definition synthetic_file_object_id (path : bytes) : option Z := if bool_decide (path = lit "/etc/mtab") then Some 1 else None.
Definition synthetic_file_stat (path : bytes) (uid gid : Z) : option WasmStat :=
  match synthetic_file_content path with
  | Some content => Some (mkStat 0 1163150080 (Z.lor S_IFREG 292) 1 uid gid (Z.of_nat (length content)) 0 0 0 0 0 0 0)
  | None => None
  end.

(** ** What the kernel knows of [/dev] *)

(** The metadata of a device path, in the order of [namespace_lstat_raw]. *)
Definition devfs_lstat (path : bytes) (uid gid : Z) : option WasmStat :=
  match match_devfs_stat path uid gid with
  | Some st => Some st
  | None =>
      match match_virtual_device path with
      | Some dev => Some (virtual_device_stat dev uid gid)
      | None =>
          match match_pty_stat path uid gid with
          | Some st => Some st
          | None => match match_dev_fd path with Some _ => Some (dev_fd_path_stat uid gid) | None => None end
          end
      end
  end.

(** The type in a listing agrees with the metadata; a link of [/dev] is a character
    device for [lstat]. *)
Definition type_agrees (d_type mode : Z) : Prop :=
  Z.land mode S_IFMT = if d_type =? DT_DIR then S_IFDIR else S_IFCHR.

Definition known (dir : bytes) (uid gid : Z) (x : dirent) : Prop :=
  exists st, devfs_lstat (dir ++ SLASH :: x.1.1) uid gid = Some st /\ type_agrees x.1.2 (st_mode st).

Definition devfs_path (e : DevfsEntry) : bytes :=
  match e with
  | DevRoot => lit "/dev" | PtsDir => lit "/dev/pts" | ShmDir => lit "/dev/shm" | MqueueDir => lit "/dev/mqueue"
  | DevFdDir => lit "/dev/fd" | InputDir => lit "/dev/input" | DriDir => lit "/dev/dri"
  end.

Lemma match_devfs_path e : match_devfs_dir (devfs_path e) = Some e.
Proof. by destruct e. Qed.

Lemma parse_digit_mono s : forall a v, 0 <= a -> fold_left parse_digit s (Some a) = Some v -> a <= v.
Proof.
  assert (forall s, fold_left parse_digit s None = None) as Hn by (intros t; by induction t).
  induction s as [|b s IH]; intros a v Ha; cbn [fold_left]; [by intros [= ->]|]. unfold parse_digit at 2. destruct (_ || _) eqn:Eb; [by rewrite Hn|]. apply orb_false_iff in Eb as [E1%Z.ltb_ge E2%Z.ltb_ge].
  cbv zeta. destruct (u32_max <? a * 10); [by rewrite Hn|]. destruct (u32_max <? a * 10 + (b - 48)); [by rewrite Hn|]. intros Hf. apply IH in Hf; lia.
Qed.

(** The parser of descriptor numbers agrees where the number fits. *)
Lemma parse_fd_digits s : forall a v, 0 <= a -> v <= i32_max -> fold_left parse_digit s (Some a) = Some v -> fold_left parse_fd_digit s (Some a) = Some v.
Proof.
  assert (forall s, fold_left parse_digit s None = None) as Hn by (intros t; by induction t).
  induction s as [|b s IH]; intros a v Ha Hv; cbn [fold_left]; [done|]. unfold parse_digit at 2, parse_fd_digit at 2. destruct (_ || _) eqn:Eb; [by rewrite Hn|]. apply orb_false_iff in Eb as [E1%Z.ltb_ge E2%Z.ltb_ge].
  cbv zeta. destruct (u32_max <? a * 10); [by rewrite Hn|]. destruct (u32_max <? a * 10 + (b - 48)); [by rewrite Hn|]. intros Hf. pose proof (parse_digit_mono s (a * 10 + (b - 48)) v ltac:(lia) Hf) as Hm.
  rewrite !(proj2 (Z.ltb_ge _ _)) by lia. apply IH; [lia|done|done].
Qed.

Ltac not_listed := cbn [devfs_paths device_paths find_first List.find fst snd]; rewrite ?bool_decide_eq_false_2 by (intros E; discriminate E).

Lemma pts_known n uid gid : 0 <= n <= u32_max -> exists st, devfs_lstat (lit "/dev/pts/" ++ decimal n) uid gid = Some st /\ type_agrees DT_CHR (st_mode st).
Proof.
  intros Hn. destruct (decimal_head n Hn) as (d & s & E & D). rewrite E. eexists. split; [|shelve]. unfold devfs_lstat, match_devfs_stat, match_devfs_dir, match_virtual_device, find_first. not_listed. reflexivity. Unshelve. done.
Qed.

Lemma dev_fd_known n uid gid : 0 <= n <= i32_max -> devfs_lstat (lit "/dev/fd/" ++ decimal n) uid gid = Some (dev_fd_path_stat uid gid).
Proof.
  intros Hn. assert (0 <= n <= u32_max) as Hu by (unfold i32_max, u32_max in *; lia). destruct (decimal_spec n Hu) as (P & d & s & E & D & _). rewrite E in *.
  assert (fold_left parse_fd_digit (d :: s) (Some 0) = Some n) as Hp by (apply parse_fd_digits; [lia|lia|exact P]).
  unfold devfs_lstat, match_devfs_stat, match_devfs_dir, match_virtual_device, find_first. not_listed. cbn [fmap option_fmap option_map].
  unfold match_pty_stat, match_dev_fd. not_listed. change (starts_with (lit "/dev/fd/" ++ d :: s) (lit "/dev/pts/")) with false. change (starts_with (lit "/dev/fd/" ++ d :: s) (lit "/dev/fd/")) with true.
  change (drop 8 (lit "/dev/fd/" ++ d :: s)) with (d :: s). cbn [orb]. by rewrite Hp.
Qed.

Lemma devfs_ino_range path : 0 <= devfs_ino path < 2 ^ 64.
Proof.
  unfold devfs_ino. assert (forall h, 0 <= h < 2 ^ 64 -> 0 <= fold_left (fun h b => (h * 31 + b) mod 2 ^ 64) path h < 2 ^ 64) as Hf; [|apply Hf; lia].
  induction path as [|b path IH]; intros h Hh; [done|]. cbn [fold_left]. apply IH. apply Z.mod_pos_bound. lia.
Qed.

Lemma named_ok dir name t : bool_decide (Forall (fun b => b <> 0) name) && (length name <=? 255)%nat = true -> dirent_ok (named dir name t).
Proof. intros [H1 H2]%andb_true_iff. split; [by apply bool_decide_eq_true in H1|by apply Nat.leb_le in H2|apply devfs_ino_range]. Qed.

Lemma pts_entries ptys i x :
  x ∈ omap (fun i => match get_pty ptys i with
        | Some pty => if (0 <? slave_refs pty) || (0 <? master_refs pty) then Some (decimal (Z.of_nat i), DT_CHR, (devfs_ino (lit "/dev/pts/0") + Z.of_nat i) mod 2 ^ 64) else None
        | None => None
        end) (seq i MAX_PTYS) -> i = 0%nat -> exists n, 0 <= n <= u32_max /\ x = (decimal n, DT_CHR, (devfs_ino (lit "/dev/pts/0") + n) mod 2 ^ 64).
Proof.
  intros Hx ->. apply list_elem_of_omap in Hx as (j & Hj%elem_of_seq & Hx). exists (Z.of_nat j). unfold MAX_PTYS in Hj. split; [unfold u32_max; lia|].
  destruct (get_pty ptys j) as [pty|]; [|done]. destruct (_ || _); [|done]. by injection Hx.
Qed.

Lemma fd_entries p x : x ∈ map (fun fd => (decimal fd, DT_LNK, 3725578240 + fd)) (listed_fds p) -> exists fd, 0 <= fd <= i32_max /\ x = (decimal fd, DT_LNK, 3725578240 + fd).
Proof.
  intros Hx%list_elem_of_In. apply in_map_iff in Hx as (fd & <- & Hx%list_elem_of_In). apply elem_of_listed_fds in Hx as (e & Hr & _). exists fd. split; [unfold i32_max; lia|done].
Qed.

Lemma devfs_entries_ok ptys p e : Forall dirent_ok (devfs_dir_entries ptys p e).
Proof.
  destruct e; cbn [devfs_dir_entries].
  - apply Forall_app. split; [|apply Forall_app; split]; apply Forall_map; repeat (apply Forall_cons; split; [by apply named_ok|]); done.
  - apply Forall_forall. intros x Hx. apply pts_entries in Hx as (n & Hn & ->); [|done]. apply decimal_entry_ok; [done|apply Z.mod_pos_bound; lia].
  - done.
  - done.
  - apply Forall_forall. intros x Hx. apply fd_entries in Hx as (fd & Hf & ->). apply decimal_entry_ok; unfold i32_max, u32_max in *; lia.
  - repeat (apply Forall_cons; split; [by apply named_ok|]). done.
  - repeat (apply Forall_cons; split; [by apply named_ok|]). done.
Qed.

Lemma devfs_entries_known ptys p e uid gid : Forall (known (devfs_path e) uid gid) (devfs_dir_entries ptys p e).
Proof.
  destruct e; cbn [devfs_dir_entries].
  - apply Forall_app. split; [|apply Forall_app; split]; apply Forall_map; repeat (apply Forall_cons; split; [eexists; split; reflexivity|]); done.
  - apply Forall_forall. intros x Hx. apply pts_entries in Hx as (n & Hn & ->); [|done]. destruct (pts_known n uid gid Hn) as (st & H1 & H2). by exists st.
  - done.
  - done.
  - apply Forall_forall. intros x Hx. apply fd_entries in Hx as (fd & Hf & ->). exists (dev_fd_path_stat uid gid). split; [exact (dev_fd_known fd uid gid Hf)|done].
  - repeat (apply Forall_cons; split; [eexists; split; reflexivity|]). done.
  - repeat (apply Forall_cons; split; [eexists; split; reflexivity|]). done.
Qed.

Lemma omap_length {A B} (f : A -> option B) l : (length (omap f l) <= length l)%nat.
Proof. induction l as [|a l IH]; [done|]. cbn [omap list_omap]. destruct (f a); cbn [length]; lia. Qed.

Lemma devfs_entries_length ptys p e : (length (devfs_dir_entries ptys p e) <= 1024)%nat.
Proof.
  destruct e; cbn [devfs_dir_entries]; [cbn; lia| |cbn; lia|cbn; lia| |cbn; lia|cbn; lia].
  - etrans; [apply omap_length|]. rewrite length_seq. unfold MAX_PTYS. lia.
  - rewrite length_map. unfold listed_fds. etrans; [apply filter_length_le|]. by rewrite length_fmap, length_seq.
Qed.

(** Reading a directory below [/dev] gives every entry once, and every name is
    known.  Read with any buffers that have room for the longest record, as many as
    there are entries: the calls reach the end, and the records they wrote are those
    of [.], [..] and of all the entries, each once and in order.  The path of each
    name has metadata in the kernel, a directory exactly when it is listed as
    one. *)
Theorem devfs_listing_complete `{Usize} ptys p e uid gid bufs :
  let l := devfs_dir_entries ptys p e in
  Forall (fun buf : bytes => (282 <= length buf)%nat) bufs -> (length l + 2 <= length bufs)%nat ->
  (exists bs, read_dir (fun buf off => devfs_getdents64 ptys p (devfs_path e) buf off) bufs 0 = Some bs /\
    parse_dirents (length l + 2) bs = Some ((lit ".", DT_DIR, devfs_ino (devfs_path e)) :: (lit "..", DT_DIR, 1) :: l)) /\
  Forall (known (devfs_path e) uid gid) l.
Proof.
  intros l Hbufs Hn. split; [|apply devfs_entries_known].
  apply read_listing; [| |pose proof (devfs_entries_length ptys p e) as Hl; fold l in Hl; lia|done|done].
  - intros buf off. unfold devfs_getdents64. by rewrite match_devfs_path.
  - repeat (apply Forall_cons; split; [apply lit_entry_ok; [done|first [apply devfs_ino_range|lia]]|]). apply devfs_entries_ok.
Qed.

Lemma devfs_listing_complete_witness :
  exists bs, read_dir (fun buf off => devfs_getdents64 PTY_TABLE life_leader (lit "/dev/dri") buf off) (replicate 4 (replicate 300 0)) 0 = Some bs /\
    map (fun x : dirent => x.1.1) <$> parse_dirents 4 bs = Some [lit "."; lit ".."; lit "card0"; lit "renderD128"].
Proof.
  destruct (devfs_listing_complete PTY_TABLE life_leader DriDir 0 0 (replicate 4 (replicate 300 0))) as [(bs & Hr & Hb) _].
  - apply Forall_replicate. rewrite length_replicate. lia.
  - rewrite length_replicate. cbn. lia.
  - exists bs. split; [exact Hr|]. change (length (devfs_dir_entries PTY_TABLE life_leader DriDir) + 2)%nat with 4%nat in Hb. rewrite Hb. vm_compute. reflexivity.
Defined.

(** ** Observations *)

(** A directory of [/dev] that finds no free descriptor leaves its description,
    counted once, with no descriptor. *)
Example devfs_open_leaks : forall `{HostIO},
  let p := with_fds life_leader (set_max_fds (pr_fd_table life_leader) 4) in
  match devfs_open_dir (lit "/dev") 0 (mkSys p life_kernel Lock.new devices_new None [] ∅ ∅) with
  | Some (Err EMFILE, s') => ref_count <$> Ofd.get (pr_ofd_table (sy_proc s')) 4
  | _ => None
  end = Some 1.
Proof. intros. vm_compute. reflexivity. Qed.

(** Any name below [/dev/pts] has metadata, whether or not there is a terminal. *)
Example missing_pty_has_metadata : is_Some (devfs_lstat (lit "/dev/pts/nothing") 0 0) /\ get_pty PTY_TABLE 9 = None.
Proof. split; [by eexists|reflexivity]. Qed.
