(* ===== verification/Resolve.v ===== *)
(** * Pathname resolution ([crates/kernel/src/syscalls.rs])

    The namespace is one tree: procfs and devfs belong to the kernel, everything
    else to the host, and FIFO names are host files with a kernel buffer.  A
    pathname is resolved component by component with the caller's search
    permission, following links across the whole tree; the file system back ends
    only see canonical paths. *)

From Stdlib Require Import String.
From S2P Require Import Prelude Bytes Abi Path FdTable Lock Ofd Wakeup Pipe PipeTable Memory Terminal Signal Backing Socket Names Mqueue Process Dri Devices Kernel Accounts ProcTable Lifecycle Sys Descriptors Releases Syscalls Procfs Devfs.

(** ** Permissions *)

Definition R_OK : Z := 4.
Definition W_OK : Z := 2.
Definition X_OK : Z := 1.
Definition S_ISVTX : Z := 512.      (* 0o1000 *)

Definition is_type (st : WasmStat) (t : Z) : bool := Z.land (st_mode st) S_IFMT =? t.

Definition has_access_for_ids (uid gid : Z) (st : WasmStat) (amode : Z) : bool :=
  if amode =? 0 then true
  else if uid =? 0 then
    if Z.land amode X_OK =? 0 then true else is_type st S_IFDIR || negb (Z.land (st_mode st) 73 =? 0)
  else
    let available :=
      if uid =? st_uid st then Z.land (Z.shiftr (st_mode st) 6) 7
      else if gid =? st_gid st then Z.land (Z.shiftr (st_mode st) 3) 7
      else Z.land (st_mode st) 7 in
    Z.land available amode =? amode.

Definition check_access_for_ids (uid gid : Z) (st : WasmStat) (amode : Z) : kresult unit :=
  if has_access_for_ids uid gid st amode then Ok tt else Err EACCES.
Definition has_access (p : Process) (st : WasmStat) (amode : Z) : bool := has_access_for_ids (pr_euid p) (pr_egid p) st amode.
Definition check_access (p : Process) (st : WasmStat) (amode : Z) : kresult unit :=
  if has_access p st amode then Ok tt else Err EACCES.

Definition check_owner_or_root (p : Process) (st : WasmStat) : kresult unit :=
  if (pr_euid p =? 0) || (pr_euid p =? st_uid st) then Ok tt else Err EPERM.

(** ** Paths *)

Definition NAMESPACE_PATH_MAX : Z := 4096.
Definition NAMESPACE_NAME_MAX : Z := 255.

Record PathResolveOptions := mkOptions {
  follow_final_symlink : bool;
  allow_missing_final : bool;
  allow_missing_directory : bool;
  use_real_ids : bool;
}.

Definition FOLLOW : PathResolveOptions := mkOptions true false false false.
Definition NOFOLLOW : PathResolveOptions := mkOptions false false false false.
Definition CREATE_ENTRY : PathResolveOptions := mkOptions false true false false.
Definition CREATE_DIRECTORY : PathResolveOptions := mkOptions false true true false.

Record ResolvedNamespacePath := mkResolved { rn_path : bytes; rn_stat : option WasmStat }.

(** A path or anything below it. *)
Definition at_or_below (dir path : bytes) : bool := bool_decide (path = dir) || starts_with path (dir ++ [SLASH]).

Definition is_procfs_namespace_path (path : bytes) : bool := at_or_below (lit "/proc") path.
Definition is_devfs_namespace_path (path : bytes) : bool := at_or_below (lit "/dev") path.
Definition is_host_backed_devfs_path (path : bytes) : bool := at_or_below (lit "/dev/shm") path.

Definition ensure_host_mutable_namespace_path (path : bytes) : kresult unit :=
  if is_procfs_namespace_path path || (is_devfs_namespace_path path && negb (is_host_backed_devfs_path path)) ||
     bool_decide (is_Some (synthetic_file_content path))
  then Err EROFS else Ok tt.

Definition append_path_component (path component : bytes) : bytes :=
  (if (1 <? length path)%nat then path ++ [SLASH] else path) ++ component.

Definition pop_path_component (path : bytes) : bytes :=
  if (length path <=? 1)%nat then [SLASH]
  else match rposition (fun b => b =? SLASH) path with Some pos => take (Nat.max pos 1) path | None => path end.

Definition parent_path (path : bytes) : bytes :=
  if bool_decide (path = [SLASH]) then [SLASH]
  else match rposition (fun b => b =? SLASH) path with
       | Some 0%nat | None => [SLASH]
       | Some pos => take pos path
       end.

Section lengths.
Context `{Usize}.

Fixpoint substituted_len_from (len : Z) (needs_separator : bool) (pending : list bytes) : option Z :=
  match pending with
  | [] => Some len
  | component :: pending' =>
      match (if needs_separator then usize_checked_add len 1 else Some len) with
      | None => None
      | Some len' => match usize_checked_add len' (Z.of_nat (length component)) with None => None | Some len'' => substituted_len_from len'' true pending' end
      end
  end.

Definition substituted_path_len (target : bytes) (pending : list bytes) : option Z :=
  substituted_len_from (Z.of_nat (length target)) (negb (ends_with_slash target)) pending.

End lengths.

(** ** The entry at a canonical path *)

(** The kernel's own files: devfs, devices, terminals and synthetic files. *)
Definition kernel_lstat (p : Process) (path : bytes) : option WasmStat :=
  match devfs_lstat path (pr_euid p) (pr_egid p) with
  | Some st => Some st
  | None => synthetic_file_stat path (pr_euid p) (pr_egid p)
  end.

Definition fifo_world (s : Sys) : FifoWorld := mkFifoWorld (sy_fifos s) (k_pipes (sy_kernel s)).
Definition set_fifo_world (s : Sys) (w : FifoWorld) (es : list effect) : Sys :=
  set_fifos (set_kernel s (with_pipe_table (sy_kernel s) (fifo_pipes w) (run_effects (k_world (sy_kernel s)) es))) (names w).

Section resolve.
Context `{Usize} `{HostIO}.

(** [fifo_path_stat_raw] with the host's answer. *)
Definition fifo_stat_call (path : bytes) (follow : bool) : M (option WasmStat) := fun s =>
  match fifo_lookup (sy_fifos s) path with
  | None => Some (Ok None, s)
  | Some _ =>
      let rq := if follow then RqStat path else RqLstat path in
      let '(r, w) := fifo_path_stat_raw (fifo_world s) path (host_stat (sy_calls s) rq) in
      Some (r, set_fifo_world (log_call s rq) w [])
  end.

(** What follows the host's view of [/dev/shm]. *)
Definition namespace_lstat_rest (p : Process) (path : bytes) : M WasmStat :=
  match kernel_lstat p path with
  | Some st => ret st
  | None =>
      if is_devfs_namespace_path path && negb (is_host_backed_devfs_path path) then fail ENOENT
      else
        let! fifo := fifo_stat_call path false in
        match fifo with Some st => ret st | None => call_host_stat (RqLstat path) end
  end.

Definition namespace_lstat_raw (path : bytes) : M WasmStat :=
  let! p := gets sy_proc in
  let! procs := gets sy_procs in
  match match_procfs path (pr_pid p) with
  | Some entry => lift (let? _ := validate_entry procs p entry in Ok (procfs_stat entry 0 false))
  | None =>
      if is_procfs_namespace_path path then fail ENOENT
      else if bool_decide (path = lit "/dev/shm") then
        let! r := attempt (call_host_stat (RqLstat path)) in
        match r with
        | Ok st => if is_type st S_IFDIR then ret st else namespace_lstat_rest p path
        | Err ENOENT => namespace_lstat_rest p path
        | Err error => fail error
        end
      else namespace_lstat_rest p path
  end.

Definition namespace_readlink_raw (path : bytes) : M bytes :=
  let! p := gets sy_proc in
  let! procs := gets sy_procs in
  let! target :=
    match match_procfs path (pr_pid p) with
    | Some entry =>
        lift (let? _ := validate_entry procs p entry in
              if negb (is_symlink entry) then Err EINVAL else procfs_readlink procs p entry (Z.to_nat NAMESPACE_PATH_MAX))
    | None => call_host_bytes (RqReadlink path NAMESPACE_PATH_MAX)
    end in
  if NAMESPACE_PATH_MAX <=? Z.of_nat (length target) then fail ENAMETOOLONG
  else if bool_decide (target = []) then fail ENOENT
  else ret target.

(** ** The walk *)

(** The loop ends at a missing final component, or at an entry. *)
Inductive Walked :=
| Missing (path : bytes)
| Reached (path : bytes) (final_stat : WasmStat) (require_directory : bool).

(** [!is_dir => ENOTDIR], then the search permission. *)
Definition enter (uid gid : Z) (st : WasmStat) : M unit :=
  if negb (is_type st S_IFDIR) then fail ENOTDIR else lift (check_access_for_ids uid gid st X_OK).

Definition components (path : bytes) : list bytes := List.filter (fun c => negb (bool_decide (c = []))) (split_slash path).
Definition too_long (l : list bytes) : bool := existsb (fun c => NAMESPACE_NAME_MAX <? Z.of_nat (length c)) l.

Section walk.
Variables (p : Process) (o : PathResolveOptions) (uid gid : Z) (root_stat : WasmStat).

(** A link at [candidate] with [pending] behind it: [next] goes on. *)
Definition follow_link (next : list bytes -> bytes -> WasmStat -> bool -> M Walked)
    (candidate : bytes) (st : WasmStat) (pending : list bytes) (resolved : bytes) (final_stat : WasmStat) (require_directory : bool) : M Walked :=
  let is_final := bool_decide (pending = []) in
  match match_procfs candidate (pr_pid p) with
  | Some ThreadSelfLink =>
      let resolved := lit "/proc/" ++ decimal (pr_pid p) in
      let! st := namespace_lstat_raw resolved in
      next pending resolved st require_directory
  | Some (FdLink _ _) =>
      if negb is_final || require_directory then fail ENOTDIR else next pending candidate st require_directory
  | _ =>
      let! target := namespace_readlink_raw candidate in
      let! len := lift (ok_or (substituted_path_len target pending) ENAMETOOLONG) in
      if NAMESPACE_PATH_MAX <=? len then fail ENAMETOOLONG
      else
        let require_directory := require_directory || (is_final && (1 <? length target)%nat && ends_with_slash target) in
        let absolute := starts_with_slash target in
        if too_long (components target) then fail ENAMETOOLONG
        else next (components target ++ pending) (if absolute then [SLASH] else resolved) (if absolute then root_stat else final_stat) require_directory
  end.

(** The components up to a link that is followed. *)
Fixpoint walk_names (follow : bytes -> WasmStat -> list bytes -> bytes -> WasmStat -> bool -> M Walked)
    (pending : list bytes) (resolved : bytes) (final_stat : WasmStat) (require_directory : bool) {struct pending} : M Walked :=
  match pending with
  | [] => ret (Reached resolved final_stat require_directory)
  | component :: pending' =>
      let is_final := bool_decide (pending' = []) in
      if bool_decide (component = lit ".") then walk_names follow pending' resolved final_stat require_directory
      else if bool_decide (component = lit "..") then
        let resolved := pop_path_component resolved in
        let! st := namespace_lstat_raw resolved in
        (if is_final then ret tt else enter uid gid st) >;
        walk_names follow pending' resolved st require_directory
      else
        let candidate := append_path_component resolved component in
        let! r := attempt (namespace_lstat_raw candidate) in
        match r with
        | Err error =>
            if bool_decide (error = ENOENT) && is_final && allow_missing_final o then
              if is_procfs_namespace_path candidate || (is_devfs_namespace_path candidate && negb (is_host_backed_devfs_path candidate)) then fail EROFS
              else if require_directory && negb (allow_missing_directory o) then fail ENOENT
              else ret (Missing candidate)
            else fail error
        | Ok st =>
            if is_type st S_IFLNK && (negb is_final || follow_final_symlink o || require_directory)
            then follow candidate st pending' resolved final_stat require_directory
            else
              (if negb is_final || require_directory then enter uid gid st else ret tt) >;
              walk_names follow pending' candidate st require_directory
        end
  end.

(** [budget]: the links that may still be followed. *)
Fixpoint walk (budget : nat) : list bytes -> bytes -> WasmStat -> bool -> M Walked :=
  walk_names (match budget with O => fun _ _ _ _ _ _ => fail ELOOP | S budget' => follow_link (walk budget') end).

End walk.

Definition MAX_SYMLINKS : nat := 40.

Definition resolve_namespace_path_from (path base : bytes) (o : PathResolveOptions) : M ResolvedNamespacePath :=
  let! p := gets sy_proc in
  if bool_decide (path = []) then fail ENOENT
  else if NAMESPACE_PATH_MAX <=? Z.of_nat (length path) then fail ENAMETOOLONG
  else
    let absolute := make_absolute path base in
    if negb (starts_with_slash absolute) then fail ENOENT
    else
      let pending := components absolute in
      if too_long pending then fail ENAMETOOLONG
      else
        let dots := bool_decide (last pending = Some (lit ".")) || bool_decide (last pending = Some (lit "..")) in
        let require_directory := ((1 <? length absolute)%nat && ends_with_slash absolute) || dots in
        let! root_stat := namespace_lstat_raw [SLASH] in
        let '(uid, gid) := if use_real_ids o then (pr_uid p, pr_gid p) else (pr_euid p, pr_egid p) in
        enter uid gid root_stat >;
        let! w := walk p o uid gid root_stat MAX_SYMLINKS pending [SLASH] root_stat require_directory in
        match w with
        | Missing candidate => ret (mkResolved candidate None)
        | Reached resolved final_stat require_directory =>
            let! st := if bool_decide (resolved = [SLASH]) then ret final_stat else namespace_lstat_raw resolved in
            if require_directory && negb (is_type st S_IFDIR) then fail ENOTDIR else ret (mkResolved resolved (Some st))
        end.

Definition resolve_namespace_path (path : bytes) (o : PathResolveOptions) : M ResolvedNamespacePath :=
  let! p := gets sy_proc in resolve_namespace_path_from path (pr_cwd p) o.

Definition resolve_existing_namespace_path (path : bytes) : M bytes :=
  let! r := resolve_namespace_path path FOLLOW in ret (rn_path r).

(** ** Checks on a canonical path *)

Definition check_search_dir (path : bytes) : M unit :=
  let! st := namespace_lstat_raw path in
  if negb (is_type st S_IFDIR) then fail ENOTDIR else let! p := gets sy_proc in lift (check_access p st X_OK).

Fixpoint check_search_chain (current : bytes) (l : list bytes) : M unit :=
  match l with
  | [] => ret tt
  | component :: l' => let current := current ++ SLASH :: component in check_search_dir current >; check_search_chain current l'
  end.

Definition check_search_dir_chain (dir : bytes) : M unit :=
  check_search_dir [SLASH] >; (if bool_decide (dir = [SLASH]) then ret tt else check_search_chain [] (components dir)).

Definition check_search_path (path : bytes) : M unit := check_search_dir_chain (parent_path path).

Definition check_parent_writable (path : bytes) : M unit :=
  let parent := parent_path path in
  check_search_dir_chain parent >;
  let! st := namespace_lstat_raw parent in
  let! p := gets sy_proc in lift (check_access p st (Z.lor W_OK X_OK)).

Definition check_sticky_child (path : bytes) : M unit :=
  let! p := gets sy_proc in
  let! parent_st := namespace_lstat_raw (parent_path path) in
  if (Z.land (st_mode parent_st) S_ISVTX =? 0) || (pr_euid p =? 0) then ret tt
  else
    let! child_st := namespace_lstat_raw path in
    if (pr_euid p =? st_uid parent_st) || (pr_euid p =? st_uid child_st) then ret tt else fail EPERM.

(** [resolve_at_path] is below the descriptor calls' [fd_entry]. *)
Definition AT_FDCWD : Z := -100.

Definition resolve_at_path (dirfd : Z) (path : bytes) (o : PathResolveOptions) : M ResolvedNamespacePath :=
  if starts_with_slash path then resolve_namespace_path path o
  else if dirfd =? AT_FDCWD then resolve_namespace_path path o
  else
    let! entry := fd_entry dirfd in
    let! d := ofd_at (ofd_ref entry) in
    if negb (bool_decide (file_type d = Directory)) then fail ENOTDIR
    else resolve_namespace_path_from path (Ofd.path d) o.

End resolve.

(** ** What is at a path *)

(** A request that changes nothing. *)
Definition query (r : HostReq) : Prop :=
  match r with RqLstat _ | RqStat _ | RqReadlink _ _ | RqClock _ => True | _ => False end.

(** Only the recorded metadata of FIFO buffers differs. *)
Definition forget_metadata (t : PipeTable) : PipeTable := mkPipes (fmap (M:=option) (set_fifo_metadata None) <$> pipes t) (free_list t).

(** The states a run of queries leads to. *)
Record asked (s s' : Sys) : Prop := {
  as_proc : sy_proc s' = sy_proc s;
  as_procs : sy_procs s' = sy_procs s;
  as_fifos : sy_fifos s' = sy_fifos s;
  as_tables : sy_locks s' = sy_locks s /\ sy_devices s' = sy_devices s /\ sy_master s' = sy_master s;
  as_kernel : exists t, sy_kernel s' = with_pipe_table (sy_kernel s) t (k_world (sy_kernel s)) /\ forget_metadata t = forget_metadata (k_pipes (sy_kernel s));
  as_calls : exists new, sy_calls s' = new ++ sy_calls s /\ Forall query new;
}.

Lemma with_same_pipes k : with_pipe_table k (k_pipes k) (k_world k) = k.
Proof. by destruct k. Qed.

#[export] Instance asked_preorder : PreOrder asked.
Proof.
  split.
  - intros s. split; try done; [eexists; split; [symmetry; apply with_same_pipes|done]|by exists []].
  - intros s1 s2 s3 [A1 A2 A3 (A4 & A5 & A6) (t & A7 & A8) (n & A9 & A10)] [B1 B2 B3 (B4 & B5 & B6) (t' & B7 & B8) (n' & B9 & B10)]. split.
    1-3: congruence.
    + split_and!; congruence.
    + exists t'. rewrite B7, A7. split; [done|]. rewrite B8, A7. done.
    + exists (n' ++ n). rewrite B9, A9, <- app_assoc. split; [done|by apply Forall_app].
Qed.

Section entries.
Context `{Usize} `{HostIO}.

(** The metadata of the entry at a canonical path, as the caller sees it: the owner
    of the path answers, and a FIFO has the link count of its buffer. *)
Definition host_entry (s : Sys) (path : bytes) : kresult WasmStat :=
  let answer := host_stat (sy_calls s) (RqLstat path) in
  match sy_fifos s !! path with
  | None => answer
  | Some idx =>
      let? st := answer in
      let? q := ok_or (table_get (k_pipes (sy_kernel s)) idx) EIO in
      Ok (set_nlink (fifo_name_count q) (as_fifo_stat st))
  end.

Definition entry_of (s : Sys) (path : bytes) : kresult WasmStat :=
  let p := sy_proc s in
  match match_procfs path (pr_pid p) with
  | Some e => let? _ := validate_entry (sy_procs s) p e in Ok (procfs_stat e 0 false)
  | None =>
      if is_procfs_namespace_path path then Err ENOENT
      else
        let synthetic :=
          match kernel_lstat p path with
          | Some st => Ok st
          | None => if is_devfs_namespace_path path && negb (is_host_backed_devfs_path path) then Err ENOENT else host_entry s path
          end in
        if bool_decide (path = lit "/dev/shm") then
          match host_stat (sy_calls s) (RqLstat path) with
          | Ok st => if is_type st S_IFDIR then Ok st else synthetic
          | Err ENOENT => synthetic
          | Err e => Err e
          end
        else synthetic
  end.

(** ** Permissions, from the bits of a mode *)

(** The class of a caller towards a file, and the first of its three bits. *)
Inductive AccessClass := ForOwner | ForGroup | ForOthers.

Definition class_of (uid gid : Z) (st : WasmStat) : AccessClass :=
  if decide (uid = st_uid st) then ForOwner else if decide (gid = st_gid st) then ForGroup else ForOthers.
Definition execute_bit (c : AccessClass) : Z := match c with ForOwner => 6 | ForGroup => 3 | ForOthers => 0 end.
Definition write_bit (c : AccessClass) : Z := execute_bit c + 1.

(** Who may look names up in a directory, and who may change its entries: root,
    and otherwise the class the caller is in, whatever the other classes may do. *)
Definition may_search (uid gid : Z) (st : WasmStat) : Prop :=
  uid = 0 \/ Z.testbit (st_mode st) (execute_bit (class_of uid gid st)) = true.
Definition may_change_entries (uid gid : Z) (st : WasmStat) : Prop :=
  uid = 0 \/ Z.testbit (st_mode st) (execute_bit (class_of uid gid st)) = true /\ Z.testbit (st_mode st) (write_bit (class_of uid gid st)) = true.

Lemma land_bits a k : (0 <= k) -> Z.testbit (Z.land (Z.shiftr a k) 7) 0 = Z.testbit a k /\ Z.testbit (Z.land (Z.shiftr a k) 7) 1 = Z.testbit a (k + 1).
Proof. intros. rewrite !Z.land_spec, !Z.shiftr_spec by lia. rewrite Z.add_0_l, (Z.add_comm 1 k). split; apply andb_true_r. Qed.

Lemma available_bits uid gid st :
  let available :=
    if uid =? st_uid st then Z.land (Z.shiftr (st_mode st) 6) 7 else if gid =? st_gid st then Z.land (Z.shiftr (st_mode st) 3) 7 else Z.land (st_mode st) 7 in
  Z.testbit available 0 = Z.testbit (st_mode st) (execute_bit (class_of uid gid st)) /\ Z.testbit available 1 = Z.testbit (st_mode st) (write_bit (class_of uid gid st)).
Proof.
  cbv zeta. unfold class_of. destruct (Z.eqb_spec uid (st_uid st)) as [->|Hu]; [rewrite decide_True by done; by apply (land_bits _ 6)|rewrite decide_False by done].
  destruct (Z.eqb_spec gid (st_gid st)) as [->|Hg]; [rewrite decide_True by done; by apply (land_bits _ 3)|rewrite decide_False by done].
  rewrite <- (Z.shiftr_0_r (st_mode st)) at 1 3. by apply (land_bits _ 0).
Qed.

Lemma mask_bit a m k : 0 <= k -> Z.testbit m k = true -> Z.land a m = m -> Z.testbit a k = true.
Proof. intros Hk Hm E. rewrite <- E, Z.land_spec in Hm. apply andb_true_iff in Hm as [Hm _]. exact Hm. Qed.

(** The code's check is the one of the bits. *)
Lemma search_access uid gid st : is_type st S_IFDIR = true -> has_access_for_ids uid gid st X_OK = true <-> may_search uid gid st.
Proof.
  intros Hd. unfold has_access_for_ids, may_search. destruct (available_bits uid gid st) as [<- _]. set (available := if uid =? st_uid st then _ else _). change (X_OK =? 0) with false. cbn iota.
  destruct (Z.eqb_spec uid 0) as [->|Hu]; [rewrite Hd; change (Z.land X_OK X_OK =? 0) with false; split; auto|].
  rewrite Z.eqb_eq. split; [intros E; right; by apply (mask_bit _ X_OK 0)|intros [|E]; [done|]].
  change X_OK with (Z.ones 1). rewrite Z.land_ones by lia. rewrite <- Z.bit0_mod, E. done.
Qed.

Lemma change_access uid gid st : has_access_for_ids uid gid st (Z.lor W_OK X_OK) = true -> may_change_entries uid gid st.
Proof.
  unfold has_access_for_ids, may_change_entries. destruct (available_bits uid gid st) as [<- <-]. set (available := if uid =? st_uid st then _ else _). change (Z.lor W_OK X_OK =? 0) with false. cbn iota.
  destruct (Z.eqb_spec uid 0) as [->|Hu]; [by left|]. rewrite Z.eqb_eq. intros E. right. split; by eapply (mask_bit _ (Z.lor W_OK X_OK)).
Qed.

(** What is the host's: nothing in procfs, nothing in devfs but its shared memory,
    and not the kernel's own file. *)
Definition within (dir path : bytes) : Prop := path = dir \/ exists rest, path = dir ++ SLASH :: rest.
Definition host_owned (path : bytes) : Prop :=
  ~ within (lit "/proc") path /\ (within (lit "/dev") path -> within (lit "/dev/shm") path) /\ path <> lit "/etc/mtab".

Lemma at_or_below_within dir path : at_or_below dir path = true <-> within dir path.
Proof.
  unfold at_or_below, within. rewrite orb_true_iff, bool_decide_eq_true, starts_with_spec. split.
  - intros [|[rest Hp]]; [by left|right]. exists rest. rewrite Hp, <- app_assoc. reflexivity.
  - intros [|[rest Hp]]; [by left|right]. exists rest. rewrite Hp, <- app_assoc. reflexivity.
Qed.

Lemma host_mutable path : ensure_host_mutable_namespace_path path = Ok tt <-> host_owned path.
Proof.
  unfold ensure_host_mutable_namespace_path, host_owned, is_procfs_namespace_path, is_devfs_namespace_path, is_host_backed_devfs_path, synthetic_file_content.
  assert (bool_decide (is_Some (if bool_decide (path = lit "/etc/mtab") then Some MOUNTS_CONTENT else None)) = bool_decide (path = lit "/etc/mtab")) as ->
    by (destruct (bool_decide (path = _)); [by rewrite bool_decide_true|by rewrite bool_decide_false by (by intros [])]).
  rewrite <- !at_or_below_within. destruct (at_or_below (lit "/proc") path), (at_or_below (lit "/dev") path), (at_or_below (lit "/dev/shm") path), (bool_decide_reflect (path = lit "/etc/mtab"));
    cbn [orb andb negb]; naive_solver.
Qed.

(** Queries do not change what the host answers about paths. *)
Definition steady (s : Sys) : Prop :=
  forall new r, Forall query new -> host_stat (new ++ sy_calls s) r = host_stat (sy_calls s) r.

Lemma steady_asked s s' : asked s s' -> steady s -> steady s'.
Proof.
  intros [_ _ _ _ _ (n & En & Hn)] Hs new path Hq. rewrite En, app_assoc, !Hs; [done|done|by apply Forall_app].
Qed.

Lemma forget_lookup t t' i : forget_metadata t' = forget_metadata t -> set_fifo_metadata None <$> table_get t' i = set_fifo_metadata None <$> table_get t i.
Proof.
  intros E. apply (f_equal (fun t => pipes t !! i)) in E. unfold forget_metadata in E. cbn [pipes] in E. rewrite !list_lookup_fmap in E. unfold table_get.
  destruct (pipes t' !! i) as [[q'|]|], (pipes t !! i) as [[q|]|]; cbn in *; congruence.
Qed.

Lemma entry_asked s s' path : asked s s' -> steady s -> entry_of s' path = entry_of s path.
Proof.
  intros [A1 A2 A3 _ (t & A4 & A5) (n & En & Hn)] Hs. unfold entry_of, host_entry. rewrite A1, A2, A3, En, !Hs by done. destruct (match_procfs _ _); [done|].
  destruct (sy_fifos s !! path) as [i|]; [|done]. rewrite A4. cbn [with_pipe_table k_pipes]. pose proof (forget_lookup _ _ i A5) as El.
  destruct (table_get t i) as [q'|], (table_get (k_pipes (sy_kernel s)) i) as [q|]; cbn in El; try discriminate; [|done]. cbn [ok_or].
  assert (fifo_name_count q' = fifo_name_count q) as -> by (injection El; done). done.
Qed.

(** *** One query *)

Lemma asked_log s r : query r -> asked s (log_call s r).
Proof. intros Hq. split; try done; [eexists; split; [symmetry; apply with_same_pipes|done]|exists [r]; split; [done|by constructor]]. Qed.

Lemma forget_update t i st : forget_metadata (table_update t i (pure_op (update_fifo_metadata st))).1 = forget_metadata t.
Proof.
  unfold table_update. destruct (table_get t i) as [q|] eqn:Eq; [|done]. unfold pure_op, forget_metadata. cbn [pipes free_list with_pipes fst snd]. f_equal.
  unfold PipeTable.with_pipes. cbn [pipes]. rewrite list_fmap_insert. apply list_insert_id. unfold table_get in Eq. rewrite list_lookup_fmap. destruct (pipes t !! i) as [[q'|]|]; [|done..]. cbn. by injection Eq as ->.
Qed.

Lemma fifo_stat_entry s path :
  exists s', asked s s' /\ fifo_stat_call path false s =
    Some (match sy_fifos s !! path with Some _ => let? st := host_entry s path in Ok (Some st) | None => Ok None end, s').
Proof.
  unfold fifo_stat_call, host_entry, fifo_lookup. destruct (sy_fifos s !! path) as [i|] eqn:Ei; [|by exists s].
  unfold fifo_path_stat_raw, fifo_lookup, fifo_world. cbn [names fifo_pipes]. rewrite Ei. set (rq := RqLstat path).
  assert (asked s (log_call s rq)) as Hl by (by apply asked_log).
  assert (forall t, forget_metadata t = forget_metadata (k_pipes (sy_kernel s)) -> asked s (set_fifo_world (log_call s rq) (mkFifoWorld (sy_fifos s) t) [])) as Hw.
  { intros t Ht. destruct Hl as [A1 A2 A3 A4 _ A6]. split; [exact A1|exact A2|done|exact A4|by exists t|exact A6]. }
  destruct (host_stat (sy_calls s) rq) as [st|e]; [|eexists; split; [by apply Hw|done]].
  destruct (table_get (k_pipes (sy_kernel s)) i) as [q|]; [|eexists; split; [by apply Hw|done]].
  eexists; split; [|reflexivity]. apply Hw, forget_update.
Qed.

Lemma lstat_entry s path : exists s', namespace_lstat_raw path s = Some (entry_of s path, s') /\ asked s s'.
Proof.
  unfold namespace_lstat_raw, entry_of, bind, gets. destruct (match_procfs path (pr_pid (sy_proc s))) as [e|]; [now exists s|].
  destruct (is_procfs_namespace_path path); [now exists s|].
  assert (forall s, (let synthetic := match kernel_lstat (sy_proc s) path with Some st => Ok st | None => if is_devfs_namespace_path path && negb (is_host_backed_devfs_path path) then Err ENOENT else host_entry s path end in
            exists s', namespace_lstat_rest (sy_proc s) path s = Some (synthetic, s') /\ asked s s')) as Hrest.
  { clear s. intros s. unfold namespace_lstat_rest. destruct (kernel_lstat _ _); [now exists s|]. destruct (is_devfs_namespace_path path && _); [now exists s|].
    destruct (sy_fifos s !! path) as [i|] eqn:Ei.
    - unfold bind. destruct (fifo_stat_entry s path) as (s1 & Hs1 & ->). unfold host_entry in *. rewrite Ei.
      destruct (host_stat (sy_calls s) (RqLstat path)) as [st|e]; [destruct (ok_or _ _) as [q|e]|]; now exists s1.
    - unfold bind, fifo_stat_call, host_entry, fifo_lookup. rewrite Ei. eexists. split; [reflexivity|by apply asked_log]. }
  case_bool_decide as Ep; [|apply Hrest]. unfold attempt, call_host_stat. set (s1 := log_call s (RqLstat path)).
  assert (asked s s1) as H1 by (by apply asked_log). specialize (Hrest s1). cbv zeta in Hrest. destruct Hrest as (s' & Hr & Hs').
  assert (exists st, kernel_lstat (sy_proc s) path = Some st) as [st Ek] by (subst path; by eexists).
  change (sy_proc s1) with (sy_proc s) in Hr. rewrite Ek in *.
  destruct (host_stat (sy_calls s) (RqLstat path)) as [st'|e]; [destruct (is_type st' S_IFDIR)|destruct e]; first [now exists s1|exists s'; split; [exact Hr|by etrans]].
Qed.

End entries.

(** ** Canonical paths *)

(** A name of the namespace: proper, and not too long. *)
Definition name_ok (c : bytes) : Prop := proper_name c /\ Z.of_nat (length c) <= NAMESPACE_NAME_MAX.

Lemma render_snoc cs c : render (cs ++ [c]) = (match cs with [] => [] | _ => render cs end) ++ SLASH :: c.
Proof.
  destruct cs as [|a cs]; [cbn; by rewrite app_nil_r|]. unfold render. destruct ((a :: cs) ++ [c]) eqn:E; [by destruct cs|]. rewrite <- E.
  rewrite map_app, concat_app. cbn. by rewrite app_nil_r.
Qed.

Lemma render_long cs : Forall proper_name cs -> (1 <? length (render cs))%nat = negb (bool_decide (cs = [])).
Proof.
  destruct cs as [|c cs]; intros Hc; [done|]. apply Forall_cons in Hc as [(Hc & _) _]. rewrite bool_decide_false by done. cbn [negb]. apply Nat.ltb_lt.
  unfold render. cbn [map concat]. destruct c; [done|]. cbn. lia.
Qed.

Lemma append_render cs c : Forall proper_name cs -> append_path_component (render cs) c = render (cs ++ [c]).
Proof.
  intros Hc. unfold append_path_component. rewrite render_long, render_snoc by done. destruct cs as [|a cs]; [done|]. rewrite bool_decide_false by done. cbn [negb]. by rewrite <- app_assoc.
Qed.

Lemma position_app_none {A} (f : A -> bool) l k : Forall (fun x => f x = false) l -> position f (l ++ k) = (fun i => length l + i)%nat <$> position f k.
Proof.
  induction 1 as [|x l Hx Hl IH]; cbn; [by destruct (position f k)|]. rewrite Hx, IH. by destruct (position f k).
Qed.

(** The last slash of a path is before its last name. *)
Lemma rposition_snoc path c : SLASH ∉ c -> rposition (fun b => b =? SLASH) (path ++ SLASH :: c) = Some (length path).
Proof.
  intros Hc. unfold rposition. rewrite rev_app_distr. cbn [rev]. rewrite <- app_assoc. rewrite position_app_none.
  - cbn. rewrite length_app, length_rev. cbn [length]. f_equal. lia.
  - apply Forall_forall. intros b Hb. apply Z.eqb_neq. intros ->. apply Hc. by apply list_elem_of_In, in_rev, list_elem_of_In.
Qed.

Lemma pop_render cs : Forall proper_name cs -> pop_path_component (render cs) = render (removelast cs).
Proof.
  intros Hc. unfold pop_path_component. rewrite Nat.leb_antisym, render_long, negb_involutive by done. case_bool_decide as E; [by subst|].
  destruct cs as [|c cs _] using rev_ind; [done|]. rewrite removelast_last. apply Forall_app in Hc as [Hcs Hc]. apply Forall_singleton in Hc as (_ & _ & _ & Hc).
  rewrite render_snoc, rposition_snoc by done. destruct cs as [|a cs]; [done|]. rewrite Nat.max_l; [by rewrite take_app_length|].
  pose proof (render_long (a :: cs) Hcs) as Hl. rewrite bool_decide_false in Hl by done. apply Nat.ltb_lt in Hl. lia.
Qed.

Lemma parent_render cs : Forall proper_name cs -> parent_path (render cs) = render (removelast cs).
Proof.
  intros Hc. unfold parent_path. destruct cs as [|c cs _] using rev_ind; [done|]. rewrite removelast_last. pose proof (render_long (cs ++ [c]) Hc) as Hl.
  rewrite bool_decide_false in Hl by (by destruct cs). apply Nat.ltb_lt in Hl. rewrite bool_decide_false by (intros E; rewrite E in Hl; cbn in Hl; lia).
  apply Forall_app in Hc as [Hcs Hc]. apply Forall_singleton in Hc as (_ & _ & _ & Hc). rewrite render_snoc, rposition_snoc by done. destruct cs as [|a cs]; [done|].
  pose proof (render_long (a :: cs) Hcs) as Hl2. rewrite bool_decide_false in Hl2 by done. apply Nat.ltb_lt in Hl2.
  destruct (length (render (a :: cs))) eqn:En; [lia|]. rewrite <- En. by rewrite take_app_length.
Qed.

(** *** Components *)

(** What the walk may have before it: a name, or a dot. *)
Definition piece_ok (c : bytes) : Prop := c <> [] /\ SLASH ∉ c /\ Z.of_nat (length c) <= NAMESPACE_NAME_MAX.

Lemma components_ok path : too_long (components path) = false -> Forall piece_ok (components path).
Proof.
  intros Hl. apply Forall_forall. intros c Hc. assert (Z.of_nat (length c) <= NAMESPACE_NAME_MAX) as Hn.
  { apply Z.nlt_ge. intros Hlt. enough (too_long (components path) = true) by congruence. apply existsb_exists. exists c. split; [by apply list_elem_of_In|by apply Z.ltb_lt]. }
  apply elem_of_filter_bool in Hc as [Hc Hne]. apply negb_true_iff, bool_decide_eq_false in Hne. split; [done|]. split; [|done].
  pose proof (split_slash_pieces path) as Hp. rewrite Forall_forall in Hp. by apply Hp.
Qed.

Lemma piece_name c : piece_ok c -> c <> lit "." -> c <> lit ".." -> name_ok c.
Proof. intros (H1 & H2 & H3) Hd Hdd. split; [|done]. by split_and!. Qed.

Lemma names_proper cs : Forall name_ok cs -> Forall proper_name cs.
Proof. intros Hc. eapply Forall_impl; [exact Hc|]. by intros c [? _]. Qed.

Definition is_nonempty (c : bytes) : bool := negb (bool_decide (c = [])).

Lemma split_render cs : Forall proper_name cs -> List.filter is_nonempty (split_slash (concat (map (cons SLASH) cs))) = cs.
Proof.
  induction 1 as [|c l (H1 & _ & _ & H2) Hl IH]; [done|]. change (concat (map (cons SLASH) (c :: l))) with ([] ++ SLASH :: (c ++ concat (map (cons SLASH) l))).
  rewrite split_slash_app_slash. change (split_slash []) with [[] : bytes]. cbn [app List.filter]. change (is_nonempty []) with false. cbn iota.
  assert (is_nonempty c = true) as Hn by (unfold is_nonempty; by rewrite bool_decide_false).
  destruct l as [|c' l]; [cbn [map concat]; rewrite app_nil_r, split_slash_no_slash by done; cbn [List.filter]; by rewrite Hn|].
  change (concat (map (cons SLASH) (c' :: l))) with (SLASH :: (c' ++ concat (map (cons SLASH) l))). rewrite split_slash_app_slash, split_slash_no_slash by done.
  cbn [app List.filter]. rewrite Hn. f_equal. etrans; [|exact IH]. change (concat (map (cons SLASH) (c' :: l))) with ([] ++ SLASH :: (c' ++ concat (map (cons SLASH) l))).
  rewrite split_slash_app_slash. done.
Qed.

Lemma components_render cs : Forall proper_name cs -> components (render cs) = cs.
Proof. intros Hc. destruct cs as [|c cs]; [done|]. by apply split_render. Qed.

(** ** Resolution is sound *)

Section sound.
Context `{Usize} `{HostIO}.

(** A computation that only asks. *)
Definition asks {A} (m : M A) (s : Sys) (Q : kresult A -> Prop) : Prop := exists r s', m s = Some (r, s') /\ asked s s' /\ Q r.

Lemma asks_ret {A} (a : A) s (Q : kresult A -> Prop) : Q (Ok a) -> asks (ret a) s Q.
Proof. intros Hq. now exists (Ok a), s. Qed.
Lemma asks_lift {A} (r : kresult A) s (Q : kresult A -> Prop) : Q r -> asks (lift r) s Q.
Proof. intros Hq. now exists r, s. Qed.
Lemma asks_fail {A} e s (Q : kresult A -> Prop) : Q (Err e) -> asks (fail e) s Q.
Proof. apply asks_lift. Qed.

Lemma asks_bind {A B} (m : M A) (f : A -> M B) s (Q : kresult B -> Prop) :
  asks m s (fun r => match r with Ok a => forall s', asked s s' -> asks (f a) s' Q | Err e => Q (Err e) end) -> asks (bind m f) s Q.
Proof.
  intros (r & s1 & E & H1 & Hq). unfold asks, bind. rewrite E. destruct r as [a|e]; [|by exists (Err e), s1].
  destruct (Hq s1 H1) as (r & s2 & E2 & H2 & Hr). exists r, s2. split; [done|]. split; [by etrans|done].
Qed.

Lemma asks_impl {A} (m : M A) s (P Q : kresult A -> Prop) : (forall r, P r -> Q r) -> asks m s P -> asks m s Q.
Proof. intros Hi (r & s' & E & Ha & Hp). exists r, s'. auto. Qed.

Lemma asks_attempt {A} (m : M A) s (Q : kresult (kresult A) -> Prop) : asks m s (fun r => Q (Ok r)) -> asks (attempt m) s Q.
Proof. intros (r & s' & E & Ha & Hq). exists (Ok r), s'. unfold attempt. by rewrite E. Qed.

Lemma asks_run {A} (m : M A) s (Q : kresult A -> Prop) r s' : asks m s Q -> m s = Some (r, s') -> asked s s' /\ Q r.
Proof. intros (r' & s1 & E & Ha & Hq) Em. rewrite E in Em. by injection Em as -> ->. Qed.

(** Nothing is said about errors. *)
Definition when_ok {A} (P : A -> Prop) (r : kresult A) : Prop := match r with Ok a => P a | Err _ => True end.

Section view.
Variable s0 : Sys.
Hypothesis Hsteady : steady s0.

Lemma asks_lstat path s (Q : kresult WasmStat -> Prop) : asked s0 s -> Q (entry_of s0 path) -> asks (namespace_lstat_raw path) s Q.
Proof.
  intros Ha Hq. destruct (lstat_entry s path) as (s' & E & Hs'). rewrite (entry_asked _ _ _ Ha Hsteady) in E. by exists (entry_of s0 path), s'.
Qed.

(** A directory the caller may search. *)
Definition searchable (uid gid : Z) (path : bytes) : Prop :=
  exists st, entry_of s0 path = Ok st /\ is_type st S_IFDIR = true /\ may_search uid gid st.

Lemma asks_enter uid gid path st s (Q : kresult unit -> Prop) :
  entry_of s0 path = Ok st -> (searchable uid gid path -> Q (Ok tt)) -> (forall e, Q (Err e)) -> asks (enter uid gid st) s Q.
Proof.
  intros He Hok Herr. unfold enter. destruct (is_type st S_IFDIR) eqn:Et; [|by apply asks_fail]. apply asks_lift. unfold check_access_for_ids.
  destruct (has_access_for_ids uid gid st X_OK) eqn:Ea; [|done]. apply Hok. exists st. split_and!; [done..|]. by apply search_access.
Qed.

Lemma dir_not_link st : is_type st S_IFDIR = true -> is_type st S_IFLNK = false.
Proof. unfold is_type. intros ->%Z.eqb_eq. done. Qed.

Variables (o : PathResolveOptions) (uid gid : Z) (root_stat : WasmStat).
Let p := sy_proc s0.
Hypothesis Hpid : is_pid (pr_pid p).
Hypothesis Hroot : entry_of s0 [SLASH] = Ok root_stat.
Hypothesis Hroot_dir : searchable uid gid [SLASH].

(** All that is above a path is searchable. *)
Definition near (cs : list bytes) : Prop := Forall name_ok cs /\ forall k, (k < length cs)%nat -> searchable uid gid (render (take k cs)).

(** What the caller asked about links is kept: only a descriptor link is left. *)
Definition landed (path : bytes) : Prop :=
  follow_final_symlink o = true -> forall st, entry_of s0 path = Ok st -> is_type st S_IFLNK = true -> exists pid fd, match_procfs path (pr_pid p) = Some (FdLink pid fd).

Lemma searchable_landed path : searchable uid gid path -> landed path.
Proof. intros (st & E & Hd & _) _ st' E' Hl. rewrite E in E'. injection E' as <-. by rewrite (dir_not_link _ Hd) in Hl. Qed.

Record at_point (pending : list bytes) (resolved : bytes) (final_stat : WasmStat) : Prop := {
  ap_path : exists cs, resolved = render cs /\ near cs;
  ap_pending : Forall piece_ok pending;
  ap_here : pending <> [] -> searchable uid gid resolved;
  ap_landed : pending = [] -> landed resolved;
  ap_root : resolved = [SLASH] -> entry_of s0 [SLASH] = Ok final_stat;
}.

(** [rd]: a directory is required. *)
Definition walked (rd : bool) (w : Walked) : Prop :=
  match w with
  | Missing path =>
      (rd = true -> allow_missing_directory o = true) /\ exists cs, path = render cs /\ near cs /\ cs <> [] /\ allow_missing_final o = true /\ entry_of s0 path = Err ENOENT /\
        is_procfs_namespace_path path = false /\ (is_devfs_namespace_path path = true -> is_host_backed_devfs_path path = true)
  | Reached path final_stat rd' => at_point [] path final_stat /\ (rd = true -> rd' = true)
  end.

Lemma near_snoc cs c : near cs -> searchable uid gid (render cs) -> name_ok c -> near (cs ++ [c]).
Proof.
  intros [Hn Hk] Hs Hc. split; [apply Forall_app; split; [done|by apply Forall_singleton]|]. intros k Hlt. rewrite length_app in Hlt. cbn in Hlt.
  destruct (decide (k < length cs)%nat); [rewrite take_app_le by lia; by apply Hk|]. replace k with (length cs) by lia. by rewrite take_app_length.
Qed.

Lemma near_pop cs : near cs -> cs <> [] -> near (removelast cs) /\ searchable uid gid (render (removelast cs)).
Proof.
  intros [Hn Hk] Hne. destruct cs as [|c cs _] using rev_ind; [done|]. rewrite removelast_last. apply Forall_app in Hn as [Hn _].
  assert (forall k, (k <= length cs)%nat -> searchable uid gid (render (take k cs))) as Hall.
  { intros k Hle. specialize (Hk k). rewrite take_app_le in Hk by done. apply Hk. rewrite length_app. cbn. lia. }
  split; [split; [done|]; intros k Hlt; apply Hall; lia|]. specialize (Hall (length cs) (le_n _)). by rewrite take_ge in Hall.
Qed.

Lemma near_root : near [].
Proof. split; [done|]. cbn. lia. Qed.

Lemma point_entered pending cs st : near cs -> Forall piece_ok pending -> searchable uid gid (render cs) -> (render cs = [SLASH] -> entry_of s0 [SLASH] = Ok st) ->
  at_point pending (render cs) st.
Proof. intros Hn Hp Hs Hr. split; [by exists cs|done|done|intros _; by apply searchable_landed|done]. Qed.

(** A link that is to be followed. *)
Record at_link (candidate : bytes) (st : WasmStat) (pending : list bytes) (resolved : bytes) (final_stat : WasmStat) : Prop := {
  al_path : exists cs c, resolved = render cs /\ near cs /\ candidate = render (cs ++ [c]) /\ name_ok c;
  al_here : searchable uid gid resolved;
  al_pending : Forall piece_ok pending;
  al_root : resolved = [SLASH] -> entry_of s0 [SLASH] = Ok final_stat;
  al_entry : entry_of s0 candidate = Ok st;
}.

Lemma render_not_root cs c : Forall proper_name (cs ++ [c]) -> render (cs ++ [c]) <> [SLASH].
Proof. intros Hc E. pose proof (render_long _ Hc) as Hl. rewrite E, bool_decide_false in Hl by (by destruct cs). done. Qed.

Lemma walk_names_sound follow pending : forall resolved final_stat rd s,
  (forall candidate st pending resolved final_stat rd s, asked s0 s -> at_link candidate st pending resolved final_stat ->
     asks (follow candidate st pending resolved final_stat rd) s (when_ok (walked rd))) ->
  asked s0 s -> at_point pending resolved final_stat -> asks (walk_names o uid gid follow pending resolved final_stat rd) s (when_ok (walked rd)).
Proof.
  induction pending as [|c pending IH]; intros resolved fs rd s Hf Ha [(cs & -> & Hn) Hp Hh Hl Hr]; [apply asks_ret; split; [split; [by exists cs|done|done|done|exact Hr]|done]|].
  apply Forall_cons in Hp as [Hc Hp]. specialize (Hh ltac:(done)). pose proof (names_proper _ (proj1 Hn)) as Hpn. cbn [walk_names].
  case_bool_decide as Ed; [apply IH; [done|done|by apply point_entered]|].
  case_bool_decide as Edd.
  - rewrite pop_render by done. assert (near (removelast cs) /\ searchable uid gid (render (removelast cs))) as [Hn' Hs'].
    { destruct (decide (cs = [])) as [->|Hne]; [split; [apply near_root|done]|by apply near_pop]. }
    apply asks_bind. apply asks_lstat; [done|]. destruct (entry_of s0 (render (removelast cs))) as [st|e] eqn:Ee; [|done]. intros s1 H1. apply asks_bind.
    assert (forall s2, asked s1 s2 -> asks (walk_names o uid gid follow pending (render (removelast cs)) st rd) s2 (when_ok (walked rd))) as Hgo.
    { intros s2 H2. apply IH; [done|by etrans; [exact Ha|etrans]|]. apply point_entered; [done|done|done|]. intros E. by rewrite <- E. }
    case_bool_decide; [apply asks_ret; exact Hgo|]. eapply asks_enter; [exact Ee|intros _; exact Hgo|intros; exact I].
  - pose proof (piece_name c Hc Ed Edd) as Hname. rewrite append_render by done. set (path := render (cs ++ [c])).
    pose proof (near_snoc cs c Hn Hh Hname) as Hn'.
    apply asks_bind, asks_attempt, asks_lstat; [done|]. intros s1 H1. destruct (entry_of s0 path) as [st|e] eqn:Ee.
    + destruct (is_type st S_IFLNK && _) eqn:El; [apply Hf; [by etrans|]; by split; [exists cs, c|..]|]. apply asks_bind.
      assert (path <> [SLASH]) as Hnr by (apply render_not_root, names_proper, Hn').
      case_match eqn:Een.
      * eapply asks_enter; [exact Ee| |intros; exact I]. intros Hs s2 H2. apply IH; [done|by etrans; [exact Ha|etrans]|]. apply point_entered; [done..|]. intros E. done.
      * apply asks_ret. intros s2 H2. apply IH; [done|by etrans; [exact Ha|etrans]|]. apply orb_false_iff in Een as [Ef _]. apply negb_false_iff, bool_decide_eq_true in Ef. subst pending.
        split; [by exists (cs ++ [c])|done|done| |done]. intros _ Hfol st' E' Hlnk. rewrite Ee in E'. injection E' as <-. by rewrite Hlnk, Hfol, orb_true_r in El.
    + destruct (bool_decide (e = ENOENT) && _ && _) eqn:Em; [|by apply asks_fail]. apply andb_true_iff in Em as [[Ee1 Ef]%andb_true_iff Emiss]. apply bool_decide_eq_true in Ee1. subst e.
      destruct (is_procfs_namespace_path path || _) eqn:Ek; [by apply asks_fail|]. destruct (rd && _) eqn:Erd; [by apply asks_fail|]. apply asks_ret.
      apply orb_false_iff in Ek as [Ek1 Ek2]. split; [intros ->; by destruct (allow_missing_directory o)|]. exists (cs ++ [c]). split_and!; try done; [|by intros E; rewrite E in Ek2; apply negb_false_iff in Ek2].
      by destruct cs.
Qed.
Lemma dir_searchable e : entry_wf e -> is_dir e = true -> validate_entry (sy_procs s0) p e = Ok tt -> searchable uid gid (procfs_path e).
Proof.
  intros Hw Hd Hv. exists (procfs_stat e 0 false). split; [unfold entry_of; fold p; by rewrite match_path, Hv|].
  assert (is_symlink e = false) as Hns by (by destruct e).
  unfold procfs_stat. destruct (entry_ids e) as [a b]. rewrite Hns, Hd. cbn [andb]. split; [done|].
  right. unfold class_of. cbn [st_mode st_uid st_gid]. destruct (decide (uid = 0)); [done|]. by destruct (decide (gid = 0)).
Qed.

Lemma own_dir_near : near [lit "proc"; decimal (pr_pid p)] /\ searchable uid gid (lit "/proc/" ++ decimal (pr_pid p)).
Proof.
  assert (searchable uid gid (procfs_path Root)) as H1 by (apply dir_searchable; done).
  assert (searchable uid gid (procfs_path (PidDir (pr_pid p)))) as H2.
  { apply dir_searchable; [done|done|]. unfold validate_entry, validate_pid. cbn [entry_pid]. by rewrite Z.eqb_refl. }
  split; [|exact H2]. assert (0 <= pr_pid p <= u32_max) as Hr by (unfold is_pid in Hpid; lia).
  split.
  - repeat (apply Forall_cons; split); [| |done].
    + split; [|done]. split_and!; try done. intros Hin. apply list_elem_of_In in Hin. cbn in Hin. unfold Path.SLASH in Hin. lia.
    + destruct (decimal_spec _ Hr) as (_ & d & s & E & Hd & Hs). assert (Forall is_digit (decimal (pr_pid p))) as Hall by (rewrite E; by constructor). split.
      * split_and!; [by rewrite E| | |].
        1,2: intros E2; rewrite E2 in Hall; apply Forall_cons in Hall as [Hbad _]; unfold is_digit, Path.DOT in Hbad; lia.
        intros Hin. rewrite Forall_forall in Hall. specialize (Hall _ Hin). unfold is_digit, Path.SLASH in Hall. lia.
      * unfold decimal, NAMESPACE_NAME_MAX. rewrite (proj2 (Z.ltb_ge _ _)) by lia. pose proof (radix_length 32 10 (pr_pid p)). lia.
  - intros k Hk. cbn in Hk. destruct k as [|[|k]]; [exact Hroot_dir|exact H1|lia].
Qed.

Lemma asks_gets {A} (f : Sys -> A) s (Q : kresult A -> Prop) : Q (Ok (f s)) -> asks (gets f) s Q.
Proof. intros Hq. by exists (Ok (f s)), s. Qed.

Lemma asks_readlink path s (Q : kresult bytes -> Prop) : (forall r, Q r) -> asks (namespace_readlink_raw path) s Q.
Proof.
  intros Hq. unfold namespace_readlink_raw. apply asks_bind, asks_gets. intros s1 H1. apply asks_bind, asks_gets. intros s2 H2. apply asks_bind.
  assert (forall r : kresult bytes, match r with
    | Ok target => forall s', asked s2 s' -> asks (if NAMESPACE_PATH_MAX <=? Z.of_nat (length target) then fail ENAMETOOLONG else if bool_decide (target = []) then fail ENOENT else ret target) s' Q
    | Err e => Q (Err e) end) as Hrest.
  { intros [target|e]; [|by apply Hq]. intros s' _. destruct (_ <=? _); [by apply asks_fail|]. case_bool_decide; [by apply asks_fail|by apply asks_ret]. }
  destruct (match_procfs path (pr_pid (sy_proc s))); [apply asks_lift, Hrest|]. eexists _, _. split; [reflexivity|]. split; [by apply asked_log|apply Hrest].
Qed.

Lemma walked_weaken rd rd' r : (rd = true -> rd' = true) -> when_ok (walked rd') r -> when_ok (walked rd) r.
Proof. intros Hi. destruct r as [[path|path st rd2]|e]; [|intros [H1 H2]; split; auto|done]. intros [H1 H2]. split; auto. Qed.

Lemma follow_link_sound next candidate st pending resolved final_stat rd s :
  (forall pending resolved final_stat rd s, asked s0 s -> at_point pending resolved final_stat -> asks (next pending resolved final_stat rd) s (when_ok (walked rd))) ->
  asked s0 s -> at_link candidate st pending resolved final_stat -> asks (follow_link p root_stat next candidate st pending resolved final_stat rd) s (when_ok (walked rd)).
Proof.
  intros Hnext Ha [(cs & c & -> & Hn & -> & Hc) Hh Hp Hr He]. unfold follow_link. set (path := render (cs ++ [c])).
  pose proof (near_snoc cs c Hn Hh Hc) as Hn'. assert (path <> [SLASH]) as Hnr by (apply render_not_root, names_proper, Hn').
  assert (forall entry, match_procfs path (pr_pid p) = entry -> match entry with Some (FdLink _ _) => False | _ => True end ->
    asks (let! target := namespace_readlink_raw path in
          let! len := lift (ok_or (substituted_path_len target pending) ENAMETOOLONG) in
          if NAMESPACE_PATH_MAX <=? len then fail ENAMETOOLONG
          else
            let rd := rd || (bool_decide (pending = []) && (1 <? length target)%nat && ends_with_slash target) in
            let absolute := starts_with_slash target in
            if too_long (components target) then fail ENAMETOOLONG
            else next (components target ++ pending) (if absolute then [SLASH] else render cs) (if absolute then root_stat else final_stat) rd) s (when_ok (walked rd))) as Htext.
  { intros entry _ _. apply asks_bind, asks_readlink. intros [target|e]; [|exact I]. intros s1 H1. apply asks_bind, asks_lift. destruct (ok_or _ _) as [len|e]; [|exact I].
    intros s2 H2. destruct (_ <=? len); [by apply asks_fail|]. cbv zeta. destruct (too_long (components target)) eqn:El; [by apply asks_fail|].
    eapply (asks_impl _ _ (when_ok (walked (rd || _)))); [intros r; apply (walked_weaken rd); intros ->; reflexivity|]. apply Hnext; [by etrans; [exact Ha|etrans]|]. assert (Forall piece_ok (components target ++ pending)) as Hp' by (apply Forall_app; split; [by apply components_ok|done]).
    destruct (starts_with_slash target); [apply (point_entered _ [] _ near_root); done|by apply point_entered]. }
  destruct (match_procfs path (pr_pid p)) as [entry|] eqn:Em; [destruct entry; try exact (Htext _ eq_refl I)|exact (Htext _ eq_refl I)].
  - apply asks_bind, asks_lstat; [done|]. destruct own_dir_near as [Hd Hs]. destruct (entry_of s0 (lit "/proc/" ++ decimal (pr_pid p))) as [st'|e] eqn:Ee; [|exact I]. intros s1 H1.
    apply Hnext; [by etrans|]. assert (lit "/proc/" ++ decimal (pr_pid p) = render [lit "proc"; decimal (pr_pid p)]) as E by (unfold render; cbn [map concat]; by rewrite app_nil_r).
    rewrite E in *. apply point_entered; [done|done|done|]. intros E2. apply (f_equal (take 3)) in E2. done.
  - destruct (bool_decide (pending = [])) eqn:Ep; cbn [negb orb]; [|by apply asks_fail]. destruct rd; [by apply asks_fail|]. apply bool_decide_eq_true in Ep. subst pending.
    apply Hnext; [done|]. split; [by exists (cs ++ [c])|done|done| |done]. intros _ _ st' _ _. eauto.
Qed.

Lemma walk_sound budget : forall pending resolved final_stat rd s,
  asked s0 s -> at_point pending resolved final_stat -> asks (walk p o uid gid root_stat budget pending resolved final_stat rd) s (when_ok (walked rd)).
Proof.
  induction budget as [|budget IH]; intros pending resolved fs rd s Ha Hp; cbn [walk].
  - apply walk_names_sound; [|done|done]. intros. by apply asks_fail.
  - apply walk_names_sound; [|done|done]. intros. by apply follow_link_sound.
Qed.

End view.

Definition search_ids (o : PathResolveOptions) (p : Process) : Z * Z := if use_real_ids o then (pr_uid p, pr_gid p) else (pr_euid p, pr_egid p).

(** A path that a resolution gives. *)
Record resolved_ok (s : Sys) (o : PathResolveOptions) (path : bytes) (r : ResolvedNamespacePath) : Prop := {
  ro_path : exists cs, rn_path r = render cs /\ near s (search_ids o (sy_proc s)).1 (search_ids o (sy_proc s)).2 cs;
  ro_entry : match rn_stat r with
    | Some st =>
        entry_of s (rn_path r) = Ok st /\ (ends_with_slash path = true -> is_type st S_IFDIR = true) /\
        (follow_final_symlink o = true -> is_type st S_IFLNK = true -> exists pid fd, match_procfs (rn_path r) (pr_pid (sy_proc s)) = Some (FdLink pid fd))
    | None =>
        allow_missing_final o = true /\ (ends_with_slash path = true -> allow_missing_directory o = true) /\ entry_of s (rn_path r) = Err ENOENT /\
        host_owned (rn_path r)
    end;
}.

Lemma ends_absolute path base : path <> [] -> ends_with_slash path = true -> ends_with_slash (make_absolute path base) = true.
Proof.
  intros Hne He. unfold make_absolute. destruct path as [|b path]; [done|]. destruct (b =? Path.SLASH); [done|]. revert He. unfold ends_with_slash. rewrite !bool_decide_eq_true, last_app. by intros ->.
Qed.

Lemma missing_not_synthetic s path : entry_of s path = Err ENOENT -> synthetic_file_content path = None.
Proof.
  unfold synthetic_file_content. case_bool_decide as E; [|done]. subst path. unfold entry_of. change (match_procfs (lit "/etc/mtab") (pr_pid (sy_proc s))) with (@None ProcfsEntry).
  change (is_procfs_namespace_path (lit "/etc/mtab")) with false. cbn iota. rewrite bool_decide_false by done. done.
Qed.

Lemma resolve_asks path base o s :
  steady s -> is_pid (pr_pid (sy_proc s)) -> asks (resolve_namespace_path_from path base o) s (when_ok (resolved_ok s o path)).
Proof.
  intros Hs Hpid. unfold resolve_namespace_path_from. apply asks_bind, asks_gets. intros s00 H00. case_bool_decide as Ep; [by apply asks_fail|].
  destruct (_ <=? _); [by apply asks_fail|]. cbv zeta. set (abs := make_absolute path base). destruct (negb _); [by apply asks_fail|].
  destruct (too_long (components abs)) eqn:El; [by apply asks_fail|]. apply asks_bind, (asks_lstat s Hs); [done|]. destruct (entry_of s [SLASH]) as [root|e] eqn:Er; [|exact I].
  intros s1 H1. assert (asked s s1) as Hs1 by (by etrans). destruct (search_ids o (sy_proc s)) as [uid gid] eqn:Ei. fold (search_ids o (sy_proc s)). rewrite Ei.
  apply asks_bind. eapply (asks_enter s uid gid); [exact Er| |intros; exact I]. intros Hdir s2 H2. assert (asked s s2) as Hs2 by (by etrans).
  set (rd := _ || _). assert (ends_with_slash path = true -> abs <> [SLASH] -> rd = true) as Hrd.
  { intros Hsl Hn. pose proof (ends_absolute path base Ep Hsl) as He. fold abs in He. unfold rd. rewrite He, andb_true_r. apply orb_true_iff. left. apply Nat.ltb_lt.
    destruct abs as [|a [|b abs']]; [done| |cbn; lia]. unfold ends_with_slash in He. apply bool_decide_eq_true in He. cbn in He. by injection He as ->. }
  assert (at_point s o uid gid (components abs) [SLASH] root) as Hpt by (apply (point_entered s o uid gid _ []); [apply near_root|by apply components_ok|exact Hdir|done]).
  apply asks_bind. apply (asks_impl _ _ (when_ok (fun w => walked s o uid gid rd w /\ (abs = [SLASH] -> exists fs rd', w = Reached [SLASH] fs rd')))).
  2:{ destruct (decide (abs = [SLASH])) as [->|Hne].
      - apply asks_ret. split; [|by eauto]. split; [by destruct Hpt|done].
      - eapply asks_impl; [|by apply (walk_sound s Hs o uid gid root Hpid Er Hdir)]. intros [w|e]; [by split|done]. }
  intros [[cand|res fs rd']|e]; [| |intros; exact I]; cbn [when_ok walked].
  - intros [(Hmd & cs & -> & Hn & Hne & Hm & He & Hk1 & Hk2) Hno] s3 H3. apply asks_ret. split; [exists cs; cbn; by rewrite Ei|]. cbn [rn_stat rn_path]. split_and!; [done| |done|].
    + intros Hsl. apply Hmd, Hrd; [done|]. intros Ea. by destruct (Hno Ea) as (? & ? & ?).
    + apply host_mutable. unfold ensure_host_mutable_namespace_path. rewrite Hk1. cbn [orb]. assert (synthetic_file_content (render cs) = None) as -> by (by eapply missing_not_synthetic).
      destruct (is_devfs_namespace_path (render cs)); [by rewrite Hk2|done].
  - intros [[[(cs & -> & Hn) _ _ Hl Hroot] Hrd'] Hno] s3 H3. assert (asked s s3) as Hs3 by (by etrans). specialize (Hl eq_refl). apply asks_bind.
    assert (asks (if bool_decide (render cs = [SLASH]) then ret fs else namespace_lstat_raw (render cs)) s3 (fun r => r = entry_of s (render cs))) as Hst.
    { case_bool_decide as E; [apply asks_ret; symmetry; rewrite E; by apply Hroot|by apply (asks_lstat s Hs)]. }
    eapply asks_impl; [|exact Hst]. intros [st|e] Est; [|exact I]. intros s4 H4. destruct (rd' && _) eqn:Ed; [by apply asks_fail|]. apply asks_ret.
    split; [exists cs; cbn; by rewrite Ei|]. cbn [rn_stat rn_path]. split_and!; [done| |].
    + intros Hsl. destruct (decide (abs = [SLASH])) as [Ea|Ea].
      * destruct (Hno Ea) as (? & ? & [= E _ _]). rewrite E in Est. destruct Hdir as (st' & E1 & E2 & _). congruence.
      * rewrite (Hrd' (Hrd Hsl Ea)) in Ed. by apply negb_false_iff in Ed.
    + intros Hf Hlnk. by apply (Hl Hf st).
Qed.
(** *** Without links *)

Section lexical.
Variable s0 : Sys.
Hypothesis Hsteady : steady s0.
Variables (o : PathResolveOptions) (uid gid : Z).

Lemma enter_searchable path st s : entry_of s0 path = Ok st -> searchable s0 uid gid path -> enter uid gid st s = Some (Ok tt, s).
Proof. intros He (st' & E & Hd & Ha). rewrite He in E. injection E as <-. unfold enter. rewrite Hd. cbn. unfold lift, check_access_for_ids. by rewrite (proj2 (search_access uid gid st Hd) Ha). Qed.

Lemma asks_run_ok {A} (m : M A) s a (Q : kresult A -> Prop) : m s = Some (Ok a, s) -> Q (Ok a) -> asks m s Q.
Proof. intros E Hq. by exists (Ok a), s. Qed.

Lemma normalize_piece cs c : c <> [] -> normalize_step cs c = if bool_decide (c = lit ".") then cs else if bool_decide (c = lit "..") then removelast cs else vec_push cs c.
Proof. intros Hc. unfold normalize_step. by rewrite (bool_decide_false (c = [])). Qed.

Lemma walk_lexical follow pending : forall cs fs rd s,
  let final := foldl normalize_step cs pending in
  asked s0 s -> Forall name_ok cs -> Forall piece_ok pending -> (render cs = [SLASH] -> entry_of s0 [SLASH] = Ok fs) ->
  (forall k, (k < length pending)%nat -> searchable s0 uid gid (render (foldl normalize_step cs (take k pending)))) ->
  (exists st, entry_of s0 (render final) = Ok st /\ is_type st S_IFLNK = false) -> (rd = true -> searchable s0 uid gid (render final)) ->
  asks (walk_names o uid gid follow pending (render cs) fs rd) s (fun r => exists fs', r = Ok (Reached (render final) fs' rd) /\ (render final = [SLASH] -> entry_of s0 [SLASH] = Ok fs')).
Proof.
  induction pending as [|c pending IH]; intros cs fs rd s final Ha Hcs Hp Hr Hk Hfinal Hrd; [apply asks_ret; by exists fs|].
  apply Forall_cons in Hp as [Hc Hp]. pose proof (names_proper _ Hcs) as Hpn. cbn [walk_names].
  assert (forall k, (k < length pending)%nat -> searchable s0 uid gid (render (foldl normalize_step (normalize_step cs c) (take k pending)))) as Hk' by (intros k Hlt; apply (Hk (S k)); cbn; lia).
  pose proof Hc as (Hne & _ & _). assert (foldl normalize_step (normalize_step cs c) pending = final) as Ef by done.
  assert (forall k, (k <= length pending)%nat -> exists st, entry_of s0 (render (foldl normalize_step (normalize_step cs c) (take k pending))) = Ok st /\ is_type st S_IFLNK = false /\
            ((k < length pending)%nat -> searchable s0 uid gid (render (foldl normalize_step (normalize_step cs c) (take k pending))))) as Hstep.
  { intros k Hle. destruct (decide (k < length pending)%nat) as [Hlt|]; [|rewrite take_ge, Ef by lia; destruct Hfinal as (st & E & Hl); exists st; split_and!; [done|done|lia]].
    destruct (Hk' k Hlt) as (st & E & Hd & Hx). exists st. split_and!; [done|by apply dir_not_link|]. intros _. by exists st. }
  destruct (Hstep 0%nat ltac:(lia)) as (st & Est & Hlnk & Hsearch). rewrite take_0 in Est, Hsearch. cbn [foldl] in Est, Hsearch. clear Hstep.
  rewrite (normalize_piece cs c Hne) in Est, Hsearch, Hk', Ef.
  assert (pending = [] \/ searchable s0 uid gid (render (if bool_decide (c = lit ".") then cs else if bool_decide (c = lit "..") then removelast cs else vec_push cs c))) as Hor.
  { destruct pending; [by left|right]. apply Hsearch. cbn. lia. }
  case_bool_decide as Ed; [rewrite <- Ef; apply IH; try done; by rewrite Ef|].
  case_bool_decide as Edd.
  - rewrite pop_render by done. apply asks_bind, (asks_lstat s0 Hsteady); [done|]. rewrite Est. intros s1 H1. apply asks_bind.
    apply (asks_run_ok _ _ tt); [case_bool_decide as Ee; [done|]; destruct Hor; [done|]; by eapply enter_searchable|]. intros s2 H2. rewrite <- Ef.
    apply IH; try (by rewrite Ef); [by etrans; [exact Ha|etrans]| |done|by intros <-|done]. rewrite List.removelast_firstn_len. by apply Forall_take.
  - pose proof (piece_name c Hc Ed Edd) as Hname. unfold vec_push in *. rewrite append_render by done. set (path := render (cs ++ [c])) in *.
    apply asks_bind, asks_attempt, (asks_lstat s0 Hsteady); [done|]. intros s1 H1. rewrite Est, Hlnk. cbn [andb]. apply asks_bind.
    apply (asks_run_ok _ _ tt).
    { destruct (negb _ || rd) eqn:Een; [|done]. eapply enter_searchable; [exact Est|]. destruct Hor as [->|]; [|done]. cbn in Een. subst path. cbn in Ef. rewrite Ef. by apply Hrd. }
    intros s2 H2. rewrite <- Ef. assert (Forall name_ok (cs ++ [c])) as Hcs' by (apply Forall_app; split; [done|by apply Forall_singleton]).
    apply IH; try (by rewrite Ef); [by etrans; [exact Ha|etrans]|done|done| |done]. intros E. destruct (render_not_root cs c); [by apply names_proper|done].
Qed.

End lexical.
(** The directories a path goes through, lexically. *)
Definition lexical_prefix (pieces : list bytes) (k : nat) : bytes := render (foldl normalize_step [] (take k pieces)).

(** A path that must be a directory: it ends in a slash or a dot. *)
Definition names_directory (abs : bytes) : bool :=
  ((1 <? length abs)%nat && ends_with_slash abs) || (bool_decide (last (components abs) = Some (lit ".")) || bool_decide (last (components abs) = Some (lit ".."))).

Lemma resolve_path_components path base : path <> [] -> resolve_path path base = render (foldl normalize_step [] (components (make_absolute path base))).
Proof.
  intros Hne. assert (resolve_path path base = normalize_path (make_absolute path base)) as ->.
  { unfold resolve_path, make_absolute, starts_with_slash. destruct path as [|b path]; [done|]. cbn [head]. destruct (Z.eqb_spec b Path.SLASH) as [->|Hb]; [by rewrite bool_decide_true|].
    rewrite bool_decide_false by congruence. done. }
  rewrite normalize_path_render. f_equal. unfold normalize_components, components. generalize ([] : list bytes). induction (split_slash (make_absolute path base)) as [|c l IH]; intros cs; [done|].
  cbn [foldl List.filter]. case_bool_decide as Ec; cbn [negb foldl]; [subst; apply IH|apply IH].
Qed.

(** C13: Without links on the way, a pathname means what it says.
    For any path within the limits, relative to any base: when the directories it
    goes through, taken lexically, can be searched by the caller, the final entry
    exists, is no link, and is a searchable directory if the spelling asks for one,
    then the resolution succeeds with exactly the lexically normalized path and the
    metadata of that entry, having only asked the host. *)
Theorem resolve_lexical path base o s st :
  let abs := make_absolute path base in let pieces := components abs in let target := resolve_path path base in
  let '(uid, gid) := search_ids o (sy_proc s) in
  steady s -> path <> [] -> Z.of_nat (length path) < NAMESPACE_PATH_MAX -> starts_with_slash abs = true -> too_long pieces = false ->
  searchable s uid gid [Path.SLASH] -> (forall k, (k < length pieces)%nat -> searchable s uid gid (lexical_prefix pieces k)) ->
  entry_of s target = Ok st -> is_type st S_IFLNK = false -> (names_directory abs = true -> searchable s uid gid target) ->
  exists s', resolve_namespace_path_from path base o s = Some (Ok (mkResolved target (Some st)), s') /\ asked s s'.
Proof.
  cbv zeta. destruct (search_ids o (sy_proc s)) as [uid gid] eqn:Ei. set (abs := make_absolute path base). intros Hs Hne Hlen Habs Hlong Hroot Hk He Hlnk Hrd.
  rewrite (resolve_path_components path base Hne) in He, Hrd |- *. fold abs in He, Hrd |- *. set (final := foldl normalize_step [] (components abs)) in *.
  enough (asks (resolve_namespace_path_from path base o) s (fun r => r = Ok (mkResolved (render final) (Some st)))) as (r & s' & E & Ha & ->) by by exists s'.
  unfold resolve_namespace_path_from. apply asks_bind, asks_gets. intros s1 H1. rewrite bool_decide_false by done. rewrite (proj2 (Z.leb_gt _ _)) by done. cbv zeta. fold abs.
  rewrite Habs, Hlong. cbn [negb]. pose proof Hroot as (rst & Er & Hrd1 & Hra). apply asks_bind, (asks_lstat s Hs); [done|]. change [SLASH] with [Path.SLASH]. rewrite Er. intros s2 H2.
  fold (search_ids o (sy_proc s)). rewrite Ei. apply asks_bind. eapply asks_run_ok; [eapply (enter_searchable s); [exact Er|done]|]. intros s3 H3.
  fold (names_directory abs). assert (asked s s3) as Ha3 by (by do 2 (etrans; [eassumption|])).
  apply asks_bind. unfold walk, MAX_SYMLINKS. eapply asks_impl; [|apply (walk_lexical s Hs o uid gid _ _ [] rst (names_directory abs) s3); [exact Ha3|done|by apply components_ok|done|exact Hk|by exists st|exact Hrd]].
  intros r (fs & -> & Hfs) s4 H4. fold final in Hfs |- *. apply asks_bind.
  assert (asks (if bool_decide (render final = [SLASH]) then ret fs else namespace_lstat_raw (render final)) s4 (fun r => r = Ok st)) as Hst.
  { case_bool_decide as E; [apply asks_ret; rewrite <- He, E; symmetry; by apply Hfs|]. apply (asks_lstat s Hs); [by etrans|done]. }
  eapply asks_impl; [|exact Hst]. intros r ->. intros s5 H5. destruct (names_directory abs); cbn [andb]; [|by apply asks_ret].
  destruct (Hrd eq_refl) as (st' & E & Hd & _). rewrite He in E. injection E as <-. rewrite Hd. by apply asks_ret.
Qed.

(** C12: A resolution goes through directories the caller may search, only.
    For a caller whose process number is in range, and a host that does not change
    what it answers about paths while it is only queried ([steady]); whatever links
    the path follows, across whatever mounts: when the resolution succeeds, the
    path is canonical with names within the limit, every directory above it exists
    and can be searched with the identifiers the options select, and nothing has
    changed but recorded FIFO metadata.  Who may search is read off the mode: root,
    and otherwise the execute bit of the owner if the caller is the owner, else of
    the group if it has the group, else of the others.  With metadata, the entry is
    there, is a directory if the path ends in a slash, and is no link if links were
    to be followed, but for a descriptor link of procfs; without metadata, nothing
    is there, a missing entry was allowed, and the place is the host's: not in
    procfs, not in devfs but below its shared memory, not the kernel's own file. *)
Theorem resolve_sound path base o s r s' :
  steady s -> is_pid (pr_pid (sy_proc s)) -> resolve_namespace_path_from path base o s = Some (Ok r, s') ->
  asked s s' /\ canonical (rn_path r) /\ resolved_ok s o path r.
Proof.
  intros Hs Hp E. destruct (asks_run _ _ _ _ _ (resolve_asks path base o s Hs Hp) E) as [Ha Hr]. split; [done|]. split; [|exact Hr].
  destruct Hr as [(cs & E1 & Hn) _]. exists cs. split; [apply names_proper, Hn|done].
Qed.

End sound.

(** ** A small tree *)

Definition mode_stat (mode uid gid : Z) : WasmStat := mkStat 1 7 mode 1 uid gid 0 0 0 0 0 0 0 0.

(** [/home/u] belongs to user 1000 and is closed to others; [/l] leads to it. *)
Definition tree_lstat (path : bytes) : kresult WasmStat :=
  if bool_decide (path = lit "/") then Ok (mode_stat 16877 0 0)
  else if bool_decide (path = lit "/home") then Ok (mode_stat 16877 0 0)
  else if bool_decide (path = lit "/home/u") then Ok (mode_stat 16832 1000 1000)
  else if bool_decide (path = lit "/home/u/f") then Ok (mode_stat 33188 1000 1000)
  else if bool_decide (path = lit "/l") then Ok (mode_stat 41471 0 0)
  else Err ENOENT.

#[local] Instance tree_host : HostIO := {
  host_unit _ _ := Ok tt;
  host_stat _ r := match r with RqLstat path | RqStat path => tree_lstat path | _ => Err EIO end;
  host_int _ _ := Err EIO;
  host_bytes _ r := match r with RqReadlink path _ => if bool_decide (path = lit "/l") then Ok (lit "home/u") else Err EINVAL | _ => Err EIO end;
  host_time _ _ := Err EIO;
}.

Lemma tree_steady s : steady s.
Proof. by intros new r _. Qed.

(** A user other than root. *)
Definition tree_user : Process := with_credentials life_leader 1000 1000 1000 1000.
Definition tree_sys (p : Process) : Sys := mkSys p life_kernel Lock.new devices_new None [] ∅ ∅.

Lemma user_pid : is_pid (pr_pid (sy_proc (tree_sys tree_user))).
Proof. vm_compute. done. Qed.

Lemma user_searches path st : entry_of (tree_sys tree_user) path = Ok st -> is_type st S_IFDIR && has_access_for_ids 1000 1000 st X_OK = true ->
  searchable (tree_sys tree_user) 1000 1000 path.
Proof. intros E [Hd Ha]%andb_true_iff. exists st. split_and!; [done..|]. by apply search_access. Qed.

(** Through the link, the file of the user. *)
Lemma resolve_sound_witness :
  exists r s', resolve_namespace_path (lit "l//./f") FOLLOW (tree_sys tree_user) = Some (Ok r, s') /\
    rn_path r = lit "/home/u/f" /\ canonical (rn_path r) /\ searchable (tree_sys tree_user) 1000 1000 (lit "/home/u").
Proof.
  assert (match resolve_namespace_path (lit "l//./f") FOLLOW (tree_sys tree_user) with Some (Ok r, _) => rn_path r = lit "/home/u/f" | _ => False end) as He by (vm_compute; reflexivity).
  destruct (resolve_namespace_path (lit "l//./f") FOLLOW (tree_sys tree_user)) as [[[r|e] s']|] eqn:E; [|destruct He|destruct He].
  exists r, s'. split; [exact eq_refl|]. split; [exact He|].
  destruct (resolve_sound (lit "l//./f") (pr_cwd tree_user) FOLLOW (tree_sys tree_user) r s' (tree_steady _) user_pid E) as (_ & Hc & _). split; [exact Hc|].
  apply (user_searches (lit "/home/u") (mode_stat 16832 1000 1000)); vm_compute; reflexivity.
Defined.

Lemma resolve_lexical_witness :
  exists s', resolve_namespace_path_from (lit "../home/./u//f") (lit "/home") NOFOLLOW (tree_sys tree_user) =
    Some (Ok (mkResolved (lit "/home/u/f") (Some (mode_stat 33188 1000 1000))), s').
Proof.
  assert (forall path, path ∈ [lit "/"; lit "/home"; lit "/home/u"] -> searchable (tree_sys tree_user) 1000 1000 path) as Hs.
  { intros path Hp. repeat (apply elem_of_cons in Hp as [->|Hp]); [eapply user_searches; vm_compute; reflexivity..|by apply not_elem_of_nil in Hp]. }
  destruct (resolve_lexical (lit "../home/./u//f") (lit "/home") NOFOLLOW (tree_sys tree_user) (mode_stat 33188 1000 1000)) as (s' & E & _).
  - exact (tree_steady _).
  - discriminate.
  - vm_compute. reflexivity.
  - vm_compute. reflexivity.
  - vm_compute. reflexivity.
  - apply Hs. left.
  - intros k Hk. do 6 (destruct k as [|k]; [apply Hs; vm_compute; set_solver|]). exfalso. vm_compute in Hk. lia.
  - vm_compute. reflexivity.
  - vm_compute. reflexivity.
  - intros Hn. vm_compute in Hn. discriminate Hn.
  - exists s'. exact E.
Defined.
