(* ===== verification/Paths.v ===== *)
(** * Calls on pathnames ([crates/kernel/src/syscalls.rs])

    The calls that create, remove, rename, link and describe entries of the
    namespace, with their variants relative to a directory descriptor.  Each
    resolves its paths, checks the caller's permission, and asks the host; names of
    FIFOs and of Unix sockets follow the host's entries. *)

From Stdlib Require Import String.
From S2P Require Import Prelude Bytes Abi Path FdTable Lock Ofd Wakeup Pipe PipeTable Memory Terminal Signal Backing Socket Names Mqueue Process Dri Devices Kernel Accounts ProcTable Lifecycle Sys Descriptors Releases Syscalls Procfs Devfs Resolve.

Definition S_IFSOCK : Z := 49152.             (* 0o140000 *)
Definition AT_SYMLINK_NOFOLLOW : Z := 256.
Definition AT_REMOVEDIR : Z := 512.
Definition AT_EACCESS : Z := 512.
Definition AT_SYMLINK_FOLLOW : Z := 1024.
Definition AT_EMPTY_PATH : Z := 4096.
Definition AT_NO_AUTOMOUNT : Z := 2048.
Definition FSTATAT_VALID_FLAGS : Z := Z.lor (Z.lor AT_SYMLINK_NOFOLLOW AT_NO_AUTOMOUNT) AT_EMPTY_PATH.

(** [flags & bit != 0] and [flags & !mask != 0]. *)
Definition has_flag (flags bit : Z) : bool := negb (Z.land flags bit =? 0).
Definition beyond (flags mask : Z) : bool := negb (Z.ldiff flags mask =? 0).

Definition prepare_chown_ids (p : Process) (st : WasmStat) (uid gid : Z) : kresult (Z * Z) :=
  let unchanged := u32_max in
  let both_unchanged := (uid =? unchanged) && (gid =? unchanged) in
  if negb (pr_euid p =? 0) && negb (both_unchanged && (pr_euid p =? st_uid st)) then Err EPERM
  else Ok (if uid =? unchanged then st_uid st else uid, if gid =? unchanged then st_gid st else gid).

Definition with_mode (st : WasmStat) (mode : Z) : WasmStat :=
  mkStat (st_dev st) (st_ino st) mode (st_nlink st) (st_uid st) (st_gid st) (st_size st) (st_atime_sec st)
    (st_atime_nsec st) (st_mtime_sec st) (st_mtime_nsec st) (st_ctime_sec st) (st_ctime_nsec st) (st_pad st).

(** Metadata that no inode has. *)
Definition plain_stat (dev ino mode nlink uid gid size : Z) : WasmStat := mkStat dev ino mode nlink uid gid size 0 0 0 0 0 0 0.

Section calls.
Context `{Usize} `{HostIO}.

(** A change of the FIFO names with the pipe table, and of the socket names. *)
Definition fifo_change {A} (f : FifoWorld -> kresult A * (FifoWorld * list effect)) : M A := fun s =>
  let '(r, (w, es)) := f (fifo_world s) in Some (r, set_fifo_world s w es).
Definition registry_change {A} (f : UnixSocketRegistry -> A * UnixSocketRegistry) : M A :=
  kernel_result (fun k => let '(a, u) := f (k_unix k) in (Ok a, with_tables k (k_inet k) u (k_mqueues k) (k_pshared k))).
Definition wake_datagrams : M unit :=
  on_kernel (fun k => with_world k (mkWorld (push_datagram_writable (w_wakeups (k_world k))) (w_in_flight (k_world k)) (w_deferred (k_world k)))).

Definition CLOCK_REALTIME : Z := 0.
Definition clock_call : M (Z * Z) :=
  let! t := call_host_time (RqClock CLOCK_REALTIME) in lift (realtime_timestamp (Ok t)).

(** ** Metadata *)

(** [None]: no socket has the name. *)
Definition unix_socket_path_stat (path : bytes) (follow : bool) : M (option WasmStat) :=
  let! k := gets sy_kernel in
  if negb (unix_contains (k_unix k) path) then ret None
  else
    check_search_path path >;
    let! st := call_host_stat (if follow then RqStat path else RqLstat path) in
    ret (Some (with_mode st (Z.lor S_IFSOCK (Z.land (st_mode st) 4095)))).

Definition fifo_path_stat (path : bytes) (follow : bool) : M (option WasmStat) :=
  let! names := gets sy_fifos in
  match fifo_lookup names path with
  | None => ret None
  | Some _ => check_search_path path >; fifo_stat_call path follow
  end.

(** The metadata of a FIFO: of a live name, else what was recorded. *)
Definition fifo_fd_stat (pipe_idx : nat) : M WasmStat :=
  let recorded := let! k := gets sy_kernel in lift (ok_or (table_get (k_pipes k) pipe_idx ≫= p_fifo_metadata) EIO) in
  let! names := gets sy_fifos in
  match path_for_pipe names pipe_idx with
  | None => recorded
  | Some live_path =>
      let! r := attempt (fifo_stat_call live_path true) in
      match r with Ok (Some st) => ret st | _ => recorded end
  end.

Definition is_plain_pipe (ft : FileType) : bool := bool_decide (ft ∈ [Ofd.Pipe; Socket; EventFd; Epoll; TimerFd; SignalFd]).

Definition stat_of_ofd (p : Process) (d : OpenFileDesc) : M WasmStat :=
  let! k := gets sy_kernel in
  let h := host_handle d in
  let pipe_idx := neg_index h in
  if bool_decide (file_type d = Ofd.Pipe) && (h <? 0) && match table_get (k_pipes k) pipe_idx with Some q => p_is_fifo q | None => false end
  then fifo_fd_stat pipe_idx
  else if is_plain_pipe (file_type d) then
    ret (plain_stat 0 0 (if bool_decide (file_type d = Socket) then Z.lor S_IFSOCK 493 else Z.lor S_IFIFO 384) 0 0 0 0)
  else if bool_decide (file_type d = CharDevice) then
    match from_host_handle h with
    | Some dev => ret (virtual_device_stat dev (pr_euid p) (pr_egid p))
    | None =>
        if (0 <=? h) && (h <=? 2) then ret (plain_stat 0 (1414814976 + h) (Z.lor S_IFCHR 400) 1 (pr_euid p) (pr_egid p) 0)
        else call_host_stat (RqFstat h)
    end
  else if bool_decide (file_type d = PtyMaster) || bool_decide (file_type d = PtySlave) then
    ret (plain_stat 5 (1347705088 + cursor h) (Z.lor S_IFCHR 400) 1 (pr_euid p) (pr_egid p) 0)
  else if bool_decide (file_type d = MemFd) then
    let! b := lift (ok_or (sb_get (MEMFDS (k_backings k)) pipe_idx) EBADF) in
    ret (plain_stat 0 (1296387328 + Z.of_nat pipe_idx) (Z.lor S_IFREG 384) 1 (pr_euid p) (pr_egid p) (Z.of_nat (length (mem_data b))))
  else if is_synthetic_regular_handle h then lift (ok_or (synthetic_file_stat (Ofd.path d) (pr_euid p) (pr_egid p)) EBADF)
  else if bool_decide (file_type d = Regular) && is_procfs_buf_handle h then
    let! b := lift (ok_or (sb_get (PROCFS_BUFS (k_backings k)) (procfs_buf_idx h)) EBADF) in
    ret (procfs_stat (default (Stat (pr_pid p)) (match_procfs (Ofd.path d) (pr_pid p))) (Z.of_nat (length (prc_data b))) true)
  else if h =? PROCFS_DIR_HANDLE then ret (procfs_stat (default Root (match_procfs (Ofd.path d) (pr_pid p))) 0 true)
  else if h =? DEVFS_DIR_HANDLE then
    ret (default (plain_stat 6 14549248 (Z.lor S_IFDIR 493) 2 (pr_euid p) (pr_egid p) 0) (match_devfs_stat (Ofd.path d) (pr_euid p) (pr_egid p)))
  else call_host_stat (RqFstat h).

(** [sys_fstat] on the tables of any process. *)
Definition fstat_of (p : Process) (fd : Z) : M WasmStat :=
  let! entry := lift (FdTable.get (pr_fd_table p) fd) in
  let! d := lift (ok_or (Ofd.get (pr_ofd_table p) (ofd_ref entry)) EBADF) in
  stat_of_ofd p d.

Definition sys_fstat (fd : Z) : M WasmStat := let! p := gets sy_proc in fstat_of p fd.

Definition procfs_fd_target_stat (p : Process) (fd : Z) : M WasmStat :=
  let! r := attempt (fstat_of p fd) in
  match r with Ok st => ret st | Err error => fail (if bool_decide (error = EBADF) then ENOENT else error) end.

Definition procfs_entry_stat (entry : ProcfsEntry) (follow : bool) : M WasmStat :=
  let! p := gets sy_proc in
  let! procs := gets sy_procs in
  lift (validate_entry procs p entry) >;
  match entry with
  | FdLink pid fd =>
      if follow then
        if pid =? pr_pid p then procfs_fd_target_stat p fd
        else let! q := lift (ok_or (procs !! pid) ENOENT) in procfs_fd_target_stat q fd
      else ret (procfs_stat entry 0 follow)
  | _ => ret (procfs_stat entry 0 follow)
  end.

(** The end of [stat], [lstat] and [fstatat]; [fstatat] does not look for
    terminals. *)
Definition stat_resolved (terminals follow : bool) (path : bytes) : M WasmStat :=
  let! p := gets sy_proc in
  let uid := pr_euid p in let gid := pr_egid p in
  match match_virtual_device path with
  | Some dev => ret (virtual_device_stat dev uid gid)
  | None =>
      match (if terminals then match_pty_stat path uid gid else None) with
      | Some st => ret st
      | None =>
          if bool_decide (is_Some (match_dev_fd path)) then ret (dev_fd_path_stat uid gid)
          else
            match match_procfs path (pr_pid p) with
            | Some entry => procfs_entry_stat entry follow
            | None =>
                match (if is_host_backed_devfs_path path then None else match_devfs_stat path uid gid) with
                | Some st => ret st
                | None =>
                    match synthetic_file_stat path uid gid with
                    | Some st => ret st
                    | None =>
                        let! fifo := fifo_path_stat path follow in
                        match fifo with
                        | Some st => ret st
                        | None =>
                            let! sock := unix_socket_path_stat path follow in
                            match sock with
                            | Some st => ret st
                            | None => check_search_path path >; call_host_stat (if follow then RqStat path else RqLstat path)
                            end
                        end
                    end
                end
            end
      end
  end.

Definition sys_stat (path : bytes) : M WasmStat :=
  let! r := resolve_namespace_path path FOLLOW in stat_resolved true true (rn_path r).
Definition sys_lstat (path : bytes) : M WasmStat :=
  let! r := resolve_namespace_path path NOFOLLOW in stat_resolved true false (rn_path r).

Definition sys_fstatat (dirfd : Z) (path : bytes) (flags : Z) : M WasmStat :=
  if beyond flags FSTATAT_VALID_FLAGS then fail EINVAL
  else if bool_decide (path = []) then
    if negb (has_flag flags AT_EMPTY_PATH) then fail ENOENT
    else if dirfd =? AT_FDCWD then let! p := gets sy_proc in sys_stat (pr_cwd p)
    else sys_fstat dirfd
  else
    let nofollow := has_flag flags AT_SYMLINK_NOFOLLOW in
    let! r := resolve_at_path dirfd path (if nofollow then NOFOLLOW else FOLLOW) in
    stat_resolved false (negb nofollow) (rn_path r).

(** What is written to a buffer of [room]. *)
Definition readlink_resolved (path : bytes) (room : Z) : M bytes :=
  let! p := gets sy_proc in
  let! procs := gets sy_procs in
  match match_procfs path (pr_pid p) with
  | Some entry => lift (let? _ := validate_entry procs p entry in if is_symlink entry then procfs_readlink procs p entry (Z.to_nat room) else Err EINVAL)
  | None => check_search_path path >; call_host_bytes (RqReadlink path room)
  end.

Definition sys_readlink (path : bytes) (room : Z) : M bytes :=
  let! r := resolve_namespace_path path NOFOLLOW in readlink_resolved (rn_path r) room.
Definition sys_readlinkat (dirfd : Z) (path : bytes) (room : Z) : M bytes :=
  let! r := resolve_at_path dirfd path NOFOLLOW in readlink_resolved (rn_path r) room.

Definition access_mask : Z := Z.lor (Z.lor R_OK W_OK) X_OK.

Definition access_resolved (r : ResolvedNamespacePath) (uid gid amode : Z) : kresult unit :=
  if has_flag amode W_OK && (is_procfs_namespace_path (rn_path r) || bool_decide (is_Some (synthetic_file_content (rn_path r)))) then Err EACCES
  else let? st := ok_or (rn_stat r) ENOENT in check_access_for_ids uid gid st amode.

Definition with_real_ids (o : PathResolveOptions) (real : bool) : PathResolveOptions :=
  mkOptions (follow_final_symlink o) (allow_missing_final o) (allow_missing_directory o) real.

Definition sys_access (path : bytes) (amode : Z) : M unit :=
  if beyond amode access_mask then fail EINVAL
  else
    let! r := resolve_namespace_path path (with_real_ids FOLLOW true) in
    let! p := gets sy_proc in lift (access_resolved r (pr_uid p) (pr_gid p) amode).

Definition sys_faccessat (dirfd : Z) (path : bytes) (amode flags : Z) : M unit :=
  if beyond amode access_mask then fail EINVAL
  else if beyond flags (Z.lor AT_EACCESS AT_SYMLINK_NOFOLLOW) then fail EINVAL
  else
    let effective := has_flag flags AT_EACCESS in
    let! r := resolve_at_path dirfd path (with_real_ids (if has_flag flags AT_SYMLINK_NOFOLLOW then NOFOLLOW else FOLLOW) (negb effective)) in
    let! p := gets sy_proc in
    lift (if effective then access_resolved r (pr_euid p) (pr_egid p) amode else access_resolved r (pr_uid p) (pr_gid p) amode).

(** ** The working directory *)

Definition sys_chdir (path : bytes) : M unit :=
  let! r := resolve_namespace_path path FOLLOW in
  let! st := lift (ok_or (rn_stat r) ENOENT) in
  if negb (is_type st S_IFDIR) then fail ENOTDIR
  else
    let! p := gets sy_proc in
    lift (check_access p st X_OK) >;
    on_proc (fun p => with_cwd p (rn_path r)).

Definition sys_fchdir (fd : Z) : M unit :=
  let! entry := fd_entry fd in
  let! d := ofd_at (ofd_ref entry) in
  if negb (bool_decide (file_type d = Directory)) then fail ENOTDIR else on_proc (fun p => with_cwd p (Ofd.path d)).

Definition sys_getcwd (room : Z) : M bytes :=
  let! p := gets sy_proc in
  let! st := namespace_lstat_raw (pr_cwd p) in
  if negb (is_type st S_IFDIR) then fail ENOENT
  else if room <? Z.of_nat (length (pr_cwd p)) + 1 then fail ERANGE
  else ret (pr_cwd p ++ [0]).

(** ** Creating and removing entries *)

(** [fallible; undo on failure]. *)
Definition undo {A} (undoing : HostReq) (r : kresult A) : M A :=
  match r with Ok a => ret a | Err e => attempt (call_host undoing) >; fail e end.

Definition sys_mkdir_resolved (path : bytes) (mode : Z) : M unit :=
  lift (ensure_host_mutable_namespace_path path) >;
  let! p := gets sy_proc in
  let effective_mode := Z.ldiff mode (pr_umask p) in
  check_parent_writable path >;
  call_host (RqMkdir path effective_mode) >;
  call_host (RqChown path (pr_euid p) (pr_egid p)).

Definition sys_mkdir (path : bytes) (mode : Z) : M unit :=
  let! r := resolve_namespace_path path CREATE_DIRECTORY in sys_mkdir_resolved (rn_path r) mode.
Definition sys_mkdirat (dirfd : Z) (path : bytes) (mode : Z) : M unit :=
  let! r := resolve_at_path dirfd path CREATE_DIRECTORY in sys_mkdir_resolved (rn_path r) mode.

(** The checks before an entry is removed. *)
Definition check_removable (path : bytes) : M unit :=
  lift (ensure_host_mutable_namespace_path path) >; check_parent_writable path >; check_sticky_child path.

Definition sys_rmdir (path : bytes) : M unit :=
  let! r := resolve_namespace_path path NOFOLLOW in
  check_removable (rn_path r) >; call_host (RqRmdir (rn_path r)).

(** [unlink_host_entry]. *)
Definition unlink_entry_call (path : bytes) : M unit :=
  let! r := attempt (call_host (RqUnlink path)) in
  match r with
  | Err EPERM => let! st := attempt (call_host_stat (RqStat path)) in lift (unlink_host_entry (Err EPERM) st)
  | other => lift other
  end.

(** [unlink_fifo_marker]: whether the name was a FIFO. *)
Definition unlink_fifo_call (path : bytes) : M bool :=
  let! names := gets sy_fifos in
  match fifo_lookup names path with
  | None => ret false
  | Some pipe_idx =>
      let! found := fifo_stat_call path false in
      lift (ok_or found EIO) >;
      let! now := clock_call in
      unlink_entry_call path >;
      fifo_change (fun w =>
        let '(removed, r) := fifo_remove (Names.names w) path in
        if negb (bool_decide (removed = Some pipe_idx)) then (Err EIO, (mkFifoWorld r (fifo_pipes w), []))
        else let '(pt, e) := table_remove_fifo_name_at pipe_idx now.1 now.2 (fifo_pipes w) in (Ok tt, (mkFifoWorld r pt, e))) >;
      ret true
  end.

Definition unlink_resolved (path : bytes) : M unit :=
  check_removable path >;
  let! fifo := unlink_fifo_call path in
  if fifo then ret tt
  else
    let! registered := registry_change (fun u => unregister u path) in
    if registered : bool then
      wake_datagrams >;
      let! r := attempt (call_host (RqUnlink path)) in
      match r with Ok _ | Err ENOENT => ret tt | Err e => fail e end
    else unlink_entry_call path.

Definition sys_unlink (path : bytes) : M unit :=
  let! r := resolve_namespace_path path NOFOLLOW in unlink_resolved (rn_path r).

Definition sys_unlinkat (dirfd : Z) (path : bytes) (flags : Z) : M unit :=
  let! r := resolve_at_path dirfd path NOFOLLOW in
  if has_flag flags AT_REMOVEDIR then check_removable (rn_path r) >; call_host (RqRmdir (rn_path r))
  else unlink_resolved (rn_path r).

(** The marker file of a FIFO with its buffer and its name. *)
Definition make_fifo_call (r : ResolvedNamespacePath) (mode : Z) : M unit :=
  let path := rn_path r in
  if bool_decide (is_Some (rn_stat r)) then fail EEXIST
  else
    lift (ensure_host_mutable_namespace_path path) >;
    check_parent_writable path >;
    let! p := gets sy_proc in
    let! handle := call_host_int (RqOpen path O_CREAT_EXCL_WRONLY (Z.ldiff mode (pr_umask p))) in
    let! owned := attempt (call_host (RqChown path (pr_euid p) (pr_egid p))) in
    match owned with
    | Err e => attempt (call_host (RqClose handle)) >; attempt (call_host (RqUnlink path)) >; fail e
    | Ok _ =>
        let! closed := attempt (call_host (RqClose handle)) in
        undo (RqUnlink path) closed >;
        let! st := attempt (call_host_stat (RqStat path)) in
        let! metadata := undo (RqUnlink path) st in
        let! published := attempt (fifo_change (fun w => publish_fifo w path (as_fifo_stat metadata))) in
        undo (RqUnlink path) published
    end.

Definition sys_mkfifo (path : bytes) (mode : Z) : M unit :=
  let! r := resolve_namespace_path path CREATE_ENTRY in make_fifo_call r mode.
Definition sys_mkfifoat (dirfd : Z) (path : bytes) (mode : Z) : M unit :=
  let! r := resolve_at_path dirfd path CREATE_ENTRY in make_fifo_call r mode.

(** ** Renaming and linking *)

(** [refresh_displaced_fifo_before_rename]. *)
Definition refresh_displaced_call (oldpath newpath : bytes) : M (option (Z * Z)) :=
  let! names := gets sy_fifos in
  let old_pipe := fifo_lookup names oldpath in
  let new_pipe := fifo_lookup names newpath in
  if bool_decide (is_Some new_pipe) && negb (bool_decide (new_pipe = old_pipe)) then
    let! found := fifo_stat_call newpath false in
    lift (ok_or found EIO) >;
    let! now := clock_call in ret (Some now)
  else ret None.

Definition rename_options (old : ResolvedNamespacePath) : PathResolveOptions :=
  match rn_stat old with Some st => if is_type st S_IFDIR then CREATE_DIRECTORY else CREATE_ENTRY | None => CREATE_ENTRY end.

Definition rename_resolved (old new : bytes) : M unit :=
  lift (ensure_host_mutable_namespace_path old) >;
  lift (ensure_host_mutable_namespace_path new) >;
  check_parent_writable old >;
  check_parent_writable new >;
  check_sticky_child old >;
  let! target := attempt (call_host_stat (RqLstat new)) in
  (if is_ok target then check_sticky_child new else ret tt) >;
  let! displaced_ctime := refresh_displaced_call old new in
  call_host (RqRename old new) >;
  fifo_change (fun w => (Ok tt, rekey_fifo_names_after_rename w old new displaced_ctime)) >;
  let! moved := registry_change (fun u => unix_rename_path u old new) in
  if moved : bool then wake_datagrams else ret tt.

Definition sys_rename (oldpath newpath : bytes) : M unit :=
  let! old := resolve_namespace_path oldpath NOFOLLOW in
  let! new := resolve_namespace_path newpath (rename_options old) in
  rename_resolved (rn_path old) (rn_path new).
Definition sys_renameat (olddirfd : Z) (oldpath : bytes) (newdirfd : Z) (newpath : bytes) : M unit :=
  let! old := resolve_at_path olddirfd oldpath NOFOLLOW in
  let! new := resolve_at_path newdirfd newpath (rename_options old) in
  rename_resolved (rn_path old) (rn_path new).

(** [register_fifo_hardlink]; what the host answers to the undoing is ignored. *)
Definition register_hardlink_call (old new : bytes) : M unit :=
  let! registered := fifo_change (fun w => let '(r, we, calls) := register_fifo_hardlink w old new in (Ok (r, calls), we)) in
  (match registered.2 with [] => ret tt | _ => attempt (call_host (RqUnlink new)) >; ret tt end) >;
  lift registered.1.

Definition link_resolved (old new : bytes) : M unit :=
  lift (ensure_host_mutable_namespace_path old) >;
  lift (ensure_host_mutable_namespace_path new) >;
  check_search_path old >;
  check_parent_writable new >;
  call_host (RqLink old new) >;
  register_hardlink_call old new.

Definition sys_link (oldpath newpath : bytes) : M unit :=
  let! old := resolve_namespace_path oldpath NOFOLLOW in
  let! new := resolve_namespace_path newpath CREATE_ENTRY in
  link_resolved (rn_path old) (rn_path new).
Definition sys_linkat (olddirfd : Z) (oldpath : bytes) (newdirfd : Z) (newpath : bytes) (flags : Z) : M unit :=
  let! old := resolve_at_path olddirfd oldpath (if has_flag flags AT_SYMLINK_FOLLOW then FOLLOW else NOFOLLOW) in
  let! new := resolve_at_path newdirfd newpath CREATE_ENTRY in
  link_resolved (rn_path old) (rn_path new).

Definition symlink_resolved (target path : bytes) : M unit :=
  lift (ensure_host_mutable_namespace_path path) >;
  check_parent_writable path >;
  call_host (RqSymlink target path).

Definition sys_symlink (target linkpath : bytes) : M unit :=
  let! r := resolve_namespace_path linkpath CREATE_ENTRY in symlink_resolved target (rn_path r).
Definition sys_symlinkat (target : bytes) (newdirfd : Z) (linkpath : bytes) : M unit :=
  let! r := resolve_at_path newdirfd linkpath CREATE_ENTRY in symlink_resolved target (rn_path r).

(** ** Modes and owners *)

Definition chmod_resolved (path : bytes) (mode : Z) : M unit :=
  lift (ensure_host_mutable_namespace_path path) >;
  check_search_path path >;
  let! st := call_host_stat (RqStat path) in
  let! p := gets sy_proc in
  lift (check_owner_or_root p st) >;
  call_host (RqChmod path mode).

Definition sys_chmod (path : bytes) (mode : Z) : M unit :=
  let! r := resolve_namespace_path path FOLLOW in chmod_resolved (rn_path r) mode.
Definition sys_fchmodat (dirfd : Z) (path : bytes) (mode : Z) : M unit :=
  let! r := resolve_at_path dirfd path FOLLOW in chmod_resolved (rn_path r) mode.

Definition sys_chown (path : bytes) (uid gid : Z) : M unit :=
  let! r := resolve_namespace_path path FOLLOW in
  lift (ensure_host_mutable_namespace_path (rn_path r)) >;
  check_search_path (rn_path r) >;
  let! st := call_host_stat (RqStat (rn_path r)) in
  let! p := gets sy_proc in
  let! ids := lift (prepare_chown_ids p st uid gid) in
  call_host (RqChown (rn_path r) ids.1 ids.2).

(** With the metadata the resolution gave. *)
Definition chown_resolved (r : ResolvedNamespacePath) (nofollow : bool) (uid gid : Z) : M unit :=
  lift (ensure_host_mutable_namespace_path (rn_path r)) >;
  check_search_path (rn_path r) >;
  let! st := lift (ok_or (rn_stat r) ENOENT) in
  let! p := gets sy_proc in
  let! ids := lift (prepare_chown_ids p st uid gid) in
  call_host (if nofollow then RqLchown (rn_path r) ids.1 ids.2 else RqChown (rn_path r) ids.1 ids.2).

Definition sys_lchown (path : bytes) (uid gid : Z) : M unit :=
  let! r := resolve_namespace_path path NOFOLLOW in chown_resolved r true uid gid.
Definition sys_fchownat (dirfd : Z) (path : bytes) (uid gid flags : Z) : M unit :=
  if beyond flags AT_SYMLINK_NOFOLLOW then fail EINVAL
  else
    let nofollow := has_flag flags AT_SYMLINK_NOFOLLOW in
    let! r := resolve_at_path dirfd path (if nofollow then NOFOLLOW else FOLLOW) in
    chown_resolved r nofollow uid gid.

End calls.

(** ** What a call may do *)

Section authority.
Context `{Usize} `{HostIO}.

Let euid (s : Sys) := pr_euid (sy_proc s).
Let egid (s : Sys) := pr_egid (sy_proc s).

(** Every directory above the path can be searched by the caller. *)
Definition reaches (s : Sys) (path : bytes) : Prop := exists cs, path = render cs /\ near s (euid s) (egid s) cs.

(** The caller may change entries of the directory the path is in, which is not the
    kernel's. *)
Record may_modify (s : Sys) (path : bytes) : Prop := {
  mm_reaches : reaches s path;
  mm_host : host_owned path;
  mm_write : exists st, entry_of s (parent_path path) = Ok st /\ may_change_entries (euid s) (egid s) st;
}.

(** In a sticky directory: the directory's owner, the entry's owner, or root. *)
Definition sticky_ok (s : Sys) (path : bytes) : Prop :=
  forall dir, entry_of s (parent_path path) = Ok dir -> Z.land (st_mode dir) S_ISVTX <> 0 ->
    euid s = 0 \/ euid s = st_uid dir \/ exists st, entry_of s path = Ok st /\ euid s = st_uid st.

Definition reported (s : Sys) (path : bytes) (st : WasmStat) : Prop := host_stat (sy_calls s) (RqStat path) = Ok st \/ entry_of s path = Ok st.

(** Others than root may not give a file away. *)
Definition may_chown (s : Sys) (path : bytes) (uid gid : Z) : Prop :=
  reaches s path /\ host_owned path /\
  exists st, reported s path st /\ (euid s = 0 \/ euid s = st_uid st /\ uid = st_uid st /\ gid = st_gid st).

Definition opened (before : list HostReq) (path : bytes) : Prop := exists flags mode, RqOpen path flags mode ∈ before.

(** A request of a call that began in [s], after the requests [before] of it. *)
Definition permitted (s : Sys) (before : list HostReq) (r : HostReq) : Prop :=
  match r with
  | RqLstat _ | RqStat _ | RqReadlink _ _ | RqClock _ => True
  | RqMkdir path mode => may_modify s path /\ Z.land mode (pr_umask (sy_proc s)) = 0
  | RqSymlink _ path => may_modify s path
  | RqOpen path flags mode =>
      may_modify s path /\ Z.land mode (pr_umask (sy_proc s)) = 0 /\ flags = O_CREAT_EXCL_WRONLY /\ entry_of s path = Err ENOENT
  | RqRmdir path => may_modify s path /\ sticky_ok s path
  | RqUnlink path => may_modify s path /\ sticky_ok s path \/ opened before path \/ exists old, RqLink old path ∈ before
  | RqRename old new =>
      may_modify s old /\ sticky_ok s old /\ may_modify s new /\ (sticky_ok s new \/ is_ok (host_stat (sy_calls s) (RqLstat new)) = false)
  | RqLink old new => reaches s old /\ host_owned old /\ may_modify s new
  | RqChmod path _ => exists st, may_chown s path (st_uid st) (st_gid st) /\ reported s path st
  | RqChown path uid gid => may_chown s path uid gid \/ uid = euid s /\ gid = egid s /\ (opened before path \/ exists mode, RqMkdir path mode ∈ before)
  | RqLchown path uid gid => may_chown s path uid gid
  | RqClose _ => exists path, opened before path
  | _ => False
  end.

Fixpoint allowed (s : Sys) (log : list HostReq) : Prop :=
  match log with [] => True | r :: before => permitted s before r /\ allowed s before end.

Lemma queries_allowed s l : Forall query l -> allowed s l.
Proof. induction 1 as [|r l Hr Hl IH]; [done|]. split; [by destruct r|done]. Qed.

(** *** Running a call *)

Variable s0 : Sys.
Hypothesis Hsteady : steady s0.
Hypothesis Hpid : is_pid (pr_pid (sy_proc s0)).
Let p := sy_proc s0.

Definition progress (s : Sys) : Prop := sy_proc s = sy_proc s0 /\ exists l, sy_calls s = l ++ sy_calls s0 /\ allowed s0 l.

Definition obeys {A} (m : M A) (s : Sys) (Q : kresult A -> Sys -> Prop) : Prop := exists r s', m s = Some (r, s') /\ progress s' /\ Q r s'.

Lemma asked_progress s : asked s0 s -> progress s.
Proof. intros [A _ _ _ _ (l & E & Hq)]. split; [done|]. exists l. split; [done|by apply queries_allowed]. Qed.

Lemma obeys_asks {A} (m : M A) s (P : kresult A -> Prop) (Q : kresult A -> Sys -> Prop) :
  asked s0 s -> asks m s P -> (forall r s', asked s0 s' -> P r -> Q r s') -> obeys m s Q.
Proof. intros Ha (r & s' & E & Hs' & Hp) Hq. assert (asked s0 s') as H1 by (by etrans). exists r, s'. split; [done|]. split; [by apply asked_progress|by apply Hq]. Qed.

Lemma obeys_bind {A B} (m : M A) (f : A -> M B) s (Q : kresult B -> Sys -> Prop) :
  obeys m s (fun r s' => match r with Ok a => progress s' -> obeys (f a) s' Q | Err e => Q (Err e) s' end) -> obeys (bind m f) s Q.
Proof.
  intros (r & s1 & E & H1 & Hq). unfold obeys, bind. rewrite E. destruct r as [a|e]; [by apply Hq|]. by exists (Err e), s1.
Qed.

Lemma obeys_ret {A} (r : kresult A) s (Q : kresult A -> Sys -> Prop) : progress s -> Q r s -> obeys (lift r) s Q.
Proof. intros Hp Hq. by exists r, s. Qed.

Lemma obeys_attempt {A} (m : M A) s (Q : kresult (kresult A) -> Sys -> Prop) : obeys m s (fun r s' => Q (Ok r) s') -> obeys (attempt m) s Q.
Proof. intros (r & s' & E & Hp & Hq). exists (Ok r), s'. unfold attempt. by rewrite E. Qed.

Lemma progress_log s r : progress s -> (forall l, sy_calls s = l ++ sy_calls s0 -> permitted s0 l r) -> progress (log_call s r).
Proof. intros [Hp (l & E & Ha)] Hr. split; [done|]. exists (r :: l). split; [cbn; by rewrite E|]. split; [by apply Hr|done]. Qed.

Lemma obeys_call r s (Q : kresult unit -> Sys -> Prop) :
  progress s -> (forall l, sy_calls s = l ++ sy_calls s0 -> permitted s0 l r) -> (progress (log_call s r) -> Q (host_unit (sy_calls s) r) (log_call s r)) ->
  obeys (call_host r) s Q.
Proof. intros Hp Hr Hq. pose proof (progress_log s r Hp Hr) as Hp'. exists (host_unit (sy_calls s) r), (log_call s r). split; [done|]. auto. Qed.

(** A change of tables that asks nothing. *)
Lemma obeys_step {A} (m : M A) s (Q : kresult A -> Sys -> Prop) :
  progress s -> (forall s, exists r s', m s = Some (r, s') /\ sy_proc s' = sy_proc s /\ sy_calls s' = sy_calls s) ->
  (forall r s', sy_calls s' = sy_calls s -> Q r s') -> obeys m s Q.
Proof.
  intros [Hp (l & El & Ha)] Hm Hq. destruct (Hm s) as (r & s' & E & E1 & E2). exists r, s'. split; [done|]. split; [|by apply Hq].
  split; [by rewrite E1|]. exists l. by rewrite E2.
Qed.

Lemma fifo_change_quiet {A} (f : FifoWorld -> kresult A * (FifoWorld * list effect)) s :
  exists r s', fifo_change f s = Some (r, s') /\ sy_proc s' = sy_proc s /\ sy_calls s' = sy_calls s.
Proof. unfold fifo_change. destruct (f (fifo_world s)) as [r [w es]]. by eexists _, _. Qed.
Lemma registry_change_quiet {A} (f : UnixSocketRegistry -> A * UnixSocketRegistry) s :
  exists r s', registry_change f s = Some (r, s') /\ sy_proc s' = sy_proc s /\ sy_calls s' = sy_calls s.
Proof. unfold registry_change, kernel_result. destruct (f (k_unix (sy_kernel s))) as [a u]. by eexists _, _. Qed.

(** *** Resolving, relative to the start of the call *)

Lemma near_asked s uid gid cs : asked s0 s -> near s uid gid cs -> near s0 uid gid cs.
Proof. intros Ha [Hn Hk]. split; [done|]. intros k Hlt. destruct (Hk k Hlt) as (st & E & Hd). exists st. by rewrite (entry_asked _ _ _ Ha Hsteady) in E. Qed.

Lemma resolved_asked s o path r : asked s0 s -> resolved_ok s o path r -> resolved_ok s0 o path r.
Proof.
  intros Ha [(cs & E & Hn) He]. split.
  - exists cs. split; [done|]. rewrite (as_proc _ _ Ha) in Hn. by eapply near_asked.
  - rewrite (entry_asked _ _ _ Ha Hsteady), (as_proc _ _ Ha) in He. exact He.
Qed.

Lemma asks_resolve_from path base o s : asked s0 s -> asks (resolve_namespace_path_from path base o) s (when_ok (resolved_ok s0 o path)).
Proof.
  intros Ha. eapply asks_impl; [|apply resolve_asks; [by eapply steady_asked|by rewrite (as_proc _ _ Ha)]]. intros [r|e]; [|done]. by apply resolved_asked.
Qed.

Lemma asks_resolve path o s : asked s0 s -> asks (resolve_namespace_path path o) s (when_ok (resolved_ok s0 o path)).
Proof. intros Ha. apply asks_bind, asks_gets. intros s1 H1. apply asks_resolve_from. by etrans. Qed.

Lemma asks_resolve_at dirfd path o s : asked s0 s -> asks (resolve_at_path dirfd path o) s (when_ok (resolved_ok s0 o path)).
Proof.
  intros Ha. unfold resolve_at_path. destruct (starts_with_slash path); [by apply asks_resolve|]. destruct (dirfd =? AT_FDCWD); [by apply asks_resolve|].
  apply asks_bind. unfold fd_entry. apply asks_bind, asks_gets. intros s1 H1. apply asks_lift. destruct (FdTable.get _ _) as [e|err]; [|done]. intros s2 H2. apply asks_bind.
  unfold ofd_at. apply asks_bind, asks_gets. intros s3 H3. apply asks_lift. destruct (ok_or _ _) as [d|err]; [|done]. intros s4 H4. destruct (negb _); [by apply asks_fail|].
  apply asks_resolve_from. repeat (etrans; [eassumption|]). done.
Qed.

(** *** The checks *)

Lemma asks_bind_any {A B} (m : M A) (f : A -> M B) s (Q : kresult B -> Prop) :
  asks m s (fun _ => True) -> (forall a s', asked s s' -> asks (f a) s' Q) -> (forall e, Q (Err e)) -> asks (bind m f) s Q.
Proof. intros Hm Hf He. apply asks_bind. eapply asks_impl; [|exact Hm]. intros [a|e] _; [by apply Hf|apply He]. Qed.

Lemma asks_search_dir path s : asks (check_search_dir path) s (fun _ => True).
Proof.
  unfold check_search_dir. apply asks_bind_any; [|intros st s1 H1|done].
  - destruct (lstat_entry s path) as (s' & E & Hs'). by eexists _, s'.
  - destruct (negb _); [by apply asks_fail|]. apply asks_bind, asks_gets. intros s2 H2. by apply asks_lift.
Qed.

Lemma asks_search_chain dir s : asks (check_search_dir_chain dir) s (fun _ => True).
Proof.
  unfold check_search_dir_chain. apply asks_bind_any; [apply asks_search_dir|intros _ s1 H1|done]. case_bool_decide; [by apply asks_ret|].
  clear H1. revert s1. generalize ([] : bytes). induction (components dir) as [|c l IH]; intros cur s1; [by apply asks_ret|].
  cbn [check_search_chain]. apply asks_bind_any; [apply asks_search_dir|intros _ s2 _; apply IH|done].
Qed.

Definition writable_dir (path : bytes) : Prop := exists st, entry_of s0 (parent_path path) = Ok st /\ may_change_entries (euid s0) (egid s0) st.

Lemma asks_parent_writable path s : asked s0 s -> asks (check_parent_writable path) s (when_ok (fun _ => writable_dir path)).
Proof.
  intros Ha. unfold check_parent_writable. apply asks_bind_any; [apply asks_search_chain|intros _ s1 H1|done].
  apply asks_bind, (asks_lstat s0 Hsteady); [by etrans|]. destruct (entry_of s0 (parent_path path)) as [st|e] eqn:Ee; [|done]. intros s2 H2.
  apply asks_bind, asks_gets. intros s3 H3. apply asks_lift. rewrite (as_proc _ _ H2), (as_proc _ _ H1), (as_proc _ _ Ha). unfold check_access.
  destruct (has_access _ st _) eqn:Eh; [|done]. exists st. split; [done|by apply change_access].
Qed.

Lemma asks_sticky path s : asked s0 s -> asks (check_sticky_child path) s (when_ok (fun _ => sticky_ok s0 path)).
Proof.
  intros Ha. unfold check_sticky_child. apply asks_bind, asks_gets. intros s1 H1. rewrite (as_proc _ _ Ha). assert (asked s0 s1) as Ha1 by (by etrans).
  apply asks_bind, (asks_lstat s0 Hsteady); [done|]. destruct (entry_of s0 (parent_path path)) as [dir|e] eqn:Ed; [|done]. intros s2 H2.
  destruct (_ || _) eqn:Es.
  { apply asks_ret. intros dir' Ed' Hs. rewrite Ed in Ed'. injection Ed' as <-. apply orb_true_iff in Es as [E%Z.eqb_eq|E%Z.eqb_eq]; [done|by left]. }
  apply asks_bind, (asks_lstat s0 Hsteady); [by etrans|]. destruct (entry_of s0 path) as [st|e] eqn:Ee; [|done]. intros s3 H3. clear Es. destruct (_ || _) eqn:Eo; [|by apply asks_fail].
  apply asks_ret. intros dir' Ed' _. rewrite Ed in Ed'. injection Ed' as <-. right. apply orb_true_iff in Eo as [E%Z.eqb_eq|E%Z.eqb_eq]; [by left|right]. by exists st.
Qed.

(** *** Each call after its resolutions *)

Lemma obeys_check {A} (r : kresult unit) (f : M A) s (Q : kresult A -> Sys -> Prop) :
  progress s -> (r = Ok tt -> obeys f s Q) -> (forall e, r = Err e -> Q (Err e) s) -> obeys (lift r >; f) s Q.
Proof. intros Hp Hf He. apply obeys_bind, obeys_ret; [done|]. destruct r as [[]|e]; [by intros _; apply Hf|by apply He]. Qed.

Lemma obeys_ask {A B} (m : M A) (f : A -> M B) s (P : A -> Prop) (Q : kresult B -> Sys -> Prop) :
  asked s0 s -> asks m s (when_ok P) -> (forall a s', asked s0 s' -> P a -> obeys (f a) s' Q) -> (forall e s', Q (Err e) s') -> obeys (bind m f) s Q.
Proof.
  intros Ha Hm Hf He. apply obeys_bind. eapply obeys_asks; [exact Ha|exact Hm|]. intros [a|e] s' H' Hp; [intros _; by apply Hf|apply He].
Qed.

Lemma obeys_gets {A B} (g : Sys -> A) (f : A -> M B) s (Q : kresult B -> Sys -> Prop) : progress s -> obeys (f (g s)) s Q -> obeys (let! a := gets g in f a) s Q.
Proof. intros Hp Hf. apply obeys_bind. exists (Ok (g s)), s. split; [done|]. split; [done|]. by intros _. Qed.

Lemma reaches_resolved o path r : use_real_ids o = false -> resolved_ok s0 o path r -> reaches s0 (rn_path r).
Proof. intros Ho [(cs & E & Hn) _]. exists cs. split; [done|]. unfold search_ids in Hn. by rewrite Ho in Hn. Qed.

(** What was asked for was done: the host granted it.  The name of a bound socket
    is the registry's; the host need not have a file there. *)
Definition answered (before : list HostReq) (r : HostReq) : Prop :=
  match r with
  | RqOpen _ _ _ => is_ok (host_int before r) = true
  | RqUnlink path => host_unit before r = Ok tt \/ host_unit before r = Err ENOENT /\ is_Some (k_unix (sy_kernel s0) !! path)
  | _ => host_unit before r = Ok tt
  end.
Definition made (what : HostReq -> Prop) (s : Sys) : Prop := exists after r before, sy_calls s = after ++ r :: before ++ sy_calls s0 /\ what r /\ answered (before ++ sy_calls s0) r.

Lemma made_now what s r : what r -> answered (sy_calls s) r -> (exists l, sy_calls s = l ++ sy_calls s0) -> made what (log_call s r).
Proof. intros Hw Ha (l & E). exists [], r, l. cbn. rewrite <- E. auto. Qed.

Lemma made_later what s s' new : sy_calls s' = new ++ sy_calls s -> made what s -> made what s'.
Proof. intros E (after & r & before & E2 & H1 & H2). exists (new ++ after), r, before. split; [by rewrite E, E2, <- app_assoc|done]. Qed.

Definition achieved (what : HostReq -> Prop) (r : kresult unit) (s : Sys) : Prop := r = Ok tt -> made what s.

(** The last request of a call. *)
Lemma obeys_final r what s : progress s -> (forall l, sy_calls s = l ++ sy_calls s0 -> permitted s0 l r) -> what r ->
  (forall before, host_unit before r = Ok tt -> answered before r) -> obeys (call_host r) s (achieved what).
Proof.
  intros Hp Hr Hw Ha. apply obeys_call; [done|done|]. intros _ E. apply made_now; [done|by apply Ha|]. destruct Hp as [_ (l & El & _)]. by exists l.
Qed.

Lemma masked mode umask : Z.land (Z.ldiff mode umask) umask = 0.
Proof. apply Z.bits_inj'. intros n Hn. rewrite Z.land_spec, Z.ldiff_spec, Z.bits_0. destruct (Z.testbit mode n), (Z.testbit umask n); done. Qed.

Lemma obeys_mkdir path mode s : asked s0 s -> reaches s0 path -> obeys (sys_mkdir_resolved path mode) s (achieved (eq (RqMkdir path (Z.ldiff mode (pr_umask (sy_proc s0)))))).
Proof.
  intros Ha Hr. unfold sys_mkdir_resolved. apply obeys_check; [by apply asked_progress| |done]. intros Hm%host_mutable. apply obeys_gets; [by apply asked_progress|].
  rewrite (as_proc _ _ Ha). eapply obeys_ask; [exact Ha|by apply asks_parent_writable| |done]. intros [] s1 H1 Hw. pose proof (asked_progress _ H1) as Hp1.
  apply obeys_bind, obeys_call; [done|intros l _; split; [by split|apply masked]|]. intros Hp2. destruct (host_unit _ _) as [[]|e] eqn:Em; [|done]. intros _.
  apply obeys_call; [done|intros l El; right; split_and!; [done|done|right]|].
  - destruct Hp1 as [_ (l1 & El1 & _)]. exists (Z.ldiff mode (pr_umask (sy_proc s0))). cbn in El. rewrite El1, app_comm_cons in El. apply app_inv_tail in El. subst l. left.
  - intros _ _. apply (made_later _ (log_call s1 (RqMkdir path (Z.ldiff mode (pr_umask (sy_proc s0))))) _ [RqChown path (pr_euid (sy_proc s0)) (pr_egid (sy_proc s0))]); [done|].
    apply made_now; [done..|]. destruct Hp1 as [_ (l1 & El1 & _)]. by exists l1.
Qed.

Lemma asks_removable path s : asked s0 s -> reaches s0 path -> asks (check_removable path) s (when_ok (fun _ => may_modify s0 path /\ sticky_ok s0 path)).
Proof.
  intros Ha Hr. unfold check_removable. apply asks_bind, asks_lift. destruct (ensure_host_mutable_namespace_path path) as [[]|e] eqn:Em; [apply host_mutable in Em|done]. intros s1 H1.
  apply asks_bind. eapply asks_impl; [|apply asks_parent_writable; by etrans]. intros [[]|e] Hw; [|done]. intros s2 H2.
  eapply asks_impl; [|apply asks_sticky; by do 2 (etrans; [eassumption|])]. intros [[]|e] Hs; [|done]. split; [by split|done].
Qed.

Lemma obeys_rmdir path s : asked s0 s -> reaches s0 path -> obeys (check_removable path >; call_host (RqRmdir path)) s (achieved (eq (RqRmdir path))).
Proof.
  intros Ha Hr. eapply obeys_ask; [exact Ha|by apply asks_removable| |done]. intros [] s1 H1 Hm.
  apply obeys_final; [by apply asked_progress|done..].
Qed.

Lemma obeys_unlink_entry path s : progress s -> may_modify s0 path -> sticky_ok s0 path -> obeys (unlink_entry_call path) s (achieved (eq (RqUnlink path))).
Proof.
  intros Hp Hm Hs. unfold unlink_entry_call. apply obeys_bind, obeys_attempt, obeys_call; [done|intros l _; by left|]. intros Hp1 _.
  assert (exists l, sy_calls s = l ++ sy_calls s0) as Hl by (destruct Hp as [_ (l & E & _)]; by exists l).
  destruct (host_unit (sy_calls s) (RqUnlink path)) as [[]|e] eqn:Eu.
  { apply obeys_ret; [done|]. intros _. apply made_now; [done|by left|done]. }
  assert (obeys (lift (Err e)) (log_call s (RqUnlink path)) (achieved (eq (RqUnlink path)))) as Herr by (by apply obeys_ret).
  destruct e; try exact Herr. apply obeys_bind, obeys_attempt. clear Herr.
  assert (progress (log_call (log_call s (RqUnlink path)) (RqStat path))) as Hp2 by (by apply progress_log).
  eexists _, _. split; [reflexivity|]. split; [exact Hp2|]. intros _. apply obeys_ret; [done|]. destruct (host_stat _ _) as [st|e]; cbn; [by case_match|done].
Qed.

Lemma obeys_fifo_stat path s : asked s0 s -> asks (fifo_stat_call path false) s (fun _ => True).
Proof. intros Ha. destruct (fifo_stat_entry s path) as (s' & Hs' & E). unfold asks. rewrite E. by eexists _, s'. Qed.

Lemma asks_clock s : asks clock_call s (fun _ => True).
Proof.
  unfold clock_call. apply asks_bind. eexists _, _. split; [reflexivity|]. split; [by apply asked_log|]. destruct (host_time _ _); [|done]. intros s1 H1. by apply asks_lift.
Qed.

(** [Ok true] when the FIFO's name is gone, [Ok false] when there is none and nothing was done. *)
Lemma obeys_unlink_fifo path s (Q : kresult bool -> Sys -> Prop) : asked s0 s -> may_modify s0 path -> sticky_ok s0 path ->
  (forall s', made (eq (RqUnlink path)) s' -> Q (Ok true) s') -> (forall s', asked s0 s' -> Q (Ok false) s') -> (forall e s', Q (Err e) s') -> obeys (unlink_fifo_call path) s Q.
Proof.
  intros Ha Hm Hst Ht Hf He. unfold unlink_fifo_call. apply obeys_gets; [by apply asked_progress|]. destruct (fifo_lookup _ _) as [i|]; [|apply obeys_ret; [by apply asked_progress|by apply Hf]].
  eapply (obeys_ask _ _ _ (fun _ => True)); [exact Ha|eapply asks_impl; [|by apply obeys_fifo_stat]; by intros []| |done]. intros found s1 H1 _.
  apply obeys_bind, obeys_ret; [by apply asked_progress|]. destruct (ok_or found EIO); [intros _|apply He].
  eapply (obeys_ask _ _ _ (fun _ => True)); [exact H1|eapply asks_impl; [|by apply asks_clock]; by intros []| |done]. intros now s2 H2 _.
  apply obeys_bind. destruct (obeys_unlink_entry path s2 (asked_progress _ H2) Hm Hst) as (r & s3 & E3 & Hp3 & Hq3). exists r, s3. split; [done|]. split; [done|].
  destruct r as [[]|e]; [|apply He]. intros _. specialize (Hq3 eq_refl). apply obeys_bind, obeys_step; [done|intros; apply fifo_change_quiet|]. intros r s4 E4.
  assert (made (eq (RqUnlink path)) s4) as Hm4 by (by apply (made_later _ s3 _ [])). destruct r as [[]|e]; [|apply He]. intros Hp4. apply obeys_ret; [done|by apply Ht].
Qed.

Lemma obeys_unlink path s : asked s0 s -> reaches s0 path -> obeys (unlink_resolved path) s (achieved (eq (RqUnlink path))).
Proof.
  intros Ha Hr. unfold unlink_resolved. eapply obeys_ask; [exact Ha|by apply asks_removable| |done]. intros [] s1 H1 [Hm Hs]. apply obeys_bind.
  apply obeys_unlink_fifo; [done|done|done| | |done].
  - intros s2 Hm2 Hp2. apply obeys_ret; [done|]. by intros _.
  - intros s2 H2 Hp2. set (registered := bool_decide (is_Some (k_unix (sy_kernel s0) !! path))).
    assert (k_unix (sy_kernel s2) = k_unix (sy_kernel s0)) as Ek by (destruct (as_kernel _ _ H2) as (t & -> & _); done).
    apply obeys_bind. destruct (registry_change_quiet (fun u => unregister u path) s2) as (r3 & s3 & E3 & P3 & C3).
    assert (r3 = Ok registered) as -> by (revert E3; unfold registry_change, kernel_result, unregister; rewrite Ek; by intros [= <- _]).
    exists (Ok registered), s3. split; [done|]. assert (progress s3) as Hp3' by (destruct Hp2 as [Hp2 (l & El & Hl)]; split; [congruence|exists l; by rewrite C3]). split; [done|].
    intros Hp3. destruct registered eqn:Ereg.
    + apply obeys_bind, obeys_step; [done|intros; by eexists _, _|]. intros [[]|e] s4 E4; [|done]. intros Hp4.
      apply obeys_bind, obeys_attempt, obeys_call; [done|intros; by left|]. intros Hp5 _.
      assert (exists l, sy_calls s4 = l ++ sy_calls s0) as Hl by (destruct Hp4 as [_ (l & E & _)]; by exists l).
      destruct (host_unit (sy_calls s4) (RqUnlink path)) as [[]|e] eqn:Eu.
      * apply obeys_ret; [done|]. intros _. apply made_now; [done|by left|done].
      * destruct e; apply obeys_ret; try done. intros _. apply made_now; [done|right; split; [done|by apply bool_decide_eq_true in Ereg]|done].
    + by apply obeys_unlink_entry.
Qed.

(** *** FIFOs *)

Definition since (s : Sys) (l : list HostReq) : Prop := sy_calls s = l ++ sy_calls s0.

Lemma obeys_undo {A} path (r : kresult A) s (Q : kresult A -> Sys -> Prop) :
  progress s -> (exists l, since s l /\ opened l path) -> (forall a, r = Ok a -> Q (Ok a) s) -> (forall e s', Q (Err e) s') -> obeys (undo (RqUnlink path) r) s Q.
Proof.
  intros Hp (l & El & Ho) Hq He. destruct r as [a|e]; [by apply obeys_ret; [|apply Hq]|]. cbn [undo]. apply obeys_bind, obeys_attempt, obeys_call; [done| |].
  - intros l' El'. right. left. rewrite El in El'. apply app_inv_tail in El'. by subst.
  - intros Hp' _. by apply obeys_ret.
Qed.

Lemma opened_cons r l path : opened l path -> opened (r :: l) path.
Proof. intros (f & m & Hin). exists f, m. by right. Qed.

Lemma obeys_make_fifo o path r mode s : use_real_ids o = false -> asked s0 s -> resolved_ok s0 o path r -> obeys (make_fifo_call r mode) s (achieved (eq (RqOpen (rn_path r) O_CREAT_EXCL_WRONLY (Z.ldiff mode (pr_umask (sy_proc s0)))))).
Proof.
  intros Ho Ha Hr. pose proof (reaches_resolved _ _ _ Ho Hr) as Hreach. destruct Hr as [_ He]. unfold make_fifo_call. destruct (rn_stat r) as [st|]; [by apply obeys_ret; [apply asked_progress|]|].
  destruct He as (_ & _ & Hmiss & _). rewrite bool_decide_false by (by intros []). set (name := rn_path r) in *.
  apply obeys_check; [by apply asked_progress| |done]. intros Hm%host_mutable. eapply obeys_ask; [exact Ha|by apply asks_parent_writable| |done]. intros [] s1 H1 Hw. pose proof (asked_progress _ H1) as Hp1.
  apply obeys_gets; [done|]. rewrite (as_proc _ _ H1). set (rq := RqOpen name O_CREAT_EXCL_WRONLY (Z.ldiff mode (pr_umask (sy_proc s0)))). set (s2 := log_call s1 rq).
  assert (progress s2) as Hp2 by (apply progress_log; [done|]; intros l _; split_and!; [by split|apply masked|done|done]).
  apply obeys_bind. exists (host_int (sy_calls s1) rq), s2. split; [done|]. split; [done|]. destruct (host_int (sy_calls s1) rq) as [handle|e] eqn:Eh; [|done]. intros _.
  destruct Hp1 as [_ (l1 & El1 & _)]. assert (since s2 (rq :: l1)) as El2 by (unfold since; cbn; by rewrite El1).
  assert (opened (rq :: l1) name) as Ho2 by (eexists _, _; left).
  assert (made (eq rq) s2) as Hm2 by (apply made_now; [done|cbn; by rewrite Eh|by exists l1]).
  assert (forall s' l, since s' l -> forall l', sy_calls s' = l' ++ sy_calls s0 -> l' = l) as Hsame by (intros s' l E l' E'; unfold since in E; rewrite E in E'; by apply app_inv_tail in E').
  set (own := RqChown name (pr_euid (sy_proc s0)) (pr_egid (sy_proc s0))). apply obeys_bind, obeys_attempt, obeys_call; [done|intros l El; right; rewrite (Hsame _ _ El2 _ El); by split_and!; [| |left]|].
  intros Hp3. set (s3 := log_call s2 own) in *. assert (since s3 (own :: rq :: l1)) as El3 by (unfold since; cbn; by rewrite El1). intros _.
  destruct (host_unit (sy_calls s2) own) as [[]|e].
  - apply obeys_bind, obeys_attempt, obeys_call; [done|intros l El; rewrite (Hsame _ _ El3 _ El); exists name; by apply opened_cons|]. intros Hp4 _. set (s4 := log_call s3 _) in *.
    assert (exists l, since s4 l /\ opened l name) as Hl4 by (exists (RqClose handle :: own :: rq :: l1); split; [unfold since; cbn; by rewrite El1|by do 2 apply opened_cons]).
    assert (made (eq rq) s4) as Hm4 by (by apply (made_later _ s2 _ [RqClose handle; own])).
    apply obeys_bind, obeys_undo; [done|done| |done]. intros [] _ _. apply obeys_bind, obeys_attempt. set (s5 := log_call s4 (RqStat name)).
    assert (progress s5) as Hp5 by (by apply progress_log). eexists _, s5. split; [reflexivity|]. split; [done|]. intros _.
    assert (exists l, since s5 l /\ opened l name) as Hl5 by (destruct Hl4 as (l & E & Hop); exists (RqStat name :: l); split; [unfold since in E |- *; unfold s5; cbn [log_call sy_calls]; rewrite E; reflexivity|by apply opened_cons]).
    apply obeys_bind, obeys_undo; [done|done| |done]. intros st _ _. apply obeys_bind, obeys_attempt, obeys_step; [done|intros; apply fifo_change_quiet|]. intros r6 s6 E6 Hp6.
    apply obeys_undo; [done|by unfold since in *; rewrite E6| |done]. intros [] _ _. apply (made_later _ s4 _ [RqStat name]); [by rewrite E6|done].
  - apply obeys_bind, obeys_attempt, obeys_call; [done|intros l El; rewrite (Hsame _ _ El3 _ El); exists name; by apply opened_cons|]. intros Hp4 _. set (s4 := log_call s3 _) in *.
    apply obeys_bind, obeys_attempt, obeys_call; [done|intros l El; right; left|intros Hp5 _; by apply obeys_ret].
    cbn in El. rewrite El1, !app_comm_cons in El. apply app_inv_tail in El. subst l. by do 2 apply opened_cons.
Qed.

(** *** Names *)

Lemma asks_displaced old new s : asked s0 s -> asks (refresh_displaced_call old new) s (fun _ => True).
Proof.
  intros Ha. unfold refresh_displaced_call. apply asks_bind, asks_gets. intros s1 H1. destruct (_ && _); [|by apply asks_ret].
  apply asks_bind_any; [apply obeys_fifo_stat; by etrans|intros found s2 H2|done]. apply asks_bind_any; [by apply asks_lift|intros _ s3 H3|done].
  apply asks_bind_any; [by apply asks_clock|intros now s4 H4|done]. by apply asks_ret.
Qed.

Lemma asks_host_lstat path s : asked s0 s -> asks (call_host_stat (RqLstat path)) s (fun r => r = host_stat (sy_calls s0) (RqLstat path)).
Proof.
  intros [_ _ _ _ _ (l & E & Hq)]. eexists _, _. split; [reflexivity|]. split; [by apply asked_log|]. by rewrite E, Hsteady.
Qed.

Lemma obeys_rename old new s : asked s0 s -> reaches s0 old -> reaches s0 new -> obeys (rename_resolved old new) s (achieved (eq (RqRename old new))).
Proof.
  intros Ha Hold Hnew. unfold rename_resolved. apply obeys_check; [by apply asked_progress| |done]. intros Hm1%host_mutable. apply obeys_check; [by apply asked_progress| |done]. intros Hm2%host_mutable.
  eapply obeys_ask; [exact Ha|by apply asks_parent_writable| |done]. intros [] s1 H1 Hw1. eapply obeys_ask; [exact H1|by apply asks_parent_writable| |done]. intros [] s2 H2 Hw2.
  eapply obeys_ask; [exact H2|by apply asks_sticky| |done]. intros [] s3 H3 Hst.
  eapply (obeys_ask _ _ _ (fun r => r = host_stat (sy_calls s0) (RqLstat new))); [exact H3|apply asks_attempt; eapply asks_impl; [|by apply asks_host_lstat]; by intros r ->| |done].
  intros target s4 H4 ->.
  eapply (obeys_ask _ _ _ (fun _ => sticky_ok s0 new \/ is_ok (host_stat (sy_calls s0) (RqLstat new)) = false)); [exact H4| | |done].
  { destruct (is_ok _) eqn:Eo; [eapply asks_impl; [|by apply asks_sticky]; intros [[]|e]; [by left|done]|apply asks_ret; by right]. }
  intros [] s5 H5 Hst2. eapply (obeys_ask _ _ _ (fun _ => True)); [exact H5|eapply asks_impl; [|by apply asks_displaced]; by intros []| |done]. intros ct s6 H6 _.
  apply obeys_bind, obeys_call; [by apply asked_progress|intros l _; split_and!; [by split|done|by split|done]|]. intros Hp7. destruct (host_unit _ _) as [[]|e] eqn:Er; [|done]. intros _.
  assert (made (eq (RqRename old new)) (log_call s6 (RqRename old new))) as Hmade by (apply made_now; [done|done|]; destruct H6 as [_ _ _ _ _ (l & E & _)]; by exists l).
  apply obeys_bind, obeys_step; [done|intros; apply fifo_change_quiet|]. intros [[]|e] s8 E8; [|done]. intros Hp8.
  apply obeys_bind, obeys_step; [done|intros; apply registry_change_quiet|]. intros [moved|e] s9 E9; [|done]. intros Hp9.
  assert (made (eq (RqRename old new)) s9) as Hmade9 by (apply (made_later _ (log_call s6 (RqRename old new)) _ []); [by rewrite E9, E8|done]).
  destruct moved; [|apply obeys_ret; [done|by intros _]]. apply obeys_step; [done|intros; by eexists _, _|]. intros r s10 E10 _. by apply (made_later _ s9 _ []).
Qed.

Lemma obeys_link old new s : asked s0 s -> reaches s0 old -> reaches s0 new -> obeys (link_resolved old new) s (achieved (eq (RqLink old new))).
Proof.
  intros Ha Hold Hnew. unfold link_resolved. apply obeys_check; [by apply asked_progress| |done]. intros Hm1%host_mutable. apply obeys_check; [by apply asked_progress| |done]. intros Hm2%host_mutable.
  eapply (obeys_ask _ _ _ (fun _ => True)); [exact Ha|eapply asks_impl; [|apply asks_search_chain]; by intros []| |done]. intros [] s1 H1 _.
  eapply obeys_ask; [exact H1|by apply asks_parent_writable| |done]. intros [] s2 H2 Hw.
  apply obeys_bind, obeys_call; [by apply asked_progress|intros l _; split_and!; [done|done|by split]|]. intros Hp3. destruct (host_unit _ _) as [[]|e] eqn:Er; [|done]. intros _.
  set (s3 := log_call s2 (RqLink old new)) in *. assert (exists l, since s2 l) as (l2 & El2) by (destruct H2 as [_ _ _ _ _ (l & E & _)]; by exists l). unfold since in El2.
  assert (made (eq (RqLink old new)) s3) as Hmade by (apply made_now; [done|done|by exists l2]).
  unfold register_hardlink_call. apply obeys_bind, obeys_step; [done|intros; apply fifo_change_quiet|]. intros [registered|e] s4 E4; [|done]. intros Hp4.
  assert (made (eq (RqLink old new)) s4) as Hmade4 by (by apply (made_later _ s3 _ [])). destruct registered.2 as [|c cs].
  - apply obeys_bind, obeys_ret; [done|]. intros _. apply obeys_ret; [done|]. by intros _.
  - apply obeys_bind, obeys_bind, obeys_attempt, obeys_call; [done| |].
    + intros l El. right. right. exists old. rewrite E4 in El. unfold s3 in El. cbn in El. rewrite El2, app_comm_cons in El. apply app_inv_tail in El. subst l. left.
    + intros Hp5 _. apply obeys_ret; [done|]. intros _. apply obeys_ret; [done|]. intros _. by apply (made_later _ s4 _ [RqUnlink new]).
Qed.

Lemma obeys_symlink target path s : asked s0 s -> reaches s0 path -> obeys (symlink_resolved target path) s (achieved (eq (RqSymlink target path))).
Proof.
  intros Ha Hr. unfold symlink_resolved. apply obeys_check; [by apply asked_progress| |done]. intros Hm%host_mutable.
  eapply obeys_ask; [exact Ha|by apply asks_parent_writable| |done]. intros [] s1 H1 Hw. apply obeys_final; [by apply asked_progress|done..].
Qed.

(** *** Modes and owners *)

Lemma asks_host_stat path s : asked s0 s -> asks (call_host_stat (RqStat path)) s (when_ok (fun st => reported s0 path st)).
Proof.
  intros [_ _ _ _ _ (l & E & Hq)]. eexists _, _. split; [reflexivity|]. split; [by apply asked_log|]. rewrite E, Hsteady by done.
  destruct (host_stat (sy_calls s0) (RqStat path)) eqn:Es; [by left|done].
Qed.

Lemma obeys_chmod path mode s : asked s0 s -> reaches s0 path -> obeys (chmod_resolved path mode) s (achieved (eq (RqChmod path mode))).
Proof.
  intros Ha Hr. unfold chmod_resolved. apply obeys_check; [by apply asked_progress| |done]. intros Hm%host_mutable.
  eapply (obeys_ask _ _ _ (fun _ => True)); [exact Ha|eapply asks_impl; [|apply asks_search_chain]; by intros []| |done]. intros [] s1 H1 _.
  eapply obeys_ask; [exact H1|by apply asks_host_stat| |done]. intros st s2 H2 Hst. apply obeys_gets; [by apply asked_progress|]. rewrite (as_proc _ _ H2).
  apply obeys_check; [by apply asked_progress| |done]. intros Ho. apply obeys_final; [by apply asked_progress| |done..]. intros l _. exists st. split; [|done].
  split_and!; [done|done|]. exists st. split; [done|]. unfold check_owner_or_root in Ho. destruct (_ || _) eqn:E; [|done]. apply orb_true_iff in E as [E%Z.eqb_eq|E%Z.eqb_eq]; [by left|by right].
Qed.

Lemma chown_ids path st uid gid ids : reaches s0 path -> host_owned path -> reported s0 path st ->
  prepare_chown_ids (sy_proc s0) st uid gid = Ok ids -> may_chown s0 path ids.1 ids.2.
Proof.
  intros Hr Hm Hst E. split_and!; [done|done|]. exists st. split; [done|]. unfold prepare_chown_ids in E. cbv zeta in E. destruct (Z.eqb_spec (pr_euid (sy_proc s0)) 0) as [|Hne]; [by left|right].
  cbn [negb andb] in E. destruct (_ && _) eqn:Eb in E; [|done]. cbn [negb] in E. apply andb_true_iff in Eb as [[E1 E2]%andb_true_iff E3%Z.eqb_eq]. rewrite E1, E2 in E. by injection E as <-.
Qed.

(** [-1] keeps an identifier. *)
Definition wanted (want own : Z) : Z := if want =? u32_max then own else want.

Definition owned_as (path : bytes) (nofollow : bool) (uid gid : Z) (rq : HostReq) : Prop := exists st, reported s0 path st /\
  rq = (if nofollow then RqLchown else RqChown) path (wanted uid (st_uid st)) (wanted gid (st_gid st)).

Lemma obeys_chown_by path st uid gid (nofollow : bool) s :
  asked s0 s -> reaches s0 path -> host_owned path -> reported s0 path st ->
  obeys (let! p := gets sy_proc in let! ids := lift (prepare_chown_ids p st uid gid) in
    call_host (if nofollow then RqLchown path ids.1 ids.2 else RqChown path ids.1 ids.2)) s (achieved (owned_as path nofollow uid gid)).
Proof.
  intros Ha Hr Hm Hst. apply obeys_gets; [by apply asked_progress|]. rewrite (as_proc _ _ Ha). apply obeys_bind, obeys_ret; [by apply asked_progress|].
  destruct (prepare_chown_ids (sy_proc s0) st uid gid) as [ids|e] eqn:E; [|done]. intros Hp. pose proof (chown_ids _ _ _ _ _ Hr Hm Hst E) as Hc.
  assert (ids = (wanted uid (st_uid st), wanted gid (st_gid st))) as -> by (revert E; unfold prepare_chown_ids; destruct (_ && _); [done|]; by intros [= <-]).
  apply obeys_final; [done| | |]; destruct nofollow; try done; [intros l _; by left|by exists st..].
Qed.

Lemma obeys_chown o path r nofollow uid gid s : use_real_ids o = false -> asked s0 s -> resolved_ok s0 o path r ->
  obeys (chown_resolved r nofollow uid gid) s (achieved (owned_as (rn_path r) nofollow uid gid)).
Proof.
  intros Ho Ha Hr. pose proof (reaches_resolved _ _ _ Ho Hr) as Hreach. destruct Hr as [_ He]. unfold chown_resolved. apply obeys_check; [by apply asked_progress| |done]. intros Hm%host_mutable.
  eapply (obeys_ask _ _ _ (fun _ => True)); [exact Ha|eapply asks_impl; [|apply asks_search_chain]; by intros []| |done]. intros [] s1 H1 _.
  apply obeys_bind, obeys_ret; [by apply asked_progress|]. destruct (rn_stat r) as [st|]; [|done]. intros _. cbn [ok_or].
  apply obeys_chown_by; [done..|right; apply He].
Qed.

End authority.

(** ** The calls *)

Inductive PathCall :=
| CMkdir (path : bytes) (mode : Z)
| CMkdirat (dirfd : Z) (path : bytes) (mode : Z)
| CRmdir (path : bytes)
| CUnlink (path : bytes)
| CUnlinkat (dirfd : Z) (path : bytes) (flags : Z)
| CMkfifo (path : bytes) (mode : Z)
| CMkfifoat (dirfd : Z) (path : bytes) (mode : Z)
| CRename (oldpath newpath : bytes)
| CRenameat (olddirfd : Z) (oldpath : bytes) (newdirfd : Z) (newpath : bytes)
| CLink (oldpath newpath : bytes)
| CLinkat (olddirfd : Z) (oldpath : bytes) (newdirfd : Z) (newpath : bytes) (flags : Z)
| CSymlink (target linkpath : bytes)
| CSymlinkat (target : bytes) (newdirfd : Z) (linkpath : bytes)
| CChmod (path : bytes) (mode : Z)
| CFchmodat (dirfd : Z) (path : bytes) (mode : Z)
| CChown (path : bytes) (uid gid : Z)
| CLchown (path : bytes) (uid gid : Z)
| CFchownat (dirfd : Z) (path : bytes) (uid gid flags : Z).

Section path_calls.
Context `{Usize} `{HostIO}.

Definition run_path_call (c : PathCall) : M unit :=
  match c with
  | CMkdir path mode => sys_mkdir path mode
  | CMkdirat dirfd path mode => sys_mkdirat dirfd path mode
  | CRmdir path => sys_rmdir path
  | CUnlink path => sys_unlink path
  | CUnlinkat dirfd path flags => sys_unlinkat dirfd path flags
  | CMkfifo path mode => sys_mkfifo path mode
  | CMkfifoat dirfd path mode => sys_mkfifoat dirfd path mode
  | CRename old new => sys_rename old new
  | CRenameat olddirfd old newdirfd new => sys_renameat olddirfd old newdirfd new
  | CLink old new => sys_link old new
  | CLinkat olddirfd old newdirfd new flags => sys_linkat olddirfd old newdirfd new flags
  | CSymlink target path => sys_symlink target path
  | CSymlinkat target dirfd path => sys_symlinkat target dirfd path
  | CChmod path mode => sys_chmod path mode
  | CFchmodat dirfd path mode => sys_fchmodat dirfd path mode
  | CChown path uid gid => sys_chown path uid gid
  | CLchown path uid gid => sys_lchown path uid gid
  | CFchownat dirfd path uid gid flags => sys_fchownat dirfd path uid gid flags
  end.

(** A resolution made during the call, after queries only. *)
Definition resolves (s : Sys) (m : M ResolvedNamespacePath) (r : ResolvedNamespacePath) : Prop := exists s1 s2, asked s s1 /\ m s1 = Some (Ok r, s2).

Definition at_path (s : Sys) (m : M ResolvedNamespacePath) (what : bytes -> HostReq -> Prop) (rq : HostReq) : Prop :=
  exists r, resolves s m r /\ what (rn_path r) rq.
Definition at_paths (s : Sys) (m : M ResolvedNamespacePath) (m' : ResolvedNamespacePath -> M ResolvedNamespacePath) (what : bytes -> bytes -> HostReq) (rq : HostReq) : Prop :=
  exists r r', resolves s m r /\ resolves s (m' r) r' /\ rq = what (rn_path r) (rn_path r').

(** The request that does what a call is for: on the paths its names resolve to,
    with its arguments and, for a new entry, the caller's mask. *)
Definition purpose (s : Sys) (c : PathCall) : HostReq -> Prop :=
  let masked mode := Z.ldiff mode (pr_umask (sy_proc s)) in
  match c with
  | CMkdir path mode => at_path s (resolve_namespace_path path CREATE_DIRECTORY) (fun p => eq (RqMkdir p (masked mode)))
  | CMkdirat dirfd path mode => at_path s (resolve_at_path dirfd path CREATE_DIRECTORY) (fun p => eq (RqMkdir p (masked mode)))
  | CRmdir path => at_path s (resolve_namespace_path path NOFOLLOW) (fun p => eq (RqRmdir p))
  | CUnlink path => at_path s (resolve_namespace_path path NOFOLLOW) (fun p => eq (RqUnlink p))
  | CUnlinkat dirfd path flags =>
      at_path s (resolve_at_path dirfd path NOFOLLOW) (fun p => eq (if has_flag flags AT_REMOVEDIR then RqRmdir p else RqUnlink p))
  | CMkfifo path mode => at_path s (resolve_namespace_path path CREATE_ENTRY) (fun p => eq (RqOpen p O_CREAT_EXCL_WRONLY (masked mode)))
  | CMkfifoat dirfd path mode => at_path s (resolve_at_path dirfd path CREATE_ENTRY) (fun p => eq (RqOpen p O_CREAT_EXCL_WRONLY (masked mode)))
  | CRename old new => at_paths s (resolve_namespace_path old NOFOLLOW) (fun r => resolve_namespace_path new (rename_options r)) RqRename
  | CRenameat olddirfd old newdirfd new => at_paths s (resolve_at_path olddirfd old NOFOLLOW) (fun r => resolve_at_path newdirfd new (rename_options r)) RqRename
  | CLink old new => at_paths s (resolve_namespace_path old NOFOLLOW) (fun _ => resolve_namespace_path new CREATE_ENTRY) RqLink
  | CLinkat olddirfd old newdirfd new flags =>
      at_paths s (resolve_at_path olddirfd old (if has_flag flags AT_SYMLINK_FOLLOW then FOLLOW else NOFOLLOW)) (fun _ => resolve_at_path newdirfd new CREATE_ENTRY) RqLink
  | CSymlink target path => at_path s (resolve_namespace_path path CREATE_ENTRY) (fun p => eq (RqSymlink target p))
  | CSymlinkat target dirfd path => at_path s (resolve_at_path dirfd path CREATE_ENTRY) (fun p => eq (RqSymlink target p))
  | CChmod path mode => at_path s (resolve_namespace_path path FOLLOW) (fun p => eq (RqChmod p mode))
  | CFchmodat dirfd path mode => at_path s (resolve_at_path dirfd path FOLLOW) (fun p => eq (RqChmod p mode))
  | CChown path uid gid => at_path s (resolve_namespace_path path FOLLOW) (fun p => owned_as s p false uid gid)
  | CLchown path uid gid => at_path s (resolve_namespace_path path NOFOLLOW) (fun p => owned_as s p true uid gid)
  | CFchownat dirfd path uid gid flags =>
      let nofollow := has_flag flags AT_SYMLINK_NOFOLLOW in
      at_path s (resolve_at_path dirfd path (if nofollow then NOFOLLOW else FOLLOW)) (fun p => owned_as s p nofollow uid gid)
  end.

(** Resolutions first. *)
Lemma obeys_resolved {B} s0 (m : M ResolvedNamespacePath) o path (f : ResolvedNamespacePath -> M B) s (Q : kresult B -> Sys -> Prop) :
  asked s0 s -> asks m s (when_ok (resolved_ok s0 o path)) ->
  (forall r s', asked s0 s' -> resolves s0 m r -> resolved_ok s0 o path r -> obeys s0 (f r) s' Q) -> (forall e s', Q (Err e) s') -> obeys s0 (bind m f) s Q.
Proof.
  intros Ha (r & s1 & E & H1 & Hr) Hf He. assert (asked s0 s1) as Ha1 by (by etrans). apply obeys_bind. exists r, s1. split; [done|]. split; [by apply asked_progress|].
  destruct r as [r|e]; [intros _|apply He]. apply Hf; [done|by exists s, s1|exact Hr].
Qed.

Lemma made_impl s0 s (what what' : HostReq -> Prop) : (forall r, what r -> what' r) -> made s0 what s -> made s0 what' s.
Proof. intros Hw (after & r & before & E & Hr & Ha). exists after, r, before. auto. Qed.

Lemma obeys_achieved s0 (m : M unit) s (what what' : HostReq -> Prop) :
  (forall r, what r -> what' r) -> obeys s0 m s (achieved s0 what) -> obeys s0 m s (achieved s0 what').
Proof. intros Hw (r & s' & E & Hp & Hq). exists r, s'. split; [done|]. split; [done|]. intros Hr. eapply made_impl; [exact Hw|by apply Hq]. Qed.

Lemma obeys_path_call c s : steady s -> is_pid (pr_pid (sy_proc s)) -> obeys s (run_path_call c) s (achieved s (purpose s c)).
Proof.
  intros Hs Hp. assert (asked s s) as Ha by done.
  pose proof (asks_resolve s Hs Hp) as R. pose proof (asks_resolve_at s Hs Hp) as RA. pose proof (reaches_resolved s) as Hr.
  assert (forall m r what s' (f : M unit), resolves s m r -> obeys s f s' (achieved s (what (rn_path r))) -> obeys s f s' (achieved s (at_path s m what))) as One
    by (intros m r what s' f Hm; apply obeys_achieved; intros rq Hrq; by exists r).
  assert (forall m m' r r' what s' (f : M unit), resolves s m r -> resolves s (m' r) r' -> obeys s f s' (achieved s (eq (what (rn_path r) (rn_path r')))) -> obeys s f s' (achieved s (at_paths s m m' what))) as Two
    by (intros m m' r r' what s' f Hm Hm'; apply obeys_achieved; intros rq <-; by exists r, r').
  destruct c; cbn [run_path_call purpose]; cbv zeta.
  - eapply obeys_resolved; [done|by apply R| |done]. intros r s1 H1 Hm Ho. apply (One _ _ _ _ _ Hm), obeys_mkdir; [done|done|eapply Hr; [|eassumption]; done].
  - eapply obeys_resolved; [done|by apply RA| |done]. intros r s1 H1 Hm Ho. apply (One _ _ _ _ _ Hm), obeys_mkdir; [done|done|eapply Hr; [|eassumption]; done].
  - eapply obeys_resolved; [done|by apply R| |done]. intros r s1 H1 Hm Ho. apply (One _ _ _ _ _ Hm), obeys_rmdir; [done|done|eapply Hr; [|eassumption]; done].
  - eapply obeys_resolved; [done|by apply R| |done]. intros r s1 H1 Hm Ho. apply (One _ _ _ _ _ Hm), obeys_unlink; [done|done|eapply Hr; [|eassumption]; done].
  - eapply obeys_resolved; [done|by apply RA| |done]. intros r s1 H1 Hm Ho. apply (One _ _ _ _ _ Hm).
    destruct (has_flag flags AT_REMOVEDIR); [apply obeys_rmdir|apply obeys_unlink]; first [done|eapply Hr; [|eassumption]; done].
  - eapply obeys_resolved; [done|by apply R| |done]. intros r s1 H1 Hm Ho. apply (One _ _ _ _ _ Hm). eapply obeys_make_fifo; [done| |done|exact Ho]; done.
  - eapply obeys_resolved; [done|by apply RA| |done]. intros r s1 H1 Hm Ho. apply (One _ _ _ _ _ Hm). eapply obeys_make_fifo; [done| |done|exact Ho]; done.
  - eapply obeys_resolved; [done|by apply R| |done]. intros r s1 H1 Hm1 Ho1. eapply obeys_resolved; [done|by apply R| |done]. intros r2 s2 H2 Hm2 Ho2.
    apply (Two _ (fun r => resolve_namespace_path newpath (rename_options r)) _ _ _ _ _ Hm1 Hm2), obeys_rename; [done|done|eapply Hr; [|eassumption]; done|eapply Hr; [|exact Ho2]]. unfold rename_options. by repeat case_match.
  - eapply obeys_resolved; [done|by apply RA| |done]. intros r s1 H1 Hm1 Ho1. eapply obeys_resolved; [done|by apply RA| |done]. intros r2 s2 H2 Hm2 Ho2.
    apply (Two _ (fun r => resolve_at_path newdirfd newpath (rename_options r)) _ _ _ _ _ Hm1 Hm2), obeys_rename; [done|done|eapply Hr; [|eassumption]; done|eapply Hr; [|exact Ho2]]. unfold rename_options. by repeat case_match.
  - eapply obeys_resolved; [done|by apply R| |done]. intros r s1 H1 Hm1 Ho1. eapply obeys_resolved; [done|by apply R| |done]. intros r2 s2 H2 Hm2 Ho2.
    apply (Two _ (fun _ => resolve_namespace_path newpath CREATE_ENTRY) _ _ _ _ _ Hm1 Hm2), obeys_link; [done|done|eapply Hr; [|eassumption]; done|eapply Hr; [|eassumption]; done].
  - eapply obeys_resolved; [done|by apply RA| |done]. intros r s1 H1 Hm1 Ho1. eapply obeys_resolved; [done|by apply RA| |done]. intros r2 s2 H2 Hm2 Ho2.
    apply (Two _ (fun _ => resolve_at_path newdirfd newpath CREATE_ENTRY) _ _ _ _ _ Hm1 Hm2), obeys_link; [done|done|eapply Hr; [|exact Ho1]; by case_match|eapply Hr; [|eassumption]; done].
  - eapply obeys_resolved; [done|by apply R| |done]. intros r s1 H1 Hm Ho. apply (One _ _ _ _ _ Hm), obeys_symlink; [done|done|eapply Hr; [|eassumption]; done].
  - eapply obeys_resolved; [done|by apply RA| |done]. intros r s1 H1 Hm Ho. apply (One _ _ _ _ _ Hm), obeys_symlink; [done|done|eapply Hr; [|eassumption]; done].
  - eapply obeys_resolved; [done|by apply R| |done]. intros r s1 H1 Hm Ho. apply (One _ _ _ _ _ Hm), obeys_chmod; [done|done|eapply Hr; [|eassumption]; done].
  - eapply obeys_resolved; [done|by apply RA| |done]. intros r s1 H1 Hm Ho. apply (One _ _ _ _ _ Hm), obeys_chmod; [done|done|eapply Hr; [|eassumption]; done].
  - eapply obeys_resolved; [done|by apply R| |done]. intros r s1 H1 Hm Ho. assert (reaches s (rn_path r)) as Hreach by (eapply Hr; [|eassumption]; done). apply (One _ _ _ _ _ Hm).
    apply obeys_check; [by apply asked_progress| |done]. intros Hmu%host_mutable.
    eapply (obeys_ask s _ _ _ (fun _ => True)); [done|eapply asks_impl; [|apply asks_search_chain]; by intros []| |done]. intros [] s2 H2 _.
    eapply obeys_ask; [exact H2|by apply asks_host_stat| |done]. intros st s3 H3 Hst. by apply (obeys_chown_by s (rn_path r) st uid gid false s3).
  - eapply obeys_resolved; [done|by apply R| |done]. intros r s1 H1 Hm Ho. apply (One _ _ _ _ _ Hm). eapply obeys_chown; [|done|exact Ho]; done.
  - unfold sys_fchownat. destruct (beyond _ _); [by apply obeys_ret; [apply asked_progress|]|].
    eapply obeys_resolved; [done|by apply RA| |done]. intros r s1 H1 Hm Ho. apply (One _ _ _ _ _ Hm). eapply obeys_chown; [|done|exact Ho]. by case_match.
Qed.

(** C11: A call on pathnames asks the host for nothing the caller may not do.
    For every call that creates, removes, renames, links or describes entries, by
    path or relative to a descriptor, in any state of a caller whose process number
    is in range, whatever the host answers as long as queries alone do not change
    metadata: the call ends, the process is unchanged, and each request it made was
    permitted, in the order made.  A change of an entry is below searchable
    directories, in a directory whose mode bits let the caller's class write and
    search it, outside the kernel's own trees; removal and renaming respect the
    sticky bit; new files have the caller's mask; others than root change only
    their own files and give none away.  A call succeeds only after the host has
    granted the very request it is for, on the paths its names resolve to and with
    its arguments; one exception: unlinking the name of a bound socket succeeds
    also when the host has no such file. *)
Theorem path_calls_authorized c s :
  steady s -> is_pid (pr_pid (sy_proc s)) ->
  exists r s' l, run_path_call c s = Some (r, s') /\ sy_proc s' = sy_proc s /\ sy_calls s' = l ++ sy_calls s /\ allowed s l /\ (r = Ok tt -> made s (purpose s c) s').
Proof. intros Hs Hp. destruct (obeys_path_call c s Hs Hp) as (r & s' & E & (Hpr & l & El & Hl) & Ho). by exists r, s', l. Qed.

End path_calls.

(** ** In the small tree *)

#[local] Existing Instance tree_host.

(** Through the link, user 1000 makes a directory at home. *)
Lemma path_calls_authorized_witness :
  exists s' l, run_path_call (CMkdir (lit "/l/new") 511) (tree_sys tree_user) = Some (Ok tt, s') /\ sy_calls s' = l /\ allowed (tree_sys tree_user) l /\
    may_modify (tree_sys tree_user) (lit "/home/u/new") /\ made (tree_sys tree_user) (purpose (tree_sys tree_user) (CMkdir (lit "/l/new") 511)) s'.
Proof.
  assert (match run_path_call (CMkdir (lit "/l/new") 511) (tree_sys tree_user) with
          | Some (Ok _, s') => match sy_calls s' with RqChown _ 1000 1000 :: RqMkdir path _ :: _ => path = lit "/home/u/new" | _ => False end
          | _ => False end) as He by (vm_compute; reflexivity).
  destruct (path_calls_authorized (CMkdir (lit "/l/new") 511) (tree_sys tree_user) (tree_steady _) user_pid) as (r & s' & l & E & _ & El & Hl & Hm).
  rewrite E in He. destruct r as [[]|e]; [|destruct He]. exists s', l. change (sy_calls (tree_sys tree_user)) with (@nil HostReq) in El. rewrite app_nil_r in El.
  split; [exact E|]. split; [exact El|]. split; [exact Hl|]. split; [|exact (Hm eq_refl)].
  rewrite El in He. destruct l as [|[] [|[] l]]; try (destruct He); try (exfalso; repeat case_match; exact He).
  assert (path0 = lit "/home/u/new") as Hpath by (repeat case_match; first [exact He|destruct He]). destruct Hl as (_ & [Hmod _] & _). rewrite <- Hpath. exact Hmod.
Defined.

(** ** Observations *)

(** [rmdir] of a path that ends in a dot removes the directory. *)
Example rmdir_dot_removes :
  match sys_rmdir (lit "/home/u/.") (tree_sys (with_credentials life_leader 0 0 0 0)) with
  | Some (Ok _, s') => head (sy_calls s') = Some (RqRmdir (lit "/home/u"))
  | _ => False
  end.
Proof. vm_compute. reflexivity. Qed.

(** The owner of a file cannot change its group to the group of the process. *)
Example own_group_refused : prepare_chown_ids tree_user (mode_stat 33188 1000 0) u32_max 1000 = Err EPERM.
Proof. vm_compute. reflexivity. Qed.

(** [stat] knows the terminal; [fstatat] asks the host for it. *)
Example fstatat_asks_for_terminal :
  (exists s', sys_stat (lit "/dev/tty") (tree_sys tree_user) = Some (Ok (plain_stat 5 1347705088 8592 1 1000 1000 0), s')) /\
  match sys_fstatat AT_FDCWD (lit "/dev/tty") 0 (tree_sys tree_user) with
  | Some (Err ENOENT, s') => head (sy_calls s') = Some (RqStat (lit "/dev/tty"))
  | _ => False
  end.
Proof. split; [eexists; vm_compute; reflexivity|vm_compute; reflexivity]. Qed.

(** When the host does not change the owner, the new directory stays. *)
Definition no_chown_host : HostIO := {|
  host_unit _ r := match r with RqChown _ _ _ => Err EIO | _ => Ok tt end;
  host_stat _ r := match r with RqLstat path | RqStat path => tree_lstat path | _ => Err EIO end;
  host_int _ _ := Err EIO; host_bytes _ _ := Err EINVAL; host_time _ _ := Err EIO;
|}.

Example failed_mkdir_leaves_directory :
  match sys_mkdir (H0 := no_chown_host) (lit "/home/u/new") 511 (tree_sys tree_user) with
  | Some (Err EIO, s') => match sy_calls s' with RqChown _ _ _ :: RqMkdir _ _ :: _ => True | _ => False end
  | _ => False
  end.
Proof. vm_compute. exact I. Qed.
